(* ===== verification/_CoqProject ===== *)
-Q . S2P
Prelude.v
Bitcoin.v
Primitives.v
Reference.v
Script.v
Ord.v
Envelope.v
Lex.v
Correctness.v
Malleability.v
Types.v
ExtData.v
Tree.v
StackLoop.v
Ast.v
Context.v
Samples.v
AstProps.v
Views.v
Decode.v
Translate.v
Semantic.v
PolicyNormal.v
PolicyEntail.v
PolicyOps.v
Encode.v
Tokens.v
DecodeSound.v
DecodeTotal.v
LexEncode.v
DecodeEncode.v
Text.v
Checksum.v
Expression.v
ExprGrammar.v
StrKey.v
Display.v
Compare.v
DisplayText.v
Walk.v
FromTree.v
ReadTree.v
ParseTotal.v
DisplayParse.v
Concrete.v
ConcreteProps.v
ConcreteLift.v
PolicyRewrite.v
PolicyTree.v
PolicyRead.v
PolicyShow.v
PolicyParse.v
Substitute.v
Satisfy.v
WitSpec.v
Shape.v
SatTotal.v
Interp.v
InterpProps.v
InterpRuns.v
Accept.v
KeyHash.v
Lift.v
SatComplete.v
TapTree.v
SpendInfo.v
Descriptor.v
DescriptorProps.v
DescriptorTree.v
DescriptorRead.v
DescriptorParse.v
SatBounds.v
Outputs.v
DescriptorSpend.v
PlanTotal.v
SpendProps.v
FromTx.v
FromTxProps.v
SpendAccept.v
TapAccept.v
