(* ===== verification/Prelude.v ===== *)
(** * Verification of rust-miniscript

    The repository is a Rust library for Miniscript, a structured fragment of
    Bitcoin Script, with transaction templates and inscriptions added. This
    development models its core and proves it correct: how fragments are typed and
    sized, how they are encoded, how witnesses for them are found, and how they are
    evaluated.

    ** The program and its parts

    A spending condition is a tree of fragments ([Terminal] inside [Miniscript]).
    [Miniscript::from_ast] builds it node by node and caches at every node a type
    (correctness and malleability) and extra properties (script size, witness
    sizes, timelocks). [encode] writes the script; [decode] reads it back, through a
    lexer and a parser that goes over the tokens from the end. A [Satisfier] knows signatures,
    preimages and timelocks; [satisfy] turns it into a witness, in two steps: a
    template of placeholders, then its completion to bytes. The interpreter runs a
    script on a witness and reports which constraints were satisfied. Lifting turns a
    Miniscript into a semantic policy, on which questions of meaning (normal forms,
    entailment, what remains at a given time) are answered. A descriptor says how a
    Miniscript, a key, a sorted multisignature or a taproot tree of Miniscripts becomes an
    output, and how the output is spent; a plan is a spend whose signatures are still to be
    made. Miniscripts, policies and descriptors are written as strings and parsed from them,
    through one parser of expressions.

    ** Files, in dependency order

    - [Prelude]: results and their monad, lists, stable sorting, tactics.
    - [Bitcoin]: what the code uses of the crates bitcoin, hashes and secp256k1, as
      the classes [Bitcoin], [Spending] and [Parsing], and the documented behaviour
      the theorems rely on as the classes [LockTimeLaws], [BuilderLaws], [SizeLaws],
      [ParsingLaws] and [KeyHashLaws]. [Reference] is one concrete instance of all of them, with
      proofs of the laws; every witness of a theorem evaluates on it.
    - [Primitives] (src/src/primitives/, traits of src/src/lib.rs): thresholds, lock
      times, [MiniscriptKey] and [ToPublicKey].
    - [Script]: the other half of the crate bitcoin, reading scripts: the classes
      [Scripts] (instructions, script numbers) and [ScriptLaws], with an instance of
      both at the end of the file.
    - [Ord] (src/src/ord/mod.rs, tag.rs): inscriptions and their reveal scripts.
      [Envelope] (src/src/ord/envelope.rs): their parser.
    - [Lex] (src/src/miniscript/lex.rs): the lexer, which never panics.
    - [Correctness], [Malleability], [Types] (src/src/miniscript/types/): every
      typing rule, one definition per Rust function, with its errors.
    - [ExtData] (types/extra_props.rs): the extra properties of every fragment.
    - [Tree] (src/src/iter/): the tree traversals, the verbose one included, as the stack
      machines the code has, and the recursive traversals they refine. [StackLoop]: loops
      over the right-to-left post-order that keep a stack.
    - [Ast] (decode.rs, mod.rs, iter.rs of src/src/miniscript/): fragments, type and
      property checking of a node, node and key iterators.
    - [Context] (context.rs, limits.rs, analyzable.rs, [from_ast] of mod.rs): the five
      script contexts with their checks, the sanity checks, and [wf], the trees
      that the checked constructors build.
    - [Samples]: concrete trees for the witnesses.
    - [AstProps]: theorems on trees. [Views]: the typing rules read backwards, as
      equations between the type of a node and those of its children.
    - [Decode] (decode.rs, [decode] of mod.rs): the non-terminals, the arms of the
      parser, its loop and its entry points. [Tokens]: the tokens of a Miniscript.
      [DecodeSound], [DecodeTotal]: soundness, as an invariant of the two
      stacks, and termination. [LexEncode], [DecodeEncode]: the way back from scripts.
    - [Translate] (src/src/lib.rs, mod.rs): key translation as a stack machine over
      the right-to-left post-order, refined to a recursion.
    - [Semantic] (src/src/policy/semantic.rs): semantic policies and their operations;
      [PolicyNormal], [PolicyEntail], [PolicyOps]: theorems on them.
    - [Encode] (astelem.rs, util.rs, [script_size]): the script and its length.
    - [Text]: strings and numbers of the standard library. [Checksum]
      (src/src/descriptor/checksum.rs): the checksum of descriptor strings.
    - [Expression] (src/src/expression/): trees of names, the checks of their shape,
      their parser and the numbers in them. [ExprGrammar]: the grammar the parser decides.
    - [StrKey]: the interface of keys that are read from strings and written as strings,
      with an instance. [Walk]: the traversals of expression trees.
    - [Display] (display.rs): writing Miniscripts. [DisplayText]: the expression that the
      text of a Miniscript is. [Compare] (mod.rs, decode.rs, display.rs): cloning, equality,
      hashing and ordering.
    - [FromTree] ([FromTree] of mod.rs and astelem.rs): reading Miniscripts from
      expressions, as a stack machine. [ReadTree]: the recursion that it refines.
      [ParseTotal], [DisplayParse]: parsing strings, and the round trip.
    - [Concrete] (src/src/policy/concrete.rs): concrete policies, their checks and
      translation. [ConcreteProps], [ConcreteLift]: theorems on them. [PolicyRewrite]:
      sorting and rewriting of both kinds of policies.
    - [PolicyTree], [PolicyRead], [PolicyShow], [PolicyParse]: reading and writing of both
      kinds of policies: the stack machines, the recursions, the texts, the theorems.
    - [Substitute] ([substitute_raw_pkh] of mod.rs).
    - [Satisfy] (satisfy.rs, the [AssetProvider] of src/src/plan.rs, [satisfy] of
      mod.rs): satisfiers, placeholders, witnesses, the two mutually recursive
      functions with the closures of both modes, completion; sample satisfiers.
    - [WitSpec]: [Wit], the satisfactions and dissatisfactions of Miniscript as an
      inductive specification, and the refinement of the satisfier to it through
      the class [Selection], which both modes implement.
    - [Shape]: consequences of [Wit] that the types promise.
    - [SatTotal]: absence of panics, through the class [Total] of threshold
      functions, which both modes implement.
    - [Interp] (src/src/interpreter/): the evaluation functions and the iterator, one
      turn of its loop per step.
    - [InterpProps]: termination. [InterpRuns]: error-free evaluations, one lemma per
      fragment.
    - [Accept]: the satisfier against the interpreter. [KeyHash]: Miniscripts with the key
      hashes that the decoder reads for [pk_h].
    - [Lift] (src/src/policy/mod.rs): lifting. [SatComplete]: the satisfier against the
      lifted policy. [SatBounds]: witnesses against the sizes that are computed beforehand.
    - [TapTree], [SpendInfo] (src/src/descriptor/tr/): taproot trees with their builder,
      and the spending information of a taproot output.
    - [Descriptor] (src/src/descriptor/): descriptors, their constructors, checks, keys,
      translation, lifting and weights. [DescriptorProps]: theorems on them.
    - [DescriptorTree], [DescriptorRead], [DescriptorParse]: reading and writing descriptors.
    - [Outputs]: what the crate bitcoin has for outputs (forms of scriptPubkeys, control
      blocks), as the classes [Outputs] and [OutputLaws] with an instance.
    - [DescriptorSpend] (src/src/descriptor/, src/src/util.rs, src/src/plan.rs): the scripts of
      descriptors, their satisfactions, and plans. [PlanTotal]: planning and satisfying
      return. [SpendProps]: theorems on them.
    - [FromTx] (src/src/interpreter/inner.rs and mod.rs): the interpreter of the data of a
      transaction, and its check of signatures. [FromTxProps]: it never panics, and evaluates
      what the output commits to.
    - [SpendAccept], [TapAccept]: descriptors against the interpreter of transaction data.

    ** Conventions of the models

    A panic ([unwrap], [assert!], an index out of range) is [None] of an option
    monad, or an outcome of its own for the interpreter; errors are values of
    [result]. Reference counting and borrowing disappear. [usize] is [nat]: sizes
    and counts are bounded by the tree, which the recursion limit and the script
    limits keep far below 2^32; integers that reach scripts are [N] or [Z] with the
    bounds the code checks. [debug_assert!] is modelled where it guards a typing
    rule ([sanity_checks]) and shown to hold. Loops over iterators are functions with
    fuel where their recursion is not structural; each fuel is a bound on the turns
    (the size of the tree, the tokens, the bytes of the string), and the theorems show
    that it is enough.

    ** What the theorems show

    Types and sizes ([AstProps], [ExtData], [Encode], [SatBounds]): the debug assertions of the
    type checker hold for all trees; [from_ast] accepts exactly the trees that
    type check within the limits; [script_size] is the length of the encoding;
    the cached cost equals it up to two quantified deviations; the
    timelock mixing flag is exact; all iterators refine the recursive traversal
    and terminate; a witness stays within the size and the number of elements that were
    computed for it, outside the two situations in which the code computes too little.

    Witnesses ([WitSpec], [Shape], [SatTotal]): every template is a satisfaction of
    the specification; the properties [z], [o], [n], [d] and [safe] are sound for
    witnesses; the satisfier never panics on trees without raw key hashes, and does
    in two situations with them.

    Evaluation ([InterpProps], [Accept]): every evaluation of a script ends within
    a bound linear in the script ([run] counts loop turns; its fuel [2 + turns ms]
    is proved enough), without panic, with at most one error, the last item; and the
    main theorem, that the interpreter accepts every witness the satisfier returns,
    for a satisfier that tells the truth about the transaction, on trees of at most 402 levels
    without a hash lock on 32 zero bytes, which are what the satisfier dissatisfies hash locks
    with (for such a lock a rejected witness is shown), and without raw key hashes in
    tapscripts, where the satisfier panics on them.

    Spends ([FromTxProps], [SpendAccept], [TapAccept]): the data of any transaction is taken
    without a panic, and what is evaluated is what the output commits to; what a descriptor
    gives as a spend of its scriptPubkey is taken and accepted, with the script code that the
    descriptor gives to its signers. This joins the satisfier, the encoder, the decoder, the
    taproot trees and the interpreter. It covers [pkh], [wpkh], [wsh], both wrapped in [sh], and
    [tr]; for bare scripts and Miniscripts directly in [sh] only the first part is shown. The
    Miniscripts are those that the decoder reads back from their scripts, up to key hashes in the
    place of the keys of [pk_h], with the conditions of the evaluation above.

    Scripts ([Envelope], [DecodeTotal], [DecodeEncode]): reveal scripts are read back as
    they were written; decoding returns for every script ([decode_loop] counts turns; its
    fuel is linear in the tokens and proved enough), a decoded Miniscript is well typed
    and has the tokens of its script, and decoding is a left inverse of encoding.

    Strings ([Checksum], [ExprGrammar], [ParseTotal], [DisplayParse], [Compare]): checksums are
    accepted as they are written, and every substitution of a single character other than the
    separator is detected in a string with a checksum.
    The parser of expressions returns for every string and decides the grammar of
    expressions; the parser of Miniscripts returns for every string and accepts exactly the
    texts of well-typed Miniscripts within the checks; what is written is read back, raw key hashes apart.
    Equality of Miniscripts compares the labels of the two pre-orders, and so is equality only
    where no threshold occurs; hashing and ordering disagree with it.

    Policies ([PolicyNormal] to [PolicyOps], [ConcreteProps] to [PolicyParse], [Lift],
    [SatComplete]): normal forms keep the meaning, entailment on them is decided, sorting keeps
    it too, lifting keeps the meaning of a Miniscript and of a concrete policy, the checks before
    compilation are those of their documentation, policies are parsed exactly from their
    grammar and are read back as written, and the malleable satisfier finds a witness
    whenever the lifted policy can be met.

    Descriptors ([SpendInfo], [DescriptorProps], [DescriptorParse], [SpendProps]): the
    spending information of a taproot output is that of BIP 341; lifting a descriptor keeps its
    meaning; descriptors are parsed exactly from their grammar, and read back as written
    unless their taproot tree branches on the left, which the code writes wrongly; sorted
    multisignatures depend on the order of their keys only where keys have the same point,
    taproot spends are the cheapest, and planning and satisfying return together, with a plan
    that is completed to the satisfaction, the witness script apart.

    ** What is left out

    The compiler of concrete policies (its costs are floating-point numbers), addresses, the
    keys of descriptors with their derivation, the assets that plans are made from and the PSBT
    fields that are filled from plans, PSBTs and the texts of error messages are not modelled;
    signature hashes and curve arithmetic belong to third-party crates: the check of a signature
    is an argument of the evaluation, and [verify_sig] of [FromTx] is over an interface of them. *)
From Stdlib Require Export Bool Arith ZArith Lia List Permutation Sorted.
From stdpp Require Export base tactics option list numbers.
Export ListNotations.

(** * Results

    Rust's [Result<A, E>], with the error type first so that [result E] is a monad. *)

Inductive result (E A : Type) : Type :=
| Ok (a : A)
| Err (e : E).
Arguments Ok {E A} a.
Arguments Err {E A} e.

#[export] Instance result_ret {E} : MRet (result E) := fun _ a => Ok a.
#[export] Instance result_bind {E} : MBind (result E) := fun _ _ f r =>
  match r with
  | Ok a => f a
  | Err e => Err e
  end.
#[export] Instance result_fmap {E} : FMap (result E) := fun _ _ f r =>
  match r with
  | Ok a => Ok (f a)
  | Err e => Err e
  end.

(** [Result::is_ok], [Result::map_err] and [Option::ok_or]. *)
Definition is_ok {E A} (r : result E A) : bool :=
  match r with Ok _ => true | Err _ => false end.

(** Fallible code that may also panic. *)
Definition bind_r {E A B} (m : option (result E A)) (f : A -> option (result E B))
  : option (result E B) :=
  r ← m; match r with Ok a => f a | Err e => Some (Err e) end.

Definition map_err {E F A} (f : E -> F) (r : result E A) : result F A :=
  match r with Ok a => Ok a | Err e => Err (f e) end.

Definition ok_or {E A} (o : option A) (e : E) : result E A :=
  match o with Some a => Ok a | None => Err e end.

(** [Option::zip]. *)
Definition option_zip {A B} (x : option A) (y : option B) : option (A * B) :=
  match x, y with
  | Some a, Some b => Some (a, b)
  | _, _ => None
  end.

Lemma bind_Ok_inv {E A B} (f : A -> result E B) (r : result E A) (b : B) :
  (r ≫= f) = Ok b -> exists a, r = Ok a /\ f a = Ok b.
Proof. destruct r as [a|e]; [by exists a | done]. Qed.

Lemma map_err_Ok_inv {E F A} (f : E -> F) (r : result E A) (a : A) :
  map_err f r = Ok a -> r = Ok a.
Proof. destruct r; simpl; congruence. Qed.

(** A guard with an early return. *)
Lemma if_Err_Ok {E} (b : bool) (e : E) (r : result E ()) :
  (if b then Err e else r) = Ok tt <-> b = false /\ r = Ok tt.
Proof. destruct b; split; [done | by intros [] | done | by intros []]. Qed.

(** * Lists *)

(** [slice::chunks]: consecutive pieces of [n] elements, the last one possibly
    shorter. Every step consumes an element, so the length is enough fuel. *)
Fixpoint chunks_fuel {A} (fuel n : nat) (l : list A) : list (list A) :=
  match fuel, l with
  | _, [] | 0, _ => []
  | S fuel, _ => take n l :: chunks_fuel fuel n (drop n l)
  end.

Definition chunks {A} (n : nat) (l : list A) : list (list A) := chunks_fuel (length l) n l.

Lemma chunks_fuel_concat {A} fuel n (l : list A) :
  0 < n -> length l <= fuel -> concat (chunks_fuel fuel n l) = l.
Proof.
  intros Hn. revert l. induction fuel as [|fuel IH]; intros [|a l] Hl; simpl in *; try done.
  { lia. }
  destruct n as [|n]; [lia|]. simpl. f_equal. rewrite IH by (rewrite length_drop; lia).
  apply take_drop.
Qed.

Lemma chunks_concat {A} n (l : list A) : 0 < n -> concat (chunks n l) = l.
Proof. intros Hn. by apply chunks_fuel_concat. Qed.

Lemma chunks_bound {A} n (l : list A) :
  Forall (fun c => length c <= n) (chunks n l).
Proof.
  unfold chunks. generalize (length l). intros fuel. revert l.
  induction fuel as [|fuel IH]; intros [|a l]; simpl; constructor; [|apply IH].
  rewrite length_take. lia.
Qed.

Definition is_empty {A} (l : list A) : bool := match l with [] => true | _ => false end.

Definition sum_by {A} (f : A -> nat) (l : list A) : nat := list_sum (map f l).

Lemma sum_by_cons {A} (f : A -> nat) a l : sum_by f (a :: l) = f a + sum_by f l.
Proof. reflexivity. Qed.

Lemma sum_by_app {A} (f : A -> nat) l l' : sum_by f (l ++ l') = sum_by f l + sum_by f l'.
Proof. unfold sum_by. by rewrite map_app, list_sum_app. Qed.

Lemma sum_by_const {A} (f : A -> nat) c l :
  Forall (fun a => f a = c) l -> sum_by f l = c * length l.
Proof. induction 1; simpl; [unfold sum_by; simpl; lia|]. rewrite sum_by_cons. lia. Qed.

Lemma sum_by_perm {A} (f : A -> nat) l l' : Permutation l l' -> sum_by f l = sum_by f l'.
Proof. unfold sum_by. induction 1; simpl; lia. Qed.

Lemma sum_by_le {A} (f g : A -> nat) l :
  Forall (fun a => f a <= g a) l -> sum_by f l <= sum_by g l.
Proof. induction 1; [done|]. rewrite !sum_by_cons. lia. Qed.

(** The number of elements that satisfy a test. *)
Definition count_if {A} (f : A -> bool) (l : list A) : nat := sum_by (fun a => Nat.b2n (f a)) l.

Lemma count_if_cons {A} (f : A -> bool) a l : count_if f (a :: l) = Nat.b2n (f a) + count_if f l.
Proof. reflexivity. Qed.

Lemma count_if_app {A} (f : A -> bool) l l' : count_if f (l ++ l') = count_if f l + count_if f l'.
Proof. apply sum_by_app. Qed.

Lemma count_if_length {A} (f : A -> bool) l : count_if f l <= length l.
Proof.
  induction l as [|a l IH]; [unfold count_if, sum_by; simpl; lia|].
  rewrite count_if_cons. simpl. destruct (f a); simpl; lia.
Qed.

Lemma count_if_all {A} (f : A -> bool) l : length l <= count_if f l <-> forallb f l = true.
Proof.
  induction l as [|a l IH]; [done|]. rewrite count_if_cons. simpl.
  pose proof (count_if_length f l). destruct (f a); simpl; [rewrite <- IH; lia|]. split; [lia|done].
Qed.

Lemma count_if_some {A} (f : A -> bool) l : 1 <= count_if f l <-> existsb f l = true.
Proof.
  induction l as [|a l IH]; [split; [|done]; unfold count_if, sum_by; simpl; lia|].
  rewrite count_if_cons. simpl. destruct (f a); simpl; [split; [done | lia] | by rewrite <- IH].
Qed.

Lemma count_if_ext {A} (f g : A -> bool) l :
  Forall (fun a => f a = g a) l -> count_if f l = count_if g l.
Proof. induction 1 as [|a l H _ IH]; [done|]. by rewrite !count_if_cons, H, IH. Qed.

Lemma count_if_le {A} (f g : A -> bool) l :
  Forall (fun a => Nat.b2n (f a) <= Nat.b2n (g a)) l -> count_if f l <= count_if g l.
Proof. apply sum_by_le. Qed.

Lemma count_if_map {A C} (f : A -> bool) (g : C -> A) l :
  count_if f (map g l) = count_if (fun c => f (g c)) l.
Proof. induction l as [|a l IH]; [done|]. cbn [map]. by rewrite !count_if_cons, IH. Qed.

Lemma count_if_perm {A} (f : A -> bool) l l' : Permutation l l' -> count_if f l = count_if f l'.
Proof. unfold count_if, sum_by. induction 1; simpl; lia. Qed.

Lemma remove_dups_NoDup_length {A} `{EqDecision A} (l : list A) :
  length (remove_dups l) = length l <-> NoDup l.
Proof.
  assert (forall l : list A, length (remove_dups l) <= length l) as Hle.
  { intros l'. induction l' as [|a l' IH]; simpl; [lia|]. case_decide; simpl; lia. }
  induction l as [|a l IH]; simpl; [split; [constructor | done]|].
  rewrite list.NoDup_cons. case_decide as Hin; simpl.
  - specialize (Hle l). split; [lia|]. intros [Hn _]. contradiction.
  - rewrite <- IH. split; [intros [=]; by split | intros [_ ->]; done].
Qed.

(** Sums of partial counts. *)
Definition sum_opt {A} (f : A -> option nat) (l : list A) : option nat :=
  list_sum <$> mapM f l.

Lemma sum_opt_nil {A} (f : A -> option nat) : sum_opt f [] = Some 0.
Proof. reflexivity. Qed.

Lemma sum_opt_cons {A} (f : A -> option nat) a l :
  sum_opt f (a :: l) = (n ← f a; m ← sum_opt f l; Some (n + m)).
Proof. unfold sum_opt. simpl. destruct (f a); simpl; [|done]. by destruct (mapM f l). Qed.

Lemma sum_opt_app {A} (f : A -> option nat) l l' :
  sum_opt f (l ++ l') = (n ← sum_opt f l; m ← sum_opt f l'; Some (n + m)).
Proof.
  induction l as [|a l IH]; [simpl; by destruct (sum_opt f l')|].
  cbn [app]. rewrite !sum_opt_cons, IH. destruct (f a); simpl; [|done].
  destruct (sum_opt f l); simpl; [|done]. destruct (sum_opt f l'); simpl; [|done].
  by rewrite Nat.add_assoc.
Qed.

Lemma sum_opt_Some {A} (f : A -> option nat) (g : A -> nat) l :
  Forall (fun a => f a = Some (g a)) l -> sum_opt f l = Some (sum_by g l).
Proof.
  induction 1 as [|a l Ha _ IH]; [done|]. rewrite sum_opt_cons, Ha, IH. done.
Qed.

(** * Sorting

    [slice::sort_by_key] is a stable sort; insertion sort is one, with the keys
    compared by [leb]. *)
Section SortByKey.
Context {A K : Type} (leb : K -> K -> bool) (key : A -> K).

Fixpoint insert_by_key (a : A) (l : list A) : list A :=
  match l with
  | [] => [a]
  | b :: l' => if leb (key a) (key b) then a :: l else b :: insert_by_key a l'
  end.

Fixpoint sort_by_key (l : list A) : list A :=
  match l with
  | [] => []
  | a :: l => insert_by_key a (sort_by_key l)
  end.

Lemma insert_by_key_perm a l : Permutation (insert_by_key a l) (a :: l).
Proof.
  induction l as [|b l IH]; simpl; [done|].
  destruct (leb _ _); [done|]. rewrite IH. constructor.
Qed.

Lemma sort_by_key_perm l : Permutation (sort_by_key l) l.
Proof. induction l as [|a l IH]; simpl; [done|]. by rewrite insert_by_key_perm, IH. Qed.

Lemma sort_by_key_length l : length (sort_by_key l) = length l.
Proof. apply Permutation_length, sort_by_key_perm. Qed.

Definition key_le (a b : A) : Prop := leb (key a) (key b) = true.

Hypothesis leb_total : forall x y, leb x y = true \/ leb y x = true.

Lemma insert_by_key_sorted a l :
  Sorted key_le l -> Sorted key_le (insert_by_key a l).
Proof.
  induction 1 as [|b l Hs IH Hd]; simpl; [repeat constructor|].
  destruct (leb (key a) (key b)) eqn:E; [by repeat constructor|].
  constructor; [done|].
  assert (key_le b a) as Hba by (destruct (leb_total (key a) (key b)); [congruence | done]).
  destruct l as [|c l]; simpl; [by constructor|].
  destruct (leb (key a) (key c)); constructor; [done|]. by inversion Hd.
Qed.

Lemma sort_by_key_sorted l : Sorted key_le (sort_by_key l).
Proof. induction l; simpl; [constructor|]. by apply insert_by_key_sorted. Qed.
End SortByKey.

(** The derived order on [Option<isize>]: [None] comes first. *)
Definition option_Z_leb (x y : option Z) : bool :=
  match x, y with
  | None, _ => true
  | Some _, None => false
  | Some a, Some b => (a <=? b)%Z
  end.

Lemma option_Z_leb_total x y : option_Z_leb x y = true \/ option_Z_leb y x = true.
Proof. destruct x, y; simpl; try tauto. rewrite !Z.leb_le. lia. Qed.

(** A property of the middle list, carried into a ternary relation. *)
Lemma Forall3_middle {A B C} (Q : B -> Prop) (R : A -> B -> C -> Prop) l k m :
  Forall Q k -> Forall3 R l k m -> Forall3 (fun x y z => Q y /\ R x y z) l k m.
Proof. intros Hk H. induction H; [constructor|]. apply Forall_cons_1 in Hk as [? ?]. by constructor; auto. Qed.

(** * Tactics *)

(** Case analysis on the discriminee of a [match] of the goal or of a hypothesis. *)
Ltac break_match :=
  match goal with
  | |- context [match ?x with _ => _ end] =>
      lazymatch x with
      | context [match _ with _ => _ end] => fail
      | _ => destruct x eqn:?
      end
  end.

Ltac break_match_in H :=
  match type of H with
  | context [match ?x with _ => _ end] =>
      lazymatch x with
      | context [match _ with _ => _ end] => fail
      | _ => destruct x eqn:?
      end
  end.

(** Boolean connectives in hypotheses, as propositions. *)
Ltac bool_hyps :=
  repeat match goal with
  | H : (_ && _)%bool = true |- _ => apply andb_true_iff in H as [? ?]
  | H : (_ || _)%bool = false |- _ => apply orb_false_iff in H as [? ?]
  | H : negb _ = true |- _ => apply negb_true_iff in H
  | H : negb _ = false |- _ => apply negb_false_iff in H
  | H : (_ =? _) = true |- _ => apply Nat.eqb_eq in H
  | H : (_ =? _) = false |- _ => apply Nat.eqb_neq in H
  | H : (_ <=? _) = true |- _ => apply Nat.leb_le in H
  | H : (_ <=? _) = false |- _ => apply Nat.leb_gt in H
  | H : (_ <? _) = true |- _ => apply Nat.ltb_lt in H
  | H : (_ <? _) = false |- _ => apply Nat.ltb_ge in H
  end.

Create HintDb miniscript.
