(* ===== verification/Bitcoin.v ===== *)
(** The interface of the [bitcoin] crate, which is not part of the repository.

    Everything the library takes from that crate is a field of the class
    [Bitcoin], and what it relies on is stated in the classes of laws below
    (documented behaviour of lock times, of [script::Builder] and of the hash
    types). The development is generic in both; [Reference.v] gives an instance. *)
From Stdlib Require Strings.Byte.
From S2P Require Import Prelude.

(** A Rust [Vec<u8>] or [&[u8]]. *)
Abbreviation bytes := (list Byte.byte).

#[export] Instance byte_eq_dec : EqDecision Byte.byte := Strings.Byte.byte_eq_dec.

(** The opcodes of [bitcoin::opcodes] that the library names. [OP_FALSE] and
    [OP_TRUE] are the constants [OP_PUSHBYTES_0] and [OP_PUSHNUM_1]. *)
Inductive Opcode : Type :=
| OP_FALSE | OP_TRUE
| OP_IF | OP_NOTIF | OP_ELSE | OP_ENDIF | OP_VERIFY
| OP_TOALTSTACK | OP_FROMALTSTACK | OP_IFDUP | OP_DROP | OP_DUP | OP_SWAP | OP_SIZE
| OP_EQUAL | OP_EQUALVERIFY | OP_NUMEQUAL | OP_NUMEQUALVERIFY
| OP_0NOTEQUAL | OP_ADD | OP_BOOLAND | OP_BOOLOR
| OP_RIPEMD160 | OP_SHA256 | OP_HASH160 | OP_HASH256
| OP_CHECKSIG | OP_CHECKSIGVERIFY | OP_CHECKSIGADD
| OP_CHECKMULTISIG | OP_CHECKMULTISIGVERIFY
| OP_CLTV | OP_CSV | OP_NOP4.

#[export] Instance Opcode_eq_dec : EqDecision Opcode.
Proof. solve_decision. Defined.

Class Bitcoin : Type := {
  (** [absolute::LockTime] *)
  LockTime : Type;
  LockTime_eq_dec :: EqDecision LockTime;
  LockTime_from_consensus : N -> LockTime;
  LockTime_to_consensus_u32 : LockTime -> N;
  LockTime_is_block_height : LockTime -> bool;
  LockTime_is_block_time : LockTime -> bool;
  LockTime_is_implied_by : LockTime -> LockTime -> bool;
  (** [Sequence] and [relative::LockTime] *)
  Sequence : Type;
  Sequence_eq_dec :: EqDecision Sequence;
  Sequence_ZERO : Sequence;
  Sequence_from_consensus : N -> Sequence;
  Sequence_to_consensus_u32 : Sequence -> N;
  Sequence_is_height_locked : Sequence -> bool;
  Sequence_is_time_locked : Sequence -> bool;
  Sequence_is_relative_lock_time : Sequence -> bool;
  RelativeLockTime : Type;
  RelativeLockTime_eq_dec :: EqDecision RelativeLockTime;
  Sequence_to_relative_lock_time : Sequence -> option RelativeLockTime;
  RelativeLockTime_is_implied_by : RelativeLockTime -> RelativeLockTime -> bool;
  (** hashes *)
  sha256_Hash : Type;
  hash256_Hash : Type;
  ripemd160_Hash : Type;
  hash160_Hash : Type;
  sha256_eq_dec :: EqDecision sha256_Hash;
  hash256_eq_dec :: EqDecision hash256_Hash;
  ripemd160_eq_dec :: EqDecision ripemd160_Hash;
  hash160_eq_dec :: EqDecision hash160_Hash;
  sha256_hash : bytes -> sha256_Hash;
  hash256_hash : bytes -> hash256_Hash;
  ripemd160_hash : bytes -> ripemd160_Hash;
  hash160_hash : bytes -> hash160_Hash;
  sha256_to_byte_array : sha256_Hash -> bytes;
  hash256_to_byte_array : hash256_Hash -> bytes;
  ripemd160_to_byte_array : ripemd160_Hash -> bytes;
  hash160_to_byte_array : hash160_Hash -> bytes;
  (** keys *)
  PublicKey : Type;
  PublicKey_eq_dec :: EqDecision PublicKey;
  PublicKey_compressed : PublicKey -> bool;
  PublicKey_to_bytes : PublicKey -> bytes;
  PublicKey_pubkey_hash : PublicKey -> bytes;
  XOnlyPublicKey : Type;
  XOnlyPublicKey_eq_dec :: EqDecision XOnlyPublicKey;
  XOnlyPublicKey_serialize : XOnlyPublicKey -> bytes;
  (** [PubkeyHash::hash] *)
  PubkeyHash_hash : bytes -> bytes;
  (** [script::Builder] *)
  MAX_SCRIPT_ELEMENT_SIZE : nat;
  Builder : Type;
  Builder_new : Builder;
  push_opcode : Builder -> Opcode -> Builder;
  push_int : Builder -> Z -> Builder;
  push_slice : Builder -> bytes -> Builder;
  push_key : Builder -> PublicKey -> Builder;
  push_verify : Builder -> Builder;
  Builder_len : Builder -> nat;
}.

(** * Lock times *)

(** The value from which an absolute lock time is a time, not a height
    ([LOCKTIME_THRESHOLD]). *)
Definition LOCK_TIME_THRESHOLD : N := 500000000.

Definition u32 (n : N) : Prop := (n < 2 ^ 32)%N.

(** [Sequence::is_relative_lock_time]: bit 31 unset; [is_time_locked]: and bit 22 set. *)
Definition bip68_enabled (n : N) : bool := negb (N.testbit n 31).
Definition bip68_time (n : N) : bool := N.testbit n 22.

Class LockTimeLaws (B : Bitcoin) : Prop := {
  LockTime_roundtrip : forall n, u32 n -> LockTime_to_consensus_u32 (LockTime_from_consensus n) = n;
  LockTime_inj : forall l l',
    LockTime_to_consensus_u32 l = LockTime_to_consensus_u32 l' -> l = l';
  LockTime_height : forall l,
    LockTime_is_block_height l = (LockTime_to_consensus_u32 l <? LOCK_TIME_THRESHOLD)%N;
  LockTime_time : forall l, LockTime_is_block_time l = negb (LockTime_is_block_height l);
  LockTime_implied : forall l l',
    LockTime_is_implied_by l l'
    = eqb (LockTime_is_block_height l) (LockTime_is_block_height l')
      && (LockTime_to_consensus_u32 l <=? LockTime_to_consensus_u32 l')%N;
  Sequence_roundtrip : forall n, u32 n -> Sequence_to_consensus_u32 (Sequence_from_consensus n) = n;
  Sequence_inj : forall s s',
    Sequence_to_consensus_u32 s = Sequence_to_consensus_u32 s' -> s = s';
  Sequence_zero : Sequence_to_consensus_u32 Sequence_ZERO = 0%N;
  Sequence_relative : forall s,
    Sequence_is_relative_lock_time s = bip68_enabled (Sequence_to_consensus_u32 s);
  Sequence_height : forall s,
    Sequence_is_height_locked s
    = Sequence_is_relative_lock_time s && negb (bip68_time (Sequence_to_consensus_u32 s));
  Sequence_time : forall s,
    Sequence_is_time_locked s
    = Sequence_is_relative_lock_time s && bip68_time (Sequence_to_consensus_u32 s);
  Sequence_to_relative : forall s,
    is_Some (Sequence_to_relative_lock_time s) <-> Sequence_is_relative_lock_time s = true;
}.

(** * Script construction *)

(** Bytes of a push: the opcode, the length bytes of [PUSHDATA], the data. *)
Definition push_size (n : nat) : nat :=
  (if n <? 76 then 1 else if n <? 256 then 2 else if (N.of_nat n <? 65536)%N then 3 else 5) + n.

(** Bytes of the minimal push of a non-negative number. *)
Definition push_int_size (n : N) : nat :=
  if (n <=? 16)%N then 1
  else if (n <? 128)%N then 2
  else if (n <? 32768)%N then 3
  else if (n <? 8388608)%N then 4
  else if (n <? 2147483648)%N then 5
  else 6.

(** The opcode that [push_verify] substitutes for the last one, if any. *)
Definition verify_opcode (o : Opcode) : option Opcode :=
  match o with
  | OP_EQUAL => Some OP_EQUALVERIFY
  | OP_NUMEQUAL => Some OP_NUMEQUALVERIFY
  | OP_CHECKSIG => Some OP_CHECKSIGVERIFY
  | OP_CHECKMULTISIG => Some OP_CHECKMULTISIGVERIFY
  | _ => None
  end.

Class BuilderLaws (B : Bitcoin) : Prop := {
  max_script_element_size : MAX_SCRIPT_ELEMENT_SIZE = 520;
  len_new : Builder_len Builder_new = 0;
  len_push_opcode : forall b o, Builder_len (push_opcode b o) = Builder_len b + 1;
  len_push_int : forall b n, (n < 2 ^ 39)%N ->
    Builder_len (push_int b (Z.of_N n)) = Builder_len b + push_int_size n;
  len_push_slice : forall b s,
    Builder_len (push_slice b s) = Builder_len b + push_size (length s);
  push_key_slice : forall b k, push_key b k = push_slice b (PublicKey_to_bytes k);
  push_verify_merge : forall b o o', verify_opcode o = Some o' ->
    push_verify (push_opcode b o) = push_opcode b o';
  push_verify_opcode : forall b o, verify_opcode o = None ->
    push_verify (push_opcode b o) = push_opcode (push_opcode b o) OP_VERIFY;
  push_verify_int : forall b n, push_verify (push_int b n) = push_opcode (push_int b n) OP_VERIFY;
  push_verify_slice : forall b s,
    push_verify (push_slice b s) = push_opcode (push_slice b s) OP_VERIFY;
}.

(** Sizes of serialised keys and hashes. *)
Class SizeLaws (B : Bitcoin) : Prop := {
  PublicKey_size : forall k,
    length (PublicKey_to_bytes k) = if PublicKey_compressed k then 33 else 65;
  PublicKey_hash_size : forall k, length (PublicKey_pubkey_hash k) = 20;
  PubkeyHash_size : forall b, length (PubkeyHash_hash b) = 20;
  XOnlyPublicKey_size : forall k, length (XOnlyPublicKey_serialize k) = 32;
  sha256_size : forall h, length (sha256_to_byte_array h) = 32;
  hash256_size : forall h, length (hash256_to_byte_array h) = 32;
  ripemd160_size : forall h, length (ripemd160_to_byte_array h) = 20;
  hash160_size : forall h, length (hash160_to_byte_array h) = 20;
}.

(** The hashes of keys in scripts are those of their serialisations. *)
Class KeyHashLaws (B : Bitcoin) : Prop := {
  pubkey_hash_bytes : forall k,
    PublicKey_pubkey_hash k = hash160_to_byte_array (hash160_hash (PublicKey_to_bytes k));
  PubkeyHash_bytes : forall b, PubkeyHash_hash b = hash160_to_byte_array (hash160_hash b);
}.

(** * Signatures and taproot data *)

(** The types of [bitcoin::ecdsa], [bitcoin::taproot] and [bitcoin::script] that
    witnesses are made of. *)
Class Spending {B : Bitcoin} : Type := {
  EcdsaSignature : Type;
  EcdsaSignature_to_vec : EcdsaSignature -> bytes;
  TaprootSignature : Type;
  TaprootSignature_to_vec : TaprootSignature -> bytes;
  TapLeafHash : Type;
  TapLeafHash_eq_dec :: EqDecision TapLeafHash;
  TapNodeHash : Type;
  TapNodeHash_eq_dec :: EqDecision TapNodeHash;
  ControlBlock : Type;
  ControlBlock_eq_dec :: EqDecision ControlBlock;
  ControlBlock_serialize : ControlBlock -> bytes;
  (** [TapLeafHash::from_script] for the version [LeafVersion::TapScript] *)
  TapLeafHash_from_script : Builder -> TapLeafHash;
  LeafVersion : Type;
  (** [VarInt::size] *)
  VarInt_size : nat -> nat;
}.

(** * Parsing keys and signatures

    The [from_slice] constructors; the errors of the key parsers are dropped by
    their callers. *)
Class Parsing {B : Bitcoin} {Sp : Spending} : Type := {
  EcdsaError : Type;
  EcdsaSignature_from_slice : bytes -> result EcdsaError EcdsaSignature;
  SigFromSliceError : Type;
  TaprootSignature_from_slice : bytes -> result SigFromSliceError TaprootSignature;
  PublicKey_from_slice : bytes -> option PublicKey;
  XOnlyPublicKey_from_slice : bytes -> option XOnlyPublicKey;
  (** [XOnlyPublicKey::from(pk.inner)] *)
  XOnlyPublicKey_from : PublicKey -> XOnlyPublicKey;
}.

(** Serialisation round trips, and no signature is as short as a stack boolean. *)
Class ParsingLaws {B : Bitcoin} {Sp : Spending} (Pa : Parsing) : Prop := {
  EcdsaSignature_roundtrip : forall s, EcdsaSignature_from_slice (EcdsaSignature_to_vec s) = Ok s;
  EcdsaSignature_len : forall s, 2 <= length (EcdsaSignature_to_vec s);
  TaprootSignature_roundtrip : forall s,
    TaprootSignature_from_slice (TaprootSignature_to_vec s) = Ok s;
  TaprootSignature_len : forall s, 2 <= length (TaprootSignature_to_vec s);
  PublicKey_roundtrip : forall k, PublicKey_from_slice (PublicKey_to_bytes k) = Some k;
  XOnlyPublicKey_roundtrip : forall k,
    XOnlyPublicKey_from_slice (XOnlyPublicKey_serialize k) = Some k;
}.

(** A key has one serialisation, and the x-only serialisation of a key is, after the byte 02,
    the serialisation of a key. *)
Class CanonicalLaws {B : Bitcoin} {Sp : Spending} (Pa : Parsing) : Prop := {
  PublicKey_canonical : forall b k, PublicKey_from_slice b = Some k -> PublicKey_to_bytes k = b;
  XOnlyPublicKey_canonical : forall b k,
    XOnlyPublicKey_from_slice b = Some k -> XOnlyPublicKey_serialize k = b;
  even_key : forall k, is_Some (PublicKey_from_slice (Byte.x02 :: XOnlyPublicKey_serialize k));
}.
