(* ===== verification/Primitives.v ===== *)
(** The primitive data of Miniscripts (src/src/primitives/ and the key traits of
    src/src/lib.rs): thresholds, absolute and relative lock times with their
    bounds, and the classes [MiniscriptKey] and [ToPublicKey]. *)
From S2P Require Import Prelude Bitcoin.

(** * Thresholds (src/src/primitives/threshold.rs) *)

Module Threshold.

Record ThresholdError : Type := mkThresholdError {
  te_k : nat;
  te_n : nat;
  te_max : option nat;
}.

(** [Threshold<T, MAX>]; [MAX] is a phantom parameter of the operations. *)
Record Threshold (T : Type) : Type := mkThreshold {
  k : nat;
  inner : list T;
}.
Arguments mkThreshold {T} k inner.
Arguments k {T} _.
Arguments inner {T} _.

Definition n {T} (self : Threshold T) : nat := length (inner self).
Definition data {T} (self : Threshold T) : list T := inner self.

Definition validate_k_n (MAX k n : nat) : result ThresholdError () :=
  if (k =? 0) || (n <? k) || ((0 <? MAX) && (MAX <? n))
  then Err (mkThresholdError k n (if 0 <? MAX then Some MAX else None))
  else Ok tt.

Definition new {T} (MAX k : nat) (inner : list T) : result ThresholdError (Threshold T) :=
  _ ← validate_k_n MAX k (length inner);
  Ok (mkThreshold k inner).

(** [from_iter]; the lower size hint of the iterator is [hint]. *)
Definition from_iter {T} (MAX k hint : nat) (iter : list T)
  : result ThresholdError (Threshold T) :=
  let min_size := Nat.max k hint in
  if (0 <? MAX) && (MAX <? min_size)
  then Err (mkThresholdError k (length iter) (if 0 <? MAX then Some MAX else None))
  else new MAX k iter.

Definition or {T} (left right : T) : Threshold T := mkThreshold 1 [left; right].
Definition and {T} (left right : T) : Threshold T := mkThreshold 2 [left; right].
Definition is_or {T} (self : Threshold T) : bool := k self =? 1.
Definition is_and {T} (self : Threshold T) : bool := k self =? length (inner self).
Definition set_maximum {T} (NEWMAX : nat) (self : Threshold T)
  : result ThresholdError (Threshold T) := new NEWMAX (k self) (inner self).
Definition forget_maximum {T} (self : Threshold T) : Threshold T :=
  mkThreshold (k self) (inner self).

Definition map {T U} (mapfn : T -> U) (self : Threshold T) : Threshold U :=
  mkThreshold (k self) (List.map mapfn (inner self)).

(** [collect::<Result<Vec<_>, _>>()]: the first error stops the iteration. *)
Fixpoint collect {E T U} (f : T -> result E U) (l : list T) : result E (list U) :=
  match l with
  | [] => Ok []
  | x :: l => y ← f x; ys ← collect f l; Ok (y :: ys)
  end.

Definition translate {E T U} (translatefn : T -> result E U) (self : Threshold T)
  : result E (Threshold U) :=
  inner ← collect translatefn (inner self);
  Ok (mkThreshold (k self) inner).

Definition translate_by_index {E T U} (translatefn : nat -> result E U) (self : Threshold T)
  : result E (Threshold U) :=
  inner ← collect translatefn (seq 0 (length (inner self)));
  Ok (mkThreshold (k self) inner).

(** [or_n] and [and_n] panic on an empty vector. *)
Definition or_n {T} (inner : list T) : option (Threshold T) :=
  match inner with [] => None | _ => Some (mkThreshold 1 inner) end.
Definition and_n {T} (inner : list T) : option (Threshold T) :=
  match inner with [] => None | _ => Some (mkThreshold (length inner) inner) end.

(** The invariant of the type: what every checked constructor guarantees. *)
Definition valid {T} (MAX : nat) (self : Threshold T) : Prop :=
  1 <= k self <= n self /\ (MAX = 0 \/ n self <= MAX).

#[export] Instance Threshold_eq_dec {T} `{EqDecision T} : EqDecision (Threshold T).
Proof. solve_decision. Defined.

(** ** Lemmas *)

Lemma validate_k_n_Ok MAX k n :
  validate_k_n MAX k n = Ok tt <-> 1 <= k <= n /\ (MAX = 0 \/ n <= MAX).
Proof.
  unfold validate_k_n.
  destruct (Nat.eqb_spec k 0), (Nat.ltb_spec n k), (Nat.ltb_spec 0 MAX), (Nat.ltb_spec MAX n);
    simpl; split; intros; try done; lia.
Qed.

Lemma new_valid {T} MAX k (inner : list T) t :
  new MAX k inner = Ok t <-> t = mkThreshold k inner /\ valid MAX t.
Proof.
  unfold new, valid, n.
  destruct (validate_k_n MAX k (length inner)) as [[]|e] eqn:E; simpl.
  - apply validate_k_n_Ok in E. split; [intros [= <-]; done | by intros [-> _]].
  - split; [done |]. intros [-> H]. apply validate_k_n_Ok in H. simpl in H. congruence.
Qed.

Lemma collect_length {E T U} (f : T -> result E U) l r :
  collect f l = Ok r -> length r = length l.
Proof.
  revert r. induction l as [|x l IH]; intros r; simpl; [by intros [= <-] |].
  intros (y & _ & (ys & Hys%IH & [= <-])%bind_Ok_inv)%bind_Ok_inv. simpl. by f_equal.
Qed.

End Threshold.

Abbreviation Threshold := Threshold.Threshold.
Abbreviation mkThreshold := Threshold.mkThreshold.

(** * Lock times *)

Section LockTimes.
Context {B : Bitcoin}.

(** ** src/src/primitives/absolute_locktime.rs *)

Definition MAX_ABSOLUTE_LOCKTIME : N := 0x7FFFFFFF.
Definition MIN_ABSOLUTE_LOCKTIME : N := 1.

Record AbsLockTimeError : Type := mkAbsLockTimeError { abs_value : N }.
Record AbsLockTime : Type := mkAbsLockTime { abs_inner : LockTime }.

#[export] Instance AbsLockTime_eq_dec : EqDecision AbsLockTime.
Proof. solve_decision. Defined.

Definition abs_from_consensus (n : N) : result AbsLockTimeError AbsLockTime :=
  if (MIN_ABSOLUTE_LOCKTIME <=? n)%N && (n <=? MAX_ABSOLUTE_LOCKTIME)%N
  then Ok (mkAbsLockTime (LockTime_from_consensus n))
  else Err (mkAbsLockTimeError n).

Definition abs_to_consensus_u32 (self : AbsLockTime) : N :=
  LockTime_to_consensus_u32 (abs_inner self).
Definition is_block_height (self : AbsLockTime) : bool :=
  LockTime_is_block_height (abs_inner self).
Definition is_block_time (self : AbsLockTime) : bool :=
  LockTime_is_block_time (abs_inner self).
Definition abs_cmp (self other : AbsLockTime) : comparison :=
  (abs_to_consensus_u32 self ?= abs_to_consensus_u32 other)%N.

(** ** src/src/primitives/relative_locktime.rs *)

Record RelLockTimeError : Type := mkRelLockTimeError { rel_value : N }.
Record RelLockTime : Type := mkRelLockTime { rel_inner : Sequence }.

#[export] Instance RelLockTime_eq_dec : EqDecision RelLockTime.
Proof. solve_decision. Defined.

(** [TryFrom<Sequence>] *)
Definition rel_try_from (seq : Sequence) : result RelLockTimeError RelLockTime :=
  if Sequence_is_relative_lock_time seq && negb (bool_decide (seq = Sequence_ZERO))
  then Ok (mkRelLockTime seq)
  else Err (mkRelLockTimeError (Sequence_to_consensus_u32 seq)).

Definition rel_from_consensus (n : N) : result RelLockTimeError RelLockTime :=
  rel_try_from (Sequence_from_consensus n).

Definition rel_to_consensus_u32 (self : RelLockTime) : N :=
  Sequence_to_consensus_u32 (rel_inner self).
Definition is_height_locked (self : RelLockTime) : bool :=
  Sequence_is_height_locked (rel_inner self).
Definition is_time_locked (self : RelLockTime) : bool :=
  Sequence_is_time_locked (rel_inner self).
Definition rel_cmp (self other : RelLockTime) : comparison :=
  (rel_to_consensus_u32 self ?= rel_to_consensus_u32 other)%N.

(** [From<RelLockTime> for relative::LockTime], which unwraps. *)
Definition rel_to_relative (self : RelLockTime) : option RelativeLockTime :=
  Sequence_to_relative_lock_time (rel_inner self).

(** The values the checked constructors produce. *)
Definition abs_valid (t : AbsLockTime) : Prop :=
  (1 <= abs_to_consensus_u32 t < 2 ^ 31)%N.
Definition rel_valid (t : RelLockTime) : Prop :=
  Sequence_is_relative_lock_time (rel_inner t) = true
  /\ rel_inner t <> Sequence_ZERO /\ (rel_to_consensus_u32 t < 2 ^ 31)%N.

Context {L : LockTimeLaws B}.

Lemma abs_from_consensus_valid n t :
  u32 n -> abs_from_consensus n = Ok t -> abs_valid t /\ abs_to_consensus_u32 t = n.
Proof.
  unfold abs_from_consensus, abs_valid, abs_to_consensus_u32. intros Hn H.
  destruct ((MIN_ABSOLUTE_LOCKTIME <=? n)%N && (n <=? MAX_ABSOLUTE_LOCKTIME)%N) eqn:E; [|done].
  injection H as <-. simpl. rewrite LockTime_roundtrip by done.
  apply andb_true_iff in E as [H1%N.leb_le H2%N.leb_le].
  unfold MIN_ABSOLUTE_LOCKTIME, MAX_ABSOLUTE_LOCKTIME in *. lia.
Qed.

Lemma testbit_31_lt n : u32 n -> N.testbit n 31 = false -> (n < 2 ^ 31)%N.
Proof.
  unfold u32. intros Hn Hb. destruct (N.lt_ge_cases n (2 ^ 31)) as [|Hge]; [done|].
  exfalso. rewrite N.testbit_eqb in Hb. apply N.eqb_neq in Hb. apply Hb.
  replace (n / 2 ^ 31)%N with 1%N; [done|].
  apply (N.div_unique _ _ _ (n - 2 ^ 31)); lia.
Qed.

Lemma rel_from_consensus_valid n t :
  u32 n -> rel_from_consensus n = Ok t -> rel_valid t /\ rel_to_consensus_u32 t = n.
Proof.
  unfold rel_from_consensus, rel_try_from, rel_valid, rel_to_consensus_u32. intros Hn H.
  destruct (Sequence_is_relative_lock_time (Sequence_from_consensus n)) eqn:Er; [|done].
  destruct (bool_decide _) eqn:Ez; [done|]. apply bool_decide_eq_false in Ez.
  injection H as <-. simpl. rewrite Sequence_roundtrip by done.
  repeat split; [done | done |].
  rewrite Sequence_relative, Sequence_roundtrip in Er by done.
  unfold bip68_enabled in Er. apply negb_true_iff in Er. by apply testbit_31_lt.
Qed.

End LockTimes.

(** * Keys (src/src/lib.rs) *)

(** [context::SigType] *)
Inductive SigType : Type := Ecdsa | Schnorr.

#[export] Instance SigType_eq_dec : EqDecision SigType.
Proof. solve_decision. Defined.

(** The trait [MiniscriptKey], with its associated types. *)
Class MiniscriptKey : Type := {
  Pk : Type;
  Pk_eq_dec :: EqDecision Pk;
  is_uncompressed : Pk -> bool;
  is_x_only_key : Pk -> bool;
  num_der_paths : Pk -> nat;
  Sha256 : Type;
  Hash256 : Type;
  Ripemd160 : Type;
  Hash160 : Type;
  Sha256_eq_dec :: EqDecision Sha256;
  Hash256_eq_dec :: EqDecision Hash256;
  Ripemd160_eq_dec :: EqDecision Ripemd160;
  Hash160_eq_dec :: EqDecision Hash160;
}.

(** The trait [ToPublicKey]. *)
Class ToPublicKey {B : Bitcoin} (K : MiniscriptKey) : Type := {
  to_public_key : Pk -> PublicKey;
  to_x_only_pubkey : Pk -> XOnlyPublicKey;
  to_sha256 : Sha256 -> sha256_Hash;
  to_hash256 : Hash256 -> hash256_Hash;
  to_ripemd160 : Ripemd160 -> ripemd160_Hash;
  to_hash160 : Hash160 -> hash160_Hash;
}.

(** The provided method [to_pubkeyhash]. *)
Definition to_pubkeyhash {B : Bitcoin} {K : MiniscriptKey} {TP : ToPublicKey K}
    (self : Pk) (sig_type : SigType) : hash160_Hash :=
  match sig_type with
  | Ecdsa => hash160_hash (PublicKey_to_bytes (to_public_key self))
  | Schnorr => hash160_hash (XOnlyPublicKey_serialize (to_x_only_pubkey self))
  end.

(** What the sizes computed from a [MiniscriptKey] rely on: [is_uncompressed]
    describes the key the conversion yields. *)
Class KeyLaws {B : Bitcoin} {K : MiniscriptKey} (TP : ToPublicKey K) : Prop := {
  uncompressed_spec : forall k, PublicKey_compressed (to_public_key k) = negb (is_uncompressed k);
}.

(** [MiniscriptKey for bitcoin::PublicKey] and [for XOnlyPublicKey]. *)
Definition PublicKey_key {B : Bitcoin} : MiniscriptKey := {|
  Pk := PublicKey;
  is_uncompressed k := negb (PublicKey_compressed k);
  is_x_only_key _ := false;
  num_der_paths _ := 0;
  Sha256 := sha256_Hash;
  Hash256 := hash256_Hash;
  Ripemd160 := ripemd160_Hash;
  Hash160 := hash160_Hash;
|}.

Definition XOnlyPublicKey_key {B : Bitcoin} : MiniscriptKey := {|
  Pk := XOnlyPublicKey;
  is_uncompressed _ := false;
  is_x_only_key _ := true;
  num_der_paths _ := 0;
  Sha256 := sha256_Hash;
  Hash256 := hash256_Hash;
  Ripemd160 := ripemd160_Hash;
  Hash160 := hash160_Hash;
|}.

(** [ToPublicKey for bitcoin::PublicKey], with the provided method [to_x_only_pubkey]. *)
Definition PublicKey_to_public_key {B : Bitcoin} {Sp : Spending} {Pa : Parsing} : ToPublicKey PublicKey_key :=
  Build_ToPublicKey B PublicKey_key
    (fun pk => pk) XOnlyPublicKey_from (fun h => h) (fun h => h) (fun h => h) (fun h => h).

(** * Script sizes (src/src/lib.rs) *)

Definition script_num_size (n : N) : nat :=
  if (n <=? 0x10)%N then 1
  else if (n <? 0x80)%N then 2
  else if (n <? 0x8000)%N then 3
  else if (n <? 0x800000)%N then 4
  else if (n <? 0x80000000)%N then 5
  else 6.

Definition push_opcode_size (script_size : nat) : nat :=
  if script_size <? 76 then 1
  else if (N.of_nat script_size <? 0x100)%N then 2
  else if (N.of_nat script_size <? 0x10000)%N then 3
  else 5.

Lemma script_num_size_bounds n : 1 <= script_num_size n <= 6.
Proof. unfold script_num_size. repeat break_match; lia. Qed.
