(* ===== verification/Reference.v ===== *)
(** A concrete instance of the [Bitcoin] interface and of the key classes, with
    proofs of the laws. The witnesses of the development evaluate on it. *)
From S2P Require Import Prelude Bitcoin Primitives.

Module Reference.

(** A script item; a builder lists its items with the last one first. *)
Inductive Item : Type :=
| IOp (o : Opcode)
| IInt (n : Z)
| ISlice (s : bytes).

Definition item_size (i : Item) : nat :=
  match i with
  | IOp _ => 1
  | IInt n => push_int_size (Z.to_N n)
  | ISlice s => push_size (length s)
  end.

Definition pad (n : nat) (b : bytes) : bytes := resize n Byte.x00 b.

(** Arrays of bytes, the type of hashes. *)
Fixpoint array (n : nat) : Type :=
  match n with 0 => () | S n => (Byte.byte * array n)%type end.

#[export] Instance array_eq_dec n : EqDecision (array n).
Proof. induction n; simpl; solve_decision. Defined.

Fixpoint to_list {n : nat} : array n -> bytes :=
  match n with 0 => fun _ => [] | S n => fun a => a.1 :: to_list a.2 end.

(** The first bytes of a list, completed with zeros. *)
Fixpoint of_list (n : nat) (b : bytes) : array n :=
  match n with
  | 0 => ()
  | S n => (hd Byte.x00 b, of_list n (tl b))
  end.

Lemma to_list_length n (a : array n) : length (to_list a) = n.
Proof. induction n as [|n IH]; [done|]. simpl. by f_equal. Qed.

Lemma of_to_list n (a : array n) rest : of_list n (to_list a ++ rest) = a.
Proof.
  induction n as [|n IH]; simpl in *; [by destruct a|]. destruct a as [b a]. simpl. by rewrite IH.
Qed.

Lemma of_pad_list n m (a : array n) : n <= m -> of_list n (pad m (to_list a)) = a.
Proof. intros H. unfold pad. rewrite resize_ge by by rewrite to_list_length. apply of_to_list. Qed.

Lemma to_of_list n b : length b = n -> to_list (of_list n b) = b.
Proof.
  revert b. induction n as [|n IH]; intros [|x b] H; simpl in *; try done. by rewrite IH by lia.
Qed.

Lemma to_of_pad n b : to_list (of_list n b) = pad n b.
Proof.
  unfold pad. revert b. induction n as [|n IH]; intros b; [by destruct b|]. cbn [of_list to_list fst snd]. rewrite IH.
  destruct b as [|x b]; [|reflexivity]. cbn [hd tl]. by rewrite !resize_nil.
Qed.

(** Keys are numbered by a byte, which follows the prefix in their serialisation. *)
Definition key_bytes (k : bool * Byte.byte) : bytes :=
  if k.1 then Byte.x02 :: pad 32 [k.2] else Byte.x04 :: pad 64 [k.2].

Definition x_only_bytes (k : Byte.byte) : bytes := pad 32 [k].

Definition key_from (b : bytes) : option (bool * Byte.byte) :=
  match b with
  | _ :: k :: _ =>
      if bool_decide (key_bytes (true, k) = b) then Some (true, k)
      else if bool_decide (key_bytes (false, k) = b) then Some (false, k) else None
  | _ => None
  end.

Definition x_only_from (b : bytes) : option Byte.byte :=
  match b with
  | k :: _ => if bool_decide (x_only_bytes k = b) then Some k else None
  | [] => None
  end.

Lemma key_from_spec b k : key_from b = Some k <-> key_bytes k = b.
Proof.
  split.
  - destruct b as [|p [|x b]]; [done..|]. cbn [key_from].
    case_bool_decide; [by intros [= <-]|]. case_bool_decide; [by intros [= <-] | done].
  - intros <-. destruct k as [[] x].
    + change (key_bytes (true, x)) with (Byte.x02 :: x :: replicate 31 Byte.x00). cbn [key_from].
      by rewrite bool_decide_eq_true_2.
    + change (key_bytes (false, x)) with (Byte.x04 :: x :: replicate 63 Byte.x00). cbn [key_from].
      rewrite bool_decide_eq_false_2 by done. by rewrite bool_decide_eq_true_2.
Qed.

Lemma x_only_from_spec b k : x_only_from b = Some k <-> x_only_bytes k = b.
Proof.
  split.
  - destruct b as [|x b]; [done|]. cbn [x_only_from]. case_bool_decide; [by intros [= <-] | done].
  - intros <-. unfold x_only_from. cbn. by rewrite bool_decide_eq_true_2.
Qed.

Definition verify (b : list Item) : list Item :=
  match b with
  | IOp o :: b' =>
      match verify_opcode o with
      | Some o' => IOp o' :: b'
      | None => IOp OP_VERIFY :: b
      end
  | _ => IOp OP_VERIFY :: b
  end.

End Reference.

#[export] Instance reference : Bitcoin := {|
  LockTime := N;
  LockTime_eq_dec := _;
  LockTime_from_consensus n := n;
  LockTime_to_consensus_u32 l := l;
  LockTime_is_block_height l := (l <? LOCK_TIME_THRESHOLD)%N;
  LockTime_is_block_time l := negb (l <? LOCK_TIME_THRESHOLD)%N;
  LockTime_is_implied_by l l' :=
    eqb (l <? LOCK_TIME_THRESHOLD)%N (l' <? LOCK_TIME_THRESHOLD)%N && (l <=? l')%N;
  Sequence := N;
  Sequence_eq_dec := _;
  Sequence_ZERO := 0%N;
  Sequence_from_consensus n := n;
  Sequence_to_consensus_u32 s := s;
  Sequence_is_height_locked s := bip68_enabled s && negb (bip68_time s);
  Sequence_is_time_locked s := bip68_enabled s && bip68_time s;
  Sequence_is_relative_lock_time s := bip68_enabled s;
  RelativeLockTime := N;
  RelativeLockTime_eq_dec := _;
  Sequence_to_relative_lock_time s := if bip68_enabled s then Some s else None;
  RelativeLockTime_is_implied_by l l' :=
    eqb (bip68_time l) (bip68_time l') && (N.land l 0xFFFF <=? N.land l' 0xFFFF)%N;
  sha256_Hash := Reference.array 32;
  hash256_Hash := Reference.array 32;
  ripemd160_Hash := Reference.array 20;
  hash160_Hash := Reference.array 20;
  sha256_eq_dec := _;
  hash256_eq_dec := _;
  ripemd160_eq_dec := _;
  hash160_eq_dec := _;
  sha256_hash := Reference.of_list 32;
  hash256_hash := Reference.of_list 32;
  ripemd160_hash := Reference.of_list 20;
  hash160_hash := Reference.of_list 20;
  sha256_to_byte_array := Reference.to_list;
  hash256_to_byte_array := Reference.to_list;
  ripemd160_to_byte_array := Reference.to_list;
  hash160_to_byte_array := Reference.to_list;
  PublicKey := bool * Byte.byte;
  PublicKey_eq_dec := _;
  PublicKey_compressed k := k.1;
  PublicKey_to_bytes := Reference.key_bytes;
  PublicKey_pubkey_hash k := Reference.pad 20 (Reference.key_bytes k);
  XOnlyPublicKey := Byte.byte;
  XOnlyPublicKey_eq_dec := _;
  XOnlyPublicKey_serialize := Reference.x_only_bytes;
  PubkeyHash_hash := Reference.pad 20;
  MAX_SCRIPT_ELEMENT_SIZE := 520;
  Builder := list Reference.Item;
  Builder_new := [];
  push_opcode b o := Reference.IOp o :: b;
  push_int b n := Reference.IInt n :: b;
  push_slice b s := Reference.ISlice s :: b;
  push_key b k := Reference.ISlice (Reference.key_bytes k) :: b;
  push_verify := Reference.verify;
  Builder_len b := sum_by Reference.item_size b;
|}.

#[export] Instance reference_lock_times : LockTimeLaws reference.
Proof.
  constructor; try done.
  - intros s. cbn. destruct (bip68_enabled s); [done|]. by split; [intros []|].
Qed.

Lemma reference_push i b :
  sum_by Reference.item_size (i :: b) = sum_by Reference.item_size b + Reference.item_size i.
Proof. rewrite sum_by_cons. lia. Qed.

#[export] Instance reference_builder : BuilderLaws reference.
Proof.
  constructor; try done; intros.
  - exact (reference_push _ b).
  - etransitivity; [exact (reference_push _ b)|]. cbn [Reference.item_size].
    by rewrite N2Z.id.
  - exact (reference_push _ b).
  - cbn. by rewrite H.
  - cbn. by rewrite H.
Qed.

Lemma pad_length n b : length (Reference.pad n b) = n.
Proof. apply length_resize. Qed.

#[export] Instance reference_sizes : SizeLaws reference.
Proof.
  constructor; intros; try first [apply pad_length | apply Reference.to_list_length].
  destruct k as [[] x]; reflexivity.
Qed.

#[export] Instance reference_key_hashes : KeyHashLaws reference.
Proof. constructor; intros; symmetry; apply (Reference.to_of_pad 20). Qed.

(** Keys that are [bitcoin::PublicKey]s; x-only keys drop the parity. *)
#[export] Instance reference_key : MiniscriptKey := {|
  Pk := bool * Byte.byte;
  Pk_eq_dec := _;
  is_uncompressed k := negb k.1;
  is_x_only_key _ := false;
  num_der_paths _ := 0;
  Sha256 := Reference.array 32;
  Hash256 := Reference.array 32;
  Ripemd160 := Reference.array 20;
  Hash160 := Reference.array 20;
  Sha256_eq_dec := _;
  Hash256_eq_dec := _;
  Ripemd160_eq_dec := _;
  Hash160_eq_dec := _;
|}.

#[export] Instance reference_to_public_key : ToPublicKey (B := reference) reference_key :=
  Build_ToPublicKey reference reference_key
    (fun k => k) (fun k => k.2) (fun h => h) (fun h => h) (fun h => h) (fun h => h).

#[export] Instance reference_key_laws : KeyLaws reference_to_public_key.
Proof. constructor. intros [[] k]; reflexivity. Qed.

(** Signatures are a tag and a payload. *)
#[export] Instance reference_spending : Spending := {|
  EcdsaSignature := bytes;
  EcdsaSignature_to_vec s := Byte.x30 :: Byte.x00 :: s;
  TaprootSignature := bytes;
  TaprootSignature_to_vec s := Byte.x40 :: Byte.x00 :: s;
  TapLeafHash := nat;
  TapLeafHash_eq_dec := _;
  TapNodeHash := bytes;
  TapNodeHash_eq_dec := _;
  ControlBlock := bytes;
  ControlBlock_eq_dec := _;
  ControlBlock_serialize b := b;
  TapLeafHash_from_script b := length b;
  LeafVersion := ();
  VarInt_size n := if n <? 253 then 1 else 3;
|}.

#[export] Instance reference_parsing : Parsing := {|
  EcdsaError := ();
  EcdsaSignature_from_slice b :=
    match b with Byte.x30 :: Byte.x00 :: s => Ok s | _ => Err () end;
  SigFromSliceError := ();
  TaprootSignature_from_slice b :=
    match b with Byte.x40 :: Byte.x00 :: s => Ok s | _ => Err () end;
  PublicKey_from_slice := Reference.key_from;
  XOnlyPublicKey_from_slice := Reference.x_only_from;
  XOnlyPublicKey_from k := k.2;
|}.

#[export] Instance reference_parsing_laws : ParsingLaws reference_parsing.
Proof.
  constructor; cbn [EcdsaSignature_to_vec TaprootSignature_to_vec reference_spending]; try done.
  - intros s. simpl. lia.
  - intros s. simpl. lia.
  - intros k. by apply Reference.key_from_spec.
  - intros k. by apply Reference.x_only_from_spec.
Qed.

#[export] Instance reference_canonical : CanonicalLaws reference_parsing.
Proof.
  constructor.
  - intros b k. apply Reference.key_from_spec.
  - intros b k. apply Reference.x_only_from_spec.
  - intros k. exists (true, k). by apply Reference.key_from_spec.
Qed.

(** Sample keys. *)
Definition keyA : bool * Byte.byte := (true, Byte.x0a).
Definition keyB : bool * Byte.byte := (true, Byte.x0b).
Definition keyC : bool * Byte.byte := (true, Byte.x0c).
Definition keyU : bool * Byte.byte := (false, Byte.x0d).
