(* ===== verification/Script.v ===== *)
(** The bytes of scripts as the crate bitcoin reads and writes them: the instructions of a
    script and the serialisation of a builder, as an interface with its documented
    behaviour, and an instance of it over the reference instance. *)
From S2P Require Import Prelude Bitcoin Primitives Reference.

(** An opcode that is not a push of bytes: one that the library names, another number push
    ([OP_PUSHNUM_NEG1], [OP_PUSHNUM_2] to [OP_PUSHNUM_16]), or any other. *)
Inductive ScriptOp : Type :=
| Named (o : Opcode)
| PushNum (n : Z)
| OtherOp (code : Byte.byte).

(** [script::Instruction]. *)
Inductive Instruction : Type :=
| PushBytes (b : bytes)
| Op (o : ScriptOp).

#[export] Instance ScriptOp_eq_dec : EqDecision ScriptOp.
Proof. solve_decision. Defined.
#[export] Instance Instruction_eq_dec : EqDecision Instruction.
Proof. solve_decision. Defined.

Class Scripts {B : Bitcoin} : Type := {
  (** [script::Error] *)
  ScriptError : Type;
  NonMinimalPush : ScriptError;
  NumericOverflow : ScriptError;
  (** [Builder::into_script], as bytes *)
  into_script : Builder -> bytes;
  (** the items of [Script::instructions] *)
  instructions : bytes -> list (result ScriptError Instruction);
  opcode_byte : ScriptOp -> Byte.byte;
  (** [script::read_scriptint] and [script::write_scriptint] *)
  read_scriptint : bytes -> result ScriptError Z;
  write_scriptint : Z -> bytes;
  (** [Hash::from_byte_array] *)
  sha256_from_byte_array : bytes -> sha256_Hash;
  hash256_from_byte_array : bytes -> hash256_Hash;
  ripemd160_from_byte_array : bytes -> ripemd160_Hash;
  hash160_from_byte_array : bytes -> hash160_Hash;
}.

(** * The format of scripts *)

Definition byte_of (n : N) : Byte.byte := default Byte.x00 (Byte.of_N n).

(** The [k] low bytes of a number, the lowest first. *)
Fixpoint le_bytes (k : nat) (n : N) : bytes :=
  match k with
  | 0 => []
  | S k => byte_of (n mod 256) :: le_bytes k (n / 256)
  end.

(** What precedes the data of a push of [n] bytes. *)
Definition push_header (n : nat) : bytes :=
  if n <? 76 then [byte_of (N.of_nat n)]
  else if n <? 256 then Byte.x4c :: le_bytes 1 (N.of_nat n)
  else if (N.of_nat n <? 65536)%N then Byte.x4d :: le_bytes 2 (N.of_nat n)
  else Byte.x4e :: le_bytes 4 (N.of_nat n).

(** The opcodes with an instruction of their own; [OP_FALSE] pushes the empty bytes and
    [OP_TRUE] is [OP_PUSHNUM_1]. *)
Definition is_op (o : ScriptOp) : bool :=
  match o with
  | Named o => negb (bool_decide (o = OP_FALSE))
  | PushNum n => (n =? -1)%Z || (2 <=? n)%Z && (n <=? 16)%Z
  | OtherOp _ => false
  end.

(** The instruction that pushes a number. *)
Definition int_instruction {B : Bitcoin} {Sc : Scripts} (n : Z) : Instruction :=
  if (n =? 1)%Z then Op (Named OP_TRUE)
  else if (n =? -1)%Z || (2 <=? n)%Z && (n <=? 16)%Z then Op (PushNum n)
  else PushBytes (write_scriptint n).

(** The bytes a builder writes for an instruction. *)
Definition instruction_bytes {B : Bitcoin} {Sc : Scripts} (i : Instruction) : bytes :=
  match i with
  | PushBytes b => push_header (length b) ++ b
  | Op o => [opcode_byte o]
  end.

(** The bytes of a length that follow the opcode of a push. *)
Definition length_size (opcode : Byte.byte) : nat :=
  match opcode with Byte.x4c => 1 | Byte.x4d => 2 | Byte.x4e => 4 | _ => 0 end.

Class ScriptLaws {B : Bitcoin} (Sc : Scripts) : Prop := {
  script_new : into_script Builder_new = [];
  script_push_opcode : forall b o,
    into_script (push_opcode b o) = into_script b ++ [opcode_byte (Named o)];
  script_push_slice : forall b s,
    into_script (push_slice b s) = into_script b ++ push_header (length s) ++ s;
  script_push_int : forall b n,
    into_script (push_int b n) = into_script b ++ instruction_bytes (int_instruction n);
  opcode_false : opcode_byte (Named OP_FALSE) = Byte.x00;
  (** opcodes are not confused with the pushes of bytes *)
  opcode_high : forall o, is_op o = true -> (0x4e < Byte.to_N (opcode_byte o))%N;
  instructions_nil : instructions [] = [];
  instructions_op : forall o rest, is_op o = true ->
    instructions (opcode_byte o :: rest) = Ok (Op o) :: instructions rest;
  instructions_push : forall s rest, (N.of_nat (length s) < 2 ^ 32)%N ->
    instructions (push_header (length s) ++ s ++ rest) = Ok (PushBytes s) :: instructions rest;
  (** the iterator ends, or fails, or takes an opcode and the data that belongs to it *)
  instructions_cases : forall s,
    s = [] \/ (exists e l, instructions s = Err e :: l)
    \/ exists opcode data rest i, s = opcode :: data ++ rest
         /\ instructions s = Ok i :: instructions rest
         /\ length data = match i with Op _ => 0 | PushBytes b => length_size opcode + length b end;
  scriptint_zero : write_scriptint 0 = [];
  scriptint_roundtrip : forall n, (0 <= n < 2 ^ 31)%Z -> read_scriptint (write_scriptint n) = Ok n;
  scriptint_length : forall n, (0 <= n < 2 ^ 31)%Z -> length (write_scriptint n) <= 4;
  scriptint_byte : forall b, read_scriptint [b] =
    Ok (if (Byte.to_N b <? 128)%N then Z.of_N (Byte.to_N b) else 128 - Z.of_N (Byte.to_N b))%Z
    \/ exists e, read_scriptint [b] = Err e;
}.

(** [from_byte_array] and [to_byte_array] are inverse to each other, on arrays. *)
Class HashLaws {B : Bitcoin} (Sc : Scripts) : Prop := {
  sha256_of_bytes : forall h, sha256_from_byte_array (sha256_to_byte_array h) = h;
  hash256_of_bytes : forall h, hash256_from_byte_array (hash256_to_byte_array h) = h;
  ripemd160_of_bytes : forall h, ripemd160_from_byte_array (ripemd160_to_byte_array h) = h;
  hash160_of_bytes : forall h, hash160_from_byte_array (hash160_to_byte_array h) = h;
  sha256_bytes : forall b, length b = 32 -> sha256_to_byte_array (sha256_from_byte_array b) = b;
  hash256_bytes : forall b, length b = 32 -> hash256_to_byte_array (hash256_from_byte_array b) = b;
  ripemd160_bytes : forall b, length b = 20 ->
    ripemd160_to_byte_array (ripemd160_from_byte_array b) = b;
  hash160_bytes : forall b, length b = 20 -> hash160_to_byte_array (hash160_from_byte_array b) = b;
}.

(** ** Facts on bytes *)

Lemma byte_of_to_N b : byte_of (Byte.to_N b) = b.
Proof. unfold byte_of. by rewrite Byte.of_to_N. Qed.

Lemma byte_of_N n : (n < 256)%N -> Byte.to_N (byte_of n) = n.
Proof.
  intros H. unfold byte_of. destruct (Byte.of_N n) as [b|] eqn:E; simpl.
  - by apply Byte.to_of_N.
  - apply Byte.of_N_None_iff in E. lia.
Qed.

Lemma byte_lt b : (Byte.to_N b < 256)%N.
Proof. pose proof (Byte.to_N_bounded b). lia. Qed.

Fixpoint le_value (b : bytes) : N :=
  match b with [] => 0 | x :: b => Byte.to_N x + 256 * le_value b end.

Lemma le_bytes_length k n : length (le_bytes k n) = k.
Proof. revert n. induction k as [|k IH]; intros n; [done|]. simpl. by rewrite IH. Qed.

Lemma le_value_bytes k n : (n < 256 ^ N.of_nat k)%N -> le_value (le_bytes k n) = n.
Proof.
  revert n. induction k as [|k IH]; intros n H; [simpl in *; lia|].
  cbn [le_bytes le_value]. rewrite byte_of_N by (apply N.mod_lt; done).
  rewrite IH.
  - pose proof (N.div_mod n 256). lia.
  - rewrite Nat2N.inj_succ, N.pow_succ_r' in H. apply N.Div0.div_lt_upper_bound. lia.
Qed.

(** ** The instructions of a builder *)

Section Emits.
Context {B : Bitcoin} {Sc : Scripts} {SL : ScriptLaws Sc}.

(** An instruction that the iterator reads back as it was written. *)
Definition readable (i : Instruction) : Prop :=
  match i with
  | PushBytes b => (N.of_nat (length b) < 2 ^ 32)%N
  | Op o => is_op o = true
  end.

Definition script_bytes (l : list Instruction) : bytes := flat_map instruction_bytes l.

Lemma instructions_cons i rest :
  readable i -> instructions (instruction_bytes i ++ rest) = Ok i :: instructions rest.
Proof.
  destruct i as [b|o]; intros H.
  - cbn [instruction_bytes]. rewrite <- app_assoc. by apply instructions_push.
  - by apply instructions_op.
Qed.

Lemma instructions_app l rest :
  Forall readable l -> instructions (script_bytes l ++ rest) = map Ok l ++ instructions rest.
Proof.
  induction 1 as [|i l Hi _ IH]; [done|]. cbn [script_bytes flat_map map app].
  rewrite <- app_assoc, instructions_cons by done. by f_equal.
Qed.

Lemma instructions_all l : Forall readable l -> instructions (script_bytes l) = map Ok l.
Proof.
  intros H. rewrite <- (app_nil_r (script_bytes l)), instructions_app by done.
  by rewrite instructions_nil, app_nil_r.
Qed.

(** A builder transformer that appends the given instructions. *)
Definition emits (f : Builder -> Builder) (l : list Instruction) : Prop :=
  Forall readable l /\ forall b, into_script (f b) = into_script b ++ script_bytes l.

Lemma emits_id : emits (fun b => b) [].
Proof. split; [constructor|]. intros b. by rewrite app_nil_r. Qed.

Lemma emits_comp f g l l' : emits f l -> emits g l' -> emits (fun b => g (f b)) (l ++ l').
Proof.
  intros [Hl Hf] [Hl' Hg]. split; [by apply Forall_app|]. intros b.
  unfold script_bytes in *. by rewrite Hg, Hf, flat_map_app, app_assoc.
Qed.

Lemma emits_fold {A} (f : Builder -> A -> Builder) (items : A -> list Instruction) l :
  Forall (fun a => emits (fun b => f b a) (items a)) l ->
  emits (fun b => fold_left f l b) (flat_map items l).
Proof.
  induction 1 as [|a l Ha _ IH]; [apply emits_id|]. cbn [flat_map fold_left].
  exact (emits_comp (fun b => f b a) _ _ _ Ha IH).
Qed.

Lemma emits_opcode f l o : o <> OP_FALSE ->
  emits f l -> emits (fun b => push_opcode (f b) o) (l ++ [Op (Named o)]).
Proof.
  intros Ho Hf. apply (emits_comp f (fun b => push_opcode b o)); [done|]. split.
  - repeat constructor. cbn. by apply negb_true_iff, bool_decide_eq_false_2.
  - intros b. apply script_push_opcode.
Qed.

Lemma emits_false f l :
  emits f l -> emits (fun b => push_opcode (f b) OP_FALSE) (l ++ [PushBytes []]).
Proof.
  intros Hf. apply (emits_comp f (fun b => push_opcode b OP_FALSE)); [done|]. split.
  - repeat constructor.
  - intros b. rewrite script_push_opcode. f_equal. by rewrite opcode_false.
Qed.

Lemma emits_slice f l s : (N.of_nat (length s) < 2 ^ 32)%N ->
  emits f l -> emits (fun b => push_slice (f b) s) (l ++ [PushBytes s]).
Proof.
  intros Hs Hf. apply (emits_comp f (fun b => push_slice b s)); [done|]. split.
  - by repeat constructor.
  - intros b. rewrite script_push_slice. f_equal. cbn. by rewrite app_nil_r.
Qed.

Lemma readable_int n : (0 <= n < 2 ^ 31)%Z -> readable (int_instruction n).
Proof.
  intros Hn. unfold int_instruction. destruct (n =? 1)%Z; [done|].
  destruct (_ || _) eqn:E; [exact E|]. cbn. pose proof (scriptint_length n Hn). lia.
Qed.

Lemma emits_int f l n : (0 <= n < 2 ^ 31)%Z ->
  emits f l -> emits (fun b => push_int (f b) n) (l ++ [int_instruction n]).
Proof.
  intros Hn Hf. apply (emits_comp f (fun b => push_int b n)); [done|]. split.
  - constructor; [by apply readable_int | constructor].
  - intros b. rewrite script_push_int. cbn [script_bytes flat_map]. by rewrite app_nil_r.
Qed.

Lemma emits_new f l : emits f l -> instructions (into_script (f Builder_new)) = map Ok l.
Proof. intros [Hl Hf]. rewrite Hf, script_new. cbn [app]. by apply instructions_all. Qed.
End Emits.

(** * An instance *)

Module ScriptReference.

Definition ops : list (Opcode * Byte.byte) :=
  [(OP_FALSE, Byte.x00); (OP_TRUE, Byte.x51); (OP_IF, Byte.x63); (OP_NOTIF, Byte.x64);
   (OP_ELSE, Byte.x67); (OP_ENDIF, Byte.x68); (OP_VERIFY, Byte.x69); (OP_TOALTSTACK, Byte.x6b);
   (OP_FROMALTSTACK, Byte.x6c); (OP_IFDUP, Byte.x73); (OP_DROP, Byte.x75); (OP_DUP, Byte.x76);
   (OP_SWAP, Byte.x7c); (OP_SIZE, Byte.x82); (OP_EQUAL, Byte.x87); (OP_EQUALVERIFY, Byte.x88);
   (OP_0NOTEQUAL, Byte.x92); (OP_ADD, Byte.x93); (OP_BOOLAND, Byte.x9a); (OP_BOOLOR, Byte.x9b);
   (OP_NUMEQUAL, Byte.x9c); (OP_NUMEQUALVERIFY, Byte.x9d); (OP_RIPEMD160, Byte.xa6);
   (OP_SHA256, Byte.xa8); (OP_HASH160, Byte.xa9); (OP_HASH256, Byte.xaa);
   (OP_CHECKSIG, Byte.xac); (OP_CHECKSIGVERIFY, Byte.xad); (OP_CHECKMULTISIG, Byte.xae);
   (OP_CHECKMULTISIGVERIFY, Byte.xaf); (OP_CLTV, Byte.xb1); (OP_CSV, Byte.xb2);
   (OP_NOP4, Byte.xb3); (OP_CHECKSIGADD, Byte.xba)].

Definition to_byte (o : ScriptOp) : Byte.byte :=
  match o with
  | Named o => match List.find (fun p => bool_decide (p.1 = o)) ops with
               | Some p => p.2
               | None => Byte.x00
               end
  | PushNum n => byte_of (Z.to_N (80 + n))
  | OtherOp code => code
  end.

Definition of_byte (b : Byte.byte) : ScriptOp :=
  match List.find (fun p => bool_decide (p.2 = b)) ops with
  | Some p => Named p.1
  | None =>
      let n := (Z.of_N (Byte.to_N b) - 80)%Z in
      if (n =? -1)%Z || (2 <=? n)%Z && (n <=? 16)%Z then PushNum n else OtherOp b
  end.

Inductive Error : Type := EarlyEndOfScript | NonMinimal | Overflow.

(** Takes [n] bytes of data from a script, or fails. *)
Fixpoint parse (fuel : nat) (s : bytes) : list (result Error Instruction) :=
  match fuel, s with
  | S fuel, b :: rest =>
      let push (n : nat) (rest : bytes) :=
        if length rest <? n then [Err EarlyEndOfScript]
        else Ok (PushBytes (take n rest)) :: parse fuel (drop n rest) in
      let pushdata (k : nat) :=
        if length rest <? k then [Err EarlyEndOfScript]
        else push (N.to_nat (le_value (take k rest))) (drop k rest) in
      if (Byte.to_N b <=? 75)%N then push (N.to_nat (Byte.to_N b)) rest
      else match b with
           | Byte.x4c => pushdata 1
           | Byte.x4d => pushdata 2
           | Byte.x4e => pushdata 4
           | _ => Ok (Op (of_byte b)) :: parse fuel rest
           end
  | _, _ => []
  end.

(** Little-endian with a sign bit, as short as possible. *)
Definition write_int (n : Z) : bytes :=
  let m := Z.to_N n in
  if (m =? 0)%N then []
  else if (m <? 128)%N then le_bytes 1 m
  else if (m <? 32768)%N then le_bytes 2 m
  else if (m <? 8388608)%N then le_bytes 3 m
  else if (m <? 2147483648)%N then le_bytes 4 m
  else le_bytes 5 m.

Definition read_int (b : bytes) : result Error Z :=
  match rev b with
  | [] => Ok 0%Z
  | last :: before =>
      if 4 <? length b then Err Overflow
      else if (Byte.to_N last mod 128 =? 0)%N
              && (match before with [] => true | prev :: _ => (Byte.to_N prev <? 128)%N end)
           then Err NonMinimal
      else if (Byte.to_N last <? 128)%N then Ok (Z.of_N (le_value b))
      else Ok (2 ^ (8 * Z.of_nat (length b) - 1) - Z.of_N (le_value b))%Z
  end.

Definition item_bytes (i : Reference.Item) : bytes :=
  match i with
  | Reference.IOp o => [to_byte (Named o)]
  | Reference.IInt n =>
      if (n =? 1)%Z then [to_byte (Named OP_TRUE)]
      else if (n =? -1)%Z || (2 <=? n)%Z && (n <=? 16)%Z then [to_byte (PushNum n)]
      else push_header (length (write_int n)) ++ write_int n
  | Reference.ISlice s => push_header (length s) ++ s
  end.

Lemma parse_pushdata b k fuel rest :
  b = Byte.x4c /\ k = 1 \/ b = Byte.x4d /\ k = 2 \/ b = Byte.x4e /\ k = 4 ->
  parse (S fuel) (b :: rest)
  = (if length rest <? k then [Err EarlyEndOfScript]
     else if length (drop k rest) <? N.to_nat (le_value (take k rest)) then [Err EarlyEndOfScript]
     else Ok (PushBytes (take (N.to_nat (le_value (take k rest))) (drop k rest)))
          :: parse fuel (drop (N.to_nat (le_value (take k rest))) (drop k rest))).
Proof. intros [[-> ->]|[[-> ->]|[-> ->]]]; reflexivity. Qed.

Lemma parse_fuel fuel s : length s <= fuel -> parse fuel s = parse (length s) s.
Proof.
  remember (length s) as n eqn:Hn. assert (length s <= n) as Hl by lia. clear Hn.
  revert s fuel Hl. induction n as [n IH] using lt_wf_ind. intros s fuel Hl Hf.
  destruct s as [|b s]; [by destruct fuel, n|].
  destruct fuel as [|fuel]; [simpl in *; lia|]. destruct n as [|n]; [simpl in *; lia|].
  simpl in Hl. cbn [parse].
  assert (forall s', length s' <= length s -> parse fuel s' = parse n s') as Hs.
  { intros s' Hs'. rewrite (IH (length s') ltac:(lia) s' fuel), (IH (length s') ltac:(lia) s' n) by lia.
    done. }
  assert (forall m rest, length rest <= length s ->
    (if length rest <? m then [Err EarlyEndOfScript]
     else Ok (PushBytes (take m rest)) :: parse fuel (drop m rest))
    = (if length rest <? m then [Err EarlyEndOfScript]
       else Ok (PushBytes (take m rest)) :: parse n (drop m rest))) as Hp.
  { intros m rest Hr. destruct (_ <? _); [done|]. f_equal. apply Hs. rewrite length_drop. lia. }
  rewrite Hp, (Hs s) by lia.
  rewrite !(Hp _ (drop _ s)) by (rewrite length_drop; lia). reflexivity.
Qed.
End ScriptReference.

#[export] Instance reference_scripts : Scripts (B := reference) := {|
  ScriptError := ScriptReference.Error;
  NonMinimalPush := ScriptReference.NonMinimal;
  NumericOverflow := ScriptReference.Overflow;
  into_script b := flat_map ScriptReference.item_bytes (rev b);
  instructions s := ScriptReference.parse (length s) s;
  opcode_byte := ScriptReference.to_byte;
  read_scriptint := ScriptReference.read_int;
  write_scriptint := ScriptReference.write_int;
  sha256_from_byte_array := Reference.of_list 32;
  hash256_from_byte_array := Reference.of_list 32;
  ripemd160_from_byte_array := Reference.of_list 20;
  hash160_from_byte_array := Reference.of_list 20;
|}.

#[export] Instance reference_hash_laws : HashLaws reference_scripts.
Proof.
  constructor; intros; try (by apply Reference.to_of_list).
  1, 2: rewrite <- (app_nil_r (_ h)); apply (Reference.of_to_list 32).
  1, 2: rewrite <- (app_nil_r (_ h)); apply (Reference.of_to_list 20).
Qed.

Lemma reference_push_script b i :
  into_script (i :: b : Builder) = into_script b ++ ScriptReference.item_bytes i.
Proof. cbn. by rewrite flat_map_app; cbn; rewrite app_nil_r. Qed.

Lemma reference_of_to_byte o : is_op o = true ->
  ScriptReference.of_byte (ScriptReference.to_byte o) = o
  /\ (0x4e < Byte.to_N (ScriptReference.to_byte o))%N.
Proof.
  destruct o as [o|n|c]; [by destruct o | | done]. cbn [is_op]. intros H.
  assert (n ∈ [-1; 2; 3; 4; 5; 6; 7; 8; 9; 10; 11; 12; 13; 14; 15; 16]%Z) as Hn.
  { apply orb_true_iff in H as [H%Z.eqb_eq|[H1%Z.leb_le H2%Z.leb_le]%andb_true_iff].
    - subst. by left.
    - right. apply list_elem_of_In. cbn.
      assert (n = 2 \/ n = 3 \/ n = 4 \/ n = 5 \/ n = 6 \/ n = 7 \/ n = 8 \/ n = 9 \/ n = 10 \/ n = 11
        \/ n = 12 \/ n = 13 \/ n = 14 \/ n = 15 \/ n = 16)%Z by lia. lia. }
  clear H. repeat (apply elem_of_cons in Hn as [->|Hn]; [by vm_compute|]). by apply elem_of_nil in Hn.
Qed.

Lemma reference_instructions_push s rest :
  (N.of_nat (length s) < 2 ^ 32)%N ->
  ScriptReference.parse (length (push_header (length s) ++ s ++ rest)) (push_header (length s) ++ s ++ rest)
  = Ok (PushBytes s) :: ScriptReference.parse (length rest) rest.
Proof.
  intros Hs.
  assert (forall fuel, length (s ++ rest) <= fuel ->
    (if length (s ++ rest) <? length s then [Err ScriptReference.EarlyEndOfScript]
     else Ok (PushBytes (take (length s) (s ++ rest)))
          :: ScriptReference.parse fuel (drop (length s) (s ++ rest)))
    = Ok (PushBytes s) :: ScriptReference.parse (length rest) rest) as Hp.
  { intros fuel Hf. rewrite length_app in *.
    destruct (Nat.ltb_spec (length s + length rest) (length s)); [lia|].
    rewrite take_app_length, drop_app_length. f_equal. apply ScriptReference.parse_fuel. lia. }
  assert (forall k fuel, (N.of_nat (length s) < 256 ^ N.of_nat k)%N -> length (s ++ rest) <= fuel ->
    (let tail := le_bytes k (N.of_nat (length s)) ++ s ++ rest in
     if length tail <? k then [Err ScriptReference.EarlyEndOfScript]
     else if length (drop k tail) <? N.to_nat (le_value (take k tail))
          then [Err ScriptReference.EarlyEndOfScript]
          else Ok (PushBytes (take (N.to_nat (le_value (take k tail))) (drop k tail)))
               :: ScriptReference.parse fuel (drop (N.to_nat (le_value (take k tail))) (drop k tail)))
    = Ok (PushBytes s) :: ScriptReference.parse (length rest) rest) as Hd.
  { intros k fuel Hk Hf. cbv zeta.
    rewrite (take_app_length' _ _ k), (drop_app_length' _ _ k) by (by rewrite le_bytes_length).
    rewrite le_value_bytes, Nat2N.id by done.
    rewrite length_app, le_bytes_length.
    destruct (Nat.ltb_spec (k + length (s ++ rest)) k); [lia|]. by apply Hp. }
  assert (forall b k,
    b = Byte.x4c /\ k = 1 \/ b = Byte.x4d /\ k = 2 \/ b = Byte.x4e /\ k = 4 ->
    (N.of_nat (length s) < 256 ^ N.of_nat k)%N ->
    ScriptReference.parse (S (length (le_bytes k (N.of_nat (length s)) ++ s ++ rest)))
      (b :: le_bytes k (N.of_nat (length s)) ++ s ++ rest)
    = Ok (PushBytes s) :: ScriptReference.parse (length rest) rest) as Hx.
  { intros b k Hbk Hk. rewrite (ScriptReference.parse_pushdata b k) by done. apply Hd; [done|].
    rewrite (length_app (le_bytes _ _)). lia. }
  unfold push_header. repeat destruct (_ <? _) eqn:? in |- *.
  - cbn [app length ScriptReference.parse].
    rewrite byte_of_N by (bool_hyps; lia).
    destruct (N.leb_spec (N.of_nat (length s)) 75); [|bool_hyps; lia].
    rewrite Nat2N.id. by apply Hp.
  - apply (Hx Byte.x4c 1); [tauto | bool_hyps; simpl; lia].
  - destruct (N.ltb_spec (N.of_nat (length s)) 65536) as [H|_].
    + apply (Hx Byte.x4d 2); [tauto | exact H].
    + apply (Hx Byte.x4e 4); [tauto | exact Hs].
Qed.

Lemma reference_instructions_op o rest : is_op o = true ->
  ScriptReference.parse (S (length rest)) (ScriptReference.to_byte o :: rest)
  = Ok (Op o) :: ScriptReference.parse (length rest) rest.
Proof.
  intros Ho. destruct (reference_of_to_byte o Ho) as [Hof Hhi].
  set (b := ScriptReference.to_byte o) in *. cbn [ScriptReference.parse].
  destruct (N.leb_spec (Byte.to_N b) 75); [lia|].
  assert (Ok (E := ScriptReference.Error) (Op (ScriptReference.of_byte b))
          :: ScriptReference.parse (length rest) rest
          = Ok (Op o) :: ScriptReference.parse (length rest) rest) as He by by rewrite Hof.
  clearbody b. destruct b; try exact He; by vm_compute in Hhi.
Qed.

Ltac size_class :=
  split_and!; first [done | reflexivity | lia | right; vm_compute (N.mul _ _); lia
                    | vm_compute (N.mul _ _); lia].

(** The size class of a number. *)
Lemma write_int_cases n : (0 <= n < 2 ^ 31)%Z ->
  n = 0%Z /\ ScriptReference.write_int n = []
  \/ exists k, k <= 3 /\ ScriptReference.write_int n = le_bytes (S k) (Z.to_N n)
       /\ (Z.to_N n < 128 * 256 ^ N.of_nat k)%N
       /\ (1 <= Z.to_N n)%N /\ (k = 0 \/ (128 * 256 ^ (N.of_nat k - 1) <= Z.to_N n)%N).
Proof.
  intros Hn. unfold ScriptReference.write_int. assert (n = Z.of_N (Z.to_N n)) as Hm by lia.
  assert (Z.to_N n < 2147483648)%N as Hb by lia. clear Hn.
  generalize dependent (Z.to_N n). intros m -> Hb.
  destruct (N.eqb_spec m 0); [left; split; [lia | done]|right].
  destruct (N.ltb_spec m 128); [exists 0; size_class|].
  destruct (N.ltb_spec m 32768); [exists 1; size_class|].
  destruct (N.ltb_spec m 8388608); [exists 2; size_class|].
  destruct (N.ltb_spec m 2147483648); [exists 3; size_class|lia].
Qed.

Lemma le_bytes_snoc k n : le_bytes (S k) n = le_bytes k n ++ [byte_of (n / 256 ^ N.of_nat k mod 256)].
Proof.
  revert n. induction k as [|k IH]; intros n.
  - cbn [le_bytes app]. by rewrite N.div_1_r.
  - change (le_bytes (S (S k)) n) with (byte_of (n mod 256) :: le_bytes (S k) (n / 256)).
    rewrite IH. cbn [le_bytes app]. do 4 f_equal.
    rewrite Nat2N.inj_succ, N.pow_succ_r', N.Div0.div_div. done.
Qed.

Lemma read_write_int n : (0 <= n < 2 ^ 31)%Z ->
  ScriptReference.read_int (ScriptReference.write_int n) = Ok n.
Proof.
  intros Hn. destruct (write_int_cases n Hn) as [[-> ->]|(k & Hk & -> & Hlt & H1 & Hge)]; [done|].
  unfold ScriptReference.read_int. rewrite le_bytes_length.
  assert (le_value (le_bytes (S k) (Z.to_N n)) = Z.to_N n) as ->.
  { apply le_value_bytes. rewrite Nat2N.inj_succ, N.pow_succ_r'. lia. }
  set (m := Z.to_N n) in *.
  assert (m / 256 ^ N.of_nat k < 128)%N as Htop.
  { apply N.Div0.div_lt_upper_bound. lia. }
  rewrite le_bytes_snoc, rev_app_distr. cbn [rev app].
  destruct (Nat.ltb_spec 4 (S k)); [lia|].
  rewrite (N.mod_small (_ / _)) by lia. rewrite byte_of_N by lia.
  rewrite (N.mod_small _ 128) by lia.
  destruct (N.ltb_spec (m / 256 ^ N.of_nat k) 128); [|lia].
  replace (Z.of_N m) with n by (unfold m; lia).
  destruct (N.eqb_spec (m / 256 ^ N.of_nat k) 0) as [Hz|]; [cbn [andb]|done].
  destruct k as [|k]; [simpl in Hz; rewrite N.div_1_r in Hz; lia|].
  rewrite le_bytes_snoc, rev_app_distr. cbn [rev app].
  apply N.div_small_iff in Hz; [|by apply N.pow_nonzero].
  assert (N.of_nat (S k) - 1 = N.of_nat k)%N as Hk' by lia. rewrite Hk' in Hge.
  assert (m / 256 ^ N.of_nat k < 256)%N as Hp.
  { apply N.Div0.div_lt_upper_bound. rewrite Nat2N.inj_succ, N.pow_succ_r' in Hz. lia. }
  rewrite (N.mod_small _ 256), byte_of_N by done.
  assert (128 <= m / 256 ^ N.of_nat k)%N.
  { apply N.div_le_lower_bound; [by apply N.pow_nonzero | lia]. }
  destruct (N.ltb_spec (m / 256 ^ N.of_nat k) 128); [lia | done].
Qed.

Lemma reference_take opcode data k n rest :
  let tail := data ++ rest in
  length data = k -> k = length_size opcode ->
  (if length rest <? n then [Err ScriptReference.EarlyEndOfScript]
   else Ok (PushBytes (take n rest)) :: ScriptReference.parse (length tail) (drop n rest))
  = ScriptReference.parse (S (length tail)) (opcode :: tail) ->
  (exists e l, ScriptReference.parse (S (length tail)) (opcode :: tail) = Err e :: l)
  \/ exists op data rest i, opcode :: tail = op :: data ++ rest
       /\ ScriptReference.parse (S (length tail)) (opcode :: tail)
          = Ok i :: ScriptReference.parse (length rest) rest
       /\ length data = match i with Op _ => 0 | PushBytes b => length_size op + length b end.
Proof.
  cbv zeta. intros Hd Hk <-. destruct (Nat.ltb_spec (length rest) n) as [|Hl]; [left; eauto|right].
  exists opcode, (data ++ take n rest), (drop n rest), (PushBytes (take n rest)).
  rewrite <- app_assoc, take_drop. split_and!; [done | | rewrite length_app; lia].
  f_equal. apply ScriptReference.parse_fuel. rewrite length_app, length_drop. lia.
Qed.

Lemma reference_instructions_cases s :
  s = [] \/ (exists e l, instructions s = Err e :: l)
  \/ exists opcode data rest i, s = opcode :: data ++ rest
       /\ instructions s = Ok i :: instructions rest
       /\ length data = match i with Op _ => 0 | PushBytes b => length_size opcode + length b end.
Proof.
  destruct s as [|b s]; [by left|right]. cbn [instructions reference_scripts length].
  assert (forall k, b = Byte.x4c /\ k = 1 \/ b = Byte.x4d /\ k = 2 \/ b = Byte.x4e /\ k = 4 ->
    (exists e l, ScriptReference.parse (S (length s)) (b :: s) = Err e :: l)
    \/ exists op data rest i, b :: s = op :: data ++ rest
         /\ ScriptReference.parse (S (length s)) (b :: s)
            = Ok i :: ScriptReference.parse (length rest) rest
         /\ length data = match i with Op _ => 0 | PushBytes b => length_size op + length b end) as Hp.
  { intros k Hk. pose proof (ScriptReference.parse_pushdata b k (length s) s Hk) as He.
    destruct (Nat.ltb_spec (length s) k) as [|Hl]; [left; rewrite He; eauto|].
    rewrite <- (take_drop k s). apply (reference_take b (take k s) k (N.to_nat (le_value (take k s)))).
    - rewrite length_take. lia.
    - by destruct Hk as [[-> ->]|[[-> ->]|[-> ->]]].
    - rewrite !take_drop. by symmetry. }
  destruct (N.leb_spec (Byte.to_N b) 75) as [Hb|Hb].
  - assert (length_size b = 0) as Hz by (by destruct b; vm_compute in Hb).
    apply (reference_take b [] 0 (N.to_nat (Byte.to_N b)) s); [done | done |].
    cbn [ScriptReference.parse app]. by rewrite (proj2 (N.leb_le _ _)).
  - destruct (decide (b = Byte.x4c)) as [->|]; [apply (Hp 1); tauto|].
    destruct (decide (b = Byte.x4d)) as [->|]; [apply (Hp 2); tauto|].
    destruct (decide (b = Byte.x4e)) as [->|]; [apply (Hp 4); tauto|].
    right. exists b, [], s, (Op (ScriptReference.of_byte b)). split_and!; [done | | done].
    clear Hp. cbn [ScriptReference.parse]. rewrite (proj2 (N.leb_gt _ _)) by done.
    destruct b; try done.
Qed.

#[export] Instance reference_script_laws : ScriptLaws reference_scripts.
Proof.
  constructor; try done.
  - intros b o. apply (reference_push_script b (Reference.IOp o)).
  - intros b s. apply (reference_push_script b (Reference.ISlice s)).
  - intros b n. etransitivity; [apply (reference_push_script b (Reference.IInt n))|].
    f_equal.
    cbv beta iota delta [ScriptReference.item_bytes int_instruction].
    destruct (n =? 1)%Z; [reflexivity|]. destruct (_ || _); reflexivity.
  - intros o Ho. by apply reference_of_to_byte.
  - intros o rest Ho. by apply reference_instructions_op.
  - intros s rest Hs. by apply reference_instructions_push.
  - apply reference_instructions_cases.
  - intros n Hn. by apply read_write_int.
  - intros n Hn. destruct (write_int_cases n Hn) as [[_ H]|(k & Hk & H & _)]; cbn; rewrite H.
    + simpl. lia.
    + rewrite le_bytes_length. lia.
  - intros b. destruct b; (left; reflexivity) || (right; eexists; reflexivity).
Qed.
