(* ===== verification/Ord.v ===== *)
(** Inscription envelopes (src/src/ord/mod.rs and src/src/ord/tag.rs): the record
    [Inscription], its validation, and the script that reveals it. *)
From S2P Require Import Prelude Bitcoin.

Record Inscription : Type := mkInscription {
  body : option bytes;
  content_encoding : option bytes;
  content_type : option bytes;
  delegate : option bytes;
  duplicate_field : bool;
  incomplete_field : bool;
  metadata : option bytes;
  metaprotocol : option bytes;
  parent : option bytes;
  pointer : option bytes;
  unrecognized_even_field : bool;
}.

#[export] Instance Inscription_eq_dec : EqDecision Inscription.
Proof. solve_decision. Defined.

Module Tag.
Inductive Tag : Type :=
| Pointer | Unbound | ContentType | Parent | Metadata | Metaprotocol
| ContentEncoding | Delegate | Nop.

Definition is_chunked (self : Tag) : bool :=
  match self with Metadata => true | _ => false end.

Definition bytes (self : Tag) : bytes :=
  match self with
  | Pointer => [Byte.x02]
  | Unbound => [Byte.x42]
  | ContentType => [Byte.x01]
  | Parent => [Byte.x03]
  | Metadata => [Byte.x05]
  | Metaprotocol => [Byte.x07]
  | ContentEncoding => [Byte.x09]
  | Delegate => [Byte.x0b]
  | Nop => [Byte.xff]
  end.

Definition encode {B : Bitcoin} (self : Tag) (builder : Builder) (value : option Bitcoin.bytes)
  : Builder :=
  match value with
  | None => builder
  | Some value =>
      if is_chunked self && negb (is_empty value) then
        fold_left (fun tmp chunk => push_slice (push_slice tmp (bytes self)) chunk)
          (chunks MAX_SCRIPT_ELEMENT_SIZE value) builder
      else push_slice (push_slice builder (bytes self)) value
  end.
End Tag.

Section Inscriptions.
Context {B : Bitcoin}.

Definition PROTOCOL_ID : bytes := [Byte.x6f; Byte.x72; Byte.x64].
Definition BODY_TAG : bytes := [].

(** [validate] succeeds; the error carries the name of the first long field. *)
Definition validate (self : Inscription) : bool :=
  forallb
    (fun field : option bytes =>
       negb (match field with
             | Some value => MAX_SCRIPT_ELEMENT_SIZE <? length value
             | None => false
             end))
    [content_type self; content_encoding self; metaprotocol self; parent self;
     delegate self; pointer self].

Definition append_reveal_script_to_builder (self : Inscription) (builder : Builder) : Builder :=
  let builder := push_slice (push_opcode (push_opcode builder OP_FALSE) OP_IF) PROTOCOL_ID in
  let builder := Tag.encode Tag.ContentType builder (content_type self) in
  let builder := Tag.encode Tag.ContentEncoding builder (content_encoding self) in
  let builder := Tag.encode Tag.Metaprotocol builder (metaprotocol self) in
  let builder := Tag.encode Tag.Parent builder (parent self) in
  let builder := Tag.encode Tag.Delegate builder (delegate self) in
  let builder := Tag.encode Tag.Pointer builder (pointer self) in
  let builder := Tag.encode Tag.Metadata builder (metadata self) in
  let builder :=
    match body self with
    | Some body =>
        fold_left (fun builder chunk => push_slice builder chunk)
          (chunks MAX_SCRIPT_ELEMENT_SIZE body) (push_slice builder BODY_TAG)
    | None => builder
    end in
  push_opcode builder OP_ENDIF.

Definition size_guess (self : Inscription) : nat :=
  Builder_len (append_reveal_script_to_builder self Builder_new).

(** ** Lengths *)

Context {L : BuilderLaws B}.

(** A builder transformer that appends a number of bytes that does not
    depend on what is already there. *)
Definition appends (f : Builder -> Builder) (n : nat) : Prop :=
  forall b, Builder_len (f b) = Builder_len b + n.

Lemma appends_fold {A} (f : Builder -> A -> Builder) (sz : A -> nat) l :
  (forall b a, Builder_len (f b a) = Builder_len b + sz a) ->
  appends (fun b => fold_left f l b) (sum_by sz l).
Proof.
  intros Hf. induction l as [|a l IH]; intros b; simpl; [unfold sum_by; simpl; lia|].
  rewrite IH, Hf, sum_by_cons. lia.
Qed.

Definition tag_size (tag : Tag.Tag) (value : option bytes) : nat :=
  match value with
  | None => 0
  | Some value =>
      if Tag.is_chunked tag && negb (is_empty value) then
        sum_by (fun c => 2 + push_size (length c)) (chunks MAX_SCRIPT_ELEMENT_SIZE value)
      else 2 + push_size (length value)
  end.

Lemma tag_encode_len tag value :
  appends (fun b => Tag.encode tag b value) (tag_size tag value).
Proof.
  intros b. unfold Tag.encode, tag_size. destruct value as [value|]; [|lia].
  assert (forall b c, Builder_len (push_slice (push_slice b (Tag.bytes tag)) c)
            = Builder_len b + (2 + push_size (length c))) as Hlen.
  { intros b' c. rewrite !len_push_slice.
    assert (push_size (length (Tag.bytes tag)) = 2) as -> by by destruct tag. lia. }
  destruct (_ && _); [|apply Hlen].
  exact (appends_fold (fun tmp chunk => push_slice (push_slice tmp (Tag.bytes tag)) chunk)
           _ _ Hlen b).
Qed.

(** The envelope takes [size_guess] bytes wherever it is appended. *)
Lemma size_guess_spec i : appends (append_reveal_script_to_builder i) (size_guess i).
Proof.
  assert (exists n, appends (append_reveal_script_to_builder i) n) as [n Hn].
  { unfold append_reveal_script_to_builder.
    destruct (body i) as [bd|]; eexists; intros b; rewrite len_push_opcode.
    - rewrite (appends_fold (fun b c => push_slice b c) (fun c => push_size (length c)) _)
        by (intros; by rewrite len_push_slice).
      rewrite len_push_slice, !(fun t v b => tag_encode_len t v b).
      rewrite len_push_slice, !len_push_opcode.
      rewrite <- !Nat.add_assoc. reflexivity.
    - rewrite !(fun t v b => tag_encode_len t v b), len_push_slice, !len_push_opcode.
      rewrite <- !Nat.add_assoc. reflexivity. }
  intros b. unfold size_guess. rewrite !Hn, len_new. lia.
Qed.

End Inscriptions.
