(* ===== verification/Envelope.v ===== *)
(** Inscription envelopes (src/src/ord/envelope.rs, [remove_field] of src/src/ord/tag.rs and
    [parse_inscriptions] of src/src/ord/mod.rs): finding the envelopes of a tapscript and
    reading inscriptions out of them, inverse to writing their reveal scripts. *)
From stdpp Require Import gmap.
From S2P Require Import Prelude Bitcoin Primitives Reference Ord Script.

#[export] Instance byte_countable : Countable Byte.byte.
Proof.
  refine (inj_countable Byte.to_N Byte.of_N _). apply Byte.of_to_N.
Defined.

(** [Envelope<T>]; the numbers are [u32]. *)
Record Envelope (T : Type) : Type := mkEnvelope {
  input : N;
  offset : N;
  payload : T;
  pushnum : bool;
  stutter : bool;
}.
Arguments mkEnvelope {T} input offset payload pushnum stutter.
Arguments input {T} _.
Arguments offset {T} _.
Arguments payload {T} _.
Arguments pushnum {T} _.
Arguments stutter {T} _.

Abbreviation RawEnvelope := (Envelope (list bytes)).
Abbreviation ParsedEnvelope := (Envelope Inscription).

(** * From pushes to fields *)

Abbreviation Fields := (gmap bytes (list bytes)).

(** The first even position of an empty push. *)
Fixpoint body_position (i : nat) (payload : list bytes) : option nat :=
  match payload with
  | [] => None
  | push :: payload =>
      if (i mod 2 =? 0) && is_empty push then Some i else body_position (i + 1) payload
  end.

(** [fields.entry(key).or_default().push(value)] *)
Definition push_field (key value : bytes) (fields : Fields) : Fields :=
  partial_alter (fun values => Some (default [] values ++ [value])) key fields.

(** The loop over the pushes, two at a time; [true] when one is left over. *)
Fixpoint collect_fields (items : list bytes) (fields : Fields) : Fields * bool :=
  match items with
  | key :: value :: items => collect_fields items (push_field key value fields)
  | [_] => (fields, true)
  | [] => (fields, false)
  end.

(** [Tag::remove_field]. *)
Definition remove_field (self : Tag.Tag) (fields : Fields) : option bytes * Fields :=
  let found : option (list bytes) := fields !! Tag.bytes self in
  if Tag.is_chunked self then
    match found with
    | None => (None, fields)
    | Some value =>
        (if is_empty value then None else Some (concat value), delete (Tag.bytes self) fields)
    end
  else
    match found with
    | None | Some [] => (None, fields)
    | Some (value :: values) =>
        (Some value,
         if is_empty values then delete (Tag.bytes self) fields
         else <[Tag.bytes self := values]> fields)
    end.

Definition is_even_tag (tag : bytes) : bool :=
  match tag with [] => false | lsb :: _ => (Byte.to_N lsb mod 2 =? 0)%N end.

(** [From<RawEnvelope> for ParsedEnvelope]. *)
Definition parsed_from (envelope : RawEnvelope) : ParsedEnvelope :=
  let pushes := payload envelope in
  let body := body_position 0 pushes in
  let '(fields, incomplete_field) :=
    collect_fields (take (default (length pushes) body) pushes) ∅ in
  let duplicate_field := existsb (fun '(_, values) => 1 <? length values) (map_to_list fields) in
  let '(content_encoding, fields) := remove_field Tag.ContentEncoding fields in
  let '(content_type, fields) := remove_field Tag.ContentType fields in
  let '(delegate, fields) := remove_field Tag.Delegate fields in
  let '(metadata, fields) := remove_field Tag.Metadata fields in
  let '(metaprotocol, fields) := remove_field Tag.Metaprotocol fields in
  let '(parent, fields) := remove_field Tag.Parent fields in
  let '(pointer, fields) := remove_field Tag.Pointer fields in
  let unrecognized_even_field := existsb (fun '(tag, _) => is_even_tag tag) (map_to_list fields) in
  mkEnvelope (input envelope) (offset envelope)
    (mkInscription (option_map (fun i => concat (drop (i + 1) pushes)) body)
       content_encoding content_type delegate duplicate_field incomplete_field metadata
       metaprotocol parent pointer unrecognized_even_field)
    (pushnum envelope) (stutter envelope).

(** * From scripts to pushes *)

Section Envelopes.
Context {B : Bitcoin} {Sc : Scripts}.
Abbreviation Instructions := (list (result ScriptError Instruction)).

(** [usize] to [u32]. *)
Definition try_into_u32 (n : nat) : result ScriptError N :=
  if (N.of_nat n <? 2 ^ 32)%N then Ok (N.of_nat n) else Err NumericOverflow.

(** [accept]: the instruction is consumed when it is the next one. *)
Definition accept (instructions : Instructions) (instruction : Instruction) : bool * Instructions :=
  match instructions with
  | Ok i :: rest => if bool_decide (i = instruction) then (true, rest) else (false, instructions)
  | _ => (false, instructions)
  end.

Definition peek_empty (instructions : Instructions) : bool :=
  match instructions with
  | Ok (PushBytes []) :: _ => true
  | _ => false
  end.

Definition pushnum_bytes (n : Z) : bytes :=
  if (n =? -1)%Z then [Byte.x81] else [byte_of (Z.to_N n)].

(** The loop of [from_instructions] over the pushes of the envelope. *)
Fixpoint envelope_loop (input : N) (offset : nat) (stutter : bool) (payload : list bytes)
    (pushnum : bool) (instructions : Instructions)
  : result ScriptError (bool * option RawEnvelope * Instructions) :=
  match instructions with
  | [] => Ok (false, None, [])
  | Err e :: _ => Err e
  | Ok (Op (Named OP_ENDIF)) :: rest =>
      offset ← try_into_u32 offset;
      Ok (false, Some (mkEnvelope input offset payload pushnum stutter), rest)
  | Ok (Op (PushNum n)) :: rest =>
      envelope_loop input offset stutter (payload ++ [pushnum_bytes n]) true rest
  | Ok (Op (Named OP_TRUE)) :: rest =>
      envelope_loop input offset stutter (payload ++ [pushnum_bytes 1]) true rest
  | Ok (PushBytes push) :: rest =>
      envelope_loop input offset stutter (payload ++ [push]) pushnum rest
  | Ok (Op _) :: rest => Ok (false, None, rest)
  end.

Definition from_instructions (instructions : Instructions) (input : N) (offset : nat)
    (stutter : bool) : result ScriptError (bool * option RawEnvelope * Instructions) :=
  let '(ok, instructions) := accept instructions (Op (Named OP_IF)) in
  if negb ok then Ok (peek_empty instructions, None, instructions)
  else
    let '(ok, instructions) := accept instructions (PushBytes PROTOCOL_ID) in
    if negb ok then Ok (peek_empty instructions, None, instructions)
    else envelope_loop input offset stutter [] false instructions.

(** The loop of [from_tapscript]; every turn consumes an instruction, so that their number
    is fuel enough. *)
Fixpoint tapscript_loop (fuel : nat) (input : N) (instructions : Instructions)
    (envelopes : list RawEnvelope) (stuttered : bool) : result ScriptError (list RawEnvelope) :=
  match fuel, instructions with
  | 0, _ | _, [] => Ok envelopes
  | S fuel, Err e :: _ => Err e
  | S fuel, Ok instruction :: rest =>
      if bool_decide (instruction = PushBytes []) then
        '(stutter, envelope, rest) ← from_instructions rest input (length envelopes) stuttered;
        match envelope with
        | Some envelope => tapscript_loop fuel input rest (envelopes ++ [envelope]) stuttered
        | None => tapscript_loop fuel input rest envelopes stutter
        end
      else tapscript_loop fuel input rest envelopes stuttered
  end.

Definition from_tapscript (tapscript : bytes) (input : nat) : result ScriptError (list RawEnvelope) :=
  input ← try_into_u32 input;
  let it := instructions tapscript in
  tapscript_loop (length it) input it [] false.

(** BIP 341: the first byte of an annex. *)
Definition TAPROOT_ANNEX_PREFIX : Byte.byte := Byte.x50.

(** The script of a script-path witness: before the control block and any annex. *)
Definition witness_tapscript (witness : list bytes) : option bytes :=
  let has_annex :=
    (2 <=? length witness)
    && match list.last witness with
       | Some (b :: _) => bool_decide (b = TAPROOT_ANNEX_PREFIX)
       | _ => false
       end in
  let offset := if has_annex then 3 else 2 in
  if length witness <? offset then None else witness !! (length witness - offset).

(** [from_transaction], from the witnesses of the inputs. *)
Definition raw_from_transaction (witnesses : list (list bytes)) : list RawEnvelope :=
  flat_map (fun '(i, witness) =>
    match witness_tapscript witness with
    | Some tapscript => match from_tapscript tapscript i with Ok l => l | Err _ => [] end
    | None => []
    end) (combine (seq 0 (length witnesses)) witnesses).

Definition from_transaction (witnesses : list (list bytes)) : list ParsedEnvelope :=
  map parsed_from (raw_from_transaction witnesses).

(** ** [parse_inscriptions] *)

(** [Error::InscriptionError]; the messages are left out. *)
Inductive InscriptionError : Type :=
| InvalidScript (e : ScriptError)
| NoEnvelope
| FieldTooLong
| NotReconstructable.

(** The inscriptions validated and written out, one after the other. *)
Fixpoint rebuild (inscriptions : list Inscription) (builder : Builder)
  : result InscriptionError Builder :=
  match inscriptions with
  | [] => Ok builder
  | i :: inscriptions =>
      if validate i then rebuild inscriptions (append_reveal_script_to_builder i builder)
      else Err FieldTooLong
  end.

Definition parse_inscriptions (script : bytes) : result InscriptionError (list Inscription) :=
  raw ← map_err InvalidScript (from_tapscript script 0);
  if is_empty raw then Err NoEnvelope
  else
    let inscriptions := map (fun raw => payload (parsed_from raw)) raw in
    builder ← rebuild inscriptions Builder_new;
    if bool_decide (into_script builder = script) then Ok inscriptions
    else Err NotReconstructable.

(** The number of instructions of the reveal script of an inscription. *)
Definition instruction_count (self : Inscription) : nat :=
  length (instructions (into_script (append_reveal_script_to_builder self Builder_new))).
End Envelopes.

(** * Fields *)

(** The values of a tag among the pairs of an envelope. *)
Definition values_of (key : bytes) (pairs : list (bytes * bytes)) : list bytes :=
  omap (fun p => if decide (p.1 = key) then Some p.2 else None) pairs.

Definition flat (pairs : list (bytes * bytes)) : list bytes := flat_map (fun p => [p.1; p.2]) pairs.

Definition fields_of (pairs : list (bytes * bytes)) : Fields :=
  fold_left (fun m p => push_field p.1 p.2 m) pairs ∅.

Lemma collect_flat pairs m :
  collect_fields (flat pairs) m = (fold_left (fun m p => push_field p.1 p.2 m) pairs m, false).
Proof. revert m. induction pairs as [|p pairs IH]; intros m; [done|]. apply IH. Qed.

Lemma fields_of_lookup key pairs :
  fields_of pairs !! key
  = match values_of key pairs with [] => None | values => Some values end.
Proof.
  unfold fields_of.
  assert (forall m, fold_left (fun m p => push_field p.1 p.2 m) pairs m !! key
    = match values_of key pairs with [] => m !! key | values => Some (default [] (m !! key) ++ values) end)
    as H.
  { induction pairs as [|[k v] pairs IH]; intros m; [done|]. cbn [fold_left fst snd]. rewrite IH.
    unfold values_of. cbn [omap list_omap fst snd]. fold (values_of key pairs).
    unfold push_field. destruct (decide (k = key)) as [->|Hne].
    - rewrite lookup_partial_alter_eq. destruct (values_of key pairs); [done|].
      unfold default at 1. simpl. by rewrite <- app_assoc.
    - by rewrite lookup_partial_alter_ne. }
  rewrite H, lookup_empty. by destruct (values_of key pairs).
Qed.

Lemma body_position_flat i pairs rest :
  i mod 2 = 0 -> Forall (fun p => is_empty p.1 = false) pairs ->
  body_position i (flat pairs ++ rest) = body_position (i + 2 * length pairs) rest.
Proof.
  intros Hi H. revert i Hi. induction H as [|[k v] pairs Hk _ IH]; intros i Hi.
  { f_equal. simpl. lia. }
  cbn [flat flat_map app fst snd length]. cbn [fst] in Hk. cbn [body_position].
  rewrite Hk, andb_false_r.
  assert ((i + 1) mod 2 = 1) as -> by (rewrite Nat.Div0.add_mod, Hi; done). cbn [Nat.eqb andb].
  fold (flat pairs). rewrite IH; [f_equal; lia|].
  replace (i + 1 + 1) with (i + 1 * 2) by lia. by rewrite Nat.Div0.mod_add.
Qed.

Lemma remove_field_spec (t : Tag.Tag) (fields : Fields) value :
  fields !! Tag.bytes t = match value with Some v => Some [v] | None => None end ->
  remove_field t fields = (value, delete (Tag.bytes t) fields).
Proof.
  unfold remove_field. intros H. rewrite H. cbv zeta. destruct value as [v|].
  - destruct (Tag.is_chunked t); cbv iota beta; [|done].
    change (concat [v]) with (v ++ []). by rewrite app_nil_r.
  - rewrite delete_id by done. by destruct (Tag.is_chunked t).
Qed.

(** * Round trip *)

Section RoundTrip.
Context {B : Bitcoin} {Sc : Scripts} {BL : BuilderLaws B} {SL : ScriptLaws Sc}.

(** The key and value pushes of a field. *)
Definition field_pairs (tag : Tag.Tag) (value : option bytes) : list (bytes * bytes) :=
  match value with
  | None => []
  | Some value =>
      if Tag.is_chunked tag && negb (is_empty value)
      then map (fun c => (Tag.bytes tag, c)) (chunks MAX_SCRIPT_ELEMENT_SIZE value)
      else [(Tag.bytes tag, value)]
  end.

Definition tagged (i : Inscription) : list (Tag.Tag * option bytes) :=
  [(Tag.ContentType, content_type i); (Tag.ContentEncoding, content_encoding i);
   (Tag.Metaprotocol, metaprotocol i); (Tag.Parent, parent i); (Tag.Delegate, delegate i);
   (Tag.Pointer, pointer i); (Tag.Metadata, metadata i)].

Definition pairs_of (i : Inscription) : list (bytes * bytes) :=
  flat_map (fun '(tag, value) => field_pairs tag value) (tagged i).

Definition body_pushes (i : Inscription) : list bytes :=
  match body i with
  | Some body => BODY_TAG :: chunks MAX_SCRIPT_ELEMENT_SIZE body
  | None => []
  end.

Definition pushes (i : Inscription) : list bytes := flat (pairs_of i) ++ body_pushes i.

(** The instructions of an envelope. *)
Definition envelope_items (i : Inscription) : list Instruction :=
  PushBytes [] :: Op (Named OP_IF) :: PushBytes PROTOCOL_ID
    :: map PushBytes (pushes i) ++ [Op (Named OP_ENDIF)].

(** The inscription that is read back: the flags say what the pushes say. *)
Definition canonical (i : Inscription) : Inscription :=
  mkInscription (body i) (content_encoding i) (content_type i) (delegate i)
    (match metadata i with Some m => MAX_SCRIPT_ELEMENT_SIZE <? length m | None => false end)
    false (metadata i) (metaprotocol i) (parent i) (pointer i) false.

Definition reveal (inscriptions : list Inscription) (b : Builder) : Builder :=
  fold_left (fun b i => append_reveal_script_to_builder i b) inscriptions b.

Lemma max_element : MAX_SCRIPT_ELEMENT_SIZE = 520.
Proof. apply max_script_element_size. Qed.

Lemma validate_fields i tag value :
  validate i = true -> (tag, Some value) ∈ tagged i -> Tag.is_chunked tag = false ->
  length value <= 520.
Proof.
  unfold validate. rewrite max_element. cbn [forallb]. rewrite !andb_true_iff, !negb_true_iff.
  intros H Hin Hc. unfold tagged in Hin. rewrite !elem_of_cons, elem_of_nil in Hin.
  destruct Hin as [Hin|[Hin|[Hin|[Hin|[Hin|[Hin|[Hin|[]]]]]]]]; injection Hin as -> Hv; try done;
    rewrite <- Hv in H; apply Nat.ltb_ge; apply H.
Qed.

Lemma chunks_small n (l : bytes) :
  n = 520 -> Forall (fun c => (N.of_nat (length c) < 2 ^ 32)%N) (chunks n l).
Proof. intros ->. eapply List.Forall_impl; [|apply chunks_bound]. cbn beta. intros c. lia. Qed.

Lemma emits_encode f l tag value :
  (Tag.is_chunked tag = false -> forall v, value = Some v -> length v <= 520) ->
  emits f l ->
  emits (fun b => Tag.encode tag (f b) value) (l ++ map PushBytes (flat (field_pairs tag value))).
Proof.
  intros Hv Hf. unfold Tag.encode, field_pairs. destruct value as [v|]; [|by rewrite app_nil_r].
  assert (forall c, (N.of_nat (length c) < 2 ^ 32)%N ->
    emits (fun b => push_slice (push_slice b (Tag.bytes tag)) c)
      [PushBytes (Tag.bytes tag); PushBytes c]) as Hp.
  { intros c Hc. apply (emits_slice (fun b => push_slice b _) [_]); [done|].
    apply (emits_slice (fun b => b) []); [by destruct tag | apply emits_id]. }
  destruct (Tag.is_chunked tag && negb (is_empty v)) eqn:E.
  - apply (emits_comp f (fun b => fold_left _ _ b)); [done|].
    pose proof (chunks_small MAX_SCRIPT_ELEMENT_SIZE v max_element) as Hc.
    replace (map PushBytes _) with
      (flat_map (fun c => [PushBytes (Tag.bytes tag); PushBytes c]) (chunks MAX_SCRIPT_ELEMENT_SIZE v)).
    + apply emits_fold. eapply List.Forall_impl; [|exact Hc]. exact Hp.
    + clear. induction (chunks _ v) as [|c cs IH]; [done|]. cbn. f_equal. f_equal. exact IH.
  - apply (emits_comp f (fun b => push_slice (push_slice b _) v)); [done|]. apply Hp.
    destruct (Tag.is_chunked tag) eqn:Ec; [|specialize (Hv eq_refl v eq_refl); lia].
    cbn [andb] in E. destruct v; [simpl; lia | done].
Qed.

Lemma emits_fields f l i :
  validate i = true -> emits f l ->
  emits (fun b => fold_left (fun b '(tag, value) => Tag.encode tag b value) (tagged i) (f b))
    (l ++ map PushBytes (flat (pairs_of i))).
Proof.
  intros Hv. unfold pairs_of.
  assert (forall tags, tags ⊆ tagged i -> forall f l, emits f l ->
    emits (fun b => fold_left (fun b '(tag, value) => Tag.encode tag b value) tags (f b))
      (l ++ map PushBytes (flat (flat_map (fun '(tag, value) => field_pairs tag value) tags)))) as H.
  { intros tags. induction tags as [|[tag value] tags IH]; intros Hs g l' Hg.
    - cbn. by rewrite app_nil_r.
    - cbn [flat_map fold_left]. unfold flat in *. rewrite flat_map_app, map_app, app_assoc.
      apply (IH ltac:(set_solver) (fun b => Tag.encode tag (g b) value)).
      apply emits_encode; [|done]. intros Hc v ->. eapply (validate_fields i tag v); [done| |done].
      apply Hs. by left. }
  apply H. done.
Qed.

Lemma emits_envelope i :
  validate i = true -> emits (append_reveal_script_to_builder i) (envelope_items i).
Proof.
  intros Hv. unfold envelope_items, pushes, body_pushes. rewrite map_app.
  assert (emits (fun b => push_slice (push_opcode (push_opcode b OP_FALSE) OP_IF) PROTOCOL_ID)
            [PushBytes []; Op (Named OP_IF); PushBytes PROTOCOL_ID]) as H1.
  { apply (emits_slice (fun b => push_opcode (push_opcode b OP_FALSE) OP_IF) [_; _]); [done|].
    apply (emits_opcode (fun b => push_opcode b OP_FALSE) [_]); [done|].
    apply (emits_false (fun b => b) []), emits_id. }
  pose proof (emits_fields _ _ i Hv H1) as H2. clear H1. cbn [tagged fold_left] in H2.
  destruct (body i) as [bd|] eqn:Eb.
  - apply (emits_slice _ _ BODY_TAG) in H2; [|done].
    pose proof (emits_fold (fun b c => push_slice b c) (fun c => [PushBytes c])
      (chunks MAX_SCRIPT_ELEMENT_SIZE bd)) as H3.
    eapply emits_comp in H3; [|exact H2|].
    + pose proof (emits_opcode _ _ OP_ENDIF ltac:(done) H3) as H4.
      unfold append_reveal_script_to_builder. rewrite Eb. cbn [app map] in *.
      rewrite <- !app_assoc in *. cbn [app] in *.
      replace (map PushBytes (chunks MAX_SCRIPT_ELEMENT_SIZE bd))
        with (flat_map (fun c => [PushBytes c]) (chunks MAX_SCRIPT_ELEMENT_SIZE bd)).
      * exact H4.
      * clear. by induction (chunks _ bd) as [|c cs IH]; cbn; [|rewrite IH].
    + eapply List.Forall_impl; [|exact (chunks_small _ bd max_element)]. intros c Hc.
      by apply (emits_slice (fun b => b) []); [|apply emits_id].
  - apply (emits_opcode _ _ OP_ENDIF ltac:(done)) in H2.
    unfold append_reveal_script_to_builder. rewrite Eb. cbn [app map]. rewrite app_nil_r.
    rewrite <- !app_assoc in H2. cbn [app] in H2. exact H2.
Qed.

(** ** Reading the envelopes *)

Lemma envelope_loop_pushes inp off st l payload num rest :
  envelope_loop inp off st payload num (map Ok (map PushBytes l) ++ rest)
  = envelope_loop inp off st (payload ++ l) num rest.
Proof.
  revert payload. induction l as [|p l IH]; intros payload; [by rewrite app_nil_r|].
  cbn [map app envelope_loop]. rewrite IH, <- app_assoc. done.
Qed.

Lemma from_instructions_envelope i off rest :
  (N.of_nat off < 2 ^ 32)%N ->
  from_instructions (map Ok (tl (envelope_items i)) ++ rest) 0 off false
  = Ok (false, Some (mkEnvelope 0 (N.of_nat off) (pushes i) false false), rest).
Proof.
  intros Hoff. unfold envelope_items, from_instructions. cbn [tl map app accept].
  rewrite !bool_decide_eq_true_2 by done. cbn [negb accept].
  rewrite bool_decide_eq_true_2 by done. cbn [negb].
  rewrite map_app, <- app_assoc, envelope_loop_pushes. cbn [map app envelope_loop].
  unfold try_into_u32. by rewrite (proj2 (N.ltb_lt _ _) Hoff).
Qed.

Definition envelopes_from (off : nat) (inscriptions : list Inscription) : list RawEnvelope :=
  imap (fun k i => mkEnvelope 0 (N.of_nat (off + k)) (pushes i) false false) inscriptions.

Lemma tapscript_loop_envelopes fuel inscriptions envelopes :
  (N.of_nat (length envelopes + length inscriptions) <= 2 ^ 32)%N ->
  length inscriptions <= fuel ->
  tapscript_loop fuel 0 (map Ok (flat_map envelope_items inscriptions)) envelopes false
  = Ok (envelopes ++ envelopes_from (length envelopes) inscriptions).
Proof.
  revert fuel envelopes. induction inscriptions as [|i l IH]; intros fuel envelopes Hn Hf.
  { cbn. rewrite app_nil_r. by destruct fuel. }
  destruct fuel as [|fuel]; [simpl in Hf; lia|]. cbn [flat_map]. rewrite map_app.
  change (map Ok (envelope_items i)) with
    (Ok (E := ScriptError) (PushBytes []) :: map Ok (tl (envelope_items i))).
  cbn [app tapscript_loop]. rewrite bool_decide_eq_true_2 by done.
  cbn [length] in *. rewrite from_instructions_envelope by lia.
  cbn [mbind result_bind]. rewrite IH by (rewrite ?length_app; simpl; lia).
  rewrite <- app_assoc. f_equal. f_equal. unfold envelopes_from. rewrite imap_cons. cbn [app].
  rewrite Nat.add_0_r. f_equal. rewrite length_app. cbn [length].
  apply imap_ext. intros k x _. cbn. do 2 f_equal. lia.
Qed.

(** ** From pushes to inscriptions *)

Lemma field_pairs_keys tag value : Forall (fun p => p.1 = Tag.bytes tag) (field_pairs tag value).
Proof.
  unfold field_pairs. destruct value as [v|]; [|constructor]. destruct (_ && _).
  - apply List.Forall_map, List.Forall_forall. by intros c _.
  - by repeat constructor.
Qed.

Lemma values_of_app key l l' : values_of key (l ++ l') = values_of key l ++ values_of key l'.
Proof. apply omap_app. Qed.

Lemma values_of_other key l : Forall (fun p => p.1 <> key) l -> values_of key l = [].
Proof.
  induction 1 as [|p l Hp _ IH]; [done|]. unfold values_of in *. cbn [omap list_omap].
  by destruct (decide _).
Qed.

Lemma values_of_field key tag value :
  values_of key (field_pairs tag value)
  = if decide (Tag.bytes tag = key) then map snd (field_pairs tag value) else [].
Proof.
  pose proof (field_pairs_keys tag value) as H. destruct (decide _) as [<-|Hne].
  - induction H as [|p l Hp _ IH]; [done|]. unfold values_of in *. cbn [omap list_omap map].
    rewrite decide_True by done. by rewrite IH.
  - apply values_of_other. eapply List.Forall_impl; [|exact H]. intros p -> ?. congruence.
Qed.

Lemma pairs_nonempty i : Forall (fun p : bytes * bytes => is_empty p.1 = false) (pairs_of i).
Proof.
  unfold pairs_of. apply Forall_flat_map, List.Forall_forall. intros [tag value] _.
  eapply List.Forall_impl; [|apply field_pairs_keys]. intros p ->. by destruct tag.
Qed.

(** The fields of the pairs of an inscription, one per tag. *)
Lemma pairs_lookup i tag value :
  (tag, value) ∈ tagged i ->
  fields_of (pairs_of i) !! Tag.bytes tag
  = match map snd (field_pairs tag value) with [] => None | l => Some l end.
Proof.
  intros H. rewrite fields_of_lookup.
  enough (values_of (Tag.bytes tag) (pairs_of i) = map snd (field_pairs tag value)) as -> by done.
  unfold pairs_of, tagged in *. cbn [flat_map]. rewrite !values_of_app, !values_of_field, app_nil_r.
  rewrite !elem_of_cons, elem_of_nil in H.
  destruct H as [H|[H|[H|[H|[H|[H|[H|[]]]]]]]]; injection H as -> ->; cbn [Tag.bytes];
    repeat (rewrite (decide_True (P := _ = _)) by done || rewrite (decide_False (P := _ = _)) by done);
    by rewrite ?app_nil_r.
Qed.

Lemma pairs_lookup_other i key :
  Forall (fun tv => Tag.bytes tv.1 <> key) (tagged i) -> fields_of (pairs_of i) !! key = None.
Proof.
  intros H. rewrite fields_of_lookup, values_of_other; [done|].
  unfold pairs_of. apply Forall_flat_map. eapply List.Forall_impl; [|exact H].
  intros [tag value] Hne. eapply List.Forall_impl; [|apply field_pairs_keys]. by intros p ->.
Qed.

Lemma remove_tag (tag : Tag.Tag) (value : option bytes) (fields : Fields) :
  fields !! Tag.bytes tag
  = match map snd (field_pairs tag value) with [] => None | l => Some l end ->
  remove_field tag fields = (value, delete (Tag.bytes tag) fields).
Proof.
  unfold field_pairs. destruct value as [v|]; [|apply (remove_field_spec _ _ None)].
  destruct (Tag.is_chunked tag && negb (is_empty v)) eqn:E; [|apply (remove_field_spec _ _ (Some v))].
  apply andb_true_iff in E as [Hc Hv]. rewrite map_map, map_id. intros H.
  unfold remove_field. rewrite Hc, H. cbv zeta.
  pose proof (chunks_concat MAX_SCRIPT_ELEMENT_SIZE v ltac:(rewrite max_element; lia)) as Hcat.
  destruct (chunks MAX_SCRIPT_ELEMENT_SIZE v) as [|c cs]; [by destruct v|].
  cbn [is_empty]. do 2 f_equal. exact Hcat.
Qed.

Lemma existsb_map_to_list (P : bytes * list bytes -> bool) (m : Fields) :
  existsb P (map_to_list m) = true <-> exists k l, m !! k = Some l /\ P (k, l) = true.
Proof.
  rewrite existsb_exists. split.
  - intros ([k l] & Hin & HP). apply list_elem_of_In, elem_of_map_to_list in Hin. eauto.
  - intros (k & l & Hk & HP). exists (k, l). split; [|done].
    by apply list_elem_of_In, elem_of_map_to_list.
Qed.

Lemma chunks_many n (l : bytes) : 0 < n -> (1 <? length (chunks n l)) = (n <? length l).
Proof.
  intros Hn. unfold chunks. destruct l as [|x l]; [done|]. cbn [length chunks_fuel].
  destruct (Nat.ltb_spec n (S (length l))) as [H|H].
  - assert (length (drop n (x :: l)) > 0) as Hd by (rewrite length_drop; simpl; lia).
    destruct (drop n (x :: l)) as [|y r] eqn:Ed; [simpl in Hd; lia|].
    destruct l as [|z l]; [simpl in H; lia|]. done.
  - rewrite (drop_ge (x :: l)) by (simpl; lia). by destruct (length l).
Qed.

Lemma flat_length (pairs : list (bytes * bytes)) : length (flat pairs) = 2 * length pairs.
Proof. unfold flat. induction pairs as [|p l IH]; [done|]. cbn in *. lia. Qed.

Lemma body_position_pushes i :
  body_position 0 (pushes i) = option_map (fun _ => length (flat (pairs_of i))) (body i).
Proof.
  unfold pushes. rewrite body_position_flat by (done || apply pairs_nonempty).
  rewrite Nat.add_0_l, flat_length. unfold body_pushes. destruct (body i); [|done].
  cbn [body_position is_empty BODY_TAG option_map].
  rewrite (Nat.mul_comm 2 (length _)), Nat.Div0.mod_mul. done.
Qed.

(** Only the fields precede the body. *)
Lemma fields_pushes i :
  collect_fields
    (take (default (length (pushes i)) (option_map (fun _ => length (flat (pairs_of i))) (body i)))
       (pushes i)) ∅
  = (fields_of (pairs_of i), false).
Proof.
  enough (take (default (length (pushes i)) (option_map (fun _ => length (flat (pairs_of i))) (body i)))
            (pushes i) = flat (pairs_of i)) as -> by apply collect_flat.
  unfold pushes, body_pushes. destruct (body i); simpl.
  - apply take_app_length.
  - by rewrite app_nil_r, firstn_all.
Qed.

Lemma body_of_pushes i :
  option_map (fun n => concat (drop (n + 1) (pushes i)))
    (option_map (fun _ => length (flat (pairs_of i))) (body i)) = body i.
Proof.
  unfold pushes, body_pushes. destruct (body i) as [b|]; [|done]. cbn [option_map]. f_equal.
  rewrite drop_app_ge by lia. replace (_ + 1 - _) with 1 by lia. cbn [drop BODY_TAG].
  apply chunks_concat. rewrite max_element. lia.
Qed.

Lemma metadata_tagged i value : (Tag.Metadata, value) ∈ tagged i -> value = metadata i.
Proof.
  unfold tagged. rewrite !elem_of_cons, elem_of_nil.
  intros [[=]|[[=]|[[=]|[[=]|[[=]|[[=]|[[= ->]|[]]]]]]]]. done.
Qed.

(** Only metadata is spread over several pushes. *)
Lemma duplicate_pushes i :
  existsb (fun '(_, values) => 1 <? length values) (map_to_list (fields_of (pairs_of i)))
  = match metadata i with Some m => MAX_SCRIPT_ELEMENT_SIZE <? length m | None => false end.
Proof.
  assert (forall value, match map snd (field_pairs Tag.Metadata value) with [] => 0 | l => length l end
    = match value with Some m => Nat.max 1 (length (chunks MAX_SCRIPT_ELEMENT_SIZE m)) | None => 0 end)
    as Hmeta.
  { intros [[|x m]|]; [done| |done]. unfold field_pairs. cbn [Tag.is_chunked andb is_empty negb].
    rewrite map_map, map_id. by destruct (chunks _ (x :: m)) as [|c cs] eqn:E. }
  specialize (Hmeta (metadata i)).
  apply eq_iff_eq_true. rewrite existsb_map_to_list. split.
  - intros (key & l & Hl & Hn).
    destruct (decide (Exists (fun tv => Tag.bytes tv.1 = key) (tagged i))) as [He|He].
    2: { rewrite <- Forall_Exists_neg in He. by rewrite pairs_lookup_other in Hl. }
    apply Exists_exists in He as ([tag value] & Hin & <-). apply list_elem_of_In in Hin.
    cbn [fst] in Hl. rewrite (pairs_lookup _ _ _ Hin) in Hl.
    destruct (Tag.is_chunked tag) eqn:Ec.
    + destruct tag; try done. apply metadata_tagged in Hin as ->.
      destruct (map snd _) as [|x l'] eqn:E; [done|]. injection Hl as <-. rewrite Hmeta in Hn.
      destruct (metadata i) as [m|]; [|done]. rewrite <- chunks_many by (rewrite max_element; lia).
      apply Nat.ltb_lt in Hn. apply Nat.ltb_lt. lia.
    + unfold field_pairs in Hl. rewrite Ec in Hl. destruct value; [|done]. by injection Hl as <-.
  - destruct (metadata i) as [m|] eqn:Em; [|done]. intros Hm.
    exists (Tag.bytes Tag.Metadata). rewrite (pairs_lookup i Tag.Metadata (Some m)).
    2: { unfold tagged. rewrite Em, !elem_of_cons. tauto. }
    rewrite <- chunks_many in Hm by (rewrite max_element; lia). apply Nat.ltb_lt in Hm.
    destruct (map snd _) as [|x l'] eqn:E; [lia|]. eexists. split; [done|].
    apply Nat.ltb_lt. lia.
Qed.

Ltac next_field Hrem value :=
  rewrite (Hrem _ value) by first
    [ unfold tagged; rewrite !elem_of_cons; tauto | by rewrite ?lookup_delete_ne by done ];
  cbv beta iota.

(** The inscription is reconstructed, the flags from what was written. *)
Lemma parsed_from_pushes i k p st :
  payload (parsed_from (mkEnvelope 0 k (pushes i) p st)) = canonical i.
Proof.
  unfold parsed_from. cbn [payload]. rewrite body_position_pushes, fields_pushes.
  cbv beta iota. rewrite duplicate_pushes, body_of_pushes.
  assert (forall tag value, (tag, value) ∈ tagged i -> forall F' : Fields,
    F' !! Tag.bytes tag = fields_of (pairs_of i) !! Tag.bytes tag ->
    remove_field tag F' = (value, delete (Tag.bytes tag) F')) as Hrem.
  { intros tag value Hin F' HF. apply remove_tag. by rewrite HF, (pairs_lookup i tag value). }
  pose proof (pairs_lookup_other i) as Hother.
  generalize dependent (fields_of (pairs_of i)). intros F Hrem Hother.
  next_field Hrem (content_encoding i). next_field Hrem (content_type i).
  next_field Hrem (delegate i). next_field Hrem (metadata i). next_field Hrem (metaprotocol i).
  next_field Hrem (parent i). next_field Hrem (pointer i).
  cbn [payload]. unfold canonical. f_equal.
  apply not_true_iff_false. rewrite existsb_map_to_list. intros (key & l & Hl & _).
  rewrite !lookup_delete_Some in Hl. destruct Hl as (H1 & H2 & H3 & H4 & H5 & H6 & H7 & Hl).
  rewrite Hother in Hl; [done|]. unfold tagged. rewrite !list.Forall_cons. by split_and!.
Qed.

Lemma emits_reveal inscriptions :
  Forall (fun i => validate i = true) inscriptions ->
  emits (reveal inscriptions) (flat_map envelope_items inscriptions).
Proof.
  intros H. apply (emits_fold (fun b i => append_reveal_script_to_builder i b)).
  eapply List.Forall_impl; [|exact H]. intros i Hi. by apply emits_envelope.
Qed.

Lemma rebuild_spec inscriptions b :
  rebuild inscriptions b
  = if forallb validate inscriptions then Ok (reveal inscriptions b) else Err FieldTooLong.
Proof.
  revert b. induction inscriptions as [|i l IH]; intros b; [done|]. cbn [rebuild forallb].
  destruct (validate i); [apply IH | done].
Qed.

Lemma reveal_canonical inscriptions b : reveal (map canonical inscriptions) b = reveal inscriptions b.
Proof. revert b. induction inscriptions as [|i l IH]; intros b; [done|]. apply IH. Qed.

Lemma from_tapscript_reveal inscriptions :
  Forall (fun i => validate i = true) inscriptions -> (N.of_nat (length inscriptions) <= 2 ^ 32)%N ->
  from_tapscript (into_script (reveal inscriptions Builder_new)) 0
  = Ok (envelopes_from 0 inscriptions).
Proof.
  intros Hv Hn. unfold from_tapscript. cbn [try_into_u32 mbind result_bind].
  change (try_into_u32 0) with (Ok (E := ScriptError) 0%N). cbn [mbind result_bind].
  rewrite (emits_new _ _ (emits_reveal _ Hv)). rewrite length_map.
  apply (tapscript_loop_envelopes _ inscriptions []); [exact Hn|].
  clear. induction inscriptions as [|i l IH]; [done|]. cbn [flat_map]. rewrite length_app.
  unfold envelope_items at 1. cbn [length]. lia.
Qed.

Lemma payloads inscriptions :
  map (fun raw => payload (parsed_from raw)) (envelopes_from 0 inscriptions)
  = map canonical inscriptions.
Proof.
  generalize 0 as off. unfold envelopes_from. induction inscriptions as [|i l IH]; intros off; [done|].
  rewrite imap_cons. cbn [map]. f_equal; [apply parsed_from_pushes|].
  rewrite <- (IH (S off)). f_equal. apply imap_ext. intros k x _. cbn. do 2 f_equal. lia.
Qed.

(** ** The number of envelopes *)

Lemma envelope_loop_count inp off st payload num it ok env rest :
  envelope_loop inp off st payload num it = Ok (ok, Some env, rest) -> (N.of_nat off < 2 ^ 32)%N.
Proof.
  revert payload num. induction it as [|[[p|[[]| |]]|e] it IH]; intros payload num; cbn [envelope_loop];
    try done; try apply IH.
  intros (o & H & _)%bind_Ok_inv. unfold try_into_u32 in H. by destruct (N.ltb_spec (N.of_nat off) (2 ^ 32)).
Qed.

Lemma tapscript_loop_count fuel inp it envelopes st raw :
  (N.of_nat (length envelopes) <= 2 ^ 32)%N ->
  tapscript_loop fuel inp it envelopes st = Ok raw -> (N.of_nat (length raw) <= 2 ^ 32)%N.
Proof.
  revert it envelopes st. induction fuel as [|fuel IH]; intros it envelopes st Hn; cbn [tapscript_loop].
  { by intros [= <-]. }
  destruct it as [|[i|e] it]; [by intros [= <-] | | done].
  destruct (bool_decide _); [|by apply IH].
  intros ([[ok [env|]] rest] & He & H)%bind_Ok_inv; [|by apply IH in H].
  apply IH in H; [done|]. rewrite length_app. cbn [length].
  unfold from_instructions in He. destruct (accept it _) as [[] it1]; [|done]. cbn [negb] in He.
  destruct (accept it1 _) as [[] it2]; [|done]. cbn [negb] in He.
  apply envelope_loop_count in He. lia.
Qed.

Lemma parse_reveal inscriptions :
  inscriptions <> [] -> (N.of_nat (length inscriptions) <= 2 ^ 32)%N ->
  Forall (fun i => validate i = true) inscriptions ->
  parse_inscriptions (into_script (reveal inscriptions Builder_new)) = Ok (map canonical inscriptions).
Proof.
  intros Hne Hn Hv. unfold parse_inscriptions. rewrite from_tapscript_reveal by done.
  cbn [map_err mbind result_bind].
  replace (is_empty (envelopes_from 0 inscriptions)) with false by by destruct inscriptions.
  rewrite payloads, rebuild_spec, reveal_canonical. rewrite (proj2 (forallb_forall _ _)).
  - cbn [mbind result_bind]. by rewrite bool_decide_eq_true_2.
  - intros x (y & <- & Hy)%in_map_iff. rewrite List.Forall_forall in Hv. by apply Hv in Hy.
Qed.

(** What is accepted is the reveal script of what is returned. *)
Lemma parse_inscriptions_inv script l :
  parse_inscriptions script = Ok l ->
  script = into_script (reveal l Builder_new)
  /\ l <> [] /\ Forall (fun i => validate i = true /\ canonical i = i) l.
Proof.
  intros H. pose proof H as Hl. unfold parse_inscriptions in H.
  apply bind_Ok_inv in H as (raw & Hraw & H). apply map_err_Ok_inv in Hraw.
  destruct (is_empty raw) eqn:Ee; [done|]. apply bind_Ok_inv in H as (b & Hb & H).
  case_bool_decide as Hs; [|done]. injection H as H. rewrite H in Hb. rewrite rebuild_spec in Hb.
  destruct (forallb validate l) eqn:Ev; [|done]. injection Hb as <-. symmetry in Hs.
  assert (l <> []) as Hne by (intros ->; apply (f_equal length) in H; rewrite length_map in H; by destruct raw).
  assert (Forall (fun i => validate i = true) l) as Hv.
  { apply List.Forall_forall. by apply forallb_forall. }
  assert (N.of_nat (length l) <= 2 ^ 32)%N as Hn.
  { rewrite <- H, length_map. unfold from_tapscript in Hraw. apply bind_Ok_inv in Hraw as (n & _ & Hraw).
    by apply tapscript_loop_count in Hraw. }
  split; [done|]. split; [done|].
  rewrite Hs, parse_reveal in Hl by done. injection Hl as Hl. clear -Hl Hv.
  induction Hv as [|i l Hi _ IH]; [constructor|]. cbn [map] in Hl. injection Hl as H1 H2. by constructor; auto.
Qed.
End RoundTrip.

(** A text inscription. *)
Definition sample_inscription : Inscription :=
  mkInscription (Some [Byte.x68; Byte.x69]) None (Some [Byte.x74]) None false false None None None
    None false.

