(* ===== verification/Lex.v ===== *)
(** The script lexer (src/src/miniscript/lex.rs), and that it ends without a panic. *)
From S2P Require Import Prelude Bitcoin Primitives Reference Ord Script Envelope.

Module Token.
Inductive Token : Type :=
| Inscription (script : bytes)
| BoolAnd | BoolOr | Add | Equal | NumEqual | CheckSig | CheckSigAdd | CheckMultiSig
| CheckSequenceVerify | CheckLockTimeVerify | CheckTemplateVerify | FromAltStack | ToAltStack
| Drop | Dup | If | IfDup | NotIf | Else | EndIf | ZeroNotEqual | Size | Swap | Verify
| Ripemd160 | Hash160 | Sha256 | Hash256
| Num (n : N)
| Hash20 (b : bytes)
| Bytes32 (b : bytes)
| Bytes33 (b : bytes)
| Bytes65 (b : bytes).

#[export] Instance Token_eq_dec : EqDecision Token.
Proof. solve_decision. Defined.
End Token.
Export (hints) Token.
Abbreviation Token := Token.Token.

Section Lex.
Context {B : Bitcoin} {Sc : Scripts}.
Abbreviation Instructions := (list (result ScriptError Instruction)).

(** [lex::Error]; the messages on envelopes are told apart, the rendering is left out. *)
Inductive LexError : Type :=
| MissingProtocol
| UnknownProtocol
| MissingEndIf
| NotPushOnly
| InvalidInt (bytes : bytes) (err : ScriptError)
| InvalidOpcode (op : ScriptOp)
| NegativeInt (bytes : bytes) (n : Z)
| NonMinimalVerify (t : Token)
| Script (e : ScriptError).

Definition instruction_size (opcode : Byte.byte) (instruction : Instruction) : nat :=
  match instruction with
  | Op _ => 1
  | PushBytes bytes =>
      length bytes
      + match opcode with
        | Byte.x4c => 2
        | Byte.x4d => 3
        | Byte.x4e => 5
        | _ => 1
        end
  end.

(** A push that has a shorter form. *)
Definition non_minimal (opcode : Byte.byte) (instruction : Instruction) : bool :=
  match instruction with
  | Op _ => false
  | PushBytes bytes =>
      bool_decide (opcode = Byte.x4c) && (length bytes <? 76)
      || bool_decide (opcode = Byte.x4d) && (length bytes <? 256)
      || bool_decide (opcode = Byte.x4e) && (N.of_nat (length bytes) <? 65536)%N
      || match bytes with
         | [b] => bool_decide (b = Byte.x81) || (1 <=? Byte.to_N b)%N && (Byte.to_N b <=? 16)%N
         | _ => false
         end
  end.

(** The tokens of an opcode, the last one first; [OP_IF] and [OP_VERIFY] have arms of
    their own. *)
Definition op_tokens (o : Opcode) : list Token :=
  match o with
  | OP_BOOLAND => [Token.BoolAnd]
  | OP_BOOLOR => [Token.BoolOr]
  | OP_EQUAL => [Token.Equal]
  | OP_EQUALVERIFY => [Token.Verify; Token.Equal]
  | OP_NUMEQUAL => [Token.NumEqual]
  | OP_NUMEQUALVERIFY => [Token.Verify; Token.NumEqual]
  | OP_CHECKSIG => [Token.CheckSig]
  | OP_CHECKSIGVERIFY => [Token.Verify; Token.CheckSig]
  | OP_CHECKSIGADD => [Token.CheckSigAdd]
  | OP_CHECKMULTISIG => [Token.CheckMultiSig]
  | OP_CHECKMULTISIGVERIFY => [Token.Verify; Token.CheckMultiSig]
  | OP_CSV => [Token.CheckSequenceVerify]
  | OP_NOP4 => [Token.CheckTemplateVerify]
  | OP_CLTV => [Token.CheckLockTimeVerify]
  | OP_FROMALTSTACK => [Token.FromAltStack]
  | OP_TOALTSTACK => [Token.ToAltStack]
  | OP_DROP => [Token.Drop]
  | OP_DUP => [Token.Dup]
  | OP_ADD => [Token.Add]
  | OP_IF => [Token.If]
  | OP_IFDUP => [Token.IfDup]
  | OP_NOTIF => [Token.NotIf]
  | OP_ELSE => [Token.Else]
  | OP_ENDIF => [Token.EndIf]
  | OP_0NOTEQUAL => [Token.ZeroNotEqual]
  | OP_SIZE => [Token.Size]
  | OP_SWAP => [Token.Swap]
  | OP_VERIFY => [Token.Verify]
  | OP_RIPEMD160 => [Token.Ripemd160]
  | OP_HASH160 => [Token.Hash160]
  | OP_SHA256 => [Token.Sha256]
  | OP_HASH256 => [Token.Hash256]
  | OP_FALSE => [Token.Num 0]
  | OP_TRUE => [Token.Num 1]
  end.

(** The arm for [PushBytes]. *)
Definition push_token (b : bytes) : result LexError Token :=
  if length b =? 20 then Ok (Token.Hash20 b)
  else if length b =? 32 then Ok (Token.Bytes32 b)
  else if length b =? 33 then Ok (Token.Bytes33 b)
  else if length b =? 65 then Ok (Token.Bytes65 b)
  else
    match read_scriptint b with
    | Ok v => if (0 <=? v)%Z then Ok (Token.Num (Z.to_N (v mod 2 ^ 32))) else Err (NegativeInt b v)
    | Err err => Err (InvalidInt b err)
    end.

(** [OP_VERIFY] after an opcode with a [VERIFY] form. *)
Definition verify_token (ret : list Token) : result LexError Token :=
  match ret with
  | (Token.Equal | Token.CheckSig | Token.CheckMultiSig) as op :: _ => Err (NonMinimalVerify op)
  | _ => Ok Token.Verify
  end.

(** [Class::PushNum] *)
Definition is_pushnum (o : ScriptOp) : bool :=
  match o with PushNum _ | Named OP_TRUE => true | _ => false end.

(** The inner loop: to the end of the envelope. [None] is an index out of range. *)
Fixpoint skip_envelope (script : bytes) (it : Instructions) (position : nat)
  : option (result LexError (Instructions * nat)) :=
  match it with
  | [] => Some (Err MissingEndIf)
  | Err e :: _ => Some (Err (Script e))
  | Ok item :: it =>
      opcode ← script !! position;
      let position := position + instruction_size opcode item in
      match item with
      | Op (Named OP_ENDIF) => Some (Ok (it, position))
      | PushBytes _ => skip_envelope script it position
      | Op op => if is_pushnum op then skip_envelope script it position else Some (Err NotPushOnly)
      end
  end.

(** The arm for [OP_IF] after an empty push, which is the envelope that ends at the returned
    position. *)
Definition lex_envelope (script : bytes) (it : Instructions) (position : nat)
  : option (result LexError (Instructions * nat)) :=
  match it with
  | [] => Some (Err MissingProtocol)
  | Err e :: _ => Some (Err (Script e))
  | Ok protocol :: it =>
      opcode ← script !! position;
      let position := position + instruction_size opcode protocol in
      if bool_decide (protocol = PushBytes PROTOCOL_ID) then skip_envelope script it position
      else Some (Err UnknownProtocol)
  end.

(** [script.as_bytes()[a..b]] *)
Definition slice (script : bytes) (a b : nat) : option bytes :=
  if (a <=? b) && (b <=? length script) then Some (take (b - a) (drop a script)) else None.

(** The loop of [lex]; [ret] has the last token first. Every turn consumes an instruction. *)
Fixpoint lex_loop (fuel : nat) (script : bytes) (it : Instructions) (position : nat)
    (ret : list Token) : option (result LexError (list Token)) :=
  match it, fuel with
  | [], _ => Some (Ok (rev ret))
  | _, 0 => None
  | Err e :: _, _ => Some (Err (Script e))
  | Ok instruction :: it, S fuel =>
      let start := position in
      opcode ← script !! start;
      let position := position + instruction_size opcode instruction in
      let push (r : result LexError (list Token)) :=
        match r with
        | Ok ret => lex_loop fuel script it position ret
        | Err e => Some (Err e)
        end in
      if non_minimal opcode instruction then Some (Err (Script NonMinimalPush))
      else
        match instruction with
        | Op (Named OP_IF) =>
            match ret with
            | Token.Num 0 :: ret =>
                r ← lex_envelope script it position;
                match r with
                | Ok (it, position) =>
                    s ← (if start =? 0 then None else slice script (start - 1) position);
                    lex_loop fuel script it position (Token.Inscription s :: ret)
                | Err e => Some (Err e)
                end
            | _ => push (Ok (Token.If :: ret))
            end
        | Op (Named OP_VERIFY) => push (t ← verify_token ret; Ok (t :: ret))
        | Op (Named o) => push (Ok (op_tokens o ++ ret))
        | Op (PushNum n) =>
            if (1 <=? n)%Z && (n <=? 16)%Z then push (Ok (Token.Num (Z.to_N n) :: ret))
            else push (Err (InvalidOpcode (PushNum n)))
        | Op op => push (Err (InvalidOpcode op))
        | PushBytes bytes => push (t ← push_token bytes; Ok (t :: ret))
        end
  end.

(** [lex]; [None] is a panic. *)
Definition lex (script : bytes) : option (result LexError (list Token)) :=
  let it := instructions script in
  lex_loop (length it) script it 0 [].

(** * Lexing what a builder wrote *)

Context {SL : ScriptLaws Sc}.

(** Lexing the instructions [l] takes the tokens [ret] to [ret'], wherever they stand. *)
Definition lexes (l : list Instruction) (ret ret' : list Token) : Prop :=
  forall before after rest fuel, length (l ++ rest) <= fuel ->
    let script := before ++ script_bytes l ++ after in
    exists fuel', length rest <= fuel'
      /\ lex_loop fuel script (map Ok (l ++ rest)) (length before) ret
         = lex_loop fuel' script (map Ok rest) (length before + length (script_bytes l)) ret'.

Lemma lexes_nil ret : lexes [] ret ret.
Proof.
  intros before after rest fuel Hf. exists fuel. split; [done|].
  cbn [app script_bytes flat_map length]. by rewrite Nat.add_0_r.
Qed.

Lemma lexes_app l l' r r' r'' : lexes l r r' -> lexes l' r' r'' -> lexes (l ++ l') r r''.
Proof.
  intros H H' before after rest fuel Hf. cbv zeta.
  unfold script_bytes. rewrite flat_map_app. fold (script_bytes l) (script_bytes l').
  rewrite <- !app_assoc. rewrite <- app_assoc in Hf.
  destruct (H before (script_bytes l' ++ after) (l' ++ rest) fuel Hf) as (f1 & Hf1 & ->).
  destruct (H' (before ++ script_bytes l) after rest f1 Hf1) as (f2 & Hf2 & He).
  rewrite <- app_assoc, !length_app in He. exists f2. split; [done|]. rewrite He.
  by rewrite length_app, Nat.add_assoc.
Qed.

Lemma lex_lexes l ret :
  Forall readable l -> lexes l [] ret -> lex (script_bytes l) = Some (Ok (rev ret)).
Proof.
  intros Hr H. unfold lex. rewrite instructions_all, length_map by done.
  destruct (H [] [] [] (length l)) as (f & _ & He); [by rewrite app_nil_r|].
  cbn [app length] in He. rewrite !app_nil_r in He. rewrite He. by destruct f.
Qed.

(** The header of a push agrees with the size and minimality checks. *)
Lemma header_size b : (N.of_nat (length b) < 2 ^ 32)%N ->
  exists opcode header, push_header (length b) = opcode :: header
    /\ instruction_size opcode (PushBytes b) = length (push_header (length b) ++ b)
    /\ bool_decide (opcode = Byte.x4c) && (length b <? 76)
       || bool_decide (opcode = Byte.x4d) && (length b <? 256)
       || bool_decide (opcode = Byte.x4e) && (N.of_nat (length b) <? 65536)%N = false.
Proof.
  intros Hb. unfold push_header. destruct (Nat.ltb_spec (length b) 76) as [H1|H1].
  - eexists _, []. split; [done|].
    assert ((Byte.to_N (byte_of (N.of_nat (length b))) < 76)%N) as Hs by (rewrite byte_of_N; lia).
    cbn [instruction_size app length]. generalize dependent (byte_of (N.of_nat (length b))).
    intros o Ho. destruct o; try (vm_compute in Ho; discriminate); cbn; (split; [lia | done]).
  - destruct (Nat.ltb_spec (length b) 256) as [H2|H2].
    + eexists _, _. split; [done|]. cbn [instruction_size]. rewrite length_app. cbn.
      split; [lia|]. done.
    + destruct (N.ltb_spec (N.of_nat (length b)) 65536) as [H3|H3];
        (eexists _, _; split; [done|]; cbn [instruction_size]; rewrite length_app; cbn;
         split; [lia|]; done).
Qed.

(** The opcode at the position of an instruction, and where it ends. *)
Lemma opcode_at before i after : readable i ->
  exists opcode, (before ++ instruction_bytes i ++ after) !! length before = Some opcode
    /\ instruction_size opcode i = length (instruction_bytes i)
    /\ non_minimal opcode i
       = match i with
         | PushBytes [b] => bool_decide (b = Byte.x81) || (1 <=? Byte.to_N b)%N && (Byte.to_N b <=? 16)%N
         | _ => false
         end.
Proof.
  intros Hi. rewrite lookup_app_r, Nat.sub_diag by lia. destruct i as [b|o].
  - destruct (header_size b Hi) as (opcode & header & Hh & Hs & Hm). exists opcode.
    cbn [instruction_bytes]. split; [by rewrite Hh|]. split; [done|].
    unfold non_minimal. rewrite Hm. by destruct b as [|x [|y b]].
  - by exists (opcode_byte o).
Qed.

(** What one instruction outside envelopes adds. *)
Definition lex_one (i : Instruction) (ret : list Token) : option (list Token) :=
  match i with
  | Op (Named OP_IF) =>
      match ret with
      | Token.Num 0 :: _ => None
      | _ => Some (Token.If :: ret)
      end
  | Op (Named OP_VERIFY) => match verify_token ret with Ok t => Some (t :: ret) | Err _ => None end
  | Op (Named o) => Some (op_tokens o ++ ret)
  | Op (PushNum n) =>
      if (1 <=? n)%Z && (n <=? 16)%Z then Some (Token.Num (Z.to_N n) :: ret) else None
  | Op (OtherOp _) => None
  | PushBytes b =>
      if (match b with
          | [b] => bool_decide (b = Byte.x81) || (1 <=? Byte.to_N b)%N && (Byte.to_N b <=? 16)%N
          | _ => false
          end)
      then None
      else match push_token b with Ok t => Some (t :: ret) | Err _ => None end
  end.

Lemma lexes_one i ret ret' : readable i -> lex_one i ret = Some ret' -> lexes [i] ret ret'.
Proof.
  intros Hi H before after rest fuel Hf. cbv zeta. cbn [script_bytes flat_map app]. rewrite app_nil_r.
  destruct fuel as [|fuel]; [simpl in Hf; lia|]. exists fuel. split; [simpl in Hf; lia|].
  destruct (opcode_at before i after Hi) as (opcode & Ho & Hs & Hm).
  cbn [map lex_loop]. rewrite Ho. cbn [mbind option_bind]. cbv zeta. rewrite Hs, Hm.
  destruct i as [b|[o|n|c]]; cbn [lex_one] in H.
  - destruct (match b with [] => _ | _ => _ end) eqn:E; [done|].
    destruct (push_token b); [|done]. cbn. by injection H as <-.
  - destruct o; try (by injection H as <-).
    + destruct ret as [|[] ret]; try (by injection H as <-). by destruct n; [|injection H as <-].
    + destruct (verify_token ret); [|done]. by injection H as <-.
  - destruct (_ && _); [|done]. by injection H as <-.
  - done.
Qed.

(** ** Envelopes *)

Lemma opcode_lookup before i l after : readable i ->
  exists opcode, (before ++ script_bytes (i :: l) ++ after) !! length before = Some opcode
    /\ instruction_size opcode i = length (instruction_bytes i)
    /\ before ++ script_bytes (i :: l) ++ after
       = (before ++ instruction_bytes i) ++ script_bytes l ++ after.
Proof.
  intros Hi. destruct (opcode_at before i (script_bytes l ++ after) Hi) as (opcode & Ho & Hs & _).
  exists opcode. unfold script_bytes in *. cbn [flat_map]. by rewrite <- !app_assoc.
Qed.

Lemma skip_pushes before pushes after rest :
  Forall (fun b => readable (PushBytes b)) pushes ->
  let l := map PushBytes pushes ++ [Op (Named OP_ENDIF)] in
  skip_envelope (before ++ script_bytes l ++ after) (map Ok (l ++ rest)) (length before)
  = Some (Ok (map Ok rest, length before + length (script_bytes l))).
Proof.
  cbv zeta. intros H. revert before. induction H as [|p pushes Hp _ IH]; intros before.
  - destruct (opcode_lookup before (Op (Named OP_ENDIF)) [] after eq_refl) as (opcode & Ho & Hs & _).
    cbn [map app skip_envelope]. rewrite Ho. cbn [mbind option_bind]. by rewrite Hs.
  - set (l := map PushBytes pushes ++ [Op (Named OP_ENDIF)]) in *.
    destruct (opcode_lookup before (PushBytes p) l after Hp) as (opcode & Ho & Hs & He).
    change (map PushBytes (p :: pushes) ++ [Op (Named OP_ENDIF)]) with (PushBytes p :: l).
    cbn [app map skip_envelope]. rewrite Ho. cbn [mbind option_bind]. cbv zeta. rewrite Hs, He.
    rewrite <- length_app, IH. unfold script_bytes. cbn [flat_map].
    by rewrite !length_app, Nat.add_assoc.
Qed.

Lemma push_empty : push_token [] = Ok (Token.Num 0).
Proof.
  unfold push_token. cbn [length Nat.eqb]. rewrite <- scriptint_zero.
  by rewrite scriptint_roundtrip by done.
Qed.

Lemma slice_middle (before middle after : bytes) :
  slice (before ++ middle ++ after) (length before) (length before + length middle) = Some middle.
Proof.
  unfold slice. rewrite !length_app.
  rewrite (proj2 (Nat.leb_le _ _)), (proj2 (Nat.leb_le _ _)) by lia. cbn [andb].
  rewrite drop_app_length. replace (_ + _ - _) with (length middle) by lia. by rewrite take_app_length.
Qed.


Lemma lex_envelope_spec before pushes after rest :
  Forall (fun b => readable (PushBytes b)) pushes ->
  let l := PushBytes PROTOCOL_ID :: map PushBytes pushes ++ [Op (Named OP_ENDIF)] in
  lex_envelope (before ++ script_bytes l ++ after) (map Ok (l ++ rest)) (length before)
  = Some (Ok (map Ok rest, length before + length (script_bytes l))).
Proof.
  cbv zeta. intros H. set (tail := map PushBytes pushes ++ [Op (Named OP_ENDIF)]).
  destruct (opcode_lookup before (PushBytes PROTOCOL_ID) tail after eq_refl) as (opcode & Ho & Hs & He).
  cbn [map app lex_envelope]. rewrite Ho. cbn [mbind option_bind]. rewrite Hs.
  rewrite bool_decide_eq_true_2, He, <- length_app by done.
  unfold tail. rewrite skip_pushes by done. cbn [script_bytes flat_map].
  unfold script_bytes. cbn [flat_map]. by rewrite !length_app, Nat.add_assoc.
Qed.

Lemma lexes_envelope i ret :
  Forall readable (envelope_items i) ->
  lexes (envelope_items i) ret (Token.Inscription (script_bytes (envelope_items i)) :: ret).
Proof.
  intros Hr before after rest fuel Hf. cbv zeta. unfold envelope_items in *.
  set (l := PushBytes PROTOCOL_ID :: map PushBytes (pushes i) ++ [Op (Named OP_ENDIF)]) in *.
  assert (Forall (fun b => readable (PushBytes b)) (pushes i)) as Hp.
  { apply Forall_cons_1 in Hr as [_ Hr]. apply Forall_cons_1 in Hr as [_ Hr].
    apply Forall_cons_1 in Hr as [_ Hr]. apply Forall_app in Hr as [Hr _].
    exact (proj1 (List.Forall_map _ _ _) Hr). }
  assert (lexes [PushBytes []] ret (Token.Num 0 :: ret)) as H0.
  { apply lexes_one; [done|]. cbn [lex_one]. by rewrite push_empty. }
  destruct (H0 before (script_bytes (Op (Named OP_IF) :: l) ++ after) (Op (Named OP_IF) :: l ++ rest)
              fuel Hf) as (f & Hf' & He).
  change (script_bytes [PushBytes []]) with [Byte.x00] in He.
  change (script_bytes (PushBytes [] :: Op (Named OP_IF) :: l))
    with ([Byte.x00] ++ script_bytes (Op (Named OP_IF) :: l)).
  rewrite <- app_assoc. cbn [app map] in He |- *. rewrite He. clear He Hf fuel.
  destruct f as [|fuel]; [simpl in Hf'; lia|]. exists fuel.
  split; [cbn [length] in Hf'; rewrite length_app in Hf'; lia|].
  set (script := before ++ Byte.x00 :: script_bytes (Op (Named OP_IF) :: l) ++ after).
  assert (script = (before ++ [Byte.x00]) ++ script_bytes (Op (Named OP_IF) :: l) ++ after) as Hscript
    by (unfold script; by rewrite <- app_assoc).
  destruct (opcode_lookup (before ++ [Byte.x00]) (Op (Named OP_IF)) l after eq_refl)
    as (opcode & Ho & Hs & He).
  rewrite <- Hscript, length_app in Ho. cbn [length] in Ho |- *. cbn [lex_loop]. rewrite Ho.
  cbn [mbind option_bind non_minimal]. cbv zeta. rewrite Hs.
  rewrite Hscript, He. cbn [instruction_bytes length].
  pose proof (lex_envelope_spec ((before ++ [Byte.x00]) ++ instruction_bytes (Op (Named OP_IF)))
                (pushes i) after rest Hp) as Hl.
  cbv zeta in Hl. fold l in Hl. rewrite !length_app in Hl. cbn [length instruction_bytes] in Hl.
  rewrite map_app in Hl |- *. cbn [instruction_bytes]. rewrite Hl. cbn [mbind option_bind].
  destruct (Nat.eqb_spec (length before + 1) 0); [lia|]. cbn [app].
  pose proof (slice_middle before ([Byte.x00] ++ script_bytes (Op (Named OP_IF) :: l)) after) as Hsl.
  cbn [app script_bytes flat_map instruction_bytes length] in Hsl |- *. fold (script_bytes l) in Hsl |- *.
  rewrite <- !app_assoc. cbn [app].
  replace (length before + 1 - 1) with (length before) by lia.
  replace (length before + 1 + 1 + length (script_bytes l))
    with (length before + S (S (length (script_bytes l)))) by lia.
  by rewrite Hsl.
Qed.
End Lex.

(** * The lexer on any script: it ends without a panic, and its tokens carry arrays of the
    right length and 32-bit numbers. *)

(** What the types of tokens say: arrays of fixed length and 32-bit numbers. *)
Definition token_valid (t : Token) : Prop :=
  match t with
  | Token.Num n => u32 n
  | Token.Hash20 b => length b = 20
  | Token.Bytes32 b => length b = 32
  | Token.Bytes33 b => length b = 33
  | Token.Bytes65 b => length b = 65
  | _ => True
  end.


Section LexTotal.
Context {B : Bitcoin} {Sc : Scripts} {SL : ScriptLaws Sc}.

(** The lexer stands at the boundary of an instruction: [it] are the instructions of what
    follows the position. *)
Definition at_boundary (script : bytes) (it : list (result ScriptError Instruction)) (position : nat)
  : Prop := exists s, drop position script = s /\ it = instructions s /\ position <= length script.

(** What the iterator yields at a boundary. *)
Lemma boundary_cases script it position :
  at_boundary script it position ->
  it = [] \/ (exists e l, it = Err e :: l)
  \/ exists i it' opcode, it = Ok i :: it' /\ script !! position = Some opcode
       /\ at_boundary script it' (position + instruction_size opcode i)
       /\ 0 < instruction_size opcode i.
Proof.
  intros (s & Hs & -> & Hp).
  destruct (instructions_cases s) as [->|[(e & l & ->)|(opcode & data & rest & i & He & Hi & Hl)]].
  { left. apply instructions_nil. }
  { right. left. eauto. }
  right. right. exists i, (instructions rest), opcode.
  assert (instruction_size opcode i = S (length data)) as Hsize.
  { rewrite Hl. destruct i as [b|o]; cbn [instruction_size]; [|done].
    by destruct opcode; cbn [length_size]; lia. }
  assert (script = take position script ++ opcode :: data ++ rest) as Hscript
    by (by rewrite <- He, <- Hs, take_drop).
  split_and!; [done | | | lia].
  - rewrite Hscript, lookup_app_r, length_take_le, Nat.sub_diag by (rewrite ?length_take_le; lia). done.
  - exists rest. rewrite Hsize. split_and!; [| done |].
    + rewrite Hscript, <- drop_drop, drop_app_length' by (by rewrite length_take_le).
      cbn [drop]. by rewrite drop_app_length.
    + rewrite Hscript, !length_app, length_take_le by done. cbn [length]. rewrite length_app. lia.
Qed.

(** An envelope that was skipped ends at a later boundary. *)
Definition skipped (script : bytes) (it : list (result ScriptError Instruction)) (position : nat)
    (r : option (result LexError (list (result ScriptError Instruction) * nat))) : Prop :=
  match r with
  | None => False
  | Some (Err _) => True
  | Some (Ok (it', position')) =>
      at_boundary script it' position' /\ position <= position' /\ length it' <= length it
  end.

Lemma skipped_le script it it' position position' r :
  skipped script it position r -> position' <= position -> length it <= length it' ->
  skipped script it' position' r.
Proof. destruct r as [[[]|]|]; cbn; [intros (? & ? & ?) ??; split_and!; [done | lia..] | done | done]. Qed.

Lemma skip_envelope_total script it position :
  at_boundary script it position -> skipped script it position (skip_envelope script it position).
Proof.
  revert position. induction it as [|x it IH]; intros position Hb; [done|].
  destruct (boundary_cases _ _ _ Hb) as [?|[(e & l & [= -> ->])|(i & it' & op & [= -> ->] & Ho & Hb' & Hi)]];
    [done | done |].
  cbn [skip_envelope]. rewrite Ho. cbn [mbind option_bind].
  assert (forall p, p = position + instruction_size op i -> skipped script (Ok i :: it') position
    (skip_envelope script it' p)) as Hrec.
  { intros p ->. eapply skipped_le; [by apply IH | lia | simpl; lia]. }
  destruct i as [b|[o|n|c]]; [by apply Hrec | | |].
  - destruct o; cbn [is_pushnum]; try done; [by apply Hrec|].
    cbn. split_and!; [done | lia | lia].
  - cbn [is_pushnum]. by apply Hrec.
  - done.
Qed.

Lemma lex_envelope_total script it position :
  at_boundary script it position -> skipped script it position (lex_envelope script it position).
Proof.
  intros Hb. unfold lex_envelope.
  destruct (boundary_cases _ _ _ Hb) as [->|[(e & l & ->)|(i & it' & op & -> & Ho & Hb' & Hi)]];
    [done | done |].
  rewrite Ho. cbn [mbind option_bind]. destruct (bool_decide _); [|done].
  eapply skipped_le; [by apply skip_envelope_total | lia | simpl; lia].
Qed.

Lemma op_tokens_valid o : Forall token_valid (op_tokens o).
Proof. destruct o; repeat constructor. Qed.

Lemma push_token_valid b t : push_token b = Ok t -> token_valid t.
Proof.
  unfold push_token.
  destruct (Nat.eqb_spec (length b) 20); [by intros [= <-]|].
  destruct (Nat.eqb_spec (length b) 32); [by intros [= <-]|].
  destruct (Nat.eqb_spec (length b) 33); [by intros [= <-]|].
  destruct (Nat.eqb_spec (length b) 65); [by intros [= <-]|].
  destruct (read_scriptint b) as [v|e]; [|done]. destruct (0 <=? v)%Z; [|done]. intros [= <-].
  cbn. unfold u32. pose proof (Z.mod_pos_bound v (2 ^ 32)). lia.
Qed.

Lemma verify_token_valid ret t : verify_token ret = Ok t -> token_valid t.
Proof. destruct ret as [|[] ret]; cbn; try done; by intros [= <-]. Qed.

(** What the lexer returns on valid tokens so far. *)
Definition lexed (r : option (result LexError (list Token))) : Prop :=
  match r with
  | None => False
  | Some (Err _) => True
  | Some (Ok l) => Forall token_valid l
  end.

Lemma slice_some script a b : a <= b -> b <= length script -> is_Some (slice script a b).
Proof.
  intros Ha Hb. unfold slice. rewrite (proj2 (Nat.leb_le _ _)), (proj2 (Nat.leb_le _ _)) by done. eauto.
Qed.

Lemma lex_loop_total fuel script it position ret :
  at_boundary script it position -> length it <= fuel -> (position = 0 -> ret = []) ->
  Forall token_valid ret -> lexed (lex_loop fuel script it position ret).
Proof.
  revert it position ret. induction fuel as [|fuel IH]; intros it position ret Hb Hf Hz Hv.
  { destruct it; [|simpl in Hf; lia]. cbn. by apply Forall_rev. }
  destruct (boundary_cases _ _ _ Hb) as [->|[(e & l & ->)|(i & it' & op & -> & Ho & Hb' & Hi)]].
  { cbn. by apply Forall_rev. }
  { done. }
  cbn [lex_loop]. rewrite Ho. cbn [mbind option_bind]. destruct (non_minimal op i); [done|].
  assert (forall new, Forall token_valid new ->
    lexed (lex_loop fuel script it' (position + instruction_size op i) (new ++ ret))) as Hrec.
  { intros new Hnew. apply IH; [done | simpl in Hf; lia | intros; exfalso; lia | by apply Forall_app_2]. }
  destruct i as [b|[o|n|c]].
  - destruct (push_token b) as [t|e] eqn:Ht; [|done]. apply push_token_valid in Ht.
    apply (Hrec [t]). by repeat constructor.
  - destruct o; try (apply (Hrec (op_tokens _)), op_tokens_valid).
    + assert (lexed (lex_loop fuel script it' (position + instruction_size op (Op (Named OP_IF)))
        (Token.If :: ret))) as Hif by (apply (Hrec [Token.If]); by repeat constructor).
      destruct ret as [|[] ret]; try exact Hif. destruct n as [|n]; [|exact Hif].
      pose proof (lex_envelope_total script it' _ Hb') as He.
      destruct (lex_envelope _ _ _) as [[[it2 p2]|e]|]; [|done | done].
      destruct He as (Hb2 & Hp2 & Hl2). cbn [mbind option_bind].
      destruct (Nat.eqb_spec position 0) as [->|Hpos]; [by specialize (Hz eq_refl)|].
      destruct (slice_some script (position - 1) p2) as [sl ->]; [lia | by destruct Hb2 as (? & ? & ? & ?)|].
      apply Forall_cons_1 in Hv as [_ Hv].
      apply IH; [done | simpl in Hf; lia | intros; exfalso; lia | by apply list.Forall_cons].
    + destruct (verify_token ret) as [t|e] eqn:Ht; [|done]. apply verify_token_valid in Ht.
      apply (Hrec [t]). by repeat constructor.
  - destruct ((1 <=? n)%Z && (n <=? 16)%Z) eqn:En; [|done].
    apply (Hrec [Token.Num (Z.to_N n)]). constructor; [|constructor].
    change (Z.to_N n < 4294967296)%N.
    apply andb_true_iff in En as [_ En%Z.leb_le]. lia.
  - done.
Qed.

(** The lexer never panics. *)
Lemma lex_total script : lexed (lex script).
Proof.
  apply lex_loop_total; [|done | done | constructor]. exists script. split_and!; [done | done | lia].
Qed.
End LexTotal.
