(* ===== verification/Correctness.v ===== *)
(** The correctness half of the Miniscript type system
    (src/src/miniscript/types/correctness.rs): the base types, the input
    properties, the record [Correctness] and the typing rule of every fragment,
    each returning the [ErrorKind] the code returns. *)
From S2P Require Import Prelude.

(** * Data *)

Inductive Base : Type := BaseB | BaseK | BaseV | BaseW.

Inductive Input : Type :=
| InputZero
| InputOne
| InputAny
| InputOneNonZero
| InputAnyNonZero.

#[export] Instance Base_eq_dec : EqDecision Base.
Proof. solve_decision. Defined.
#[export] Instance Input_eq_dec : EqDecision Input.
Proof. solve_decision. Defined.

(** [types::ErrorKind]; [usize] child indices are [nat]. *)
Inductive ErrorKind : Type :=
| InvalidInscription
| NonZeroDupIf
| LeftNotDissatisfiable
| RightNotDissatisfiable
| SwapNonOne
| NonZeroZero
| LeftNotUnit
| ChildBase1 (b : Base)
| ChildBase2 (b1 b2 : Base)
| ChildBase3 (b1 b2 b3 : Base)
| ThresholdBase (i : nat) (b : Base)
| ThresholdDissat (i : nat)
| ThresholdNonUnit (i : nat).

Record Correctness : Type := mkCorrectness {
  c_base : Base;
  c_input : Input;
  c_dissatisfiable : bool;
  c_unit : bool;
}.

#[export] Instance Correctness_eq_dec : EqDecision Correctness.
Proof. solve_decision. Defined.

(** * Operations on inputs *)

Definition input_constfn_eq (self other : Input) : bool :=
  match self, other with
  | InputZero, InputZero
  | InputOne, InputOne
  | InputAny, InputAny
  | InputOneNonZero, InputOneNonZero
  | InputAnyNonZero, InputAnyNonZero => true
  | _, _ => false
  end.

Definition input_is_subtype (self other : Input) : bool :=
  if input_constfn_eq self other then true
  else match self, other with
       | InputOneNonZero, InputOne
       | InputOneNonZero, InputAnyNonZero
       | _, InputAny => true
       | _, _ => false
       end.

(** [self.base as u8], the discriminant in declaration order. *)
Definition base_as_u8 (b : Base) : N :=
  match b with BaseB => 0 | BaseK => 1 | BaseV => 2 | BaseW => 3 end%N.

(** [a >= b] on booleans. *)
Definition bool_ge (a b : bool) : bool := implb b a.

Definition is_subtype (self other : Correctness) : bool :=
  (base_as_u8 (c_base self) =? base_as_u8 (c_base other))%N
  && input_is_subtype (c_input self) (c_input other)
  && bool_ge (c_dissatisfiable self) (c_dissatisfiable other)
  && bool_ge (c_unit self) (c_unit other).

(** The conjunction of the [debug_assert!]s of [Correctness::sanity_checks]. *)
Definition sanity_checks (self : Correctness) : bool :=
  match c_base self with
  | BaseB => true
  | BaseK => c_unit self
  | BaseV => negb (c_unit self) && negb (c_dissatisfiable self)
  | BaseW => negb (input_constfn_eq (c_input self) InputOneNonZero)
             && negb (input_constfn_eq (c_input self) InputAnyNonZero)
  end.

(** * Leaf fragments *)

Definition TRUE : Correctness := mkCorrectness BaseB InputZero false true.
Definition FALSE : Correctness := mkCorrectness BaseB InputZero true true.
Definition pk_k : Correctness := mkCorrectness BaseK InputOneNonZero true true.
Definition pk_h : Correctness := mkCorrectness BaseK InputAnyNonZero true true.
Definition multi : Correctness := mkCorrectness BaseB InputAnyNonZero true true.
Definition multi_a : Correctness := mkCorrectness BaseB InputAny true true.
Definition hash : Correctness := mkCorrectness BaseB InputOneNonZero true true.
Definition time : Correctness := mkCorrectness BaseB InputZero false false.

(** * Wrappers *)

Definition cast_alt (self : Correctness) : result ErrorKind Correctness :=
  base ← match c_base self with
         | BaseB => Ok BaseW
         | x => Err (ChildBase1 x)
         end;
  Ok (mkCorrectness base InputAny (c_dissatisfiable self) (c_unit self)).

Definition cast_swap (self : Correctness) : result ErrorKind Correctness :=
  base ← match c_base self with
         | BaseB => Ok BaseW
         | x => Err (ChildBase1 x)
         end;
  input ← match c_input self with
          | InputOne | InputOneNonZero => Ok InputAny
          | _ => Err SwapNonOne
          end;
  Ok (mkCorrectness base input (c_dissatisfiable self) (c_unit self)).

Definition cast_check (self : Correctness) : result ErrorKind Correctness :=
  base ← match c_base self with
         | BaseK => Ok BaseB
         | x => Err (ChildBase1 x)
         end;
  Ok (mkCorrectness base (c_input self) (c_dissatisfiable self) true).

Definition cast_dupif (self : Correctness) : result ErrorKind Correctness :=
  base ← match c_base self with
         | BaseV => Ok BaseB
         | x => Err (ChildBase1 x)
         end;
  input ← match c_input self with
          | InputZero => Ok InputOneNonZero
          | _ => Err NonZeroDupIf
          end;
  Ok (mkCorrectness base input true false).

Definition cast_verify (self : Correctness) : result ErrorKind Correctness :=
  base ← match c_base self with
         | BaseB => Ok BaseV
         | x => Err (ChildBase1 x)
         end;
  Ok (mkCorrectness base (c_input self) false false).

Definition cast_nonzero (self : Correctness) : result ErrorKind Correctness :=
  if negb (input_constfn_eq (c_input self) InputOneNonZero)
     && negb (input_constfn_eq (c_input self) InputAnyNonZero)
  then Err NonZeroZero
  else
    base ← match c_base self with
           | BaseB => Ok BaseB
           | x => Err (ChildBase1 x)
           end;
    Ok (mkCorrectness base (c_input self) true (c_unit self)).

Definition cast_zeronotequal (self : Correctness) : result ErrorKind Correctness :=
  base ← match c_base self with
         | BaseB => Ok BaseB
         | x => Err (ChildBase1 x)
         end;
  Ok (mkCorrectness base (c_input self) (c_dissatisfiable self) true).

Definition cast_true (self : Correctness) : result ErrorKind Correctness :=
  base ← match c_base self with
         | BaseV => Ok BaseB
         | x => Err (ChildBase1 x)
         end;
  Ok (mkCorrectness base (c_input self) false true).

Definition cast_or_i_false (self : Correctness) : result ErrorKind Correctness :=
  base ← match c_base self with
         | BaseB => Ok BaseB
         | x => Err (ChildBase1 x)
         end;
  let input := match c_input self with
               | InputZero => InputOne
               | _ => InputAny
               end in
  Ok (mkCorrectness base input true (c_unit self)).

(** * Conjunctions *)

Definition and_b (left right : Correctness) : result ErrorKind Correctness :=
  base ← match c_base left, c_base right with
         | BaseB, BaseW => Ok BaseB
         | x, y => Err (ChildBase2 x y)
         end;
  let input :=
    match c_input left, c_input right with
    | InputZero, InputZero => InputZero
    | InputZero, InputOne | InputOne, InputZero => InputOne
    | InputZero, InputOneNonZero | InputOneNonZero, InputZero => InputOneNonZero
    | InputOneNonZero, _ | InputAnyNonZero, _ | InputZero, InputAnyNonZero => InputAnyNonZero
    | _, _ => InputAny
    end in
  Ok (mkCorrectness base input (c_dissatisfiable left && c_dissatisfiable right) true).

Definition and_v (left right : Correctness) : result ErrorKind Correctness :=
  base ← match c_base left, c_base right with
         | BaseV, BaseB => Ok BaseB
         | BaseV, BaseK => Ok BaseK
         | BaseV, BaseV => Ok BaseV
         | x, y => Err (ChildBase2 x y)
         end;
  let input :=
    match c_input left, c_input right with
    | InputZero, InputZero => InputZero
    | InputZero, InputOne | InputOne, InputZero => InputOne
    | InputZero, InputOneNonZero | InputOneNonZero, InputZero => InputOneNonZero
    | InputOneNonZero, _ | InputAnyNonZero, _ | InputZero, InputAnyNonZero => InputAnyNonZero
    | _, _ => InputAny
    end in
  Ok (mkCorrectness base input false (c_unit right)).

(** * Disjunctions *)

Definition or_b (left right : Correctness) : result ErrorKind Correctness :=
  if negb (c_dissatisfiable left) then Err LeftNotDissatisfiable
  else if negb (c_dissatisfiable right) then Err RightNotDissatisfiable
  else
    base ← match c_base left, c_base right with
           | BaseB, BaseW => Ok BaseB
           | x, y => Err (ChildBase2 x y)
           end;
    let input :=
      match c_input left, c_input right with
      | InputZero, InputZero => InputZero
      | InputZero, InputOne
      | InputOne, InputZero
      | InputZero, InputOneNonZero
      | InputOneNonZero, InputZero => InputOne
      | _, _ => InputAny
      end in
    Ok (mkCorrectness base input true true).

Definition or_d (left right : Correctness) : result ErrorKind Correctness :=
  if negb (c_dissatisfiable left) then Err LeftNotDissatisfiable
  else if negb (c_unit left) then Err LeftNotUnit
  else
    base ← match c_base left, c_base right with
           | BaseB, BaseB => Ok BaseB
           | x, y => Err (ChildBase2 x y)
           end;
    let input :=
      match c_input left, c_input right with
      | InputZero, InputZero => InputZero
      | InputOne, InputZero | InputOneNonZero, InputZero => InputOne
      | _, _ => InputAny
      end in
    Ok (mkCorrectness base input (c_dissatisfiable right) (c_unit right)).

Definition or_c (left right : Correctness) : result ErrorKind Correctness :=
  if negb (c_dissatisfiable left) then Err LeftNotDissatisfiable
  else if negb (c_unit left) then Err LeftNotUnit
  else
    base ← match c_base left, c_base right with
           | BaseB, BaseV => Ok BaseV
           | x, y => Err (ChildBase2 x y)
           end;
    let input :=
      match c_input left, c_input right with
      | InputZero, InputZero => InputZero
      | InputOne, InputZero | InputOneNonZero, InputZero => InputOne
      | _, _ => InputAny
      end in
    Ok (mkCorrectness base input false false).

Definition or_i (left right : Correctness) : result ErrorKind Correctness :=
  base ← match c_base left, c_base right with
         | BaseB, BaseB => Ok BaseB
         | BaseV, BaseV => Ok BaseV
         | BaseK, BaseK => Ok BaseK
         | x, y => Err (ChildBase2 x y)
         end;
  let input :=
    match c_input left, c_input right with
    | InputZero, InputZero => InputOne
    | _, _ => InputAny
    end in
  Ok (mkCorrectness base input (c_dissatisfiable left || c_dissatisfiable right)
        (c_unit left && c_unit right)).

Definition and_or (a b c : Correctness) : result ErrorKind Correctness :=
  if negb (c_dissatisfiable a) then Err LeftNotDissatisfiable
  else if negb (c_unit a) then Err LeftNotUnit
  else
    base ← match c_base a, c_base b, c_base c with
           | BaseB, BaseB, BaseB => Ok BaseB
           | BaseB, BaseK, BaseK => Ok BaseK
           | BaseB, BaseV, BaseV => Ok BaseV
           | x, y, z => Err (ChildBase3 x y z)
           end;
    let input :=
      match c_input a, c_input b, c_input c with
      | InputZero, InputZero, InputZero => InputZero
      | InputZero, InputOne, InputOne
      | InputZero, InputOne, InputOneNonZero
      | InputZero, InputOneNonZero, InputOne
      | InputZero, InputOneNonZero, InputOneNonZero
      | InputOne, InputZero, InputZero
      | InputOneNonZero, InputZero, InputZero => InputOne
      | _, _, _ => InputAny
      end in
    Ok (mkCorrectness base input (c_dissatisfiable c) (c_unit b && c_unit c)).

(** * Thresholds *)

(** The number of arguments a child adds in [threshold]; the code only checks
    whether the total is at most one. *)
Definition threshold_num_args (i : Input) : nat :=
  match i with
  | InputZero => 0
  | InputOne | InputOneNonZero => 1
  | InputAny | InputAnyNonZero => 2
  end.

(** The body of the [for] loop over the children, from index [i] on. *)
Fixpoint threshold_loop (i num_args : nat) (subs : list Correctness) : result ErrorKind nat :=
  match subs with
  | [] => Ok num_args
  | subtype :: rest =>
      let num_args := num_args + threshold_num_args (c_input subtype) in
      if (i =? 0) && negb (bool_decide (c_base subtype = BaseB)) then
        Err (ThresholdBase i (c_base subtype))
      else if negb (i =? 0) && negb (bool_decide (c_base subtype = BaseW)) then
        Err (ThresholdBase i (c_base subtype))
      else if negb (c_unit subtype) then Err (ThresholdNonUnit i)
      else if negb (c_dissatisfiable subtype) then Err (ThresholdDissat i)
      else threshold_loop (S i) num_args rest
  end.

Definition threshold (_k : nat) (subs : list Correctness) : result ErrorKind Correctness :=
  num_args ← threshold_loop 0 0 subs;
  let input := match num_args with
               | 0 => InputZero
               | 1 => InputOne
               | _ => InputAny
               end in
  Ok (mkCorrectness BaseB input true true).
