(* ===== verification/Malleability.v ===== *)
(** The malleability half of the Miniscript type system
    (src/src/miniscript/types/malleability.rs). *)
From S2P Require Import Prelude Correctness.

(** * Data *)

Inductive Dissat : Type := DissatNone | DissatUnique | DissatUnknown.

#[export] Instance Dissat_eq_dec : EqDecision Dissat.
Proof. solve_decision. Defined.

Record Malleability : Type := mkMalleability {
  m_dissat : Dissat;
  m_safe : bool;
  m_non_malleable : bool;
}.

#[export] Instance Malleability_eq_dec : EqDecision Malleability.
Proof. solve_decision. Defined.

Definition dissat_constfn_eq (self other : Dissat) : bool :=
  match self, other with
  | DissatNone, DissatNone
  | DissatUnique, DissatUnique
  | DissatUnknown, DissatUnknown => true
  | _, _ => false
  end.

Definition dissat_is_subtype (self other : Dissat) : bool :=
  if dissat_constfn_eq self other then true
  else match self, other with
       | _, DissatUnknown => true
       | _, _ => false
       end.

Definition is_subtype (self other : Malleability) : bool :=
  dissat_is_subtype (m_dissat self) (m_dissat other)
  && bool_ge (m_safe self) (m_safe other)
  && bool_ge (m_non_malleable self) (m_non_malleable other).

(** * Leaf fragments *)

Definition TRUE : Malleability := mkMalleability DissatNone false true.
Definition FALSE : Malleability := mkMalleability DissatUnique true true.
Definition pk_k : Malleability := mkMalleability DissatUnique true true.
Definition pk_h : Malleability := mkMalleability DissatUnique true true.
Definition multi : Malleability := mkMalleability DissatUnique true true.
Definition multi_a : Malleability := mkMalleability DissatUnique true true.
Definition hash : Malleability := mkMalleability DissatUnknown false true.
Definition time : Malleability := mkMalleability DissatNone false true.

(** * Wrappers *)

Definition cast_alt (self : Malleability) : Malleability := self.
Definition cast_swap (self : Malleability) : Malleability := self.
Definition cast_check (self : Malleability) : Malleability := self.

Definition cast_dupif (self : Malleability) : Malleability :=
  mkMalleability
    (if dissat_constfn_eq (m_dissat self) DissatNone then DissatUnique else DissatUnknown)
    (m_safe self) (m_non_malleable self).

Definition cast_verify (self : Malleability) : Malleability :=
  mkMalleability DissatNone (m_safe self) (m_non_malleable self).

Definition cast_nonzero (self : Malleability) : Malleability :=
  mkMalleability
    (if dissat_constfn_eq (m_dissat self) DissatNone then DissatUnique else DissatUnknown)
    (m_safe self) (m_non_malleable self).

Definition cast_zeronotequal (self : Malleability) : Malleability := self.

Definition cast_true (self : Malleability) : Malleability :=
  mkMalleability DissatNone (m_safe self) (m_non_malleable self).

Definition cast_or_i_false (self : Malleability) : Malleability :=
  mkMalleability
    (if dissat_constfn_eq (m_dissat self) DissatNone then DissatUnique else DissatUnknown)
    (m_safe self) (m_non_malleable self).

(** * Combinators *)

Definition and_b (left right : Malleability) : Malleability :=
  let dissat :=
    match m_dissat left, m_dissat right with
    | DissatNone, DissatNone => DissatNone
    | l, r =>
        if dissat_constfn_eq l DissatNone && m_safe left then DissatNone
        else if dissat_constfn_eq r DissatNone && m_safe right then DissatNone
        else match l, r with
             | DissatUnique, DissatUnique =>
                 if m_safe left && m_safe right then DissatUnique else DissatUnknown
             | _, _ => DissatUnknown
             end
    end in
  mkMalleability dissat (m_safe left || m_safe right)
    (m_non_malleable left && m_non_malleable right).

Definition and_v (left right : Malleability) : Malleability :=
  let dissat :=
    match m_safe left, m_dissat right with
    | _, DissatNone => DissatNone
    | true, _ => DissatNone
    | _, _ => DissatUnknown
    end in
  mkMalleability dissat (m_safe left || m_safe right)
    (m_non_malleable left && m_non_malleable right).

Definition or_b (left right : Malleability) : Malleability :=
  mkMalleability DissatUnique (m_safe left && m_safe right)
    (m_non_malleable left
     && dissat_constfn_eq (m_dissat left) DissatUnique
     && m_non_malleable right
     && dissat_constfn_eq (m_dissat right) DissatUnique
     && (m_safe left || m_safe right)).

Definition or_d (left right : Malleability) : Malleability :=
  mkMalleability (m_dissat right) (m_safe left && m_safe right)
    (m_non_malleable left
     && dissat_constfn_eq (m_dissat left) DissatUnique
     && m_non_malleable right
     && (m_safe left || m_safe right)).

Definition or_c (left right : Malleability) : Malleability :=
  mkMalleability DissatNone (m_safe left && m_safe right)
    (m_non_malleable left
     && dissat_constfn_eq (m_dissat left) DissatUnique
     && m_non_malleable right
     && (m_safe left || m_safe right)).

Definition or_i (left right : Malleability) : Malleability :=
  let dissat :=
    match m_dissat left, m_dissat right with
    | DissatNone, DissatNone => DissatNone
    | DissatUnique, DissatNone => DissatUnique
    | DissatNone, DissatUnique => DissatUnique
    | _, _ => DissatUnknown
    end in
  mkMalleability dissat (m_safe left && m_safe right)
    (m_non_malleable left && m_non_malleable right && (m_safe left || m_safe right)).

Definition and_or (a b c : Malleability) : Malleability :=
  let dissat :=
    match m_safe a, m_dissat b, m_dissat c with
    | _, DissatNone, DissatUnique => DissatUnique
    | true, _, DissatUnique => DissatUnique
    | _, DissatNone, DissatNone => DissatNone
    | true, _, DissatNone => DissatNone
    | _, _, _ => DissatUnknown
    end in
  mkMalleability dissat ((m_safe a || m_safe b) && m_safe c)
    (m_non_malleable a
     && m_non_malleable c
     && dissat_constfn_eq (m_dissat a) DissatUnique
     && m_non_malleable b
     && (m_safe a || m_safe b || m_safe c)).

(** The loop of [threshold]: [(safe_count, all_are_dissat_unique, all_are_non_malleable)]. *)
Definition threshold_step (acc : nat * bool * bool) (subtype : Malleability) : nat * bool * bool :=
  let '(safe_count, all_are_dissat_unique, all_are_non_malleable) := acc in
  (safe_count + Nat.b2n (m_safe subtype),
   all_are_dissat_unique && bool_decide (m_dissat subtype = DissatUnique),
   all_are_non_malleable && m_non_malleable subtype).

(** [n - k] is a [usize] subtraction; thresholds have [k <= n]. *)
Definition threshold (k : nat) (subs : list Malleability) : Malleability :=
  let n := length subs in
  let '(safe_count, all_are_dissat_unique, all_are_non_malleable) :=
    fold_left threshold_step subs (0, true, true) in
  mkMalleability
    (if all_are_dissat_unique && (safe_count =? n) then DissatUnique else DissatUnknown)
    (n - k <? safe_count)
    (all_are_non_malleable && (n - k <=? safe_count) && all_are_dissat_unique).
