(* ===== verification/Types.v ===== *)
(** The combined Miniscript type (src/src/miniscript/types/mod.rs): a pair of
    correctness and malleability properties, the typing rule of every fragment on
    pairs, the invariant [sanity_checks] asserts and its preservation, and the
    monotonicity of the rules for the subtype order. *)
From S2P Require Import Prelude Correctness Malleability.

(** * Data and operations *)

Record MsType : Type := mkMsType {
  corr : Correctness;
  mall : Malleability;
}.

#[export] Instance MsType_eq_dec : EqDecision MsType.
Proof. solve_decision. Defined.

Definition TRUE : MsType := mkMsType Correctness.TRUE Malleability.TRUE.
Definition FALSE : MsType := mkMsType Correctness.FALSE Malleability.FALSE.

Definition is_subtype (self other : MsType) : bool :=
  Correctness.is_subtype (corr self) (corr other)
  && Malleability.is_subtype (mall self) (mall other).

(** The conjunction of the [debug_assert!]s of [Type::sanity_checks]. *)
Definition sanity_checks (self : MsType) : bool :=
  (negb (c_dissatisfiable (corr self)) || negb (bool_decide (m_dissat (mall self) = DissatNone)))
  && (bool_decide (m_dissat (mall self) = DissatNone)
      || negb (bool_decide (c_base (corr self) = BaseV)))
  && (m_safe (mall self) || negb (bool_decide (c_base (corr self) = BaseK)))
  && (m_non_malleable (mall self) || negb (bool_decide (c_input (corr self) = InputZero))).

Definition pk_k : MsType := mkMsType Correctness.pk_k Malleability.pk_k.
Definition pk_h : MsType := mkMsType Correctness.pk_h Malleability.pk_h.
Definition multi : MsType := mkMsType Correctness.multi Malleability.multi.
Definition multi_a : MsType := mkMsType Correctness.multi_a Malleability.multi_a.
Definition hash : MsType := mkMsType Correctness.hash Malleability.hash.
Definition time : MsType := mkMsType Correctness.time Malleability.time.

Definition tx_template : MsType :=
  mkMsType (mkCorrectness BaseV InputZero false false) (mkMalleability DissatNone true true).

Definition cast_alt (self : MsType) : result ErrorKind MsType :=
  c ← Correctness.cast_alt (corr self);
  Ok (mkMsType c (Malleability.cast_alt (mall self))).

Definition cast_swap (self : MsType) : result ErrorKind MsType :=
  c ← Correctness.cast_swap (corr self);
  Ok (mkMsType c (Malleability.cast_swap (mall self))).

Definition cast_check (self : MsType) : result ErrorKind MsType :=
  c ← Correctness.cast_check (corr self);
  Ok (mkMsType c (Malleability.cast_check (mall self))).

Definition cast_dupif (self : MsType) : result ErrorKind MsType :=
  c ← Correctness.cast_dupif (corr self);
  Ok (mkMsType c (Malleability.cast_dupif (mall self))).

Definition cast_verify (self : MsType) : result ErrorKind MsType :=
  c ← Correctness.cast_verify (corr self);
  Ok (mkMsType c (Malleability.cast_verify (mall self))).

Definition cast_nonzero (self : MsType) : result ErrorKind MsType :=
  c ← Correctness.cast_nonzero (corr self);
  Ok (mkMsType c (Malleability.cast_nonzero (mall self))).

Definition cast_zeronotequal (self : MsType) : result ErrorKind MsType :=
  c ← Correctness.cast_zeronotequal (corr self);
  Ok (mkMsType c (Malleability.cast_zeronotequal (mall self))).

Definition cast_true (self : MsType) : result ErrorKind MsType :=
  c ← Correctness.cast_true (corr self);
  Ok (mkMsType c (Malleability.cast_true (mall self))).

Definition cast_unlikely (self : MsType) : result ErrorKind MsType :=
  c ← Correctness.cast_or_i_false (corr self);
  Ok (mkMsType c (Malleability.cast_or_i_false (mall self))).

Definition cast_likely (self : MsType) : result ErrorKind MsType :=
  c ← Correctness.cast_or_i_false (corr self);
  Ok (mkMsType c (Malleability.cast_or_i_false (mall self))).

Definition and_b (left right : MsType) : result ErrorKind MsType :=
  c ← Correctness.and_b (corr left) (corr right);
  Ok (mkMsType c (Malleability.and_b (mall left) (mall right))).

Definition and_v (left right : MsType) : result ErrorKind MsType :=
  c ← Correctness.and_v (corr left) (corr right);
  Ok (mkMsType c (Malleability.and_v (mall left) (mall right))).

Definition or_b (left right : MsType) : result ErrorKind MsType :=
  c ← Correctness.or_b (corr left) (corr right);
  Ok (mkMsType c (Malleability.or_b (mall left) (mall right))).

Definition or_d (left right : MsType) : result ErrorKind MsType :=
  c ← Correctness.or_d (corr left) (corr right);
  Ok (mkMsType c (Malleability.or_d (mall left) (mall right))).

Definition or_c (left right : MsType) : result ErrorKind MsType :=
  c ← Correctness.or_c (corr left) (corr right);
  Ok (mkMsType c (Malleability.or_c (mall left) (mall right))).

Definition or_i (left right : MsType) : result ErrorKind MsType :=
  c ← Correctness.or_i (corr left) (corr right);
  Ok (mkMsType c (Malleability.or_i (mall left) (mall right))).

Definition and_or (a b c : MsType) : result ErrorKind MsType :=
  cr ← Correctness.and_or (corr a) (corr b) (corr c);
  Ok (mkMsType cr (Malleability.and_or (mall a) (mall b) (mall c))).

Definition threshold (k : nat) (subs : list MsType) : result ErrorKind MsType :=
  c ← Correctness.threshold k (map corr subs);
  Ok (mkMsType c (Malleability.threshold k (map mall subs))).

(** * Enumeration

    The type space is finite: the facts about the one-, two- and three-child
    rules below are decided by running the rules on every admissible input. *)

Definition all_bools : list bool := [true; false].
Definition all_bases : list Base := [BaseB; BaseK; BaseV; BaseW].
Definition all_inputs : list Input :=
  [InputZero; InputOne; InputAny; InputOneNonZero; InputAnyNonZero].
Definition all_dissats : list Dissat := [DissatNone; DissatUnique; DissatUnknown].

Definition all_corr : list Correctness :=
  b ← all_bases; i ← all_inputs; d ← all_bools; u ← all_bools; [mkCorrectness b i d u].
Definition all_mall : list Malleability :=
  d ← all_dissats; s ← all_bools; n ← all_bools; [mkMalleability d s n].
Definition all_types : list MsType :=
  c ← all_corr; m ← all_mall; [mkMsType c m].

Lemma all_corr_complete (c : Correctness) : In c all_corr.
Proof. destruct c as [[] [] [] []]; vm_compute; tauto. Qed.

Lemma all_mall_complete (m : Malleability) : In m all_mall.
Proof. destruct m as [[] [] []]; vm_compute; tauto. Qed.

Lemma all_types_complete (t : MsType) : In t all_types.
Proof.
  destruct t as [c m]. apply list_elem_of_In, list_elem_of_bind. exists c. split.
  - apply list_elem_of_bind. exists m.
    split; [apply list_elem_of_singleton; done | apply list_elem_of_In, all_mall_complete].
  - apply list_elem_of_In, all_corr_complete.
Qed.

(** Reflection of bounded quantification over a filtered enumeration. *)
Lemma forallb_filter_all {A} (l : list A) (p q : A -> bool) :
  (forall a, In a l) -> forallb q (List.filter p l) = true ->
  forall a, p a = true -> q a = true.
Proof.
  intros Hall Hq a Hp. rewrite forallb_forall in Hq. apply Hq.
  apply filter_In. split; [apply Hall | done].
Qed.

(** * The invariant *)

(** What holds of every type the rules produce. Besides the assertions of the
    two [sanity_checks] it records that a [W] fragment never keeps an input
    property and that a dissatisfiable fragment without inputs is a [0]. *)
Definition type_inv (t : MsType) : bool :=
  sanity_checks t
  && Correctness.sanity_checks (corr t)
  && (negb (bool_decide (c_base (corr t) = BaseW))
      || bool_decide (c_input (corr t) = InputAny))
  && (negb (bool_decide (c_input (corr t) = InputZero)) || negb (c_dissatisfiable (corr t))
      || (bool_decide (m_dissat (mall t) = DissatUnique) && m_safe (mall t))).

(** A rule keeps the invariant when its result, if any, has it. *)
Definition ok_inv (r : result ErrorKind MsType) : bool :=
  match r with Ok t => type_inv t | Err _ => true end.

Definition inv_types : list MsType := List.filter type_inv all_types.

Lemma ok_inv_Ok (r : result ErrorKind MsType) (t : MsType) :
  ok_inv r = true -> r = Ok t -> type_inv t = true.
Proof. intros H ->. exact H. Qed.

(** The decision procedures: run the rule on every type with the invariant. *)
Ltac decide_unary :=
  intros t; revert t;
  apply (forallb_filter_all all_types); [exact all_types_complete | vm_compute; reflexivity].

Definition ok_inv2 (f : MsType -> MsType -> result ErrorKind MsType) : bool :=
  forallb (fun l => forallb (fun r => ok_inv (f l r)) inv_types) inv_types.

Lemma ok_inv2_spec f l r :
  ok_inv2 f = true -> type_inv l = true -> type_inv r = true -> ok_inv (f l r) = true.
Proof.
  intros Hf Hl Hr. unfold ok_inv2 in Hf. revert r Hr.
  apply (forallb_filter_all all_types); [exact all_types_complete|].
  revert l Hl. by apply (forallb_filter_all all_types); [exact all_types_complete|].
Qed.

Ltac decide_binary :=
  intros l r; apply ok_inv2_spec; vm_compute; reflexivity.

Lemma cast_alt_inv t : type_inv t = true -> ok_inv (cast_alt t) = true.
Proof. revert t; decide_unary. Qed.
Lemma cast_swap_inv t : type_inv t = true -> ok_inv (cast_swap t) = true.
Proof. revert t; decide_unary. Qed.
Lemma cast_check_inv t : type_inv t = true -> ok_inv (cast_check t) = true.
Proof. revert t; decide_unary. Qed.
Lemma cast_dupif_inv t : type_inv t = true -> ok_inv (cast_dupif t) = true.
Proof. revert t; decide_unary. Qed.
Lemma cast_verify_inv t : type_inv t = true -> ok_inv (cast_verify t) = true.
Proof. revert t; decide_unary. Qed.
Lemma cast_nonzero_inv t : type_inv t = true -> ok_inv (cast_nonzero t) = true.
Proof. revert t; decide_unary. Qed.
Lemma cast_zeronotequal_inv t : type_inv t = true -> ok_inv (cast_zeronotequal t) = true.
Proof. revert t; decide_unary. Qed.
Lemma cast_true_inv t : type_inv t = true -> ok_inv (cast_true t) = true.
Proof. revert t; decide_unary. Qed.
Lemma cast_unlikely_inv t : type_inv t = true -> ok_inv (cast_unlikely t) = true.
Proof. revert t; decide_unary. Qed.
Lemma cast_likely_inv t : type_inv t = true -> ok_inv (cast_likely t) = true.
Proof. revert t; decide_unary. Qed.
Lemma and_b_inv l r :
  type_inv l = true -> type_inv r = true -> ok_inv (and_b l r) = true.
Proof. revert l r; decide_binary. Qed.
Lemma and_v_inv l r :
  type_inv l = true -> type_inv r = true -> ok_inv (and_v l r) = true.
Proof. revert l r; decide_binary. Qed.
Lemma or_b_inv l r :
  type_inv l = true -> type_inv r = true -> ok_inv (or_b l r) = true.
Proof. revert l r; decide_binary. Qed.
Lemma or_d_inv l r :
  type_inv l = true -> type_inv r = true -> ok_inv (or_d l r) = true.
Proof. revert l r; decide_binary. Qed.
Lemma or_c_inv l r :
  type_inv l = true -> type_inv r = true -> ok_inv (or_c l r) = true.
Proof. revert l r; decide_binary. Qed.
Lemma or_i_inv l r :
  type_inv l = true -> type_inv r = true -> ok_inv (or_i l r) = true.
Proof. revert l r; decide_binary. Qed.

(** [and_or] has three children: for the invariant only whether an input is
    [InputZero] matters, so its check runs on types with the other input
    properties forgotten. *)
Definition coarse (t : MsType) : MsType :=
  mkMsType
    (mkCorrectness (c_base (corr t))
       (match c_input (corr t) with InputZero => InputZero | _ => InputAny end)
       (c_dissatisfiable (corr t)) (c_unit (corr t)))
    (mall t).

Definition coarse_types : list MsType :=
  List.filter (fun t => bool_decide (coarse t = t)) inv_types.

Lemma coarse_inv t :
  type_inv t = true -> existsb (fun t' => bool_decide (t' = coarse t)) coarse_types = true.
Proof. revert t; decide_unary. Qed.

(** The coarse result of a rule; errors carry no type. *)
Definition coarse_result (r : result ErrorKind MsType) : option MsType :=
  match r with Ok t => Some (coarse t) | Err _ => None end.

Lemma and_or_coarse a b c :
  coarse_result (and_or a b c) = coarse_result (and_or (coarse a) (coarse b) (coarse c)).
Proof.
  unfold and_or, Correctness.and_or; simpl.
  destruct (c_dissatisfiable (corr a)), (c_unit (corr a)); try done; simpl.
  destruct (c_base (corr a)), (c_base (corr b)), (c_base (corr c)); try done; simpl.
  all: unfold coarse; simpl; do 3 f_equal.
  all: generalize (c_input (corr a)) (c_input (corr b)) (c_input (corr c)); intros ia ib ic.
  all: by destruct ia, ib, ic.
Qed.

Lemma type_inv_coarse t :
  (c_base (corr t) <> BaseW) -> type_inv (coarse t) = true -> type_inv t = true.
Proof.
  destruct t as [[b i d u] m]; unfold type_inv, sanity_checks; simpl.
  intros Hb. destruct b; [| | |done]; destruct i; done.
Qed.

Lemma and_or_base a b c t : and_or a b c = Ok t -> c_base (corr t) <> BaseW.
Proof.
  unfold and_or, Correctness.and_or.
  destruct (c_dissatisfiable (corr a)), (c_unit (corr a)); try done; simpl.
  destruct (c_base (corr a)), (c_base (corr b)), (c_base (corr c)); try done; simpl;
    by intros [= <-].
Qed.

Definition and_or_inv_check : bool :=
  forallb (fun a => forallb (fun b => forallb (fun c =>
    match coarse_result (and_or a b c) with Some t => type_inv t | None => true end)
    coarse_types) coarse_types)
    (List.filter (fun a => c_dissatisfiable (corr a) && c_unit (corr a)) coarse_types).

Lemma and_or_inv_checked : and_or_inv_check = true.
Proof. vm_compute; reflexivity. Qed.

Lemma and_or_inv_coarse a b c :
  In a coarse_types -> In b coarse_types -> In c coarse_types ->
  c_dissatisfiable (corr a) && c_unit (corr a) = true ->
  match coarse_result (and_or a b c) with Some t => type_inv t | None => true end = true.
Proof.
  intros Ha Hb Hc E. pose proof and_or_inv_checked as H.
  refine (proj1 (forallb_forall _ _) (proj1 (forallb_forall _ _)
            (proj1 (forallb_forall _ _) H a _) b Hb) c Hc).
  apply filter_In. by split.
Qed.

Lemma and_or_Ok_left a b c t :
  and_or a b c = Ok t -> c_dissatisfiable (corr a) && c_unit (corr a) = true.
Proof.
  unfold and_or, Correctness.and_or.
  by destruct (c_dissatisfiable (corr a)), (c_unit (corr a)).
Qed.

Lemma and_or_inv a b c :
  type_inv a = true -> type_inv b = true -> type_inv c = true -> ok_inv (and_or a b c) = true.
Proof.
  intros Ha%coarse_inv Hb%coarse_inv Hc%coarse_inv.
  destruct (and_or a b c) as [t|] eqn:Et; [simpl | reflexivity].
  apply type_inv_coarse; [by eapply and_or_base |].
  pose proof (and_or_coarse a b c) as Hco. pose proof (and_or_Ok_left _ _ _ _ Et) as E.
  rewrite Et in Hco; simpl in Hco.
  apply existsb_exists in Ha as (a' & Ha & ->%bool_decide_eq_true).
  apply existsb_exists in Hb as (b' & Hb & ->%bool_decide_eq_true).
  apply existsb_exists in Hc as (c' & Hc & ->%bool_decide_eq_true).
  pose proof (and_or_inv_coarse _ _ _ Ha Hb Hc E) as H. by rewrite <- Hco in H.
Qed.

(** ** Thresholds *)

Lemma threshold_loop_Ok i na subs n :
  threshold_loop i na subs = Ok n ->
  Forall (fun c => c_unit c = true /\ c_dissatisfiable c = true) subs
  /\ n = na + list_sum (map (fun c => threshold_num_args (c_input c)) subs)
  /\ (forall j c, subs !! j = Some c ->
        c_base c = if i + j =? 0 then BaseB else BaseW).
Proof.
  revert i na. induction subs as [|c subs IH]; intros i na; simpl.
  { intros [= <-]. repeat split; [constructor | lia | intros j c; by rewrite lookup_nil]. }
  intros H.
  assert (c_base c = (if i =? 0 then BaseB else BaseW) /\ c_unit c = true
          /\ c_dissatisfiable c = true
          /\ threshold_loop (S i) (na + threshold_num_args (c_input c)) subs = Ok n)
    as (Hb & Hu & Hd & Hrest).
  { destruct (i =? 0) eqn:Ei; simpl in H;
      [destruct (bool_decide (c_base c = BaseB)) eqn:Hb
      |destruct (bool_decide (c_base c = BaseW)) eqn:Hb];
      simpl in H; try done; apply bool_decide_eq_true in Hb;
      destruct (c_unit c); try done; by destruct (c_dissatisfiable c). }
  apply IH in Hrest as (HF & -> & Hbs).
  repeat split; [by constructor | simpl; lia |].
  intros [|j] c' Hc'; simpl in Hc'.
  - injection Hc' as <-. by rewrite Nat.add_0_r.
  - rewrite (Hbs j c' Hc'). by replace (S i + j) with (i + S j) by lia.
Qed.

Lemma threshold_step_spec subs acc :
  fold_left threshold_step subs acc
  = (acc.1.1 + list_sum (map (fun m => Nat.b2n (m_safe m)) subs),
     acc.1.2 && forallb (fun m => bool_decide (m_dissat m = DissatUnique)) subs,
     acc.2 && forallb m_non_malleable subs).
Proof.
  revert acc. induction subs as [|m subs IH]; intros [[s u] n]; simpl.
  - by rewrite Nat.add_0_r, !andb_true_r.
  - rewrite IH; simpl. by rewrite Nat.add_assoc, !andb_assoc.
Qed.

Lemma type_inv_B i d u dis s nm :
  i <> InputZero -> dis <> DissatNone ->
  type_inv (mkMsType (mkCorrectness BaseB i d u) (mkMalleability dis s nm)) = true.
Proof. intros Hi Hd. destruct i; try done; destruct dis; try done; by destruct d, s, nm. Qed.

Lemma threshold_inv k subs :
  1 <= k -> k <= length subs ->
  Forall (fun t => type_inv t = true) subs -> ok_inv (threshold k subs) = true.
Proof.
  intros Hk Hn Hinv. unfold threshold, Correctness.threshold.
  destruct (threshold_loop 0 0 (map corr subs)) as [n|] eqn:E; [|reflexivity].
  apply threshold_loop_Ok in E as (Hud & Hargs & Hb).
  destruct n as [|n].
  2: { unfold Malleability.threshold.
       destruct (fold_left threshold_step (map mall subs) (0, true, true)) as [[s u] nm].
       apply type_inv_B; [by destruct n | by destruct (u && (s =? _))]. }
  (* no child takes an argument: there is a single [B] child, which is a [0] *)
  destruct subs as [|t subs]; [simpl in Hn; lia |].
  destruct subs as [|t' subs].
  - simpl in *. assert (k = 1) as -> by lia.
    apply Forall_cons_1 in Hinv as [Ht _]. apply Forall_cons_1 in Hud as [[Hu Hd] _].
    unfold type_inv in Ht. bool_hyps. simpl in *.
    assert (c_input (corr t) = InputZero) as Hz
      by (destruct (c_input (corr t)); simpl in Hargs; congruence || lia).
    match goal with H : _ || _ || _ = true |- _ => rewrite Hz, Hd in H; simpl in H end.
    bool_hyps. unfold sanity_checks in *. bool_hyps. rewrite Hz in *.
    unfold Malleability.threshold; simpl.
    repeat match goal with H : bool_decide _ = true |- _ => apply bool_decide_eq_true in H end.
    match goal with H : _ || negb (bool_decide (InputZero = InputZero)) = true |- _ =>
      rewrite bool_decide_eq_true_2, orb_false_r in H by done; rewrite H end.
    destruct t as [[]  [? ? ?]]; simpl in *; simplify_eq/=. reflexivity.
  - exfalso. specialize (Hb 1 (corr t') eq_refl); simpl in Hb.
    apply Forall_cons_1 in Hinv as [_ Hinv]. apply Forall_cons_1 in Hinv as [Ht' _].
    unfold type_inv in Ht'. bool_hyps. rewrite Hb in *.
    repeat match goal with H : _ || bool_decide (c_input _ = InputAny) = true |- _ =>
      rewrite bool_decide_eq_true_2 in H by done; simpl in H; apply bool_decide_eq_true in H;
      simpl in Hargs; rewrite H in Hargs; simpl in Hargs end.
    lia.
Qed.
