(* ===== verification/ExtData.v ===== *)
(** Extra properties of fragments (src/src/miniscript/types/extra_props.rs): the
    timelock summary, the worst-case sizes of satisfactions and dissatisfactions,
    and the rule of every fragment. [usize] quantities are [nat]; the code's sums
    stay far below its width. *)
From Stdlib Require Import Btauto.
From S2P Require Import Prelude Bitcoin Primitives Ord.

(** * Timelock information *)

Record TimelockInfo : Type := mkTimelockInfo {
  csv_with_height : bool;
  csv_with_time : bool;
  cltv_with_height : bool;
  cltv_with_time : bool;
  contains_combination : bool;
}.

#[export] Instance TimelockInfo_eq_dec : EqDecision TimelockInfo.
Proof. solve_decision. Defined.

Module Timelock.
Definition new : TimelockInfo := mkTimelockInfo false false false false false.

Definition contains_unspendable_path (self : TimelockInfo) : bool := contains_combination self.

Definition height_and_time (acc t : TimelockInfo) : bool :=
  (csv_with_height acc && csv_with_time t)
  || (csv_with_time acc && csv_with_height t)
  || (cltv_with_time acc && cltv_with_height t)
  || (cltv_with_height acc && cltv_with_time t).

(** The closure of [combine_threshold]'s fold. *)
Definition combine_step (k : nat) (acc t : TimelockInfo) : TimelockInfo :=
  let combination :=
    if 1 <? k then contains_combination acc || height_and_time acc t
    else contains_combination acc in
  mkTimelockInfo
    (csv_with_height acc || csv_with_height t)
    (csv_with_time acc || csv_with_time t)
    (cltv_with_height acc || cltv_with_height t)
    (cltv_with_time acc || cltv_with_time t)
    (combination || contains_combination t).

Definition combine_threshold (k : nat) (timelocks : list TimelockInfo) : TimelockInfo :=
  fold_left (combine_step k) timelocks new.

Definition combine_and (a b : TimelockInfo) : TimelockInfo := combine_threshold 2 [a; b].
Definition combine_or (a b : TimelockInfo) : TimelockInfo := combine_threshold 1 [a; b].

(** ** The fold, field by field *)

(** Some entry at a later position conflicts with one at an earlier position. *)
Definition conflict (l : list TimelockInfo) : Prop :=
  exists i j a b, i < j /\ l !! i = Some a /\ l !! j = Some b /\ height_and_time a b = true.

Lemma combine_fields k l acc :
  let r := fold_left (combine_step k) l acc in
  csv_with_height r = csv_with_height acc || existsb csv_with_height l
  /\ csv_with_time r = csv_with_time acc || existsb csv_with_time l
  /\ cltv_with_height r = cltv_with_height acc || existsb cltv_with_height l
  /\ cltv_with_time r = cltv_with_time acc || existsb cltv_with_time l.
Proof.
  revert acc. induction l as [|t l IH]; intros acc; simpl; [by rewrite !orb_false_r|].
  destruct (IH (combine_step k acc t)) as (-> & -> & -> & ->). simpl. by rewrite !orb_assoc.
Qed.

Lemma conflict_cons t l :
  conflict (t :: l) <-> (exists u, In u l /\ height_and_time t u = true) \/ conflict l.
Proof.
  split.
  - intros (i & j & a & b & Hij & Hi & Hj & H). destruct i as [|i], j as [|j]; try lia.
    + simpl in *. simplify_eq. left. exists b. split; [|done].
      apply list_elem_of_In. by eapply list_elem_of_lookup_2.
    + right. exists i, j, a, b. simpl in *. split; [lia | done].
  - intros [(u & Hu & H) | (i & j & a & b & Hij & Hi & Hj & H)].
    + apply list_elem_of_In, list_elem_of_lookup in Hu as [j Hj].
      exists 0, (S j), t, u. split; [lia | done].
    + exists (S i), (S j), a, b. split; [lia | done].
Qed.

Lemma ex_In_cons {A} (P : A -> Prop) a l :
  (exists u, In u (a :: l) /\ P u) <-> P a \/ (exists u, In u l /\ P u).
Proof.
  split; [intros (u & [<- | Hu] & H); eauto|].
  intros [H | (u & Hu & H)]; [exists a | exists u]; simpl; auto.
Qed.

Lemma ex_In_or {A} (P Q : A -> Prop) l :
  (exists u, In u l /\ (P u \/ Q u))
  <-> (exists u, In u l /\ P u) \/ (exists u, In u l /\ Q u).
Proof.
  split; [intros (u & Hu & [H | H]); eauto|].
  intros [(u & Hu & H) | (u & Hu & H)]; exists u; auto.
Qed.

Lemma height_and_time_step k acc t u :
  height_and_time (combine_step k acc t) u = true
  <-> height_and_time acc u = true \/ height_and_time t u = true.
Proof. rewrite <- orb_true_iff. apply eq_iff_eq_true. unfold height_and_time; simpl. btauto.
Qed.

Lemma combine_combination k l acc :
  contains_combination (fold_left (combine_step k) l acc) = true <->
  contains_combination acc = true
  \/ (exists t, In t l /\ contains_combination t = true)
  \/ (1 < k /\ ((exists t, In t l /\ height_and_time acc t = true) \/ conflict l)).
Proof.
  revert acc. induction l as [|t l IH]; intros acc; cbn [fold_left].
  - split; [by left|]. intros [? | [(? & [] & _) | (_ & [(? & [] & _) | H])]]; [done|].
    by destruct H as (i & j & a & b & _ & Hi & _).
  - rewrite IH, conflict_cons.
    assert (contains_combination (combine_step k acc t) = true
            <-> (contains_combination acc = true \/ (1 < k /\ height_and_time acc t = true))
                \/ contains_combination t = true) as ->.
    { unfold combine_step; simpl.
      destruct (Nat.ltb_spec 1 k); rewrite !orb_true_iff; intuition lia. }
    setoid_rewrite height_and_time_step.
    rewrite !ex_In_cons, ex_In_or. tauto.
Qed.

(** Conflicts do not depend on the order: some entry needs a height and a
    different one a time. *)
Lemma conflict_sym l :
  conflict l <->
  exists i j a b, i <> j /\ l !! i = Some a /\ l !! j = Some b
    /\ (csv_with_height a && csv_with_time b || cltv_with_height a && cltv_with_time b = true).
Proof.
  unfold conflict, height_and_time. split.
  - intros (i & j & a & b & Hij & Hi & Hj & H). rewrite !orb_true_iff in H.
    destruct H as [[[H | H] | H] | H].
    + exists i, j, a, b. rewrite orb_true_iff. split; [lia | tauto].
    + exists j, i, b, a. rewrite orb_true_iff, (andb_comm (csv_with_height b)).
      split; [lia | tauto].
    + exists j, i, b, a. rewrite orb_true_iff, (andb_comm (cltv_with_height b)).
      split; [lia | tauto].
    + exists i, j, a, b. rewrite orb_true_iff. split; [lia | tauto].
  - intros (i & j & a & b & Hij & Hi & Hj & H). rewrite orb_true_iff in H.
    destruct (Nat.lt_ge_cases i j).
    + exists i, j, a, b. rewrite !orb_true_iff. tauto.
    + exists j, i, b, a. rewrite !orb_true_iff, (andb_comm (csv_with_time b)),
        (andb_comm (cltv_with_time b)). split; [lia | tauto].
Qed.

End Timelock.

(** * Satisfaction sizes *)

Record SatData : Type := mkSatData {
  max_witness_stack_size : nat;
  max_witness_stack_count : nat;
  max_script_sig_size : nat;
  max_exec_stack_count : nat;
  max_exec_op_count : nat;
}.

#[export] Instance SatData_eq_dec : EqDecision SatData.
Proof. solve_decision. Defined.

Definition fieldwise_max (self other : SatData) : SatData :=
  mkSatData
    (Nat.max (max_witness_stack_size self) (max_witness_stack_size other))
    (Nat.max (max_witness_stack_count self) (max_witness_stack_count other))
    (Nat.max (max_script_sig_size self) (max_script_sig_size other))
    (Nat.max (max_exec_stack_count self) (max_exec_stack_count other))
    (Nat.max (max_exec_op_count self) (max_exec_op_count other)).

Definition fieldwise_max_opt (slf other : option SatData) : option SatData :=
  match slf, other with
  | None, None => None
  | Some x, None => Some x
  | None, Some x => Some x
  | Some x, Some y => Some (fieldwise_max x y)
  end.

Record ExtData : Type := mkExtData {
  pk_cost : nat;
  has_free_verify : bool;
  static_ops : nat;
  sat_data : option SatData;
  dissat_data : option SatData;
  timelock_info : TimelockInfo;
  tree_height : nat;
}.

#[export] Instance ExtData_eq_dec : EqDecision ExtData.
Proof. solve_decision. Defined.

Module Ext.

(** ** Leaves *)

Definition FALSE : ExtData :=
  mkExtData 1 false 0 None (Some (mkSatData 0 0 0 1 0)) Timelock.new 0.
Definition TRUE : ExtData :=
  mkExtData 1 false 0 (Some (mkSatData 0 0 0 1 0)) None Timelock.new 0.
Definition tx_template : ExtData :=
  mkExtData 35 false 2 (Some (mkSatData 0 0 0 1 0)) None Timelock.new 0.

Definition num_cost (k n : nat) : nat :=
  match 16 <? k, 16 <? n with
  | true, true => 4
  | false, true => 3
  | true, false => 3
  | false, false => 2
  end.

Section Leaves.
Context {B : Bitcoin} {K : MiniscriptKey}.

(** [Ctx::sig_type()] is the first argument. *)
Definition pk_k (sig_type : SigType) (pk : Pk) : ExtData :=
  let '(key_bytes, max_sig_bytes) :=
    match sig_type with
    | Ecdsa => if is_uncompressed pk then (65, 73) else (34, 73)
    | Schnorr => (33, 66)
    end in
  mkExtData key_bytes false 0
    (Some (mkSatData max_sig_bytes 1 max_sig_bytes 1 0))
    (Some (mkSatData 1 1 1 1 0))
    Timelock.new 0.

Definition pk_h (sig_type : SigType) (pk : option Pk) : ExtData :=
  let '(key_bytes, max_sig_bytes) :=
    match sig_type, pk with
    | Ecdsa, Some pk => if is_uncompressed pk then (65, 73) else (34, 73)
    | Ecdsa, None => (34, 73)
    | Schnorr, _ => (33, 66)
    end in
  mkExtData 24 false 3
    (Some (mkSatData (key_bytes + max_sig_bytes) 2 (key_bytes + max_sig_bytes) 2 0))
    (Some (mkSatData (key_bytes + 1) 2 (key_bytes + 1) 2 0))
    Timelock.new 0.

Definition multi (thresh : Threshold Pk) : ExtData :=
  let n := Threshold.n thresh in
  let k := Threshold.k thresh in
  mkExtData
    (num_cost k n
     + sum_by (fun k => if is_uncompressed k then 65 else 34) (Threshold.data thresh) + 1)
    true 1
    (Some (mkSatData (1 + 73 * k) (k + 1) (1 + 73 * k) n n))
    (Some (mkSatData (1 + k) (k + 1) (1 + k) n n))
    Timelock.new 0.

Definition multi_a (k n : nat) : ExtData :=
  mkExtData (num_cost k n + 33 * n + (n - 1) + 1) true 0
    (Some (mkSatData ((n - k) + 66 * k) n 0 2 0))
    (Some (mkSatData n n 0 2 0))
    Timelock.new 0.

Definition sha256 : ExtData :=
  mkExtData (33 + 6) true 4 (Some (mkSatData 33 1 33 2 0)) (Some (mkSatData 33 2 33 2 0))
    Timelock.new 0.
Definition hash256 : ExtData :=
  mkExtData (33 + 6) true 4 (Some (mkSatData 33 1 33 2 0)) (Some (mkSatData 33 2 33 2 0))
    Timelock.new 0.
Definition ripemd160 : ExtData :=
  mkExtData (21 + 6) true 4 (Some (mkSatData 33 1 33 2 0)) (Some (mkSatData 33 2 33 2 0))
    Timelock.new 0.
Definition hash160 : ExtData :=
  mkExtData (21 + 6) true 4 (Some (mkSatData 33 1 33 2 0)) (Some (mkSatData 33 2 33 2 0))
    Timelock.new 0.

Definition after (t : AbsLockTime) : ExtData :=
  mkExtData (script_num_size (abs_to_consensus_u32 t) + 1) false 1
    (Some (mkSatData 0 0 0 1 0)) None
    (mkTimelockInfo false false (is_block_height t) (is_block_time t) false) 0.

Definition older (t : RelLockTime) : ExtData :=
  mkExtData (script_num_size (rel_to_consensus_u32 t) + 1) false 1
    (Some (mkSatData 0 0 0 1 0)) None
    (mkTimelockInfo (is_height_locked t) (is_time_locked t) false false false) 0.

Definition inscribing (self : ExtData) (inscriptions : list Inscription) (postfix : bool)
  : ExtData :=
  let adjust (data : SatData) : SatData :=
    mkSatData (max_witness_stack_size data) (max_witness_stack_count data)
      (max_script_sig_size data)
      (if postfix then max_exec_stack_count data + 1
       else Nat.max (max_exec_stack_count data) 1)
      (max_exec_op_count data) in
  mkExtData (pk_cost self + sum_by size_guess inscriptions)
    (if postfix then false else has_free_verify self)
    (static_ops self + 2 * length inscriptions)
    (adjust <$> sat_data self) (adjust <$> dissat_data self)
    (timelock_info self) (tree_height self + 1).
End Leaves.

(** ** Wrappers *)

Definition cast_alt (self : ExtData) : ExtData :=
  mkExtData (pk_cost self + 2) false (2 + static_ops self)
    (sat_data self) (dissat_data self) (timelock_info self) (tree_height self + 1).
Definition cast_swap (self : ExtData) : ExtData :=
  mkExtData (pk_cost self + 1) (has_free_verify self) (1 + static_ops self)
    (sat_data self) (dissat_data self) (timelock_info self) (tree_height self + 1).
Definition cast_check (self : ExtData) : ExtData :=
  mkExtData (pk_cost self + 1) true (1 + static_ops self)
    (sat_data self) (dissat_data self) (timelock_info self) (tree_height self + 1).

Definition cast_dupif (self : ExtData) : ExtData :=
  mkExtData (pk_cost self + 3) false (3 + static_ops self)
    ((fun data =>
        mkSatData (max_witness_stack_size data + 1) (max_witness_stack_count data + 2)
          (max_script_sig_size data + 1) (Nat.max 1 (max_exec_stack_count data))
          (max_exec_op_count data)) <$> sat_data self)
    (Some (mkSatData 1 1 1 1 0))
    (timelock_info self) (tree_height self + 1).

Definition cast_verify (self : ExtData) : ExtData :=
  let verify_cost := Nat.b2n (negb (has_free_verify self)) in
  mkExtData (pk_cost self + Nat.b2n (negb (has_free_verify self))) false
    (verify_cost + static_ops self)
    (sat_data self) None (timelock_info self) (tree_height self + 1).

Definition cast_nonzero (self : ExtData) : ExtData :=
  mkExtData (pk_cost self + 4) false (4 + static_ops self)
    (sat_data self) (Some (mkSatData 1 1 1 1 0)) (timelock_info self) (tree_height self + 1).
Definition cast_zeronotequal (self : ExtData) : ExtData :=
  mkExtData (pk_cost self + 1) false (1 + static_ops self)
    (sat_data self) (dissat_data self) (timelock_info self) (tree_height self + 1).

(** ** Combinators *)

(** The closures [sat_concat]: with [r_extra = 1] the left result stays on the
    stack while the right one runs. *)
Definition sat_concat (r_extra : nat) (l r : option SatData) : option SatData :=
  (fun '(l, r) =>
     mkSatData (max_witness_stack_size l + max_witness_stack_size r)
       (max_witness_stack_count l + max_witness_stack_count r)
       (max_script_sig_size l + max_script_sig_size r)
       (Nat.max (max_exec_stack_count l) (r_extra + max_exec_stack_count r))
       (max_exec_op_count l + max_exec_op_count r)) <$> option_zip l r.

Definition and_b (l r : ExtData) : ExtData :=
  mkExtData (pk_cost l + pk_cost r + 1) false (1 + static_ops l + static_ops r)
    (sat_concat 1 (sat_data l) (sat_data r))
    (sat_concat 1 (dissat_data l) (dissat_data r))
    (Timelock.combine_and (timelock_info l) (timelock_info r))
    (1 + Nat.max (tree_height l) (tree_height r)).

Definition and_v (l r : ExtData) : ExtData :=
  mkExtData (pk_cost l + pk_cost r) (has_free_verify r) (static_ops l + static_ops r)
    (sat_concat 0 (sat_data l) (sat_data r)) None
    (Timelock.combine_and (timelock_info l) (timelock_info r))
    (1 + Nat.max (tree_height l) (tree_height r)).

Definition or_b (l r : ExtData) : ExtData :=
  mkExtData (pk_cost l + pk_cost r + 1) false (1 + static_ops l + static_ops r)
    (fieldwise_max_opt (sat_concat 1 (sat_data l) (dissat_data r))
       (sat_concat 1 (dissat_data l) (sat_data r)))
    (sat_concat 1 (dissat_data l) (dissat_data r))
    (Timelock.combine_or (timelock_info l) (timelock_info r))
    (1 + Nat.max (tree_height l) (tree_height r)).

Definition or_d (l r : ExtData) : ExtData :=
  mkExtData (pk_cost l + pk_cost r + 3) false (3 + static_ops l + static_ops r)
    (fieldwise_max_opt (sat_data l) (sat_concat 0 (dissat_data l) (sat_data r)))
    (sat_concat 0 (dissat_data l) (dissat_data r))
    (Timelock.combine_or (timelock_info l) (timelock_info r))
    (1 + Nat.max (tree_height l) (tree_height r)).

Definition or_c (l r : ExtData) : ExtData :=
  mkExtData (pk_cost l + pk_cost r + 2) false (2 + static_ops l + static_ops r)
    (fieldwise_max_opt (sat_data l) (sat_concat 0 (dissat_data l) (sat_data r))) None
    (Timelock.combine_or (timelock_info l) (timelock_info r))
    (1 + Nat.max (tree_height l) (tree_height r)).

Definition or_i (l r : ExtData) : ExtData :=
  let with_0 (data : SatData) : SatData :=
    mkSatData (1 + max_witness_stack_size data) (1 + max_witness_stack_count data)
      (1 + max_script_sig_size data) (max_exec_stack_count data) (max_exec_op_count data) in
  let with_1 (data : SatData) : SatData :=
    mkSatData (2 + max_witness_stack_size data) (1 + max_witness_stack_count data)
      (1 + max_script_sig_size data) (max_exec_stack_count data) (max_exec_op_count data) in
  mkExtData (pk_cost l + pk_cost r + 3) false (3 + static_ops l + static_ops r)
    (fieldwise_max_opt (with_1 <$> sat_data l) (with_0 <$> sat_data r))
    (fieldwise_max_opt (with_1 <$> dissat_data l) (with_0 <$> dissat_data r))
    (Timelock.combine_or (timelock_info l) (timelock_info r))
    (1 + Nat.max (tree_height l) (tree_height r)).

Definition and_or (a b c : ExtData) : ExtData :=
  mkExtData (pk_cost a + pk_cost b + pk_cost c + 3) false
    (3 + static_ops a + static_ops b + static_ops c)
    (fieldwise_max_opt (sat_concat 0 (sat_data a) (sat_data b))
       (sat_concat 0 (dissat_data a) (sat_data c)))
    (sat_concat 0 (dissat_data a) (dissat_data c))
    (Timelock.combine_or
       (Timelock.combine_and (timelock_info a) (timelock_info b)) (timelock_info c))
    (1 + Nat.max (tree_height a) (Nat.max (tree_height b) (tree_height c))).

Definition cast_true (self : ExtData) : ExtData := and_v self TRUE.
Definition cast_unlikely (self : ExtData) : ExtData := or_i self FALSE.
Definition cast_likely (self : ExtData) : ExtData := or_i FALSE self.

(** ** Thresholds *)

Definition zero_data : SatData := mkSatData 0 0 0 0 0.

(** The key by which [threshold] sorts its children for one field. *)
Definition sort_key (proj : SatData -> nat) (sd : option SatData * option SatData) : option Z :=
  (fun '(sat, dissat) => (Z.of_nat (proj sat) - Z.of_nat (proj dissat))%Z)
    <$> option_zip sd.1 sd.2.

(** The [try_fold] over the sorted children in descending order, from index [i]. *)
Fixpoint accumulate (proj : SatData -> nat) (cmp : nat -> nat -> nat) (k i acc : nat)
    (l : list (option SatData * option SatData)) : option nat :=
  match l with
  | [] => Some acc
  | (sat, dissat) :: l =>
      acc ← (if i <=? k then (fun x => cmp acc (proj x)) <$> sat
             else (fun y => cmp acc (proj y)) <$> dissat);
      accumulate proj cmp k (S i) acc l
  end.

(** One iteration of the loop over the fields: sort in place, then fold. *)
Definition field (k : nat) (proj : SatData -> nat) (cmp : nat -> nat -> nat)
    (sat_dissat_vec : list (option SatData * option SatData))
  : list (option SatData * option SatData) * option nat :=
  let sat_dissat_vec := sort_by_key option_Z_leb (sort_key proj) sat_dissat_vec in
  (sat_dissat_vec, accumulate proj cmp k 0 0 (rev sat_dissat_vec)).

Definition exec_cmp (acc x : nat) : nat := Nat.max acc (x + Nat.b2n (0 <? acc)).

Definition threshold_dissat (subs : list ExtData) : option SatData :=
  fold_left (fun data sub => sat_concat 0 data (dissat_data sub))
    subs (Some zero_data).

Definition threshold_sat (k : nat) (subs : list ExtData) : option SatData :=
  let vec := map (fun sub => (sat_data sub, dissat_data sub)) subs in
  let '(vec, count) := field k max_witness_stack_count Nat.add vec in
  let '(vec, size) := field k max_witness_stack_size Nat.add vec in
  let '(vec, sig_size) := field k max_script_sig_size Nat.add vec in
  let '(vec, exec_stack) := field k max_exec_stack_count exec_cmp vec in
  let '(vec, exec_op) := field k max_exec_op_count Nat.add vec in
  match count, size, sig_size, exec_stack, exec_op with
  | Some count, Some size, Some sig_size, Some exec_stack, Some exec_op =>
      Some (mkSatData size count sig_size exec_stack exec_op)
  | _, _, _, _, _ => None
  end.

Definition threshold (k : nat) (subs : list ExtData) : ExtData :=
  let n := length subs in
  let cost := 1 + script_num_size (N.of_nat k) + sum_by pk_cost subs in
  mkExtData (cost + n - 1) true
    (sum_by static_ops subs + 1 + (n - 1))
    (threshold_sat k subs) (threshold_dissat subs)
    (Timelock.combine_threshold k (map timelock_info subs))
    (fold_left (fun m sub => Nat.max m (tree_height sub)) subs 0 + 1).

Definition sat_op_count (self : ExtData) : option nat :=
  (fun data => static_ops self + max_exec_op_count data) <$> sat_data self.

End Ext.

(** * Properties *)

(** combining the timelocks of the children of a [k]-threshold reports an
    unspendable path exactly when a child already has one, or when more than one
    child may be needed and two different children require a height and a time of
    the same kind of lock; the other flags are the disjunctions over the children. *)
Theorem combine_threshold_spec k l :
  let r := Timelock.combine_threshold k l in
  (contains_combination r = true <->
     (exists t, In t l /\ contains_combination t = true)
     \/ (1 < k /\ exists i j a b, i <> j /\ l !! i = Some a /\ l !! j = Some b
           /\ (csv_with_height a && csv_with_time b
               || cltv_with_height a && cltv_with_time b = true)))
  /\ csv_with_height r = existsb csv_with_height l
  /\ csv_with_time r = existsb csv_with_time l
  /\ cltv_with_height r = existsb cltv_with_height l
  /\ cltv_with_time r = existsb cltv_with_time l.
Proof.
  destruct (Timelock.combine_fields k l Timelock.new) as (H1 & H2 & H3 & H4).
  cbv zeta. split; [|done].
  unfold Timelock.combine_threshold. rewrite Timelock.combine_combination.
  rewrite Timelock.conflict_sym. simpl.
  assert (~ exists t, In t l /\ Timelock.height_and_time Timelock.new t = true) as Hno.
  { intros (t & _ & H). done. }
  intuition congruence.
Qed.
