(* ===== verification/Tree.v ===== *)
(** Tree traversals (src/src/iter/tree.rs): the trait [TreeLike] with its
    pre-order, post-order, right-to-left post-order and verbose iterators as stack machines, and their refinement of
    the recursive traversals. *)
From S2P Require Import Prelude.

(** [Tree<T, NT>]; the n-ary children of every implementation are a slice. *)
Inductive Tree (T : Type) : Type :=
| Nullary
| Unary (a : T)
| Binary (a b : T)
| Ternary (a b c : T)
| Nary (children : list T).
Arguments Nullary {T}.
Arguments Unary {T} a.
Arguments Binary {T} a b.
Arguments Ternary {T} a b c.
Arguments Nary {T} children.

Class TreeLike (T : Type) : Type := as_node : T -> Tree T.

Section Operations.
Context {T : Type} {TL : TreeLike T}.

Definition n_children (self : T) : nat :=
  match as_node self with
  | Nullary => 0
  | Unary _ => 1
  | Binary _ _ => 2
  | Ternary _ _ _ => 3
  | Nary children => length children
  end.

Definition nth_child (self : T) (n : nat) : option T :=
  match n, as_node self with
  | _, Nullary => None
  | 0, Unary sub => Some sub
  | _, Unary _ => None
  | 0, Binary sub _ => Some sub
  | 1, Binary _ sub => Some sub
  | _, Binary _ _ => None
  | 0, Ternary sub _ _ => Some sub
  | 1, Ternary _ sub _ => Some sub
  | 2, Ternary _ _ sub => Some sub
  | _, Ternary _ _ _ => None
  | n, Nary children => children !! n
  end.

Definition children (self : T) : list T :=
  match as_node self with
  | Nullary => []
  | Unary a => [a]
  | Binary a b => [a; b]
  | Ternary a b c => [a; b; c]
  | Nary children => children
  end.

Lemma n_children_spec t : n_children t = length (children t).
Proof. unfold n_children, children. by destruct (as_node t). Qed.

Lemma nth_child_spec t n : nth_child t n = children t !! n.
Proof.
  unfold nth_child, children. destruct (as_node t).
  all: destruct n as [|[|[|n]]]; reflexivity.
Qed.

(** ** Pre-order: [PreOrderIter], a stack with its top at the head *)

Definition PreOrderIter : Type := list T.

Definition pre_order_iter (self : T) : PreOrderIter := [self].

Definition pre_next (stack : PreOrderIter) : option (T * PreOrderIter) :=
  match stack with
  | [] => None
  | top :: stack =>
      let stack :=
        match as_node top with
        | Nullary => stack
        | Unary next => next :: stack
        | Binary l r => l :: r :: stack
        | Ternary a b c => a :: b :: c :: stack
        | Nary children =>
            fold_right (fun i stack => match children !! i with
                                       | Some child => child :: stack
                                       | None => stack
                                       end) stack (seq 0 (length children))
        end in
      Some (top, stack)
  end.

(** ** Post-order: [PostOrderIter] *)

Record IterStackItem : Type := mkIterStackItem {
  elem : T;
  processed : bool;
  child_indices : list nat;
  parent_stack_idx : option nat;
}.

(** The stack is a [Vec] with its top at the end, since it is indexed. *)
Record PostOrderIter : Type := mkPostOrderIter {
  po_index : nat;
  po_stack : list IterStackItem;
}.

Record PostOrderIterItem : Type := mkPostOrderIterItem {
  item_node : T;
  item_index : nat;
  item_child_indices : list nat;
}.

Definition unprocessed (elem : T) (parent_stack_idx : option nat) : IterStackItem :=
  mkIterStackItem elem false [] parent_stack_idx.

Definition post_order_iter (self : T) : PostOrderIter :=
  mkPostOrderIter 0 [unprocessed self None].

Definition push_child_index (i : nat) (item : IterStackItem) : IterStackItem :=
  mkIterStackItem (elem item) (processed item) (child_indices item ++ [i])
    (parent_stack_idx item).

(** One call of [next] pops once; the recursive call after the children of a
    node have been pushed is the next iteration ([None] in the first component). *)
Definition post_step (st : PostOrderIter)
  : option (option PostOrderIterItem * PostOrderIter) :=
  match rev (po_stack st) with
  | [] => None
  | current :: below_rev =>
      let below := rev below_rev in
      if negb (processed current) then
        let current_stack_idx := length below in
        let current :=
          mkIterStackItem (elem current) true (child_indices current)
            (parent_stack_idx current) in
        Some (None,
              mkPostOrderIter (po_index st)
                (below ++ [current]
                 ++ rev (map (fun child => unprocessed child (Some current_stack_idx))
                           (children (elem current)))))
      else
        let below :=
          match parent_stack_idx current with
          | Some idx => alter (push_child_index (po_index st)) idx below
          | None => below
          end in
        Some (Some (mkPostOrderIterItem (elem current) (po_index st) (child_indices current)),
              mkPostOrderIter (S (po_index st)) below)
  end.
End Operations.

Arguments PreOrderIter : clear implicits.
Arguments PostOrderIter : clear implicits.
Arguments PostOrderIterItem : clear implicits.
Arguments IterStackItem : clear implicits.

(** * Running an iterator *)

(** [collect()]: the items an iterator yields until it returns [None], if it
    does so within [fuel] calls. *)
Fixpoint drain {S A} (next : S -> option (A * S)) (fuel : nat) (st : S) : option (list A) :=
  match fuel with
  | 0 => None
  | Datatypes.S fuel =>
      match next st with
      | None => Some []
      | Some (a, st) => l ← drain next fuel st; Some (a :: l)
      end
  end.

Lemma drain_mono {S A} (next : S -> option (A * S)) fuel fuel' st l :
  drain next fuel st = Some l -> fuel <= fuel' -> drain next fuel' st = Some l.
Proof.
  revert fuel' st l. induction fuel as [|fuel IH]; intros fuel' st l H Hle; [done|].
  destruct fuel' as [|fuel']; [lia|]. simpl in *.
  destruct (next st) as [[a st']|]; [|done].
  destruct (drain next fuel st') as [l'|] eqn:E; [|done]. simpl in *.
  rewrite (IH _ _ _ E) by lia. done.
Qed.

Lemma drain_step_eq {S A} (next : S -> option (A * S)) fuel st st' :
  next st = next st' -> drain next fuel st = drain next fuel st'.
Proof. intros H. destruct fuel; [done|]. simpl. by rewrite H. Qed.

(** The same for an iterator whose loop turns may yield nothing. *)
Fixpoint drain_some {S A} (next : S -> option (option A * S)) (fuel : nat) (st : S)
  : option (list A) :=
  match fuel with
  | 0 => None
  | Datatypes.S fuel =>
      match next st with
      | None => Some []
      | Some (None, st) => drain_some next fuel st
      | Some (Some a, st) => l ← drain_some next fuel st; Some (a :: l)
      end
  end.

(** * Well-founded trees *)

(** What the traversals rely on: functions can be computed from their values at
    the children, and induction over children proves statements about trees. *)
Class WfTree (T : Type) {TL : TreeLike T} : Type := {
  tree_fold : forall {A : Type}, (T -> list A -> A) -> T -> A;
  tree_fold_eq : forall {A} (f : T -> list A -> A) t,
    tree_fold f t = f t (map (tree_fold f) (children t));
  tree_ind : forall P : T -> Prop, (forall t, Forall P (children t) -> P t) -> forall t, P t;
}.

Section Traversals.
Context {T : Type} {TL : TreeLike T} {WF : WfTree T}.

Definition pre_order : T -> list T := tree_fold (fun t ls => t :: concat ls).

Lemma pre_order_eq t : pre_order t = t :: flat_map pre_order (children t).
Proof. unfold pre_order at 1. by rewrite tree_fold_eq, flat_map_concat_map. Qed.

Lemma Forall_pre_order (P : T -> Prop) t :
  Forall P (pre_order t) <-> P t /\ Forall (fun c => Forall P (pre_order c)) (children t).
Proof.
  rewrite pre_order_eq, list.Forall_cons, flat_map_concat_map, List.Forall_concat, List.Forall_map. done.
Qed.

Definition tree_size (t : T) : nat := length (pre_order t).

Lemma tree_size_eq t : tree_size t = S (sum_by tree_size (children t)).
Proof.
  unfold tree_size at 1. rewrite pre_order_eq. simpl. f_equal.
  generalize (children t). intros cs. induction cs as [|c cs IH]; [done|]. simpl.
  by rewrite length_app, IH, sum_by_cons.
Qed.

Lemma sum_pre_order (f : T -> nat) t :
  sum_by f (pre_order t) = f t + sum_by (fun c => sum_by f (pre_order c)) (children t).
Proof.
  rewrite pre_order_eq, sum_by_cons. f_equal.
  generalize (children t). intros cs. induction cs as [|c cs IH]; [done|].
  cbn [flat_map]. by rewrite sum_by_app, IH, sum_by_cons.
Qed.

Lemma existsb_pre_order (f : T -> bool) t :
  existsb f (pre_order t) = false ->
  f t = false /\ Forall (fun c => existsb f (pre_order c) = false) (children t).
Proof.
  rewrite pre_order_eq. simpl. intros [H Hc]%orb_false_iff. split; [done|]. clear H.
  induction (children t) as [|c cs IH]; [constructor|]. simpl in Hc. rewrite existsb_app in Hc.
  apply orb_false_iff in Hc as [? ?]. constructor; auto.
Qed.

(** ** Pre-order *)

Lemma nary_push (l stack : list T) :
  fold_right (fun i stack => match l !! i with
                             | Some child => child :: stack
                             | None => stack
                             end) stack (seq 0 (length l)) = l ++ stack.
Proof.
  assert (forall pre l, fold_right (fun i stack => match (pre ++ l) !! i with
                             | Some child => child :: stack
                             | None => stack
                             end) stack (seq (length pre) (length l)) = l ++ stack) as H.
  { clear l. intros pre l. revert pre. induction l as [|a l IH]; intros pre; [done|].
    simpl. rewrite (list_lookup_middle pre l a (length pre)) by done. f_equal.
    specialize (IH (pre ++ [a])). rewrite <- app_assoc in IH. simpl in IH.
    by rewrite length_app, Nat.add_1_r in IH. }
  exact (H [] l).
Qed.

Lemma pre_next_cons t stack : pre_next (t :: stack) = Some (t, children t ++ stack).
Proof.
  unfold pre_next, children. destruct (as_node t) as [| | | |l]; try done.
  by rewrite nary_push.
Qed.

Lemma pre_drain_stack t :
  forall stack fuel l,
    drain pre_next fuel stack = Some l ->
    drain pre_next (length (pre_order t) + fuel) (t :: stack) = Some (pre_order t ++ l).
Proof.
  induction t as [t IH] using tree_ind. intros stack fuel l Hl.
  rewrite pre_order_eq. cbn [length Nat.add drain app]. rewrite pre_next_cons.
  assert (drain pre_next (length (flat_map pre_order (children t)) + fuel)
            (children t ++ stack) = Some (flat_map pre_order (children t) ++ l)) as ->; [|done].
  revert IH. generalize (children t). intros cs Hcs.
  induction Hcs as [|c cs Hc _ IH]; simpl; [done|].
  rewrite length_app, <- Nat.add_assoc, <- app_assoc. by apply Hc.
Qed.

(** The iterator yields the recursive pre-order and stops. *)
Lemma pre_order_drain t :
  drain pre_next (S (tree_size t)) (pre_order_iter t) = Some (pre_order t).
Proof.
  pose proof (pre_drain_stack t [] 1 [] eq_refl) as H.
  rewrite app_nil_r, Nat.add_1_r in H. exact H.
Qed.

(** ** Post-order *)

(** The items of the children, visited from left to right starting at index
    [i], and the index of each child. *)
Fixpoint post_children (fs : list (nat -> list (PostOrderIterItem T))) (i : nat)
  : list (PostOrderIterItem T) * list nat :=
  match fs with
  | [] => ([], [])
  | f :: fs =>
      let items := f i in
      let '(items', idxs) := post_children fs (i + length items) in
      (items ++ items', (i + length items - 1) :: idxs)
  end.

(** The recursive post-order from index [i]: children before their parent,
    consecutive indices, and at each node the indices of its children. *)
Definition post_order_from : T -> nat -> list (PostOrderIterItem T) :=
  tree_fold (fun t fs i =>
    let '(items, idxs) := post_children fs i in
    items ++ [mkPostOrderIterItem t (i + length items) idxs]).

Definition post_order (t : T) : list (PostOrderIterItem T) := post_order_from t 0.

Lemma post_order_from_eq t i :
  post_order_from t i
  = (post_children (map post_order_from (children t)) i).1
    ++ [mkPostOrderIterItem t
          (i + length (post_children (map post_order_from (children t)) i).1)
          (post_children (map post_order_from (children t)) i).2].
Proof.
  unfold post_order_from at 1. rewrite tree_fold_eq.
  fold post_order_from. by destruct (post_children _ i).
Qed.

Definition post_drain : nat -> PostOrderIter T -> option (list (PostOrderIterItem T)) :=
  drain_some post_step.

Definition yield_to (parent : option nat) (i : nat) (below : list (IterStackItem T)) :=
  match parent with
  | Some idx => alter (push_child_index i) idx below
  | None => below
  end.

Definition visit_ok (t : T) : Prop :=
  forall below parent i fuel l,
    (forall p, parent = Some p -> p < length below) ->
    let n := length (post_order_from t i) in
    post_drain fuel (mkPostOrderIter (i + n) (yield_to parent (i + n - 1) below)) = Some l ->
    post_drain (2 * tree_size t + fuel)
      (mkPostOrderIter i (below ++ [unprocessed t parent])) = Some (post_order_from t i ++ l).

Lemma post_step_unprocessed below t parent i :
  post_step (mkPostOrderIter i (below ++ [unprocessed t parent]))
  = Some (None, mkPostOrderIter i
            (below ++ [mkIterStackItem t true [] parent]
             ++ rev (map (fun child => unprocessed child (Some (length below))) (children t)))).
Proof. unfold post_step. simpl. by rewrite rev_unit, rev_involutive. Qed.

Lemma post_step_processed below t parent idxs i :
  post_step (mkPostOrderIter i (below ++ [mkIterStackItem t true idxs parent]))
  = Some (Some (mkPostOrderIterItem t i idxs), mkPostOrderIter (S i) (yield_to parent i below)).
Proof. unfold post_step. simpl. by rewrite rev_unit, rev_involutive. Qed.

Lemma post_drain_children cs :
  Forall visit_ok cs ->
  forall below t parent acc i fuel l,
    let r := post_children (map post_order_from cs) i in
    post_drain fuel (mkPostOrderIter (i + length r.1)
                       (below ++ [mkIterStackItem t true (acc ++ r.2) parent])) = Some l ->
    post_drain (2 * sum_by tree_size cs + fuel)
      (mkPostOrderIter i
         (below ++ [mkIterStackItem t true acc parent]
          ++ rev (map (fun child => unprocessed child (Some (length below))) cs)))
    = Some (r.1 ++ l).
Proof.
  induction 1 as [|c cs Hc _ IH]; intros below t parent acc i fuel l r Hl.
  { subst r. simpl in *. by rewrite app_nil_r, Nat.add_0_r in Hl. }
  subst r. simpl in Hl |- *.
  destruct (post_children (map post_order_from cs) (i + length (post_order_from c i)))
    as [items idxs] eqn:E. simpl in *.
  set (rest := rev (map (fun child => unprocessed child (Some (length below))) cs)).
  set (cur := mkIterStackItem t true acc parent).
  change (below ++ cur :: (rest ++ [unprocessed c (Some (length below))]))
    with (below ++ ([cur] ++ rest) ++ [unprocessed c (Some (length below))]).
  rewrite (app_assoc below), sum_by_cons, <- (app_assoc (post_order_from c i)).
  replace (tree_size c + sum_by tree_size cs
           + (tree_size c + sum_by tree_size cs + 0) + fuel)
    with (2 * tree_size c + (2 * sum_by tree_size cs + fuel)) by lia.
  apply (Hc _ (Some (length below)) i).
  { intros p [= <-]. rewrite !length_app. simpl. lia. }
  unfold yield_to.
  replace (alter (push_child_index (i + length (post_order_from c i) - 1)) (length below)
             (below ++ [cur] ++ rest))
    with (below ++ [mkIterStackItem t true
            (acc ++ [i + length (post_order_from c i) - 1]) parent] ++ rest).
  2: { symmetry. rewrite alter_app_r_alt by lia. by rewrite Nat.sub_diag. }
  specialize (IH below t parent (acc ++ [i + length (post_order_from c i) - 1])
                (i + length (post_order_from c i)) fuel l).
  rewrite E in IH. simpl in IH. apply IH.
  rewrite length_app, Nat.add_assoc in Hl. by rewrite <- app_assoc.
Qed.

Lemma visit_all t : visit_ok t.
Proof.
  induction t as [t IH] using tree_ind. intros below parent i fuel l Hp n Hl.
  rewrite tree_size_eq.
  replace (2 * S (sum_by tree_size (children t)) + fuel)
    with (S (2 * sum_by tree_size (children t) + S fuel)) by lia.
  unfold post_drain. cbn [drain_some]. rewrite post_step_unprocessed.
  subst n. rewrite post_order_from_eq in Hl |- *.
  set (r := post_children (map post_order_from (children t)) i) in *.
  rewrite <- app_assoc. apply (post_drain_children _ IH). fold r.
  unfold post_drain. cbn [drain_some]. rewrite post_step_processed.
  rewrite length_app, Nat.add_assoc in Hl. simpl in Hl.
  replace (i + length r.1 + 1 - 1) with (i + length r.1) in Hl by lia.
  rewrite Nat.add_1_r in Hl. unfold post_drain in Hl. by rewrite Hl.
Qed.

(** The iterator yields the recursive post-order and stops. *)
Lemma post_order_drain t :
  post_drain (S (2 * tree_size t)) (post_order_iter t) = Some (post_order t).
Proof.
  pose proof (visit_all t [] None 0 1 []) as H. simpl in H.
  rewrite app_nil_r in H. rewrite <- Nat.add_1_r. apply H; [done|].
  unfold post_step. reflexivity.
Qed.

End Traversals.

(** * Right-to-left post-order *)

(** [Rtl<T>]: the tree with the children of every node reversed. *)
Record Rtl (T : Type) : Type := mkRtl { rtl_node : T }.
Arguments mkRtl {T} rtl_node.
Arguments rtl_node {T} _.

Section RightToLeft.
Context {T : Type} {TL : TreeLike T}.

#[export] Instance Rtl_TreeLike : TreeLike (Rtl T) := fun self =>
  match as_node (rtl_node self) with
  | Nullary => Nullary
  | Unary a => Unary (mkRtl a)
  | Binary a b => Binary (mkRtl b) (mkRtl a)
  | Ternary a b c => Ternary (mkRtl c) (mkRtl b) (mkRtl a)
  | Nary children => Nary (map mkRtl (rev children))
  end.

(** [RtlPostOrderIter] *)
Definition RtlPostOrderIter : Type := PostOrderIter (Rtl T).

Definition rtl_post_order_iter (self : T) : RtlPostOrderIter := post_order_iter (mkRtl self).

Definition rtl_item (item : PostOrderIterItem (Rtl T)) : PostOrderIterItem T :=
  mkPostOrderIterItem (rtl_node (item_node item)) (item_index item)
    (rev (item_child_indices item)).

Definition rtl_step (st : RtlPostOrderIter)
  : option (option (PostOrderIterItem T) * RtlPostOrderIter) :=
  match post_step st with
  | Some (item, st) => Some (option_map rtl_item item, st)
  | None => None
  end.

Lemma rtl_children t : children (mkRtl t) = map mkRtl (rev (children t)).
Proof. unfold children, as_node at 1, Rtl_TreeLike. simpl. by destruct (as_node t). Qed.

Context {WF : WfTree T}.

Lemma rtl_fold_eq {A} (f : Rtl T -> list A -> A) (t : Rtl T) :
  tree_fold (fun t ls => f (mkRtl t) (rev ls)) (rtl_node t)
  = f t (map (fun t => tree_fold (fun t ls => f (mkRtl t) (rev ls)) (rtl_node t)) (children t)).
Proof. destruct t as [t]. simpl. by rewrite tree_fold_eq, rtl_children, map_map, map_rev. Qed.

Lemma rtl_ind (P : Rtl T -> Prop) :
  (forall t, Forall P (children t) -> P t) -> forall t, P t.
Proof.
  intros H [t]. induction t as [t IH] using tree_ind. apply H. rewrite rtl_children.
  apply Forall_map, Forall_rev. exact IH.
Qed.

#[export] Instance Rtl_WfTree : WfTree (Rtl T) := {|
  tree_fold A f t := tree_fold (fun t ls => f (mkRtl t) (rev ls)) (rtl_node t);
  tree_fold_eq A f t := rtl_fold_eq f t;
  tree_ind := rtl_ind;
|}.

(** The nodes in right-to-left post-order. *)
Definition rtl_nodes : T -> list T := tree_fold (fun t ls => concat (rev ls) ++ [t]).

Lemma rtl_nodes_eq t : rtl_nodes t = flat_map rtl_nodes (rev (children t)) ++ [t].
Proof. unfold rtl_nodes at 1. by rewrite tree_fold_eq, flat_map_concat_map, map_rev. Qed.

Lemma post_children_nodes {U} {TLU : TreeLike U} {WFU : WfTree U} (cs : list U) i (g : U -> list T)
    (h : U -> T) :
  Forall (fun c => forall i, map (fun it => h (item_node it)) (post_order_from c i) = g c) cs ->
  map (fun it => h (item_node it)) (post_children (map post_order_from cs) i).1 = flat_map g cs.
Proof.
  intros H. revert i. induction H as [|c cs Hc _ IH]; intros i; [done|]. simpl.
  specialize (IH (i + length (post_order_from c i))).
  destruct (post_children _ _) as [items idxs]. simpl in *. by rewrite map_app, Hc, IH.
Qed.

Lemma rtl_post_order_nodes t i :
  map (fun it => rtl_node (item_node it)) (post_order_from (mkRtl t) i) = rtl_nodes t.
Proof.
  revert i. induction t as [t IH] using tree_ind. intros i.
  rewrite post_order_from_eq, rtl_nodes_eq, map_app. f_equal.
  rewrite (post_children_nodes _ _ (fun t => rtl_nodes (rtl_node t)) rtl_node).
  - rewrite rtl_children, !flat_map_concat_map, map_map. done.
  - rewrite rtl_children. apply Forall_map, Forall_rev. eapply Forall_impl; [|exact IH].
    intros c Hc j. apply Hc.
Qed.

Lemma rtl_drain_map fuel st :
  drain_some rtl_step fuel st
  = map rtl_item <$> drain_some post_step fuel st.
Proof.
  revert st. induction fuel as [|fuel IH]; intros st; [done|]. simpl. unfold rtl_step at 1.
  destruct (post_step st) as [[[item|] st']|]; simpl; [|apply IH|done].
  rewrite IH. by destruct (drain_some post_step fuel st').
Qed.

(** The iterator yields those nodes and stops. *)
Lemma rtl_drain t :
  exists items, drain_some rtl_step (S (2 * tree_size (mkRtl t))) (rtl_post_order_iter t) = Some items
    /\ map item_node items = rtl_nodes t.
Proof.
  rewrite rtl_drain_map. unfold rtl_post_order_iter.
  pose proof (post_order_drain (mkRtl t)) as H. unfold post_drain in H. rewrite H. simpl.
  eexists. split; [reflexivity|]. rewrite map_map. apply rtl_post_order_nodes.
Qed.
End RightToLeft.
Arguments RtlPostOrderIter : clear implicits.

(** * The verbose pre-order iterator of src/src/iter/tree.rs: it yields a node before its
    children and again after each of them. It refines a recursive traversal. *)

(** [PreOrderIterItem] *)
Record PreOrderIterItem (T : Type) : Type := mkVisit {
  v_node : T;
  v_parent : option T;
  v_index : nat;
  n_children_yielded : nat;
  is_complete : bool;
}.
Arguments mkVisit {T} v_node v_parent v_index n_children_yielded is_complete.
Arguments v_node {T} _.
Arguments v_parent {T} _.
Arguments v_index {T} _.
Arguments n_children_yielded {T} _.
Arguments is_complete {T} _.

(** The stack has its top at the head. *)
Record VerbosePreOrderIter (T : Type) : Type := mkVerbose {
  v_stack : list (PreOrderIterItem T);
  next_index : nat;
}.
Arguments mkVerbose {T} v_stack next_index.
Arguments v_stack {T} _.
Arguments next_index {T} _.

Section Verbose.
Context {T : Type} {TL : TreeLike T}.

Definition initial (node : T) (parent : option T) : PreOrderIterItem T :=
  mkVisit node parent 0 0 (n_children node =? 0).

Definition increment (self : PreOrderIterItem T) (n_children : nat) : PreOrderIterItem T :=
  mkVisit (v_node self) (v_parent self) (v_index self) (n_children_yielded self + 1)
    (n_children_yielded self + 1 =? n_children).

Definition verbose_pre_order_iter (self : T) : VerbosePreOrderIter T := mkVerbose [initial self None] 0.

(** [next]; the outer [None] is the panic of [unwrap]. *)
Definition verbose_next (self : VerbosePreOrderIter T)
  : option (option (PreOrderIterItem T * VerbosePreOrderIter T)) :=
  match v_stack self with
  | [] => Some None
  | top :: stack =>
      let '(top, index) :=
        if n_children_yielded top =? 0
        then (mkVisit (v_node top) (v_parent top) (next_index self) (n_children_yielded top) (is_complete top),
              next_index self + 1)
        else (top, next_index self) in
      let n := n_children (v_node top) in
      if n_children_yielded top <? n then
        child ← nth_child (v_node top) (n_children_yielded top);
        Some (Some (top, mkVerbose (initial child (Some (v_node top)) :: increment top n :: stack) index))
      else Some (Some (top, mkVerbose stack index))
  end.

(** All items. *)
Fixpoint verbose_drain (fuel : nat) (st : VerbosePreOrderIter T) : option (list (PreOrderIterItem T)) :=
  match fuel with
  | 0 => None
  | S fuel =>
      r ← verbose_next st;
      match r with
      | None => Some []
      | Some (item, st) => l ← verbose_drain fuel st; Some (item :: l)
      end
  end.

(** * The recursive traversal *)

Context {WF : WfTree T}.

(** What is yielded after the first visit of [t], whose children from number [k] on are
    visited by [fs]; [j] is the next index. *)
Fixpoint later_visits (t : T) (parent : option T) (i n k j : nat)
    (fs : list (option T -> nat -> list (PreOrderIterItem T) * nat)) : list (PreOrderIterItem T) * nat :=
  match fs with
  | [] => ([], j)
  | f :: fs =>
      let '(l, j) := f (Some t) j in
      let '(l', j) := later_visits t parent i n (k + 1) j fs in
      (l ++ mkVisit t parent i (k + 1) (k + 1 =? n) :: l', j)
  end.

Definition visits_from : T -> option T -> nat -> list (PreOrderIterItem T) * nat :=
  tree_fold (fun t fs parent i =>
    let '(l, j) := later_visits t parent i (length fs) 0 (i + 1) fs in
    (mkVisit t parent i 0 (length fs =? 0) :: l, j)).

Definition visits (t : T) : list (PreOrderIterItem T) := (visits_from t None 0).1.

Lemma visits_from_eq t parent i :
  visits_from t parent i
  = let '(l, j) := later_visits t parent i (length (children t)) 0 (i + 1) (map visits_from (children t)) in
    (mkVisit t parent i 0 (length (children t) =? 0) :: l, j).
Proof. unfold visits_from at 1. rewrite tree_fold_eq, length_map. reflexivity. Qed.

Definition drains (t : T) : Prop :=
  forall parent i stack fuel l,
    verbose_drain fuel (mkVerbose stack (visits_from t parent i).2) = Some l ->
    verbose_drain (length (visits_from t parent i).1 + fuel) (mkVerbose (initial t parent :: stack) i)
    = Some ((visits_from t parent i).1 ++ l).

(** The node is on the stack again after each of its children. *)
Lemma later_drain t parent i cs : forall k j stack fuel l,
  Forall drains cs -> (forall m, cs !! m = children t !! (k + m)) ->
  k + length cs = length (children t) -> cs <> [] ->
  let r := later_visits t parent i (length (children t)) k j (map visits_from cs) in
  verbose_drain fuel (mkVerbose stack r.2) = Some l ->
  verbose_drain (length r.1 + fuel)
    (match cs with
     | [] => mkVerbose stack j
     | c :: _ => mkVerbose (initial c (Some t) :: mkVisit t parent i (k + 1) (k + 1 =? length (children t)) :: stack) j
     end) = Some (r.1 ++ l).
Proof.
  induction cs as [|c cs IH]; intros k j stack fuel l Hd Hcs Hlen Hne; [done|].
  apply Forall_cons_1 in Hd as [Hc Hd]. cbn [map later_visits].
  destruct (visits_from c (Some t) j) as [lc j'] eqn:Ec.
  destruct (later_visits t parent i (length (children t)) (k + 1) j' (map visits_from cs)) as [l' j''] eqn:El.
  cbn [fst snd]. intros Hl. rewrite <- !app_assoc. cbn [app].
  specialize (Hc (Some t) j (mkVisit t parent i (k + 1) (k + 1 =? length (children t)) :: stack)
                (S (length l') + fuel) (mkVisit t parent i (k + 1) (k + 1 =? length (children t)) :: l' ++ l)).
  rewrite Ec in Hc. cbn [fst snd] in Hc. rewrite length_app. cbn [length]. rewrite <- Nat.add_assoc. apply Hc. clear Hc.
  cbn [Nat.add verbose_drain]. unfold verbose_next. cbn [v_stack n_children_yielded v_node next_index].
  replace (k + 1 =? 0) with false by (symmetry; apply Nat.eqb_neq; lia). cbn [n_children_yielded v_node].
  rewrite n_children_spec. cbn [length] in Hlen. specialize (IH (k + 1) j' stack fuel l Hd).
  destruct cs as [|c' cs].
  - cbn in El. injection El as <- <-. cbn [length app] in *.
    rewrite (proj2 (Nat.ltb_ge _ _)) by lia. cbn [mbind option_bind Nat.add]. by rewrite Hl.
  - rewrite (proj2 (Nat.ltb_lt _ _)) by (cbn [length] in Hlen; lia).
    rewrite nth_child_spec, <- (Nat.add_0_r (k + 1)), <- Nat.add_assoc, <- Hcs.
    change ((c :: c' :: cs) !! (1 + 0)) with (Some c'). cbn [mbind option_bind].
    rewrite El in IH. cbn [fst snd] in IH. unfold increment. cbn [v_node v_parent v_index n_children_yielded].
    rewrite ?Nat.add_0_r in *. rewrite IH; [done| | |done|done].
    + intros m. rewrite <- Nat.add_assoc, <- (Hcs (1 + m)). done.
    + cbn [length] in *. lia.
Qed.

Lemma drains_all t : drains t.
Proof.
  induction t as [t IH] using tree_ind. intros parent i stack fuel l. rewrite visits_from_eq.
  pose proof (later_drain t parent i (children t) 0 (i + 1) stack fuel l IH) as Hlater.
  destruct (later_visits t parent i (length (children t)) 0 (i + 1) (map visits_from (children t))) as [l' j] eqn:El.
  cbn [fst snd] in *. intros Hl. cbn [length Nat.add verbose_drain app]. unfold verbose_next, initial at 1.
  cbn [v_stack n_children_yielded v_node next_index]. cbn [Nat.eqb v_node v_parent n_children_yielded is_complete].
  rewrite n_children_spec, nth_child_spec. destruct (children t) as [|c cs].
  - cbn in El. injection El as <- <-. cbn [length Nat.ltb Nat.leb mbind option_bind Nat.add app]. by rewrite Hl.
  - change ((c :: cs) !! 0) with (Some c). cbn [length Nat.ltb Nat.leb mbind option_bind]. unfold increment.
    cbn [v_node v_parent v_index n_children_yielded]. cbn [length] in *. rewrite Hlater; done.
Qed.

(** The iterator returns, without panic, and yields the recursive traversal. *)
Lemma verbose_visits t : verbose_drain (S (length (visits t))) (verbose_pre_order_iter t) = Some (visits t).
Proof.
  pose proof (drains_all t None 0 [] 1 [] eq_refl) as H. rewrite app_nil_r, Nat.add_1_r in H. exact H.
Qed.
End Verbose.
