(* ===== verification/StackLoop.v ===== *)
(** Loops over the nodes of a tree in right-to-left post-order that keep a stack of the
    results for finished subtrees: the way the library computes on Miniscripts and
    policies without recursion. Such a loop refines the recursive function that
    computes a node from its children. *)
From S2P Require Import Prelude Tree.

(** [Vec::pop], on a stack with its top at the head, and [n] of them. *)
Definition pop {A} (stack : list A) : option (A * list A) :=
  match stack with
  | [] => None
  | a :: stack => Some (a, stack)
  end.

Fixpoint pop_n {A} (n : nat) (stack : list A) : option (list A * list A) :=
  match n with
  | 0 => Some ([], stack)
  | S n => '(a, stack) ← pop stack; '(l, stack) ← pop_n n stack; Some (a :: l, stack)
  end.

Lemma pop_n_app {A} (l l' : list A) : pop_n (length l) (l ++ l') = Some (l, l').
Proof. induction l as [|a l IH]; simpl; [done|]. by rewrite IH. Qed.

(** The translated children, the rightmost first, for the first error. *)
Fixpoint collect_rtl {F A} (l : list (result F A)) : result F (list A) :=
  match l with
  | [] => Ok []
  | r :: l => l ← collect_rtl l; a ← r; Ok (a :: l)
  end.

Lemma collect_rtl_Ok {F A} (l : list (result F A)) l' :
  collect_rtl l = Ok l' <-> l = map Ok l'.
Proof.
  revert l'. induction l as [|r l IH]; intros l'; simpl.
  - destruct l'; simpl; split; congruence.
  - split.
    + intros (x & Hx%IH & (a & -> & [= <-])%bind_Ok_inv)%bind_Ok_inv. by subst.
    + destruct l' as [|a l']; [done|]. intros [= -> Hl%IH]. by rewrite Hl.
Qed.

Section Loops.
Context {T : Type} {TL : TreeLike T} {WF : WfTree T}.

(** ** Loops that cannot fail *)

Section Total.
Context {A : Type} (step : T -> list A -> option (A * list A)).

Fixpoint stack_loop (nodes : list T) (stack : list A) : option (list A) :=
  match nodes with
  | [] => Some stack
  | t :: nodes => '(a, stack) ← step t stack; stack_loop nodes (a :: stack)
  end.

(** The value on top of the stack after the last node, the root. *)
Definition stack_root (t : T) : option A :=
  stack ← stack_loop (rtl_nodes t) []; '(a, _) ← pop stack; Some a.

(** A node takes exactly the results of its children off the stack. *)
Variable f : T -> list A -> A.
Variable good : T -> Prop.
Hypothesis good_children : forall t, good t -> Forall good (children t).
Hypothesis step_spec : forall t subs rest,
  good t -> length subs = length (children t) -> step t (subs ++ rest) = Some (f t subs, rest).

Lemma stack_loop_good t :
  good t -> forall nodes stack,
  stack_loop (rtl_nodes t ++ nodes) stack = stack_loop nodes (tree_fold f t :: stack).
Proof.
  induction t as [t IH] using tree_ind. intros Ht nodes stack.
  rewrite rtl_nodes_eq, <- app_assoc, tree_fold_eq.
  assert (forall cs, Forall good cs ->
    Forall (fun t => good t -> forall nodes stack,
      stack_loop (rtl_nodes t ++ nodes) stack = stack_loop nodes (tree_fold f t :: stack)) cs ->
    forall nodes, stack_loop (flat_map rtl_nodes (rev cs) ++ nodes) stack
      = stack_loop nodes (map (tree_fold f) cs ++ stack)) as Hcs.
  { clear -T. intros cs Hg H. revert Hg. induction H as [|c cs Hc _ IHc]; intros Hg nodes; [done|].
    apply Forall_cons_1 in Hg as [Hgc Hg].
    cbn [rev map]. rewrite flat_map_app. cbn [flat_map].
    rewrite app_nil_r, <- app_assoc, (IHc Hg), (Hc Hgc). done. }
  rewrite (Hcs _ (good_children t Ht) IH). cbn [app stack_loop].
  rewrite step_spec; [done | done | apply length_map].
Qed.

Lemma stack_root_good t : good t -> stack_root t = Some (tree_fold f t).
Proof.
  intros Ht. unfold stack_root. pose proof (stack_loop_good t Ht [] []) as H.
  rewrite app_nil_r in H. by rewrite H.
Qed.
End Total.

Lemma stack_root_eq {A} (step : T -> list A -> option (A * list A)) (f : T -> list A -> A) t :
  (forall t subs rest,
     length subs = length (children t) -> step t (subs ++ rest) = Some (f t subs, rest)) ->
  stack_root step t = Some (tree_fold f t).
Proof.
  intros H. apply (stack_root_good _ _ (fun _ => True)); [|by auto | done].
  intros t' _. apply list.Forall_true. done.
Qed.

(** ** Loops with an early return *)

Section Failing.
Context {E A : Type} (step : T -> list A -> option (result E A * list A)).

Fixpoint try_loop (nodes : list T) (stack : list A) : option (result E (list A)) :=
  match nodes with
  | [] => Some (Ok stack)
  | t :: nodes =>
      '(r, stack) ← step t stack;
      match r with
      | Err e => Some (Err e)
      | Ok a => try_loop nodes (a :: stack)
      end
  end.

Definition try_root (t : T) : option (result E A) :=
  r ← try_loop (rtl_nodes t) [];
  match r with
  | Err e => Some (Err e)
  | Ok stack => '(a, _) ← pop stack; Some (Ok a)
  end.

Variable f : T -> list A -> result E A.
Hypothesis step_spec : forall t subs rest,
  length subs = length (children t) -> step t (subs ++ rest) = Some (f t subs, rest).

(** The recursive function: the error of the rightmost failing child comes first. *)
Definition try_fold : T -> result E A :=
  tree_fold (fun t subs => subs ← collect_rtl subs; f t subs).

Lemma try_fold_eq t :
  try_fold t = (subs ← collect_rtl (map try_fold (children t)); f t subs).
Proof. unfold try_fold at 1. by rewrite tree_fold_eq. Qed.

Definition try_continue (t : T) : Prop :=
  forall nodes stack,
    try_loop (rtl_nodes t ++ nodes) stack
    = match try_fold t with
      | Ok a => try_loop nodes (a :: stack)
      | Err e => Some (Err e)
      end.

Lemma try_loop_children cs :
  Forall try_continue cs -> forall nodes stack,
    try_loop (flat_map rtl_nodes (rev cs) ++ nodes) stack
    = match collect_rtl (map try_fold cs) with
      | Ok subs => try_loop nodes (subs ++ stack)
      | Err e => Some (Err e)
      end.
Proof.
  induction 1 as [|c cs Hc _ IH]; intros nodes stack; [done|].
  cbn [rev map collect_rtl]. rewrite flat_map_app. cbn [flat_map].
  rewrite app_nil_r, <- app_assoc, IH.
  destruct (collect_rtl (map try_fold cs)) as [subs|e]; [|done].
  rewrite Hc. by destruct (try_fold c).
Qed.

Lemma try_loop_eq t : try_continue t.
Proof.
  induction t as [t IH] using tree_ind. intros nodes stack.
  rewrite rtl_nodes_eq, <- app_assoc, (try_loop_children _ IH), try_fold_eq.
  destruct (collect_rtl _) as [subs|e] eqn:Hs; [|done]. cbn [mbind result_bind app try_loop].
  rewrite step_spec; [by destruct (f t subs)|].
  apply collect_rtl_Ok, (f_equal length) in Hs. by rewrite !length_map in Hs.
Qed.

Lemma try_root_eq t : try_root t = Some (try_fold t).
Proof.
  unfold try_root. pose proof (try_loop_eq t [] []) as H. rewrite app_nil_r in H. rewrite H.
  by destruct (try_fold t).
Qed.

Lemma try_fold_inv t a :
  try_fold t = Ok a ->
  exists subs, map try_fold (children t) = map Ok subs /\ f t subs = Ok a.
Proof.
  rewrite try_fold_eq. intros (subs & Hs%collect_rtl_Ok & H)%bind_Ok_inv. by exists subs.
Qed.
End Failing.
End Loops.
