(* ===== verification/Ast.v ===== *)
(** The abstract syntax (src/src/miniscript/decode.rs, src/src/miniscript/mod.rs,
    src/src/iter/mod.rs, src/src/miniscript/iter.rs): the fragments [Terminal], the
    tree [Miniscript] of fragments annotated with types, the type checker of a
    fragment from the annotations of its children, and the iterators over nodes
    and keys. *)
From S2P Require Import Prelude Bitcoin Primitives Ord Correctness Malleability Types ExtData Tree.

Module Terminal.
(** [Terminal<Pk, Ctx>], over the type [M] of its children. *)
Inductive Terminal {B : Bitcoin} {K : MiniscriptKey} (M : Type) : Type :=
| True
| False
| PkK (pk : Pk)
| PkH (pk : Pk)
| RawPkH (h : hash160_Hash)
| After (t : AbsLockTime)
| Older (t : RelLockTime)
| Sha256 (h : Primitives.Sha256)
| Hash256 (h : Primitives.Hash256)
| Ripemd160 (h : Primitives.Ripemd160)
| Hash160 (h : Primitives.Hash160)
| TxTemplate (h : sha256_Hash)
| InscribePre (i : list Inscription) (sub : M)
| InscribePost (i : list Inscription) (sub : M)
| Alt (sub : M)
| Swap (sub : M)
| Check (sub : M)
| DupIf (sub : M)
| Verify (sub : M)
| NonZero (sub : M)
| ZeroNotEqual (sub : M)
| AndV (l r : M)
| AndB (l r : M)
| AndOr (a b c : M)
| OrB (l r : M)
| OrD (l r : M)
| OrC (l r : M)
| OrI (l r : M)
| Thresh (thresh : Threshold M)
| Multi (thresh : Threshold Pk)
| MultiA (thresh : Threshold Pk).
Arguments True {B K M}.
Arguments False {B K M}.
Arguments PkK {B K M} pk.
Arguments PkH {B K M} pk.
Arguments RawPkH {B K M} h.
Arguments After {B K M} t.
Arguments Older {B K M} t.
Arguments Sha256 {B K M} h.
Arguments Hash256 {B K M} h.
Arguments Ripemd160 {B K M} h.
Arguments Hash160 {B K M} h.
Arguments TxTemplate {B K M} h.
Arguments InscribePre {B K M} i sub.
Arguments InscribePost {B K M} i sub.
Arguments Alt {B K M} sub.
Arguments Swap {B K M} sub.
Arguments Check {B K M} sub.
Arguments DupIf {B K M} sub.
Arguments Verify {B K M} sub.
Arguments NonZero {B K M} sub.
Arguments ZeroNotEqual {B K M} sub.
Arguments AndV {B K M} l r.
Arguments AndB {B K M} l r.
Arguments AndOr {B K M} a b c.
Arguments OrB {B K M} l r.
Arguments OrD {B K M} l r.
Arguments OrC {B K M} l r.
Arguments OrI {B K M} l r.
Arguments Thresh {B K M} thresh.
Arguments Multi {B K M} thresh.
Arguments MultiA {B K M} thresh.
End Terminal.

Abbreviation Terminal := Terminal.Terminal.

(** The AST; the [PhantomData] of the context carries no data. *)
#[warnings="-register-all"]
Inductive Miniscript {B : Bitcoin} {K : MiniscriptKey} : Type :=
| mkMiniscript (node : Terminal Miniscript) (ty : MsType) (ext : ExtData).

Section Ast.
Context {B : Bitcoin} {K : MiniscriptKey}.

Definition node (ms : Miniscript) : Terminal Miniscript :=
  match ms with mkMiniscript node _ _ => node end.
Definition ty (ms : Miniscript) : MsType :=
  match ms with mkMiniscript _ ty _ => ty end.
Definition ext (ms : Miniscript) : ExtData :=
  match ms with mkMiniscript _ _ ext => ext end.

(** [TreeLike for &Terminal] and for [&Miniscript]. *)
Definition terminal_as_node {M} (t : Terminal M) : Tree M :=
  match t with
  | Terminal.PkK _ | Terminal.PkH _ | Terminal.RawPkH _ | Terminal.After _ | Terminal.Older _
  | Terminal.Sha256 _ | Terminal.Hash256 _ | Terminal.Ripemd160 _ | Terminal.Hash160 _
  | Terminal.TxTemplate _ | Terminal.True | Terminal.False | Terminal.Multi _
  | Terminal.MultiA _ => Nullary
  | Terminal.InscribePre _ sub | Terminal.InscribePost _ sub | Terminal.Alt sub
  | Terminal.Swap sub | Terminal.Check sub | Terminal.DupIf sub | Terminal.Verify sub
  | Terminal.NonZero sub | Terminal.ZeroNotEqual sub => Unary sub
  | Terminal.AndV l r | Terminal.AndB l r | Terminal.OrB l r | Terminal.OrD l r
  | Terminal.OrC l r | Terminal.OrI l r => Binary l r
  | Terminal.AndOr a b c => Ternary a b c
  | Terminal.Thresh thresh => Nary (Threshold.data thresh)
  end.

#[export] Instance Miniscript_TreeLike : TreeLike Miniscript :=
  fun ms => terminal_as_node (node ms).

(** The functorial action of [Terminal] on its children. *)
Definition terminal_children {M} (t : Terminal M) : list M :=
  match terminal_as_node t with
  | Nullary => []
  | Unary a => [a]
  | Binary a b => [a; b]
  | Ternary a b c => [a; b; c]
  | Nary children => children
  end.

Lemma children_node (ms : Miniscript) : children ms = terminal_children (node ms).
Proof. reflexivity. Qed.

Fixpoint miniscript_fold {A} (f : Miniscript -> list A -> A) (ms : Miniscript) : A :=
  f ms
    (match ms with
     | mkMiniscript node _ _ =>
         match node with
         | Terminal.InscribePre _ sub | Terminal.InscribePost _ sub | Terminal.Alt sub
         | Terminal.Swap sub | Terminal.Check sub | Terminal.DupIf sub | Terminal.Verify sub
         | Terminal.NonZero sub | Terminal.ZeroNotEqual sub => [miniscript_fold f sub]
         | Terminal.AndV l r | Terminal.AndB l r | Terminal.OrB l r | Terminal.OrD l r
         | Terminal.OrC l r | Terminal.OrI l r => [miniscript_fold f l; miniscript_fold f r]
         | Terminal.AndOr a b c =>
             [miniscript_fold f a; miniscript_fold f b; miniscript_fold f c]
         | Terminal.Thresh (Threshold.mkThreshold _ l) => map (miniscript_fold f) l
         | _ => []
         end
     end).

Lemma miniscript_fold_eq {A} (f : Miniscript -> list A -> A) ms :
  miniscript_fold f ms = f ms (map (miniscript_fold f) (children ms)).
Proof. destruct ms as [[] ? ?]; try reflexivity. by destruct thresh. Qed.

(** Induction over a Miniscript with the hypothesis for every child. *)
Lemma Miniscript_tree_ind (P : Miniscript -> Prop) :
  (forall ms, Forall P (children ms) -> P ms) -> forall ms, P ms.
Proof.
  intros H. fix IH 1. intros [node ty ext]. apply H.
  destruct node as [| | | | | | | | | | | | i s | i s | s | s | s | s | s | s | s
                   | l r | l r | a b c | l r | l r | l r | l r | [k l] | |];
    rewrite children_node; cbn [terminal_children terminal_as_node Ast.node
                                Threshold.data Threshold.inner].
  all: try exact (Forall_nil_2 _).
  all: try exact (Forall_cons_2 _ _ _ (IH _) (Forall_nil_2 _)).
  all: try exact (Forall_cons_2 _ _ _ (IH _) (Forall_cons_2 _ _ _ (IH _) (Forall_nil_2 _))).
  - exact (Forall_cons_2 _ _ _ (IH _) (Forall_cons_2 _ _ _ (IH _)
            (Forall_cons_2 _ _ _ (IH _) (Forall_nil_2 _)))).
  - exact ((fix go (l : list Miniscript) : Forall P l :=
              match l with
              | [] => Forall_nil_2 _
              | x :: l => Forall_cons_2 _ _ _ (IH x) (go l)
              end) l).
Qed.

#[export] Instance Miniscript_WfTree : WfTree Miniscript := {|
  tree_fold := @miniscript_fold;
  tree_fold_eq := @miniscript_fold_eq;
  tree_ind := Miniscript_tree_ind;
|}.

(** ** Type checking a fragment (src/src/miniscript/types) *)

(** [Type::type_check]; the error's rendering of the fragment is left out. *)
Definition type_check (fragment : Terminal Miniscript) : result ErrorKind MsType :=
  match fragment with
  | Terminal.True => Ok Types.TRUE
  | Terminal.False => Ok Types.FALSE
  | Terminal.PkK _ => Ok Types.pk_k
  | Terminal.PkH _ | Terminal.RawPkH _ => Ok Types.pk_h
  | Terminal.Multi _ => Ok Types.multi
  | Terminal.MultiA _ => Ok Types.multi_a
  | Terminal.After _ => Ok Types.time
  | Terminal.Older _ => Ok Types.time
  | Terminal.Sha256 _ => Ok Types.hash
  | Terminal.Hash256 _ => Ok Types.hash
  | Terminal.Ripemd160 _ => Ok Types.hash
  | Terminal.Hash160 _ => Ok Types.hash
  | Terminal.TxTemplate _ => Ok Types.tx_template
  | Terminal.InscribePre i sub | Terminal.InscribePost i sub =>
      if is_empty i || existsb (fun x => negb (validate x)) i then Err InvalidInscription
      else Ok (ty sub)
  | Terminal.Alt sub => Types.cast_alt (ty sub)
  | Terminal.Swap sub => Types.cast_swap (ty sub)
  | Terminal.Check sub => Types.cast_check (ty sub)
  | Terminal.DupIf sub => Types.cast_dupif (ty sub)
  | Terminal.Verify sub => Types.cast_verify (ty sub)
  | Terminal.NonZero sub => Types.cast_nonzero (ty sub)
  | Terminal.ZeroNotEqual sub => Types.cast_zeronotequal (ty sub)
  | Terminal.AndB l r => Types.and_b (ty l) (ty r)
  | Terminal.AndV l r => Types.and_v (ty l) (ty r)
  | Terminal.OrB l r => Types.or_b (ty l) (ty r)
  | Terminal.OrD l r => Types.or_d (ty l) (ty r)
  | Terminal.OrC l r => Types.or_c (ty l) (ty r)
  | Terminal.OrI l r => Types.or_i (ty l) (ty r)
  | Terminal.AndOr a b c => Types.and_or (ty a) (ty b) (ty c)
  | Terminal.Thresh thresh =>
      Types.threshold (Threshold.k thresh) (map ty (Threshold.data thresh))
  end.

(** [ExtData::type_check]; the first argument is [Ctx::sig_type()]. *)
Definition ext_type_check (sig_type : SigType) (fragment : Terminal Miniscript) : ExtData :=
  match fragment with
  | Terminal.True => Ext.TRUE
  | Terminal.False => Ext.FALSE
  | Terminal.PkK k => Ext.pk_k sig_type k
  | Terminal.PkH k => Ext.pk_h sig_type (Some k)
  | Terminal.RawPkH _ => Ext.pk_h sig_type None
  | Terminal.Multi thresh => Ext.multi thresh
  | Terminal.MultiA thresh => Ext.multi_a (Threshold.k thresh) (Threshold.n thresh)
  | Terminal.After t => Ext.after t
  | Terminal.Older t => Ext.older t
  | Terminal.Sha256 _ => Ext.sha256
  | Terminal.Hash256 _ => Ext.hash256
  | Terminal.Ripemd160 _ => Ext.ripemd160
  | Terminal.Hash160 _ => Ext.hash160
  | Terminal.TxTemplate _ => Ext.tx_template
  | Terminal.InscribePre i sub => Ext.inscribing (ext sub) i false
  | Terminal.InscribePost i sub => Ext.inscribing (ext sub) i true
  | Terminal.Alt sub => Ext.cast_alt (ext sub)
  | Terminal.Swap sub => Ext.cast_swap (ext sub)
  | Terminal.Check sub => Ext.cast_check (ext sub)
  | Terminal.DupIf sub => Ext.cast_dupif (ext sub)
  | Terminal.Verify sub => Ext.cast_verify (ext sub)
  | Terminal.NonZero sub => Ext.cast_nonzero (ext sub)
  | Terminal.ZeroNotEqual sub => Ext.cast_zeronotequal (ext sub)
  | Terminal.AndB l r => Ext.and_b (ext l) (ext r)
  | Terminal.AndV l r => Ext.and_v (ext l) (ext r)
  | Terminal.OrB l r => Ext.or_b (ext l) (ext r)
  | Terminal.OrD l r => Ext.or_d (ext l) (ext r)
  | Terminal.OrC l r => Ext.or_c (ext l) (ext r)
  | Terminal.OrI l r => Ext.or_i (ext l) (ext r)
  | Terminal.AndOr a b c => Ext.and_or (ext a) (ext b) (ext c)
  | Terminal.Thresh thresh =>
      Ext.threshold (Threshold.k thresh) (map ext (Threshold.data thresh))
  end.

(** ** Iteration over nodes and keys (src/src/miniscript/iter.rs) *)

Definition branches (ms : Miniscript) : list Miniscript :=
  match node ms with
  | Terminal.PkK _ | Terminal.PkH _ | Terminal.RawPkH _ | Terminal.Multi _ => []
  | Terminal.InscribePre _ node | Terminal.InscribePost _ node | Terminal.Alt node
  | Terminal.Swap node | Terminal.Check node | Terminal.DupIf node | Terminal.Verify node
  | Terminal.NonZero node | Terminal.ZeroNotEqual node => [node]
  | Terminal.AndV node1 node2 | Terminal.AndB node1 node2 | Terminal.OrB node1 node2
  | Terminal.OrD node1 node2 | Terminal.OrC node1 node2 | Terminal.OrI node1 node2 =>
      [node1; node2]
  | Terminal.AndOr node1 node2 node3 => [node1; node2; node3]
  | Terminal.Thresh thresh => Threshold.data thresh
  | _ => []
  end.

Definition get_nth_child (ms : Miniscript) (n : nat) : option Miniscript :=
  match n, node ms with
  | 0, (Terminal.InscribePre _ node | Terminal.InscribePost _ node | Terminal.Alt node
       | Terminal.Swap node | Terminal.Check node | Terminal.DupIf node | Terminal.Verify node
       | Terminal.NonZero node | Terminal.ZeroNotEqual node
       | Terminal.AndV node _ | Terminal.AndB node _ | Terminal.OrB node _
       | Terminal.OrD node _ | Terminal.OrC node _ | Terminal.OrI node _) => Some node
  | 1, (Terminal.AndV _ node | Terminal.AndB _ node | Terminal.OrB _ node
       | Terminal.OrD _ node | Terminal.OrC _ node | Terminal.OrI _ node) => Some node
  | 0, Terminal.AndOr node _ _ => Some node
  | 1, Terminal.AndOr _ node _ => Some node
  | 2, Terminal.AndOr _ _ node => Some node
  | n, Terminal.Thresh thresh => Threshold.data thresh !! n
  | _, _ => None
  end.

Definition get_nth_pk (ms : Miniscript) (n : nat) : option Pk :=
  match node ms, n with
  | Terminal.PkK key, 0 | Terminal.PkH key, 0 => Some key
  | Terminal.Multi thresh, _ => Threshold.data thresh !! n
  | Terminal.MultiA thresh, _ => Threshold.data thresh !! n
  | _, _ => None
  end.

(** [Iter]: the next node, and the path of ancestors with the index of the next
    branch to take, the deepest ancestor first. *)
Record Iter : Type := mkIter {
  iter_next : option Miniscript;
  iter_path : list (Miniscript * nat);
}.

Definition iter (ms : Miniscript) : Iter := mkIter (Some ms) [].

(** The [while let] loop that looks for the deepest ancestor with a branch left. *)
Fixpoint iter_unwind (path : list (Miniscript * nat))
  : option Miniscript * list (Miniscript * nat) :=
  match path with
  | [] => (None, [])
  | (node, child) :: path =>
      match get_nth_child node child with
      | Some curr => (Some curr, (node, child + 1) :: path)
      | None => iter_unwind path
      end
  end.

Definition iter_step (it : Iter) : option (Miniscript * Iter) :=
  let '(curr, path) :=
    match iter_next it with
    | Some node => (Some node, iter_path it)
    | None => iter_unwind (iter_path it)
    end in
  match curr with
  | Some node => Some (node, mkIter (get_nth_child node 0) ((node, 1) :: path))
  | None => None
  end.

(** [PkIter] *)
Record PkIter : Type := mkPkIter {
  pk_node_iter : Iter;
  pk_curr_node : option Miniscript;
  pk_key_index : nat;
}.

Definition iter_pk (ms : Miniscript) : PkIter :=
  match iter_step (iter ms) with
  | Some (node, it) => mkPkIter it (Some node) 0
  | None => mkPkIter (iter ms) None 0
  end.

(** One turn of the loop of [PkIter::next]; [None] in the first component means
    that it continues with the next node. *)
Definition pk_iter_turn (it : PkIter) : option (option Pk * PkIter) :=
  match pk_curr_node it with
  | None => None
  | Some node =>
      match get_nth_pk node (pk_key_index it) with
      | None =>
          match iter_step (pk_node_iter it) with
          | Some (node', it') => Some (None, mkPkIter it' (Some node') 0)
          | None => Some (None, mkPkIter (pk_node_iter it) None 0)
          end
      | Some pk => Some (Some pk, mkPkIter (pk_node_iter it) (Some node) (pk_key_index it + 1))
      end
  end.

(** The keys of one node. *)
Definition node_keys (ms : Miniscript) : list Pk :=
  match node ms with
  | Terminal.PkK key | Terminal.PkH key => [key]
  | Terminal.Multi thresh | Terminal.MultiA thresh => Threshold.data thresh
  | _ => []
  end.

(** [ForEachKey::for_each_key] for a predicate without state. *)
Definition for_each_key (pred : Pk -> bool) (ms : Miniscript) : bool :=
  forallb (fun ms =>
    match node ms with
    | Terminal.PkK p => pred p
    | Terminal.PkH p => pred p
    | Terminal.Multi thresh => forallb pred (Threshold.data thresh)
    | Terminal.MultiA thresh => forallb pred (Threshold.data thresh)
    | _ => true
    end) (pre_order ms).

(** ** The traversals agree *)

Lemma branches_children ms : branches ms = children ms.
Proof. by destruct ms as [[] ? ?]. Qed.

Lemma get_nth_child_spec ms n : get_nth_child ms n = children ms !! n.
Proof.
  destruct ms as [[] ? ?]; destruct n as [|[|[|n]]]; reflexivity.
Qed.

Lemma get_nth_pk_spec ms n : get_nth_pk ms n = node_keys ms !! n.
Proof. destruct ms as [[] ? ?]; destruct n; reflexivity. Qed.

Lemma iter_step_path t j path :
  iter_step (mkIter None ((t, j) :: path))
  = match children t !! j with
    | Some c => iter_step (mkIter (Some c) ((t, S j) :: path))
    | None => iter_step (mkIter None path)
    end.
Proof.
  unfold iter_step. simpl. rewrite get_nth_child_spec, Nat.add_1_r.
  by destruct (children t !! j).
Qed.

Definition iter_visit (t : Miniscript) : Prop :=
  forall path fuel l,
    drain iter_step fuel (mkIter None path) = Some l ->
    drain iter_step (tree_size t + fuel) (mkIter (Some t) path) = Some (pre_order t ++ l).

Lemma iter_visit_children t pre cs :
  children t = pre ++ cs -> Forall iter_visit cs ->
  forall path fuel l,
    drain iter_step fuel (mkIter None path) = Some l ->
    drain iter_step (sum_by tree_size cs + fuel) (mkIter None ((t, length pre) :: path))
    = Some (flat_map pre_order cs ++ l).
Proof.
  intros Ht H. revert pre Ht. induction H as [|c cs Hc _ IH]; intros pre Ht path fuel l Hl.
  - cbn [flat_map app]. rewrite <- Hl. apply drain_step_eq. rewrite iter_step_path, Ht, app_nil_r.
    by rewrite lookup_ge_None_2 by lia.
  - rewrite sum_by_cons, <- Nat.add_assoc. cbn [flat_map]. rewrite <- app_assoc.
    rewrite (drain_step_eq iter_step _ _ (mkIter (Some c) ((t, S (length pre)) :: path))).
    2: { rewrite iter_step_path, Ht. by rewrite list_lookup_middle. }
    apply Hc. specialize (IH (pre ++ [c])). rewrite length_app, Nat.add_1_r in IH.
    apply IH; [by rewrite <- app_assoc | done].
Qed.

Lemma iter_visit_all t : iter_visit t.
Proof.
  induction t as [t IH] using tree_ind. intros path fuel l Hl.
  rewrite tree_size_eq, pre_order_eq. cbn [Nat.add drain app].
  change (iter_step (mkIter (Some t) path))
    with (Some (t, mkIter (get_nth_child t 0) ((t, 1) :: path))).
  cbn iota beta. rewrite (drain_step_eq iter_step _ _ (mkIter None ((t, 0) :: path))).
  - pose proof (iter_visit_children t [] (children t) eq_refl IH _ _ _ Hl) as H.
    simpl in H. by rewrite H.
  - rewrite iter_step_path, get_nth_child_spec.
    destruct (children t !! 0) eqn:E; [done|].
    rewrite iter_step_path. apply lookup_ge_None in E.
    by rewrite lookup_ge_None_2 by lia.
Qed.

(** The node iterator yields the pre-order of the tree, like [pre_order_iter]. *)
Lemma iter_drain t : drain iter_step (S (tree_size t)) (iter t) = Some (pre_order t).
Proof.
  pose proof (iter_visit_all t [] 1 [] eq_refl) as H.
  rewrite app_nil_r, Nat.add_1_r in H. exact H.
Qed.

(** The key iterator yields the keys of the nodes in that order. *)
Lemma pk_iter_keys ks nd it j fuel l :
  drop j (node_keys nd) = ks ->
  drain_some pk_iter_turn fuel (mkPkIter it (Some nd) (j + length ks)) = Some l ->
  drain_some pk_iter_turn (length ks + fuel) (mkPkIter it (Some nd) j) = Some (ks ++ l).
Proof.
  revert j. induction ks as [|k ks IH]; intros j Hd Hl.
  { by rewrite Nat.add_0_r in Hl. }
  cbn [length Nat.add drain_some app].
  assert (node_keys nd !! j = Some k) as Hj.
  { by rewrite <- (Nat.add_0_r j), <- lookup_drop, Hd. }
  assert (pk_iter_turn (mkPkIter it (Some nd) j) = Some (Some k, mkPkIter it (Some nd) (S j)))
    as ->.
  { unfold pk_iter_turn. simpl. by rewrite get_nth_pk_spec, Hj, Nat.add_1_r. }
  rewrite IH; [done | |].
  - by rewrite <- Nat.add_1_r, <- drop_drop, Hd.
  - by rewrite Nat.add_succ_comm.
Qed.

Lemma pk_iter_nodes fuel it l nd :
  drain iter_step fuel it = Some l ->
  exists fuel', drain_some pk_iter_turn fuel' (mkPkIter it (Some nd) 0)
                = Some (flat_map node_keys (nd :: l)).
Proof.
  revert it l nd. induction fuel as [|fuel IH]; intros it l nd H; [done|]. simpl in H.
  assert (forall it, pk_iter_turn (mkPkIter it (Some nd) (length (node_keys nd)))
            = match iter_step it with
              | Some (node', it') => Some (None, mkPkIter it' (Some node') 0)
              | None => Some (None, mkPkIter it None 0)
              end) as Hend.
  { intros it'. unfold pk_iter_turn. simpl. rewrite get_nth_pk_spec.
    by rewrite lookup_ge_None_2 by lia. }
  destruct (iter_step it) as [[nd' it']|] eqn:E.
  - destruct (drain iter_step fuel it') as [l'|] eqn:E'; [|done]. injection H as <-.
    destruct (IH _ _ nd' E') as [fuel' Hf].
    exists (length (node_keys nd) + S fuel'). cbn [flat_map].
    apply (pk_iter_keys (node_keys nd)); [done|].
    cbn [drain_some Nat.add]. by rewrite Hend, E.
  - injection H as <-. exists (length (node_keys nd) + 2). cbn [flat_map].
    apply (pk_iter_keys (node_keys nd)); [done|].
    cbn [drain_some Nat.add]. by rewrite Hend, E.
Qed.

Lemma iter_pk_drain t :
  exists fuel, drain_some pk_iter_turn fuel (iter_pk t)
               = Some (flat_map node_keys (pre_order t)).
Proof.
  pose proof (iter_drain t) as H. rewrite pre_order_eq in H |- *. cbn [drain] in H.
  change (iter_step (iter t)) with (Some (t, mkIter (get_nth_child t 0) [(t, 1)])) in H.
  cbn iota beta in H.
  destruct (drain iter_step (tree_size t) (mkIter (get_nth_child t 0) [(t, 1)]))
    as [l|] eqn:E; [|done].
  injection H as Hl. rewrite Hl in E.
  exact (pk_iter_nodes _ _ _ t E).
Qed.

(** [for_each_key] visits the same keys. *)
Lemma for_each_key_spec pred t :
  for_each_key pred t = forallb pred (flat_map node_keys (pre_order t)).
Proof.
  unfold for_each_key. generalize (pre_order t). intros l.
  induction l as [|ms l IH]; [done|]. simpl. rewrite forallb_app, <- IH.
  apply (f_equal2 andb); [|reflexivity].
  destruct ms as [[] ? ?]; cbn; rewrite ?andb_true_r; reflexivity.
Qed.

End Ast.
