(* ===== verification/Context.v ===== *)
(** Script contexts (src/src/miniscript/context.rs, src/src/miniscript/limits.rs),
    the checked constructor [from_ast] (src/src/miniscript/mod.rs) and the sanity
    analysis (src/src/miniscript/analyzable.rs). *)
From S2P Require Import Prelude Bitcoin Primitives Ord Correctness Malleability Types ExtData Tree Ast.

(** * Limits *)

Definition MAX_OPS_PER_SCRIPT : nat := 201.
Definition MAX_STANDARD_P2WSH_STACK_ITEMS : nat := 100.
Definition MAX_SCRIPT_SIZE : N := 10000.
Definition MAX_STANDARD_P2WSH_SCRIPT_SIZE : nat := 3600.
Definition LIMIT_SCRIPT_ELEMENT_SIZE : nat := 520.
Definition MAX_SCRIPTSIG_SIZE : nat := 1650.
Definition MAX_STACK_SIZE : nat := 1000.
Definition MAX_BLOCK_WEIGHT : N := 4000000.
Definition MAX_PUBKEYS_PER_MULTISIG : nat := 20.
Definition MAX_PUBKEYS_IN_CHECKSIGADD : nat := 999.
Definition MAX_RECURSION_DEPTH : nat := 402.

(** * Contexts *)

(** The implementors of the sealed trait [ScriptContext]. *)
Inductive ScriptContext : Type := Legacy | Segwitv0 | Tap | BareCtx | NoChecks.

#[export] Instance ScriptContext_eq_dec : EqDecision ScriptContext.
Proof. solve_decision. Defined.

(** The rendered keys and context names of some errors are left out. *)
Inductive ScriptContextError : Type :=
| MalleableOrI
| MalleableDupIf
| CompressedOnly
| XOnlyKeysNotAllowed
| UncompressedKeysNotAllowed
| MaxWitnessItemsExceeded (actual limit : nat)
| MaxOpCountExceeded (actual limit : nat)
| MaxWitnessScriptSizeExceeded (max got : N)
| MaxRedeemScriptSizeExceeded (max got : N)
| MaxBareScriptSizeExceeded (max got : N)
| MaxScriptSigSizeExceeded (actual limit : nat)
| CtxImpossibleSatisfaction
| TaprootMultiDisabled
| StackSizeLimitExceeded (actual limit : nat)
| MultiANotAllowed.

(** The variants of [crate::Error] that the modelled functions return. *)
Inductive Error : Type :=
| ContextError (e : ScriptContextError)
| TypeCheck (e : ErrorKind)
| MaxRecursiveDepthExceeded
| NonTopLevel
| MultipathDescLenMismatch
| NonStandardBareScript
| ImpossibleSatisfaction
| CouldNotSatisfy.

Definition sig_type (ctx : ScriptContext) : SigType :=
  match ctx with Tap => Schnorr | _ => Ecdsa end.

(** Splits a hypothesis on the children of a node into one per child. *)
Ltac forall_children H :=
  cbn [terminal_children terminal_as_node Threshold.data] in H;
  repeat lazymatch type of H with
  | Forall _ (_ :: _) => let H' := fresh "Hc" in apply Forall_cons_1 in H as [H' H]
  end.

Section Context.
Context {B : Bitcoin} {K : MiniscriptKey}.

(** [Ctx::pk_len], which panics for [NoChecks]. *)
Definition pk_len (ctx : ScriptContext) (pk : Pk) : option nat :=
  match ctx with
  | Legacy | BareCtx => Some (if is_uncompressed pk then 66 else 34)
  | Segwitv0 => Some 34
  | Tap => Some 33
  | NoChecks => None
  end.

Definition check_terminal_non_malleable (ctx : ScriptContext) (frag : Terminal Miniscript)
  : result ScriptContextError () :=
  match ctx, frag with
  | Legacy, Terminal.OrI _ _ => Err MalleableOrI
  | Legacy, Terminal.DupIf _ => Err MalleableDupIf
  | _, _ => Ok tt
  end.

Definition check_pk (ctx : ScriptContext) (pk : Pk) : result ScriptContextError () :=
  match ctx with
  | Legacy | BareCtx => if is_x_only_key pk then Err XOnlyKeysNotAllowed else Ok tt
  | Segwitv0 =>
      if is_uncompressed pk then Err UncompressedKeysNotAllowed
      else if is_x_only_key pk then Err XOnlyKeysNotAllowed
      else Ok tt
  | Tap => if is_uncompressed pk then Err UncompressedKeysNotAllowed else Ok tt
  | NoChecks => Ok tt
  end.

(** The loop [for pk in thresh.iter() { Self::check_pk(pk)?; }]. *)
Fixpoint check_pks (ctx : ScriptContext) (pks : list Pk) : result ScriptContextError () :=
  match pks with
  | [] => Ok tt
  | pk :: pks => _ ← check_pk ctx pk; check_pks ctx pks
  end.

(** The match on the node that opens [check_global_consensus_validity]. *)
Definition node_checked (ctx : ScriptContext) (node : Terminal Miniscript)
  : result ScriptContextError () :=
  match ctx, node with
  | NoChecks, _ => Ok tt
  | _, Terminal.PkK pk => check_pk ctx pk
  | Tap, Terminal.MultiA thresh => check_pks ctx (Threshold.data thresh)
  | Tap, Terminal.Multi _ => Err TaprootMultiDisabled
  | _, Terminal.Multi thresh => check_pks ctx (Threshold.data thresh)
  | _, Terminal.MultiA _ => Err MultiANotAllowed
  | _, _ => Ok tt
  end.

Definition check_global_consensus_validity (ctx : ScriptContext) (ms : Miniscript)
  : result ScriptContextError () :=
  _ ← node_checked ctx (node ms);
  let cost := pk_cost (ext ms) in
  match ctx with
  | Legacy =>
      if LIMIT_SCRIPT_ELEMENT_SIZE <? cost then
        Err (MaxRedeemScriptSizeExceeded (N.of_nat LIMIT_SCRIPT_ELEMENT_SIZE) (N.of_nat cost))
      else Ok tt
  | Segwitv0 =>
      if (MAX_SCRIPT_SIZE <? N.of_nat cost)%N then
        Err (MaxWitnessScriptSizeExceeded MAX_SCRIPT_SIZE (N.of_nat cost))
      else Ok tt
  | Tap =>
      if (MAX_BLOCK_WEIGHT <? N.of_nat cost)%N then
        Err (MaxWitnessScriptSizeExceeded MAX_BLOCK_WEIGHT (N.of_nat cost))
      else Ok tt
  | BareCtx =>
      if (MAX_SCRIPT_SIZE <? N.of_nat cost)%N then
        Err (MaxBareScriptSizeExceeded MAX_SCRIPT_SIZE (N.of_nat cost))
      else Ok tt
  | NoChecks => Ok tt
  end.

Definition check_global_policy_validity (ctx : ScriptContext) (ms : Miniscript)
  : result ScriptContextError () :=
  match ctx with
  | Segwitv0 =>
      if MAX_STANDARD_P2WSH_SCRIPT_SIZE <? pk_cost (ext ms) then
        Err (MaxWitnessScriptSizeExceeded (N.of_nat MAX_STANDARD_P2WSH_SCRIPT_SIZE)
               (N.of_nat (pk_cost (ext ms))))
      else Ok tt
  | _ => Ok tt
  end.

(** [max_satisfaction_size], which panics for [NoChecks] (outer [None]). *)
Definition max_satisfaction_size (ctx : ScriptContext) (ms : Miniscript) : option (option nat) :=
  match ctx with
  | Legacy | BareCtx => Some (max_script_sig_size <$> sat_data (ext ms))
  | Segwitv0 | Tap => Some (max_witness_stack_size <$> sat_data (ext ms))
  | NoChecks => None
  end.

(** [Miniscript::max_satisfaction_witness_elements] *)
Definition max_satisfaction_witness_elements (ms : Miniscript) : result Error nat :=
  ok_or ((fun data => max_witness_stack_count data + 1) <$> sat_data (ext ms))
    ImpossibleSatisfaction.

Definition check_local_consensus_validity (ctx : ScriptContext) (ms : Miniscript)
  : result ScriptContextError () :=
  match ctx with
  | Legacy | Segwitv0 | BareCtx =>
      match Ext.sat_op_count (ext ms) with
      | None => Err CtxImpossibleSatisfaction
      | Some op_count =>
          if MAX_OPS_PER_SCRIPT <? op_count then
            Err (MaxOpCountExceeded op_count MAX_OPS_PER_SCRIPT)
          else Ok tt
      end
  | Tap =>
      match sat_data (ext ms) with
      | Some data =>
          if MAX_STACK_SIZE <? max_witness_stack_count data + max_exec_stack_count data then
            Err (StackSizeLimitExceeded
                   (max_witness_stack_count data + max_exec_stack_count data) MAX_STACK_SIZE)
          else Ok tt
      | None => Ok tt
      end
  | NoChecks => Ok tt
  end.

Definition check_local_policy_validity (ctx : ScriptContext) (ms : Miniscript)
  : result ScriptContextError () :=
  match ctx with
  | Legacy =>
      match max_script_sig_size <$> sat_data (ext ms) with
      | None => Err CtxImpossibleSatisfaction
      | Some size =>
          if MAX_SCRIPTSIG_SIZE <? size then
            Err (MaxScriptSigSizeExceeded size MAX_SCRIPTSIG_SIZE)
          else Ok tt
      end
  | Segwitv0 =>
      match max_satisfaction_witness_elements ms with
      | Err _ => Err CtxImpossibleSatisfaction
      | Ok max_witness_items =>
          if MAX_STANDARD_P2WSH_STACK_ITEMS <? max_witness_items then
            Err (MaxWitnessItemsExceeded max_witness_items MAX_STANDARD_P2WSH_STACK_ITEMS)
          else Ok tt
      end
  | Tap | BareCtx | NoChecks => Ok tt
  end.

Definition check_global_validity (ctx : ScriptContext) (ms : Miniscript)
  : result ScriptContextError () :=
  _ ← check_global_consensus_validity ctx ms;
  check_global_policy_validity ctx ms.

Definition check_local_validity (ctx : ScriptContext) (ms : Miniscript)
  : result ScriptContextError () :=
  _ ← check_global_consensus_validity ctx ms;
  _ ← check_global_policy_validity ctx ms;
  _ ← check_local_consensus_validity ctx ms;
  check_local_policy_validity ctx ms.

(** ** Top-level checks *)

Inductive MultipathLenChecker : Type :=
| SinglePath
| MultipathLen (len : nat)
| LenMismatch.

Definition multipath_step (checker : MultipathLenChecker) (key : Pk) : MultipathLenChecker :=
  match num_der_paths key with
  | 0 | 1 => checker
  | n =>
      match checker with
      | SinglePath => MultipathLen n
      | MultipathLen len => if negb (len =? n) then LenMismatch else checker
      | LenMismatch => checker
      end
  end.

(** The keys in the order in which [for_each_key] and [iter_pk] visit them. *)
Definition keys (ms : Miniscript) : list Pk := flat_map node_keys (pre_order ms).

Definition top_level_type_check (ctx : ScriptContext) (ms : Miniscript) : result Error () :=
  if negb (bool_decide (c_base (corr (ty ms)) = BaseB)) then Err NonTopLevel
  else match ctx with
       | NoChecks => Ok tt
       | _ =>
           match fold_left multipath_step (keys ms) SinglePath with
           | LenMismatch => Err MultipathDescLenMismatch
           | _ => Ok tt
           end
       end.

Definition other_top_level_checks (ctx : ScriptContext) (ms : Miniscript) : result Error () :=
  match ctx with
  | BareCtx =>
      match node ms with
      | Terminal.Check ms =>
          match node ms with
          | Terminal.RawPkH _ => Ok tt
          | Terminal.PkK _ | Terminal.PkH _ => Ok tt
          | _ => Err NonStandardBareScript
          end
      | Terminal.Multi thresh =>
          if Threshold.n thresh <=? 3 then Ok tt else Err NonStandardBareScript
      | _ => Err NonStandardBareScript
      end
  | _ => Ok tt
  end.

Definition top_level_checks (ctx : ScriptContext) (ms : Miniscript) : result Error () :=
  _ ← top_level_type_check ctx ms;
  other_top_level_checks ctx ms.

(** ** The checked constructor *)

Definition from_ast (ctx : ScriptContext) (t : Terminal Miniscript) : result Error Miniscript :=
  ty ← map_err TypeCheck (type_check t);
  let res := mkMiniscript t ty (ext_type_check (sig_type ctx) t) in
  if MAX_RECURSION_DEPTH <? tree_height (ext res) then Err MaxRecursiveDepthExceeded
  else
    _ ← map_err ContextError (check_global_validity ctx res);
    Ok res.

(** What the types of the data guarantee: thresholds and lock times are built
    by their checked constructors. *)
Definition node_valid {M} (node : Terminal M) : Prop :=
  match node with
  | Terminal.Thresh thresh => Threshold.valid 0 thresh
  | Terminal.Multi thresh => Threshold.valid MAX_PUBKEYS_PER_MULTISIG thresh
  | Terminal.MultiA thresh => Threshold.valid MAX_PUBKEYS_IN_CHECKSIGADD thresh
  | Terminal.After t => abs_valid t
  | Terminal.Older t => rel_valid t
  | _ => True
  end.

(** Well-typed Miniscripts: the annotations are those the checker computes. *)
#[warnings="-register-all"]
Inductive wf (ctx : ScriptContext) : Miniscript -> Prop :=
| wf_intro node ty ext :
    Forall (wf ctx) (terminal_children node) ->
    node_valid node ->
    type_check node = Ok ty ->
    ext = ext_type_check (sig_type ctx) node ->
    wf ctx (mkMiniscript node ty ext).

(** ** Analysis *)

Record ExtParams : Type := mkExtParams {
  top_unsafe : bool;
  resource_limitations : bool;
  timelock_mixing : bool;
  malleability : bool;
  repeated_pk : bool;
  raw_pkh : bool;
}.

Definition sane : ExtParams := mkExtParams false false false false false false.
Definition insane : ExtParams := mkExtParams true true true true true false.
Definition allow_all : ExtParams := mkExtParams true true true true true true.

Inductive AnalysisError : Type :=
| SiglessBranch
| RepeatedPubkeys
| BranchExceedResouceLimits
| HeightTimelockCombination
| Malleable
| ContainsRawPkh.

Definition requires_sig (ms : Miniscript) : bool := m_safe (mall (ty ms)).
Definition is_non_malleable (ms : Miniscript) : bool := m_non_malleable (mall (ty ms)).
Definition within_resource_limits (ctx : ScriptContext) (ms : Miniscript) : bool :=
  is_ok (check_local_validity ctx ms).
Definition has_mixed_timelocks (ms : Miniscript) : bool :=
  Timelock.contains_unspendable_path (timelock_info (ext ms)).
Definition has_repeated_keys (ms : Miniscript) : bool :=
  negb (length (remove_dups (keys ms)) =? length (keys ms)).
Definition contains_raw_pkh (ms : Miniscript) : bool :=
  existsb (fun ms => match node ms with Terminal.RawPkH _ => true | _ => false end)
    (pre_order ms).

Definition sanity_check (ctx : ScriptContext) (ms : Miniscript) : result AnalysisError () :=
  if negb (requires_sig ms) then Err SiglessBranch
  else if negb (is_non_malleable ms) then Err Malleable
  else if negb (within_resource_limits ctx ms) then Err BranchExceedResouceLimits
  else if has_repeated_keys ms then Err RepeatedPubkeys
  else if has_mixed_timelocks ms then Err HeightTimelockCombination
  else Ok tt.

Definition ext_check (ctx : ScriptContext) (ms : Miniscript) (ext : ExtParams)
  : result AnalysisError () :=
  if negb (top_unsafe ext) && negb (requires_sig ms) then Err SiglessBranch
  else if negb (malleability ext) && negb (is_non_malleable ms) then Err Malleable
  else if negb (resource_limitations ext) && negb (within_resource_limits ctx ms) then
    Err BranchExceedResouceLimits
  else if negb (repeated_pk ext) && has_repeated_keys ms then Err RepeatedPubkeys
  else if negb (timelock_mixing ext) && has_mixed_timelocks ms then
    Err HeightTimelockCombination
  else if negb (raw_pkh ext) && contains_raw_pkh ms then Err ContainsRawPkh
  else Ok tt.

(** ** Well-typed Miniscripts *)

Lemma wf_inv ctx ms :
  wf ctx ms ->
  Forall (wf ctx) (children ms) /\ node_valid (node ms) /\ type_check (node ms) = Ok (ty ms)
  /\ ext ms = ext_type_check (sig_type ctx) (node ms).
Proof. by intros []. Qed.

(** Induction over a well-typed Miniscript. *)
Lemma wf_tree_ind ctx (P : Miniscript -> Prop) :
  (forall ms, wf ctx ms -> Forall (wf ctx) (children ms) -> Forall P (children ms) -> P ms) ->
  forall ms, wf ctx ms -> P ms.
Proof.
  intros H ms. induction ms as [ms IH] using tree_ind. intros Hwf.
  pose proof (wf_inv _ _ Hwf) as (Hc & _). apply H; [done | done |].
  rewrite Forall_forall in *. eauto.
Qed.

Lemma type_check_inv node t :
  Forall (fun ms => type_inv (ty ms) = true) (terminal_children node) ->
  node_valid node -> type_check node = Ok t -> type_inv t = true.
Proof.
  intros Hc Hv Ht. apply (ok_inv_Ok (type_check node)); [|done]. clear Ht.
  destruct node as [| | | | | | | | | | | | i s | i s | s | s | s | s | s | s | s
                   | l r | l r | a b c | l r | l r | l r | l r | th | |];
    forall_children Hc; try reflexivity; cbn [type_check].
  1-2: by destruct (_ || _).
  - by apply cast_alt_inv.
  - by apply cast_swap_inv.
  - by apply cast_check_inv.
  - by apply cast_dupif_inv.
  - by apply cast_verify_inv.
  - by apply cast_nonzero_inv.
  - by apply cast_zeronotequal_inv.
  - by apply and_v_inv.
  - by apply and_b_inv.
  - by apply and_or_inv.
  - by apply or_b_inv.
  - by apply or_d_inv.
  - by apply or_c_inv.
  - by apply or_i_inv.
  - destruct Hv as [[Hk Hn] _]. apply threshold_inv; [done | |].
    + by rewrite length_map.
    + by apply Forall_map.
Qed.

(** Every well-typed Miniscript has the type invariant. *)
Lemma wf_type_inv ctx ms : wf ctx ms -> type_inv (ty ms) = true.
Proof.
  revert ms. apply wf_tree_ind. intros ms Hwf _ IH.
  destruct (wf_inv _ _ Hwf) as (_ & Hv & Ht & _). exact (type_check_inv _ _ IH Hv Ht).
Qed.

Lemma from_ast_inv ctx t ms :
  from_ast ctx t = Ok ms ->
  exists ty, type_check t = Ok ty
    /\ ms = mkMiniscript t ty (ext_type_check (sig_type ctx) t)
    /\ tree_height (ext ms) <= MAX_RECURSION_DEPTH
    /\ check_global_validity ctx ms = Ok tt.
Proof.
  unfold from_ast. intros (ty & Hty%map_err_Ok_inv & H)%bind_Ok_inv. exists ty.
  destruct (Nat.ltb_spec MAX_RECURSION_DEPTH
    (tree_height (ext (mkMiniscript t ty (ext_type_check (sig_type ctx) t))))) as [|Hh]; [done|].
  apply bind_Ok_inv in H as ([] & Hg%map_err_Ok_inv & [= <-]). done.
Qed.

Lemma from_ast_wf ctx t ms :
  Forall (wf ctx) (terminal_children t) -> node_valid t ->
  from_ast ctx t = Ok ms -> wf ctx ms.
Proof. intros Hc Hv (ty & Hty & -> & _)%from_ast_inv. by constructor. Qed.

(** The height of the tree, of which [tree_height] is the cached value. *)
Definition height : Miniscript -> nat :=
  tree_fold (fun _ hs => match hs with [] => 0 | _ => S (list_max hs) end).

Lemma height_eq ms :
  height ms = match children ms with [] => 0 | cs => S (list_max (map height cs)) end.
Proof. unfold height at 1. rewrite tree_fold_eq. by destruct (children ms). Qed.

Lemma fold_max_height l m :
  fold_left (fun m sub => Nat.max m (tree_height sub)) l m
  = Nat.max m (list_max (map tree_height l)).
Proof.
  revert m. induction l as [|e l IH]; intros m; [simpl; lia|]. cbn [fold_left]. rewrite IH.
  simpl. lia.
Qed.

Lemma wf_height ctx ms : wf ctx ms -> tree_height (ext ms) = height ms.
Proof.
  revert ms. apply wf_tree_ind. intros ms Hwf _ IH.
  destruct (wf_inv _ _ Hwf) as (_ & Hv & _ & ->). rewrite height_eq, children_node in *.
  assert (map height (terminal_children (node ms))
          = map (fun m => tree_height (ext m)) (terminal_children (node ms))) as Hh.
  { clear -IH. induction IH as [|m l Hm _ IH]; [done|]. simpl. by rewrite Hm, IH. }
  destruct (node ms); cbn [terminal_children terminal_as_node] in *;
    rewrite ?Hh; cbn; rewrite ?Nat.max_0_r; try lia.
  - unfold Ext.pk_k. by destruct (sig_type ctx), (is_uncompressed pk).
  - unfold Ext.pk_h. by destruct (sig_type ctx), (is_uncompressed pk).
  - unfold Ext.pk_h. by destruct (sig_type ctx).
  - rewrite fold_max_height, map_map. destruct Hv as [[Hk Hn] _].
    unfold Threshold.n, Threshold.data in *.
    destruct (Threshold.inner thresh) as [|m l]; [simpl in Hn; lia|].
    apply (f_equal list_max) in Hh.
    rewrite Nat.max_0_l, Nat.add_1_r. f_equal. symmetry. exact Hh.
Qed.

(** Every node passed the check of [from_ast]. *)
Definition context_valid (ctx : ScriptContext) (ms : Miniscript) : Prop :=
  Forall (fun m => check_global_validity ctx m = Ok tt) (pre_order ms).

Lemma context_valid_inv ctx ms :
  context_valid ctx ms ->
  check_global_validity ctx ms = Ok tt /\ Forall (context_valid ctx) (children ms).
Proof.
  unfold context_valid. rewrite pre_order_eq. intros [H Hc]%Forall_cons_1.
  split; [done|]. clear H. induction (children ms) as [|c cs IH]; [done|].
  simpl in Hc. apply Forall_app in Hc as [? ?]. constructor; auto.
Qed.

Lemma from_ast_context_valid ctx t ms :
  Forall (context_valid ctx) (terminal_children t) -> from_ast ctx t = Ok ms ->
  context_valid ctx ms.
Proof.
  intros Hc (ty & _ & -> & _ & Hg)%from_ast_inv. unfold context_valid. rewrite pre_order_eq.
  constructor; [done|]. rewrite children_node. cbn [node].
  induction Hc; [constructor | simpl; apply Forall_app; by split].
Qed.

(** ** What the checks guarantee *)

Lemma check_global_cost ctx ms :
  ctx <> NoChecks -> check_global_validity ctx ms = Ok tt ->
  (N.of_nat (pk_cost (ext ms)) <=
    match ctx with
    | Legacy => 520 | Segwitv0 => 3600 | BareCtx => MAX_SCRIPT_SIZE | _ => MAX_BLOCK_WEIGHT
    end)%N.
Proof.
  intros Hctx (u & (v & Hv & H1)%bind_Ok_inv & H2)%bind_Ok_inv.
  clear Hv. destruct u, v. cbn beta zeta in H1.
  destruct ctx; [| | | |done]; unfold check_global_policy_validity in H2.
  - destruct (Nat.ltb_spec LIMIT_SCRIPT_ELEMENT_SIZE (pk_cost (ext ms))) as [|H]; [done|].
    unfold LIMIT_SCRIPT_ELEMENT_SIZE in H. lia.
  - destruct (Nat.ltb_spec MAX_STANDARD_P2WSH_SCRIPT_SIZE (pk_cost (ext ms))) as [|H]; [done|].
    apply (Nat2Z.inj_le _ _) in H. change (Z.of_nat MAX_STANDARD_P2WSH_SCRIPT_SIZE) with 3600%Z in H.
    lia.
  - by destruct (N.ltb_spec MAX_BLOCK_WEIGHT (N.of_nat (pk_cost (ext ms)))).
  - by destruct (N.ltb_spec MAX_SCRIPT_SIZE (N.of_nat (pk_cost (ext ms)))).
Qed.

Lemma has_repeated_keys_spec ms : has_repeated_keys ms = false <-> NoDup (keys ms).
Proof.
  unfold has_repeated_keys. rewrite negb_false_iff, Nat.eqb_eq. apply remove_dups_NoDup_length.
Qed.

Lemma guard_false e b : negb e && negb b = false <-> (e = false -> b = true).
Proof. destruct e, b; simpl; intuition congruence. Qed.

Lemma guard_true e b : negb e && b = false <-> (e = false -> b = false).
Proof. destruct e, b; simpl; intuition congruence. Qed.

(** A check that accepts means every condition it lists. *)
Lemma ext_check_Ok ctx ms e :
  ext_check ctx ms e = Ok tt <->
  (top_unsafe e = false -> requires_sig ms = true)
  /\ (malleability e = false -> is_non_malleable ms = true)
  /\ (resource_limitations e = false -> within_resource_limits ctx ms = true)
  /\ (repeated_pk e = false -> NoDup (keys ms))
  /\ (timelock_mixing e = false -> has_mixed_timelocks ms = false)
  /\ (raw_pkh e = false -> contains_raw_pkh ms = false).
Proof.
  rewrite <- has_repeated_keys_spec. unfold ext_check.
  rewrite !if_Err_Ok, !guard_false, !guard_true. tauto.
Qed.

Lemma sanity_check_Ok ctx ms :
  sanity_check ctx ms = Ok tt <->
  requires_sig ms = true /\ is_non_malleable ms = true /\ within_resource_limits ctx ms = true
  /\ NoDup (keys ms) /\ has_mixed_timelocks ms = false.
Proof.
  rewrite <- has_repeated_keys_spec. unfold sanity_check.
  rewrite !if_Err_Ok, !negb_false_iff. tauto.
Qed.

End Context.
