(* ===== verification/Samples.v ===== *)
(** Concrete Miniscripts over the reference instance, on which the witnesses of
    the development evaluate. *)
From S2P Require Import Prelude Bitcoin Primitives Reference Ord Correctness Malleability Types ExtData Tree Ast Context.

(** The result of [from_ast], for arguments on which it succeeds. *)
Definition build (ctx : ScriptContext) (t : Terminal Miniscript) : Miniscript :=
  match from_ast ctx t with
  | Ok ms => ms
  | Err _ => mkMiniscript Terminal.False Types.FALSE Ext.FALSE
  end.

Lemma build_wf ctx t :
  is_ok (from_ast ctx t) = true -> Forall (wf ctx) (terminal_children t) -> node_valid t ->
  wf ctx (build ctx t).
Proof.
  unfold build. intros H Hc Hv. destruct (from_ast ctx t) as [ms|] eqn:E; [|done].
  by eapply from_ast_wf.
Qed.

(** Proves that a concrete tree is well typed. *)
Ltac prove_valid :=
  first [exact I
        |split; [split; vm_compute; lia | first [left; reflexivity | right; vm_compute; lia]]
        |vm_compute; repeat split; intros; try discriminate; reflexivity].
Ltac prove_wf :=
  apply build_wf;
  [vm_compute; reflexivity
  |cbn [terminal_children terminal_as_node Threshold.data Threshold.inner];
   repeat (apply List.Forall_cons; [prove_wf|]); apply List.Forall_nil
  |prove_valid].

Definition older_144 : RelLockTime := mkRelLockTime (B := reference) 144%N.
Definition after_500 : AbsLockTime := mkAbsLockTime (B := reference) 500%N.

(** [pk(K)], that is [c:pk_k(K)] *)
Definition sample_pk ctx (k : Pk) : Miniscript :=
  build ctx (Terminal.Check (build ctx (Terminal.PkK k))).

(** [or_d(pk(A), and_v(v:pk(B), older(144)))] *)
Definition sample_vault ctx : Miniscript :=
  build ctx (Terminal.OrD (sample_pk ctx keyA)
    (build ctx (Terminal.AndV
      (build ctx (Terminal.Verify (sample_pk ctx keyB)))
      (build ctx (Terminal.Older older_144))))).

(** [thresh(2, pk(A), s:pk(B), s:pk(C))] *)
Definition sample_thresh ctx : Miniscript :=
  build ctx (Terminal.Thresh (mkThreshold 2
    [sample_pk ctx keyA;
     build ctx (Terminal.Swap (sample_pk ctx keyB));
     build ctx (Terminal.Swap (sample_pk ctx keyC))])).

Lemma sample_vault_wf : wf Segwitv0 (sample_vault Segwitv0).
Proof. unfold sample_vault, sample_pk. prove_wf. Qed.

Lemma sample_thresh_wf : wf Segwitv0 (sample_thresh Segwitv0).
Proof. unfold sample_thresh, sample_pk. prove_wf. Qed.

Lemma context_valid_dec {B : Bitcoin} {K : MiniscriptKey} ctx ms :
  forallb (fun m => is_ok (check_global_validity ctx m)) (pre_order ms) = true ->
  context_valid ctx ms.
Proof.
  intros H. apply List.Forall_forall. intros m Hm.
  rewrite forallb_forall in H. specialize (H m Hm). by destruct (check_global_validity ctx m) as [[]|].
Qed.

Lemma sample_vault_valid : context_valid Segwitv0 (sample_vault Segwitv0).
Proof. apply context_valid_dec. vm_compute. reflexivity. Qed.

Lemma sample_thresh_valid : context_valid Segwitv0 (sample_thresh Segwitv0).
Proof. apply context_valid_dec. vm_compute. reflexivity. Qed.
