(* ===== verification/AstProps.v ===== *)
(** Properties of the abstract syntax, its checked constructor, its iterators and
    its analysis. *)
From S2P Require Import Prelude Bitcoin Primitives Reference Ord Correctness Malleability Types ExtData Tree Ast Context Samples.

(** * Properties of the checked constructor *)

(** A well-typed node within the limits is what the checked constructor returns. *)
Lemma from_ast_node {B : Bitcoin} {K : MiniscriptKey} ctx ms :
  wf ctx ms -> height ms <= MAX_RECURSION_DEPTH -> check_global_validity ctx ms = Ok tt ->
  from_ast ctx (node ms) = Ok ms.
Proof.
  intros Hwf Hh Hg. rewrite <- (wf_height _ _ Hwf) in Hh.
  destruct (wf_inv _ _ Hwf) as (_ & _ & Ht & He). unfold from_ast. rewrite Ht. simpl.
  destruct ms as [t ty' e]. cbn [node ty ext] in *. subst e.
  destruct (Nat.ltb_spec MAX_RECURSION_DEPTH
              (tree_height (ext_type_check (sig_type ctx) t))); [lia|].
  by rewrite Hg.
Qed.

(** [from_ast] succeeds exactly when the fragment type checks, the tree is at
    most 402 levels high and the context accepts the node; on well-typed children
    its result is well typed, and so are all the assertions of the type checker. *)
Theorem from_ast_spec {B : Bitcoin} {K : MiniscriptKey} ctx t ms :
  Forall (wf ctx) (terminal_children t) -> node_valid t ->
  from_ast ctx t = Ok ms <->
  node ms = t /\ wf ctx ms /\ height ms <= MAX_RECURSION_DEPTH
  /\ check_global_validity ctx ms = Ok tt.
Proof.
  intros Hc Hv. split.
  - intros H. pose proof (from_ast_wf _ _ _ Hc Hv H) as Hwf.
    destruct (from_ast_inv _ _ _ H) as (ty & _ & Hms & Hh & Hg).
    rewrite (wf_height _ _ Hwf) in Hh. by subst ms.
  - intros (<- & Hwf & Hh & Hg). by apply from_ast_node.
Qed.

Lemma from_ast_spec_witness :
  Forall (wf Segwitv0) (terminal_children (node (sample_vault Segwitv0)))
  /\ height (sample_vault Segwitv0) <= MAX_RECURSION_DEPTH.
Proof.
  pose proof (proj1 (wf_inv _ _ sample_vault_wf)) as Hc. split; [exact Hc|].
  apply (proj1 (from_ast_spec Segwitv0 (node (sample_vault Segwitv0)) (sample_vault Segwitv0)
                  Hc I) eq_refl).
Defined.

(** C25: the debug assertions of the type checker never fire: every well-typed
    Miniscript has the correctness and malleability invariants. *)
Theorem sanity_checks_hold {B : Bitcoin} {K : MiniscriptKey} ctx ms :
  wf ctx ms ->
  Forall (fun m => Types.sanity_checks (ty m) = true
                   /\ Correctness.sanity_checks (corr (ty m)) = true) (pre_order ms).
Proof.
  revert ms. refine (wf_tree_ind ctx _ _). intros ms Hwf _ IH. rewrite pre_order_eq.
  constructor.
  - pose proof (wf_type_inv _ _ Hwf) as H. unfold type_inv in H. by bool_hyps.
  - induction IH; [constructor|]. cbn [flat_map]. apply Forall_app. by split.
Qed.

Lemma sanity_checks_hold_witness :
  wf Segwitv0 (sample_thresh Segwitv0)
  /\ Forall (fun m => Types.sanity_checks (ty m) = true
                      /\ Correctness.sanity_checks (corr (ty m)) = true)
       (pre_order (sample_thresh Segwitv0)).
Proof.
  split; [exact sample_thresh_wf|]. exact (sanity_checks_hold Segwitv0 _ sample_thresh_wf).
Defined.

(** the analysis accepts a Miniscript under given parameters exactly when every
    guarantee they do not waive holds: signatures on every path, non-malleability,
    resource limits, distinct keys, no mixed timelocks, no raw key hashes. *)
Theorem ext_check_spec {B : Bitcoin} {K : MiniscriptKey} ctx ms e :
  ext_check ctx ms e = Ok tt <->
  (top_unsafe e = false -> requires_sig ms = true)
  /\ (malleability e = false -> is_non_malleable ms = true)
  /\ (resource_limitations e = false -> within_resource_limits ctx ms = true)
  /\ (repeated_pk e = false -> NoDup (keys ms))
  /\ (timelock_mixing e = false -> has_mixed_timelocks ms = false)
  /\ (raw_pkh e = false -> contains_raw_pkh ms = false).
Proof. apply ext_check_Ok. Qed.

(** the node iterator, the stack-based pre-order iterator and the key iterator
    run to completion, the first two yielding the nodes of the tree in pre-order and
    the third the keys of those nodes in order. *)
Theorem iterators_spec {B : Bitcoin} {K : MiniscriptKey} (ms : Miniscript) :
  drain iter_step (S (tree_size ms)) (iter ms) = Some (pre_order ms)
  /\ drain pre_next (S (tree_size ms)) (pre_order_iter ms) = Some (pre_order ms)
  /\ (exists fuel, drain_some pk_iter_turn fuel (iter_pk ms) = Some (keys ms))
  /\ forall pred, for_each_key pred ms = forallb pred (keys ms).
Proof.
  repeat split; [apply iter_drain | apply pre_order_drain | apply iter_pk_drain |].
  intros pred. apply for_each_key_spec.
Qed.

(** the post-order iterator yields every node once, after its children, with
    consecutive indices, each with the indices of its children. *)
Theorem post_order_spec {T : Type} {TL : TreeLike T} {WF : WfTree T} (t : T) :
  post_drain (S (2 * tree_size t)) (post_order_iter t) = Some (post_order t).
Proof. apply post_order_drain. Qed.
