(* ===== verification/Views.v ===== *)
(** The typing rules read backwards: equations on the correctness of a node and of its
    children. *)
From S2P Require Import Prelude Bitcoin Primitives Reference Ord Correctness Malleability Types ExtData Tree Ast Context Samples.

(** * Typing rules read backwards *)

(** The input property of a conjunction, of [or_b], of [or_d] and [or_c], of
    [or_i] and of [andor], as the rules compute them. *)
Definition and_input (l r : Input) : Input :=
  match l, r with
  | InputZero, InputZero => InputZero
  | InputZero, InputOne | InputOne, InputZero => InputOne
  | InputZero, InputOneNonZero | InputOneNonZero, InputZero => InputOneNonZero
  | InputOneNonZero, _ | InputAnyNonZero, _ | InputZero, InputAnyNonZero => InputAnyNonZero
  | _, _ => InputAny
  end.

Definition or_b_input (l r : Input) : Input :=
  match l, r with
  | InputZero, InputZero => InputZero
  | InputZero, InputOne | InputOne, InputZero | InputZero, InputOneNonZero
  | InputOneNonZero, InputZero => InputOne
  | _, _ => InputAny
  end.

Definition or_d_input (l r : Input) : Input :=
  match l, r with
  | InputZero, InputZero => InputZero
  | InputOne, InputZero | InputOneNonZero, InputZero => InputOne
  | _, _ => InputAny
  end.

Definition or_i_input (l r : Input) : Input :=
  match l, r with InputZero, InputZero => InputOne | _, _ => InputAny end.

Definition and_or_input (a b c : Input) : Input :=
  match a, b, c with
  | InputZero, InputZero, InputZero => InputZero
  | InputZero, InputOne, InputOne
  | InputZero, InputOne, InputOneNonZero
  | InputZero, InputOneNonZero, InputOne
  | InputZero, InputOneNonZero, InputOneNonZero
  | InputOne, InputZero, InputZero
  | InputOneNonZero, InputZero, InputZero => InputOne
  | _, _, _ => InputAny
  end.

Section Views.
Context {B : Bitcoin} {K : MiniscriptKey}.

Definition corr_of (ms : Miniscript) : Correctness := corr (ty ms).
Definition base_of (ms : Miniscript) : Base := c_base (corr_of ms).
Definition input_of (ms : Miniscript) : Input := c_input (corr_of ms).
Definition dissat_of (ms : Miniscript) : bool := c_dissatisfiable (corr_of ms).

(** What the rule of a fragment requires of its children, and its result. *)
Definition corr_view (node : Terminal Miniscript) (c : Correctness) : Prop :=
  match node with
  | Terminal.True => c = Correctness.TRUE
  | Terminal.False => c = Correctness.FALSE
  | Terminal.PkK _ => c = Correctness.pk_k
  | Terminal.PkH _ | Terminal.RawPkH _ => c = Correctness.pk_h
  | Terminal.Multi _ => c = Correctness.multi
  | Terminal.MultiA _ => c = Correctness.multi_a
  | Terminal.After _ | Terminal.Older _ => c = Correctness.time
  | Terminal.Sha256 _ | Terminal.Hash256 _ | Terminal.Ripemd160 _ | Terminal.Hash160 _ =>
      c = Correctness.hash
  | Terminal.TxTemplate _ => c = corr Types.tx_template
  | Terminal.InscribePre _ sub | Terminal.InscribePost _ sub => c = corr_of sub
  | Terminal.Alt sub | Terminal.Swap sub =>
      base_of sub = BaseB /\ c_base c = BaseW /\ c_input c = InputAny
      /\ c_dissatisfiable c = dissat_of sub
  | Terminal.Check sub =>
      base_of sub = BaseK /\ c_base c = BaseB /\ c_input c = input_of sub
      /\ c_dissatisfiable c = dissat_of sub
  | Terminal.DupIf sub =>
      base_of sub = BaseV /\ input_of sub = InputZero /\ c_base c = BaseB
      /\ c_input c = InputOneNonZero /\ c_dissatisfiable c = true
  | Terminal.Verify sub =>
      base_of sub = BaseB /\ c_base c = BaseV /\ c_input c = input_of sub
      /\ c_dissatisfiable c = false
  | Terminal.NonZero sub =>
      base_of sub = BaseB /\ c_base c = BaseB /\ c_input c = input_of sub
      /\ (input_of sub = InputOneNonZero \/ input_of sub = InputAnyNonZero)
      /\ c_dissatisfiable c = true
  | Terminal.ZeroNotEqual sub =>
      base_of sub = BaseB /\ c_base c = BaseB /\ c_input c = input_of sub
      /\ c_dissatisfiable c = dissat_of sub
  | Terminal.AndV l r =>
      base_of l = BaseV /\ base_of r <> BaseW /\ c_base c = base_of r
      /\ c_input c = and_input (input_of l) (input_of r) /\ c_dissatisfiable c = false
  | Terminal.AndB l r =>
      base_of l = BaseB /\ base_of r = BaseW /\ c_base c = BaseB
      /\ c_input c = and_input (input_of l) (input_of r)
      /\ c_dissatisfiable c = dissat_of l && dissat_of r
  | Terminal.AndOr a b c' =>
      base_of a = BaseB /\ base_of b = c_base c /\ base_of c' = c_base c /\ c_base c <> BaseW
      /\ c_input c = and_or_input (input_of a) (input_of b) (input_of c')
      /\ dissat_of a = true /\ c_dissatisfiable c = dissat_of c'
  | Terminal.OrB l r =>
      base_of l = BaseB /\ base_of r = BaseW /\ c_base c = BaseB
      /\ c_input c = or_b_input (input_of l) (input_of r)
      /\ dissat_of l = true /\ dissat_of r = true
  | Terminal.OrD l r =>
      base_of l = BaseB /\ base_of r = BaseB /\ c_base c = BaseB
      /\ c_input c = or_d_input (input_of l) (input_of r)
      /\ dissat_of l = true /\ c_dissatisfiable c = dissat_of r
  | Terminal.OrC l r =>
      base_of l = BaseB /\ base_of r = BaseV /\ c_base c = BaseV
      /\ c_input c = or_d_input (input_of l) (input_of r)
      /\ dissat_of l = true /\ c_dissatisfiable c = false
  | Terminal.OrI l r =>
      base_of l = c_base c /\ base_of r = c_base c /\ c_base c <> BaseW
      /\ c_input c = or_i_input (input_of l) (input_of r)
      /\ c_dissatisfiable c = dissat_of l || dissat_of r
  | Terminal.Thresh thresh =>
      Forall (fun ms => (base_of ms = BaseB \/ base_of ms = BaseW) /\ dissat_of ms = true)
        (Threshold.data thresh)
      /\ c_base c = BaseB
      /\ c_input c
         = match sum_by (fun ms => threshold_num_args (input_of ms)) (Threshold.data thresh) with
           | 0 => InputZero | 1 => InputOne | _ => InputAny
           end
  end.

Lemma mk_Ok (r : result ErrorKind Correctness) m t :
  (c ← r; Ok (mkMsType c m)) = Ok t -> r = Ok (corr t).
Proof. destruct r; [|done]. by intros [= <-]. Qed.

Lemma type_check_view node t : type_check node = Ok t -> corr_view node (corr t).
Proof.
  intros H. destruct node as [| | p | p | h | n | n | x | x | x | x | h | j s | j s | s | s | s | s | s | s | s
                   | l r | l r | a b c | l r | l r | l r | l r | th | th | th];
    cbn [type_check] in H; try (injection H as <-; reflexivity);
    try (destruct (_ || _); [done|]; by injection H as <-);
    apply mk_Ok in H;
    unfold corr_view, base_of, input_of, dissat_of, corr_of; generalize dependent (corr t); intros c0 H.
  - generalize dependent (corr (ty s)). intros s0 H. unfold Correctness.cast_alt in H.
    destruct s0 as [[] i d u]; try done. by injection H as <-.
  - generalize dependent (corr (ty s)). intros s0 H. unfold Correctness.cast_swap in H.
    destruct s0 as [[] [] d u]; try done; by injection H as <-.
  - generalize dependent (corr (ty s)). intros s0 H. unfold Correctness.cast_check in H.
    destruct s0 as [[] i d u]; try done. by injection H as <-.
  - generalize dependent (corr (ty s)). intros s0 H. unfold Correctness.cast_dupif in H.
    destruct s0 as [[] [] d u]; try done. by injection H as <-.
  - generalize dependent (corr (ty s)). intros s0 H. unfold Correctness.cast_verify in H.
    destruct s0 as [[] i d u]; try done. by injection H as <-.
  - generalize dependent (corr (ty s)). intros s0 H. unfold Correctness.cast_nonzero in H.
    destruct s0 as [[] [] d u]; try done; injection H as <-; simpl; tauto.
  - generalize dependent (corr (ty s)). intros s0 H. unfold Correctness.cast_zeronotequal in H.
    destruct s0 as [[] i d u]; try done. by injection H as <-.
  - generalize dependent (corr (ty l)). generalize dependent (corr (ty r)). intros r0 l0 H.
    unfold Correctness.and_v in H. destruct l0 as [[] i d u], r0 as [[] i' d' u']; try done;
      by injection H as <-.
  - generalize dependent (corr (ty l)). generalize dependent (corr (ty r)). intros r0 l0 H.
    unfold Correctness.and_b in H. destruct l0 as [[] i d u], r0 as [[] i' d' u']; try done;
      by injection H as <-.
  - generalize dependent (corr (ty a)). generalize dependent (corr (ty b)).
    generalize dependent (corr (ty c)). intros c1 b1 a1 H. unfold Correctness.and_or in H.
    destruct a1 as [ba ia [] ua]; [|done]. destruct ua; [|done]. simpl in H.
    destruct ba; try (by destruct (c_base b1), (c_base c1)).
    destruct b1 as [[] ib db ub], c1 as [[] ic dc uc]; try done; by injection H as <-.
  - generalize dependent (corr (ty l)). generalize dependent (corr (ty r)). intros r0 l0 H.
    unfold Correctness.or_b in H. destruct l0 as [[] i [] u], r0 as [[] i' [] u']; try done;
      by injection H as <-.
  - generalize dependent (corr (ty l)). generalize dependent (corr (ty r)). intros r0 l0 H.
    unfold Correctness.or_d in H. destruct l0 as [[] i [] []], r0 as [[] i' d' u']; try done;
      by injection H as <-.
  - generalize dependent (corr (ty l)). generalize dependent (corr (ty r)). intros r0 l0 H.
    unfold Correctness.or_c in H. destruct l0 as [[] i [] []], r0 as [[] i' d' u']; try done;
      by injection H as <-.
  - generalize dependent (corr (ty l)). generalize dependent (corr (ty r)). intros r0 l0 H.
    unfold Correctness.or_i in H. destruct l0 as [[] i d u], r0 as [[] i' d' u']; try done;
      by injection H as <-.
  - unfold Correctness.threshold in H. apply bind_Ok_inv in H as (n & Hn & H).
    injection H as <-. apply threshold_loop_Ok in Hn as (Hud & -> & Hb). simpl.
    rewrite !map_map in *. split_and!; [|done|done].
    apply Forall_lookup. intros i m Hm. split.
    + specialize (Hb i (corr (ty m))).
      rewrite Hb; [destruct (_ =? 0); tauto|].
      change (map (fun x => corr (ty x)) (Threshold.data th) !! i)
        with (((fun x => corr (ty x)) <$> Threshold.data th) !! i).
      by rewrite list_lookup_fmap, Hm.
    + apply List.Forall_map in Hud. rewrite Forall_lookup in Hud. by apply (Hud i m).
Qed.
Lemma wf_view ctx nd t e :
  wf ctx (mkMiniscript nd t e) ->
  Forall (wf ctx) (terminal_children nd) /\ node_valid nd /\ corr_view nd (corr t).
Proof.
  intros (Hc & Hv & Ht & _)%wf_inv. rewrite children_node in Hc. split_and!; [done | done |].
  by apply type_check_view.
Qed.

(** The first child of a threshold has type B, the others have type W. *)
Lemma thresh_bases (thresh : Threshold Miniscript) t :
  type_check (Terminal.Thresh thresh) = Ok t ->
  match Threshold.data thresh with
  | [] => True
  | first :: rest => base_of first = BaseB /\ Forall (fun ms => base_of ms = BaseW) rest
  end.
Proof.
  cbn [type_check]. intros H%mk_Ok. unfold Correctness.threshold in H.
  apply bind_Ok_inv in H as (n & (_ & _ & Hb)%threshold_loop_Ok & _).
  destruct (Threshold.data thresh) as [|first rest]; [done|]. split.
  - by apply (Hb 0 (corr (ty first))).
  - apply Forall_lookup. intros i m Hm. apply (Hb (S i) (corr (ty m))). rewrite map_map.
    change (((fun x => corr (ty x)) <$> rest) !! i = Some (corr (ty m))).
    by rewrite list_lookup_fmap, Hm.
Qed.
End Views.

