(* ===== verification/Decode.v ===== *)
(** The script decoder (src/src/miniscript/decode.rs, [decode_with_ext] and the leaf
    constructors of src/src/miniscript/mod.rs): a stack parser that reads the tokens of a
    script from the last one to the first. *)
From S2P Require Import Prelude Bitcoin Primitives Reference Ord Script Envelope Lex Correctness Malleability Types ExtData Tree Ast Context.

(** The trait [ParseableKey]: a key read from the bytes of a script; its hash types are those
    of the crate bitcoin. *)
Class ParseableKey {B : Bitcoin} {K : MiniscriptKey} : Type := {
  KeyError : Type;
  from_slice : bytes -> result KeyError Pk;
  of_sha256 : sha256_Hash -> Primitives.Sha256;
  of_hash256 : hash256_Hash -> Primitives.Hash256;
  of_ripemd160 : ripemd160_Hash -> Primitives.Ripemd160;
  of_hash160 : hash160_Hash -> Primitives.Hash160;
}.

(** [ParseableKey for bitcoin::PublicKey] and [for XOnlyPublicKey]; the errors of the key parsers
    are those of the crate, which [Parsing] drops. *)
Definition PublicKey_parseable {B : Bitcoin} {Sp : Spending} {Pa : Parsing} : ParseableKey (K := PublicKey_key) :=
  Build_ParseableKey B PublicKey_key ()
    (fun sl => match PublicKey_from_slice sl with Some pk => Ok pk | None => Err tt end)
    (fun h => h) (fun h => h) (fun h => h) (fun h => h).

Definition XOnlyPublicKey_parseable {B : Bitcoin} {Sp : Spending} {Pa : Parsing} : ParseableKey (K := XOnlyPublicKey_key) :=
  Build_ParseableKey B XOnlyPublicKey_key ()
    (fun sl => match XOnlyPublicKey_from_slice sl with Some pk => Ok pk | None => Err tt end)
    (fun h => h) (fun h => h) (fun h => h) (fun h => h).

(** * Constructors of leaves *)

Section Leaves.
Context {B : Bitcoin} {K : MiniscriptKey} (ctx : ScriptContext).

Definition ms_TRUE : Miniscript := mkMiniscript Terminal.True Types.TRUE Ext.TRUE.
Definition ms_FALSE : Miniscript := mkMiniscript Terminal.False Types.FALSE Ext.FALSE.
Definition ms_pk_k (pk : Pk) : Miniscript :=
  mkMiniscript (Terminal.PkK pk) Types.pk_k (Ext.pk_k (sig_type ctx) pk).
Definition ms_expr_raw_pkh (hash : hash160_Hash) : Miniscript :=
  mkMiniscript (Terminal.RawPkH hash) Types.pk_h (Ext.pk_h (sig_type ctx) None).
Definition ms_after (time : AbsLockTime) : Miniscript :=
  mkMiniscript (Terminal.After time) Types.time (Ext.after time).
Definition ms_older (time : RelLockTime) : Miniscript :=
  mkMiniscript (Terminal.Older time) Types.time (Ext.older time).
Definition ms_sha256 (h : Primitives.Sha256) : Miniscript :=
  mkMiniscript (Terminal.Sha256 h) Types.hash Ext.sha256.
Definition ms_hash256 (h : Primitives.Hash256) : Miniscript :=
  mkMiniscript (Terminal.Hash256 h) Types.hash Ext.hash256.
Definition ms_ripemd160 (h : Primitives.Ripemd160) : Miniscript :=
  mkMiniscript (Terminal.Ripemd160 h) Types.hash Ext.ripemd160.
Definition ms_hash160 (h : Primitives.Hash160) : Miniscript :=
  mkMiniscript (Terminal.Hash160 h) Types.hash Ext.hash160.
Definition ms_multi (thresh : Threshold Pk) : Miniscript :=
  mkMiniscript (Terminal.Multi thresh) Types.multi (Ext.multi thresh).
Definition ms_multi_a (thresh : Threshold Pk) : Miniscript :=
  mkMiniscript (Terminal.MultiA thresh) Types.multi_a
    (Ext.multi_a (Threshold.k thresh) (Threshold.n thresh)).
End Leaves.

Module NonTerm.
Inductive NonTerm : Type :=
| Expression | WExpression | Swap | MaybeAndV
| InscribePre
| InscribePost (i : list Inscription)
| Alt | Check | DupIf | Verify | NonZero | ZeroNotEqual
| AndV | AndB | Tern | OrB | OrD | OrC
| ThreshW (k n : nat)
| ThreshE (k n : nat)
| EndIf | EndIfNotIf | EndIfElse.
End NonTerm.
Abbreviation NonTerm := NonTerm.NonTerm.

Section Decode.
Context {B : Bitcoin} {Sc : Scripts} {K : MiniscriptKey} {PK : ParseableKey}.
Context (ctx : ScriptContext).

(** The variants of [crate::Error] that decoding returns; the first has those of the checks
    of a Miniscript. *)
Inductive DecodeError : Type :=
| Invalid (e : Error)
| ScriptLexer (e : LexError)
| Unexpected (t : Token)
| UnexpectedStart
| PubKeyCtxError (e : KeyError)
| ErrThreshold (e : Threshold.ThresholdError)
| RelativeLockTime (e : RelLockTimeError)
| AbsoluteLockTime (e : AbsLockTimeError)
| ErrInscription (e : InscriptionError)
| Trailing (t : Token)
| AnalysisFailed (e : AnalysisError).

(** The tokens still to be read, the next one first. *)
Abbreviation Tokens := (list Token).

(** No arm of a [match_token!] fits. *)
Definition unexpected {A} (tokens : Tokens) : result DecodeError A :=
  match tokens with
  | other :: _ => Err (Unexpected other)
  | [] => Err UnexpectedStart
  end.

(** A [match_token!] with one arm of constant tokens. *)
Fixpoint expect (l : list Token) (tokens : Tokens) : result DecodeError Tokens :=
  match l with
  | [] => Ok tokens
  | t :: l =>
      match tokens with
      | other :: rest => if bool_decide (other = t) then expect l rest else unexpected tokens
      | [] => unexpected tokens
      end
  end.

(** [VERIFY EQUAL 32 SIZE], what precedes the hash opcode of a hash lock. *)
Definition size_check : list Token := [Token.Verify; Token.Equal; Token.Num 32; Token.Size].

Definition key_from_slice (b : bytes) : result DecodeError Pk := map_err PubKeyCtxError (from_slice b).

(** The loop over the [n] keys of a [CHECKMULTISIG], the last key first. *)
Fixpoint multi_keys (n : nat) (tokens : Tokens) (keys : list Pk)
  : result DecodeError (list Pk * Tokens) :=
  match n with
  | 0 => Ok (keys, tokens)
  | S n =>
      match tokens with
      | (Token.Bytes33 pk | Token.Bytes65 pk) :: tokens =>
          key ← key_from_slice pk; multi_keys n tokens (keys ++ [key])
      | _ => unexpected tokens
      end
  end.

(** The loop over the keys with a [CHECKSIGADD]. *)
Fixpoint multi_a_keys (tokens : Tokens) (keys : list Pk) : result DecodeError (list Pk * Tokens) :=
  match tokens with
  | Token.CheckSigAdd :: tokens =>
      match tokens with
      | Token.Bytes32 pk :: tokens => key ← key_from_slice pk; multi_a_keys tokens (keys ++ [key])
      | _ => unexpected tokens
      end
  | _ => Ok (keys, tokens)
  end.

(** The loop of [take_inscriptions]; the list is reversed at the end. *)
Fixpoint take_inscription_tokens (tokens : Tokens) (inscriptions : list Inscription)
  : result DecodeError (list Inscription * Tokens) :=
  match tokens with
  | Token.Inscription script :: tokens =>
      parsed ← map_err ErrInscription (parse_inscriptions script);
      take_inscription_tokens tokens (inscriptions ++ rev parsed)
  | _ => Ok (inscriptions, tokens)
  end.

Definition take_inscriptions (tokens : Tokens) : result DecodeError (list Inscription * Tokens) :=
  '(inscriptions, tokens) ← take_inscription_tokens tokens []; Ok (rev inscriptions, tokens).

Definition starts_inscription (tokens : Tokens) : bool :=
  match tokens with Token.Inscription _ :: _ => true | _ => false end.

Definition is_and_v (tokens : Tokens) : bool :=
  match tokens with
  | [] | Token.If :: _ | Token.NotIf :: _ | Token.Else :: _ | Token.ToAltStack :: _
  | Token.Swap :: _ => false
  | _ => true
  end.

(** What an arm pushes on the stack of non-terminals (the top first) and of terminals, and
    the tokens it leaves. *)
Abbreviation Pushed := (list NonTerm * list Miniscript * Tokens)%type.

Definition leaf (ms : Miniscript) (tokens : Tokens) : result DecodeError Pushed := Ok ([], [ms], tokens).
Definition parse (nts : list NonTerm) (tokens : Tokens) : result DecodeError Pushed := Ok (nts, [], tokens).

(** A hash lock after its size check, under the non-terminals [nts]. *)
Definition hash_lock (nts : list NonTerm) (ms : Miniscript) (tokens : Tokens)
  : result DecodeError Pushed :=
  tokens ← expect size_check tokens; Ok (nts, [ms], tokens).

(** The hash of 32 bytes under an [EQUAL]. *)
Definition hash_32 (nts : list NonTerm) (hash : bytes) (tokens : Tokens) : result DecodeError Pushed :=
  match tokens with
  | Token.Sha256 :: tokens => hash_lock nts (ms_sha256 (of_sha256 (sha256_from_byte_array hash))) tokens
  | Token.Hash256 :: tokens =>
      hash_lock nts (ms_hash256 (of_hash256 (hash256_from_byte_array hash))) tokens
  | _ => unexpected tokens
  end.

(** The arms under [VERIFY]. *)
Definition verify_expression (tokens : Tokens) : result DecodeError Pushed :=
  match tokens with
  | Token.Equal :: tokens =>
      match tokens with
      | Token.Hash20 hash :: tokens =>
          match tokens with
          | Token.Hash160 :: tokens =>
              match tokens with
              | Token.Dup :: tokens => leaf (ms_expr_raw_pkh ctx (hash160_from_byte_array hash)) tokens
              | Token.Verify :: tokens =>
                  tokens ← expect [Token.Equal; Token.Num 32; Token.Size] tokens;
                  Ok ([NonTerm.Verify], [ms_hash160 (of_hash160 (hash160_from_byte_array hash))], tokens)
              | _ => unexpected tokens
              end
          | Token.Ripemd160 :: tokens =>
              hash_lock [NonTerm.Verify] (ms_ripemd160 (of_ripemd160 (ripemd160_from_byte_array hash)))
                tokens
          | _ => unexpected tokens
          end
      | Token.Bytes32 hash :: tokens => hash_32 [NonTerm.Verify] hash tokens
      | Token.Num k :: tokens => parse [NonTerm.ThreshW (N.to_nat k) 0; NonTerm.Verify] tokens
      | _ => unexpected tokens
      end
  | [] => unexpected tokens
  | _ => parse [NonTerm.Expression; NonTerm.Verify] tokens
  end.

(** The arms under [EQUAL]. *)
Definition equal_expression (tokens : Tokens) : result DecodeError Pushed :=
  match tokens with
  | Token.Bytes32 hash :: tokens => hash_32 [] hash tokens
  | Token.Hash20 hash :: tokens =>
      match tokens with
      | Token.Ripemd160 :: tokens =>
          hash_lock [] (ms_ripemd160 (of_ripemd160 (ripemd160_from_byte_array hash))) tokens
      | Token.Hash160 :: tokens =>
          hash_lock [] (ms_hash160 (of_hash160 (hash160_from_byte_array hash))) tokens
      | _ => unexpected tokens
      end
  | Token.Num k :: tokens => parse [NonTerm.ThreshW (N.to_nat k) 0] tokens
  | _ => unexpected tokens
  end.

(** [n CHECKMULTISIG], after the number. *)
Definition multi_expression (n : nat) (tokens : Tokens) : result DecodeError Pushed :=
  _ ← map_err ErrThreshold (Threshold.validate_k_n MAX_PUBKEYS_PER_MULTISIG 1 n);
  '(keys, tokens) ← multi_keys n tokens [];
  match tokens with
  | Token.Num k :: tokens =>
      thresh ← map_err ErrThreshold
        (Threshold.new MAX_PUBKEYS_PER_MULTISIG (N.to_nat k) (rev keys));
      leaf (ms_multi thresh) tokens
  | _ => unexpected tokens
  end.

(** [k NUMEQUAL], after the number. *)
Definition multi_a_expression (k : nat) (tokens : Tokens) : result DecodeError Pushed :=
  _ ← map_err ErrThreshold (Threshold.validate_k_n MAX_PUBKEYS_IN_CHECKSIGADD k k);
  '(keys, tokens) ← multi_a_keys tokens [];
  match tokens with
  | Token.CheckSig :: tokens =>
      match tokens with
      | Token.Bytes32 pk :: tokens =>
          key ← key_from_slice pk;
          thresh ← map_err ErrThreshold
            (Threshold.new MAX_PUBKEYS_IN_CHECKSIGADD k (rev (keys ++ [key])));
          leaf (ms_multi_a thresh) tokens
      | _ => unexpected tokens
      end
  | _ => unexpected tokens
  end.

Definition checked (t : Terminal Miniscript) : result DecodeError Miniscript :=
  map_err Invalid (from_ast ctx t).

(** The arm for [Expression], above the [InscribePre] that it pushes first. *)
Definition expression (tokens : Tokens) : result DecodeError Pushed :=
  match tokens with
  | Token.Inscription _ :: _ =>
      '(i, tokens) ← take_inscriptions tokens;
      parse [NonTerm.Expression; NonTerm.InscribePost i] tokens
  | (Token.Bytes33 pk | Token.Bytes65 pk | Token.Bytes32 pk) :: tokens =>
      key ← key_from_slice pk; leaf (ms_pk_k ctx key) tokens
  | Token.Drop :: tokens =>
      tokens ← expect [Token.CheckTemplateVerify] tokens;
      match tokens with
      | Token.Bytes32 h :: tokens =>
          ms ← checked (Terminal.TxTemplate (sha256_from_byte_array h)); leaf ms tokens
      | _ => unexpected tokens
      end
  | Token.CheckSig :: tokens => parse [NonTerm.Expression; NonTerm.Check] tokens
  | Token.Verify :: tokens => verify_expression tokens
  | Token.ZeroNotEqual :: tokens => parse [NonTerm.Expression; NonTerm.ZeroNotEqual] tokens
  | Token.CheckSequenceVerify :: tokens =>
      match tokens with
      | Token.Num n :: tokens =>
          t ← map_err RelativeLockTime (rel_from_consensus n); leaf (ms_older t) tokens
      | _ => unexpected tokens
      end
  | Token.CheckLockTimeVerify :: tokens =>
      match tokens with
      | Token.Num n :: tokens =>
          t ← map_err AbsoluteLockTime (abs_from_consensus n); leaf (ms_after t) tokens
      | _ => unexpected tokens
      end
  | Token.Equal :: tokens => equal_expression tokens
  | Token.Num 0 :: tokens => leaf ms_FALSE tokens
  | Token.Num 1 :: tokens => leaf ms_TRUE tokens
  | Token.EndIf :: tokens => parse [NonTerm.Expression; NonTerm.MaybeAndV; NonTerm.EndIf] tokens
  | Token.BoolAnd :: tokens => parse [NonTerm.WExpression; NonTerm.Expression; NonTerm.AndB] tokens
  | Token.BoolOr :: tokens => parse [NonTerm.WExpression; NonTerm.Expression; NonTerm.OrB] tokens
  | Token.CheckMultiSig :: tokens =>
      match tokens with
      | Token.Num n :: tokens => multi_expression (N.to_nat n) tokens
      | _ => unexpected tokens
      end
  | Token.NumEqual :: tokens =>
      match tokens with
      | Token.Num k :: tokens => multi_a_expression (N.to_nat k) tokens
      | _ => unexpected tokens
      end
  | _ => unexpected tokens
  end.

(** ** The loop *)

(** The stacks of non-terminals and of terminals, the top first, and the tokens. *)
Abbreviation State := (list NonTerm * list Miniscript * Tokens)%type.

(** [reduce0], [reduce1], [reduce2]; popping an empty stack panics. *)
Definition reduce0 (t : Terminal Miniscript) (term : list Miniscript)
  : option (result DecodeError (list Miniscript)) :=
  Some (ms ← checked t; Ok (ms :: term)).

Definition reduce1 (wrap : Miniscript -> Terminal Miniscript) (term : list Miniscript)
  : option (result DecodeError (list Miniscript)) :=
  match term with top :: term => reduce0 (wrap top) term | [] => None end.

Definition reduce2 (wrap : Miniscript -> Miniscript -> Terminal Miniscript) (term : list Miniscript)
  : option (result DecodeError (list Miniscript)) :=
  match term with l :: r :: term => reduce0 (wrap l r) term | _ => None end.

(** [n] pops for a threshold. *)
Fixpoint pop_subs (n : nat) (term : list Miniscript) : option (list Miniscript * list Miniscript) :=
  match n, term with
  | 0, _ => Some ([], term)
  | S n, top :: term => '(subs, term) ← pop_subs n term; Some (top :: subs, term)
  | S _, [] => None
  end.

(** One turn of the loop of [decode], for the non-terminal [nt] on top. *)
Definition decode_step (nt : NonTerm) (non_term : list NonTerm) (term : list Miniscript)
    (tokens : Tokens) : option (result DecodeError State) :=
  let continue (nts : list NonTerm) (tokens : Tokens) : option (result DecodeError State) :=
    Some (Ok (nts ++ non_term, term, tokens)) in
  let error (tokens : Tokens) : option (result DecodeError State) := Some (unexpected tokens) in
  let reduced (tokens : Tokens) (r : option (result DecodeError (list Miniscript))) :=
    r ← r; Some (term ← r; Ok (non_term, term, tokens)) in
  match nt with
  | NonTerm.Expression =>
      Some ('(nts, ms, tokens) ← expression tokens;
            Ok (nts ++ NonTerm.InscribePre :: non_term, ms ++ term, tokens))
  | NonTerm.InscribePre =>
      if starts_inscription tokens then
        match take_inscriptions tokens with
        | Ok (i, tokens) => reduced tokens (reduce1 (Terminal.InscribePre i) term)
        | Err e => Some (Err e)
        end
      else continue [] tokens
  | NonTerm.InscribePost i => reduced tokens (reduce1 (Terminal.InscribePost i) term)
  | NonTerm.MaybeAndV =>
      if is_and_v tokens then continue [NonTerm.Expression; NonTerm.AndV] tokens
      else continue [] tokens
  | NonTerm.Swap =>
      match tokens with
      | Token.Swap :: tokens => reduced tokens (reduce1 Terminal.Swap term)
      | _ => error tokens
      end
  | NonTerm.Alt =>
      match tokens with
      | Token.ToAltStack :: tokens => reduced tokens (reduce1 Terminal.Alt term)
      | _ => error tokens
      end
  | NonTerm.Check => reduced tokens (reduce1 Terminal.Check term)
  | NonTerm.DupIf => reduced tokens (reduce1 Terminal.DupIf term)
  | NonTerm.Verify => reduced tokens (reduce1 Terminal.Verify term)
  | NonTerm.NonZero => reduced tokens (reduce1 Terminal.NonZero term)
  | NonTerm.ZeroNotEqual => reduced tokens (reduce1 Terminal.ZeroNotEqual term)
  | NonTerm.AndV =>
      if is_and_v tokens then continue [NonTerm.MaybeAndV; NonTerm.AndV] tokens
      else reduced tokens (reduce2 Terminal.AndV term)
  | NonTerm.AndB => reduced tokens (reduce2 Terminal.AndB term)
  | NonTerm.OrB => reduced tokens (reduce2 Terminal.OrB term)
  | NonTerm.OrC => reduced tokens (reduce2 Terminal.OrC term)
  | NonTerm.OrD => reduced tokens (reduce2 Terminal.OrD term)
  | NonTerm.Tern =>
      match term with
      | a :: b :: c :: term => reduced tokens (reduce0 (Terminal.AndOr a c b) term)
      | _ => None
      end
  | NonTerm.ThreshW k n =>
      match tokens with
      | Token.Add :: tokens => continue [NonTerm.WExpression; NonTerm.ThreshW k (n + 1)] tokens
      | [] => error tokens
      | _ => continue [NonTerm.Expression; NonTerm.ThreshE k (n + 1)] tokens
      end
  | NonTerm.ThreshE k n =>
      '(subs, term) ← pop_subs n term;
      match Threshold.new 0 k subs with
      | Ok thresh => reduced tokens (reduce0 (Terminal.Thresh thresh) term)
      | Err e => Some (Err (ErrThreshold e))
      end
  | NonTerm.EndIf =>
      match tokens with
      | Token.Else :: tokens =>
          continue [NonTerm.Expression; NonTerm.MaybeAndV; NonTerm.EndIfElse] tokens
      | Token.If :: tokens =>
          match tokens with
          | Token.Dup :: tokens => continue [NonTerm.DupIf] tokens
          | Token.ZeroNotEqual :: tokens =>
              match tokens with
              | Token.Size :: tokens => continue [NonTerm.NonZero] tokens
              | _ => error tokens
              end
          | _ => error tokens
          end
      | Token.NotIf :: tokens => continue [NonTerm.EndIfNotIf] tokens
      | _ => error tokens
      end
  | NonTerm.EndIfNotIf =>
      match tokens with
      | Token.IfDup :: tokens => continue [NonTerm.Expression; NonTerm.OrD] tokens
      | [] => error tokens
      | _ => continue [NonTerm.Expression; NonTerm.OrC] tokens
      end
  | NonTerm.EndIfElse =>
      match tokens with
      | Token.If :: tokens => reduced tokens (reduce2 Terminal.OrI term)
      | Token.NotIf :: tokens => continue [NonTerm.Expression; NonTerm.Tern] tokens
      | _ => error tokens
      end
  | NonTerm.WExpression =>
      if starts_inscription tokens then
        match take_inscriptions tokens with
        | Ok (i, tokens) =>
            continue [NonTerm.WExpression; NonTerm.InscribePost i; NonTerm.InscribePre] tokens
        | Err e => Some (Err e)
        end
      else
        match tokens with
        | Token.FromAltStack :: tokens =>
            continue [NonTerm.Expression; NonTerm.MaybeAndV; NonTerm.Alt; NonTerm.InscribePre] tokens
        | [] => error tokens
        | _ => continue [NonTerm.Expression; NonTerm.MaybeAndV; NonTerm.Swap; NonTerm.InscribePre] tokens
        end
  end.

(** The loop; [None] is a panic, or too little fuel. At the end one terminal must be left. *)
Fixpoint decode_loop (fuel : nat) (non_term : list NonTerm) (term : list Miniscript)
    (tokens : Tokens) : option (result DecodeError (Miniscript * Tokens)) :=
  match non_term with
  | [] => match term with [top] => Some (Ok (top, tokens)) | _ => None end
  | nt :: non_term =>
      match fuel with
      | 0 => None
      | S fuel =>
          r ← decode_step nt non_term term tokens;
          match r with
          | Ok (non_term, term, tokens) => decode_loop fuel non_term term tokens
          | Err e => Some (Err e)
          end
      end
  end.

Definition decode_fuel (tokens : Tokens) : nat := 100 * length tokens + 100.

(** [decode::decode]: the Miniscript and the tokens left. *)
Definition decode (tokens : Tokens) : option (result DecodeError (Miniscript * Tokens)) :=
  decode_loop (decode_fuel tokens) [NonTerm.Expression; NonTerm.MaybeAndV] [] tokens.

(** [Miniscript::decode_with_ext]. *)
Definition decode_with_ext (script : bytes) (ext : ExtParams)
  : option (result DecodeError Miniscript) :=
  tokens ← lex script;
  match tokens with
  | Err e => Some (Err (ScriptLexer e))
  | Ok tokens =>
      r ← decode (rev tokens);
      Some ('(top, iter) ← r;
            _ ← map_err (fun e => Invalid (ContextError e)) (check_global_validity ctx top);
            type_check ← map_err (fun e => Invalid (TypeCheck e)) (type_check (node top));
            if negb (bool_decide (c_base (corr type_check) = BaseB)) then Err (Invalid NonTopLevel)
            else
              match iter with
              | leading :: _ => Err (Trailing leading)
              | [] => _ ← map_err AnalysisFailed (ext_check ctx top ext); Ok top
              end)
  end.

Definition decode_script (script : bytes) : option (result DecodeError Miniscript) :=
  decode_with_ext script sane.

Definition decode_consensus (script : bytes) : option (result DecodeError Miniscript) :=
  decode_with_ext script allow_all.
End Decode.
