(* ===== verification/Translate.v ===== *)
(** Key translation (src/src/miniscript/mod.rs, src/src/lib.rs): the trait
    [Translator], and [translate_pk_ctx], which rebuilds a Miniscript from its nodes in
    right-to-left post-order with a stack of finished subtrees, and its refinement
    of the recursive translation. *)
From S2P Require Import Prelude Bitcoin Primitives Ord Correctness Malleability Types ExtData Tree StackLoop Ast Context.

(** The trait [Translator<P>], with its target [Q]. *)
Record Translator {B : Bitcoin} (P Q : MiniscriptKey) (E : Type) : Type := mkTranslator {
  tr_pk : Pk (MiniscriptKey := P) -> result E (Pk (MiniscriptKey := Q));
  tr_sha256 : Sha256 (MiniscriptKey := P) -> result E (Sha256 (MiniscriptKey := Q));
  tr_hash256 : Hash256 (MiniscriptKey := P) -> result E (Hash256 (MiniscriptKey := Q));
  tr_ripemd160 : Ripemd160 (MiniscriptKey := P) -> result E (Ripemd160 (MiniscriptKey := Q));
  tr_hash160 : Hash160 (MiniscriptKey := P) -> result E (Hash160 (MiniscriptKey := Q));
}.
Arguments mkTranslator {B P Q E}.
Arguments tr_pk {B P Q E} _ _.
Arguments tr_sha256 {B P Q E} _ _.
Arguments tr_hash256 {B P Q E} _ _.
Arguments tr_ripemd160 {B P Q E} _ _.
Arguments tr_hash160 {B P Q E} _ _.

(** [TranslateErr<E>] *)
Inductive TranslateErr (E : Type) : Type :=
| TranslatorErr (e : E)
| OuterError (e : Error).
Arguments TranslatorErr {E} e.
Arguments OuterError {E} e.

Section Translate.
Context {B : Bitcoin} {P Q : MiniscriptKey} {E : Type}.

(** The terminals over the source and the target keys. *)
Definition TermP : Type := Terminal (K := P) (Miniscript (K := P)).
Definition TermQ (M : Type) : Type := Terminal (K := Q) M.

(** The match of the loop: the new terminal, whose children come off the stack.
    [unwrap] on an empty stack is [None]. *)
Definition translate_term {M} (t : Translator P Q E) (term : TermP) (translated : list M)
  : option (result E (TermQ M) * list M) :=
  let unary (f : M -> TermQ M) :=
    '(a, translated) ← pop translated; Some (Ok (f a), translated) in
  let binary (f : M -> M -> TermQ M) :=
    '(a, translated) ← pop translated; '(b, translated) ← pop translated;
    Some (Ok (f a b), translated) in
  match term with
  | Terminal.PkK p => Some (p ← tr_pk t p; Ok (Terminal.PkK p), translated)
  | Terminal.PkH p => Some (p ← tr_pk t p; Ok (Terminal.PkH p), translated)
  | Terminal.RawPkH p => Some (Ok (Terminal.RawPkH p), translated)
  | Terminal.After n => Some (Ok (Terminal.After n), translated)
  | Terminal.Older n => Some (Ok (Terminal.Older n), translated)
  | Terminal.Sha256 x => Some (x ← tr_sha256 t x; Ok (Terminal.Sha256 x), translated)
  | Terminal.Hash256 x => Some (x ← tr_hash256 t x; Ok (Terminal.Hash256 x), translated)
  | Terminal.Ripemd160 x => Some (x ← tr_ripemd160 t x; Ok (Terminal.Ripemd160 x), translated)
  | Terminal.Hash160 x => Some (x ← tr_hash160 t x; Ok (Terminal.Hash160 x), translated)
  | Terminal.TxTemplate h => Some (Ok (Terminal.TxTemplate h), translated)
  | Terminal.True => Some (Ok Terminal.True, translated)
  | Terminal.False => Some (Ok Terminal.False, translated)
  | Terminal.InscribePre i _ => unary (Terminal.InscribePre i)
  | Terminal.InscribePost i _ => unary (Terminal.InscribePost i)
  | Terminal.Alt _ => unary Terminal.Alt
  | Terminal.Swap _ => unary Terminal.Swap
  | Terminal.Check _ => unary Terminal.Check
  | Terminal.DupIf _ => unary Terminal.DupIf
  | Terminal.Verify _ => unary Terminal.Verify
  | Terminal.NonZero _ => unary Terminal.NonZero
  | Terminal.ZeroNotEqual _ => unary Terminal.ZeroNotEqual
  | Terminal.AndV _ _ => binary Terminal.AndV
  | Terminal.AndB _ _ => binary Terminal.AndB
  | Terminal.AndOr _ _ _ =>
      '(a, translated) ← pop translated; '(b, translated) ← pop translated;
      '(c, translated) ← pop translated; Some (Ok (Terminal.AndOr a b c), translated)
  | Terminal.OrB _ _ => binary Terminal.OrB
  | Terminal.OrD _ _ => binary Terminal.OrD
  | Terminal.OrC _ _ => binary Terminal.OrC
  | Terminal.OrI _ _ => binary Terminal.OrI
  | Terminal.Thresh thresh =>
      '(subs, translated) ← pop_n (Threshold.n thresh) translated;
      Some (Ok (Terminal.Thresh (mkThreshold (Threshold.k thresh) subs)), translated)
  | Terminal.Multi thresh =>
      Some (thresh ← Threshold.translate (tr_pk t) thresh; Ok (Terminal.Multi thresh), translated)
  | Terminal.MultiA thresh =>
      Some (thresh ← Threshold.translate (tr_pk t) thresh; Ok (Terminal.MultiA thresh), translated)
  end.

(** The loop over the nodes, in right-to-left post-order. *)
Fixpoint translate_loop (ctx : ScriptContext) (t : Translator P Q E) (nodes : list (Miniscript (K := P)))
    (translated : list (Miniscript (K := Q))) : option (result (TranslateErr E) (Miniscript (K := Q))) :=
  match nodes with
  | [] => '(ms, _) ← pop translated; Some (Ok ms)
  | data :: nodes =>
      '(new_term, translated) ← translate_term t (node data) translated;
      match new_term with
      | Err e => Some (Err (TranslatorErr e))
      | Ok new_term =>
          match from_ast ctx new_term with
          | Err e => Some (Err (OuterError e))
          | Ok new_ms => translate_loop ctx t nodes (new_ms :: translated)
          end
      end
  end.

(** [translate_pk_ctx]; [ctx] is the target context. *)
Definition translate_pk_ctx (ctx : ScriptContext) (t : Translator P Q E) (ms : Miniscript (K := P))
  : option (result (TranslateErr E) (Miniscript (K := Q))) :=
  translate_loop ctx t (rtl_nodes ms) [].

(** ** The recursive translation *)

(** One node from its translated children. *)
Definition translate_node (ctx : ScriptContext) (t : Translator P Q E) (term : TermP)
    (subs : list (Miniscript (K := Q))) : result (TranslateErr E) (Miniscript (K := Q)) :=
  match translate_term t term subs with
  | Some (Ok new_term, _) => map_err OuterError (from_ast ctx new_term)
  | Some (Err e, _) => Err (TranslatorErr e)
  | None => Err (OuterError ImpossibleSatisfaction)
  end.

Definition translate (ctx : ScriptContext) (t : Translator P Q E)
  : Miniscript (K := P) -> result (TranslateErr E) (Miniscript (K := Q)) :=
  tree_fold (fun ms subs => subs ← collect_rtl subs; translate_node ctx t (node ms) subs).

Lemma translate_eq ctx t ms :
  translate ctx t ms
  = (subs ← collect_rtl (map (translate ctx t) (children ms)); translate_node ctx t (node ms) subs).
Proof. unfold translate at 1. by rewrite tree_fold_eq. Qed.

(** A node takes exactly its children off the stack. *)
Lemma translate_term_stack {M} t term (subs rest : list M) :
  length subs = length (terminal_children term) ->
  exists r, translate_term t term (subs ++ rest) = Some (r, rest)
    /\ translate_term t term subs = Some (r, []).
Proof.
  intros H. destruct term as [| | | | | | | | | | | | i s | i s | s | s | s | s | s | s | s
                   | l r | l r | a b c | l r | l r | l r | l r | th | |];
    cbn [terminal_children terminal_as_node length] in H;
    try (destruct subs as [|s1 [|s2 [|s3 [|? ?]]]]; simpl in H; try lia;
         eexists; split; reflexivity).
  cbn [translate_term]. unfold Threshold.data, Threshold.n in *. rewrite <- H. rewrite pop_n_app.
  pose proof (pop_n_app subs []) as Hn. rewrite app_nil_r in Hn. rewrite Hn.
  eexists. split; reflexivity.
Qed.

Definition loop_ok ctx (t : Translator P Q E) (ms : Miniscript (K := P)) : Prop :=
  forall nodes translated,
    translate_loop ctx t (rtl_nodes ms ++ nodes) translated
    = match translate ctx t ms with
      | Ok ms' => translate_loop ctx t nodes (ms' :: translated)
      | Err e => Some (Err e)
      end.

Lemma translate_children ctx t cs :
  Forall (loop_ok ctx t) cs ->
  forall nodes translated,
    translate_loop ctx t (flat_map rtl_nodes (rev cs) ++ nodes) translated
    = match collect_rtl (map (translate ctx t) cs) with
      | Ok subs => translate_loop ctx t nodes (subs ++ translated)
      | Err e => Some (Err e)
      end.
Proof.
  induction 1 as [|c cs Hc _ IH]; intros nodes translated; [done|].
  cbn [rev map collect_rtl]. rewrite flat_map_app. cbn [flat_map].
  rewrite app_nil_r, <- app_assoc, IH.
  destruct (collect_rtl (map (translate ctx t) cs)) as [subs|e]; [|done].
  rewrite Hc. by destruct (translate ctx t c).
Qed.

Lemma loop_ok_all ctx t ms : loop_ok ctx t ms.
Proof.
  induction ms as [ms IH] using tree_ind. intros nodes translated.
  rewrite rtl_nodes_eq, <- app_assoc, (translate_children _ _ _ IH), translate_eq.
  destruct (collect_rtl _) as [subs|e] eqn:Hs; [|done]. cbn [mbind result_bind app translate_loop].
  assert (length subs = length (terminal_children (node ms))) as Hlen.
  { apply collect_rtl_Ok, (f_equal length) in Hs. rewrite !length_map in Hs.
    by rewrite <- Hs, children_node. }
  destruct (translate_term_stack t (node ms) subs translated Hlen) as (r & H1 & H2).
  unfold translate_node. rewrite H1, H2. simpl.
  destruct r as [new_term|e]; [|done]. simpl. by destruct (from_ast ctx new_term).
Qed.

Lemma translate_pk_ctx_eq ctx t ms : translate_pk_ctx ctx t ms = Some (translate ctx t ms).
Proof.
  unfold translate_pk_ctx. pose proof (loop_ok_all ctx t ms [] []) as H.
  rewrite app_nil_r in H. rewrite H. by destruct (translate ctx t ms).
Qed.

Lemma translate_inv ctx t ms ms' :
  translate ctx t ms = Ok ms' ->
  exists subs, map (translate ctx t) (children ms) = map Ok subs
    /\ translate_term t (node ms) subs = Some (Ok (node ms'), [])
    /\ from_ast ctx (node ms') = Ok ms'.
Proof.
  rewrite translate_eq. intros (subs & Hs%collect_rtl_Ok & H)%bind_Ok_inv. exists subs.
  split; [done|]. unfold translate_node in H.
  assert (length subs = length (terminal_children (node ms))) as Hlen.
  { apply (f_equal length) in Hs. rewrite !length_map in Hs. by rewrite <- Hs, children_node. }
  destruct (translate_term_stack t (node ms) subs [] Hlen) as (r & _ & Hr).
  rewrite Hr in H |- *. destruct r as [term|]; [|done].
  apply map_err_Ok_inv in H.
  assert (node ms' = term) as ->; [|done].
  apply from_ast_inv in H as (ty & _ & -> & _). done.
Qed.

(** ** Translators that cannot fail, into a context without checks *)

Class Infallible (t : Translator P Q E) : Prop := {
  infallible_pk : forall p, exists q, tr_pk t p = Ok q;
  infallible_sha256 : forall x, exists y, tr_sha256 t x = Ok y;
  infallible_hash256 : forall x, exists y, tr_hash256 t x = Ok y;
  infallible_ripemd160 : forall x, exists y, tr_ripemd160 t x = Ok y;
  infallible_hash160 : forall x, exists y, tr_hash160 t x = Ok y;
}.

Lemma collect_total {F A C} (f : A -> result F C) l :
  (forall a, exists c, f a = Ok c) -> exists l', Threshold.collect f l = Ok l'.
Proof.
  intros H. induction l as [|a l [l' IH]]; [by exists []|].
  destruct (H a) as [c Hc]. exists (c :: l'). simpl. by rewrite Hc, IH.
Qed.

(** The shape of a translated terminal, and what typing sees of it. *)
Lemma translate_term_total (t : Translator P Q E) {I : Infallible t} (term : TermP)
    (subs : list (Miniscript (K := Q))) :
  map ty subs = map ty (terminal_children term) -> node_valid term ->
  exists term', translate_term t term subs = Some (Ok term', [])
    /\ terminal_children term' = subs /\ type_check term' = type_check term /\ node_valid term'.
Proof.
  intros Hty Hv.
  assert (length subs = length (terminal_children term)) as Hlen
    by by rewrite <- (length_map ty subs), Hty, length_map.
  destruct term as [| | p | p | | | | x | x | x | x | | i s | i s | s | s | s | s | s | s | s
                   | l r | l r | a b c | l r | l r | l r | l r | th | th | th];
    cbn [terminal_children terminal_as_node length] in Hlen, Hty;
    try (destruct subs as [|s1 [|s2 [|s3 [|? ?]]]]; simpl in Hlen; try lia; clear Hlen;
         cbn [map] in Hty; simplify_eq;
         eexists; split; [reflexivity|]; split; [reflexivity|]; split;
         [cbn [type_check]; repeat lazymatch goal with
                            | H : ty _ = ty _ |- _ => rewrite H; clear H end; reflexivity
         | exact Hv]).
  - destruct subs; [|done]. destruct (infallible_pk p) as [q Hq].
    exists (Terminal.PkK q). cbn [translate_term]. by rewrite Hq.
  - destruct subs; [|done]. destruct (infallible_pk p) as [q Hq].
    exists (Terminal.PkH q). cbn [translate_term]. by rewrite Hq.
  - destruct subs; [|done]. destruct (infallible_sha256 x) as [q Hq].
    exists (Terminal.Sha256 q). cbn [translate_term]. by rewrite Hq.
  - destruct subs; [|done]. destruct (infallible_hash256 x) as [q Hq].
    exists (Terminal.Hash256 q). cbn [translate_term]. by rewrite Hq.
  - destruct subs; [|done]. destruct (infallible_ripemd160 x) as [q Hq].
    exists (Terminal.Ripemd160 q). cbn [translate_term]. by rewrite Hq.
  - destruct subs; [|done]. destruct (infallible_hash160 x) as [q Hq].
    exists (Terminal.Hash160 q). cbn [translate_term]. by rewrite Hq.
  - exists (Terminal.Thresh (mkThreshold (Threshold.k th) subs)). cbn [translate_term].
    unfold Threshold.n, Threshold.data in *. rewrite <- Hlen.
    pose proof (pop_n_app subs []) as Hp. rewrite app_nil_r in Hp. rewrite Hp. simpl.
    repeat split; try done.
    + cbn [type_check]. unfold Threshold.data. simpl. by rewrite Hty.
    + unfold Threshold.n in *. simpl. destruct Hv as [[??] _]. lia.
    + unfold Threshold.n in *. simpl. destruct Hv as [[Hk Hn] _]. unfold Threshold.n in Hn. lia.
    + unfold Threshold.n in *. simpl. destruct Hv as [_ [?|?]]; [by left | right].
      unfold Threshold.n in *. lia.
  - destruct subs; [|done].
    destruct (collect_total (tr_pk t) (Threshold.inner th) infallible_pk) as [l Hl].
    exists (Terminal.Multi (mkThreshold (Threshold.k th) l)). cbn [translate_term].
    unfold Threshold.translate. rewrite Hl. simpl. repeat split; try done.
    all: apply Threshold.collect_length in Hl; destruct Hv as [[??] ?];
      unfold Threshold.n in *; simpl in *; try lia.
  - destruct subs; [|done].
    destruct (collect_total (tr_pk t) (Threshold.inner th) infallible_pk) as [l Hl].
    exists (Terminal.MultiA (mkThreshold (Threshold.k th) l)). cbn [translate_term].
    unfold Threshold.translate. rewrite Hl. simpl. repeat split; try done.
    all: apply Threshold.collect_length in Hl; destruct Hv as [[??] ?];
      unfold Threshold.n in *; simpl in *; try lia.
Qed.

Lemma from_ast_no_checks (term : TermQ (Miniscript (K := Q))) t :
  type_check term = Ok t -> Forall (wf NoChecks) (terminal_children term) -> node_valid term ->
  height (mkMiniscript term t (ext_type_check Ecdsa term)) <= MAX_RECURSION_DEPTH ->
  from_ast NoChecks term = Ok (mkMiniscript term t (ext_type_check Ecdsa term)).
Proof.
  intros Ht Hc Hv Hh. unfold from_ast. rewrite Ht. cbn [map_err mbind result_bind].
  assert (wf NoChecks (mkMiniscript term t (ext_type_check Ecdsa term))) as Hwf by by constructor.
  pose proof (wf_height _ _ Hwf) as He. cbn [ext] in He. cbn [sig_type ext].
  destruct (Nat.ltb_spec MAX_RECURSION_DEPTH (tree_height (ext_type_check Ecdsa term))); [lia|].
  reflexivity.
Qed.

Lemma height_child {K : MiniscriptKey} (ms c : Miniscript) n :
  height ms <= n -> In c (children ms) -> height c <= n.
Proof.
  rewrite (height_eq ms). intros H Hin. destruct (children ms) as [|x l] eqn:Ex; [done|].
  rewrite <- Ex in *.
  pose proof (proj1 (list_max_le (map height (children ms)) (n - 1)) ltac:(lia)) as Hf.
  apply List.Forall_map in Hf. rewrite List.Forall_forall in Hf. specialize (Hf c Hin). simpl in Hf. lia.
Qed.

(** Such a translation succeeds, keeps every type and is well typed. *)
Lemma translate_total ctx (t : Translator P Q E) {I : Infallible t} ms :
  wf ctx ms -> height ms <= MAX_RECURSION_DEPTH ->
  exists ms', translate NoChecks t ms = Ok ms'
    /\ wf NoChecks ms' /\ ty ms' = ty ms /\ height ms' = height ms.
Proof.
  revert ms. refine (wf_tree_ind ctx _ _). intros ms Hwf _ IH Hh.
  destruct (wf_inv _ _ Hwf) as (_ & Hv & Ht & _).
  assert (exists subs, map (translate NoChecks t) (children ms) = map Ok subs
    /\ Forall (wf NoChecks) subs /\ map ty subs = map ty (children ms)
    /\ map height subs = map height (children ms)) as (subs & Hs & Hw & Hty & Hhs).
  { pose proof (height_child ms) as Hch.
    assert (forall c, In c (children ms) -> height c <= MAX_RECURSION_DEPTH) as Hc by eauto.
    clear -IH Hc. induction IH as [|c cs Hx _ IHl]; [by exists []|].
    destruct Hx as (c' & H1 & H2 & H3 & H4); [apply Hc; by left|].
    destruct IHl as (subs & ? & ? & ? & ?); [intros; apply Hc; by right|].
    exists (c' :: subs). simpl. repeat split; [congruence | by constructor | congruence..]. }
  rewrite children_node in Hty.
  destruct (translate_term_total t (node ms) subs Hty Hv) as (term & Htt & Hct & Htc & Hnv).
  rewrite translate_eq, (proj2 (collect_rtl_Ok _ subs) Hs). cbn [mbind result_bind].
  unfold translate_node. rewrite Htt.
  set (ms' := mkMiniscript term (ty ms) (ext_type_check Ecdsa term)).
  assert (height ms' = height ms) as Hhm.
  { rewrite (height_eq ms'), (height_eq ms), !children_node. cbn [node ms'].
    rewrite Hct, <- !children_node. destruct (children ms), subs; simpl in *; congruence. }
  exists ms'. rewrite (from_ast_no_checks term (ty ms)).
  - split_and!; try done. constructor; [by rewrite Hct | done | by rewrite Htc | done].
  - by rewrite Htc.
  - by rewrite Hct.
  - done.
  - fold ms'. lia.
Qed.
End Translate.
