(* ===== verification/Semantic.v ===== *)
(** Abstract policies (src/src/policy/semantic.rs): the type [Policy], its traversals,
    normalisation, entailment, the filters by lock time, and key counts. *)
From S2P Require Import Prelude Bitcoin Primitives Ord Tree StackLoop Translate.

Module Semantic.

(** [Policy<Pk>]. *)
#[warnings="-register-all"]
Inductive Policy {B : Bitcoin} {K : MiniscriptKey} : Type :=
| Unsatisfiable
| Trivial
| Key (pk : Pk)
| After (t : AbsLockTime)
| Older (t : RelLockTime)
| Sha256 (h : Primitives.Sha256)
| Hash256 (h : Primitives.Hash256)
| Ripemd160 (h : Primitives.Ripemd160)
| Hash160 (h : Primitives.Hash160)
| TxTemplate (h : sha256_Hash)
| Inscribe (i : Inscription) (sub : Policy)
| Thresh (thresh : Threshold Policy).

Section Policies.
Context {B : Bitcoin} {K : MiniscriptKey}.

(** [TreeLike for &Policy]. *)
#[export] Instance Policy_TreeLike : TreeLike Policy := fun self =>
  match self with
  | Unsatisfiable | Trivial | Key _ | After _ | Older _ | Sha256 _ | Hash256 _
  | Ripemd160 _ | Hash160 _ | TxTemplate _ => Nullary
  | Inscribe _ sub => Unary sub
  | Thresh thresh => Nary (Threshold.data thresh)
  end.

Fixpoint policy_fold {A} (f : Policy -> list A -> A) (p : Policy) : A :=
  f p
    (match p with
     | Inscribe _ sub => [policy_fold f sub]
     | Thresh (Threshold.mkThreshold _ l) => map (policy_fold f) l
     | _ => []
     end).

Lemma policy_fold_eq {A} (f : Policy -> list A -> A) p :
  policy_fold f p = f p (map (policy_fold f) (children p)).
Proof. destruct p; try reflexivity. by destruct thresh. Qed.

Lemma Policy_tree_ind (P : Policy -> Prop) :
  (forall p, Forall P (children p) -> P p) -> forall p, P p.
Proof.
  intros H. fix IH 1. intros p. apply H. destruct p as [| | | | | | | | | |i sub|[k l]]; cbn.
  all: try exact (Forall_nil_2 _).
  - exact (Forall_cons_2 _ _ _ (IH _) (Forall_nil_2 _)).
  - exact ((fix go (l : list Policy) : Forall P l :=
              match l with
              | [] => Forall_nil_2 _
              | x :: l => Forall_cons_2 _ _ _ (IH x) (go l)
              end) l).
Qed.

#[export] Instance Policy_WfTree : WfTree Policy := {|
  tree_fold := @policy_fold;
  tree_fold_eq := @policy_fold_eq;
  tree_ind := Policy_tree_ind;
|}.

(** The policies without branches. *)
Definition is_leaf (p : Policy) : bool :=
  match p with Inscribe _ _ | Thresh _ => false | _ => true end.

(** Case analysis in which only the two combinators keep an induction hypothesis. *)
Lemma policy_ind (P : Policy -> Prop) :
  (forall p, is_leaf p = true -> P p) ->
  (forall i sub, P sub -> P (Inscribe i sub)) ->
  (forall k l, Forall P l -> P (Thresh (mkThreshold k l))) ->
  forall p, P p.
Proof.
  intros Hleaf Hins Hth. induction p as [p IH] using Policy_tree_ind.
  destruct p as [| | | | | | | | | |i sub|[k l]]; try by apply Hleaf.
  - apply Hins. by apply Forall_cons_1 in IH as [? _].
  - by apply Hth.
Qed.

(** The derived equality. *)
Fixpoint policy_eqb (p q : Policy) : bool :=
  match p, q with
  | Unsatisfiable, Unsatisfiable | Trivial, Trivial => true
  | Key a, Key b => bool_decide (a = b)
  | After a, After b => bool_decide (a = b)
  | Older a, Older b => bool_decide (a = b)
  | Sha256 a, Sha256 b => bool_decide (a = b)
  | Hash256 a, Hash256 b => bool_decide (a = b)
  | Ripemd160 a, Ripemd160 b => bool_decide (a = b)
  | Hash160 a, Hash160 b => bool_decide (a = b)
  | TxTemplate a, TxTemplate b => bool_decide (a = b)
  | Inscribe i p, Inscribe j q => bool_decide (i = j) && policy_eqb p q
  | Thresh (Threshold.mkThreshold k l), Thresh (Threshold.mkThreshold k' l') =>
      (k =? k')
      && (fix go l l' := match l, l' with
                         | [], [] => true
                         | p :: l, q :: l' => policy_eqb p q && go l l'
                         | _, _ => false
                         end) l l'
  | _, _ => false
  end.

Lemma policy_eqb_spec p q : policy_eqb p q = true <-> p = q.
Proof.
  revert q. induction p as [p Hp|i sub IH|k l IH] using policy_ind; intros q.
  - destruct p; try done; destruct q as [| | | | | | | | | | |[k' l']]; cbn [policy_eqb];
      rewrite ?bool_decide_eq_true; split; congruence.
  - destruct q; cbn [policy_eqb]; try (split; congruence).
    rewrite andb_true_iff, bool_decide_eq_true, IH. split; [by intros [-> ->] | by intros [= -> ->]].
  - destruct q as [| | | | | | | | | | |[k' l']]; cbn [policy_eqb]; try (split; congruence).
    rewrite andb_true_iff, Nat.eqb_eq.
    transitivity (k = k' /\ l = l'); [|split; [by intros [-> ->] | by intros [= -> ->]]].
    assert (forall P Q R : Prop, (Q <-> R) -> (P /\ Q <-> P /\ R)) as Hiff by tauto. apply Hiff.
    clear k k' Hiff. revert l'. induction IH as [|p l Hp _ IHl]; intros [|q l']; try (split; congruence).
    rewrite andb_true_iff, Hp, IHl. split; [by intros [-> ->] | by intros [= -> ->]].
Qed.

#[export] Instance Policy_eq_dec : EqDecision Policy.
Proof.
  intros p q. destruct (policy_eqb p q) eqn:E.
  - left. by apply policy_eqb_spec.
  - right. intros H%policy_eqb_spec. congruence.
Defined.

(** Every threshold of the policy is one its checked constructor accepts. *)
#[warnings="-register-all"]
Inductive valid : Policy -> Prop :=
| valid_leaf p : is_leaf p = true -> valid p
| valid_inscribe i sub : valid sub -> valid (Inscribe i sub)
| valid_thresh k l : 1 <= k <= length l -> Forall valid l -> valid (Thresh (mkThreshold k l)).

(** ** Traversals *)

(** [for_each_key]. *)
Definition for_each_key (pred : Pk -> bool) (self : Policy) : bool :=
  forallb (fun policy => match policy with Key pk => pred pk | _ => true end) (pre_order self).

Definition is_trivial (self : Policy) : bool :=
  match self with Trivial => true | _ => false end.

Definition is_unsatisfiable (self : Policy) : bool :=
  match self with Unsatisfiable => true | _ => false end.

Definition real_relative_timelocks (self : Policy) : list N :=
  omap (fun policy => match policy with
                      | Older t => Some (rel_to_consensus_u32 t)
                      | _ => None
                      end) (pre_order self).

Definition real_absolute_timelocks (self : Policy) : list N :=
  omap (fun policy => match policy with
                      | After t => Some (abs_to_consensus_u32 t)
                      | _ => None
                      end) (pre_order self).

(** [sort_unstable] on integers, and [dedup]. *)
Fixpoint dedup (l : list N) : list N :=
  match l with
  | [] => []
  | a :: l =>
      match dedup l with
      | b :: l' => if (a =? b)%N then b :: l' else a :: b :: l'
      | [] => [a]
      end
  end.

Definition sort_dedup (ret : list N) : list N := dedup (sort_by_key N.leb (fun x => x) ret).

Definition relative_timelocks (self : Policy) : list N :=
  sort_dedup (real_relative_timelocks self).

Definition absolute_timelocks (self : Policy) : list N :=
  sort_dedup (real_absolute_timelocks self).

Definition n_keys (self : Policy) : nat :=
  length (List.filter (fun policy => match policy with Key _ => true | _ => false end)
            (pre_order self)).

(** ** Normalisation *)

(** What a normalised branch contributes to the threshold it is a branch of. *)
Definition flatten_branch (is_and is_or : bool) (sub : Policy) : list Policy :=
  match sub with
  | Trivial | Unsatisfiable => []
  | Thresh subthresh =>
      match is_and, is_or with
      | true, true => [Thresh subthresh]
      | true, false =>
          if Threshold.k subthresh =? Threshold.n subthresh then Threshold.data subthresh
          else [Thresh subthresh]
      | false, true =>
          if Threshold.k subthresh =? 1 then Threshold.data subthresh else [Thresh subthresh]
      | false, false => [Thresh subthresh]
      end
  | x => [x]
  end.

(** [Policy::Thresh(Threshold::new(k, subs).unwrap())] *)
Definition unwrap_thresh (k : nat) (subs : list Policy) : option Policy :=
  match Threshold.new 0 k subs with
  | Ok t => Some (Thresh t)
  | Err _ => None
  end.

(** The arm for [Thresh], from the normalised branches. *)
Definition normalize_thresh (k : nat) (subs : list Policy) : option Policy :=
  let trivial_count := length (List.filter (fun pol => policy_eqb pol Trivial) subs) in
  let unsatisfied_count := length (List.filter (fun pol => policy_eqb pol Unsatisfiable) subs) in
  let n := length subs - unsatisfied_count - trivial_count in
  let m := k - trivial_count in
  let is_and := m =? n in
  let is_or := m =? 1 in
  let ret_subs := flat_map (flatten_branch is_and is_or) subs in
  if m =? 0 then Some Trivial
  else if length ret_subs <? m then Some Unsatisfiable
  else if length ret_subs =? 1 then '(policy, _) ← pop (rev ret_subs); Some policy
  else if is_and then unwrap_thresh (length ret_subs) ret_subs
  else if is_or then unwrap_thresh 1 ret_subs
  else unwrap_thresh m ret_subs.

Fixpoint normalized (self : Policy) : option Policy :=
  match self with
  | Inscribe i sub =>
      child ← normalized sub;
      match child with
      | Unsatisfiable => Some Unsatisfiable
      | child => Some (Inscribe i child)
      end
  | Thresh (Threshold.mkThreshold k l) => subs ← mapM normalized l; normalize_thresh k subs
  | x => Some x
  end.

(** ** Entailment *)

Definition ENTAILMENT_MAX_TERMINALS : nat := 20.

(** [n_terminals]; an inscription counts as a leaf and leaves its branch on the stack. *)
Definition n_terminals_step (node : Policy) (stack : list nat) : option (nat * list nat) :=
  match node with
  | Thresh thresh => '(l, stack) ← pop_n (Threshold.n thresh) stack; Some (list_sum l, stack)
  | Trivial | Unsatisfiable => Some (0, stack)
  | _leaf => Some (1, stack)
  end.

Definition n_terminals (self : Policy) : option nat := stack_root n_terminals_step self.

(** [first_constraint]; the index panics on an empty threshold. *)
Fixpoint first_constraint (self : Policy) : option Policy :=
  match self with
  | Thresh (Threshold.mkThreshold _ l) =>
      match l with
      | sub :: _ => first_constraint sub
      | [] => None
      end
  | first => Some first
  end.

Fixpoint satisfy_constraint (self witness : Policy) (available : bool) : option Policy :=
  match witness with
  | Thresh _ => None
  | _ =>
      ret ← match self with
            | Thresh (Threshold.mkThreshold k l) =>
                subs ← mapM (fun sub => satisfy_constraint sub witness available) l;
                Some (Thresh (mkThreshold k subs))
            | leaf =>
                if policy_eqb leaf witness
                then Some (if available then Trivial else Unsatisfiable)
                else Some leaf
            end;
      normalized ret
  end.

Definition contains_inscribe (p : Policy) : bool :=
  existsb (fun p => match p with Inscribe _ _ => true | _ => false end) (pre_order p).

(** [entails]: the outer option is a panic or a recursion deeper than [fuel], the inner
    one the result, [None] for policies too large to analyse. *)
Fixpoint entails_fuel (fuel : nat) (self other : Policy) : option (option bool) :=
  match fuel with
  | 0 => None
  | S fuel =>
      if contains_inscribe self || contains_inscribe other then Some None
      else
        n ← n_terminals self;
        if ENTAILMENT_MAX_TERMINALS <? n then Some None
        else
          match self, other with
          | Unsatisfiable, _ => Some (Some true)
          | Trivial, Trivial => Some (Some true)
          | Trivial, _ => Some (Some false)
          | _, Unsatisfiable => Some (Some false)
          | a, b =>
              a_norm ← normalized a; b_norm ← normalized b;
              c ← first_constraint a_norm;
              a1 ← satisfy_constraint a_norm c true; b1 ← satisfy_constraint b_norm c true;
              a2 ← satisfy_constraint a_norm c false; b2 ← satisfy_constraint b_norm c false;
              r1 ← entails_fuel fuel a1 b1;
              match r1 with
              | Some true => entails_fuel fuel a2 b2
              | Some false => Some (Some false)
              | None => Some None
              end
          end
  end.

(** Every recursive call has fewer terminals, of which there are at most twenty. *)
Definition entails (self other : Policy) : option (option bool) :=
  entails_fuel (ENTAILMENT_MAX_TERMINALS + 2) self other.

(** ** Filters by lock time *)

(** The loops of [at_age], [at_lock_time]: [f] rewrites a leaf. *)
Definition filter_step (f : Policy -> option Policy) (node : Policy) (stack : list Policy)
  : option (Policy * list Policy) :=
  match node with
  | Thresh thresh =>
      '(subs, stack) ← pop_n (Threshold.n thresh) stack;
      Some (Thresh (mkThreshold (Threshold.k thresh) subs), stack)
  | Inscribe i _ => '(sub, stack) ← pop stack; Some (Inscribe i sub, stack)
  | leaf => leaf ← f leaf; Some (leaf, stack)
  end.

(** [From<RelLockTime> for relative::LockTime] panics on a bad sequence number. *)
Definition age_leaf (age : RelativeLockTime) (leaf : Policy) : option Policy :=
  match leaf with
  | Older t =>
      t' ← rel_to_relative t;
      Some (if RelativeLockTime_is_implied_by t' age then Older t else Unsatisfiable)
  | leaf => Some leaf
  end.

Definition at_age (self : Policy) (age : RelativeLockTime) : option Policy :=
  policy ← stack_root (filter_step (age_leaf age)) self; normalized policy.

Definition lock_time_leaf (n : LockTime) (leaf : Policy) : option Policy :=
  match leaf with
  | After t => Some (if LockTime_is_implied_by (abs_inner t) n then After t else Unsatisfiable)
  | leaf => Some leaf
  end.

Definition at_lock_time (self : Policy) (n : LockTime) : option Policy :=
  policy ← stack_root (filter_step (lock_time_leaf n)) self; normalized policy.

(** ** Key counts *)

(** [minimum_n_keys]: the cheapest [k] of the satisfiable branches. *)
Definition minimum_thresh (k : nat) (subs : list (option nat)) : option nat :=
  let sublens := omap (fun sub => sub) subs in
  if length sublens <? k then None
  else Some (list_sum (take k (sort_by_key Nat.leb (fun x => x) sublens))).

Definition minimum_step (node : Policy) (stack : list (option nat))
  : option (option nat * list (option nat)) :=
  match node with
  | Unsatisfiable => Some (None, stack)
  | Trivial | After _ | Older _ | Sha256 _ | Hash256 _ | Ripemd160 _ | Hash160 _ | TxTemplate _ =>
      Some (Some 0, stack)
  | Inscribe _ _ => pop stack
  | Key _ => Some (Some 1, stack)
  | Thresh thresh =>
      '(subs, stack) ← pop_n (Threshold.n thresh) stack;
      Some (minimum_thresh (Threshold.k thresh) subs, stack)
  end.

Definition minimum_n_keys (self : Policy) : option (option nat) := stack_root minimum_step self.

End Policies.
End Semantic.
