(* ===== verification/PolicyNormal.v ===== *)
(** The meaning of abstract policies and their normal forms: [normalized] keeps the
    meaning, and its results are exactly the policies it leaves unchanged. *)
From S2P Require Import Prelude Bitcoin Primitives Ord Tree StackLoop Semantic.
Import Semantic.

Section Normal.
Context {B : Bitcoin} {K : MiniscriptKey}.

(** * Meaning

    A valuation says which constraints are met; a policy is a monotone Boolean
    function of them. Inscriptions constrain nothing. *)
Definition valuation : Type := Policy -> bool.

Fixpoint holds (v : valuation) (p : Policy) : bool :=
  match p with
  | Unsatisfiable => false
  | Trivial => true
  | Inscribe _ sub => holds v sub
  | Thresh (Threshold.mkThreshold k l) => k <=? count_if (holds v) l
  | leaf => v leaf
  end.

Definition entailed (a b : Policy) : Prop := forall v, holds v a = true -> holds v b = true.
Definition equivalent (a b : Policy) : Prop := forall v, holds v a = holds v b.

#[export] Instance equivalent_equivalence : Equivalence equivalent.
Proof.
  split; [by intros ? ? | by intros ? ? H ?; rewrite H | intros ? ? ? H H' v; by rewrite H, H'].
Qed.

#[export] Instance entailed_proper : Proper (equivalent ==> equivalent ==> iff) entailed.
Proof.
  intros a a' Ha b b' Hb. unfold entailed.
  split; intros H v; [rewrite <- (Ha v), <- (Hb v) | rewrite (Ha v), (Hb v)]; apply H.
Qed.

(** * Normal forms *)

(** [Trivial] and [Unsatisfiable]. *)
Definition is_const (p : Policy) : bool := is_trivial p || is_unsatisfiable p.

(** A branch that a conjunction, a disjunction of [n] branches, would absorb. *)
Definition absorbed (k n : nat) (p : Policy) : bool :=
  match p with
  | Thresh t =>
      ((k =? n) && (Threshold.k t =? Threshold.n t)) || ((k =? 1) && (Threshold.k t =? 1))
  | _ => false
  end.

#[warnings="-register-all"]
Inductive normal : Policy -> Prop :=
| normal_leaf p : is_leaf p = true -> normal p
| normal_inscribe i sub : normal sub -> sub <> Unsatisfiable -> normal (Inscribe i sub)
| normal_thresh k l :
    2 <= length l -> 1 <= k <= length l -> Forall normal l ->
    Forall (fun p => is_const p = false) l ->
    Forall (fun p => absorbed k (length l) p = false) l ->
    normal (Thresh (mkThreshold k l)).

Lemma normal_thresh_inv k l :
  normal (Thresh (mkThreshold k l)) ->
  2 <= length l /\ 1 <= k <= length l /\ Forall normal l
  /\ Forall (fun p => is_const p = false) l
  /\ Forall (fun p => absorbed k (length l) p = false) l.
Proof. inversion 1; simplify_eq/=. split_and!; done || lia. Qed.

(** ** One threshold of normal branches *)

Definition branches_of (subs : list Policy) : list Policy :=
  List.filter (fun p => negb (is_const p)) subs.
Definition trivial_count (subs : list Policy) : nat :=
  length (List.filter (fun pol => policy_eqb pol Trivial) subs).
Definition unsatisfied_count (subs : list Policy) : nat :=
  length (List.filter (fun pol => policy_eqb pol Unsatisfiable) subs).

Lemma eqb_trivial p : policy_eqb p Trivial = is_trivial p.
Proof. by destruct p as [| | | | | | | | | | |[]]. Qed.

Lemma eqb_unsatisfiable p : policy_eqb p Unsatisfiable = is_unsatisfiable p.
Proof. by destruct p as [| | | | | | | | | | |[]]. Qed.

Lemma count_parts subs :
  length subs = length (branches_of subs) + unsatisfied_count subs + trivial_count subs.
Proof.
  unfold branches_of, unsatisfied_count, trivial_count, is_const.
  induction subs as [|p subs IH]; [done|]. cbn [List.filter].
  rewrite eqb_trivial, eqb_unsatisfiable. destruct p; simpl; lia.
Qed.

Lemma holds_parts v subs :
  count_if (holds v) subs = trivial_count subs + count_if (holds v) (branches_of subs).
Proof.
  unfold branches_of, trivial_count, is_const.
  induction subs as [|p subs IH]; [done|]. cbn [List.filter].
  rewrite eqb_trivial, count_if_cons, IH.
  destruct p; cbn [is_trivial is_unsatisfiable orb negb length holds];
    rewrite ?count_if_cons; simpl; lia.
Qed.

Lemma flatten_const is_and is_or p : is_const p = true -> flatten_branch is_and is_or p = [].
Proof. by destruct p. Qed.

Lemma flatten_branches is_and is_or subs :
  flat_map (flatten_branch is_and is_or) subs
  = flat_map (flatten_branch is_and is_or) (branches_of subs).
Proof.
  unfold branches_of. induction subs as [|p subs IH]; [done|]. cbn [List.filter flat_map].
  destruct (is_const p) eqn:E; cbn [negb flat_map]; rewrite IH; [by rewrite flatten_const|done].
Qed.

Lemma flatten_keep is_and is_or p :
  is_const p = false -> is_and = is_or -> flatten_branch is_and is_or p = [p].
Proof. intros H ->. by destruct p, is_or. Qed.

Lemma flatten_keep_all is_and is_or l :
  Forall (fun p => is_const p = false) l -> is_and = is_or ->
  flat_map (flatten_branch is_and is_or) l = l.
Proof.
  intros H Hb. induction H as [|p l Hp _ IH]; [done|].
  cbn [flat_map]. by rewrite flatten_keep, IH.
Qed.

Lemma branches_const subs : Forall (fun p => is_const p = false) (branches_of subs).
Proof.
  unfold branches_of. induction subs as [|p subs IH]; [constructor|]. cbn [List.filter].
  destruct (is_const p) eqn:E; [done|]. by constructor.
Qed.

Lemma branches_normal subs : Forall normal subs -> Forall normal (branches_of subs).
Proof.
  unfold branches_of. induction 1 as [|p subs Hp _ IH]; [constructor|]. cbn [List.filter].
  destruct (is_const p); [done|]. by constructor.
Qed.

(** The facts about a flattened branch that the cases below need. *)
Lemma flatten_and_branch v p :
  normal p -> is_const p = false ->
  forallb (holds v) (flatten_branch true false p) = holds v p
  /\ 1 <= length (flatten_branch true false p)
  /\ Forall normal (flatten_branch true false p)
  /\ Forall (fun q => is_const q = false) (flatten_branch true false p)
  /\ Forall (fun q => forall k n, k <> 1 -> absorbed k n q = false) (flatten_branch true false p).
Proof.
  intros Hp Hc. destruct (decide (flatten_branch true false p = [p])) as [E|E].
  - rewrite E. simpl. rewrite andb_true_r. split_and!; [done | lia | by constructor | by constructor|].
    constructor; [|constructor]. intros k n Hk. destruct p as [| | | | | | | | | | |[k' l]]; try done.
    simpl in E |- *. destruct (Nat.eqb_spec k' (Threshold.n (mkThreshold k' l))) as [|Hn].
    + unfold Threshold.data in E. simpl in E. apply normal_thresh_inv in Hp as (?&?&?).
      apply (f_equal length) in E. simpl in E. lia.
    + destruct (Nat.eqb_spec k 1); [lia|]. simpl. rewrite andb_false_r. done.
  - destruct p as [| | | | | | | | | | |[k' l]]; try done.
    cbn [flatten_branch Threshold.k] in E |- *.
    destruct (Nat.eqb_spec k' (Threshold.n (mkThreshold k' l))) as [Hn|]; [|done].
    unfold Threshold.n, Threshold.data in *. cbn [Threshold.inner Threshold.k] in *.
    apply normal_thresh_inv in Hp as (Hl & Hk & Hns & Hcs & Ha). cbn [holds].
    split_and!; [|lia|done|done|].
    + apply eq_iff_eq_true. rewrite <- count_if_all, Nat.leb_le. lia.
    + eapply Forall_impl; [|exact Ha]. intros q Hq j n Hj. unfold absorbed in *.
      destruct q as [| | | | | | | | | | |t]; try done.
      rewrite (proj2 (Nat.eqb_eq k' (length l)) Hn) in Hq. simpl in Hq.
      apply orb_false_iff in Hq as [-> _]. rewrite andb_false_r. simpl.
      destruct (Nat.eqb_spec j 1); [lia|done].
Qed.

Lemma flatten_or_branch v p :
  normal p -> is_const p = false ->
  existsb (holds v) (flatten_branch false true p) = holds v p
  /\ 1 <= length (flatten_branch false true p)
  /\ Forall normal (flatten_branch false true p)
  /\ Forall (fun q => is_const q = false) (flatten_branch false true p)
  /\ Forall (fun q => forall k n, k <> n -> absorbed k n q = false) (flatten_branch false true p).
Proof.
  intros Hp Hc. destruct (decide (flatten_branch false true p = [p])) as [E|E].
  - rewrite E. simpl. rewrite orb_false_r. split_and!; [done | lia | by constructor | by constructor|].
    constructor; [|constructor]. intros k n Hk. destruct p as [| | | | | | | | | | |[k' l]]; try done.
    cbn in E |- *. destruct (Nat.eqb_spec k' 1) as [|Hn].
    + unfold Threshold.data in E. simpl in E. apply normal_thresh_inv in Hp as (?&?&?).
      apply (f_equal length) in E. simpl in E. lia.
    + destruct (Nat.eqb_spec k n); [lia|]. simpl. rewrite andb_false_r. done.
  - destruct p as [| | | | | | | | | | |[k' l]]; try done.
    cbn [flatten_branch Threshold.k] in E |- *. destruct (Nat.eqb_spec k' 1) as [->|]; [|done].
    unfold Threshold.data in *. cbn [Threshold.inner] in *.
    apply normal_thresh_inv in Hp as (Hl & Hk & Hns & Hcs & Ha). cbn [holds].
    split_and!; [|lia|done|done|].
    + apply eq_iff_eq_true. by rewrite <- count_if_some, Nat.leb_le.
    + eapply Forall_impl; [|exact Ha]. intros q Hq j n Hj. unfold absorbed in *.
      destruct q as [| | | | | | | | | | |t]; try done. simpl in Hq.
      apply orb_false_iff in Hq as [_ Hq]. rewrite Hq, andb_false_r, orb_false_r.
      destruct (Nat.eqb_spec j n); [lia|done].
Qed.

(** Both facts, for all branches of a threshold. *)
Lemma flatten_all (is_and : bool) v (f : (Policy -> bool) -> list Policy -> bool)
    (test := fun l => if is_and then forallb (holds v) l else existsb (holds v) l) l :
  Forall normal l -> Forall (fun p => is_const p = false) l ->
  let ret := flat_map (flatten_branch is_and (negb is_and)) l in
  test ret = test l /\ length l <= length ret
  /\ Forall normal ret /\ Forall (fun q => is_const q = false) ret
  /\ Forall (fun q => forall k n, (if is_and then k <> 1 else k <> n) -> absorbed k n q = false) ret.
Proof.
  subst test. intros Hn Hc. induction Hn as [|p l Hp _ IH]; [by destruct is_and|].
  apply Forall_cons_1 in Hc as [Hcp Hc]. destruct (IH Hc) as (H1 & H2 & H3 & H4 & H5).
  destruct is_and; cbn [negb flat_map] in *.
  - destruct (flatten_and_branch v p Hp Hcp) as (F1 & F2 & F3 & F4 & F5).
    cbn [forallb]. rewrite forallb_app, F1, H1, length_app. simpl.
    split_and!; [done | lia | by apply Forall_app_2..].
  - destruct (flatten_or_branch v p Hp Hcp) as (F1 & F2 & F3 & F4 & F5).
    cbn [existsb]. rewrite existsb_app, F1, H1, length_app. simpl.
    split_and!; [done | lia | by apply Forall_app_2..].
Qed.

Lemma unwrap_thresh_Some k l :
  1 <= k <= length l -> unwrap_thresh k l = Some (Thresh (mkThreshold k l)).
Proof.
  intros H. unfold unwrap_thresh, Threshold.new.
  rewrite (proj2 (Threshold.validate_k_n_Ok 0 k (length l))); [done|]. split; [done|by left].
Qed.

Lemma single_holds v p k : k = 1 -> (k <=? count_if (holds v) [p]) = holds v p.
Proof. intros ->. rewrite count_if_cons. unfold count_if, sum_by. simpl. by destruct (holds v p). Qed.

(** What the arm for thresholds computes: a normal policy, with the meaning of the
    threshold of its branches. *)
Definition threshold_of (k : nat) (subs : list Policy) (p : Policy) : Prop :=
  normal p /\ forall v, holds v p = (k <=? count_if (holds v) subs).

Lemma and_or_none (m n : nat) l :
  m = n \/ m = 1 -> Forall normal l -> Forall (fun p => is_const p = false) l -> n = length l ->
  2 <= n ->
  let ret := flat_map (flatten_branch (m =? n) (m =? 1)) l in
  2 <= length ret /\ normal (Thresh (mkThreshold (if m =? n then length ret else 1) ret))
  /\ forall v, holds v (Thresh (mkThreshold (if m =? n then length ret else 1) ret))
              = (m <=? count_if (holds v) l).
Proof.
  intros Hm Hn Hc -> Hl.
  assert ((m =? 1) = negb (m =? length l)) as ->.
  { destruct (Nat.eqb_spec m 1), (Nat.eqb_spec m (length l)); simpl; lia. }
  pose proof (flatten_all (m =? length l) (fun _ => true) (fun _ _ => true) l Hn Hc) as H0.
  cbn zeta in *. destruct H0 as (_ & H2 & H3 & H4 & H5).
  set (ret := flat_map _ l) in *. split; [lia|]. split.
  - constructor; [lia | destruct (m =? length l); lia | done | done|].
    eapply Forall_impl; [|exact H5]. intros q Hq. apply Hq. destruct (m =? length l); lia.
  - intros v. destruct (flatten_all (m =? length l) v (fun _ _ => true) l Hn Hc) as (H1 & _).
    fold ret in H1. cbn [holds]. apply eq_iff_eq_true. rewrite !Nat.leb_le.
    destruct (Nat.eqb_spec m (length l)) as [->|Hne].
    + rewrite !count_if_all. by rewrite H1.
    + assert (m = 1) as -> by lia. rewrite !count_if_some. by rewrite H1.
Qed.

Lemma normalize_thresh_spec k subs :
  Forall normal subs ->
  exists p, normalize_thresh k subs = Some p /\ threshold_of k subs p.
Proof.
  intros Hn. unfold normalize_thresh.
  fold (trivial_count subs) (unsatisfied_count subs). cbn zeta.
  replace (length subs - unsatisfied_count subs - trivial_count subs)
    with (length (branches_of subs)) by (pose proof (count_parts subs); lia).
  rewrite flatten_branches. unfold threshold_of. setoid_rewrite holds_parts.
  pose proof (branches_const subs) as Hc. apply branches_normal in Hn.
  set (t := trivial_count subs). set (l := branches_of subs) in *. clearbody t l. clear subs.
  set (m := k - t).
  assert (forall v, (k <=? t + count_if (holds v) l) = (m <=? count_if (holds v) l)) as Hk.
  { intros v. apply eq_iff_eq_true. rewrite !Nat.leb_le. lia. }
  setoid_rewrite Hk. clear Hk. clearbody m. clear k t.
  destruct (Nat.eqb_spec m 0) as [->|Hm0].
  { exists Trivial. split; [done|]. split; [by constructor|]. done. }
  pose proof (fun v => count_if_length (holds v) l) as Hlen.
  destruct (decide (length l = 1)) as [Hl1|Hl1].
  { destruct l as [|p [|? ?]]; try done.
    apply Forall_cons_1 in Hn as [Hn _], Hc as [Hc _]. cbn [flat_map length].
    destruct (Nat.eqb_spec m 1) as [->|Hm1]; [|rewrite flatten_keep by done].
    - rewrite flatten_keep by done. exists p. split; [done|]. split; [done|].
      intros v. by rewrite single_holds.
    - destruct (Nat.ltb_spec (length ([p] ++ [])) m) as [_|H]; [|simpl in H; lia].
      exists Unsatisfiable. split; [done|]. split; [by constructor|]. intros v. symmetry.
      apply Nat.leb_gt. specialize (Hlen v). simpl in Hlen. lia. }
  destruct (decide (m = length l \/ m = 1)) as [Hao|Hao].
  - destruct (decide (length l = 0)) as [Hl0|Hl0].
    { destruct l; [|done]. simpl. destruct (Nat.ltb_spec 0 m) as [_|]; [|lia].
      exists Unsatisfiable. split; [done|]. split; [by constructor|]. intros v. symmetry.
      apply Nat.leb_gt. unfold count_if, sum_by. simpl. lia. }
    destruct (and_or_none m (length l) l Hao Hn Hc eq_refl ltac:(lia)) as (H2 & Hnr & Hv).
    cbn zeta in *. set (ret := flat_map _ l) in *.
    assert (m <= length ret) as Hmr.
    { pose proof (flatten_all (m =? length l) (fun _ => true) (fun _ _ => true) l Hn Hc) as (_&H&_).
      assert ((m =? 1) = negb (m =? length l)) as Hneg.
      { destruct (Nat.eqb_spec m 1), (Nat.eqb_spec m (length l)); simpl; lia. }
      subst ret. rewrite Hneg. lia. }
    destruct (Nat.ltb_spec (length ret) m); [lia|].
    destruct (Nat.eqb_spec (length ret) 1); [lia|].
    exists (Thresh (mkThreshold (if m =? length l then length ret else 1) ret)).
    split; [|by split].
    destruct (Nat.eqb_spec m (length l)); [apply unwrap_thresh_Some; lia|].
    destruct (Nat.eqb_spec m 1); [apply unwrap_thresh_Some; lia | lia].
  - destruct (Nat.eqb_spec m (length l)); [tauto|]. destruct (Nat.eqb_spec m 1); [tauto|].
    rewrite flatten_keep_all by done.
    destruct (Nat.ltb_spec (length l) m).
    { exists Unsatisfiable. split; [done|]. split; [by constructor|]. intros v. symmetry.
      apply Nat.leb_gt. specialize (Hlen v). lia. }
    destruct (Nat.eqb_spec (length l) 1); [lia|]. rewrite unwrap_thresh_Some by lia.
    eexists. split; [reflexivity|]. split; [|done].
    constructor; [lia | lia | done | done|]. apply list.Forall_true. intros [| | | | | | | | | | |t]; try done.
    simpl. destruct (Nat.eqb_spec m (length l)); [lia|]. destruct (Nat.eqb_spec m 1); [lia|]. done.
Qed.

(** The forms of a normalised threshold. *)
Lemma normalize_thresh_cases k subs p :
  normalize_thresh k subs = Some p ->
  is_const p = true
  \/ exists is_and is_or, let ret := flat_map (flatten_branch is_and is_or) subs in
       ret = [p] \/ exists k', p = Thresh (mkThreshold k' ret).
Proof.
  unfold normalize_thresh. cbn zeta.
  set (is_and := _ =? _ - _ - _). set (is_or := _ - _ =? 1).
  set (ret := flat_map _ subs). intros H.
  assert (forall k' p, unwrap_thresh k' ret = Some p -> p = Thresh (mkThreshold k' ret)) as Hu.
  { unfold unwrap_thresh. intros k' q. destruct (Threshold.new 0 k' ret) as [t|] eqn:E; [|done].
    apply Threshold.new_valid in E as [-> _]. congruence. }
  case_match; [injection H as <-; by left|]. case_match; [injection H as <-; by left|].
  right. exists is_and, is_or. fold ret. cbn zeta.
  destruct (Nat.eqb_spec (length ret) 1) as [E|_].
  - left. clearbody ret. destruct ret as [|q [|? ?]]; try done. simpl in H. congruence.
  - right. destruct is_and; [|destruct is_or]; apply Hu in H; eauto.
Qed.

(** ** The whole policy *)

(** [normalized] as a total function. *)
Definition norm (p : Policy) : Policy := default Unsatisfiable (normalized p).

Lemma normalized_full p :
  exists p', normalized p = Some p' /\ normal p' /\ equivalent p' p.
Proof.
  induction p as [p Hp|i sub IH|k l IH] using policy_ind.
  - exists p. destruct p; try done; (split; [done|]; split; [by constructor | done]).
  - destruct IH as (c & Hc & Hn & He). cbn [normalized]. rewrite Hc. simpl.
    destruct (decide (c = Unsatisfiable)) as [->|Hu].
    + exists Unsatisfiable. split; [done|]. split; [by constructor|]. intros v. exact (He v).
    + exists (Inscribe i c). split; [by destruct c|]. split; [by constructor|].
      intros v. exact (He v).
  - assert (exists subs, mapM normalized l = Some subs /\ Forall normal subs
              /\ Forall2 equivalent subs l) as (subs & Hs & Hn & He).
    { clear k. induction IH as [|p l (p' & Hp & Hn & He) _ (subs & H1 & H2 & H3)]; [by exists []|].
      exists (p' :: subs). simpl. rewrite Hp, H1. simpl. split; [done|]. split; by constructor. }
    destruct (normalize_thresh_spec k subs Hn) as (p & Hp & Hpn & Hv).
    exists p. cbn [normalized]. rewrite Hs. simpl. split; [done|]. split; [done|].
    intros v. rewrite Hv. cbn [holds]. f_equal. clear -He.
    induction He as [|p q l l' H _ IH]; [done|]. by rewrite !count_if_cons, H, IH.
Qed.

Lemma normalized_norm p : normalized p = Some (norm p).
Proof. unfold norm. destruct (normalized_full p) as (p' & -> & _). done. Qed.

Lemma norm_normal p : normal (norm p).
Proof. unfold norm. by destruct (normalized_full p) as (p' & -> & ? & _). Qed.

Lemma norm_equivalent p : equivalent (norm p) p.
Proof. unfold norm. by destruct (normalized_full p) as (p' & -> & _ & ?). Qed.

Lemma branches_id l : Forall (fun p => is_const p = false) l -> branches_of l = l.
Proof.
  intros H. unfold branches_of. induction H as [|p l Hp _ IH]; [done|].
  cbn [List.filter]. by rewrite Hp, IH.
Qed.

Lemma flatten_not_absorbed k n p :
  is_const p = false -> absorbed k n p = false -> flatten_branch (k =? n) (k =? 1) p = [p].
Proof.
  intros Hc Ha. destruct p as [| | | | | | | | | | |t]; try done. cbn in *.
  apply orb_false_iff in Ha as [H1 H2].
  destruct (k =? n), (k =? 1); try done; simpl in *; by rewrite ?H1, ?H2.
Qed.

Lemma normal_normalized p : normal p -> normalized p = Some p.
Proof.
  induction p as [p Hp|i sub IH|k l IH] using policy_ind; intros Hn.
  - by destruct p.
  - inversion Hn as [|? ? Hs Hu|]; simplify_eq/=. rewrite IH by done. simpl. by destruct sub.
  - apply normal_thresh_inv in Hn as (Hl & Hk & Hns & Hc & Ha). cbn [normalized].
    assert (mapM normalized l = Some l) as ->.
    { clear -IH Hns. induction IH as [|p l Hp _ IHl]; [done|].
      apply Forall_cons_1 in Hns as [? Hns]. simpl. by rewrite Hp, IHl. }
    simpl. unfold normalize_thresh. fold (trivial_count l) (unsatisfied_count l). cbn zeta.
    pose proof (count_parts l) as Hp. rewrite branches_id in Hp by done.
    assert (trivial_count l = 0) as -> by lia. assert (unsatisfied_count l = 0) as -> by lia.
    rewrite !Nat.sub_0_r.
    assert (flat_map (flatten_branch (k =? length l) (k =? 1)) l = l) as ->.
    { assert (forall n, Forall (fun p => absorbed k n p = false) l ->
                flat_map (flatten_branch (k =? n) (k =? 1)) l = l) as H; [|by apply H].
      clear -Hc. intros n Ha. induction Hc as [|p l Hp _ IHl]; [done|].
      apply Forall_cons_1 in Ha as [? Ha]. cbn [flat_map]. by rewrite flatten_not_absorbed, IHl. }
    destruct (Nat.eqb_spec k 0); [lia|]. destruct (Nat.ltb_spec (length l) k); [lia|].
    destruct (Nat.eqb_spec (length l) 1); [lia|].
    destruct (Nat.eqb_spec k (length l)) as [->|]; [apply unwrap_thresh_Some; lia|].
    destruct (Nat.eqb_spec k 1) as [->|]; apply unwrap_thresh_Some; lia.
Qed.

Lemma norm_id p : normal p -> norm p = p.
Proof. intros H. unfold norm. by rewrite normal_normalized. Qed.

(** C30: [normalized] never panics; its result is in normal form (no constant branches, at
    least two branches per threshold, no conjunction directly inside a conjunction, no
    disjunction inside a disjunction) and means the same as the policy; and the policies it
    leaves unchanged are exactly the normal forms, so it is idempotent. *)
Theorem normalized_spec p :
  exists p', normalized p = Some p' /\ normal p' /\ (forall v, holds v p' = holds v p)
    /\ (p' = p <-> normal p).
Proof.
  exists (norm p). split; [apply normalized_norm|]. split; [apply norm_normal|].
  split; [apply norm_equivalent|].
  split; [intros <-; apply norm_normal | apply norm_id].
Qed.

(** ** Constants among normal forms *)

Definition all_false : valuation := fun _ => false.
Definition all_true : valuation := fun _ => true.

(** No inscription occurs. *)
Definition plain (p : Policy) : Prop := contains_inscribe p = false.

Lemma plain_thresh k l : plain (Thresh (mkThreshold k l)) <-> Forall plain l.
Proof.
  unfold plain, contains_inscribe. rewrite pre_order_eq.
  change (children (Thresh (mkThreshold k l))) with l. cbn [existsb orb].
  induction l as [|p l IH]; [split; constructor|]. cbn [flat_map]. rewrite existsb_app, orb_false_iff.
  rewrite IH.
  split; [by intros [? ?]; constructor | by intros [? ?]%list.Forall_cons].
Qed.

Lemma plain_inscribe i sub : ~ plain (Inscribe i sub).
Proof. unfold plain, contains_inscribe. by rewrite pre_order_eq. Qed.

(** Without inscriptions a normal policy that is not a constant can be met and can be missed. *)
Lemma normal_varies p :
  normal p -> plain p -> is_const p = false ->
  holds all_false p = false /\ holds all_true p = true.
Proof.
  induction p as [p Hp|i sub IH|k l IH] using policy_ind; intros Hn Hi Hc.
  - by destruct p.
  - by apply plain_inscribe in Hi.
  - apply normal_thresh_inv in Hn as (Hl & Hk & Hns & Hcs & _). apply plain_thresh in Hi.
    assert (Forall (fun p => holds all_false p = false /\ holds all_true p = true) l) as H.
    { clear Hl Hk Hc. induction IH as [|p l Hp _ IHl]; [constructor|].
      apply Forall_cons_1 in Hns as [? ?], Hcs as [? ?], Hi as [? ?]. constructor; auto. }
    cbn [holds]. split.
    + apply Nat.leb_gt. assert (~ 1 <= count_if (holds all_false) l); [|lia].
      rewrite count_if_some. clear -H. induction H as [|p l [Hp _] _ IH]; [done|]. simpl. by rewrite Hp.
    + apply Nat.leb_le. assert (length l <= count_if (holds all_true) l); [|lia].
      apply count_if_all. clear -H. induction H as [|p l [_ Hp] _ IH]; [done|]. simpl. by rewrite Hp.
Qed.
End Normal.
