(* ===== verification/PolicyEntail.v ===== *)
(** Entailment of abstract policies ([entails] of src/src/policy/semantic.rs): it
    terminates without panic, a positive answer is always right, and on normal
    policies so is a negative one. *)
From S2P Require Import Prelude Bitcoin Primitives Ord Tree StackLoop Semantic PolicyNormal.
Import Semantic.

Section Entail.
Context {B : Bitcoin} {K : MiniscriptKey}.

(** * Counting terminals *)

Fixpoint terminals (p : Policy) : nat :=
  match p with
  | Trivial | Unsatisfiable => 0
  | Thresh (Threshold.mkThreshold _ l) => sum_by terminals l
  | _ => 1
  end.

Lemma n_terminals_eq p : plain p -> n_terminals p = Some (terminals p).
Proof.
  intros Hp. unfold n_terminals.
  rewrite (stack_root_good _
    (fun p subs => match p with Trivial | Unsatisfiable => 0 | Thresh _ => list_sum subs | _ => 1 end)
    plain); [|..| exact Hp].
  - f_equal. clear Hp. induction p as [p Hl|i sub IH|k l IH] using policy_ind.
    + by destruct p.
    + done.
    + rewrite tree_fold_eq. change (children (Thresh (mkThreshold k l))) with l.
      cbn [terminals]. unfold sum_by. f_equal. induction IH as [|p l Hp _ IHl]; [done|].
      cbn [map]. by rewrite Hp, IHl.
  - intros q Hq. destruct q as [| | | | | | | | | |i sub|[k l]]; try by constructor.
    by apply plain_thresh in Hq.
  - intros q subs rest Hq Hlen. destruct q as [| | | | | | | | | |i sub|[k l]];
      try by (destruct subs; [|done]).
    cbn [n_terminals_step]. unfold Threshold.n. cbn [Threshold.inner].
    change (children (Thresh (mkThreshold k l))) with l in Hlen.
    rewrite <- Hlen, pop_n_app. done.
Qed.

(** * What normalisation does not add *)

Lemma terminals_flatten is_and is_or l :
  sum_by terminals (flat_map (flatten_branch is_and is_or) l) = sum_by terminals l.
Proof.
  induction l as [|p l IH]; [done|]. cbn [flat_map]. rewrite sum_by_app, IH, sum_by_cons. f_equal.
  destruct p as [| | | | | | | | | | |[k l']]; try (unfold sum_by; simpl; lia).
  cbn [flatten_branch Threshold.k Threshold.n Threshold.data Threshold.inner].
  destruct is_and, is_or; try case_match; try done; rewrite ?sum_by_cons; unfold sum_by; simpl; lia.
Qed.

Lemma plain_flatten is_and is_or l :
  Forall plain l -> Forall plain (flat_map (flatten_branch is_and is_or) l).
Proof.
  induction 1 as [|p l Hp _ IH]; [constructor|]. cbn [flat_map]. apply Forall_app_2; [|done].
  destruct p as [| | | | | | | | | | |[k l']]; try by repeat constructor.
  cbn [flatten_branch Threshold.k Threshold.n Threshold.data Threshold.inner].
  destruct is_and, is_or; try case_match; try (by apply plain_thresh in Hp); by constructor.
Qed.

Lemma normalized_shrinks p :
  terminals (norm p) <= terminals p /\ (plain p -> plain (norm p)).
Proof.
  assert (forall p', normalized p = Some p' ->
            terminals p' <= terminals p /\ (plain p -> plain p')) as H;
    [|apply H, normalized_norm].
  induction p as [p Hp|i sub IH|k l IH] using policy_ind; intros p' H.
  - assert (p' = p) as -> by (destruct p; try done; simpl in H; congruence). done.
  - cbn [normalized] in H. rewrite normalized_norm in H. simpl in H. split.
    + destruct (norm sub); injection H as <-; simpl; lia.
    + intros Hp. by apply plain_inscribe in Hp.
  - cbn [normalized] in H. destruct (mapM normalized l) as [subs|] eqn:Hs; [|done]. simpl in H.
    assert (sum_by terminals subs <= sum_by terminals l /\ (Forall plain l -> Forall plain subs))
      as [Ht Hp].
    { clear H. revert subs Hs. induction IH as [|p l Hp _ IHl]; intros subs Hs.
      - injection Hs as <-. done.
      - simpl in Hs. rewrite normalized_norm in Hs. simpl in Hs.
        destruct (mapM normalized l) as [subs'|]; [|done]. injection Hs as <-.
        destruct (IHl _ eq_refl) as [IH1 IH2]. destruct (Hp _ (normalized_norm p)) as [H1 H2].
        rewrite !sum_by_cons. split; [lia|].
        intros [? ?]%list.Forall_cons. constructor; auto. }
    rewrite plain_thresh. cbn [terminals].
    apply normalize_thresh_cases in H as [Hc|(ia & io & H)].
    { destruct p'; try done; (split; [simpl; lia | done]). }
    cbn zeta in H. pose proof (terminals_flatten ia io subs) as Hf.
    pose proof (plain_flatten ia io subs) as Hpf.
    destruct H as [H|[k' ->]].
    + rewrite H in Hf, Hpf. unfold sum_by in Hf at 1. simpl in Hf. split; [lia|].
      intros Hl. specialize (Hpf (Hp Hl)). by apply Forall_cons_1 in Hpf as [? _].
    + cbn [terminals]. split; [lia|]. rewrite plain_thresh. auto.
Qed.

(** * Fixing a constraint *)

Definition update (v : valuation) (c : Policy) (b : bool) : valuation :=
  fun p => if policy_eqb p c then b else v p.

Definition sat (p c : Policy) (b : bool) : Policy := default Unsatisfiable (satisfy_constraint p c b).

Definition constant (b : bool) : Policy := if b then Trivial else Unsatisfiable.

Lemma sat_thresh_eq k l c b :
  is_leaf c = true ->
  satisfy_constraint (Thresh (mkThreshold k l)) c b
  = (subs ← mapM (fun sub => satisfy_constraint sub c b) l;
     normalized (Thresh (mkThreshold k subs))).
Proof. destruct c; try done; intros _; cbn [satisfy_constraint]; by destruct (mapM _ l). Qed.

Lemma sat_leaf_eq p c b :
  is_leaf c = true -> is_leaf p = true ->
  satisfy_constraint p c b = Some (if policy_eqb p c then constant b else p).
Proof.
  intros Hc Hp. destruct p; try done; destruct c; try done; cbn [satisfy_constraint];
    (destruct (policy_eqb _ _); [by destruct b | done]).
Qed.

Lemma sat_inscribe_eq i sub c b :
  is_leaf c = true -> satisfy_constraint (Inscribe i sub) c b = normalized (Inscribe i sub).
Proof. by destruct c. Qed.

(** The constraints whose fixing is meaningful. *)
Definition fixes (c : Policy) (b : bool) : Prop :=
  is_leaf c = true /\ (is_const c = true -> c = constant b).

Lemma satisfy_constraint_spec p c b :
  is_leaf c = true ->
  satisfy_constraint p c b = Some (sat p c b) /\ normal (sat p c b)
  /\ terminals (sat p c b) <= terminals p /\ (plain p -> plain (sat p c b))
  /\ (fixes c b -> plain p -> forall v, holds v (sat p c b) = holds (update v c b) p).
Proof.
  intros Hc.
  enough (exists q, satisfy_constraint p c b = Some q /\ normal q /\ terminals q <= terminals p
    /\ (plain p -> plain q) /\ (fixes c b -> plain p -> forall v, holds v q = holds (update v c b) p))
    as (q & H1 & H) by (unfold sat; by rewrite H1).
  induction p as [p Hp|i sub IH|k l IH] using policy_ind.
  - exists (if policy_eqb p c then constant b else p). split; [by apply sat_leaf_eq|].
    destruct (policy_eqb p c) eqn:E.
    + apply policy_eqb_spec in E as ->. split; [destruct b; by constructor|].
      split; [destruct b; simpl; lia|]. split; [by destruct b|]. intros [_ Hf] _ v.
      destruct (is_const c) eqn:Ec; [rewrite (Hf eq_refl); by destruct b|].
      transitivity b; [by destruct b|]. unfold update.
      assert (policy_eqb c c = true) as Hcc by by apply policy_eqb_spec.
      destruct c; try done; cbn [holds]; by rewrite Hcc.
    + split; [by constructor|]. split; [done|]. split; [done|]. intros _ _ v.
      unfold update. destruct p; try done; cbn [holds]; by rewrite E.
  - exists (norm (Inscribe i sub)). rewrite sat_inscribe_eq, normalized_norm by done.
    split; [done|]. split; [apply norm_normal|]. split; [apply normalized_shrinks|].
    split; [apply normalized_shrinks|]. intros _ Hi. by apply plain_inscribe in Hi.
  - assert (exists subs, mapM (fun sub => satisfy_constraint sub c b) l = Some subs
      /\ sum_by terminals subs <= sum_by terminals l /\ (Forall plain l -> Forall plain subs)
      /\ (fixes c b -> Forall plain l -> forall v, count_if (holds v) subs = count_if (holds (update v c b)) l))
      as (subs & Hs & Ht & Hp & Hv).
    { clear k. induction IH as [|p l (q & Q1 & Q2 & Q3 & Q4 & Q5) _ (subs & H1 & H2 & H3 & H4)].
      { by exists []. }
      exists (q :: subs). simpl. rewrite Q1, H1. simpl. split; [done|]. rewrite !sum_by_cons.
      split; [lia|]. split.
      - intros [? ?]%list.Forall_cons. constructor; auto.
      - intros Hf [? ?]%list.Forall_cons v. rewrite !count_if_cons. by rewrite Q5, H4. }
    exists (norm (Thresh (mkThreshold k subs))). rewrite sat_thresh_eq, Hs by done. cbn [mbind option_bind].
    rewrite normalized_norm.
    destruct (normalized_shrinks (Thresh (mkThreshold k subs))) as [N1 N2].
    split; [done|]. split; [apply norm_normal|]. split; [cbn [terminals] in *; lia|]. split.
    + rewrite plain_thresh. intros Hl. apply N2, plain_thresh. auto.
    + intros Hf Hl%plain_thresh v. rewrite (norm_equivalent _ v). cbn [holds]. by rewrite Hv.
Qed.

Lemma sat_thresh k l c b :
  is_leaf c = true ->
  sat (Thresh (mkThreshold k l)) c b = norm (Thresh (mkThreshold k (map (fun q => sat q c b) l))).
Proof.
  intros Hc. unfold sat at 1. rewrite sat_thresh_eq by done.
  assert (mapM (fun sub => satisfy_constraint sub c b) l = Some (map (fun q => sat q c b) l)) as ->.
  { induction l as [|q l IH]; [done|]. simpl. rewrite IH.
    by destruct (satisfy_constraint_spec q c b Hc) as (-> & _). }
  done.
Qed.

(** Fixing the first constraint of a normal policy removes it. *)
Lemma first_constraint_spec p :
  normal p -> plain p -> is_const p = false ->
  exists c, first_constraint p = Some c /\ is_leaf c = true /\ is_const c = false
    /\ forall b, terminals (sat p c b) < terminals p.
Proof.
  induction p as [p Hp|i sub IH|k l IH] using policy_ind; intros Hn Hi Hc.
  - exists p. split; [by destruct p|]. split; [done|]. split; [done|]. intros b.
    unfold sat. rewrite sat_leaf_eq by done. rewrite (proj2 (policy_eqb_spec p p) eq_refl).
    destruct p, b; try done; simpl; lia.
  - by apply plain_inscribe in Hi.
  - apply normal_thresh_inv in Hn as (Hl & _ & Hns & Hcs & _). apply plain_thresh in Hi.
    destruct l as [|p l]; [simpl in Hl; lia|].
    apply Forall_cons_1 in IH as [IH _], Hns as [Hn _], Hcs as [Hcp _], Hi as [Hi _].
    destruct (IH Hn Hi Hcp) as (c & Hf & Hlc & Hcc & Ht). exists c. cbn [first_constraint].
    split; [done|]. split; [done|]. split; [done|]. intros b.
    rewrite sat_thresh by done. cbn [map].
    destruct (normalized_shrinks (Thresh (mkThreshold k (sat p c b :: map (fun q => sat q c b) l))))
      as [N _].
    cbn [terminals] in *. rewrite !sum_by_cons in *. specialize (Ht b).
    enough (sum_by terminals (map (fun q => sat q c b) l) <= sum_by terminals l) by lia.
    clear -Hlc. induction l as [|q l IH]; [done|]. cbn [map]. rewrite !sum_by_cons.
    destruct (satisfy_constraint_spec q c b Hlc) as (_ & _ & Hle & _). lia.
Qed.

Lemma holds_ext v v' p : (forall c, v c = v' c) -> holds v p = holds v' p.
Proof.
  intros H. induction p as [p Hp|i sub IH|k l IH] using policy_ind.
  - destruct p; try done; apply H.
  - exact IH.
  - cbn [holds]. f_equal. by apply count_if_ext.
Qed.

Lemma update_same v c b : v c = b -> forall p, update v c b p = v p.
Proof.
  intros H p. unfold update. destruct (policy_eqb p c) eqn:E; [|done].
  apply policy_eqb_spec in E. congruence.
Qed.

(** * The algorithm *)

Lemma entails_const fuel b :
  plain b ->
  entails_fuel (S fuel) Trivial b = Some (Some (is_trivial b))
  /\ entails_fuel (S fuel) Unsatisfiable b = Some (Some true).
Proof.
  intros Hb. unfold plain in Hb. cbn [entails_fuel]. rewrite Hb.
  rewrite !n_terminals_eq by done. by destruct b.
Qed.

(** The answer [r] to the question whether [a] entails [b]. *)
Definition answers (a b : Policy) (r : bool) : Prop :=
  (r = true -> entailed a b) /\ (normal a -> normal b -> entailed a b -> r = true).

Lemma update_cases v c : exists b, forall p, holds v p = holds (update v c b) p.
Proof. exists (v c). intros p. apply holds_ext. intros q. by rewrite update_same. Qed.

Lemma holds_update_const v c b p : is_const c = true -> holds (update v c b) p = holds v p.
Proof.
  intros Hc. induction p as [p Hp|i sub IH|k l IH] using policy_ind.
  - destruct p; try done; cbn [holds]; unfold update; by destruct c.
  - exact IH.
  - cbn [holds]. f_equal. by apply count_if_ext.
Qed.

(** Fixing a constraint both ways splits an entailment in two. *)
Lemma answers_split a b c r1 r2 :
  plain a -> plain b -> is_leaf c = true -> is_const c = false ->
  answers (sat a c true) (sat b c true) r1 -> answers (sat a c false) (sat b c false) r2 ->
  (r1 && r2 = true -> entailed a b) /\ (entailed a b -> r1 && r2 = true).
Proof.
  intros Ha Hb Hl Hc [S1 C1] [S2 C2].
  assert (forall x p, plain p -> forall v, holds v (sat p c x) = holds (update v c x) p) as Hs.
  { intros x p Hp. apply satisfy_constraint_spec; [done| |done]. split; [done|]. by rewrite Hc. }
  assert (forall p x, normal (sat p c x)) as Hn.
  { intros p x. by apply (satisfy_constraint_spec p c x). }
  assert (forall x, entailed a b -> entailed (sat a c x) (sat b c x)) as He.
  { intros x H v. rewrite !Hs by done. apply H. }
  split.
  - intros [H1 H2]%andb_true_iff v Hv.
    assert (forall p, plain p -> holds v (sat p c (v c)) = holds v p) as Hvc.
    { intros p Hp. rewrite Hs by done. apply holds_ext. intros q. by rewrite update_same. }
    rewrite <- Hvc by done. rewrite <- Hvc in Hv by done. revert Hv.
    destruct (v c); [apply S1 | apply S2]; done.
  - intros H. apply andb_true_iff. split; [apply C1 | apply C2]; auto.
Qed.

Lemma entails_branches fuel a b :
  plain a -> plain b -> is_const a = false -> terminals a + 2 <= S fuel ->
  (forall a' b', plain a' -> plain b' -> terminals a' < terminals a ->
     exists r, entails_fuel fuel a' b' = Some (Some r) /\ answers a' b' r) ->
  exists c, first_constraint (norm a) = Some c /\ is_leaf c = true
    /\ exists r1 r2,
      entails_fuel fuel (sat (norm a) c true) (sat (norm b) c true) = Some (Some r1)
      /\ entails_fuel fuel (sat (norm a) c false) (sat (norm b) c false) = Some (Some r2)
      /\ answers a b (r1 && r2).
Proof.
  intros Ha Hb Hca Hfuel IH.
  destruct (normalized_shrinks a) as [Hta Hpa], (normalized_shrinks b) as [_ Hpb].
  specialize (Hpa Ha). specialize (Hpb Hb).
  assert (forall x y, answers (norm a) (norm b) (x && y) -> answers a b (x && y)) as Hab.
  { intros x y [S C]. split; unfold entailed in *.
    - intros H v. specialize (S H v). by rewrite !(norm_equivalent _ v) in S.
    - intros _ _ H. apply C; [apply norm_normal..|]. intros v. rewrite !(norm_equivalent _ v). apply H. }
  destruct (is_const (norm a)) eqn:Ec.
  - assert (~ normal a) as Hna by (intros Hn; rewrite (norm_id a Hn) in Ec; congruence).
    assert (is_leaf (norm a) = true) as Hl by by destruct (norm a).
    exists (norm a). split; [by destruct (norm a)|]. split; [done|].
    assert (forall x, sat (norm a) (norm a) x = constant x) as Hs.
    { intros x. unfold sat. rewrite sat_leaf_eq by done.
      by rewrite (proj2 (policy_eqb_spec _ _) eq_refl). }
    rewrite !Hs. destruct fuel as [|fuel]; [lia|].
    pose proof (fun x => satisfy_constraint_spec (norm b) (norm a) x Hl) as Hsb.
    exists (is_trivial (sat (norm b) (norm a) true)), true.
    split_and!; [apply entails_const, Hsb, Hpb | apply entails_const, Hsb, Hpb|].
    rewrite andb_true_r. split; [|by intros Hn].
    intros Ht v. rewrite <- (norm_equivalent a v). destruct (norm a) eqn:Ea; try done. intros _.
    destruct (Hsb true) as (_ & _ & _ & _ & Hv).
    specialize (Hv ltac:(by split) Hpb v). rewrite holds_update_const in Hv by done.
    rewrite <- (norm_equivalent b v), <- Hv. by destruct (sat (norm b) Trivial true).
  - destruct (first_constraint_spec (norm a) (norm_normal a) Hpa Ec) as (c & Hf & Hl & Hc & Ht).
    exists c. split; [done|]. split; [done|].
    assert (forall x, exists r, entails_fuel fuel (sat (norm a) c x) (sat (norm b) c x) = Some (Some r)
              /\ answers (sat (norm a) c x) (sat (norm b) c x) r) as Hx.
    { intros x. apply IH; [by apply satisfy_constraint_spec..|]. specialize (Ht x). lia. }
    destruct (Hx true) as (r1 & E1 & A1), (Hx false) as (r2 & E2 & A2).
    exists r1, r2. split; [done|]. split; [done|]. apply Hab.
    destruct (answers_split (norm a) (norm b) c r1 r2 Hpa Hpb Hl Hc A1 A2) as [S C].
    split; [exact S | by intros _ _].
Qed.

Lemma entails_fuel_spec fuel a b :
  plain a -> plain b -> terminals a <= ENTAILMENT_MAX_TERMINALS -> terminals a + 2 <= fuel ->
  exists r, entails_fuel fuel a b = Some (Some r) /\ answers a b r.
Proof.
  revert a b. induction fuel as [|fuel IH]; intros a b Ha Hb Ht Hfuel; [lia|].
  destruct (is_const a) eqn:Eca.
  { destruct (entails_const fuel b Hb) as [H1 H2]. destruct a; try done.
    - exists true. split; [done|]. by split; [intros _ v|].
    - exists (is_trivial b). split; [done|]. split; [destruct b; try done; by intros _ v|].
      intros _ Hn H. destruct (is_const b) eqn:Ecb.
      + destruct b; try done. by specialize (H all_true eq_refl).
      + destruct (normal_varies b Hn Hb Ecb) as [Hf _]. specialize (H all_false eq_refl).
        congruence. }
  destruct (is_unsatisfiable b) eqn:Eub.
  { destruct b; try done. exists false. split.
    - cbn [entails_fuel]. unfold plain in Ha. rewrite Ha. cbn [orb].
      change (contains_inscribe Unsatisfiable) with false. cbn iota.
      rewrite n_terminals_eq by done. cbn [mbind option_bind].
      destruct (Nat.ltb_spec ENTAILMENT_MAX_TERMINALS (terminals a)); [lia|]. by destruct a.
    - split; [done|]. intros Hn _ H. destruct (normal_varies a Hn Ha Eca) as [_ Hv].
      by specialize (H _ Hv). }
  destruct (entails_branches fuel a b) as (c & Hf & Hlc & r1 & r2 & H1 & H2 & Hr); try done.
  { intros a' b' Ha' Hb' Hlt. apply IH; [done | done | lia | lia]. }
  exists (r1 && r2). split; [|done].
  cbn [entails_fuel]. unfold plain in Ha, Hb. rewrite Ha, Hb, n_terminals_eq by done.
  cbn [mbind option_bind orb]. destruct (Nat.ltb_spec ENTAILMENT_MAX_TERMINALS (terminals a)); [lia|].
  rewrite !normalized_norm.
  pose proof (fun p b => proj1 (satisfy_constraint_spec p c b Hlc)) as Hs.
  destruct a; try done; destruct b; try done; cbn [mbind option_bind]; rewrite Hf;
    cbn [mbind option_bind]; rewrite !Hs; cbn [mbind option_bind]; rewrite H1;
    cbn [mbind option_bind]; (destruct r1; [exact H2 | done]).
Qed.

Lemma entails_fuel_none fuel a b :
  contains_inscribe a || contains_inscribe b = true
  \/ plain a /\ ENTAILMENT_MAX_TERMINALS < terminals a ->
  entails_fuel (S fuel) a b = Some None.
Proof.
  cbn [entails_fuel]. destruct (contains_inscribe a || contains_inscribe b) eqn:E; [done|].
  intros [?|[Ha H]]; [done|]. rewrite n_terminals_eq by done. cbn [mbind option_bind].
  by rewrite (proj2 (Nat.ltb_lt _ _) H).
Qed.

(** C31: [entails] always returns: [None] exactly when one policy carries an inscription or
    the first has more than twenty terminals, and otherwise an answer. A positive answer is
    right for all policies, and between normal policies a negative one is too: the recursion
    over constraints decides whether every valuation that satisfies [a] satisfies [b]. *)
Theorem entails_spec a b :
  if contains_inscribe a || contains_inscribe b || (ENTAILMENT_MAX_TERMINALS <? terminals a)
  then entails a b = Some None
  else exists r, entails a b = Some (Some r)
    /\ (r = true -> entailed a b) /\ (normal a -> normal b -> entailed a b -> r = true).
Proof.
  change (entails a b) with (entails_fuel (S 21) a b).
  destruct (contains_inscribe a || contains_inscribe b) eqn:Ei; cbn [orb].
  { by apply entails_fuel_none; left. }
  apply orb_false_iff in Ei as [Ha Hb].
  destruct (Nat.ltb_spec ENTAILMENT_MAX_TERMINALS (terminals a)) as [H|H].
  - apply entails_fuel_none. by right.
  - apply entails_fuel_spec; [done | done | done | unfold ENTAILMENT_MAX_TERMINALS in H; lia].
Qed.

(** The doc comment of [entails] says that [A |- B] holds when every satisfaction of A is
    one of B, but it answers no for an unsatisfiable policy that is not written
    [UNSATISFIABLE], and when the second is trivially true but not written [TRIVIAL]. *)
Theorem entails_unnormalised (k k' : Pk) :
  let unsat := Thresh (Threshold.and Unsatisfiable (Key k)) in
  let trivial := Thresh (Threshold.or Trivial (Key k)) in
  entailed unsat (Key k') /\ entails unsat (Key k') = Some (Some false)
  /\ entailed Trivial trivial /\ entails Trivial trivial = Some (Some false).
Proof.
  cbn zeta. split_and!.
  - intros v. cbn. by destruct (v (Key k)).
  - reflexivity.
  - intros v _. reflexivity.
  - reflexivity.
Qed.
End Entail.
