(* ===== verification/PolicyOps.v ===== *)
(** The analyses of abstract policies (src/src/policy/semantic.rs): the filters by lock
    time, the least number of signatures and the counts of keys. *)
From S2P Require Import Prelude Bitcoin Primitives Reference Ord Correctness Types ExtData Tree StackLoop Ast Context Samples Semantic PolicyNormal.
Import Semantic.

Section Ops.
Context {B : Bitcoin} {K : MiniscriptKey}.

(** * Leaves *)

(** Every leaf of the policy satisfies [Q]. *)
Definition leaves (Q : Policy -> Prop) (p : Policy) : Prop :=
  Forall (fun q => is_leaf q = true -> Q q) (pre_order p).

Lemma leaves_leaf Q p : is_leaf p = true -> leaves Q p <-> Q p.
Proof.
  intros Hp. unfold leaves. rewrite pre_order_eq.
  assert (children p = []) as -> by by destruct p.
  cbn [flat_map]. rewrite list.Forall_singleton. tauto.
Qed.

Lemma leaves_inscribe Q i sub : leaves Q (Inscribe i sub) <-> leaves Q sub.
Proof.
  unfold leaves. rewrite (pre_order_eq (Inscribe i sub)).
  change (children (Inscribe i sub)) with [sub]. cbn [flat_map]. rewrite app_nil_r, list.Forall_cons.
  split; [by intros [_ ?] | by intros ?; split].
Qed.

Lemma leaves_thresh Q k l : leaves Q (Thresh (mkThreshold k l)) <-> Forall (leaves Q) l.
Proof.
  unfold leaves. rewrite pre_order_eq.
  change (children (Thresh (mkThreshold k l))) with l. rewrite list.Forall_cons.
  transitivity (Forall (fun q => is_leaf q = true -> Q q) (flat_map pre_order l)).
  { split; [by intros [_ ?] | by intros ?; split]. }
  induction l as [|p l IH]; [by split; constructor|].
  cbn [flat_map]. by rewrite list.Forall_app, list.Forall_cons, IH.
Qed.

Lemma leaves_children Q p : leaves Q p -> Forall (leaves Q) (children p).
Proof.
  destruct p as [| | | | | | | | | |i sub|[k l]]; try by constructor.
  - rewrite leaves_inscribe. by repeat constructor.
  - by rewrite leaves_thresh.
Qed.

Lemma leaves_flatten Q is_and is_or l :
  Forall (leaves Q) l -> Forall (leaves Q) (flat_map (flatten_branch is_and is_or) l).
Proof.
  induction 1 as [|p l Hp _ IH]; [constructor|]. cbn [flat_map]. apply Forall_app_2; [|done].
  assert (Forall (leaves Q) [p]) as H1 by (constructor; [done | constructor]).
  destruct p as [| | | | | | | | | | |[k l']]; try done; try by constructor.
  cbn [flatten_branch Threshold.k Threshold.n Threshold.data Threshold.inner].
  apply leaves_thresh in Hp. by destruct is_and, is_or; try case_match.
Qed.

(** Normalisation adds no leaf but the constants. *)
Lemma leaves_norm (Q : Policy -> Prop) p :
  Q Trivial -> Q Unsatisfiable -> leaves Q p -> leaves Q (norm p).
Proof.
  intros Ht Hu Hp.
  enough (forall p', normalized p = Some p' -> leaves Q p') as H by apply H, normalized_norm.
  induction p as [p Hl|i sub IH|k l IH] using policy_ind; intros p' H.
  - assert (p' = p) as -> by (destruct p; try done; simpl in H; congruence). done.
  - rewrite leaves_inscribe in Hp. cbn [normalized] in H.
    destruct (normalized sub) as [c|]; [|done]. simpl in H. specialize (IH Hp c eq_refl).
    destruct c; injection H as <-; try done; by apply leaves_inscribe.
  - rewrite leaves_thresh in Hp. cbn [normalized] in H.
    destruct (mapM normalized l) as [subs|] eqn:Hs; [|done]. simpl in H.
    assert (Forall (leaves Q) subs) as Hsubs.
    { clear H. revert subs Hs. induction IH as [|q l Hq _ IHl]; intros subs Hs.
      - by injection Hs as <-.
      - apply Forall_cons_1 in Hp as [Hp1 Hp]. simpl in Hs.
        destruct (normalized q) as [q'|]; [|done]. simpl in Hs.
        destruct (mapM normalized l) as [subs'|]; [|done]. injection Hs as <-.
        constructor; [by apply Hq | by apply IHl]. }
    apply normalize_thresh_cases in H as [Hc|(ia & io & H)].
    { destruct p'; try done; by apply leaves_leaf. }
    cbn zeta in H. pose proof (leaves_flatten Q ia io subs Hsubs) as Hf.
    destruct H as [H|[k' ->]]; [|by apply leaves_thresh].
    rewrite H in Hf. by apply Forall_cons_1 in Hf as [? _].
Qed.

(** * Filters *)

(** A filter that rewrites every leaf by [g]. *)
Fixpoint rewrite_leaves (g : Policy -> Policy) (p : Policy) : Policy :=
  match p with
  | Inscribe i sub => Inscribe i (rewrite_leaves g sub)
  | Thresh (Threshold.mkThreshold k l) => Thresh (mkThreshold k (map (rewrite_leaves g) l))
  | leaf => g leaf
  end.

Lemma rewrite_leaves_fold g p :
  tree_fold (fun p subs => match p, subs with
                           | Inscribe i _, [sub] => Inscribe i sub
                           | Thresh t, subs => Thresh (mkThreshold (Threshold.k t) subs)
                           | leaf, _ => g leaf
                           end) p = rewrite_leaves g p.
Proof.
  induction p as [p Hp|i sub IH|k l IH] using policy_ind; rewrite tree_fold_eq.
  - by destruct p.
  - cbn [children as_node Policy_TreeLike map rewrite_leaves]. by rewrite <- IH.
  - change (children (Thresh (mkThreshold k l))) with l. cbn [rewrite_leaves Threshold.k]. do 2 f_equal.
    induction IH as [|p l Hp _ IHl]; [done|]. cbn [map]. by rewrite Hp, IHl.
Qed.

Lemma filter_root f g p :
  leaves (fun q => f q = Some (g q)) p ->
  stack_root (filter_step f) p = Some (rewrite_leaves g p).
Proof.
  intros Hp. rewrite <- rewrite_leaves_fold.
  apply (stack_root_good _ _ (leaves (fun q => f q = Some (g q)))); [apply leaves_children| |done].
  intros t subs rest Ht Hlen.
  destruct t as [| | | | | | | | | |i sub|[k l]];
    try (destruct subs; [|done]; cbn [filter_step]; rewrite leaves_leaf in Ht by done;
         rewrite Ht; reflexivity).
  - cbn in Hlen. destruct subs as [|s [|? ?]]; cbn in Hlen; try lia. reflexivity.
  - change (children (Thresh (mkThreshold k l))) with l in Hlen.
    cbn [filter_step]. unfold Threshold.n. cbn [Threshold.inner]. by rewrite <- Hlen, pop_n_app.
Qed.

Lemma holds_leaves v v' p :
  (forall q, is_leaf q = true -> is_const q = false -> v q = v' q) -> holds v p = holds v' p.
Proof.
  intros H. induction p as [p Hp|i sub IH|k l IH] using policy_ind.
  - destruct p; try done; by apply H.
  - exact IH.
  - cbn [holds]. f_equal. by apply count_if_ext.
Qed.

(** A rewriting of leaves that keeps the constants acts on valuations. *)
Lemma holds_rewrite g v p :
  g Trivial = Trivial -> g Unsatisfiable = Unsatisfiable ->
  holds v (rewrite_leaves g p) = holds (fun q => holds v (g q)) p.
Proof.
  intros Ht Hu. induction p as [p Hp|i sub IH|k l IH] using policy_ind.
  - destruct p; try done; cbn [rewrite_leaves]; by rewrite ?Ht, ?Hu.
  - exact IH.
  - cbn [rewrite_leaves holds]. rewrite count_if_map. f_equal. by apply count_if_ext.
Qed.

Lemma leaves_rewrite Q g p :
  (forall q, is_leaf q = true -> leaves Q (g q)) -> leaves Q (rewrite_leaves g p).
Proof.
  intros H. induction p as [p Hp|i sub IH|k l IH] using policy_ind.
  - destruct p; try done; cbn [rewrite_leaves]; by apply H.
  - cbn [rewrite_leaves]. by rewrite leaves_inscribe.
  - cbn [rewrite_leaves]. rewrite leaves_thresh. by apply Forall_map.
Qed.

Lemma filter_spec f g Q p :
  leaves (fun q => f q = Some (g q)) p ->
  g Trivial = Trivial -> g Unsatisfiable = Unsatisfiable ->
  Q Trivial -> Q Unsatisfiable -> (forall q, is_leaf q = true -> leaves Q (g q)) ->
  exists p', (policy ← stack_root (filter_step f) p; normalized policy) = Some p'
    /\ normal p' /\ leaves Q p' /\ forall v, holds v p' = holds (fun q => holds v (g q)) p.
Proof.
  intros Hp Ht Hu HQt HQu HQ. exists (norm (rewrite_leaves g p)). split_and!.
  - rewrite (filter_root f g p Hp). cbn [mbind option_bind]. apply normalized_norm.
  - apply norm_normal.
  - apply leaves_norm; [done | done |]. by apply leaves_rewrite.
  - intros v. rewrite (norm_equivalent _ v). by apply holds_rewrite.
Qed.

(** The lock times of the policy are those of the checked constructors. *)
Definition locks_valid (p : Policy) : Prop :=
  leaves (fun q => match q with Older t => rel_valid t | _ => True end) p.

(** A relative lock that [age] implies; [age_met] restricts a valuation to those. *)
Definition implied_by_age (age : RelativeLockTime) (t : RelLockTime) : bool :=
  match rel_to_relative t with
  | Some t' => RelativeLockTime_is_implied_by t' age
  | None => false
  end.

Definition age_met (age : RelativeLockTime) (v : valuation) : valuation := fun q =>
  match q with
  | Older t => implied_by_age age t && v q
  | q => v q
  end.

Definition lock_time_met (n : LockTime) (v : valuation) : valuation := fun q =>
  match q with
  | After t => LockTime_is_implied_by (abs_inner t) n && v q
  | q => v q
  end.

Context {L : LockTimeLaws B}.

(** [at_age] and [at_lock_time] never panic on policies with valid relative lock times.
    The policy they return is normal, has only lock times that [age], [n] implies, and
    means the given policy with every other lock time unmet. *)
Theorem lock_filters_spec p age n :
  locks_valid p ->
  (exists p', at_age p age = Some p' /\ normal p'
     /\ leaves (fun q => match q with Older t => implied_by_age age t = true | _ => True end) p'
     /\ forall v, holds v p' = holds (age_met age v) p)
  /\ (exists p', at_lock_time p n = Some p' /\ normal p'
     /\ leaves (fun q => match q with
                         | After t => LockTime_is_implied_by (abs_inner t) n = true
                         | _ => True
                         end) p'
     /\ forall v, holds v p' = holds (lock_time_met n v) p).
Proof.
  intros Hp. split.
  - destruct (filter_spec (age_leaf age)
      (fun q => match q with
                | Older t => if implied_by_age age t then Older t else Unsatisfiable
                | q => q
                end)
      (fun q => match q with Older t => implied_by_age age t = true | _ => True end) p)
      as (p' & H1 & H2 & H3 & H4); try done.
    + eapply Forall_impl; [|exact Hp]. intros q Hq Hl. specialize (Hq Hl).
      destruct q; try done. destruct Hq as (Hr & _).
      cbn [age_leaf]. unfold implied_by_age, rel_to_relative.
      apply Sequence_to_relative in Hr as [t' ->]. simpl. by case_match.
    + intros q Hl. destruct q; try done; try by apply leaves_leaf.
      case_match; by apply leaves_leaf.
    + exists p'. split; [done|]. split; [done|]. split; [done|]. intros v. rewrite H4.
      apply holds_leaves. intros q Hq Hc. destruct q; try done.
      cbn [age_met]. by destruct (implied_by_age age t).
  - destruct (filter_spec (lock_time_leaf n)
      (fun q => match q with
                | After t => if LockTime_is_implied_by (abs_inner t) n then After t else Unsatisfiable
                | q => q
                end)
      (fun q => match q with
                | After t => LockTime_is_implied_by (abs_inner t) n = true
                | _ => True
                end) p)
      as (p' & H1 & H2 & H3 & H4); try done.
    + apply list.Forall_true. intros q Hl. by destruct q.
    + intros q Hl. destruct q; try done; try by apply leaves_leaf.
      case_match; by apply leaves_leaf.
    + exists p'. split; [done|]. split; [done|]. split; [done|]. intros v. rewrite H4.
      apply holds_leaves. intros q Hq Hc. destruct q; try done.
      cbn [lock_time_met]. by destruct (LockTime_is_implied_by _ _).
Qed.
End Ops.

(** [thresh(1, and(pk, older(144)), and(pk, after(500)))] *)
Definition sample_locks : Semantic.Policy (B := reference) (K := reference_key) :=
  Semantic.Thresh (mkThreshold 1
    [Semantic.Thresh (mkThreshold 2 [Semantic.Key keyA; Semantic.Older older_144]);
     Semantic.Thresh (mkThreshold 2 [Semantic.Key keyB; Semantic.After after_500])]).

Lemma lock_filters_spec_witness :
  (exists p', Semantic.at_age sample_locks 100%N = Some p' /\ normal p'
     /\ leaves (fun q => match q with
                         | Semantic.Older t => implied_by_age (B := reference) 100%N t = true
                         | _ => True
                         end) p'
     /\ forall v, holds v p' = holds (age_met (B := reference) 100%N v) sample_locks)
  /\ (exists p', Semantic.at_lock_time sample_locks 600%N = Some p' /\ normal p'
     /\ leaves (fun q => match q with
                         | Semantic.After t =>
                             LockTime_is_implied_by (Bitcoin := reference) (abs_inner t) 600%N = true
                         | _ => True
                         end) p'
     /\ forall v, holds v p' = holds (lock_time_met (B := reference) 600%N v) sample_locks).
Proof.
  apply (lock_filters_spec (B := reference) sample_locks 100%N 600%N).
  unfold locks_valid, sample_locks. 
  rewrite leaves_thresh, !list.Forall_cons, !leaves_thresh, !list.Forall_cons, list.Forall_nil, !leaves_leaf
    by done.
  split_and!; done.
Defined.

(** * The least number of signatures that satisfies an abstract policy
    ([minimum_n_keys] of src/src/policy/semantic.rs) is an optimum. *)

(** * The cheapest selection of a list *)

Definition sort_nat : list nat -> list nat := sort_by_key Nat.leb (fun x => x).

Lemma sort_nat_sorted l : StronglySorted le (sort_nat l).
Proof.
  apply Sorted.Sorted_StronglySorted; [intros x y z; lia|].
  assert (forall x y, (x <=? y) = true \/ (y <=? x) = true) as Ht
    by (intros x y; rewrite !Nat.leb_le; lia).
  pose proof (sort_by_key_sorted Nat.leb (fun x => x) Ht l) as H. fold (sort_nat l) in H.
  induction H as [|a l' _ IH Hd]; [constructor|]. constructor; [done|].
  destruct Hd; constructor. by apply Nat.leb_le.
Qed.

(** The values that are there. *)
Definition somes (l : list (option nat)) : list nat := omap (fun o => o) l.

Lemma list_sum_cons a l : list_sum (a :: l) = a + list_sum l.
Proof. reflexivity. Qed.

(** The first [k] elements of a sorted list are at most any other [k] of them. *)
Lemma prefix_cheapest l s k :
  StronglySorted le l -> s ⊆+ l -> k <= length s -> list_sum (take k l) <= list_sum s.
Proof.
  intros Hl. revert s k. induction Hl as [|a l Hl IH Ha]; intros s k Hs Hk.
  { destruct k; simpl; lia. }
  destruct k as [|k]; [simpl; lia|]. cbn [take]. change (list_sum (a :: take k l)) with (a + list_sum (take k l)).
  assert (exists x s', s ≡ₚ x :: s' /\ a <= x /\ s' ⊆+ l) as (x & s' & Hp & Hx & Hs').
  { apply submseteq_cons_r in Hs as [Hs|(s' & Hp & Hs')]; [|by exists a, s'].
    destruct s as [|x s]; [simpl in Hk; lia|]. exists x, s. split; [done|]. split.
    - eapply list.Forall_forall; [exact Ha|]. eapply elem_of_submseteq; [|exact Hs]. by left.
    - etransitivity; [|exact Hs]. by apply submseteq_cons. }
  rewrite Hp in Hk. simpl in Hk. specialize (IH s' k Hs' ltac:(lia)).
  assert (list_sum s = x + list_sum s') as ->; [|lia].
  clear -Hp. change (x + list_sum s') with (list_sum (x :: s')).
  induction Hp; simpl in *; lia.
Qed.

Section Keys.
Context {B : Bitcoin} {K : MiniscriptKey}.

(** * Ways to satisfy a policy

    [Cost p n]: some choice of branches satisfies [p] with [n] signatures, a key that
    occurs twice counting twice. *)
#[warnings="-register-all"]
Inductive Cost : Policy -> nat -> Prop :=
| Cost_key k : Cost (Key k) 1
| Cost_leaf p :
    is_leaf p = true -> p <> Unsatisfiable -> (forall k, p <> Key k) -> Cost p 0
| Cost_inscribe i sub n : Cost sub n -> Cost (Inscribe i sub) n
| Cost_thresh k l (chosen : list (option nat)) :
    length chosen = length l ->
    (forall (j : nat) p n, l !! j = Some p -> chosen !! j = Some (Some n) -> Cost p n) ->
    k <= length (somes chosen) ->
    Cost (Thresh (mkThreshold k l)) (list_sum (somes chosen)).

(** [r] is the least cost of [p]. *)
Definition least (p : Policy) (r : option nat) : Prop :=
  match r with
  | None => forall n, ~ Cost p n
  | Some n => Cost p n /\ forall m, Cost p m -> n <= m
  end.

Fixpoint minimum (p : Policy) : option nat :=
  match p with
  | Unsatisfiable => None
  | Key _ => Some 1
  | Inscribe _ sub => minimum sub
  | Thresh (Threshold.mkThreshold k l) => minimum_thresh k (map minimum l)
  | _ => Some 0
  end.

Lemma minimum_n_keys_eq p : minimum_n_keys p = Some (minimum p).
Proof.
  unfold minimum_n_keys.
  rewrite (stack_root_eq _ (fun p subs =>
    match p with
    | Unsatisfiable => None
    | Key _ => Some 1
    | Inscribe _ _ => match subs with [m] => m | _ => None end
    | Thresh t => minimum_thresh (Threshold.k t) subs
    | _ => Some 0
    end)).
  - f_equal. induction p as [p Hp|i sub IH|k l IH] using policy_ind; rewrite tree_fold_eq.
    + by destruct p.
    + cbn [children as_node Policy_TreeLike map minimum]. exact IH.
    + change (children (Thresh (mkThreshold k l))) with l. cbn [minimum Threshold.k]. f_equal.
      induction IH as [|p l Hp _ IHl]; [done|]. cbn [map]. by rewrite Hp, IHl.
  - clear p. intros p subs rest Hlen.
    destruct p as [| | | | | | | | | |i sub|[k l]];
      try (destruct subs; [|done]; reflexivity).
    + cbn in Hlen. destruct subs as [|s [|? ?]]; cbn in Hlen; try lia. reflexivity.
    + change (children (Thresh (mkThreshold k l))) with l in Hlen.
      cbn [minimum_step]. unfold Threshold.n. cbn [Threshold.inner]. by rewrite <- Hlen, pop_n_app.
Qed.

(** The selection [chosen] is among the minima [subs], each at least as dear. *)
Lemma chosen_above (subs chosen : list (option nat)) :
  Forall2 (fun c m => match c with Some n => exists m', m = Some m' /\ m' <= n | None => True end)
    chosen subs ->
  exists s, s ⊆+ somes subs /\ length s = length (somes chosen)
    /\ list_sum s <= list_sum (somes chosen).
Proof.
  induction 1 as [|c m chosen subs Hc _ (s & H1 & H2 & H3)]; [by exists []|].
  destruct c as [n|].
  - destruct Hc as (m' & -> & Hle). exists (m' :: s). split; [by apply submseteq_skip|].
    change (somes (Some n :: chosen)) with (n :: somes chosen).
    cbn [length]. split; [lia|]. rewrite !list_sum_cons. lia.
  - exists s. split; [|done]. destruct m; [by apply submseteq_cons | done].
Qed.

Lemma chosen_below (subs : list (option nat)) s :
  s `sublist_of` somes subs ->
  exists chosen, Forall2 (fun c m => c = None \/ c = m) chosen subs
    /\ somes chosen = s.
Proof.
  revert s. induction subs as [|m subs IH]; intros s Hs.
  - exists []. apply sublist_nil_r in Hs as ->. by repeat constructor.
  - destruct m as [n|];
      [change (somes (Some n :: subs)) with (n :: somes subs) in Hs
      |change (somes (None :: subs)) with (somes subs) in Hs].
    + apply sublist_cons_r in Hs as [Hs|(s' & -> & Hs)].
      * destruct (IH _ Hs) as (chosen & H1 & H2). exists (None :: chosen).
        split; [constructor; auto | done].
      * destruct (IH _ Hs) as (chosen & H1 & <-). exists (Some n :: chosen).
        split; [constructor; auto | done].
    + destruct (IH _ Hs) as (chosen & H1 & H2). exists (None :: chosen).
      split; [constructor; auto | done].
Qed.

Lemma least_thresh k l :
  Forall (fun p => least p (minimum p)) l ->
  least (Thresh (mkThreshold k l)) (minimum_thresh k (map minimum l)).
Proof.
  intros Hl.
  assert (forall m, Cost (Thresh (mkThreshold k l)) m ->
    exists s, s ⊆+ somes (map minimum l) /\ k <= length s /\ list_sum s <= m) as Hlow.
  { intros m Hm. inversion Hm as [|? Hb|?|? ? chosen Hlen Hc Hk]; simplify_eq/=.
    destruct (chosen_above (map minimum l) chosen) as (s & H1 & H2 & H3).
    - apply Forall2_same_length_lookup. rewrite length_map. split; [done|].
      intros i c m Hi Hm'. apply list_lookup_fmap_Some in Hm' as (p & -> & Hp).
      destruct c as [n|]; [|done]. specialize (Hc i p n Hp Hi).
      pose proof (Forall_lookup_1 _ _ _ _ Hl Hp) as Hlp. unfold least in Hlp.
      destruct (minimum p) as [m'|]; [|by apply Hlp in Hc]. exists m'. split; [done|].
      by apply Hlp.
    - exists s. split; [done|]. lia. }
  unfold minimum_thresh. cbn zeta. fold (somes (map minimum l)).
  fold (sort_nat (somes (map minimum l))).
  set (lens := somes (map minimum l)) in *.
  destruct (Nat.ltb_spec (length lens) k) as [Hk|Hk]; cbn [least].
  - intros n (s & Hs%submseteq_length & ? & _)%Hlow. lia.
  - pose proof (sort_by_key_perm Nat.leb (fun x => x) lens) as Hperm. fold (sort_nat lens) in Hperm.
    split.
    + assert (take k (sort_nat lens) ⊆+ lens) as Hsub.
      { rewrite <- Hperm at 2. apply sublist_submseteq, sublist_take. }
      apply submseteq_sublist_r in Hsub as (s & Hps & Hs).
      apply chosen_below in Hs as (chosen & Hc & Ho).
      assert (list_sum (take k (sort_nat lens)) = list_sum (somes chosen)) as ->.
      { rewrite Ho. clear -Hps. induction Hps; simpl in *; lia. }
      constructor.
      * apply Forall2_length in Hc. by rewrite length_map in Hc.
      * intros j p n Hj Hcj. pose proof (Forall2_lookup_l _ _ _ _ _ Hc Hcj) as (m & Hm & Hor).
        destruct Hor as [|<-]; [done|]. apply list_lookup_fmap_Some in Hm as (p' & Hp & Hp').
        assert (p' = p) as -> by congruence.
        pose proof (Forall_lookup_1 _ _ _ _ Hl Hj) as Hlp. unfold least in Hlp.
        rewrite <- Hp in Hlp. apply Hlp.
      * rewrite Ho. apply Permutation_length in Hps. rewrite <- Hps, length_take.
        apply Permutation_length in Hperm. rewrite Hperm. lia.
    + intros m (s & Hs & Hks & Hm)%Hlow. etransitivity; [|exact Hm].
      apply prefix_cheapest; [apply sort_nat_sorted | by rewrite Hperm | done].
Qed.

(** [minimum_n_keys] never panics. It answers [None] exactly when no choice of branches
    satisfies the policy, and otherwise the number of signatures of the cheapest choice. *)
Theorem minimum_n_keys_spec p :
  exists r, minimum_n_keys p = Some r
    /\ match r with
       | None => forall n, ~ Cost p n
       | Some n => Cost p n /\ forall m, Cost p m -> n <= m
       end.
Proof.
  exists (minimum p). split; [apply minimum_n_keys_eq|]. change (least p (minimum p)).
  induction p as [p Hp|i sub IH|k l IH] using policy_ind.
  - destruct p; try done; cbn [minimum least];
      try (split; [by constructor | intros m Hm; inversion Hm; simplify_eq/=; try lia; naive_solver]).
    intros n Hn. inversion Hn; naive_solver.
  - cbn [minimum]. unfold least in *. destruct (minimum sub).
    + destruct IH as [H1 H2]. split; [by constructor|]. intros m Hm.
      inversion Hm; simplify_eq/=; auto.
    + intros n Hn. inversion Hn; simplify_eq/=; by eapply IH.
  - by apply least_thresh.
Qed.
End Keys.
