(* ===== verification/Encode.v ===== *)
(** Script encoding (src/src/miniscript/astelem.rs, the key builder of
    src/src/util.rs) and the two size computations over it: [script_size]
    (src/src/miniscript/mod.rs) and the cached [pk_cost]. *)
From S2P Require Import Prelude Bitcoin Primitives Reference Ord Correctness Malleability Types ExtData Tree Ast Context Samples.

Section Encode.
Context {B : Bitcoin} {K : MiniscriptKey} {TP : ToPublicKey K}.

(** ** [MsKeyBuilder] (src/src/util.rs) *)

Definition push_ms_key (ctx : ScriptContext) (b : Builder) (key : Pk) : Builder :=
  match sig_type ctx with
  | Ecdsa => push_key b (to_public_key key)
  | Schnorr => push_slice b (XOnlyPublicKey_serialize (to_x_only_pubkey key))
  end.

Definition push_ms_key_hash (ctx : ScriptContext) (b : Builder) (key : Pk) : Builder :=
  match sig_type ctx with
  | Ecdsa => push_slice b (PublicKey_pubkey_hash (to_public_key key))
  | Schnorr => push_slice b (PubkeyHash_hash (XOnlyPublicKey_serialize (to_x_only_pubkey key)))
  end.

(** [SIZE <32> EQUALVERIFY <hash op> <hash> EQUAL] *)
Definition push_hash (b : Builder) (op : Opcode) (h : bytes) : Builder :=
  let b := push_int (push_opcode b OP_SIZE) 32 in
  let b := push_opcode (push_opcode b OP_EQUALVERIFY) op in
  push_opcode (push_slice b h) OP_EQUAL.

Definition push_inscriptions (b : Builder) (inscriptions : list Inscription) : Builder :=
  fold_left (fun b i => append_reveal_script_to_builder i b) inscriptions b.

(** [Terminal::encode]. The slices [data()[0]] and [data()[1..]] of a threshold
    exist because thresholds are not empty; for an empty one the code panics and
    the model leaves the builder as it is. *)
Fixpoint encode (ctx : ScriptContext) (ms : Miniscript) (b : Builder) : Builder :=
  match ms with
  | mkMiniscript node _ _ =>
      match node with
      | Terminal.PkK pk => push_ms_key ctx b pk
      | Terminal.PkH pk =>
          let b := push_opcode (push_opcode b OP_DUP) OP_HASH160 in
          push_opcode (push_ms_key_hash ctx b pk) OP_EQUALVERIFY
      | Terminal.RawPkH hash =>
          let b := push_opcode (push_opcode b OP_DUP) OP_HASH160 in
          push_opcode (push_slice b (hash160_to_byte_array hash)) OP_EQUALVERIFY
      | Terminal.After t => push_opcode (push_int b (Z.of_N (abs_to_consensus_u32 t))) OP_CLTV
      | Terminal.Older t => push_opcode (push_int b (Z.of_N (rel_to_consensus_u32 t))) OP_CSV
      | Terminal.Sha256 h => push_hash b OP_SHA256 (sha256_to_byte_array (to_sha256 h))
      | Terminal.Hash256 h => push_hash b OP_HASH256 (hash256_to_byte_array (to_hash256 h))
      | Terminal.Ripemd160 h =>
          push_hash b OP_RIPEMD160 (ripemd160_to_byte_array (to_ripemd160 h))
      | Terminal.Hash160 h => push_hash b OP_HASH160 (hash160_to_byte_array (to_hash160 h))
      | Terminal.TxTemplate h =>
          push_opcode (push_opcode (push_slice b (sha256_to_byte_array h)) OP_NOP4) OP_DROP
      | Terminal.InscribePre inscriptions sub =>
          encode ctx sub (push_inscriptions b inscriptions)
      | Terminal.InscribePost inscriptions sub =>
          push_inscriptions (encode ctx sub b) inscriptions
      | Terminal.True => push_opcode b OP_TRUE
      | Terminal.False => push_opcode b OP_FALSE
      | Terminal.Alt sub =>
          push_opcode (encode ctx sub (push_opcode b OP_TOALTSTACK)) OP_FROMALTSTACK
      | Terminal.Swap sub => encode ctx sub (push_opcode b OP_SWAP)
      | Terminal.Check sub => push_opcode (encode ctx sub b) OP_CHECKSIG
      | Terminal.DupIf sub =>
          push_opcode (encode ctx sub (push_opcode (push_opcode b OP_DUP) OP_IF)) OP_ENDIF
      | Terminal.Verify sub => push_verify (encode ctx sub b)
      | Terminal.NonZero sub =>
          let b := push_opcode (push_opcode (push_opcode b OP_SIZE) OP_0NOTEQUAL) OP_IF in
          push_opcode (encode ctx sub b) OP_ENDIF
      | Terminal.ZeroNotEqual sub => push_opcode (encode ctx sub b) OP_0NOTEQUAL
      | Terminal.AndV l r => encode ctx r (encode ctx l b)
      | Terminal.AndB l r => push_opcode (encode ctx r (encode ctx l b)) OP_BOOLAND
      | Terminal.AndOr a b' c =>
          let bld := push_opcode (encode ctx a b) OP_NOTIF in
          let bld := push_opcode (encode ctx c bld) OP_ELSE in
          push_opcode (encode ctx b' bld) OP_ENDIF
      | Terminal.OrB l r => push_opcode (encode ctx r (encode ctx l b)) OP_BOOLOR
      | Terminal.OrD l r =>
          let b := push_opcode (push_opcode (encode ctx l b) OP_IFDUP) OP_NOTIF in
          push_opcode (encode ctx r b) OP_ENDIF
      | Terminal.OrC l r =>
          let b := push_opcode (encode ctx l b) OP_NOTIF in
          push_opcode (encode ctx r b) OP_ENDIF
      | Terminal.OrI l r =>
          let b := push_opcode (encode ctx l (push_opcode b OP_IF)) OP_ELSE in
          push_opcode (encode ctx r b) OP_ENDIF
      | Terminal.Thresh (Threshold.mkThreshold k data) =>
          let b := match data with
                   | [] => b
                   | first :: rest =>
                       fold_left (fun b sub => push_opcode (encode ctx sub b) OP_ADD) rest
                         (encode ctx first b)
                   end in
          push_opcode (push_int b (Z.of_nat k)) OP_EQUAL
      | Terminal.Multi thresh =>
          let b := push_int b (Z.of_nat (Threshold.k thresh)) in
          let b := fold_left (fun b pk => push_key b (to_public_key pk)) (Threshold.data thresh) b in
          push_opcode (push_int b (Z.of_nat (Threshold.n thresh))) OP_CHECKMULTISIG
      | Terminal.MultiA thresh =>
          let b := match Threshold.data thresh with
                   | [] => b
                   | first :: rest =>
                       fold_left (fun b pk => push_opcode (push_ms_key ctx b pk) OP_CHECKSIGADD) rest
                         (push_opcode (push_ms_key ctx b first) OP_CHECKSIG)
                   end in
          push_opcode (push_int b (Z.of_nat (Threshold.k thresh))) OP_NUMEQUAL
      end
  end.

(** ** [script_size] *)

(** The sum of the key lengths, if the context defines them. *)
Definition pks_len (ctx : ScriptContext) (pks : list Pk) : option nat :=
  sum_opt (pk_len ctx) pks.

(** The bytes that one node adds; [None] when [Ctx::pk_len] panics. *)
Definition node_size (ctx : ScriptContext) (ms : Miniscript) : option nat :=
  match node ms with
  | Terminal.TxTemplate _ => Some 35
  | Terminal.InscribePre i _ | Terminal.InscribePost i _ => Some (sum_by size_guess i)
  | Terminal.AndV _ _ => Some 0
  | Terminal.True | Terminal.False | Terminal.Swap _ | Terminal.Check _
  | Terminal.ZeroNotEqual _ | Terminal.AndB _ _ | Terminal.OrB _ _ => Some 1
  | Terminal.Alt _ | Terminal.OrC _ _ => Some 2
  | Terminal.DupIf _ | Terminal.AndOr _ _ _ | Terminal.OrD _ _ | Terminal.OrI _ _ => Some 3
  | Terminal.NonZero _ => Some 4
  | Terminal.PkH _ | Terminal.RawPkH _ => Some 24
  | Terminal.Ripemd160 _ | Terminal.Hash160 _ => Some (21 + 6)
  | Terminal.Sha256 _ | Terminal.Hash256 _ => Some (33 + 6)
  | Terminal.PkK pk => pk_len ctx pk
  | Terminal.After n => Some (script_num_size (abs_to_consensus_u32 n) + 1)
  | Terminal.Older n => Some (script_num_size (rel_to_consensus_u32 n) + 1)
  | Terminal.Verify sub => Some (Nat.b2n (negb (has_free_verify (ext sub))))
  | Terminal.Thresh thresh =>
      Some (script_num_size (N.of_nat (Threshold.k thresh)) + 1 + Threshold.n thresh - 1)
  | Terminal.Multi thresh =>
      len ← pks_len ctx (Threshold.data thresh);
      Some (script_num_size (N.of_nat (Threshold.k thresh)) + 1
            + script_num_size (N.of_nat (Threshold.n thresh)) + len)
  | Terminal.MultiA thresh =>
      len ← pks_len ctx (Threshold.data thresh);
      Some (script_num_size (N.of_nat (Threshold.k thresh)) + 1 + len + Threshold.n thresh)
  end.

Definition script_size (ctx : ScriptContext) (ms : Miniscript) : option nat :=
  sum_opt (node_size ctx) (pre_order ms).

(** ** Lengths of the parts *)

Context {BL : BuilderLaws B} {SL : SizeLaws B} {KL : KeyLaws TP}.

Lemma script_num_size_push n : push_int_size n = script_num_size n.
Proof. reflexivity. Qed.

Lemma len_push_nat b k :
  (N.of_nat k < 2 ^ 39)%N ->
  Builder_len (push_int b (Z.of_nat k)) = Builder_len b + script_num_size (N.of_nat k).
Proof. intros H. rewrite <- nat_N_Z, len_push_int by done. done. Qed.

Lemma len_push_key b k :
  Builder_len (push_key b (to_public_key k))
  = Builder_len b + (if is_uncompressed k then 66 else 34).
Proof.
  rewrite push_key_slice, len_push_slice, PublicKey_size, uncompressed_spec.
  by destruct (is_uncompressed k).
Qed.

Lemma len_push_hash b op h n :
  length h = n -> n < 76 -> Builder_len (push_hash b op h) = Builder_len b + (n + 7).
Proof.
  intros Hh Hn. unfold push_hash.
  rewrite len_push_opcode, len_push_slice, !len_push_opcode.
  change 32%Z with (Z.of_N 32). rewrite len_push_int, len_push_opcode by done.
  rewrite Hh. unfold push_size. destruct (Nat.ltb_spec n 76); [|lia].
  change (push_int_size 32) with 2. lia.
Qed.

Lemma len_push_inscriptions ins :
  appends (fun b => push_inscriptions b ins) (sum_by size_guess ins).
Proof.
  apply (appends_fold (fun b i => append_reveal_script_to_builder i b)).
  intros b i. apply size_guess_spec.
Qed.

(** ** [push_verify] after a fragment *)

(** How the last instruction of a builder behaves under [push_verify]: [free]
    tells that it has a [VERIFY] form to be replaced by. *)
Definition ends (free : bool) (b : Builder) : Prop :=
  (exists b' o, b = push_opcode b' o /\ free = bool_decide (is_Some (verify_opcode o)))
  \/ (free = false /\ exists b' s, b = push_slice b' s).

Lemma ends_opcode b o : ends (bool_decide (is_Some (verify_opcode o))) (push_opcode b o).
Proof. left. by exists b, o. Qed.

Lemma ends_slice b s : ends false (push_slice b s).
Proof. right. split; [done|]. by exists b, s. Qed.

Lemma ends_key ctx b pk : ends false (push_ms_key ctx b pk).
Proof. unfold push_ms_key. destruct (sig_type ctx); [rewrite push_key_slice|]; apply ends_slice. Qed.

Lemma ends_verify_cost free b :
  ends free b -> Builder_len (push_verify b) = Builder_len b + Nat.b2n (negb free).
Proof.
  intros [(b' & o & -> & ->) | (-> & b' & s & ->)].
  - destruct (verify_opcode o) as [o'|] eqn:E.
    + rewrite (push_verify_merge _ _ _ E), !len_push_opcode. simpl. lia.
    + by rewrite (push_verify_opcode _ _ E), !len_push_opcode.
  - by rewrite push_verify_slice, len_push_opcode.
Qed.

Lemma ends_verify free b : ends free b -> ends false (push_verify b).
Proof.
  intros [(b' & o & -> & ->) | (-> & b' & s & ->)].
  - destruct (verify_opcode o) as [o'|] eqn:E.
    + rewrite (push_verify_merge _ _ _ E). left. exists b', o'. split; [done|].
      by destruct o; simplify_eq/=.
    + rewrite (push_verify_opcode _ _ E). left. by eexists _, _.
  - rewrite push_verify_slice. left. by eexists _, _.
Qed.

Lemma ends_inscriptions b ins : ins <> [] -> ends false (push_inscriptions b ins).
Proof.
  intros Hne. destruct (exists_last Hne) as (ins' & i & ->).
  unfold push_inscriptions. rewrite fold_left_app. simpl.
  unfold append_reveal_script_to_builder. exact (ends_opcode _ OP_ENDIF).
Qed.

(** The cached [has_free_verify] says how the encoding of a fragment ends. *)
Lemma encode_ends ctx ms :
  wf ctx ms -> forall b, ends (has_free_verify (ext ms)) (encode ctx ms b).
Proof.
  revert ms. refine (wf_tree_ind ctx _ _). intros ms Hwf _ IH b.
  destruct (wf_inv _ _ Hwf) as (_ & _ & Ht & He). rewrite children_node in IH.
  destruct ms as [node ty' ext']. cbn [Ast.node Ast.ty Ast.ext] in *. clear Hwf. subst ext'.
  assert (forall free o b', bool_decide (is_Some (verify_opcode o)) = free ->
            ends free (push_opcode b' o)) as Hop by (intros ? o b' <-; apply ends_opcode).
  destruct node; forall_children IH; cbn [encode ext_type_check type_check] in *;
    try (by apply Hop); try (by auto).
  - unfold Ext.pk_k. destruct (sig_type ctx) eqn:E; [destruct (is_uncompressed pk)|];
      apply ends_key.
  - unfold Ext.pk_h. destruct (sig_type ctx) eqn:E; [destruct (is_uncompressed pk)|];
      by apply Hop.
  - unfold Ext.pk_h. destruct (sig_type ctx) eqn:E; by apply Hop.
  - apply ends_inscriptions. by destruct i.
  - eapply ends_verify; eauto.
  - destruct thresh. by apply Hop.
Qed.

(** ** [script_size] is the length of the encoding *)

Lemma node_checked_valid ctx ms :
  check_global_validity ctx ms = Ok tt -> node_checked ctx (node ms) = Ok tt.
Proof. by intros ([] & ([] & H & _)%bind_Ok_inv & _)%bind_Ok_inv. Qed.

Lemma check_pks_Forall ctx pks :
  check_pks ctx pks = Ok tt -> Forall (fun pk => check_pk ctx pk = Ok tt) pks.
Proof.
  induction pks as [|pk pks IH]; [constructor|].
  intros ([] & H & Hr)%bind_Ok_inv. constructor; auto.
Qed.

(** The length of a key push that [check_pk] accepts. *)
Definition key_len (ctx : ScriptContext) (pk : Pk) : nat := default 0 (pk_len ctx pk).

Lemma len_push_ms_key ctx b pk :
  ctx <> NoChecks -> check_pk ctx pk = Ok tt ->
  pk_len ctx pk = Some (key_len ctx pk)
  /\ Builder_len (push_ms_key ctx b pk) = Builder_len b + key_len ctx pk.
Proof.
  intros Hctx Hpk. unfold key_len, pk_len, push_ms_key.
  destruct ctx; try done; cbn in *; split; try done; rewrite ?len_push_key; try done.
  - by destruct (is_uncompressed pk).
  - by rewrite len_push_slice, XOnlyPublicKey_size.
Qed.

Lemma pks_len_valid ctx pks :
  ctx <> NoChecks -> Forall (fun pk => check_pk ctx pk = Ok tt) pks ->
  pks_len ctx pks = Some (sum_by (key_len ctx) pks).
Proof.
  intros Hctx H. apply sum_opt_Some. eapply Forall_impl; [|exact H].
  intros pk Hpk. by apply (len_push_ms_key ctx Builder_new).
Qed.

Lemma len_push_pubkeys ctx pks b :
  ctx <> NoChecks -> sig_type ctx = Ecdsa -> Forall (fun pk => check_pk ctx pk = Ok tt) pks ->
  Builder_len (fold_left (fun b pk => push_key b (to_public_key pk)) pks b)
  = Builder_len b + sum_by (key_len ctx) pks.
Proof.
  intros Hctx Hs H. revert b. induction H as [|pk pks Hpk _ IH]; intros b; simpl.
  { unfold sum_by. simpl. lia. }
  rewrite IH, sum_by_cons. pose proof (proj2 (len_push_ms_key ctx b pk Hctx Hpk)) as Hl.
  unfold push_ms_key in Hl. rewrite Hs in Hl. lia.
Qed.

Lemma len_push_checksigadds ctx pks b :
  ctx <> NoChecks -> Forall (fun pk => check_pk ctx pk = Ok tt) pks ->
  Builder_len (fold_left (fun b pk => push_opcode (push_ms_key ctx b pk) OP_CHECKSIGADD) pks b)
  = Builder_len b + sum_by (key_len ctx) pks + length pks.
Proof.
  intros Hctx H. revert b. induction H as [|pk pks Hpk _ IH]; intros b; simpl.
  { unfold sum_by. simpl. lia. }
  rewrite IH, sum_by_cons, len_push_opcode.
  pose proof (proj2 (len_push_ms_key ctx b pk Hctx Hpk)). lia.
Qed.

Lemma key_hash_len ctx b pk :
  Builder_len (push_ms_key_hash ctx b pk) = Builder_len b + 21.
Proof.
  unfold push_ms_key_hash.
  destruct (sig_type ctx); rewrite len_push_slice, ?PublicKey_hash_size, ?PubkeyHash_size; done.
Qed.

Definition has_len (ctx : ScriptContext) (L : Miniscript -> nat) (ms : Miniscript) : Prop :=
  script_size ctx ms = Some (L ms)
  /\ forall b, Builder_len (encode ctx ms b) = Builder_len b + L ms.

Lemma script_size_children ctx ms k (L : Miniscript -> nat) :
  node_size ctx ms = Some k -> Forall (fun c => script_size ctx c = Some (L c)) (children ms) ->
  script_size ctx ms = Some (k + sum_by L (children ms)).
Proof.
  intros Hk Hc. unfold script_size. rewrite pre_order_eq, sum_opt_cons, Hk. cbn [mbind option_bind].
  assert (sum_opt (node_size ctx) (flat_map pre_order (children ms))
          = Some (sum_by L (children ms))) as ->; [|done].
  induction Hc as [|c cs Hc _ IH]; [done|]. cbn [flat_map]. rewrite sum_opt_app, IH.
  unfold script_size in Hc. by rewrite Hc.
Qed.

Lemma len_thresh_fold ctx L cs b :
  Forall (has_len ctx L) cs ->
  Builder_len (fold_left (fun b sub => push_opcode (encode ctx sub b) OP_ADD) cs b)
  = Builder_len b + sum_by L cs + length cs.
Proof.
  intros H. revert b. induction H as [|c cs [_ Hc] _ IH]; intros b; simpl.
  { unfold sum_by. simpl. lia. }
  rewrite IH, sum_by_cons, len_push_opcode, Hc. lia.
Qed.

Lemma len_push_small b k :
  (N.of_nat k <= 2 ^ 30)%N ->
  Builder_len (push_int b (Z.of_nat k)) = Builder_len b + script_num_size (N.of_nat k).
Proof. intros H. apply len_push_nat. lia. Qed.

(** The number of children of a threshold is bounded by its cost. *)
Lemma thresh_small ctx thresh ty ms :
  ctx <> NoChecks -> Threshold.valid 0 thresh ->
  ms = mkMiniscript (Terminal.Thresh thresh) ty
         (ext_type_check (sig_type ctx) (Terminal.Thresh thresh)) ->
  check_global_validity ctx ms = Ok tt -> (N.of_nat (Threshold.k thresh) <= 2 ^ 30)%N.
Proof.
  intros Hctx [[_ Hk] _] -> Hg. apply check_global_cost in Hg; [|done].
  cbn [ext ext_type_check] in Hg. unfold Ext.threshold in Hg. cbn [pk_cost] in Hg.
  rewrite length_map in Hg. unfold Threshold.n, Threshold.data in *.
  unfold MAX_SCRIPT_SIZE, MAX_BLOCK_WEIGHT in Hg. destruct ctx; lia.
Qed.

Lemma after_small t : abs_valid t -> (abs_to_consensus_u32 t < 2 ^ 39)%N.
Proof. intros [_ H]. lia. Qed.

Lemma older_small t : rel_valid t -> (rel_to_consensus_u32 t < 2 ^ 39)%N.
Proof. intros (_ & _ & H). lia. Qed.

(** One node: its own bytes and those of its children. *)
Lemma encode_node_len ctx (L : Miniscript -> nat) ms :
  ctx <> NoChecks -> wf ctx ms -> check_global_validity ctx ms = Ok tt ->
  Forall (has_len ctx L) (children ms) ->
  exists k, node_size ctx ms = Some k
    /\ forall b, Builder_len (encode ctx ms b) = Builder_len b + k + sum_by L (children ms).
Proof.
  intros Hctx Hwf Hg IH. pose proof (node_checked_valid _ _ Hg) as Hn.
  destruct (wf_inv _ _ Hwf) as (Hcw & Hv & _ & He). rewrite children_node in *.
  destruct ms as [node ty' ext']. cbn [Ast.node Ast.ext] in *. subst ext'.
  destruct node as [| | pk | pk | h | t | t | h | h | h | h | h | i s | i s | s | s | s | s | s | s
                   | s | l r | l r | a b c | l r | l r | l r | l r | th | th | th];
    try (forall_children IH; forall_children Hcw);
    unfold node_size; cbn [Ast.node encode terminal_children terminal_as_node];
    repeat match goal with H : has_len _ _ _ |- _ => destruct H as [_ H] end;
    rewrite ?sum_by_cons; change (sum_by L []) with 0;
    try (eexists; split; [reflexivity|]; intros bd).
  (* one or two opcodes around the children *)
  all: repeat first [rewrite len_push_opcode | match goal with H : _ |- _ => rewrite H end]; try lia.
  - (* pk_k *) assert (check_pk ctx pk = Ok tt) as Hpk by (by destruct ctx).
    exists (key_len ctx pk). split; [by apply (len_push_ms_key ctx Builder_new)|].
    intros bd. rewrite (proj2 (len_push_ms_key ctx bd pk Hctx Hpk)). lia.
  - (* pk_h *) rewrite key_hash_len, !len_push_opcode. lia.
  - rewrite len_push_slice, hash160_size, !len_push_opcode. cbn. lia.
  - rewrite len_push_int, script_num_size_push by (by apply after_small). lia.
  - rewrite len_push_int, script_num_size_push by (by apply older_small). lia.
  - rewrite (len_push_hash _ _ _ 32) by (apply sha256_size || lia). lia.
  - rewrite (len_push_hash _ _ _ 32) by (apply hash256_size || lia). lia.
  - rewrite (len_push_hash _ _ _ 20) by (apply ripemd160_size || lia). lia.
  - rewrite (len_push_hash _ _ _ 20) by (apply hash160_size || lia). lia.
  - rewrite len_push_slice, sha256_size. cbn. lia.
  - rewrite (len_push_inscriptions i bd). lia.
  - rewrite (len_push_inscriptions i _), Hc. lia.
  - (* verify *) rewrite (ends_verify_cost _ _ (encode_ends _ _ Hc0 bd)), Hc. lia.
  - (* thresh *) destruct th as [k data]. cbn [Threshold.k Threshold.n Threshold.data Threshold.inner] in *.
    rewrite len_push_opcode, len_push_small by (eapply (thresh_small ctx (mkThreshold k data)); eauto).
    destruct Hv as [[Hk Hle] _]. unfold Threshold.n in *. cbn [Threshold.k Threshold.inner] in *.
    destruct data as [|c cs]; [simpl in Hle; lia|].
    apply Forall_cons_1 in IH as [[_ Hc] IH].
    rewrite (len_thresh_fold _ _ _ _ IH), Hc, sum_by_cons. simpl length. lia.
  - (* multi *)
    assert (sig_type ctx = Ecdsa /\ check_pks ctx (Threshold.data th) = Ok tt) as [Hs Hpk]
      by (by destruct ctx).
    apply check_pks_Forall in Hpk. rewrite (pks_len_valid _ _ Hctx Hpk).
    destruct Hv as [[Hk Hle] [?|Hmax]]; [done|]. unfold MAX_PUBKEYS_PER_MULTISIG in Hmax.
    eexists; split; [reflexivity|]. intros bd.
    rewrite len_push_opcode, len_push_small by lia.
    rewrite (len_push_pubkeys ctx) by done. rewrite len_push_small by lia. lia.
  - (* multi_a *)
    assert (check_pks ctx (Threshold.data th) = Ok tt) as Hpk by (by destruct ctx).
    apply check_pks_Forall in Hpk. rewrite (pks_len_valid _ _ Hctx Hpk).
    destruct Hv as [[Hk Hle] [?|Hmax]]; [done|].
    assert (N.of_nat (Threshold.n th) <= 999)%N as Hmax'
      by (change 999%N with (N.of_nat MAX_PUBKEYS_IN_CHECKSIGADD); lia). clear Hmax.
    eexists; split; [reflexivity|]. intros bd.
    rewrite len_push_opcode, len_push_small by lia.
    unfold Threshold.n, Threshold.data in *.
    destruct (Threshold.inner th) as [|pk pks]; [simpl in Hle; lia|].
    apply Forall_cons_1 in Hpk as [Hpk Hpks].
    rewrite len_push_checksigadds, len_push_opcode, sum_by_cons by done.
    rewrite (proj2 (len_push_ms_key ctx bd pk Hctx Hpk)). simpl length. lia.
Qed.

Lemma encode_has_len ctx ms :
  ctx <> NoChecks -> wf ctx ms -> context_valid ctx ms ->
  has_len ctx (fun ms => default 0 (script_size ctx ms)) ms.
Proof.
  intros Hctx Hwf. revert ms Hwf. refine (wf_tree_ind ctx _ _). intros ms Hwf _ IH Hcv.
  apply context_valid_inv in Hcv as [Hg Hcv].
  set (L := fun ms => default 0 (script_size ctx ms)) in *.
  assert (Forall (has_len ctx L) (children ms)) as Hc.
  { clear -IH Hcv. induction IH; [constructor|].
    apply Forall_cons_1 in Hcv as [? ?]. constructor; auto. }
  destruct (encode_node_len ctx L ms Hctx Hwf Hg Hc) as (k & Hk & Hlen).
  assert (script_size ctx ms = Some (k + sum_by L (children ms))) as Hs.
  { apply script_size_children; [done|]. eapply Forall_impl; [|exact Hc]. by intros c [? _]. }
  split; unfold L at 1; rewrite Hs; [done|]. intros b. rewrite Hlen. simpl. lia.
Qed.

(** ** [pk_cost] *)

(** The uncompressed keys that a script pushes. *)
Definition node_uncompressed (ms : Miniscript) : nat :=
  match node ms with
  | Terminal.PkK pk => Nat.b2n (is_uncompressed pk)
  | Terminal.Multi thresh =>
      sum_by (fun pk => Nat.b2n (is_uncompressed pk)) (Threshold.data thresh)
  | _ => 0
  end.

Definition uncompressed_pushes (ms : Miniscript) : nat :=
  sum_by node_uncompressed (pre_order ms).

(** [multi_a] is charged for a push of [n] that its script does not contain. *)
Definition node_slack (ms : Miniscript) : nat :=
  match node ms with
  | Terminal.MultiA thresh =>
      Ext.num_cost (Threshold.k thresh) (Threshold.n thresh)
      - (script_num_size (N.of_nat (Threshold.k thresh)) + 1)
  | _ => 0
  end.

Definition multi_a_slack (ms : Miniscript) : nat := sum_by node_slack (pre_order ms).

Lemma num_cost_multi k n :
  k <= n -> n <= 20 ->
  Ext.num_cost k n = script_num_size (N.of_nat k) + script_num_size (N.of_nat n).
Proof.
  intros Hk Hn. unfold Ext.num_cost, script_num_size.
  destruct (Nat.ltb_spec 16 k), (Nat.ltb_spec 16 n), (N.leb_spec (N.of_nat k) 0x10),
    (N.leb_spec (N.of_nat n) 0x10), (N.ltb_spec (N.of_nat k) 0x80),
    (N.ltb_spec (N.of_nat n) 0x80); simpl; lia.
Qed.

Lemma num_cost_multi_a k n :
  k <= n -> (N.of_nat n <= 999)%N -> script_num_size (N.of_nat k) + 1 <= Ext.num_cost k n.
Proof.
  intros Hk Hn. unfold Ext.num_cost, script_num_size.
  destruct (Nat.ltb_spec 16 k), (Nat.ltb_spec 16 n), (N.leb_spec (N.of_nat k) 0x10),
    (N.ltb_spec (N.of_nat k) 0x80), (N.ltb_spec (N.of_nat k) 0x8000); simpl; lia.
Qed.

Lemma multi_a_n_bound (th : Threshold Pk) :
  Threshold.valid MAX_PUBKEYS_IN_CHECKSIGADD th ->
  Threshold.k th <= Threshold.n th /\ 1 <= Threshold.n th /\ (N.of_nat (Threshold.n th) <= 999)%N.
Proof.
  intros [[Hk Hle] [?|Hmax]]; [done|]. repeat split; try lia.
  change 999%N with (N.of_nat MAX_PUBKEYS_IN_CHECKSIGADD). lia.
Qed.

Lemma multi_key_costs ctx pks :
  sig_type ctx = Ecdsa -> ctx <> NoChecks -> Forall (fun pk => check_pk ctx pk = Ok tt) pks ->
  sum_by (fun pk => if is_uncompressed pk then 65 else 34) pks
  + sum_by (fun pk => Nat.b2n (is_uncompressed pk)) pks
  = sum_by (key_len ctx) pks.
Proof.
  intros Hs Hctx. induction 1 as [|pk pks Hpk _ IH]; [done|]. rewrite !sum_by_cons.
  assert ((if is_uncompressed pk then 65 else 34) + Nat.b2n (is_uncompressed pk)
          = key_len ctx pk); [|lia].
  unfold key_len, pk_len. destruct ctx; try done; cbn in *; by destruct (is_uncompressed pk).
Qed.

(** One node: the cached cost is compositional like the size. *)
Lemma pk_cost_node ctx (C : Miniscript -> nat) ms :
  ctx <> NoChecks -> wf ctx ms -> check_global_validity ctx ms = Ok tt ->
  Forall (fun c => pk_cost (ext c) = C c) (children ms) ->
  exists k, node_size ctx ms = Some k
    /\ pk_cost (ext ms) + node_uncompressed ms
       = k + node_slack ms + sum_by C (children ms).
Proof.
  intros Hctx Hwf Hg IH. pose proof (node_checked_valid _ _ Hg) as Hn.
  destruct (wf_inv _ _ Hwf) as (_ & Hv & _ & He). rewrite children_node in *.
  destruct ms as [node ty' ext']. cbn [Ast.node Ast.ext] in *. subst ext'.
  destruct node as [| | pk | pk | h | t | t | h | h | h | h | h | i s | i s | s | s | s | s | s | s
                   | s | l r | l r | a b c | l r | l r | l r | l r | th | th | th];
    try (forall_children IH); unfold node_size, node_uncompressed, node_slack;
    cbn [Ast.node terminal_children terminal_as_node ext_type_check pk_cost] in *;
    rewrite ?sum_by_cons; change (sum_by C []) with 0;
    try (eexists; split; [reflexivity|]);
    try (cbn; repeat match goal with H : pk_cost _ = _ |- _ => rewrite H; clear H end; lia).
  - (* pk_k *) assert (check_pk ctx pk = Ok tt) as Hpk by (by destruct ctx).
    exists (key_len ctx pk). split; [by apply (len_push_ms_key ctx Builder_new)|].
    unfold Ext.pk_k, key_len, pk_len.
    destruct ctx; try done; cbn in *; by destruct (is_uncompressed pk).
  - unfold Ext.pk_h. destruct (sig_type ctx); [destruct (is_uncompressed pk)|]; done.
  - unfold Ext.pk_h. by destruct (sig_type ctx).
  - (* thresh *) destruct th as [k data]. unfold Ext.threshold, Threshold.n in *.
    cbn [pk_cost Threshold.k Threshold.inner Threshold.data] in *.
    rewrite length_map. destruct Hv as [[Hk Hle] _].
    unfold Threshold.n in Hle. cbn [Threshold.k Threshold.inner] in Hk, Hle.
    assert (sum_by pk_cost (map ext data) = sum_by C data) as ->; [|lia].
    clear -IH. induction IH as [|c cs Hc _ IH]; [done|]. cbn [map].
    by rewrite !sum_by_cons, Hc, IH.
  - (* multi *)
    assert (sig_type ctx = Ecdsa /\ check_pks ctx (Threshold.data th) = Ok tt) as [Hs Hpk]
      by (by destruct ctx).
    apply check_pks_Forall in Hpk. rewrite (pks_len_valid _ _ Hctx Hpk).
    destruct Hv as [[Hk Hle] [?|Hmax]]; [done|]. unfold MAX_PUBKEYS_PER_MULTISIG in Hmax.
    eexists; split; [reflexivity|]. unfold Ext.multi. cbn [pk_cost].
    rewrite num_cost_multi by done. pose proof (multi_key_costs _ _ Hs Hctx Hpk). lia.
  - (* multi_a *)
    assert (check_pks ctx (Threshold.data th) = Ok tt /\ ctx = Tap) as [Hpk ->]
      by (by destruct ctx).
    apply check_pks_Forall in Hpk. rewrite (pks_len_valid _ _ Hctx Hpk).
    destruct (multi_a_n_bound _ Hv) as (Hk & H1 & Hn').
    eexists; split; [reflexivity|]. unfold Ext.multi_a. cbn [pk_cost].
    pose proof (num_cost_multi_a _ _ Hk Hn').
    assert (sum_by (key_len Tap) (Threshold.data th) = 33 * Threshold.n th) as ->
      by (apply sum_by_const, Forall_forall; done). lia.
Qed.

Lemma sum_by_combine {A} (f g h k : A -> nat) l :
  Forall (fun a => f a + g a = h a + k a) l ->
  sum_by f l + sum_by g l = sum_by h l + sum_by k l.
Proof. induction 1; [done|]. rewrite !sum_by_cons. lia. Qed.

Lemma pk_cost_size ctx ms :
  ctx <> NoChecks -> wf ctx ms -> context_valid ctx ms ->
  pk_cost (ext ms) + uncompressed_pushes ms
  = default 0 (script_size ctx ms) + multi_a_slack ms.
Proof.
  intros Hctx Hwf. revert ms Hwf. refine (wf_tree_ind ctx _ _). intros ms Hwf Hcw IH Hcv.
  apply context_valid_inv in Hcv as [Hg Hcv].
  destruct (pk_cost_node ctx (fun c => pk_cost (ext c)) ms Hctx Hwf Hg) as (k & Hk & Hcost).
  { by apply Forall_forall. }
  assert (script_size ctx ms
          = Some (k + sum_by (fun c => default 0 (script_size ctx c)) (children ms))) as Hs.
  { apply script_size_children; [done|]. apply Forall_forall. intros c Hin.
    rewrite Forall_forall in Hcw, Hcv.
    apply (encode_has_len ctx c Hctx (Hcw c Hin) (Hcv c Hin)). }
  rewrite Hs. simpl. unfold uncompressed_pushes, multi_a_slack. rewrite !sum_pre_order.
  assert (sum_by (fun c => pk_cost (ext c)) (children ms)
          + sum_by uncompressed_pushes (children ms)
          = sum_by (fun c => default 0 (script_size ctx c)) (children ms)
            + sum_by multi_a_slack (children ms)) as Hsum.
  { apply sum_by_combine. rewrite Forall_forall in *. intros c Hin. apply IH; auto. }
  unfold uncompressed_pushes, multi_a_slack in Hsum. lia.
Qed.

End Encode.

(** * Properties *)

(** C29: the script that [encode] appends for a Miniscript built by the checked
    constructors takes exactly [script_size] bytes, in every context in which the
    size is defined. *)
Theorem encode_length {B : Bitcoin} {K : MiniscriptKey} {TP : ToPublicKey K}
    {BL : BuilderLaws B} {SL : SizeLaws B} {KL : KeyLaws TP} ctx ms b :
  ctx <> NoChecks -> wf ctx ms -> context_valid ctx ms ->
  exists n, script_size ctx ms = Some n
    /\ Builder_len (encode ctx ms b) = Builder_len b + n.
Proof.
  intros Hctx Hwf Hcv. destruct (encode_has_len ctx ms Hctx Hwf Hcv) as [Hs Hl]. eauto.
Qed.

Lemma encode_length_witness :
  wf Segwitv0 (sample_vault Segwitv0)
  /\ exists n, script_size Segwitv0 (sample_vault Segwitv0) = Some n
       /\ Builder_len (encode Segwitv0 (sample_vault Segwitv0) Builder_new)
          = Builder_len Builder_new + n.
Proof.
  split; [exact sample_vault_wf|].
  apply encode_length; [discriminate | exact sample_vault_wf | exact sample_vault_valid].
Defined.

(** the cached [pk_cost] relates exactly to the encoded length: it misses one
    byte for every uncompressed key that is pushed, and is otherwise the length
    plus what [multi_a] is overcharged for a number that it does not push. *)
Theorem pk_cost_exact {B : Bitcoin} {K : MiniscriptKey} {TP : ToPublicKey K}
    {BL : BuilderLaws B} {SL : SizeLaws B} {KL : KeyLaws TP} ctx ms b :
  ctx <> NoChecks -> wf ctx ms -> context_valid ctx ms ->
  Builder_len b + pk_cost (ext ms) + uncompressed_pushes ms
  = Builder_len (encode ctx ms b) + multi_a_slack ms.
Proof.
  intros Hctx Hwf Hcv. destruct (encode_has_len ctx ms Hctx Hwf Hcv) as [_ Hl].
  rewrite Hl. pose proof (pk_cost_size ctx ms Hctx Hwf Hcv). lia.
Qed.

Lemma pk_cost_exact_witness :
  wf Segwitv0 (sample_vault Segwitv0)
  /\ Builder_len Builder_new + pk_cost (ext (sample_vault Segwitv0))
       + uncompressed_pushes (sample_vault Segwitv0)
     = Builder_len (encode Segwitv0 (sample_vault Segwitv0) Builder_new)
       + multi_a_slack (sample_vault Segwitv0).
Proof.
  split; [exact sample_vault_wf|].
  apply pk_cost_exact; [discriminate | exact sample_vault_wf | exact sample_vault_valid].
Defined.

(** the script-size limits of the contexts are enforced on the encoded script
    when it pushes no uncompressed key: at most 520 bytes in P2SH, 3600 in P2WSH,
    10000 bare. *)
Theorem encoded_script_within_limits {B : Bitcoin} {K : MiniscriptKey} {TP : ToPublicKey K}
    {BL : BuilderLaws B} {SL : SizeLaws B} {KL : KeyLaws TP} ctx ms :
  ctx <> NoChecks -> wf ctx ms -> context_valid ctx ms -> uncompressed_pushes ms = 0 ->
  (N.of_nat (Builder_len (encode ctx ms Builder_new)) <=
    match ctx with
    | Legacy => 520 | Segwitv0 => 3600 | BareCtx => MAX_SCRIPT_SIZE | _ => MAX_BLOCK_WEIGHT
    end)%N.
Proof.
  intros Hctx Hwf Hcv Hu. destruct (encode_has_len ctx ms Hctx Hwf Hcv) as [_ Hl].
  rewrite Hl, len_new. pose proof (pk_cost_size ctx ms Hctx Hwf Hcv).
  apply context_valid_inv in Hcv as [Hg _]. pose proof (check_global_cost ctx ms Hctx Hg). lia.
Qed.

Lemma encoded_script_within_limits_witness :
  uncompressed_pushes (sample_vault Segwitv0) = 0
  /\ (N.of_nat (Builder_len (encode Segwitv0 (sample_vault Segwitv0) Builder_new)) <= 3600)%N.
Proof.
  split; [vm_compute; reflexivity|].
  apply (encoded_script_within_limits Segwitv0);
    [discriminate | exact sample_vault_wf | exact sample_vault_valid | vm_compute; reflexivity].
Defined.

(** [has_free_verify] is right: wrapping a well-typed fragment in [v:] replaces
    its last opcode when the flag is set and appends one byte when it is not. *)
Theorem has_free_verify_spec {B : Bitcoin} {K : MiniscriptKey} {TP : ToPublicKey K}
    {BL : BuilderLaws B} ctx ms b :
  wf ctx ms ->
  Builder_len (push_verify (encode ctx ms b))
  = Builder_len (encode ctx ms b) + (if has_free_verify (ext ms) then 0 else 1).
Proof.
  intros Hwf. rewrite (ends_verify_cost _ _ (encode_ends ctx ms Hwf b)).
  by destruct (has_free_verify (ext ms)).
Qed.

Lemma has_free_verify_spec_witness :
  wf Segwitv0 (sample_vault Segwitv0)
  /\ Builder_len (push_verify (encode Segwitv0 (sample_vault Segwitv0) Builder_new))
     = Builder_len (encode Segwitv0 (sample_vault Segwitv0) Builder_new) + 1.
Proof. split; [exact sample_vault_wf|]. exact (has_free_verify_spec _ _ _ sample_vault_wf). Defined.

(** [pk(U)] with an uncompressed key in P2SH. *)
Definition uncompressed_pk : Miniscript := sample_pk Legacy keyU.

(** with an uncompressed key, the cached [pk_cost] is one byte below the length
    of the script, so the size limits are checked against too small a number. *)
Theorem pk_cost_undercounts_uncompressed :
  is_ok (from_ast Legacy (node uncompressed_pk)) = true
  /\ pk_cost (ext uncompressed_pk) + 1
     = Builder_len (encode Legacy uncompressed_pk Builder_new).
Proof. split; vm_compute; reflexivity. Qed.
