(* ===== verification/Tokens.v ===== *)
(** The tokens of a Miniscript, as the lexer gives them to the decoder: the specification
    against which the lexer and the decoder are proved. *)
From S2P Require Import Prelude Bitcoin Primitives Reference Ord Script Envelope Lex Correctness Malleability Types ExtData Tree Ast Context Encode.

Section Tokens.
Context {B : Bitcoin} {Sc : Scripts} {K : MiniscriptKey} {TP : ToPublicKey K}.
Context (ctx : ScriptContext).

(** The token of a push of a key or of a hash. *)
Definition data_token (b : bytes) : Token :=
  if length b =? 20 then Token.Hash20 b
  else if length b =? 32 then Token.Bytes32 b
  else if length b =? 33 then Token.Bytes33 b
  else Token.Bytes65 b.

Definition full_key_bytes (pk : Pk) : bytes := PublicKey_to_bytes (to_public_key pk).

Definition key_bytes (pk : Pk) : bytes :=
  match sig_type ctx with
  | Ecdsa => full_key_bytes pk
  | Schnorr => XOnlyPublicKey_serialize (to_x_only_pubkey pk)
  end.

Definition key_hash_bytes (pk : Pk) : bytes :=
  match sig_type ctx with
  | Ecdsa => PublicKey_pubkey_hash (to_public_key pk)
  | Schnorr => PubkeyHash_hash (XOnlyPublicKey_serialize (to_x_only_pubkey pk))
  end.

(** The token of an inscription. *)
Definition inscription_token (i : Inscription) : Token :=
  Token.Inscription (script_bytes (envelope_items i)).

Definition inscription_tokens (l : list Inscription) : list Token := map inscription_token (rev l).

Definition pkh_tokens (h : bytes) : list Token :=
  [Token.Verify; Token.Equal; data_token h; Token.Hash160; Token.Dup].

Definition hash_tokens (op : Token) (h : bytes) : list Token :=
  [Token.Equal; data_token h; op; Token.Verify; Token.Equal; Token.Num 32; Token.Size].

Definition thresh_tokens (l : list (list Token)) : list Token :=
  match l with
  | [] => []
  | first :: rest => concat (map (cons Token.Add) (rev rest)) ++ first
  end.

Definition multi_a_tokens (pks : list Pk) : list Token :=
  match pks with
  | [] => []
  | first :: rest =>
      concat (map (fun pk => [Token.CheckSigAdd; data_token (key_bytes pk)]) (rev rest))
      ++ [Token.CheckSig; data_token (key_bytes first)]
  end.

(** The tokens of the script of a Miniscript, the last one first. *)
Fixpoint tokens (ms : Miniscript) : list Token :=
  match ms with
  | mkMiniscript node _ _ =>
      match node with
      | Terminal.True => [Token.Num 1]
      | Terminal.False => [Token.Num 0]
      | Terminal.PkK pk => [data_token (key_bytes pk)]
      | Terminal.PkH pk => pkh_tokens (key_hash_bytes pk)
      | Terminal.RawPkH h => pkh_tokens (hash160_to_byte_array h)
      | Terminal.After t => [Token.CheckLockTimeVerify; Token.Num (abs_to_consensus_u32 t)]
      | Terminal.Older t => [Token.CheckSequenceVerify; Token.Num (rel_to_consensus_u32 t)]
      | Terminal.Sha256 h => hash_tokens Token.Sha256 (sha256_to_byte_array (to_sha256 h))
      | Terminal.Hash256 h => hash_tokens Token.Hash256 (hash256_to_byte_array (to_hash256 h))
      | Terminal.Ripemd160 h => hash_tokens Token.Ripemd160 (ripemd160_to_byte_array (to_ripemd160 h))
      | Terminal.Hash160 h => hash_tokens Token.Hash160 (hash160_to_byte_array (to_hash160 h))
      | Terminal.TxTemplate h =>
          [Token.Drop; Token.CheckTemplateVerify; data_token (sha256_to_byte_array h)]
      | Terminal.InscribePre i sub => tokens sub ++ inscription_tokens i
      | Terminal.InscribePost i sub => inscription_tokens i ++ tokens sub
      | Terminal.Alt sub => Token.FromAltStack :: tokens sub ++ [Token.ToAltStack]
      | Terminal.Swap sub => tokens sub ++ [Token.Swap]
      | Terminal.Check sub => Token.CheckSig :: tokens sub
      | Terminal.DupIf sub => Token.EndIf :: tokens sub ++ [Token.If; Token.Dup]
      | Terminal.Verify sub => Token.Verify :: tokens sub
      | Terminal.NonZero sub =>
          Token.EndIf :: tokens sub ++ [Token.If; Token.ZeroNotEqual; Token.Size]
      | Terminal.ZeroNotEqual sub => Token.ZeroNotEqual :: tokens sub
      | Terminal.AndV l r => tokens r ++ tokens l
      | Terminal.AndB l r => Token.BoolAnd :: tokens r ++ tokens l
      | Terminal.AndOr a b c =>
          Token.EndIf :: tokens b ++ Token.Else :: tokens c ++ Token.NotIf :: tokens a
      | Terminal.OrB l r => Token.BoolOr :: tokens r ++ tokens l
      | Terminal.OrD l r => Token.EndIf :: tokens r ++ Token.NotIf :: Token.IfDup :: tokens l
      | Terminal.OrC l r => Token.EndIf :: tokens r ++ Token.NotIf :: tokens l
      | Terminal.OrI l r => Token.EndIf :: tokens r ++ Token.Else :: tokens l ++ [Token.If]
      | Terminal.Thresh (Threshold.mkThreshold k data) =>
          Token.Equal :: Token.Num (N.of_nat k) :: thresh_tokens (map tokens data)
      | Terminal.Multi thresh =>
          Token.CheckMultiSig :: Token.Num (N.of_nat (Threshold.n thresh))
          :: map (fun pk => data_token (full_key_bytes pk)) (rev (Threshold.data thresh))
          ++ [Token.Num (N.of_nat (Threshold.k thresh))]
      | Terminal.MultiA thresh =>
          Token.NumEqual :: Token.Num (N.of_nat (Threshold.k thresh))
          :: multi_a_tokens (Threshold.data thresh)
      end
  end.
End Tokens.
