(* ===== verification/DecodeSound.v ===== *)
(** The decoder never panics, always ends, and only returns well-typed Miniscripts whose
    tokens are the ones it consumed. *)
From S2P Require Import Prelude Bitcoin Primitives Reference Ord Script Envelope Lex Correctness Malleability Types ExtData Tree Ast Context Decode Encode Tokens.

(** What decoding relies on: parsing a key inverts its serialisation, and the hash types of
    parsed keys are those of the crate bitcoin. *)
Class ParseableLaws {B : Bitcoin} {K : MiniscriptKey} {PK : ParseableKey} (TP : ToPublicKey K)
    (ctx : ScriptContext) : Prop := {
  from_slice_bytes : forall b pk, from_slice b = Ok pk <-> key_bytes ctx pk = b;
  to_of_sha256 : forall h, to_sha256 (of_sha256 h) = h;
  to_of_hash256 : forall h, to_hash256 (of_hash256 h) = h;
  to_of_ripemd160 : forall h, to_ripemd160 (of_ripemd160 h) = h;
  to_of_hash160 : forall h, to_hash160 (of_hash160 h) = h;
  of_to_sha256 : forall h, of_sha256 (to_sha256 h) = h;
  of_to_hash256 : forall h, of_hash256 (to_hash256 h) = h;
  of_to_ripemd160 : forall h, of_ripemd160 (to_ripemd160 h) = h;
  of_to_hash160 : forall h, of_hash160 (to_hash160 h) = h;
}.

(** The keys of the crate are read back in the contexts of ECDSA and in Tapscript. *)
Lemma PublicKey_parseable_laws {B : Bitcoin} {Sp : Spending} {Pa : Parsing} {PL : ParsingLaws Pa} {CL : CanonicalLaws Pa}
    ctx : sig_type ctx = Ecdsa ->
  ParseableLaws (PK := PublicKey_parseable) PublicKey_to_public_key ctx.
Proof.
  intros Hs. constructor; try done. intros b pk. cbn [from_slice PublicKey_parseable]. unfold key_bytes.
  rewrite Hs. cbn [to_public_key PublicKey_to_public_key]. split.
  - destruct (PublicKey_from_slice b) eqn:E; [|done]. intros [= <-]. by apply PublicKey_canonical.
  - intros <-. unfold full_key_bytes. cbn. by rewrite PublicKey_roundtrip.
Qed.

Section Sound.
Context {B : Bitcoin} {Sc : Scripts} {K : MiniscriptKey} {TP : ToPublicKey K} {PK : ParseableKey}.
Context {LT : LockTimeLaws B} {BL : BuilderLaws B} {SZ : SizeLaws B} {KL : KeyLaws TP} {SL : ScriptLaws Sc} {HL : HashLaws Sc}.
Context (ctx : ScriptContext) {PL : ParseableLaws TP ctx}.
Abbreviation T := (tokens ctx).

(** Lists of what the decoder built. *)
Ltac all_built := repeat first [assumption | apply List.Forall_nil | apply List.Forall_cons].

(** What the decoder builds: well-typed Miniscripts within the recursion limit. *)
Definition built (ctx : ScriptContext) (ms : Miniscript) : Prop := wf ctx ms /\ height ms <= MAX_RECURSION_DEPTH.

(** A token with several envelopes stands for one token each. *)
Definition split_token (t : Token) : list Token :=
  match t with
  | Token.Inscription s =>
      match parse_inscriptions s with
      | Ok l => inscription_tokens l
      | Err _ => [t]
      end
  | _ => [t]
  end.

Definition split_tokens (l : list Token) : list Token := flat_map split_token l.

Lemma split_app l l' : split_tokens (l ++ l') = split_tokens l ++ split_tokens l'.
Proof. apply flat_map_app. Qed.

Lemma split_cons t l : split_tokens (t :: l) = split_token t ++ split_tokens l.
Proof. reflexivity. Qed.

(** ** What the stacks mean

    [means nts ts c]: with the terminals [ts] on the stack and the tokens [c] consumed,
    however the non-terminals [nts] are worked off, the Miniscript that is left has exactly
    the tokens consumed by then. The terminals to come are quantified over. *)

Definition reduces (means : list Miniscript -> list Token -> Prop) (t : Terminal Miniscript)
    (ts : list Miniscript) (c : list Token) : Prop :=
  forall ms, built ctx ms -> node ms = t -> means (ms :: ts) c.

Fixpoint means (nts : list NonTerm) (ts : list Miniscript) (c : list Token) : Prop :=
  match nts with
  | [] => match ts with [t] => c = T t | _ => False end
  | nt :: nts =>
      let one (k : Miniscript -> list Miniscript -> Prop) : Prop :=
        match ts with t :: ts => k t ts | [] => False end in
      let two (k : Miniscript -> Miniscript -> list Miniscript -> Prop) : Prop :=
        match ts with l :: r :: ts => k l r ts | _ => False end in
      let unary (f : Miniscript -> Terminal Miniscript) (c : list Token) : Prop :=
        one (fun t ts => reduces (means nts) (f t) ts c) in
      let binary (f : Miniscript -> Miniscript -> Terminal Miniscript) (c : list Token) : Prop :=
        two (fun l r ts => reduces (means nts) (f l r) ts c) in
      match nt with
      | NonTerm.Expression | NonTerm.WExpression =>
          forall t, built ctx t -> means nts (t :: ts) (c ++ T t)
      | NonTerm.Swap => unary Terminal.Swap (c ++ [Token.Swap])
      | NonTerm.Alt => unary Terminal.Alt (c ++ [Token.ToAltStack])
      | NonTerm.Check => unary Terminal.Check c
      | NonTerm.DupIf => unary Terminal.DupIf c
      | NonTerm.Verify => unary Terminal.Verify c
      | NonTerm.NonZero => unary Terminal.NonZero c
      | NonTerm.ZeroNotEqual => unary Terminal.ZeroNotEqual c
      | NonTerm.InscribePost i => unary (Terminal.InscribePost i) c
      | NonTerm.InscribePre =>
          one (fun t _ => means nts ts c)
          /\ forall i, unary (Terminal.InscribePre i) (c ++ inscription_tokens i)
      | NonTerm.MaybeAndV =>
          one (fun t ts' => means nts ts c /\ forall l, built ctx l ->
                              reduces (means nts) (Terminal.AndV l t) ts' (c ++ T l))
      | NonTerm.AndV =>
          two (fun l r ts' => exists d, c = d ++ T l /\ forall l', built ctx l' ->
                              reduces (means nts) (Terminal.AndV l' r) ts' (d ++ T l'))
      | NonTerm.AndB => binary Terminal.AndB c
      | NonTerm.OrB => binary Terminal.OrB c
      | NonTerm.OrD => binary Terminal.OrD c
      | NonTerm.OrC => binary Terminal.OrC c
      | NonTerm.Tern =>
          match ts with
          | a :: m :: t :: ts' => reduces (means nts) (Terminal.AndOr a t m) ts' c
          | _ => False
          end
      | NonTerm.ThreshE k n =>
          exists subs ts', ts = subs ++ ts' /\ length subs = n
            /\ reduces (means nts) (Terminal.Thresh (mkThreshold k subs)) ts' c
      | NonTerm.ThreshW k n =>
          exists subs ts', ts = subs ++ ts' /\ length subs = n
            /\ forall first more, Forall (built ctx) (first :: more) ->
               reduces (means nts) (Terminal.Thresh (mkThreshold k (first :: rev more ++ subs))) ts'
                 (c ++ concat (map (fun w => Token.Add :: T w) more) ++ T first)
      | NonTerm.EndIf =>
          unary Terminal.DupIf (c ++ [Token.If; Token.Dup])
          /\ unary Terminal.NonZero (c ++ [Token.If; Token.ZeroNotEqual; Token.Size])
          /\ one (fun t ts' => forall l, built ctx l ->
               reduces (means nts) (Terminal.OrI l t) ts' (c ++ Token.Else :: T l ++ [Token.If])
               /\ reduces (means nts) (Terminal.OrC l t) ts' (c ++ Token.NotIf :: T l)
               /\ reduces (means nts) (Terminal.OrD l t) ts' (c ++ Token.NotIf :: Token.IfDup :: T l)
               /\ forall a, built ctx a -> reduces (means nts) (Terminal.AndOr a t l) ts'
                                       (c ++ Token.Else :: T l ++ Token.NotIf :: T a))
      | NonTerm.EndIfNotIf =>
          one (fun t ts' => forall l, built ctx l ->
               reduces (means nts) (Terminal.OrC l t) ts' (c ++ T l)
               /\ reduces (means nts) (Terminal.OrD l t) ts' (c ++ Token.IfDup :: T l))
      | NonTerm.EndIfElse =>
          two (fun l t ts' =>
               reduces (means nts) (Terminal.OrI l t) ts' (c ++ [Token.If])
               /\ forall a, built ctx a ->
                  reduces (means nts) (Terminal.AndOr a t l) ts' (c ++ Token.NotIf :: T a))
      end
  end.

(** ** The parts of a turn *)

Lemma expect_spec l tokens rest : expect l tokens = Ok rest -> tokens = l ++ rest.
Proof.
  revert tokens. induction l as [|t l IH]; intros tokens; cbn [expect]; [by intros [= ->]|].
  destruct tokens as [|t' tokens]; [done|]. case_bool_decide as Ht; [|done]. subst t'.
  intros H%IH. by rewrite H.
Qed.

Lemma inscription_tokens_app l l' :
  inscription_tokens (l ++ l') = inscription_tokens l' ++ inscription_tokens l.
Proof. unfold inscription_tokens. by rewrite rev_app_distr, map_app. Qed.

Lemma take_inscriptions_spec tokens i rest :
  take_inscriptions tokens = Ok (i, rest) ->
  exists used, tokens = used ++ rest /\ split_tokens used = inscription_tokens i
    /\ (starts_inscription tokens = true -> used <> []) /\ starts_inscription rest = false.
Proof.
  assert (forall acc l, take_inscription_tokens tokens acc = Ok (l, rest) ->
    exists used, tokens = used ++ rest
      /\ inscription_tokens (rev acc) ++ split_tokens used = inscription_tokens (rev l)
      /\ (starts_inscription tokens = true -> used <> []) /\ starts_inscription rest = false) as H.
  { induction tokens as [|t tokens IH]; intros acc l.
    - intros [= <- <-]. exists []. split_and!; try done. by rewrite app_nil_r.
    - cbn [take_inscription_tokens].
      destruct t; try (intros [= <- <-]; exists []; split_and!; try done; by rewrite app_nil_r).
      intros (parsed & Hp & (used & -> & Hs & _ & Hr)%IH)%bind_Ok_inv. apply map_err_Ok_inv in Hp.
      exists (Token.Inscription script :: used). split_and!; [done | | done | done].
      cbn [split_tokens flat_map split_token]. rewrite Hp, <- Hs, rev_app_distr, rev_involutive.
      by rewrite inscription_tokens_app, app_assoc. }
  unfold take_inscriptions. intros ([l rest'] & Hl & [= <- <-])%bind_Ok_inv.
  apply (H []) in Hl as (used & ? & Hs & ? & ?). by exists used.
Qed.

Lemma checked_spec t ms :
  Forall (built ctx) (terminal_children t) -> node_valid t -> checked ctx t = Ok ms ->
  built ctx ms /\ node ms = t.
Proof.
  intros Hc Hv H%map_err_Ok_inv.
  assert (wf ctx ms) as Hwf.
  { refine (from_ast_wf _ _ _ _ Hv H). refine (list.Forall_impl _ _ _ Hc _). by intros c []. }
  apply from_ast_inv in H as (ty & _ & Hms & Hh & _). rewrite (wf_height _ _ Hwf) in Hh. split; [done|]. by subst ms.
Qed.

Lemma key_from_slice_spec b pk : key_from_slice b = Ok pk -> key_bytes ctx pk = b.
Proof. intros H%map_err_Ok_inv. by apply from_slice_bytes. Qed.

Lemma data_20 b : length b = 20 -> data_token b = Token.Hash20 b.
Proof. unfold data_token. by intros ->. Qed.
Lemma data_32 b : length b = 32 -> data_token b = Token.Bytes32 b.
Proof. unfold data_token. by intros ->. Qed.
Lemma data_33 b : length b = 33 -> data_token b = Token.Bytes33 b.
Proof. unfold data_token. by intros ->. Qed.
Lemma data_65 b : length b = 65 -> data_token b = Token.Bytes65 b.
Proof. unfold data_token. by intros ->. Qed.

Lemma key_bytes_length pk : match sig_type ctx with
  | Schnorr => length (key_bytes ctx pk) = 32
  | Ecdsa => length (key_bytes ctx pk) = 33 \/ length (key_bytes ctx pk) = 65
  end.
Proof.
  unfold key_bytes, full_key_bytes. destruct (sig_type ctx).
  - rewrite PublicKey_size. destruct (PublicKey_compressed _); auto.
  - apply XOnlyPublicKey_size.
Qed.

Lemma multi_keys_spec n tokens acc keys rest :
  Forall token_valid tokens -> multi_keys n tokens acc = Ok (keys, rest) ->
  exists new, keys = acc ++ new /\ length new = n
    /\ tokens = map (fun pk => data_token (full_key_bytes pk)) new ++ rest.
Proof.
  revert tokens acc. induction n as [|n IH]; intros tokens acc Hv; cbn [multi_keys].
  { intros [= <- <-]. exists []. by rewrite app_nil_r. }
  destruct tokens as [|t tokens]; [done|]. apply Forall_cons_1 in Hv as [Ht Hv].
  assert (forall b, length b = 33 \/ length b = 65 -> t = data_token b ->
    (key ← key_from_slice b; multi_keys n tokens (acc ++ [key])) = Ok (keys, rest) ->
    exists new, keys = acc ++ new /\ length new = S n
      /\ t :: tokens = map (fun pk => data_token (full_key_bytes pk)) new ++ rest) as H.
  { intros b Hb -> (pk & Hpk%key_from_slice_spec & H)%bind_Ok_inv.
    apply (IH _ _ Hv) in H as (new & -> & <- & ->). exists (pk :: new).
    rewrite <- app_assoc. split_and!; [done | done |]. cbn [map app]. do 2 f_equal.
    pose proof (key_bytes_length pk) as Hl. rewrite Hpk in Hl. rewrite <- Hpk. unfold key_bytes in *.
    by destruct (sig_type ctx); [|lia]. }
  destruct t; try done; apply H; cbn in Ht; auto; symmetry; [by apply data_33 | by apply data_65].
Qed.

Lemma multi_a_keys_spec tokens acc keys rest :
  Forall token_valid tokens -> multi_a_keys tokens acc = Ok (keys, rest) ->
  exists new, keys = acc ++ new
    /\ tokens = concat (map (fun pk => [Token.CheckSigAdd; data_token (key_bytes ctx pk)]) new) ++ rest.
Proof.
  remember (length tokens) as len eqn:Hlen. revert tokens Hlen acc.
  induction len as [len IH] using lt_wf_ind. intros tokens -> acc Hv.
  assert (Ok (acc, tokens) = Ok (E := DecodeError) (keys, rest) -> exists new, keys = acc ++ new
    /\ tokens = concat (map (fun pk => [Token.CheckSigAdd; data_token (key_bytes ctx pk)]) new) ++ rest)
    as Hdone.
  { intros [= <- <-]. exists []. by rewrite app_nil_r. }
  destruct tokens as [|[] tokens]; try exact Hdone. clear Hdone. cbn [multi_a_keys].
  apply Forall_cons_1 in Hv as [_ Hv]. destruct tokens as [|[] tokens]; try done.
  apply Forall_cons_1 in Hv as [Hb Hv]. cbn in Hb.
  intros (pk & Hpk%key_from_slice_spec & H)%bind_Ok_inv.
  apply (IH (length tokens)) in H as (new & -> & ->); [|simpl; lia | done | done].
  exists (pk :: new). rewrite <- app_assoc. split; [done|]. cbn [map concat app].
  by rewrite Hpk, data_32.
Qed.

(** What a successful arm of [Expression] pushes is what the tokens it consumed mean. *)
Definition arm_ok (tokens : list Token) (r : result DecodeError (list NonTerm * list Miniscript * list Token))
  : Prop :=
  forall nts ms rest, r = Ok (nts, ms, rest) ->
    exists used, tokens = used ++ rest /\ Forall (built ctx) ms
      /\ forall more ts c, means (NonTerm.Expression :: more) ts c ->
           means (nts ++ more) (ms ++ ts) (c ++ split_tokens used).

Lemma arm_error tokens tokens' : arm_ok tokens (unexpected tokens').
Proof. intros nts ms rest. by destruct tokens'. Qed.

Lemma arm_leaf used tokens rest ms :
  built ctx ms -> tokens = used ++ rest -> split_tokens used = T ms -> arm_ok tokens (leaf ms rest).
Proof.
  intros Hwf -> Hs nts ms' rest' [= <- <- <-]. exists used. split_and!; [done | all_built |].
  intros more ts c H. rewrite Hs. by apply H.
Qed.

Lemma arm_parse used tokens rest nts :
  tokens = used ++ rest ->
  (forall more ts c, means (NonTerm.Expression :: more) ts c -> means (nts ++ more) ts (c ++ split_tokens used)) ->
  arm_ok tokens (parse nts rest).
Proof. intros -> H nts' ms' rest' [= <- <- <-]. exists used. split_and!; [done | constructor | exact H]. Qed.

Lemma arm_bind {A} tokens (m : result DecodeError A) f :
  (forall a, m = Ok a -> arm_ok tokens (f a)) -> arm_ok tokens (a ← m; f a).
Proof. intros H nts ms rest (a & Ha & Hf)%bind_Ok_inv. by apply (H a Ha). Qed.

(** One wrapper read from its last token. *)
Lemma means_wrapper nt tok (wrap : Miniscript -> Terminal Miniscript) more ts c :
  (forall nts ts c, means (nt :: nts) ts c
     = match ts with t :: ts => reduces (means nts) (wrap t) ts c | [] => False end) ->
  (forall t ms, node ms = wrap t -> T ms = tok :: T t) ->
  means (NonTerm.Expression :: more) ts c ->
  means (NonTerm.Expression :: nt :: more) ts (c ++ [tok]).
Proof.
  intros Heq HT H t Ht. rewrite Heq. intros ms Hms Hn. rewrite <- app_assoc. cbn [app].
  rewrite <- (HT t ms Hn). by apply H.
Qed.

Lemma T_node ms : T ms = T (mkMiniscript (node ms) (ty ms) (ext ms)).
Proof. by destruct ms. Qed.

Ltac wf_leaf :=
  split; [constructor; [constructor | try done | reflexivity | reflexivity]
         | rewrite height_eq, children_node; apply Nat.le_0_l].

(** A hash lock read from [EQUAL], alone or under a [VERIFY]. *)
Lemma arm_hash tokens before rest nts op ms b :
  built ctx ms -> T ms = hash_tokens op b ->
  split_token (data_token b) = [data_token b] -> split_token op = [op] ->
  (nts = [] /\ before = [] \/ nts = [NonTerm.Verify] /\ before = [Token.Verify]) ->
  tokens = before ++ Token.Equal :: data_token b :: op :: rest ->
  arm_ok tokens (hash_lock nts ms rest).
Proof.
  intros Hwf HT Hb Hop Hn ->. apply arm_bind. intros rest' ->%expect_spec.
  intros nts' ms' rest'' [= <- <- <-].
  exists (before ++ Token.Equal :: data_token b :: op :: size_check).
  split_and!; [by rewrite <- app_assoc | all_built |]. intros more ts c H.
  assert (split_tokens (Token.Equal :: data_token b :: op :: size_check) = T ms) as Hs.
  { rewrite HT. unfold split_tokens. cbn [flat_map]. by rewrite Hb, Hop. }
  rewrite split_app, Hs. destruct Hn as [[-> ->]|[-> ->]]; [by apply H|].
  intros ms' Hms' Hn'. change (split_tokens [Token.Verify] ++ T ms) with (Token.Verify :: T ms).
  assert (T ms' = Token.Verify :: T ms) as <- by by rewrite T_node, Hn'.
  by apply H.
Qed.

Lemma split_data b : split_token (data_token b) = [data_token b].
Proof. unfold data_token. by repeat case_match. Qed.

Lemma T_sha256 b : length b = 32 ->
  T (ms_sha256 (of_sha256 (sha256_from_byte_array b))) = hash_tokens Token.Sha256 b.
Proof. intros H. cbn [tokens ms_sha256]. by rewrite to_of_sha256, sha256_bytes. Qed.
Lemma T_hash256 b : length b = 32 ->
  T (ms_hash256 (of_hash256 (hash256_from_byte_array b))) = hash_tokens Token.Hash256 b.
Proof. intros H. cbn [tokens ms_hash256]. by rewrite to_of_hash256, hash256_bytes. Qed.
Lemma T_ripemd160 b : length b = 20 ->
  T (ms_ripemd160 (of_ripemd160 (ripemd160_from_byte_array b))) = hash_tokens Token.Ripemd160 b.
Proof. intros H. cbn [tokens ms_ripemd160]. by rewrite to_of_ripemd160, ripemd160_bytes. Qed.
Lemma T_hash160 b : length b = 20 ->
  T (ms_hash160 (of_hash160 (hash160_from_byte_array b))) = hash_tokens Token.Hash160 b.
Proof. intros H. cbn [tokens ms_hash160]. by rewrite to_of_hash160, hash160_bytes. Qed.

Lemma T_raw_pkh b : length b = 20 ->
  T (ms_expr_raw_pkh ctx (hash160_from_byte_array b))
  = [Token.Verify; Token.Equal; Token.Hash20 b; Token.Hash160; Token.Dup].
Proof. intros H. cbn [tokens ms_expr_raw_pkh]. unfold pkh_tokens. by rewrite hash160_bytes, data_20. Qed.

Lemma arm_hash_32 tokens before rest nts b :
  length b = 32 ->
  (nts = [] /\ before = [] \/ nts = [NonTerm.Verify] /\ before = [Token.Verify]) ->
  tokens = before ++ Token.Equal :: Token.Bytes32 b :: rest ->
  arm_ok tokens (hash_32 nts b rest).
Proof.
  intros Hb Hn ->. rewrite <- data_32 by done.
  destruct rest as [|[] rest]; try apply arm_error; cbn [hash_32].
  - eapply (arm_hash _ before); [| by apply T_sha256 | apply split_data | done | done | done]. wf_leaf.
  - eapply (arm_hash _ before); [| by apply T_hash256 | apply split_data | done | done | done]. wf_leaf.
Qed.

Lemma means_thresh more ts c k :
  means (NonTerm.Expression :: more) ts c ->
  means (NonTerm.ThreshW k 0 :: more) ts (c ++ [Token.Equal; Token.Num (N.of_nat k)]).
Proof.
  intros H. exists [], ts. split_and!; [done | done |]. intros first rest Hwf ms Hms Hn.
  rewrite <- app_assoc. assert (T ms = [Token.Equal; Token.Num (N.of_nat k)]
    ++ concat (map (fun w => Token.Add :: T w) rest) ++ T first) as <-; [|by apply H].
  rewrite T_node, Hn. cbn [tokens map thresh_tokens app]. rewrite app_nil_r, <- map_rev.
  by rewrite rev_involutive, map_map.
Qed.

Lemma arm_thresh tokens before rest nts k :
  (nts = [] /\ before = [] \/ nts = [NonTerm.Verify] /\ before = [Token.Verify]) ->
  tokens = before ++ Token.Equal :: Token.Num k :: rest ->
  arm_ok tokens (parse (NonTerm.ThreshW (N.to_nat k) 0 :: nts) rest).
Proof.
  intros Hn ->. apply (arm_parse (before ++ [Token.Equal; Token.Num k])); [by rewrite <- app_assoc|].
  intros more ts c H. rewrite split_app. cbn [split_tokens flat_map split_token app].
  assert (exists m, k = N.of_nat m) as [m ->] by (exists (N.to_nat k); by rewrite N2Nat.id).
  rewrite Nat2N.id, app_assoc. apply means_thresh.
  destruct Hn as [[-> ->]|[-> ->]]; cbn [flat_map app]; rewrite ?app_nil_r; [done|].
  apply (means_wrapper NonTerm.Verify Token.Verify Terminal.Verify); [done | | done].
  intros t ms Hms. by rewrite T_node, Hms.
Qed.

Lemma verify_expression_ok tokens :
  Forall token_valid tokens -> arm_ok (Token.Verify :: tokens) (verify_expression ctx tokens).
Proof.
  intros Hv.
  assert (tokens <> [] -> arm_ok (Token.Verify :: tokens)
            (parse [NonTerm.Expression; NonTerm.Verify] tokens)) as Hother.
  { intros _. apply (arm_parse [Token.Verify]); [done|]. intros more ts c H.
    apply (means_wrapper NonTerm.Verify Token.Verify Terminal.Verify); [done | | done].
    intros t ms Hms. by rewrite T_node, Hms. }
  destruct tokens as [|[] tokens]; try (apply Hother; discriminate); [apply arm_error|].
  clear Hother. apply Forall_cons_1 in Hv as [_ Hv]. cbn [verify_expression].
  destruct tokens as [|[] tokens]; try apply arm_error; apply Forall_cons_1 in Hv as [Hb Hv]; cbn in Hb.
  - eapply (arm_thresh _ [Token.Verify]); [by right | done].
  - destruct tokens as [|[] tokens]; try apply arm_error.
    + eapply (arm_hash _ [Token.Verify]);
        [| by apply T_ripemd160 | apply split_data | done | by right | by rewrite data_20]. wf_leaf.
    + destruct tokens as [|[] tokens]; try apply arm_error.
      * apply (arm_leaf [Token.Verify; Token.Equal; Token.Hash20 b; Token.Hash160; Token.Dup]);
          [wf_leaf | done | symmetry; by apply T_raw_pkh].
      * pose proof (arm_hash (Token.Verify :: Token.Equal :: Token.Hash20 b :: Token.Hash160
          :: Token.Verify :: tokens) [Token.Verify] (Token.Verify :: tokens) [NonTerm.Verify] Token.Hash160
          (ms_hash160 (of_hash160 (hash160_from_byte_array b))) b) as H.
        unfold hash_lock, size_check in H. cbn [expect] in H.
        rewrite bool_decide_eq_true_2 in H by done. apply H; clear H;
          [wf_leaf | by apply T_hash160 | apply split_data | done | by right | by rewrite data_20].
  - apply (arm_hash_32 _ [Token.Verify]); [done | by right | done].
Qed.

Lemma equal_expression_ok tokens :
  Forall token_valid tokens -> arm_ok (Token.Equal :: tokens) (equal_expression tokens).
Proof.
  intros Hv. destruct tokens as [|[] tokens]; try apply arm_error;
    apply Forall_cons_1 in Hv as [Hb Hv]; cbn in Hb; cbn [equal_expression].
  - eapply (arm_thresh _ []); [by left | done].
  - destruct tokens as [|[] tokens]; try apply arm_error;
      (eapply (arm_hash _ []); [| by first [apply T_ripemd160 | apply T_hash160] | apply split_data
                                | done | by left | by rewrite data_20]; wf_leaf).
  - apply (arm_hash_32 _ []); [done | by left | done].
Qed.

Lemma T_multi k pks :
  T (ms_multi (mkThreshold k (rev pks)))
  = Token.CheckMultiSig :: Token.Num (N.of_nat (length pks))
    :: map (fun pk => data_token (full_key_bytes pk)) pks ++ [Token.Num (N.of_nat k)].
Proof.
  cbn [tokens ms_multi]. unfold Threshold.n, Threshold.data. cbn [Threshold.inner Threshold.k].
  by rewrite length_rev, rev_involutive.
Qed.

Lemma T_multi_a k pks pk :
  T (ms_multi_a (mkThreshold k (rev (pks ++ [pk]))))
  = Token.NumEqual :: Token.Num (N.of_nat k)
    :: concat (map (fun pk => [Token.CheckSigAdd; data_token (key_bytes ctx pk)]) pks)
       ++ [Token.CheckSig; data_token (key_bytes ctx pk)].
Proof.
  cbn [tokens ms_multi_a Threshold.k]. unfold Threshold.data. cbn [Threshold.inner].
  rewrite rev_app_distr. cbn [rev app multi_a_tokens]. by rewrite rev_involutive.
Qed.

Lemma split_map (A : Type) (f : A -> bytes) l :
  split_tokens (map (fun a => data_token (f a)) l) = map (fun a => data_token (f a)) l.
Proof.
  induction l as [|a l IH]; [done|]. cbn [map]. by rewrite split_cons, split_data, IH.
Qed.

Lemma split_concat_map (A : Type) (f : A -> bytes) l :
  split_tokens (concat (map (fun a => [Token.CheckSigAdd; data_token (f a)]) l))
  = concat (map (fun a => [Token.CheckSigAdd; data_token (f a)]) l).
Proof.
  induction l as [|a l IH]; [done|]. cbn [map concat]. rewrite split_app, IH.
  by rewrite !split_cons, split_data.
Qed.

Lemma multi_expression_ok n tokens :
  Forall token_valid tokens ->
  arm_ok (Token.CheckMultiSig :: Token.Num n :: tokens) (multi_expression (N.to_nat n) tokens).
Proof.
  intros Hv. apply arm_bind. intros [] _. apply arm_bind. intros [keys rest] Hkeys.
  apply multi_keys_spec in Hkeys as (new & -> & Hlen & ->); [|done]. cbn [app].
  destruct rest as [|[] rest]; try apply arm_error. apply arm_bind.
  intros thresh H%map_err_Ok_inv. apply Threshold.new_valid in H as [-> Hval].
  match goal with |- arm_ok (_ :: _ :: _ ++ Token.Num ?k :: _) _ =>
    apply (arm_leaf (Token.CheckMultiSig :: Token.Num n ::
      map (fun pk => data_token (full_key_bytes pk)) new ++ [Token.Num k]))
  end; [wf_leaf | by rewrite <- !app_comm_cons, <- app_assoc |].
  rewrite T_multi, Hlen, !N2Nat.id, !split_cons, split_app, split_map. done.
Qed.

Lemma multi_a_expression_ok k tokens :
  Forall token_valid tokens ->
  arm_ok (Token.NumEqual :: Token.Num k :: tokens) (multi_a_expression (N.to_nat k) tokens).
Proof.
  intros Hv. apply arm_bind. intros [] _. apply arm_bind. intros [keys rest] Hkeys.
  apply multi_a_keys_spec in Hkeys as (new & -> & ->); [|done]. cbn [app].
  apply list.Forall_app in Hv as [_ Hv].
  destruct rest as [|[] rest]; try apply arm_error. apply Forall_cons_1 in Hv as [_ Hv].
  destruct rest as [|[] rest]; try apply arm_error. apply Forall_cons_1 in Hv as [Hb _]. cbn in Hb.
  apply arm_bind. intros pk Hpk%key_from_slice_spec. apply arm_bind.
  intros thresh H%map_err_Ok_inv. apply Threshold.new_valid in H as [-> Hval].
  match goal with |- arm_ok (_ :: _ :: _ ++ _ :: ?b :: _) _ =>
    apply (arm_leaf (Token.NumEqual :: Token.Num k ::
      concat (map (fun pk => [Token.CheckSigAdd; data_token (key_bytes ctx pk)]) new)
      ++ [Token.CheckSig; b]))
  end; [wf_leaf | by rewrite <- !app_comm_cons, <- app_assoc |].
  rewrite T_multi_a, N2Nat.id, Hpk, data_32 by done.
  rewrite !split_cons, split_app, split_concat_map, !split_cons, <- data_32, split_data by done. done.
Qed.

Lemma arm_pk used tokens b pk rest :
  key_bytes ctx pk = b -> data_token b = used -> tokens = used :: rest ->
  arm_ok tokens (leaf (ms_pk_k ctx pk) rest).
Proof.
  intros Hk Hu ->. apply (arm_leaf [used]); [wf_leaf | done |].
  change (T (ms_pk_k ctx pk)) with [data_token (key_bytes ctx pk)].
  rewrite Hk, <- Hu. cbn [split_tokens flat_map]. by rewrite split_data.
Qed.

Lemma arm_num_leaf op n m rest ms :
  built ctx ms -> T ms = [op; Token.Num m] -> split_token op = [op] -> m = n ->
  arm_ok (op :: Token.Num n :: rest) (leaf ms rest).
Proof.
  intros Hwf HT Hop ->. apply (arm_leaf [op; Token.Num n]); [done | done |].
  rewrite HT. unfold split_tokens. cbn [flat_map]. by rewrite Hop.
Qed.

(** An arm that only pushes a wrapper of the next expression. *)
Lemma arm_wrapper nt tok (wrap : Miniscript -> Terminal Miniscript) rest :
  (forall nts ts c, means (nt :: nts) ts c
     = match ts with t :: ts => reduces (means nts) (wrap t) ts c | [] => False end) ->
  (forall t ms, node ms = wrap t -> T ms = tok :: T t) ->
  split_token tok = [tok] ->
  arm_ok (tok :: rest) (parse [NonTerm.Expression; nt] rest).
Proof.
  intros Heq HT Htok. apply (arm_parse [tok]); [done|]. intros more ts c H.
  rewrite split_cons, Htok. by apply (means_wrapper nt tok wrap).
Qed.

(** The tokens of a Miniscript whose node is known. *)
Ltac node_tokens := intros;
  match goal with H : node ?ms = _ |- _ => rewrite (T_node ms), H end; reflexivity.

Lemma means_binary nt tok (bin : Miniscript -> Miniscript -> Terminal Miniscript) more ts c :
  (forall nts ts c, means (nt :: nts) ts c
     = match ts with l :: r :: ts => reduces (means nts) (bin l r) ts c | _ => False end) ->
  (forall l r ms, node ms = bin l r -> T ms = tok :: T r ++ T l) ->
  means (NonTerm.Expression :: more) ts c ->
  means (NonTerm.WExpression :: NonTerm.Expression :: nt :: more) ts (c ++ [tok]).
Proof.
  intros Heq HT H r Hr l Hl. rewrite Heq. intros ms Hms Hn. rewrite <- !app_assoc. cbn [app].
  rewrite <- (HT l r ms Hn). by apply H.
Qed.

Lemma means_maybe nts ts c :
  means (NonTerm.Expression :: nts) ts c ->
  means (NonTerm.Expression :: NonTerm.MaybeAndV :: nts) ts c.
Proof.
  intros H t Ht. cbn [means]. split; [by apply H|]. intros l Hl ms Hms Hn.
  rewrite <- (app_assoc c). assert (T ms = T t ++ T l) as <- by node_tokens. by apply H.
Qed.

(** The initial state. *)
Lemma means_start : means [NonTerm.Expression; NonTerm.MaybeAndV] [] [].
Proof. apply means_maybe. intros t _. done. Qed.

Lemma means_end_if more ts c :
  means (NonTerm.Expression :: more) ts c ->
  means (NonTerm.Expression :: NonTerm.MaybeAndV :: NonTerm.EndIf :: more) ts (c ++ [Token.EndIf]).
Proof.
  intros H.
  assert (forall t, built ctx t -> means (NonTerm.EndIf :: more) (t :: ts) ((c ++ [Token.EndIf]) ++ T t))
    as HE.
  { intros t Ht. cbn [means].
    assert (forall n0 d ms, built ctx ms -> node ms = n0 ->
      T ms = Token.EndIf :: T t ++ d ->
      means more (ms :: ts) (((c ++ [Token.EndIf]) ++ T t) ++ d)) as Hd.
    { intros n0 d ms Hms _ Hd. rewrite <- !app_assoc. cbn [app]. rewrite <- Hd. by apply H. }
    split_and!.
    - intros ms Hms Hn. eapply Hd; [done..|]. node_tokens.
    - intros ms Hms Hn. eapply Hd; [done..|]. node_tokens.
    - intros l Hl. split_and!; try (intros ms Hms Hn; eapply Hd; [done..|]; node_tokens).
      intros a Ha ms Hms Hn. eapply Hd; [done..|]. node_tokens. }
  apply means_maybe. exact HE.
Qed.

Lemma means_post more ts c i :
  means (NonTerm.Expression :: more) ts c ->
  means (NonTerm.Expression :: NonTerm.InscribePost i :: more) ts (c ++ inscription_tokens i).
Proof.
  intros H t Ht ms Hms Hn. rewrite <- app_assoc.
  assert (T ms = inscription_tokens i ++ T t) as <- by node_tokens. by apply H.
Qed.

Lemma means_pre more ts c :
  means (NonTerm.Expression :: more) ts c ->
  means (NonTerm.Expression :: NonTerm.InscribePre :: more) ts c.
Proof.
  intros H t Ht. cbn [means]. split; [by apply H|]. intros i ms Hms Hn. rewrite <- app_assoc.
  assert (T ms = T t ++ inscription_tokens i) as <- by node_tokens. by apply H.
Qed.

Lemma T_tx_template b ms : length b = 32 ->
  node ms = Terminal.TxTemplate (sha256_from_byte_array b) ->
  T ms = [Token.Drop; Token.CheckTemplateVerify; Token.Bytes32 b].
Proof. intros Hb Hn. rewrite T_node, Hn. cbn [tokens]. by rewrite sha256_bytes, data_32. Qed.

(** A lock time: the opcode and its number. *)
Lemma older_ok n tokens :
  u32 n -> arm_ok (Token.CheckSequenceVerify :: Token.Num n :: tokens)
    (t ← map_err RelativeLockTime (rel_from_consensus n); leaf (ms_older t) tokens).
Proof.
  intros Hn. apply arm_bind. intros t H%map_err_Ok_inv.
  apply rel_from_consensus_valid in H as [Hval Heq]; [|done].
  apply (arm_leaf [Token.CheckSequenceVerify; Token.Num n]); [wf_leaf | done |].
  change (T (ms_older t)) with [Token.CheckSequenceVerify; Token.Num (rel_to_consensus_u32 t)].
  by rewrite Heq.
Qed.

Lemma after_ok n tokens :
  u32 n -> arm_ok (Token.CheckLockTimeVerify :: Token.Num n :: tokens)
    (t ← map_err AbsoluteLockTime (abs_from_consensus n); leaf (ms_after t) tokens).
Proof.
  intros Hn. apply arm_bind. intros t H%map_err_Ok_inv.
  apply abs_from_consensus_valid in H as [Hval Heq]; [|done].
  apply (arm_leaf [Token.CheckLockTimeVerify; Token.Num n]); [wf_leaf | done |].
  change (T (ms_after t)) with [Token.CheckLockTimeVerify; Token.Num (abs_to_consensus_u32 t)].
  by rewrite Heq.
Qed.

Lemma template_ok tokens :
  Forall token_valid tokens ->
  arm_ok (Token.Drop :: Token.CheckTemplateVerify :: tokens)
    (match tokens with
     | Token.Bytes32 h :: tokens =>
         ms ← checked ctx (Terminal.TxTemplate (sha256_from_byte_array h)); leaf ms tokens
     | _ => unexpected tokens
     end).
Proof.
  intros Hv. destruct tokens as [|[] tokens]; try apply arm_error.
  apply Forall_cons_1 in Hv as [Hb _]. cbn in Hb. apply arm_bind. intros ms Hms.
  apply checked_spec in Hms as [Hwf Hn]; [|exact (List.Forall_nil _) | done].
  apply (arm_leaf [Token.Drop; Token.CheckTemplateVerify; Token.Bytes32 b]); [done | done |].
  by rewrite (T_tx_template b).
Qed.

Lemma key_ok tokens used b rest :
  data_token b = used -> tokens = used :: rest ->
  arm_ok tokens (key ← key_from_slice b; leaf (ms_pk_k ctx key) rest).
Proof.
  intros Hu Ht. apply arm_bind. intros pk Hpk%key_from_slice_spec. by apply (arm_pk used _ b).
Qed.

Lemma num_ok n tokens : arm_ok (Token.Num n :: tokens) (expression ctx (Token.Num n :: tokens)).
Proof.
  destruct n as [|[]]; try apply arm_error; eapply (arm_leaf [Token.Num _]); try done; wf_leaf.
Qed.

Lemma inscription_ok script tokens :
  arm_ok (Token.Inscription script :: tokens) (expression ctx (Token.Inscription script :: tokens)).
Proof.
  cbn [expression]. apply arm_bind. intros [i rest] Ht.
  apply take_inscriptions_spec in Ht as (used & -> & Hs & _). apply (arm_parse used); [done|].
  intros more ts c H. rewrite Hs. by apply means_post.
Qed.

Lemma expression_ok tokens : Forall token_valid tokens -> arm_ok tokens (expression ctx tokens).
Proof.
  intros Hv. destruct tokens as [|t tokens]; [apply arm_error|].
  apply Forall_cons_1 in Hv as [Ht Hv].
  destruct t; try apply arm_error; cbn [token_valid] in Ht.
  - apply inscription_ok.
  - apply (arm_parse [Token.BoolAnd]); [done|]. intros more ts c H.
    apply (means_binary NonTerm.AndB Token.BoolAnd Terminal.AndB); [done | node_tokens | done].
  - apply (arm_parse [Token.BoolOr]); [done|]. intros more ts c H.
    apply (means_binary NonTerm.OrB Token.BoolOr Terminal.OrB); [done | node_tokens | done].
  - by apply equal_expression_ok.
  - cbn [expression]. destruct tokens as [|[] tokens]; try apply arm_error.
    apply multi_a_expression_ok. by apply Forall_cons_1 in Hv as [_ ?].
  - apply (arm_wrapper NonTerm.Check Token.CheckSig Terminal.Check); [done | node_tokens | done].
  - cbn [expression]. destruct tokens as [|[] tokens]; try apply arm_error.
    apply multi_expression_ok. by apply Forall_cons_1 in Hv as [_ ?].
  - cbn [expression]. destruct tokens as [|[] tokens]; try apply arm_error.
    apply older_ok. by apply Forall_cons_1 in Hv as [? _].
  - cbn [expression]. destruct tokens as [|[] tokens]; try apply arm_error.
    apply after_ok. by apply Forall_cons_1 in Hv as [? _].
  - cbn [expression]. apply arm_bind. intros rest ->%expect_spec. apply template_ok.
    by apply Forall_cons_1 in Hv as [_ ?].
  - apply (arm_parse [Token.EndIf]); [done|]. intros more ts c H. by apply means_end_if.
  - apply (arm_wrapper NonTerm.ZeroNotEqual Token.ZeroNotEqual Terminal.ZeroNotEqual);
      [done | node_tokens | done].
  - by apply verify_expression_ok.
  - apply num_ok.
  - by apply (key_ok _ (Token.Bytes32 b) b); [apply data_32|].
  - by apply (key_ok _ (Token.Bytes33 b) b); [apply data_33|].
  - by apply (key_ok _ (Token.Bytes65 b) b); [apply data_65|].
Qed.

(** ** A turn of the loop *)

(** What a turn that does not fail leaves: tokens were consumed from the front, and the
    stacks mean them. It never pops an empty stack. *)
Definition turn_ok (tokens c : list Token)
    (r : option (result DecodeError (list NonTerm * list Miniscript * list Token))) : Prop :=
  match r with
  | None => False
  | Some (Err _) => True
  | Some (Ok (nts, ts, rest)) =>
      exists used, tokens = used ++ rest /\ Forall (built ctx) ts /\ means nts ts (c ++ split_tokens used)
  end.

Lemma turn_reduce0 used rest c nts ts t :
  Forall (built ctx) ts -> Forall (built ctx) (terminal_children t) -> node_valid t ->
  reduces (means nts) t ts (c ++ split_tokens used) ->
  turn_ok (used ++ rest) c (r ← reduce0 ctx t ts; Some (ts ← r; Ok (nts, ts, rest))).
Proof.
  intros Hts Hch Hv H. unfold reduce0. cbn. destruct (checked ctx t) as [ms|e] eqn:Ems; [|done].
  apply checked_spec in Ems as [Hwf Hn]; [|done..]. cbn. exists used.
  split_and!; [done | by apply list.Forall_cons | by apply H].
Qed.

Lemma turn_reduce1 used rest c nts ts wrap :
  Forall (built ctx) ts ->
  (forall t, terminal_children (wrap t) = [t]) -> (forall t, node_valid (wrap t)) ->
  match ts with t :: ts => reduces (means nts) (wrap t) ts (c ++ split_tokens used) | [] => False end ->
  turn_ok (used ++ rest) c (r ← reduce1 ctx wrap ts; Some (ts ← r; Ok (nts, ts, rest))).
Proof.
  intros Hts Hch Hv H. destruct ts as [|t ts]; [done|]. apply Forall_cons_1 in Hts as [Ht Hts].
  apply turn_reduce0; [done | rewrite Hch; all_built | done | done].
Qed.

Lemma turn_reduce2 used rest c nts ts bin :
  Forall (built ctx) ts ->
  (forall l r, terminal_children (bin l r) = [l; r]) -> (forall l r, node_valid (bin l r)) ->
  match ts with l :: r :: ts => reduces (means nts) (bin l r) ts (c ++ split_tokens used) | _ => False end ->
  turn_ok (used ++ rest) c (r ← reduce2 ctx bin ts; Some (ts ← r; Ok (nts, ts, rest))).
Proof.
  intros Hts Hch Hv H. destruct ts as [|l [|r ts]]; [done..|].
  apply Forall_cons_1 in Hts as [Hl Hts]. apply Forall_cons_1 in Hts as [Hr Hts].
  apply turn_reduce0; [done | rewrite Hch; all_built | done | done].
Qed.

Lemma turn_continue used rest c nts ts :
  Forall (built ctx) ts -> means nts ts (c ++ split_tokens used) ->
  turn_ok (used ++ rest) c (Some (Ok (nts, ts, rest))).
Proof. intros Hts H. by exists used. Qed.

Lemma turn_error tokens' tokens c : turn_ok tokens c (Some (unexpected tokens')).
Proof. by destruct tokens'. Qed.

Lemma pop_subs_app subs ts : pop_subs (length subs) (subs ++ ts) = Some (subs, ts).
Proof. induction subs as [|t subs IH]; [done|]. cbn [length app pop_subs]. by rewrite IH. Qed.

Lemma turn_expression tokens c nts ts :
  Forall token_valid tokens -> Forall (built ctx) ts -> means (NonTerm.Expression :: nts) ts c ->
  turn_ok tokens c (decode_step ctx NonTerm.Expression nts ts tokens).
Proof.
  intros Hv Hts H. cbn [decode_step].
  destruct (expression ctx tokens) as [[[new ms] rest]|e] eqn:He; [|done].
  apply expression_ok in He as (used & -> & Hms & Hmean); [|done]. cbn. exists used.
  split_and!; [done | by apply Forall_app_2 | by apply Hmean, means_pre].
Qed.

Lemma turn_thresh_w tokens c k n nts ts :
  Forall (built ctx) ts -> means (NonTerm.ThreshW k n :: nts) ts c ->
  turn_ok tokens c (decode_step ctx (NonTerm.ThreshW k n) nts ts tokens).
Proof.
  intros Hts (subs & ts' & -> & <- & H). cbn [decode_step].
  assert (turn_ok tokens c (Some (Ok ([NonTerm.Expression; NonTerm.ThreshE k (length subs + 1)] ++ nts,
    subs ++ ts', tokens)))) as Hlast.
  { apply (turn_continue []); [done|]. intros t Ht. exists (t :: subs), ts'.
    split_and!; [done | simpl; lia |]. rewrite app_nil_r.
    refine (H t [] _). all_built. }
  destruct tokens as [|[] tokens]; try exact Hlast; [apply turn_error|].
  apply (turn_continue [Token.Add]); [done|]. intros w Hw. exists (w :: subs), ts'.
  split_and!; [done | simpl; lia |]. intros first more Hwf.
  specialize (H first (w :: more)). cbn [rev map concat] in H. rewrite <- !app_assoc in *.
  cbn [app split_tokens flat_map split_token] in *.
  apply H. inversion_clear Hwf. all_built.
Qed.

Lemma turn_thresh_e tokens c k n nts ts :
  Forall (built ctx) ts -> means (NonTerm.ThreshE k n :: nts) ts c ->
  turn_ok tokens c (decode_step ctx (NonTerm.ThreshE k n) nts ts tokens).
Proof.
  intros Hts (subs & ts' & -> & <- & H). cbn [decode_step]. rewrite pop_subs_app. cbn.
  destruct (Threshold.new 0 k subs) as [thresh|e] eqn:Ht; [|done].
  apply Threshold.new_valid in Ht as [-> Hval]. apply Forall_app in Hts as [Hsubs Hts].
  apply (turn_reduce0 []); [done | done | done |]. by rewrite app_nil_r.
Qed.

Lemma means_w nt tok (wrap : Miniscript -> Terminal Miniscript) pre nts ts c :
  (forall nts ts c, means (nt :: nts) ts c
     = match ts with t :: ts => reduces (means nts) (wrap t) ts (c ++ [tok]) | [] => False end) ->
  (forall t ms, node ms = wrap t -> T ms = pre ++ T t ++ [tok]) ->
  means (NonTerm.WExpression :: nts) ts c ->
  means (NonTerm.Expression :: NonTerm.MaybeAndV :: nt :: NonTerm.InscribePre :: nts) ts (c ++ pre).
Proof.
  intros Heq HT H. apply means_maybe. intros t Ht. rewrite Heq. intros ms Hms Hn.
  rewrite <- !app_assoc, <- (HT t ms Hn). by apply (means_pre nts ts c H).
Qed.

Lemma turn_w_expression tokens c nts ts :
  Forall (built ctx) ts -> means (NonTerm.WExpression :: nts) ts c ->
  turn_ok tokens c (decode_step ctx NonTerm.WExpression nts ts tokens).
Proof.
  intros Hts H. cbn [decode_step]. destruct (starts_inscription tokens).
  { destruct (take_inscriptions tokens) as [[i rest]|e] eqn:Ht; [|done].
    apply take_inscriptions_spec in Ht as (used & -> & Hs & _). apply turn_continue; [done|].
    rewrite Hs. apply means_post. by apply means_pre. }
  assert (turn_ok tokens c (Some (Ok ([NonTerm.Expression; NonTerm.MaybeAndV; NonTerm.Swap;
    NonTerm.InscribePre] ++ nts, ts, tokens)))) as Hswap.
  { apply (turn_continue []); [done|]. cbn [app].
    apply (means_w NonTerm.Swap Token.Swap Terminal.Swap); [done | node_tokens | done]. }
  destruct tokens as [|[] tokens]; try exact Hswap; [apply turn_error|].
  apply (turn_continue [Token.FromAltStack]); [done|]. cbn [app].
  apply (means_w NonTerm.Alt Token.ToAltStack Terminal.Alt); [done | node_tokens | done].
Qed.

Lemma turn_inscribe_pre tokens c nts ts :
  Forall (built ctx) ts -> means (NonTerm.InscribePre :: nts) ts c ->
  turn_ok tokens c (decode_step ctx NonTerm.InscribePre nts ts tokens).
Proof.
  intros Hts [Hnone Hpre]. cbn [decode_step]. destruct (starts_inscription tokens).
  - destruct (take_inscriptions tokens) as [[i rest]|e] eqn:Ht; [|done].
    apply take_inscriptions_spec in Ht as (used & -> & Hs & _).
    apply turn_reduce1; [done | done | done |]. rewrite Hs. apply Hpre.
  - apply (turn_continue []); [done|]. rewrite app_nil_r. by destruct ts.
Qed.

Lemma turn_maybe_and_v tokens c nts ts :
  Forall (built ctx) ts -> means (NonTerm.MaybeAndV :: nts) ts c ->
  turn_ok tokens c (decode_step ctx NonTerm.MaybeAndV nts ts tokens).
Proof.
  intros Hts H. cbn [decode_step means] in *. destruct ts as [|t ts]; [done|]. destruct H as [Hnone H].
  destruct (is_and_v tokens); apply (turn_continue []); try done; rewrite app_nil_r; [|done].
  intros l Hl. cbn [means]. exists c. split; [done|]. exact H.
Qed.

Lemma turn_and_v tokens c nts ts :
  Forall (built ctx) ts -> means (NonTerm.AndV :: nts) ts c ->
  turn_ok tokens c (decode_step ctx NonTerm.AndV nts ts tokens).
Proof.
  intros Hts H. cbn [decode_step means] in *. destruct ts as [|l [|r ts]]; [done..|].
  destruct H as (d & -> & H). apply Forall_cons_1 in Hts as [Hl Hts].
  destruct (is_and_v tokens).
  - apply (turn_continue []); [by apply list.Forall_cons|]. rewrite app_nil_r. cbn [app means]. split.
    + by exists d.
    + intros l' Hl' ms Hms Hn. exists d. split; [|exact H]. rewrite <- app_assoc. f_equal. node_tokens.
  - apply (turn_reduce2 []); [by apply list.Forall_cons | done | done |].
    rewrite app_nil_r. by apply H.
Qed.

Lemma turn_end_if tokens c nts ts :
  Forall (built ctx) ts -> means (NonTerm.EndIf :: nts) ts c ->
  turn_ok tokens c (decode_step ctx NonTerm.EndIf nts ts tokens).
Proof.
  intros Hts (Hd & Hj & H). cbn [decode_step]. destruct ts as [|t ts]; [done|].
  destruct tokens as [|[] tokens]; try apply turn_error.
  - destruct tokens as [|[] tokens]; try apply turn_error.
    + by apply (turn_continue [Token.If; Token.Dup]).
    + destruct tokens as [|[] tokens]; try apply turn_error.
      by apply (turn_continue [Token.If; Token.ZeroNotEqual; Token.Size]).
  - apply (turn_continue [Token.NotIf]); [done|]. cbn [means app]. intros l Hl.
    rewrite <- !app_assoc. specialize (H l Hl). tauto.
  - apply (turn_continue [Token.Else]); [done|]. cbn [app]. apply means_maybe. intros l Hl.
    specialize (H l Hl). cbn [means]. rewrite <- !app_assoc. cbn [app split_tokens flat_map split_token].
    split; [tauto|]. intros a Ha. rewrite <- !app_assoc. cbn [app].
    by apply (proj2 (proj2 (proj2 H))).
Qed.

Lemma turn_end_if_not_if tokens c nts ts :
  Forall (built ctx) ts -> means (NonTerm.EndIfNotIf :: nts) ts c ->
  turn_ok tokens c (decode_step ctx NonTerm.EndIfNotIf nts ts tokens).
Proof.
  intros Hts H. cbn [decode_step means] in *. destruct ts as [|t ts]; [done|].
  assert (turn_ok tokens c (Some (Ok ([NonTerm.Expression; NonTerm.OrC] ++ nts, t :: ts, tokens)))) as HC.
  { apply (turn_continue []); [done|]. rewrite app_nil_r. intros l Hl. by apply H. }
  destruct tokens as [|[] tokens]; try exact HC; [apply turn_error|].
  apply (turn_continue [Token.IfDup]); [done|]. intros l Hl. rewrite <- app_assoc. by apply H.
Qed.

Lemma turn_end_if_else tokens c nts ts :
  Forall (built ctx) ts -> means (NonTerm.EndIfElse :: nts) ts c ->
  turn_ok tokens c (decode_step ctx NonTerm.EndIfElse nts ts tokens).
Proof.
  intros Hts H. cbn [decode_step means] in *. destruct ts as [|l [|t ts]]; [done..|].
  destruct H as [HI HT]. destruct tokens as [|[] tokens]; try apply turn_error.
  - by apply (turn_reduce2 [Token.If]).
  - apply (turn_continue [Token.NotIf]); [done|]. intros a Ha. cbn [means]. rewrite <- app_assoc.
    by apply HT.
Qed.

(** The same for every non-terminal. *)
Lemma turn_spec nt tokens c nts ts :
  Forall token_valid tokens -> Forall (built ctx) ts -> means (nt :: nts) ts c ->
  turn_ok tokens c (decode_step ctx nt nts ts tokens).
Proof.
  intros Hv Hts H. destruct nt.
  1: by apply turn_expression.
  1: by apply turn_w_expression.
  2: by apply turn_maybe_and_v.
  2: by apply turn_inscribe_pre.
  9: by apply turn_and_v.
  14: by apply turn_thresh_w.
  14: by apply turn_thresh_e.
  14: by apply turn_end_if.
  14: by apply turn_end_if_not_if.
  14: by apply turn_end_if_else.
  all: cbn [decode_step].
  4-8: apply (turn_reduce1 []); [done | done | done | by rewrite app_nil_r].
  2: apply (turn_reduce1 []); [done | done | done | by rewrite app_nil_r].
  4: { destruct ts as [|x [|y [|z ts]]]; try done. cbn [means] in H.
       rewrite !list.Forall_cons in Hts. destruct Hts as (Hx & Hy & Hz & Hts).
       apply (turn_reduce0 []); [done | all_built | done | by rewrite app_nil_r]. }
  3-6: apply (turn_reduce2 []); [done | done | done | by rewrite app_nil_r].
  - destruct tokens as [|[] tokens]; try apply turn_error. by apply (turn_reduce1 [Token.Swap]).
  - destruct tokens as [|[] tokens]; try apply turn_error. by apply (turn_reduce1 [Token.ToAltStack]).
Qed.

(** ** The loop *)

(** The tokens consumed by then, and the Miniscript. *)
Lemma loop_sound fuel nts ts tokens c ms rest :
  Forall token_valid tokens -> Forall (built ctx) ts -> means nts ts c ->
  decode_loop ctx fuel nts ts tokens = Some (Ok (ms, rest)) ->
  exists used, tokens = used ++ rest /\ built ctx ms /\ c ++ split_tokens used = T ms.
Proof.
  revert nts ts tokens c. induction fuel as [|fuel IH]; intros nts ts tokens c Hv Hts H.
  all: destruct nts as [|nt nts]; cbn [decode_loop].
  1, 3: cbn [means] in H; destruct ts as [|t [|]]; [done | | done]; intros [= -> ->]; exists [];
    rewrite app_nil_r; apply Forall_cons_1 in Hts as [Ht _]; done.
  - done.
  - pose proof (turn_spec nt tokens c nts ts Hv Hts H) as Hturn.
    destruct (decode_step ctx nt nts ts tokens) as [[[[nts' ts'] tokens']|e]|]; cbn; [|done..].
    destruct Hturn as (used & -> & Hts' & Hm). intros Hl.
    apply list.Forall_app in Hv as [_ Hv].
    apply (IH _ _ _ _ Hv Hts' Hm) in Hl as (used' & -> & Hwf & <-). exists (used ++ used').
    by rewrite split_app, !app_assoc.
Qed.
End Sound.
