(* ===== verification/DecodeTotal.v ===== *)
(** The loop of the decoder ends: a measure on its state falls at every turn, and the fuel
    is above the measure of the initial state. With [DecodeSound] this gives the contract of
    [decode]. At the end, keys of the reference instance and scripts that are decoded. *)
From S2P Require Import Prelude Bitcoin Primitives Reference Ord Script Envelope Lex Correctness Malleability Types ExtData Tree Ast Context Decode Encode Tokens DecodeSound.

Section Total.
Context {B : Bitcoin} {Sc : Scripts} {K : MiniscriptKey} {TP : ToPublicKey K} {PK : ParseableKey}.
Context (ctx : ScriptContext).

(** The turns a non-terminal can take before the next token is read. *)
Definition weight (nt : NonTerm) : nat :=
  match nt with
  | NonTerm.Expression => 0
  | NonTerm.AndV | NonTerm.MaybeAndV => 1
  | NonTerm.ThreshW _ _ | NonTerm.EndIf | NonTerm.EndIfNotIf => 6
  | NonTerm.WExpression => 12
  | _ => 5
  end.

Definition weights (nts : list NonTerm) : nat := list_sum (map weight nts).

(** A conjunction that is about to read one more expression takes two turns for it. *)
Definition phase (nts : list NonTerm) (tokens : list Token) : nat :=
  if is_and_v tokens then
    match nts with NonTerm.AndV :: _ => 3 | NonTerm.MaybeAndV :: _ => 1 | _ => 0 end
  else 0.

Definition measure (nts : list NonTerm) (tokens : list Token) : nat :=
  30 * length tokens + weights nts + phase nts tokens.

Lemma phase_le nts tokens : phase nts tokens <= 3.
Proof. unfold phase. repeat case_match; lia. Qed.

Lemma weights_app l l' : weights (l ++ l') = weights l + weights l'.
Proof. unfold weights. by rewrite map_app, list_sum_app. Qed.

Lemma weights_cons nt l : weights (nt :: l) = weight nt + weights l.
Proof. reflexivity. Qed.

(** ** Arms consume *)

Definition shrinks (tokens : list Token)
    (r : result DecodeError (list NonTerm * list Miniscript * list Token)) : Prop :=
  forall nts ms rest, r = Ok (nts, ms, rest) -> length rest < length tokens /\ weights nts <= 18.

Lemma shrinks_error tokens tokens' : shrinks tokens (unexpected tokens').
Proof. intros ???. by destruct tokens'. Qed.

Lemma shrinks_bind {A} tokens (m : result DecodeError A) f :
  (forall a, m = Ok a -> shrinks tokens (f a)) -> shrinks tokens (a ← m; f a).
Proof. intros H nts ms rest (a & Ha & Hf)%bind_Ok_inv. by apply (H a Ha nts ms). Qed.

Lemma shrinks_ok tokens nts ms rest :
  length rest < length tokens -> weights nts <= 18 -> shrinks tokens (Ok (nts, ms, rest)).
Proof. intros Hl Hw nts' ms' rest' [= <- <- <-]. done. Qed.

Lemma expect_length l tokens rest : expect l tokens = Ok rest -> length rest <= length tokens.
Proof.
  intros H%expect_spec. rewrite H, length_app. lia.
Qed.

Lemma multi_keys_length n tokens acc keys rest :
  multi_keys n tokens acc = Ok (keys, rest) -> length rest <= length tokens.
Proof.
  revert tokens acc. induction n as [|n IH]; intros tokens acc; cbn [multi_keys]; [by intros [= _ ->]|].
  destruct tokens as [|[] tokens]; try done; intros (key & _ & H%IH)%bind_Ok_inv; simpl; lia.
Qed.

Lemma multi_a_keys_length tokens acc keys rest :
  multi_a_keys tokens acc = Ok (keys, rest) -> length rest <= length tokens.
Proof.
  remember (length tokens) as len eqn:Hlen. revert tokens Hlen acc.
  induction len as [len IH] using lt_wf_ind. intros tokens -> acc.
  destruct tokens as [|[] tokens]; try (intros [= _ <-]; done). cbn [multi_a_keys].
  destruct tokens as [|[] tokens]; try done. intros (key & _ & H)%bind_Ok_inv.
  apply (IH (length tokens)) in H; simpl; try done; lia.
Qed.

Lemma take_inscriptions_length tokens i rest :
  take_inscriptions tokens = Ok (i, rest) -> length rest <= length tokens
    /\ (starts_inscription tokens = true -> length rest < length tokens).
Proof.
  intros (used & -> & _ & Hne & _)%take_inscriptions_spec. rewrite length_app. split; [lia|].
  intros H%Hne. destruct used; [done | simpl; lia].
Qed.

Lemma hash_lock_shrinks tokens nts ms rest :
  length rest < length tokens -> weights nts <= 18 -> shrinks tokens (hash_lock nts ms rest).
Proof. intros Hl Hw. unfold hash_lock. apply shrinks_bind. intros r ?%expect_length. apply shrinks_ok; lia. Qed.

Lemma hash_32_shrinks tokens nts b rest :
  length rest < length tokens -> weights nts <= 18 -> shrinks tokens (hash_32 nts b rest).
Proof.
  intros Hl Hw. destruct rest as [|[] rest]; try apply shrinks_error;
    (apply hash_lock_shrinks; [simpl in *; lia | done]).
Qed.

Lemma verify_shrinks tokens tokens' :
  length tokens' < length tokens -> shrinks tokens (verify_expression ctx tokens').
Proof.
  intros Hl. destruct tokens' as [|[] l]; cbn [verify_expression]; try apply shrinks_error;
    try (apply shrinks_ok; [simpl in *; lia | cbn; lia]).
  destruct l as [|[] l]; try apply shrinks_error; try (apply shrinks_ok; [simpl in *; lia | cbn; lia]).
  - destruct l as [|[] l]; try apply shrinks_error.
    + apply hash_lock_shrinks; [simpl in *; lia | cbn; lia].
    + destruct l as [|[] l]; try apply shrinks_error.
      * apply shrinks_ok; [simpl in *; lia | cbn; lia].
      * apply shrinks_bind. intros r ?%expect_length. apply shrinks_ok; [simpl in *; lia | cbn; lia].
  - apply hash_32_shrinks; [simpl in *; lia | cbn; lia].
Qed.

Lemma equal_shrinks tokens tokens' :
  length tokens' < length tokens -> shrinks tokens (equal_expression tokens').
Proof.
  intros Hl. destruct tokens' as [|[] l]; cbn [equal_expression]; try apply shrinks_error.
  - apply shrinks_ok; [simpl in *; lia | cbn; lia].
  - destruct l as [|[] l]; try apply shrinks_error;
      (apply hash_lock_shrinks; [simpl in *; lia | cbn; lia]).
  - apply hash_32_shrinks; [simpl in *; lia | cbn; lia].
Qed.

Lemma multi_shrinks tokens n tokens' :
  length tokens' < length tokens -> shrinks tokens (multi_expression n tokens').
Proof.
  intros Hl. apply shrinks_bind. intros [] _. apply shrinks_bind.
  intros [keys r] ?%multi_keys_length. destruct r as [|[] r]; try apply shrinks_error.
  apply shrinks_bind. intros th _. apply shrinks_ok; [simpl in *; lia | cbn; lia].
Qed.

Lemma multi_a_shrinks tokens k tokens' :
  length tokens' < length tokens -> shrinks tokens (multi_a_expression k tokens').
Proof.
  intros Hl. apply shrinks_bind. intros [] _. apply shrinks_bind.
  intros [keys r] ?%multi_a_keys_length. destruct r as [|[] r]; try apply shrinks_error.
  destruct r as [|[] r]; try apply shrinks_error. apply shrinks_bind. intros key _.
  apply shrinks_bind. intros th _. apply shrinks_ok; [simpl in *; lia | cbn; lia].
Qed.

(** Every arm of [Expression] consumes a token and pushes little. *)
Lemma expression_shrinks tokens : shrinks tokens (expression ctx tokens).
Proof.
  destruct tokens as [|t l]; [apply shrinks_error|].
  destruct t; cbn [expression]; try apply shrinks_error;
    try (apply shrinks_ok; [simpl in *; lia | cbn; lia]).
  - apply shrinks_bind. intros [i r] [_ Hr]%take_inscriptions_length.
    apply shrinks_ok; [by apply Hr | cbn; lia].
  - apply equal_shrinks. simpl. lia.
  - destruct l as [|[] l]; try apply shrinks_error. apply multi_a_shrinks. simpl. lia.
  - destruct l as [|[] l]; try apply shrinks_error. apply multi_shrinks. simpl. lia.
  - destruct l as [|[] l]; try apply shrinks_error. apply shrinks_bind. intros t _.
    apply shrinks_ok; [simpl in *; lia | cbn; lia].
  - destruct l as [|[] l]; try apply shrinks_error. apply shrinks_bind. intros t _.
    apply shrinks_ok; [simpl in *; lia | cbn; lia].
  - apply shrinks_bind. intros r ?%expect_length. destruct r as [|[] r]; try apply shrinks_error.
    apply shrinks_bind. intros ms _. apply shrinks_ok; [simpl in *; lia | cbn; lia].
  - apply verify_shrinks. simpl. lia.
  - destruct n as [|[]]; try apply shrinks_error; (apply shrinks_ok; [simpl in *; lia | cbn; lia]).
  - apply shrinks_bind. intros k _. apply shrinks_ok; [simpl in *; lia | cbn; lia].
  - apply shrinks_bind. intros k _. apply shrinks_ok; [simpl in *; lia | cbn; lia].
  - apply shrinks_bind. intros k _. apply shrinks_ok; [simpl in *; lia | cbn; lia].
Qed.

(** ** Turns decrease the measure *)

Definition falls (before : nat)
    (r : option (result DecodeError (list NonTerm * list Miniscript * list Token))) : Prop :=
  match r with Some (Ok (nts, _, rest)) => measure nts rest < before | _ => True end.

Lemma falls_error n tokens : falls n (Some (unexpected tokens)).
Proof. by destruct tokens. Qed.

Lemma falls_continue n nts ts rest : measure nts rest < n -> falls n (Some (Ok (nts, ts, rest))).
Proof. done. Qed.

Lemma falls_reduced n nts rest r :
  measure nts rest < n -> falls n (r ← r; Some (ts ← r; Ok (nts, ts, rest))).
Proof. intros H. by destruct r as [[]|]. Qed.

(** Popping a non-terminal of weight above 3. *)
Lemma measure_pop nt nts tokens rest :
  3 < weight nt -> length rest <= length tokens -> measure nts rest < measure (nt :: nts) tokens.
Proof.
  intros Hw Hl. unfold measure. pose proof (phase_le nts rest).
  change (weights (nt :: nts)) with (weight nt + weights nts). lia.
Qed.

(** Reading a token. *)
Lemma measure_read nt new nts tokens rest :
  weights new <= weight nt + 23 -> length rest < length tokens ->
  measure (new ++ nts) rest < measure (nt :: nts) tokens.
Proof.
  intros Hw Hl. unfold measure. pose proof (phase_le (new ++ nts) rest). rewrite weights_app.
  change (weights (nt :: nts)) with (weight nt + weights nts). lia.
Qed.

(** Unfolding a non-terminal into others that begin with an expression. *)
Lemma measure_unfold nt new nts tokens :
  weights new < weight nt -> 
  measure (NonTerm.Expression :: new ++ nts) tokens < measure (nt :: nts) tokens.
Proof.
  intros Hw. unfold measure, phase. change (weights (nt :: nts)) with (weight nt + weights nts).
  change (weights (NonTerm.Expression :: new ++ nts)) with (weights (new ++ nts)).
  rewrite weights_app. destruct (is_and_v tokens); lia.
Qed.

Lemma reduced_pop nt nts tokens rest r :
  3 < weight nt -> length rest <= length tokens ->
  falls (measure (nt :: nts) tokens) (r ← r; Some (ts ← r; Ok (nts, ts, rest))).
Proof. intros Hw Hl. by apply falls_reduced, measure_pop. Qed.

Lemma continue_read nt new nts ts tokens rest :
  weights new <= weight nt + 23 -> length rest < length tokens ->
  falls (measure (nt :: nts) tokens) (Some (Ok (new ++ nts, ts, rest))).
Proof. intros Hw Hl. by apply falls_continue, measure_read. Qed.

Lemma and_v_falls nts ts tokens :
  falls (measure (NonTerm.AndV :: nts) tokens) (decode_step ctx NonTerm.AndV nts ts tokens).
Proof.
  cbn [decode_step]. destruct (is_and_v tokens) eqn:Ea;
    [apply falls_continue | apply falls_reduced]; unfold measure, phase; rewrite Ea; cbn [app]; rewrite !weights_cons; cbn [weight]; lia.
Qed.

Lemma maybe_and_v_falls nts ts tokens :
  falls (measure (NonTerm.MaybeAndV :: nts) tokens) (decode_step ctx NonTerm.MaybeAndV nts ts tokens).
Proof.
  cbn [decode_step]. destruct (is_and_v tokens) eqn:Ea; apply falls_continue;
    unfold measure, phase; rewrite Ea; cbn [app]; rewrite !weights_cons; cbn [weight]; lia.
Qed.

Lemma inscribed_falls nt (f : list Inscription -> list Token -> _) nts tokens :
  (forall i rest, length rest < length tokens -> falls (measure (nt :: nts) tokens) (f i rest)) ->
  starts_inscription tokens = true ->
  falls (measure (nt :: nts) tokens)
    match take_inscriptions tokens with Ok (i, rest) => f i rest | Err e => Some (Err e) end.
Proof.
  intros H Hs. destruct (take_inscriptions tokens) as [[i rest]|e] eqn:Ht; [|done].
  apply take_inscriptions_length in Ht as [_ Hl]. by apply H, Hl.
Qed.

Lemma w_expression_falls nts ts tokens :
  falls (measure (NonTerm.WExpression :: nts) tokens) (decode_step ctx NonTerm.WExpression nts ts tokens).
Proof.
  cbn [decode_step]. destruct (starts_inscription tokens) eqn:Hs.
  { refine (inscribed_falls _ (fun i rest => _) _ _ _ Hs). intros i rest Hl.
    apply continue_read; [cbn; lia | done]. }
  assert (falls (measure (NonTerm.WExpression :: nts) tokens)
    (Some (Ok ([NonTerm.Expression; NonTerm.MaybeAndV; NonTerm.Swap; NonTerm.InscribePre] ++ nts, ts, tokens))))
    as Hswap.
  { apply falls_continue. apply (measure_unfold _ [NonTerm.MaybeAndV; NonTerm.Swap; NonTerm.InscribePre]).
    cbn. lia. }
  destruct tokens as [|[] tokens]; try exact Hswap; [apply falls_error|].
  apply continue_read; [cbn; lia | simpl; lia].
Qed.

Lemma thresh_w_falls k n nts ts tokens :
  falls (measure (NonTerm.ThreshW k n :: nts) tokens) (decode_step ctx (NonTerm.ThreshW k n) nts ts tokens).
Proof.
  cbn [decode_step].
  assert (falls (measure (NonTerm.ThreshW k n :: nts) tokens)
    (Some (Ok ([NonTerm.Expression; NonTerm.ThreshE k (n + 1)] ++ nts, ts, tokens)))) as He.
  { apply falls_continue, (measure_unfold _ [NonTerm.ThreshE k (n + 1)]). cbn. lia. }
  destruct tokens as [|[] tokens]; try exact He; [apply falls_error|].
  apply continue_read; [cbn; lia | simpl; lia].
Qed.

Lemma end_if_falls nts ts tokens :
  falls (measure (NonTerm.EndIf :: nts) tokens) (decode_step ctx NonTerm.EndIf nts ts tokens).
Proof.
  cbn [decode_step]. destruct tokens as [|[] tokens]; try apply falls_error.
  - destruct tokens as [|[] tokens]; try apply falls_error.
    + apply continue_read; [cbn; lia | simpl; lia].
    + destruct tokens as [|[] tokens]; try apply falls_error.
      apply continue_read; [cbn; lia | simpl; lia].
  - apply continue_read; [cbn; lia | simpl; lia].
  - apply continue_read; [cbn; lia | simpl; lia].
Qed.

Lemma end_if_not_if_falls nts ts tokens :
  falls (measure (NonTerm.EndIfNotIf :: nts) tokens) (decode_step ctx NonTerm.EndIfNotIf nts ts tokens).
Proof.
  cbn [decode_step].
  assert (falls (measure (NonTerm.EndIfNotIf :: nts) tokens)
    (Some (Ok ([NonTerm.Expression; NonTerm.OrC] ++ nts, ts, tokens)))) as He.
  { apply falls_continue, (measure_unfold _ [NonTerm.OrC]). cbn. lia. }
  destruct tokens as [|[] tokens]; try exact He; [apply falls_error|].
  apply continue_read; [cbn; lia | simpl; lia].
Qed.

Lemma turn_falls nt nts ts tokens :
  falls (measure (nt :: nts) tokens) (decode_step ctx nt nts ts tokens).
Proof.
  destruct nt; try (apply reduced_pop; [cbn; lia | done]).
  1: { cbn [decode_step]. destruct (expression ctx tokens) as [[[new ms] rest]|e] eqn:He; [|done].
       apply expression_shrinks in He as [Hl Hw].
       apply (continue_read NonTerm.Expression (new ++ [NonTerm.InscribePre]) nts) with (ts := ms ++ ts) in Hl.
       - cbn. by rewrite <- app_assoc in Hl.
       - rewrite weights_app. cbn. lia. }
  1: apply w_expression_falls.
  2: apply maybe_and_v_falls.
  4: apply and_v_falls.
  5: apply thresh_w_falls.
  6: apply end_if_falls.
  6: apply end_if_not_if_falls.
  all: cbn [decode_step].
  - destruct tokens as [|[] tokens]; try apply falls_error. apply reduced_pop; [cbn; lia | simpl; lia].
  - destruct (starts_inscription tokens) eqn:Hs; [|apply falls_continue, measure_pop; [cbn; lia | done]].
    refine (inscribed_falls _ (fun i rest => _) _ _ _ Hs). intros i rest Hl.
    apply reduced_pop; [cbn; lia | lia].
  - destruct tokens as [|[] tokens]; try apply falls_error. apply reduced_pop; [cbn; lia | simpl; lia].
  - destruct ts as [|x [|y [|z ts]]]; try done. apply reduced_pop; [cbn; lia | done].
  - destruct (pop_subs n ts) as [[subs ts']|]; [|done]. cbn [mbind option_bind].
    destruct (Threshold.new 0 k subs); [|done]. apply reduced_pop; [cbn; lia | done].
  - destruct tokens as [|[] tokens]; try apply falls_error.
    + apply reduced_pop; [cbn; lia | simpl; lia].
    + apply continue_read; [cbn; lia | simpl; lia].
Qed.

(** ** The contract *)

Context {LT : LockTimeLaws B} {BL : BuilderLaws B} {SZ : SizeLaws B} {KL : KeyLaws TP} {SL : ScriptLaws Sc} {HL : HashLaws Sc}.
Context {PL : ParseableLaws TP ctx}.

(** With enough fuel the loop returns. *)
Lemma loop_total fuel nts ts toks c :
  Forall token_valid toks -> Forall (built ctx) ts -> means ctx nts ts c ->
  measure nts toks < fuel -> is_Some (decode_loop ctx fuel nts ts toks).
Proof.
  revert nts ts toks c. induction fuel as [|fuel IH]; intros nts ts toks c Hv Hts H Hf; [lia|].
  destruct nts as [|nt nts]; cbn [decode_loop].
  { cbn in H. destruct ts as [|t [|]]; [done | eauto | done]. }
  pose proof (turn_spec ctx nt toks c nts ts Hv Hts H) as Hturn.
  pose proof (turn_falls nt nts ts toks) as Hfall.
  destruct (decode_step ctx nt nts ts toks) as [[[[nts' ts'] toks']|e]|]; cbn; [|eauto|done].
  destruct Hturn as (used & -> & Hts' & Hm). unfold falls in Hfall.
  eapply IH; [| done | exact Hm | lia]. by apply list.Forall_app in Hv as [_ ?].
Qed.

Lemma decode_sound toks :
  Forall token_valid toks ->
  exists r, decode ctx toks = Some r
    /\ forall ms rest, r = Ok (ms, rest) ->
         built ctx ms /\ exists used, toks = used ++ rest /\ split_tokens used = tokens ctx ms.
Proof.
  intros Hv. unfold decode. pose proof (means_start ctx) as Hm.
  destruct (loop_total (decode_fuel toks) _ [] toks [] Hv (List.Forall_nil _) Hm) as [r Hr].
  { pose proof (phase_le [NonTerm.Expression; NonTerm.MaybeAndV] toks). unfold measure, decode_fuel.
    change (weights [NonTerm.Expression; NonTerm.MaybeAndV]) with 1. lia. }
  exists r. split; [done|]. intros ms rest ->.
  apply (loop_sound ctx _ _ [] toks []) in Hr as (used & -> & Hwf & Hs); [|done | constructor | done].
  by eauto.
Qed.

Lemma decode_with_ext_total script params :
  exists r, decode_with_ext ctx script params = Some r
    /\ forall ms, r = Ok ms ->
         built ctx ms /\ c_base (corr (ty ms)) = BaseB
         /\ check_global_validity ctx ms = Ok tt /\ ext_check ctx ms params = Ok tt
         /\ exists toks, lex script = Some (Ok toks) /\ split_tokens (rev toks) = tokens ctx ms.
Proof.
  unfold decode_with_ext. pose proof (lex_total script) as Hlex.
  destruct (lex script) as [[toks|e]|]; cbn [mbind option_bind]; [|by eexists|done]. cbn in Hlex.
  destruct (decode_sound (rev toks)) as (r & Hd & H); [by apply Forall_rev|].
  change (decode ctx (rev toks) = Some r) in Hd. rewrite Hd. cbn [mbind option_bind].
  eexists. split; [done|]. intros ms.
  intros ([top iter] & Hr & (u & Hg%map_err_Ok_inv & (ty' & Hty%map_err_Ok_inv & Hrest)%bind_Ok_inv)%bind_Ok_inv)%bind_Ok_inv.
  destruct u. destruct (negb _) eqn:Hb; [done|]. apply negb_false_iff, bool_decide_eq_true_1 in Hb.
  destruct iter as [|]; [|done]. apply bind_Ok_inv in Hrest as ([] & He%map_err_Ok_inv & [= <-]).
  destruct (H _ _ Hr) as (Hb' & used & Hu & Hs). pose proof Hb' as [Hwf _]. rewrite app_nil_r in Hu. subst used.
  destruct (wf_inv _ _ Hwf) as (_ & _ & Ht & _). rewrite Hty in Ht. injection Ht as ->.
  split_and!; try done. eauto.
Qed.

(** C6: [decode_with_ext] returns for every script: the lexer never indexes past the script,
    the loop of the decoder ends and never pops an empty stack. A Miniscript that it returns
    is well typed, of type B, within the recursion limit, passes the checks of its context and those that were asked
    for, and its tokens are exactly those of the script; every other script is an error. *)
Theorem decode_with_ext_spec script params :
  exists r, decode_with_ext ctx script params = Some r
    /\ forall ms, r = Ok ms ->
         built ctx ms /\ c_base (corr (ty ms)) = BaseB
         /\ check_global_validity ctx ms = Ok tt /\ ext_check ctx ms params = Ok tt
         /\ exists toks, lex script = Some (Ok toks) /\ split_tokens (rev toks) = tokens ctx ms.
Proof. apply decode_with_ext_total. Qed.
End Total.

(** * Keys of the reference instance parsed from scripts, and scripts that are decoded. *)
From S2P Require Import Samples.

#[export] Instance reference_parseable : ParseableKey (B := reference) (K := reference_key) :=
  PublicKey_parseable (Pa := reference_parsing).

#[export] Instance reference_parseable_laws : ParseableLaws reference_to_public_key Segwitv0.
Proof. apply (PublicKey_parseable_laws (Pa := reference_parsing) Segwitv0). done. Qed.

(** The script of [and_v(v:pk(A), older(144))]-like trees, read back. *)
Definition vault_script : bytes :=
  into_script (encode (K := reference_key) (TP := reference_to_public_key) Segwitv0
    (sample_vault Segwitv0) Builder_new).

Lemma decode_with_ext_spec_witness :
  (exists r, decode_with_ext Segwitv0 vault_script sane = Some r
    /\ forall ms, r = Ok ms ->
         built Segwitv0 ms /\ c_base (corr (ty ms)) = BaseB
         /\ check_global_validity Segwitv0 ms = Ok tt /\ ext_check Segwitv0 ms sane = Ok tt
         /\ exists toks, lex vault_script = Some (Ok toks)
              /\ split_tokens (rev toks) = tokens Segwitv0 ms)
  /\ decode_with_ext Segwitv0 vault_script sane = Some (Ok (sample_vault Segwitv0)).
Proof.
  split; [|vm_cast_no_check (eq_refl (Some (Ok (E := DecodeError) (sample_vault Segwitv0))))].
  apply (decode_with_ext_spec (K := reference_key) (TP := reference_to_public_key) Segwitv0
    vault_script sane).
Defined.

(** X-only keys of the reference instance, for Tapscript. *)
Definition tap_parseable : ParseableKey (B := reference) (K := reference_key) := {|
  KeyError := ();
  from_slice b :=
    match b with
    | x :: _ => if bool_decide (Reference.pad 32 [x] = b) then Ok (true, x) else Err ()
    | [] => Err ()
    end;
  of_sha256 h := h;
  of_hash256 h := h;
  of_ripemd160 h := h;
  of_hash160 h := h;
|}.

(** [and_v(v:multi_a(1,A,B),pk(C))] *)
Definition sample_multi_a : Miniscript :=
  build Tap (Terminal.AndV
    (build Tap (Terminal.Verify (build Tap (Terminal.MultiA (mkThreshold 1 [keyA; keyB])))))
    (sample_pk Tap keyC)).

(** Its script, up to the number of keys, and from the last key on. *)
Definition multi_a_head : bytes :=
  Byte.x20 :: Reference.pad 32 [Byte.x0a] ++ Byte.xac :: Byte.x20 :: Reference.pad 32 [Byte.x0b]
  ++ [Byte.xba; Byte.x51].
Definition multi_a_tail : bytes := Byte.x20 :: Reference.pad 32 [Byte.x0c] ++ [Byte.xac].

(** The lexer's check for a [VERIFY] that should be merged into the opcode before it
    leaves out [NUMEQUAL]. A script with [NUMEQUAL VERIFY] is accepted and decoded, in
    Tapscript with all the checks of [decode], into the same Miniscript as the script with
    [NUMEQUALVERIFY], which alone is its encoding; with [EQUAL VERIFY] the same lexer reports
    an error. *)
Theorem num_equal_verify_accepted :
  decode_with_ext (PK := tap_parseable) Tap (multi_a_head ++ [Byte.x9d] ++ multi_a_tail) sane
    = Some (Ok sample_multi_a)
  /\ decode_with_ext (PK := tap_parseable) Tap (multi_a_head ++ [Byte.x9c; Byte.x69] ++ multi_a_tail) sane
    = Some (Ok sample_multi_a)
  /\ into_script (encode (K := reference_key) Tap sample_multi_a Builder_new)
    = multi_a_head ++ [Byte.x9d] ++ multi_a_tail
  /\ lex [Byte.x87; Byte.x69] = Some (Err (NonMinimalVerify Token.Equal)).
Proof.
  split; [vm_cast_no_check (eq_refl (Some (Ok (E := DecodeError (PK := tap_parseable)) sample_multi_a)))|].
  split; [vm_cast_no_check (eq_refl (Some (Ok (E := DecodeError (PK := tap_parseable)) sample_multi_a)))|].
  split; [vm_cast_no_check (eq_refl (multi_a_head ++ [Byte.x9d] ++ multi_a_tail)) | reflexivity].
Qed.
