(* ===== verification/LexEncode.v ===== *)
(** The lexer reads an encoded Miniscript back as its tokens. *)
From S2P Require Import Prelude Bitcoin Primitives Reference Ord Script Envelope Lex Correctness Malleability Types ExtData Tree Ast Context Samples Views Encode Tokens.

Section LexEncode.
Context {B : Bitcoin} {Sc : Scripts} {K : MiniscriptKey} {TP : ToPublicKey K}.
Context {LT : LockTimeLaws B} {BL : BuilderLaws B} {SZ : SizeLaws B} {KL : KeyLaws TP} {SL : ScriptLaws Sc}.

(** ** Builder transformers and their tokens

    [writes p f toks]: [f] appends instructions that the lexer turns into [toks], after
    tokens that satisfy [p]. *)
Definition writes (p : list Token -> Prop) (f : Builder -> Builder) (toks : list Token) : Prop :=
  exists l, emits f l /\ forall ret, p ret -> lexes l ret (toks ++ ret).

(** The same with a [push_verify] behind. *)
Definition writes_verify (p : list Token -> Prop) (f : Builder -> Builder) (toks : list Token) : Prop :=
  writes p f toks /\ writes p (fun b => push_verify (f b)) (Token.Verify :: toks).

Lemma writes_ext p f g toks : (forall b, g b = f b) -> writes p f toks -> writes p g toks.
Proof.
  intros He (l & [Hr Hf] & Hl). exists l. split; [|done]. split; [done|]. intros b. by rewrite He.
Qed.

Lemma writes_weaken p q f toks : (forall ret, q ret -> p ret) -> writes p f toks -> writes q f toks.
Proof. intros H (l & Hf & Hl). exists l. auto. Qed.

Lemma writes_id p : writes p (fun b => b) [].
Proof. exists []. split; [apply emits_id|]. intros ret _. apply lexes_nil. Qed.

Lemma writes_comp p q f g t t' :
  writes p f t -> writes q g t' -> (forall ret, p ret -> q (t ++ ret)) ->
  writes p (fun b => g (f b)) (t' ++ t).
Proof.
  intros (l & Hf & Hl) (l' & Hg & Hl') Hpq. exists (l ++ l'). split; [by apply (emits_comp f)|].
  intros ret Hp. rewrite <- app_assoc. eapply lexes_app; [by apply Hl | by apply Hl', Hpq].
Qed.

(** One instruction behind. *)
Lemma writes_one p f g t t' i :
  writes p f t -> emits g [i] -> (forall ret, p ret -> lex_one i (t ++ ret) = Some (t' ++ t ++ ret)) ->
  writes p (fun b => g (f b)) (t' ++ t).
Proof.
  intros Hf Hg Hl. apply (writes_comp p (fun ret => lex_one i ret = Some (t' ++ ret)) f g); [done | | done].
  exists [i]. split; [done|]. intros ret Hret. apply lexes_one; [|done].
  destruct Hg as [Hr _]. by apply Forall_cons_1 in Hr as [? _].
Qed.

Definition plain (o : Opcode) : bool :=
  match o with OP_FALSE | OP_IF | OP_VERIFY => false | _ => true end.

Lemma emits_op o : o <> OP_FALSE -> emits (fun b => push_opcode b o) [Op (Named o)].
Proof. intros H. by apply (emits_opcode (fun b => b) []), emits_id. Qed.

Lemma writes_op p f t o :
  plain o = true -> writes p f t -> writes p (fun b => push_opcode (f b) o) (op_tokens o ++ t).
Proof.
  intros Ho Hf. apply (writes_one p f (fun b => push_opcode b o) t (op_tokens o) (Op (Named o))); [done | |].
  - apply emits_op. by intros ->.
  - intros ret _. by destruct o.
Qed.

Definition no_zero (ret : list Token) : Prop := match ret with Token.Num 0 :: _ => False | _ => True end.

Lemma writes_if p f t :
  (forall ret, p ret -> no_zero (t ++ ret)) ->
  writes p f t -> writes p (fun b => push_opcode (f b) OP_IF) (Token.If :: t).
Proof.
  intros Hz Hf. apply (writes_one p f (fun b => push_opcode b OP_IF) t [Token.If] (Op (Named OP_IF))); [done | |].
  - by apply emits_op.
  - intros ret Hp. specialize (Hz _ Hp). cbn [lex_one app].
    destruct (t ++ ret) as [|[] ?]; try done. by destruct n.
Qed.

(** Tokens behind which the lexer allows a [VERIFY]. *)
Definition no_verify_form (t : list Token) : Prop :=
  match t with
  | [] | Token.Equal :: _ | Token.CheckSig :: _ | Token.CheckMultiSig :: _ => False
  | _ => True
  end.

Lemma writes_op_verify p f t :
  no_verify_form t -> writes p f t -> writes p (fun b => push_opcode (f b) OP_VERIFY) (Token.Verify :: t).
Proof.
  intros Hn Hf.
  apply (writes_one p f (fun b => push_opcode b OP_VERIFY) t [Token.Verify] (Op (Named OP_VERIFY))); [done | |].
  - by apply emits_op.
  - intros ret _. destruct t as [|[] t]; done.
Qed.

(** An opcode behind, with its [VERIFY] form. *)
Lemma writes_verify_op p f t o :
  plain o = true -> writes p f t ->
  writes_verify p (fun b => push_opcode (f b) o) (op_tokens o ++ t).
Proof.
  intros Ho Hf. split; [by apply writes_op|]. destruct (verify_opcode o) as [o'|] eqn:E.
  - apply (writes_ext _ (fun b => push_opcode (f b) o')); [intros b; by apply push_verify_merge|].
    assert (op_tokens o' = Token.Verify :: op_tokens o /\ plain o' = true) as [Ht Ho'].
    { by destruct o; try discriminate E; injection E as <-. }
    change (Token.Verify :: op_tokens o ++ t) with ((Token.Verify :: op_tokens o) ++ t).
    rewrite <- Ht. by apply writes_op.
  - apply (writes_ext _ (fun b => push_opcode (push_opcode (f b) o) OP_VERIFY));
      [intros b; by apply push_verify_opcode|].
    apply writes_op_verify; [by destruct o | by apply writes_op].
Qed.

Lemma lex_data b : length b = 20 \/ length b = 32 \/ length b = 33 \/ length b = 65 ->
  forall ret, lex_one (PushBytes b) ret = Some (data_token b :: ret).
Proof.
  intros H ret. cbn [lex_one]. destruct b as [|x [|y b]]; [simpl in H; lia..|].
  unfold push_token, data_token. by destruct H as [H|[H|[H|H]]]; rewrite H.
Qed.

Lemma writes_slice p f t b :
  length b = 20 \/ length b = 32 \/ length b = 33 \/ length b = 65 ->
  writes p f t -> writes_verify p (fun bd => push_slice (f bd) b) (data_token b :: t).
Proof.
  intros Hb Hf. assert (writes p (fun bd => push_slice (f bd) b) (data_token b :: t)) as H.
  { apply (writes_one p f (fun bd => push_slice bd b) t [data_token b] (PushBytes b)); [done | |].
    - apply (emits_slice (fun b => b) []); [lia | apply emits_id].
    - intros ret _. by apply lex_data. }
  split; [done|]. apply (writes_ext _ (fun bd => push_opcode (push_slice (f bd) b) OP_VERIFY));
    [intros bd; apply push_verify_slice|].
  apply writes_op_verify; [|done]. unfold data_token, no_verify_form. by repeat case_match.
Qed.

Lemma lex_int n ret : (0 <= n < 2 ^ 31)%Z ->
  lex_one (int_instruction n) ret = Some (Token.Num (Z.to_N n) :: ret).
Proof.
  intros Hn. unfold int_instruction. destruct (Z.eqb_spec n 1) as [->|H1]; [done|].
  destruct ((n =? -1)%Z || (2 <=? n)%Z && (n <=? 16)%Z) eqn:E.
  { cbn [lex_one]. rewrite (proj2 (Z.leb_le 1 n)), (proj2 (Z.leb_le n 16)) by (bool_hyps; lia). done. }
  cbn [lex_one]. pose proof (scriptint_length n Hn) as Hl. pose proof (scriptint_roundtrip n Hn) as Hr.
  destruct (match write_scriptint n with [b] => _ | _ => _ end) eqn:Eb.
  - exfalso. destruct (write_scriptint n) as [|b [|? ?]]; [done | | done].
    destruct (scriptint_byte b) as [Hb|[e Hb]]; rewrite Hr in Hb; [|done]. injection Hb as Hb.
    apply orb_true_iff in Eb as [->%bool_decide_eq_true_1|Eb]; [simpl in Hb; lia|].
    apply andb_true_iff in Eb as [Eb1%N.leb_le Eb2%N.leb_le].
    destruct (N.ltb_spec (Byte.to_N b) 128); bool_hyps; lia.
  - unfold push_token. rewrite Hr, !(proj2 (Nat.eqb_neq _ _)) by lia.
    rewrite (proj2 (Z.leb_le 0 n)), Z.mod_small by lia. done.
Qed.

Lemma writes_int p f t n :
  (0 <= n < 2 ^ 31)%Z -> writes p f t ->
  writes p (fun b => push_int (f b) n) (Token.Num (Z.to_N n) :: t).
Proof.
  intros Hn Hf.
  apply (writes_one p f (fun b => push_int b n) t [Token.Num (Z.to_N n)] (int_instruction n)); [done | |].
  - by apply (emits_int (fun b => b) []), emits_id.
  - intros ret _. by apply lex_int.
Qed.

Lemma writes_num p f t n :
  (n < 2 ^ 31)%N -> writes p f t -> writes p (fun b => push_int (f b) (Z.of_N n)) (Token.Num n :: t).
Proof.
  intros Hn Hf. pose proof (writes_int p f t (Z.of_N n)) as H. rewrite N2Z.id in H. apply H; [lia | done].
Qed.

Lemma writes_nat p f t n :
  (N.of_nat n < 2 ^ 31)%N -> writes p f t ->
  writes p (fun b => push_int (f b) (Z.of_nat n)) (Token.Num (N.of_nat n) :: t).
Proof. intros Hn Hf. rewrite <- nat_N_Z. by apply writes_num. Qed.

(** The first item of a list and the others, each with an opcode behind. *)
Lemma writes_fold {A} p (g : Builder -> A -> Builder) (toks : A -> list Token) f t l :
  writes p f t ->
  Forall (fun a => forall f t, writes p f t -> writes p (fun b => g (f b) a) (toks a ++ t)) l ->
  writes p (fun b => fold_left g l (f b)) (concat (map toks (rev l)) ++ t).
Proof.
  intros Hf H. revert f t Hf. induction H as [|a l Ha _ IH]; intros f t Hf; [exact Hf|].
  cbn [fold_left rev]. rewrite map_app, concat_app. cbn [map concat]. rewrite app_nil_r, <- app_assoc.
  apply (IH (fun b => g (f b) a)). by apply Ha.
Qed.

Context (ctx : ScriptContext).

Lemma writes_hash p op opcode b :
  length b = 20 \/ length b = 32 -> op_tokens opcode = [op] -> plain opcode = true ->
  writes_verify p (fun bd => push_hash bd opcode b) (hash_tokens op b).
Proof.
  intros Hb Hop Hp. unfold push_hash, hash_tokens.
  apply (writes_verify_op _ _ [_; op; Token.Verify; Token.Equal; Token.Num 32; Token.Size] OP_EQUAL); [done|].
  apply (writes_slice _ _ [op; Token.Verify; Token.Equal; Token.Num 32; Token.Size]); [lia|].
  change (op :: ?t) with ([op] ++ t). rewrite <- Hop.
  apply writes_op; [done|]. apply (writes_op _ _ [Token.Num 32; Token.Size] OP_EQUALVERIFY); [done|].
  apply (writes_num _ _ [Token.Size] 32); [done|]. apply (writes_op _ _ [] OP_SIZE); [done | apply writes_id].
Qed.

Lemma writes_pkh p b :
  length b = 20 ->
  writes_verify p
    (fun bd => push_opcode (push_slice (push_opcode (push_opcode bd OP_DUP) OP_HASH160) b) OP_EQUALVERIFY)
    (pkh_tokens b).
Proof.
  intros Hb. apply (writes_verify_op _ _ [_; Token.Hash160; Token.Dup] OP_EQUALVERIFY); [done|].
  apply (writes_slice _ _ [Token.Hash160; Token.Dup]); [lia|].
  apply (writes_op _ _ [Token.Dup] OP_HASH160); [done|].
  apply (writes_op _ _ [] OP_DUP); [done | apply writes_id].
Qed.

Lemma key_bytes_size pk :
  length (key_bytes ctx pk) = 32 \/ length (key_bytes ctx pk) = 33 \/ length (key_bytes ctx pk) = 65.
Proof.
  unfold key_bytes, full_key_bytes. destruct (sig_type ctx).
  - rewrite PublicKey_size. destruct (PublicKey_compressed _); auto.
  - left. apply XOnlyPublicKey_size.
Qed.

Lemma push_ms_key_bytes b pk : push_ms_key ctx b pk = push_slice b (key_bytes ctx pk).
Proof. unfold push_ms_key, key_bytes, full_key_bytes. destruct (sig_type ctx); [apply push_key_slice | done]. Qed.

Lemma writes_key p f t pk :
  writes p f t -> writes_verify p (fun b => push_ms_key ctx (f b) pk) (data_token (key_bytes ctx pk) :: t).
Proof.
  intros Hf. pose proof (key_bytes_size pk) as Hk.
  destruct (writes_slice p f t (key_bytes ctx pk)) as [H1 H2]; [tauto | done |].
  split; (eapply writes_ext; [|eassumption]); intros b; by rewrite push_ms_key_bytes.
Qed.

Lemma key_hash_size pk : length (key_hash_bytes ctx pk) = 20.
Proof. unfold key_hash_bytes. destruct (sig_type ctx); [apply PublicKey_hash_size | apply PubkeyHash_size]. Qed.

Lemma push_ms_key_hash_bytes b pk : push_ms_key_hash ctx b pk = push_slice b (key_hash_bytes ctx pk).
Proof. unfold push_ms_key_hash, key_hash_bytes. by destruct (sig_type ctx). Qed.

(** ** Inscriptions *)

Lemma lexes_inscriptions l ret :
  Forall (fun i => validate i = true) l ->
  lexes (flat_map envelope_items l) ret (inscription_tokens l ++ ret).
Proof.
  intros H. revert ret. induction H as [|i l Hi _ IH]; intros ret; [apply lexes_nil|].
  cbn [flat_map]. unfold inscription_tokens in *. cbn [rev]. rewrite map_app, <- app_assoc.
  eapply lexes_app; [|apply IH]. apply lexes_envelope. apply emits_envelope. exact Hi.
Qed.

Lemma writes_inscriptions p f t l :
  Forall (fun i => validate i = true) l -> writes p f t ->
  writes p (fun b => push_inscriptions (f b) l) (inscription_tokens l ++ t).
Proof.
  intros Hl Hf. apply (writes_comp p (fun _ => True) f (fun b => push_inscriptions b l)); [done | | done].
  exists (flat_map envelope_items l). split; [by apply emits_reveal|].
  intros ret _. by apply lexes_inscriptions.
Qed.

Lemma push_verify_ends b : ends false b -> push_verify b = push_opcode b OP_VERIFY.
Proof.
  intros [(b' & o & -> & Ho)|(_ & b' & s & ->)]; [|apply push_verify_slice].
  apply push_verify_opcode. symmetry in Ho. apply bool_decide_eq_false_1 in Ho. by apply eq_None_not_Some.
Qed.

(** Envelopes behind have no [VERIFY] form. *)
Lemma writes_verify_inscriptions p f t l :
  l <> [] -> Forall (fun i => validate i = true) l -> writes p f t ->
  writes_verify p (fun b => push_inscriptions (f b) l) (inscription_tokens l ++ t).
Proof.
  intros Hne Hl Hf. pose proof (writes_inscriptions p f t l Hl Hf) as H. split; [done|].
  apply (writes_ext _ (fun b => push_opcode (push_inscriptions (f b) l) OP_VERIFY)).
  - intros b. by apply push_verify_ends, ends_inscriptions.
  - apply writes_op_verify; [|done]. destruct (exists_last Hne) as (l' & i & ->).
    unfold inscription_tokens. by rewrite rev_app_distr.
Qed.

(** ** Nodes *)

(** Where a Miniscript may be lexed: not behind a zero, with which an [IF] would open an
    envelope, unless it begins with an opcode of its own. *)
Definition first_ok (ms : Miniscript) (ret : list Token) : Prop := base_of ms = BaseW \/ no_zero ret.

Definition written (ms : Miniscript) : Prop :=
  writes_verify (first_ok ms) (encode ctx ms) (tokens ctx ms).

Lemma written_behind p f t sub :
  written sub -> writes p f t -> (forall ret, p ret -> first_ok sub (t ++ ret)) ->
  writes_verify p (fun b => encode ctx sub (f b)) (tokens ctx sub ++ t).
Proof.
  intros [H1 H2] Hf Hp. split.
  - by apply (writes_comp p (first_ok sub) f (encode ctx sub)).
  - by apply (writes_comp p (first_ok sub) f (fun b => push_verify (encode ctx sub b)) t (_ :: _)).
Qed.

Lemma written_op p sub t f o :
  plain o = true -> written sub -> writes p f t -> (forall ret, p ret -> first_ok sub (t ++ ret)) ->
  writes_verify p (fun b => push_opcode (encode ctx sub (f b)) o) (op_tokens o ++ tokens ctx sub ++ t).
Proof.
  intros Ho Hs Hf Hp. apply (writes_verify_op p (fun b => encode ctx sub (f b))); [done|].
  by apply written_behind.
Qed.

Lemma written_first p sub :
  written sub -> (forall ret, p ret -> first_ok sub ret) ->
  writes p (encode ctx sub) (tokens ctx sub).
Proof. intros [H _] Hp. by eapply writes_weaken. Qed.

Lemma written_op_first p sub o :
  plain o = true -> written sub -> (forall ret, p ret -> first_ok sub ret) ->
  writes_verify p (fun b => push_opcode (encode ctx sub b) o) (op_tokens o ++ tokens ctx sub).
Proof. intros Ho Hs Hp. apply writes_verify_op; [done | by apply written_first]. Qed.

(** A token that is not a zero ends what comes before. *)
Definition settled (t : list Token) : Prop :=
  match t with [] | Token.Num 0 :: _ => False | _ => True end.

Lemma settled_no_zero t ret : settled t -> no_zero (t ++ ret).
Proof. by destruct t as [|[] t]. Qed.

Lemma first_settled sub t ret : settled t -> first_ok sub (t ++ ret).
Proof. intros H. right. by apply settled_no_zero. Qed.

Lemma settled_app t t' : settled t -> settled (t ++ t').
Proof. by destruct t as [|[] t]. Qed.

(** The typing rules check inscriptions. *)
Lemma typed_inscriptions i sub t :
  type_check (Terminal.InscribePre i sub) = Ok t \/ type_check (Terminal.InscribePost i sub) = Ok t ->
  i <> [] /\ Forall (fun x => validate x = true) i.
Proof.
  intros H. cbn [type_check] in H.
  destruct (is_empty i || existsb (fun x => negb (validate x)) i) eqn:E; [by destruct H|].
  apply orb_false_iff in E as [Ei Ex]. split; [by destruct i|]. clear H Ei.
  induction i as [|x i IH]; [constructor|]. cbn [existsb] in Ex. apply orb_false_iff in Ex as [Hx Hi].
  constructor; [by apply negb_false_iff|auto].
Qed.

Lemma settled_inscriptions i t : i <> [] -> settled (inscription_tokens i ++ t).
Proof.
  intros Hne. destruct (exists_last Hne) as (l & x & ->). unfold inscription_tokens.
  by rewrite rev_app_distr.
Qed.

(** A script of type V ends with a verification, with an [ENDIF], or with an envelope. *)
Lemma v_settled ms : wf ctx ms -> base_of ms = BaseV -> settled (tokens ctx ms).
Proof.
  revert ms. refine (wf_tree_ind ctx _ _). intros [nd t e] Hwf _ IH Hb. rewrite children_node in IH.
  destruct (wf_view ctx _ _ _ Hwf) as (Hw & Hv & Hview). unfold base_of, corr_of in *. cbn [ty node] in *.
  destruct nd; forall_children IH; cbn [corr_view] in Hview; cbn [tokens]; unfold base_of, corr_of in Hview;
    try (rewrite Hview in Hb; discriminate Hb); try exact I;
    try (destruct_and? Hview; congruence).
  - apply settled_app, Hc. congruence.
  - apply settled_inscriptions. apply wf_inv in Hwf as (_ & _ & Ht & _).
    by destruct (typed_inscriptions i sub t (or_intror Ht)).
  - apply settled_app. destruct_and? Hview. apply Hc0. congruence.
Qed.

Lemma first_v l r ret : wf ctx l -> base_of l = BaseV -> first_ok r (tokens ctx l ++ ret).
Proof. intros Hl Hb. by apply first_settled, v_settled. Qed.

Lemma first_w ms ret : base_of ms = BaseW -> first_ok ms ret.
Proof. by left. Qed.

(** A list of W expressions behind a first one, each with an [ADD]. *)
Lemma written_thresh p first rest :
  written first -> Forall written rest -> (forall ret, p ret -> first_ok first ret) ->
  Forall (fun ms => base_of ms = BaseW) rest ->
  writes p (fun b => fold_left (fun b sub => push_opcode (encode ctx sub b) OP_ADD) rest (encode ctx first b))
    (thresh_tokens (map (tokens ctx) (first :: rest))).
Proof.
  intros [Hf _] Hr Hp Hb. cbn [map thresh_tokens]. rewrite <- map_rev, map_map.
  apply (writes_fold p (fun b sub => push_opcode (encode ctx sub b) OP_ADD)
    (fun sub => Token.Add :: tokens ctx sub)); [by eapply writes_weaken|].
  apply List.Forall_forall. intros sub Hin f t Ht.
  rewrite List.Forall_forall in Hr, Hb. cbn [app].
  destruct (written_op p sub t f OP_ADD eq_refl (Hr _ Hin) Ht) as [H _]; [|exact H].
  intros ret _. by apply first_w, Hb.
Qed.

Lemma writes_keys p f t pks :
  writes p f t ->
  writes p (fun b => fold_left (fun b pk => push_key b (to_public_key pk)) pks (f b))
    (map (fun pk => data_token (full_key_bytes pk)) (rev pks) ++ t).
Proof.
  intros Hf. pose proof (writes_fold p (fun b pk => push_key b (to_public_key pk))
    (fun pk => [data_token (full_key_bytes pk)]) f t pks Hf) as H.
  assert (forall l : list Pk, concat (map (fun pk => [data_token (full_key_bytes pk)]) l)
    = map (fun pk => data_token (full_key_bytes pk)) l) as Hc.
  { induction l as [|pk l IH]; [done|]. cbn [map concat app]. by rewrite IH. }
  rewrite Hc in H. apply H. apply List.Forall_forall. intros pk _ g u Hg. cbn [app].
  apply (writes_ext _ (fun b => push_slice (g b) (full_key_bytes pk))); [intros b; apply push_key_slice|].
  apply writes_slice; [|done]. unfold full_key_bytes. rewrite PublicKey_size.
  destruct (PublicKey_compressed _); lia.
Qed.

Lemma writes_checksigadds p pk pks :
  writes p (fun b => fold_left (fun b pk => push_opcode (push_ms_key ctx b pk) OP_CHECKSIGADD) pks
              (push_opcode (push_ms_key ctx b pk) OP_CHECKSIG))
    (multi_a_tokens ctx (pk :: pks)).
Proof.
  cbn [multi_a_tokens].
  apply (writes_fold p (fun b pk => push_opcode (push_ms_key ctx b pk) OP_CHECKSIGADD)
    (fun pk => [Token.CheckSigAdd; data_token (key_bytes ctx pk)])
    (fun b => push_opcode (push_ms_key ctx b pk) OP_CHECKSIG)).
  - apply (writes_op _ (fun b => push_ms_key ctx b pk) [_] OP_CHECKSIG); [done|].
    apply (writes_key p (fun b => b) []), writes_id.
  - apply List.Forall_forall. intros k _ f t Hf. cbn [app].
    apply (writes_op _ (fun b => push_ms_key ctx (f b) k) (_ :: t) OP_CHECKSIGADD); [done|].
    by apply writes_key.
Qed.

Lemma written_verify p sub :
  wf ctx sub -> written sub -> (forall ret, p ret -> first_ok sub ret) ->
  writes_verify p (fun b => push_verify (encode ctx sub b)) (Token.Verify :: tokens ctx sub).
Proof.
  intros Hwf [_ H] Hp. apply (writes_weaken _ p) in H; [|done]. split; [done|].
  apply (writes_ext _ (fun b => push_opcode (push_verify (encode ctx sub b)) OP_VERIFY)).
  - intros b. eapply push_verify_ends, ends_verify, encode_ends, Hwf.
  - by apply writes_op_verify.
Qed.

Lemma writes_false p : writes_verify p (fun b => push_opcode b OP_FALSE) [Token.Num 0].
Proof.
  assert (writes p (fun b => push_opcode b OP_FALSE) [Token.Num 0]) as H.
  { apply (writes_one p (fun b => b) (fun b => push_opcode b OP_FALSE) [] [Token.Num 0] (PushBytes []));
      [apply writes_id | by apply (emits_false (fun b => b) []), emits_id |].
    intros ret _. cbn [lex_one]. by rewrite push_empty. }
  split; [done|]. apply (writes_ext _ (fun b => push_opcode (push_opcode b OP_FALSE) OP_VERIFY));
    [intros b; by apply push_verify_opcode|]. by apply writes_op_verify.
Qed.

(** What a parent knows: the node is well typed and checked, and its children are written. *)
Definition node_ready (nd : Terminal Miniscript) (t : MsType) (e : ExtData) : Prop :=
  wf ctx (mkMiniscript nd t e) /\ Forall written (terminal_children nd).

(** Opens a node that is ready: its typing, its children, and the way a node that is not of
    type W begins. *)
Ltac open_ready :=
  intros [Hwf Hch];
  lazymatch goal with
  | |- written (mkMiniscript ?nd ?t ?e) =>
      destruct (wf_view ctx _ _ _ Hwf) as (Hw & Hv & Hview);
      assert (forall bs, c_base (corr t) = bs -> bs <> BaseW ->
        forall ret, first_ok (mkMiniscript nd t e) ret -> no_zero ret) as Hfirst
        by (intros bs Hb Hne ret [H|H]; [unfold base_of, corr_of in H; cbn [ty] in H; congruence | done]);
      unfold written; forall_children Hch; forall_children Hw;
      cbn [corr_view] in Hview; cbn [tokens encode]
  end.

Lemma leaf_written nd t e :
  match nd with
  | Terminal.Multi _ | Terminal.MultiA _ => false
  | _ => match terminal_as_node nd with Nullary => true | _ => false end
  end = true -> node_ready nd t e -> written (mkMiniscript nd t e).
Proof.
  destruct nd; intros Hs; try discriminate Hs; open_ready.
  - apply (writes_verify_op _ (fun b => b) [] OP_TRUE); [done | apply writes_id].
  - apply writes_false.
  - apply (writes_key _ (fun b => b) []), writes_id.
  - pose proof (key_hash_size pk) as Hk.
    destruct (writes_pkh (first_ok (mkMiniscript (Terminal.PkH pk) t e)) _ Hk) as [H1 H2].
    split; (eapply writes_ext; [|eassumption]); intros b; cbn beta; by rewrite push_ms_key_hash_bytes.
  - apply writes_pkh, hash160_size.
  - apply (writes_verify_op _ _ [_] OP_CLTV); [done|]. apply (writes_num _ (fun b => b) []); [|apply writes_id].
    apply Hv.
  - apply (writes_verify_op _ _ [_] OP_CSV); [done|]. apply (writes_num _ (fun b => b) []); [|apply writes_id].
    apply Hv.
  - apply writes_hash; [rewrite sha256_size; lia | done | done].
  - apply writes_hash; [rewrite hash256_size; lia | done | done].
  - apply writes_hash; [rewrite ripemd160_size; lia | done | done].
  - apply writes_hash; [rewrite hash160_size; lia | done | done].
  - apply (writes_verify_op _ _ [_; _] OP_DROP); [done|]. apply (writes_op _ _ [_] OP_NOP4); [done|].
    apply (writes_slice _ (fun b => b) []); [rewrite sha256_size; lia | apply writes_id].
Qed.

Lemma wrapper_written nd t e :
  match terminal_as_node nd with Unary _ => true | _ => false end = true -> node_ready nd t e -> written (mkMiniscript nd t e).
Proof.
  destruct nd; intros Hs; try discriminate Hs; open_ready.
  - apply written_behind; [done | |].
    + rewrite <- (app_nil_r (inscription_tokens i)). apply (writes_inscriptions _ (fun b => b) []); [|apply writes_id].
      apply wf_inv in Hwf as (_ & _ & Ht & _). by destruct (typed_inscriptions i sub t (or_introl Ht)).
    + intros ret _. right. apply settled_no_zero. rewrite <- (app_nil_r (inscription_tokens i)).
      apply settled_inscriptions.
      apply wf_inv in Hwf as (_ & _ & Ht & _). by destruct (typed_inscriptions i sub t (or_introl Ht)).
  - apply wf_inv in Hwf as (_ & _ & Ht & _). destruct (typed_inscriptions i sub t (or_intror Ht)).
    apply writes_verify_inscriptions; [done | done |]. eapply writes_weaken; [|exact (proj1 Hc)].
    unfold first_ok, base_of, corr_of in *. cbn [ty]. by rewrite Hview.
  - apply (written_op _ _ [Token.ToAltStack] (fun b => push_opcode b OP_TOALTSTACK) OP_FROMALTSTACK);
      [done | done | | by intros; right].
    apply (writes_op _ (fun b => b) [] OP_TOALTSTACK), writes_id. done.
  - apply (written_behind _ (fun b => push_opcode b OP_SWAP) [Token.Swap]); [done | | by intros; right].
    apply (writes_op _ (fun b => b) [] OP_SWAP), writes_id. done.
  - apply (written_op_first _ sub OP_CHECKSIG); [done | done |].
    intros ret Hret. right. eapply Hfirst; [| |exact Hret]; [apply Hview | done].
  - apply (written_op _ sub [Token.If; Token.Dup] (fun b => push_opcode (push_opcode b OP_DUP) OP_IF) OP_ENDIF);
      [done | done | | by intros; right].
    apply writes_if; [done|]. apply (writes_op _ (fun b => b) [] OP_DUP), writes_id. done.
  - apply written_verify; [done | done |].
    intros ret Hret. right. eapply Hfirst; [| |exact Hret]; [apply Hview | done].
  - apply (written_op _ sub [Token.If; Token.ZeroNotEqual; Token.Size]
      (fun b => push_opcode (push_opcode (push_opcode b OP_SIZE) OP_0NOTEQUAL) OP_IF) OP_ENDIF);
      [done | done | | by intros; right].
    apply writes_if; [done|]. apply (writes_op _ _ [Token.Size] OP_0NOTEQUAL); [done|].
    apply (writes_op _ (fun b => b) [] OP_SIZE), writes_id. done.
  - apply (written_op_first _ sub OP_0NOTEQUAL); [done | done |].
    intros ret Hret. right. eapply Hfirst; [| |exact Hret]; [apply Hview | done].
Qed.

Lemma binary_written nd t e :
  match terminal_as_node nd with Binary _ _ | Ternary _ _ _ => true | _ => false end = true -> node_ready nd t e -> written (mkMiniscript nd t e).
Proof.
  destruct nd; intros Hs; try discriminate Hs; open_ready.
  - destruct Hview as (Hl & Hr & Hb & _).
    apply written_behind; [done | | by intros; apply first_v].
    apply written_first; [done|]. intros ret [H|H]; [|by right].
    exfalso. unfold base_of, corr_of in *. cbn [ty] in H. congruence.
  - destruct Hview as (_ & Hr & Hb & _).
    apply (written_op _ r (tokens ctx l) (encode ctx l) OP_BOOLAND); [done | done | | by intros; apply first_w].
    apply written_first; [done|]. intros ret Hret. right. by eapply Hfirst.
  - destruct Hview as (_ & _ & _ & Hb & _).
    apply (written_op _ b (Token.Else :: tokens ctx c ++ Token.NotIf :: tokens ctx a)
      (fun bd => push_opcode (encode ctx c (push_opcode (encode ctx a bd) OP_NOTIF)) OP_ELSE) OP_ENDIF);
      [done | done | | by intros; right].
    apply (written_op _ c (Token.NotIf :: tokens ctx a) (fun bd => push_opcode (encode ctx a bd) OP_NOTIF) OP_ELSE);
      [done | done | | by intros; right].
    apply (writes_op _ _ (tokens ctx a) OP_NOTIF); [done|]. apply written_first; [done|].
    intros ret Hret. right. by eapply Hfirst.
  - destruct Hview as (_ & Hr & Hb & _).
    apply (written_op _ r (tokens ctx l) (encode ctx l) OP_BOOLOR); [done | done | | by intros; apply first_w].
    apply written_first; [done|]. intros ret Hret. right. by eapply Hfirst.
  - destruct Hview as (_ & Hr & Hb & _).
    apply (written_op _ r (Token.NotIf :: Token.IfDup :: tokens ctx l)
      (fun b => push_opcode (push_opcode (encode ctx l b) OP_IFDUP) OP_NOTIF) OP_ENDIF);
      [done | done | | by intros; right].
    apply (writes_op _ _ (Token.IfDup :: tokens ctx l) OP_NOTIF); [done|].
    apply (writes_op _ _ (tokens ctx l) OP_IFDUP); [done|]. apply written_first; [done|].
    intros ret Hret. right. by eapply Hfirst.
  - destruct Hview as (_ & Hr & Hb & _).
    apply (written_op _ r (Token.NotIf :: tokens ctx l)
      (fun b => push_opcode (encode ctx l b) OP_NOTIF) OP_ENDIF); [done | done | | by intros; right].
    apply (writes_op _ _ (tokens ctx l) OP_NOTIF); [done|]. apply written_first; [done|].
    intros ret Hret. right. by eapply Hfirst.
  - destruct Hview as (_ & _ & Hb & _).
    apply (written_op _ r (Token.Else :: tokens ctx l ++ [Token.If])
      (fun b => push_opcode (encode ctx l (push_opcode b OP_IF)) OP_ELSE) OP_ENDIF);
      [done | done | | by intros; right].
    apply (written_op _ l [Token.If] (fun b => push_opcode b OP_IF) OP_ELSE); [done | done | | by intros; right].
    apply (writes_if _ (fun b => b) []); [|apply writes_id]. intros ret Hret. by eapply Hfirst.
Qed.

Lemma multi_written thresh t e : node_ready (Terminal.Multi thresh) t e -> written (mkMiniscript (Terminal.Multi thresh) t e).
Proof.
  open_ready. destruct Hv as [[Hk Hle] [?|Hmax]]; [done|].
  unfold MAX_PUBKEYS_PER_MULTISIG, Threshold.n in *.
  apply (writes_verify_op _ _ (_ :: _ ++ _) OP_CHECKMULTISIG); [done|].
  apply writes_nat; [unfold Threshold.n; lia|].
  apply (writes_keys _ (fun b => push_int b (Z.of_nat (Threshold.k thresh)))).
  apply (writes_nat _ (fun b => b) []); [lia | apply writes_id].
Qed.

Lemma multi_a_written thresh t e : node_ready (Terminal.MultiA thresh) t e -> written (mkMiniscript (Terminal.MultiA thresh) t e).
Proof.
  open_ready. destruct Hv as [[Hk Hle] [?|Hmax]]; [done|].
  unfold MAX_PUBKEYS_IN_CHECKSIGADD, Threshold.n, Threshold.data in *.
  destruct (Threshold.inner thresh) as [|pk pks]; [simpl in Hle; lia|].
  apply (writes_verify_op _ _ (_ :: _) OP_NUMEQUAL); [done|].
  apply writes_nat; [lia|]. apply writes_checksigadds.
Qed.

Lemma thresh_written thresh t e :
  ctx <> NoChecks -> check_global_validity ctx (mkMiniscript (Terminal.Thresh thresh) t e) = Ok tt ->
  node_ready (Terminal.Thresh thresh) t e -> written (mkMiniscript (Terminal.Thresh thresh) t e).
Proof.
  intros Hctx Hg [Hwf Hch]. pose proof (wf_inv _ _ Hwf) as (_ & Hv & Ht & He).
  destruct (wf_view ctx _ _ _ Hwf) as (_ & _ & Hview). cbn [corr_view node ext ty] in *.
  destruct Hview as (_ & Hb & _). apply thresh_bases in Ht. subst e.
  pose proof (thresh_small ctx thresh t _ Hctx Hv eq_refl Hg) as Hsmall. destruct thresh as [k data].
  destruct Hv as [[Hk Hle] _]. unfold Threshold.data, Threshold.n in *.
  cbn [terminal_children terminal_as_node Threshold.data Threshold.inner Threshold.k] in *.
  destruct data as [|first rest]; [simpl in Hle; lia|]. destruct Ht as [Hfirst Hrest].
  apply Forall_cons_1 in Hch as [Hc Hch].
  unfold written. cbn [tokens encode]. apply (writes_verify_op _ _ (_ :: _) OP_EQUAL); [done|].
  apply writes_nat; [lia|]. apply written_thresh; try done.
  intros ret [H|H]; [|by right]. unfold base_of, corr_of in H. cbn [ty] in H. congruence.
Qed.

(** Every well-typed and checked Miniscript. *)
Lemma encode_written ms : ctx <> NoChecks -> wf ctx ms -> context_valid ctx ms -> written ms.
Proof.
  intros Hctx Hwf. revert ms Hwf. refine (wf_tree_ind ctx _ _). intros [nd t e] Hwf _ IH Hcv.
  apply context_valid_inv in Hcv as [Hg Hcv].
  assert (node_ready nd t e) as Hready.
  { split; [done|]. change (Forall written (children (mkMiniscript nd t e))).
    apply List.Forall_forall. intros c Hc. rewrite List.Forall_forall in IH, Hcv. auto. }
  destruct (terminal_as_node nd) eqn:En.
  - destruct nd; try discriminate En; try (by apply leaf_written);
      [by apply multi_written | by apply multi_a_written].
  - apply wrapper_written; by rewrite ?En.
  - apply binary_written; by rewrite ?En.
  - apply binary_written; by rewrite ?En.
  - destruct nd; try discriminate En. by apply thresh_written.
Qed.

(** The lexer reads the script of a Miniscript as its tokens. *)
Lemma lex_encode ms :
  ctx <> NoChecks -> wf ctx ms -> context_valid ctx ms ->
  lex (into_script (encode ctx ms Builder_new)) = Some (Ok (rev (tokens ctx ms))).
Proof.
  intros Hctx Hwf Hcv. destruct (encode_written ms Hctx Hwf Hcv) as [(l & [Hr Hf] & Hl) _].
  rewrite Hf, script_new. cbn [app]. apply lex_lexes; [done|].
  rewrite <- (app_nil_r (tokens ctx ms)). apply Hl. by right.
Qed.
End LexEncode.
