(* ===== verification/DecodeEncode.v ===== *)
(** The round trip of the decoder: a Miniscript in the form that the decoder gives to its
    results is decoded from its own script. *)
From S2P Require Import Prelude Bitcoin Primitives Reference Ord Script Envelope Lex Correctness Malleability Types ExtData Tree Ast Context Samples Views Decode Encode Tokens DecodeSound DecodeTotal LexEncode.
From stdpp Require Import relations.

(** * The form of decoded Miniscripts *)

Section Form.
Context {B : Bitcoin} {Sc : Scripts} {K : MiniscriptKey} {TP : ToPublicKey K}.
Context (ctx : ScriptContext).

(** Inscriptions as their envelopes are read back. *)
Definition own (i : list Inscription) : bool := bool_decide (map canonical i = i).

Definition is_post (ms : Miniscript) : bool :=
  match node ms with Terminal.InscribePost _ _ => true | _ => false end.

Definition is_hash_lock (ms : Miniscript) : bool :=
  match node ms with
  | Terminal.Sha256 _ | Terminal.Hash256 _ | Terminal.Ripemd160 _ | Terminal.Hash160 _ => true
  | _ => false
  end.

(** A [VERIFY] is read with the hash lock under it, and an envelope then stands before both. *)
Definition is_pre_hash (ms : Miniscript) : bool :=
  match node ms with Terminal.InscribePre _ sub => is_hash_lock sub | _ => false end.

(** Fragments whose last token read is not the end of an expression of their own: an
    envelope before them belongs to the fragment. *)
Definition closed (ms : Miniscript) : bool :=
  match node ms with
  | Terminal.DupIf _ | Terminal.NonZero _ | Terminal.OrI _ _ => true
  | Terminal.Verify sub => is_hash_lock sub
  | Terminal.InscribePre _ _ | Terminal.InscribePost _ _ | Terminal.Thresh _ => false
  | nd => match terminal_children nd with [] => true | _ => false end
  end.

Definition is_w (ms : Miniscript) : bool :=
  match node ms with Terminal.Alt _ | Terminal.Swap _ => true | _ => false end.

(** Where a fragment stands: in the place of one expression, of a sequence that becomes an
    [and_v], or of the second argument of [and_b] and the like. *)
Inductive Place : Type := One | Seq | WPlace.

Definition envelope_first (ms : Miniscript) : bool := starts_inscription (tokens ctx ms).

Fixpoint decoded (place : Place) (ms : Miniscript) : bool :=
  match ms with
  | mkMiniscript nd _ _ =>
      match place with
      | WPlace =>
          match nd with
          | Terminal.Alt sub => decoded Seq sub
          | Terminal.Swap sub => decoded Seq sub && negb (envelope_first sub)
          | Terminal.InscribePre i sub => own i && decoded WPlace sub && is_w sub
          | Terminal.InscribePost i sub => own i && decoded WPlace sub && negb (is_post sub)
          | _ => false
          end
      | One | Seq =>
          match nd with
          | Terminal.AndV l r =>
              match place with
              | Seq => decoded Seq l && decoded One r && negb (envelope_first l)
              | _ => false
              end
          | Terminal.Alt _ | Terminal.Swap _ | Terminal.PkH _ => false
          | Terminal.InscribePre i sub => own i && decoded One sub && closed sub
          | Terminal.InscribePost i sub => own i && decoded One sub && negb (is_post sub)
          | Terminal.Check sub | Terminal.ZeroNotEqual sub => decoded One sub
          | Terminal.Verify sub => decoded One sub && negb (is_pre_hash sub)
          | Terminal.DupIf sub | Terminal.NonZero sub => decoded Seq sub
          | Terminal.AndB l r | Terminal.OrB l r =>
              decoded WPlace r && decoded One l && negb (envelope_first l)
          | Terminal.OrD l r | Terminal.OrC l r => decoded Seq r && decoded One l
          | Terminal.OrI l r => decoded Seq r && decoded Seq l
          | Terminal.AndOr a b c => decoded Seq b && decoded Seq c && decoded One a
          | Terminal.Thresh (Threshold.mkThreshold _ data) =>
              match data with
              | [] => false
              | first :: rest =>
                  decoded One first && forallb (decoded WPlace) rest
                  && (is_empty rest || negb (envelope_first first))
              end
          | _ => true
          end
      end
  end.
End Form.

Section RoundTrip.
Context {B : Bitcoin} {Sc : Scripts} {K : MiniscriptKey} {TP : ToPublicKey K} {PK : ParseableKey}.
Context (ctx : ScriptContext).
Context {LT : LockTimeLaws B} {BL : BuilderLaws B} {SZ : SizeLaws B} {KL : KeyLaws TP} {SL : ScriptLaws Sc} {HL : HashLaws Sc}.
Context {PL : ParseableLaws TP ctx}.
Abbreviation T := (tokens ctx).
Abbreviation State := (list NonTerm * list Miniscript * list Token)%type.

(** ** Turns that succeed *)

Inductive turn : State -> State -> Prop :=
| turn_intro nt nts ts toks s :
    decode_step ctx nt nts ts toks = Some (Ok s) -> turn (nt :: nts, ts, toks) s.

Abbreviation turns := (rtc turn).

Lemma turns_step nt nts ts toks s s' :
  decode_step ctx nt nts ts toks = Some (Ok s) -> turns s s' -> turns (nt :: nts, ts, toks) s'.
Proof. intros H Hs. eapply rtc_l; [by constructor|done]. Qed.

(** The loop follows the turns. *)
Lemma loop_turns s s' fuel r :
  turns s s' -> decode_loop ctx fuel s.1.1 s.1.2 s.2 = Some r ->
  exists fuel', decode_loop ctx fuel' s'.1.1 s'.1.2 s'.2 = Some r.
Proof.
  intros H. revert fuel. induction H as [s|s1 s2 s3 H _ IH]; intros fuel Hl; [eauto|].
  destruct H as [nt nts ts toks [[nts' ts'] toks'] H]. cbn in Hl. destruct fuel as [|fuel]; [done|].
  cbn [decode_loop] in Hl. rewrite H in Hl. cbn [mbind option_bind] in Hl. by apply (IH fuel).
Qed.

(** ** Fragments that the decoder can build *)

Definition ready (ms : Miniscript) : Prop :=
  wf ctx ms /\ context_valid ctx ms /\ height ms <= MAX_RECURSION_DEPTH.

Lemma ready_children ms : ready ms -> Forall ready (children ms).
Proof.
  intros (Hwf & Hcv & Hh). apply wf_inv in Hwf as (Hwf & _). apply context_valid_inv in Hcv as [_ Hcv].
  rewrite height_eq in Hh. apply List.Forall_forall. intros c Hc. rewrite List.Forall_forall in Hwf, Hcv.
  split_and!; auto. assert (height c <= list_max (map height (children ms))) as Hm.
  { apply (proj1 (List.Forall_forall _ _) (proj1 (list_max_le _ _) (le_n _))). by apply in_map. }
  destruct (children ms); [done | lia].
Qed.

Lemma ready_checked ms : ready ms -> checked ctx (node ms) = Ok ms.
Proof.
  intros (Hwf & Hcv & Hh). pose proof (wf_height ctx ms Hwf) as Hth. destruct (wf_inv _ _ Hwf) as (_ & _ & Ht & He).
  apply context_valid_inv in Hcv as [Hg _]. unfold checked, from_ast. rewrite Ht.
  destruct ms as [nd t e]. cbn [node ty ext] in *. subst e. cbn [map_err mbind result_bind ext].
  rewrite Hth. rewrite (proj2 (Nat.ltb_ge _ _)) by done.
  by rewrite Hg.
Qed.

(** The arm for one node: a successful reduction. *)
Lemma reduced_ready ms nts ts (toks : list Token) :
  ready ms ->
  (r ← reduce0 ctx (node ms) ts; Some (ts ← r; Ok ((nts, ts, toks) : State)))
  = Some (Ok (E := DecodeError) ((nts, ms :: ts, toks) : State)).
Proof. intros H. unfold reduce0. by rewrite (ready_checked ms H). Qed.

(** ** Leaves *)

Lemma abs_round t : abs_valid t -> abs_from_consensus (abs_to_consensus_u32 t) = Ok t.
Proof.
  unfold abs_valid, abs_from_consensus, abs_to_consensus_u32. destruct t as [l]. cbn [abs_inner]. intros Hv.
  unfold MIN_ABSOLUTE_LOCKTIME, MAX_ABSOLUTE_LOCKTIME.
  rewrite (proj2 (N.leb_le _ _)), (proj2 (N.leb_le _ _)) by lia. cbn [andb]. do 2 f_equal.
  apply LockTime_inj, LockTime_roundtrip. unfold u32. lia.
Qed.

Lemma rel_round t : rel_valid t -> rel_from_consensus (rel_to_consensus_u32 t) = Ok t.
Proof.
  unfold rel_valid, rel_from_consensus, rel_try_from, rel_to_consensus_u32. destruct t as [s]. cbn [rel_inner].
  intros (Hr & Hz & Hs).
  assert (Sequence_from_consensus (Sequence_to_consensus_u32 s) = s) as ->.
  { apply Sequence_inj, Sequence_roundtrip. unfold u32. lia. }
  by rewrite Hr, bool_decide_eq_false_2.
Qed.

(** A leaf with the annotations of its constructor. *)
Lemma wf_leaf_eq nd t e ms :
  wf ctx (mkMiniscript nd t e) -> node ms = nd -> type_check nd = Ok (ty ms) ->
  ext ms = ext_type_check (sig_type ctx) nd -> ms = mkMiniscript nd t e.
Proof.
  intros (_ & _ & Ht & He)%wf_inv Hn Hty Hext. destruct ms as [nd' t' e']. cbn [node ty ext] in *.
  subst. rewrite Hty in Ht. by injection Ht as ->.
Qed.

Ltac same_leaf H := symmetry; apply (wf_leaf_eq _ _ _ _ H); reflexivity.

Definition reads_leaf (ms : Miniscript) : Prop :=
  forall rest, expression ctx (T ms ++ rest) = Ok ([], [ms], rest).

Lemma key_round pk : key_from_slice (key_bytes ctx pk) = Ok pk.
Proof. unfold key_from_slice. by rewrite (proj2 (from_slice_bytes _ _) eq_refl). Qed.

Lemma reads_pk_k pk t e : wf ctx (mkMiniscript (Terminal.PkK pk) t e) -> reads_leaf (mkMiniscript (Terminal.PkK pk) t e).
Proof.
  intros Hwf rest. assert (ms_pk_k ctx pk = mkMiniscript (Terminal.PkK pk) t e) as <- by (by apply (wf_leaf_eq _ _ _ _ Hwf)).
  cbn [tokens ms_pk_k app]. pose proof (key_bytes_length ctx pk) as Hl. pose proof (key_round pk) as Hk.
  assert (exists tok, data_token (key_bytes ctx pk) = tok /\
    (tok = Token.Bytes32 (key_bytes ctx pk) \/ tok = Token.Bytes33 (key_bytes ctx pk)
     \/ tok = Token.Bytes65 (key_bytes ctx pk))) as (tok & -> & Htok).
  { eexists. split; [reflexivity|]. destruct (sig_type ctx).
    - destruct Hl as [Hl|Hl]; [rewrite data_33 by done | rewrite data_65 by done]; tauto.
    - rewrite data_32 by done. tauto. }
  destruct Htok as [->|[->| ->]]; cbn [expression]; by rewrite Hk.
Qed.

Lemma expect_app l rest : expect l (l ++ rest) = Ok rest.
Proof. induction l as [|t l IH]; [done|]. cbn [app expect]. by rewrite bool_decide_eq_true_2. Qed.

Lemma hash_lock_round nts ms rest : hash_lock nts ms (size_check ++ rest) = Ok (nts, [ms], rest).
Proof. unfold hash_lock. by rewrite expect_app. Qed.

(** The arm of a hash lock, alone and under [VERIFY]. *)
Lemma hash_round ms :
  wf ctx ms -> is_hash_lock ms = true ->
  (forall rest, expression ctx (T ms ++ rest) = Ok ([], [ms], rest))
  /\ forall rest, expression ctx (Token.Verify :: T ms ++ rest) = Ok ([NonTerm.Verify], [ms], rest).
Proof.
  intros Hwf Hh. destruct ms as [nd t e]. destruct nd; try discriminate Hh.
  - assert (ms_sha256 h = mkMiniscript (Terminal.Sha256 h) t e) as <- by (by apply (wf_leaf_eq _ _ _ _ Hwf)).
    cbn [tokens ms_sha256]. unfold hash_tokens. rewrite data_32 by apply sha256_size.
    split; intros rest; cbn [app expression equal_expression verify_expression hash_32];
      rewrite sha256_of_bytes, of_to_sha256; apply (hash_lock_round _ _ rest).
  - assert (ms_hash256 h = mkMiniscript (Terminal.Hash256 h) t e) as <- by (by apply (wf_leaf_eq _ _ _ _ Hwf)).
    cbn [tokens ms_hash256]. unfold hash_tokens. rewrite data_32 by apply hash256_size.
    split; intros rest; cbn [app expression equal_expression verify_expression hash_32];
      rewrite hash256_of_bytes, of_to_hash256; apply (hash_lock_round _ _ rest).
  - assert (ms_ripemd160 h = mkMiniscript (Terminal.Ripemd160 h) t e) as <- by (by apply (wf_leaf_eq _ _ _ _ Hwf)).
    cbn [tokens ms_ripemd160]. unfold hash_tokens. rewrite data_20 by apply ripemd160_size.
    split; intros rest; cbn [app expression equal_expression verify_expression];
      rewrite ripemd160_of_bytes, of_to_ripemd160; apply (hash_lock_round _ _ rest).
  - assert (ms_hash160 h = mkMiniscript (Terminal.Hash160 h) t e) as <- by (by apply (wf_leaf_eq _ _ _ _ Hwf)).
    cbn [tokens ms_hash160]. unfold hash_tokens. rewrite data_20 by apply hash160_size.
    split; intros rest; cbn [app expression equal_expression verify_expression];
      rewrite hash160_of_bytes, of_to_hash160.
    + apply (hash_lock_round _ _ rest).
    + pose proof (expect_app [Token.Equal; Token.Num 32; Token.Size] rest) as He. cbn [app] in He.
      unfold size_check. cbn [app]. by rewrite He.
Qed.

(** The keys of a multisig, read back. *)
Lemma multi_keys_round pks acc rest :
  sig_type ctx = Ecdsa ->
  multi_keys (length pks) (map (fun pk => data_token (full_key_bytes pk)) pks ++ rest) acc
  = Ok (acc ++ pks, rest).
Proof.
  intros Hs. revert acc. induction pks as [|pk pks IH]; intros acc; [by rewrite app_nil_r|].
  cbn [length map app multi_keys]. pose proof (key_bytes_length ctx pk) as Hl. pose proof (key_round pk) as Hk.
  unfold key_bytes in *. rewrite Hs in Hl, Hk.
  destruct Hl as [Hl|Hl]; [rewrite data_33 by done | rewrite data_65 by done]; rewrite Hk;
    cbn [mbind result_bind]; by rewrite IH, <- app_assoc.
Qed.

Lemma multi_a_keys_round pks acc rest :
  sig_type ctx = Schnorr -> (match rest with Token.CheckSigAdd :: _ => False | _ => True end) ->
  multi_a_keys (concat (map (fun pk => [Token.CheckSigAdd; data_token (key_bytes ctx pk)]) pks) ++ rest) acc
  = Ok (acc ++ pks, rest).
Proof.
  intros Hs Hrest. revert acc. induction pks as [|pk pks IH]; intros acc.
  { rewrite app_nil_r. cbn [map concat app]. by destruct rest as [|[] rest]. }
  cbn [map concat app multi_a_keys]. pose proof (key_bytes_length ctx pk) as Hl. rewrite Hs in Hl.
  rewrite data_32, key_round by done. cbn [mbind result_bind]. by rewrite IH, <- app_assoc.
Qed.

Lemma multi_ctx thresh t e :
  ready (mkMiniscript (Terminal.Multi thresh) t e) -> ctx <> NoChecks -> sig_type ctx = Ecdsa.
Proof.
  intros (_ & Hcv & _) Hctx. apply context_valid_inv in Hcv as [Hg _]. apply node_checked_valid in Hg.
  by destruct ctx.
Qed.

Lemma multi_a_ctx thresh t e :
  ready (mkMiniscript (Terminal.MultiA thresh) t e) -> ctx <> NoChecks -> sig_type ctx = Schnorr.
Proof.
  intros (_ & Hcv & _) Hctx. apply context_valid_inv in Hcv as [Hg _]. apply node_checked_valid in Hg.
  by destruct ctx.
Qed.

Lemma reads_multi thresh t e :
  let ms := mkMiniscript (Terminal.Multi thresh) t e in
  ctx <> NoChecks -> ready ms -> reads_leaf ms.
Proof.
  cbv zeta. intros Hctx Hr rest. pose proof (multi_ctx _ _ _ Hr Hctx) as Hs. destruct Hr as (Hwf & _).
  assert (ms_multi thresh = mkMiniscript (Terminal.Multi thresh) t e) as <- by (by apply (wf_leaf_eq _ _ _ _ Hwf)).
  apply wf_inv in Hwf as (_ & Hv & _). cbn [node node_valid] in Hv.
  cbn [tokens ms_multi app expression]. unfold multi_expression.
  destruct thresh as [k pks]. unfold Threshold.n, Threshold.data. cbn [Threshold.inner Threshold.k].
  destruct Hv as [[Hk Hle] Hmax]. unfold Threshold.n in *. cbn [Threshold.k Threshold.inner] in *.
  rewrite !Nat2N.id, (proj2 (Threshold.validate_k_n_Ok _ 1 _)) by lia. cbn [map_err mbind result_bind].
  rewrite <- app_assoc. pose proof (multi_keys_round (rev pks) [] ([Token.Num (N.of_nat k)] ++ rest) Hs) as Hm.
  rewrite length_rev in Hm. rewrite Hm. cbn [mbind result_bind app].
  rewrite Nat2N.id, rev_involutive. unfold Threshold.new.
  by rewrite (proj2 (Threshold.validate_k_n_Ok _ k _)).
Qed.

Lemma reads_multi_a thresh t e :
  let ms := mkMiniscript (Terminal.MultiA thresh) t e in
  ctx <> NoChecks -> ready ms -> reads_leaf ms.
Proof.
  cbv zeta. intros Hctx Hr rest. pose proof (multi_a_ctx _ _ _ Hr Hctx) as Hs. destruct Hr as (Hwf & _).
  assert (ms_multi_a thresh = mkMiniscript (Terminal.MultiA thresh) t e) as <- by (by apply (wf_leaf_eq _ _ _ _ Hwf)).
  apply wf_inv in Hwf as (_ & Hv & _). cbn [node node_valid] in Hv.
  cbn [tokens ms_multi_a app expression]. unfold multi_a_expression.
  destruct thresh as [k pks]. unfold Threshold.data. cbn [Threshold.inner Threshold.k].
  destruct Hv as [[Hk Hle] Hmax]. unfold Threshold.n in *. cbn [Threshold.k Threshold.inner] in *.
  destruct pks as [|pk pks]; [simpl in Hle; lia|]. cbn [multi_a_tokens].
  rewrite !Nat2N.id, (proj2 (Threshold.validate_k_n_Ok _ k k)) by lia. cbn [map_err mbind result_bind].
  rewrite <- app_assoc, multi_a_keys_round by done. cbn [mbind result_bind app].
  pose proof (key_bytes_length ctx pk) as Hl. rewrite Hs in Hl.
  rewrite data_32, key_round by done. cbn [mbind result_bind].
  rewrite rev_app_distr. cbn [rev app]. rewrite rev_involutive. unfold Threshold.new.
  by rewrite (proj2 (Threshold.validate_k_n_Ok _ k _)).
Qed.

(** Every leaf but [pk_h], which is read back as a raw key hash. *)
Lemma reads_leaves ms :
  ctx <> NoChecks -> ready ms -> children ms = [] ->
  match node ms with Terminal.PkH _ | Terminal.Thresh _ => False | _ => True end -> reads_leaf ms.
Proof.
  intros Hctx Hr Hch Hp. destruct ms as [nd a e]. pose proof Hr as (Hwf & _). rewrite children_node in Hch.
  destruct nd; try discriminate Hch; try done; intros rest.
  - assert (ms_TRUE = mkMiniscript Terminal.True a e) as <- by (by apply (wf_leaf_eq _ _ _ _ Hwf)). done.
  - assert (ms_FALSE = mkMiniscript Terminal.False a e) as <- by (by apply (wf_leaf_eq _ _ _ _ Hwf)). done.
  - by apply reads_pk_k.
  - assert (ms_expr_raw_pkh ctx h = mkMiniscript (Terminal.RawPkH h) a e) as <-
      by (by apply (wf_leaf_eq _ _ _ _ Hwf)).
    cbn [tokens ms_expr_raw_pkh]. unfold pkh_tokens. rewrite data_20 by apply hash160_size.
    cbn [app expression verify_expression]. by rewrite hash160_of_bytes.
  - assert (ms_after t = mkMiniscript (Terminal.After t) a e) as <- by (by apply (wf_leaf_eq _ _ _ _ Hwf)).
    cbn [tokens ms_after app expression]. apply wf_inv in Hwf as (_ & Hv & _). by rewrite abs_round.
  - assert (ms_older t = mkMiniscript (Terminal.Older t) a e) as <- by (by apply (wf_leaf_eq _ _ _ _ Hwf)).
    cbn [tokens ms_older app expression]. apply wf_inv in Hwf as (_ & Hv & _). by rewrite rel_round.
  - by apply hash_round.
  - by apply hash_round.
  - by apply hash_round.
  - by apply hash_round.
  - cbn [tokens app expression expect]. rewrite bool_decide_eq_true_2 by done. cbn [mbind result_bind].
    rewrite data_32 by apply sha256_size. rewrite sha256_of_bytes. pose proof (ready_checked _ Hr) as Hc.
    cbn [node] in Hc. by rewrite Hc.
  - by apply reads_multi.
  - by apply reads_multi_a.
Qed.

(** ** Inscriptions *)

Lemma parse_envelope i : validate i = true -> parse_inscriptions (script_bytes (envelope_items i)) = Ok [canonical i].
Proof.
  intros Hv. etransitivity; [|apply (parse_reveal [i]); [done | done | by repeat constructor]]. f_equal.
  destruct (emits_reveal [i]) as [_ He]; [by repeat constructor|].
  rewrite He, script_new. cbn [flat_map app]. by rewrite app_nil_r.
Qed.

Lemma take_tokens_round i acc rest :
  Forall (fun x => validate x = true) i -> map canonical i = i -> starts_inscription rest = false ->
  take_inscription_tokens (map inscription_token i ++ rest) acc = Ok (acc ++ i, rest).
Proof.
  intros Hv. revert acc. induction Hv as [|x i Hx _ IH]; intros acc Hc Hr.
  { rewrite app_nil_r. by destruct rest as [|[] rest]. }
  cbn [map] in Hc. injection Hc as Hx' Hc. cbn [map app take_inscription_tokens inscription_token].
  rewrite parse_envelope, Hx' by done. cbn [map_err mbind result_bind rev app].
  by rewrite IH, <- app_assoc.
Qed.

Lemma take_round i rest :
  Forall (fun x => validate x = true) i -> own i = true -> starts_inscription rest = false ->
  take_inscriptions (inscription_tokens i ++ rest) = Ok (i, rest).
Proof.
  intros Hv Hc%bool_decide_eq_true_1 Hr. unfold take_inscriptions, inscription_tokens.
  rewrite take_tokens_round; [cbn [mbind result_bind app]; by rewrite rev_involutive | by apply Forall_rev | | done].
  by rewrite map_rev, Hc.
Qed.

(** ** First tokens *)

(** Tokens with which an expression can begin, read from the end. *)
Definition begins (l : list Token) : Prop :=
  match l with
  | [] | Token.If :: _ | Token.NotIf :: _ | Token.Else :: _ | Token.ToAltStack :: _ | Token.Swap :: _
  | Token.FromAltStack :: _ | Token.Add :: _ | Token.IfDup :: _ => False
  | _ => True
  end.

Lemma begins_app l l' : begins l -> begins (l ++ l').
Proof. by destruct l as [|[] l]. Qed.

Lemma begins_and_v l l' : begins l -> is_and_v (l ++ l') = true.
Proof. by destruct l as [|[] l]. Qed.

Lemma starts_app l l' : begins l -> starts_inscription l = false -> starts_inscription (l ++ l') = false.
Proof. by destruct l as [|[] l]. Qed.

Lemma not_and_v_starts l : is_and_v l = false -> starts_inscription l = false.
Proof. by destruct l as [|[] l]. Qed.

Lemma begins_inscriptions i l : i <> [] -> begins (inscription_tokens i ++ l).
Proof.
  intros Hne. destruct (exists_last Hne) as (i' & x & ->). unfold inscription_tokens.
  by rewrite rev_app_distr.
Qed.

Lemma begins_data b l : begins (data_token b :: l).
Proof. unfold data_token. by repeat case_match. Qed.

Lemma decoded_begins ms place : ready ms -> place <> WPlace -> decoded ctx place ms = true -> begins (T ms).
Proof.
  intros Hr Hp. destruct Hr as [Hwf _]. revert ms Hwf place Hp. refine (wf_tree_ind ctx _ _).
  intros [nd t e] Hwf _ IH place Hp Hd. rewrite children_node in IH. apply wf_inv in Hwf as (_ & _ & Ht & _).
  cbn [node ty] in *.
  destruct nd; cbn [tokens]; try (destruct place; done); try apply begins_data; try exact I.
  - forall_children IH. apply begins_app. apply (Hc One); [done|]. destruct place; [| |done]; cbn [decoded] in Hd; by bool_hyps.
  - apply begins_inscriptions. by destruct (typed_inscriptions i sub t (or_intror Ht)).
  - forall_children IH. apply begins_app. destruct place; [done| |done]. apply (Hc0 One); [done|].
    cbn [decoded] in Hd. by bool_hyps.
  - by destruct thresh.
Qed.

(** Only an envelope at the end begins with an envelope. *)
Lemma decoded_starts ms : ready ms -> decoded ctx One ms = true -> is_post ms = false -> starts_inscription (T ms) = false.
Proof.
  intros Hr Hd Hp. destruct ms as [nd t e].
  destruct nd; cbn [tokens]; try discriminate Hd; try discriminate Hp; try done.
  - unfold data_token. by repeat case_match.
  - cbn [decoded] in Hd. apply andb_true_iff in Hd as [[_ Hd]%andb_true_iff Hcl].
    pose proof (ready_children _ Hr) as Hch. rewrite children_node in Hch. cbn [node] in Hch. forall_children Hch.
    apply starts_app; [by apply (decoded_begins sub One)|]. destruct sub as [nd t' e'].
    destruct nd; try discriminate Hcl; try done; cbn [tokens]; unfold data_token; by repeat case_match.
  - by destruct thresh.
Qed.

Lemma w_nonempty ms : ready ms -> decoded ctx WPlace ms = true -> T ms <> [].
Proof.
  intros Hr. destruct Hr as [Hwf _]. revert ms Hwf. refine (wf_tree_ind ctx _ _).
  intros [nd t e] Hwf _ IH Hd. rewrite children_node in IH. apply wf_inv in Hwf as (_ & _ & Ht & _).
  cbn [node ty] in *. destruct nd; try discriminate Hd; cbn [tokens]; forall_children IH.
  - cbn [decoded] in Hd. intros [H _]%app_eq_nil. apply Hc; [by bool_hyps | done].
  - intros [_ H]%app_eq_nil. apply Hc; [cbn [decoded] in Hd; by bool_hyps | done].
  - done.
  - intros [_ H]%app_eq_nil. done.
Qed.

(** ** Runs of the decoder *)

(** From an expression to the envelopes before it. *)
Definition P_pre (ms : Miniscript) : Prop :=
  decoded ctx One ms = true ->
  (match node ms with Terminal.InscribePre _ _ => False | _ => True end) ->
  forall nts ts rest, closed ms = true \/ starts_inscription rest = false ->
  turns (NonTerm.Expression :: nts, ts, T ms ++ rest) (NonTerm.InscribePre :: nts, ms :: ts, rest).

Definition P_one (ms : Miniscript) : Prop :=
  decoded ctx One ms = true ->
  forall nts ts rest, starts_inscription rest = false ->
  turns (NonTerm.Expression :: nts, ts, T ms ++ rest) (nts, ms :: ts, rest).

Definition P_seq (ms : Miniscript) : Prop :=
  decoded ctx Seq ms = true ->
  forall nts ts rest, is_and_v rest = false ->
  turns (NonTerm.Expression :: NonTerm.MaybeAndV :: nts, ts, T ms ++ rest) (nts, ms :: ts, rest).

(** The left part of a conjunction whose right part was read. *)
Definition P_chain (ms : Miniscript) : Prop :=
  decoded ctx Seq ms = true ->
  forall p r nts ts rest, ready p -> node p = Terminal.AndV ms r -> is_and_v rest = false ->
  turns (NonTerm.Expression :: NonTerm.AndV :: nts, r :: ts, T ms ++ rest) (nts, p :: ts, rest).

Definition P_w_pre (ms : Miniscript) : Prop :=
  decoded ctx WPlace ms = true ->
  (match node ms with Terminal.InscribePre _ _ => False | _ => True end) ->
  forall nts ts rest, is_w ms = true \/ starts_inscription rest = false ->
  turns (NonTerm.WExpression :: nts, ts, T ms ++ rest) (NonTerm.InscribePre :: nts, ms :: ts, rest).

Definition P_w (ms : Miniscript) : Prop :=
  decoded ctx WPlace ms = true ->
  forall nts ts rest, starts_inscription rest = false ->
  turns (NonTerm.WExpression :: nts, ts, T ms ++ rest) (nts, ms :: ts, rest).

(** A threshold, behind its number. *)
Definition P_thresh (ms : Miniscript) : Prop :=
  decoded ctx One ms = true -> forall thresh, node ms = Terminal.Thresh thresh ->
  forall nts ts rest, starts_inscription rest = false ->
  exists k tail, T ms = Token.Equal :: Token.Num (N.of_nat k) :: tail
    /\ turns (NonTerm.ThreshW k 0 :: nts, ts, tail ++ rest) (nts, ms :: ts, rest).

Definition parses (ms : Miniscript) : Prop :=
  P_pre ms /\ P_one ms /\ P_seq ms /\ P_chain ms /\ P_w_pre ms /\ P_w ms /\ P_thresh ms.

Lemma turns_expression new pushed nts ts toks rest s :
  expression ctx toks = Ok (new, pushed, rest) ->
  turns (new ++ NonTerm.InscribePre :: nts, pushed ++ ts, rest) s ->
  turns (NonTerm.Expression :: nts, ts, toks) s.
Proof. intros H. apply turns_step. cbn [decode_step]. by rewrite H. Qed.

Lemma turns_pre nts ts rest s :
  starts_inscription rest = false -> turns (nts, ts, rest) s ->
  turns (NonTerm.InscribePre :: nts, ts, rest) s.
Proof. intros H. apply turns_step. cbn [decode_step]. by rewrite H. Qed.

(** A non-terminal that wraps the terminal on top. *)
Lemma turns_wrap nt wrap ms sub nts ts (rest : list Token) s :
  (forall nts ts toks, decode_step ctx nt nts ts toks
     = (r ← reduce1 ctx wrap ts; Some (ts ← r; Ok ((nts, ts, toks) : State)))) ->
  ready ms -> node ms = wrap sub -> turns (nts, ms :: ts, rest) s ->
  turns (nt :: nts, sub :: ts, rest) s.
Proof.
  intros Heq Hr Hn. apply turns_step. rewrite Heq. unfold reduce1. rewrite <- Hn.
  by apply reduced_ready.
Qed.

Lemma turns_bin nt bin ms l r nts ts (rest : list Token) s :
  (forall nts ts toks, decode_step ctx nt nts ts toks
     = (r ← reduce2 ctx bin ts; Some (ts ← r; Ok ((nts, ts, toks) : State)))) ->
  ready ms -> node ms = bin l r -> turns (nts, ms :: ts, rest) s ->
  turns (nt :: nts, l :: r :: ts, rest) s.
Proof.
  intros Heq Hr Hn. apply turns_step. rewrite Heq. unfold reduce2. rewrite <- Hn.
  by apply reduced_ready.
Qed.

(** A wrapper read from its last token. *)
Lemma wrapper_run nt tok wrap ms sub nts ts rest :
  (forall nts ts toks, decode_step ctx nt nts ts toks
     = (r ← reduce1 ctx wrap ts; Some (ts ← r; Ok ((nts, ts, toks) : State)))) ->
  (forall rest, expression ctx (tok :: T sub ++ rest) = Ok ([NonTerm.Expression; nt], [], T sub ++ rest)) ->
  ready ms -> node ms = wrap sub -> T ms = tok :: T sub ->
  P_one sub -> decoded ctx One sub = true -> starts_inscription rest = false ->
  turns (NonTerm.Expression :: nts, ts, T ms ++ rest) (NonTerm.InscribePre :: nts, ms :: ts, rest).
Proof.
  intros Heq He Hr Hn HT Hsub Hd Hrest. rewrite HT. cbn [app].
  eapply turns_expression; [apply He|]. cbn [app].
  etrans; [by apply Hsub|]. by eapply turns_wrap.
Qed.

(** [and_b] and [or_b]. *)
Lemma binary_run nt tok bin ms l r nts ts rest :
  (forall nts ts toks, decode_step ctx nt nts ts toks
     = (r ← reduce2 ctx bin ts; Some (ts ← r; Ok ((nts, ts, toks) : State)))) ->
  (forall toks, expression ctx (tok :: toks) = Ok ([NonTerm.WExpression; NonTerm.Expression; nt], [], toks)) ->
  ready ms -> node ms = bin l r -> T ms = tok :: T r ++ T l ->
  P_w r -> P_one l -> decoded ctx WPlace r = true -> decoded ctx One l = true ->
  starts_inscription (T l) = false -> begins (T l) -> starts_inscription rest = false ->
  turns (NonTerm.Expression :: nts, ts, T ms ++ rest) (NonTerm.InscribePre :: nts, ms :: ts, rest).
Proof.
  intros Heq He Hr Hn HT Pr Pl Hdr Hdl Hs Hb Hrest. rewrite HT. cbn [app]. rewrite <- app_assoc.
  eapply turns_expression; [apply He|]. cbn [app].
  etrans; [apply Pr; [done | by apply starts_app]|].
  etrans; [by apply Pl|]. by eapply turns_bin.
Qed.

(** An [ENDIF] and the sequence before it. *)
Lemma end_if_run t nts ts rest s :
  P_seq t -> decoded ctx Seq t = true -> is_and_v rest = false ->
  turns (NonTerm.EndIf :: NonTerm.InscribePre :: nts, t :: ts, rest) s ->
  turns (NonTerm.Expression :: nts, ts, Token.EndIf :: T t ++ rest) s.
Proof.
  intros Pt Hd Hr Hs. eapply turns_expression; [done|]. cbn [app]. etrans; [by apply Pt|done].
Qed.

Lemma dup_if_run ms sub nts ts rest :
  ready ms -> node ms = Terminal.DupIf sub -> P_seq sub -> decoded ctx Seq sub = true ->
  turns (NonTerm.Expression :: nts, ts, T ms ++ rest) (NonTerm.InscribePre :: nts, ms :: ts, rest).
Proof.
  intros Hr Hn Ps Hd. rewrite (T_node ctx ms), Hn. cbn [tokens app]. rewrite <- app_assoc.
  apply end_if_run; [done | done | done |]. cbn [app]. eapply turns_step; [done|]. cbn [app].
  by eapply (turns_wrap NonTerm.DupIf Terminal.DupIf).
Qed.

Lemma non_zero_run ms sub nts ts rest :
  ready ms -> node ms = Terminal.NonZero sub -> P_seq sub -> decoded ctx Seq sub = true ->
  turns (NonTerm.Expression :: nts, ts, T ms ++ rest) (NonTerm.InscribePre :: nts, ms :: ts, rest).
Proof.
  intros Hr Hn Ps Hd. rewrite (T_node ctx ms), Hn. cbn [tokens app]. rewrite <- app_assoc.
  apply end_if_run; [done | done | done |]. cbn [app]. eapply turns_step; [done|]. cbn [app].
  by eapply (turns_wrap NonTerm.NonZero Terminal.NonZero).
Qed.

Lemma or_i_run ms l r nts ts rest :
  ready ms -> node ms = Terminal.OrI l r -> P_seq l -> P_seq r ->
  decoded ctx Seq l = true -> decoded ctx Seq r = true ->
  turns (NonTerm.Expression :: nts, ts, T ms ++ rest) (NonTerm.InscribePre :: nts, ms :: ts, rest).
Proof.
  intros Hr Hn Pl Pr Hl Hr'. rewrite (T_node ctx ms), Hn. cbn [tokens app]. rewrite <- app_assoc.
  apply end_if_run; [done | done | done |]. cbn [app]. eapply turns_step; [done|]. cbn [app].
  rewrite <- app_assoc. etrans; [by apply Pl|]. cbn [app].
  eapply turns_step; [|reflexivity]. cbn [decode_step]. unfold reduce2. rewrite <- Hn. by apply reduced_ready.
Qed.

Lemma or_d_run ms l r nts ts rest :
  ready ms -> node ms = Terminal.OrD l r -> P_one l -> P_seq r ->
  decoded ctx One l = true -> decoded ctx Seq r = true -> starts_inscription rest = false ->
  turns (NonTerm.Expression :: nts, ts, T ms ++ rest) (NonTerm.InscribePre :: nts, ms :: ts, rest).
Proof.
  intros Hr Hn Pl Pr Hl Hr' Hrest. rewrite (T_node ctx ms), Hn. cbn [tokens app]. rewrite <- app_assoc.
  apply end_if_run; [done | done | done |]. cbn [app]. eapply turns_step; [done|]. cbn [app].
  eapply turns_step; [done|]. cbn [app]. etrans; [by apply Pl|].
  by eapply (turns_bin NonTerm.OrD Terminal.OrD).
Qed.

Lemma or_c_run ms l r nts ts rest :
  ready ms -> node ms = Terminal.OrC l r -> P_one l -> P_seq r -> begins (T l) ->
  decoded ctx One l = true -> decoded ctx Seq r = true -> starts_inscription rest = false ->
  turns (NonTerm.Expression :: nts, ts, T ms ++ rest) (NonTerm.InscribePre :: nts, ms :: ts, rest).
Proof.
  intros Hr Hn Pl Pr Hb Hl Hr' Hrest. rewrite (T_node ctx ms), Hn. cbn [tokens app]. rewrite <- app_assoc.
  apply end_if_run; [done | done | done |]. cbn [app]. eapply turns_step; [done|]. cbn [app].
  eapply turns_step.
  { cbn [decode_step]. instantiate (1 := (NonTerm.Expression :: NonTerm.OrC :: NonTerm.InscribePre :: nts,
      r :: ts, T l ++ rest)). by destruct (T l) as [|[] ?]. }
  etrans; [by apply Pl|]. by eapply (turns_bin NonTerm.OrC Terminal.OrC).
Qed.

Lemma and_or_run ms a b c nts ts rest :
  ready ms -> node ms = Terminal.AndOr a b c -> P_one a -> P_seq b -> P_seq c ->
  decoded ctx One a = true -> decoded ctx Seq b = true -> decoded ctx Seq c = true ->
  starts_inscription rest = false ->
  turns (NonTerm.Expression :: nts, ts, T ms ++ rest) (NonTerm.InscribePre :: nts, ms :: ts, rest).
Proof.
  intros Hr Hn Pa Pb Pc Ha Hb Hc Hrest. rewrite (T_node ctx ms), Hn. cbn [tokens app]. rewrite <- app_assoc.
  apply end_if_run; [done | done | done |]. cbn [app]. eapply turns_step; [done|]. cbn [app].
  rewrite <- app_assoc. etrans; [by apply Pc|]. cbn [app]. eapply turns_step; [done|]. cbn [app].
  etrans; [by apply Pa|]. eapply turns_step; [|reflexivity]. cbn [decode_step]. rewrite <- Hn.
  by apply reduced_ready.
Qed.

Lemma thresh_run ms k first l subs nts ts rest :
  ready ms -> node ms = Terminal.Thresh (mkThreshold k (first :: rev l ++ subs)) ->
  P_one first -> decoded ctx One first = true -> begins (T first) ->
  Forall (fun w => P_w w /\ decoded ctx WPlace w = true) l ->
  (l = [] \/ starts_inscription (T first) = false) -> starts_inscription rest = false ->
  turns (NonTerm.ThreshW k (length subs) :: nts, subs ++ ts,
         concat (map (fun w => Token.Add :: T w) l) ++ T first ++ rest) (nts, ms :: ts, rest).
Proof.
  intros Hr Hn Pf Hdf Hb Hl Hs Hrest. revert subs Hn. induction Hl as [|w l [Pw Hdw] _ IH]; intros subs Hn.
  - cbn [map concat app]. eapply turns_step.
    { cbn [decode_step]. instantiate (1 := (NonTerm.Expression :: NonTerm.ThreshE k (length subs + 1) :: nts,
        subs ++ ts, T first ++ rest)). by destruct (T first) as [|[] ?]. }
    etrans; [by apply Pf|]. eapply turns_step; [|reflexivity]. cbn [decode_step].
    replace (length subs + 1) with (length (first :: subs)) by (simpl; lia).
    change (first :: subs ++ ts) with ((first :: subs) ++ ts). rewrite pop_subs_app. cbn [mbind option_bind].
    cbn [rev app] in Hn. destruct Hr as (Hwf & Hcv & Hh). pose proof (wf_inv _ _ Hwf) as (_ & Hv & _).
    rewrite Hn in Hv. rewrite (proj2 (Threshold.new_valid 0 k _ _)) by (split; [done | exact Hv]).
    rewrite <- Hn. by apply reduced_ready.
  - cbn [map concat app]. rewrite <- app_assoc. eapply turns_step; [done|]. cbn [app].
    etrans.
    { apply Pw; [done|]. destruct Hs as [?|Hs]; [done|]. destruct l; [cbn [map concat app]; by apply starts_app | done]. }
    replace (length subs + 1) with (length (w :: subs)) by (simpl; lia).
    change (w :: subs ++ ts) with ((w :: subs) ++ ts). apply IH; [destruct Hs; [done | by right]|].
    rewrite Hn. cbn [rev]. by rewrite <- app_assoc.
Qed.

(** The parts of a threshold that was decoded. *)
Lemma thresh_parts ms : ready ms -> Forall parses (children ms) -> P_thresh ms.
Proof.
  intros Hr IH Hd thresh Hn nts ts rest Hrest. destruct ms as [nd t e]. cbn [node] in Hn. subst nd.
  destruct thresh as [k data]. cbn [decoded] in Hd. destruct data as [|first l]; [done|].
  pose proof (ready_children _ Hr) as Hch. rewrite children_node in IH, Hch.
  change (Forall parses (first :: l)) in IH. change (Forall ready (first :: l)) in Hch.
  apply Forall_cons_1 in IH as [(_ & Pf & _) IH]. apply Forall_cons_1 in Hch as [Hrf _]. bool_hyps.
  exists k, (thresh_tokens (map T (first :: l))). split; [done|].
  cbn [map thresh_tokens]. rewrite <- map_rev, map_map, <- app_assoc.
  apply (thresh_run _ k first (rev l) [] nts ts rest); try done.
  - by rewrite rev_involutive, app_nil_r.
  - by apply (decoded_begins first One).
  - apply Forall_rev, List.Forall_forall. intros w Hw. rewrite List.Forall_forall in IH.
    destruct (IH w Hw) as (_ & _ & _ & _ & _ & Pw & _). split; [done|].
    match goal with H : forallb _ _ = true |- _ => rewrite forallb_forall in H; by apply H end.
  - match goal with H : (_ || _) = true |- _ => apply orb_true_iff in H as [H|H] end.
    + left. by destruct l.
    + right. by apply negb_true_iff.
Qed.

(** What a [VERIFY] is not read with. *)
Definition not_equal (l : list Token) : Prop := match l with [] | Token.Equal :: _ => False | _ => True end.

Lemma not_equal_app l l' : not_equal l -> not_equal (l ++ l').
Proof. by destruct l as [|[] l]. Qed.

Lemma not_equal_data b l : not_equal (data_token b :: l).
Proof. unfold data_token. by repeat case_match. Qed.

Lemma closed_not_equal ms : closed ms = true -> is_hash_lock ms = false -> not_equal (T ms).
Proof.
  destruct ms as [nd t e]. intros Hcl Hh. destruct nd; try discriminate Hcl; try discriminate Hh; try done;
    try apply not_equal_data.
Qed.

Lemma verify_not_equal sub :
  ready sub -> decoded ctx One sub = true -> is_hash_lock sub = false -> is_pre_hash sub = false ->
  (match node sub with Terminal.Thresh _ => False | _ => True end) -> not_equal (T sub).
Proof.
  intros Hr Hd Hh Hp Ht. destruct sub as [nd t e].
  destruct nd; try discriminate Hd; try discriminate Hh; try done; try apply not_equal_data.
  - cbn [decoded] in Hd. apply andb_true_iff in Hd as [_ Hcl]. cbn [tokens].
    by apply not_equal_app, closed_not_equal.
  - cbn [tokens]. destruct Hr as (Hwf & _). apply wf_inv in Hwf as (_ & _ & Ht' & _).
    destruct (typed_inscriptions i sub t (or_intror Ht')) as [Hne _].
    destruct (exists_last Hne) as (l & x & ->). unfold inscription_tokens. by rewrite rev_app_distr.
Qed.

(** [VERIFY], by what it is read with. *)
Lemma verify_run ms sub nts ts rest :
  ready ms -> ready sub -> node ms = Terminal.Verify sub -> decoded ctx One ms = true -> parses sub ->
  is_hash_lock sub = true \/ starts_inscription rest = false ->
  turns (NonTerm.Expression :: nts, ts, T ms ++ rest) (NonTerm.InscribePre :: nts, ms :: ts, rest).
Proof.
  intros Hr Hrs Hn Hd (_ & Pone & _ & _ & _ & _ & Pt) Hrest. destruct ms as [nd t e]. cbn [node] in Hn. subst nd.
  cbn [decoded] in Hd. apply andb_true_iff in Hd as [Hd Hpre%negb_true_iff].
  pose proof (turns_wrap NonTerm.Verify Terminal.Verify _ sub (NonTerm.InscribePre :: nts) ts rest _
    (fun _ _ _ => eq_refl) Hr eq_refl (rtc_refl _ _)) as Hwrap.
  destruct (is_hash_lock sub) eqn:Eh.
  { destruct (hash_round sub (proj1 Hrs) Eh) as [_ Hv]. by eapply turns_expression; [apply Hv|]. }
  destruct Hrest as [?|Hrest]; [done|].
  assert ((exists thresh, node sub = Terminal.Thresh thresh)
    \/ match node sub with Terminal.Thresh _ => False | _ => True end) as [[thresh Ht]|Ht]
    by (destruct (node sub); eauto).
  - destruct (Pt Hd thresh Ht (NonTerm.Verify :: NonTerm.InscribePre :: nts) ts rest Hrest)
      as (k & tail & HT & Hrun).
    cbn [tokens app]. rewrite HT. eapply turns_expression; [cbn [app expression verify_expression]; reflexivity|].
    rewrite Nat2N.id. cbn [app]. by etrans.
  - eapply (wrapper_run NonTerm.Verify Token.Verify Terminal.Verify _ sub); try done.
    intros r. pose proof (verify_not_equal sub Hrs Hd Eh Hpre Ht) as Hne.
    by destruct (T sub) as [|[] l].
Qed.

(** ** All fragments *)

Lemma ready_inscriptions i sub t e :
  ready (mkMiniscript (Terminal.InscribePre i sub) t e) \/ ready (mkMiniscript (Terminal.InscribePost i sub) t e) ->
  i <> [] /\ Forall (fun x => validate x = true) i.
Proof.
  intros [[Hwf _]|[Hwf _]]; apply wf_inv in Hwf as (_ & _ & Ht & _).
  - exact (typed_inscriptions i sub t (or_introl Ht)).
  - exact (typed_inscriptions i sub t (or_intror Ht)).
Qed.

Lemma starts_inscriptions i l : i <> [] -> starts_inscription (inscription_tokens i ++ l) = true.
Proof.
  intros Hne. destruct (exists_last Hne) as (i' & x & ->). unfold inscription_tokens. by rewrite rev_app_distr.
Qed.

Lemma expression_post i rest :
  i <> [] -> Forall (fun x => validate x = true) i -> own i = true -> starts_inscription rest = false ->
  expression ctx (inscription_tokens i ++ rest)
  = Ok ([NonTerm.Expression; NonTerm.InscribePost i], [], rest).
Proof.
  intros Hne Hv Ho Hr. pose proof (take_round i rest Hv Ho Hr) as Ht.
  pose proof (starts_inscriptions i rest Hne) as Hs.
  destruct (inscription_tokens i ++ rest) as [|[] l]; try discriminate Hs. cbn [expression]. by rewrite Ht.
Qed.

(** Envelopes read before the fragment on top. *)
Lemma turns_inscribe_pre ms i sub nts ts rest s :
  ready ms -> node ms = Terminal.InscribePre i sub -> own i = true -> starts_inscription rest = false ->
  turns (nts, ms :: ts, rest) s ->
  turns (NonTerm.InscribePre :: nts, sub :: ts, inscription_tokens i ++ rest) s.
Proof.
  intros Hr Hn Ho Hs. destruct ms as [nd t e]. cbn [node] in Hn. subst nd.
  destruct (ready_inscriptions i sub t e (or_introl Hr)) as [Hne Hv]. apply turns_step. cbn [decode_step].
  rewrite starts_inscriptions, take_round by done. exact (reduced_ready _ nts ts rest Hr).
Qed.

(** Ltac for the children of a node that is ready, all of which parse. *)
Ltac open_children Hr IH :=
  let Hch := fresh "Hch" in
  pose proof (ready_children _ Hr) as Hch; rewrite children_node in IH, Hch; cbn [node] in IH, Hch;
  forall_children Hch; forall_children IH.

Lemma leaf_run ms nts ts rest :
  ctx <> NoChecks -> ready ms -> children ms = [] ->
  match node ms with Terminal.PkH _ | Terminal.Thresh _ => False | _ => True end ->
  turns (NonTerm.Expression :: nts, ts, T ms ++ rest) (NonTerm.InscribePre :: nts, ms :: ts, rest).
Proof. intros. eapply turns_expression; [by apply reads_leaves | done]. Qed.

Lemma pre_parses ms : ctx <> NoChecks -> ready ms -> Forall parses (children ms) -> P_thresh ms -> P_pre ms.
Proof.
  intros Hctx Hr IH Pth Hd Hpre nts ts rest Hrest. destruct ms as [nd t e].
  destruct nd; try discriminate Hd; try (by apply leaf_run); try done;
    try (destruct Hrest as [Hrest|Hrest]; [discriminate Hrest|]); cbn [decoded] in Hd.
  - open_children Hr IH. destruct (ready_inscriptions i sub t e (or_intror Hr)) as [Hne Hv]. bool_hyps.
    destruct Hc0 as (_ & Pone & _). pose proof (decoded_begins sub One Hc ltac:(done) ltac:(done)) as Hb.
    cbn [tokens]. rewrite <- app_assoc. eapply turns_expression.
    { apply expression_post; try done. apply starts_app; [done | by apply decoded_starts]. }
    cbn [app]. etrans; [by apply Pone|].
    by eapply (turns_wrap (NonTerm.InscribePost i) (Terminal.InscribePost i)
      (mkMiniscript (Terminal.InscribePost i sub) t e) sub).
  - open_children Hr IH. destruct Hc0 as (_ & Pone & _).
    by apply (wrapper_run NonTerm.Check Token.CheckSig Terminal.Check _ sub).
  - open_children Hr IH. destruct Hc0 as (_ & _ & Pseq & _). by eapply dup_if_run.
  - open_children Hr IH. by eapply verify_run.
  - open_children Hr IH. destruct Hc0 as (_ & _ & Pseq & _). by eapply non_zero_run.
  - open_children Hr IH. destruct Hc0 as (_ & Pone & _).
    by apply (wrapper_run NonTerm.ZeroNotEqual Token.ZeroNotEqual Terminal.ZeroNotEqual _ sub).
  - open_children Hr IH. bool_hyps. destruct Hc1 as (_ & Pone & _). destruct Hc2 as (_ & _ & _ & _ & _ & Pw & _).
    apply (binary_run NonTerm.AndB Token.BoolAnd Terminal.AndB _ l r); try done.
    by apply (decoded_begins l One).
  - open_children Hr IH. bool_hyps. destruct Hc2 as (_ & Pa & _). destruct Hc3 as (_ & _ & Pb & _).
    destruct Hc4 as (_ & _ & Pc & _). by apply (and_or_run _ a b c).
  - open_children Hr IH. bool_hyps. destruct Hc1 as (_ & Pone & _). destruct Hc2 as (_ & _ & _ & _ & _ & Pw & _).
    apply (binary_run NonTerm.OrB Token.BoolOr Terminal.OrB _ l r); try done.
    by apply (decoded_begins l One).
  - open_children Hr IH. bool_hyps. destruct Hc1 as (_ & Pl & _). destruct Hc2 as (_ & _ & Pr & _).
    by apply (or_d_run _ l r).
  - open_children Hr IH. bool_hyps. destruct Hc1 as (_ & Pl & _). destruct Hc2 as (_ & _ & Pr & _).
    apply (or_c_run _ l r); try done. by apply (decoded_begins l One).
  - open_children Hr IH. bool_hyps. destruct Hc1 as (_ & _ & Pl & _). destruct Hc2 as (_ & _ & Pr & _).
    by apply (or_i_run _ l r).
  - destruct (Pth Hd thresh eq_refl (NonTerm.InscribePre :: nts) ts rest Hrest) as (k & tail & HT & Hrun).
    rewrite HT. eapply turns_expression; [reflexivity|]. rewrite Nat2N.id. exact Hrun.
Qed.

Lemma one_parses ms : ready ms -> Forall parses (children ms) -> P_pre ms -> P_one ms.
Proof.
  intros Hr IH Hpre Hd nts ts rest Hrest.
  assert ((exists i sub, node ms = Terminal.InscribePre i sub)
    \/ match node ms with Terminal.InscribePre _ _ => False | _ => True end) as [(i & sub & Hn)|Hn]
    by (destruct (node ms); eauto).
  - destruct ms as [nd t e]. cbn [node] in Hn. subst nd. open_children Hr IH. destruct Hc0 as (Psub & _).
    cbn [decoded] in Hd. bool_hyps. cbn [tokens]. rewrite <- app_assoc. etrans.
    + apply Psub; [done | | by left]. destruct sub as [nd t' e']. by destruct nd.
    + eapply (turns_inscribe_pre (mkMiniscript (Terminal.InscribePre i sub) t e)); done.
  - etrans; [by apply Hpre; [| |right]|]. by apply turns_pre.
Qed.

Lemma seq_one ms :
  decoded ctx Seq ms = true -> (match node ms with Terminal.AndV _ _ => False | _ => True end) ->
  decoded ctx One ms = true.
Proof. destruct ms as [nd t e]. by destruct nd. Qed.

Lemma is_and_v_node ms :
  (exists l r, node ms = Terminal.AndV l r) \/ match node ms with Terminal.AndV _ _ => False | _ => True end.
Proof. destruct (node ms); eauto. Qed.

(** The right part of a conjunction is read first. *)
Lemma and_v_right ms l r nts ts rest s :
  ready ms -> node ms = Terminal.AndV l r -> decoded ctx Seq ms = true -> Forall parses (children ms) ->
  (decoded ctx Seq l = true -> P_chain l -> is_and_v (T l ++ rest) = true ->
   turns (nts, r :: ts, T l ++ rest) s) ->
  turns (NonTerm.Expression :: nts, ts, T ms ++ rest) s.
Proof.
  intros Hr Hn Hd IH Hs. destruct ms as [nd t e]. cbn [node] in Hn. subst nd. open_children Hr IH.
  destruct Hc1 as (_ & _ & _ & Pl & _). destruct Hc2 as (_ & Pr & _). cbn [decoded] in Hd. bool_hyps.
  pose proof (decoded_begins l Seq Hc ltac:(done) ltac:(done)) as Hb.
  cbn [tokens]. rewrite <- app_assoc. etrans; [apply Pr; [done | by apply starts_app]|].
  apply Hs; [done | done | by apply begins_and_v].
Qed.

Lemma seq_parses ms : ready ms -> Forall parses (children ms) -> P_one ms -> P_seq ms.
Proof.
  intros Hr IH Hone Hd nts ts rest Hrest. destruct (is_and_v_node ms) as [(l & r & Hn)|Hn].
  - apply (and_v_right ms l r); [done | done | done | done |]. intros Hdl Pl Hand.
    eapply turns_step; [cbn [decode_step]; by rewrite Hand|]. cbn [app]. by apply (Pl Hdl ms r).
  - etrans; [apply Hone; [by apply seq_one | by apply not_and_v_starts]|].
    eapply turns_step; [|reflexivity]. cbn [decode_step]. by rewrite Hrest.
Qed.

Lemma chain_parses ms : ready ms -> Forall parses (children ms) -> P_one ms -> P_chain ms.
Proof.
  intros Hr IH Hone Hd p r nts ts rest Hp Hn Hrest.
  assert (turns (NonTerm.AndV :: nts, ms :: r :: ts, rest) (nts, p :: ts, rest)) as Hred.
  { eapply turns_step; [|reflexivity]. cbn [decode_step]. rewrite Hrest. unfold reduce2. rewrite <- Hn.
    by apply reduced_ready. }
  destruct (is_and_v_node ms) as [(l' & r' & Hn')|Hn'].
  - apply (and_v_right ms l' r'); [done | done | done | done |]. intros Hdl Pl Hand.
    eapply turns_step; [cbn [decode_step]; by rewrite Hand|]. cbn [app].
    eapply turns_step; [cbn [decode_step]; by rewrite Hand|]. cbn [app].
    etrans; [by apply (Pl Hdl ms r')|]. exact Hred.
  - etrans; [apply Hone; [by apply seq_one | by apply not_and_v_starts]|]. exact Hred.
Qed.

Lemma is_w_starts ms rest :
  ready ms -> decoded ctx WPlace ms = true -> is_w ms = true -> starts_inscription (T ms ++ rest) = false.
Proof.
  intros Hr Hd Hw. destruct ms as [nd t e]. pose proof (ready_children _ Hr) as Hch.
  rewrite children_node in Hch. cbn [node] in Hch. destruct nd; try discriminate Hw; [done|].
  forall_children Hch. cbn [decoded] in Hd. bool_hyps. cbn [tokens]. rewrite <- app_assoc.
  apply starts_app; [by apply (decoded_begins sub Seq) | done].
Qed.

Lemma w_starts ms rest :
  ready ms -> decoded ctx WPlace ms = true -> is_post ms = false -> starts_inscription (T ms ++ rest) = false.
Proof.
  intros Hr Hd Hp. destruct ms as [nd t e].
  destruct nd; try discriminate Hd; try discriminate Hp; try (by apply is_w_starts).
  pose proof (ready_children _ Hr) as Hch. rewrite children_node in Hch. cbn [node] in Hch. forall_children Hch.
  cbn [decoded] in Hd. bool_hyps. cbn [tokens]. rewrite <- app_assoc. by apply is_w_starts.
Qed.

Lemma w_pre_parses ms : ready ms -> Forall parses (children ms) -> P_w_pre ms.
Proof.
  intros Hr IH Hd Hpre nts ts rest Hrest. destruct ms as [nd t e].
  destruct nd; try discriminate Hd; try done; open_children Hr IH; cbn [decoded] in Hd.
  - destruct Hrest as [Hrest|Hrest]; [discriminate Hrest|]. bool_hyps.
    destruct (ready_inscriptions i sub t e (or_intror Hr)) as [Hne Hv].
    destruct Hc0 as (_ & _ & _ & _ & _ & Pw & _). cbn [tokens]. rewrite <- app_assoc.
    eapply turns_step.
    { cbn [decode_step]. rewrite starts_inscriptions, take_round by (done || by apply w_starts). reflexivity. }
    cbn [app]. etrans; [by apply Pw|].
    by eapply (turns_wrap (NonTerm.InscribePost i) (Terminal.InscribePost i)
      (mkMiniscript (Terminal.InscribePost i sub) t e) sub).
  - destruct Hc0 as (_ & _ & Pseq & _). cbn [tokens app]. rewrite <- app_assoc.
    eapply turns_step; [done|]. cbn [app]. etrans; [by apply Pseq|].
    eapply turns_step; [|reflexivity]. cbn [app decode_step].
    exact (reduced_ready _ (NonTerm.InscribePre :: nts) ts rest Hr).
  - destruct Hc0 as (_ & _ & Pseq & _). pose proof (is_w_starts _ rest Hr Hd eq_refl) as Hs. bool_hyps.
    pose proof (decoded_begins sub Seq Hc ltac:(done) ltac:(done)) as Hb. cbn [tokens] in Hs |- *.
    eapply turns_step.
    { cbn [decode_step]. rewrite Hs. instantiate (1 := (NonTerm.Expression :: NonTerm.MaybeAndV :: NonTerm.Swap
        :: NonTerm.InscribePre :: nts, ts, (T sub ++ [Token.Swap]) ++ rest)). by destruct (T sub) as [|[] ?]. }
    rewrite <- app_assoc. etrans; [by apply Pseq|]. eapply turns_step; [|reflexivity]. cbn [app decode_step].
    exact (reduced_ready _ (NonTerm.InscribePre :: nts) ts rest Hr).
Qed.

Lemma w_parses ms : ready ms -> Forall parses (children ms) -> P_w_pre ms -> P_w ms.
Proof.
  intros Hr IH Hpre Hd nts ts rest Hrest.
  assert ((exists i sub, node ms = Terminal.InscribePre i sub)
    \/ match node ms with Terminal.InscribePre _ _ => False | _ => True end) as [(i & sub & Hn)|Hn]
    by (destruct (node ms); eauto).
  - destruct ms as [nd t e]. cbn [node] in Hn. subst nd. open_children Hr IH.
    destruct Hc0 as (_ & _ & _ & _ & Psub & _). cbn [decoded] in Hd. bool_hyps. cbn [tokens].
    rewrite <- app_assoc. etrans.
    + apply Psub; [done | | by left]. destruct sub as [nd t' e']. by destruct nd.
    + eapply (turns_inscribe_pre (mkMiniscript (Terminal.InscribePre i sub) t e)); done.
  - etrans; [by apply Hpre; [| |right]|]. by apply turns_pre.
Qed.

(** Every fragment of the form is read back. *)
Lemma ready_parses ms : ctx <> NoChecks -> ready ms -> parses ms.
Proof.
  intros Hctx Hr. destruct Hr as (Hwf & Hr). revert ms Hwf Hr. refine (wf_tree_ind ctx _ _).
  intros ms Hwf _ IH Hr0. assert (ready ms) as Hr by done. clear Hr0.
  assert (Forall parses (children ms)) as Hch.
  { pose proof (ready_children _ Hr) as Hc. apply List.Forall_forall. intros c Hin.
    rewrite List.Forall_forall in IH, Hc. destruct (Hc c Hin) as (? & ?). by apply IH. }
  pose proof (thresh_parts ms Hr Hch) as Pt. pose proof (pre_parses ms Hctx Hr Hch Pt) as Ppre.
  pose proof (one_parses ms Hr Hch Ppre) as Pone. pose proof (w_pre_parses ms Hr Hch) as Pwp.
  split_and!; [done | done | by apply seq_parses | by apply chain_parses | done | by apply w_parses | done].
Qed.

Lemma tokens_valid l ms : lex l = Some (Ok (rev (T ms))) -> Forall token_valid (T ms).
Proof.
  intros H. pose proof (lex_total l) as Hl. rewrite H in Hl. cbn in Hl.
  apply Forall_rev in Hl. by rewrite rev_involutive in Hl.
Qed.

Lemma decode_tokens ms :
  ctx <> NoChecks -> ready ms -> decoded ctx Seq ms = true -> Forall token_valid (T ms) ->
  decode ctx (T ms) = Some (Ok (ms, [])).
Proof.
  intros Hctx Hr Hd Hv. destruct (decode_sound ctx (T ms) Hv) as (r & Hdec & _).
  destruct (ready_parses ms Hctx Hr) as (_ & _ & Pseq & _).
  specialize (Pseq Hd [] [] [] eq_refl). rewrite app_nil_r in Pseq. unfold decode in *.
  destruct (loop_turns _ _ _ _ Pseq Hdec) as (fuel & Hl). cbn in Hl. rewrite Hdec.
  by destruct fuel.
Qed.
End RoundTrip.

Lemma decode_encoded {B : Bitcoin} {Sc : Scripts} {K : MiniscriptKey} {TP : ToPublicKey K} {PK : ParseableKey}
    {LT : LockTimeLaws B} {BL : BuilderLaws B} {SZ : SizeLaws B} {KL : KeyLaws TP} {SL : ScriptLaws Sc}
    {HL : HashLaws Sc} (ctx : ScriptContext) {PL : ParseableLaws TP ctx} (ms : Miniscript) (params : ExtParams) :
  ctx <> NoChecks -> wf ctx ms -> context_valid ctx ms -> height ms <= MAX_RECURSION_DEPTH ->
  c_base (corr (ty ms)) = BaseB -> ext_check ctx ms params = Ok tt -> decoded ctx Seq ms = true ->
  decode_with_ext ctx (into_script (encode ctx ms Builder_new)) params = Some (Ok ms).
Proof.
  intros Hctx Hwf Hcv Hh Hb He Hd. pose proof (lex_encode ctx ms Hctx Hwf Hcv) as Hlex.
  unfold decode_with_ext. rewrite Hlex. cbn [mbind option_bind]. rewrite rev_involutive.
  pose proof (decode_tokens ctx ms Hctx (conj Hwf (conj Hcv Hh)) Hd (tokens_valid ctx _ ms Hlex)) as Hdec.
  destruct (wf_inv _ _ Hwf) as (_ & _ & Ht & _). apply context_valid_inv in Hcv as [Hg _].
  change (decode ctx (tokens ctx ms) = Some (Ok (ms, []))) in Hdec. rewrite Hdec.
  cbn [mbind option_bind result_bind]. rewrite Hg. cbn [map_err mbind result_bind]. rewrite Ht.
  cbn [map_err mbind result_bind]. rewrite Hb, bool_decide_eq_true_2 by done. cbn [negb].
  by rewrite He.
Qed.

(** C13: Decoding is a left inverse of encoding: for every Miniscript of type B that the
    checked constructors build in a real script context, that passes the analysis asked
    for, and whose conjunctions and envelopes stand where the parser puts them (an [and_v]
    leans to the left and is not an argument on its own, an envelope is attached to the
    innermost fragment that it touches, and keys are not hashed, since a hash of a key is
    read as a raw hash), decoding the script of the Miniscript yields exactly that
    Miniscript, type and size annotations included. *)
Theorem decode_encode {B : Bitcoin} {Sc : Scripts} {K : MiniscriptKey} {TP : ToPublicKey K} {PK : ParseableKey}
    {LT : LockTimeLaws B} {BL : BuilderLaws B} {SZ : SizeLaws B} {KL : KeyLaws TP} {SL : ScriptLaws Sc}
    {HL : HashLaws Sc} (ctx : ScriptContext) {PL : ParseableLaws TP ctx} (ms : Miniscript) (params : ExtParams) :
  ctx <> NoChecks -> wf ctx ms -> context_valid ctx ms -> height ms <= MAX_RECURSION_DEPTH ->
  c_base (corr (ty ms)) = BaseB -> ext_check ctx ms params = Ok tt -> decoded ctx Seq ms = true ->
  decode_with_ext ctx (into_script (encode ctx ms Builder_new)) params = Some (Ok ms).
Proof. intros. by apply decode_encoded. Qed.

Lemma decode_encode_witness :
  decoded Segwitv0 Seq (sample_vault Segwitv0) = true
  /\ decode_with_ext Segwitv0
       (into_script (encode (K := reference_key) Segwitv0 (sample_vault Segwitv0) Builder_new)) sane
     = Some (Ok (sample_vault Segwitv0)).
Proof.
  split; [vm_compute; reflexivity|].
  apply (decode_encode Segwitv0 (sample_vault Segwitv0) sane);
    [done | apply sample_vault_wf | apply sample_vault_valid | vm_compute; lia | vm_compute; reflexivity
    | vm_compute; reflexivity | vm_compute; reflexivity].
Defined.
