(* ===== verification/Text.v ===== *)
(** Strings and numbers of the Rust standard library: [&str] as its UTF-8 bytes, the
    decimal form of unsigned integers and [u32::from_str]. *)
From Stdlib Require Strings.String Strings.Byte.
Export (notations) Stdlib.Strings.String Stdlib.Strings.Byte.
From S2P Require Import Prelude Bitcoin Script.

(** A Rust [&str] or [String]. *)
Abbreviation str := (list Byte.byte).

(** A string literal. *)
Definition lit (s : String.string) : str := String.list_byte_of_string s.
Arguments lit s%_string_scope.

Definition code (b : Byte.byte) : N := Byte.to_N b.

Lemma code_inj a b : code a = code b -> a = b.
Proof. intros H. apply (f_equal byte_of) in H. unfold code in H. by rewrite !byte_of_to_N in H. Qed.

Lemma code_bound b : (code b < 256)%N.
Proof. pose proof (Byte.to_N_bounded b). unfold code. lia. Qed.

(** * [str::char_indices]: every character with the position of its first byte *)

Definition char_len (lead : Byte.byte) : nat :=
  if (code lead <? 0x80)%N then 1
  else if (code lead <? 0xE0)%N then 2
  else if (code lead <? 0xF0)%N then 3
  else 4.

(** The code point of the bytes of one character. *)
Definition char_code (lead : Byte.byte) (cont : list Byte.byte) : N :=
  let first :=
    match length cont with
    | 0 => code lead
    | 1 => N.land (code lead) 0x1F
    | 2 => N.land (code lead) 0x0F
    | _ => N.land (code lead) 0x07
    end in
  fold_left (fun acc b => N.lor (N.shiftl acc 6) (N.land (code b) 0x3F)) cont first.

Fixpoint char_indices_from (fuel pos : nat) (s : str) : list (nat * N) :=
  match fuel, s with
  | S fuel, lead :: rest =>
      let n := char_len lead in
      (pos, char_code lead (take (n - 1) rest))
      :: char_indices_from fuel (pos + n) (drop (n - 1) rest)
  | _, _ => []
  end.

Definition char_indices (s : str) : list (nat * N) := char_indices_from (length s) 0 s.

Definition ascii (b : Byte.byte) : Prop := (code b < 0x80)%N.

Lemma char_indices_from_ascii fuel pos s :
  Forall ascii s -> length s <= fuel ->
  char_indices_from fuel pos s = combine (seq pos (length s)) (map code s).
Proof.
  intros H. revert fuel pos. induction H as [|b s Hb _ IH]; intros [|fuel] pos Hl; simpl in *; try done; [lia|].
  unfold char_len. apply N.ltb_lt in Hb. rewrite Hb. simpl. rewrite drop_0, IH by lia.
  by rewrite Nat.add_1_r.
Qed.

Lemma char_indices_ascii s :
  Forall ascii s -> char_indices s = combine (seq 0 (length s)) (map code s).
Proof. intros H. by apply char_indices_from_ascii. Qed.

(** What every Rust string satisfies: its bytes decode to characters, and a character of
    several bytes is not ASCII. *)
Fixpoint is_str_from (fuel : nat) (s : str) : bool :=
  match fuel, s with
  | S fuel, lead :: rest =>
      let n := char_len lead in
      let cont := take (n - 1) rest in
      ((code lead <? 0x80) || (0x80 <=? char_code lead cont))%N
      && is_str_from fuel (drop (n - 1) rest)
  | _, _ => true
  end.

Definition is_str (s : str) : bool := is_str_from (length s) s.

Lemma is_str_ascii s : Forall ascii s -> is_str s = true.
Proof.
  unfold is_str. generalize (le_n (length s)). generalize (length s) at 2 3.
  intros fuel Hf H. revert fuel Hf. induction H as [|b s Hb _ IH]; intros [|fuel] Hf; try done.
  cbn [is_str_from]. unfold ascii in Hb. apply N.ltb_lt in Hb as Hb'. unfold char_len.
  rewrite Hb'. simpl. apply IH. simpl in Hf. lia.
Qed.

(** When all characters of a string are ASCII, so are its bytes. *)
Lemma is_str_bytes (P : N -> Prop) s :
  is_str s = true -> (forall c, P c -> (c < 0x80)%N) ->
  Forall (fun x => P x.2) (char_indices s) -> Forall (fun b => P (code b)) s.
Proof.
  intros H HP. unfold char_indices, is_str in *. revert H. generalize (le_n (length s)).
  generalize (length s) at 2 3 4. generalize 0. intros pos fuel. revert pos s.
  induction fuel as [|fuel IH]; intros pos [|lead rest] Hf Hs Hc; simpl in Hf; try lia; [constructor..|].
  cbn [is_str_from char_indices_from] in *. apply andb_true_iff in Hs as [Hl Hs].
  apply Forall_cons_1 in Hc as [Hc Hcs]. simpl in Hc.
  apply orb_true_iff in Hl as [Hl|Hl].
  - unfold char_len in *. rewrite Hl in *. simpl in *.
    constructor; [done|]. by apply (IH (pos + 1)); [lia|..].
  - apply HP in Hc. apply N.leb_le in Hl. lia.
Qed.

(** * Decimal numbers *)

Definition digit (d : N) : Byte.byte := byte_of (0x30 + d).

Fixpoint show_digits (fuel : nat) (n : N) : str :=
  match fuel with
  | 0 => []
  | S fuel => if (n <? 10)%N then [digit n] else show_digits fuel (n / 10) ++ [digit (n mod 10)]
  end.

(** [Display] of an unsigned integer; a number has no more digits than bits. *)
Definition show_N (n : N) : str := show_digits (S (N.size_nat n)) n.

(** [num::IntErrorKind] *)
Inductive ParseIntError : Type := Empty | InvalidDigit | PosOverflow.

(** The digits of a [u32], with checked arithmetic. *)
Fixpoint u32_digits (acc : N) (s : str) : result ParseIntError N :=
  match s with
  | [] => Ok acc
  | b :: s =>
      let d := code b in
      if negb ((0x30 <=? d) && (d <=? 0x39))%N then Err InvalidDigit
      else
        let acc := (acc * 10 + (d - 0x30))%N in
        if (acc <? 2 ^ 32)%N then u32_digits acc s else Err PosOverflow
  end.

(** [u32::from_str] *)
Definition u32_from_str (s : str) : result ParseIntError N :=
  match s with
  | [] => Err Empty
  | b :: rest =>
      if bool_decide (b = "+"%byte) then
        match rest with [] => Err InvalidDigit | _ => u32_digits 0 rest end
      else u32_digits 0 s
  end.

Lemma digit_code d : (d < 10)%N -> code (digit d) = (0x30 + d)%N.
Proof. intros H. unfold code, digit. apply byte_of_N. lia. Qed.

Definition is_digit (b : Byte.byte) : Prop := (0x30 <= code b <= 0x39)%N.

Lemma u32_digits_app acc s s' :
  u32_digits acc (s ++ s') = (acc ← u32_digits acc s; u32_digits acc s').
Proof.
  revert acc. induction s as [|b s IH]; intros acc; [done|]. cbn [app u32_digits].
  destruct (negb _); [done|]. by destruct (_ <? _)%N.
Qed.

Lemma u32_digits_digit acc d :
  (d < 10)%N -> (acc * 10 + d < 2 ^ 32)%N -> u32_digits acc [digit d] = Ok (acc * 10 + d)%N.
Proof.
  intros Hd H. cbn [u32_digits]. rewrite digit_code by done.
  assert ((0x30 <=? 0x30 + d) && (0x30 + d <=? 0x39) = true)%N as -> by (apply andb_true_iff; rewrite !N.leb_le; lia).
  cbn [negb]. replace (0x30 + d - 0x30)%N with d by lia. apply N.ltb_lt in H. by rewrite H.
Qed.

Lemma size_nat_log2 n : (0 < n)%N -> N.size_nat n = S (N.to_nat (N.log2 n)).
Proof.
  destruct n as [|p]; [lia|]. intros _. simpl. induction p as [p IH|p IH|]; simpl; try done.
  all: rewrite IH; destruct p; simpl; lia.
Qed.

Lemma size_nat_div10 n : (10 <= n)%N -> N.size_nat (n / 10) < N.size_nat n.
Proof.
  intros H. assert (0 < n / 10)%N by (apply N.div_str_pos; lia).
  rewrite !size_nat_log2 by lia. enough (N.log2 (n / 10) < N.log2 n)%N by lia.
  apply N.log2_lt_pow2; [done|].
  assert (n < 2 ^ (N.log2 n + 1))%N as Hlog by (rewrite N.add_1_r; apply N.log2_spec; lia).
  rewrite N.pow_add_r in Hlog. pose proof (N.Div0.mul_div_le n 10). lia.
Qed.

Lemma show_digits_parse fuel n :
  N.size_nat n < fuel -> (n < 2 ^ 32)%N -> u32_digits 0 (show_digits fuel n) = Ok n.
Proof.
  revert n. induction fuel as [|fuel IH]; intros n Hf Hn; [lia|]. cbn [show_digits].
  destruct (N.ltb_spec n 10) as [Hlt|Hge].
  - by rewrite u32_digits_digit by lia.
  - pose proof (N.div_mod n 10 ltac:(done)) as Hdm. pose proof (N.mod_lt n 10 ltac:(done)) as Hm.
    pose proof (size_nat_div10 n Hge). assert (n / 10 < 2 ^ 32)%N.
    { eapply N.le_lt_trans; [|exact Hn]. by apply N.Div0.div_le_upper_bound; lia. }
    rewrite u32_digits_app, IH by (done || lia).
    cbn [mbind result_bind]. rewrite u32_digits_digit by lia. f_equal. lia.
Qed.

(** The digits of a positive number start with a digit other than zero. *)
Definition leading_digit (b : Byte.byte) : Prop := (0x31 <= code b <= 0x39)%N.

Lemma show_digits_form fuel n :
  (0 < n)%N -> N.size_nat n < fuel ->
  exists b s, show_digits fuel n = b :: s /\ leading_digit b /\ Forall is_digit s.
Proof.
  revert n. induction fuel as [|fuel IH]; intros n Hn Hf; [lia|]. cbn [show_digits].
  destruct (N.ltb_spec n 10) as [Hlt|Hge].
  - exists (digit n), []. split; [done|]. split; [|constructor].
    unfold leading_digit. rewrite digit_code by done. lia.
  - pose proof (N.mod_lt n 10 ltac:(done)) as Hm. pose proof (size_nat_div10 n Hge).
    destruct (IH (n / 10)%N) as (b & s & -> & Hb & Hs); [|lia|].
    { apply N.div_str_pos. lia. }
    exists b, (s ++ [digit (n mod 10)]). split; [done|]. split; [done|].
    apply list.Forall_app. split; [done|]. constructor; [|constructor]. unfold is_digit. rewrite digit_code by done.
    generalize dependent (n mod 10)%N. lia.
Qed.

Lemma show_N_0 : show_N 0 = lit "0".
Proof. reflexivity. Qed.

Lemma show_N_form n :
  (0 < n)%N -> exists b s, show_N n = b :: s /\ leading_digit b /\ Forall is_digit s.
Proof. intros H. apply show_digits_form; [done|lia]. Qed.

Lemma u32_from_show n : (n < 2 ^ 32)%N -> u32_from_str (show_N n) = Ok n.
Proof.
  intros H. pose proof (show_digits_parse (S (N.size_nat n)) n ltac:(lia) H) as Hp.
  fold (show_N n) in Hp. destruct (N.eq_dec n 0%N) as [->|Hn]; [reflexivity|].
  destruct (show_N_form n) as (b & s & Hs & Hb & _); [lia|]. rewrite Hs in *. unfold u32_from_str.
  case_bool_decide as E; [|exact Hp]. subst b. by destruct Hb as [Hb _]; vm_compute in Hb; destruct Hb.
Qed.

Lemma show_N_digits n : Forall is_digit (show_N n).
Proof.
  destruct (N.eq_dec n 0%N) as [->|Hn]; [repeat constructor; vm_compute; congruence|].
  destruct (show_N_form n) as (b & s & -> & Hb & Hs); [lia|]. constructor; [|done].
  unfold leading_digit, is_digit in *. lia.
Qed.
