(* ===== verification/Checksum.v ===== *)
(** The checksum of descriptor strings (src/src/descriptor/checksum.rs): the engine, its
    verification and the checksumming formatter, with the proofs that a written checksum is
    accepted and that the change of any one character is detected. *)
From S2P Require Import Prelude Bitcoin Script Text.

(** * The crate bech32 *)

(** The trait [Checksum]: the parameters of a code. *)
Record Checksum : Type := mkChecksum {
  CHECKSUM_LENGTH : nat;
  CODE_LENGTH : N;
  GENERATOR_SH : list N;
  TARGET_RESIDUE : N;
}.

(** The field elements and the checksum engine of the crate. *)
Class Bech32 : Type := {
  Fe32 : Type;
  Fe32_try_from : N -> option Fe32;
  Fe32_to_char : Fe32 -> Byte.byte;
  CkEngine : Type;
  CkEngine_new : Checksum -> CkEngine;
  CkEngine_input_fe : Checksum -> CkEngine -> Fe32 -> CkEngine;
  CkEngine_input_target_residue : Checksum -> CkEngine -> CkEngine;
  CkEngine_residue : CkEngine -> N;
  PackedFe32_unpack : N -> nat -> N;
}.

(** The residue after one more symbol: the polynomial with five-bit coefficients is
    multiplied by x and reduced by the generator, given by its multiples with 1, 2, 4, 8
    and 16. *)
Definition reduce (gens : list N) (top : N) : N :=
  fold_right (fun '(i, g) acc => N.lxor (if N.testbit top i then g else 0%N) acc) 0%N
    (combine [0; 1; 2; 3; 4]%N gens).

Definition polymod (ck : Checksum) (r f : N) : N :=
  let width := (5 * (N.of_nat (CHECKSUM_LENGTH ck) - 1))%N in
  N.lxor (N.lxor (N.shiftl (N.land r (N.ones width)) 5) f)
    (reduce (GENERATOR_SH ck) (N.shiftr r width)).

(** The documented behaviour of the crate: field elements are five-bit numbers with a
    lower-case letter or digit each, and the engine computes residues. *)
Class Bech32Laws (F : Bech32) : Type := {
  Fe32_value : Fe32 -> N;
  Fe32_try_from_spec : forall n, (n < 32)%N -> exists f, Fe32_try_from n = Some f /\ Fe32_value f = n;
  Fe32_to_char_inj : forall f f',
    (Fe32_value f < 32)%N -> (Fe32_value f' < 32)%N ->
    Fe32_to_char f = Fe32_to_char f' -> Fe32_value f = Fe32_value f';
  Fe32_to_char_alnum : forall f,
    (0x30 <= code (Fe32_to_char f) <= 0x39)%N \/ (0x61 <= code (Fe32_to_char f) <= 0x7a)%N;
  PackedFe32_unpack_spec : forall r n, PackedFe32_unpack r n = N.land (N.shiftr r (5 * N.of_nat n)) 31;
  CkEngine_new_residue : forall ck, CkEngine_residue (CkEngine_new ck) = 1%N;
  CkEngine_input_fe_residue : forall ck e f,
    CkEngine_residue (CkEngine_input_fe ck e f) = polymod ck (CkEngine_residue e) (Fe32_value f);
  CkEngine_target_residue : forall ck e,
    CkEngine_residue (CkEngine_input_target_residue ck e)
    = fold_left (polymod ck)
        (map (PackedFe32_unpack (TARGET_RESIDUE ck)) (rev (seq 0 (CHECKSUM_LENGTH ck))))
        (CkEngine_residue e);
}.

(** * Definitions *)

Definition DescriptorChecksum_LENGTH : nat := 8.

Definition CHAR_MAP : list N := Eval cbv in
  map N.of_nat [
    94; 59; 92; 91; 28; 29; 50; 15; 10; 11; 17; 51; 14; 52; 53; 16;
     0;  1;  2;  3;  4;  5;  6;  7;  8;  9; 27; 54; 55; 56; 57; 58;
    26; 82; 83; 84; 85; 86; 87; 88; 89; 32; 33; 34; 35; 36; 37; 38;
    39; 40; 41; 42; 43; 44; 45; 46; 47; 48; 49; 12; 93; 13; 60; 61;
    90; 18; 19; 20; 21; 22; 23; 24; 25; 64; 65; 66; 67; 68; 69; 70;
    71; 72; 73; 74; 75; 76; 77; 78; 79; 80; 81; 30; 62; 31; 63 ].

Definition GEN : list N :=
  [0xf5dee51989; 0xa9fdca3312; 0x1bab10e32d; 0x3706b1677a; 0x644d626ffd]%N.

Definition DescriptorChecksum : Checksum :=
  mkChecksum DescriptorChecksum_LENGTH 32767 GEN 1.

(** [checksum::Error] *)
Inductive ChecksumError : Type :=
| InvalidCharacter (ch : N) (pos : nat)
| InvalidChecksumLength (actual expected : nat)
| InvalidChecksum (actual expected : str).

(** Whether a character is outside of the range of descriptor characters. *)
Definition invalid_char (ch : N) : bool := negb ((32 <=? ch) && (ch <? 127))%N.

Section Engine.
Context {F : Bech32}.

Record Engine : Type := mkEngine {
  inner : CkEngine;
  cls : N;
  clscount : N;
}.

Definition Engine_new : Engine := mkEngine (CkEngine_new DescriptorChecksum) 0 0.

Definition input_fe (e : CkEngine) (fe : Fe32) : CkEngine := CkEngine_input_fe DescriptorChecksum e fe.

(** The body of the loop of [input_unchecked]; [None] is a panic. *)
Definition input_char (eng : Engine) (ch : Byte.byte) : option Engine :=
  if (code ch <? 32)%N then None
  else
    pos ← CHAR_MAP !! N.to_nat (code ch - 32);
    fe ← Fe32_try_from (N.land pos 31);
    let inner' := input_fe (inner eng) fe in
    let cls' := (cls eng * 3 + N.shiftr pos 5)%N in
    let clscount' := (clscount eng + 1)%N in
    if (clscount' =? 3)%N then
      fe ← Fe32_try_from cls'; Some (mkEngine (input_fe inner' fe) 0 0)
    else Some (mkEngine inner' cls' clscount').

Fixpoint input_unchecked (eng : Engine) (s : str) : option Engine :=
  match s with
  | [] => Some eng
  | ch :: s => eng ← input_char eng ch; input_unchecked eng s
  end.

(** The position of the first character that is not allowed. *)
Fixpoint first_invalid (l : list (nat * N)) : option (nat * N) :=
  match l with
  | [] => None
  | (pos, ch) :: l => if invalid_char ch then Some (pos, ch) else first_invalid l
  end.

Definition input (eng : Engine) (s : str) : option (result ChecksumError Engine) :=
  match first_invalid (char_indices s) with
  | Some (pos, ch) => Some (Err (InvalidCharacter ch pos))
  | None => eng ← input_unchecked eng s; Some (Ok eng)
  end.

(** The loop over the characters of the checksum. *)
Fixpoint checksum_loop (checksum_remaining : nat) (e : CkEngine) : option str :=
  match checksum_remaining with
  | 0 => Some []
  | S checksum_remaining =>
      fe ← Fe32_try_from (PackedFe32_unpack (CkEngine_residue e) checksum_remaining);
      chars ← checksum_loop checksum_remaining e;
      Some (Fe32_to_char fe :: chars)
  end.

Definition checksum_chars (eng : Engine) : option (str * Engine) :=
  e ← (if (0 <? clscount eng)%N
       then fe ← Fe32_try_from (cls eng); Some (input_fe (inner eng) fe)
       else Some (inner eng));
  let e := CkEngine_input_target_residue DescriptorChecksum e in
  chars ← checksum_loop DescriptorChecksum_LENGTH e;
  Some (chars, mkEngine e (cls eng) (clscount eng)).

(** The scan of [verify_checksum]: the position of the last [#] or an error. *)
Fixpoint scan_chars (l : list (nat * N)) (last_hash_pos : nat) : result ChecksumError nat :=
  match l with
  | [] => Ok last_hash_pos
  | (pos, ch) :: l =>
      if invalid_char ch then Err (InvalidCharacter ch pos)
      else scan_chars l (if (ch =? code "#"%byte)%N then pos else last_hash_pos)
  end.

(** [verify_checksum]: the string without its checksum. *)
Definition verify_checksum (s : str) : option (result ChecksumError str) :=
  match scan_chars (char_indices s) (length s) with
  | Err e => Some (Err e)
  | Ok last_hash_pos =>
      let body := take last_hash_pos s in
      if last_hash_pos <? length s then
        let checksum_str := drop (last_hash_pos + 1) s in
        if negb (length checksum_str =? DescriptorChecksum_LENGTH) then
          Some (Err (InvalidChecksumLength (length checksum_str) DescriptorChecksum_LENGTH))
        else
          eng ← input_unchecked Engine_new body;
          '(expected, _) ← checksum_chars eng;
          if negb (bool_decide (expected = checksum_str))
          then Some (Err (InvalidChecksum checksum_str expected))
          else Some (Ok body)
      else Some (Ok body)
  end.

(** [checksum::Formatter]: the text written so far, the flag for the alternate form, and
    the engine that reads along. *)
Record Formatter : Type := mkFormatter {
  written : str;
  alternate : bool;
  eng : Engine;
}.

Definition Formatter_new (written : str) (alternate : bool) : Formatter :=
  mkFormatter written alternate Engine_new.

(** [write_str]; [Err] is [fmt::Error]. *)
Definition write_str (f : Formatter) (s : str) : option (result () Formatter) :=
  r ← input (eng f) s;
  Some (match r with
        | Ok e => Ok (mkFormatter (written f ++ s) (alternate f) e)
        | Err _ => Err ()
        end).

Definition write_checksum (f : Formatter) : option Formatter :=
  '(chars, e) ← checksum_chars (eng f);
  Some (mkFormatter (written f ++ "#"%byte :: chars) (alternate f) e).

Definition write_checksum_if_not_alt (f : Formatter) : option Formatter :=
  if negb (alternate f) then write_checksum f else Some f.
End Engine.

(** * Residues *)

Abbreviation step := (polymod DescriptorChecksum).

Lemma land_lxor a b m : N.land (N.lxor a b) m = N.lxor (N.land a m) (N.land b m).
Proof.
  apply N.bits_inj. intros k. rewrite !N.land_spec, !N.lxor_spec, !N.land_spec.
  by destruct (N.testbit a k), (N.testbit b k), (N.testbit m k).
Qed.

(** Equations between exclusive ors, bit by bit. *)
Ltac xor_bits :=
  apply N.bits_inj; intros ?; rewrite ?N.lxor_spec, ?N.bits_0;
  repeat match goal with |- context [N.testbit ?a ?b] => destruct (N.testbit a b) end; done.

Lemma reduce_lxor gens a b : reduce gens (N.lxor a b) = N.lxor (reduce gens a) (reduce gens b).
Proof.
  unfold reduce. induction (combine _ gens) as [|[i g] l IH]; [done|]. cbn [fold_right].
  rewrite IH, N.lxor_spec. generalize (fold_right (fun '(i, g) acc => N.lxor (if N.testbit a i then g else 0%N) acc) 0%N l).
  generalize (fold_right (fun '(i, g) acc => N.lxor (if N.testbit b i then g else 0%N) acc) 0%N l).
  intros x y. destruct (N.testbit a i), (N.testbit b i); cbn [xorb]; xor_bits.
Qed.

Lemma step_lxor r r' f f' : step (N.lxor r r') (N.lxor f f') = N.lxor (step r f) (step r' f').
Proof.
  unfold polymod. rewrite land_lxor, N.shiftl_lxor, N.shiftr_lxor, reduce_lxor. xor_bits.
Qed.

Lemma land_ones_lt a n : N.land a (N.ones n) = a <-> (a < 2 ^ n)%N.
Proof.
  rewrite N.land_ones. split.
  - intros <-. apply N.mod_lt. by apply N.pow_nonzero.
  - apply N.mod_small.
Qed.

Lemma lxor_lt a b n : (a < 2 ^ n)%N -> (b < 2 ^ n)%N -> (N.lxor a b < 2 ^ n)%N.
Proof. rewrite <- !land_ones_lt, land_lxor. by intros -> ->. Qed.

Lemma reduce_lt gens top n :
  Forall (fun g => (g < 2 ^ n)%N) gens -> (reduce gens top < 2 ^ n)%N.
Proof.
  intros H. unfold reduce. assert (0 < 2 ^ n)%N by (apply N.neq_0_lt_0; by apply N.pow_nonzero).
  generalize [0; 1; 2; 3; 4]%N. induction H as [|g gens Hg _ IH]; intros [|i l]; try done.
  cbn [combine fold_right]. apply lxor_lt; [by destruct (N.testbit top i)|apply IH].
Qed.

Lemma step_lt r f : (f < 32)%N -> (step r f < 2 ^ 40)%N.
Proof.
  intros Hf. unfold polymod. apply lxor_lt; [apply lxor_lt|].
  - rewrite N.shiftl_mul_pow2, N.land_ones.
    pose proof (N.mod_lt r (2 ^ 35) ltac:(done)) as Hm. change (5 * (N.of_nat _ - 1))%N with 35%N.
    change (2 ^ 40)%N with (2 ^ 35 * 2 ^ 5)%N. apply N.mul_lt_mono_pos_r; done.
  - eapply N.lt_trans; [exact Hf|done].
  - apply reduce_lt. repeat constructor.
Qed.

(** Multiplication by x is injective: the constant terms of the generator multiples are
    linearly independent. *)
Lemma reduce_low top : (top < 32)%N -> N.land (reduce GEN top) 31 = 0%N -> top = 0%N.
Proof.
  intros Ht Hz.
  assert (forallb (fun t => negb (N.land (reduce GEN t) 31 =? 0)%N || (t =? 0)%N)
            (map N.of_nat (seq 0 32)) = true) as H by by vm_compute.
  rewrite forallb_forall in H. specialize (H top). rewrite Hz in H. apply N.eqb_eq, H.
  apply in_map_iff. exists (N.to_nat top). rewrite N2Nat.id, in_seq. lia.
Qed.

Lemma step_zero d : (d < 2 ^ 40)%N -> step d 0 = 0%N -> d = 0%N.
Proof.
  intros Hd H. unfold polymod in H. change (5 * (N.of_nat _ - 1))%N with 35%N in H.
  rewrite N.lxor_0_r in H. cbn [GENERATOR_SH DescriptorChecksum] in H.
  assert (N.shiftr d 35 < 32)%N as Htop.
  { rewrite N.shiftr_div_pow2. by apply N.Div0.div_lt_upper_bound. }
  pose proof (f_equal (fun x => N.land x 31) H) as Hlow. cbn beta in Hlow.
  rewrite land_lxor in Hlow.
  assert (forall x, N.land (N.shiftl x 5) 31 = 0%N) as Hsh.
  { intros x. change 31%N with (N.ones 5). rewrite N.land_ones, N.shiftl_mul_pow2.
    by apply N.Div0.mod_mul. }
  rewrite Hsh, N.lxor_0_l in Hlow. apply reduce_low in Hlow; [|done].
  rewrite Hlow in H. change (reduce GEN 0) with 0%N in H. rewrite N.lxor_0_r in H.
  rewrite N.shiftl_mul_pow2 in H. apply N.eq_mul_0 in H as [H|H]; [|done].
  rewrite N.land_ones in H. rewrite N.shiftr_div_pow2 in Hlow.
  rewrite (N.div_mod d (2 ^ 35)) by done. by rewrite H, Hlow.
Qed.

(** Symbols without reduction. *)
Lemma step_small d f : (d < 2 ^ 35)%N -> step d f = N.lxor (N.shiftl d 5) f.
Proof.
  intros Hd. unfold polymod. change (5 * (N.of_nat _ - 1))%N with 35%N.
  rewrite N.shiftr_div_pow2, N.div_small by done. rewrite (proj2 (land_ones_lt d 35)) by done.
  apply N.lxor_0_r.
Qed.

Lemma lxor_eq_0 a b : N.lxor a b = 0%N <-> a = b.
Proof. split; [apply N.lxor_eq|intros ->; apply N.lxor_nilpotent]. Qed.

Definition feed (r : N) (l : list N) : N := fold_left step l r.

Definition fe (f : N) : Prop := (f < 32)%N.

Lemma feed_lt r l : (r < 2 ^ 40)%N -> Forall fe l -> (feed r l < 2 ^ 40)%N.
Proof.
  intros Hr H. revert r Hr. induction H as [|f l Hf _ IH]; intros r Hr; [done|].
  cbn [feed fold_left]. by apply IH, step_lt.
Qed.

Lemma feed_inj r r' l :
  (r < 2 ^ 40)%N -> (r' < 2 ^ 40)%N -> Forall fe l -> feed r l = feed r' l -> r = r'.
Proof.
  intros Hr Hr' H. revert r r' Hr Hr'. induction H as [|f l Hf _ IH]; intros r r' Hr Hr' Heq; [done|].
  cbn [feed fold_left] in Heq. apply IH in Heq; [|by apply step_lt..].
  apply lxor_eq_0 in Heq. rewrite <- step_lxor, N.lxor_nilpotent in Heq.
  apply step_zero in Heq; [by apply lxor_eq_0|by apply lxor_lt].
Qed.

Lemma step_diff u v a d :
  N.lxor u v = d -> (d < 2 ^ 35)%N -> N.lxor (step u a) (step v a) = N.shiftl d 5.
Proof.
  intros <- Hd. rewrite <- step_lxor, N.lxor_nilpotent, step_small by done. apply N.lxor_0_r.
Qed.

Lemma shiftl_lt d n m : (d < 2 ^ n)%N -> (N.shiftl d m < 2 ^ (n + m))%N.
Proof.
  intros H. rewrite N.shiftl_mul_pow2, N.pow_add_r. apply N.mul_lt_mono_pos_r; [|done].
  apply N.neq_0_lt_0. by apply N.pow_nonzero.
Qed.

Lemma feed_diff m u v d :
  N.lxor u v = d -> (d < 2 ^ 5)%N -> length m <= 2 ->
  N.lxor (fold_left step m u) (fold_left step m v) = N.shiftl d (5 * N.of_nat (length m)).
Proof.
  intros E Hd Hm. pose proof (N.lt_trans _ _ (2 ^ 35) Hd ltac:(done)).
  destruct m as [|a [|b [|]]]; simpl in Hm; try lia; cbn [fold_left].
  - by rewrite N.shiftl_0_r.
  - by apply step_diff.
  - change (5 * N.of_nat (length [a; b]))%N with (5 + 5)%N. rewrite <- N.shiftl_shiftl.
    apply step_diff; [by apply step_diff|].
    apply N.lt_trans with (2 ^ 10)%N; [|done]. by apply (shiftl_lt d 5 5).
Qed.

Lemma shiftl_low x e : (e < 32)%N -> N.shiftl x 5 = e -> x = 0%N /\ e = 0%N.
Proof.
  intros He H. rewrite N.shiftl_mul_pow2 in H. change (2 ^ 5)%N with 32%N in H. lia.
Qed.

(** Two symbols at most three places apart in which two messages differ. *)
Lemma feed_window r x x' m y y' l :
  (r < 2 ^ 40)%N -> fe x -> fe x' -> length m <= 2 -> Forall fe m -> fe y -> fe y' -> Forall fe l ->
  feed r (x :: m ++ y :: l) = feed r (x' :: m ++ y' :: l) -> x = x' /\ y = y'.
Proof.
  intros Hr Hx Hx' Hm Hfm Hy Hy' Hl H. unfold feed in H. rewrite !app_comm_cons, !fold_left_app in H.
  cbn [fold_left] in H. apply feed_inj in H; [|by apply step_lt..|done].
  apply lxor_eq_0 in H. rewrite <- step_lxor in H.
  assert (N.lxor x x' < 2 ^ 5)%N as Hd by by apply lxor_lt.
  assert (N.lxor (step r x) (step r x') = N.lxor x x') as E.
  { rewrite <- step_lxor, N.lxor_nilpotent. by rewrite step_small. }
  rewrite (feed_diff m _ _ _ E Hd Hm) in H. rewrite step_small in H.
  - apply lxor_eq_0, shiftl_low in H as [H He]; [|by apply (lxor_lt y y' 5)].
    apply lxor_eq_0 in He as ->. split; [|done]. apply lxor_eq_0.
    rewrite N.shiftl_mul_pow2 in H. apply N.eq_mul_0 in H as [H|H]; [done|].
    by apply N.pow_nonzero in H.
  - pose proof (shiftl_lt _ 5 (5 * N.of_nat (length m)) Hd) as Hlt.
    eapply N.lt_le_trans; [exact Hlt|]. apply N.pow_le_mono_r; [done|lia].
Qed.

(** * The symbols of a string *)

Definition printable (ch : Byte.byte) : Prop := (32 <= code ch < 127)%N.

#[export] Instance printable_dec ch : Decision (printable ch).
Proof. unfold printable. apply _. Defined.

(** The group and the position in the group of a character. *)
Definition char_value (ch : Byte.byte) : N := default 0%N (CHAR_MAP !! N.to_nat (code ch - 32)).

Lemma char_value_lookup ch :
  printable ch ->
  CHAR_MAP !! N.to_nat (code ch - 32) = Some (char_value ch) /\ (char_value ch < 95)%N.
Proof.
  intros [H1 H2]. unfold char_value.
  assert (Forall (fun v => v < 95)%N CHAR_MAP) as Hall by (repeat constructor).
  assert (N.to_nat (code ch - 32) < length CHAR_MAP) as Hl by (change (length CHAR_MAP) with 95; lia).
  apply lookup_lt_is_Some_2 in Hl as [v Hv]. rewrite Hv. split; [done|].
  by apply (Forall_lookup_1 _ _ _ _ Hall Hv).
Qed.

Lemma char_value_inj a b : printable a -> printable b -> char_value a = char_value b -> a = b.
Proof.
  intros Ha Hb H. pose proof (char_value_lookup a Ha) as [La _].
  pose proof (char_value_lookup b Hb) as [Lb _]. rewrite H in La.
  assert (NoDup CHAR_MAP) as Hnd by (apply (bool_decide_unpack _); by vm_compute).
  pose proof (NoDup_lookup _ _ _ _ Hnd La Lb) as Hi. apply code_inj.
  unfold printable in *. lia.
Qed.

(** What the engine feeds: the low bits of every character, and the classes of every three
    characters together. *)
Fixpoint symbols (cls cnt : N) (vs : list N) : list N :=
  match vs with
  | [] => if (0 <? cnt)%N then [cls] else []
  | v :: vs =>
      N.land v 31
      :: (if (cnt + 1 =? 3)%N then (cls * 3 + N.shiftr v 5)%N :: symbols 0 0 vs
          else symbols (cls * 3 + N.shiftr v 5) (cnt + 1) vs)
  end.

Definition cls_ok (cls cnt : N) : Prop :=
  (cnt = 0 /\ cls = 0 \/ cnt = 1 /\ cls < 3 \/ cnt = 2 /\ cls < 9)%N.

Lemma value_bits v : (v < 95)%N ->
  v = (32 * N.shiftr v 5 + N.land v 31)%N /\ (N.land v 31 < 32)%N /\ (N.shiftr v 5 < 3)%N.
Proof.
  intros H. change 31%N with (N.ones 5). rewrite N.land_ones, N.shiftr_div_pow2.
  change (2 ^ 5)%N with 32%N. pose proof (N.div_mod v 32 ltac:(done)).
  pose proof (N.mod_lt v 32 ltac:(done)). repeat split; [done|done|].
  apply N.Div0.div_lt_upper_bound. lia.
Qed.

Lemma symbols_fe vs : forall cls cnt,
  cls_ok cls cnt -> Forall (fun v => v < 95)%N vs -> Forall fe (symbols cls cnt vs).
Proof.
  induction vs as [|v vs IH]; intros cls cnt Hc Hv; cbn [symbols]; unfold cls_ok in Hc.
  - destruct (0 <? cnt)%N; repeat constructor. unfold fe. lia.
  - apply Forall_cons_1 in Hv as [Hv Hvs]. pose proof (value_bits v Hv) as (_ & Hl & Hs).
    constructor; [done|]. destruct (N.eqb_spec (cnt + 1) 3) as [E|E].
    + constructor; [unfold fe; lia|]. apply IH; [by left|done].
    + apply IH; [|done]. unfold cls_ok. lia.
Qed.

(** Reading a prefix. *)
Lemma symbols_prefix vs : forall cls cnt,
  cls_ok cls cnt -> Forall (fun v => v < 95)%N vs ->
  exists P cls' cnt', Forall fe P /\ cls_ok cls' cnt'
    /\ forall us, symbols cls cnt (vs ++ us) = P ++ symbols cls' cnt' us.
Proof.
  induction vs as [|v vs IH]; intros cls cnt Hc Hv; [by exists [], cls, cnt|].
  unfold cls_ok in Hc. apply Forall_cons_1 in Hv as [Hv Hvs].
  pose proof (value_bits v Hv) as (_ & Hl & Hs). cbn [app symbols].
  destruct (N.eqb_spec (cnt + 1) 3) as [E|E].
  - destruct (IH 0%N 0%N) as (P & cls' & cnt' & HP & Hc' & H); [by left|done|].
    exists (N.land v 31 :: (cls * 3 + N.shiftr v 5)%N :: P), cls', cnt'. split; [|split; [done|]].
    + constructor; [done|]. constructor; [unfold fe; lia|done].
    + intros us. by rewrite H.
  - destruct (IH (cls * 3 + N.shiftr v 5)%N (cnt + 1)%N) as (P & cls' & cnt' & HP & Hc' & H); [unfold cls_ok; lia|done|].
    exists (N.land v 31 :: P), cls', cnt'. split; [by constructor|]. split; [done|].
    intros us. by rewrite H.
Qed.

(** The symbols of two strings that differ in one character. *)
Lemma symbols_differ cls cnt vs v v' ws :
  cls_ok cls cnt -> Forall (fun v => v < 95)%N vs -> Forall (fun v => v < 95)%N ws ->
  (v < 95)%N -> (v' < 95)%N ->
  exists P x x' m y y' l,
    symbols cls cnt (vs ++ v :: ws) = P ++ x :: m ++ y :: l
    /\ symbols cls cnt (vs ++ v' :: ws) = P ++ x' :: m ++ y' :: l
    /\ length m <= 2 /\ (x = x' -> y = y' -> v = v').
Proof.
  intros Hc Hvs Hws Hv Hv'. destruct (symbols_prefix vs cls cnt Hc Hvs) as (P & c & n & _ & Hcn & E).
  rewrite !E. clear E. exists P.
  pose proof (value_bits v Hv) as (Ev & _). pose proof (value_bits v' Hv') as (Ev' & _).
  cbn [symbols]. revert Ev Ev'. generalize (N.land v 31) (N.land v' 31) (N.shiftr v 5) (N.shiftr v' 5).
  intros a a' b b' -> ->. clear Hv Hv'.
  destruct Hcn as [[-> ->]|[[-> Hc']|[-> Hc']]]; [destruct ws as [|w [|w' ws]]|destruct ws as [|w ws]|].
  - eexists _, _, [], _, _, []; repeat split; [simpl; lia|]. intros; lia.
  - by eexists _, _, [_], _, _, []; repeat split; [simpl; lia|intros; lia].
  - by eexists _, _, [_; _], _, _, _; repeat split; [simpl; lia|intros; lia].
  - eexists _, _, [], _, _, []; repeat split; [simpl; lia|]. intros; lia.
  - by eexists _, _, [_], _, _, _; repeat split; [simpl; lia|intros; lia].
  - by eexists _, _, [], _, _, _; repeat split; [simpl; lia|intros; lia].
Qed.

(** * The engine *)

Section Laws.
Context {F : Bech32} {FL : Bech32Laws F}.

Definition residue (eng : Engine) : N := CkEngine_residue (inner eng).

Definition eng_ok (eng : Engine) : Prop :=
  (residue eng < 2 ^ 40)%N /\ cls_ok (cls eng) (clscount eng).

Lemma Engine_new_ok : eng_ok Engine_new.
Proof.
  split; [|by left]. unfold residue. cbn. by rewrite CkEngine_new_residue.
Qed.

Lemma try_from_ok f : fe f -> exists x, Fe32_try_from f = Some x /\ Fe32_value x = f.
Proof. apply Fe32_try_from_spec. Qed.

Lemma input_fe_residue e x f :
  Fe32_value x = f -> CkEngine_residue (input_fe e x) = step (CkEngine_residue e) f.
Proof. intros <-. apply CkEngine_input_fe_residue. Qed.

(** The characters of a residue. *)
Definition shows (r : N) (n : nat) (chars : str) : Prop :=
  Forall2 (fun c i => exists x, Fe32_value x = N.land (N.shiftr r (5 * N.of_nat i)) 31
                                /\ c = Fe32_to_char x) chars (rev (seq 0 n)).

Lemma checksum_loop_shows n e : exists chars,
  checksum_loop n e = Some chars /\ shows (CkEngine_residue e) n chars.
Proof.
  induction n as [|n (chars & E & H)]; [by exists []; repeat constructor|].
  cbn [checksum_loop]. rewrite PackedFe32_unpack_spec.
  destruct (try_from_ok (N.land (N.shiftr (CkEngine_residue e) (5 * N.of_nat n)) 31)) as (x & -> & Hx).
  { unfold fe. change 31%N with (N.ones 5). rewrite N.land_ones. by apply N.mod_lt. }
  cbn [mbind option_bind]. rewrite E. cbn [mbind option_bind]. eexists. split; [done|].
  unfold shows. rewrite seq_S, rev_app_distr. constructor; [by exists x|done].
Qed.

Lemma shows_inj r r' chars :
  (r < 2 ^ 40)%N -> (r' < 2 ^ 40)%N -> shows r 8 chars -> shows r' 8 chars -> r = r'.
Proof.
  intros Hr Hr' H H'.
  assert (forall i, i < 8 -> N.land (N.shiftr r (5 * N.of_nat i)) 31
                           = N.land (N.shiftr r' (5 * N.of_nat i)) 31) as Hi.
  { intros i Hi. assert (In i (rev (seq 0 8))) as Hin by (rewrite <- in_rev, in_seq; lia).
    revert H H'. unfold shows. generalize dependent (rev (seq 0 8)). clear. intros l Hin H H'.
    revert H'. induction H as [|c j chars l (x & Hx & ->) _ IH]; intros H'; [done|].
    inversion H' as [|? ? ? ? (x' & Hx' & Hc) Hrest]; subst. destruct Hin as [->|Hin]; [|by apply IH].
    rewrite <- Hx, <- Hx'. apply Fe32_to_char_inj; [rewrite Hx|rewrite Hx'|done].
    all: change 31%N with (N.ones 5); rewrite N.land_ones; by apply N.mod_lt. }
  apply N.bits_inj. intros k. destruct (N.ltb_spec k 40) as [Hk|Hk].
  - specialize (Hi (N.to_nat (k / 5))). rewrite N2Nat.id in Hi.
    assert (k / 5 < 8)%N by (apply N.Div0.div_lt_upper_bound; lia).
    specialize (Hi ltac:(lia)). apply (f_equal (fun v => N.testbit v (k mod 5))) in Hi.
    rewrite !N.land_spec, !N.shiftr_spec' in Hi.
    assert (N.testbit 31 (k mod 5) = true) as Hb.
    { change 31%N with (N.ones 5). apply N.ones_spec_low. by apply N.mod_lt. }
    rewrite Hb, !andb_true_r in Hi. rewrite N.add_comm, <- N.div_mod in Hi by done. done.
  - assert (forall r, (r < 2 ^ 40)%N -> N.testbit r k = false) as Hz.
    { intros z Hz. rewrite <- (proj2 (land_ones_lt z 40) Hz), N.land_spec, N.ones_spec_high by done.
      apply andb_false_r. }
    by rewrite !Hz.
Qed.

(** The symbols of the target residue, 1. *)
Definition target : list N := [0; 0; 0; 0; 0; 0; 0; 1]%N.

Lemma target_residue e :
  CkEngine_residue (CkEngine_input_target_residue DescriptorChecksum e) = feed (CkEngine_residue e) target.
Proof.
  rewrite CkEngine_target_residue. unfold feed. f_equal. change (TARGET_RESIDUE _) with 1%N.
  change (rev _) with [7; 6; 5; 4; 3; 2; 1; 0]. cbn [map]. by rewrite !PackedFe32_unpack_spec.
Qed.

Lemma input_char_spec eng ch :
  eng_ok eng -> printable ch ->
  exists eng', input_char eng ch = Some eng' /\ eng_ok eng'
    /\ forall vs, feed (residue eng) (symbols (cls eng) (clscount eng) (char_value ch :: vs))
                  = feed (residue eng') (symbols (cls eng') (clscount eng') vs).
Proof.
  intros [Hr Hc] Hp. pose proof (char_value_lookup ch Hp) as [Hv Hlt].
  pose proof (value_bits _ Hlt) as (_ & Hlo & Hhi). unfold input_char.
  destruct (N.ltb_spec (code ch) 32) as [H|_]; [unfold printable in Hp; lia|].
  rewrite Hv. cbn [mbind option_bind symbols].
  destruct (try_from_ok (N.land (char_value ch) 31)) as (x & -> & Hx); [done|]. cbn [mbind option_bind].
  unfold cls_ok in Hc. destruct (N.eqb_spec (clscount eng + 1) 3) as [E|E].
  - destruct (try_from_ok (cls eng * 3 + N.shiftr (char_value ch) 5)%N) as (y & -> & Hy); [unfold fe; lia|].
    cbn [mbind option_bind]. eexists. split; [done|]. unfold eng_ok, residue. cbn [inner cls clscount].
    rewrite (input_fe_residue _ _ _ Hy), (input_fe_residue _ _ _ Hx).
    split; [|done]. split; [apply step_lt; unfold fe; lia|by left].
  - eexists. split; [done|]. unfold eng_ok, residue. cbn [inner cls clscount].
    rewrite (input_fe_residue _ _ _ Hx).
    split; [|done]. split; [by apply step_lt|unfold cls_ok; lia].
Qed.

Lemma input_unchecked_spec s : forall eng,
  eng_ok eng -> Forall printable s ->
  exists eng', input_unchecked eng s = Some eng' /\ eng_ok eng'
    /\ forall vs, feed (residue eng) (symbols (cls eng) (clscount eng) (map char_value s ++ vs))
                  = feed (residue eng') (symbols (cls eng') (clscount eng') vs).
Proof.
  induction s as [|ch s IH]; intros eng He Hs; [by exists eng|].
  apply Forall_cons_1 in Hs as [Hch Hs]. cbn [input_unchecked map app].
  destruct (input_char_spec eng ch He Hch) as (eng1 & -> & He1 & E1). cbn [mbind option_bind].
  destruct (IH eng1 He1 Hs) as (eng2 & -> & He2 & E2). exists eng2. split; [done|]. split; [done|].
  intros vs. by rewrite E1, E2.
Qed.

(** The residue of which a string has the characters as its checksum. *)
Definition final (eng : Engine) (s : str) : N :=
  feed (residue eng) (symbols (cls eng) (clscount eng) (map char_value s) ++ target).

Lemma feed_app r l l' : feed r (l ++ l') = feed (feed r l) l'.
Proof. apply fold_left_app. Qed.

Lemma checksum_spec eng s :
  eng_ok eng -> Forall printable s ->
  exists eng' chars eng'', input_unchecked eng s = Some eng' /\ eng_ok eng'
    /\ checksum_chars eng' = Some (chars, eng'') /\ shows (final eng s) 8 chars.
Proof.
  intros He Hs. destruct (input_unchecked_spec s eng He Hs) as (eng' & E & He' & Hf).
  specialize (Hf []). rewrite app_nil_r in Hf. exists eng'. unfold checksum_chars, final.
  rewrite feed_app, Hf. cbn [symbols].
  assert (exists e, (if (0 <? clscount eng')%N
     then fe ← Fe32_try_from (cls eng'); Some (input_fe (inner eng') fe)
     else Some (inner eng')) = Some e
     /\ CkEngine_residue e = feed (residue eng') (if (0 <? clscount eng')%N then [cls eng'] else [])) as (e & -> & Hr).
  { destruct (0 <? clscount eng')%N; [|by exists (inner eng')].
    destruct He' as [_ Hc]. unfold cls_ok in Hc.
    destruct (try_from_ok (cls eng')) as (x & -> & Hx); [unfold fe; lia|].
    eexists. split; [done|]. by rewrite (input_fe_residue _ _ _ Hx). }
  cbn [mbind option_bind].
  destruct (checksum_loop_shows 8 (CkEngine_input_target_residue DescriptorChecksum e)) as (chars & Ec & Hsh).
  change DescriptorChecksum_LENGTH with 8. rewrite Ec. cbn [mbind option_bind].
  rewrite target_residue, Hr in Hsh. by eexists _, _.
Qed.

Lemma values_lt s : Forall printable s -> Forall (fun v => v < 95)%N (map char_value s).
Proof.
  intros H. apply List.Forall_map. eapply List.Forall_impl; [|exact H]. intros ch Hch.
  by apply char_value_lookup.
Qed.

Lemma target_fe : Forall fe target.
Proof. repeat constructor. Qed.

Lemma final_lt eng s : eng_ok eng -> Forall printable s -> (final eng s < 2 ^ 40)%N.
Proof.
  intros [Hr Hc] Hs. apply feed_lt; [done|]. apply list.Forall_app. split; [|exact target_fe].
  by apply symbols_fe, values_lt.
Qed.

(** Strings that differ in exactly one character have different residues. *)
Lemma final_differ eng a ch ch' b :
  eng_ok eng -> Forall printable (a ++ ch :: b) -> printable ch' -> ch <> ch' ->
  final eng (a ++ ch :: b) <> final eng (a ++ ch' :: b).
Proof.
  intros [Hr Hc] Hs Hch' Hne H.
  apply list.Forall_app in Hs as [Ha Hb]. apply Forall_cons_1 in Hb as [Hch Hb].
  unfold final in H. rewrite !map_app in H. cbn [map] in H.
  pose proof (char_value_lookup ch Hch) as [_ Hv]. pose proof (char_value_lookup ch' Hch') as [_ Hv'].
  pose proof (values_lt a Ha) as Hva. pose proof (values_lt b Hb) as Hvb.
  assert (forall v, (v < 95)%N -> Forall fe (symbols (cls eng) (clscount eng) (map char_value a ++ v :: map char_value b))) as Hfe.
  { intros v Hlt. apply symbols_fe; [done|]. apply list.Forall_app. by split; [|constructor]. }
  destruct (symbols_differ _ _ _ _ _ _ Hc Hva Hvb Hv Hv') as (P & x & x' & m & y & y' & l & E & E' & Hm & Himp).
  pose proof (Hfe _ Hv) as F1. pose proof (Hfe _ Hv') as F2. rewrite E in *. rewrite E' in *.
  apply list.Forall_app in F1 as [HP F1]. apply Forall_cons_1 in F1 as [Fx F1].
  apply list.Forall_app in F1 as [Fm F1]. apply Forall_cons_1 in F1 as [Fy Fl].
  apply list.Forall_app in F2 as [_ F2]. apply Forall_cons_1 in F2 as [Fx' F2].
  apply list.Forall_app in F2 as [_ F2]. apply Forall_cons_1 in F2 as [Fy' _].
  rewrite <- !app_assoc in H. cbn [app] in H. rewrite <- !app_assoc in H. cbn [app] in H.
  rewrite !(feed_app _ P) in H. apply feed_window in H as [Hx Hy]; try done.
  - apply Hne, char_value_inj; auto.
  - by apply feed_lt.
  - apply list.Forall_app. split; [done|exact target_fe].
Qed.

(** * Scanning for the separator *)

Definition hash : Byte.byte := "#"%byte.

Lemma printable_ascii s : Forall printable s -> Forall ascii s.
Proof. apply List.Forall_impl. intros ch. unfold printable, ascii. lia. Qed.

Lemma invalid_char_spec ch : invalid_char ch = false <-> (32 <= ch < 127)%N.
Proof.
  unfold invalid_char. rewrite negb_false_iff, andb_true_iff, N.leb_le, N.ltb_lt. done.
Qed.

Lemma scan_chars_Ok l p q : scan_chars l p = Ok q -> Forall (fun x => 32 <= x.2 < 127)%N l.
Proof.
  revert p. induction l as [|[pos ch] l IH]; intros p H; [constructor|]. cbn [scan_chars] in H.
  destruct (invalid_char ch) eqn:E; [done|]. apply invalid_char_spec in E. constructor; [done|]. by eapply IH.
Qed.

Lemma scan_printable s p q :
  is_str s = true -> scan_chars (char_indices s) p = Ok q -> Forall printable s.
Proof.
  intros Hs H. apply scan_chars_Ok in H.
  apply (is_str_bytes (fun c => 32 <= c < 127)%N); [done|lia|done].
Qed.

Lemma scan_no_hash s k p :
  Forall printable s -> ~ In hash s ->
  scan_chars (combine (seq k (length s)) (map code s)) p = Ok p.
Proof.
  revert k p. induction s as [|ch s IH]; intros k p Hs Hn; [done|].
  apply Forall_cons_1 in Hs as [Hch Hs]. cbn [length seq map combine scan_chars].
  rewrite (proj2 (invalid_char_spec (code ch)) Hch). destruct (N.eqb_spec (code ch) (code "#"%byte)) as [E|E].
  - exfalso. apply Hn. left. by apply code_inj.
  - apply IH; [done|]. intros Hin. apply Hn. by right.
Qed.

Lemma scan_hash a b k p :
  Forall printable (a ++ hash :: b) -> ~ In hash b ->
  scan_chars (combine (seq k (length (a ++ hash :: b))) (map code (a ++ hash :: b))) p = Ok (k + length a).
Proof.
  revert k p. induction a as [|ch a IH]; intros k p Hs Hn; cbn [app] in *;
    apply Forall_cons_1 in Hs as [Hch Hs]; cbn [length seq map combine scan_chars];
    rewrite (proj2 (invalid_char_spec _) Hch).
  - rewrite N.eqb_refl, scan_no_hash by done. f_equal. lia.
  - rewrite IH by done. f_equal. lia.
Qed.

(** Every string has a last separator or none. *)
Lemma last_hash s : ~ In hash s \/ exists a b, s = a ++ hash :: b /\ ~ In hash b.
Proof.
  induction s as [|ch s IH]; [left; intros []|]. destruct IH as [IH|(a & b & -> & Hb)].
  - destruct (decide (ch = hash)) as [->|Hne]; [right; by exists [], s|left; by intros [|]].
  - right. by exists (ch :: a), b.
Qed.

Lemma verify_no_hash s : Forall printable s -> ~ In hash s -> verify_checksum s = Some (Ok s).
Proof.
  intros Hs Hn. unfold verify_checksum.
  rewrite char_indices_ascii by by apply printable_ascii. rewrite scan_no_hash by done.
  rewrite Nat.ltb_irrefl. by rewrite firstn_all.
Qed.

(** The verdict on a string with a checksum. *)
Lemma verify_hash a b :
  Forall printable (a ++ hash :: b) -> ~ In hash b ->
  exists eng chars eng', input_unchecked Engine_new a = Some eng
    /\ checksum_chars eng = Some (chars, eng') /\ shows (final Engine_new a) 8 chars
    /\ verify_checksum (a ++ hash :: b)
       = Some (if negb (length b =? 8) then Err (InvalidChecksumLength (length b) 8)
               else if bool_decide (chars = b) then Ok a else Err (InvalidChecksum b chars)).
Proof.
  intros Hs Hn. pose proof Hs as Hsab. apply list.Forall_app in Hs as [Ha _].
  destruct (checksum_spec Engine_new a Engine_new_ok Ha) as (eng' & chars & eng'' & E & _ & Ec & Hsh).
  exists eng', chars, eng''. split; [done|]. split; [done|]. split; [done|]. unfold verify_checksum.
  rewrite char_indices_ascii by by apply printable_ascii. rewrite scan_hash by done.
  rewrite Nat.add_0_l, length_app. cbn [length].
  destruct (Nat.ltb_spec (length a) (length a + S (length b))) as [_|]; [|lia].
  rewrite (take_app_length' a) by done. rewrite Nat.add_1_r.
  replace (drop (S (length a)) (a ++ hash :: b)) with b by (clear; by induction a).
  change DescriptorChecksum_LENGTH with 8. destruct (length b =? 8); [|done]. cbn [negb].
  rewrite E. cbn [mbind option_bind]. rewrite Ec. cbn [mbind option_bind].
  by case_bool_decide.
Qed.

(** Checksum characters are printable and never the separator. *)
Lemma shows_chars r n chars :
  shows r n chars -> length chars = n /\ Forall printable chars /\ ~ In hash chars.
Proof.
  intros H. split; [|].
  { apply Forall2_length in H. by rewrite length_rev, length_seq in H. }
  unfold shows in H. induction H as [|c i chars l (x & _ & ->) _ [IH1 IH2]]; [split; [constructor|intros []]|].
  pose proof (Fe32_to_char_alnum x) as Hx. split.
  - constructor; [|done]. unfold printable. lia.
  - intros [E|E]; [|done]. rewrite E in Hx. vm_compute in Hx. by destruct Hx as [[Hx _]|[Hx _]]; apply Hx.
Qed.

(** * The formatter *)

Lemma printable_first_invalid s : Forall printable s -> first_invalid (char_indices s) = None.
Proof.
  intros H. rewrite char_indices_ascii by by apply printable_ascii. generalize 0.
  induction H as [|ch s Hch _ IH]; intros k; [done|]. cbn [length seq map combine first_invalid].
  by rewrite (proj2 (invalid_char_spec (code ch)) Hch).
Qed.

Lemma input_unchecked_app eng s s' :
  input_unchecked eng (s ++ s') = (eng ← input_unchecked eng s; input_unchecked eng s').
Proof.
  revert eng. induction s as [|ch s IH]; intros eng; [done|]. cbn [app input_unchecked].
  destruct (input_char eng ch); [apply IH|done].
Qed.

(** Writing pieces, one after the other. *)
Fixpoint write_all (f : Formatter) (pieces : list str) : option (result () Formatter) :=
  match pieces with
  | [] => Some (Ok f)
  | s :: pieces =>
      r ← write_str f s;
      match r with Ok f => write_all f pieces | Err e => Some (Err e) end
  end.

Lemma write_all_spec pieces : forall w alt e,
  eng_ok e -> Forall printable (concat pieces) ->
  exists e', write_all (mkFormatter w alt e) pieces = Some (Ok (mkFormatter (w ++ concat pieces) alt e'))
    /\ input_unchecked e (concat pieces) = Some e' /\ eng_ok e'.
Proof.
  induction pieces as [|s pieces IH]; intros w alt e He Hp; cbn [concat write_all] in *.
  { exists e. by rewrite app_nil_r. }
  apply list.Forall_app in Hp as [Hs Hp]. unfold write_str, input. cbn [eng written alternate].
  rewrite printable_first_invalid by done.
  destruct (checksum_spec e s He Hs) as (e1 & _ & _ & E1 & He1 & _). rewrite E1. cbn [mbind option_bind].
  destruct (IH (w ++ s) alt e1 He1 Hp) as (e2 & -> & E2 & He2). exists e2.
  rewrite input_unchecked_app, E1. cbn [mbind option_bind]. by rewrite app_assoc.
Qed.

Lemma scan_is_str s p e :
  is_str s = true -> scan_chars (char_indices s) p = Err e -> ~ Forall printable s.
Proof.
  intros Hs H Hp. rewrite char_indices_ascii in H by by apply printable_ascii.
  destruct (last_hash s) as [Hn|(a & b & -> & Hn)].
  - by rewrite scan_no_hash in H.
  - by rewrite scan_hash in H.
Qed.

Lemma verify_total s : is_str s = true -> exists r, verify_checksum s = Some r
  /\ forall body, r = Ok body -> Forall printable s /\ (body = s \/ exists cs, s = body ++ hash :: cs).
Proof.
  intros Hs. destruct (scan_chars (char_indices s) (length s)) as [q|e] eqn:E.
  - apply scan_printable in E; [|done]. destruct (last_hash s) as [Hn|(a & b & -> & Hn)].
    + rewrite verify_no_hash by done. exists (Ok s). split; [done|]. intros body [= <-]. by split; [|left].
    + destruct (verify_hash a b E Hn) as (? & chars & ? & _ & _ & _ & ->). eexists. split; [done|]. intros body H.
      destruct (negb _); [done|]. case_bool_decide; [|done]. injection H as <-.
      split; [done|]. right. by exists b.
  - unfold verify_checksum. rewrite E. by eexists.
Qed.

Lemma verify_written pieces : Forall printable (concat pieces) ->
  exists f f', write_all (Formatter_new [] false) pieces = Some (Ok f)
    /\ write_checksum_if_not_alt f = Some f'
    /\ verify_checksum (written f') = Some (Ok (concat pieces)).
Proof.
  intros Hp. destruct (write_all_spec pieces [] false Engine_new Engine_new_ok Hp) as (e & E & Hin & He).
  destruct (checksum_spec Engine_new _ Engine_new_ok Hp) as (e' & chars & e'' & Hin' & _ & Ec & Hsh).
  rewrite Hin in Hin'. injection Hin' as <-. pose proof (shows_chars _ _ _ Hsh) as (Hl & Hpc & Hnc).
  eexists _, _. split; [exact E|]. unfold write_checksum_if_not_alt, write_checksum. cbn [alternate negb eng written].
  rewrite Ec. cbn [mbind option_bind app]. split; [done|].
  assert (Forall printable (concat pieces ++ hash :: chars)) as Hall.
  { apply list.Forall_app. split; [done|]. by constructor. }
  destruct (verify_hash _ _ Hall Hnc) as (e1 & chars' & e2 & Ein & Ech & _ & Ev).
  cbn [written]. change "#"%byte with hash. rewrite Ev, Hl. cbn [negb Nat.eqb].
  rewrite Hin in Ein. injection Ein as <-. rewrite Ec in Ech. injection Ech as <- _.
  by rewrite bool_decide_true.
Qed.

(** An accepted string with a checksum: the separator is the last one. *)
Lemma verify_hash_Ok body cs :
  verify_checksum (body ++ hash :: cs) = Some (Ok body) -> is_str (body ++ hash :: cs) = true ->
  Forall printable (body ++ hash :: cs) /\ ~ In hash cs /\ length cs = 8
  /\ shows (final Engine_new body) 8 cs.
Proof.
  intros Hv Hs. set (s := body ++ hash :: cs) in *.
  destruct (verify_total s Hs) as (r & Hr & Hp). rewrite Hv in Hr. injection Hr as <-.
  destruct (Hp body eq_refl) as [Hpr _]. clear Hp. split; [done|].
  destruct (last_hash s) as [Hn|(a & b & Es & Hn)].
  { exfalso. apply Hn. apply in_or_app. right. by left. }
  rewrite Es in Hpr, Hv. destruct (verify_hash a b Hpr Hn) as (? & chars & ? & _ & _ & Hsh & Ev).
  rewrite Hv in Ev. destruct (Nat.eqb_spec (length b) 8) as [Hl|]; [|done]. cbn [negb] in Ev.
  case_bool_decide as Hc; [|done]. injection Ev as ->. unfold s in Es. apply app_inv_head in Es.
  injection Es as ->. by subst chars.
Qed.

Lemma replace_char (a b : str) c ch : <[length a := ch]> (a ++ c :: b) = a ++ ch :: b.
Proof. rewrite <- (Nat.add_0_r (length a)) at 1. by rewrite insert_app_r. Qed.

Lemma verify_substitution body cs i ch : let s := body ++ hash :: cs in
  verify_checksum s = Some (Ok body) -> is_str s = true ->
  i <> length body -> i < length s -> s !! i <> Some ch -> is_str (<[i := ch]> s) = true ->
  exists e, verify_checksum (<[i := ch]> s) = Some (Err e).
Proof.
  intros s Hv Hs Hi Hlt Hne Hs'. destruct (verify_hash_Ok body cs Hv Hs) as (Hp & Hn & Hl & Hsh).
  destruct (verify_total _ Hs') as (r & Hr & Hok). destruct r as [body'|e]; [|by exists e].
  destruct (Hok body' eq_refl) as [Hp' _]. clear Hok Hs'. unfold s in *. clear s.
  destruct (Nat.lt_ge_cases i (length body)) as [Hib|Hib].
  - rewrite lookup_app_l in Hne by done. rewrite insert_app_l in * by done.
    apply lookup_lt_is_Some_2 in Hib as [c Hc]. rewrite Hc in Hne.
    apply list_elem_of_split_length in Hc as (a & b & -> & Hla). subst i.
    rewrite replace_char in *.
    destruct (verify_hash _ _ Hp' Hn) as (? & chars & ? & _ & _ & Hsh' & Ev). rewrite Ev.
    rewrite Hl. cbn [negb Nat.eqb]. case_bool_decide as Hc; [|by eexists]. subst chars. exfalso.
    apply list.Forall_app in Hp as [Hpb _]. apply list.Forall_app in Hp' as [Hpb' _].
    pose proof (final_lt Engine_new _ Engine_new_ok Hpb). pose proof (final_lt Engine_new _ Engine_new_ok Hpb').
    assert (printable ch) as Hch by (apply list.Forall_app in Hpb' as [_ Hb']; by apply Forall_cons_1 in Hb' as [? _]).
    apply (final_differ Engine_new a c ch b Engine_new_ok Hpb Hch); [congruence|].
    by apply (shows_inj _ _ cs).
  - rewrite lookup_app_r in Hne by done. rewrite insert_app_r_alt in * by done.
    destruct (i - length body) as [|j] eqn:Ej; [lia|].
    change (<[S j:=ch]> (hash :: cs)) with (hash :: <[j:=ch]> cs) in *.
    change ((hash :: cs) !! S j) with (cs !! j) in Hne.
    assert (length (<[j:=ch]> cs) = 8) as Hl' by by rewrite length_insert.
    destruct (last_hash (<[j:=ch]> cs)) as [Hn'|(c1 & c2 & Ecs & Hn')].
    + destruct (verify_hash _ _ Hp' Hn') as (e1 & chars & e2 & E1 & E2 & _ & Ev).
      destruct (verify_hash _ _ Hp Hn) as (e1' & chars' & e2' & E1' & E2' & _ & Ev').
      rewrite E1 in E1'. injection E1' as <-. rewrite E2 in E2'. injection E2' as <- _.
      rewrite Hv, Hl in Ev'. cbn [negb Nat.eqb] in Ev'. case_bool_decide as Hc; [|done]. subst chars.
      rewrite Ev, Hl'. cbn [negb Nat.eqb]. rewrite bool_decide_false; [by eexists|].
      intros E. apply Hne. rewrite E. apply list_lookup_insert_eq.
      rewrite length_app in Hlt. cbn [length] in Hlt. lia.
    + rewrite Ecs in *.
      assert (body ++ hash :: c1 ++ hash :: c2 = (body ++ hash :: c1) ++ hash :: c2) as Ea by by rewrite <- app_assoc.
      rewrite Ea in *.
      destruct (verify_hash _ _ Hp' Hn') as (? & chars & ? & _ & _ & _ & Ev). rewrite Ev.
      rewrite length_app in Hl'. cbn [length] in Hl'. destruct (Nat.eqb_spec (length c2) 8); [lia|].
      by eexists.
Qed.

(** C27: The checksum of descriptor strings. [verify_checksum] returns for every string
    without panic, and what it accepts consists of printable ASCII characters. Text written
    through the checksumming formatter, in whatever pieces, is accepted once its checksum is
    appended, and [verify_checksum] gives the text back. When any one character of an
    accepted string with a checksum, other than the separator, is replaced by another, the
    result is rejected: the code detects every single substitution, in the text and in the
    checksum. *)
Theorem verify_checksum_spec :
  (forall s, is_str s = true -> exists r, verify_checksum s = Some r
     /\ forall body, r = Ok body -> Forall printable s /\ (body = s \/ exists cs, s = body ++ hash :: cs))
  /\ (forall pieces, Forall printable (concat pieces) ->
       exists f f', write_all (Formatter_new [] false) pieces = Some (Ok f)
         /\ write_checksum_if_not_alt f = Some f'
         /\ verify_checksum (written f') = Some (Ok (concat pieces)))
  /\ (forall body cs i ch, let s := body ++ hash :: cs in
       verify_checksum s = Some (Ok body) -> is_str s = true ->
       i <> length body -> i < length s -> s !! i <> Some ch -> is_str (<[i := ch]> s) = true ->
       exists e, verify_checksum (<[i := ch]> s) = Some (Err e)).
Proof.
  split; [exact verify_total|]. split; [exact verify_written|]. exact verify_substitution.
Qed.
End Laws.

(** * A reference instance *)

Definition fe_chars : str := lit "qpzry9x8gf2tvdw0s3jn54khce6mua7l".

#[export] Instance reference_bech32 : Bech32 := {|
  Fe32 := N;
  Fe32_try_from n := if (n <? 32)%N then Some n else None;
  Fe32_to_char f := default "q"%byte (fe_chars !! N.to_nat f);
  CkEngine := N;
  CkEngine_new _ := 1%N;
  CkEngine_input_fe := polymod;
  CkEngine_input_target_residue ck e :=
    fold_left (polymod ck)
      (map (fun n => N.land (N.shiftr (TARGET_RESIDUE ck) (5 * N.of_nat n)) 31)
         (rev (seq 0 (CHECKSUM_LENGTH ck)))) e;
  CkEngine_residue e := e;
  PackedFe32_unpack r n := N.land (N.shiftr r (5 * N.of_nat n)) 31;
|}.

#[export] Instance reference_bech32_laws : Bech32Laws reference_bech32.
Proof.
  refine {| Fe32_value := fun f : @Fe32 reference_bech32 => (f : N) |}; try done.
  - intros n H. exists n. cbn. by apply N.ltb_lt in H as ->.
  - intros f f' H H' E.
    change (default "q"%byte (fe_chars !! N.to_nat f) = default "q"%byte (fe_chars !! N.to_nat f')) in E.
    assert (NoDup fe_chars) as Hnd by (apply (bool_decide_unpack _); by vm_compute).
    assert (forall g, (g < 32)%N -> exists c, fe_chars !! N.to_nat g = Some c) as Hl.
    { intros g Hg. apply lookup_lt_is_Some_2. change (length fe_chars) with 32. lia. }
    destruct (Hl f H) as [c Hc], (Hl f' H') as [c' Hc']. rewrite Hc, Hc' in E. simpl in E. subst c'.
    apply N2Nat.inj. by apply (NoDup_lookup _ _ _ _ Hnd Hc).
  - intros f. change (Fe32_to_char f) with (default "q"%byte (fe_chars !! N.to_nat f)).
    destruct (fe_chars !! N.to_nat f) as [c|] eqn:E; [|right; by split; vm_compute].
    simpl. apply list_elem_of_lookup_2 in E.
    assert (Forall (fun c => (0x30 <= code c <= 0x39)%N \/ (0x61 <= code c <= 0x7a)%N) fe_chars) as Hall.
    { apply (bool_decide_unpack _). by vm_compute. }
    rewrite list.Forall_forall in Hall. by apply Hall.
Qed.

(** A test vector of BIP 380. *)
Example deadbeef : verify_checksum (lit "raw(deadbeef)#89f8spxm") = Some (Ok (lit "raw(deadbeef)")).
Proof. by vm_compute. Qed.

Lemma verify_checksum_spec_witness :
  (exists f f', write_all (Formatter_new [] false) [lit "raw("; lit "deadbeef)"] = Some (Ok f)
     /\ write_checksum_if_not_alt f = Some f'
     /\ verify_checksum (written f') = Some (Ok (lit "raw(deadbeef)")))
  /\ exists e, verify_checksum (<[5 := "a"%byte]> (lit "raw(deadbeef)#89f8spxm")) = Some (Err e).
Proof.
  destruct (verify_checksum_spec) as (_ & Hw & Hs). split.
  - apply (Hw [lit "raw("; lit "deadbeef)"]). apply (bool_decide_unpack _). by vm_compute.
  - apply (Hs (lit "raw(deadbeef)") (lit "89f8spxm")); try (by vm_compute).
    + vm_compute. lia.
Defined.
