(* ===== verification/Expression.v ===== *)
(** Expression trees (src/src/expression/): the nodes with their accessors and iterators,
    the two passes of the parser, and the parsing of numbers. *)
From S2P Require Import Prelude Bitcoin Script Text Checksum Primitives Correctness Malleability Types.
From S2P Require Import ExtData Tree Ast Context.

(** * Errors (src/src/expression/error.rs, src/src/error.rs) *)

Inductive ParseTreeError : Type :=
| ErrChecksum (e : ChecksumError)
| MaxRecursionDepthExceeded (actual maximum : nat)
| ExpectedParenOrComma (ch : Byte.byte) (pos : nat)
| UnmatchedOpenParen (ch : Byte.byte) (pos : nat)
| UnmatchedCloseParen (ch : Byte.byte) (pos : nat)
| MismatchedParens (open_ch : Byte.byte) (open_pos : nat) (close_ch : Byte.byte) (close_pos : nat)
| IncorrectName (actual expected : str)
| IncorrectNumberOfChildren (description : str) (n_children : nat) (minimum maximum : option nat)
| IllegalCurlyBrace (pos : nat)
| MultipleSeparators (separator : Byte.byte) (pos : nat)
| TrailingCharacter (ch : Byte.byte) (pos : nat)
| UnknownName (name : str).

Inductive ParseNumError : Type :=
| StdParse (e : ParseIntError)
| InvalidLeadingDigit (ch : N)
| IllegalZero (context : str).

Inductive ParseThresholdError : Type :=
| NoChildren
| KNotTerminal
| IllegalOr
| IllegalAnd
| ParseK (e : ParseNumError)
| ThresholdInvalid (e : Threshold.ThresholdError).

(** [ParseError]; [X] is what the boxed errors of third-party parsers carry. *)
Inductive ParseError (X : Type) : Type :=
| ParseAbsoluteLockTime (e : AbsLockTimeError)
| ParseRelativeLockTime (e : RelLockTimeError)
| FromStr (e : X)
| Num (e : ParseNumError)
| ParseTree (e : ParseTreeError).
Arguments ParseAbsoluteLockTime {X} e.
Arguments ParseRelativeLockTime {X} e.
Arguments FromStr {X} e.
Arguments Num {X} e.
Arguments ParseTree {X} e.

(** * Numbers *)

(** The characters [1] to [9]. *)
Definition is_leading (ch : N) : bool := (0x31 <=? ch)%N && (ch <=? 0x39)%N.

Definition parse_num_nonzero (s : str) (context : str) : result ParseNumError N :=
  if bool_decide (s = lit "0") then Err (IllegalZero context)
  else
    match char_indices s with
    | (_, ch) :: _ =>
        if negb (is_leading ch) then Err (InvalidLeadingDigit ch)
        else map_err StdParse (u32_from_str s)
    | [] => map_err StdParse (u32_from_str s)
    end.

Definition parse_num (s : str) : result ParseNumError N :=
  if bool_decide (s = lit "0") then Ok 0%N else parse_num_nonzero s [].

(** * Trees *)

Module Expr.

Inductive Parens : Type := NoParens | Round | Curly.

#[export] Instance Parens_eq_dec : EqDecision Parens.
Proof. solve_decision. Defined.

Record TreeNode : Type := mkTreeNode {
  node_name : str;
  node_name_pos : nat;
  node_parens : Parens;
  node_n_children : nat;
  node_index : nat;
  parent_idx : option nat;
  last_child_idx : option nat;
  right_sibling_idx : option nat;
}.

(** [TreeNode::null] *)
Definition null (index : nat) : TreeNode := mkTreeNode [] 0 NoParens 0 index None None None.

Record TreeIterItem : Type := mkItem {
  nodes : list TreeNode;
  index : nat;
}.

(** [self.nodes[self.index]]; [None] is a panic here and below. *)
Definition get (self : TreeIterItem) : option TreeNode := nodes self !! index self.

Definition name (self : TreeIterItem) : option str := node_name <$> get self.
Definition name_pos (self : TreeIterItem) : option nat := node_name_pos <$> get self.
Definition children_pos (self : TreeIterItem) : option nat :=
  (fun n => node_name_pos n + length (node_name n) + 1) <$> get self.
Definition n_children (self : TreeIterItem) : option nat := node_n_children <$> get self.
Definition parens (self : TreeIterItem) : option Parens := node_parens <$> get self.

Definition parent (self : TreeIterItem) : option (option TreeIterItem) :=
  (fun n => mkItem (nodes self) <$> parent_idx n) <$> get self.

Definition is_first_child (self : TreeIterItem) : option bool :=
  (fun n => match parent_idx n with Some n => n + 1 =? index self | None => false end) <$> get self.

Definition first_child (self : TreeIterItem) : option (option TreeIterItem) :=
  (fun n => (fun _ => mkItem (nodes self) (index self + 1)) <$> last_child_idx n) <$> get self.

Definition right_sibling (self : TreeIterItem) : option (option TreeIterItem) :=
  (fun n => mkItem (nodes self) <$> right_sibling_idx n) <$> get self.

(** [DirectChildIterator] *)
Definition DirectChildIterator : Type := option TreeIterItem.

Definition children (self : TreeIterItem) : option DirectChildIterator := first_child self.

Definition child_next (current : DirectChildIterator)
  : option (option TreeIterItem * DirectChildIterator) :=
  match current with
  | None => Some (None, None)
  | Some item => current ← right_sibling item; Some (Some item, current)
  end.

(** [rightmost_descendant_idx]: its two loops; indices grow, so that the number of nodes is
    fuel enough. *)
Fixpoint rightmost_sibling (fuel : nat) (nodes : list TreeNode) (scan : nat) : option nat :=
  match fuel with
  | 0 => None
  | S fuel =>
      node ← nodes !! scan;
      match right_sibling_idx node with
      | Some idx => rightmost_sibling fuel nodes idx
      | None => Some scan
      end
  end.

Fixpoint rightmost (fuel : nat) (nodes : list TreeNode) (scan : nat) : option nat :=
  match fuel with
  | 0 => None
  | S fuel =>
      node ← nodes !! scan;
      match last_child_idx node with
      | Some idx => scan ← rightmost_sibling (length nodes) nodes idx; rightmost fuel nodes scan
      | None => Some scan
      end
  end.

Definition rightmost_descendant_idx (self : TreeIterItem) : option nat :=
  rightmost (length (nodes self)) (nodes self) (index self).

(** ** The iterator: a [RangeInclusive] with its flag for exhaustion *)

Record PreOrderIter : Type := mkPreOrderIter {
  iter_nodes : list TreeNode;
  range_start : nat;
  range_end : nat;
  exhausted : bool;
}.

Definition range_is_empty (self : PreOrderIter) : bool :=
  exhausted self || (range_end self <? range_start self).

Definition pre_order_iter (self : TreeIterItem) : option PreOrderIter :=
  last ← rightmost_descendant_idx self; Some (mkPreOrderIter (nodes self) (index self) last false).

Definition next (self : PreOrderIter) : option (TreeIterItem * PreOrderIter) :=
  if range_is_empty self then None
  else
    let n := range_start self in
    Some (mkItem (iter_nodes self) n,
          if n <? range_end self then mkPreOrderIter (iter_nodes self) (n + 1) (range_end self) false
          else mkPreOrderIter (iter_nodes self) n (range_end self) true).

Definition next_back (self : PreOrderIter) : option (TreeIterItem * PreOrderIter) :=
  if range_is_empty self then None
  else
    let n := range_end self in
    Some (mkItem (iter_nodes self) n,
          if range_start self <? n then mkPreOrderIter (iter_nodes self) (range_start self) (n - 1) false
          else mkPreOrderIter (iter_nodes self) (range_start self) n true).

(** [skip_descendants], with its debug assertions. *)
Definition skip_descendants (self : PreOrderIter) : option PreOrderIter :=
  if range_is_empty self then Some self
  else
    let last_index := range_start self - 1 in
    skip_past ← rightmost_descendant_idx (mkItem (iter_nodes self) last_index);
    if (range_start self <=? skip_past + 1) && (skip_past <=? range_end self)
    then Some (mkPreOrderIter (iter_nodes self) (skip_past + 1) (range_end self) false)
    else None.

(** ** Checks of the shape of a node *)

(** [str::splitn]: at most [n] pieces. *)
Fixpoint split_at (sep : Byte.byte) (s : str) : str * option str :=
  match s with
  | [] => ([], None)
  | b :: s =>
      if bool_decide (b = sep) then ([], Some s)
      else let '(pre, rest) := split_at sep s in (b :: pre, rest)
  end.

Fixpoint splitn (n : nat) (sep : Byte.byte) (s : str) : list str :=
  match n with
  | 0 => []
  | 1 => [s]
  | S n =>
      match split_at sep s with
      | (pre, None) => [pre]
      | (pre, Some rest) => pre :: splitn n sep rest
      end
  end.

Definition name_separated (self : TreeIterItem) (separator : Byte.byte)
  : option (result ParseTreeError (option str * str)) :=
  node ← get self;
  match splitn 3 separator (node_name node) with
  | [] => None
  | [_] => Some (Ok (None, node_name node))
  | [prefix; name] => Some (Ok (Some prefix, name))
  | _ :: _ :: suffix :: _ =>
      pos ← children_pos self;
      Some (Err (MultipleSeparators separator (pos - length suffix - 1)))
  end.

(** [verify_n_children] with the range [lo ..= hi], or [lo ..] when there is no [hi]. *)
Definition in_range (lo : nat) (hi : option nat) (n : nat) : bool :=
  (lo <=? n) && match hi with Some hi => n <=? hi | None => true end.

Definition verify_n_children (self : TreeIterItem) (description : str) (lo : nat) (hi : option nat)
  : option (result ParseTreeError ()) :=
  n ← n_children self;
  Some (if in_range lo hi n then Ok ()
        else Err (IncorrectNumberOfChildren description n (Some lo) hi)).

Definition verify_toplevel (self : TreeIterItem) (expected : str) (lo : nat) (hi : option nat)
  : option (result ParseTreeError TreeIterItem) :=
  if in_range lo hi 0 then None
  else
    node ← get self;
    if negb (bool_decide (node_name node = expected)) then Some (Err (IncorrectName (node_name node) expected))
    else if bool_decide (node_parens node = Curly) then
      pos ← children_pos self; Some (Err (IllegalCurlyBrace pos))
    else
      bind_r (verify_n_children self expected lo hi) (fun _ =>
        child ← first_child self; child ← child; Some (Ok child)).

Definition verify_terminal {X T} (from_str : str -> result X T) (self : TreeIterItem) (description : str)
  : option (result (ParseError X) T) :=
  bind_r (map_err ParseTree <$> verify_n_children self description 0 (Some 0)) (fun _ =>
    name ← name self; Some (map_err FromStr (from_str name))).

Definition verify_terminal_parent {X T} (from_str : str -> result X T) (self : TreeIterItem)
    (description inner_description : str) : option (result (ParseError X) T) :=
  bind_r (map_err ParseTree <$> verify_n_children self description 1 (Some 1)) (fun _ =>
    child ← first_child self; child ← child; verify_terminal from_str child inner_description).

Definition verify_binary (self : TreeIterItem) (description : str)
  : option (result ParseTreeError (TreeIterItem * TreeIterItem)) :=
  bind_r (verify_n_children self description 2 (Some 2)) (fun _ =>
    first_child ← first_child self; first_child ← first_child;
    second_child ← right_sibling first_child; second_child ← second_child;
    Some (Ok (first_child, second_child))).

Section LockTimes.
Context {B : Bitcoin}.

Definition verify_after {X} (self : TreeIterItem) : option (result (ParseError X) AbsLockTime) :=
  bind_r (map_err ParseTree <$> verify_n_children self (lit "after") 1 (Some 1)) (fun _ =>
    child ← first_child self; child ← child;
    bind_r (map_err ParseTree <$> verify_n_children child (lit "absolute locktime") 0 (Some 0)) (fun _ =>
      name ← name child;
      Some (n ← map_err Num (parse_num name);
            map_err ParseAbsoluteLockTime (abs_from_consensus n)))).

Definition verify_older {X} (self : TreeIterItem) : option (result (ParseError X) RelLockTime) :=
  bind_r (map_err ParseTree <$> verify_n_children self (lit "older") 1 (Some 1)) (fun _ =>
    child ← first_child self; child ← child;
    bind_r (map_err ParseTree <$> verify_n_children child (lit "relative locktime") 0 (Some 0)) (fun _ =>
      name ← name child;
      Some (n ← map_err Num (parse_num name);
            map_err ParseRelativeLockTime (rel_from_consensus n)))).
End LockTimes.

(** The children of a threshold, mapped in order; [S] is the state of the closure. *)
Fixpoint map_children {S E T} (n : nat) (it : DirectChildIterator) (s : S)
    (map_child : TreeIterItem -> S -> option (result E T * S)) : option (result E (list T) * S) :=
  match n with
  | 0 => Some (Ok [], s)
  | Datatypes.S n =>
      '(child, it) ← child_next it;
      child ← child;
      '(r, s) ← map_child child s;
      match r with
      | Err e => Some (Err e, s)
      | Ok t =>
          '(r, s) ← map_children n it s map_child;
          Some (ts ← r; Ok (t :: ts), s)
      end
  end.

(** [verify_threshold]; [from] is [E::from]. *)
Definition verify_threshold {S E T} (MAX : nat) (from : ParseThresholdError -> E)
    (self : TreeIterItem) (map_child : TreeIterItem -> S -> option (result E T * S)) (s : S)
  : option (result E (Threshold T) * S) :=
  child_iter ← children self;
  '(kchild, child_iter) ← child_next child_iter;
  match kchild with
  | None => Some (Err (from NoChildren), s)
  | Some kchild =>
      kn ← n_children kchild;
      if 0 <? kn then Some (Err (from KNotTerminal), s)
      else
        kname ← name kchild;
        match parse_num kname with
        | Err e => Some (Err (from (ParseK e)), s)
        | Ok k =>
            n ← n_children self;
            match Threshold.new MAX (N.to_nat k) (repeat () (n - 1)) with
            | Err e => Some (Err (from (ThresholdInvalid e)), s)
            | Ok thresh =>
                '(r, s) ← map_children (Threshold.n thresh) child_iter s map_child;
                Some (inner ← r; Ok (mkThreshold (Threshold.k thresh) inner), s)
            end
        end
  end.

(** [verify_no_curly_braces]: from the last node to the first. *)
Fixpoint no_curly_braces (nodes : list TreeNode) (first count : nat) : option (result ParseTreeError ()) :=
  match count with
  | 0 => Some (Ok ())
  | S count =>
      let node := mkItem nodes (first + count) in
      p ← parens node;
      if bool_decide (p = Curly) then pos ← children_pos node; Some (Err (IllegalCurlyBrace pos))
      else no_curly_braces nodes first count
  end.

Definition verify_no_curly_braces (self : TreeIterItem) : option (result ParseTreeError ()) :=
  last ← rightmost_descendant_idx self;
  no_curly_braces (nodes self) (index self) (last + 1 - index self).

(** * Parsing *)

(** [Tree]: the nodes in pre-order. *)
Definition Tree : Type := list TreeNode.

Definition root (self : Tree) : option TreeIterItem :=
  if length self =? 0 then None else Some (mkItem self 0).

Definition is_open (ch : Byte.byte) : bool := bool_decide (ch = "("%byte) || bool_decide (ch = "{"%byte).
Definition is_close (ch : Byte.byte) : bool := bool_decide (ch = ")"%byte) || bool_decide (ch = "}"%byte).
Definition is_comma (ch : Byte.byte) : bool := bool_decide (ch = ","%byte).

Definition mismatched (open_ch ch : Byte.byte) : bool :=
  bool_decide (open_ch = "("%byte) && bool_decide (ch = "}"%byte)
  || bool_decide (open_ch = "{"%byte) && bool_decide (ch = ")"%byte).

(** The first pass: [rest] is what follows [pos]. *)
Fixpoint pre_check_loop (rest : str) (pos : nat) (open_paren_stack : list (Byte.byte * nat))
    (max_depth n_nodes : nat) : result ParseTreeError (nat * nat) :=
  match rest with
  | [] =>
      match open_paren_stack with
      | (ch, pos) :: _ => Err (UnmatchedOpenParen ch pos)
      | [] => Ok (max_depth, n_nodes)
      end
  | ch :: rest =>
      if is_open ch then
        let stack := (ch, pos) :: open_paren_stack in
        pre_check_loop rest (pos + 1) stack (Nat.max max_depth (length stack)) n_nodes
      else if is_close ch then
        match open_paren_stack with
        | [] => Err (UnmatchedCloseParen ch pos)
        | (open_ch, open_pos) :: stack =>
            if mismatched open_ch ch then Err (MismatchedParens open_ch open_pos ch pos)
            else
              match stack, rest with
              | (paren_ch, paren_pos) :: _, [] => Err (UnmatchedOpenParen paren_ch paren_pos)
              | _ :: _, next_byte :: _ =>
                  if negb (is_close next_byte) && negb (is_comma next_byte)
                  then Err (ExpectedParenOrComma next_byte (pos + 1))
                  else pre_check_loop rest (pos + 1) stack max_depth (n_nodes + 1)
              | [], next_byte :: _ => Err (TrailingCharacter next_byte (pos + 1))
              | [], [] => pre_check_loop rest (pos + 1) stack max_depth (n_nodes + 1)
              end
        end
      else if is_comma ch then
        match open_paren_stack with
        | [] => Err (TrailingCharacter ch pos)
        | _ => pre_check_loop rest (pos + 1) open_paren_stack max_depth (n_nodes + 1)
        end
      else pre_check_loop rest (pos + 1) open_paren_stack max_depth n_nodes
  end.

Section Parsing.
Context {F : Bech32}.

Definition parse_pre_check (s : str) : option (result ParseTreeError (str * nat * nat)) :=
  bind_r (map_err ErrChecksum <$> verify_checksum s) (fun s =>
    Some ('(max_depth, n_nodes) ← pre_check_loop s 0 [] 0 1;
          if MAX_RECURSION_DEPTH <? max_depth
          then Err (MaxRecursionDepthExceeded max_depth MAX_RECURSION_DEPTH)
          else Ok (s, max_depth, n_nodes))).
End Parsing.

(** A [Vec] with the capacity it was allocated with, which grows by doubling. *)
Record Vec (T : Type) : Type := mkVec {
  items : list T;
  capacity : nat;
}.
Arguments mkVec {T} items capacity.
Arguments items {T} _.
Arguments capacity {T} _.

Definition with_capacity {T} (n : nat) : Vec T := mkVec [] n.

Definition push {T} (v : Vec T) (x : T) : Vec T :=
  let len := length (items v) in
  mkVec (items v ++ [x]) (if len <? capacity v then capacity v else Nat.max (2 * capacity v) (len + 1)).

(** [nodes[idx]] changed in place. *)
Definition update (idx : nat) (f : TreeNode -> TreeNode) (nodes : Vec TreeNode) : option (Vec TreeNode) :=
  if idx <? length (items nodes) then Some (mkVec (alter f idx (items nodes)) (capacity nodes)) else None.

Definition set_last_child (i : nat) (n : TreeNode) : TreeNode :=
  mkTreeNode (node_name n) (node_name_pos n) (node_parens n) (node_n_children n + 1) (node_index n)
    (parent_idx n) (Some i) (right_sibling_idx n).

Definition set_right_sibling (i : nat) (n : TreeNode) : TreeNode :=
  mkTreeNode (node_name n) (node_name_pos n) (node_parens n) (node_n_children n) (node_index n)
    (parent_idx n) (last_child_idx n) (Some i).

Definition set_name (name : str) (n : TreeNode) : TreeNode :=
  mkTreeNode name (node_name_pos n) (node_parens n) (node_n_children n) (node_index n)
    (parent_idx n) (last_child_idx n) (right_sibling_idx n).

Definition set_parens (parens : Parens) (n : TreeNode) : TreeNode :=
  mkTreeNode (node_name n) (node_name_pos n) parens (node_n_children n) (node_index n)
    (parent_idx n) (last_child_idx n) (right_sibling_idx n).

(** [new_node] *)
Definition new_node (nodes : Vec TreeNode) (stack : Vec nat) (pos : nat)
  : option (TreeNode * Vec TreeNode) :=
  let parent_idx := list.last (items stack) in
  nodes ← match parent_idx with
          | Some idx => update idx (set_last_child (length (items nodes))) nodes
          | None => Some nodes
          end;
  let len := length (items nodes) in
  Some (mkTreeNode [] pos NoParens 0 len parent_idx None None, nodes).

(** [&s[a..b]] *)
Definition slice (s : str) (a b : nat) : option str :=
  if (a <=? b) && (b <=? length s) then Some (take (b - a) (drop a s)) else None.

Record State : Type := mkState {
  st_nodes : Vec TreeNode;
  parent_stack : Vec nat;
  current_node : option TreeNode;
}.

(** The current node gets its name, which ends at [pos], and is stored. *)
Definition store_current (s : str) (pos : nat) (current : option TreeNode) (nodes : Vec TreeNode)
  : option (Vec TreeNode) :=
  match current with
  | None => Some nodes
  | Some current => name ← slice s (node_name_pos current) pos; Some (push nodes (set_name name current))
  end.

(** One turn of the second pass. *)
Definition parse_step (s : str) (pos : nat) (ch : Byte.byte) (st : State) : option State :=
  if is_open ch then
    current ← current_node st;
    name ← slice s (node_name_pos current) pos;
    let current := set_parens (if bool_decide (ch = "("%byte) then Round else Curly) (set_name name current) in
    let stack := push (parent_stack st) (length (items (st_nodes st))) in
    let nodes := push (st_nodes st) current in
    '(new, nodes) ← new_node nodes stack (pos + 1);
    Some (mkState nodes stack (Some new))
  else if is_comma ch then
    nodes ← store_current s pos (current_node st) (st_nodes st);
    last_sib_idx ← match list.last (items (parent_stack st)) with
                   | None => Some None
                   | Some n => last_child_idx <$> items nodes !! n
                   end;
    nodes ← match last_sib_idx with
            | Some last_sib_idx => update last_sib_idx (set_right_sibling (length (items nodes))) nodes
            | None => Some nodes
            end;
    '(new, nodes) ← new_node nodes (parent_stack st) (pos + 1);
    Some (mkState nodes (parent_stack st) (Some new))
  else if is_close ch then
    nodes ← store_current s pos (current_node st) (st_nodes st);
    Some (mkState nodes (mkVec (removelast (items (parent_stack st))) (capacity (parent_stack st))) None)
  else Some st.

Fixpoint parse_loop (s : str) (rest : str) (pos : nat) (st : State) : option State :=
  match rest with
  | [] => Some st
  | ch :: rest => st ← parse_step s pos ch st; parse_loop s rest (pos + 1) st
  end.

Section FromStr.
Context {F : Bech32}.

Definition from_str_inner (s : str) : option (result ParseTreeError Tree) :=
  bind_r (parse_pre_check s) (fun '(s, max_depth, n_nodes) =>
    st ← parse_loop s s 0 (mkState (with_capacity n_nodes) (with_capacity max_depth) (Some (null 0)));
    nodes ← store_current s (length s) (current_node st) (st_nodes st);
    if (capacity (parent_stack st) =? max_depth) && (capacity nodes =? n_nodes)
       && (length (items nodes) =? capacity nodes)
    then Some (Ok (items nodes))
    else None).

Definition from_str {X} (s : str) : option (result (ParseError X) Tree) :=
  map_err ParseTree <$> from_str_inner s.
End FromStr.
End Expr.

(** * Numbers in decimal ([parse_num], [parse_num_nonzero] of src/src/expression/mod.rs): what
    is read is a 32-bit number, and what is written is read back. *)

Lemma u32_digits_bound s : forall acc n, u32 acc -> u32_digits acc s = Ok n -> u32 n.
Proof.
  induction s as [|b s IH]; intros acc n Ha; cbn [u32_digits]; [by intros [= <-]|].
  destruct (negb _); [done|]. destruct (N.ltb_spec (acc * 10 + (code b - 0x30)) (2 ^ 32)); [|done]. by apply IH.
Qed.

Lemma u32_digits_grow s : forall acc n, u32_digits acc s = Ok n -> (acc <= n)%N.
Proof.
  induction s as [|b s IH]; intros acc n; cbn [u32_digits]; [intros [= <-]; lia|].
  destruct (negb _); [done|]. destruct (_ <? _)%N; [|done]. intros H%IH. lia.
Qed.

Lemma u32_from_str_u32 s n : u32_from_str s = Ok n -> u32 n.
Proof.
  intros Hn. destruct s as [|b s]; [done|]. unfold u32_from_str in Hn.
  destruct (bool_decide _); [destruct s; [done|]|]; by eapply u32_digits_bound in Hn.
Qed.

Lemma parse_num_nonzero_u32 s ctx n : parse_num_nonzero s ctx = Ok n -> u32 n.
Proof.
  unfold parse_num_nonzero. destruct (bool_decide _); [done|]. intros H.
  apply (u32_from_str_u32 s). destruct (char_indices s) as [|[? ?] ?]; [|destruct (negb _); [done|]]; by apply map_err_Ok_inv in H.
Qed.

Lemma parse_num_u32 s n : parse_num s = Ok n -> u32 n.
Proof.
  unfold parse_num. destruct (bool_decide (s = lit "0")); [by intros [= <-]|]. apply parse_num_nonzero_u32.
Qed.

Lemma parse_num_nonzero_pos s ctx n : parse_num_nonzero s ctx = Ok n -> (1 <= n)%N.
Proof.
  unfold parse_num_nonzero. destruct (bool_decide _); [done|]. destruct s as [|b s]; [done|].
  change (char_indices (b :: s)) with ((0, char_code b (take (char_len b - 1) s)) :: tail (char_indices (b :: s))).
  cbn [tail]. destruct (is_leading _) eqn:El; cbn [negb]; [|done]. intros H%map_err_Ok_inv. unfold u32_from_str in H.
  destruct (bool_decide_reflect (b = "+"%byte)) as [->|_]; [done|]. cbn [u32_digits] in H.
  destruct (N.leb_spec 0x30 (code b)), (N.leb_spec (code b) 0x39); try done. cbn [andb negb] in H.
  assert (char_len b = 1) as Hl by (unfold char_len; by rewrite (proj2 (N.ltb_lt (code b) 0x80)) by lia).
  rewrite Hl in El. cbn [Nat.sub] in El. unfold char_code in El.
  unfold is_leading in El. apply andb_prop in El as [El%N.leb_le _].
  destruct (_ <? _)%N; [|done]. apply u32_digits_grow in H. rewrite take_0 in El. cbn [length fold_left] in El. lia.
Qed.

Lemma parse_show_nonzero n ctx : (0 < n < 2 ^ 32)%N -> parse_num_nonzero (show_N n) ctx = Ok n.
Proof.
  intros Hn. unfold parse_num_nonzero. destruct (show_N_form n) as (b & s & Hs & [H1 H2] & Hd); [lia|].
  assert (bool_decide (show_N n = lit "0") = false) as ->.
  { apply bool_decide_eq_false. rewrite Hs. intros [= -> ->]. vm_compute in H1. congruence. }
  assert (exists p, char_indices (show_N n) = (p, code b) :: tail (char_indices (show_N n))) as [p ->].
  { rewrite Hs, char_indices_ascii; [by eexists|]. constructor; [unfold ascii; lia|].
    eapply List.Forall_impl; [|exact Hd]. unfold is_digit, ascii. intros ? [? ?]. lia. }
  unfold is_leading. rewrite (proj2 (N.leb_le _ _)), (proj2 (N.leb_le _ _)) by lia. cbn [andb negb]. by rewrite u32_from_show by lia.
Qed.

Lemma parse_show n : (n < 2 ^ 32)%N -> parse_num (show_N n) = Ok n.
Proof.
  intros Hn. destruct (N.eq_dec n 0%N) as [->|H0]; [reflexivity|]. unfold parse_num.
  pose proof (parse_show_nonzero n [] ltac:(lia)) as H. destruct (bool_decide_reflect (show_N n = lit "0")) as [E|]; [|done].
  by rewrite E in H.
Qed.
