(* ===== verification/ExprGrammar.v ===== *)
(** The grammar of expression trees: [Tree::from_str] accepts exactly the strings that the
    grammar at the head of src/src/expression/mod.rs derives, and its array of nodes is the
    derivation tree in pre-order. *)
From S2P Require Import Prelude Bitcoin Script Text Checksum Context Expression.
Import Expr.

(** * The grammar *)

(** An expression: a name, or a name with children in parentheses. *)
Inductive expr : Type :=
| Node (nm : str) (p : Parens) (cs : list expr).

Fixpoint expr_ind' (P : expr -> Prop)
    (H : forall nm p cs, Forall P cs -> P (Node nm p cs)) (e : expr) : P e :=
  match e with
  | Node nm p cs =>
      H nm p cs ((fix go cs : Forall P cs :=
                    match cs with
                    | [] => List.Forall_nil P
                    | c :: cs => @List.Forall_cons _ P c cs (expr_ind' P H c) (go cs)
                    end) cs)
  end.

Definition open_char (p : Parens) : Byte.byte := match p with Curly => "{"%byte | _ => "("%byte end.
Definition close_char (p : Parens) : Byte.byte := match p with Curly => "}"%byte | _ => ")"%byte end.

(** [join l]: the strings separated by commas. *)
Fixpoint join (l : list str) : str :=
  match l with
  | [] => []
  | [s] => s
  | s :: l => s ++ ","%byte :: join l
  end.

Fixpoint print (e : expr) : str :=
  match e with
  | Node nm NoParens _ => nm
  | Node nm p cs => nm ++ open_char p :: join (map print cs) ++ [close_char p]
  end.

Fixpoint depth (e : expr) : nat :=
  match e with
  | Node _ NoParens _ => 0
  | Node _ _ cs => S (list_max (map depth cs))
  end.

Fixpoint size (e : expr) : nat :=
  match e with Node _ _ cs => S (list_sum (map size cs)) end.

(** The characters of names: printable and without syntax. *)
Definition special (ch : Byte.byte) : bool := is_open ch || is_close ch || is_comma ch.
Definition name_char (ch : Byte.byte) : Prop := printable ch /\ special ch = false.

Inductive wf_expr : expr -> Prop :=
| WfLeaf nm : Forall name_char nm -> wf_expr (Node nm NoParens [])
| WfNode nm p cs : Forall name_char nm -> p <> NoParens -> cs <> [] -> Forall wf_expr cs ->
    wf_expr (Node nm p cs).

Lemma wf_expr_inv nm p cs : wf_expr (Node nm p cs) ->
  Forall name_char nm /\ (p = NoParens /\ cs = [] \/ p <> NoParens /\ cs <> [] /\ Forall wf_expr cs).
Proof. inversion 1; subst; [by split; [|left]|]. split; [done|]. by right. Qed.

(** * The array of nodes *)

(** The index of the last of the subtrees that start at index [i]. *)
Fixpoint last_index (i : nat) (cs : list expr) : option nat :=
  match cs with
  | [] => None
  | [_] => Some i
  | c :: cs => last_index (i + size c) cs
  end.

(** Trees side by side from index [i] and position [pos]. *)
Section Siblings.
Variable f : expr -> nat -> nat -> option nat -> option nat -> list TreeNode.

Fixpoint siblings (cs : list expr) (i pos : nat) (parent : option nat) : list TreeNode :=
  match cs with
  | [] => []
  | [c] => f c i pos parent None
  | c :: cs =>
      f c i pos parent (Some (i + size c)) ++ siblings cs (i + size c) (pos + length (print c) + 1) parent
  end.
End Siblings.

Fixpoint flat (e : expr) (i pos : nat) (parent sib : option nat) : list TreeNode :=
  match e with
  | Node nm p cs =>
      mkTreeNode nm pos p (length cs) i parent (last_index (i + 1) cs) sib
      :: siblings flat cs (i + 1) (pos + length nm + 1) (Some i)
  end.

Lemma siblings_cons f c c' cs i pos parent :
  siblings f (c :: c' :: cs) i pos parent
  = f c i pos parent (Some (i + size c))
    ++ siblings f (c' :: cs) (i + size c) (pos + length (print c) + 1) parent.
Proof. done. Qed.

Lemma flat_node_count e i pos parent sib : length (flat e i pos parent sib) = size e.
Proof.
  revert i pos parent sib. induction e as [nm p cs IH] using expr_ind'. intros i pos parent sib.
  cbn [flat size length]. f_equal. generalize (i + 1) (pos + length nm + 1) (Some i).
  induction IH as [|c cs Hc _ IHcs]; intros j q par; [done|].
  destruct cs as [|c' cs]; [cbn; rewrite Hc; lia|].
  rewrite siblings_cons, length_app, Hc, IHcs. done.
Qed.

Lemma siblings_length cs i pos parent : length (siblings flat cs i pos parent) = list_sum (map size cs).
Proof.
  revert i pos. induction cs as [|c cs IH]; intros i pos; [done|].
  destruct cs as [|c' cs]; [cbn; rewrite flat_node_count; lia|].
  rewrite siblings_cons, length_app, flat_node_count, IH. done.
Qed.

Lemma size_pos e : 0 < size e.
Proof. destruct e. simpl. lia. Qed.

Lemma print_node nm p cs :
  p <> NoParens -> print (Node nm p cs) = nm ++ open_char p :: join (map print cs) ++ [close_char p].
Proof. by destruct p. Qed.

Lemma depth_node nm p cs : p <> NoParens -> depth (Node nm p cs) = S (list_max (map depth cs)).
Proof. by destruct p. Qed.

Lemma join_cons s s' l : join (s :: s' :: l) = s ++ ","%byte :: join (s' :: l).
Proof. done. Qed.

Lemma Forall_apply {A} (P Q : A -> Prop) l :
  Forall (fun a => P a -> Q a) l -> Forall P l -> Forall Q l.
Proof. induction 1; intros H'; [constructor|]. apply Forall_cons_1 in H' as [? ?]. by constructor; auto. Qed.

(** * Characters *)

Lemma special_false ch : special ch = false -> is_open ch = false /\ is_close ch = false /\ is_comma ch = false.
Proof. unfold special. intros [[H1 H2]%orb_false_iff H3]%orb_false_iff. done. Qed.

Lemma open_char_open p : is_open (open_char p) = true.
Proof. by destruct p. Qed.

Lemma close_char_close p : is_open (close_char p) = false /\ is_comma (close_char p) = false /\ is_close (close_char p) = true.
Proof. by destruct p. Qed.

Lemma open_close p : mismatched (open_char p) (close_char p) = false.
Proof. by destruct p. Qed.

Lemma comma_comma : is_open ","%byte = false /\ is_close ","%byte = false /\ is_comma ","%byte = true.
Proof. done. Qed.

(** What may follow an expression with children. *)
Definition follows {A} (stack : list A) (rest : str) : Prop :=
  match stack, rest with
  | [], [] => True
  | _ :: _, ch :: _ => is_close ch = true \/ is_comma ch = true
  | _, _ => False
  end.

(** * The first pass accepts what the grammar derives *)

Lemma pre_check_name nm rest pos stack md n :
  Forall name_char nm ->
  pre_check_loop (nm ++ rest) pos stack md n = pre_check_loop rest (pos + length nm) stack md n.
Proof.
  intros H. revert pos. induction H as [|ch nm [_ Hch] _ IH]; intros pos; [by rewrite Nat.add_0_r|].
  apply special_false in Hch as (H1 & H2 & H3). cbn [app pre_check_loop length]. rewrite H1, H2, H3, IH.
  f_equal. lia.
Qed.

Lemma pre_check_close p q stack rest pos md n :
  follows stack rest ->
  pre_check_loop (close_char p :: rest) pos ((open_char p, q) :: stack) md n
  = pre_check_loop rest (pos + 1) stack md (n + 1).
Proof.
  intros Hf. destruct (close_char_close p) as (H1 & H2 & H3). cbn [pre_check_loop]. rewrite H1, H3, open_close.
  destruct stack as [|[ch' q'] stack], rest as [|b rest]; simpl in Hf; try done.
  destruct Hf as [->| ->]; [done|]. by rewrite andb_false_r.
Qed.

Definition pre_checks (e : expr) : Prop := forall rest pos stack md n,
  length stack <= md ->
  (follows stack rest \/ exists nm, e = Node nm NoParens []) ->
  pre_check_loop (print e ++ rest) pos stack md n
  = pre_check_loop rest (pos + length (print e)) stack (Nat.max md (length stack + depth e)) (n + size e - 1).

Lemma pre_check_children cs : Forall pre_checks cs -> cs <> [] ->
  forall p q stack rest pos md n, S (length stack) <= md -> follows stack rest ->
  pre_check_loop (join (map print cs) ++ close_char p :: rest) pos ((open_char p, q) :: stack) md n
  = pre_check_loop rest (pos + length (join (map print cs)) + 1) stack
      (Nat.max md (S (length stack) + list_max (map depth cs))) (n + list_sum (map size cs)).
Proof.
  intros H. induction H as [|c cs Hc _ IH]; intros Hne p q stack rest pos md n Hmd Hf; [done|].
  destruct (close_char_close p) as (Hp1 & Hp2 & Hp3). pose proof (size_pos c).
  destruct cs as [|c' cs].
  - cbn [map join list_max foldr list_sum fold_right]. rewrite Hc by (done || (left; cbn; by left)).
    rewrite pre_check_close by done. cbn [length]. f_equal; [|lia]. lia.
  - cbn [map] in *. rewrite join_cons, <- app_assoc. cbn [app]. rewrite Hc by (done || (left; cbn; by right)).
    cbn [pre_check_loop]. destruct comma_comma as (H1 & H2 & H3). rewrite H1, H2, H3.
    rewrite IH by (done || lia). rewrite length_app. cbn [length list_sum list_max foldr fold_right map].
    f_equal; lia.
Qed.

Lemma pre_checks_all e : wf_expr e -> pre_checks e.
Proof.
  induction e as [nm p cs IH] using expr_ind'. intros Hwf rest pos stack md n Hmd Hf.
  inversion Hwf as [? Hnm|? ? ? Hnm Hp Hne Hcs]; subst.
  - cbn [print depth size map list_sum fold_right]. rewrite pre_check_name by done. f_equal; lia.
  - destruct Hf as [Hf|[nm' [=]]]; [|done].
    rewrite print_node, depth_node by done. rewrite <- app_assoc, pre_check_name by done.
    cbn [app pre_check_loop]. rewrite open_char_open, <- app_assoc. cbn [app].
    rewrite pre_check_children; [|by apply Forall_apply with wf_expr|done|cbn [length]; lia|done].
    cbn [size]. rewrite !length_app. cbn [length]. rewrite length_app. cbn [length]. f_equal; lia.
Qed.

(** * The first pass accepts nothing else *)

(** An expression that has begun: its name, its kind of parentheses and the children before
    the current one. *)
Definition Frame : Type := (str * Parens * list expr).

Fixpoint print_frames (frames : list Frame) : str :=
  match frames with
  | [] => []
  | (nm, p, kids) :: frames =>
      print_frames frames ++ nm ++ open_char p :: concat (map (fun c => print c ++ [","%byte]) kids)
  end.

Definition frame_ok (f : Frame) : Prop :=
  let '(nm, p, kids) := f in Forall name_char nm /\ p <> NoParens /\ Forall wf_expr kids.

(** The stack of the first pass for the frames. *)
Definition stack_of (frames : list Frame) (stack : list (Byte.byte * nat)) : Prop :=
  Forall2 (fun f x => open_char f.1.2 = x.1) frames stack.

(** The current expression: a name so far, or a node that is complete. *)
Inductive current : Type := Naming (w : str) | Complete (e : expr).

Definition as_expr (c : current) : expr :=
  match c with Naming w => Node w NoParens [] | Complete e => e end.

Definition current_ok {A} (c : current) (stack : list A) (rest : str) : Prop :=
  match c with
  | Naming w => Forall name_char w
  | Complete e => wf_expr e /\ follows stack rest
  end.

Lemma current_wf {A} c (stack : list A) rest : current_ok c stack rest -> wf_expr (as_expr c).
Proof. destruct c; simpl; [by constructor|by intros [? _]]. Qed.

Lemma join_snoc l s : join (l ++ [s]) = concat (map (fun x => x ++ [","%byte]) l) ++ s.
Proof.
  induction l as [|a l IH]; [done|]. cbn [map concat]. rewrite <- !app_assoc. cbn [app].
  rewrite <- IH. by destruct l.
Qed.

(** The frame with the current expression as its last child. *)
Lemma print_close nm p kids c frames :
  p <> NoParens ->
  print_frames ((nm, p, kids) :: frames) ++ print c ++ [close_char p]
  = print_frames frames ++ print (Node nm p (kids ++ [c])).
Proof.
  intros Hp. cbn [print_frames]. rewrite print_node, map_app by done. cbn [map]. rewrite join_snoc, map_map.
  rewrite <- !app_assoc. do 2 f_equal.
Qed.

Lemma print_comma nm p kids c frames :
  print_frames ((nm, p, kids) :: frames) ++ print c ++ [","%byte]
  = print_frames ((nm, p, kids ++ [c]) :: frames).
Proof.
  cbn [print_frames]. rewrite map_app, concat_app. cbn [map concat]. rewrite app_nil_r.
  rewrite <- !app_assoc. cbn [app]. by rewrite <- ?app_assoc.
Qed.

Lemma open_inv ch : is_open ch = true -> exists p, p <> NoParens /\ ch = open_char p.
Proof.
  unfold is_open. intros [H|H]%orb_true_iff; apply bool_decide_eq_true in H as ->; [by exists Round|by exists Curly].
Qed.

Lemma close_inv p ch : p <> NoParens -> is_close ch = true -> mismatched (open_char p) ch = false -> ch = close_char p.
Proof.
  unfold is_close. intros Hp [H|H]%orb_true_iff Hm; apply bool_decide_eq_true in H as ->; by destruct p.
Qed.

Lemma comma_inv ch : is_comma ch = true -> ch = ","%byte.
Proof. apply bool_decide_eq_true. Qed.

Lemma pre_check_sound rest : forall pos frames stack md n c r,
  Forall printable rest -> Forall frame_ok frames -> stack_of frames stack -> current_ok c stack rest ->
  pre_check_loop rest pos stack md n = Ok r ->
  exists e, wf_expr e /\ print_frames frames ++ print (as_expr c) ++ rest = print e.
Proof.
  induction rest as [|ch rest IH]; intros pos frames stack md n c r Hpr Hfr Hst Hc H; cbn [pre_check_loop] in H.
  { destruct stack as [|[? ?] stack]; [|done]. inversion Hst; subst. rewrite app_nil_r.
    exists (as_expr c). split; [by eapply current_wf|done]. }
  apply Forall_cons_1 in Hpr as [Hch Hpr]. pose proof (current_wf _ _ _ Hc) as Hwf.
  destruct (is_open ch) eqn:Eo.
  { destruct (open_inv ch Eo) as (p & Hp & ->). destruct c as [w|e].
    - apply (IH _ ((w, p, []) :: frames) _ _ _ (Naming [])) in H as (e & He & E); [|done|..|constructor].
      + exists e. split; [done|]. rewrite <- E. cbn [print_frames as_expr print map concat].
        rewrite <- !app_assoc. done.
      + by constructor.
      + by constructor.
    - exfalso. destruct Hc as [_ Hf]. destruct stack; simpl in Hf; [done|].
      by destruct p, Hf. }
  destruct (is_close ch) eqn:Ec.
  { destruct stack as [|[open_ch q] stack]; [done|]. inversion Hst as [|[[nm p] kids] ? frames' ? Ho Hst']; subst.
    cbn [fst snd] in Ho. subst open_ch. apply Forall_cons_1 in Hfr as [(Hnm & Hp & Hkids) Hfr].
    destruct (mismatched _ _) eqn:Em; [done|]. apply close_inv in Em as ->; [|done..].
    assert (wf_expr (Node nm p (kids ++ [as_expr c]))) as Hnode.
    { constructor; [done|done|by destruct kids|]. apply list.Forall_app. split; [done|]. by constructor. }
    assert (forall rest, print_frames ((nm, p, kids) :: frames') ++ print (as_expr c) ++ close_char p :: rest
              = print_frames frames' ++ print (Node nm p (kids ++ [as_expr c])) ++ rest) as Hpc.
    { intros rest'. rewrite (app_assoc (print_frames frames')), <- print_close by done.
      rewrite <- !app_assoc. done. }
    rewrite Hpc. assert (follows stack rest /\ exists pos md n, pre_check_loop rest pos stack md n = Ok r) as (Hf & pos' & md' & n' & H').
    { destruct stack as [|[oc oq] stack], rest as [|b rest]; try done; [by split; [|do 3 eexists]|].
      destruct (is_close b) eqn:E1, (is_comma b) eqn:E2; cbn [negb andb] in H; try done;
        (split; [simpl; tauto|by do 3 eexists]). }
    by apply (IH _ frames' _ _ _ (Complete _) _ Hpr Hfr Hst' (conj Hnode Hf)) in H'. }
  destruct (is_comma ch) eqn:Em.
  { destruct stack as [|[open_ch q] stack]; [done|]. inversion Hst as [|[[nm p] kids] ? frames' ? Ho Hst']; subst.
    apply comma_inv in Em as ->. apply Forall_cons_1 in Hfr as [(Hnm & Hp & Hkids) Hfr].
    apply (IH _ ((nm, p, kids ++ [as_expr c]) :: frames') _ _ _ (Naming [])) in H as (e & He & E); [|done|..|constructor].
    - exists e. split; [done|]. rewrite <- E, <- print_comma, <- !app_assoc. done.
    - constructor; [|done]. split; [done|]. split; [done|]. apply list.Forall_app. split; [done|]. by constructor.
    - by constructor. }
  destruct c as [w|e].
  - apply (IH _ frames _ _ _ (Naming (w ++ [ch]))) in H as (e & He & E); [|done..|].
    + exists e. split; [done|]. rewrite <- E. cbn [as_expr print]. by rewrite <- app_assoc.
    + apply list.Forall_app. split; [done|]. constructor; [|constructor]. split; [done|].
      unfold special. by rewrite Eo, Ec, Em.
  - exfalso. destruct Hc as [_ Hf]. destruct stack; simpl in Hf; [done|]. destruct Hf; congruence.
Qed.

(** * The second pass builds the nodes in pre-order *)

Lemma expr_slice (before x after : str) :
  slice (before ++ x ++ after) (length before) (length before + length x) = Some x.
Proof.
  unfold slice. rewrite !length_app.
  rewrite (proj2 (Nat.leb_le _ _)) by lia. rewrite (proj2 (Nat.leb_le _ _)) by lia. cbn [andb].
  rewrite drop_app_length, Nat.add_comm, Nat.add_sub. by rewrite take_app_length.
Qed.

Definition fresh (i pos : nat) (parent : option nat) : TreeNode :=
  mkTreeNode [] pos NoParens 0 i parent None None.

Lemma parse_name s nm rest pos st :
  Forall name_char nm -> parse_loop s (nm ++ rest) pos st = parse_loop s rest (pos + length nm) st.
Proof.
  intros H. revert pos. induction H as [|ch nm [_ Hch] _ IH]; intros pos; [by rewrite Nat.add_0_r|].
  apply special_false in Hch as (H1 & H2 & H3). cbn [app parse_loop length]. unfold parse_step.
  rewrite H1, H2, H3. cbn [mbind option_bind]. rewrite IH. f_equal. lia.
Qed.

Lemma push_room {T} (l : list T) cap x : length l < cap -> push (mkVec l cap) x = mkVec (l ++ [x]) cap.
Proof. intros H. unfold push. cbn [items capacity]. by rewrite (proj2 (Nat.ltb_lt _ _)). Qed.

Lemma update_at (l : list TreeNode) x r cap f :
  update (length l) f (mkVec (l ++ x :: r) cap) = Some (mkVec (l ++ f x :: r) cap).
Proof.
  unfold update. cbn [items capacity]. rewrite length_app. cbn [length].
  rewrite (proj2 (Nat.ltb_lt _ _)) by lia. do 2 f_equal.
  rewrite <- (Nat.add_0_r (length l)) at 1. by rewrite alter_app_r.
Qed.

(** The state after an expression that began with a fresh node: its nodes are there once the
    current one is stored. *)
Definition parses (e : expr) : Prop := forall s before after N capN st capS i parent,
  s = before ++ print e ++ after -> length N = i -> i + size e <= capN -> length st + depth e <= capS ->
  exists st', parse_loop s (print e ++ after) (length before)
      (mkState (mkVec N capN) (mkVec st capS) (Some (fresh i (length before) parent)))
    = parse_loop s after (length before + length (print e)) st'
  /\ parent_stack st' = mkVec st capS
  /\ store_current s (length before + length (print e)) (current_node st') (st_nodes st')
     = Some (mkVec (N ++ flat e i (length before) parent None) capN).

(** A node with children, of which [cnt] have been seen, the last one at [lst]. *)
Definition pending (nm : str) (pos : nat) (p : Parens) (i : nat) (parent : option nat)
    (cnt : nat) (lst : nat) : TreeNode :=
  mkTreeNode nm pos p cnt i parent (Some lst) None.

Lemma flat_sibling e i pos parent j :
  alter (set_right_sibling j) 0 (flat e i pos parent None) = flat e i pos parent (Some j).
Proof. by destruct e. Qed.

Lemma update_sibling N e i pos parent j cap :
  length N = i ->
  update i (set_right_sibling j) (mkVec (N ++ flat e i pos parent None) cap)
  = Some (mkVec (N ++ flat e i pos parent (Some j)) cap).
Proof.
  intros <-. destruct e as [nm p cs]. cbn [flat]. by rewrite update_at.
Qed.

(** The turn on a comma after child [c]. *)
Lemma parse_comma s pos st' c q Npre nm ppos pp k parent cnt Nmid capN st capS i :
  store_current s pos (current_node st') (st_nodes st')
  = Some (mkVec ((Npre ++ pending nm ppos pp k parent cnt i :: Nmid) ++ flat c i q (Some k) None) capN) ->
  parent_stack st' = mkVec (st ++ [k]) capS ->
  length Npre = k -> length (Npre ++ pending nm ppos pp k parent cnt i :: Nmid) = i ->
  parse_step s pos ","%byte st'
  = Some (mkState (mkVec (Npre ++ pending nm ppos pp k parent (cnt + 1) (i + size c)
                            :: Nmid ++ flat c i q (Some k) (Some (i + size c))) capN)
            (mkVec (st ++ [k]) capS) (Some (fresh (i + size c) (pos + 1) (Some k)))).
Proof.
  intros Es Ep Hk Hi. unfold parse_step. destruct comma_comma as (H1 & _ & H3).
  rewrite H1, H3, Es. cbn [mbind option_bind]. rewrite Ep. cbn [items].
  assert (list.last (st ++ [k]) = Some k) as Hl by apply last_snoc. rewrite Hl.
  assert (((Npre ++ pending nm ppos pp k parent cnt i :: Nmid) ++ flat c i q (Some k) None) !! k
          = Some (pending nm ppos pp k parent cnt i)) as Hlk.
  { rewrite <- app_assoc. cbn [app]. by apply list_lookup_middle. }
  rewrite Hlk. cbn [fmap option_fmap option_map last_child_idx pending mbind option_bind].
  rewrite length_app, Hi, flat_node_count. rewrite update_sibling by done. cbn [mbind option_bind].
  unfold new_node. cbn [items]. rewrite Hl, length_app, Hi, flat_node_count.
  rewrite <- app_assoc. cbn [app]. rewrite <- Hk at 1. rewrite update_at. cbn [mbind option_bind items].
  f_equal. f_equal. f_equal. unfold fresh. f_equal.
  rewrite !length_app in *. cbn [length] in *. rewrite !length_app, flat_node_count. lia.
Qed.

Lemma parse_children cs : Forall parses cs -> forall c, parses c ->
  forall s before p after Npre nm ppos pp k parent cnt Nmid capN st capS i,
  s = before ++ join (map print (c :: cs)) ++ close_char p :: after ->
  length Npre = k -> length (Npre ++ pending nm ppos pp k parent cnt i :: Nmid) = i ->
  i + list_sum (map size (c :: cs)) <= capN ->
  S (length st) + list_max (map depth (c :: cs)) <= capS ->
  exists lst, last_index i (c :: cs) = Some lst /\
  parse_loop s (join (map print (c :: cs)) ++ close_char p :: after) (length before)
    (mkState (mkVec (Npre ++ pending nm ppos pp k parent cnt i :: Nmid) capN)
       (mkVec (st ++ [k]) capS) (Some (fresh i (length before) (Some k))))
  = parse_loop s after (length before + length (join (map print (c :: cs))) + 1)
      (mkState (mkVec (Npre ++ pending nm ppos pp k parent (cnt + length cs) lst
                        :: Nmid ++ siblings flat (c :: cs) i (length before) (Some k)) capN)
         (mkVec st capS) None).
Proof.
  intros H. induction H as [|c' cs Hc' _ IH]; intros c Hc s before p after Npre nm ppos pp k parent cnt Nmid capN st capS i Hs Hk Hi HN HS.
  - exists i. split; [done|]. cbn [map join list_sum list_max foldr fold_right] in *.
    edestruct (Hc s before (close_char p :: after) (Npre ++ pending nm ppos pp k parent cnt i :: Nmid) capN
                (st ++ [k]) capS i (Some k)) as (st' & E & Ep & Es); [done|done|lia|rewrite length_app; cbn; lia|].
    rewrite E. cbn [parse_loop]. unfold parse_step.
    destruct (close_char_close p) as (H1 & H2 & H3). rewrite H1, H2, H3, Es. cbn [mbind option_bind].
    rewrite Ep. cbn [items capacity]. rewrite removelast_last. cbn [siblings length].
    rewrite Nat.add_0_r, <- app_assoc. done.
  - cbn [map] in Hs, HN, HS. rewrite join_cons in Hs. cbn [list_sum list_max foldr fold_right] in HN, HS.
    edestruct (Hc s before (","%byte :: join (map print (c' :: cs)) ++ close_char p :: after)
                (Npre ++ pending nm ppos pp k parent cnt i :: Nmid) capN (st ++ [k]) capS i (Some k))
      as (st' & E & Ep & Es); [by rewrite Hs, <- app_assoc|done|lia|rewrite length_app; cbn; lia|].
    change (map print (c :: c' :: cs)) with (print c :: print c' :: map print cs).
    rewrite join_cons, <- app_assoc. cbn [app]. change (print c' :: map print cs) with (map print (c' :: cs)).
    rewrite E. cbn [parse_loop]. erewrite parse_comma; [|exact Es|exact Ep|done..]. cbn [mbind option_bind].
    specialize (IH c' Hc' s (before ++ print c ++ [","%byte]) p after Npre nm ppos pp k parent (cnt + 1)
      (Nmid ++ flat c i (length before) (Some k) (Some (i + size c))) capN st capS (i + size c)).
    destruct IH as (lst & Hl & IH).
    + rewrite Hs, <- !app_assoc. done.
    + done.
    + rewrite length_app in *. cbn [length] in *. rewrite length_app, flat_node_count. lia.
    + cbn [map list_sum foldr fold_right]. lia.
    + cbn [map list_max foldr fold_right]. lia.
    + exists lst. split; [done|]. rewrite !length_app in IH. cbn [length] in IH.
      replace (length before + length (print c) + 1) with (length before + (length (print c) + 1)) by lia.
      rewrite IH, siblings_cons, app_assoc. cbn [length]. rewrite (length_app (print c)). cbn [length].
      f_equal; [lia|]. do 4 f_equal; [f_equal; lia|]. by rewrite Nat.add_assoc.
Qed.

Lemma last_index_Some i c cs : is_Some (last_index i (c :: cs)).
Proof. revert i c. induction cs as [|c' cs IH]; intros i c; [by eexists|]. apply IH. Qed.

Lemma parses_all e : wf_expr e -> parses e.
Proof.
  induction e as [nm p cs IH] using expr_ind'. intros Hwf s before after N capN st capS i parent Hs <- HcN HcS.
  apply wf_expr_inv in Hwf as (Hnm & [(-> & ->)|(Hp & Hne & Hcs)]).
  - cbn [print] in *. rewrite parse_name by done. eexists. split; [done|]. split; [done|].
    cbn [current_node st_nodes store_current node_name_pos fresh]. rewrite Hs, expr_slice.
    cbn [mbind option_bind]. rewrite push_room by (cbn in HcN; lia). done.
  - rewrite print_node in * by done. rewrite depth_node in HcS by done.
    destruct cs as [|c cs]; [done|]. apply Forall_cons_1 in IH as [IHc IH]. apply Forall_cons_1 in Hcs as [Hwc Hwcs].
    rewrite <- app_assoc, parse_name by done. cbn [app parse_loop]. unfold parse_step at 1.
    rewrite open_char_open. cbn [current_node mbind option_bind node_name_pos fresh st_nodes items parent_stack].
    assert (slice s (length before) (length before + length nm) = Some nm) as ->.
    { rewrite Hs, <- app_assoc. apply expr_slice. }
    cbn [mbind option_bind]. cbn [size] in HcN. rewrite !push_room by lia.
    assert ((if bool_decide (open_char p = "("%byte) then Round else Curly) = p) as -> by by destruct p.
    unfold new_node. cbn [items]. assert (list.last (st ++ [length N]) = Some (length N)) as -> by apply last_snoc.
    rewrite length_app. cbn [length]. rewrite update_at. cbn [mbind option_bind items].
    edestruct (parse_children cs) with (c := c) (s := s) (before := before ++ nm ++ [open_char p]) (p := p)
      (after := after) (Npre := N) (nm := nm) (ppos := length before) (pp := p) (k := length N) (parent := parent)
      (cnt := 1) (Nmid := @nil TreeNode) (capN := capN) (st := st) (capS := capS) (i := length N + 1)
      as (lst & Hl & E).
    + by apply Forall_apply with wf_expr.
    + by apply IHc.
    + rewrite Hs, <- !app_assoc. cbn [app]. by rewrite <- app_assoc.
    + done.
    + rewrite length_app. done.
    + lia.
    + lia.
    + rewrite !length_app in E. cbn [length app] in E. rewrite <- app_assoc. cbn [app].
      replace (length before + (length nm + 1)) with (length before + length nm + 1) in E by lia.
      rewrite length_app. cbn [length].
      eexists. split; [etransitivity; [exact E|]|].
      { f_equal. rewrite !length_app. cbn [length]. rewrite length_app. cbn [length]. lia. }
      split; [done|]. cbn [current_node st_nodes store_current flat length]. by rewrite Hl.
Qed.

(** * The parser *)

Lemma flat_root e : wf_expr e ->
  exists st nodes, parse_loop (print e) (print e) 0
      (mkState (with_capacity (size e)) (with_capacity (depth e)) (Some (null 0))) = Some st
    /\ capacity (parent_stack st) = depth e
    /\ store_current (print e) (length (print e)) (current_node st) (st_nodes st) = Some nodes
    /\ items nodes = flat e 0 0 None None /\ capacity nodes = size e.
Proof.
  intros H. destruct (parses_all e H (print e) [] [] [] (size e) [] (depth e) 0 None) as (st & E & Ep & Es);
    [by rewrite app_nil_r|done|lia|simpl; lia|].
  rewrite app_nil_r in E. exists st. eexists. split; [exact E|]. rewrite Ep.
  split; [done|]. split; [exact Es|]. done.
Qed.

Section Parser.
Context {F : Bech32} {FL : Bech32Laws F}.

(** The result of the parser on the strings of the grammar. *)
Lemma from_str_print e s : wf_expr e -> verify_checksum s = Some (Ok (print e)) ->
  from_str_inner s
  = Some (if MAX_RECURSION_DEPTH <? depth e then Err (MaxRecursionDepthExceeded (depth e) MAX_RECURSION_DEPTH)
          else Ok (flat e 0 0 None None)).
Proof.
  intros He Hv. unfold from_str_inner, parse_pre_check. rewrite Hv. cbn [fmap option_fmap option_map map_err bind_r mbind option_bind].
  pose proof (pre_checks_all e He [] 0 [] 0 1 ltac:(done) ltac:(by left)) as Hp. rewrite app_nil_r in Hp.
  rewrite Hp. cbn [pre_check_loop mbind result_bind length Nat.add Nat.max].
  replace (S (size e) - 1) with (size e) by lia.
  destruct (MAX_RECURSION_DEPTH <? depth e); [done|]. cbn [mbind option_bind].
  destruct (flat_root e He) as (st & nodes & El & Hc & E & Hi & Hcn). rewrite El. cbn [mbind option_bind].
  rewrite E. cbn [mbind option_bind]. rewrite Hc, Hcn, Hi, flat_node_count, !Nat.eqb_refl. done.
Qed.

Lemma pre_check_print s r :
  Forall printable s -> pre_check_loop s 0 [] 0 1 = Ok r -> exists e, wf_expr e /\ s = print e.
Proof.
  intros Hs H. by apply (pre_check_sound s 0 [] [] 0 1 (Naming [])) in H; [|first [done|constructor]..].
Qed.

Lemma verify_printable s body : is_str s = true -> verify_checksum s = Some (Ok body) -> Forall printable body.
Proof.
  intros Hs Hv. destruct (verify_total s Hs) as (r & Hr & Hok). rewrite Hv in Hr. injection Hr as <-.
  destruct (Hok body eq_refl) as [Hp [->|[cs ->]]]; [done|]. by apply list.Forall_app in Hp as [? _].
Qed.

Lemma from_str_inner_total s : is_str s = true ->
  exists r, from_str_inner s = Some r
    /\ forall tree, r = Ok tree ->
         exists e, wf_expr e /\ verify_checksum s = Some (Ok (print e))
           /\ depth e <= MAX_RECURSION_DEPTH /\ tree = flat e 0 0 None None.
Proof.
  intros Hs. destruct (verify_total s Hs) as ([body|err] & Hv & _).
  - destruct (pre_check_loop body 0 [] 0 1) as [r|err] eqn:Ep.
    + destruct (pre_check_print body r (verify_printable s body Hs Hv) Ep) as (e & He & ->).
      rewrite (from_str_print e s He Hv). eexists. split; [done|]. intros tree H.
      destruct (Nat.ltb_spec MAX_RECURSION_DEPTH (depth e)) as [Hd|Hd]; [done|]. injection H as <-. by exists e.
    + unfold from_str_inner, parse_pre_check. rewrite Hv. cbn [fmap option_fmap option_map map_err bind_r mbind option_bind].
      rewrite Ep. by eexists.
  - unfold from_str_inner, parse_pre_check. rewrite Hv. by eexists.
Qed.

(** C28: [Tree::from_str] decides the grammar of expressions. It returns for every string,
    without panic (the assertions on the capacities of its vectors included), and it
    succeeds exactly on the strings that are, after removal of a valid checksum, the text
    of an expression nested at most 402 deep; the tree it returns is then the array of the
    nodes of that expression in pre-order, with their names, positions, parentheses, and
    links to parent, last child and right sibling. *)
Theorem from_str_spec {X} s : is_str s = true ->
  exists r, from_str (X := X) s = Some r
    /\ forall tree, r = Ok tree <->
         exists e, wf_expr e /\ verify_checksum s = Some (Ok (print e))
           /\ depth e <= MAX_RECURSION_DEPTH /\ tree = flat e 0 0 None None.
Proof.
  intros Hs. destruct (from_str_inner_total s Hs) as (r & Hr & Hsound). unfold from_str. rewrite Hr.
  cbn [fmap option_fmap option_map]. eexists. split; [done|]. intros tree. split.
  - intros H. apply map_err_Ok_inv in H. by apply Hsound.
  - intros (e & He & Hv & Hd & ->). rewrite (from_str_print e s He Hv) in Hr.
    rewrite (proj2 (Nat.ltb_ge _ _)) in Hr by done. by injection Hr as <-.
Qed.
End Parser.

(** [t:or_c(pk(A),v:pkh(B))] *)
Lemma from_str_spec_witness :
  exists r, from_str (X := ()) (lit "t:or_c(pk(A),v:pkh(B))") = Some r
    /\ forall tree, r = Ok tree <->
         exists e, wf_expr e /\ verify_checksum (lit "t:or_c(pk(A),v:pkh(B))") = Some (Ok (print e))
           /\ depth e <= MAX_RECURSION_DEPTH /\ tree = flat e 0 0 None None.
Proof. apply (from_str_spec (lit "t:or_c(pk(A),v:pkh(B))")). by vm_compute. Defined.
