(* ===== verification/StrKey.v ===== *)
(** Keys, hashes and scripts as strings (src/src/blanket_traits.rs and the [Display] bounds of
    the key traits): the functions that read them and write them, which are those of other
    crates, the laws that relate the two, and an instance. *)
From S2P Require Import Prelude Bitcoin Script Primitives Reference Text Checksum Context Expression ExprGrammar.

(** What the code reads with functions of other crates: hashes and scripts in hexadecimal.
    [BoxedError] is [Box<dyn StaticDebugAndDisplay>]. *)
Class Strings {B : Bitcoin} : Type := {
  BoxedError : Type;
  hash160_from_str : str -> result BoxedError hash160_Hash;
  sha256_from_str : str -> result BoxedError sha256_Hash;
  ScriptBuf_from_hex : str -> result str bytes;
}.

(** The trait [FromStrKey]: keys and their hashes, read from strings. *)
Class FromStrKey {B : Bitcoin} {St : Strings} {K : MiniscriptKey} : Type := {
  Pk_from_str : str -> result BoxedError Pk;
  Sha256_from_str : str -> result BoxedError Primitives.Sha256;
  Hash256_from_str : str -> result BoxedError Primitives.Hash256;
  Ripemd160_from_str : str -> result BoxedError Primitives.Ripemd160;
  Hash160_from_str : str -> result BoxedError Primitives.Hash160;
}.

(** [Display] and [Debug] of what a Miniscript has at its leaves, and [LowerHex] of scripts. *)
Class Shows {B : Bitcoin} {K : MiniscriptKey} : Type := {
  Pk_display : Pk -> str;
  Sha256_display : Primitives.Sha256 -> str;
  Hash256_display : Primitives.Hash256 -> str;
  Ripemd160_display : Primitives.Ripemd160 -> str;
  Hash160_display : Primitives.Hash160 -> str;
  hash160_display : hash160_Hash -> str;
  sha256_display : sha256_Hash -> str;
  LockTime_display : LockTime -> str;
  Sequence_display : Sequence -> str;
  Script_lower_hex : bytes -> str;
  Pk_debug : Pk -> str;
  Sha256_debug : Primitives.Sha256 -> str;
  Hash256_debug : Primitives.Hash256 -> str;
  Ripemd160_debug : Primitives.Ripemd160 -> str;
  Hash160_debug : Primitives.Hash160 -> str;
  hash160_debug : hash160_Hash -> str;
  LockTime_debug : LockTime -> str;
  Sequence_debug : Sequence -> str;
}.

(** The characters of names, without the one in front of a checksum. *)
Definition text_char (ch : Byte.byte) : Prop := name_char ch /\ ch <> hash.

(** Strings that are read back, and that are names of expressions. *)
Definition written {X T} (from_str : str -> result X T) (display : T -> str) : Prop :=
  forall x, from_str (display x) = Ok x /\ Forall text_char (display x).

Class ShowLaws {B : Bitcoin} {St : Strings} {K : MiniscriptKey} (FK : FromStrKey) (Sh : Shows) : Prop := {
  Pk_written : written Pk_from_str Pk_display;
  Sha256_written : written Sha256_from_str Sha256_display;
  Hash256_written : written Hash256_from_str Hash256_display;
  Ripemd160_written : written Ripemd160_from_str Ripemd160_display;
  Hash160_written : written Hash160_from_str Hash160_display;
  hash160_written : written hash160_from_str hash160_display;
  sha256_written : written sha256_from_str sha256_display;
  Script_written : written ScriptBuf_from_hex Script_lower_hex;
  LockTime_shown : forall l, LockTime_display l = show_N (LockTime_to_consensus_u32 l);
  Sequence_shown : forall s, Sequence_display s = show_N (Sequence_to_consensus_u32 s);
}.

(** * Hexadecimal *)

Definition hex_digit (n : N) : Byte.byte := byte_of (if n <? 10 then 0x30 + n else 0x57 + n)%N.

Definition hex_value (b : Byte.byte) : option N :=
  let n := code b in
  if (0x30 <=? n)%N && (n <=? 0x39)%N then Some (n - 0x30)%N
  else if (0x61 <=? n)%N && (n <=? 0x66)%N then Some (n - 0x57)%N
  else None.

Definition hex_byte (b : Byte.byte) : str := [hex_digit (code b / 16); hex_digit (code b mod 16)].

Definition to_hex (b : bytes) : str := concat (map hex_byte b).

Fixpoint from_hex (s : str) : option bytes :=
  match s with
  | [] => Some []
  | [_] => None
  | h :: l :: s => h ← hex_value h; l ← hex_value l; s ← from_hex s; Some (byte_of (16 * h + l) :: s)
  end.

Lemma hex_byte_read b : hex_value (hex_digit (code b / 16)) = Some (code b / 16)%N
  /\ hex_value (hex_digit (code b mod 16)) = Some (code b mod 16)%N
  /\ byte_of (16 * (code b / 16) + code b mod 16) = b /\ Forall text_char (hex_byte b).
Proof.
  assert (forallb (fun ch => bool_decide (printable ch) && negb (special ch) && negb (bool_decide (ch = hash))) (hex_byte b) = true) as Hc by (by destruct b).
  repeat split; try by destruct b.
  rewrite forallb_forall in Hc. apply List.Forall_forall. intros ch Hin.
  apply Hc in Hin as [[H1%bool_decide_eq_true H2%negb_true_iff]%andb_true_iff H3%negb_true_iff%bool_decide_eq_false]%andb_true_iff.
  split; [by split|done].
Qed.

Lemma from_to_hex b : from_hex (to_hex b) = Some b.
Proof.
  induction b as [|x b IH]; [done|]. change (to_hex (x :: b)) with (hex_byte x ++ to_hex b).
  destruct (hex_byte_read x) as (Hh & Hl & Hx & _). unfold hex_byte. cbn [app from_hex].
  rewrite Hh, Hl, IH. cbn [mbind option_bind]. by rewrite Hx.
Qed.

Lemma to_hex_chars b : Forall text_char (to_hex b).
Proof.
  induction b as [|x b IH]; [constructor|]. apply list.Forall_app. split; [apply hex_byte_read|exact IH].
Qed.

(** * The instance *)

Definition hash_from_str n (s : str) : result () (Reference.array n) :=
  match from_hex s with
  | Some b => if length b =? n then Ok (Reference.of_list n b) else Err ()
  | None => Err ()
  end.

Definition hash_display {n} (h : Reference.array n) : str := to_hex (Reference.to_list h).

Lemma hash_written n : written (hash_from_str n) hash_display.
Proof.
  intros h. split; [|apply to_hex_chars]. unfold hash_from_str, hash_display. rewrite from_to_hex, Reference.to_list_length, Nat.eqb_refl.
  f_equal. rewrite <- (app_nil_r (Reference.to_list h)). apply Reference.of_to_list.
Qed.

#[export] Instance reference_strings : Strings (B := reference) := {|
  BoxedError := ();
  hash160_from_str := hash_from_str 20;
  sha256_from_str := hash_from_str 32;
  ScriptBuf_from_hex s := match from_hex s with Some b => Ok b | None => Err (lit "invalid hex") end;
|}.

(** A key is its byte in hexadecimal, after [02] if it is compressed and [04] if not. *)
Definition key_from_str (s : str) : result () (bool * Byte.byte) :=
  match from_hex s with
  | Some [Byte.x02; b] => Ok (true, b)
  | Some [Byte.x04; b] => Ok (false, b)
  | _ => Err ()
  end.

Definition key_display (k : bool * Byte.byte) : str := to_hex [if k.1 then Byte.x02 else Byte.x04; k.2].

#[export] Instance reference_from_str_key : FromStrKey (St := reference_strings) (K := reference_key) :=
  @Build_FromStrKey reference reference_strings reference_key
    key_from_str (hash_from_str 32) (hash_from_str 32) (hash_from_str 20) (hash_from_str 20).

#[export] Instance reference_shows : Shows (B := reference) (K := reference_key) := {|
  Pk_display := key_display;
  Sha256_display := @hash_display 32;
  Hash256_display := @hash_display 32;
  Ripemd160_display := @hash_display 20;
  Hash160_display := @hash_display 20;
  hash160_display := @hash_display 20;
  sha256_display := @hash_display 32;
  LockTime_display l := show_N (LockTime_to_consensus_u32 l);
  Sequence_display s := show_N (Sequence_to_consensus_u32 s);
  Script_lower_hex := to_hex;
  Pk_debug := key_display;
  Sha256_debug := @hash_display 32;
  Hash256_debug := @hash_display 32;
  Ripemd160_debug := @hash_display 20;
  Hash160_debug := @hash_display 20;
  hash160_debug := @hash_display 20;
  LockTime_debug l := show_N (LockTime_to_consensus_u32 l);
  Sequence_debug s := show_N (Sequence_to_consensus_u32 s);
|}.

#[export] Instance reference_show_laws : ShowLaws reference_from_str_key reference_shows.
Proof.
  constructor; try apply hash_written; try done.
  - intros [c b]. split; [|apply to_hex_chars]. cbn [Pk_display Pk_from_str reference_shows reference_from_str_key].
    unfold key_from_str, key_display. rewrite from_to_hex. by destruct c.
  - intros b. split; [|apply to_hex_chars]. cbn. by rewrite from_to_hex.
Qed.
