(* ===== verification/Display.v ===== *)
(** Writing Miniscripts as strings (src/src/miniscript/display.rs, [Display] of
    src/src/miniscript/types/mod.rs and of the lock times): the tree of what is written, and
    the loop over its verbose pre-order. *)
From S2P Require Import Prelude Bitcoin Primitives Ord Correctness Malleability Types.
From S2P Require Import ExtData Tree Ast Script Text Checksum Context Expression ExprGrammar StrKey.

(** * Types and lock times *)

(** [Display for Type] *)
Definition Type_display (self : MsType) : str :=
  match c_base (corr self) with
  | BaseB => lit "B" | BaseK => lit "K" | BaseV => lit "V" | BaseW => lit "W"
  end
  ++ lit "/"
  ++ match c_input (corr self) with
     | InputZero => lit "z" | InputOne => lit "o" | InputOneNonZero => lit "on"
     | InputAny => [] | InputAnyNonZero => lit "n"
     end
  ++ (if c_dissatisfiable (corr self) then lit "d" else [])
  ++ (if c_unit (corr self) then lit "u" else [])
  ++ match m_dissat (mall self) with
     | DissatNone => lit "f" | DissatUnique => lit "e" | DissatUnknown => []
     end
  ++ (if m_safe (mall self) then lit "s" else [])
  ++ (if m_non_malleable (mall self) then lit "m" else []).

Section LockTimes.
Context {B : Bitcoin} {K : MiniscriptKey} {Sh : Shows}.

Definition AbsLockTime_display (self : AbsLockTime) : str := LockTime_display (abs_inner self).
Definition RelLockTime_display (self : RelLockTime) : str := Sequence_display (rel_inner self).
Definition AbsLockTime_debug (self : AbsLockTime) : str :=
  lit "AbsLockTime(" ++ LockTime_debug (abs_inner self) ++ lit ")".
Definition RelLockTime_debug (self : RelLockTime) : str :=
  lit "RelLockTime(" ++ Sequence_debug (rel_inner self) ++ lit ")".
End LockTimes.

(** * Names of fragments *)

Section Names.
Context {B : Bitcoin} {K : MiniscriptKey}.

Definition is_true (ms : Miniscript) : bool := match node ms with Terminal.True => true | _ => false end.
Definition is_false (ms : Miniscript) : bool := match node ms with Terminal.False => true | _ => false end.

Definition fragment_name (self : Terminal Miniscript) : str :=
  match self with
  | Terminal.True => lit "1"
  | Terminal.False => lit "0"
  | Terminal.PkK _ => lit "pk_k"
  | Terminal.PkH _ => lit "pk_h"
  | Terminal.RawPkH _ => lit "expr_raw_pk_h"
  | Terminal.After _ => lit "after"
  | Terminal.Older _ => lit "older"
  | Terminal.Sha256 _ => lit "sha256"
  | Terminal.Hash256 _ => lit "hash256"
  | Terminal.Ripemd160 _ => lit "ripemd160"
  | Terminal.Hash160 _ => lit "hash160"
  | Terminal.TxTemplate _ => lit "txtmpl"
  | Terminal.InscribePre _ _ => lit "inscribe_pre"
  | Terminal.InscribePost _ _ => lit "inscribe_post"
  | Terminal.Alt _ => lit "a"
  | Terminal.Swap _ => lit "s"
  | Terminal.Check sub =>
      match node sub with
      | Terminal.PkK _ => lit "pk"
      | Terminal.PkH _ => lit "pkh"
      | Terminal.RawPkH _ => lit "expr_raw_pkh"
      | _ => lit "c"
      end
  | Terminal.DupIf _ => lit "d"
  | Terminal.Verify _ => lit "v"
  | Terminal.NonZero _ => lit "j"
  | Terminal.ZeroNotEqual _ => lit "n"
  | Terminal.AndV _ r => if is_true r then lit "t" else lit "and_v"
  | Terminal.AndOr _ _ c => if is_false c then lit "and_n" else lit "andor"
  | Terminal.AndB _ _ => lit "and_b"
  | Terminal.OrB _ _ => lit "or_b"
  | Terminal.OrD _ _ => lit "or_d"
  | Terminal.OrC _ _ => lit "or_c"
  | Terminal.OrI l r => if is_false r then lit "u" else if is_false l then lit "l" else lit "or_i"
  | Terminal.Thresh _ => lit "thresh"
  | Terminal.Multi _ => lit "multi"
  | Terminal.MultiA _ => lit "multi_a"
  end.

Definition is_wrapper (self : Terminal Miniscript) : bool :=
  negb (match self with Terminal.True | Terminal.False => true | _ => false end)
  && (length (fragment_name self) =? 1).

(** * The tree that is written *)

Inductive DisplayNode : Type :=
| DNode (ty : MsType) (node : Terminal Miniscript)
| DThresholdK (k : nat)
| DKey (pk : Pk)
| DRawKeyHash (h : hash160_Hash)
| DAfter (t : AbsLockTime)
| DOlder (t : RelLockTime)
| DSha256 (h : Primitives.Sha256)
| DHash256 (h : Primitives.Hash256)
| DRipemd160 (h : Primitives.Ripemd160)
| DHash160 (h : Primitives.Hash160)
| DTxTemplate (h : sha256_Hash)
| DInscriptions (i : list Inscription).

Definition display_child (ms : Miniscript) : DisplayNode := DNode (ty ms) (node ms).

(** [NaryChildren]: the threshold value, then the children. *)
Definition nary_nodes (thresh : Threshold Miniscript) : list DisplayNode :=
  DThresholdK (Threshold.k thresh) :: map display_child (Threshold.data thresh).
Definition nary_keys (thresh : Threshold Pk) : list DisplayNode :=
  DThresholdK (Threshold.k thresh) :: map DKey (Threshold.data thresh).

#[export] Instance DisplayNode_TreeLike : TreeLike DisplayNode :=
  fun self =>
    match self with
    | DNode _ node =>
        match node with
        | Terminal.InscribePre i sub | Terminal.InscribePost i sub => Binary (DInscriptions i) (display_child sub)
        | Terminal.True | Terminal.False => Nullary
        | Terminal.PkK pk | Terminal.PkH pk => Unary (DKey pk)
        | Terminal.RawPkH pkh => Unary (DRawKeyHash pkh)
        | Terminal.After t => Unary (DAfter t)
        | Terminal.Older t => Unary (DOlder t)
        | Terminal.Sha256 h => Unary (DSha256 h)
        | Terminal.Hash256 h => Unary (DHash256 h)
        | Terminal.Ripemd160 h => Unary (DRipemd160 h)
        | Terminal.Hash160 h => Unary (DHash160 h)
        | Terminal.TxTemplate h => Unary (DTxTemplate h)
        | Terminal.Check sub =>
            match Ast.node sub with
            | Terminal.PkK pk | Terminal.PkH pk => Unary (DKey pk)
            | Terminal.RawPkH pkh => Unary (DRawKeyHash pkh)
            | _ => Unary (display_child sub)
            end
        | Terminal.Alt sub | Terminal.Swap sub | Terminal.DupIf sub | Terminal.Verify sub
        | Terminal.NonZero sub | Terminal.ZeroNotEqual sub => Unary (display_child sub)
        | Terminal.AndV l r => if is_true r then Unary (display_child l) else Binary (display_child l) (display_child r)
        | Terminal.OrI l r =>
            if is_false l then Unary (display_child r)
            else if is_false r then Unary (display_child l)
            else Binary (display_child l) (display_child r)
        | Terminal.AndB l r | Terminal.OrB l r | Terminal.OrD l r | Terminal.OrC l r =>
            Binary (display_child l) (display_child r)
        | Terminal.AndOr a b c =>
            if is_false c then Binary (display_child a) (display_child b)
            else Ternary (display_child a) (display_child b) (display_child c)
        | Terminal.Thresh thresh => Nary (nary_nodes thresh)
        | Terminal.Multi thresh => Nary (nary_keys thresh)
        | Terminal.MultiA thresh => Nary (nary_keys thresh)
        end
    | _ => Nullary
    end.

(** The recursion over that tree. *)
Fixpoint display_fold_ms {A} (f : DisplayNode -> list A -> A) (ms : Miniscript) : A :=
  let leaf d := f d [] in
  match ms with
  | mkMiniscript node ty _ =>
      f (DNode ty node)
        (match node with
         | Terminal.InscribePre i sub | Terminal.InscribePost i sub => [leaf (DInscriptions i); display_fold_ms f sub]
         | Terminal.True | Terminal.False => []
         | Terminal.PkK pk | Terminal.PkH pk => [leaf (DKey pk)]
         | Terminal.RawPkH pkh => [leaf (DRawKeyHash pkh)]
         | Terminal.After t => [leaf (DAfter t)]
         | Terminal.Older t => [leaf (DOlder t)]
         | Terminal.Sha256 h => [leaf (DSha256 h)]
         | Terminal.Hash256 h => [leaf (DHash256 h)]
         | Terminal.Ripemd160 h => [leaf (DRipemd160 h)]
         | Terminal.Hash160 h => [leaf (DHash160 h)]
         | Terminal.TxTemplate h => [leaf (DTxTemplate h)]
         | Terminal.Check sub =>
             match Ast.node sub with
             | Terminal.PkK pk | Terminal.PkH pk => [leaf (DKey pk)]
             | Terminal.RawPkH pkh => [leaf (DRawKeyHash pkh)]
             | _ => [display_fold_ms f sub]
             end
         | Terminal.Alt sub | Terminal.Swap sub | Terminal.DupIf sub | Terminal.Verify sub
         | Terminal.NonZero sub | Terminal.ZeroNotEqual sub => [display_fold_ms f sub]
         | Terminal.AndV l r => if is_true r then [display_fold_ms f l] else [display_fold_ms f l; display_fold_ms f r]
         | Terminal.OrI l r =>
             if is_false l then [display_fold_ms f r]
             else if is_false r then [display_fold_ms f l]
             else [display_fold_ms f l; display_fold_ms f r]
         | Terminal.AndB l r | Terminal.OrB l r | Terminal.OrD l r | Terminal.OrC l r =>
             [display_fold_ms f l; display_fold_ms f r]
         | Terminal.AndOr a b c =>
             if is_false c then [display_fold_ms f a; display_fold_ms f b]
             else [display_fold_ms f a; display_fold_ms f b; display_fold_ms f c]
         | Terminal.Thresh (Threshold.mkThreshold k l) => leaf (DThresholdK k) :: map (display_fold_ms f) l
         | Terminal.Multi thresh | Terminal.MultiA thresh => map leaf (nary_keys thresh)
         end)
  end.

Definition display_fold {A} (f : DisplayNode -> list A -> A) (d : DisplayNode) : A :=
  match d with
  | DNode ty node => display_fold_ms f (mkMiniscript node ty Ext.TRUE)
  | _ => f d []
  end.

Lemma display_fold_child {A} (f : DisplayNode -> list A -> A) ms :
  display_fold_ms f ms = display_fold f (display_child ms).
Proof. by destruct ms as [[] ? ?]. Qed.

Lemma display_fold_leaves {A} (f : DisplayNode -> list A -> A) (l : list Pk) :
  map (fun d => f d []) (map DKey l) = map (display_fold f) (map DKey l).
Proof. by rewrite !List.map_map. Qed.

Lemma display_fold_eq {A} (f : DisplayNode -> list A -> A) d :
  display_fold f d = f d (map (display_fold f) (children d)).
Proof.
  assert (forall l : list Miniscript, map (display_fold_ms f) l = map (display_fold f) (map display_child l)) as Hmap.
  { intros l. rewrite List.map_map. apply List.map_ext. intros. apply display_fold_child. }
  destruct d as [t node| | | | | | | | | | |]; try reflexivity. unfold children. cbn [display_fold as_node DisplayNode_TreeLike].
  destruct node; cbn [display_fold_ms]; rewrite ?display_fold_child; try reflexivity.
  - destruct sub as [[] ? ?]; cbn [Ast.node]; rewrite ?display_fold_child; reflexivity.
  - by destruct (is_true r).
  - by destruct (is_false c).
  - destruct (is_false l); [done|]. by destruct (is_false r).
  - destruct thresh as [k l]. cbn [Threshold.k Threshold.data Threshold.inner nary_nodes map]. by rewrite Hmap.
  - unfold nary_keys. cbn [map]. by rewrite display_fold_leaves.
  - unfold nary_keys. cbn [map]. by rewrite display_fold_leaves.
Qed.

Lemma DisplayNode_tree_ind (P : DisplayNode -> Prop) :
  (forall d, Forall P (children d) -> P d) -> forall d, P d.
Proof.
  intros H.
  assert (forall d, (forall t n, d <> DNode t n) -> P d) as Hleaf.
  { intros d Hd. apply H. destruct d as [t n| | | | | | | | | | |]; try constructor. by destruct (Hd t n). }
  assert (forall ms t, P (DNode t (node ms))) as Hms.
  { induction ms as [ms IH] using Miniscript_tree_ind. intros t. apply H. rewrite children_node in IH.
    assert (forall sub, (forall t, P (DNode t (node sub))) -> P (display_child sub)) as Hc by (intros sub Hs; apply Hs).
    unfold children. cbn [as_node DisplayNode_TreeLike].
    destruct (node ms); cbn [terminal_children terminal_as_node] in IH;
      repeat match goal with IH : Forall _ (_ :: _) |- _ => apply Forall_cons_1 in IH as [? IH] end.
    all: repeat match goal with |- context [if ?b then _ else _] => destruct b end.
    all: try (repeat constructor; first [by apply Hc | by apply Hleaf]).
    - assert (P (display_child sub)) as Hsub by (by apply Hc).
      destruct (node sub); repeat constructor; first [exact Hsub | by apply Hleaf].
    - constructor; [by apply Hleaf|]. apply List.Forall_map. eapply List.Forall_impl; [|exact IH]. intros a Ha. by apply Hc.
    - constructor; [by apply Hleaf|]. apply List.Forall_map. apply List.Forall_forall. intros. by apply Hleaf.
    - constructor; [by apply Hleaf|]. apply List.Forall_map. apply List.Forall_forall. intros. by apply Hleaf. }
  intros d. destruct d as [t n| | | | | | | | | | |]; try by apply Hleaf.
  exact (Hms (mkMiniscript n t Ext.TRUE) t).
Qed.

#[export] Instance DisplayNode_WfTree : WfTree DisplayNode := {|
  tree_fold := @display_fold;
  tree_fold_eq := @display_fold_eq;
  tree_ind := DisplayNode_tree_ind;
|}.
End Names.

(** * Writing *)

Inductive DisplayTypes : Type :=
| TypesNone
| TypesAll (ty : MsType)
| TypesAllBadFirst.

Section Formatting.
Context {B : Bitcoin} {Sc : Scripts} {K : MiniscriptKey} {Sh : Shows}.

(** What one turn of the loop writes. *)
Definition write_item (display_types : DisplayTypes) (item : PreOrderIterItem DisplayNode) : str :=
  let show_type :=
    match display_types with
    | TypesNone => false
    | TypesAll _ => true
    | TypesAllBadFirst => 0 <? v_index item
    end in
  let plain := match display_types with TypesNone => true | _ => false end in
  let text {T} (display debug : T -> str) (x : T) := if plain then display x else debug x in
  let type_of ty := if show_type then lit "[" ++ Type_display ty ++ lit "]" else [] in
  match v_node item with
  | DNode ty node =>
      if is_wrapper node then
        if n_children_yielded item =? 0 then type_of ty ++ fragment_name node else []
      else if n_children_yielded item =? 0 then
        match v_parent item with
        | Some (DNode _ parent) => if is_wrapper parent then lit ":" else []
        | _ => []
        end
        ++ type_of ty ++ fragment_name node
        ++ (if negb (is_complete item) then lit "(" else [])
      else if is_complete item then lit ")"
      else lit ","
  | DThresholdK k => show_N (N.of_nat k)
  | DKey pk => text Pk_display Pk_debug pk
  | DRawKeyHash h => text hash160_display hash160_debug h
  | DAfter t => text AbsLockTime_display AbsLockTime_debug t
  | DOlder t => text RelLockTime_display RelLockTime_debug t
  | DSha256 h => text Sha256_display Sha256_debug h
  | DHash256 h => text Hash256_display Hash256_debug h
  | DRipemd160 h => text Ripemd160_display Ripemd160_debug h
  | DHash160 h => text Hash160_display Hash160_debug h
  | DTxTemplate h => sha256_display h
  | DInscriptions i =>
      Script_lower_hex (into_script (fold_left (fun b i => append_reveal_script_to_builder i b) i Builder_new))
  end.

(** [conditional_fmt]; writing into a [String] does not fail. The items are as many as the
    visits, which is fuel enough. *)
Definition conditional_fmt (self : Terminal Miniscript) (display_types : DisplayTypes) : option str :=
  let initial_type := match display_types with TypesAll ty => ty | _ => Types.FALSE end in
  let node := DNode initial_type self in
  items ← verbose_drain (S (length (visits node))) (verbose_pre_order_iter node);
  Some (concat (map (write_item display_types) items)).

(** [Display] and [Debug] of [Miniscript] and of [Terminal]. *)
Definition to_string (self : Miniscript) : option str := conditional_fmt (node self) TypesNone.
Definition debug_string (self : Miniscript) : option str := conditional_fmt (node self) (TypesAll (ty self)).
Definition terminal_to_string (self : Terminal Miniscript) : option str := conditional_fmt self TypesNone.
Definition terminal_debug_string (self : Terminal Miniscript) : option str :=
  let display_types := match type_check self with Ok ty => TypesAll ty | Err _ => TypesAllBadFirst end in
  conditional_fmt self display_types.
End Formatting.
