(* ===== verification/Compare.v ===== *)
(** Cloning, equality, hashing and ordering of Miniscripts: the implementations of [Clone],
    [PartialEq], [Hash] and [Ord] in src/src/miniscript/mod.rs, decode.rs and display.rs, and
    their properties. *)
From S2P Require Import Prelude Bitcoin Primitives Ord Correctness Malleability Types.
From S2P Require Import ExtData Tree StackLoop Ast Context Script Text Display.

#[local] Existing Instance Threshold.Threshold_eq_dec.

(** * Clone *)

Section Clone.
Context {B : Bitcoin} {K : MiniscriptKey}.

(** The match of the loop: a node whose children are taken from the stack. *)
Definition clone_term (term : Terminal Miniscript) (stack : list Miniscript)
  : option (Terminal Miniscript * list Miniscript) :=
  let unary f := '(a, stack) ← pop stack; Some (f a, stack) in
  let binary f := '(a, stack) ← pop stack; '(b, stack) ← pop stack; Some (f a b, stack) in
  match term with
  | Terminal.PkK p => Some (Terminal.PkK p, stack)
  | Terminal.PkH p => Some (Terminal.PkH p, stack)
  | Terminal.RawPkH p => Some (Terminal.RawPkH p, stack)
  | Terminal.After n => Some (Terminal.After n, stack)
  | Terminal.Older n => Some (Terminal.Older n, stack)
  | Terminal.Sha256 x => Some (Terminal.Sha256 x, stack)
  | Terminal.Hash256 x => Some (Terminal.Hash256 x, stack)
  | Terminal.Ripemd160 x => Some (Terminal.Ripemd160 x, stack)
  | Terminal.Hash160 x => Some (Terminal.Hash160 x, stack)
  | Terminal.TxTemplate h => Some (Terminal.TxTemplate h, stack)
  | Terminal.True => Some (Terminal.True, stack)
  | Terminal.False => Some (Terminal.False, stack)
  | Terminal.InscribePre i _ => unary (Terminal.InscribePre i)
  | Terminal.InscribePost i _ => unary (Terminal.InscribePost i)
  | Terminal.Alt _ => unary Terminal.Alt
  | Terminal.Swap _ => unary Terminal.Swap
  | Terminal.Check _ => unary Terminal.Check
  | Terminal.DupIf _ => unary Terminal.DupIf
  | Terminal.Verify _ => unary Terminal.Verify
  | Terminal.NonZero _ => unary Terminal.NonZero
  | Terminal.ZeroNotEqual _ => unary Terminal.ZeroNotEqual
  | Terminal.AndV _ _ => binary Terminal.AndV
  | Terminal.AndB _ _ => binary Terminal.AndB
  | Terminal.AndOr _ _ _ =>
      '(a, stack) ← pop stack; '(b, stack) ← pop stack; '(c, stack) ← pop stack;
      Some (Terminal.AndOr a b c, stack)
  | Terminal.OrB _ _ => binary Terminal.OrB
  | Terminal.OrD _ _ => binary Terminal.OrD
  | Terminal.OrC _ _ => binary Terminal.OrC
  | Terminal.OrI _ _ => binary Terminal.OrI
  | Terminal.Thresh thresh =>
      '(subs, stack) ← pop_n (Threshold.n thresh) stack;
      Some (Terminal.Thresh (mkThreshold (Threshold.k thresh) subs), stack)
  | Terminal.Multi thresh => Some (Terminal.Multi thresh, stack)
  | Terminal.MultiA thresh => Some (Terminal.MultiA thresh, stack)
  end.

Definition clone_step (item : Miniscript) (stack : list Miniscript) : option (Miniscript * list Miniscript) :=
  '(new_term, stack) ← clone_term (node item) stack;
  Some (mkMiniscript new_term (ty item) (ext item), stack).

(** [Miniscript::clone], with the assertion that one tree is left. *)
Definition clone (self : Miniscript) : option Miniscript :=
  stack ← stack_loop clone_step (rtl_nodes self) [];
  match stack with [ms] => Some ms | _ => None end.

(** [Terminal::clone] clones the children one by one. *)
Definition terminal_clone (self : Terminal Miniscript) : option (Terminal Miniscript) :=
  let unary f sub := sub ← clone sub; Some (f sub) in
  let binary f l r := l ← clone l; r ← clone r; Some (f l r) in
  match self with
  | Terminal.InscribePre i sub => unary (Terminal.InscribePre i) sub
  | Terminal.InscribePost i sub => unary (Terminal.InscribePost i) sub
  | Terminal.Alt sub => unary Terminal.Alt sub
  | Terminal.Swap sub => unary Terminal.Swap sub
  | Terminal.Check sub => unary Terminal.Check sub
  | Terminal.DupIf sub => unary Terminal.DupIf sub
  | Terminal.Verify sub => unary Terminal.Verify sub
  | Terminal.NonZero sub => unary Terminal.NonZero sub
  | Terminal.ZeroNotEqual sub => unary Terminal.ZeroNotEqual sub
  | Terminal.AndV l r => binary Terminal.AndV l r
  | Terminal.AndB l r => binary Terminal.AndB l r
  | Terminal.AndOr a b c => a ← clone a; b ← clone b; c ← clone c; Some (Terminal.AndOr a b c)
  | Terminal.OrB l r => binary Terminal.OrB l r
  | Terminal.OrD l r => binary Terminal.OrD l r
  | Terminal.OrC l r => binary Terminal.OrC l r
  | Terminal.OrI l r => binary Terminal.OrI l r
  | Terminal.Thresh thresh =>
      subs ← mapM clone (Threshold.data thresh); Some (Terminal.Thresh (mkThreshold (Threshold.k thresh) subs))
  | leaf => Some leaf
  end.

(** ** Equality *)

(** [mem::discriminant] *)
Definition discriminant {M} (term : Terminal M) : nat :=
  match term with
  | Terminal.True => 0 | Terminal.False => 1 | Terminal.PkK _ => 2 | Terminal.PkH _ => 3
  | Terminal.RawPkH _ => 4 | Terminal.After _ => 5 | Terminal.Older _ => 6 | Terminal.Sha256 _ => 7
  | Terminal.Hash256 _ => 8 | Terminal.Ripemd160 _ => 9 | Terminal.Hash160 _ => 10
  | Terminal.TxTemplate _ => 11 | Terminal.InscribePre _ _ => 12 | Terminal.InscribePost _ _ => 13
  | Terminal.Alt _ => 14 | Terminal.Swap _ => 15 | Terminal.Check _ => 16 | Terminal.DupIf _ => 17
  | Terminal.Verify _ => 18 | Terminal.NonZero _ => 19 | Terminal.ZeroNotEqual _ => 20
  | Terminal.AndV _ _ => 21 | Terminal.AndB _ _ => 22 | Terminal.AndOr _ _ _ => 23
  | Terminal.OrB _ _ => 24 | Terminal.OrD _ _ => 25 | Terminal.OrC _ _ => 26 | Terminal.OrI _ _ => 27
  | Terminal.Thresh _ => 28 | Terminal.Multi _ => 29 | Terminal.MultiA _ => 30
  end.

(** One turn of the loop: whether it goes on. *)
Definition eq_turn {M} (me you : Terminal M) : bool :=
  match me, you with
  | Terminal.PkK key1, Terminal.PkK key2 => bool_decide (key1 = key2)
  | Terminal.PkH key1, Terminal.PkH key2 => bool_decide (key1 = key2)
  | Terminal.RawPkH h1, Terminal.RawPkH h2 => bool_decide (h1 = h2)
  | Terminal.After t1, Terminal.After t2 => bool_decide (t1 = t2)
  | Terminal.Older t1, Terminal.Older t2 => bool_decide (t1 = t2)
  | Terminal.Sha256 h1, Terminal.Sha256 h2 => bool_decide (h1 = h2)
  | Terminal.Hash256 h1, Terminal.Hash256 h2 => bool_decide (h1 = h2)
  | Terminal.Ripemd160 h1, Terminal.Ripemd160 h2 => bool_decide (h1 = h2)
  | Terminal.Hash160 h1, Terminal.Hash160 h2 => bool_decide (h1 = h2)
  | Terminal.TxTemplate h1, Terminal.TxTemplate h2 => bool_decide (h1 = h2)
  | Terminal.InscribePre i _, Terminal.InscribePre j _
  | Terminal.InscribePost i _, Terminal.InscribePost j _ => bool_decide (i = j)
  | Terminal.Multi th1, Terminal.Multi th2 => bool_decide (th1 = th2)
  | Terminal.MultiA th1, Terminal.MultiA th2 => bool_decide (th1 = th2)
  | _, _ => discriminant me =? discriminant you
  end.

(** The loop over the two pre-order iterators, zipped. *)
Fixpoint eq_loop (fuel : nat) (mine yours : list Miniscript) : option bool :=
  match fuel with
  | 0 => None
  | S fuel =>
      match pre_next mine with
      | None => Some true
      | Some (me, mine) =>
          match pre_next yours with
          | None => Some true
          | Some (you, yours) => if eq_turn (node me) (node you) then eq_loop fuel mine yours else Some false
          end
      end
  end.

(** [PartialEq for Miniscript], which is that of its node. *)
Definition ms_eq (self other : Miniscript) : option bool :=
  eq_loop (S (tree_size self)) (pre_order_iter self) (pre_order_iter other).

(** ** Hashing *)

(** What is written into a hasher, in order. *)
Inductive HashItem : Type :=
| HDiscriminant (n : nat)
| HKey (pk : Pk)
| HHash160Hash (h : hash160_Hash)
| HAfter (t : AbsLockTime)
| HOlder (t : RelLockTime)
| HSha256 (h : Primitives.Sha256)
| HHash256 (h : Primitives.Hash256)
| HRipemd160 (h : Primitives.Ripemd160)
| HHash160 (h : Primitives.Hash160)
| HTemplate (h : sha256_Hash)
| HInscriptions (i : list Inscription)
| HUsize (n : nat)
| HKeys (thresh : Threshold Pk).

Definition hash_node {M} (term : Terminal M) : list HashItem :=
  HDiscriminant (discriminant term)
  :: match term with
     | Terminal.PkK key => [HKey key]
     | Terminal.PkH key => [HKey key]
     | Terminal.RawPkH h => [HHash160Hash h]
     | Terminal.After t => [HAfter t]
     | Terminal.Older t => [HOlder t]
     | Terminal.Sha256 h => [HSha256 h]
     | Terminal.Hash256 h => [HHash256 h]
     | Terminal.Ripemd160 h => [HRipemd160 h]
     | Terminal.Hash160 h => [HHash160 h]
     | Terminal.TxTemplate h => [HTemplate h]
     | Terminal.InscribePre i _ | Terminal.InscribePost i _ => [HInscriptions i]
     | Terminal.Thresh th => [HUsize (Threshold.k th); HUsize (Threshold.n th)]
     | Terminal.Multi th => [HKeys th]
     | Terminal.MultiA th => [HKeys th]
     | _ => []
     end.

(** [Hash for Miniscript]: what it writes. *)
Definition ms_hash (self : Miniscript) : list HashItem := flat_map (fun ms => hash_node (node ms)) (pre_order self).
End Clone.

(** * Ordering *)

(** [Ord] of the keys and hashes, which is that of other crates or of the user. *)
Class Orders {B : Bitcoin} {K : MiniscriptKey} : Type := {
  Pk_cmp : Pk -> Pk -> comparison;
  Sha256_cmp : Primitives.Sha256 -> Primitives.Sha256 -> comparison;
  Hash256_cmp : Primitives.Hash256 -> Primitives.Hash256 -> comparison;
  Ripemd160_cmp : Primitives.Ripemd160 -> Primitives.Ripemd160 -> comparison;
  Hash160_cmp : Primitives.Hash160 -> Primitives.Hash160 -> comparison;
  hash160_cmp : hash160_Hash -> hash160_Hash -> comparison;
  sha256_cmp : sha256_Hash -> sha256_Hash -> comparison;
}.

(** Derived orders: the first difference decides. *)
Definition then_cmp (c d : comparison) : comparison := match c with Eq => d | c => c end.

Definition list_cmp {A} (cmp : A -> A -> comparison) : list A -> list A -> comparison :=
  fix go l l' :=
    match l, l' with
    | [], [] => Eq
    | [], _ :: _ => Lt
    | _ :: _, [] => Gt
    | a :: l, a' :: l' => then_cmp (cmp a a') (go l l')
    end.

Lemma list_cmp_cons {A} (cmp : A -> A -> comparison) a a' l l' :
  list_cmp cmp (a :: l) (a' :: l') = then_cmp (cmp a a') (list_cmp cmp l l').
Proof. reflexivity. Qed.

Definition option_cmp {A} (cmp : A -> A -> comparison) (o o' : option A) : comparison :=
  match o, o' with
  | None, None => Eq
  | None, Some _ => Lt
  | Some _, None => Gt
  | Some a, Some a' => cmp a a'
  end.

Definition bool_cmp (b b' : bool) : comparison :=
  match b, b' with false, true => Lt | true, false => Gt | _, _ => Eq end.

Definition byte_cmp (b b' : Byte.byte) : comparison := N.compare (code b) (code b').

(** [str] and [Vec<u8>] *)
Definition bytes_cmp : list Byte.byte -> list Byte.byte -> comparison := list_cmp byte_cmp.

(** [Ord for Inscription], derived from the order of the fields. *)
Definition inscription_cmp (i j : Inscription) : comparison :=
  let field f := option_cmp bytes_cmp (f i) (f j) in
  let flag f := bool_cmp (f i) (f j) in
  then_cmp (field body) (then_cmp (field content_encoding) (then_cmp (field content_type)
    (then_cmp (field delegate) (then_cmp (flag duplicate_field) (then_cmp (flag incomplete_field)
    (then_cmp (field metadata) (then_cmp (field metaprotocol) (then_cmp (field parent)
    (then_cmp (field pointer) (flag unrecognized_even_field)))))))))).

Section Ordering.
Context {B : Bitcoin} {K : MiniscriptKey} {O : Orders}.

Definition abs_cmp (t t' : AbsLockTime) : comparison := N.compare (abs_to_consensus_u32 t) (abs_to_consensus_u32 t').
Definition rel_cmp (t t' : RelLockTime) : comparison := N.compare (rel_to_consensus_u32 t) (rel_to_consensus_u32 t').

(** One turn; [None] is the panic of [unreachable!]. *)
Definition cmp_turn (me you : DisplayNode) : option comparison :=
  match me, you with
  | DNode _ me, DNode _ you => Some (bytes_cmp (fragment_name me) (fragment_name you))
  | DThresholdK me, DThresholdK you => Some (Nat.compare me you)
  | DKey me, DKey you => Some (Pk_cmp me you)
  | DRawKeyHash me, DRawKeyHash you => Some (hash160_cmp me you)
  | DAfter me, DAfter you => Some (abs_cmp me you)
  | DOlder me, DOlder you => Some (rel_cmp me you)
  | DSha256 me, DSha256 you => Some (Sha256_cmp me you)
  | DHash256 me, DHash256 you => Some (Hash256_cmp me you)
  | DRipemd160 me, DRipemd160 you => Some (Ripemd160_cmp me you)
  | DHash160 me, DHash160 you => Some (Hash160_cmp me you)
  | DTxTemplate me, DTxTemplate you => Some (sha256_cmp me you)
  | DInscriptions me, DInscriptions you => Some (list_cmp inscription_cmp me you)
  | _, _ => None
  end.

Fixpoint cmp_loop (fuel : nat) (mine yours : list DisplayNode) : option comparison :=
  match fuel with
  | 0 => None
  | S fuel =>
      match pre_next mine with
      | None => Some Eq
      | Some (me, mine) =>
          match pre_next yours with
          | None => Some Eq
          | Some (you, yours) =>
              c ← cmp_turn me you;
              match c with Eq => cmp_loop fuel mine yours | c => Some c end
          end
      end
  end.

(** [Ord for Terminal]; that of [Miniscript] compares the nodes. *)
Definition terminal_cmp (self other : Terminal Miniscript) : option comparison :=
  match bytes_cmp (fragment_name self) (fragment_name other) with
  | Eq =>
      let self := DNode Types.FALSE self in
      cmp_loop (S (tree_size self)) (pre_order_iter self) (pre_order_iter (DNode Types.FALSE other))
  | c => Some c
  end.

Definition ms_cmp (self other : Miniscript) : option comparison := terminal_cmp (node self) (node other).
End Ordering.

(** * Properties of cloning, equality, hashing and ordering of Miniscripts. *)
From S2P Require Import Reference Samples.

Section Properties.
Context {B : Bitcoin} {K : MiniscriptKey}.

(** * Clone *)

(** A node is rebuilt from its children on the stack. *)
Lemma clone_step_children ms rest : clone_step ms (children ms ++ rest) = Some (ms, rest).
Proof.
  destruct ms as [nd t e]. rewrite children_node. unfold clone_step. cbn [node].
  destruct nd; try reflexivity. destruct thresh as [k l].
  cbn [terminal_children terminal_as_node clone_term Threshold.data Threshold.inner]. unfold Threshold.n. cbn [Threshold.inner].
  by rewrite pop_n_app.
Qed.

Lemma clone_loop ms nodes stack :
  stack_loop clone_step (rtl_nodes ms ++ nodes) stack = stack_loop clone_step nodes (ms :: stack).
Proof.
  revert nodes stack. induction ms as [ms IH] using tree_ind. intros nodes stack.
  assert (forall nodes stack,
    stack_loop clone_step (flat_map rtl_nodes (rev (children ms)) ++ nodes) stack
    = stack_loop clone_step nodes (children ms ++ stack)) as Hc.
  { clear nodes stack. induction IH as [|c cs Hc _ IHc]; intros nodes stack; [done|].
    cbn [rev]. rewrite flat_map_app. cbn [flat_map]. by rewrite app_nil_r, <- app_assoc, IHc, Hc. }
  rewrite rtl_nodes_eq, <- app_assoc, Hc. cbn [app stack_loop]. by rewrite clone_step_children.
Qed.

(** Cloning gives the same tree, and does not panic. *)
Lemma clone_eq ms : clone ms = Some ms.
Proof. unfold clone. pose proof (clone_loop ms [] []) as H. rewrite app_nil_r in H. by rewrite H. Qed.

Lemma terminal_clone_eq t : terminal_clone t = Some t.
Proof.
  destruct t; cbn [terminal_clone]; rewrite ?clone_eq; try reflexivity. destruct thresh as [k l].
  assert (mapM clone l = Some l) as Hl.
  { induction l as [|m l IH]; [done|]. cbn [mapM]. rewrite clone_eq. cbn [mbind option_bind]. by rewrite IH. }
  cbn [Threshold.data Threshold.inner]. by rewrite Hl.
Qed.

(** * Equality *)

(** The loop over two lists of nodes. *)
Fixpoint eq_list (mine yours : list Miniscript) : bool :=
  match mine, yours with
  | me :: mine, you :: yours => eq_turn (node me) (node you) && eq_list mine yours
  | _, _ => true
  end.

Lemma eq_loop_list mine : forall fuel yours, sum_by tree_size mine < fuel ->
  eq_loop fuel mine yours = Some (eq_list (flat_map pre_order mine) (flat_map pre_order yours)).
Proof.
  intros fuel. revert mine. induction fuel as [|fuel IH]; intros mine yours Hf; [lia|]. cbn [eq_loop].
  destruct mine as [|me mine]; [done|]. rewrite pre_next_cons. destruct yours as [|you yours].
  { cbn [pre_next flat_map]. by destruct (pre_order me ++ flat_map pre_order mine). }
  rewrite pre_next_cons. cbn [flat_map]. rewrite (pre_order_eq me), (pre_order_eq you). cbn [app eq_list].
  destruct (eq_turn (node me) (node you)); [|done]. cbn [andb]. rewrite sum_by_cons, tree_size_eq in Hf.
  rewrite IH by (rewrite sum_by_app; lia). by rewrite !flat_map_app.
Qed.

Lemma ms_eq_list x y : ms_eq x y = Some (eq_list (pre_order x) (pre_order y)).
Proof.
  unfold ms_eq, pre_order_iter. rewrite eq_loop_list.
  - cbn [flat_map]. by rewrite !app_nil_r.
  - rewrite sum_by_cons. cbn. lia.
Qed.

(** No threshold of fragments. *)
Definition thresh_free (ms : Miniscript) : Prop :=
  Forall (fun m => match node m with Terminal.Thresh _ => False | _ => True end) (pre_order ms).

Lemma thresh_free_inv ms : thresh_free ms ->
  match node ms with Terminal.Thresh _ => False | _ => True end /\ Forall thresh_free (children ms).
Proof.
  unfold thresh_free. rewrite pre_order_eq. intros [H Hc]%Forall_cons_1. split; [done|]. clear H.
  induction (children ms) as [|c cs IH]; [done|]. simpl in Hc. apply list.Forall_app in Hc as [? ?]. constructor; auto.
Qed.

(** Nodes that the loop does not tell apart are equal when their children are. *)
Lemma eq_turn_arity x y :
  eq_turn (node x) (node y) = true -> match node x with Terminal.Thresh _ => False | _ => True end ->
  length (children x) = length (children y)
  /\ (children x = children y -> node x = node y).
Proof.
  rewrite !children_node. destruct (node x), (node y); intros H Hn; try done;
    cbn [eq_turn] in H; try apply bool_decide_eq_true in H; subst;
    (split; [done|]); cbn [terminal_children terminal_as_node]; intros Hc; try done; by injection Hc as ->; subst.
Qed.

Lemma eq_turn_refl {M} (t : Terminal M) : eq_turn t t = true.
Proof. destruct t; cbn [eq_turn discriminant]; try reflexivity; by apply bool_decide_eq_true. Qed.

Lemma eq_list_refl l : eq_list l l = true.
Proof. induction l as [|m l IH]; [done|]. cbn [eq_list]. by rewrite eq_turn_refl. Qed.

Lemma eq_list_decides ctx x : wf ctx x -> thresh_free x -> forall y l l', wf ctx y ->
  eq_list (pre_order x ++ l) (pre_order y ++ l') = true -> x = y /\ eq_list l l' = true.
Proof.
  induction x as [x IH] using tree_ind. intros Hwx Htx y l l' Hwy. rewrite (pre_order_eq x), (pre_order_eq y).
  cbn [app eq_list]. intros [Ht Hl]%andb_true_iff.
  destruct (wf_inv _ _ Hwx) as (Hcx & _ & Htyx & Hex), (wf_inv _ _ Hwy) as (Hcy & _ & Htyy & Hey).
  destruct (thresh_free_inv _ Htx) as [Hn Hfx]. destruct (eq_turn_arity x y Ht Hn) as [Hlen Heq].
  assert (children x = children y /\ eq_list l l' = true) as [Hch Hrest].
  { clear Heq Ht Hn Htyx Hex Htyy Hey Hwx Htx Hwy. revert Hl Hlen Hcy. generalize (children y). induction IH as [|c cs Hc _ IHc]; intros [|d ds] Hl Hlen Hcy; try done.
    cbn [flat_map] in Hl. rewrite <- !app_assoc in Hl. apply Forall_cons_1 in Hcx as [Hwc Hcx], Hfx as [Hfc Hfx], Hcy as [Hwd Hcy].
    destruct (Hc Hwc Hfc d _ _ Hwd Hl) as [-> Hl']. destruct (IHc Hcx Hfx ds Hl' ltac:(cbn in Hlen; lia) Hcy) as [-> ?]. done. }
  split; [|done]. specialize (Heq Hch). destruct x as [nx tx ex], y as [ny ty' ey]. cbn [node ty ext] in *. subst. congruence.
Qed.

(** What the loop compares of a node: all but its children, and but the value and the number of
    children of a threshold. *)
Definition label {M} (t : Terminal M) : Terminal () :=
  match t with
  | Terminal.True => Terminal.True
  | Terminal.False => Terminal.False
  | Terminal.PkK pk => Terminal.PkK pk
  | Terminal.PkH pk => Terminal.PkH pk
  | Terminal.RawPkH h => Terminal.RawPkH h
  | Terminal.After t => Terminal.After t
  | Terminal.Older t => Terminal.Older t
  | Terminal.Sha256 h => Terminal.Sha256 h
  | Terminal.Hash256 h => Terminal.Hash256 h
  | Terminal.Ripemd160 h => Terminal.Ripemd160 h
  | Terminal.Hash160 h => Terminal.Hash160 h
  | Terminal.TxTemplate h => Terminal.TxTemplate h
  | Terminal.InscribePre i _ => Terminal.InscribePre i tt
  | Terminal.InscribePost i _ => Terminal.InscribePost i tt
  | Terminal.Alt _ => Terminal.Alt tt
  | Terminal.Swap _ => Terminal.Swap tt
  | Terminal.Check _ => Terminal.Check tt
  | Terminal.DupIf _ => Terminal.DupIf tt
  | Terminal.Verify _ => Terminal.Verify tt
  | Terminal.NonZero _ => Terminal.NonZero tt
  | Terminal.ZeroNotEqual _ => Terminal.ZeroNotEqual tt
  | Terminal.AndV _ _ => Terminal.AndV tt tt
  | Terminal.AndB _ _ => Terminal.AndB tt tt
  | Terminal.AndOr _ _ _ => Terminal.AndOr tt tt tt
  | Terminal.OrB _ _ => Terminal.OrB tt tt
  | Terminal.OrD _ _ => Terminal.OrD tt tt
  | Terminal.OrC _ _ => Terminal.OrC tt tt
  | Terminal.OrI _ _ => Terminal.OrI tt tt
  | Terminal.Thresh _ => Terminal.Thresh (mkThreshold 0 [])
  | Terminal.Multi thresh => Terminal.Multi thresh
  | Terminal.MultiA thresh => Terminal.MultiA thresh
  end.

Lemma eq_turn_label {M} (t t' : Terminal M) : eq_turn t t' = true <-> label t = label t'.
Proof.
  destruct t, t'; cbn [eq_turn discriminant label];
    first [split; discriminate | split; reflexivity | rewrite bool_decide_eq_true; split; congruence].
Qed.

Lemma eq_list_labels l l' :
  eq_list l l' = true
  <-> forall i a c, l !! i = Some a -> l' !! i = Some c -> label (node a) = label (node c).
Proof.
  revert l'. induction l as [|x l IH]; intros [|y l']; cbn [eq_list]; try (split; [done | reflexivity]).
  rewrite andb_true_iff, eq_turn_label, IH. split.
  - intros [Hx Hl] [|i] a c; cbn; [by intros [= <-] [= <-] | by apply Hl].
  - intros H. split; [by apply (H 0) | intros i; apply (H (S i))].
Qed.

(** C38: Equality of Miniscripts. For all Miniscripts, well typed or not, the comparison returns,
    and says that two are equal exactly when the nodes at the same positions of their pre-orders
    have the same labels, up to the end of the shorter one; in particular every Miniscript is
    equal to itself. On well-typed Miniscripts of which the first is without [thresh] this is
    equality, although the loop stops at the end of the shorter pre-order. *)
Theorem ms_eq_spec ctx x y :
  (exists b, ms_eq x y = Some b
     /\ (b = true <-> forall i a c, pre_order x !! i = Some a -> pre_order y !! i = Some c ->
                       label (node a) = label (node c)))
  /\ ms_eq x x = Some true
  /\ (wf ctx x -> wf ctx y -> thresh_free x -> ms_eq x y = Some true <-> x = y).
Proof.
  rewrite !ms_eq_list, eq_list_refl. split; [|split; [done|]].
  - eexists. split; [done | apply eq_list_labels].
  - intros Hx Hy Hf. split; [|intros ->; by rewrite eq_list_refl]. intros H%(inj Some).
    rewrite <- (app_nil_r (pre_order x)), <- (app_nil_r (pre_order y)) in H.
    by apply (eq_list_decides ctx x Hx Hf y [] [] Hy).
Qed.
End Properties.

(** * Where equality, hashing and ordering disagree *)

Section Disagree.
Context {B : Bitcoin} {K : MiniscriptKey} {O : Orders}.

(** The loop over two lists of nodes. *)
Fixpoint cmp_list (mine yours : list DisplayNode) : option comparison :=
  match mine, yours with
  | me :: mine, you :: yours =>
      c ← cmp_turn me you; match c with Eq => cmp_list mine yours | c => Some c end
  | _, _ => Some Eq
  end.

Lemma cmp_loop_list mine : forall fuel yours, sum_by tree_size mine < fuel ->
  cmp_loop fuel mine yours = cmp_list (flat_map pre_order mine) (flat_map pre_order yours).
Proof.
  intros fuel. revert mine. induction fuel as [|fuel IH]; intros mine yours Hf; [lia|]. cbn [cmp_loop].
  destruct mine as [|me mine]; [done|]. rewrite pre_next_cons. destruct yours as [|you yours].
  { cbn [pre_next flat_map]. by destruct (pre_order me ++ flat_map pre_order mine). }
  rewrite pre_next_cons. cbn [flat_map]. rewrite (pre_order_eq me), (pre_order_eq you). cbn [app cmp_list].
  destruct (cmp_turn me you) as [[]|]; [|done..]. cbn [mbind option_bind]. rewrite sum_by_cons, tree_size_eq in Hf.
  rewrite IH by (rewrite sum_by_app; lia). by rewrite !flat_map_app.
Qed.

Lemma bytes_cmp_refl s : bytes_cmp s s = Eq.
Proof.
  induction s as [|b s IH]; [done|]. unfold bytes_cmp in *. rewrite list_cmp_cons, IH.
  unfold byte_cmp. by rewrite N.compare_refl.
Qed.

Lemma ms_cmp_list x y :
  fragment_name (node x) = fragment_name (node y) ->
  ms_cmp x y = cmp_list (pre_order (DNode Types.FALSE (node x))) (pre_order (DNode Types.FALSE (node y))).
Proof.
  intros H. unfold ms_cmp, terminal_cmp. rewrite H, bytes_cmp_refl. unfold pre_order_iter. rewrite cmp_loop_list.
  - cbn [flat_map]. by rewrite !app_nil_r.
  - rewrite sum_by_cons. cbn. lia.
Qed.

Lemma multi_pre_order t k pks :
  pre_order (DNode t (Terminal.Multi (mkThreshold k pks)))
  = DNode t (Terminal.Multi (mkThreshold k pks)) :: DThresholdK k :: map DKey pks.
Proof.
  rewrite pre_order_eq. unfold children. cbn [as_node DisplayNode_TreeLike].
  change (flat_map pre_order (nary_keys (mkThreshold k pks)))
    with (DThresholdK k :: flat_map pre_order (map DKey pks)).
  do 2 f_equal. induction pks as [|pk pks IH]; [done|]. cbn [map flat_map]. by rewrite IH.
Qed.

Lemma cmp_keys (Hrefl : forall pk, Pk_cmp pk pk = Eq) pks l l' :
  cmp_list (map DKey pks ++ l) (map DKey pks ++ l') = cmp_list l l'.
Proof.
  induction pks as [|pk pks IH]; [done|]. cbn [map app cmp_list cmp_turn mbind option_bind]. by rewrite Hrefl.
Qed.

(** [multi] with some keys, against [multi] with more of them. *)
Lemma cmp_multi (Hrefl : forall pk, Pk_cmp pk pk = Eq) t t' k pks more l l' :
  cmp_list (pre_order (DNode t (Terminal.Multi (mkThreshold k pks))) ++ l)
    (pre_order (DNode t' (Terminal.Multi (mkThreshold k (pks ++ more)))) ++ l')
  = cmp_list l (map DKey more ++ l').
Proof.
  rewrite !multi_pre_order, map_app. cbn [app cmp_list cmp_turn fragment_name mbind option_bind].
  rewrite bytes_cmp_refl, Nat.compare_refl. cbn [mbind option_bind]. by rewrite <- app_assoc, cmp_keys.
Qed.

(** C40: Equality, hashing and ordering of Miniscripts do not agree, whatever the keys with their
    order are. Two thresholds of the same fragments that differ in their value are equal, and
    have different hashes. A [multi] with some keys is not equal to the [multi] of the same value
    with more keys after them, and compares with it as [Equal]. Comparing two [or_d] that start
    with these two and have the same second argument panics, in the arm taken to be
    unreachable. *)
Theorem comparisons_disagree k k' subs pks more z t e t' e' :
  k <> k' -> more <> [] -> (forall pk, Pk_cmp pk pk = Eq) ->
  let thresh k := mkMiniscript (Terminal.Thresh (mkThreshold k subs)) t e in
  let multi pks := mkMiniscript (Terminal.Multi (mkThreshold k pks)) t e in
  let or_d l := mkMiniscript (Terminal.OrD l z) t' e' in
  (ms_eq (thresh k) (thresh k') = Some true /\ ms_hash (thresh k) <> ms_hash (thresh k'))
  /\ (ms_eq (multi pks) (multi (pks ++ more)) = Some false /\ ms_cmp (multi pks) (multi (pks ++ more)) = Some Eq)
  /\ ms_cmp (or_d (multi pks)) (or_d (multi (pks ++ more))) = None.
Proof.
  intros Hk Hm Hrefl thresh multi or_d.
  assert (pks <> pks ++ more) as Hpks.
  { intros H%(f_equal length). rewrite length_app in H. by destruct more; [|cbn in H; lia]. }
  split; [|split].
  - split; [by rewrite ms_eq_list; unfold thresh; rewrite !pre_order_eq; cbn; rewrite eq_list_refl|].
    unfold ms_hash, thresh. rewrite !pre_order_eq. cbn. by intros [= H].
  - split.
    + rewrite ms_eq_list. unfold multi. rewrite !pre_order_eq. cbn. rewrite bool_decide_eq_false_2; [done|]. congruence.
    + rewrite ms_cmp_list by done. cbn [multi node].
      pose proof (cmp_multi Hrefl Types.FALSE Types.FALSE k pks more [] []) as H. rewrite !app_nil_r in H. exact H.
  - rewrite ms_cmp_list by done. cbn [or_d node].
    assert (forall l, pre_order (DNode Types.FALSE (Terminal.OrD l z))
      = DNode Types.FALSE (Terminal.OrD l z) :: pre_order (display_child l) ++ pre_order (display_child z)) as Ho.
    { intros l. rewrite pre_order_eq. unfold children. cbn [as_node DisplayNode_TreeLike flat_map]. by rewrite app_nil_r. }
    rewrite !Ho. cbn [cmp_list cmp_turn fragment_name]. rewrite bytes_cmp_refl. cbn [mbind option_bind].
    etransitivity; [exact (cmp_multi Hrefl t t k pks more _ _)|].
    destruct more as [|pk more]; [done|]. by rewrite (pre_order_eq (display_child z)).
Qed.
End Disagree.

#[export] Instance reference_orders : Orders (B := reference) (K := reference_key) := {|
  Pk_cmp k k' := then_cmp (bool_cmp k.1 k'.1) (byte_cmp k.2 k'.2);
  Sha256_cmp h h' := bytes_cmp (Reference.to_list (n := 32) h) (Reference.to_list (n := 32) h');
  Hash256_cmp h h' := bytes_cmp (Reference.to_list (n := 32) h) (Reference.to_list (n := 32) h');
  Ripemd160_cmp h h' := bytes_cmp (Reference.to_list (n := 20) h) (Reference.to_list (n := 20) h');
  Hash160_cmp h h' := bytes_cmp (Reference.to_list (n := 20) h) (Reference.to_list (n := 20) h');
  hash160_cmp h h' := bytes_cmp (Reference.to_list (n := 20) h) (Reference.to_list (n := 20) h');
  sha256_cmp h h' := bytes_cmp (Reference.to_list (n := 32) h) (Reference.to_list (n := 32) h');
|}.

(** [thresh(1,pk(A),s:pk(B),s:pk(C))] *)
Definition sample_any : Miniscript :=
  build Segwitv0 (Terminal.Thresh (mkThreshold 1
    [sample_pk Segwitv0 keyA;
     build Segwitv0 (Terminal.Swap (sample_pk Segwitv0 keyB));
     build Segwitv0 (Terminal.Swap (sample_pk Segwitv0 keyC))])).

Definition sample_multi (keys : list (bool * Byte.byte)) : Miniscript :=
  build Segwitv0 (Terminal.Multi (mkThreshold 1 keys)).

(** [or_d(multi(1,...),pk(C))] *)
Definition sample_or (keys : list (bool * Byte.byte)) : Miniscript :=
  build Segwitv0 (Terminal.OrD (sample_multi keys) (sample_pk Segwitv0 keyC)).

Lemma reference_Pk_cmp_refl (pk : bool * Byte.byte) : Pk_cmp (K := reference_key) pk pk = Eq.
Proof. destruct pk as [[] b]; cbn; unfold byte_cmp; by rewrite N.compare_refl. Qed.

(** At well-typed Miniscripts: [thresh(1,...)] and [thresh(2,...)], [multi(1,A)] and
    [multi(1,A,B)], [or_d] of them and [pk(C)]. *)
Lemma comparisons_disagree_witness :
  (wf Segwitv0 sample_any /\ wf Segwitv0 (sample_multi [keyA]) /\ wf Segwitv0 (sample_multi [keyA; keyB])
   /\ wf Segwitv0 (sample_or [keyA]) /\ wf Segwitv0 (sample_or [keyA; keyB]))
  /\ ms_eq (sample_multi [keyA]) (sample_multi [keyA; keyB]) = Some false
  /\ ms_cmp (sample_multi [keyA]) (sample_multi [keyA; keyB]) = Some Eq.
Proof.
  split.
  - split_and!; unfold sample_any, sample_or, sample_multi, sample_pk; prove_wf.
  - destruct (comparisons_disagree 1 2 (children sample_any) [keyA] [keyB] (sample_pk Segwitv0 keyC)
                (ty (sample_multi [keyA])) (ext (sample_multi [keyA])) Types.FALSE Ext.FALSE
                ltac:(discriminate) ltac:(discriminate) reference_Pk_cmp_refl) as (_ & H & _).
    exact H.
Defined.

(** [or_d(pk(A), and_v(v:pk(B), older(144)))] against itself and against [multi(1,A)] *)
Lemma ms_eq_spec_witness :
  ms_eq (sample_vault Segwitv0) (sample_multi [keyA]) = Some true <-> sample_vault Segwitv0 = sample_multi [keyA].
Proof.
  apply (ms_eq_spec Segwitv0); [exact sample_vault_wf|unfold sample_multi; prove_wf|].
  repeat (apply List.Forall_cons; [exact I|]). apply List.Forall_nil.
Defined.
