(* ===== verification/DisplayText.v ===== *)
(** What [Display] of a Miniscript writes: the text of an expression, which is well formed
    and has no checksum. *)
From S2P Require Import Prelude Bitcoin Primitives Ord Correctness Malleability Types.
From S2P Require Import ExtData Tree Ast Script Text Checksum Context Expression ExprGrammar StrKey Display.
Import Expr(Parens(..), is_open, is_close, is_comma).

Section DisplayText.
Context {B : Bitcoin} {Sc : Scripts} {K : MiniscriptKey} {Sh : Shows}.

(** * The expression of a Miniscript *)

(** The text of a leaf. *)
Definition leaf_text (d : DisplayNode) : str := write_item TypesNone (mkVisit d None 0 0 true).

(** The wrappers before the separator, the name after it and the children. *)
Definition Parts : Type := str * str * list expr.

Definition full_name (w n : str) : str := match w with [] => n | _ => w ++ ":"%byte :: n end.

Definition expr_of_parts (p : Parts) : expr :=
  let '(w, n, k) := p in Node (full_name w n) (match k with [] => NoParens | _ => Round end) k.

Definition parts_step (d : DisplayNode) (ls : list Parts) : Parts :=
  match d with
  | DNode _ node =>
      if is_wrapper node then
        match ls with [(w, n, k)] => (fragment_name node ++ w, n, k) | _ => ([], [], []) end
      else ([], fragment_name node, map expr_of_parts ls)
  | _ => ([], leaf_text d, [])
  end.

Definition parts : DisplayNode -> Parts := tree_fold parts_step.

Lemma parts_eq d : parts d = parts_step d (map parts (children d)).
Proof. unfold parts at 1. by rewrite tree_fold_eq. Qed.

Definition expr_of (d : DisplayNode) : expr := expr_of_parts (parts d).

(** The text of the expression is that of the iterator. *)
Definition is_node (d : DisplayNode) : bool := match d with DNode _ _ => true | _ => false end.

Definition under_wrapper (parent : option DisplayNode) : bool :=
  match parent with Some (DNode _ p) => is_wrapper p | _ => false end.

(** A node, printed below a wrapper or not. *)
Definition text_under (pw : bool) (d : DisplayNode) : str :=
  let '(w, n, k) := parts d in
  w ++ (if negb (is_empty w) || pw && is_node d then [":"%byte] else [])
    ++ print (expr_of_parts ([], n, k)).

Lemma print_name nm p cs : print (Node nm p cs) = nm ++ print (Node [] p cs).
Proof. destruct p; [by rewrite app_nil_r|done|done]. Qed.

Lemma text_plain d : text_under false d = print (expr_of d).
Proof.
  unfold text_under, expr_of. destruct (parts d) as [[[|b w] n] k]; cbn [expr_of_parts full_name is_empty negb orb andb app]; [done|].
  rewrite (print_name n), (print_name (b :: w ++ _)). cbn [app]. by rewrite <- !app_assoc.
Qed.

(** A wrapper has one child, a node. *)
Lemma wrapper_child t node :
  is_wrapper node = true ->
  exists sub, children (DNode t node) = [display_child sub] /\ terminal_children node <> []
    /\ In sub (terminal_children node).
Proof.
  unfold is_wrapper, children. cbn [as_node DisplayNode_TreeLike].
  destruct node; try done; cbn [fragment_name terminal_children terminal_as_node];
    try (intros _; eexists; split; [reflexivity|]; split; [done|]; by left).
  - intros H. exists sub. destruct (Ast.node sub); try done; (split; [reflexivity|]; split; [done|by left]).
  - destruct (is_true r); [|done]. intros _. exists l. split; [done|]. split; [done|by left].
  - destruct (is_false c); done.
  - destruct (is_false l) eqn:El, (is_false r) eqn:Er; try done; intros _;
      eexists; (split; [reflexivity|]); (split; [done|]); solve [by left | right; by left].
Qed.

Lemma join_later (xs : list str) : forall x, join (x :: xs) = x ++ concat (map (cons ","%byte) xs).
Proof.
  induction xs as [|y xs IH]; intros x; [by cbn; rewrite app_nil_r|].
  change (join (x :: y :: xs)) with (x ++ ","%byte :: join (y :: xs)). by rewrite IH.
Qed.

Definition written_as (d : DisplayNode) : Prop :=
  forall parent i, concat (map (write_item TypesNone) (visits_from d parent i).1) = text_under (under_wrapper parent) d.

(** After the name of a fragment that is not a wrapper: its children. *)
Lemma later_fragment t node parent i cs : is_wrapper node = false -> Forall written_as cs ->
  forall k n j, k + length cs = n ->
  concat (map (write_item TypesNone) (later_visits (DNode t node) parent i n k j (map visits_from cs)).1)
  = match cs with
    | [] => []
    | c :: cs' => print (expr_of c) ++ concat (map (cons ","%byte) (map (fun c => print (expr_of c)) cs')) ++ [")"%byte]
    end.
Proof.
  intros Hw Hcs. induction Hcs as [|c cs Hc _ IH]; intros k n j Hn; [done|]. cbn [map later_visits].
  specialize (Hc (Some (DNode t node)) j). destruct (visits_from c (Some (DNode t node)) j) as [lc j'].
  specialize (IH (k + 1) n j'). destruct (later_visits _ _ _ _ _ _ _) as [l' j'']. cbn [fst] in *.
  rewrite map_app, concat_app, Hc. cbn [under_wrapper]. rewrite Hw, text_plain. f_equal. cbn [map concat].
  rewrite IH by (cbn [length] in Hn; lia). unfold write_item at 1. cbn [v_node v_index n_children_yielded is_complete]. rewrite Hw.
  replace (k + 1 =? 0) with false by (symmetry; apply Nat.eqb_neq; lia).
  destruct cs as [|c' cs]; cbn [length] in Hn.
  - rewrite (proj2 (Nat.eqb_eq _ _)) by lia. done.
  - rewrite (proj2 (Nat.eqb_neq _ _)) by lia. cbn [map concat app]. by rewrite <- app_assoc.
Qed.

Lemma written_all d : written_as d.
Proof.
  induction d as [d IH] using tree_ind. intros parent i. rewrite visits_from_eq. unfold text_under. rewrite parts_eq.
  destruct d as [t node|k|pk|h|x|x|h|h|h|h|h|l]; cbn [parts_step];
    try (cbn; by rewrite ?app_nil_r, ?andb_false_r).
  destruct (is_wrapper node) eqn:Hw.
  - destruct (wrapper_child t node Hw) as (sub & Hch & _). rewrite Hch in *. cbn [map].
    apply Forall_cons_1 in IH as [Hsub _]. specialize (Hsub (Some (DNode t node)) (i + 1)).
    cbn [later_visits length Nat.eqb]. destruct (visits_from (display_child sub) (Some (DNode t node)) (i + 1)) as [ls j].
    cbn [fst under_wrapper] in *. rewrite Hw in Hsub. unfold text_under in Hsub.
    destruct (parts (display_child sub)) as [[w n] k]. cbn [map concat]. rewrite map_app, concat_app, Hsub.
    unfold write_item at 1. cbn [v_node n_children_yielded]. rewrite Hw. cbn [Nat.eqb map concat]. unfold write_item. cbn [v_node]. rewrite Hw.
    cbn [n_children_yielded Nat.add Nat.eqb app is_node display_child]. rewrite orb_true_r, app_nil_r.
    assert (fragment_name node <> []) as Hne.
    { intros E. unfold is_wrapper in Hw. rewrite E in Hw. by rewrite andb_false_r in Hw. }
    destruct (fragment_name node) as [|b nm] eqn:E; [done|]. cbn [app is_empty negb orb]. rewrite <- app_assoc. done.
  - pose proof (later_fragment t node parent i (children (DNode t node)) Hw IH 0 (length (children (DNode t node))) (i + 1) eq_refl) as Hl.
    destruct (later_visits _ _ _ _ _ _ _) as [l j]. cbn [fst map concat] in *. rewrite Hl. clear Hl.
    cbn [is_empty negb orb app]. unfold is_node. rewrite andb_true_r.
    unfold write_item. cbn [v_node n_children_yielded v_parent v_index is_complete]. rewrite Hw. cbn [Nat.eqb].
    assert (match parent with Some (DNode _ p) => if is_wrapper p then lit ":" else [] | _ => [] end
            = if under_wrapper parent then [":"%byte] else []) as ->
      by (by destruct parent as [[]|]).
    rewrite <- !app_assoc. f_equal. f_equal.
    destruct (children (DNode t node)) as [|c cs]; cbn [length Nat.eqb negb map expr_of_parts full_name app]; [by rewrite app_nil_r|].
    rewrite print_node by done. cbn [app open_char close_char].
    cbn [map]. rewrite join_later, <- app_assoc. rewrite !List.map_map. done.
Qed.

(** [Display] of a Miniscript. *)
Lemma to_string_print ms : to_string ms = Some (print (expr_of (display_child ms))).
Proof.
  unfold to_string, conditional_fmt. rewrite verbose_visits. cbn [mbind option_bind]. f_equal.
  unfold visits. rewrite written_all. cbn [under_wrapper]. rewrite text_plain.
  unfold expr_of. by rewrite !parts_eq.
Qed.

(** * Its form *)

(** A display child is a child of the fragment, or a leaf. *)
Lemma display_children t node d :
  In d (children (DNode t node)) -> is_node d = false \/ exists sub, In sub (terminal_children node) /\ d = display_child sub.
Proof.
  assert (forall l, In d (map display_child l) -> exists sub, In sub l /\ d = display_child sub) as Hmap.
  { intros l (sub & <- & H)%in_map_iff. by exists sub. }
  assert (forall l : list Pk, In d (map DKey l) -> is_node d = false) as Hkey by (by intros l (k & <- & _)%in_map_iff).
  unfold children. cbn [as_node DisplayNode_TreeLike].
  destruct node; cbn [terminal_children terminal_as_node];
    repeat match goal with |- context [if ?b then _ else _] => destruct b end.
  all: try (intros H; cbn [In] in H; repeat destruct H as [<-|H]; try done; first [by left | right; eexists; split; [|reflexivity]; cbn; tauto]).
  - intros H. destruct (Ast.node sub); cbn [In] in H; repeat destruct H as [<-|H]; try done;
      first [by left | right; eexists; split; [|reflexivity]; cbn; tauto].
  - intros [<-|H]; [by left|]. right. by apply Hmap.
  - intros [<-|H]; left; [done|]. by eapply Hkey.
  - intros [<-|H]; left; [done|]. by eapply Hkey.
Qed.

Definition parts_depth (p : Parts) : nat := let '(_, n, k) := p in depth (Node n (match k with [] => NoParens | _ => Round end) k).

Lemma expr_depth p : depth (expr_of_parts p) = parts_depth p.
Proof. destruct p as [[w n] k]. by destruct k. Qed.

Lemma leaf_parts d : is_node d = false -> parts d = ([], leaf_text d, []).
Proof. intros H. rewrite parts_eq. by destruct d. Qed.

Lemma list_max_in x l : In x l -> x <= list_max l.
Proof. exact (proj1 (List.Forall_forall _ _) (proj1 (list_max_le l _) (le_n _)) x). Qed.

(** One level more than the Miniscript, for the arguments of its leaves. *)
Lemma display_depth ms : depth (expr_of (display_child ms)) <= S (height ms).
Proof.
  unfold expr_of. rewrite expr_depth. induction ms as [ms IH] using Miniscript_tree_ind. rewrite parts_eq, height_eq.
  rewrite children_node in *. cbn [display_child parts_step]. destruct (is_wrapper (node ms)) eqn:Hw.
  - destruct (wrapper_child (ty ms) (node ms) Hw) as (sub & Hch & Hne & Hin). unfold display_child at 1. rewrite Hch. cbn [map].
    destruct (parts (display_child sub)) as [[w n] k] eqn:Ep. cbn [parts_depth].
    rewrite List.Forall_forall in IH. specialize (IH sub Hin). rewrite Ep in IH. cbn [parts_depth] in IH.
    destruct (terminal_children (node ms)) as [|c cs] eqn:Ec; [done|].
    assert (height sub <= list_max (map height (c :: cs))) as Hmax by (by apply list_max_in, in_map).
    cbn [map] in *. lia.
  - cbn [parts_depth].
    assert (forall d, In d (children (DNode (ty ms) (node ms))) ->
      depth (expr_of_parts (parts d))
      <= match terminal_children (node ms) with [] => 0 | cs => S (list_max (map height cs)) end) as Hk.
    { intros d [Hl|(sub & Hin & ->)]%display_children; [rewrite leaf_parts by done; cbn; lia|].
      rewrite List.Forall_forall in IH. specialize (IH sub Hin). rewrite expr_depth.
      destruct (terminal_children (node ms)) as [|c cs]; [done|].
      assert (height sub <= list_max (map height (c :: cs))) by (by apply list_max_in, in_map). cbn [map] in *. lia. }
    change (children (display_child ms)) with (children (DNode (ty ms) (node ms))).
    destruct (children (DNode (ty ms) (node ms))) as [|d ds] eqn:Ed; [apply Nat.le_0_l|].
    change (map expr_of_parts (map parts (d :: ds))) with (expr_of_parts (parts d) :: map expr_of_parts (map parts ds)).
    rewrite depth_node by done. apply le_n_S, list_max_le. rewrite <- Ed in Hk.
    rewrite List.Forall_forall. intros x (e & <- & [<-|(q & <- & (d' & <- & Hin)%in_map_iff)%in_map_iff])%in_map_iff.
    + apply Hk. rewrite Ed. by left.
    + apply Hk. rewrite Ed. by right.
Qed.

Context {St : Strings} {FK : FromStrKey} {SL : ShowLaws FK Sh}.

Lemma digits_text s : Forall is_digit s -> Forall text_char s.
Proof.
  apply List.Forall_impl. intros b [H1 H2]. unfold text_char, name_char, printable, special, is_open, is_close, is_comma.
  split; [split; [lia|]|].
  - rewrite !bool_decide_eq_false_2 by (intros ->; vm_compute in H1, H2; congruence). done.
  - intros ->. vm_compute in H1. congruence.
Qed.

Lemma leaf_text_chars d : is_node d = false -> Forall text_char (leaf_text d).
Proof.
  destruct d as [|k|pk|h|t|t|h|h|h|h|h|i]; intros H; try done; unfold leaf_text, write_item; cbn [v_node].
  - apply digits_text, show_N_digits.
  - apply Pk_written.
  - apply hash160_written.
  - unfold AbsLockTime_display. rewrite LockTime_shown. apply digits_text, show_N_digits.
  - unfold RelLockTime_display. rewrite Sequence_shown. apply digits_text, show_N_digits.
  - apply Sha256_written.
  - apply Hash256_written.
  - apply Ripemd160_written.
  - apply Hash160_written.
  - apply sha256_written.
  - apply Script_written.
Qed.

Definition text_char_dec (b : Byte.byte) : bool :=
  bool_decide (printable b) && negb (special b) && negb (bool_decide (b = hash)).

Lemma text_char_all s : forallb text_char_dec s = true -> Forall text_char s.
Proof.
  rewrite forallb_forall, List.Forall_forall. intros H b Hb. apply H in Hb. unfold text_char_dec in Hb.
  apply andb_true_iff in Hb as [[H1%bool_decide_eq_true H2%negb_true_iff]%andb_true_iff H3%negb_true_iff%bool_decide_eq_false].
  split; [by split|done].
Qed.

Lemma fragment_name_chars node : Forall text_char (fragment_name node).
Proof.
  apply text_char_all. destruct node; try reflexivity; cbn [fragment_name].
  - destruct (Ast.node sub); reflexivity.
  - destruct (is_true r); reflexivity.
  - destruct (is_false c); reflexivity.
  - destruct (is_false r), (is_false l); reflexivity.
Qed.

(** All names are text. *)
Inductive text_expr : expr -> Prop :=
| TextNode nm p cs : Forall text_char nm -> (cs = [] <-> p = NoParens) -> Forall text_expr cs -> text_expr (Node nm p cs).

Lemma text_expr_wf e : text_expr e -> wf_expr e.
Proof.
  induction e as [nm p cs IH] using expr_ind'. inversion 1 as [? ? ? Hn Hp Hcs]; subst.
  assert (Forall name_char nm) as Hnm by (eapply List.Forall_impl; [|exact Hn]; by intros ? [? _]).
  destruct cs as [|c cs].
  - rewrite (proj1 Hp eq_refl). by constructor.
  - apply WfNode; [done| |done|by eapply Forall_apply]. intros Hno. by apply Hp in Hno.
Qed.

Lemma text_parens b : In b (lit "(){},") -> printable b /\ b <> hash.
Proof.
  assert (forallb (fun b => bool_decide (printable b) && negb (bool_decide (b = hash))) (lit "(){},") = true) as H by reflexivity.
  rewrite forallb_forall in H. by intros [H1%bool_decide_eq_true H2%negb_true_iff%bool_decide_eq_false]%H%andb_true_iff.
Qed.

Lemma text_expr_print e : text_expr e -> Forall (fun b => printable b /\ b <> hash) (print e).
Proof.
  induction e as [nm p cs IH] using expr_ind'. inversion 1 as [? ? ? Hn Hp Hcs]; subst.
  assert (Forall (fun b => printable b /\ b <> hash) nm) as Hnm
    by (eapply List.Forall_impl; [|exact Hn]; by intros ? [[? _] ?]).
  pose proof (Forall_apply _ _ _ IH Hcs) as Hall. clear -Hnm Hall.
  assert (Forall (fun b => printable b /\ b <> hash) (join (map print cs))) as Hj.
  { induction Hall as [|c cs Hc _ IH]; [constructor|]. destruct cs as [|c' cs]; [done|].
    change (join (map print (c :: c' :: cs))) with (print c ++ ","%byte :: join (map print (c' :: cs))).
    apply list.Forall_app. split; [done|]. constructor; [apply text_parens; cbn; tauto|done]. }
  destruct p; cbn [print]; [done| |];
    (apply list.Forall_app; split; [done|]; constructor; [apply text_parens; cbn; tauto|];
     apply list.Forall_app; split; [done|]; constructor; [apply text_parens; cbn; tauto|constructor]).
Qed.

Lemma text_expr_checksum {F : Bech32} e : text_expr e -> verify_checksum (print e) = Some (Ok (print e)).
Proof.
  intros H%text_expr_print. apply verify_no_hash.
  - eapply List.Forall_impl; [|exact H]. by intros ? [? _].
  - rewrite List.Forall_forall in H. intros Hin. by apply H in Hin as [_ ?].
Qed.

Definition text_parts (p : Parts) : Prop :=
  let '(w, n, k) := p in Forall text_char w /\ Forall text_char n /\ Forall text_expr k.

Lemma text_parts_expr p : text_parts p -> text_expr (expr_of_parts p).
Proof.
  destruct p as [[w n] k]. intros (Hw & Hn & Hk). cbn [expr_of_parts]. constructor; [|by destruct k|done].
  destruct w as [|b w]; [done|]. apply list.Forall_app. split; [done|]. constructor; [|done].
  assert (Forall text_char (lit ":")) as Hc by by apply text_char_all. by apply Forall_cons_1 in Hc as [? _].
Qed.

Lemma text_display d : text_parts (parts d).
Proof.
  induction d as [d IH] using tree_ind. rewrite parts_eq. destruct (is_node d) eqn:En.
  - destruct d as [t node| | | | | | | | | | |]; try done. cbn [parts_step]. pose proof (fragment_name_chars node) as Hname.
    destruct (is_wrapper node) eqn:Hw.
    + destruct (wrapper_child t node Hw) as (sub & Hch & _). rewrite Hch in *. cbn [map]. apply Forall_cons_1 in IH as [Hsub _].
      destruct (parts (display_child sub)) as [[w n] k]. destruct Hsub as (? & ? & ?). split; [by apply list.Forall_app|done].
    + split; [constructor|]. split; [done|]. apply List.Forall_map, List.Forall_map.
      eapply List.Forall_impl; [|exact IH]. intros c. apply text_parts_expr.
  - assert (parts_step d (map parts (children d)) = ([], leaf_text d, [])) as -> by (by destruct d).
    repeat split; [constructor|by apply leaf_text_chars|constructor].
Qed.

Lemma display_text_expr ms : text_expr (expr_of (display_child ms)).
Proof. apply text_parts_expr, text_display. Qed.
End DisplayText.
