(* ===== verification/Walk.v ===== *)
(** Walks over expression trees: what the parsers of Miniscripts and of policies share. The
    loop goes over the nodes from the last to the first with a stack of results; here are
    the accessors at the nodes of an expression of [ExprGrammar], the outcome of the checks
    of their shape, and the refinement of the loop to a recursion over the expression. *)
From S2P Require Import Prelude Bitcoin Primitives Script Context Text Checksum Expression ExprGrammar.
Import Expr.

(** * Outcomes *)

Definition ok {E A} (r : result E A) : option A := match r with Ok a => Some a | Err _ => None end.

(** The code does not panic, and its result, errors apart, is [v]. *)
Definition outcome {E A} (m : option (result E A)) (v : option A) : Prop :=
  exists r, m = Some r /\ ok r = v.

Lemma outcome_ret {E A} (r : result E A) : outcome (Some r) (ok r).
Proof. by exists r. Qed.

Lemma outcome_err {E A} (e : E) : outcome (Some (@Err E A e)) None.
Proof. by exists (Err e). Qed.

Lemma outcome_bind {E A C} (m : option (result E A)) (f : A -> option (result E C)) v w :
  outcome m v -> (forall a, v = Some a -> outcome (f a) (w a)) -> outcome (bind_r m f) (v ≫= w).
Proof.
  intros (r & -> & <-) H. destruct r as [a|e]; [by apply H|]. by exists (Err e).
Qed.

Lemma outcome_map_err {E E' A} (g : E -> E') (m : option (result E A)) v :
  outcome m v -> outcome (map_err g <$> m) v.
Proof. intros (r & -> & <-). exists (map_err g r). by destruct r. Qed.

Lemma outcome_seq {E A C} (m : option (result E A)) (f : A -> option (result E C)) v x :
  outcome m v -> (v = None -> x = None) -> (forall a, v = Some a -> outcome (f a) x) ->
  outcome (bind_r m f) x.
Proof.
  intros (r & -> & Hr) Hn Hs. destruct r as [a|e]; cbn in Hr; [by apply Hs|].
  rewrite Hn by done. apply outcome_err.
Qed.

Lemma outcome_fails {E A C} (m : option (result E A)) (f : A -> option (result E C)) :
  outcome m None -> outcome (bind_r m f) None.
Proof. intros H. by eapply outcome_seq. Qed.

Lemma ok_bind {E A C} (r : result E A) (f : A -> result E C) : ok (r ≫= f) = ok r ≫= (fun a => ok (f a)).
Proof. by destruct r. Qed.

Lemma ok_map_err {E E' A} (g : E -> E') (r : result E A) : ok (map_err g r) = ok r.
Proof. by destruct r. Qed.

Lemma ok_Some {E A} (r : result E A) a : ok r = Some a <-> r = Ok a.
Proof. destruct r; simpl; split; congruence. Qed.

(** * Nodes of an expression in an array *)

Lemma size_child e cs : e ∈ cs -> size e <= list_sum (map size cs).
Proof.
  induction cs as [|a cs IH]; intros H; [by apply not_elem_of_nil in H|].
  change (list_sum (map size (a :: cs))) with (size a + list_sum (map size cs)).
  apply elem_of_cons in H as [->|H]; [lia|]. apply IH in H. lia.
Qed.

Section Located.
Context (nodes : list TreeNode).

(** The array holds the nodes of [e] from index [i]. *)
Definition located (i : nat) (parent sib : option nat) (e : expr) : Prop :=
  exists pos pre post, nodes = pre ++ flat e i pos parent sib ++ post /\ length pre = i.

(** The same for siblings. *)
Definition row (j parent : nat) (cs : list expr) : Prop :=
  exists pos pre post, nodes = pre ++ siblings flat cs j pos (Some parent) ++ post /\ length pre = j.

Lemma located_children i parent sib nm p cs :
  located i parent sib (Node nm p cs) -> row (i + 1) i cs.
Proof.
  intros (pos & pre & post & Hn & Hi). cbn [flat] in Hn. eexists _, (pre ++ [_]), post. split.
  - rewrite Hn, <- app_assoc. reflexivity.
  - rewrite length_app. simpl. lia.
Qed.

Lemma row_cons j parent c cs :
  row j parent (c :: cs) ->
  located j (Some parent) (match cs with [] => None | _ => Some (j + size c) end) c
  /\ row (j + size c) parent cs.
Proof.
  intros (pos & pre & post & Hn & Hj). destruct cs as [|c' cs].
  - split; [by exists pos, pre, post|]. exists pos, (pre ++ flat c j pos (Some parent) None), post.
    split; [by rewrite Hn, <- app_assoc|]. rewrite length_app, flat_node_count. lia.
  - rewrite siblings_cons, <- app_assoc in Hn. split; [by eexists pos, pre, _|].
    eexists _, (pre ++ flat c j pos (Some parent) (Some (j + size c))), post. split.
    + rewrite <- app_assoc. exact Hn.
    + rewrite length_app, flat_node_count. lia.
Qed.

(** What the accessors return at a node of the expression. *)
Lemma located_get i parent sib nm p cs :
  located i parent sib (Node nm p cs) ->
  exists pos, get (mkItem nodes i)
    = Some (mkTreeNode nm pos p (length cs) i parent (last_index (i + 1) cs) sib).
Proof.
  intros (pos & pre & post & Hn & Hi). exists pos. unfold get. cbn [Expr.nodes index]. rewrite Hn.
  rewrite lookup_app_r by lia. by rewrite Hi, Nat.sub_diag.
Qed.

Definition child_iter (j : nat) (cs : list expr) : DirectChildIterator :=
  match cs with [] => None | _ => Some (mkItem nodes j) end.

Lemma last_index_cons j c cs : exists l, last_index j (c :: cs) = Some l.
Proof. revert j c. induction cs as [|c' cs IH]; intros j c; [by eexists|]. apply IH. Qed.

Lemma located_children_iter i parent sib nm p cs :
  located i parent sib (Node nm p cs) -> children (mkItem nodes i) = Some (child_iter (i + 1) cs).
Proof.
  intros (pos & H)%located_get. unfold children, first_child. rewrite H. cbn. f_equal.
  destruct cs as [|c cs]; [done|]. by destruct (last_index_cons (i + 1) c cs) as [l ->].
Qed.

Lemma located_right_sibling i parent sib e :
  located i parent sib e -> right_sibling (mkItem nodes i) = Some (mkItem nodes <$> sib).
Proof. destruct e as [nm p cs]. intros (pos & H)%located_get. unfold right_sibling. by rewrite H. Qed.

Lemma row_next j parent c cs :
  row j parent (c :: cs) ->
  child_next (child_iter j (c :: cs)) = Some (Some (mkItem nodes j), child_iter (j + size c) cs).
Proof.
  intros [Hl _]%row_cons. unfold child_iter at 1, child_next. rewrite (located_right_sibling _ _ _ _ Hl). by destruct cs.
Qed.

(** The last descendant of a node. *)
Lemma last_index_sum j c cs :
  last_index j (c :: cs) <> None ->
  exists l e, last_index j (c :: cs) = Some l /\ list.last (c :: cs) = Some e
    /\ l + size e = j + list_sum (map size (c :: cs)).
Proof.
  intros _. revert j c. induction cs as [|c' cs IH]; intros j c; [exists j, c; cbn; repeat split; lia|].
  destruct (IH (j + size c) c') as (l & e & Hl & He & Hs). exists l, e. cbn in *. repeat split; try done; lia.
Qed.

Lemma row_last j parent cs e :
  row j parent cs -> list.last cs = Some e ->
  exists l, last_index j cs = Some l /\ located l (Some parent) None e
    /\ l + size e = j + list_sum (map size cs).
Proof.
  revert j. induction cs as [|c cs IH]; intros j Hr Hl; [done|].
  destruct (row_cons _ _ _ _ Hr) as [Hc Hr']. destruct cs as [|c' cs].
  - injection Hl as <-. exists j. cbn. split; [done|]. split; [done|lia].
  - destruct (IH (j + size c) Hr' Hl) as (l & H1 & H2 & H3). exists l. split; [exact H1|]. split; [done|].
    rewrite H3. cbn. lia.
Qed.

Lemma rightmost_located e : forall i parent sib fuel,
  located i parent sib e -> size e <= fuel -> size e <= length nodes ->
  rightmost fuel nodes i = Some (i + size e - 1).
Proof.
  induction e as [nm p cs IH] using expr_ind'. intros i parent sib fuel Hloc Hf Hn.
  destruct fuel as [|fuel]; [cbn in Hf; lia|]. cbn [rightmost].
  destruct (located_get _ _ _ _ _ _ Hloc) as [pos Hg]. unfold get in Hg. cbn [Expr.nodes index] in Hg.
  rewrite Hg. cbn [mbind option_bind last_child_idx].
  destruct cs as [|c cs]; [cbn; f_equal; lia|].
  destruct (list.last (c :: cs)) as [e|] eqn:El; [|by apply last_None in El].
  destruct (row_last _ _ _ _ (located_children _ _ _ _ _ _ Hloc) El) as (l & -> & Hle & Hsum).
  assert (rightmost_sibling (length nodes) nodes l = Some l) as ->.
  { destruct (length nodes) as [|n] eqn:En; [cbn in Hn; lia|]. cbn.
    destruct e as [nm' p' cs']. destruct (located_get _ _ _ _ _ _ Hle) as [pos' Hg']. unfold get in Hg'.
    cbn [Expr.nodes index] in Hg'. by rewrite Hg'. }
  cbn [mbind option_bind].
  assert (size e <= list_sum (map size (c :: cs))) as Hsz.
  { apply size_child, last_Some_elem_of, El. }
  cbn [size] in *. rewrite List.Forall_forall in IH.
  rewrite (IH e (proj1 (list_elem_of_In _ _) (last_Some_elem_of _ _ El)) l (Some i) None fuel Hle); [f_equal; lia| |]. all: lia.
Qed.
End Located.

(** * Names and arguments *)

(** The part before the separator, if there is one, and the part after it. *)
Definition split_name_by (sep : Byte.byte) (nm : str) : option (option str * str) :=
  match splitn 3 sep nm with
  | [x] => Some (None, x)
  | [w; x] => Some (Some w, x)
  | _ => None
  end.

(** The argument of a fragment with one argument that is a string. *)
Definition argument {T} (read : str -> option T) (cs : list expr) : option T :=
  match cs with [Node a _ []] => read a | _ => None end.

Definition leaf {T} (read : str -> option T) (c : expr) : option T :=
  match c with Node a _ [] => read a | _ => None end.

(** The threshold value before the children of a threshold. *)
Definition threshold_value (cs : list expr) : option nat :=
  match cs with Node k _ [] :: _ => N.to_nat <$> ok (parse_num k) | _ => None end.

Fixpoint curly_free (e : expr) : bool :=
  match e with Node _ p cs => negb (bool_decide (p = Curly)) && forallb curly_free cs end.

(** * The checks of the shape of a node *)

Section Checks.
Context (nodes : list TreeNode) (i : nat) (parent sib : option nat) (nm : str) (p : Parens) (cs : list expr).
Context (Hloc : located nodes i parent sib (Node nm p cs)).
Let item : TreeIterItem := mkItem nodes i.

Lemma at_n_children : n_children item = Some (length cs).
Proof. destruct (located_get _ _ _ _ _ _ _ Hloc) as [pos H]. unfold n_children, item. by rewrite H. Qed.

Lemma at_name : name item = Some nm.
Proof. destruct (located_get _ _ _ _ _ _ _ Hloc) as [pos H]. unfold name, item. by rewrite H. Qed.

Lemma at_parens : parens item = Some p.
Proof. destruct (located_get _ _ _ _ _ _ _ Hloc) as [pos H]. unfold parens, item. by rewrite H. Qed.

Lemma at_first_child : first_child item = Some (child_iter nodes (i + 1) cs).
Proof. exact (located_children_iter _ _ _ _ _ _ _ Hloc). Qed.

Lemma at_children_pos : exists q, children_pos item = Some q.
Proof. destruct (located_get _ _ _ _ _ _ _ Hloc) as [pos H]. unfold children_pos, item. rewrite H. by eexists. Qed.

Lemma at_verify d lo hi :
  outcome (verify_n_children item d lo hi) (if in_range lo hi (length cs) then Some () else None).
Proof. unfold verify_n_children. rewrite at_n_children. eexists. split; [done|]. by destruct (in_range _ _ _). Qed.

Lemma at_verify_exact d n :
  outcome (verify_n_children item d n (Some n)) (if length cs =? n then Some () else None).
Proof.
  pose proof (at_verify d n (Some n)) as H. unfold in_range in H.
  destruct (Nat.eqb_spec (length cs) n) as [Hn|Hn]; [by rewrite Hn, Nat.leb_refl in H|].
  destruct (Nat.leb_spec n (length cs)), (Nat.leb_spec (length cs) n); try done; simpl in H; lia.
Qed.

Lemma at_name_separated sep : outcome (name_separated item sep) (split_name_by sep nm).
Proof.
  unfold name_separated, split_name_by. destruct (located_get _ _ _ _ _ _ _ Hloc) as [pos H]. unfold item.
  rewrite H. cbn [mbind option_bind node_name].
  destruct (splitn 3 sep nm) as [|x [|y [|z l]]] eqn:E.
  - exfalso. revert E. cbn [splitn]. destruct (split_at _ nm) as [pre [rest|]]; discriminate.
  - eexists. split; [done|]. cbn. f_equal. f_equal. revert E. cbn [splitn].
    destruct (split_at sep nm) as [pre rest] eqn:Es.
    assert (rest = None -> pre = nm) as Hp.
    { clear -Es. revert pre rest Es. induction nm as [|b s IH]; cbn; intros pre rest Es.
      - by injection Es as <- <-.
      - destruct (bool_decide _); [by injection Es as <- <-|].
        destruct (split_at sep s) as [pre' rest']. injection Es as <- <-.
        intros ->. by rewrite (IH pre' None eq_refl eq_refl). }
    destruct rest as [rest|]; [|intros [= <-]; by rewrite Hp].
    destruct (split_at _ rest) as [? [?|]]; discriminate.
  - eexists. by split.
  - destruct at_children_pos as [q Hq]. unfold item in Hq. rewrite Hq. eexists. by split.
Qed.

(** The only child, which is a leaf. *)
Lemma at_terminal {X T} (from_str : str -> result X T) d :
  outcome (verify_terminal from_str item d) (leaf (fun a => ok (from_str a)) (Node nm p cs)).
Proof.
  unfold verify_terminal.
  replace (leaf _ (Node nm p cs))
    with ((if length cs =? 0 then Some () else None) ≫= fun _ => ok (from_str nm)) by (by destruct cs).
  apply outcome_bind; [apply outcome_map_err, at_verify_exact|]. intros [] _.
  rewrite at_name. cbn. eexists. split; [done|]. apply ok_map_err.
Qed.
End Checks.

Section Arguments.
Context (nodes : list TreeNode) (i : nat) (parent sib : option nat) (nm : str) (p : Parens) (cs : list expr).
Context (Hloc : located nodes i parent sib (Node nm p cs)).
Let item : TreeIterItem := mkItem nodes i.

(** Code that checks for one child and goes on with it. *)
Lemma at_only_child {E T} (m : option (result E ())) (f : TreeIterItem -> option (result E T)) (v : expr -> option T) :
  outcome m (if length cs =? 1 then Some () else None) ->
  (forall j c sib', located nodes j (Some i) sib' c -> outcome (f (mkItem nodes j)) (v c)) ->
  outcome (bind_r m (fun _ => child ← first_child item; child ← child; f child))
    (match cs with [c] => v c | _ => None end).
Proof.
  intros Hm Hf.
  replace (match cs with [c] => v c | _ => None end)
    with ((if length cs =? 1 then Some () else None) ≫= fun _ => match cs with [c] => v c | _ => None end)
    by (by destruct cs as [|c [|? ?]]).
  apply outcome_bind; [done|]. intros [] H1. destruct cs as [|c [|? ?]]; try done.
  unfold item. rewrite (at_first_child _ _ _ _ _ _ _ Hloc). cbn.
  destruct (row_cons _ _ _ _ _ (located_children _ _ _ _ _ _ _ Hloc)) as [Hc _]. by eapply Hf.
Qed.

Lemma argument_leaf {T} (read : str -> option T) :
  argument read cs = match cs with [c] => leaf read c | _ => None end.
Proof. by destruct cs as [|[? ? [|]] [|]]. Qed.

Lemma at_terminal_parent {X T} (from_str : str -> result X T) d d' :
  outcome (verify_terminal_parent from_str item d d') (argument (fun a => ok (from_str a)) cs).
Proof.
  rewrite argument_leaf. apply at_only_child; [eapply outcome_map_err, at_verify_exact, Hloc|].
  intros j [nm' p' cs'] sib' Hc. by eapply at_terminal.
Qed.

Context {B : Bitcoin}.

Lemma at_after {X} :
  outcome (verify_after (X := X) item) (argument (fun a => n ← ok (parse_num a); ok (abs_from_consensus n)) cs).
Proof.
  rewrite argument_leaf. apply at_only_child; [eapply outcome_map_err, at_verify_exact, Hloc|].
  intros j [nm' p' cs'] sib' Hc.
  replace (leaf _ (Node nm' p' cs'))
    with ((if length cs' =? 0 then Some () else None) ≫= fun _ => n ← ok (parse_num nm'); ok (abs_from_consensus n))
    by (by destruct cs').
  apply outcome_bind; [eapply outcome_map_err, at_verify_exact, Hc|]. intros [] _.
  rewrite (at_name _ _ _ _ _ _ _ Hc). cbn. eexists. split; [done|].
  by destruct (parse_num nm') as [n|]; [cbn; destruct (abs_from_consensus n)|].
Qed.

Lemma at_older {X} :
  outcome (verify_older (X := X) item) (argument (fun a => n ← ok (parse_num a); ok (rel_from_consensus n)) cs).
Proof.
  rewrite argument_leaf. apply at_only_child; [eapply outcome_map_err, at_verify_exact, Hloc|].
  intros j [nm' p' cs'] sib' Hc.
  replace (leaf _ (Node nm' p' cs'))
    with ((if length cs' =? 0 then Some () else None) ≫= fun _ => n ← ok (parse_num nm'); ok (rel_from_consensus n))
    by (by destruct cs').
  apply outcome_bind; [eapply outcome_map_err, at_verify_exact, Hc|]. intros [] _.
  rewrite (at_name _ _ _ _ _ _ _ Hc). cbn. eexists. split; [done|].
  by destruct (parse_num nm') as [n|]; [cbn; destruct (rel_from_consensus n)|].
Qed.

(** Thresholds: the closure maps child [c] with the outcome [v c], and turns the state
    [s] of children [l] into that of the rest. *)
Lemma at_map_children {S E T} (St : list expr -> S -> Prop) (v : expr -> option T)
    (map_child : TreeIterItem -> S -> option (result E T * S)) l : forall j s,
  (forall j c l sib' s, located nodes j (Some i) sib' c -> St (c :: l) s ->
     exists r s', map_child (mkItem nodes j) s = Some (r, s') /\ ok r = v c /\ (v c <> None -> St l s')) ->
  row nodes j i l -> St l s ->
  exists r s', map_children (length l) (child_iter nodes j l) s map_child = Some (r, s')
    /\ ok r = mapM v l /\ (mapM v l <> None -> St [] s').
Proof.
  induction l as [|c l IH]; intros j s Hmap Hr Hs; [by exists (Ok []), s|].
  destruct (row_cons _ _ _ _ _ Hr) as [Hc Hr']. cbn [length map_children].
  rewrite (row_next _ _ _ _ _ Hr). cbn [mbind option_bind].
  destruct (Hmap _ _ _ _ _ Hc Hs) as (r & s' & -> & Hv & Hs'). cbn [mbind option_bind mapM].
  rewrite <- Hv in *. destruct r as [t|e]; [|by exists (Err e), s'].
  destruct (IH _ s' Hmap Hr' (Hs' ltac:(done))) as (r & s'' & -> & Hl & Hs''). cbn [mbind option_bind ok].
  exists (ts ← r; Ok (t :: ts)), s''. rewrite <- Hl in *. split; [done|]. destruct r; [|done]. cbn. split; [done|].
  intros _. by apply Hs''.
Qed.

Lemma at_threshold {S E T} MAX (from : ParseThresholdError -> E) (St : list expr -> S -> Prop) (v : expr -> option T)
    (map_child : TreeIterItem -> S -> option (result E T * S)) s :
  (forall j c l sib' s, located nodes j (Some i) sib' c -> St (c :: l) s ->
     exists r s', map_child (mkItem nodes j) s = Some (r, s') /\ ok r = v c /\ (v c <> None -> St l s')) ->
  (2 <= length cs -> leaf Some (hd (Node [] NoParens []) cs) <> None -> St (tail cs) s) ->
  exists r s', verify_threshold MAX from item map_child s = Some (r, s')
    /\ ok r = (k ← threshold_value cs; subs ← mapM v (tail cs); ok (Threshold.new MAX k subs))
    /\ (ok r <> None -> St [] s').
Proof.
  intros Hmap Hs. unfold verify_threshold, item. rewrite (located_children_iter _ _ _ _ _ _ _ Hloc).
  cbn [mbind option_bind]. destruct cs as [|[k q ks] cs'] eqn:Ecs; [by exists (Err (from NoChildren)), s|].
  pose proof (located_children _ _ _ _ _ _ _ Hloc) as Hrow.
  rewrite (row_next _ _ _ _ _ Hrow). cbn [mbind option_bind].
  destruct (row_cons _ _ _ _ _ Hrow) as [Hk Hrow']. rewrite (at_n_children _ _ _ _ _ _ _ Hk), (at_name _ _ _ _ _ _ _ Hk).
  cbn [mbind option_bind]. destruct ks as [|? ?]; [|by exists (Err (from KNotTerminal)), s].
  cbn [length]. rewrite Nat.ltb_irrefl. cbn [threshold_value tail].
  destruct (parse_num k) as [n|e]; [|by exists (Err (from (ParseK e))), s]. cbn [ok fmap option_fmap option_map mbind option_bind].
  rewrite (at_n_children _ _ _ _ _ _ _ Hloc). cbn [mbind option_bind length].
  replace (Datatypes.S (length cs') - 1) with (length cs') by lia.
  pose proof (Threshold.new_valid MAX (N.to_nat n) (repeat () (length cs'))) as Hnew.
  assert (forall subs : list T, length subs = length cs' ->
    ok (Threshold.new MAX (N.to_nat n) subs)
    = match Threshold.new MAX (N.to_nat n) (repeat () (length cs')) with
      | Ok _ => Some (mkThreshold (N.to_nat n) subs) | Err _ => None end) as Hnew'.
  { intros subs Hl. unfold Threshold.new. rewrite repeat_length, Hl. by destruct (Threshold.validate_k_n _ _ _) as [[]|]. }
  destruct (Threshold.new MAX (N.to_nat n) (repeat () (length cs'))) as [t|e].
  - destruct (Hnew t) as [Ht _]. destruct (Ht eq_refl) as [-> [Hv _]]. unfold Threshold.n, Threshold.k in Hv |- *. cbn [Threshold.inner] in Hv |- *.
    rewrite repeat_length in Hv |- *.
    destruct (at_map_children St v map_child cs' _ s Hmap Hrow') as (r & s' & -> & Hr & Hs').
    { apply Hs; cbn; [lia|done]. }
    cbn [mbind option_bind]. eexists _, s'. split; [done|]. rewrite <- Hr in *.
    destruct r as [subs|e]; [|done]. cbn [mbind result_bind ok option_bind]. rewrite Hnew'.
    + split; [done|]. intros _. by apply Hs'.
    + symmetry in Hr. by apply length_mapM in Hr.
  - eexists _, s. split; [done|]. cbn [ok]. split; [|done]. destruct (mapM v cs') as [subs|] eqn:Em; [|done].
    cbn. rewrite Hnew'; [done|]. by apply length_mapM in Em.
Qed.
End Arguments.

Lemma split_at_spec sep s pre rest :
  split_at sep s = (pre, rest) -> s = pre ++ match rest with Some rest => sep :: rest | None => [] end.
Proof.
  revert pre rest. induction s as [|b s IH]; cbn; intros pre rest H; [by injection H as <- <-|].
  destruct (bool_decide_reflect (b = sep)) as [->|Hb]; [by injection H as <- <-|].
  destruct (split_at sep s) as [pre' rest']. injection H as <- <-. by rewrite (IH pre' rest' eq_refl) at 1.
Qed.

Lemma split_name_by_spec sep nm w name :
  split_name_by sep nm = Some (w, name) ->
  nm = match w with Some w => w ++ sep :: name | None => name end.
Proof.
  unfold split_name_by. cbn [splitn]. destruct (split_at sep nm) as [pre rest] eqn:E.
  apply split_at_spec in E. destruct rest as [rest|]; [|rewrite app_nil_r in E; by intros [= <- <-]].
  destruct (split_at sep rest) as [pre' rest'] eqn:E'. apply split_at_spec in E'.
  destruct rest' as [rest'|]; intros [= <- <-]. rewrite E, E', app_nil_r. done.
Qed.

Lemma split_at_app sep w n : ~ In sep w -> split_at sep (w ++ sep :: n) = (w, Some n).
Proof.
  induction w as [|b w IH]; intros H; cbn [app split_at]; [by rewrite bool_decide_eq_true_2|].
  rewrite bool_decide_eq_false_2 by (intros ->; apply H; by left). rewrite IH; [done|]. intros Hin. apply H. by right.
Qed.

Lemma split_at_none sep n : ~ In sep n -> split_at sep n = (n, None).
Proof.
  induction n as [|b n IH]; intros H; [done|]. cbn [split_at].
  rewrite bool_decide_eq_false_2 by (intros ->; apply H; by left). rewrite IH; [done|]. intros Hin. apply H. by right.
Qed.

(** There is no separator before the first one. *)
Lemma split_at_free sep s pre rest : split_at sep s = (pre, rest) -> ~ In sep pre.
Proof.
  revert pre rest. induction s as [|b s IH]; cbn; intros pre rest H; [injection H as <- <-; by intros []|].
  destruct (bool_decide_reflect (b = sep)) as [->|Hb]; [injection H as <- <-; by intros []|].
  destruct (split_at sep s) as [pre' rest']. injection H as <- <-. intros [?|?]; [done|]. by eapply IH.
Qed.

Lemma split_name_by_free sep nm w name : split_name_by sep nm = Some (w, name) -> ~ In sep name.
Proof.
  unfold split_name_by. cbn [splitn]. destruct (split_at sep nm) as [pre rest] eqn:E.
  destruct rest as [rest|]; [|intros [= <- <-]; by eapply split_at_free].
  destruct (split_at sep rest) as [pre' rest'] eqn:E'. destruct rest' as [rest'|]; intros [= <- <-]. by eapply split_at_free.
Qed.

Lemma split_name_by_none sep n : ~ In sep n -> split_name_by sep n = Some (None, n).
Proof. intros H. unfold split_name_by. cbn [splitn]. by rewrite split_at_none. Qed.

Lemma split_name_by_app sep w n : ~ In sep w -> ~ In sep n -> split_name_by sep (w ++ sep :: n) = Some (Some w, n).
Proof. intros Hw Hn. unfold split_name_by. cbn [splitn]. by rewrite split_at_app, split_at_none. Qed.

(** The arm of a match on a string. *)
Fixpoint arm {F} (name : str) (arms : list (str * F)) : option F :=
  match arms with
  | [] => None
  | (s, f) :: arms => if bool_decide (name = s) then Some f else arm name arms
  end.

Lemma arm_in {F} name (arms : list (str * F)) f : arm name arms = Some f -> In (name, f) arms.
Proof.
  induction arms as [|[s g] arms IH]; [done|]. cbn. destruct (bool_decide_reflect (name = s)) as [->|_].
  - intros [= ->]. by left.
  - intros H. right. by apply IH.
Qed.

Lemma mapM_id_map {A C} (f : A -> option C) l : mapM id (map f l) = mapM f l.
Proof. induction l as [|a l IH]; [done|]. cbn. by rewrite IH. Qed.

(** * No curly braces *)

Definition not_curly (n : TreeNode) : bool := negb (bool_decide (node_parens n = Curly)).

Lemma no_curly_braces_ok nodes first count :
  first + count <= length nodes ->
  outcome (no_curly_braces nodes first count)
    (if forallb not_curly (take count (drop first nodes)) then Some () else None).
Proof.
  induction count as [|count IH]; intros Hl; [by eexists|].
  destruct (lookup_lt_is_Some_2 nodes (first + count)) as [n Hn]; [lia|].
  assert (take (S count) (drop first nodes) = take count (drop first nodes) ++ [n]) as ->.
  { apply take_S_r. by rewrite lookup_drop. }
  rewrite forallb_app. cbn [no_curly_braces]. unfold parens, children_pos, get. cbn [Expr.nodes index]. rewrite Hn.
  cbn [fmap option_fmap option_map mbind option_bind forallb]. unfold not_curly at 2.
  destruct (bool_decide (node_parens n = Curly)); cbn [negb andb].
  - rewrite andb_false_r. apply outcome_err.
  - rewrite !andb_true_r. apply IH. lia.
Qed.

Lemma flat_curly e : forall i pos parent sib, forallb not_curly (flat e i pos parent sib) = curly_free e.
Proof.
  induction e as [nm p cs IH] using expr_ind'. intros i pos parent sib. cbn [flat forallb curly_free].
  unfold not_curly at 1. cbn [node_parens]. f_equal.
  generalize (i + 1) (pos + length nm + 1) (Some i). induction IH as [|c cs Hc _ IHcs]; intros j q par; [done|].
  destruct cs as [|c' cs]; [cbn; by rewrite Hc, andb_true_r|].
  rewrite siblings_cons, forallb_app, Hc, IHcs. done.
Qed.

Lemma located_segment nodes i parent sib e :
  located nodes i parent sib e ->
  i + size e <= length nodes /\ forallb not_curly (take (size e) (drop i nodes)) = curly_free e.
Proof.
  intros (pos & pre & post & -> & <-). rewrite !length_app, flat_node_count. split; [lia|].
  rewrite drop_app_length. rewrite <- (flat_node_count e (length pre) pos parent sib) at 1.
  rewrite take_app_length. apply flat_curly.
Qed.

Lemma verify_no_curly_braces_ok nodes i parent sib e :
  located nodes i parent sib e ->
  outcome (verify_no_curly_braces (mkItem nodes i)) (if curly_free e then Some () else None).
Proof.
  intros Hl. destruct (located_segment _ _ _ _ _ Hl) as [Hlen Hc]. pose proof (size_pos e).
  unfold verify_no_curly_braces, rightmost_descendant_idx. cbn [Expr.nodes index].
  rewrite (rightmost_located nodes e i parent sib) by (try done; lia). cbn [mbind option_bind].
  replace (i + size e - 1 + 1 - i) with (size e) by lia. rewrite <- Hc. by apply no_curly_braces_ok.
Qed.

(** * The loop *)

(** [root.pre_order_iter().enumerate().rev()]: the count of an item taken from the back is
    the number of the items left in front of it. *)
Definition range_len (it : PreOrderIter) : nat :=
  if range_is_empty it then 0 else range_end it - range_start it + 1.

Fixpoint rev_loop {S E} (turn : nat -> TreeIterItem -> S -> option (result E S)) (fuel : nat) (it : PreOrderIter) (s : S)
  : option (result E S) :=
  match next_back it with
  | None => Some (Ok s)
  | Some (node, it) =>
      match fuel with
      | 0 => None
      | S fuel => bind_r (turn (range_len it) node s) (rev_loop turn fuel it)
      end
  end.

Section Walk.
Context {A E : Type} (nodes : list TreeNode) (turn : nat -> TreeIterItem -> list A -> option (result E (list A))).

(** One turn per index. *)
Fixpoint run (r : nat) (idxs : list nat) (s : list A) : option (result E (list A)) :=
  match idxs with
  | [] => Some (Ok s)
  | idx :: idxs => bind_r (turn (idx - r) (mkItem nodes idx) s) (run r idxs)
  end.

Lemma run_app r l l' s : run r (l ++ l') s = bind_r (run r l s) (run r l').
Proof.
  revert s. induction l as [|idx l IH]; intros s; [done|]. cbn [app run].
  destruct (turn (idx - r) (mkItem nodes idx) s) as [[s'|e]|]; cbn; [|done|done]. apply IH.
Qed.

Lemma bind_r_ret {X T} (m : option (result X T)) : bind_r m (fun a => Some (Ok a)) = m.
Proof. by destruct m as [[]|]. Qed.

Lemma loop_run n : forall r fuel s, n < fuel ->
  rev_loop turn fuel (mkPreOrderIter nodes r (r + n) false) s = run r (rev (seq r (S n))) s.
Proof.
  induction n as [|n IH]; intros r fuel s Hf; destruct fuel as [|fuel]; try lia.
  - unfold rev_loop at 1, next_back. unfold range_is_empty. cbn [exhausted range_end range_start orb]. rewrite Nat.add_0_r, Nat.ltb_irrefl.
    fold (@rev_loop (list A) E turn). unfold range_len at 1. unfold range_is_empty. cbn [exhausted range_end range_start orb].
    cbn [seq rev app run]. rewrite Nat.sub_diag. unfold bind_r. cbn [iter_nodes].
    match goal with |- context [turn ?a ?b ?c] => destruct (turn a b c) as [[s'|e]|] end; cbn; [by destruct fuel|done|done].
  - cbn [rev_loop]. unfold next_back, range_is_empty. cbn [exhausted range_end range_start orb].
    rewrite (proj2 (Nat.ltb_ge _ _)) by lia. rewrite (proj2 (Nat.ltb_lt _ _)) by lia. cbn [iter_nodes].
    replace (r + S n - 1) with (r + n) by lia.
    unfold range_len, range_is_empty. cbn [exhausted range_end range_start orb]. rewrite (proj2 (Nat.ltb_ge _ _)) by lia.
    rewrite (seq_S (S n) r), rev_app_distr. cbn [rev app run].
    replace (r + n - r + 1) with (r + S n - r) by lia.
    match goal with |- context [turn ?a ?b ?c] => destruct (turn a b c) as [[s'|e]|] end; cbn [bind_r mbind option_bind]; [|done|done]. apply IH. lia.
Qed.

(** ** What the nodes leave on the stack *)

(** The place of a node: the root, or child number [k] of the [n] children of a node with a
    given name. [value] is what a node stands for, [skips] says whether its turn is skipped. *)
Definition place : Type := option (nat * str * nat).

Context (value : place -> expr -> option A) (skips : nat -> str -> nat -> expr -> option bool).

Definition left_by (pl : place) (e : expr) (below : list A) : option (list A) :=
  match pl with
  | None => (fun a => [a]) <$> value None e
  | Some (k, pn, n) =>
      skip ← skips k pn n e; if skip : bool then Some below else (fun a => [a]) <$> value pl e
  end.

Fixpoint entry (k : nat) (pn : str) (n : nat) (e : expr) : option (list A) :=
  match e with
  | Node nm _ cs =>
      skip ← skips k pn n e;
      if skip : bool then
        (fix go j l := match l with
                       | [] => Some []
                       | c :: l => ls ← go (S j) l; x ← entry j nm (length cs) c; Some (x ++ ls)
                       end) 0 cs
      else (fun a => [a]) <$> value (Some (k, pn, n)) e
  end.

Fixpoint entries (k : nat) (pn : str) (n : nat) (cs : list expr) : option (list A) :=
  match cs with
  | [] => Some []
  | c :: cs => l ← entries (S k) pn n cs; e ← entry k pn n c; Some (e ++ l)
  end.

Lemma entry_eq k pn n nm p cs :
  entry k pn n (Node nm p cs)
  = (skip ← skips k pn n (Node nm p cs);
     if skip : bool then entries 0 nm (length cs) cs else (fun a => [a]) <$> value (Some (k, pn, n)) (Node nm p cs)).
Proof.
  cbn [entry]. destruct (skips _ _ _ _) as [[|]|]; [|done|done]. cbn [mbind option_bind].
  generalize (length cs). intros m. generalize 0. induction cs as [|c cs IH]; intros j; [done|]. cbn [entries]. by rewrite IH.
Qed.

(** Children that are all kept. *)
Lemma entries_kept (val : expr -> option A) pn n cs :
  (forall k e, value (Some (k, pn, n)) e = val e) -> forall k,
  (forall j e, k <= j -> skips j pn n e = Some false) -> entries k pn n cs = mapM val cs.
Proof.
  intros Hv. induction cs as [|[nm p ks] cs IH]; intros k Hk; [done|]. cbn [entries mapM]. rewrite entry_eq, Hk, IH, Hv by (intros; try apply Hk; lia).
  by destruct (mapM val cs), (val (Node nm p ks)).
Qed.

(** Where a node of the array is. *)
Definition at_place (par0 : option nat) (pl : place) (pos i : nat) (parent : option nat) : Prop :=
  match pl with
  | None => pos = 0 /\ parent = par0
  | Some (k, pn, n) =>
      0 < pos /\ exists j par sib p cs, parent = Some j /\ located nodes j par sib (Node pn p cs)
        /\ n = length cs /\ (k =? 0) = (j + 1 =? i)
  end.

Context (par0 : option nat).

Hypothesis value_none : forall pl i parent sib nm p cs, located nodes i parent sib (Node nm p cs) ->
  entries 0 nm (length cs) cs = None -> value pl (Node nm p cs) = None.
Hypothesis turn_ok : forall pl pos i parent sib nm p cs l s,
  located nodes i parent sib (Node nm p cs) -> at_place par0 pl pos i parent ->
  entries 0 nm (length cs) cs = Some l ->
  outcome (turn pos (mkItem nodes i) (l ++ s)) ((fun x => x ++ s) <$> left_by pl (Node nm p cs) l).

(** The nodes below [e]. *)
Definition below (e : expr) : Prop :=
  match e with
  | Node nm p cs =>
      forall r i parent sib s, located nodes i parent sib e -> r <= i ->
        outcome (run r (rev (seq (i + 1) (size e - 1))) s) ((fun l => l ++ s) <$> entries 0 nm (length cs) cs)
  end.

Lemma rev_seq_size j e : rev (seq j (size e)) = rev (seq (j + 1) (size e - 1)) ++ [j].
Proof.
  pose proof (size_pos e). replace (size e) with (S (size e - 1)) at 1 by lia.
  change (rev (seq j (S ?n))) with (rev (j :: seq (S j) n)). by rewrite Nat.add_1_r.
Qed.

Lemma row_runs nm p pcs parent sib i r : located nodes i parent sib (Node nm p pcs) -> r <= i ->
  forall cs, Forall below cs -> forall k j s, row nodes j i cs -> (k =? 0) = (i + 1 =? j) -> i < j ->
  outcome (run r (rev (seq j (list_sum (map size cs)))) s)
    ((fun l => l ++ s) <$> entries k nm (length pcs) cs).
Proof.
  intros Hp Hr cs. induction 1 as [|[a q ks] cs Hc _ IH]; intros k j s Hrow Hk Hij; [by eexists|].
  destruct (row_cons _ _ _ _ _ Hrow) as [Hloc Hrow'].
  change (list_sum (map size (Node a q ks :: cs))) with (size (Node a q ks) + list_sum (map size cs)).
  rewrite seq_app, rev_app_distr, run_app.
  pose proof (size_pos (Node a q ks)) as Hsz. cbn [entries].
  eapply outcome_seq; [apply (IH (S k)); [done| |lia]; by rewrite (proj2 (Nat.eqb_neq (i + 1) _)) by lia| |].
  { by destruct (entries (S k) _ _ _). }
  intros s' Hs'. destruct (entries (S k) nm (length pcs) cs) as [l|]; [|done]. injection Hs' as <-. cbn [mbind option_bind].
  replace ((fun l => l ++ s) <$> (e ← entry k nm (length pcs) (Node a q ks); Some (e ++ l)))
    with ((fun l' => l' ++ l ++ s) <$> entry k nm (length pcs) (Node a q ks))
    by (destruct (entry _ _ _ _); [cbn; by rewrite app_assoc|done]).
  rewrite rev_seq_size, run_app, entry_eq.
  eapply outcome_seq; [apply (Hc r j _ _ (l ++ s) Hloc); lia| |].
  - intros H%fmap_None. rewrite (value_none _ _ _ _ _ _ _ Hloc H), H. by destruct (skips _ _ _ _) as [[|]|].
  - intros s' Hs'. destruct (entries 0 a (length ks) ks) as [l0|] eqn:El; [|done]. injection Hs' as <-.
    cbn [run]. rewrite bind_r_ret. apply (turn_ok (Some (k, nm, length pcs)) _ _ (Some i) _ _ _ _ l0 (l ++ s) Hloc); [|done].
    split; [lia|]. by exists i, parent, sib, p, pcs.
Qed.

Lemma below_all e : below e.
Proof.
  induction e as [nm p cs IH] using expr_ind'. intros r i parent sib s Hloc Hr.
  replace (size (Node nm p cs) - 1) with (list_sum (map size cs)) by (cbn; lia).
  eapply row_runs; try done; [by eapply located_children|symmetry; apply Nat.eqb_refl|lia].
Qed.

(** The whole loop over an expression. *)
Lemma walk_ok i sib e :
  located nodes i par0 sib e ->
  outcome (run i (rev (seq i (size e))) []) ((fun a => [a]) <$> value None e).
Proof.
  destruct e as [nm p cs]. intros Hloc. rewrite rev_seq_size, run_app.
  eapply outcome_seq; [by apply (below_all (Node nm p cs) i i _ _ [] Hloc)| |].
  - intros Hno%fmap_None. by erewrite value_none.
  - intros s Hs. destruct (entries 0 nm (length cs) cs) as [l|] eqn:El; [|done]. injection Hs as <-.
    cbn [run]. rewrite bind_r_ret, Nat.sub_diag.
    pose proof (turn_ok None 0 i par0 sib nm p cs l [] Hloc (conj eq_refl eq_refl) El) as H.
    cbn [left_by] in H. by destruct (value None (Node nm p cs)).
Qed.

(** The iterator over the root, and the loop. *)
Lemma rev_loop_ok i sib e :
  located nodes i par0 sib e ->
  outcome (it ← pre_order_iter (mkItem nodes i); rev_loop turn (range_len it) it []) ((fun a => [a]) <$> value None e).
Proof.
  intros Hl. destruct (located_segment _ _ _ _ _ Hl) as [Hlen _]. pose proof (size_pos e).
  unfold pre_order_iter, rightmost_descendant_idx. cbn [Expr.nodes index].
  rewrite (rightmost_located nodes e i par0 sib) by (try done; lia). cbn [mbind option_bind].
  unfold range_len at 1, range_is_empty. cbn [exhausted range_end range_start orb].
  rewrite (proj2 (Nat.ltb_ge _ _)) by lia.
  replace (i + size e - 1) with (i + (size e - 1)) by lia. rewrite loop_run by lia.
  replace (S (size e - 1)) with (size e) by lia. by eapply walk_ok.
Qed.
End Walk.

(** * What a node takes from the stack *)

Section Takes.
Context {A E T : Type} (nodes : list TreeNode) (i : nat) (parent sib : option nat) (nm : str) (p : Parens) (cs : list expr).
Context (Hloc : located nodes i parent sib (Node nm p cs)) (on_stack : option (list A)).
Abbreviation item := (mkItem nodes i).

(** The code takes from the stack what the children have left there, and its result is [v]. *)
Definition takes (m : list A -> option (result E (T * list A))) (v : option T) : Prop :=
  (on_stack = None -> v = None)
  /\ forall l s, on_stack = Some l -> outcome (m (l ++ s)) ((fun a => (a, s)) <$> v).

Lemma takes_fails m : (forall s, outcome (m s) None) -> takes m None.
Proof. intros H. split; [done|]. intros l s _. apply H. Qed.

(** The number of children is checked first. *)
Lemma takes_range (from : ParseTreeError -> E) d lo hi (m : list A -> option (result E (T * list A))) v :
  (in_range lo hi (length cs) = false -> v = None) -> (in_range lo hi (length cs) = true -> takes m v) ->
  takes (fun s => bind_r (map_err from <$> verify_n_children item d lo hi) (fun _ => m s)) v.
Proof.
  intros Hne Heq. pose proof (at_verify nodes i parent sib nm p cs Hloc d lo hi) as Hv.
  destruct (in_range lo hi (length cs)).
  - destruct (Heq eq_refl) as [H1 H2]. split; [done|]. intros l s Hl. eapply outcome_seq; [apply outcome_map_err, Hv|done|].
    intros [] _. by apply H2.
  - rewrite Hne by done. apply takes_fails. intros s. apply outcome_fails, outcome_map_err, Hv.
Qed.

Lemma takes_count (from : ParseTreeError -> E) d n (m : list A -> option (result E (T * list A))) v :
  (length cs <> n -> v = None) -> (length cs = n -> takes m v) ->
  takes (fun s => bind_r (map_err from <$> verify_n_children item d n (Some n)) (fun _ => m s)) v.
Proof.
  intros Hne Heq. assert (in_range n (Some n) (length cs) = (length cs =? n)) as Hr.
  { unfold in_range. apply eq_iff_eq_true. rewrite andb_true_iff, !Nat.leb_le, Nat.eqb_eq. lia. }
  apply takes_range; rewrite Hr; intros H; [by apply Hne, Nat.eqb_neq|by apply Heq, Nat.eqb_eq].
Qed.

(** A fragment without children, whose value is a constant. *)
Lemma takes_nullary (from : ParseTreeError -> E) d a :
  (cs = [] -> on_stack = Some []) ->
  takes (fun s => bind_r (map_err from <$> verify_n_children item d 0 (Some 0)) (fun _ => Some (Ok (a, s))))
    (match cs with [] => Some a | _ => None end).
Proof.
  intros H. apply takes_count; [by destruct cs|]. intros Hn. destruct cs; [|done].
  split; [by rewrite H|]. intros l s Hl. rewrite H in Hl by done. injection Hl as <-. by eexists.
Qed.

(** A fragment with one argument that is not a fragment. *)
Lemma takes_argument {X Y} (from : X -> E) (arg : option (result X Y)) (read : str -> option Y)
    (f : Y -> list A -> option (result E (T * list A))) (g : Y -> option T) :
  (argument read cs <> None -> on_stack = Some []) ->
  outcome arg (argument read cs) -> (forall t s, outcome (f t s) ((fun ms => (ms, s)) <$> g t)) ->
  takes (fun s => bind_r (map_err from <$> arg) (fun t => f t s)) (argument read cs ≫= g).
Proof.
  intros Hs Ha Hf. destruct (argument read cs) as [t|] eqn:E0.
  - split; [by rewrite Hs|]. intros l s Hl. rewrite Hs in Hl by done. injection Hl as <-. cbn.
    eapply outcome_seq; [apply outcome_map_err, Ha|done|]. intros ? [= <-]. apply Hf.
  - cbn. apply takes_fails. intros s. apply outcome_fails, outcome_map_err, Ha.
Qed.

(** A threshold whose children come from the stack. *)
Lemma takes_threshold {U} MAX (from : ParseThresholdError -> E) (pop : TreeIterItem -> list A -> option (result E U * list A))
    (proj : A -> U) (value : expr -> option A)
    (final : Threshold U -> list A -> option (result E (T * list A))) (g : Threshold U -> option T) :
  (forall c a s, pop c (a :: s) = Some (Ok (proj a), s)) ->
  (forall a q cs', cs = Node a q [] :: cs' ->
     on_stack = match cs' with [] => Some [] | _ => mapM value cs' end) ->
  (forall t s, outcome (final t s) ((fun a => (a, s)) <$> g t)) ->
  takes (fun s => '(r, s) ← verify_threshold MAX from item pop s; match r with Ok t => final t s | Err e => Some (Err e) end)
    (k ← threshold_value cs; subs ← mapM value (tail cs); t ← ok (Threshold.new MAX k (map proj subs)); g t).
Proof.
  intros Hpop Hst Hf. split.
  - intros Hno. destruct cs as [|[a q [|]] cs']; [done| |done]. rewrite (Hst a q cs') in Hno by done.
    destruct cs' as [|c cs']; [done|]. cbn [tail]. rewrite Hno. by destruct (threshold_value _).
  - intros l s Hl.
    destruct (at_threshold nodes i parent sib nm p cs Hloc MAX from
                (fun cs s' => exists ms, mapM value cs = Some ms /\ s' = ms ++ s) (fun c => proj <$> value c) pop (l ++ s))
      as (r & s2 & Hr & Hv & Hs2).
    + intros j c cs' sib' s' _ (ms & Hm & ->). cbn in Hm. destruct (value c) as [m|]; [|done]. cbn in Hm.
      destruct (mapM value cs') as [ms'|]; [|done]. injection Hm as <-. cbn [app].
      exists (Ok (proj m)), (ms' ++ s). split; [apply Hpop|]. split; [done|]. intros _. by exists ms'.
    + intros Hn Hk. destruct cs as [|[a q [|]] cs']; [cbn in Hn; lia| |by cbn in Hk]. rewrite (Hst a q cs') in Hl by done.
      destruct cs' as [|c cs']; [cbn in Hn; lia|]. by exists l.
    + rewrite Hr. cbn [mbind option_bind].
      assert (forall l, mapM (fun c => proj <$> value c) l = map proj <$> mapM value l) as Hm.
      { clear. intros l. induction l as [|c l IH]; [done|]. cbn [mapM]. rewrite IH. destruct (value c); [|done]. cbn.
        by destruct (mapM value l). }
      rewrite Hm in Hv.
      assert ((k ← threshold_value cs; subs ← mapM value (tail cs); t ← ok (Threshold.new MAX k (map proj subs)); g t)
              = ok r ≫= g) as ->.
      { rewrite Hv. destruct (threshold_value cs) as [k|]; [|done]. cbn [mbind option_bind]. by destruct (mapM value (tail cs)). }
      destruct r as [t|e]; [|apply outcome_err]. cbn [ok mbind option_bind].
      destruct (Hs2 ltac:(done)) as (ms & [= <-] & ->). apply Hf.
Qed.
End Takes.

(** * From a string *)

Lemma root_ok e : root (flat e 0 0 None None) = Some (mkItem (flat e 0 0 None None) 0).
Proof. by destruct e. Qed.

Lemma located_root e : located (flat e 0 0 None None) 0 None None e.
Proof. exists 0, [], []. by rewrite app_nil_r. Qed.

Section FromString.
Context {F : Bech32} {FL : Bech32Laws F} {X E A : Type} (from : ParseError X -> E).
Context (f : TreeIterItem -> option (result E A)) (v : expr -> option A).
Hypothesis f_ok : forall e, outcome (f (mkItem (flat e 0 0 None None) 0)) (v e).

(** Code that reads the tree of a string, on the text of an expression. *)
Lemma from_str_printed s e :
  wf_expr e -> verify_checksum s = Some (Ok (print e)) -> depth e <= MAX_RECURSION_DEPTH ->
  outcome (bind_r (map_err from <$> Expr.from_str s) (fun top => root ← root top; f root)) (v e).
Proof.
  intros He Hv Hd. unfold Expr.from_str. rewrite (from_str_print e s He Hv), (proj2 (Nat.ltb_ge _ _)) by done.
  cbn [fmap option_fmap option_map map_err bind_r mbind option_bind]. rewrite root_ok. apply f_ok.
Qed.

(** It returns for every string, and what it accepts is given by the grammar of expressions
    and what the code does at the root. *)
Lemma from_str_total s : is_str s = true ->
  exists r, bind_r (map_err from <$> Expr.from_str s) (fun top => root ← root top; f root) = Some r
    /\ forall a, ok r = Some a <->
         exists e, wf_expr e /\ verify_checksum s = Some (Ok (print e)) /\ depth e <= MAX_RECURSION_DEPTH /\ v e = Some a.
Proof.
  intros Hs.
  destruct (from_str_inner_total s Hs) as (t & Ht & Htree). destruct t as [tree|err].
  - destruct (Htree tree eq_refl) as (e & He & Hv & Hd & ->). destruct (from_str_printed s e He Hv Hd) as (r & Hr & Hok).
    exists r. split; [done|]. intros a. rewrite Hok. split; [intros Ha; by exists e|].
    intros (e' & He' & Hv' & Hd' & Ha). destruct (from_str_printed s e' He' Hv' Hd') as (r' & Hr' & Hok'). congruence.
  - unfold Expr.from_str. rewrite Ht. eexists. split; [done|]. intros a. split; [done|].
    intros (e & He & Hv & Hd & _). rewrite (from_str_print e s He Hv), (proj2 (Nat.ltb_ge _ _)) in Ht by done. done.
Qed.
End FromString.
