(* ===== verification/FromTree.v ===== *)
(** Parsing of Miniscripts ([FromTree for Miniscript], [from_str_ext] and the constructors
    [pk], [pkh], [pk_h] of src/src/miniscript/mod.rs): the nodes
    of an expression tree are read from the last to the first, with a stack of the
    Miniscripts built so far. *)
From S2P Require Import Prelude Bitcoin Primitives Ord Script Envelope Correctness Malleability Types.
From S2P Require Import ExtData Tree Ast Context Lex Decode Text Checksum Expression StrKey Walk.

(** * Constructors *)

Section Constructors.
Context {B : Bitcoin} {K : MiniscriptKey} (ctx : ScriptContext).

Definition ms_pk_h (pk : Pk) : Miniscript :=
  mkMiniscript (Terminal.PkH pk) Types.pk_h (Ext.pk_h (sig_type ctx) (Some pk)).

(** The wrapper [c:] around [inner]; [None] is the panic of [unwrap]. *)
Definition checked (inner : Miniscript) : option Miniscript :=
  match Types.cast_check (ty inner) with
  | Ok ty => Some (mkMiniscript (Terminal.Check inner) ty (Ext.cast_check (ext inner)))
  | Err _ => None
  end.

Definition ms_pk (pk : Pk) : option Miniscript := checked (ms_pk_k ctx pk).
Definition ms_pkh (pk : Pk) : option Miniscript := checked (ms_pk_h pk).
End Constructors.

(** * Names of fragments *)

(** The arms of the match on the name of a node. *)
Inductive Fragment : Type :=
| F_expr_raw_pkh | F_pk | F_pkh | F_pk_k | F_pk_h | F_after | F_older
| F_inscribe_pre | F_inscribe_post | F_txtmpl | F_sha256 | F_hash256 | F_ripemd160 | F_hash160
| F_1 | F_0 | F_and_v | F_and_b | F_and_n | F_andor | F_or_b | F_or_d | F_or_c | F_or_i
| F_thresh | F_multi | F_multi_a.

Definition fragments : list (str * Fragment) :=
  [(lit "expr_raw_pkh", F_expr_raw_pkh); (lit "pk", F_pk); (lit "pkh", F_pkh);
   (lit "pk_k", F_pk_k); (lit "pk_h", F_pk_h); (lit "after", F_after); (lit "older", F_older);
   (lit "inscribe_pre", F_inscribe_pre); (lit "inscribe_post", F_inscribe_post);
   (lit "txtmpl", F_txtmpl); (lit "sha256", F_sha256); (lit "hash256", F_hash256);
   (lit "ripemd160", F_ripemd160); (lit "hash160", F_hash160); (lit "1", F_1); (lit "0", F_0);
   (lit "and_v", F_and_v); (lit "and_b", F_and_b); (lit "and_n", F_and_n); (lit "andor", F_andor);
   (lit "or_b", F_or_b); (lit "or_d", F_or_d); (lit "or_c", F_or_c); (lit "or_i", F_or_i);
   (lit "thresh", F_thresh); (lit "multi", F_multi); (lit "multi_a", F_multi_a)].

(** [str::ends_with] *)
Definition ends_with (s suffix : str) : bool :=
  (length suffix <=? length s) && bool_decide (drop (length s - length suffix) s = suffix).

(** * From a tree *)

Section FromTree.
Context {B : Bitcoin} {Sc : Scripts} {K : MiniscriptKey} {St : Strings} {FK : FromStrKey}.
Context (ctx : ScriptContext).

(** The variants of [crate::Error] that parsing returns; [Invalid] has those of the checks
    of a Miniscript. *)
Inductive FromTreeError : Type :=
| Parse (e : ParseError BoxedError)
| ParseThreshold (e : ParseThresholdError)
| Invalid (e : Error)
| InvalidHex (e : str)
| ErrInscription (e : InscriptionError)
| UnknownWrapper (ch : Byte.byte)
| AnalysisFailed (e : AnalysisError).

Abbreviation stack := (list Miniscript).

(** The outcome of code that pops from the stack; [None] is a panic. *)
Abbreviation Step A := (option (result FromTreeError (A * stack))).

Definition tree_err {A} (r : option (result ParseTreeError A)) : option (result FromTreeError A) :=
  map_err (fun e => Parse (ParseTree e)) <$> r.

(** [Miniscript::from_ast] with the rest of the stack. *)
Definition build_ast (t : Terminal Miniscript) (s : stack) : Step Miniscript :=
  Some (ms ← map_err Invalid (from_ast ctx t); Ok (ms, s)).

(** A fragment with an argument that is not a fragment: the result of reading it, and the
    constructor. *)
Definition terminal {T} (arg : option (result (ParseError BoxedError) T)) (f : T -> option Miniscript)
    (s : stack) : Step Miniscript :=
  bind_r (map_err Parse <$> arg) (fun t => ms ← f t; Some (Ok (ms, s))).

Definition binary (node : Expr.TreeIterItem) (s : stack) (name : str)
    (termfn : Miniscript -> Miniscript -> Terminal Miniscript) : Step Miniscript :=
  bind_r (tree_err (Expr.verify_n_children node name 2 (Some 2))) (fun _ =>
    match s with
    | a :: b :: s => build_ast (termfn a b) s
    | _ => None
    end).

Definition nullary (node : Expr.TreeIterItem) (s : stack) (name : str) (ms : Miniscript) : Step Miniscript :=
  bind_r (tree_err (Expr.verify_n_children node name 0 (Some 0))) (fun _ => Some (Ok (ms, s))).

Definition pop_child (_ : Expr.TreeIterItem) (s : stack) : option (result FromTreeError Miniscript * stack) :=
  match s with [] => None | ms :: s => Some (Ok ms, s) end.

Definition read_key (sub : Expr.TreeIterItem) (s : stack) : option (result FromTreeError Pk * stack) :=
  r ← Expr.verify_terminal Pk_from_str sub (lit "public_key"); Some (map_err Parse r, s).

(** [verify_threshold], then [from_ast]. *)
Definition threshold {T} (MAX : nat) (node : Expr.TreeIterItem)
    (map_child : Expr.TreeIterItem -> stack -> option (result FromTreeError T * stack))
    (term : Threshold T -> Terminal Miniscript) (s : stack) : Step Miniscript :=
  '(r, s) ← Expr.verify_threshold MAX ParseThreshold node map_child s;
  match r with
  | Ok thresh => build_ast (term thresh) s
  | Err e => Some (Err e)
  end.

Definition inscribe (node : Expr.TreeIterItem)
    (term : list Inscription -> Miniscript -> Terminal Miniscript) (s : stack) : Step Miniscript :=
  bind_r (tree_err (Expr.verify_n_children node (lit "inscription") 2 (Some 2))) (fun _ =>
    field ← Expr.first_child node; field ← field;
    bind_r (tree_err (Expr.verify_n_children field (lit "inscription data") 0 (Some 0))) (fun _ =>
      name ← Expr.name field;
      match ScriptBuf_from_hex name with
      | Err e => Some (Err (InvalidHex e))
      | Ok script =>
          match parse_inscriptions script with
          | Err e => Some (Err (ErrInscription e))
          | Ok inscriptions =>
              match s with
              | child :: s => build_ast (term inscriptions child) s
              | [] => None
              end
          end
      end)).

(** The match on the name. *)
Definition fragment (node : Expr.TreeIterItem) (frag_name : str) (s : stack) : Step Miniscript :=
  let parent {T} (from_str : str -> result BoxedError T) name inner :=
    Expr.verify_terminal_parent from_str node (lit name) (lit inner) in
  match arm frag_name fragments with
  | Some F_expr_raw_pkh =>
      terminal (parent hash160_from_str "expr_raw_pkh" "public key hash")%string
        (fun h => Some (ms_expr_raw_pkh ctx h)) s
  | Some F_pk => terminal (parent Pk_from_str "pk" "public key")%string (ms_pk ctx) s
  | Some F_pkh => terminal (parent Pk_from_str "pkh" "public key")%string (ms_pkh ctx) s
  | Some F_pk_k => terminal (parent Pk_from_str "pk_k" "public key")%string (fun pk => Some (ms_pk_k ctx pk)) s
  | Some F_pk_h => terminal (parent Pk_from_str "pk_h" "public key")%string (fun pk => Some (ms_pk_h ctx pk)) s
  | Some F_after => terminal (Expr.verify_after node) (fun t => Some (ms_after t)) s
  | Some F_older => terminal (Expr.verify_older node) (fun t => Some (ms_older t)) s
  | Some F_inscribe_pre => inscribe node Terminal.InscribePre s
  | Some F_inscribe_post => inscribe node Terminal.InscribePost s
  | Some F_txtmpl =>
      bind_r (map_err Parse <$> parent sha256_from_str "txtmpl" "template hash")%string
        (fun h => build_ast (Terminal.TxTemplate h) s)
  | Some F_sha256 => terminal (parent Sha256_from_str "sha256" "hash")%string (fun h => Some (ms_sha256 h)) s
  | Some F_hash256 => terminal (parent Hash256_from_str "hash256" "hash")%string (fun h => Some (ms_hash256 h)) s
  | Some F_ripemd160 =>
      terminal (parent Ripemd160_from_str "ripemd160" "hash")%string (fun h => Some (ms_ripemd160 h)) s
  | Some F_hash160 => terminal (parent Hash160_from_str "hash160" "hash")%string (fun h => Some (ms_hash160 h)) s
  | Some F_1 => nullary node s (lit "1") ms_TRUE
  | Some F_0 => nullary node s (lit "0") ms_FALSE
  | Some F_and_v => binary node s (lit "and_v") Terminal.AndV
  | Some F_and_b => binary node s (lit "and_b") Terminal.AndB
  | Some F_and_n => binary node s (lit "and_n") (fun x y => Terminal.AndOr x y ms_FALSE)
  | Some F_andor =>
      bind_r (tree_err (Expr.verify_n_children node (lit "andor") 3 (Some 3))) (fun _ =>
        match s with
        | a :: b :: c :: s => build_ast (Terminal.AndOr a b c) s
        | _ => None
        end)
  | Some F_or_b => binary node s (lit "or_b") Terminal.OrB
  | Some F_or_d => binary node s (lit "or_d") Terminal.OrD
  | Some F_or_c => binary node s (lit "or_c") Terminal.OrC
  | Some F_or_i => binary node s (lit "or_i") Terminal.OrI
  | Some F_thresh => threshold 0 node pop_child Terminal.Thresh s
  | Some F_multi => threshold MAX_PUBKEYS_PER_MULTISIG node read_key Terminal.Multi s
  | Some F_multi_a => threshold MAX_PUBKEYS_IN_CHECKSIGADD node read_key Terminal.MultiA s
  | None => Some (Err (Parse (ParseTree (UnknownName frag_name))))
  end.

(** One wrapper around [new]. *)
Definition wrapper (ch : Byte.byte) (new : Miniscript) : result FromTreeError Miniscript :=
  term ← match ch with
         | "a"%byte => Ok (Terminal.Alt new)
         | "s"%byte => Ok (Terminal.Swap new)
         | "c"%byte => Ok (Terminal.Check new)
         | "d"%byte => Ok (Terminal.DupIf new)
         | "v"%byte => Ok (Terminal.Verify new)
         | "j"%byte => Ok (Terminal.NonZero new)
         | "n"%byte => Ok (Terminal.ZeroNotEqual new)
         | "t"%byte => Ok (Terminal.AndV new ms_TRUE)
         | "u"%byte => Ok (Terminal.OrI new ms_FALSE)
         | "l"%byte => Ok (Terminal.OrI ms_FALSE new)
         | x => Err (UnknownWrapper x)
         end;
  map_err Invalid (from_ast ctx term).

(** The characters are applied in the order of the list, which is that of the name reversed. *)
Fixpoint wrappers (chars : str) (new : Miniscript) : result FromTreeError Miniscript :=
  match chars with
  | [] => Ok new
  | ch :: chars => new ← wrapper ch new; wrappers chars new
  end.

(** Whether a node without children, which is not the root, is an argument that its parent
    reads itself. *)
Definition skipped (node : Expr.TreeIterItem) : option (result FromTreeError bool) :=
  parent ← Expr.parent node; parent ← parent;
  first ← Expr.is_first_child node;
  name ← Expr.name parent;
  if first && (ends_with name (lit "inscribe_pre") || ends_with name (lit "inscribe_post"))
  then Some (Ok true)
  else
    n ← Expr.n_children parent;
    if n =? 1 then Some (Ok true)
    else
      bind_r (tree_err (Expr.name_separated parent ":"%byte)) (fun '(_, parent_name) =>
        if bool_decide (parent_name = lit "multi") || bool_decide (parent_name = lit "multi_a")
        then Some (Ok true)
        else if bool_decide (parent_name = lit "thresh") && first then Some (Ok true)
        else Some (Ok false)).

(** The rest of the turn of the loop: the fragment and its wrappers. *)
Definition push_node (node : Expr.TreeIterItem) (s : stack) : option (result FromTreeError stack) :=
  bind_r (tree_err (Expr.name_separated node ":"%byte)) (fun '(frag_wrap, frag_name) =>
    bind_r (fragment node frag_name s) (fun '(new, s) =>
      match frag_wrap with
      | None => Some (Ok (new :: s))
      | Some [] => name ← Expr.name node; Some (Err (Parse (ParseTree (UnknownName name))))
      | Some frag_wrap => Some (new ← wrappers (rev frag_wrap) new; Ok (new :: s))
      end)).

(** One turn; [n] is the position of the node in pre-order. *)
Definition turn (n : nat) (node : Expr.TreeIterItem) (s : stack) : option (result FromTreeError stack) :=
  children ← Expr.n_children node;
  if (0 <? n) && (children =? 0) then
    bind_r (skipped node) (fun skip => if skip : bool then Some (Ok s) else push_node node s)
  else push_node node s.

Definition loop : nat -> Expr.PreOrderIter -> stack -> option (result FromTreeError stack) := rev_loop turn.

Fixpoint check_nodes (nodes : list Miniscript) : result FromTreeError () :=
  match nodes with
  | [] => Ok ()
  | node :: nodes =>
      _ ← map_err (fun e => Invalid (ContextError e)) (check_global_validity ctx node); check_nodes nodes
  end.

Definition from_tree (root : Expr.TreeIterItem) : option (result FromTreeError Miniscript) :=
  bind_r (tree_err (Expr.verify_no_curly_braces root)) (fun _ =>
    it ← Expr.pre_order_iter root;
    bind_r (loop (range_len it) it []) (fun s =>
      match s with
      | [ret] => Some (_ ← check_nodes (pre_order ret); Ok ret)
      | _ => None
      end)).

(** * From a string *)

Context {F : Bech32}.

Definition from_str_ext (s : str) (ext : ExtParams) : option (result FromTreeError Miniscript) :=
  bind_r (map_err Parse <$> Expr.from_str s) (fun top =>
    root ← Expr.root top;
    bind_r (from_tree root) (fun ms =>
      Some (_ ← map_err AnalysisFailed (ext_check ctx ms ext);
            if negb (bool_decide (c_base (corr (ty ms)) = BaseB)) then Err (Invalid NonTopLevel)
            else Ok ms))).

Definition from_str_insane (s : str) : option (result FromTreeError Miniscript) := from_str_ext s insane.

Definition from_str (s : str) : option (result FromTreeError Miniscript) := from_str_ext s sane.
End FromTree.
