(* ===== verification/ReadTree.v ===== *)
(** The Miniscripts that expressions denote, as a recursion over the grammar of
    [ExprGrammar], and the refinement of [from_tree] to it: the stack of the loop holds
    exactly the fragments that the parents still have to take. *)
From S2P Require Import Prelude Bitcoin Primitives Ord Script Envelope Correctness Malleability Types.
From S2P Require Import ExtData Tree Ast Context Lex Decode Text Checksum Expression ExprGrammar StrKey Walk FromTree.
Import Expr.

(** * The Miniscripts that expressions denote *)

(** The wrappers before the separator and the name after it. *)
Definition split_name : str -> option (option str * str) := split_name_by ":"%byte.

Section Reading.
Context {B : Bitcoin} {Sc : Scripts} {K : MiniscriptKey} {St : Strings} {FK : FromStrKey}.
Context (ctx : ScriptContext).

Definition ast (t : Terminal Miniscript) : option Miniscript := ok (from_ast ctx t).

Definition read_inscriptions (hex : str) : option (list Inscription) :=
  script ← ok (ScriptBuf_from_hex hex); ok (parse_inscriptions script).

Definition read_binary (termfn : Miniscript -> Miniscript -> Terminal Miniscript)
    (rs : list (option Miniscript)) : option Miniscript :=
  match rs with [a; b] => a ← a; b ← b; ast (termfn a b) | _ => None end.

Definition read_inscribe (termfn : list Inscription -> Miniscript -> Terminal Miniscript)
    (cs : list expr) (rs : list (option Miniscript)) : option Miniscript :=
  match cs, rs with
  | [field; _], [_; child] => i ← leaf read_inscriptions field; child ← child; ast (termfn i child)
  | _, _ => None
  end.

Definition read_threshold {T} (MAX : nat) (cs : list expr) (subs : option (list T))
    (term : Threshold T -> Terminal Miniscript) : option Miniscript :=
  k ← threshold_value cs; subs ← subs; t ← ok (Threshold.new MAX k subs); ast (term t).

(** The fragment with children [cs], whose readings are [rs]. *)
Definition read_fragment (f : Fragment) (cs : list expr) (rs : list (option Miniscript)) : option Miniscript :=
  let read {T} (r : str -> result BoxedError T) := argument (fun a => ok (r a)) cs in
  match f with
  | F_expr_raw_pkh => ms_expr_raw_pkh ctx <$> read hash160_from_str
  | F_pk => read Pk_from_str ≫= ms_pk ctx
  | F_pkh => read Pk_from_str ≫= ms_pkh ctx
  | F_pk_k => ms_pk_k ctx <$> read Pk_from_str
  | F_pk_h => ms_pk_h ctx <$> read Pk_from_str
  | F_after =>
      ms_after <$> argument (fun a => n ← ok (parse_num a); ok (abs_from_consensus n)) cs
  | F_older =>
      ms_older <$> argument (fun a => n ← ok (parse_num a); ok (rel_from_consensus n)) cs
  | F_inscribe_pre => read_inscribe Terminal.InscribePre cs rs
  | F_inscribe_post => read_inscribe Terminal.InscribePost cs rs
  | F_txtmpl => read sha256_from_str ≫= (fun h => ast (Terminal.TxTemplate h))
  | F_sha256 => ms_sha256 <$> read Sha256_from_str
  | F_hash256 => ms_hash256 <$> read Hash256_from_str
  | F_ripemd160 => ms_ripemd160 <$> read Ripemd160_from_str
  | F_hash160 => ms_hash160 <$> read Hash160_from_str
  | F_1 => match cs with [] => Some ms_TRUE | _ => None end
  | F_0 => match cs with [] => Some ms_FALSE | _ => None end
  | F_and_v => read_binary Terminal.AndV rs
  | F_and_b => read_binary Terminal.AndB rs
  | F_and_n => read_binary (fun x y => Terminal.AndOr x y ms_FALSE) rs
  | F_andor =>
      match rs with
      | [a; b; c] => a ← a; b ← b; c ← c; ast (Terminal.AndOr a b c)
      | _ => None
      end
  | F_or_b => read_binary Terminal.OrB rs
  | F_or_d => read_binary Terminal.OrD rs
  | F_or_c => read_binary Terminal.OrC rs
  | F_or_i => read_binary Terminal.OrI rs
  | F_thresh => read_threshold 0 cs (mapM id (tail rs)) Terminal.Thresh
  | F_multi =>
      read_threshold MAX_PUBKEYS_PER_MULTISIG cs (mapM (leaf (fun a => ok (Pk_from_str a))) (tail cs))
        Terminal.Multi
  | F_multi_a =>
      read_threshold MAX_PUBKEYS_IN_CHECKSIGADD cs (mapM (leaf (fun a => ok (Pk_from_str a))) (tail cs))
        Terminal.MultiA
  end.

(** The wrappers, the last one first; there is at least one before a separator. *)
Definition read_wrappers (wrap : option str) (ms : Miniscript) : option Miniscript :=
  match wrap with
  | None => Some ms
  | Some [] => None
  | Some w => ok (wrappers ctx (rev w) ms)
  end.

Fixpoint reading (e : expr) : option Miniscript :=
  match e with
  | Node nm _ cs =>
      '(wrap, name) ← split_name nm;
      f ← arm name fragments;
      ms ← read_fragment f cs (map reading cs);
      read_wrappers wrap ms
  end.

End Reading.

(** * Names *)

Lemma ends_with_spec s x : ends_with s x = true <-> exists a, s = a ++ x.
Proof.
  unfold ends_with. rewrite andb_true_iff, Nat.leb_le, bool_decide_eq_true. split.
  - intros [Hl Hd]. exists (take (length s - length x) s). rewrite <- Hd at 2. by rewrite take_drop.
  - intros [a ->]. rewrite length_app. split; [lia|]. rewrite Nat.add_sub. by apply drop_app_length.
Qed.

Lemma ends_with_name nm w name x :
  split_name nm = Some (w, name) -> Forall (fun b => b <> ":"%byte) x ->
  ends_with nm x = true -> ends_with name x = true.
Proof.
  intros Hs%split_name_by_spec Hx [a Ha]%ends_with_spec. apply ends_with_spec.
  destruct w as [w|]; [|by exists a; congruence]. rewrite Hs in Ha.
  apply app_eq_inv in Ha as [(k & -> & Hk)|(k & -> & Hk)].
  - exfalso. rewrite Hk in Hx. apply list.Forall_app in Hx as [_ [Hx _]%Forall_cons_1]. done.
  - destruct k as [|b k]; [|injection Hk as <- ->; by exists k].
    exfalso. cbn in Hk. rewrite <- Hk in Hx. by apply Forall_cons_1 in Hx as [? _].
Qed.

(** Whether child number [k] of [n] is skipped under a parent named [pn], if it has no children. *)
Definition skips (k : nat) (pn : str) (n : nat) : option bool :=
  if (k =? 0) && (ends_with pn (lit "inscribe_pre") || ends_with pn (lit "inscribe_post")) then Some true
  else if n =? 1 then Some true
  else
    '(_, name) ← split_name pn;
    Some (bool_decide (name = lit "multi") || bool_decide (name = lit "multi_a")
          || bool_decide (name = lit "thresh") && (k =? 0)).

(** How many children each fragment reads from the stack: none, all, or all but the first. *)
Definition skips_of (f : Fragment) (k : nat) : bool :=
  match f with
  | F_multi | F_multi_a => true
  | F_thresh | F_inscribe_pre | F_inscribe_post => k =? 0
  | _ => false
  end.

Lemma skips_arm k nm n w name f :
  split_name nm = Some (w, name) -> arm name fragments = Some f -> n <> 1 ->
  skips k nm n = Some (skips_of f k).
Proof.
  intros Hs Hf%arm_in Hn. unfold skips. apply Nat.eqb_neq in Hn. rewrite Hn, Hs. cbn [mbind option_bind].
  destruct (ends_with nm (lit "inscribe_pre")) eqn:H1.
  { apply (ends_with_name _ _ _ _ Hs) in H1; [|by repeat constructor].
    repeat destruct Hf as [[= <- <-]|Hf]; try done; by destruct k. }
  destruct (ends_with nm (lit "inscribe_post")) eqn:H2.
  { apply (ends_with_name _ _ _ _ Hs) in H2; [|by repeat constructor].
    repeat destruct Hf as [[= <- <-]|Hf]; try done; by destruct k. }
  rewrite andb_false_r.
  assert (forall x, nm = x \/ (exists a, nm = a ++ x) -> ends_with nm x = true) as Hend.
  { intros x [->|[a ->]]; apply ends_with_spec; [by exists []|by exists a]. }
  assert (ends_with nm name = true) as Hname.
  { apply Hend. apply split_name_by_spec in Hs. destruct w as [w|]; [|by left]. right. exists (w ++ [":"%byte]).
    by rewrite <- app_assoc. }
  repeat destruct Hf as [[= <- <-]|Hf]; try done; congruence.
Qed.

(** * The loop *)

Section Loop.
Context {B : Bitcoin} {Sc : Scripts} {K : MiniscriptKey} {St : Strings} {FK : FromStrKey}.
Context (ctx : ScriptContext) (nodes : list TreeNode).
Abbreviation reading := (reading ctx).

(** Only nodes without children can be skipped. *)
Definition skip_leaf (k : nat) (pn : str) (n : nat) (c : expr) : option bool :=
  match c with Node _ _ [] => skips k pn n | _ => Some false end.

Abbreviation value := (fun _ : place => reading).
Abbreviation entry := (Walk.entry value skip_leaf).
Abbreviation entries := (Walk.entries value skip_leaf).

Lemma entry_leaf k pn n nm p :
  entry k pn n (Node nm p []) = (s ← skips k pn n; if s : bool then Some [] else (fun m => [m]) <$> reading (Node nm p [])).
Proof. by rewrite entry_eq. Qed.

Lemma entry_read k pn n c : skips k pn n = Some false -> entry k pn n c = (fun m => [m]) <$> reading c.
Proof. intros Hk. destruct c as [nm p [|]]; [by rewrite entry_leaf, Hk|]. by rewrite entry_eq. Qed.

Lemma entries_read k pn n cs :
  (forall j, k <= j -> skips j pn n = Some false) -> entries k pn n cs = mapM reading cs.
Proof. intros Hk. apply entries_kept; [done|]. intros j [nm p [|]] Hj; [by apply Hk|done]. Qed.

Definition leaves (cs : list expr) : bool := forallb (fun c => match c with Node _ _ cs => is_empty cs end) cs.

Lemma entries_skipped k pn n cs :
  (forall j, k <= j -> skips j pn n = Some true) -> leaves cs = true -> entries k pn n cs = Some [].
Proof.
  revert k. induction cs as [|[nm p [|]] cs IH]; intros k Hk Hl; [done| |done].
  cbn [Walk.entries]. rewrite IH, entry_leaf, Hk; [done..| |done]. intros; apply Hk; lia.
Qed.

(** ** One fragment *)

Section Fragment.
Context (i : nat) (parent sib : option nat) (nm : str) (p : Parens) (cs : list expr).
Context (Hloc : located nodes i parent sib (Node nm p cs)).
Abbreviation item := (mkItem nodes i).
Abbreviation on_stack := (entries 0 nm (length cs) cs).

Abbreviation takes := (Walk.takes on_stack).

Lemma build_ast_ok t s : outcome (build_ast ctx t s) ((fun ms => (ms, s)) <$> ast ctx t).
Proof. unfold build_ast, ast. eexists. split; [done|]. by destruct (from_ast ctx t). Qed.

Lemma on_stack_argument {T} (read : str -> option T) : argument read cs <> None -> on_stack = Some [].
Proof.
  destruct cs as [|[a q [|]] [|]]; try done. intros _. cbn [Walk.entries length mbind option_bind]. rewrite entry_leaf.
  unfold skips. by destruct (_ && _).
Qed.

Lemma takes_terminal {T} (arg : option (result (ParseError BoxedError) T)) (read : str -> option T)
    (f : T -> option Miniscript) :
  outcome arg (argument read cs) -> (forall t, f t <> None) ->
  takes (terminal arg f) (argument read cs ≫= f).
Proof.
  intros Ha Hf. apply takes_argument; [apply on_stack_argument|done|]. intros t s. specialize (Hf t).
  destruct (f t) as [ms|]; [|done]. by eexists.
Qed.

Lemma takes_constant {T} (arg : option (result (ParseError BoxedError) T)) (read : str -> option T)
    (f : T -> Miniscript) :
  outcome arg (argument read cs) -> takes (terminal arg (fun t => Some (f t))) (f <$> argument read cs).
Proof.
  intros Ha. replace (f <$> argument read cs) with (argument read cs ≫= fun t => Some (f t)) by (by destruct (argument read cs)).
  by apply takes_terminal.
Qed.

(** The children are all read from the stack. *)
Definition all_read : Prop := length cs <> 1 -> forall k, skips k nm (length cs) = Some false.

Lemma on_stack_all : all_read -> length cs <> 1 -> on_stack = mapM reading cs.
Proof. intros H Hn. apply entries_read. intros. by apply H. Qed.

Lemma takes_binary name termfn :
  all_read -> takes (fun s => binary ctx item s name termfn) (read_binary ctx termfn (map reading cs)).
Proof.
  intros Hr. apply (takes_count _ _ _ _ _ _ _ Hloc); [by destruct cs as [|a [|b [|? ?]]]|]. intros Hn.
  pose proof (on_stack_all Hr ltac:(lia)) as Hs. unfold Walk.takes. rewrite Hs.
  destruct cs as [|a [|b [|? ?]]]; try discriminate Hn. cbn.
  destruct (reading a) as [x|]; [|done]. destruct (reading b) as [y|]; [|done]. cbn.
  split; [done|]. intros l s [= <-]. apply build_ast_ok.
Qed.

Lemma takes_ternary name :
  all_read ->
  takes (fun s => bind_r (tree_err (verify_n_children item name 3 (Some 3))) (fun _ =>
           match s with a :: b :: c :: s => build_ast ctx (Terminal.AndOr a b c) s | _ => None end))
    (match map reading cs with
     | [a; b; c] => a ← a; b ← b; c ← c; ast ctx (Terminal.AndOr a b c)
     | _ => None
     end).
Proof.
  intros Hr. apply (takes_count _ _ _ _ _ _ _ Hloc); [by destruct cs as [|a [|b [|c [|? ?]]]]|]. intros Hn.
  pose proof (on_stack_all Hr ltac:(lia)) as Hs. unfold Walk.takes. rewrite Hs.
  destruct cs as [|a [|b [|c [|? ?]]]]; try discriminate Hn. cbn.
  destruct (reading a) as [x|]; [|done]. destruct (reading b) as [y|]; [|done].
  destruct (reading c) as [z|]; [|done]. cbn.
  split; [done|]. intros l s [= <-]. apply build_ast_ok.
Qed.

Lemma at_inscription_data {A} c j sib' (f : list Inscription -> option (result FromTreeError A)) :
  located nodes j (Some i) sib' c ->
  forall v, (forall x, leaf read_inscriptions c = Some x -> outcome (f x) v) ->
  (leaf read_inscriptions c = None -> v = None) ->
  outcome (bind_r (tree_err (verify_n_children (mkItem nodes j) (lit "inscription data") 0 (Some 0))) (fun _ =>
      name ← Expr.name (mkItem nodes j);
      match ScriptBuf_from_hex name with
      | Err e => Some (Err (InvalidHex e))
      | Ok script =>
          match parse_inscriptions script with
          | Err e => Some (Err (ErrInscription e))
          | Ok inscriptions => f inscriptions
          end
      end)) v.
Proof.
  destruct c as [a q ks]. intros Hc v Hv Hn.
  pose proof (at_verify_exact nodes _ _ _ _ _ _ Hc (lit "inscription data") 0) as H0.
  eapply outcome_seq; [apply outcome_map_err, H0| |]; destruct ks as [|? ?]; cbn [length Nat.eqb] in *; try done; [by intros; apply Hn|].
  intros _ _. rewrite (at_name nodes _ _ _ _ _ _ Hc). cbn [mbind option_bind]. cbn [leaf] in *. unfold read_inscriptions in *.
  destruct (ScriptBuf_from_hex a) as [script|e]; cbn [ok mbind option_bind] in *; [|rewrite Hn by done; apply outcome_err].
  destruct (parse_inscriptions script) as [x|e]; cbn [ok] in *; [by apply Hv|rewrite Hn by done; apply outcome_err].
Qed.

Lemma takes_inscribe term :
  (length cs <> 1 -> forall k, skips k nm (length cs) = Some (k =? 0)) ->
  takes (inscribe ctx item term) (read_inscribe ctx term cs (map reading cs)).
Proof.
  intros Hr. pose proof (at_verify_exact nodes _ _ _ _ _ _ Hloc (lit "inscription") 2) as Hv.
  destruct (Nat.eqb_spec (length cs) 2) as [Hn|Hn].
  - specialize (Hr ltac:(lia)). unfold Walk.takes. destruct cs as [|field [|child [|? ?]]]; try discriminate Hn.
    cbn [length] in *.
    assert (entry 1 nm 2 child = (fun m => [m]) <$> reading child) as Hchild by (by apply entry_read, (Hr 1)).
    destruct (row_cons _ _ _ _ _ (located_children _ _ _ _ _ _ _ Hloc)) as [Hf _].
    assert (leaf read_inscriptions field <> None -> entry 0 nm 2 field = Some []) as Hfield.
    { destruct field as [a q [|]]; [|done]. intros _. by rewrite entry_leaf, (Hr 0). }
    cbn [Walk.entries length mbind option_bind map read_inscribe]. rewrite Hchild.
    destruct (reading child) as [ms|]; cbn [fmap option_fmap option_map mbind option_bind app];
      [|split; [by destruct (leaf _ field)|done]].
    split.
    { destruct (leaf read_inscriptions field) as [x|]; [|done]. by rewrite Hfield. }
    intros l s Hl. unfold inscribe. eapply outcome_seq; [apply outcome_map_err, Hv|done|]. intros [] _.
    rewrite (at_first_child _ _ _ _ _ _ _ Hloc). cbn [child_iter mbind option_bind].
    eapply at_inscription_data; [exact Hf| |by intros ->].
    intros x Hx. rewrite Hx in *. rewrite Hfield in Hl by done. injection Hl as <-. cbn [mbind option_bind app].
    apply build_ast_ok.
  - assert (read_inscribe ctx term cs (map reading cs) = None) as -> by (by destruct cs as [|a [|b [|? ?]]]).
    apply takes_fails. intros s. apply outcome_fails, outcome_map_err, Hv.
Qed.

Lemma threshold_ok {T} MAX (map_child : TreeIterItem -> list Miniscript -> option (result FromTreeError T * list Miniscript))
    (term : Threshold T -> Terminal Miniscript) (v : expr -> option T) (St' : list expr -> list Miniscript -> Prop) s s' :
  (forall j c l sib' s, located nodes j (Some i) sib' c -> St' (c :: l) s ->
     exists r s', map_child (mkItem nodes j) s = Some (r, s') /\ ok r = v c /\ (v c <> None -> St' l s')) ->
  (2 <= length cs -> leaf Some (hd (Node [] NoParens []) cs) <> None -> St' (tail cs) s) ->
  (read_threshold ctx MAX cs (mapM v (tail cs)) term <> None -> forall s'', St' [] s'' -> s'' = s') ->
  outcome (threshold ctx MAX item map_child term s)
    ((fun ms => (ms, s')) <$> read_threshold ctx MAX cs (mapM v (tail cs)) term).
Proof.
  intros Hmap Hs Hend.
  destruct (at_threshold nodes _ _ _ _ _ _ Hloc MAX ParseThreshold St' v map_child s Hmap Hs) as (r & s2 & Hr & Hv & Hs2).
  unfold threshold. rewrite Hr. cbn [mbind option_bind].
  assert (read_threshold ctx MAX cs (mapM v (tail cs)) term = ok r ≫= fun t => ast ctx (term t)) as Hread.
  { rewrite Hv. unfold read_threshold. destruct (threshold_value cs) as [k|]; [|done].
    cbn [mbind option_bind]. by destruct (mapM v (tail cs)). }
  rewrite Hread in *. destruct r as [th|e]; [|apply outcome_err]. cbn [ok mbind option_bind] in *.
  unfold build_ast, ast in *. eexists. split; [done|].
  destruct (from_ast ctx (term th)) as [ms|e]; [|done]. cbn in *. f_equal. f_equal.
  by apply Hend, Hs2.
Qed.

Lemma takes_thresh :
  (length cs <> 1 -> forall k, skips k nm (length cs) = Some (k =? 0)) ->
  takes (threshold ctx 0 item pop_child Terminal.Thresh)
    (read_threshold ctx 0 cs (mapM id (tail (map reading cs))) Terminal.Thresh).
Proof.
  intros Hr. assert (tail (map reading cs) = map reading (tail cs)) as -> by (by destruct cs). rewrite mapM_id_map.
  assert (read_threshold ctx 0 cs (mapM reading (tail cs)) Terminal.Thresh
          = (k ← threshold_value cs; subs ← mapM reading (tail cs);
             t ← ok (Threshold.new 0 k (map (fun m => m) subs)); ast ctx (Terminal.Thresh t))) as ->.
  { unfold read_threshold. destruct (threshold_value cs); [|done]. cbn [mbind option_bind].
    destruct (mapM reading (tail cs)); [|done]. cbn [mbind option_bind]. by rewrite List.map_id. }
  apply (takes_threshold _ _ _ _ _ _ _ Hloc); [done| |intros; apply build_ast_ok].
  intros a q [|c cs'] Hcs; [by apply (on_stack_argument Some); rewrite Hcs|].
  rewrite Hcs in *. specialize (Hr ltac:(done)). cbn [Walk.entries]. rewrite entry_leaf, (Hr 0).
  rewrite <- (entries_read 1 nm (length (Node a q [] :: c :: cs'))) by (intros [|j] Hj; [lia|apply Hr]).
  cbn [Nat.eqb mbind option_bind Walk.entries]. by destruct (y ← Walk.entries _ _ _ _ _ cs'; _).
Qed.

Lemma takes_keys MAX term :
  (length cs <> 1 -> forall k, skips k nm (length cs) = Some true) ->
  takes (threshold ctx MAX item read_key term)
    (read_threshold ctx MAX cs (mapM (leaf (fun a => ok (Pk_from_str a))) (tail cs)) term).
Proof.
  intros Hr. set (v := leaf (fun a => ok (Pk_from_str a))).
  assert (forall P : list Miniscript -> Prop, forall j c (l : list expr) sib' s, located nodes j (Some i) sib' c -> P s ->
    exists r s', read_key (mkItem nodes j) s = Some (r, s') /\ ok r = v c /\ (v c <> None -> P s')) as Hkey.
  { intros P j [a q ks] _ sib' s Hc Hs. unfold read_key.
    destruct (at_terminal nodes _ _ _ _ _ _ Hc Pk_from_str (lit "public_key")) as (r & -> & Hv). cbn [mbind option_bind].
    exists (map_err Parse r), s. split; [done|]. by rewrite ok_map_err. }
  destruct (leaves cs) eqn:El.
  - assert (on_stack = Some []) as Hs.
    { apply entries_skipped; [|done]. intros j _. destruct (Nat.eq_dec (length cs) 1) as [H1|H1]; [|by apply Hr].
      unfold skips. rewrite H1. by destruct (_ && _). }
    split; [by rewrite Hs|]. intros l s Hl. rewrite Hs in Hl. injection Hl as <-. cbn [app].
    apply threshold_ok with (St' := fun _ s' => s' = s); [|done|by intros _ ? ->].
    intros j c l sib' s' Hc Hs'. by apply (Hkey (fun s' => s' = s) j c l sib').
  - assert (read_threshold ctx MAX cs (mapM v (tail cs)) term = None) as Hno.
    { unfold read_threshold. destruct cs as [|[a q [|]] cs']; [done| |done]. cbn in El.
      assert (mapM v cs' = None) as Hm; [|by cbn [tail]; rewrite Hm; destruct (threshold_value _)].
      clear -El. induction cs' as [|[b r [|]] cs' IH]; [done| |done]. cbn in El. cbn [mapM].
      destruct (v (Node b r [])); [|done]. cbn [mbind option_bind]. by rewrite IH. }
    split; [done|]. intros l s _. apply threshold_ok with (St' := fun _ _ => True).
    + intros j c l' sib' s' Hc Hs'. by apply (Hkey (fun _ => True) j c l' sib').
    + done.
    + by rewrite Hno.
Qed.

Lemma takes_fragment w name f :
  split_name nm = Some (w, name) -> arm name fragments = Some f ->
  takes (fragment ctx item name) (read_fragment ctx f cs (map reading cs)).
Proof.
  intros Hs Hf. unfold fragment. rewrite Hf.
  assert (forall k, length cs <> 1 -> skips k nm (length cs) = Some (skips_of f k)) as Hk
    by (intros; by eapply skips_arm).
  assert (forall k : Pk, ms_pk ctx k <> None /\ ms_pkh ctx k <> None) as Hpk by done.
  destruct f; cbn [read_fragment skips_of] in *;
    first [apply takes_constant; first [eapply at_terminal_parent | eapply at_after | eapply at_older]; exact Hloc
          |apply takes_terminal; [eapply at_terminal_parent, Hloc | intros k; by destruct (Hpk k)]
          |apply takes_binary; intros ? ?; by apply Hk
          |apply (takes_nullary _ _ _ _ _ _ _ Hloc); by intros ->
          |apply takes_inscribe; intros ? ?; by apply Hk
          |apply takes_ternary; intros ? ?; by apply Hk
          |apply takes_thresh; intros ? ?; by apply Hk
          |apply takes_keys; intros ? ?; by apply Hk
          |idtac].
  apply takes_argument; [apply on_stack_argument|eapply at_terminal_parent, Hloc|]. intros. apply build_ast_ok.
Qed.

(** ** One node *)

Lemma push_node_ok :
  (on_stack = None -> reading (Node nm p cs) = None)
  /\ forall l s, on_stack = Some l ->
       outcome (push_node ctx item (l ++ s)) ((fun ms => ms :: s) <$> reading (Node nm p cs)).
Proof.
  unfold push_node. cbn [ReadTree.reading]. pose proof (at_name_separated nodes _ _ _ _ _ _ Hloc ":"%byte) as Hsep. fold (split_name nm) in Hsep.
  destruct (split_name nm) as [[w name]|] eqn:Es; cbn [mbind option_bind];
    [|split; [done|]; intros; apply outcome_fails, outcome_map_err, Hsep].
  destruct (arm name fragments) as [f|] eqn:Ef; cbn [mbind option_bind].
  - destruct (takes_fragment w name f Es Ef) as [Hn Ht]. split; [intros H; by rewrite Hn|].
    intros l s Hl. eapply outcome_seq; [apply outcome_map_err, Hsep|done|]. intros ? [= <-].
    eapply outcome_seq; [by apply Ht| |].
    + by destruct (read_fragment _ _ _ _).
    + intros [ms s'] H. destruct (read_fragment _ _ _ _) as [ms'|]; [|done]. injection H as <- <-. cbn [mbind option_bind].
      destruct w as [[|b w]|]; cbn [read_wrappers]; [|eexists; split; [done|]; by destruct (wrappers _ _ _)|by eexists].
      rewrite (at_name nodes _ _ _ _ _ _ Hloc). apply outcome_err.
  - split; [done|]. intros l s _. eapply outcome_seq; [apply outcome_map_err, Hsep|done|]. intros ? [= <-].
    apply outcome_fails. unfold fragment. rewrite Ef. apply outcome_err.
Qed.
End Fragment.

Lemma skipped_ok i parent sib nm p cs j sib' c k :
  located nodes i parent sib (Node nm p cs) -> located nodes j (Some i) sib' c -> (k =? 0) = (i + 1 =? j) ->
  outcome (skipped (mkItem nodes j)) (skips k nm (length cs)).
Proof.
  destruct c as [a q ks]. intros Hp Hc Hk. unfold skipped. destruct (located_get nodes _ _ _ _ _ _ Hc) as [pos Hg].
  unfold Expr.parent, is_first_child. rewrite Hg. cbn [fmap option_fmap option_map parent_idx Expr.nodes mbind option_bind index].
  rewrite (at_name nodes _ _ _ _ _ _ Hp), (at_n_children nodes _ _ _ _ _ _ Hp). cbn [mbind option_bind]. unfold skips. rewrite Hk.
  destruct (_ && (_ || _)); [by eexists|]. destruct (length cs =? 1); [by eexists|].
  apply outcome_bind; [eapply outcome_map_err, at_name_separated, Hp|]. intros [w name] _.
  destruct (bool_decide (name = lit "multi")), (bool_decide (name = lit "multi_a")); try by eexists.
  cbn [orb]. destruct (_ && _); by eexists.
Qed.

(** The turn of a node. *)
Lemma turn_ok par0 pl pos i parent sib nm p cs l s :
  located nodes i parent sib (Node nm p cs) -> at_place nodes par0 pl pos i parent ->
  entries 0 nm (length cs) cs = Some l ->
  outcome (turn ctx pos (mkItem nodes i) (l ++ s)) ((fun x => x ++ s) <$> left_by value skip_leaf pl (Node nm p cs) l).
Proof.
  intros Hloc Hpl Hl. unfold turn. rewrite (at_n_children nodes _ _ _ _ _ _ Hloc). cbn [mbind option_bind].
  destruct (push_node_ok _ _ _ _ _ _ Hloc) as [_ Hpush]. specialize (Hpush l s Hl).
  assert (outcome (push_node ctx (mkItem nodes i) (l ++ s))
            ((fun x => x ++ s) <$> ((fun a => [a]) <$> reading (Node nm p cs)))) as Hone.
  { by destruct (reading (Node nm p cs)). }
  destruct pl as [[[k pn] n]|]; cbn [left_by].
  - destruct Hpl as (Hpos & j & par & sib' & q & ks & -> & Hp & -> & Hk). rewrite (proj2 (Nat.ltb_lt _ _)) by done.
    destruct cs as [|c cs]; cbn [length Nat.eqb andb skip_leaf]; [|exact Hone].
    injection Hl as <-. eapply outcome_seq; [exact (skipped_ok _ _ _ _ _ _ _ _ _ k Hp Hloc Hk)|by intros ->|].
    intros b ->. cbn [mbind option_bind]. destruct b; [by eexists|]. exact Hone.
  - destruct Hpl as [-> _]. exact Hone.
Qed.

(** The whole loop over an expression. *)
Lemma loop_ok i parent sib e :
  located nodes i parent sib e ->
  outcome (it ← pre_order_iter (mkItem nodes i); loop ctx (range_len it) it []) ((fun ms => [ms]) <$> reading e).
Proof.
  intros Hl. eapply (rev_loop_ok nodes (turn ctx) value skip_leaf parent); [|by apply turn_ok|exact Hl].
  intros pl j par sib' nm p cs Hj. by apply (push_node_ok _ _ _ _ _ _ Hj).
Qed.
End Loop.
