(* ===== verification/ParseTotal.v ===== *)
(** Parsing a Miniscript from a string: it returns for every string, and what it accepts is
    given by the grammar of expressions, their reading as Miniscripts and the checks. *)
From S2P Require Import Prelude Bitcoin Primitives Reference Ord Script Envelope Correctness Malleability Types.
From S2P Require Import ExtData Tree Ast Context Lex Decode Text Checksum Expression ExprGrammar StrKey Walk FromTree ReadTree.
Import Expr.

(** * From a tree *)

Section FromTree.
Context {B : Bitcoin} {Sc : Scripts} {K : MiniscriptKey} {St : Strings} {FK : FromStrKey}.
Context (ctx : ScriptContext).

(** Every node passes the check of its context. *)
Definition nodes_valid (ms : Miniscript) : bool :=
  forallb (fun m => is_ok (check_global_validity ctx m)) (pre_order ms).

Lemma nodes_valid_spec ms : nodes_valid ms = true <-> context_valid ctx ms.
Proof.
  unfold nodes_valid, context_valid. rewrite forallb_forall, List.Forall_forall. split; intros H m Hm; specialize (H m Hm).
  - by destruct (check_global_validity ctx m) as [[]|].
  - by rewrite H.
Qed.

(** The Miniscript that an expression denotes, the checks of the context included. *)
Definition denoted (e : expr) : option Miniscript :=
  if curly_free e then ms ← reading ctx e; if nodes_valid ms then Some ms else None else None.

Lemma check_nodes_ok l :
  ok (check_nodes ctx l) = if forallb (fun m => is_ok (check_global_validity ctx m)) l then Some () else None.
Proof.
  induction l as [|m l IH]; [done|]. cbn [check_nodes forallb]. rewrite ok_bind, ok_map_err, IH.
  by destruct (check_global_validity ctx m) as [[]|].
Qed.

Lemma from_tree_ok nodes i parent sib e :
  located nodes i parent sib e -> outcome (from_tree ctx (mkItem nodes i)) (denoted e).
Proof.
  intros Hl. destruct (located_segment _ _ _ _ _ Hl) as [Hlen _]. pose proof (size_pos e).
  unfold from_tree, denoted. eapply outcome_seq; [eapply outcome_map_err, verify_no_curly_braces_ok, Hl| |].
  { by destruct (curly_free e). }
  intros [] Hc. destruct (curly_free e); [|done].
  pose proof (loop_ok ctx nodes i parent sib e Hl) as Hloop.
  assert (forall (f : list Miniscript -> option (result FromTreeError Miniscript)),
    (it ← pre_order_iter (mkItem nodes i); bind_r (loop ctx (range_len it) it []) f)
    = bind_r (it ← pre_order_iter (mkItem nodes i); loop ctx (range_len it) it []) f) as ->.
  { intros f. by destruct (pre_order_iter _). }
  eapply outcome_seq; [exact Hloop| |].
  { by destruct (reading ctx e). }
  intros s Hs. destruct (reading ctx e) as [ms|]; [|done]. injection Hs as <-. cbn [mbind option_bind].
  eexists. split; [done|]. rewrite ok_bind, check_nodes_ok. unfold nodes_valid. by destruct (forallb _ _).
Qed.

(** ** The Miniscripts read are well typed *)

Context {LL : LockTimeLaws B}.

Lemma ast_wf t ms : ast ctx t = Some ms -> Forall (wf ctx) (terminal_children t) -> node_valid t -> wf ctx ms.
Proof. intros H%ok_Some Hc Hv. by eapply from_ast_wf. Qed.

Lemma checked_wf inner ms : wf ctx inner -> checked inner = Some ms -> wf ctx ms.
Proof.
  intros Hi. unfold checked. destruct (Types.cast_check (ty inner)) as [t|] eqn:E; [|done]. intros [= <-].
  constructor; [by constructor|done|exact E|done].
Qed.

Lemma wf_TRUE : wf ctx ms_TRUE.
Proof. by constructor. Qed.

Lemma wf_FALSE : wf ctx ms_FALSE.
Proof. by constructor. Qed.

#[local] Hint Resolve wf_TRUE wf_FALSE : core.

Lemma argument_inv {T} (read : str -> option T) cs x : argument read cs = Some x -> exists a, read a = Some x.
Proof. destruct cs as [|[a q [|]] [|]]; try done. intros H. by exists a. Qed.

Lemma threshold_wf {T} MAX cs (subs : option (list T)) term ms :
  read_threshold ctx MAX cs subs term = Some ms ->
  (forall l k, subs = Some l -> Threshold.valid MAX (mkThreshold k l) ->
     Forall (wf ctx) (terminal_children (term (mkThreshold k l))) /\ node_valid (term (mkThreshold k l))) ->
  wf ctx ms.
Proof.
  unfold read_threshold. intros H Hv. destruct (threshold_value cs) as [k|]; [|done].
  destruct subs as [l|]; [|done]. cbn [mbind option_bind] in H.
  destruct (Threshold.new MAX k l) as [t|] eqn:E; [|done]. cbn [ok] in H. apply Threshold.new_valid in E as [-> Hok].
  destruct (Hv l k eq_refl Hok). by eapply ast_wf.
Qed.

Lemma binary_wf termfn rs ms :
  (forall x y, Forall (wf ctx) [x; y] -> Forall (wf ctx) (terminal_children (termfn x y)) /\ node_valid (termfn x y)) ->
  Forall (fun r => forall ms, r = Some ms -> wf ctx ms) rs -> read_binary ctx termfn rs = Some ms -> wf ctx ms.
Proof.
  intros Ht Hrs H. destruct rs as [|[x|] [|[y|] [|]]]; try done. cbn in H.
  apply Forall_cons_1 in Hrs as [Hx [Hy _]%Forall_cons_1].
  destruct (Ht x y); [by repeat constructor; auto|]. by eapply ast_wf.
Qed.

Lemma inscribe_wf term cs rs ms :
  (forall i x, Forall (wf ctx) [x] -> Forall (wf ctx) (terminal_children (term i x)) /\ node_valid (term i x)) ->
  Forall (fun r => forall ms, r = Some ms -> wf ctx ms) rs -> read_inscribe ctx term cs rs = Some ms -> wf ctx ms.
Proof.
  intros Ht Hrs H. destruct cs as [|field [|? [|]]]; try done. destruct rs as [|r [|[x|] [|]]]; try done; cbn in H;
    [|by destruct (leaf _ _)].
  apply Forall_cons_1 in Hrs as [_ [Hx _]%Forall_cons_1]. destruct (leaf _ _) as [i|]; [|done]. cbn in H.
  destruct (Ht i x); [by repeat constructor; auto|]. by eapply ast_wf.
Qed.

Lemma mapM_id_wf rs l :
  Forall (fun r => forall ms, r = Some ms -> wf ctx ms) rs -> mapM id rs = Some l -> Forall (wf ctx) l.
Proof.
  intros H. revert l. induction H as [|r rs Hr _ IH]; intros l Hl; [injection Hl as <-; constructor|].
  cbn [mapM] in Hl. destruct r as [ms|]; [|done]. cbn [id mbind option_bind] in Hl. destruct (mapM id rs) as [l'|]; [|done].
  injection Hl as <-. constructor; auto.
Qed.

Lemma fragment_wf f cs rs ms :
  Forall (fun r => forall ms, r = Some ms -> wf ctx ms) rs -> read_fragment ctx f cs rs = Some ms -> wf ctx ms.
Proof.
  intros Hrs H. destruct f; cbn [read_fragment] in H;
    try match type of H with
        | _ <$> _ = Some _ => apply fmap_Some in H as (x & Hx & ->); try by constructor
        | argument _ _ ≫= _ = Some _ => apply bind_Some in H as (x & _ & H)
        end;
    try (eapply binary_wf; [|exact Hrs|exact H]; intros ? ? [? [? _]%Forall_cons_1]%Forall_cons_1; split; [by repeat constructor|done]);
    try (eapply inscribe_wf; [|exact Hrs|exact H]; intros ? ? [? _]%Forall_cons_1; split; [by repeat constructor|done]).
  - eapply checked_wf; [|exact H]. by constructor.
  - eapply checked_wf; [|exact H]. by constructor.
  - apply argument_inv in Hx as (a & (n & Hn%ok_Some%parse_num_u32 & Ht%ok_Some)%bind_Some).
    apply abs_from_consensus_valid in Ht as [? _]; [|done]. by constructor.
  - apply argument_inv in Hx as (a & (n & Hn%ok_Some%parse_num_u32 & Ht%ok_Some)%bind_Some).
    apply rel_from_consensus_valid in Ht as [? _]; [|done]. by constructor.
  - eapply ast_wf; [exact H|constructor|done].
  - destruct cs; [injection H as <-|done]. done.
  - destruct cs; [injection H as <-|done]. done.
  - destruct rs as [|[x|] [|[y|] [|[z|] [|]]]]; try done. cbn in H.
    apply Forall_cons_1 in Hrs as [Hx [Hy [Hz _]%Forall_cons_1]%Forall_cons_1].
    eapply ast_wf; [exact H|by repeat constructor; auto|done].
  - eapply threshold_wf; [exact H|]. intros l k Hl Hv. split; [|done]. eapply mapM_id_wf; [|exact Hl].
    destruct Hrs; [constructor|done].
  - eapply threshold_wf; [exact H|]. intros l k Hl Hv. by split; [constructor|].
  - eapply threshold_wf; [exact H|]. intros l k Hl Hv. by split; [constructor|].
Qed.

Lemma wrappers_wf w : forall ms ms', wf ctx ms -> wrappers ctx w ms = Ok ms' -> wf ctx ms'.
Proof.
  induction w as [|b w IH]; intros ms ms' Hms H; cbn [wrappers] in H; [by injection H as <-|].
  apply bind_Ok_inv in H as (ms1 & Hw & H). eapply IH; [|exact H].
  apply bind_Ok_inv in Hw as (t & Ht & Hw%map_err_Ok_inv). eapply from_ast_wf; [| |exact Hw].
  - destruct b; try done; injection Ht as <-; by repeat constructor.
  - destruct b; try done; by injection Ht as <-.
Qed.

Lemma reading_wf e : forall ms, reading ctx e = Some ms -> wf ctx ms.
Proof.
  induction e as [nm p cs IH] using expr_ind'. intros ms H. cbn [reading] in H.
  apply bind_Some in H as ([w name] & _ & (f & _ & (ms0 & Hf & Hw)%bind_Some)%bind_Some).
  assert (wf ctx ms0) as H0.
  { eapply fragment_wf; [|exact Hf]. by apply List.Forall_map. }
  destruct w as [[|b w]|]; [done| |by injection Hw as <-].
  apply ok_Some in Hw. by eapply wrappers_wf.
Qed.

Lemma denoted_spec e ms : denoted e = Some ms <-> curly_free e = true /\ reading ctx e = Some ms /\ context_valid ctx ms.
Proof.
  unfold denoted. destruct (curly_free e); [|by split; [|intros [? _]]]. rewrite <- nodes_valid_spec.
  destruct (reading ctx e) as [m|]; cbn [mbind option_bind]; [|by split; [|intros (_ & ? & _)]].
  destruct (nodes_valid m) eqn:E; split; try done.
  - intros [= <-]. by repeat split.
  - by intros (_ & [= <-] & _).
  - intros (_ & [= <-] & ?). congruence.
Qed.

(** * From a string *)

Context {F : Bech32} {FL : Bech32Laws F}.

Definition accepted (s : str) (params : ExtParams) (ms : Miniscript) : Prop :=
  exists e, wf_expr e /\ verify_checksum s = Some (Ok (print e)) /\ depth e <= MAX_RECURSION_DEPTH
    /\ curly_free e = true /\ reading ctx e = Some ms /\ context_valid ctx ms
    /\ ext_check ctx ms params = Ok () /\ c_base (corr (ty ms)) = BaseB.

(** What is done at the root of the tree. *)
Definition checked_at (params : ExtParams) (root : TreeIterItem) : option (result FromTreeError Miniscript) :=
  bind_r (from_tree ctx root) (fun ms =>
    Some (_ ← map_err AnalysisFailed (ext_check ctx ms params);
          if negb (bool_decide (c_base (corr (ty ms)) = BaseB)) then Err (Invalid NonTopLevel) else Ok ms)).

Definition checked_denoted (params : ExtParams) (e : expr) : option Miniscript :=
  ms ← denoted e;
  if is_ok (ext_check ctx ms params) && bool_decide (c_base (corr (ty ms)) = BaseB) then Some ms else None.

Lemma checked_at_ok params e :
  outcome (checked_at params (mkItem (flat e 0 0 None None) 0)) (checked_denoted params e).
Proof.
  apply outcome_bind; [by eapply from_tree_ok, located_root|]. intros ms _. eexists. split; [done|].
  destruct (ext_check ctx ms params) as [[]|]; [cbn|done]. by destruct (bool_decide _).
Qed.

Lemma from_str_ext_print s params e :
  wf_expr e -> verify_checksum s = Some (Ok (print e)) -> depth e <= MAX_RECURSION_DEPTH ->
  outcome (from_str_ext ctx s params) (checked_denoted params e).
Proof. apply (from_str_printed Parse (checked_at params)), checked_at_ok. Qed.

Lemma accepted_total s params : is_str s = true ->
  exists r, from_str_ext ctx s params = Some r /\ forall ms, ok r = Some ms <-> accepted s params ms.
Proof.
  intros Hs.
  destruct (from_str_total Parse (checked_at params) (checked_denoted params) (checked_at_ok params) s Hs) as (r & Hr & Hok).
  exists r. split; [done|]. intros ms. rewrite Hok. unfold accepted. split.
  - intros (e & He & Hv & Hd & (m & (Hc & Hread & Hctx)%denoted_spec & H)%bind_Some). exists e.
      destruct (ext_check ctx m params) as [[]|] eqn:Ee; [|done].
      destruct (bool_decide_reflect (c_base (corr (ty m)) = BaseB)); [|done]. by injection H as <-.
  - intros (e & He & Hv & Hd & Hc & Hread & Hctx & Hext & Hbase). exists e. repeat split; try done.
    unfold checked_denoted. rewrite (proj2 (denoted_spec e ms)) by done. cbn [mbind option_bind]. by rewrite Hext, bool_decide_eq_true_2.
Qed.

(** C7: Parsing a Miniscript from a string returns for every string, without panic. It
    succeeds exactly on the texts of expressions without curly braces, nested at most 402
    deep and followed by a valid checksum or none, whose reading is a Miniscript of base
    type B that satisfies the checks of its context at every node and the sanity checks
    that the parameters do not waive; and this Miniscript, which is well typed, is the
    result. *)
Theorem from_str_ext_spec s params : is_str s = true ->
  exists r, from_str_ext ctx s params = Some r
    /\ (forall ms, r = Ok ms -> wf ctx ms)
    /\ forall ms, r = Ok ms <->
         exists e, wf_expr e /\ verify_checksum s = Some (Ok (print e)) /\ depth e <= MAX_RECURSION_DEPTH
           /\ curly_free e = true /\ reading ctx e = Some ms /\ context_valid ctx ms
           /\ ext_check ctx ms params = Ok () /\ c_base (corr (ty ms)) = BaseB.
Proof.
  intros Hs. destruct (accepted_total s params Hs) as (r & Hr & Hspec). exists r. split; [done|].
  assert (forall ms, r = Ok ms <-> accepted s params ms) as Hiff by (intros ms; by rewrite <- Hspec, ok_Some).
  split; [|exact Hiff]. intros ms (e & _ & _ & _ & _ & He & _)%Hiff. by eapply reading_wf.
Qed.
End FromTree.

(** [or_d(pk(A), and_v(v:pk(B), older(144)))] *)
Lemma from_str_ext_spec_witness :
  exists r, from_str_ext Segwitv0 (lit "or_d(pk(020a),and_v(v:pk(020b),older(144)))") sane = Some r
    /\ (forall ms, r = Ok ms -> wf Segwitv0 ms)
    /\ forall ms, r = Ok ms <->
         exists e, wf_expr e /\ verify_checksum (lit "or_d(pk(020a),and_v(v:pk(020b),older(144)))") = Some (Ok (print e))
           /\ depth e <= MAX_RECURSION_DEPTH
           /\ curly_free e = true /\ reading Segwitv0 e = Some ms /\ context_valid Segwitv0 ms
           /\ ext_check Segwitv0 ms sane = Ok () /\ c_base (corr (ty ms)) = BaseB.
Proof. apply (from_str_ext_spec (FK := reference_from_str_key) Segwitv0). by vm_compute. Defined.
