(* ===== verification/DisplayParse.v ===== *)
(** Parsing what [Display] writes: a Miniscript that is read back from its own string. *)
From S2P Require Import Prelude Bitcoin Primitives Reference Ord Script Envelope Correctness Malleability Types.
From S2P Require Import ExtData Tree Ast Context Samples AstProps Lex Decode DecodeEncode.
From S2P Require Import Text Checksum Expression ExprGrammar StrKey Walk Display DisplayText FromTree ReadTree ParseTotal.
Import Expr(Parens(..), splitn, split_at).

(** * Names *)

Lemma split_full_name w n : ~ In ":"%byte w -> ~ In ":"%byte n ->
  split_name (full_name w n) = Some (match w with [] => None | _ => Some w end, n).
Proof.
  intros Hw Hn. destruct w as [|b w]; [by apply split_name_by_none|by apply (split_name_by_app _ (b :: w))].
Qed.

Lemma fragments_no_colon n f : arm n fragments = Some f -> ~ In ":"%byte n.
Proof.
  intros H%arm_in. assert (forallb (fun '(s, _) => negb (existsb (fun b => bool_decide (b = ":"%byte)) s)) fragments = true) as Hf by reflexivity.
  rewrite forallb_forall in Hf. specialize (Hf _ H). cbn in Hf. apply negb_true_iff in Hf. intros Hin.
  rewrite <- not_true_iff_false, existsb_exists in Hf. apply Hf. exists ":"%byte. split; [done|by apply bool_decide_eq_true].
Qed.

Lemma wrapper_no_colon {B : Bitcoin} {K : MiniscriptKey} node : is_wrapper node = true -> ~ In ":"%byte (fragment_name node).
Proof.
  intros Hw Hin. assert (existsb (fun b => bool_decide (b = ":"%byte)) (fragment_name node) = true) as H.
  { rewrite existsb_exists. exists ":"%byte. split; [done|by apply bool_decide_eq_true]. }
  clear Hin Hw. revert H. destruct node; try done; cbn [fragment_name].
  - by destruct (Ast.node sub).
  - by destruct (is_true r).
  - by destruct (is_false c).
  - by destruct (is_false r), (is_false l).
Qed.

Section ReadBack.
Context {B : Bitcoin} {Sc : Scripts} {BL : BuilderLaws B} {ScL : ScriptLaws Sc} {LL : LockTimeLaws B}.
Context {K : MiniscriptKey} {St : Strings} {FK : FromStrKey} {Sh : Shows} {SL : ShowLaws FK Sh}.
Context (ctx : ScriptContext).

(** What has a string that is read back: no raw key hash; threshold values that are 32-bit
    numbers; inscriptions as the parser of envelopes returns them. *)
Definition node_writable (node : Terminal Miniscript) : Prop :=
  match node with
  | Terminal.RawPkH _ => False
  | Terminal.Thresh thresh => (N.of_nat (Threshold.k thresh) < 2 ^ 32)%N
  | Terminal.InscribePre i _ | Terminal.InscribePost i _ =>
      (N.of_nat (length i) <= 2 ^ 32)%N /\ Forall (fun i => canonical i = i) i
  | _ => True
  end.

Definition writable (ms : Miniscript) : Prop := Forall (fun m => node_writable (node m)) (pre_order ms).

Lemma writable_inv ms : writable ms -> node_writable (node ms) /\ Forall writable (children ms).
Proof.
  unfold writable. rewrite pre_order_eq. intros [H Hc]%Forall_cons_1. split; [done|]. clear H.
  induction (children ms) as [|c cs IH]; [done|]. simpl in Hc. apply list.Forall_app in Hc as [? ?]. constructor; auto.
Qed.

(** The name, the arguments and the wrappers read as the Miniscript. *)
Definition reads_back (ms : Miniscript) : Prop :=
  let '(w, n, k) := parts (display_child ms) in
  exists f inner, arm n fragments = Some f /\ read_fragment ctx f k (map (reading ctx) k) = Some inner
    /\ wrappers ctx (rev w) inner = Ok ms /\ ~ In ":"%byte w.

Lemma reads_back_reading ms : reads_back ms -> reading ctx (expr_of (display_child ms)) = Some ms.
Proof.
  unfold reads_back, expr_of. destruct (parts (display_child ms)) as [[w n] k]. intros (f & inner & Hf & Hi & Hw & Hc).
  cbn [expr_of_parts reading]. rewrite split_full_name by (try done; by eapply fragments_no_colon). cbn [mbind option_bind].
  rewrite Hf. cbn [mbind option_bind]. rewrite Hi. cbn [mbind option_bind].
  destruct w as [|b w]; cbn [read_wrappers]; [by injection Hw as ->|]. by rewrite Hw.
Qed.

Lemma wrappers_app w w' ms : wrappers ctx (w ++ w') ms = (ms ← wrappers ctx w ms; wrappers ctx w' ms).
Proof.
  revert ms. induction w as [|b w IH]; intros ms; [done|]. cbn [app wrappers].
  destruct (wrapper ctx b ms) as [m|e]; [apply IH|done].
Qed.

(** A wrapper around a fragment that is read back. *)
Lemma wrapper_reads_back ms sub ch :
  is_wrapper (node ms) = true -> children (DNode (ty ms) (node ms)) = [display_child sub] ->
  fragment_name (node ms) = [ch] -> reads_back sub -> wrapper ctx ch sub = Ok ms -> reads_back ms.
Proof.
  intros Hw Hch Hn Hsub Hms. unfold reads_back, display_child at 1. rewrite parts_eq, Hch. cbn [parts_step map]. rewrite Hw.
  unfold reads_back in Hsub. destruct (parts (display_child sub)) as [[w n] k].
  destruct Hsub as (f & inner & Hf & Hi & Hwr & Hc). exists f, inner. split; [done|]. split; [done|]. rewrite Hn.
  cbn [app rev]. rewrite wrappers_app, Hwr. cbn [mbind result_bind wrappers]. rewrite Hms. split; [done|].
  intros [Heq|Hin]; [|done]. apply (wrapper_no_colon _ Hw). rewrite Hn, Heq. by left.
Qed.

(** A fragment that is not a wrapper. *)
Lemma fragment_reads_back ms f :
  is_wrapper (node ms) = false -> arm (fragment_name (node ms)) fragments = Some f ->
  (let k := map expr_of (children (DNode (ty ms) (node ms))) in
   read_fragment ctx f k (map (reading ctx) k) = Some ms) ->
  reads_back ms.
Proof.
  intros Hw Hf Hr. unfold reads_back, display_child. rewrite parts_eq. cbn [parts_step]. rewrite Hw.
  exists f, ms. rewrite List.map_map. repeat split; try done. by intros ?.
Qed.

Lemma ast_node ms : wf ctx ms -> height ms <= MAX_RECURSION_DEPTH -> context_valid ctx ms -> ast ctx (node ms) = Some ms.
Proof. intros Hwf Hh [Hg _]%context_valid_inv. unfold ast. by rewrite (from_ast_node ctx ms Hwf Hh Hg). Qed.

Lemma leaf_expr d : is_node d = false -> expr_of d = Node (leaf_text d) NoParens [].
Proof. intros H. unfold expr_of. by rewrite leaf_parts. Qed.

Lemma read_leaf {T X} (from_str : str -> result X T) (display : T -> str) d x :
  written from_str display -> is_node d = false -> leaf_text d = display x ->
  argument (fun a => ok (from_str a)) [expr_of d] = Some x.
Proof. intros Hw Hd Ht. rewrite leaf_expr, Ht by done. cbn. by rewrite (proj1 (Hw x)). Qed.

Lemma threshold_value_shown k cs : (N.of_nat k < 2 ^ 32)%N -> threshold_value (expr_of (DThresholdK k) :: cs) = Some k.
Proof. intros H. rewrite leaf_expr by done. cbn [threshold_value].
  change (leaf_text (DThresholdK k)) with (show_N (N.of_nat k)). rewrite parse_show by done. cbn. by rewrite Nat2N.id. Qed.

Lemma read_keys l : mapM (leaf (fun a => ok (Pk_from_str a))) (map expr_of (map DKey l)) = Some l.
Proof.
  induction l as [|pk l IH]; [done|]. cbn [map mapM]. rewrite leaf_expr by done. cbn [leaf].
  change (leaf_text (DKey pk)) with (Pk_display pk). rewrite (proj1 (Pk_written pk)). cbn [ok mbind option_bind]. by rewrite IH.
Qed.

(** A leaf is what its constructor builds. *)
Ltac by_annotations H :=
  first [eapply (wf_leaf_eq _ _ _ _ _ H) | symmetry; eapply (wf_leaf_eq _ _ _ _ _ H)]; reflexivity.

Lemma wf_true_eq ms : wf ctx ms -> is_true ms = true -> ms = ms_TRUE.
Proof. destruct ms as [nd t e]. unfold is_true. cbn [node]. destruct nd; try done. intros H _. by_annotations H. Qed.

Lemma wf_false_eq ms : wf ctx ms -> is_false ms = true -> ms = ms_FALSE.
Proof. destruct ms as [nd t e]. unfold is_false. cbn [node]. destruct nd; try done. intros H _. by_annotations H. Qed.

(** What the induction provides for every child. *)
Definition child_ok (sub : Miniscript) : Prop :=
  wf ctx sub /\ reads_back sub /\ reading ctx (expr_of (display_child sub)) = Some sub.

Lemma read_binary_ok termfn l r ms :
  child_ok l -> child_ok r -> ast ctx (termfn l r) = Some ms ->
  read_binary ctx termfn [reading ctx (expr_of (display_child l)); reading ctx (expr_of (display_child r))] = Some ms.
Proof. intros (_ & _ & ->) (_ & _ & ->). done. Qed.

Lemma read_subs l : Forall child_ok l ->
  mapM id (map (reading ctx) (map expr_of (map display_child l))) = Some l.
Proof. induction 1 as [|m l (_ & _ & Hm) _ IH]; [done|]. cbn [map mapM]. rewrite Hm. cbn [id mbind option_bind]. by rewrite IH. Qed.

Lemma new_threshold {T} MAX (t : Threshold T) :
  Threshold.valid MAX t -> Threshold.new MAX (Threshold.k t) (Threshold.inner t) = Ok t.
Proof. intros H. apply Threshold.new_valid. by destruct t. Qed.

Lemma valid_k_u32 {T} MAX (t : Threshold T) :
  Threshold.valid MAX t -> MAX <> 0 -> MAX < 1000 -> (N.of_nat (Threshold.k t) < 2 ^ 32)%N.
Proof. intros [[_ H1] [->|H2]] Hz Hm; lia. Qed.

Lemma read_hex i : Forall (fun i => validate i = true) i -> i <> [] -> (N.of_nat (length i) <= 2 ^ 32)%N ->
  Forall (fun i => canonical i = i) i -> leaf read_inscriptions (expr_of (DInscriptions i)) = Some i.
Proof.
  intros Hv Hne Hn Hc. rewrite leaf_expr by done. cbn [leaf]. unfold read_inscriptions.
  change (leaf_text (DInscriptions i)) with (Script_lower_hex (into_script (reveal i Builder_new))).
  rewrite (proj1 (Script_written _)). cbn [ok mbind option_bind]. rewrite parse_reveal by done. cbn [ok].
  f_equal. clear -Hc. induction Hc as [|x l Hx _ IH]; [done|]. cbn. by rewrite Hx, IH.
Qed.

Lemma read_inscribe_ok termfn i sub ms :
  type_check (termfn i sub) = Ok (ty ms) -> node_writable (termfn i sub) ->
  (termfn = Terminal.InscribePre \/ termfn = Terminal.InscribePost) ->
  child_ok sub -> ast ctx (termfn i sub) = Some ms ->
  read_inscribe ctx termfn [expr_of (DInscriptions i); expr_of (display_child sub)]
    [reading ctx (expr_of (DInscriptions i)); reading ctx (expr_of (display_child sub))] = Some ms.
Proof.
  intros Ht Hwr Hor (_ & _ & Hsub) Hast. unfold read_inscribe. rewrite Hsub.
  assert (is_empty i || existsb (fun x => negb (validate x)) i = false) as [He Hv]%orb_false_iff.
  { destruct Hor as [-> | ->]; cbn [type_check] in Ht; by destruct (is_empty i || _). }
  assert ((N.of_nat (length i) <= 2 ^ 32)%N /\ Forall (fun i => canonical i = i) i) as [Hn Hc]
    by (destruct Hor as [-> | ->]; exact Hwr).
  rewrite read_hex; [done| |by destruct i|done|done].
  rewrite List.Forall_forall. intros x Hx. destruct (validate x) eqn:E; [done|].
  rewrite <- not_true_iff_false, existsb_exists in Hv. destruct Hv. exists x. by rewrite E.
Qed.

(** Proofs for a fragment that is not a wrapper, and for those that take one argument. *)
Ltac as_fragment f :=
  apply (fragment_reads_back _ f); [reflexivity|reflexivity|];
  cbn [ty node]; unfold children, as_node, DisplayNode_TreeLike; cbn [map read_fragment].

Ltac read_argument f H :=
  as_fragment f;
  erewrite read_leaf by (first [eapply Pk_written | eapply Sha256_written | eapply Hash256_written
    | eapply Ripemd160_written | eapply Hash160_written | eapply sha256_written | reflexivity]);
  cbn [fmap option_fmap option_map mbind option_bind]; f_equal; by_annotations H.

(** A bare raw key hash has a name that the parser does not know. *)
Lemma raw_pkh_not_read h t e : child_ok (mkMiniscript (Terminal.RawPkH h) t e) -> False.
Proof.
  intros (_ & H & _). unfold reads_back, display_child in H. rewrite parts_eq in H.
  by destruct H as (f & inner & Hf & _).
Qed.

Lemma checked_node sub t e :
  wf ctx (mkMiniscript (Terminal.Check sub) t e) -> checked sub = Some (mkMiniscript (Terminal.Check sub) t e).
Proof.
  intros (_ & _ & Ht & He)%wf_inv. cbn [node ty ext type_check ext_type_check] in *. unfold checked. by rewrite Ht, He.
Qed.

Lemma abs_valid_u32 t : abs_valid t -> (abs_to_consensus_u32 t < 2 ^ 32)%N.
Proof. unfold abs_valid. lia. Qed.

Lemma rel_valid_u32 t : rel_valid t -> (rel_to_consensus_u32 t < 2 ^ 32)%N.
Proof. unfold rel_valid. lia. Qed.

Lemma wrapper_ok ch sub t ms :
  wrapper ctx ch sub = map_err Invalid (from_ast ctx t) -> ast ctx t = Some ms -> wrapper ctx ch sub = Ok ms.
Proof. intros -> H%ok_Some. by rewrite H. Qed.

(** The fragments with one argument, and those without. *)
Lemma leaf_reads_back ms :
  wf ctx ms -> children ms = [] -> node_writable (node ms) -> ast ctx (node ms) = Some ms -> reads_back ms.
Proof.
  intros Hwf Hsub Hwr Hast. destruct (wf_inv _ _ Hwf) as (_ & Hv & _). rewrite children_node in Hsub.
  destruct ms as [nd t e]. cbn [node] in *. destruct nd; try done; cbn [node_valid] in Hv.
  - as_fragment F_1. f_equal. by_annotations Hwf.
  - as_fragment F_0. f_equal. by_annotations Hwf.
  - read_argument F_pk_k Hwf.
  - read_argument F_pk_h Hwf.
  - as_fragment F_after. rewrite leaf_expr by done. cbn [argument]. change (leaf_text (DAfter t0)) with (LockTime_display (abs_inner t0)).
    rewrite LockTime_shown, parse_show by (by apply abs_valid_u32). cbn [ok mbind option_bind].
    change (LockTime_to_consensus_u32 (abs_inner t0)) with (abs_to_consensus_u32 t0). rewrite abs_round by done.
    cbn. f_equal. by_annotations Hwf.
  - as_fragment F_older. rewrite leaf_expr by done. cbn [argument]. change (leaf_text (DOlder t0)) with (Sequence_display (rel_inner t0)).
    rewrite Sequence_shown, parse_show by (by apply rel_valid_u32). cbn [ok mbind option_bind].
    change (Sequence_to_consensus_u32 (rel_inner t0)) with (rel_to_consensus_u32 t0). rewrite rel_round by done.
    cbn. f_equal. by_annotations Hwf.
  - read_argument F_sha256 Hwf.
  - read_argument F_hash256 Hwf.
  - read_argument F_ripemd160 Hwf.
  - read_argument F_hash160 Hwf.
  - as_fragment F_txtmpl. erewrite read_leaf by (first [eapply sha256_written | reflexivity]). exact Hast.
  - (* a threshold without children *)
    cbn in Hsub, Hv. destruct thresh as [k [|? ?]]; [|done]. destruct Hv as [[H1 H2] _]. cbn in H1, H2. lia.
  - as_fragment F_multi. unfold nary_keys. cbn [map tail]. unfold read_threshold.
    rewrite threshold_value_shown by (eapply valid_k_u32; [done|done|unfold MAX_PUBKEYS_PER_MULTISIG; lia]). rewrite read_keys. cbn [mbind option_bind].
    rewrite new_threshold by done. cbn [ok mbind option_bind]. exact Hast.
  - as_fragment F_multi_a. unfold nary_keys. cbn [map tail]. unfold read_threshold.
    rewrite threshold_value_shown by (eapply valid_k_u32; [done|done|unfold MAX_PUBKEYS_IN_CHECKSIGADD; lia]).
    rewrite read_keys. cbn [mbind option_bind]. rewrite new_threshold by done. cbn [ok mbind option_bind]. exact Hast.
Qed.

(** The wrappers. *)
Lemma wrapped_reads_back ms :
  wf ctx ms -> Forall child_ok (children ms) -> is_wrapper (node ms) = true -> ast ctx (node ms) = Some ms -> reads_back ms.
Proof.
  intros Hwf Hsub Hw Hast. rewrite children_node in Hsub. destruct ms as [nd t e]. cbn [node] in *.
  destruct nd; try done; cbn [terminal_children terminal_as_node] in Hsub;
    repeat match goal with H : Forall _ (_ :: _) |- _ => apply Forall_cons_1 in H as [[? [? ?]] H] end;
    try (eapply wrapper_reads_back; [exact Hw|reflexivity|reflexivity|eassumption|by eapply wrapper_ok]).
  - assert (children (DNode t (Terminal.Check sub)) = [display_child sub] /\ fragment_name (Terminal.Check sub) = lit "c") as [Hc Hn].
    { clear -Hw. unfold is_wrapper, children in *. cbn [as_node DisplayNode_TreeLike fragment_name] in *. by destruct (Ast.node sub). }
    eapply wrapper_reads_back; [exact Hw|exact Hc|exact Hn|eassumption|by eapply wrapper_ok].
  - unfold is_wrapper in Hw. cbn [fragment_name] in Hw. destruct (is_true r) eqn:Er; [|done].
    pose proof (wf_true_eq r ltac:(done) Er) as ->.
    eapply (wrapper_reads_back _ l); [reflexivity|reflexivity|reflexivity|done|by eapply wrapper_ok].
  - unfold is_wrapper in Hw. cbn [fragment_name] in Hw. by destruct (is_false c).
  - unfold is_wrapper in Hw. cbn [fragment_name] in Hw. destruct (is_false r) eqn:Er.
    + pose proof (wf_false_eq r ltac:(done) Er) as ->. destruct (is_false l) eqn:El.
      * pose proof (wf_false_eq l ltac:(done) El) as ->.
        eapply (wrapper_reads_back _ ms_FALSE); [reflexivity|reflexivity|reflexivity|done|by eapply wrapper_ok].
      * eapply (wrapper_reads_back _ l); [reflexivity| |reflexivity|done|by eapply wrapper_ok].
        unfold children, as_node, DisplayNode_TreeLike. cbn [ty node]. by rewrite El.
    + destruct (is_false l) eqn:El; [|done]. pose proof (wf_false_eq l ltac:(done) El) as ->.
      eapply (wrapper_reads_back _ r "l"%byte); [|reflexivity| |done|by eapply wrapper_ok];
        unfold is_wrapper; cbn [node fragment_name]; by rewrite Er.
Qed.

(** The other fragments with children. *)
Lemma combined_reads_back ms :
  wf ctx ms -> Forall child_ok (children ms) -> children ms <> [] -> is_wrapper (node ms) = false ->
  node_writable (node ms) -> ast ctx (node ms) = Some ms -> reads_back ms.
Proof.
  intros Hwf Hsub Hne Hw Hwr Hast. destruct (wf_inv _ _ Hwf) as (_ & Hv & Hty & _). rewrite children_node in Hsub, Hne.
  destruct ms as [nd t e]. cbn [node ty] in *.
  destruct nd; try done; cbn [terminal_children terminal_as_node] in Hsub;
    try (repeat match goal with H : Forall _ (_ :: _) |- _ => apply Forall_cons_1 in H as [? H] end);
    cbn [node_valid] in Hv.
  - as_fragment F_inscribe_pre. apply read_inscribe_ok; try done. by left.
  - as_fragment F_inscribe_post. apply read_inscribe_ok; try done. by right.
  - destruct sub as [snd st se]. unfold is_wrapper in Hw. cbn [fragment_name Ast.node] in Hw.
    assert (wf ctx (mkMiniscript snd st se)) as Hs by apply H.
    destruct snd; try done.
    + as_fragment F_pk. cbn [Ast.node map]. erewrite read_leaf by (first [eapply Pk_written | reflexivity]). cbn [mbind option_bind]. unfold ms_pk.
      replace (ms_pk_k ctx pk) with (mkMiniscript (Terminal.PkK pk) st se) by (by_annotations Hs). by apply checked_node.
    + as_fragment F_pkh. cbn [Ast.node map]. erewrite read_leaf by (first [eapply Pk_written | reflexivity]). cbn [mbind option_bind]. unfold ms_pkh.
      replace (ms_pk_h ctx pk) with (mkMiniscript (Terminal.PkH pk) st se) by (by_annotations Hs). by apply checked_node.
    + by apply raw_pkh_not_read in H.
  - unfold is_wrapper in Hw. cbn [fragment_name] in Hw. destruct (is_true r) eqn:Er; [done|].
    apply (fragment_reads_back _ F_and_v); unfold is_wrapper; cbn [node fragment_name ty]; rewrite ?Er; try done.
    unfold children, as_node, DisplayNode_TreeLike. rewrite Er. by apply read_binary_ok.
  - as_fragment F_and_b. by apply read_binary_ok.
  - unfold is_wrapper in Hw. cbn [fragment_name] in Hw. destruct (is_false c) eqn:Ec.
    + apply (fragment_reads_back _ F_and_n); unfold is_wrapper; cbn [node fragment_name ty]; rewrite ?Ec; try done.
      unfold children, as_node, DisplayNode_TreeLike. rewrite Ec. apply read_binary_ok; try done.
      pose proof (wf_false_eq c ltac:(apply H1) Ec) as ->. done.
    + apply (fragment_reads_back _ F_andor); unfold is_wrapper; cbn [node fragment_name ty]; rewrite ?Ec; try done.
      unfold children, as_node, DisplayNode_TreeLike. rewrite Ec. cbn [map read_fragment].
      destruct H as (_ & _ & ->), H0 as (_ & _ & ->), H1 as (_ & _ & ->). done.
  - as_fragment F_or_b. by apply read_binary_ok.
  - as_fragment F_or_d. by apply read_binary_ok.
  - as_fragment F_or_c. by apply read_binary_ok.
  - unfold is_wrapper in Hw. cbn [fragment_name] in Hw. destruct (is_false r) eqn:Er; [done|]. destruct (is_false l) eqn:El; [done|].
    apply (fragment_reads_back _ F_or_i); unfold is_wrapper; cbn [node fragment_name ty]; rewrite ?Er, ?El; try done.
    unfold children, as_node, DisplayNode_TreeLike. rewrite El, Er. by apply read_binary_ok.
  - as_fragment F_thresh. unfold nary_nodes. cbn [map tail]. unfold read_threshold.
    rewrite threshold_value_shown by done. rewrite read_subs by done. cbn [mbind option_bind].
    unfold Threshold.data. rewrite new_threshold by done. cbn [ok mbind option_bind]. exact Hast.
Qed.

Lemma read_back_all ms :
  wf ctx ms -> context_valid ctx ms -> height ms <= MAX_RECURSION_DEPTH -> writable ms -> child_ok ms.
Proof.
  induction ms as [ms IH] using Miniscript_tree_ind. intros Hwf Hctx Hh Hwr.
  destruct (wf_inv _ _ Hwf) as (Hwfs & _). destruct (context_valid_inv _ _ Hctx) as [_ Hctxs].
  destruct (writable_inv _ Hwr) as [Hw Hws].
  assert (Forall child_ok (children ms)) as Hsub.
  { rewrite List.Forall_forall in *. intros c Hc. apply IH; auto. rewrite height_eq in Hh.
    destruct (children ms) as [|c' cs]; [done|]. assert (height c <= list_max (map height (c' :: cs))) by (by apply list_max_in, in_map).
    cbn [map] in *. lia. }
  pose proof (ast_node _ Hwf Hh Hctx) as Hast.
  assert (reads_back ms) as Hr.
  { destruct (children ms) as [|c cs] eqn:Ec; [by apply leaf_reads_back|].
    destruct (is_wrapper (node ms)) eqn:Ew; [apply wrapped_reads_back|apply combined_reads_back]; rewrite ?Ec; done. }
  split; [done|]. split; [done|]. by apply reads_back_reading.
Qed.

(** Only round parentheses are written. *)
Lemma display_curly_free d : curly_free (expr_of d) = true.
Proof.
  unfold expr_of. assert (forall p : Parts, let '(w, n, k) := p in curly_free (expr_of_parts p) = forallb curly_free k) as Hp.
  { intros [[w n] k]. by destruct k. }
  assert (forallb curly_free (parts d).2 = true) as H; [|specialize (Hp (parts d)); destruct (parts d) as [[w n] k]; by rewrite Hp].
  induction d as [d IH] using tree_ind. rewrite parts_eq.
  destruct d as [t nd| | | | | | | | | | |]; try done. cbn [parts_step]. destruct (is_wrapper nd) eqn:Hw.
  - destruct (wrapper_child t nd Hw) as (sub & Hch & _). rewrite Hch in *. cbn [map]. apply Forall_cons_1 in IH as [Hsub _].
    by destruct (parts (display_child sub)) as [[w n] k].
  - cbn [snd]. rewrite List.map_map, forallb_forall. intros x (c & <- & Hc)%in_map_iff. rewrite List.Forall_forall in IH.
    specialize (IH c Hc). specialize (Hp (parts c)). destruct (parts c) as [[w n] k]. by rewrite Hp.
Qed.

Context {F : Bech32}.

(** C8: Writing a Miniscript as a string and parsing the string gives the Miniscript back:
    [Display] does not panic, and its text is accepted by [from_str_ext], for every
    well-typed Miniscript of base type B that satisfies the checks of its context, is less
    than 402 levels high, passes the sanity checks that the parameters do not waive, and
    has no raw key hash, no threshold value beyond 32 bits and only inscriptions as the
    parser of envelopes returns them. *)
Theorem display_round_trip ms params :
  wf ctx ms -> context_valid ctx ms -> c_base (corr (ty ms)) = BaseB -> ext_check ctx ms params = Ok () ->
  height ms < MAX_RECURSION_DEPTH -> writable ms ->
  exists s, to_string ms = Some s /\ from_str_ext ctx s params = Some (Ok ms).
Proof.
  intros Hwf Hctx Hb He Hh Hwr. exists (print (expr_of (display_child ms))). split; [apply to_string_print|].
  destruct (read_back_all ms Hwf Hctx ltac:(lia) Hwr) as (_ & _ & Hread).
  pose proof (display_text_expr ms) as Ht. pose proof (display_depth ms) as Hd.
  destruct (from_str_ext_print ctx (print (expr_of (display_child ms))) params (expr_of (display_child ms))) as (r & Hr & Hok).
  - by apply text_expr_wf.
  - by apply text_expr_checksum.
  - lia.
  - rewrite Hr. f_equal. apply ok_Some. rewrite Hok. unfold checked_denoted. rewrite (proj2 (denoted_spec ctx _ ms)); [|split; [apply display_curly_free|by split]].
    cbn [mbind option_bind]. rewrite He, bool_decide_eq_true_2 by done. done.
Qed.
End ReadBack.

(** * Raw key hashes *)

Section RawKeyHash.
Context {B : Bitcoin} {Sc : Scripts} {K : MiniscriptKey} {St : Strings} {FK : FromStrKey} {Sh : Shows} {SL : ShowLaws FK Sh}.
Context {F : Bech32}.

(** A Miniscript with a raw key hash is written but not read back: [expr_raw_pkh(H)] is
    what [Display] writes for the hash inside the wrapper [c:], and the parser reads it as
    the hash without that wrapper, of base type K, which is an error at the top level. *)
Theorem raw_pkh_not_read_back ctx (h : hash160_Hash) params :
  exists ms s e, node ms = Terminal.Check (ms_expr_raw_pkh ctx h) /\ wf ctx ms /\ c_base (corr (ty ms)) = BaseB /\ to_string ms = Some s
    /\ from_str_ext ctx s params = Some (Err e).
Proof.
  destruct (checked (ms_expr_raw_pkh ctx h)) as [ms|] eqn:E; [|done].
  assert (wf ctx ms) as Hwf by (eapply checked_wf; [|exact E]; by constructor).
  assert (exists t e, ms = mkMiniscript (Terminal.Check (ms_expr_raw_pkh ctx h)) t e /\ c_base (corr t) = BaseB) as (t & x & -> & Hbase)
    by (injection E as <-; by eexists _, _). clear E.
  eexists (mkMiniscript (Terminal.Check (ms_expr_raw_pkh ctx h)) t x), _. pose proof (display_text_expr (mkMiniscript (Terminal.Check (ms_expr_raw_pkh ctx h)) t x)) as Ht.
  destruct (from_str_ext_print ctx _ params _ (text_expr_wf _ Ht) (text_expr_checksum _ Ht)) as (r & Hr & Hok).
  { etransitivity; [apply display_depth|]. unfold height, MAX_RECURSION_DEPTH. cbn. lia. }
  assert (exists e, r = Err e) as [e ->]; [|exists e; split; [done|]; split; [exact Hwf|]; split; [done|]; split; [apply to_string_print|exact Hr]].
  destruct r as [ms|e]; [|by exists e]. exfalso. cbn [ok] in Hok. symmetry in Hok.
  apply bind_Some in Hok as (m & (_ & Hread & _)%denoted_spec & Hm).
  assert (m = ms_expr_raw_pkh ctx h) as ->; [|by rewrite bool_decide_eq_false_2, andb_false_r in Hm].
  revert Hread. unfold expr_of. rewrite parts_eq. unfold display_child. cbn [parts_step].
  unfold children, as_node, DisplayNode_TreeLike. cbn [Ast.node ty ms_expr_raw_pkh is_wrapper fragment_name andb negb length Nat.eqb map].
  rewrite leaf_parts by done. change (length (lit "expr_raw_pkh") =? 1) with false. cbn [expr_of_parts full_name reading mbind option_bind map].
  intros H. change (split_name (lit "expr_raw_pkh")) with (Some (@None str, lit "expr_raw_pkh")) in H. cbn [mbind option_bind] in H.
  change (arm (lit "expr_raw_pkh") fragments) with (Some F_expr_raw_pkh) in H. cbn [mbind option_bind read_fragment argument] in H.
  change (leaf_text (DRawKeyHash h)) with (hash160_display h) in H. rewrite (proj1 (hash160_written h)) in H.
  by injection H as <-.
Qed.
End RawKeyHash.

(** ** Witness *)

Lemma writable_dec {B : Bitcoin} {Sc : Scripts} {K : MiniscriptKey} ms :
  forallb (fun m => match node m with
                    | Terminal.RawPkH _ | Terminal.InscribePre _ _ | Terminal.InscribePost _ _ => false
                    | Terminal.Thresh thresh => (N.of_nat (Threshold.k thresh) <? 2 ^ 32)%N
                    | _ => true
                    end) (pre_order ms) = true -> writable ms.
Proof.
  intros H. apply List.Forall_forall. intros m Hm. rewrite forallb_forall in H. specialize (H m Hm).
  unfold node_writable. destruct (node m); try done. by apply N.ltb_lt.
Qed.

(** [thresh(2,pk(A),s:pk(B),s:pk(C))] *)
Lemma display_round_trip_witness :
  exists s, to_string (sample_thresh Segwitv0) = Some s
    /\ from_str_ext Segwitv0 s sane = Some (Ok (sample_thresh Segwitv0)).
Proof.
  apply (display_round_trip (SL := reference_show_laws) Segwitv0 (sample_thresh Segwitv0) sane).
  - exact sample_thresh_wf.
  - exact sample_thresh_valid.
  - reflexivity.
  - vm_compute. reflexivity.
  - apply (proj1 (Nat.ltb_lt _ _)). vm_compute. reflexivity.
  - apply writable_dec. vm_compute. reflexivity.
Defined.

Lemma raw_pkh_not_read_back_witness :
  exists ms s e, node ms = Terminal.Check (ms_expr_raw_pkh Tap (Reference.of_list 20 [])) /\ wf Tap ms /\ c_base (corr (ty ms)) = BaseB
    /\ to_string ms = Some s /\ from_str_ext Tap s sane = Some (Err e).
Proof. exact (raw_pkh_not_read_back (SL := reference_show_laws) Tap (Reference.of_list 20 []) sane). Defined.

(** ** The bound on the height is tight *)

(** [or_i(...or_i(or_i(X,1),1)...,1)] *)
Definition or_one (ms : Miniscript) : Terminal Miniscript := Terminal.OrI ms (build Segwitv0 Terminal.True).

Fixpoint grow (n : nat) (ms : Miniscript) : Miniscript :=
  match n with 0 => ms | S n => grow n (build Segwitv0 (or_one ms)) end.

Fixpoint grows (n : nat) (ms : Miniscript) : bool :=
  match n with 0 => true | S n => is_ok (from_ast Segwitv0 (or_one ms)) && grows n (build Segwitv0 (or_one ms)) end.

Lemma grow_wf n : forall ms, wf Segwitv0 ms -> grows n ms = true -> wf Segwitv0 (grow n ms).
Proof.
  induction n as [|n IH]; intros ms Hms H; [done|]. apply andb_true_iff in H as [H Hn]. apply IH; [|done].
  apply build_wf; [done| |done]. constructor; [done|]. constructor; [prove_wf|constructor].
Qed.

Definition deepest : Miniscript := grow 402 (build Segwitv0 (Terminal.After after_500)).

Lemma deepest_wf : wf Segwitv0 deepest.
Proof. apply grow_wf; [prove_wf|vm_compute; reflexivity]. Qed.

Lemma too_deep ms params :
  depth (expr_of (display_child ms)) = 403 ->
  exists s, to_string ms = Some s
    /\ from_str_ext Segwitv0 s params = Some (Err (Parse (ParseTree (MaxRecursionDepthExceeded 403 MAX_RECURSION_DEPTH)))).
Proof.
  intros Hd. exists (print (expr_of (display_child ms))). split; [apply to_string_print|].
  pose proof (display_text_expr ms) as Ht. unfold from_str_ext, Expr.from_str.
  by rewrite (from_str_print _ _ (text_expr_wf _ Ht) (text_expr_checksum _ Ht)), Hd.
Qed.

(** The highest trees that the checked constructors build may be nested too deep for the
    parser of expressions, which counts the arguments of leaves as a level. *)
Lemma deepest_not_read_back :
  wf Segwitv0 deepest /\ context_valid Segwitv0 deepest /\ height deepest = MAX_RECURSION_DEPTH
  /\ exists s, to_string deepest = Some s
       /\ from_str_ext Segwitv0 s allow_all
          = Some (Err (Parse (ParseTree (MaxRecursionDepthExceeded 403 MAX_RECURSION_DEPTH)))).
Proof.
  split; [exact deepest_wf|]. split; [apply context_valid_dec; vm_compute; reflexivity|]. split; [vm_compute; reflexivity|].
  apply too_deep. vm_compute. reflexivity.
Qed.
