(* ===== verification/Concrete.v ===== *)
(** Concrete policies (src/src/policy/concrete.rs and [Liftable for Concrete] of
    src/src/policy/mod.rs): the type [Policy] whose disjunctions carry odds, the loops over
    its nodes with their stacks, the checks, translation of keys and lifting. *)
From S2P Require Import Prelude Bitcoin Primitives Ord ExtData Tree StackLoop Translate Semantic.

Module Concrete.

(** [Policy<Pk>]; the odds are [usize]. *)
#[warnings="-register-all"]
Inductive Policy {B : Bitcoin} {K : MiniscriptKey} : Type :=
| Unsatisfiable
| Trivial
| Key (pk : Pk)
| After (t : AbsLockTime)
| Older (t : RelLockTime)
| Sha256 (h : Primitives.Sha256)
| Hash256 (h : Primitives.Hash256)
| Ripemd160 (h : Primitives.Ripemd160)
| Hash160 (h : Primitives.Hash160)
| TxTemplate (h : sha256_Hash)
| Inscribe (i : Inscription) (sub : Policy)
| And (subs : list Policy)
| Or (subs : list (N * Policy))
| Thresh (thresh : Threshold Policy).

(** [PolicyError] *)
Inductive PolicyError : Type :=
| HeightTimelockCombination
| DuplicatePubKeys
| InvalidInscription.

(** The variants of [CompilerError] that the checks before a compilation return. *)
Inductive CompilerError : Type :=
| TopLevelNonSafe
| ImpossibleNonMalleableCompilation
| NonBinaryArgAnd
| NonBinaryArgOr
| TooManyTapleaves (n max : N)
| NoInternalKey
| ErrPolicy (e : PolicyError).

Section Policies.
Context {B : Bitcoin} {K : MiniscriptKey}.

(** [TreeLike for &Policy] *)
#[export] Instance Policy_TreeLike : TreeLike Policy := fun self =>
  match self with
  | Unsatisfiable | Trivial | Key _ | After _ | Older _ | Sha256 _ | Hash256 _
  | Ripemd160 _ | Hash160 _ | TxTemplate _ => Nullary
  | Inscribe _ sub => Unary sub
  | And subs => Nary subs
  | Or subs => Nary (map snd subs)
  | Thresh thresh => Nary (Threshold.data thresh)
  end.

Fixpoint policy_fold {A} (f : Policy -> list A -> A) (p : Policy) : A :=
  f p
    (match p with
     | Inscribe _ sub => [policy_fold f sub]
     | And l => map (policy_fold f) l
     | Or l => map (fun '(_, sub) => policy_fold f sub) l
     | Thresh (Threshold.mkThreshold _ l) => map (policy_fold f) l
     | _ => []
     end).

Lemma concrete_fold_eq {A} (f : Policy -> list A -> A) p :
  policy_fold f p = f p (map (policy_fold f) (children p)).
Proof.
  destruct p as [| | | | | | | | | | | |subs|[k l]]; try reflexivity.
  cbn. f_equal. rewrite map_map. apply map_ext. by intros [].
Qed.

Lemma Concrete_tree_ind (P : Policy -> Prop) :
  (forall p, Forall P (children p) -> P p) -> forall p, P p.
Proof.
  intros H. fix IH 1. intros p.
  pose (go := fix go (l : list Policy) : Forall P l :=
    match l with
    | [] => Forall_nil_2 _
    | x :: l => Forall_cons_2 _ _ _ (IH x) (go l)
    end).
  apply H. destruct p as [| | | | | | | | | |i sub|l|l|[k l]]; cbn.
  all: try exact (Forall_nil_2 _).
  - exact (Forall_cons_2 _ _ _ (IH _) (Forall_nil_2 _)).
  - exact (go l).
  - exact ((fix gop (l : list (N * Policy)) : Forall P (map snd l) :=
              match l with
              | [] => Forall_nil_2 _
              | (_, x) :: l => Forall_cons_2 _ _ _ (IH x) (gop l)
              end) l).
  - exact (go l).
Qed.

#[export] Instance Policy_WfTree : WfTree Policy := {|
  tree_fold := @policy_fold;
  tree_fold_eq := @concrete_fold_eq;
  tree_ind := Concrete_tree_ind;
|}.

(** The policies without branches. *)
Definition is_leaf (p : Policy) : bool :=
  match p with Inscribe _ _ | And _ | Or _ | Thresh _ => false | _ => true end.

Lemma concrete_ind (P : Policy -> Prop) :
  (forall p, is_leaf p = true -> P p) ->
  (forall i sub, P sub -> P (Inscribe i sub)) ->
  (forall l, Forall P l -> P (And l)) ->
  (forall l, Forall (fun s => P s.2) l -> P (Or l)) ->
  (forall k l, Forall P l -> P (Thresh (mkThreshold k l))) ->
  forall p, P p.
Proof.
  intros Hleaf Hins Hand Hor Hth. induction p as [p IH] using Concrete_tree_ind.
  destruct p as [| | | | | | | | | |i sub|l|l|[k l]]; try by apply Hleaf.
  - apply Hins. by apply Forall_cons_1 in IH as [? _].
  - by apply Hand.
  - apply Hor. change (Forall P (map snd l)) in IH. rewrite List.Forall_map in IH. exact IH.
  - by apply Hth.
Qed.

(** The binary conjunctions and disjunctions, with checked thresholds: the policies that the
    parser builds. *)
Inductive valid : Policy -> Prop :=
| valid_leaf p : is_leaf p = true -> valid p
| valid_inscribe i sub : valid sub -> valid (Inscribe i sub)
| valid_and a b : valid a -> valid b -> valid (And [a; b])
| valid_or n a m b : valid a -> valid b -> valid (Or [(n, a); (m, b)])
| valid_thresh k l : 1 <= k <= length l -> Forall valid l -> valid (Thresh (mkThreshold k l)).

(** ** Keys *)

(** [for_each_key] *)
Definition for_each_key (pred : Pk -> bool) (self : Policy) : bool :=
  forallb (fun policy => match policy with Key pk => pred pk | _ => true end) (pre_order self).

Definition keys (self : Policy) : list Pk :=
  omap (fun policy => match policy with Key pk => Some pk | _ => None end) (pre_order self).

(** The number of different keys is that of a [BTreeSet]. *)
Definition check_duplicate_keys (self : Policy) : result PolicyError () :=
  let pks := keys self in
  let pks_len := length pks in
  let unique_pks_len := length (remove_dups pks) in
  if unique_pks_len <? pks_len then Err DuplicatePubKeys else Ok ().

(** ** Lock times *)

(** One turn of the loop of [timelock_info]. *)
Definition timelock_step (node : Policy) (infos : list TimelockInfo)
  : option (TimelockInfo * list TimelockInfo) :=
  match node with
  | After t => Some (mkTimelockInfo false false (is_block_height t) (is_block_time t) false, infos)
  | Older t => Some (mkTimelockInfo (is_height_locked t) (is_time_locked t) false false false, infos)
  | And subs =>
      '(iter, infos) ← pop_n (length subs) infos;
      Some (Timelock.combine_threshold (length subs) iter, infos)
  | Or subs =>
      '(iter, infos) ← pop_n (length subs) infos; Some (Timelock.combine_threshold 1 iter, infos)
  | Thresh thresh =>
      '(iter, infos) ← pop_n (Threshold.n thresh) infos;
      Some (Timelock.combine_threshold (Threshold.k thresh) iter, infos)
  | Inscribe _ _ => pop infos
  | _ => Some (Timelock.new, infos)
  end.

Definition timelock_info (self : Policy) : option TimelockInfo := stack_root timelock_step self.

Definition check_timelocks (self : Policy) : option (result PolicyError ()) :=
  aggregated_timelock_info ← timelock_info self;
  Some (if contains_combination aggregated_timelock_info then Err HeightTimelockCombination else Ok ()).

(** ** Validity *)

Fixpoint check_inscriptions (nodes : list Policy) : result PolicyError () :=
  match nodes with
  | [] => Ok ()
  | node :: nodes =>
      match node with
      | Inscribe i _ => if validate i then check_inscriptions nodes else Err InvalidInscription
      | _ => check_inscriptions nodes
      end
  end.

Definition is_valid (self : Policy) : option (result PolicyError ()) :=
  match check_inscriptions (pre_order self) with
  | Err e => Some (Err e)
  | Ok _ =>
      r ← check_timelocks self;
      Some (_ ← r; _ ← check_duplicate_keys self; Ok ())
  end.

(** One turn of the loop of [is_safe_nonmalleable]; the folds over the children are those of
    the code. The subtraction of [usize] is guarded by [Threshold]. *)
Definition safe_step (node : Policy) (acc : list (bool * bool)) : option ((bool * bool) * list (bool * bool)) :=
  match node with
  | Unsatisfiable | Trivial | Key _ | TxTemplate _ => Some ((true, true), acc)
  | Inscribe _ _ => pop acc
  | Sha256 _ | Hash256 _ | Ripemd160 _ | Hash160 _ | After _ | Older _ => Some ((false, true), acc)
  | And subs =>
      '(l, acc) ← pop_n (length subs) acc;
      let '(atleast_one_safe, all_non_mall) :=
        fold_left (fun a (x : bool * bool) => (a.1 || x.1, a.2 && x.2)) l (false, true) in
      Some ((atleast_one_safe, all_non_mall), acc)
  | Or subs =>
      '(l, acc) ← pop_n (length subs) acc;
      let '(all_safe, atleast_one_safe, all_non_mall) :=
        fold_left (fun '(all_safe, atleast_one_safe, all_non_mall) (x : bool * bool) =>
                     (all_safe && x.1, atleast_one_safe || x.1, all_non_mall && x.2))
          l (true, false, true) in
      Some ((all_safe, atleast_one_safe && all_non_mall), acc)
  | Thresh thresh =>
      '(l, acc) ← pop_n (Threshold.n thresh) acc;
      let '(safe_count, non_mall_count) :=
        fold_left (fun '(safe_count, non_mall_count) '(safe, non_mall) =>
                     (safe_count + Nat.b2n safe, non_mall_count + Nat.b2n non_mall)) l (0, 0) in
      let n := Threshold.n thresh in
      let k := Threshold.k thresh in
      if n <? k then None
      else Some ((n - k + 1 <=? safe_count, (non_mall_count =? n) && (n - k <=? safe_count)), acc)
  end.

Definition is_safe_nonmalleable (self : Policy) : option (bool * bool) := stack_root safe_step self.

Fixpoint check_binary_ops_in (nodes : list Policy) : result CompilerError () :=
  match nodes with
  | [] => Ok ()
  | node :: nodes =>
      match node with
      | And subs => if negb (length subs =? 2) then Err NonBinaryArgAnd else check_binary_ops_in nodes
      | Or subs => if negb (length subs =? 2) then Err NonBinaryArgOr else check_binary_ops_in nodes
      | _ => check_binary_ops_in nodes
      end
  end.

Definition check_binary_ops (self : Policy) : result CompilerError () := check_binary_ops_in (pre_order self).

(** The checks with which [compile], [compile_tr] and [compile_to_descriptor] start. *)
Definition compile_checks (self : Policy) : option (result CompilerError ()) :=
  valid ← is_valid self;
  match map_err ErrPolicy valid, check_binary_ops self with
  | Err e, _ | _, Err e => Some (Err e)
  | Ok _, Ok _ =>
      safe_nonmall ← is_safe_nonmalleable self;
      match safe_nonmall with
      | (false, _) => Some (Err TopLevelNonSafe)
      | (_, false) => Some (Err ImpossibleNonMalleableCompilation)
      | _ => Some (Ok ())
      end
  end.

(** ** Lifting *)

Definition unwrap_threshold (k : nat) (subs : list Semantic.Policy) : option Semantic.Policy :=
  match Threshold.new 0 k subs with Ok t => Some (Semantic.Thresh t) | Err _ => None end.

(** [collect()] of an iterator into a [Result] of a vector: the first error ends it. *)
Fixpoint try_collect {E A} (l : list (option (result E A))) : option (result E (list A)) :=
  match l with
  | [] => Some (Ok [])
  | r :: l =>
      r ← r;
      match r with
      | Err e => Some (Err e)
      | Ok a => l ← try_collect l; Some (l ← l; Ok (a :: l))
      end
  end.

(** [Liftable::lift]; the only error is that of [check_timelocks]. [None] is a panic. *)
Fixpoint lift (self : Policy) : option (result PolicyError Semantic.Policy) :=
  let normalize (p : Semantic.Policy) := p ← Semantic.normalized p; Some (Ok p) in
  r ← check_timelocks self;
  match r with
  | Err e => Some (Err e)
  | Ok _ =>
      match self with
      | Unsatisfiable => normalize Semantic.Unsatisfiable
      | Trivial => normalize Semantic.Trivial
      | Key pk => normalize (Semantic.Key pk)
      | After t => normalize (Semantic.After t)
      | Older t => normalize (Semantic.Older t)
      | Sha256 h => normalize (Semantic.Sha256 h)
      | Hash256 h => normalize (Semantic.Hash256 h)
      | Ripemd160 h => normalize (Semantic.Ripemd160 h)
      | Hash160 h => normalize (Semantic.Hash160 h)
      | TxTemplate h => normalize (Semantic.TxTemplate h)
      | Inscribe i sub =>
          sub ← lift sub;
          match sub with Err e => Some (Err e) | Ok sub => normalize (Semantic.Inscribe i sub) end
      | And subs =>
          semantic_subs ← try_collect (map lift subs);
          match semantic_subs with
          | Err e => Some (Err e)
          | Ok semantic_subs => p ← unwrap_threshold 2 semantic_subs; normalize p
          end
      | Or subs =>
          semantic_subs ← try_collect (map (fun '(_, sub) => lift sub) subs);
          match semantic_subs with
          | Err e => Some (Err e)
          | Ok semantic_subs => p ← unwrap_threshold 1 semantic_subs; normalize p
          end
      | Thresh (Threshold.mkThreshold k l) =>
          semantic_subs ← try_collect (map lift l);
          match semantic_subs with
          | Err e => Some (Err e)
          | Ok semantic_subs => normalize (Semantic.Thresh (mkThreshold k semantic_subs))
          end
      end
  end.

(** ** Extraction of the internal key *)

(** One turn of the loop of [translate_unsatisfiable_pk]. *)
Definition unsatisfiable_pk_step (key : Pk) (node : Policy) (translated : list Policy)
  : option (Policy * list Policy) :=
  match node with
  | Key k => Some (if bool_decide (k = key) then Unsatisfiable else Key k, translated)
  | Inscribe i _ => '(sub, translated) ← pop translated; Some (Inscribe i sub, translated)
  | And subs => '(subs, translated) ← pop_n (length subs) translated; Some (And subs, translated)
  | Or subs =>
      '(subs', translated) ← pop_n (length subs) translated;
      Some (Or (zip (map fst subs) subs'), translated)
  | Thresh thresh =>
      '(subs, translated) ← pop_n (Threshold.n thresh) translated;
      Some (Thresh (mkThreshold (Threshold.k thresh) subs), translated)
  | leaf => Some (leaf, translated)
  end.

Definition translate_unsatisfiable_pk (self : Policy) (key : Pk) : option Policy :=
  stack_root (unsatisfiable_pk_step key) self.
End Policies.

(** ** Translation of keys *)

Section Translation.
Context {B : Bitcoin} {P Q : MiniscriptKey} {E : Type}.

Definition translate_step (t : Translator P Q E) (node : Policy (K := P)) (translated : list (Policy (K := Q)))
  : option (result E (Policy (K := Q)) * list (Policy (K := Q))) :=
  match node with
  | Unsatisfiable => Some (Ok Unsatisfiable, translated)
  | Trivial => Some (Ok Trivial, translated)
  | Key pk => Some (pk ← tr_pk t pk; Ok (Key pk), translated)
  | Sha256 h => Some (h ← tr_sha256 t h; Ok (Sha256 h), translated)
  | Hash256 h => Some (h ← tr_hash256 t h; Ok (Hash256 h), translated)
  | Ripemd160 h => Some (h ← tr_ripemd160 t h; Ok (Ripemd160 h), translated)
  | Hash160 h => Some (h ← tr_hash160 t h; Ok (Hash160 h), translated)
  | TxTemplate h => Some (Ok (TxTemplate h), translated)
  | Inscribe i _ => '(sub, translated) ← pop translated; Some (Ok (Inscribe i sub), translated)
  | Older n => Some (Ok (Older n), translated)
  | After n => Some (Ok (After n), translated)
  | And subs => '(subs, translated) ← pop_n (length subs) translated; Some (Ok (And subs), translated)
  | Or subs =>
      '(subs', translated) ← pop_n (length subs) translated;
      Some (Ok (Or (zip (map fst subs) subs')), translated)
  | Thresh thresh =>
      '(subs, translated) ← pop_n (Threshold.n thresh) translated;
      Some (Ok (Thresh (mkThreshold (Threshold.k thresh) subs)), translated)
  end.

Definition translate_pk (self : Policy (K := P)) (t : Translator P Q E) : option (result E (Policy (K := Q))) :=
  try_root (translate_step t) self.
End Translation.
End Concrete.
