(* ===== verification/ConcreteProps.v ===== *)
(** What the checks of concrete policies decide, in terms of the ways to satisfy a policy:
    the lists of leaves that a choice of branches leads to. *)
From S2P Require Import Prelude Bitcoin Primitives Reference Ord ExtData Tree StackLoop Translate Semantic PolicyNormal Concrete.
Import Concrete.

(** * Sublists of a given length *)

Lemma sublist_count {A} (f : A -> bool) c l :
  sublist c l -> Forall (fun a => f a = true) c -> length c <= count_if f l.
Proof.
  induction 1 as [|a c l _ IH|a c l _ IH]; intros Hc; rewrite ?count_if_cons; [done| |].
  - apply Forall_cons_1 in Hc as [-> Hc]. cbn. specialize (IH Hc). lia.
  - specialize (IH Hc). lia.
Qed.

Lemma count_sublist {A} (f : A -> bool) k l :
  k <= count_if f l -> exists c, sublist c l /\ length c = k /\ Forall (fun a => f a = true) c.
Proof.
  revert k. induction l as [|a l IH]; intros k Hk.
  - exists []. unfold count_if, sum_by in Hk. cbn in Hk. repeat split; [constructor|cbn; lia|constructor].
  - rewrite count_if_cons in Hk. destruct (f a) eqn:E, k as [|k].
    + destruct (IH 0) as (c & H1 & H2 & H3); [lia|]. exists c. repeat split; try done. by constructor.
    + destruct (IH k) as (c & H1 & H2 & H3); [cbn in Hk; lia|].
      exists (a :: c). repeat split; [by constructor|cbn; lia|by constructor].
    + destruct (IH 0) as (c & H1 & H2 & H3); [lia|]. exists c. repeat split; try done. by constructor.
    + destruct (IH (S k)) as (c & H1 & H2 & H3); [done|]. exists c. repeat split; try done. by constructor.
Qed.

(** A sublist can be extended to any length up to that of the list. *)
Lemma sublist_extend {A} (c l : list A) k :
  sublist c l -> length c <= k <= length l ->
  exists c', sublist c c' /\ sublist c' l /\ length c' = k.
Proof.
  intros H. revert k. induction H as [|a c l H IH|a c l H IH]; intros k Hk; cbn in Hk.
  - exists []. repeat split; [constructor|constructor|cbn; lia].
  - destruct k as [|k]; [lia|]. destruct (IH k) as (c' & H1 & H2 & H3); [lia|].
    exists (a :: c'). repeat split; [by constructor|by constructor|cbn; lia].
  - destruct (decide (k <= length l)) as [Hl|Hl].
    + destruct (IH k) as (c' & H1 & H2 & H3); [lia|]. exists c'. repeat split; try done. by constructor.
    + exists (a :: l). repeat split; [by constructor|done|cbn; lia].
Qed.

Lemma count_if_negb {A} (f : A -> bool) l : count_if f l + count_if (fun a => negb (f a)) l = length l.
Proof.
  induction l as [|a l IH]; [done|]. rewrite !count_if_cons. cbn. destruct (f a); cbn; lia.
Qed.

Lemma sublist_In {A} (c l : list A) x : sublist c l -> x ∈ c -> x ∈ l.
Proof. induction 1; rewrite ?list.elem_of_cons; intuition. Qed.

Lemma sublist_single {A} (x : A) l : x ∈ l -> sublist [x] l.
Proof. induction 1; constructor; [apply sublist_nil_l|done]. Qed.

Section Props.
Context {B : Bitcoin} {K : MiniscriptKey}.

(** * Selections *)

(** How many branches a node needs. *)
Definition quota (p : Policy) : nat :=
  match p with
  | Inscribe _ _ | Or _ => 1
  | And subs => length subs
  | Thresh thresh => Threshold.k thresh
  | _ => 0
  end.

(** The leaves that remain when every node picks as many branches as it needs. *)
#[warnings="-register-all"]
Inductive selects : Policy -> list Policy -> Prop :=
| select_leaf p : is_leaf p = true -> selects p [p]
| select_branches p chosen ss :
    is_leaf p = false -> sublist chosen (children p) -> length chosen = quota p ->
    Forall2 selects chosen ss -> selects p (concat ss).

Lemma selects_leaf_inv p s : is_leaf p = true -> selects p s -> s = [p].
Proof. intros Hp H. destruct H; [done|congruence]. Qed.

Lemma selects_branches_inv p s : is_leaf p = false -> selects p s ->
  exists chosen ss, sublist chosen (children p) /\ length chosen = quota p /\ Forall2 selects chosen ss /\ s = concat ss.
Proof. intros Hp H. destruct H as [|p chosen ss]; [congruence|]. by exists chosen, ss. Qed.

(** The meaning of a policy, with the constraints that a valuation meets. *)
Definition leaf_of (p : Policy) : Semantic.Policy :=
  match p with
  | Trivial => Semantic.Trivial
  | Key pk => Semantic.Key pk
  | After t => Semantic.After t
  | Older t => Semantic.Older t
  | Sha256 h => Semantic.Sha256 h
  | Hash256 h => Semantic.Hash256 h
  | Ripemd160 h => Semantic.Ripemd160 h
  | Hash160 h => Semantic.Hash160 h
  | TxTemplate h => Semantic.TxTemplate h
  | _ => Semantic.Unsatisfiable
  end.

Definition meets (v : valuation) (leaf : Policy) : bool := PolicyNormal.holds v (leaf_of leaf).

(** As many branches as needed are satisfied. *)
Definition satisfied (v : valuation) : Policy -> bool :=
  tree_fold (fun p subs => if is_leaf p then meets v p else quota p <=? count_if id subs).

Lemma satisfied_eq v p :
  satisfied v p = if is_leaf p then meets v p else quota p <=? count_if (satisfied v) (children p).
Proof. unfold satisfied at 1. rewrite tree_fold_eq. fold (satisfied v). by rewrite count_if_map. Qed.

Definition thresholds_ok (p : Policy) : Prop :=
  Forall (fun q => match q with Thresh thresh => Threshold.valid 0 thresh | _ => True end) (pre_order p).

Definition binary (p : Policy) : Prop :=
  Forall (fun q => match q with And subs => length subs = 2 | Or subs => length subs = 2 | _ => True end) (pre_order p).

Lemma valid_eq p : valid p <->
  (match p with
   | And subs => length subs = 2
   | Or subs => length subs = 2
   | Thresh thresh => Threshold.valid 0 thresh
   | _ => True
   end) /\ Forall valid (children p).
Proof.
  split.
  - intros [q Hq|i sub Hs|a b Ha Hb|n a m b Ha Hb|k l Hk Hl]; cbn.
    + by destruct q.
    + split; [done|]. by repeat first [apply Forall_cons_2 | apply Forall_nil_2].
    + split; [done|]. by repeat first [apply Forall_cons_2 | apply Forall_nil_2].
    + split; [done|]. by repeat first [apply Forall_cons_2 | apply Forall_nil_2].
    + split; [|done]. split; [done|by left].
  - intros [H Hc]. destruct p as [| | | | | | | | | |i sub|l|l|[k l]]; try by apply valid_leaf.
    + apply valid_inscribe. by apply Forall_cons_1 in Hc as [? _].
    + destruct l as [|a [|b [|]]]; try done. apply Forall_cons_1 in Hc as [? [? _]%Forall_cons_1]. by apply valid_and.
    + destruct l as [|[n a] [|[m b] [|]]]; try done. apply Forall_cons_1 in Hc as [? [? _]%Forall_cons_1]. by apply valid_or.
    + apply valid_thresh; [by destruct H|done].
Qed.

(** The two invariants together. *)
Lemma valid_spec p : valid p <-> thresholds_ok p /\ binary p.
Proof.
  induction p as [p IH] using tree_ind. rewrite valid_eq. unfold thresholds_ok, binary.
  rewrite !(Forall_pre_order _ p).
  assert (Forall valid (children p) <-> Forall thresholds_ok (children p) /\ Forall binary (children p)) as ->.
  { induction IH as [|c l Hc _ IHl]; [by repeat split|]. rewrite !list.Forall_cons, Hc, IHl. tauto. }
  unfold thresholds_ok, binary. destruct p; tauto.
Qed.

(** The numbers of a node that has branches. *)
Lemma valid_quota p : valid p -> is_leaf p = false -> 1 <= quota p <= length (children p).
Proof.
  intros [H _]%valid_eq Hp. destruct p as [| | | | | | | | | |i sub|l|l|[k l]]; try done; cbn in H |- *; unfold children; cbn;
    rewrite ?length_map; try lia.
  by destruct H.
Qed.

Lemma valid_children p : valid p -> Forall valid (children p).
Proof. by intros [_ H]%valid_eq. Qed.

(** Selections exist, one branch or two of them at will. *)
Lemma Forall2_exists {A C} (R : A -> C -> Prop) l : Forall (fun a => exists c, R a c) l -> exists k, Forall2 R l k.
Proof. induction 1 as [|a l [c Hc] _ [k Hk]]; [by exists []|]. exists (c :: k). by constructor. Qed.

Lemma selects_exists p : valid p -> exists s, selects p s.
Proof.
  induction p as [p IH] using tree_ind. intros Hp. destruct (is_leaf p) eqn:E; [exists [p]; by constructor|].
  destruct (sublist_extend [] (children p) (quota p)) as (c & _ & Hc & Hk).
  { apply sublist_nil_l. } { pose proof (valid_quota p Hp E). cbn. lia. }
  destruct (Forall2_exists selects c) as [ss Hss]; [|exists (concat ss); by eapply select_branches].
  apply list.Forall_forall. intros x Hx%(sublist_In _ _ _ Hc). apply valid_children in Hp.
  rewrite list.Forall_forall in IH, Hp. auto.
Qed.

(** Selections of some branches are part of one of the node. *)
Lemma selects_extend p c ss : valid p -> is_leaf p = false ->
  sublist c (children p) -> length c <= quota p -> Forall2 selects c ss ->
  exists s, selects p s /\ forall x, x ∈ concat ss -> x ∈ s.
Proof.
  intros Hp E Hc Hk Hss. pose proof (valid_quota p Hp E) as Hq.
  destruct (sublist_extend c (children p) (quota p)) as (c' & Hcc & Hc' & Hk'); [done|lia|].
  assert (Forall (fun a => exists s, selects a s) c') as Hex.
  { apply list.Forall_forall. intros x Hx%(sublist_In _ _ _ Hc'). apply selects_exists.
    apply valid_children in Hp. rewrite list.Forall_forall in Hp. auto. }
  assert (exists ss', Forall2 selects c' ss' /\ forall x, x ∈ concat ss -> x ∈ concat ss') as (ss' & Hss' & Hin).
  { clear Hc Hk Hc' Hk' Hq. revert ss Hss. induction Hcc as [|a c c' _ IH|a c c' _ IH]; intros ss Hss.
    - apply Forall2_nil_inv_l in Hss as ->. by exists [].
    - apply Forall2_cons_inv_l in Hss as (s & ss1 & Hs & Hss & ->). apply Forall_cons_1 in Hex as [_ Hex].
      destruct (IH Hex _ Hss) as (ss' & H1 & H2). exists (s :: ss'). split; [by constructor|].
      cbn. intros x. rewrite !elem_of_app. intuition.
    - apply Forall_cons_1 in Hex as [[s Hs] Hex]. destruct (IH Hex _ Hss) as (ss' & H1 & H2).
      exists (s :: ss'). split; [by constructor|]. cbn. intros x Hx. apply elem_of_app. auto. }
  exists (concat ss'). split; [by eapply select_branches|done].
Qed.

(** ** Selections and the meaning *)

Lemma satisfied_selects v p : satisfied v p = true <-> exists s, selects p s /\ Forall (fun q => meets v q = true) s.
Proof.
  induction p as [p IH] using tree_ind. rewrite satisfied_eq. destruct (is_leaf p) eqn:E.
  - split; [intros H; exists [p]; split; [by constructor|by repeat constructor]|].
    intros (s & ->%selects_leaf_inv & Hs); [|done]. by apply Forall_cons_1 in Hs as [? _].
  - rewrite Nat.leb_le. split.
    + intros (c & Hc & Hk & Hall)%count_sublist.
      destruct (Forall2_exists (fun x s => selects x s /\ Forall (fun q => meets v q = true) s) c) as [ss Hss].
      { rewrite list.Forall_forall in IH, Hall |- *. intros x Hx. apply IH; [by eapply sublist_In|auto]. }
      exists (concat ss). split.
      * eapply select_branches; [done|done|done|]. eapply list.Forall2_impl; [exact Hss|]. by intros ? ? [].
      * apply List.Forall_concat. clear -Hss. induction Hss as [|? ? ? ? [_ ?]]; by constructor.
    + intros (s & (c & ss & Hc & <- & Hss & ->)%selects_branches_inv & Hs); [|done].
      apply (sublist_count (satisfied v) _ _ Hc). rewrite List.Forall_concat in Hs.
      assert (Forall (fun x => x ∈ children p) c) as Hin.
      { apply list.Forall_forall. intros x. by apply sublist_In. }
      clear Hc. rewrite list.Forall_forall in IH. induction Hss as [|x s c ss Hx _ IHss]; [constructor|].
      apply Forall_cons_1 in Hs as [? ?]. apply Forall_cons_1 in Hin as [? ?]. constructor; [|by apply IHss].
      apply IH; [done|]. by exists s.
Qed.

(** * Safety *)

(** The leaves that the check counts as safe: a signature or a committed transaction is
    needed, or there is nothing to satisfy. *)
Definition signed (leaf : Policy) : bool :=
  match leaf with Unsatisfiable | Trivial | Key _ | TxTemplate _ => true | _ => false end.

Definition safe_node (p : Policy) (l : list (bool * bool)) : bool * bool :=
  if is_leaf p then (signed p, true)
  else let safe := count_if fst l in
       (length l <? quota p + safe, forallb snd l && (length l <=? quota p + safe)).

Definition safe_nonmall : Policy -> bool * bool := tree_fold safe_node.
Definition safe (p : Policy) : bool := fst (safe_nonmall p).

Lemma safe_nonmall_eq p : safe_nonmall p = safe_node p (map safe_nonmall (children p)).
Proof. unfold safe_nonmall at 1. by rewrite tree_fold_eq. Qed.

Lemma pop_n_exact {A} n (l rest : list A) : length l = n -> pop_n n (l ++ rest) = Some (l, rest).
Proof. intros <-. apply pop_n_app. Qed.

(** The fold of thresholds counts. *)
Lemma safe_fold l : forall a b,
  fold_left (fun '(safe_count, non_mall_count) '(safe, non_mall) =>
               (safe_count + Nat.b2n safe, non_mall_count + Nat.b2n non_mall)) l (a, b)
  = (a + count_if fst l, b + count_if snd l).
Proof.
  induction l as [|[x y] l IH]; intros a b; [unfold count_if, sum_by; cbn; by rewrite !Nat.add_0_r|].
  cbn [fold_left]. rewrite IH, !count_if_cons. cbn [fst snd]. by rewrite !Nat.add_assoc.
Qed.

Lemma safe_step_spec p subs rest :
  valid p -> length subs = length (children p) -> safe_step p (subs ++ rest) = Some (safe_node p subs, rest).
Proof.
  intros [H _]%valid_eq Hl. destruct p as [| | | | | | | | | |i sub|l|l|[k l]]; try (by destruct subs); cbn in H.
  - destruct subs as [|[a b] [|]]; try done. unfold safe_node. cbn. destruct a, b; done.
  - change (length subs = length l) in Hl. cbn [safe_step]. rewrite pop_n_exact by done. cbn [mbind option_bind].
    destruct subs as [|[a b] [|[c d] [|]]]; cbn in Hl; try lia. unfold safe_node. cbn. rewrite <- Hl. destruct a, b, c, d; done.
  - change (length subs = length (map snd l)) in Hl. rewrite length_map in Hl. cbn [safe_step].
    rewrite pop_n_exact by done. cbn [mbind option_bind].
    destruct subs as [|[a b] [|[c d] [|]]]; cbn in Hl; try lia. unfold safe_node. cbn. destruct a, b, c, d; done.
  - change (length subs = length l) in Hl. cbn [safe_step]. unfold Threshold.n, Threshold.k. cbn [Threshold.inner].
    rewrite pop_n_exact by done. cbn [mbind option_bind]. rewrite safe_fold. destruct H as [Hk _]. unfold Threshold.n in Hk.
    cbn in Hk. rewrite (proj2 (Nat.ltb_ge _ _)) by lia. unfold safe_node. cbn [is_leaf quota Threshold.k]. cbn zeta.
    rewrite !Nat.add_0_l. f_equal. f_equal. f_equal.
    + apply eq_iff_eq_true. rewrite Nat.leb_le, Nat.ltb_lt. lia.
    + pose proof (count_if_length snd subs). rewrite <- Hl. f_equal.
      * apply eq_iff_eq_true. rewrite Nat.eqb_eq, <- count_if_all. lia.
      * apply eq_iff_eq_true. rewrite !Nat.leb_le. lia.
Qed.

Lemma is_safe_nonmalleable_eq p : valid p -> is_safe_nonmalleable p = Some (safe_nonmall p).
Proof.
  intros Hp. unfold is_safe_nonmalleable. apply (stack_root_good _ _ valid); [apply valid_children|apply safe_step_spec|done].
Qed.

Lemma safe_eq p :
  safe p = if is_leaf p then signed p
           else length (children p) <? quota p + count_if safe (children p).
Proof.
  unfold safe at 1. rewrite safe_nonmall_eq. unfold safe_node. destruct (is_leaf p); [done|]. cbn.
  by rewrite length_map, count_if_map.
Qed.

(** A way to satisfy the policy without a leaf that counts as safe. *)
Definition unsigned (p : Policy) : Prop := exists s, selects p s /\ Forall (fun q => signed q = false) s.

Lemma safe_unsigned p : safe p = false <-> unsigned p.
Proof.
  induction p as [p IH] using tree_ind. rewrite safe_eq. unfold unsigned. destruct (is_leaf p) eqn:E.
  - split; [intros H; exists [p]; split; [by constructor|by repeat constructor]|].
    intros (s & ->%selects_leaf_inv & Hs); [|done]. by apply Forall_cons_1 in Hs as [? _].
  - rewrite Nat.ltb_ge. pose proof (count_if_negb safe (children p)) as Hn. split.
    + intros H. destruct (count_sublist (fun c => negb (safe c)) (quota p) (children p)) as (c & Hc & Hk & Hall); [lia|].
      destruct (Forall2_exists (fun x s => selects x s /\ Forall (fun q => signed q = false) s) c) as [ss Hss].
      { rewrite list.Forall_forall in IH, Hall |- *. intros x Hx. apply IH; [by eapply sublist_In|].
        by apply negb_true_iff, Hall. }
      exists (concat ss). split.
      * eapply select_branches; [done|done|done|]. eapply list.Forall2_impl; [exact Hss|]. by intros ? ? [].
      * apply List.Forall_concat. clear -Hss. induction Hss as [|? ? ? ? [_ ?]]; by constructor.
    + intros (s & (c & ss & Hc & Hk & Hss & ->)%selects_branches_inv & Hs); [|done].
      assert (length c <= count_if (fun c => negb (safe c)) (children p)); [|lia].
      apply (sublist_count _ _ _ Hc). rewrite List.Forall_concat in Hs.
      assert (Forall (fun x => x ∈ children p) c) as Hin.
      { apply list.Forall_forall. intros x. by apply sublist_In. }
      clear Hc Hk. rewrite list.Forall_forall in IH. induction Hss as [|x s c ss Hx _ IHss]; [constructor|].
      apply Forall_cons_1 in Hs as [? ?]. apply Forall_cons_1 in Hin as [? ?]. constructor; [|by apply IHss].
      apply negb_true_iff, IH; [done|]. by exists s.
Qed.

(** No node has more branches without safe leaves than it needs. *)
Definition nonmalleable (p : Policy) : Prop :=
  Forall (fun q => forall c, sublist c (children q) -> Forall unsigned c -> is_leaf q = false -> length c <= quota q) (pre_order p).

Lemma nonmall_spec p : snd (safe_nonmall p) = true <-> nonmalleable p.
Proof.
  induction p as [p IH] using tree_ind. unfold nonmalleable. rewrite Forall_pre_order, safe_nonmall_eq.
  assert (forallb snd (map safe_nonmall (children p)) = true <-> Forall nonmalleable (children p)) as Hc.
  { induction IH as [|c l Hc _ IHl]; [by split|]. cbn [map forallb]. by rewrite andb_true_iff, IHl, list.Forall_cons, Hc. }
  unfold safe_node. destruct (is_leaf p) eqn:E; cbn [snd].
  - split; [|done]. intros _. split; [done|]. destruct p; try done; constructor.
  - rewrite andb_true_iff, Hc, Nat.leb_le, length_map, count_if_map.
    pose proof (count_if_negb safe (children p)) as Hn.
    assert (length (children p) <= quota p + count_if (fun c => (safe_nonmall c).1) (children p)
      <-> forall c, sublist c (children p) -> Forall unsigned c -> false = false -> length c <= quota p) as ->; [|unfold nonmalleable; tauto].
    change (count_if (fun c => (safe_nonmall c).1)) with (count_if safe). split.
    + intros H c Hs Hu _. assert (length c <= count_if (fun c => negb (safe c)) (children p)); [|lia].
      apply (sublist_count _ _ _ Hs). eapply Forall_impl; [|exact Hu]. intros q Hq%safe_unsigned. by rewrite Hq.
    + intros H. destruct (count_sublist (fun c => negb (safe c)) _ (children p) ltac:(done)) as (c & Hs & Hl & Hu).
      assert (length c <= quota p); [|lia]. apply H; [done| |done].
      eapply Forall_impl; [|exact Hu]. intros q Hq%negb_true_iff. by apply safe_unsigned.
Qed.

(** * Lock times *)

Definition leaf_info (p : Policy) : TimelockInfo :=
  match p with
  | After t => mkTimelockInfo false false (is_block_height t) (is_block_time t) false
  | Older t => mkTimelockInfo (is_height_locked t) (is_time_locked t) false false false
  | _ => Timelock.new
  end.

Definition infos : Policy -> TimelockInfo :=
  tree_fold (fun p l => if is_leaf p then leaf_info p else Timelock.combine_threshold (quota p) l).

Lemma infos_eq p :
  infos p = if is_leaf p then leaf_info p else Timelock.combine_threshold (quota p) (map infos (children p)).
Proof. unfold infos at 1. by rewrite tree_fold_eq. Qed.

Lemma timelock_info_eq p : timelock_info p = Some (infos p).
Proof.
  apply stack_root_eq. intros q subs rest Hl. destruct q as [| | | | | | | | | |i sub|l|l|[k l]]; try (by destruct subs).
  - destruct subs as [|x [|]]; try done. cbn. f_equal. f_equal. by destruct x as [[] [] [] [] []].
  - change (length subs = length l) in Hl. cbn [timelock_step]. by rewrite pop_n_exact.
  - change (length subs = length (map snd l)) in Hl. rewrite length_map in Hl. cbn [timelock_step]. by rewrite pop_n_exact.
  - change (length subs = length l) in Hl. cbn [timelock_step]. unfold Threshold.n. cbn [Threshold.inner].
    by rewrite pop_n_exact.
Qed.

Lemma check_timelocks_eq p :
  check_timelocks p = Some (if contains_combination (infos p) then Err HeightTimelockCombination else Ok ()).
Proof. unfold check_timelocks. by rewrite timelock_info_eq. Qed.

Definition combines (flag : TimelockInfo -> bool) : Prop :=
  forall k l, flag (Timelock.combine_threshold k l) = existsb flag l.

Lemma flags_combine :
  combines csv_with_height /\ combines csv_with_time /\ combines cltv_with_height /\ combines cltv_with_time.
Proof.
  repeat split; intros k l; by destruct (Timelock.combine_fields k l Timelock.new) as (H1 & H2 & H3 & H4).
Qed.

(** A flag of the summary tells whether some selection has a leaf with it. *)
Lemma flag_spec (flag : TimelockInfo -> bool) p :
  combines flag -> valid p ->
  flag (infos p) = true <-> exists s q, selects p s /\ q ∈ s /\ flag (leaf_info q) = true.
Proof.
  intros Hflag. induction p as [p IH] using tree_ind. intros Hp. rewrite infos_eq. destruct (is_leaf p) eqn:E.
  - split; [intros H; exists [p], p; split; [by constructor|]; split; [by left|done]|].
    intros (s & q & ->%selects_leaf_inv & Hq & Hf); [|done]. by apply list_elem_of_singleton in Hq as ->.
  - rewrite Hflag, existsb_exists. pose proof (valid_children p Hp) as Hcs. rewrite list.Forall_forall in IH, Hcs. split.
    + intros (? & (c & <- & Hc%list_elem_of_In)%in_map_iff & Hf).
      apply (IH c Hc (Hcs c Hc)) in Hf as (s & q & Hs & Hq & Hf).
      destruct (selects_extend p [c] [s]) as (s' & Hs' & Hin); try done.
      { by apply sublist_single. } { pose proof (valid_quota p Hp E). cbn. lia. } { by repeat constructor. }
      exists s', q. split; [done|]. split; [|done]. apply Hin. cbn. by rewrite app_nil_r.
    + intros (s & q & (c & ss & Hc & _ & Hss & ->)%selects_branches_inv & Hq & Hf); [|done].
      assert (exists x s, x ∈ c /\ selects x s /\ q ∈ s) as (x & s & Hx & Hs & Hqs).
      { clear -Hss Hq. induction Hss as [|x s c ss Hx _ IH]; cbn in Hq; [by apply not_elem_of_nil in Hq|].
        apply elem_of_app in Hq as [Hq|Hq]; [exists x, s; split; [by left|done]|].
        destruct (IH Hq) as (x' & s' & ? & ?). exists x', s'. split; [by right|done]. }
      apply (sublist_In _ _ _ Hc) in Hx. exists (infos x). split; [by apply in_map, list_elem_of_In|].
      apply IH; [done|auto|]. by exists s, q.
Qed.

(** A height and a time of the same kind of lock. *)
Definition clash (a b : Policy) : Prop :=
  match a, b with
  | After t, After t' => is_block_height t = true /\ is_block_time t' = true
  | Older t, Older t' => is_height_locked t = true /\ is_time_locked t' = true
  | _, _ => False
  end.

Definition mixed (s : list Policy) : Prop := exists a b, a ∈ s /\ b ∈ s /\ clash a b.

Lemma clash_flags a b :
  clash a b <->
  csv_with_height (leaf_info a) && csv_with_time (leaf_info b)
  || cltv_with_height (leaf_info a) && cltv_with_time (leaf_info b) = true.
Proof.
  rewrite orb_true_iff, !andb_true_iff. destruct a, b; cbn; intuition congruence.
Qed.

Lemma conflict_sublist c l : sublist c l -> Timelock.conflict c -> Timelock.conflict l.
Proof.
  induction 1 as [|a c l Hs IH|a c l Hs IH]; rewrite ?Timelock.conflict_cons; [done| |auto].
  intros [(u & Hu%list_elem_of_In & H)|H]; [left; exists u|by right; apply IH].
  split; [|done]. apply list_elem_of_In. by eapply sublist_In.
Qed.

Lemma sublist_map {A C} (f : A -> C) c l : sublist c l -> sublist (map f c) (map f l).
Proof. by induction 1; constructor. Qed.

Lemma concat_position {A} (x : A) ss : x ∈ concat ss -> exists i s, ss !! i = Some s /\ x ∈ s.
Proof.
  induction ss as [|s ss IH]; cbn; [by intros ?%not_elem_of_nil|].
  intros [H|H]%elem_of_app; [by exists 0, s|]. destruct (IH H) as (i & s' & ? & ?). by exists (S i), s'.
Qed.

Lemma sublist_pair {A} (l : list A) i j a b : i < j -> l !! i = Some a -> l !! j = Some b -> sublist [a; b] l.
Proof.
  revert i j. induction l as [|x l IH]; intros [|i] [|j] Hij Hi Hj; try done; try lia; cbn in *.
  - injection Hi as ->. constructor. apply sublist_single. by eapply list_elem_of_lookup_2.
  - constructor. apply (IH i j); [lia|done|done].
Qed.

Context {L : LockTimeLaws B}.

Lemma no_self_clash p : ~ clash p p.
Proof.
  destruct p as [| | |t|t| | | | | | | | |]; try by intros []. all: intros [H1 H2].
  - unfold is_block_time, is_block_height in *. by rewrite LockTime_time, H1 in H2.
  - unfold is_time_locked, is_height_locked in *. rewrite Sequence_time in H2. rewrite Sequence_height in H1.
    apply andb_true_iff in H1 as [_ H1%negb_true_iff], H2 as [_ H2]. congruence.
Qed.

(** Two branches that conflict are both part of some selection, if two may be needed. *)
Lemma conflict_selects p : valid p -> is_leaf p = false -> 1 < quota p ->
  Timelock.conflict (map infos (children p)) -> exists s, selects p s /\ mixed s.
Proof.
  intros Hp E Hk (i & j & x & y & Hij & Hi & Hj & H)%Timelock.conflict_sym.
  pose proof (valid_children p Hp) as Hcs. rewrite list.Forall_forall in Hcs.
  apply list_lookup_fmap_Some_1 in Hi as (c & -> & Hi), Hj as (d & -> & Hj).
  assert (c ∈ children p /\ d ∈ children p) as [Hc Hd] by (split; by eapply list_elem_of_lookup_2).
  assert (exists s t a b, selects c s /\ selects d t /\ a ∈ s /\ b ∈ t /\ clash a b) as (s & t & a & b & Hs & Ht & Ha & Hb & Hcl).
  { apply orb_true_iff in H as [[H1 H2]%andb_true_iff|[H1 H2]%andb_true_iff].
    all: apply flag_spec in H1 as (s & a & Hs & Ha & H1); [|apply flags_combine|auto];
      apply flag_spec in H2 as (t & b & Ht & Hb & H2); [|apply flags_combine|auto];
      exists s, t, a, b; repeat split; try done; apply clash_flags; rewrite H1, H2; by rewrite ?orb_true_r. }
  assert (exists u v w z, sublist [u; v] (children p) /\ Forall2 selects [u; v] [w; z] /\ (forall x, x ∈ s \/ x ∈ t -> x ∈ w \/ x ∈ z))
    as (u & v & w & z & Hsub & Hsel & Hin).
  { destruct (Nat.lt_total i j) as [Hlt|[|Hlt]]; [|lia|].
    - exists c, d, s, t. split; [by eapply sublist_pair|]. split; [by repeat constructor|done].
    - exists d, c, t, s. split; [by eapply sublist_pair|]. split; [by repeat constructor|tauto]. }
  destruct (selects_extend p [u; v] [w; z]) as (s' & Hs' & Hin'); try done.
  exists s'. split; [done|]. cbn in Hin'. exists a, b. repeat split; try done; apply Hin'; rewrite app_nil_r, elem_of_app; auto.
Qed.

(** Leaves of different branches that clash make the branches conflict. *)
Lemma selects_conflict c ss i j s t a b : Forall valid c -> Forall2 selects c ss ->
  i <> j -> ss !! i = Some s -> ss !! j = Some t -> a ∈ s -> b ∈ t -> clash a b ->
  Timelock.conflict (map infos c).
Proof.
  intros Hv Hss Hij Hi Hj Ha Hb H. rewrite list.Forall_forall in Hv.
  destruct (Forall2_lookup_r _ _ _ _ _ Hss Hi) as (x & Hx & Hs), (Forall2_lookup_r _ _ _ _ _ Hss Hj) as (y & Hy & Ht).
  assert (valid x /\ valid y) as [Hvx Hvy] by (split; apply Hv; by eapply list_elem_of_lookup_2).
  apply Timelock.conflict_sym. exists i, j, (infos x), (infos y). split; [done|].
  assert (map infos c !! i = Some (infos x) /\ map infos c !! j = Some (infos y)) as [-> ->].
  { rewrite !list_lookup_fmap, Hx, Hy. done. }
  repeat split. apply clash_flags in H.
  assert (forall flag, combines flag ->
    (flag (leaf_info a) = true -> flag (infos x) = true) /\ (flag (leaf_info b) = true -> flag (infos y) = true)) as Hflag.
  { intros flag Hf. split; intros; apply (flag_spec flag _ Hf); auto; [by exists s, a|by exists t, b]. }
  destruct (Hflag csv_with_height ltac:(apply flags_combine)) as [F1 _].
  destruct (Hflag csv_with_time ltac:(apply flags_combine)) as [_ F2].
  destruct (Hflag cltv_with_height ltac:(apply flags_combine)) as [F3 _].
  destruct (Hflag cltv_with_time ltac:(apply flags_combine)) as [_ F4].
  rewrite orb_true_iff, !andb_true_iff in *. tauto.
Qed.

Lemma combination_spec p : valid p -> contains_combination (infos p) = true <-> exists s, selects p s /\ mixed s.
Proof.
  induction p as [p IH] using tree_ind. intros Hp. rewrite infos_eq. destruct (is_leaf p) eqn:E.
  - assert (contains_combination (leaf_info p) = false) as -> by (by destruct p). split; [done|].
    intros (s & ->%selects_leaf_inv & (a & b & Ha & Hb & H)); [|done].
    apply list_elem_of_singleton in Ha as ->, Hb as ->. by apply no_self_clash in H.
  - unfold Timelock.combine_threshold. rewrite Timelock.combine_combination.
    pose proof (valid_children p Hp) as Hcs. rewrite list.Forall_forall in IH, Hcs.
    pose proof (valid_quota p Hp E) as Hq. split.
    + intros [?|[(? & (c & <- & Hc%list_elem_of_In)%in_map_iff & Hf)|(Hk & [(? & _ & ?)|Hconf])]]; try done; [|by apply conflict_selects].
      apply (IH c Hc (Hcs c Hc)) in Hf as (s & Hs & (a & b & Ha & Hb & H)).
      destruct (selects_extend p [c] [s]) as (s' & Hs' & Hin); try done.
      { by apply sublist_single. } { cbn. lia. } { by repeat constructor. }
      cbn in Hin. rewrite app_nil_r in Hin. exists s'. split; [done|]. exists a, b. auto.
    + intros (s & (c & ss & Hc & Hk & Hss & ->)%selects_branches_inv & (a & b & Ha & Hb & H)); [|done].
      apply concat_position in Ha as (i & s & Hi & Ha), Hb as (j & t & Hj & Hb).
      right. destruct (Nat.eq_dec i j) as [<-|Hij].
      * left. rewrite Hi in Hj. injection Hj as <-. destruct (Forall2_lookup_r _ _ _ _ _ Hss Hi) as (x & Hx%list_elem_of_lookup_2 & Hs).
        apply (sublist_In _ _ _ Hc) in Hx. exists (infos x). split; [by apply in_map, list_elem_of_In|].
        apply IH; [done|auto|]. exists s. split; [done|]. by exists a, b.
      * right. pose proof (list.Forall2_length _ _ _ Hss). apply lookup_lt_Some in Hi as Hi', Hj as Hj'. split; [lia|]. right.
        apply (conflict_sublist (map infos c)); [by apply sublist_map|].
        apply (selects_conflict c ss i j s t a b); try done.
        apply list.Forall_forall. intros x Hx%(sublist_In _ _ _ Hc). auto.
Qed.

(** * Validity *)

Definition inscriptions_ok (p : Policy) : Prop :=
  Forall (fun q => match q with Inscribe i _ => validate i = true | _ => True end) (pre_order p).

Lemma check_inscriptions_ok l :
  check_inscriptions l = Ok () <-> Forall (fun q => match q with Inscribe i _ => validate i = true | _ => True end) l.
Proof.
  induction l as [|q l IH]; [by split|]. rewrite list.Forall_cons. cbn [check_inscriptions].
  destruct q; rewrite <- ?IH; try tauto. destruct (validate i); intuition congruence.
Qed.

Lemma check_binary_ops_ok p : check_binary_ops p = Ok () <-> binary p.
Proof.
  unfold check_binary_ops, binary. induction (pre_order p) as [|q l IH]; [by split|]. rewrite list.Forall_cons. cbn [check_binary_ops_in].
  destruct q as [| | | | | | | | | | |subs|subs|]; rewrite <- ?IH; try tauto.
  all: destruct (Nat.eqb_spec (length subs) 2); cbn [negb]; intuition congruence.
Qed.

Lemma check_duplicate_keys_ok p : check_duplicate_keys p = Ok () <-> NoDup (keys p).
Proof.
  unfold check_duplicate_keys. rewrite <- remove_dups_NoDup_length.
  assert (length (remove_dups (keys p)) <= length (keys p)) as Hle.
  { induction (keys p) as [|a l IH]; cbn; [done|]. case_decide; cbn; lia. }
  destruct (Nat.ltb_spec (length (remove_dups (keys p))) (length (keys p))); split; (done || lia).
Qed.

Lemma compile_checks_total p : thresholds_ok p -> exists r, compile_checks p = Some r /\
  (r = Ok () <-> binary p /\ inscriptions_ok p /\ contains_combination (infos p) = false /\ NoDup (keys p)
     /\ safe_nonmall p = (true, true)).
Proof.
  intros Ht. unfold compile_checks, is_valid. pose proof (check_inscriptions_ok (pre_order p)) as Hi. rewrite check_timelocks_eq.
  pose proof (check_duplicate_keys_ok p) as Hd. pose proof (check_binary_ops_ok p) as Hb. fold (inscriptions_ok p) in Hi.
  destruct (check_inscriptions (pre_order p)) as [[]|e]; cbn [mbind option_bind map_err];
    [|eexists; split; [done|]; rewrite <- Hi; by split; [|intros (_ & ? & _)]].
  destruct (contains_combination (infos p)); cbn [mbind option_bind result_bind map_err];
    [eexists; split; [done|]; by split; [|intros (_ & _ & ? & _)]|].
  destruct (check_duplicate_keys p) as [[]|e]; cbn [mbind option_bind result_bind map_err];
    [|eexists; split; [done|]; rewrite <- Hd; by split; [|intros (_ & _ & _ & ? & _)]].
  destruct (check_binary_ops p) as [[]|e]; [|eexists; split; [done|]; rewrite <- Hb; by split; [|intros (? & _)]].
  rewrite is_safe_nonmalleable_eq by (apply valid_spec; by rewrite <- Hb). cbn [mbind option_bind].
  destruct (safe_nonmall p) as [[] []]; eexists; (split; [done|]); split; try done; try by intros (_ & _ & _ & _ & ?).
  intros _. rewrite <- Hi, <- Hd, <- Hb. done.
Qed.

(** C33: The checks before a compilation return for every policy whose thresholds are in
    range, and succeed exactly on the policies in which every conjunction and disjunction
    has two branches, every inscription is within its bounds, no way to satisfy the policy
    needs a height and a time of the same kind of lock, no key is repeated, every way to
    satisfy it uses a leaf that counts as safe (a key, a template, UNSATISFIABLE or
    TRIVIAL), and no node has more branches without such leaves than it needs. *)
Theorem compile_checks_spec p : thresholds_ok p ->
  exists r, compile_checks p = Some r
    /\ (r = Ok () <->
           binary p /\ inscriptions_ok p /\ (forall s, selects p s -> ~ mixed s) /\ NoDup (keys p)
           /\ (forall s, selects p s -> Exists (fun q => signed q = true) s) /\ nonmalleable p).
Proof.
  intros Ht. destruct (compile_checks_total p Ht) as (r & Hr & Hiff). exists r. split; [done|]. rewrite Hiff.
  split; intros (Hb & Hi & H); assert (valid p) as Hv by (by apply valid_spec); pose proof (combination_spec p Hv) as Hc;
    pose proof (safe_unsigned p) as Hs; pose proof (nonmall_spec p) as Hn; unfold safe, unsigned in Hs.
  - destruct H as (Ht' & Hd & Hsn). rewrite Hsn in *. split; [done|]. split; [done|]. split.
    { intros s H1 H2. assert (contains_combination (infos p) = true) by (apply Hc; by exists s). congruence. }
    split; [done|]. split; [|by apply Hn]. intros s H1.
    destruct (Exists_dec (fun q => signed q = true) s (fun q => decide (signed q = true))) as [|H2]; [done|].
    assert (true = false) as [=]. apply Hs. exists s. split; [done|]. rewrite <- Forall_Exists_neg in H2.
    eapply Forall_impl; [|exact H2]. intros q. cbn. by destruct (signed q).
  - destruct H as (Hmix & Hd & Hsg & Hnm). split; [done|]. split; [done|]. split.
    { destruct (contains_combination (infos p)); [|done]. destruct (proj1 Hc eq_refl) as (s & H1 & H2). by destruct (Hmix s H1). }
    split; [done|]. apply Hn in Hnm. destruct (safe_nonmall p) as [[] x]; cbn in *; [congruence|].
    destruct (proj1 Hs eq_refl) as (s & H1 & H2). apply Hsg, Exists_exists in H1 as (q & Hq & H1).
    rewrite List.Forall_forall in H2. rewrite H2 in H1; [done|]. done.
Qed.
End Props.
