(* ===== verification/ConcreteLift.v ===== *)
(** Lifting of concrete policies: it keeps their meaning when conjunctions and disjunctions
    are binary, and does not otherwise; and the policy without a key. *)
From S2P Require Import Prelude Bitcoin Primitives Reference Ord Correctness Malleability Types ExtData Tree StackLoop Translate Semantic PolicyNormal Samples.
From S2P Require Import Concrete ConcreteProps.
Import Concrete.

Section Lift.
Context {B : Bitcoin} {K : MiniscriptKey}.

Lemma try_collect_Ok {E A C} (f : A -> option (result E C)) l cs :
  Forall2 (fun a c => f a = Some (Ok c)) l cs -> try_collect (map f l) = Some (Ok cs).
Proof. induction 1 as [|a c l cs H _ IH]; [done|]. cbn [map try_collect]. by rewrite H, IH. Qed.

(** A branch that mixes lock times makes the policy mix them. *)
Lemma combination_child p c : c ∈ children p -> contains_combination (infos p) = false -> contains_combination (infos c) = false.
Proof.
  intros Hc. rewrite infos_eq. destruct (is_leaf p) eqn:E; [destruct p; try done; by apply not_elem_of_nil in Hc|].
  intros H. destruct (contains_combination (infos c)) eqn:Ec; [|done]. rewrite <- H. symmetry.
  apply Timelock.combine_combination. right. left. exists (infos c). split; [by apply in_map, list_elem_of_In|done].
Qed.

Definition lifts_to (p : Policy) (q : Semantic.Policy) : Prop :=
  lift p = Some (Ok q) /\ normal q /\ forall v, PolicyNormal.holds v q = satisfied v p.

Lemma lift_leaf p : is_leaf p = true -> lifts_to p (leaf_of p).
Proof.
  intros Hp. unfold lifts_to. repeat split.
  - destruct p; try done; reflexivity.
  - apply normal_leaf. by destruct p.
  - intros v. by rewrite satisfied_eq, Hp.
Qed.

Lemma normal_lifts p q : (forall v, PolicyNormal.holds v q = satisfied v p) ->
  lift p = (p ← Semantic.normalized q; Some (Ok p)) -> exists q, lifts_to p q.
Proof.
  intros Hv H. exists (norm q). unfold lifts_to. rewrite H, normalized_norm. split; [done|]. split; [apply norm_normal|].
  intros v. by rewrite norm_equivalent.
Qed.

Lemma count_lifted v l qs : Forall2 lifts_to l qs -> count_if (PolicyNormal.holds v) qs = count_if (satisfied v) l.
Proof. induction 1 as [|p q l qs (_ & _ & H) _ IH]; [done|]. by rewrite !count_if_cons, IH, H. Qed.

Lemma lift_Ok p : valid p -> contains_combination (infos p) = false -> exists q, lifts_to p q.
Proof.
  induction p as [p IH] using tree_ind. intros Hp Hc. destruct (is_leaf p) eqn:E; [eexists; by apply lift_leaf|].
  assert (exists qs, Forall2 lifts_to (children p) qs) as [qs Hqs].
  { apply Forall2_exists. pose proof (valid_children p Hp) as Hv. rewrite list.Forall_forall in IH, Hv |- *.
    intros c Hin. apply IH; [done|auto|]. by eapply combination_child. }
  assert (1 <= quota p <= length qs) as Hq by (rewrite <- (list.Forall2_length _ _ _ Hqs); by apply valid_quota).
  assert (Forall2 (fun p q => lift p = Some (Ok q)) (children p) qs) as Hlift.
  { eapply list.Forall2_impl; [exact Hqs|]. by intros ? ? []. }
  pose proof (check_timelocks_eq p) as Ht. rewrite Hc in Ht.
  assert (forall v, PolicyNormal.holds v (Semantic.Thresh (mkThreshold (quota p) qs)) = satisfied v p) as Hv.
  { intros v. rewrite satisfied_eq, E. cbn [PolicyNormal.holds]. by rewrite (count_lifted v _ _ Hqs). }
  assert (forall k, 1 <= k <= length qs -> Threshold.new 0 k qs = Ok (mkThreshold k qs)) as Hnew.
  { intros k Hk. apply Threshold.new_valid. split; [done|]. split; [done|by left]. }
  destruct p as [| | | | | | | | | |i sub|l|l|[k l]]; try done.
  - change (Forall2 (fun p q => lift p = Some (Ok q)) [sub] qs) in Hlift.
    apply Forall2_cons_inv_l in Hlift as (q & ? & Hs & ->%Forall2_nil_inv_l & ->).
    apply (normal_lifts _ (Semantic.Inscribe i q)); [|cbn [lift]; by rewrite Ht, Hs].
    intros v. rewrite <- Hv. cbn [PolicyNormal.holds]. by rewrite single_holds.
  - change (Forall2 (fun p q => lift p = Some (Ok q)) l qs) in Hlift. apply (normal_lifts _ _ Hv).
    cbn [lift]. rewrite Ht. cbn [mbind option_bind]. rewrite (try_collect_Ok _ _ _ Hlift). cbn [mbind option_bind quota].
    apply valid_eq in Hp as [Hp _]. cbn in Hp. unfold unwrap_threshold. cbn [quota] in Hq. rewrite Hp in *. by rewrite Hnew.
  - change (Forall2 (fun p q => lift p = Some (Ok q)) (map snd l) qs) in Hlift. apply (normal_lifts _ _ Hv).
    cbn [lift]. rewrite Ht. cbn [mbind option_bind].
    assert (map (fun '(_, sub) => lift sub) l = map lift (map snd l)) as ->.
    { rewrite map_map. apply map_ext. by intros []. }
    rewrite (try_collect_Ok _ _ _ Hlift). cbn [mbind option_bind]. unfold unwrap_threshold. cbn [quota] in *. by rewrite Hnew by lia.
  - change (Forall2 (fun p q => lift p = Some (Ok q)) l qs) in Hlift. apply (normal_lifts _ _ Hv).
    cbn [lift]. rewrite Ht. cbn [mbind option_bind]. by rewrite (try_collect_Ok _ _ _ Hlift).
Qed.

Context {L : LockTimeLaws B}.

(** C32: Lifting a concrete policy as the parser builds them never panics. It fails exactly
    when some way to satisfy the policy needs a height and a time of the same kind of lock;
    otherwise the result is a policy in normal form that says the same as the policy:
    under every valuation it holds if and only if all leaves of some way to satisfy the
    policy do. *)
Theorem concrete_lift_spec p : valid p ->
  exists r, lift p = Some r
    /\ (r = Err HeightTimelockCombination <-> exists s, selects p s /\ mixed s)
    /\ ((exists q, r = Ok q) <-> forall s, selects p s -> ~ mixed s)
    /\ forall q, r = Ok q -> normal q
         /\ forall v, PolicyNormal.holds v q = true <-> exists s, selects p s /\ Forall (fun leaf => meets v leaf = true) s.
Proof.
  intros Hp. pose proof (combination_spec p Hp) as Hc. destruct (contains_combination (infos p)) eqn:E.
  - exists (Err HeightTimelockCombination). split; [|split; [by rewrite <- Hc|split; [|done]]].
    + pose proof (check_timelocks_eq p) as Ht. rewrite E in Ht. destruct p as [| | | | | | | | | | | | |[]]; cbn [lift]; by rewrite Ht.
    + destruct (proj1 Hc eq_refl) as (s & Hs & Hm). split; [by intros [? ?]|]. intros H. by destruct (H s Hs).
  - destruct (lift_Ok p Hp E) as (q & Hl & Hn & Hv). exists (Ok q). split; [done|].
    assert (forall s, selects p s -> ~ mixed s) as Hno.
    { intros s Hs Hm. assert (false = true) as [=]. apply Hc. by exists s. }
    split; [split; [done|]; intros (s & Hs & Hm); by destruct (Hno s Hs)|]. split; [by split; [|intros _; exists q]|].
    intros ? [= <-]. split; [done|]. intros v. by rewrite Hv, satisfied_selects.
Qed.
End Lift.

(** * Conjunctions that are not binary *)

Section NotBinary.
Context {B : Bitcoin} {K : MiniscriptKey}.

(** A conjunction of three branches, which the type allows and the parser refuses, is lifted
    to a threshold that two of them meet. *)
Lemma lift_and_three (a b c : Pk) :
  lift (And [Key a; Key b; Key c])
  = Some (Ok (Semantic.Thresh (mkThreshold 2 [Semantic.Key a; Semantic.Key b; Semantic.Key c]))).
Proof. reflexivity. Qed.

(** A conjunction of one branch panics. *)
Lemma lift_and_one (a : Pk) : lift (And [Key a]) = None.
Proof. reflexivity. Qed.

(** TRIVIAL counts as safe, although it can be satisfied by anyone. *)
Lemma trivial_safe (a : Pk) :
  is_safe_nonmalleable (Or [(1%N, Key a); (1%N, Trivial)]) = Some (true, true)
  /\ m_safe (mall Types.TRUE) = false.
Proof. by split. Qed.
End NotBinary.

(** * Without a key *)

Section WithoutKey.
Context {B : Bitcoin} {K : MiniscriptKey}.

Definition with_children (p : Policy) (subs : list Policy) : Policy :=
  match p with
  | Inscribe i sub => match subs with [sub] => Inscribe i sub | _ => p end
  | And _ => And subs
  | Or l => Or (zip (map fst l) subs)
  | Thresh t => Thresh (mkThreshold (Threshold.k t) subs)
  | p => p
  end.

Definition without_key (key : Pk) : Policy -> Policy :=
  tree_fold (fun p subs => match p with
                           | Key k => if bool_decide (k = key) then Unsatisfiable else Key k
                           | _ => with_children p subs
                           end).

Lemma without_key_eq key p :
  without_key key p = match p with
                      | Key k => if bool_decide (k = key) then Unsatisfiable else Key k
                      | _ => with_children p (map (without_key key) (children p))
                      end.
Proof. unfold without_key at 1. rewrite tree_fold_eq. by destruct p. Qed.

Lemma translate_unsatisfiable_pk_eq p key : translate_unsatisfiable_pk p key = Some (without_key key p).
Proof.
  apply stack_root_eq. intros q subs rest Hl. destruct q as [| | | | | | | | | |i sub|l|l|[k l]]; try (by destruct subs).
  - by destruct subs as [|x [|]].
  - change (length subs = length l) in Hl. cbn [unsatisfiable_pk_step]. by rewrite pop_n_exact.
  - change (length subs = length (map snd l)) in Hl. rewrite length_map in Hl. cbn [unsatisfiable_pk_step]. by rewrite pop_n_exact.
  - change (length subs = length l) in Hl. cbn [unsatisfiable_pk_step]. unfold Threshold.n. cbn [Threshold.inner].
    by rewrite pop_n_exact.
Qed.

Lemma with_children_spec p subs : is_leaf p = false -> length subs = length (children p) ->
  is_leaf (with_children p subs) = false /\ children (with_children p subs) = subs /\ quota (with_children p subs) = quota p.
Proof.
  intros E H. destruct p as [| | | | | | | | | |i sub|l|l|[k l]]; try done.
  - by destruct subs as [|x [|]].
  - change (length subs = length (map snd l)) in H. repeat split. unfold children. cbn.
    rewrite snd_zip; [done|]. rewrite length_map in *. lia.
Qed.

(** Replacing a key by UNSATISFIABLE never panics; the result holds under a valuation
    exactly when the policy does under the valuation in which that key is not met, and it
    does not contain the key. *)
Theorem translate_unsatisfiable_pk_spec p key :
  exists q, translate_unsatisfiable_pk p key = Some q
    /\ (key ∉ keys q)
    /\ forall v, satisfied v q = satisfied (fun leaf => v leaf && negb (Semantic.policy_eqb leaf (Semantic.Key key))) p.
Proof.
  exists (without_key key p). split; [apply translate_unsatisfiable_pk_eq|].
  induction p as [p IH] using tree_ind. destruct (is_leaf p) eqn:E.
  - rewrite without_key_eq. destruct p as [| |pk| | | | | | | | | | |]; try done;
      try (split; [by apply not_elem_of_nil|intros v; unfold satisfied; cbn; unfold meets; cbn; by rewrite ?andb_true_r]).
    destruct (bool_decide_reflect (pk = key)) as [->|Hk]; split.
    + apply not_elem_of_nil.
    + intros v. unfold satisfied. cbn. unfold meets. cbn. by rewrite bool_decide_true, andb_false_r.
    + cbn. intros ?%list_elem_of_singleton. congruence.
    + intros v. unfold satisfied. cbn. unfold meets. cbn. by rewrite bool_decide_false, andb_true_r.
  - assert (without_key key p = with_children p (map (without_key key) (children p))) as Hw.
    { rewrite without_key_eq. by destruct p. }
    destruct (with_children_spec p (map (without_key key) (children p)) E) as (H1 & H2 & H3); [by rewrite length_map|].
    rewrite Hw. split.
    + assert (forall q, is_leaf q = false -> keys q = flat_map keys (children q)) as Hkeys.
      { intros q Hq. unfold keys at 1. rewrite pre_order_eq. assert (forall l, omap (fun policy => match policy with Key pk => Some pk | _ => None end) (flat_map pre_order l) = flat_map keys l) as <-.
        { intros l. induction l as [|c l IHl]; [done|]. cbn [flat_map]. by rewrite omap_app, IHl. }
        by destruct q. }
      rewrite Hkeys, H2 by done. clear -IH. induction IH as [|c l [Hc _] _ IHl]; [by apply not_elem_of_nil|].
      cbn [map flat_map]. rewrite elem_of_app. by intros [?|?].
    + intros v. rewrite !satisfied_eq, H1, H2, H3, E, count_if_map. f_equal. apply count_if_ext.
      eapply Forall_impl; [|exact IH]. by intros c [_ Hc].
Qed.
End WithoutKey.

(** * Witnesses *)

(** [or(2@pk(A),1@and(pk(B),older(144)))] *)
Definition sample_policy : Policy := Or [(2%N, Key keyA); (1%N, And [Key keyB; Older older_144])].

Lemma sample_policy_valid : valid sample_policy.
Proof.
  apply valid_or; [by apply valid_leaf|].
  apply valid_and; by apply valid_leaf.
Qed.

Lemma concrete_lift_spec_witness :
  exists r, lift sample_policy = Some r
    /\ (r = Err HeightTimelockCombination <-> exists s, selects sample_policy s /\ mixed s)
    /\ ((exists q, r = Ok q) <-> forall s, selects sample_policy s -> ~ mixed s)
    /\ forall q, r = Ok q -> normal q
         /\ forall v, PolicyNormal.holds v q = true <-> exists s, selects sample_policy s /\ Forall (fun leaf => meets v leaf = true) s.
Proof. apply concrete_lift_spec. exact sample_policy_valid. Defined.

Lemma compile_checks_spec_witness :
  exists r, compile_checks sample_policy = Some r
    /\ (r = Ok () <->
           binary sample_policy /\ inscriptions_ok sample_policy /\ (forall s, selects sample_policy s -> ~ mixed s)
           /\ NoDup (keys sample_policy)
           /\ (forall s, selects sample_policy s -> Exists (fun q => signed q = true) s) /\ nonmalleable sample_policy).
Proof. apply compile_checks_spec. exact (proj1 (proj1 (valid_spec _) sample_policy_valid)). Defined.
