(* ===== verification/PolicyRewrite.v ===== *)
(** Rewriting of abstract policies ([translate_pk] and [sorted] of
    src/src/policy/semantic.rs): another kind of keys, and the canonical order of branches,
    which is that of the derived [Ord]. *)
From stdpp Require Import sorting.
From S2P Require Import Prelude Bitcoin Primitives Reference Ord Tree StackLoop Translate Script Text Compare Semantic PolicyNormal.
Import Semantic.

(** * Total orders *)

Class CmpLaws {A} (cmp : A -> A -> comparison) : Prop := {
  cmp_eq : forall a b, cmp a b = Eq <-> a = b;
  cmp_opp : forall a b, cmp b a = CompOpp (cmp a b);
  cmp_trans : forall a b c, cmp a b = Lt -> cmp b c = Lt -> cmp a c = Lt;
}.

Definition prod_cmp {A C} (f : A -> A -> comparison) (g : C -> C -> comparison) (x y : A * C) : comparison :=
  then_cmp (f x.1 y.1) (g x.2 y.2).

Lemma then_cmp_Eq c d : then_cmp c d = Eq <-> c = Eq /\ d = Eq.
Proof. destruct c; simpl; intuition congruence. Qed.

Lemma then_cmp_opp c d : CompOpp (then_cmp c d) = then_cmp (CompOpp c) (CompOpp d).
Proof. by destruct c. Qed.

Lemma then_cmp_Lt c d : then_cmp c d = Lt <-> c = Lt \/ c = Eq /\ d = Lt.
Proof. destruct c; simpl; intuition congruence. Qed.

#[export] Instance N_compare_laws : CmpLaws N.compare.
Proof.
  split; [apply N.compare_eq_iff|intros a b; apply N.compare_antisym|]. intros a b c. rewrite !N.compare_lt_iff. lia.
Qed.

#[export] Instance nat_compare_laws : CmpLaws Nat.compare.
Proof.
  split; [apply Nat.compare_eq_iff|intros a b; apply Nat.compare_antisym|]. intros a b c. rewrite !Nat.compare_lt_iff. lia.
Qed.

#[export] Instance bool_cmp_laws : CmpLaws bool_cmp.
Proof. split; [intros [] []; split; (done || congruence)|by intros [] []|by intros [] [] []]. Qed.

#[export] Instance option_cmp_laws {A} cmp : CmpLaws cmp -> CmpLaws (@option_cmp A cmp).
Proof.
  intros [He Ho Ht]. split.
  - intros [a|] [b|]; simpl; rewrite ?He; split; congruence.
  - intros [a|] [b|]; simpl; first [apply Ho | done].
  - intros [a|] [b|] [c|]; simpl; first [apply Ht | done].
Qed.

#[export] Instance prod_cmp_laws {A C} f g : CmpLaws f -> CmpLaws g -> CmpLaws (@prod_cmp A C f g).
Proof.
  intros [He Ho Ht] [He' Ho' Ht']. unfold prod_cmp. split.
  - intros [a c] [a' c']. rewrite then_cmp_Eq, He, He'. cbn. split; [by intros [-> ->]|by intros [= -> ->]].
  - intros [a c] [a' c']. by rewrite then_cmp_opp, Ho, Ho'.
  - intros [a c] [a' c'] [a'' c'']. rewrite !then_cmp_Lt, !He. cbn. intuition (subst; eauto).
Qed.

(** The order of the images under an injection. *)
Lemma cmp_preimage {A C} (f : A -> C) cmp : (forall a b, f a = f b -> a = b) -> CmpLaws cmp -> CmpLaws (fun a b => cmp (f a) (f b)).
Proof.
  intros Hf [He Ho Ht]. split; [intros a b; rewrite He; split; [apply Hf|by intros ->]|intros a b; apply Ho|intros a b c; apply Ht].
Qed.

Section Lists.
Context {A : Type} (cmp : A -> A -> comparison).

Lemma list_cmp_eq l : Forall (fun a => forall b, cmp a b = Eq <-> a = b) l -> forall l', list_cmp cmp l l' = Eq <-> l = l'.
Proof.
  induction 1 as [|a l Ha _ IH]; intros [|b l']; try (cbn; split; congruence).
  rewrite list_cmp_cons, then_cmp_Eq, Ha, IH. split; [by intros [-> ->]|by intros [= -> ->]].
Qed.

Lemma list_cmp_opp l : Forall (fun a => forall b, cmp b a = CompOpp (cmp a b)) l ->
  forall l', list_cmp cmp l' l = CompOpp (list_cmp cmp l l').
Proof. induction 1 as [|a l Ha _ IH]; intros [|b l']; try (cbn; done). by rewrite !list_cmp_cons, then_cmp_opp, Ha, IH. Qed.

Lemma list_cmp_trans l : (forall a b, cmp a b = Eq <-> a = b) ->
  Forall (fun a => forall b c, cmp a b = Lt -> cmp b c = Lt -> cmp a c = Lt) l ->
  forall l' l'', list_cmp cmp l l' = Lt -> list_cmp cmp l' l'' = Lt -> list_cmp cmp l l'' = Lt.
Proof.
  intros He. induction 1 as [|a l Ha _ IH]; intros [|b l'] [|c l'']; try (cbn; done).
  rewrite !list_cmp_cons, !then_cmp_Lt, !He. intuition (subst; eauto).
Qed.

#[export] Instance list_cmp_laws : CmpLaws cmp -> CmpLaws (list_cmp cmp).
Proof.
  intros [He Ho Ht]. split; intros l.
  - apply list_cmp_eq, list.Forall_true. auto.
  - apply list_cmp_opp, list.Forall_true. auto.
  - apply list_cmp_trans; [done|]. apply list.Forall_true. auto.
Qed.
End Lists.

#[export] Instance byte_cmp_laws : CmpLaws byte_cmp.
Proof. apply (cmp_preimage code), _. intros a b H. apply (f_equal byte_of) in H. by destruct a, b. Qed.

#[export] Instance inscription_cmp_laws : CmpLaws inscription_cmp.
Proof.
  pose (fields i := (body i, (content_encoding i, (content_type i, (delegate i, (duplicate_field i, (incomplete_field i,
    (metadata i, (metaprotocol i, (parent i, (pointer i, unrecognized_even_field i))))))))))).
  pose (o := option_cmp bytes_cmp).
  refine (cmp_preimage fields
    (prod_cmp o (prod_cmp o (prod_cmp o (prod_cmp o (prod_cmp bool_cmp (prod_cmp bool_cmp
      (prod_cmp o (prod_cmp o (prod_cmp o (prod_cmp o bool_cmp)))))))))) _ _).
  intros [] [] [= -> -> -> -> -> -> -> -> -> -> ->]. done.
Qed.

(** * The order of policies *)

(** The orders of keys, hashes and of the hashes of templates are total. *)
Class OrdersLaws {B : Bitcoin} {K : MiniscriptKey} (O : Orders) : Prop := {
  Pk_cmp_laws :: CmpLaws Pk_cmp;
  Sha256_cmp_laws :: CmpLaws Sha256_cmp;
  Hash256_cmp_laws :: CmpLaws Hash256_cmp;
  Ripemd160_cmp_laws :: CmpLaws Ripemd160_cmp;
  Hash160_cmp_laws :: CmpLaws Hash160_cmp;
  sha256_cmp_laws :: CmpLaws sha256_cmp;
}.

Section Sorted.
Context {B : Bitcoin} {K : MiniscriptKey} {O : Orders}.

(** The position of the variant. *)
Definition variant (p : Policy) : nat :=
  match p with
  | Unsatisfiable => 0
  | Trivial => 1
  | Key _ => 2
  | After _ => 3
  | Older _ => 4
  | Sha256 _ => 5
  | Hash256 _ => 6
  | Ripemd160 _ => 7
  | Hash160 _ => 8
  | TxTemplate _ => 9
  | Inscribe _ _ => 10
  | Thresh _ => 11
  end.

(** [Ord for Policy], derived: the variant first, then the fields. *)
Fixpoint policy_cmp (p q : Policy) : comparison :=
  then_cmp (Nat.compare (variant p) (variant q))
    (match p, q with
     | Key a, Key b => Pk_cmp a b
     | After a, After b => Compare.abs_cmp a b
     | Older a, Older b => Compare.rel_cmp a b
     | Sha256 a, Sha256 b => Sha256_cmp a b
     | Hash256 a, Hash256 b => Hash256_cmp a b
     | Ripemd160 a, Ripemd160 b => Ripemd160_cmp a b
     | Hash160 a, Hash160 b => Hash160_cmp a b
     | TxTemplate a, TxTemplate b => sha256_cmp a b
     | Inscribe i p, Inscribe j q => then_cmp (inscription_cmp i j) (policy_cmp p q)
     | Thresh (Threshold.mkThreshold k l), Thresh (Threshold.mkThreshold k' l') =>
         then_cmp (Nat.compare k k')
           (list_cmp policy_cmp l l')
     | _, _ => Eq
     end).

Lemma policy_cmp_leaves p q : is_leaf p = true -> variant p = variant q ->
  policy_cmp p q
  = match p, q with
    | Key a, Key b => Pk_cmp a b
    | After a, After b => Compare.abs_cmp a b
    | Older a, Older b => Compare.rel_cmp a b
    | Sha256 a, Sha256 b => Sha256_cmp a b
    | Hash256 a, Hash256 b => Hash256_cmp a b
    | Ripemd160 a, Ripemd160 b => Ripemd160_cmp a b
    | Hash160 a, Hash160 b => Hash160_cmp a b
    | TxTemplate a, TxTemplate b => sha256_cmp a b
    | _, _ => Eq
    end.
Proof. by destruct p, q. Qed.

Lemma policy_cmp_inscribe i p j q :
  policy_cmp (Inscribe i p) (Inscribe j q) = then_cmp (inscription_cmp i j) (policy_cmp p q).
Proof. reflexivity. Qed.

Lemma policy_cmp_thresh k l k' l' :
  policy_cmp (Thresh (mkThreshold k l)) (Thresh (mkThreshold k' l')) = then_cmp (Nat.compare k k') (list_cmp policy_cmp l l').
Proof. reflexivity. Qed.

Definition policy_leb (p q : Policy) : bool := match policy_cmp p q with Gt => false | _ => true end.

(** One turn of the loop of [sorted]. *)
Definition sorted_step (node : Policy) (stack : list Policy) : option (Policy * list Policy) :=
  match node with
  | Inscribe i _ => '(sub, stack) ← pop stack; Some (Inscribe i sub, stack)
  | Thresh thresh =>
      '(subs, stack) ← pop_n (Threshold.n thresh) stack;
      Some (Thresh (mkThreshold (Threshold.k thresh) (sort_by_key policy_leb (fun p => p) subs)), stack)
  | leaf => Some (leaf, stack)
  end.

Definition sorted (self : Policy) : option Policy := stack_root sorted_step self.

(** ** It is total *)

Context {L : LockTimeLaws B} {OL : OrdersLaws O}.

Instance abs_cmp_laws : CmpLaws Compare.abs_cmp.
Proof. apply (cmp_preimage abs_to_consensus_u32), _. intros [a] [b] H%LockTime_inj. cbn in H. by subst. Qed.

Instance rel_cmp_laws : CmpLaws Compare.rel_cmp.
Proof. apply (cmp_preimage rel_to_consensus_u32), _. intros [a] [b] H%Sequence_inj. cbn in H. by subst. Qed.

Lemma policy_cmp_eq p : forall q, policy_cmp p q = Eq <-> p = q.
Proof.
  induction p as [p Hp|i sub IH|k l IH] using policy_ind; intros q.
  - destruct p; try done; destruct q; try (cbn; split; congruence); rewrite policy_cmp_leaves, ?cmp_eq by done; split; congruence.
  - destruct q; try (cbn; split; congruence). rewrite policy_cmp_inscribe.
    rewrite then_cmp_Eq, cmp_eq, IH. split; [by intros [-> ->]|by intros [= -> ->]].
  - destruct q as [| | | | | | | | | | |[k' l']]; try (cbn; split; congruence). rewrite policy_cmp_thresh.
    rewrite then_cmp_Eq, cmp_eq, (list_cmp_eq _ _ IH). split; [by intros [-> ->]|by intros [= -> ->]].
Qed.

Lemma policy_cmp_opp p : forall q, policy_cmp q p = CompOpp (policy_cmp p q).
Proof.
  induction p as [p Hp|i sub IH|k l IH] using policy_ind; intros q.
  - destruct p; try done; destruct q; try reflexivity; rewrite !policy_cmp_leaves by done; apply cmp_opp.
  - destruct q; try reflexivity. rewrite !policy_cmp_inscribe. by rewrite then_cmp_opp, IH, (cmp_opp (cmp := inscription_cmp) i).
  - destruct q as [| | | | | | | | | | |[k' l']]; try reflexivity. rewrite !policy_cmp_thresh.
    by rewrite then_cmp_opp, (list_cmp_opp _ _ IH), (cmp_opp (cmp := Nat.compare) k).
Qed.

Lemma policy_cmp_trans p : forall q r, policy_cmp p q = Lt -> policy_cmp q r = Lt -> policy_cmp p r = Lt.
Proof.
  induction p as [p Hp|i sub IH|k l IH] using policy_ind; intros q r.
  - destruct p; try done; destruct q; try done; destruct r; try done; rewrite !policy_cmp_leaves by done; apply cmp_trans.
  - destruct q; try done; destruct r; try done. rewrite !policy_cmp_inscribe.
    rewrite !then_cmp_Lt, !cmp_eq. intros [?|[-> ?]] [?|[-> ?]]; eauto. left. by eapply cmp_trans.
  - destruct q as [| | | | | | | | | | |[k' l']]; try done; destruct r as [| | | | | | | | | | |[k'' l'']]; try done.
    rewrite !policy_cmp_thresh.
    rewrite !then_cmp_Lt, !cmp_eq. pose proof (list_cmp_trans _ _ policy_cmp_eq IH l' l'').
    intros [?|[-> ?]] [?|[-> ?]]; eauto. left. by eapply cmp_trans.
Qed.

#[local] Instance policy_cmp_laws : CmpLaws policy_cmp.
Proof. split; [apply policy_cmp_eq|intros; apply policy_cmp_opp|intros a b c; apply policy_cmp_trans]. Qed.

Lemma policy_leb_total p q : policy_leb p q = true \/ policy_leb q p = true.
Proof. unfold policy_leb. rewrite (cmp_opp p q). destruct (policy_cmp p q); tauto. Qed.

Definition le (p q : Policy) : Prop := key_le policy_leb (fun p => p) p q.

Lemma le_spec p q : le p q <-> p = q \/ policy_cmp p q = Lt.
Proof.
  unfold le, key_le, policy_leb. rewrite <- policy_cmp_eq. destruct (policy_cmp p q); intuition congruence.
Qed.

Instance le_trans : Transitive le.
Proof. intros p q r. rewrite !le_spec. intros [->|H] [->|H']; auto. right. by eapply cmp_trans. Qed.

Instance le_antisymm : AntiSymm (=) le.
Proof.
  intros p q. rewrite !le_spec. intros [?|H] [?|H']; try congruence.
  assert (policy_cmp p p = Lt) as Hp by (by eapply cmp_trans). by rewrite (proj2 (cmp_eq p p)) in Hp.
Qed.

Lemma sort_perm l l' : Permutation l l' -> sort_by_key policy_leb (fun p => p) l = sort_by_key policy_leb (fun p => p) l'.
Proof.
  intros H. apply (StronglySorted_unique le).
  - apply Sorted_StronglySorted; [apply le_trans|]. apply sort_by_key_sorted, policy_leb_total.
  - apply Sorted_StronglySorted; [apply le_trans|]. apply sort_by_key_sorted, policy_leb_total.
  - by rewrite !sort_by_key_perm.
Qed.

(** ** The canonical form *)

Definition sort (l : list Policy) : list Policy := sort_by_key policy_leb (fun p => p) l.

Definition canonical : Policy -> Policy :=
  tree_fold (fun p subs => match p with
                           | Inscribe i sub => match subs with [sub] => Inscribe i sub | _ => p end
                           | Thresh t => Thresh (mkThreshold (Threshold.k t) (sort subs))
                           | leaf => leaf
                           end).

Lemma sorted_canonical p : sorted p = Some (canonical p).
Proof.
  apply stack_root_eq. intros q subs rest Hl. destruct q as [| | | | | | | | | |i sub|[k l]]; try (by destruct subs).
  - by destruct subs as [|x [|]].
  - change (length subs = length l) in Hl. cbn [sorted_step]. unfold Threshold.n. cbn [Threshold.inner].
    rewrite <- Hl, pop_n_app. done.
Qed.

Lemma canonical_thresh k l : canonical (Thresh (mkThreshold k l)) = Thresh (mkThreshold k (sort (map canonical l))).
Proof. unfold canonical at 1. by rewrite tree_fold_eq. Qed.

Lemma canonical_inscribe i p : canonical (Inscribe i p) = Inscribe i (canonical p).
Proof. reflexivity. Qed.

Lemma canonical_leaf p : is_leaf p = true -> canonical p = p.
Proof. by destruct p. Qed.

(** The same policy up to the order of branches. *)
#[warnings="-register-all"]
Inductive reordered : Policy -> Policy -> Prop :=
| reordered_leaf p : is_leaf p = true -> reordered p p
| reordered_inscribe i p q : reordered p q -> reordered (Inscribe i p) (Inscribe i q)
| reordered_thresh k l l' m :
    Forall2 reordered l l' -> Permutation l' m -> reordered (Thresh (mkThreshold k l)) (Thresh (mkThreshold k m)).

Lemma reordered_canonical p : forall q, reordered p q -> canonical p = canonical q.
Proof.
  induction p as [p Hp|i sub IH|k l IH] using policy_ind; intros q H; inversion H as [? Hq|? ? ? H1|? ? l' m H1 H2]; subst; try done.
  - rewrite !canonical_inscribe. f_equal. by apply IH.
  - rewrite !canonical_thresh. do 2 f_equal. unfold sort. apply sort_perm. rewrite <- H2. clear H H2.
    assert (map canonical l = map canonical l') as ->; [|done].
    revert l' H1. induction IH as [|a l Ha _ IHl]; intros l' H1; inversion H1; subst; [done|]. cbn. f_equal; auto.
Qed.

Lemma canonical_reordered p : forall q, canonical p = canonical q -> reordered p q.
Proof.
  induction p as [p Hp|i sub IH|k l IH] using policy_ind; intros q H.
  - rewrite canonical_leaf in H by done. destruct q as [| | | | | | | | | | |[k l]]; rewrite ?canonical_thresh, ?canonical_inscribe, ?canonical_leaf in H by done;
      subst; first [by apply reordered_leaf | done].
  - rewrite canonical_inscribe in H. destruct q as [| | | | | | | | | | |[k l]]; rewrite ?canonical_thresh, ?canonical_inscribe in H; try discriminate H.
    injection H as <- H. constructor. by apply IH.
  - rewrite canonical_thresh in H. destruct q as [| | | | | | | | | | |[k' m]]; rewrite ?canonical_thresh, ?canonical_inscribe in H; try discriminate H.
    injection H as <- H. assert (Permutation (map canonical l) (map canonical m)) as Hp.
    { transitivity (sort (map canonical l)); [symmetry; apply sort_by_key_perm|]. rewrite H. apply sort_by_key_perm. }
    apply Permutation_map_inv in Hp as (m' & Hm & Hp). apply (reordered_thresh k l m' m); [|done].
    clear H Hp. revert m' Hm. induction IH as [|a l Ha _ IHl]; intros [|b m'] Hm; try done.
    injection Hm as H1 H2. constructor; auto.
Qed.

Lemma canonical_idem p : canonical (canonical p) = canonical p.
Proof.
  induction p as [p Hp|i sub IH|k l IH] using policy_ind.
  - by rewrite (canonical_leaf p Hp), canonical_leaf.
  - by rewrite !canonical_inscribe, IH.
  - rewrite !canonical_thresh. do 2 f_equal. unfold sort. apply sort_perm.
    transitivity (map canonical (map canonical l)); [apply Permutation_map, sort_by_key_perm|].
    assert (map canonical (map canonical l) = map canonical l) as ->; [|done].
    rewrite map_map. apply map_ext_in. rewrite List.Forall_forall in IH. exact IH.
Qed.

Lemma canonical_holds v p : PolicyNormal.holds v (canonical p) = PolicyNormal.holds v p.
Proof.
  induction p as [p Hp|i sub IH|k l IH] using policy_ind.
  - by rewrite canonical_leaf.
  - exact IH.
  - rewrite canonical_thresh. cbn [PolicyNormal.holds]. f_equal. unfold sort. rewrite (count_if_perm _ _ _ (sort_by_key_perm _ _ _)), count_if_map.
    by apply count_if_ext.
Qed.

(** C34: [sorted] brings policies into a canonical form: it never panics, its result is the
    policy with branches reordered and has the same meaning, and two policies have the same
    result if and only if they are the same up to the order of branches. *)
Theorem sorted_spec p :
  exists p', sorted p = Some p' /\ reordered p p' /\ PolicyNormal.equivalent p' p
    /\ forall q, reordered p q <-> sorted q = Some p'.
Proof.
  exists (canonical p). split; [apply sorted_canonical|]. split; [apply canonical_reordered; by rewrite canonical_idem|].
  split; [intros v; apply canonical_holds|]. intros q. rewrite sorted_canonical. split.
  - intros H. by rewrite (reordered_canonical p q H).
  - intros [= H]. by apply canonical_reordered.
Qed.
End Sorted.

(** * Other keys *)

Section Translation.
Context {B : Bitcoin} {P Q : MiniscriptKey} {E : Type}.

(** One turn of the loop of [translate_pk]. *)
Definition translate_step (t : Translator P Q E) (node : Policy (K := P)) (translated : list (Policy (K := Q)))
  : option (result E (Policy (K := Q)) * list (Policy (K := Q))) :=
  match node with
  | Unsatisfiable => Some (Ok Unsatisfiable, translated)
  | Trivial => Some (Ok Trivial, translated)
  | Key pk => Some (pk ← tr_pk t pk; Ok (Key pk), translated)
  | Sha256 h => Some (h ← tr_sha256 t h; Ok (Sha256 h), translated)
  | Hash256 h => Some (h ← tr_hash256 t h; Ok (Hash256 h), translated)
  | Ripemd160 h => Some (h ← tr_ripemd160 t h; Ok (Ripemd160 h), translated)
  | Hash160 h => Some (h ← tr_hash160 t h; Ok (Hash160 h), translated)
  | TxTemplate h => Some (Ok (TxTemplate h), translated)
  | Inscribe i _ => '(sub, translated) ← pop translated; Some (Ok (Inscribe i sub), translated)
  | Older n => Some (Ok (Older n), translated)
  | After n => Some (Ok (After n), translated)
  | Thresh thresh =>
      '(subs, translated) ← pop_n (Threshold.n thresh) translated;
      Some (Ok (Thresh (mkThreshold (Threshold.k thresh) subs)), translated)
  end.

Definition translate_pk (self : Policy (K := P)) (t : Translator P Q E) : option (result E (Policy (K := Q))) :=
  try_root (translate_step t) self.

Definition translate_node (t : Translator P Q E) (node : Policy (K := P)) (subs : list (Policy (K := Q)))
  : result E (Policy (K := Q)) :=
  match translate_step t node subs with Some (r, _) => r | None => Ok Unsatisfiable end.

Definition translated (t : Translator P Q E) : Policy (K := P) -> result E (Policy (K := Q)) := try_fold (translate_node t).

Lemma translate_pk_eq t p : translate_pk p t = Some (translated t p).
Proof.
  apply try_root_eq. intros q subs rest Hl. destruct q as [| | | | | | | | | |i sub|[k l]]; try (by destruct subs).
  - by destruct subs as [|x [|]].
  - change (length subs = length l) in Hl. unfold translate_node. cbn [translate_step]. unfold Threshold.n. cbn [Threshold.inner].
    rewrite <- Hl, pop_n_app. cbn [mbind option_bind]. pose proof (pop_n_app subs []) as H. rewrite app_nil_r in H. by rewrite H.
Qed.

(** The constraints met by the other keys. *)
Definition via (t : Translator P Q E) (v : valuation (K := Q)) : valuation (K := P) := fun leaf =>
  match translate_node t leaf [] with Ok leaf => PolicyNormal.holds v leaf | Err _ => false end.

Lemma translated_holds t v p : forall q, translated t p = Ok q -> PolicyNormal.holds v q = PolicyNormal.holds (via t v) p.
Proof.
  induction p as [p Hp|i sub IH|k l IH] using policy_ind; intros q (subs & Hs & Hq)%try_fold_inv.
  - assert (subs = []) as -> by (destruct p, subs; done). destruct p; try done; cbn [PolicyNormal.holds]; unfold via; rewrite ?Hq; try done;
      cbn in Hq; by injection Hq as <-.
  - destruct subs as [|s [|]]; try done. cbn in Hs. injection Hs as Hs. injection Hq as <-. cbn [PolicyNormal.holds]. by apply IH.
  - change (map (translated t) l = map Ok subs) in Hs.
    assert (Thresh (mkThreshold k subs) = q) as <-.
    { unfold translate_node in Hq. cbn [translate_step] in Hq. unfold Threshold.n in Hq. cbn [Threshold.inner] in Hq.
      apply (f_equal length) in Hs. rewrite !length_map in Hs. pose proof (pop_n_app subs []) as H. rewrite app_nil_r in H.
      rewrite Hs, H in Hq. by injection Hq. }
    cbn [PolicyNormal.holds]. f_equal. clear Hq. revert subs Hs.
    induction IH as [|a l Ha _ IHl]; intros [|b subs] Hs; try done. injection Hs as H1 H2.
    rewrite !count_if_cons. by rewrite (Ha b H1), (IHl subs H2).
Qed.

(** [translate_pk] never panics, and keeps the meaning: the result holds when the policy
    does with the constraints translated. *)
Lemma translate_pk_spec t p :
  exists r, translate_pk p t = Some r
    /\ forall q, r = Ok q -> forall v, PolicyNormal.holds v q = PolicyNormal.holds (via t v) p.
Proof. exists (translated t p). split; [apply translate_pk_eq|]. intros q Hq v. by apply translated_holds. Qed.
End Translation.

(** * Witness *)

#[export] Instance reference_orders : Orders (B := reference) (K := reference_key) :=
  let array_cmp n (a b : Reference.array n) := bytes_cmp (Reference.to_list a) (Reference.to_list b) in
  @Build_Orders reference reference_key (prod_cmp bool_cmp byte_cmp)
    (array_cmp 32) (array_cmp 32) (array_cmp 20) (array_cmp 20) (array_cmp 20) (array_cmp 32).

Lemma array_cmp_laws n : CmpLaws (fun a b : Reference.array n => bytes_cmp (Reference.to_list a) (Reference.to_list b)).
Proof.
  apply (cmp_preimage Reference.to_list); [|apply _]. intros a b H.
  pose proof (Reference.of_to_list n a []) as Ha. pose proof (Reference.of_to_list n b []) as Hb.
  by rewrite H, Hb in Ha.
Qed.

#[export] Instance reference_orders_laws : OrdersLaws reference_orders.
Proof. split; first [apply (array_cmp_laws 32) | apply (array_cmp_laws 20) | apply (prod_cmp_laws bool_cmp byte_cmp); apply _]. Qed.

Lemma sorted_spec_witness :
  exists p', sorted (Thresh (mkThreshold 1 [Key keyB; Key keyA])) = Some p'
    /\ reordered (Thresh (mkThreshold 1 [Key keyB; Key keyA])) p'
    /\ PolicyNormal.equivalent p' (Thresh (mkThreshold 1 [Key keyB; Key keyA]))
    /\ forall q, reordered (Thresh (mkThreshold 1 [Key keyB; Key keyA])) q <-> sorted q = Some p'.
Proof. apply (sorted_spec (OL := reference_orders_laws)). Defined.
