(* ===== verification/PolicyTree.v ===== *)
(** Parsing and writing of policies ([FromTree], [FromStr], [Display] and [Debug] of
    src/src/policy/semantic.rs and src/src/policy/concrete.rs): the nodes of an expression
    tree are read from the last to the first, with a stack of the policies built so far. *)
From S2P Require Import Prelude Bitcoin Primitives Ord Script Envelope Correctness Malleability Types.
From S2P Require Import ExtData Tree Context Lex Text Checksum Expression StrKey Walk Display Semantic Concrete.
Import Expr(splitn, split_at).

(** * What the two parsers share *)

(** The arms of the match on the name of a node. *)
Inductive Arm : Type :=
| A_UNSATISFIABLE | A_TRIVIAL | A_pk | A_after | A_older | A_inscribe | A_txtmpl
| A_sha256 | A_hash256 | A_ripemd160 | A_hash160 | A_and | A_or | A_thresh.

Definition arms : list (str * Arm) :=
  [(lit "UNSATISFIABLE", A_UNSATISFIABLE); (lit "TRIVIAL", A_TRIVIAL); (lit "pk", A_pk);
   (lit "after", A_after); (lit "older", A_older); (lit "inscribe", A_inscribe);
   (lit "txtmpl", A_txtmpl); (lit "sha256", A_sha256); (lit "hash256", A_hash256);
   (lit "ripemd160", A_ripemd160); (lit "hash160", A_hash160); (lit "and", A_and);
   (lit "or", A_or); (lit "thresh", A_thresh)].

(** [rsplit(sep).next()]: what follows the last separator. *)
Definition rsplit_next (sep : Byte.byte) (s : str) : str := rev (split_at sep (rev s)).1.

(** The variants of [crate::Error] that reading a policy returns. *)
Inductive PolicyTreeError {B : Bitcoin} {Sc : Scripts} {St : Strings} : Type :=
| Parse (e : ParseError BoxedError)
| ParseThreshold (e : ParseThresholdError)
| ErrThreshold (e : Threshold.ThresholdError)
| InvalidHex (e : str)
| ErrInscription (e : InscriptionError)
| NotOneInscription
| ConcretePolicy (e : Concrete.PolicyError).

Section Shared.
Context {B : Bitcoin} {Sc : Scripts} {K : MiniscriptKey} {St : Strings} {FK : FromStrKey}.

Definition tree_err {A} (r : option (result ParseTreeError A)) : option (result PolicyTreeError A) :=
  map_err (fun e => Parse (ParseTree e)) <$> r.

(** The constructors of a type of policies. *)
Record Constructors (P : Type) : Type := mkConstructors {
  of_unsatisfiable : P;
  of_trivial : P;
  of_key : Pk -> P;
  of_after : AbsLockTime -> P;
  of_older : RelLockTime -> P;
  of_inscribe : Inscription -> P -> P;
  of_txtmpl : sha256_Hash -> P;
  of_sha256 : Primitives.Sha256 -> P;
  of_hash256 : Primitives.Hash256 -> P;
  of_ripemd160 : Primitives.Ripemd160 -> P;
  of_hash160 : Primitives.Hash160 -> P;
}.
#[global] Arguments mkConstructors {P}.
#[global] Arguments of_unsatisfiable {P}.
#[global] Arguments of_trivial {P}.
#[global] Arguments of_key {P}.
#[global] Arguments of_after {P}.
#[global] Arguments of_older {P}.
#[global] Arguments of_inscribe {P}.
#[global] Arguments of_txtmpl {P}.
#[global] Arguments of_sha256 {P}.
#[global] Arguments of_hash256 {P}.
#[global] Arguments of_ripemd160 {P}.
#[global] Arguments of_hash160 {P}.

Section Arms.
Context {P A : Type} (make : Constructors P) (policy : A -> P).

(** The outcome of code that pops from the stack; [None] is a panic. *)
Abbreviation Step := (option (result PolicyTreeError (P * list A))).

Definition nullary (node : Expr.TreeIterItem) (s : list A) (name : str) (p : P) : Step :=
  bind_r (tree_err (Expr.verify_n_children node name 0 (Some 0))) (fun _ => Some (Ok (p, s))).

Definition terminal {T} (arg : option (result (ParseError BoxedError) T)) (f : T -> P) (s : list A) : Step :=
  bind_r (map_err Parse <$> arg) (fun t => Some (Ok (f t, s))).

(** The only inscription of the script in a leaf. *)
Definition inscription_data (field : Expr.TreeIterItem) : option (result PolicyTreeError Inscription) :=
  bind_r (tree_err (Expr.verify_n_children field (lit "inscription data") 0 (Some 0))) (fun _ =>
    name ← Expr.name field;
    match ScriptBuf_from_hex name with
    | Err e => Some (Err (InvalidHex e))
    | Ok script =>
        match parse_inscriptions script with
        | Err e => Some (Err (ErrInscription e))
        | Ok inscriptions =>
            if negb (length inscriptions =? 1) then Some (Err NotOneInscription)
            else inscription ← list.last inscriptions; Some (Ok inscription)
        end
    end).

Definition inscribe (node : Expr.TreeIterItem) (s : list A) : Step :=
  bind_r (tree_err (Expr.verify_n_children node (lit "inscribe") 2 (Some 2))) (fun _ =>
    field ← Expr.first_child node; field ← field;
    bind_r (inscription_data field) (fun inscription =>
      match s with
      | sub :: s => Some (Ok (of_inscribe make inscription (policy sub), s))
      | [] => None
      end)).

(** The arms without branches, which are the same in both parsers; [branches] has the others. *)
Definition fragment (branches : Arm -> list A -> Step) (node : Expr.TreeIterItem) (frag_name : str) (s : list A) : Step :=
  let parent {T} (from_str : str -> result BoxedError T) name inner :=
    Expr.verify_terminal_parent from_str node (lit name) (lit inner) in
  match arm frag_name arms with
  | Some A_UNSATISFIABLE => nullary node s (lit "UNSATISFIABLE") (of_unsatisfiable make)
  | Some A_TRIVIAL => nullary node s (lit "TRIVIAL") (of_trivial make)
  | Some A_pk => terminal (parent Pk_from_str "pk" "public key")%string (of_key make) s
  | Some A_after => terminal (Expr.verify_after node) (of_after make) s
  | Some A_older => terminal (Expr.verify_older node) (of_older make) s
  | Some A_inscribe => inscribe node s
  | Some A_txtmpl => terminal (parent sha256_from_str "txtmpl" "template hash")%string (of_txtmpl make) s
  | Some A_sha256 => terminal (parent Sha256_from_str "sha256" "hash")%string (of_sha256 make) s
  | Some A_hash256 => terminal (parent Hash256_from_str "hash256" "hash")%string (of_hash256 make) s
  | Some A_ripemd160 => terminal (parent Ripemd160_from_str "ripemd160" "hash")%string (of_ripemd160 make) s
  | Some A_hash160 => terminal (parent Hash160_from_str "hash160" "hash")%string (of_hash160 make) s
  | Some arm => branches arm s
  | None => Some (Err (Parse (ParseTree (UnknownName frag_name))))
  end.

Definition pop_child (_ : Expr.TreeIterItem) (s : list A) : option (result PolicyTreeError P * list A) :=
  match s with [] => None | a :: s => Some (Ok (policy a), s) end.

(** [(0..n).map(|_| stack.pop().unwrap())] *)
Fixpoint pop_all (n : nat) (s : list A) : option (list P * list A) :=
  match n, s with
  | 0, _ => Some ([], s)
  | S n, a :: s => '(l, s) ← pop_all n s; Some (policy a :: l, s)
  | S _, [] => None
  end.
End Arms.

(** The loop over the nodes, and the assertion that one policy is left. *)
Definition loop_root {A} (turn : Expr.TreeIterItem -> list A -> option (result PolicyTreeError (list A)))
    (root : Expr.TreeIterItem) : option (result PolicyTreeError A) :=
  bind_r (tree_err (Expr.verify_no_curly_braces root)) (fun _ =>
    it ← Expr.pre_order_iter root;
    bind_r (rev_loop (fun _ => turn) (range_len it) it []) (fun s =>
      match s with [ret] => Some (Ok ret) | _ => None end)).
End Shared.

(** * Semantic policies *)

Module Sem.
Section Sem.
Context {B : Bitcoin} {Sc : Scripts} {K : MiniscriptKey} {St : Strings} {FK : FromStrKey}.
Abbreviation Policy := Semantic.Policy.

Definition make : Constructors Policy :=
  mkConstructors Semantic.Unsatisfiable Semantic.Trivial Semantic.Key Semantic.After Semantic.Older
    Semantic.Inscribe Semantic.TxTemplate Semantic.Sha256 Semantic.Hash256 Semantic.Ripemd160 Semantic.Hash160.

Definition and_arm (node : Expr.TreeIterItem) (s : list Policy) : option (result PolicyTreeError (Policy * list Policy)) :=
  bind_r (tree_err (Expr.verify_n_children node (lit "and") 2 None)) (fun _ =>
    n ← Expr.n_children node;
    '(subs, s) ← pop_all id n s;
    match Threshold.from_iter 0 n n subs with
    | Ok thresh => Some (Ok (Semantic.Thresh thresh, s))
    | Err e => Some (Err (ErrThreshold e))
    end).

Definition or_arm (node : Expr.TreeIterItem) (s : list Policy) : option (result PolicyTreeError (Policy * list Policy)) :=
  bind_r (tree_err (Expr.verify_n_children node (lit "or") 2 None)) (fun _ =>
    n ← Expr.n_children node;
    '(subs, s) ← pop_all id n s;
    match Threshold.from_iter 0 1 n subs with
    | Ok thresh => Some (Ok (Semantic.Thresh thresh, s))
    | Err e => Some (Err (ErrThreshold e))
    end).

Definition thresh_arm (node : Expr.TreeIterItem) (s : list Policy) : option (result PolicyTreeError (Policy * list Policy)) :=
  '(r, s) ← Expr.verify_threshold 0 ParseThreshold node (pop_child id) s;
  match r with
  | Err e => Some (Err e)
  | Ok thresh =>
      if Threshold.is_or thresh then Some (Err (ParseThreshold IllegalOr))
      else if Threshold.is_and thresh then Some (Err (ParseThreshold IllegalAnd))
      else Some (Ok (Semantic.Thresh thresh, s))
  end.

Definition branches (node : Expr.TreeIterItem) (arm : Arm) (s : list Policy)
  : option (result PolicyTreeError (Policy * list Policy)) :=
  match arm with A_and => and_arm node s | A_or => or_arm node s | _ => thresh_arm node s end.

(** Whether the node is an argument that its parent reads itself. *)
Definition skipped (node : Expr.TreeIterItem) : option (result PolicyTreeError bool) :=
  parent ← Expr.parent node;
  match parent with
  | None => Some (Ok false)
  | Some parent =>
      first ← Expr.is_first_child node;
      name ← Expr.name parent;
      if first && bool_decide (rsplit_next "@"%byte name = lit "inscribe") then Some (Ok true)
      else
        n ← Expr.n_children parent;
        if n =? 1 then Some (Ok true)
        else if first && bool_decide (name = lit "thresh") then Some (Ok true)
        else Some (Ok false)
  end.

Definition turn (node : Expr.TreeIterItem) (s : list Policy) : option (result PolicyTreeError (list Policy)) :=
  bind_r (skipped node) (fun skip =>
    if skip : bool then Some (Ok s)
    else
      name ← Expr.name node;
      bind_r (fragment make id (branches node) node name s) (fun '(new, s) => Some (Ok (new :: s)))).

Definition from_tree (root : Expr.TreeIterItem) : option (result PolicyTreeError Policy) := loop_root turn root.

Context {F : Bech32}.

Definition from_str (s : str) : option (result PolicyTreeError Policy) :=
  bind_r (map_err Parse <$> Expr.from_str s) (fun tree => root ← Expr.root tree; from_tree root).
End Sem.
End Sem.

(** * Concrete policies *)

Module Conc.
Section Conc.
Context {B : Bitcoin} {Sc : Scripts} {K : MiniscriptKey} {St : Strings} {FK : FromStrKey}.
Abbreviation Policy := Concrete.Policy.
Abbreviation stack := (list (N * Policy)).

Definition make : Constructors Policy :=
  mkConstructors Concrete.Unsatisfiable Concrete.Trivial Concrete.Key Concrete.After Concrete.Older
    Concrete.Inscribe Concrete.TxTemplate Concrete.Sha256 Concrete.Hash256 Concrete.Ripemd160 Concrete.Hash160.

Definition and_arm (node : Expr.TreeIterItem) (s : stack) : option (result PolicyTreeError (Policy * stack)) :=
  bind_r (tree_err (Expr.verify_n_children node (lit "and") 2 (Some 2))) (fun _ =>
    match s with
    | a :: b :: s => Some (Ok (Concrete.And [a.2; b.2], s))
    | _ => None
    end).

Definition or_arm (node : Expr.TreeIterItem) (s : stack) : option (result PolicyTreeError (Policy * stack)) :=
  bind_r (tree_err (Expr.verify_n_children node (lit "or") 2 (Some 2))) (fun _ =>
    match s with
    | a :: b :: s => Some (Ok (Concrete.Or [a; b], s))
    | _ => None
    end).

Definition thresh_arm (node : Expr.TreeIterItem) (s : stack) : option (result PolicyTreeError (Policy * stack)) :=
  '(r, s) ← Expr.verify_threshold 0 ParseThreshold node (pop_child snd) s;
  match r with
  | Err e => Some (Err e)
  | Ok thresh => Some (Ok (Concrete.Thresh thresh, s))
  end.

Definition branches (node : Expr.TreeIterItem) (arm : Arm) (s : stack) : option (result PolicyTreeError (Policy * stack)) :=
  match arm with A_and => and_arm node s | A_or => or_arm node s | _ => thresh_arm node s end.

(** Whether the node is an argument that its parent reads itself, which ends the turn; if
    not, whether its name may have a probability. *)
Definition skipped (node : Expr.TreeIterItem) : option (result PolicyTreeError (option bool)) :=
  parent ← Expr.parent node;
  match parent with
  | None => Some (Ok (Some false))
  | Some parent =>
      first ← Expr.is_first_child node;
      name ← Expr.name parent;
      if first && bool_decide (rsplit_next "@"%byte name = lit "inscribe") then Some (Ok None)
      else
        n ← Expr.n_children parent;
        if n =? 1 then Some (Ok None)
        else
          bind_r (tree_err (Expr.name_separated parent "@"%byte)) (fun '(_, parent_name) =>
            if first && bool_decide (parent_name = lit "thresh") then Some (Ok None)
            else Some (Ok (Some (bool_decide (parent_name = lit "or")))))
  end.

(** The rest of the turn. *)
Definition push_node (allow_prob : bool) (node : Expr.TreeIterItem) (s : stack) : option (result PolicyTreeError stack) :=
  bind_r (if allow_prob then tree_err (Expr.name_separated node "@"%byte)
          else name ← Expr.name node; Some (Ok (None, name)))
    (fun '(frag_prob, frag_name) =>
      match match frag_prob with
            | None => Ok 1%N
            | Some s => parse_num_nonzero s (lit "fragment probability")
            end with
      | Err e => Some (Err (Parse (Num e)))
      | Ok frag_prob =>
          bind_r (fragment make snd (branches node) node frag_name s)
            (fun '(new, s) => Some (Ok ((frag_prob, new) :: s)))
      end).

Definition turn (node : Expr.TreeIterItem) (s : stack) : option (result PolicyTreeError stack) :=
  bind_r (skipped node) (fun skip =>
    match skip with None => Some (Ok s) | Some allow_prob => push_node allow_prob node s end).

Definition from_tree (root : Expr.TreeIterItem) : option (result PolicyTreeError Policy) :=
  r ← loop_root turn root; Some (r ← r; Ok r.2).

Context {F : Bech32}.

Definition from_str (s : str) : option (result PolicyTreeError Policy) :=
  bind_r (map_err Parse <$> Expr.from_str s) (fun tree =>
    root ← Expr.root tree;
    bind_r (from_tree root) (fun policy =>
      r ← Concrete.check_timelocks policy;
      Some (_ ← map_err ConcretePolicy r; Ok policy))).
End Conc.
End Conc.
