(* ===== verification/PolicyRead.v ===== *)
(** The policies that expressions denote, as recursions over the grammar of [ExprGrammar],
    and the refinement of the two parsers of [PolicyTree] to them. *)
From S2P Require Import Prelude Bitcoin Primitives Ord Script Envelope Correctness Malleability Types.
From S2P Require Import ExtData Tree Context Lex Text Checksum Expression ExprGrammar StrKey Walk Display Semantic Concrete.
From S2P Require Import FromTree ReadTree PolicyTree.
Import Expr.

(** * Names *)

Lemma rsplit_next_eq sep nm w name : split_name_by sep nm = Some (w, name) -> rsplit_next sep nm = name.
Proof.
  intros H. pose proof (split_name_by_free _ _ _ _ H) as Hf. apply split_name_by_spec in H. unfold rsplit_next.
  assert (~ In sep (rev name)) as Hr by (by rewrite <- in_rev).
  destruct w as [w|]; subst nm.
  - rewrite rev_app_distr. cbn [rev]. rewrite <- app_assoc. cbn [app]. rewrite split_at_app by done. apply rev_involutive.
  - rewrite split_at_none by done. apply rev_involutive.
Qed.

(** The names of the arms have no separator. *)
Lemma arms_free name a : arm name arms = Some a -> ~ In "@"%byte name.
Proof.
  intros H%arm_in. assert (forallb (fun '(s, _) => negb (existsb (fun b => bool_decide (b = "@"%byte)) s)) arms = true) as Hf by reflexivity.
  rewrite forallb_forall in Hf. specialize (Hf _ H). cbn in Hf. apply negb_true_iff in Hf. intros Hin.
  rewrite <- not_true_iff_false, existsb_exists in Hf. apply Hf. exists "@"%byte. split; [done|by apply bool_decide_eq_true].
Qed.

(** * Readings *)

Section Reading.
Context {B : Bitcoin} {Sc : Scripts} {K : MiniscriptKey} {St : Strings} {FK : FromStrKey}.

(** The only inscription of a script. *)
Definition read_inscription (hex : str) : option Inscription :=
  l ← read_inscriptions hex; match l with [i] => Some i | _ => None end.

Definition read_inscribe {P} (make : Constructors P) (field : expr) (sub : option P) : option P :=
  i ← leaf read_inscription field; sub ← sub; Some (of_inscribe make i sub).

(** The arms without branches; [branch] reads the others. *)
Definition read_arm {P} (make : Constructors P) (branch : Arm -> option P) (a : Arm) (cs : list expr) (rs : list (option P))
  : option P :=
  let read {T} (r : str -> result BoxedError T) := argument (fun a => ok (r a)) cs in
  match a with
  | A_UNSATISFIABLE => match cs with [] => Some (of_unsatisfiable make) | _ => None end
  | A_TRIVIAL => match cs with [] => Some (of_trivial make) | _ => None end
  | A_pk => of_key make <$> read Pk_from_str
  | A_after => of_after make <$> argument (fun a => n ← ok (parse_num a); ok (abs_from_consensus n)) cs
  | A_older => of_older make <$> argument (fun a => n ← ok (parse_num a); ok (rel_from_consensus n)) cs
  | A_inscribe =>
      match cs, rs with
      | [field; _], [_; sub] => read_inscribe make field sub
      | _, _ => None
      end
  | A_txtmpl => of_txtmpl make <$> read sha256_from_str
  | A_sha256 => of_sha256 make <$> read Sha256_from_str
  | A_hash256 => of_hash256 make <$> read Hash256_from_str
  | A_ripemd160 => of_ripemd160 make <$> read Ripemd160_from_str
  | A_hash160 => of_hash160 make <$> read Hash160_from_str
  | a => branch a
  end.
End Reading.

(** [and] and [or] have two branches or more; a threshold is neither of them. *)
Definition sem_branch {B : Bitcoin} {K : MiniscriptKey} (cs : list expr) (rs : list (option Semantic.Policy)) (a : Arm)
  : option Semantic.Policy :=
  match a with
  | A_and =>
      if 2 <=? length rs then subs ← mapM id rs; Some (Semantic.Thresh (mkThreshold (length subs) subs)) else None
  | A_or => if 2 <=? length rs then subs ← mapM id rs; Some (Semantic.Thresh (mkThreshold 1 subs)) else None
  | _ =>
      k ← threshold_value cs; subs ← mapM id (tail rs); t ← ok (Threshold.new 0 k subs);
      if Threshold.is_or t || Threshold.is_and t then None else Some (Semantic.Thresh t)
  end.

Fixpoint sem_reading {B : Bitcoin} {Sc : Scripts} {K : MiniscriptKey} {St : Strings} {FK : FromStrKey} (e : expr)
  : option Semantic.Policy :=
  match e with
  | Node nm _ cs =>
      a ← arm nm arms;
      let rs := map sem_reading cs in
      read_arm Sem.make (sem_branch cs rs) a cs rs
  end.

(** [and] and [or] have two branches; those of [or] have probabilities. *)
Definition conc_branch {B : Bitcoin} {K : MiniscriptKey} (cs : list expr) (rs : list (option (N * Concrete.Policy))) (a : Arm)
  : option Concrete.Policy :=
  match a with
  | A_and => match rs with [x; y] => x ← x; y ← y; Some (Concrete.And [x.2; y.2]) | _ => None end
  | A_or => match rs with [x; y] => x ← x; y ← y; Some (Concrete.Or [x; y]) | _ => None end
  | _ => k ← threshold_value cs; subs ← mapM id (tail rs); t ← ok (Threshold.new 0 k (map snd subs)); Some (Concrete.Thresh t)
  end.

Definition read_prob (w : option str) : option N :=
  match w with None => Some 1%N | Some s => ok (parse_num_nonzero s (lit "fragment probability")) end.

(** [allow] says whether the name may start with a probability. *)
Fixpoint conc_reading {B : Bitcoin} {Sc : Scripts} {K : MiniscriptKey} {St : Strings} {FK : FromStrKey} (allow : bool) (e : expr)
  : option (N * Concrete.Policy) :=
  match e with
  | Node nm _ cs =>
      '(w, name) ← (if allow then split_name_by "@"%byte nm else Some (None, nm));
      prob ← read_prob w;
      a ← arm name arms;
      let rs := map (conc_reading (match a with A_or => true | _ => false end)) cs in
      p ← read_arm Conc.make (conc_branch cs rs) a cs (map (fmap snd) rs);
      Some (prob, p)
  end.

(** * The arms *)

(** Whether child number [k] of [n] is skipped under a parent named [pn]; [pname] is the name
    that the parser compares with [thresh]. *)
Definition skips (pname : str -> option str) (k : nat) (pn : str) (n : nat) (_ : expr) : option bool :=
  if (k =? 0) && bool_decide (rsplit_next "@"%byte pn = lit "inscribe") then Some true
  else if n =? 1 then Some true
  else name ← pname pn; Some ((k =? 0) && bool_decide (name = lit "thresh")).

Section Arms.
Context {B : Bitcoin} {Sc : Scripts} {K : MiniscriptKey} {St : Strings} {FK : FromStrKey}.
Context {P A : Type} (make : Constructors P) (policy : A -> P).
Context (value : place -> expr -> option A) (val : expr -> option A) (pname : str -> option str).
Context (nodes : list TreeNode) (i : nat) (parent sib : option nat) (nm name : str) (p : Parens) (cs : list expr).
Context (Hloc : located nodes i parent sib (Node nm p cs)).
Context (Hval : forall k e, value (Some (k, nm, length cs)) e = val e).
Context (Hlast : rsplit_next "@"%byte nm = name) (Hname : pname nm = Some name).
Abbreviation item := (mkItem nodes i).
Abbreviation on_stack := (entries value (skips pname) 0 nm (length cs) cs).
Abbreviation takes := (Walk.takes on_stack).

Lemma policy_skips k e : length cs <> 1 ->
  skips pname k nm (length cs) e
  = Some ((k =? 0) && (bool_decide (name = lit "inscribe") || bool_decide (name = lit "thresh"))).
Proof.
  intros Hn. unfold skips. rewrite Hlast, Hname, (proj2 (Nat.eqb_neq _ _) Hn). cbn [mbind option_bind].
  by destruct (k =? 0), (bool_decide _), (bool_decide _).
Qed.

(** All children are on the stack, or all but the first. *)
Lemma policy_stack_all : name <> lit "inscribe" -> name <> lit "thresh" -> length cs <> 1 -> on_stack = mapM val cs.
Proof.
  intros H1 H2 Hn. apply entries_kept; [exact Hval|]. intros j e _. rewrite policy_skips by done.
  by rewrite !bool_decide_eq_false_2, andb_false_r.
Qed.

Lemma on_stack_tail a q c cs' : name = lit "inscribe" \/ name = lit "thresh" -> cs = Node a q [] :: c :: cs' ->
  on_stack = mapM val (c :: cs').
Proof.
  clear Hloc. intros Hn Hcs. pose proof policy_skips as Hk. rewrite Hcs in *. specialize (fun k e => Hk k e ltac:(done)). cbn [entries].
  rewrite entry_eq, Hk.
  assert (bool_decide (name = lit "inscribe") || bool_decide (name = lit "thresh") = true) as ->
    by (destruct Hn as [-> | ->]; by vm_compute).
  cbn [Nat.eqb andb mbind option_bind entries].
  rewrite <- (entries_kept value (skips pname) val nm (length (Node a q [] :: c :: cs')) (c :: cs') Hval 1) by (intros [|j] e Hj; [lia|by rewrite Hk]).
  cbn [entries]. by destruct (y ← entries _ _ _ _ _ cs'; _).
Qed.

Lemma policy_stack_argument {T} (read : str -> option T) : argument read cs <> None -> on_stack = Some [].
Proof.
  clear Hloc Hval. destruct cs as [|[a q [|]] [|]]; try done. intros _. cbn [entries length mbind option_bind]. rewrite entry_eq.
  unfold skips. by destruct (_ && _).
Qed.

Lemma policy_constant {T} (arg : option (result (ParseError BoxedError) T)) (read : str -> option T) (f : T -> P) :
  outcome arg (argument read cs) -> takes (terminal arg f) (f <$> argument read cs).
Proof.
  intros Ha. replace (f <$> argument read cs) with (argument read cs ≫= fun t => Some (f t)) by (by destruct (argument read cs)).
  apply takes_argument; [apply policy_stack_argument|done|]. intros t s. by eexists.
Qed.

Lemma at_inscription c j sib' : located nodes j (Some i) sib' c ->
  outcome (inscription_data (mkItem nodes j)) (leaf read_inscription c).
Proof.
  destruct c as [a q ks]. intros Hc.
  pose proof (at_verify_exact nodes _ _ _ _ _ _ Hc (lit "inscription data") 0) as H0.
  eapply outcome_seq; [apply outcome_map_err, H0| |]; destruct ks as [|? ?]; try done.
  intros _ _. rewrite (at_name nodes _ _ _ _ _ _ Hc). cbn [mbind option_bind leaf]. unfold read_inscription, read_inscriptions.
  destruct (ScriptBuf_from_hex a) as [script|e]; [|apply outcome_err]. cbn [ok mbind option_bind].
  destruct (parse_inscriptions script) as [l|e]; [|apply outcome_err].
  destruct l as [|x [|y l]]; [apply outcome_err|by eexists|apply outcome_err].
Qed.

Abbreviation rs := (map (fun c => policy <$> val c) cs).

Lemma policy_inscription branch : name = lit "inscribe" ->
  takes (inscribe make policy item) (read_arm make branch A_inscribe cs rs).
Proof.
  intros Hi. apply (takes_count _ _ _ _ _ _ _ Hloc).
  { by destruct cs as [|? [|? [|? ?]]]. }
  intros Hn. pose proof on_stack_tail as Htail. destruct cs as [|field [|sub [|? ?]]]; try discriminate Hn.
  destruct (row_cons _ _ _ _ _ (located_children _ _ _ _ _ _ _ Hloc)) as [Hf _].
  cbn [map read_arm]. unfold read_inscribe.
  assert (leaf read_inscription field <> None -> entries value (skips pname) 0 nm 2 [field; sub] = (fun a => [a]) <$> val sub) as Hst.
  { destruct field as [a q [|? ?]]; [|done]. intros _.
    etransitivity; [exact (Htail a q sub [] (or_introl Hi) eq_refl)|]. cbn. by destruct (val sub). }
  cbn [length]. destruct (leaf read_inscription field) as [x|] eqn:Ex; cbn [mbind option_bind].
  - unfold Walk.takes. rewrite Hst by done. destruct (val sub) as [y|]; [|done]. split; [done|]. intros l s [= <-].
    rewrite (at_first_child _ _ _ _ _ _ _ Hloc). cbn [child_iter mbind option_bind].
    eapply outcome_seq; [by eapply at_inscription| |]; rewrite Ex; [done|]. intros ? [= <-]. by eexists.
  - apply takes_fails. intros s. rewrite (at_first_child _ _ _ _ _ _ _ Hloc). cbn [child_iter mbind option_bind].
    apply outcome_fails. rewrite <- Ex. by eapply at_inscription.
Qed.

Lemma takes_arm branches branch a :
  arm name arms = Some a ->
  ((a = A_and \/ a = A_or \/ a = A_thresh) -> takes (branches a) (branch a)) ->
  takes (fragment make policy branches item name) (read_arm make branch a cs rs).
Proof.
  intros Ha Hb. unfold fragment. rewrite Ha.
  destruct a; cbn [read_arm];
    first [apply (takes_nullary _ _ _ _ _ _ _ Hloc); by intros ->
          |apply policy_constant; first [eapply at_terminal_parent | eapply at_after | eapply at_older]; exact Hloc
          |apply Hb; solve [by left | right; by left | right; by right]
          |idtac].
  apply (policy_inscription branch). apply arm_in in Ha. by repeat destruct Ha as [[= <-]|Ha].
Qed.
End Arms.

Lemma pop_all_app {P A} (policy : A -> P) l s : pop_all policy (length l) (l ++ s) = Some (map policy l, s).
Proof. induction l as [|a l IH]; [done|]. cbn [length pop_all app]. by rewrite IH. Qed.

Lemma from_iter_all {T} k (l : list T) : 1 <= k <= length l -> Threshold.from_iter 0 k (length l) l = Ok (mkThreshold k l).
Proof. intros H. unfold Threshold.from_iter. apply Threshold.new_valid. split; [done|]. split; [cbn; lia|by left]. Qed.

(** * Semantic policies *)

Section Sem.
Context {B : Bitcoin} {Sc : Scripts} {K : MiniscriptKey} {St : Strings} {FK : FromStrKey}.
Context (nodes : list TreeNode).
Abbreviation value := (fun _ : place => sem_reading).
Abbreviation sem_entries := (entries value (skips Some)).

Section Node.
Context (i : nat) (parent sib : option nat) (nm : str) (p : Parens) (cs : list expr).
Context (Hloc : located nodes i parent sib (Node nm p cs)).
Abbreviation item := (mkItem nodes i).
Abbreviation on_stack := (sem_entries 0 nm (length cs) cs).

Lemma takes_nary f k (arm_code : list Semantic.Policy -> option (result PolicyTreeError (Semantic.Policy * list Semantic.Policy))) :
  on_stack = mapM sem_reading cs -> (forall n, 2 <= n -> 1 <= k n <= n) -> 2 <= length cs ->
  (forall s, arm_code s = '(subs, s) ← pop_all id (length cs) s;
                          match Threshold.from_iter 0 (k (length cs)) (length cs) subs with
                          | Ok thresh => Some (Ok (Semantic.Thresh thresh, s))
                          | Err e => Some (Err (f e))
                          end) ->
  Walk.takes on_stack arm_code
    (subs ← mapM id (map sem_reading cs); Some (Semantic.Thresh (mkThreshold (k (length subs)) subs))).
Proof.
  intros Hs Hk Hn Hcode. unfold Walk.takes. rewrite Hs, mapM_id_map.
  destruct (mapM sem_reading cs) as [l|] eqn:E; cbn [mbind option_bind]; [|done]. split; [done|]. intros l' s [= <-].
  apply length_mapM in E. rewrite Hcode, E, pop_all_app. cbn [mbind option_bind].
  rewrite map_id, from_iter_all by (apply Hk; lia). by eexists.
Qed.

Lemma takes_sem_branch a :
  arm nm arms = Some a -> (a = A_and \/ a = A_or \/ a = A_thresh) ->
  Walk.takes on_stack (Sem.branches item a) (sem_branch cs (map sem_reading cs) a).
Proof.
  intros Ha Hor. pose proof (rsplit_next_eq _ _ _ _ (split_name_by_none _ _ (arms_free _ _ Ha))) as Hr. apply arm_in in Ha.
  assert (nm <> lit "inscribe" -> nm <> lit "thresh" -> 2 <= length cs -> on_stack = mapM sem_reading cs) as Hall.
  { intros. apply (policy_stack_all value sem_reading Some nm nm cs); try done. lia. }
  assert (forall lo, in_range lo None (length cs) = (lo <=? length cs)) as Hrange.
  { intros lo. unfold in_range. by rewrite andb_true_r. }
  destruct Hor as [-> | [-> | ->]]; cbn [Sem.branches sem_branch]; rewrite ?length_map.
  - assert (nm = lit "and") as Hnm by (by repeat destruct Ha as [[= <-]|Ha]).
    apply (takes_range _ _ _ _ _ _ _ Hloc); rewrite Hrange; intros H; rewrite H; [done|]. apply Nat.leb_le in H.
    apply (takes_nary ErrThreshold (fun n => n)); [by apply Hall; rewrite ?Hnm|lia|done|].
    intros s. by rewrite (at_n_children _ _ _ _ _ _ _ Hloc).
  - assert (nm = lit "or") as Hnm by (by repeat destruct Ha as [[= <-]|Ha]).
    apply (takes_range _ _ _ _ _ _ _ Hloc); rewrite Hrange; intros H; rewrite H; [done|]. apply Nat.leb_le in H.
    apply (takes_nary ErrThreshold (fun _ => 1)); [by apply Hall; rewrite ?Hnm|lia|done|].
    intros s. by rewrite (at_n_children _ _ _ _ _ _ _ Hloc).
  - assert (nm = lit "thresh") as Hnm by (by repeat destruct Ha as [[= <-]|Ha]).
    assert (tail (map sem_reading cs) = map sem_reading (tail cs)) as -> by (by destruct cs). rewrite mapM_id_map.
    match goal with |- Walk.takes _ _ ?v => assert (v = (k ← threshold_value cs; subs ← mapM sem_reading (tail cs);
             t ← ok (Threshold.new 0 k (map id subs)); if Threshold.is_or t || Threshold.is_and t then None else Some (Semantic.Thresh t))) as -> end.
    { destruct (threshold_value cs); [|done]. cbn [mbind option_bind].
      destruct (mapM sem_reading (tail cs)); [|done]. cbn [mbind option_bind]. by rewrite map_id. }
    apply (takes_threshold _ _ _ _ _ _ _ Hloc _ 0 ParseThreshold (pop_child id) id sem_reading); [done| |].
    + intros x q [|c cs'] Hcs; [by apply (policy_stack_argument value Some nm cs Some); rewrite Hcs|].
      exact (on_stack_tail value sem_reading Some nm nm cs (fun _ _ => eq_refl) Hr eq_refl x q c cs' (or_intror Hnm) Hcs).
    + intros t s. destruct (Threshold.is_or t); [apply outcome_err|]. destruct (Threshold.is_and t); [apply outcome_err|by eexists].
Qed.

Lemma sem_node_ok :
  (on_stack = None -> sem_reading (Node nm p cs) = None)
  /\ forall l s, on_stack = Some l ->
       outcome (name ← Expr.name item;
                bind_r (fragment Sem.make id (Sem.branches item) item name (l ++ s)) (fun '(new, s) => Some (Ok (new :: s))))
         ((fun x => x ++ s) <$> ((fun a => [a]) <$> sem_reading (Node nm p cs))).
Proof.
  rewrite (at_name nodes _ _ _ _ _ _ Hloc). cbn [mbind option_bind sem_reading].
  destruct (arm nm arms) as [a|] eqn:Ea; cbn [mbind option_bind].
  - pose proof (rsplit_next_eq _ _ _ _ (split_name_by_none _ _ (arms_free _ _ Ea))) as Hr.
    pose proof (takes_arm Sem.make id value sem_reading Some nodes i parent sib nm nm p cs Hloc ltac:(done) Hr eq_refl
      (Sem.branches item) (sem_branch cs (map sem_reading cs)) a Ea (takes_sem_branch a Ea)) as [Hn Ht].
    assert (map (fun c => id <$> sem_reading c) cs = map sem_reading cs) as E
      by (apply map_ext; intros c; apply option_fmap_id).
    rewrite E in Hn, Ht. split; [exact Hn|]. intros l s Hl.
    destruct (Ht l s Hl) as (r & Hrun & Hok).
    eapply outcome_seq; [exists r; split; [exact Hrun|exact Hok]| |].
    + by destruct (read_arm _ _ _ _ _).
    + intros [new s'] H. destruct (read_arm _ _ _ _ _); [|done]. injection H as -> ->. by eexists.
  - split; [done|]. intros l s _. apply outcome_fails. unfold fragment. rewrite Ea. apply outcome_err.
Qed.
End Node.

Lemma sem_skipped_ok i parent sib nm p cs j sib' c k :
  located nodes i parent sib (Node nm p cs) -> located nodes j (Some i) sib' c -> (k =? 0) = (i + 1 =? j) ->
  outcome (Sem.skipped (mkItem nodes j)) (skips Some k nm (length cs) c).
Proof.
  destruct c as [a q ks]. intros Hp Hc Hk. unfold Sem.skipped. destruct (located_get nodes _ _ _ _ _ _ Hc) as [pos Hg].
  unfold Expr.parent, is_first_child. rewrite Hg. cbn [fmap option_fmap option_map parent_idx Expr.nodes mbind option_bind index].
  rewrite (at_name nodes _ _ _ _ _ _ Hp), (at_n_children nodes _ _ _ _ _ _ Hp). cbn [mbind option_bind]. unfold skips. rewrite Hk.
  destruct (_ && _); [by eexists|]. destruct (length cs =? 1); [by eexists|]. cbn [mbind option_bind].
  destruct (_ && _); by eexists.
Qed.

Lemma sem_turn_ok pl pos i parent sib nm p cs l s :
  located nodes i parent sib (Node nm p cs) -> at_place nodes None pl pos i parent ->
  sem_entries 0 nm (length cs) cs = Some l ->
  outcome (Sem.turn (mkItem nodes i) (l ++ s)) ((fun x => x ++ s) <$> left_by value (skips Some) pl (Node nm p cs) l).
Proof.
  intros Hloc Hpl Hl. unfold Sem.turn. destruct (sem_node_ok _ _ _ _ _ _ Hloc) as [_ Hpush]. specialize (Hpush l s Hl).
  destruct pl as [[[k pn] n]|]; cbn [left_by].
  - destruct Hpl as (_ & j & par & sib' & q & ks & -> & Hp & -> & Hk).
    eapply outcome_seq; [exact (sem_skipped_ok _ _ _ _ _ _ _ _ _ k Hp Hloc Hk)|by intros ->|].
    intros b ->. cbn [mbind option_bind]. destruct b; [by eexists|exact Hpush].
  - destruct Hpl as [_ ->]. unfold Sem.skipped. destruct (located_get nodes _ _ _ _ _ _ Hloc) as [pos' Hg].
    unfold Expr.parent. rewrite Hg. exact Hpush.
Qed.
End Sem.

(** What is read from a tree, with the check for curly braces. *)
Lemma loop_root_ok {B : Bitcoin} {Sc : Scripts} {St : Strings} {A} nodes
    (turn : TreeIterItem -> list A -> option (result PolicyTreeError (list A))) (v : expr -> option A) i sib e :
  located nodes i None sib e ->
  outcome (it ← pre_order_iter (mkItem nodes i); rev_loop (fun _ => turn) (range_len it) it []) ((fun a => [a]) <$> v e) ->
  outcome (loop_root turn (mkItem nodes i)) (if curly_free e then v e else None).
Proof.
  intros Hl Hloop. unfold loop_root. eapply outcome_seq; [eapply outcome_map_err, verify_no_curly_braces_ok, Hl| |].
  { by destruct (curly_free e). }
  intros [] Hc. destruct (curly_free e); [|done].
  destruct (pre_order_iter (mkItem nodes i)) as [it|]; [|by destruct Hloop as (? & ? & _)]. cbn [mbind option_bind] in *.
  eapply outcome_seq; [exact Hloop|by destruct (v e)|]. intros s Hs. destruct (v e); [|done]. injection Hs as <-. by eexists.
Qed.

(** The semantic policy that an expression denotes. *)
Definition sem_denoted {B : Bitcoin} {Sc : Scripts} {K : MiniscriptKey} {St : Strings} {FK : FromStrKey} (e : expr)
  : option Semantic.Policy := if curly_free e then sem_reading e else None.

Lemma sem_from_tree_ok {B : Bitcoin} {Sc : Scripts} {K : MiniscriptKey} {St : Strings} {FK : FromStrKey} e :
  outcome (Sem.from_tree (mkItem (flat e 0 0 None None) 0)) (sem_denoted e).
Proof.
  eapply loop_root_ok; [apply located_root|].
  eapply (rev_loop_ok (flat e 0 0 None None) (fun _ => Sem.turn) (fun _ : place => sem_reading) (skips Some) None); [| |apply located_root].
  - intros pl i par sib nm p cs Hi. by apply (sem_node_ok _ _ _ _ _ _ _ Hi).
  - intros pl pos i par sib nm p cs l s. by apply sem_turn_ok.
Qed.

(** * Concrete policies *)

Section Conc.
Context {B : Bitcoin} {Sc : Scripts} {K : MiniscriptKey} {St : Strings} {FK : FromStrKey}.
Context (nodes : list TreeNode).

(** Below [or], names may have probabilities. *)
Definition conc_allowed (pl : place) : bool :=
  match pl with
  | None => false
  | Some (_, pn, _) =>
      match split_name_by "@"%byte pn with Some (_, name) => bool_decide (name = lit "or") | None => false end
  end.

Definition conc_pname (nm : str) : option str := snd <$> split_name_by "@"%byte nm.

Abbreviation value := (fun pl => conc_reading (conc_allowed pl)).
Abbreviation conc_entries := (entries value (skips conc_pname)).

Definition is_or (a : Arm) : bool := match a with A_or => true | _ => false end.

Lemma conc_allowed_arm k pn n w name a :
  split_name_by "@"%byte pn = Some (w, name) -> arm name arms = Some a -> conc_allowed (Some (k, pn, n)) = is_or a.
Proof. intros Hs Ha%arm_in. cbn [conc_allowed]. rewrite Hs. by repeat destruct Ha as [[= <- <-]|Ha]. Qed.

Section Node.
Context (i : nat) (parent sib : option nat) (nm : str) (p : Parens) (cs : list expr).
Context (Hloc : located nodes i parent sib (Node nm p cs)).
Abbreviation item := (mkItem nodes i).
Abbreviation on_stack := (conc_entries 0 nm (length cs) cs).

Lemma takes_conc_branch w name a :
  split_name_by "@"%byte nm = Some (w, name) -> arm name arms = Some a -> (a = A_and \/ a = A_or \/ a = A_thresh) ->
  Walk.takes on_stack (Conc.branches item a) (conc_branch cs (map (conc_reading (is_or a)) cs) a).
Proof.
  intros Hs Ha Hor. pose proof (rsplit_next_eq _ _ _ _ Hs) as Hr.
  assert (conc_pname nm = Some name) as Hp by (unfold conc_pname; by rewrite Hs).
  assert (forall k e, value (Some (k, nm, length cs)) e = conc_reading (is_or a) e) as Hv
    by (intros; by rewrite (conc_allowed_arm _ _ _ _ _ _ Hs Ha)).
  apply arm_in in Ha. destruct Hor as [-> | [-> | ->]]; cbn [Conc.branches conc_branch is_or] in *.
  1, 2: apply (takes_count _ _ _ _ _ _ _ Hloc); [by destruct cs as [|? [|? [|? ?]]]|]; intros Hn;
    pose proof (policy_stack_all value _ conc_pname nm name cs Hv Hr Hp) as Hst;
    unfold Walk.takes; rewrite Hst by (try lia; by repeat destruct Ha as [[= <-]|Ha]);
    destruct cs as [|x [|y [|? ?]]]; try discriminate Hn; cbn [mapM map];
    destruct (conc_reading _ x) as [px|]; [|done]; destruct (conc_reading _ y) as [py|]; [|done]; cbn [mbind option_bind];
    split; [done|]; intros l s [= <-]; by eexists.
  assert (tail (map (conc_reading false) cs) = map (conc_reading false) (tail cs)) as -> by (by destruct cs). rewrite mapM_id_map.
  apply (takes_threshold _ _ _ _ _ _ _ Hloc _ 0 ParseThreshold (pop_child snd) snd (conc_reading false) _ (fun t => Some (Concrete.Thresh t))); [done| |].
  - intros x q [|c cs'] Hcs; [by apply (policy_stack_argument value conc_pname nm cs Some); rewrite Hcs|].
    refine (on_stack_tail value _ conc_pname nm name cs Hv Hr Hp x q c cs' (or_intror _) Hcs). by repeat destruct Ha as [[= <-]|Ha].
  - intros t s. by eexists.
Qed.

(** The name of the node is split or not; [frag] is what follows. *)
Lemma conc_node_ok allow :
  (on_stack = None -> conc_reading allow (Node nm p cs) = None)
  /\ forall l s, on_stack = Some l ->
       outcome (Conc.push_node allow item (l ++ s))
         ((fun x => x ++ s) <$> ((fun a => [a]) <$> conc_reading allow (Node nm p cs))).
Proof.
  unfold Conc.push_node. cbn [conc_reading].
  assert (outcome (if allow : bool then tree_err (name_separated item "@"%byte) else name ← Expr.name item; Some (Ok (None, name)))
            (if allow then split_name_by "@"%byte nm else Some (None, nm))) as Hsplit.
  { destruct allow; [apply outcome_map_err, (at_name_separated nodes _ _ _ _ _ _ Hloc)|].
    rewrite (at_name nodes _ _ _ _ _ _ Hloc). by eexists. }
  destruct (if allow then split_name_by "@"%byte nm else Some (None, nm)) as [[w name]|] eqn:Es; cbn [mbind option_bind];
    [|split; [done|]; intros; by apply outcome_fails].
  destruct (read_prob w) as [prob|] eqn:Ep; cbn [mbind option_bind].
  2: { split; [done|]. intros l s _. eapply outcome_seq; [exact Hsplit|done|]. intros ? [= <-]. destruct w as [w|]; [|done].
       cbn [read_prob] in Ep. destruct (parse_num_nonzero w _); [done|apply outcome_err]. }
  assert (match w with None => Ok 1%N | Some s => parse_num_nonzero s (lit "fragment probability") end = Ok prob) as Hprob.
  { destruct w as [w|]; cbn [read_prob] in Ep; [by apply ok_Some|by injection Ep as <-]. }
  destruct (arm name arms) as [a|] eqn:Ea; cbn [mbind option_bind].
  - assert (exists w', split_name_by "@"%byte nm = Some (w', name)) as [w' Hs].
    { destruct allow; [by eexists|]. injection Es as <- ->. eexists. apply split_name_by_none. by eapply arms_free. }
    assert (forall k e, value (Some (k, nm, length cs)) e = conc_reading (is_or a) e) as Hv
      by (intros; by rewrite (conc_allowed_arm _ _ _ _ _ _ Hs Ea)).
    pose proof (takes_arm Conc.make snd value (conc_reading (is_or a)) conc_pname nodes i parent sib nm name p cs Hloc Hv
      (rsplit_next_eq _ _ _ _ Hs) ltac:(unfold conc_pname; by rewrite Hs)
      (Conc.branches item) (conc_branch cs (map (conc_reading (is_or a)) cs)) a Ea (takes_conc_branch w' name a Hs Ea)) as [Hn Ht].
    change (map (conc_reading (match a with A_or => true | _ => false end)) cs) with (map (conc_reading (is_or a)) cs).
    rewrite List.map_map. split; [intros Hnone; by rewrite (Hn Hnone)|]. intros l s Hl.
    eapply outcome_seq; [exact Hsplit|done|]. intros ? [= <-]. rewrite Hprob.
    eapply outcome_seq; [exact (Ht l s Hl)| |].
    + by destruct (read_arm _ _ _ _ _).
    + intros [new s'] H. destruct (read_arm _ _ _ _ _); [|done]. injection H as -> ->. by eexists.
  - split; [done|]. intros l s _. eapply outcome_seq; [exact Hsplit|done|]. intros ? [= <-]. rewrite Hprob.
    apply outcome_fails. unfold fragment. rewrite Ea. apply outcome_err.
Qed.
End Node.

Lemma conc_skipped_ok i parent sib nm p cs j sib' c k :
  located nodes i parent sib (Node nm p cs) -> located nodes j (Some i) sib' c -> (k =? 0) = (i + 1 =? j) ->
  outcome (Conc.skipped (mkItem nodes j))
    (skip ← skips conc_pname k nm (length cs) c;
     Some (if skip : bool then None else Some (conc_allowed (Some (k, nm, length cs))))).
Proof.
  destruct c as [a q ks]. intros Hp Hc Hk. unfold Conc.skipped. destruct (located_get nodes _ _ _ _ _ _ Hc) as [pos Hg].
  unfold Expr.parent, is_first_child. rewrite Hg. cbn [fmap option_fmap option_map parent_idx Expr.nodes mbind option_bind index].
  rewrite (at_name nodes _ _ _ _ _ _ Hp), (at_n_children nodes _ _ _ _ _ _ Hp). cbn [mbind option_bind]. unfold skips. rewrite Hk.
  destruct (_ && _); [by eexists|]. destruct (length cs =? 1); [by eexists|]. unfold conc_pname. cbn [conc_allowed].
  pose proof (at_name_separated nodes _ _ _ _ _ _ Hp "@"%byte) as Hsep.
  destruct (split_name_by "@"%byte nm) as [[w name]|]; cbn [fmap option_fmap option_map snd mbind option_bind];
    [|apply outcome_fails, outcome_map_err, Hsep].
  eapply outcome_seq; [apply outcome_map_err, Hsep|done|]. intros ? [= <-]. destruct (_ && _); by eexists.
Qed.

Lemma conc_turn_ok pl pos i parent sib nm p cs l s :
  located nodes i parent sib (Node nm p cs) -> at_place nodes None pl pos i parent ->
  conc_entries 0 nm (length cs) cs = Some l ->
  outcome (Conc.turn (mkItem nodes i) (l ++ s)) ((fun x => x ++ s) <$> left_by value (skips conc_pname) pl (Node nm p cs) l).
Proof.
  intros Hloc Hpl Hl. unfold Conc.turn.
  destruct (conc_node_ok _ _ _ _ _ _ Hloc (conc_allowed pl)) as [_ Hpush]. specialize (Hpush l s Hl).
  destruct pl as [[[k pn] n]|]; cbn [left_by].
  - destruct Hpl as (_ & j & par & sib' & q & ks & -> & Hp & -> & Hk).
    eapply outcome_seq; [exact (conc_skipped_ok _ _ _ _ _ _ _ _ _ k Hp Hloc Hk)|by destruct (skips _ _ _ _ _)|].
    intros b Hb. destruct (skips _ _ _ _ _) as [[|]|]; [| |done]; injection Hb as <-; [by eexists|exact Hpush].
  - destruct Hpl as [_ ->]. unfold Conc.skipped. destruct (located_get nodes _ _ _ _ _ _ Hloc) as [pos' Hg].
    unfold Expr.parent. rewrite Hg. exact Hpush.
Qed.
End Conc.

(** The concrete policy that an expression denotes. *)
Definition conc_denoted {B : Bitcoin} {Sc : Scripts} {K : MiniscriptKey} {St : Strings} {FK : FromStrKey} (e : expr)
  : option Concrete.Policy := if curly_free e then snd <$> conc_reading false e else None.

Lemma conc_from_tree_ok {B : Bitcoin} {Sc : Scripts} {K : MiniscriptKey} {St : Strings} {FK : FromStrKey} e :
  outcome (Conc.from_tree (mkItem (flat e 0 0 None None) 0)) (conc_denoted e).
Proof.
  assert (outcome (loop_root Conc.turn (mkItem (flat e 0 0 None None) 0)) (if curly_free e then conc_reading false e else None)) as (r & Hr & Hok).
  { eapply loop_root_ok; [apply located_root|].
    eapply (rev_loop_ok (flat e 0 0 None None) (fun _ => Conc.turn) (fun pl => conc_reading (conc_allowed pl)) (skips conc_pname) None);
      [| |apply located_root].
    - intros pl i par sib nm p cs Hi. by apply (conc_node_ok _ _ _ _ _ _ _ Hi).
    - intros pl pos i par sib nm p cs l s. by apply conc_turn_ok. }
  unfold Conc.from_tree. rewrite Hr. eexists. split; [done|]. unfold conc_denoted. rewrite ok_bind, Hok.
  destruct (curly_free e); [|done]. by destruct (conc_reading false e).
Qed.
