(* ===== verification/PolicyShow.v ===== *)
(** Writing policies as strings ([Display] and [Debug] of src/src/policy/semantic.rs and
    src/src/policy/concrete.rs, [ThreshDisplay] of src/src/primitives/threshold.rs), and the
    expressions that are written. *)
From S2P Require Import Prelude Bitcoin Primitives Ord Script Envelope Correctness Malleability Types.
From S2P Require Import ExtData Tree Context Text Checksum Expression ExprGrammar StrKey Walk Display DisplayText Semantic Concrete.
Import Expr(Parens(..)).
#[export] Existing Instances Semantic.Policy_TreeLike Semantic.Policy_WfTree.
#[export] Existing Instances Concrete.Policy_TreeLike Concrete.Policy_WfTree.

(** * Thresholds *)

(** [ThreshDisplay], with the branches written already; [None] is the panic of an index. *)
Definition thresh_display (name : str) (show_k : bool) (k : nat) (inner : list str) : option str :=
  '(first, inners) ← (if show_k then Some (show_N (N.of_nat k), inner)
                      else match inner with [] => None | x :: l => Some (x, l) end);
  Some (name ++ lit "(" ++ first ++ concat (map (cons ","%byte) inners) ++ lit ")").

(** The branches of a vector, in parentheses. *)
Definition vec_display (name : str) (inner : list str) : str :=
  name ++ lit "("
    ++ match inner with [] => [] | x :: l => x ++ concat (map (cons ","%byte) l) end ++ lit ")".

Section Show.
Context {B : Bitcoin} {Sc : Scripts} {K : MiniscriptKey} {Sh : Shows}.

(** [Display for Inscription]: the reveal script in hexadecimal. *)
Definition Inscription_display (self : Inscription) : str :=
  Script_lower_hex (into_script (append_reveal_script_to_builder self Builder_new)).

Definition call (name : str) (arg : str) : str := name ++ lit "(" ++ arg ++ lit ")".

(** * Semantic policies *)

Definition semantic_thresh (k : nat) (inner : list str) : option str :=
  if k =? length inner then thresh_display (lit "and") false k inner
  else if k =? 1 then thresh_display (lit "or") false k inner
  else thresh_display (lit "thresh") true k inner.

Fixpoint semantic_display (self : Semantic.Policy) : option str :=
  match self with
  | Semantic.Unsatisfiable => Some (lit "UNSATISFIABLE")
  | Semantic.Trivial => Some (lit "TRIVIAL")
  | Semantic.Key pkh => Some (call (lit "pk") (Pk_display pkh))
  | Semantic.After n => Some (call (lit "after") (AbsLockTime_display n))
  | Semantic.Older n => Some (call (lit "older") (RelLockTime_display n))
  | Semantic.Sha256 h => Some (call (lit "sha256") (Sha256_display h))
  | Semantic.Hash256 h => Some (call (lit "hash256") (Hash256_display h))
  | Semantic.Ripemd160 h => Some (call (lit "ripemd160") (Ripemd160_display h))
  | Semantic.Hash160 h => Some (call (lit "hash160") (Hash160_display h))
  | Semantic.TxTemplate h => Some (call (lit "txtmpl") (sha256_display h))
  | Semantic.Inscribe i sub => sub ← semantic_display sub; Some (call (lit "inscribe") (Inscription_display i ++ lit "," ++ sub))
  | Semantic.Thresh (Threshold.mkThreshold k l) => l ← mapM id (map semantic_display l); semantic_thresh k l
  end.

(** [Debug] differs in the constants and the keys; inscriptions are written with [Display]. *)
Fixpoint semantic_debug (self : Semantic.Policy) : option str :=
  match self with
  | Semantic.Unsatisfiable => Some (lit "UNSATISFIABLE()")
  | Semantic.Trivial => Some (lit "TRIVIAL()")
  | Semantic.Key pkh => Some (call (lit "pk") (Pk_debug pkh))
  | Semantic.Thresh (Threshold.mkThreshold k l) => l ← mapM id (map semantic_debug l); semantic_thresh k l
  | self => semantic_display self
  end.

(** * Concrete policies *)

Definition prob_display (n : N) (sub : str) : str := show_N n ++ lit "@" ++ sub.

Fixpoint concrete_display (self : Concrete.Policy) : option str :=
  match self with
  | Concrete.Unsatisfiable => Some (lit "UNSATISFIABLE")
  | Concrete.Trivial => Some (lit "TRIVIAL")
  | Concrete.Key pk => Some (call (lit "pk") (Pk_display pk))
  | Concrete.After n => Some (call (lit "after") (AbsLockTime_display n))
  | Concrete.Older n => Some (call (lit "older") (RelLockTime_display n))
  | Concrete.Sha256 h => Some (call (lit "sha256") (Sha256_display h))
  | Concrete.Hash256 h => Some (call (lit "hash256") (Hash256_display h))
  | Concrete.Ripemd160 h => Some (call (lit "ripemd160") (Ripemd160_display h))
  | Concrete.Hash160 h => Some (call (lit "hash160") (Hash160_display h))
  | Concrete.TxTemplate h => Some (call (lit "txtmpl") (sha256_display h))
  | Concrete.Inscribe i sub => sub ← concrete_display sub; Some (call (lit "inscribe") (Inscription_display i ++ lit "," ++ sub))
  | Concrete.And subs => subs ← mapM id (map concrete_display subs); Some (vec_display (lit "and") subs)
  | Concrete.Or subs =>
      subs ← mapM id (map (fun '(n, sub) => prob_display n <$> concrete_display sub) subs);
      Some (vec_display (lit "or") subs)
  | Concrete.Thresh (Threshold.mkThreshold k l) =>
      l ← mapM id (map concrete_display l); thresh_display (lit "thresh") true k l
  end.

Fixpoint concrete_debug (self : Concrete.Policy) : option str :=
  match self with
  | Concrete.Unsatisfiable => Some (lit "UNSATISFIABLE()")
  | Concrete.Trivial => Some (lit "TRIVIAL()")
  | Concrete.Key pk => Some (call (lit "pk") (Pk_debug pk))
  | Concrete.And subs => subs ← mapM id (map concrete_debug subs); Some (vec_display (lit "and") subs)
  | Concrete.Or subs =>
      subs ← mapM id (map (fun '(n, sub) => prob_display n <$> concrete_debug sub) subs);
      Some (vec_display (lit "or") subs)
  | Concrete.Thresh (Threshold.mkThreshold k l) =>
      l ← mapM id (map concrete_debug l); thresh_display (lit "thresh") true k l
  | self => concrete_display self
  end.

(** * The expressions that are written *)

Definition word (s : str) : expr := Node s NoParens [].
Definition apply_to (name : str) (cs : list expr) : expr := Node name Round cs.

Fixpoint semantic_expr (self : Semantic.Policy) : expr :=
  match self with
  | Semantic.Unsatisfiable => word (lit "UNSATISFIABLE")
  | Semantic.Trivial => word (lit "TRIVIAL")
  | Semantic.Key pkh => apply_to (lit "pk") [word (Pk_display pkh)]
  | Semantic.After n => apply_to (lit "after") [word (AbsLockTime_display n)]
  | Semantic.Older n => apply_to (lit "older") [word (RelLockTime_display n)]
  | Semantic.Sha256 h => apply_to (lit "sha256") [word (Sha256_display h)]
  | Semantic.Hash256 h => apply_to (lit "hash256") [word (Hash256_display h)]
  | Semantic.Ripemd160 h => apply_to (lit "ripemd160") [word (Ripemd160_display h)]
  | Semantic.Hash160 h => apply_to (lit "hash160") [word (Hash160_display h)]
  | Semantic.TxTemplate h => apply_to (lit "txtmpl") [word (sha256_display h)]
  | Semantic.Inscribe i sub => apply_to (lit "inscribe") [word (Inscription_display i); semantic_expr sub]
  | Semantic.Thresh (Threshold.mkThreshold k l) =>
      let cs := map semantic_expr l in
      if k =? length l then apply_to (lit "and") cs
      else if k =? 1 then apply_to (lit "or") cs
      else apply_to (lit "thresh") (word (show_N (N.of_nat k)) :: cs)
  end.

(** An expression with a probability in front of its name. *)
Definition with_prob (n : N) (e : expr) : expr := match e with Node nm p cs => Node (prob_display n nm) p cs end.

Fixpoint concrete_expr (self : Concrete.Policy) : expr :=
  match self with
  | Concrete.Unsatisfiable => word (lit "UNSATISFIABLE")
  | Concrete.Trivial => word (lit "TRIVIAL")
  | Concrete.Key pk => apply_to (lit "pk") [word (Pk_display pk)]
  | Concrete.After n => apply_to (lit "after") [word (AbsLockTime_display n)]
  | Concrete.Older n => apply_to (lit "older") [word (RelLockTime_display n)]
  | Concrete.Sha256 h => apply_to (lit "sha256") [word (Sha256_display h)]
  | Concrete.Hash256 h => apply_to (lit "hash256") [word (Hash256_display h)]
  | Concrete.Ripemd160 h => apply_to (lit "ripemd160") [word (Ripemd160_display h)]
  | Concrete.Hash160 h => apply_to (lit "hash160") [word (Hash160_display h)]
  | Concrete.TxTemplate h => apply_to (lit "txtmpl") [word (sha256_display h)]
  | Concrete.Inscribe i sub => apply_to (lit "inscribe") [word (Inscription_display i); concrete_expr sub]
  | Concrete.And subs => apply_to (lit "and") (map concrete_expr subs)
  | Concrete.Or subs => apply_to (lit "or") (map (fun '(n, sub) => with_prob n (concrete_expr sub)) subs)
  | Concrete.Thresh (Threshold.mkThreshold k l) =>
      apply_to (lit "thresh") (word (show_N (N.of_nat k)) :: map concrete_expr l)
  end.

(** ** Their texts *)

Lemma print_call name arg : print (apply_to name [word arg]) = call name arg.
Proof. reflexivity. Qed.

Lemma print_prob n e : print (with_prob n e) = prob_display n (print e).
Proof. destruct e as [nm p cs]. cbn [with_prob]. unfold prob_display. rewrite (print_name nm), print_name. by rewrite <- !app_assoc. Qed.

Lemma print_apply name x l :
  print (apply_to name (x :: l)) = name ++ lit "(" ++ print x ++ concat (map (cons ","%byte) (map print l)) ++ lit ")".
Proof.
  unfold apply_to. rewrite print_node by done. cbn [map open_char close_char]. rewrite join_later, <- app_assoc. done.
Qed.

Section Lists.
Context {T : Type} (f : T -> expr) (name : str).
Abbreviation texts l := (map (fun q => print (f q)) l).

Lemma vec_print l : l <> [] -> vec_display name (texts l) = print (apply_to name (map f l)).
Proof.
  destruct l as [|x l]; [done|]. intros _. unfold vec_display. cbn [map]. rewrite print_apply, !List.map_map. by rewrite <- !app_assoc.
Qed.

Lemma thresh_print k l : l <> [] -> thresh_display name false k (texts l) = Some (print (apply_to name (map f l))).
Proof.
  destruct l as [|x l]; [done|]. intros _. unfold thresh_display. cbn [map mbind option_bind]. by rewrite print_apply, !List.map_map.
Qed.

Lemma thresh_print_k k l :
  thresh_display name true k (texts l) = Some (print (apply_to name (word (show_N (N.of_nat k)) :: map f l))).
Proof. unfold thresh_display. cbn [mbind option_bind]. by rewrite print_apply, !List.map_map. Qed.
End Lists.

Lemma mapM_id_Some {A C} (f : A -> option C) (g : A -> C) l :
  Forall (fun x => f x = Some (g x)) l -> mapM id (map f l) = Some (map g l).
Proof. induction 1 as [|x l Hx _ IH]; [done|]. cbn [map mapM]. rewrite Hx. cbn [id mbind option_bind]. by rewrite IH. Qed.

(** Every threshold has a branch. *)
Lemma semantic_display_print p :
  Forall (fun q => match q with Semantic.Thresh t => Threshold.inner t <> [] | _ => True end) (pre_order p) ->
  semantic_display p = Some (print (semantic_expr p)).
Proof.
  induction p as [p Hp|i sub IH|k l IH] using Semantic.policy_ind; intros H.
  - destruct p; try done; cbn [semantic_display semantic_expr]; by rewrite print_call.
  - apply Forall_pre_order in H as [_ [Hs _]%Forall_cons_1]. cbn [semantic_display semantic_expr]. rewrite IH by done.
    cbn [mbind option_bind]. rewrite print_apply. cbn [map concat]. rewrite app_nil_r. unfold call. by rewrite <- app_assoc.
  - apply Forall_pre_order in H as [Hne Hc]. cbn [semantic_display semantic_expr].
    rewrite (mapM_id_Some _ (fun q => print (semantic_expr q))) by (exact (Forall_apply _ _ _ IH Hc)).
    cbn [mbind option_bind Threshold.inner] in *. unfold semantic_thresh. rewrite length_map, !thresh_print, thresh_print_k by done.
    destruct (k =? _); [done|]. by destruct (k =? 1).
Qed.

Lemma concrete_display_print p :
  Forall (fun q => match q with Concrete.And l => l <> [] | Concrete.Or l => l <> [] | _ => True end) (pre_order p) ->
  concrete_display p = Some (print (concrete_expr p)).
Proof.
  induction p as [p Hp|i sub IH|l IH|l IH|k l IH] using Concrete.concrete_ind; intros H.
  - destruct p; try done; cbn [concrete_display concrete_expr]; by rewrite print_call.
  - apply Forall_pre_order in H as [_ [Hs _]%Forall_cons_1]. cbn [concrete_display concrete_expr]. rewrite IH by done.
    cbn [mbind option_bind]. rewrite print_apply. cbn [map concat]. rewrite app_nil_r. unfold call. by rewrite <- app_assoc.
  - apply Forall_pre_order in H as [Hne Hc]. cbn [concrete_display concrete_expr].
    rewrite (mapM_id_Some _ (fun q => print (concrete_expr q))) by (exact (Forall_apply _ _ _ IH Hc)).
    cbn [mbind option_bind]. by rewrite vec_print.
  - apply Forall_pre_order in H as [Hne Hc]. cbn [concrete_display concrete_expr].
    rewrite (mapM_id_Some _ (fun s => print (with_prob s.1 (concrete_expr s.2)))).
    + cbn [mbind option_bind]. rewrite vec_print by done. do 3 f_equal. apply map_ext. by intros [].
    + change (children (Concrete.Or l)) with (map snd l) in Hc. rewrite List.Forall_map in Hc.
      eapply Forall_apply; [|exact Hc]. eapply List.Forall_impl; [|exact IH]. intros [n x] Hx Hok. cbn [snd fst] in *.
      by rewrite (Hx Hok), print_prob.
  - apply Forall_pre_order in H as [_ Hc]. cbn [concrete_display concrete_expr].
    rewrite (mapM_id_Some _ (fun q => print (concrete_expr q))) by (exact (Forall_apply _ _ _ IH Hc)).
    cbn [mbind option_bind]. apply thresh_print_k.
Qed.
End Show.
