(* ===== verification/PolicyParse.v ===== *)
(** Parsing policies from strings: the parsers return for every string, accept exactly what
    the readings of [PolicyRead] give, and read back what is written. *)
From S2P Require Import Prelude Bitcoin Primitives Reference Ord Script Envelope Correctness Malleability Types.
From S2P Require Import ExtData Tree Context Lex Text Checksum Expression ExprGrammar StrKey Walk Display DisplayText DecodeEncode.
From S2P Require Import Samples Semantic Concrete ConcreteProps ConcreteLift FromTree ReadTree ParseTotal DisplayParse PolicyTree PolicyRead PolicyShow.
Import Expr(Parens(..)).

(** The number of levels of a tree. *)
Section Levels.
Context {T : Type} {TL : TreeLike T} {WF : WfTree T}.

Definition levels : T -> nat := tree_fold (fun _ ls => S (list_max ls)).

Lemma levels_eq t : levels t = S (list_max (map levels (children t))).
Proof. unfold levels at 1. by rewrite tree_fold_eq. Qed.
End Levels.

(** * The policies that are read *)

Section Readable.
Context {B : Bitcoin} {Sc : Scripts} {K : MiniscriptKey}.

Definition inscription_ok (i : Inscription) : Prop := validate i = true /\ canonical i = i.

(** [and], [or] and thresholds have two branches or more. *)
Definition semantic_node_ok (q : Semantic.Policy) : Prop :=
  match q with
  | Semantic.After t => abs_valid t
  | Semantic.Older t => rel_valid t
  | Semantic.Inscribe i _ => inscription_ok i
  | Semantic.Thresh (Threshold.mkThreshold k l) =>
      2 <= length l /\ 1 <= k <= length l /\ (1 < k < length l -> (N.of_nat k < 2 ^ 32)%N)
  | _ => True
  end.

Definition semantic_readable (p : Semantic.Policy) : Prop := Forall semantic_node_ok (pre_order p).

(** [and] and [or] have two branches, with probabilities that are positive 32-bit numbers. *)
Definition concrete_node_ok (q : Concrete.Policy) : Prop :=
  match q with
  | Concrete.After t => abs_valid t
  | Concrete.Older t => rel_valid t
  | Concrete.Inscribe i _ => inscription_ok i
  | Concrete.And l => length l = 2
  | Concrete.Or l => length l = 2 /\ Forall (fun s => 1 <= s.1 < 2 ^ 32)%N l
  | Concrete.Thresh (Threshold.mkThreshold k l) => 1 <= k <= length l /\ (N.of_nat k < 2 ^ 32)%N
  | _ => True
  end.

Definition concrete_readable (p : Concrete.Policy) : Prop := Forall concrete_node_ok (pre_order p).

Lemma concrete_readable_valid p : concrete_readable p -> Concrete.valid p.
Proof.
  induction p as [p IH] using tree_ind. unfold concrete_readable. rewrite Forall_pre_order. intros [Hp Hc].
  apply valid_eq. split; [|by eapply Forall_apply].
  destruct p as [| | | | | | | | | |i sub|l|l|[k l]]; try done; cbn [concrete_node_ok] in Hp; [by destruct Hp|].
  split; [by destruct Hp|by left].
Qed.

End Readable.

(** * What is read is of that form *)

Section Range.
Context {B : Bitcoin} {Sc : Scripts} {BL : BuilderLaws B} {ScL : ScriptLaws Sc} {LL : LockTimeLaws B}.
Context {K : MiniscriptKey} {St : Strings} {FK : FromStrKey}.

Lemma read_inscription_ok hex i : read_inscription hex = Some i -> inscription_ok i.
Proof.
  unfold read_inscription, read_inscriptions. intros (l & (script & _ & H%ok_Some)%bind_Some & Hl)%bind_Some.
  apply parse_inscriptions_inv in H as (_ & _ & H). destruct l as [|x [|]]; [done| |done]. injection Hl as ->.
  by apply Forall_cons_1 in H as [? _].
Qed.

Lemma threshold_value_u32 cs k : threshold_value cs = Some k -> (N.of_nat k < 2 ^ 32)%N.
Proof.
  destruct cs as [|[a q [|]] cs]; try done. cbn [threshold_value].
  intros (n & Hn%ok_Some%parse_num_u32 & ->)%fmap_Some. by rewrite N2Nat.id.
Qed.

Lemma read_arm_ok {P} (make : Constructors P) branch a cs rs p (Q : P -> Prop) :
  Q (of_unsatisfiable make) -> Q (of_trivial make) ->
  (forall pk, Q (of_key make pk)) -> (forall t, abs_valid t -> Q (of_after make t)) ->
  (forall t, rel_valid t -> Q (of_older make t)) ->
  (forall i sub, inscription_ok i -> Q sub -> Q (of_inscribe make i sub)) ->
  (forall h, Q (of_txtmpl make h)) -> (forall h, Q (of_sha256 make h)) -> (forall h, Q (of_hash256 make h)) ->
  (forall h, Q (of_ripemd160 make h)) -> (forall h, Q (of_hash160 make h)) ->
  Forall (fun r => forall p, r = Some p -> Q p) rs ->
  ((a = A_and \/ a = A_or \/ a = A_thresh) -> branch a = Some p -> Q p) ->
  read_arm make branch a cs rs = Some p -> Q p.
Proof.
  intros H1 H2 H3 H4 H5 H6 H7 H8 H9 H10 H11 Hrs Hb. destruct a; cbn [read_arm];
    try (intros (x & Hx & ->)%fmap_Some; try done).
  - destruct cs; [by intros [= <-]|done].
  - destruct cs; [by intros [= <-]|done].
  - apply argument_inv in Hx as (s & (n & Hn%ok_Some%parse_num_u32 & Ht%ok_Some)%bind_Some).
    apply abs_from_consensus_valid in Ht as [? _]; auto.
  - apply argument_inv in Hx as (s & (n & Hn%ok_Some%parse_num_u32 & Ht%ok_Some)%bind_Some).
    apply rel_from_consensus_valid in Ht as [? _]; auto.
  - destruct cs as [|[s q [|]] [|? [|]]]; try done. all: destruct rs as [|? [|r [|]]]; try done. unfold read_inscribe. cbn [leaf].
    intros (i & Hi%read_inscription_ok & (sub & -> & [= <-])%bind_Some)%bind_Some.
    apply Forall_cons_1 in Hrs as [_ [Hsub _]%Forall_cons_1]. auto.
  - apply Hb. by left.
  - apply Hb. right. by left.
  - apply Hb. right. by right.
Qed.

Lemma mapM_id_all {P} (Q : P -> Prop) rs l :
  Forall (fun r => forall p, r = Some p -> Q p) rs -> mapM id rs = Some l -> Forall Q l.
Proof.
  intros H. revert l. induction H as [|r rs Hr _ IH]; intros l; cbn [mapM]; [intros [= <-]; constructor|].
  unfold id at 1. intros (x & Hx & (l' & Hl' & [= <-])%bind_Some)%bind_Some. constructor; auto.
Qed.

Lemma semantic_thresh_readable k l :
  semantic_node_ok (Semantic.Thresh (mkThreshold k l)) -> Forall semantic_readable l ->
  semantic_readable (Semantic.Thresh (mkThreshold k l)).
Proof. intros H Hl. by apply Forall_pre_order. Qed.

Lemma sem_reading_readable e : forall p, sem_reading e = Some p -> semantic_readable p.
Proof.
  induction e as [nm q cs IH] using expr_ind'. intros p. cbn [sem_reading].
  intros (a & _ & H)%bind_Some.
  assert (Forall (fun r => forall p, r = Some p -> semantic_readable p) (map sem_reading cs)) as Hrs by (by apply List.Forall_map).
  eapply (read_arm_ok Sem.make _ a cs _ p semantic_readable); [..|exact Hrs| |exact H];
    try (intros; apply Forall_pre_order; by split).
  - intros i sub Hi Hsub. apply Forall_pre_order. split; [done|]. by apply list.Forall_singleton.
  - intros Ha Hb. clear H. destruct Ha as [-> | [-> | ->]]; cbn [sem_branch] in Hb.
    + rewrite length_map in Hb. destruct (Nat.leb_spec 2 (length cs)); [|done].
      apply bind_Some in Hb as (l & Hl & [= <-]). pose proof (length_mapM _ _ _ Hl) as Hn. rewrite length_map in Hn.
      apply semantic_thresh_readable; [cbn; lia|]. by eapply mapM_id_all.
    + rewrite length_map in Hb. destruct (Nat.leb_spec 2 (length cs)); [|done].
      apply bind_Some in Hb as (l & Hl & [= <-]). pose proof (length_mapM _ _ _ Hl) as Hn. rewrite length_map in Hn.
      apply semantic_thresh_readable; [cbn; lia|]. by eapply mapM_id_all.
    + apply bind_Some in Hb as (k & Hk%threshold_value_u32 & (l & Hl & (t & Ht%ok_Some & Hb)%bind_Some)%bind_Some).
      apply Threshold.new_valid in Ht as [-> [Hk' _]]. cbn [Threshold.k Threshold.inner] in Hk'. unfold Threshold.is_or, Threshold.is_and in Hb. cbn [Threshold.k Threshold.inner] in Hb.
      destruct (Nat.eqb_spec k 1), (Nat.eqb_spec k (length l)); try done. injection Hb as <-.
      apply semantic_thresh_readable; [unfold semantic_node_ok; unfold Threshold.n in Hk'; cbn [Threshold.inner] in Hk'; split; [lia|split; [lia|intros _; exact Hk]]|]. eapply mapM_id_all; [|exact Hl]. by destruct Hrs.
Qed.

Lemma conc_reading_readable e : forall allow n p, conc_reading allow e = Some (n, p) -> (1 <= n < 2 ^ 32)%N /\ concrete_readable p.
Proof.
  induction e as [nm q cs IH] using expr_ind'. intros allow n p. cbn [conc_reading].
  intros ([w name] & _ & (prob & Hprob & (a & _ & (p' & H & [= -> ->])%bind_Some)%bind_Some)%bind_Some)%bind_Some.
  split.
  { destruct w as [w|]; cbn [read_prob] in Hprob; [|by injection Hprob as <-]. apply ok_Some in Hprob.
    pose proof (parse_num_nonzero_pos _ _ _ Hprob). apply parse_num_nonzero_u32 in Hprob. unfold u32 in Hprob. lia. }
  set (allow' := match a with A_or => true | _ => false end) in *.
  assert (Forall (fun r => forall s, r = Some s -> (1 <= s.1 < 2 ^ 32)%N /\ concrete_readable s.2) (map (conc_reading allow') cs)) as Hrs.
  { apply List.Forall_map. eapply List.Forall_impl; [|exact IH]. intros c Hc [m x] Hs. by eapply Hc. }
  assert (Forall (fun r => forall p, r = Some p -> concrete_readable p) (map (fmap snd) (map (conc_reading allow') cs))) as Hps.
  { apply List.Forall_map. eapply List.Forall_impl; [|exact Hrs]. intros r Hr x (s & -> & ->)%fmap_Some. by apply Hr. }
  eapply (read_arm_ok Conc.make _ a cs _ p concrete_readable); [..|exact Hps| |exact H];
    try (intros; apply Forall_pre_order; by split).
  - intros i sub Hi Hsub. apply Forall_pre_order. split; [done|]. by apply list.Forall_singleton.
  - intros Ha Hb. clear H Hps. destruct Ha as [-> | [-> | ->]]; cbn [conc_branch] in Hb.
    + destruct (map (conc_reading allow') cs) as [|x [|y [|]]]; try done.
      apply bind_Some in Hb as (x' & -> & (y' & -> & [= <-])%bind_Some).
      apply Forall_cons_1 in Hrs as [Hx [Hy _]%Forall_cons_1]. apply Forall_pre_order. split; [done|].
      repeat apply Forall_cons_2; [by apply Hx|by apply Hy|constructor].
    + destruct (map (conc_reading allow') cs) as [|x [|y [|]]]; try done.
      apply bind_Some in Hb as (x' & -> & (y' & -> & [= <-])%bind_Some).
      apply Forall_cons_1 in Hrs as [Hx [Hy _]%Forall_cons_1]. apply Forall_pre_order. split.
      * split; [done|]. repeat apply Forall_cons_2; [by apply Hx|by apply Hy|constructor].
      * change (Forall (fun c => Forall concrete_node_ok (pre_order c)) (map snd [x'; y'])).
        repeat apply Forall_cons_2; [by apply Hx|by apply Hy|constructor].
    + apply bind_Some in Hb as (k & Hk%threshold_value_u32 & (l & Hl & (t & Ht%ok_Some & [= <-])%bind_Some)%bind_Some).
      apply Threshold.new_valid in Ht as [-> [Hk' _]]. cbn [Threshold.k Threshold.inner] in Hk'.
      apply Forall_pre_order. split; [done|]. change (children _) with (map snd l). apply List.Forall_map.
      eapply (mapM_id_all (fun s => concrete_readable s.2)); [|exact Hl].
      assert (Forall (fun r => forall s : N * Concrete.Policy, r = Some s -> concrete_readable s.2) (map (conc_reading allow') cs)) as Hrs'
        by (eapply List.Forall_impl; [|exact Hrs]; intros r Hr s Hs; by apply Hr).
      by destruct Hrs'.
Qed.
End Range.

(** * What is written is read back *)

Section ReadBack.
Context {B : Bitcoin} {Sc : Scripts} {BL : BuilderLaws B} {ScL : ScriptLaws Sc} {LL : LockTimeLaws B}.
Context {K : MiniscriptKey} {St : Strings} {FK : FromStrKey} {Sh : Shows} {SL : ShowLaws FK Sh}.

(** ** Texts *)

Create HintDb text.

Lemma word_text s : Forall text_char s -> text_expr (word s).
Proof. intros H. by constructor. Qed.

Lemma apply_text name cs : forallb text_char_dec name = true -> cs <> [] -> Forall text_expr cs -> text_expr (apply_to name cs).
Proof. intros Hn Hne Hcs. constructor; [by apply text_char_all|by destruct cs|done]. Qed.

Lemma show_text n : Forall text_char (show_N n).
Proof. apply digits_text, show_N_digits. Qed.

Lemma inscription_text i : Forall text_char (Inscription_display i).
Proof. apply Script_written. Qed.

Lemma abs_text t : Forall text_char (AbsLockTime_display t).
Proof. unfold AbsLockTime_display. rewrite LockTime_shown. apply show_text. Qed.

Lemma rel_text t : Forall text_char (RelLockTime_display t).
Proof. unfold RelLockTime_display. rewrite Sequence_shown. apply show_text. Qed.

#[local] Hint Resolve show_text inscription_text abs_text rel_text word_text : text.
#[local] Hint Extern 1 (Forall text_char _) => first [apply Pk_written | apply Sha256_written | apply Hash256_written
  | apply Ripemd160_written | apply Hash160_written | apply sha256_written] : text.

Ltac text_leaf :=
  first [apply apply_text; [reflexivity|done|repeat constructor; by auto with text] | apply word_text, text_char_all; reflexivity].

Lemma with_prob_text n e : text_expr e -> text_expr (with_prob n e).
Proof.
  intros [nm p cs Hn Hp Hcs]. cbn [with_prob]. constructor; [|done..]. unfold prob_display.
  apply list.Forall_app. split; [apply show_text|]. apply list.Forall_app. split; [by apply text_char_all|done].
Qed.

Lemma semantic_text p : semantic_readable p -> text_expr (semantic_expr p).
Proof.
  induction p as [p Hp|i sub IH|k l IH] using Semantic.policy_ind; intros H; apply Forall_pre_order in H as [Hn Hc].
  - destruct p; try done; cbn [semantic_expr]; text_leaf.
  - apply Forall_cons_1 in Hc as [Hs _]. apply apply_text; [reflexivity|done|]. repeat constructor; [by auto with text|by apply IH].
  - pose proof (Forall_apply _ _ _ IH Hc) as Hl. cbn [semantic_expr]. destruct Hn as [Hn _].
    assert (Forall text_expr (map semantic_expr l)) as Hl' by (by apply List.Forall_map).
    assert (map semantic_expr l <> []) as Hne by (by destruct l; [cbn in Hn; lia|]).
    destruct (k =? length l); [by apply apply_text|]. destruct (k =? 1); [by apply apply_text|].
    apply apply_text; [reflexivity|done|]. constructor; [|done]. by auto with text.
Qed.

Lemma concrete_text p : concrete_readable p -> text_expr (concrete_expr p).
Proof.
  induction p as [p Hp|i sub IH|l IH|l IH|k l IH] using Concrete.concrete_ind; intros H; apply Forall_pre_order in H as [Hn Hc].
  - destruct p; try done; cbn [concrete_expr]; text_leaf.
  - apply Forall_cons_1 in Hc as [Hs _]. apply apply_text; [reflexivity|done|]. repeat constructor; [by auto with text|by apply IH].
  - pose proof (Forall_apply _ _ _ IH Hc) as Hl. cbn [concrete_expr concrete_node_ok] in *.
    apply apply_text; [reflexivity|by destruct l|by apply List.Forall_map].
  - change (children (Concrete.Or l)) with (map snd l) in Hc. rewrite List.Forall_map in Hc.
    pose proof (Forall_apply _ _ _ IH Hc) as Hl. destruct Hn as [Hn _].
    apply apply_text; [reflexivity|by destruct l|]. apply List.Forall_map.
    eapply List.Forall_impl; [|exact Hl]. intros [m x] Hx. by apply with_prob_text.
  - pose proof (Forall_apply _ _ _ IH Hc) as Hl. apply apply_text; [reflexivity|done|].
    constructor; [by auto with text|by apply List.Forall_map].
Qed.

(** ** Depths and parentheses *)

Lemma list_max_cons x l : list_max (x :: l) = Nat.max x (list_max l).
Proof. done. Qed.

Lemma list_max_map {T} (f g : T -> nat) l : Forall (fun x => f x <= g x) l -> list_max (map f l) <= list_max (map g l).
Proof. induction 1 as [|x l Hx _ IH]; [done|]. cbn [map]. rewrite !list_max_cons. lia. Qed.

Lemma depth_apply name cs : depth (apply_to name cs) = S (list_max (map depth cs)).
Proof. by apply depth_node. Qed.

Lemma depth_prob n e : depth (with_prob n e) = depth e.
Proof. by destruct e as [nm [] cs]. Qed.

Lemma semantic_depth p : depth (semantic_expr p) <= levels p.
Proof.
  induction p as [p Hp|i sub IH|k l IH] using Semantic.policy_ind; rewrite levels_eq.
  - destruct p; try done; cbn; lia.
  - change (children (Semantic.Inscribe i sub)) with [sub]. cbn [semantic_expr]. rewrite depth_apply. cbn [map].
    rewrite !list_max_cons. cbn [depth word]. lia.
  - cbn [semantic_expr]. apply (list_max_map (fun q => depth (semantic_expr q))) in IH.
    rewrite <- (List.map_map semantic_expr depth) in IH. change (children (Semantic.Thresh (mkThreshold k l))) with l.
    destruct (k =? length l); [rewrite depth_apply; lia|]. destruct (k =? 1); rewrite depth_apply; [lia|].
    cbn [map]. rewrite list_max_cons. cbn [depth word]. lia.
Qed.

Lemma concrete_depth p : depth (concrete_expr p) <= levels p.
Proof.
  induction p as [p Hp|i sub IH|l IH|l IH|k l IH] using Concrete.concrete_ind; rewrite levels_eq.
  - destruct p; try done; cbn; lia.
  - change (children (Concrete.Inscribe i sub)) with [sub]. cbn [concrete_expr]. rewrite depth_apply. cbn [map].
    rewrite !list_max_cons. cbn [depth word]. lia.
  - cbn [concrete_expr]. apply (list_max_map (fun q => depth (concrete_expr q))) in IH.
    rewrite <- (List.map_map concrete_expr depth) in IH. rewrite depth_apply. change (children (Concrete.And l)) with l. lia.
  - cbn [concrete_expr]. apply (list_max_map (fun s => depth (concrete_expr s.2)) (fun s => levels s.2)) in IH.
    rewrite depth_apply. change (children (Concrete.Or l)) with (map snd l). rewrite !List.map_map.
    assert (map (fun x : N * Concrete.Policy => depth (let '(n, sub) := x in with_prob n (concrete_expr sub))) l
            = map (fun s => depth (concrete_expr s.2)) l) as -> by (apply map_ext; intros []; apply depth_prob). lia.
  - cbn [concrete_expr]. apply (list_max_map (fun q => depth (concrete_expr q))) in IH.
    rewrite <- (List.map_map concrete_expr depth) in IH. rewrite depth_apply. change (children (Concrete.Thresh (mkThreshold k l))) with l.
    cbn [map]. rewrite list_max_cons. cbn [depth word]. lia.
Qed.

Lemma curly_apply name cs : curly_free (apply_to name cs) = forallb curly_free cs.
Proof. done. Qed.

Lemma curly_map {T} (f : T -> expr) l : Forall (fun x => curly_free (f x) = true) l -> forallb curly_free (map f l) = true.
Proof. induction 1 as [|x l Hx _ IH]; [done|]. cbn. by rewrite Hx, IH. Qed.

Lemma semantic_curly p : curly_free (semantic_expr p) = true.
Proof.
  induction p as [p Hp|i sub IH|k l IH] using Semantic.policy_ind.
  - by destruct p.
  - cbn [semantic_expr]. rewrite curly_apply. cbn [forallb]. by rewrite IH.
  - apply curly_map in IH. cbn [semantic_expr]. destruct (k =? length l); [done|]. by destruct (k =? 1).
Qed.

Lemma concrete_curly p : curly_free (concrete_expr p) = true.
Proof.
  induction p as [p Hp|i sub IH|l IH|l IH|k l IH] using Concrete.concrete_ind.
  - by destruct p.
  - cbn [concrete_expr]. rewrite curly_apply. cbn [forallb]. by rewrite IH.
  - by apply curly_map in IH.
  - cbn [concrete_expr]. rewrite curly_apply. apply curly_map. eapply List.Forall_impl; [|exact IH].
    intros [n x] Hx. cbn [snd] in Hx. by destruct (concrete_expr x).
  - by apply curly_map in IH.
Qed.

(** ** Readings *)

Lemma read_word {T X} (from_str : str -> result X T) (display : T -> str) x :
  written from_str display -> argument (fun a => ok (from_str a)) [word (display x)] = Some x.
Proof. intros H. cbn. by rewrite (proj1 (H x)). Qed.

Lemma read_after t : abs_valid t ->
  argument (fun a => n ← ok (parse_num a); ok (abs_from_consensus n)) [word (AbsLockTime_display t)] = Some t.
Proof.
  intros H. cbn [argument word]. unfold AbsLockTime_display. rewrite LockTime_shown, parse_show by (by apply abs_valid_u32).
  cbn [ok mbind option_bind]. change (LockTime_to_consensus_u32 (abs_inner t)) with (abs_to_consensus_u32 t). by rewrite abs_round.
Qed.

Lemma read_older t : rel_valid t ->
  argument (fun a => n ← ok (parse_num a); ok (rel_from_consensus n)) [word (RelLockTime_display t)] = Some t.
Proof.
  intros H. cbn [argument word]. unfold RelLockTime_display. rewrite Sequence_shown, parse_show by (by apply rel_valid_u32).
  cbn [ok mbind option_bind]. change (Sequence_to_consensus_u32 (rel_inner t)) with (rel_to_consensus_u32 t). by rewrite rel_round.
Qed.

Lemma read_inscription_shown i : inscription_ok i -> leaf read_inscription (word (Inscription_display i)) = Some i.
Proof.
  intros [Hv Hc]. cbn [leaf word]. unfold read_inscription, read_inscriptions, Inscription_display.
  rewrite (proj1 (Script_written _)). cbn [ok mbind option_bind].
  pose proof (parse_reveal [i]) as H. cbn [reveal fold_left map] in H. rewrite H, Hc by (try done; by repeat constructor). done.
Qed.

Lemma read_k_shown k cs : (N.of_nat k < 2 ^ 32)%N -> threshold_value (word (show_N (N.of_nat k)) :: cs) = Some k.
Proof. intros H. cbn [threshold_value word]. rewrite parse_show by done. cbn. by rewrite Nat2N.id. Qed.

Lemma mapM_read {T} (r : expr -> option T) (f : T -> expr) l :
  Forall (fun x => r (f x) = Some x) l -> mapM id (map r (map f l)) = Some l.
Proof. induction 1 as [|x l Hx _ IH]; [done|]. cbn [map mapM]. rewrite Hx. cbn [id mbind option_bind]. by rewrite IH. Qed.

Lemma new_ok {T} k (l : list T) : 1 <= k <= length l -> Threshold.new 0 k l = Ok (mkThreshold k l).
Proof. intros H. apply Threshold.new_valid. split; [done|]. split; [done|by left]. Qed.

(** The arm of an expression with a fixed name. *)
Ltac at_arm :=
  cbn [semantic_expr concrete_expr word apply_to sem_reading conc_reading mbind option_bind read_prob];
  match goal with |- context [arm ?n arms] => let a := eval vm_compute in (arm n arms) in change (arm n arms) with a end;
  cbn [mbind option_bind read_arm].

Ltac read_leaf :=
  at_arm;
  first [reflexivity
        |rewrite read_after by done; reflexivity
        |rewrite read_older by done; reflexivity
        |first [rewrite (read_word _ _ _ Pk_written) | rewrite (read_word _ _ _ Sha256_written) | rewrite (read_word _ _ _ Hash256_written)
               |rewrite (read_word _ _ _ Ripemd160_written) | rewrite (read_word _ _ _ Hash160_written) | rewrite (read_word _ _ _ sha256_written)]; reflexivity].

Lemma semantic_read_back p : semantic_readable p -> sem_reading (semantic_expr p) = Some p.
Proof.
  induction p as [p Hp|i sub IH|k l IH] using Semantic.policy_ind; intros H; apply Forall_pre_order in H as [Hn Hc].
  - destruct p; try done; read_leaf.
  - apply Forall_cons_1 in Hc as [Hs _]. at_arm. cbn [map]. unfold read_inscribe.
    rewrite read_inscription_shown, IH by done. done.
  - pose proof (Forall_apply _ _ _ IH Hc) as Hl. cbn [semantic_node_ok] in Hn. destruct Hn as (Hn & Hk & H32).
    cbn [semantic_expr]. destruct (Nat.eqb_spec k (length l)) as [->|Hkn]; [|destruct (Nat.eqb_spec k 1) as [->|Hk1]]; at_arm; cbn [sem_branch].
    + rewrite !length_map, (proj2 (Nat.leb_le _ _)), mapM_read by done. done.
    + rewrite !length_map, (proj2 (Nat.leb_le _ _)), mapM_read by done. done.
    + change (Node (show_N (N.of_nat k)) NoParens []) with (word (show_N (N.of_nat k))).
      cbn [map tail]. rewrite read_k_shown, mapM_read by (done || apply H32; lia). cbn [mbind option_bind]. rewrite new_ok by done. cbn [ok mbind option_bind].
      unfold Threshold.is_or, Threshold.is_and. cbn [Threshold.k Threshold.inner].
      by rewrite (proj2 (Nat.eqb_neq _ _) Hkn), (proj2 (Nat.eqb_neq _ _) Hk1).
Qed.

(** A probability in front of a name that is read. *)
Lemma conc_reading_prob n e m p :
  (1 <= n < 2 ^ 32)%N -> conc_reading false e = Some (m, p) -> conc_reading true (with_prob n e) = Some (n, p).
Proof.
  intros Hn. destruct e as [nm q cs]. cbn [with_prob conc_reading mbind option_bind read_prob]. intros (a & Ha & H)%bind_Some.
  unfold prob_display. change (lit "@" ++ nm) with ("@"%byte :: nm). rewrite split_name_by_app.
  - cbn [mbind option_bind read_prob]. rewrite parse_show_nonzero by lia. cbn [ok mbind option_bind]. rewrite Ha. cbn [mbind option_bind].
    apply bind_Some in H as (p' & -> & [= _ ->]). done.
  - intros Hin. pose proof (show_N_digits n) as Hd. rewrite List.Forall_forall in Hd. apply Hd in Hin. unfold is_digit in Hin. vm_compute in Hin. tauto.
  - by eapply arms_free.
Qed.

Lemma concrete_read_back p : concrete_readable p -> conc_reading false (concrete_expr p) = Some (1%N, p).
Proof.
  induction p as [p Hp|i sub IH|l IH|l IH|k l IH] using Concrete.concrete_ind; intros H; apply Forall_pre_order in H as [Hn Hc].
  - destruct p; try done; read_leaf.
  - apply Forall_cons_1 in Hc as [Hs _]. at_arm. cbn [map]. unfold read_inscribe.
    rewrite read_inscription_shown, IH by done. done.
  - pose proof (Forall_apply _ _ _ IH Hc) as Hl. cbn [concrete_node_ok] in Hn. destruct l as [|x [|y [|]]]; try done.
    apply Forall_cons_1 in Hl as [Hx [Hy _]%Forall_cons_1]. at_arm. cbn [conc_branch map]. by rewrite Hx, Hy.
  - change (children (Concrete.Or l)) with (map snd l) in Hc. rewrite List.Forall_map in Hc.
    pose proof (Forall_apply _ _ _ IH Hc) as Hl. cbn [concrete_node_ok] in Hn. destruct Hn as [Hn Hp]. destruct l as [|[n x] [|[m y] [|]]]; try done.
    apply Forall_cons_1 in Hl as [Hx [Hy _]%Forall_cons_1]. apply Forall_cons_1 in Hp as [Hpn [Hpm _]%Forall_cons_1]. at_arm. cbn [conc_branch map fst snd] in *.
    by rewrite (conc_reading_prob _ _ _ _ Hpn Hx), (conc_reading_prob _ _ _ _ Hpm Hy).
  - pose proof (Forall_apply _ _ _ IH Hc) as Hl. cbn [concrete_node_ok] in Hn. destruct Hn as (Hk & H32).
    at_arm. cbn [conc_branch]. change (Node (show_N (N.of_nat k)) NoParens []) with (word (show_N (N.of_nat k))).
    cbn [map tail]. rewrite read_k_shown by done. cbn [mbind option_bind].
    assert (mapM id (map (conc_reading false) (map concrete_expr l)) = Some (map (fun x => (1%N, x)) l)) as ->.
    { clear -Hl. induction Hl as [|x l Hx _ IH]; [done|]. cbn [map mapM]. rewrite Hx. cbn [id mbind option_bind]. by rewrite IH. }
    cbn [mbind option_bind]. rewrite List.map_map, map_id, new_ok by done. done.
Qed.

Lemma semantic_nonempty p : semantic_readable p ->
  Forall (fun q => match q with Semantic.Thresh t => Threshold.inner t <> [] | _ => True end) (pre_order p).
Proof.
  intros H. eapply List.Forall_impl; [|exact H]. intros q Hq. destruct q as [| | | | | | | | | | |[k l]]; try done.
  destruct Hq as [Hq _]. destruct l; [cbn in Hq; lia|done].
Qed.

Lemma concrete_nonempty p : concrete_readable p ->
  Forall (fun q => match q with Concrete.And l => l <> [] | Concrete.Or l => l <> [] | _ => True end) (pre_order p).
Proof.
  intros H. eapply List.Forall_impl; [|exact H]. intros q Hq. destruct q as [| | | | | | | | | | |l|l|]; try done; cbn in Hq.
  - by destruct l.
  - destruct Hq. by destruct l.
Qed.
End ReadBack.

(** * From a string *)

Section FromString.
Context {B : Bitcoin} {Sc : Scripts} {BL : BuilderLaws B} {ScL : ScriptLaws Sc} {LL : LockTimeLaws B}.
Context {K : MiniscriptKey} {St : Strings} {FK : FromStrKey} {F : Bech32} {FL : Bech32Laws F}.

(** The check of [from_str] on what was read. *)
Definition timelocks_ok (p : Concrete.Policy) : bool := negb (contains_combination (infos p)).

Definition concrete_checked (e : expr) : option Concrete.Policy :=
  p ← conc_denoted e; if timelocks_ok p then Some p else None.

Definition concrete_at (root : Expr.TreeIterItem) : option (result PolicyTreeError Concrete.Policy) :=
  bind_r (Conc.from_tree root) (fun policy =>
    r ← Concrete.check_timelocks policy; Some (_ ← map_err ConcretePolicy r; Ok policy)).

Lemma concrete_at_ok e : outcome (concrete_at (Expr.mkItem (flat e 0 0 None None) 0)) (concrete_checked e).
Proof.
  apply outcome_bind; [apply conc_from_tree_ok|]. intros p _. rewrite check_timelocks_eq. unfold timelocks_ok.
  destruct (contains_combination (infos p)); by eexists.
Qed.

(** C35: Parsing a semantic policy from a string returns for every string, without panic. It
    succeeds exactly on the texts of expressions without curly braces, nested at most 402
    deep and followed by a valid checksum or none, that read as a policy; and in this
    policy, which is the result, every threshold has at least two branches and a value in
    range, lock times are valid and inscriptions within their bounds. *)
Theorem semantic_from_str_spec s : is_str s = true ->
  exists r, Sem.from_str s = Some r
    /\ (forall p, r = Ok p -> semantic_readable p)
    /\ forall p, r = Ok p <->
         exists e, wf_expr e /\ verify_checksum s = Some (Ok (print e)) /\ depth e <= MAX_RECURSION_DEPTH
           /\ curly_free e = true /\ sem_reading e = Some p.
Proof.
  intros Hs. destruct (from_str_total Parse Sem.from_tree sem_denoted sem_from_tree_ok s Hs) as (r & Hr & Hok).
  exists r. split; [exact Hr|].
  assert (forall p, r = Ok p <->
         exists e, wf_expr e /\ verify_checksum s = Some (Ok (print e)) /\ depth e <= MAX_RECURSION_DEPTH
           /\ curly_free e = true /\ sem_reading e = Some p) as Hiff.
  { intros p. rewrite <- ok_Some, Hok. unfold sem_denoted. split.
    - intros (e & H1 & H2 & H3 & H4). exists e. by destruct (curly_free e).
    - intros (e & H1 & H2 & H3 & H4 & H5). exists e. by rewrite H4. }
  split; [|exact Hiff]. intros p (e & _ & _ & _ & _ & H)%Hiff. by eapply sem_reading_readable.
Qed.

(** C36: Parsing a concrete policy from a string returns for every string, without panic. It
    succeeds exactly on the texts of expressions (without curly braces, nested at most 402
    deep, with a valid checksum or none) that read as a policy which no one can satisfy by
    mixing heights and times; in this policy, which is the result, conjunctions and
    disjunctions have two branches, probabilities are positive 32-bit numbers, thresholds
    and lock times are in range and inscriptions within their bounds. *)
Theorem concrete_from_str_spec s : is_str s = true ->
  exists r, Conc.from_str s = Some r
    /\ (forall p, r = Ok p -> concrete_readable p)
    /\ forall p, r = Ok p <->
         (exists e, wf_expr e /\ verify_checksum s = Some (Ok (print e)) /\ depth e <= MAX_RECURSION_DEPTH
            /\ curly_free e = true /\ snd <$> conc_reading false e = Some p)
         /\ forall sel, selects p sel -> ~ mixed sel.
Proof.
  intros Hs. destruct (from_str_total Parse concrete_at concrete_checked concrete_at_ok s Hs) as (r & Hr & Hok).
  exists r. split; [exact Hr|].
  assert (forall e p, snd <$> conc_reading false e = Some p -> concrete_readable p) as Hread.
  { intros e p ([n q] & H & ->)%fmap_Some. by eapply conc_reading_readable. }
  assert (forall p, concrete_readable p -> (timelocks_ok p = true <-> forall sel, selects p sel -> ~ mixed sel)) as Hlock.
  { intros p Hp%concrete_readable_valid. unfold timelocks_ok. rewrite negb_true_iff, <- not_true_iff_false, combination_spec by done.
    split; [intros H sel Hsel Hm; apply H; by exists sel|intros H (sel & Hsel & Hm); by eapply H]. }
  assert (forall p, r = Ok p <->
         (exists e, wf_expr e /\ verify_checksum s = Some (Ok (print e)) /\ depth e <= MAX_RECURSION_DEPTH
            /\ curly_free e = true /\ snd <$> conc_reading false e = Some p)
         /\ forall sel, selects p sel -> ~ mixed sel) as Hiff.
  { intros p. rewrite <- ok_Some, Hok. unfold concrete_checked, conc_denoted. split.
    - intros (e & H1 & H2 & H3 & (q & Hq & H4)%bind_Some). destruct (curly_free e) eqn:Ec; [|done].
      destruct (timelocks_ok q) eqn:Et; [|done]. injection H4 as <-. split; [by exists e|]. apply Hlock; [by eapply Hread|done].
    - intros ((e & H1 & H2 & H3 & H4 & H5) & Hsel). exists e. rewrite H4, H5. cbn [mbind option_bind].
      by rewrite (proj2 (Hlock p (Hread e p H5))). }
  split; [|exact Hiff]. intros p [(e & _ & _ & _ & _ & H) _]%Hiff. by eapply Hread.
Qed.

Context {Sh : Shows} {SL : ShowLaws FK Sh}.

(** C37: Writing a policy as a string and parsing the string gives the policy back, for the
    semantic policies that the parser returns and for the concrete ones, when they have at
    most 402 levels. *)
Theorem policy_round_trip :
  (forall p, semantic_readable p -> levels p <= MAX_RECURSION_DEPTH ->
     exists s, semantic_display p = Some s /\ Sem.from_str s = Some (Ok p))
  /\ forall p, concrete_readable p -> levels p <= MAX_RECURSION_DEPTH ->
     (forall sel, selects p sel -> ~ mixed sel) ->
     exists s, concrete_display p = Some s /\ Conc.from_str s = Some (Ok p).
Proof.
  split.
  - intros p Hp Hl. eexists. split; [by apply semantic_display_print, semantic_nonempty|].
    pose proof (semantic_text p Hp) as Ht. pose proof (semantic_depth p).
    destruct (from_str_printed Parse Sem.from_tree sem_denoted sem_from_tree_ok (print (semantic_expr p)) (semantic_expr p)) as (r & Hr & Hok);
      [by apply text_expr_wf|by apply text_expr_checksum|lia|].
    unfold Sem.from_str. rewrite Hr. f_equal. apply ok_Some. rewrite Hok. unfold sem_denoted.
    by rewrite semantic_curly, semantic_read_back.
  - intros p Hp Hl Hm. eexists. split; [by apply concrete_display_print, concrete_nonempty|].
    pose proof (concrete_text p Hp) as Ht. pose proof (concrete_depth p).
    destruct (from_str_printed Parse concrete_at concrete_checked concrete_at_ok (print (concrete_expr p)) (concrete_expr p)) as (r & Hr & Hok);
      [by apply text_expr_wf|by apply text_expr_checksum|lia|].
    etransitivity; [exact Hr|]. f_equal. apply ok_Some. rewrite Hok. unfold concrete_checked, conc_denoted.
    rewrite concrete_curly, concrete_read_back by done. cbn [fmap option_fmap option_map snd mbind option_bind]. unfold timelocks_ok.
    destruct (contains_combination (infos p)) eqn:E; [|done].
    apply combination_spec in E as (sel & Hsel & Hmix); [|by apply concrete_readable_valid]. by destruct (Hm sel Hsel).
Qed.
End FromString.

(** * Witnesses *)

Lemma semantic_from_str_spec_witness :
  let s := lit "thresh(2,pk(020a),or(pk(020b),older(144)),after(500))" in
  exists r, Sem.from_str s = Some r
    /\ (forall p, r = Ok p -> semantic_readable p)
    /\ forall p, r = Ok p <->
         exists e, wf_expr e /\ verify_checksum s = Some (Ok (print e)) /\ depth e <= MAX_RECURSION_DEPTH
           /\ curly_free e = true /\ sem_reading e = Some p.
Proof. apply (semantic_from_str_spec (FK := reference_from_str_key)). by vm_compute. Defined.

Lemma concrete_from_str_spec_witness :
  let s := lit "or(99@pk(020a),1@and(pk(020b),older(144)))" in
  exists r, Conc.from_str s = Some r
    /\ (forall p, r = Ok p -> concrete_readable p)
    /\ forall p, r = Ok p <->
         (exists e, wf_expr e /\ verify_checksum s = Some (Ok (print e)) /\ depth e <= MAX_RECURSION_DEPTH
            /\ curly_free e = true /\ snd <$> conc_reading false e = Some p)
         /\ forall sel, selects p sel -> ~ mixed sel.
Proof. apply (concrete_from_str_spec (FK := reference_from_str_key)). by vm_compute. Defined.

(** [or(2@pk(A),1@and(pk(B),older(144)))] *)
Lemma policy_round_trip_witness :
  exists s, concrete_display ConcreteLift.sample_policy = Some s /\ Conc.from_str s = Some (Ok ConcreteLift.sample_policy).
Proof.
  apply (proj2 (policy_round_trip (FK := reference_from_str_key) (Sh := reference_shows))).
  - repeat constructor; vm_compute; (done || split; congruence).
  - vm_compute. lia.
  - intros sel Hsel Hm. assert (contains_combination (infos ConcreteLift.sample_policy) = false) as E by reflexivity.
    assert (contains_combination (infos ConcreteLift.sample_policy) = true); [|congruence].
    apply combination_spec; [exact ConcreteLift.sample_policy_valid|by exists sel].
Defined.

(** A threshold of one branch, which its constructor allows, is written as [and(...)] with
    one argument, and the parser refuses that. *)
Lemma one_branch_not_read_back :
  semantic_display (Semantic.Thresh (mkThreshold 1 [Semantic.Key keyA])) = Some (lit "and(pk(020a))")
  /\ exists e, Sem.from_str (lit "and(pk(020a))") = Some (Err e).
Proof.
  split; [by vm_compute|].
  assert (match Sem.from_str (lit "and(pk(020a))") with Some (Err _) => true | _ => false end = true) as H by by vm_compute.
  destruct (Sem.from_str (lit "and(pk(020a))")) as [[]|]; try done. by eexists.
Qed.
