(* ===== verification/Substitute.v ===== *)
(** [Miniscript::substitute_raw_pkh] (src/src/miniscript/mod.rs): raw key hashes
    replaced by the keys of a map. The substitution rebuilds the tree without
    checks; it is shown to succeed, to keep the script, and to keep the
    annotations right as long as no key is uncompressed. *)
From S2P Require Import Prelude Bitcoin Primitives Reference Ord Correctness Malleability Types ExtData Tree StackLoop Ast Context Samples Translate Encode.

Section Substitute.
Context {B : Bitcoin} {K : MiniscriptKey}.
Context (pk_map : hash160_Hash -> option Pk).

(** The match of the loop; [unwrap] on an empty stack is [None]. *)
Definition substitute_term {M} (term : Terminal Miniscript) (stack : list M)
  : option (Terminal M * list M) :=
  let unary (f : M -> Terminal M) := '(a, stack) ← pop stack; Some (f a, stack) in
  let binary (f : M -> M -> Terminal M) :=
    '(a, stack) ← pop stack; '(b, stack) ← pop stack; Some (f a b, stack) in
  match term with
  | Terminal.PkK p => Some (Terminal.PkK p, stack)
  | Terminal.PkH p => Some (Terminal.PkH p, stack)
  | Terminal.RawPkH hash =>
      match pk_map hash with
      | Some p => Some (Terminal.PkH p, stack)
      | None => Some (Terminal.RawPkH hash, stack)
      end
  | Terminal.After n => Some (Terminal.After n, stack)
  | Terminal.Older n => Some (Terminal.Older n, stack)
  | Terminal.Sha256 x => Some (Terminal.Sha256 x, stack)
  | Terminal.Hash256 x => Some (Terminal.Hash256 x, stack)
  | Terminal.Ripemd160 x => Some (Terminal.Ripemd160 x, stack)
  | Terminal.Hash160 x => Some (Terminal.Hash160 x, stack)
  | Terminal.TxTemplate h => Some (Terminal.TxTemplate h, stack)
  | Terminal.True => Some (Terminal.True, stack)
  | Terminal.False => Some (Terminal.False, stack)
  | Terminal.InscribePre i _ => unary (Terminal.InscribePre i)
  | Terminal.InscribePost i _ => unary (Terminal.InscribePost i)
  | Terminal.Alt _ => unary Terminal.Alt
  | Terminal.Swap _ => unary Terminal.Swap
  | Terminal.Check _ => unary Terminal.Check
  | Terminal.DupIf _ => unary Terminal.DupIf
  | Terminal.Verify _ => unary Terminal.Verify
  | Terminal.NonZero _ => unary Terminal.NonZero
  | Terminal.ZeroNotEqual _ => unary Terminal.ZeroNotEqual
  | Terminal.AndV _ _ => binary Terminal.AndV
  | Terminal.AndB _ _ => binary Terminal.AndB
  | Terminal.AndOr _ _ _ =>
      '(a, stack) ← pop stack; '(b, stack) ← pop stack; '(c, stack) ← pop stack;
      Some (Terminal.AndOr a b c, stack)
  | Terminal.OrB _ _ => binary Terminal.OrB
  | Terminal.OrD _ _ => binary Terminal.OrD
  | Terminal.OrC _ _ => binary Terminal.OrC
  | Terminal.OrI _ _ => binary Terminal.OrI
  | Terminal.Thresh thresh =>
      '(subs, stack) ← pop_n (Threshold.n thresh) stack;
      Some (Terminal.Thresh (mkThreshold (Threshold.k thresh) subs), stack)
  | Terminal.Multi thresh => Some (Terminal.Multi thresh, stack)
  | Terminal.MultiA thresh => Some (Terminal.MultiA thresh, stack)
  end.

(** The loop over the nodes in right-to-left post-order, and the assertion that it
    leaves one tree. *)
Fixpoint substitute_loop (nodes : list Miniscript) (stack : list Miniscript) : option Miniscript :=
  match nodes with
  | [] => match stack with [ms] => Some ms | _ => None end
  | item :: nodes =>
      '(new_term, stack) ← substitute_term (node item) stack;
      substitute_loop nodes (mkMiniscript new_term (ty item) (ext item) :: stack)
  end.

Definition substitute_raw_pkh (ms : Miniscript) : option Miniscript :=
  substitute_loop (rtl_nodes ms) [].

(** ** The recursive substitution *)

Definition substitute_node (ms : Miniscript) (subs : list Miniscript) : Miniscript :=
  match substitute_term (node ms) subs with
  | Some (new_term, _) => mkMiniscript new_term (ty ms) (ext ms)
  | None => ms
  end.

Definition substitute : Miniscript -> Miniscript := tree_fold substitute_node.

Lemma substitute_eq ms : substitute ms = substitute_node ms (map substitute (children ms)).
Proof. unfold substitute at 1. by rewrite tree_fold_eq. Qed.

(** A node takes exactly its children off the stack. *)
Lemma substitute_term_stack {M} term (subs rest : list M) :
  length subs = length (terminal_children term) ->
  exists new_term, substitute_term term (subs ++ rest) = Some (new_term, rest)
    /\ substitute_term term subs = Some (new_term, []).
Proof.
  intros H. destruct term as [| | | |h| | | | | | | | i s | i s | s | s | s | s | s | s | s
                   | l r | l r | a b c | l r | l r | l r | l r | th | |];
    cbn [terminal_children terminal_as_node length] in H;
    try (destruct subs as [|s1 [|s2 [|s3 [|? ?]]]]; simpl in H; try lia;
         eexists; split; reflexivity).
  - destruct subs; [|done]. cbn [substitute_term app].
    destruct (pk_map h); eexists; split; reflexivity.
  - cbn [substitute_term]. unfold Threshold.data, Threshold.n in *. rewrite <- H, pop_n_app.
    pose proof (pop_n_app subs []) as Hn. rewrite app_nil_r in Hn. rewrite Hn.
    eexists. split; reflexivity.
Qed.

Lemma substitute_loop_eq ms nodes stack :
  substitute_loop (rtl_nodes ms ++ nodes) stack = substitute_loop nodes (substitute ms :: stack).
Proof.
  revert nodes stack. induction ms as [ms IH] using tree_ind. intros nodes stack.
  assert (forall nodes stack,
    substitute_loop (flat_map rtl_nodes (rev (children ms)) ++ nodes) stack
    = substitute_loop nodes (map substitute (children ms) ++ stack)) as Hc.
  { clear nodes stack. induction IH as [|c cs Hc _ IHc]; intros nodes stack; [done|].
    cbn [rev map]. rewrite flat_map_app. cbn [flat_map].
    by rewrite app_nil_r, <- app_assoc, IHc, Hc. }
  rewrite rtl_nodes_eq, <- app_assoc, Hc, substitute_eq. cbn [app substitute_loop].
  destruct (substitute_term_stack (node ms) (map substitute (children ms)) stack) as (t & H1 & H2).
  { by rewrite length_map, children_node. }
  unfold substitute_node. by rewrite H1, H2.
Qed.

Lemma substitute_raw_pkh_eq ms : substitute_raw_pkh ms = Some (substitute ms).
Proof.
  unfold substitute_raw_pkh. pose proof (substitute_loop_eq ms [] []) as H.
  by rewrite app_nil_r in H.
Qed.

(** The node, its children and its annotations. *)
Lemma substitute_view ms :
  ty (substitute ms) = ty ms /\ ext (substitute ms) = ext ms
  /\ substitute_term (node ms) (map substitute (children ms)) = Some (node (substitute ms), []).
Proof.
  destruct (substitute_term_stack (node ms) (map substitute (children ms)) []) as (t & _ & H).
  { by rewrite length_map, children_node. }
  rewrite (substitute_eq ms). unfold substitute_node. rewrite H. done.
Qed.
End Substitute.

(** Opens the substitution of a node with a fixed number of children. *)
Ltac open_substitute pk_map ms :=
  let Hty := fresh "Hty" in let Hext := fresh "Hext" in let Hn := fresh "Hn" in
  destruct (substitute_view pk_map ms) as (Hty & Hext & Hn); rewrite children_node in Hn;
  cbn [node ty ext terminal_children terminal_as_node map] in Hty, Hext, Hn.

Section Props.
Context {B : Bitcoin} {K : MiniscriptKey}.
Context (pk_map : hash160_Hash -> option Pk).
Abbreviation substitute := (substitute pk_map).

(** The node of the result, with the children of a threshold in one piece. *)
Lemma substitute_thresh k inner t e :
  node (substitute (mkMiniscript (Terminal.Thresh (mkThreshold k inner)) t e))
  = Terminal.Thresh (mkThreshold k (map substitute inner)).
Proof.
  destruct (substitute_view pk_map (mkMiniscript (Terminal.Thresh (mkThreshold k inner)) t e))
    as (_ & _ & Hn).
  rewrite children_node in Hn. cbn [node terminal_children terminal_as_node substitute_term] in Hn.
  unfold Threshold.data, Threshold.n in Hn. cbn [Threshold.inner Threshold.k] in Hn.
  pose proof (pop_n_app (map substitute inner) []) as Hp.
  rewrite app_nil_r, length_map in Hp. rewrite Hp in Hn. by injection Hn.
Qed.

Lemma encode_substitute {TP : ToPublicKey K} ctx ms :
  (forall h p, pk_map h = Some p ->
     forall b, push_ms_key_hash ctx b p = push_slice b (hash160_to_byte_array h)) ->
  forall b, encode ctx (substitute ms) b = encode ctx ms b.
Proof.
  intros Hmap. induction ms as [ms IH] using tree_ind. intros b.
  rewrite children_node in IH. destruct ms as [nd t e]. cbn [node] in IH.
  destruct nd as [| | | | h | | | | | | | | i s | i s | s | s | s | s | s | s | s
                   | l r | l r | a b' c | l r | l r | l r | l r | [k inner] | |];
    forall_children IH.
  29: { pose proof (substitute_thresh k inner t e) as Hn.
        destruct (substitute _) as [nd' t' e']. cbn [node] in Hn. subst nd'. cbn [encode].
        destruct inner as [|first rest]; [done|]. cbn [map].
        apply Forall_cons_1 in IH as [Hf IH]. rewrite Hf. do 2 f_equal. generalize (encode ctx first b).
        induction IH as [|c cs Hc _ IHc]; intros b0; [done|]. cbn [map fold_left]. by rewrite Hc, IHc. }
  all: match goal with |- encode _ (substitute ?ms) _ = _ => open_substitute pk_map ms; destruct (substitute ms) as [nd' t' e'] end;
    cbn [node substitute_term pop mbind option_bind] in Hn; simplify_eq;
    try (injection Hn as <-); cbn [encode];
    rewrite ?Hc, ?Hc0, ?Hc1; try done.
  destruct (pk_map h) as [p|] eqn:Hp; [|by injection Hn as <-].
  injection Hn as <-. by rewrite (Hmap h p Hp).
Qed.

Definition same_types (c : Miniscript) : Prop :=
  ty (substitute c) = ty c /\ ext (substitute c) = ext c.

Lemma map_same_types l :
  Forall same_types l ->
  map ty (map substitute l) = map ty l /\ map ext (map substitute l) = map ext l.
Proof. induction 1 as [|c cs [H1 H2] _ [IH1 IH2]]; [done|]. simpl. split; congruence. Qed.

(** What typing sees of a node does not change, if no key is uncompressed. *)
Lemma substitute_types ctx ms :
  (sig_type ctx = Schnorr \/ forall h p, pk_map h = Some p -> is_uncompressed p = false) ->
  Forall same_types (children ms) -> node_valid (node ms) ->
  terminal_children (node (substitute ms)) = map substitute (children ms)
  /\ node_valid (node (substitute ms))
  /\ type_check (node (substitute ms)) = type_check (node ms)
  /\ ext_type_check (sig_type ctx) (node (substitute ms)) = ext_type_check (sig_type ctx) (node ms).
Proof.
  intros Hmap IH Hv. rewrite children_node in *. destruct ms as [nd t e]. cbn [node] in *.
  destruct nd as [| | | | h | | | | | | | | i s | i s | s | s | s | s | s | s | s
                   | l r | l r | a b' c | l r | l r | l r | l r | [k inner] | |].
  29: { rewrite substitute_thresh. apply (map_same_types inner) in IH as [H1 H2].
        split_and!; [done | | |].
        - unfold node_valid, Threshold.valid, Threshold.n in *. simpl in *. by rewrite length_map.
        - cbn [type_check]. unfold Threshold.data in *. cbn [Threshold.k Threshold.inner] in *.
          by rewrite H1.
        - cbn [ext_type_check]. unfold Threshold.data in *. cbn [Threshold.k Threshold.inner] in *.
          by rewrite H2. }
  all: match goal with |- context [substitute ?ms] =>
      open_substitute pk_map ms; destruct (substitute ms) as [nd' t' e'] end;
    cbn [node substitute_term pop mbind option_bind] in *.
  5: destruct (pk_map h) as [p|] eqn:Hp.
  all: injection Hn as <-; forall_children IH; unfold same_types in *; destruct_and?;
    (split; [done|]); (split; [exact Hv|]); cbn [type_check ext_type_check];
    repeat match goal with
    | H : ty (substitute _) = _ |- _ => rewrite H
    | H : ext (substitute _) = _ |- _ => rewrite H
    end; try done.
  split; [done|]. unfold Ext.pk_h. destruct Hmap as [->|Hmap]; [done|]. by rewrite (Hmap h p Hp).
Qed.

Lemma substitute_wf ctx ms :
  (sig_type ctx = Schnorr \/ forall h p, pk_map h = Some p -> is_uncompressed p = false) ->
  wf ctx ms -> wf ctx (substitute ms).
Proof.
  intros Hmap. revert ms. refine (wf_tree_ind ctx _ _). intros ms Hwf _ IH.
  destruct (wf_inv _ _ Hwf) as (_ & Hv & Ht & He).
  assert (Forall same_types (children ms)) as Hs.
  { apply List.Forall_forall. intros c _. destruct (substitute_view pk_map c) as (? & ? & _).
    by split. }
  destruct (substitute_types ctx ms Hmap Hs Hv) as (Hc & Hv' & Ht' & He').
  destruct (substitute_view pk_map ms) as (Hty & Hext & _).
  destruct (substitute ms) as [nd' t' e']. cbn [node ty ext] in *. subst.
  constructor; [|done | congruence | congruence].
  rewrite Hc. by apply List.Forall_map.
Qed.
End Props.

(** Substituting keys for raw key hashes never panics, keeps the cached
    annotations, does not change the script when every key of the map has the
    hash it is stored under, and, when no such key is uncompressed, yields a
    well-typed Miniscript again although nothing is rechecked. *)
Theorem substitute_raw_pkh_spec {B : Bitcoin} {K : MiniscriptKey} {TP : ToPublicKey K} ctx pk_map ms :
  exists ms', substitute_raw_pkh pk_map ms = Some ms' /\ ty ms' = ty ms /\ ext ms' = ext ms
    /\ ((forall h p, pk_map h = Some p ->
            forall b, push_ms_key_hash ctx b p = push_slice b (hash160_to_byte_array h)) ->
        forall b, encode ctx ms' b = encode ctx ms b)
    /\ ((sig_type ctx = Schnorr \/ forall h p, pk_map h = Some p -> is_uncompressed p = false) ->
        wf ctx ms -> wf ctx ms').
Proof.
  exists (substitute pk_map ms). rewrite substitute_raw_pkh_eq.
  destruct (substitute_view pk_map ms) as (? & ? & _).
  split_and!; [done | done | done | by apply encode_substitute | by apply substitute_wf].
Qed.

(** [expr_raw_pkh(h)] in P2SH. *)
Definition sample_raw : Miniscript := build Legacy (Terminal.RawPkH (Reference.of_list 20 [])).

(** With an uncompressed key the substituted Miniscript keeps the size of a
    compressed one: its cached satisfaction size is 31 bytes less than what
    checking the same fragment anew computes. *)
Theorem substitute_raw_pkh_undercounts :
  exists ms' ms'',
    substitute_raw_pkh (fun _ => Some keyU) sample_raw = Some ms'
    /\ from_ast Legacy (node ms') = Ok ms''
    /\ option_map max_script_sig_size (sat_data (ext ms')) = Some 107
    /\ option_map max_script_sig_size (sat_data (ext ms'')) = Some 138.
Proof. eexists _, _. split_and!; reflexivity. Qed.
