(* ===== verification/Satisfy.v ===== *)
(** Satisfaction (src/src/miniscript/satisfy.rs): the traits [Satisfier] and
    [AssetProvider] (src/src/plan.rs) with the blanket implementation between
    them, witness templates of placeholders, and the mutually recursive
    construction of satisfactions and dissatisfactions, in its non-malleable and
    its malleable mode. A Rust panic ([assert!], [unwrap], an index out of range)
    is the value [None] of the option monad. *)
From S2P Require Import Prelude Bitcoin Primitives Ord Correctness Malleability Types ExtData Tree Ast Context Encode.

(** * Lookup tables *)

Section Satisfier.
Context {B : Bitcoin} {Sp : Spending} {K : MiniscriptKey}.

(** [\[u8; 32\]] *)
Definition Preimage32 : Type := bytes.

(** The trait [Satisfier<Pk>]. *)
Class Satisfier : Type := mkSatisfier {
  lookup_ecdsa_sig : Pk -> option EcdsaSignature;
  lookup_tap_key_spend_sig : Pk -> option TaprootSignature;
  lookup_tap_leaf_script_sig : Pk -> TapLeafHash -> option TaprootSignature;
  lookup_tap_control_block_map : option (list (ControlBlock * (bytes * LeafVersion)));
  lookup_raw_pkh_pk : hash160_Hash -> option PublicKey;
  lookup_raw_pkh_x_only_pk : hash160_Hash -> option XOnlyPublicKey;
  lookup_raw_pkh_ecdsa_sig : hash160_Hash -> option (PublicKey * EcdsaSignature);
  lookup_raw_pkh_tap_leaf_script_sig :
    hash160_Hash * TapLeafHash -> option (XOnlyPublicKey * TaprootSignature);
  lookup_sha256 : Sha256 -> option Preimage32;
  lookup_hash256 : Hash256 -> option Preimage32;
  lookup_ripemd160 : Ripemd160 -> option Preimage32;
  lookup_hash160 : Hash160 -> option Preimage32;
  check_older : RelativeLockTime -> bool;
  check_after : LockTime -> bool;
  check_tx_template : sha256_Hash -> bool;
}.

(** The default methods, and the satisfier [()]. *)
Definition no_conditions : Satisfier :=
  mkSatisfier (fun _ => None) (fun _ => None) (fun _ _ => None) None (fun _ => None)
    (fun _ => None) (fun _ => None) (fun _ => None) (fun _ => None) (fun _ => None)
    (fun _ => None) (fun _ => None) (fun _ => false) (fun _ => false) (fun _ => false).

Definition with_older (f : RelativeLockTime -> bool) : Satisfier :=
  mkSatisfier (fun _ => None) (fun _ => None) (fun _ _ => None) None (fun _ => None)
    (fun _ => None) (fun _ => None) (fun _ => None) (fun _ => None) (fun _ => None)
    (fun _ => None) (fun _ => None) f (fun _ => false) (fun _ => false).

(** [impl Satisfier for relative::LockTime], [Sequence], [RelLockTime],
    [absolute::LockTime] *)
Definition relative_satisfier (self : RelativeLockTime) : Satisfier :=
  with_older (fun n => RelativeLockTime_is_implied_by n self).

Definition sequence_satisfier (self : Sequence) : Satisfier :=
  with_older (fun n =>
    match Sequence_to_relative_lock_time self with
    | Some lt => check_older (Satisfier := relative_satisfier lt) n
    | None => false
    end).

Definition rel_lock_time_satisfier (self : RelLockTime) : option Satisfier :=
  lt ← rel_to_relative self; Some (relative_satisfier lt).

Definition absolute_satisfier (self : LockTime) : Satisfier :=
  mkSatisfier (fun _ => None) (fun _ => None) (fun _ _ => None) None (fun _ => None)
    (fun _ => None) (fun _ => None) (fun _ => None) (fun _ => None) (fun _ => None)
    (fun _ => None) (fun _ => None) (fun _ => false)
    (fun n => LockTime_is_implied_by n self) (fun _ => false).

(** The maps from keys to ECDSA signatures and from keys and leaves to Schnorr
    signatures, as their [get] functions. *)
Definition ecdsa_map_satisfier (get : Pk -> option EcdsaSignature) : Satisfier :=
  mkSatisfier get (fun _ => None) (fun _ _ => None) None (fun _ => None)
    (fun _ => None) (fun _ => None) (fun _ => None) (fun _ => None) (fun _ => None)
    (fun _ => None) (fun _ => None) (fun _ => false) (fun _ => false) (fun _ => false).

Definition taproot_map_satisfier (get : Pk * TapLeafHash -> option TaprootSignature) : Satisfier :=
  mkSatisfier (fun _ => None) (fun _ => None) (fun key h => get (key, h)) None (fun _ => None)
    (fun _ => None) (fun _ => None) (fun _ => None) (fun _ => None) (fun _ => None)
    (fun _ => None) (fun _ => None) (fun _ => false) (fun _ => false) (fun _ => false).

(** The maps from key hashes to keys with signatures. *)
Definition ecdsa_hash_map_satisfier {TP : ToPublicKey K}
    (get : hash160_Hash -> option (Pk * EcdsaSignature)) : Satisfier :=
  mkSatisfier (fun key => snd <$> get (to_pubkeyhash key Ecdsa)) (fun _ => None) (fun _ _ => None) None
    (fun pk_hash => (fun x => to_public_key x.1) <$> get pk_hash) (fun _ => None)
    (fun pk_hash => (fun x => (to_public_key x.1, x.2)) <$> get pk_hash) (fun _ => None)
    (fun _ => None) (fun _ => None) (fun _ => None) (fun _ => None)
    (fun _ => false) (fun _ => false) (fun _ => false).

Definition taproot_hash_map_satisfier {TP : ToPublicKey K}
    (get : hash160_Hash * TapLeafHash -> option (Pk * TaprootSignature)) : Satisfier :=
  mkSatisfier (fun _ => None) (fun _ => None)
    (fun key h => snd <$> get (to_pubkeyhash key Schnorr, h)) None
    (fun _ => None) (fun _ => None) (fun _ => None)
    (fun pk_hash => (fun x => (to_x_only_pubkey x.1, x.2)) <$> get pk_hash)
    (fun _ => None) (fun _ => None) (fun _ => None) (fun _ => None)
    (fun _ => false) (fun _ => false) (fun _ => false).

(** [impl Satisfier for &S] and [&mut S]: every method forwards. *)
Definition reference_satisfier (S : Satisfier) : Satisfier :=
  mkSatisfier (lookup_ecdsa_sig (Satisfier := S)) (lookup_tap_key_spend_sig (Satisfier := S))
    (lookup_tap_leaf_script_sig (Satisfier := S)) (lookup_tap_control_block_map (Satisfier := S))
    (lookup_raw_pkh_pk (Satisfier := S)) (lookup_raw_pkh_x_only_pk (Satisfier := S))
    (lookup_raw_pkh_ecdsa_sig (Satisfier := S))
    (lookup_raw_pkh_tap_leaf_script_sig (Satisfier := S)) (lookup_sha256 (Satisfier := S))
    (lookup_hash256 (Satisfier := S)) (lookup_ripemd160 (Satisfier := S))
    (lookup_hash160 (Satisfier := S)) (check_older (Satisfier := S))
    (check_after (Satisfier := S)) (check_tx_template (Satisfier := S)).

Definition or_else {A} (x y : option A) : option A :=
  match x with Some a => Some a | None => y end.

(** The implementation for a pair of satisfiers; longer tuples nest. *)
Definition pair_satisfier (a b : Satisfier) : Satisfier :=
  mkSatisfier
    (fun k => or_else (lookup_ecdsa_sig (Satisfier := a) k) (lookup_ecdsa_sig (Satisfier := b) k))
    (fun k => or_else (lookup_tap_key_spend_sig (Satisfier := a) k)
                (lookup_tap_key_spend_sig (Satisfier := b) k))
    (fun k h => or_else (lookup_tap_leaf_script_sig (Satisfier := a) k h)
                  (lookup_tap_leaf_script_sig (Satisfier := b) k h))
    (or_else (lookup_tap_control_block_map (Satisfier := a))
       (lookup_tap_control_block_map (Satisfier := b)))
    (fun h => or_else (lookup_raw_pkh_pk (Satisfier := a) h)
                (lookup_raw_pkh_pk (Satisfier := b) h))
    (fun h => or_else (lookup_raw_pkh_x_only_pk (Satisfier := a) h)
                (lookup_raw_pkh_x_only_pk (Satisfier := b) h))
    (fun h => or_else (lookup_raw_pkh_ecdsa_sig (Satisfier := a) h)
                (lookup_raw_pkh_ecdsa_sig (Satisfier := b) h))
    (fun h => or_else (lookup_raw_pkh_tap_leaf_script_sig (Satisfier := a) h)
                (lookup_raw_pkh_tap_leaf_script_sig (Satisfier := b) h))
    (fun h => or_else (lookup_sha256 (Satisfier := a) h) (lookup_sha256 (Satisfier := b) h))
    (fun h => or_else (lookup_hash256 (Satisfier := a) h) (lookup_hash256 (Satisfier := b) h))
    (fun h => or_else (lookup_ripemd160 (Satisfier := a) h)
                (lookup_ripemd160 (Satisfier := b) h))
    (fun h => or_else (lookup_hash160 (Satisfier := a) h) (lookup_hash160 (Satisfier := b) h))
    (fun n => check_older (Satisfier := a) n || check_older (Satisfier := b) n)
    (fun n => check_after (Satisfier := a) n || check_after (Satisfier := b) n)
    (fun h => check_tx_template (Satisfier := a) h || check_tx_template (Satisfier := b) h).

(** The trait [AssetProvider<Pk>]: whether, instead of what. *)
Class AssetProvider : Type := mkAssetProvider {
  provider_lookup_ecdsa_sig : Pk -> bool;
  provider_lookup_tap_key_spend_sig : Pk -> option nat;
  provider_lookup_tap_leaf_script_sig : Pk -> TapLeafHash -> option nat;
  provider_lookup_raw_pkh_pk : hash160_Hash -> option PublicKey;
  provider_lookup_raw_pkh_x_only_pk : hash160_Hash -> option XOnlyPublicKey;
  provider_lookup_raw_pkh_ecdsa_sig : hash160_Hash -> option PublicKey;
  provider_lookup_raw_pkh_tap_leaf_script_sig :
    hash160_Hash * TapLeafHash -> option (XOnlyPublicKey * nat);
  provider_lookup_sha256 : Sha256 -> bool;
  provider_lookup_hash256 : Hash256 -> bool;
  provider_lookup_ripemd160 : Ripemd160 -> bool;
  provider_lookup_hash160 : Hash160 -> bool;
  provider_check_older : RelativeLockTime -> bool;
  provider_check_after : LockTime -> bool;
  provider_check_tx_template : sha256_Hash -> bool;
}.

Definition is_some {A} (o : option A) : bool := match o with Some _ => true | None => false end.

(** [impl<T: Satisfier<Pk>> AssetProvider<Pk> for T] *)
#[export] Instance satisfier_provider `{S : Satisfier} : AssetProvider := {|
  provider_lookup_ecdsa_sig pk := is_some (lookup_ecdsa_sig pk);
  provider_lookup_tap_key_spend_sig pk :=
    (fun s => length (TaprootSignature_to_vec s)) <$> lookup_tap_key_spend_sig pk;
  provider_lookup_tap_leaf_script_sig pk leaf_hash :=
    (fun s => length (TaprootSignature_to_vec s)) <$> lookup_tap_leaf_script_sig pk leaf_hash;
  provider_lookup_raw_pkh_pk := lookup_raw_pkh_pk;
  provider_lookup_raw_pkh_x_only_pk := lookup_raw_pkh_x_only_pk;
  provider_lookup_raw_pkh_ecdsa_sig h := fst <$> lookup_raw_pkh_ecdsa_sig h;
  provider_lookup_raw_pkh_tap_leaf_script_sig h :=
    (fun '(pk, sig) => (pk, length (TaprootSignature_to_vec sig)))
      <$> lookup_raw_pkh_tap_leaf_script_sig h;
  provider_lookup_sha256 h := is_some (lookup_sha256 h);
  provider_lookup_hash256 h := is_some (lookup_hash256 h);
  provider_lookup_ripemd160 h := is_some (lookup_ripemd160 h);
  provider_lookup_hash160 h := is_some (lookup_hash160 h);
  provider_check_older := check_older;
  provider_check_after := check_after;
  provider_check_tx_template := check_tx_template;
|}.

End Satisfier.

(** * Placeholders and witnesses *)

(** [SchnorrSigType] *)
Inductive SchnorrSigType {B : Bitcoin} {Sp : Spending} : Type :=
| KeySpend (merkle_root : option TapNodeHash)
| ScriptSpend (leaf_hash : TapLeafHash).

#[export] Instance SchnorrSigType_eq_dec {B : Bitcoin} {Sp : Spending} : EqDecision SchnorrSigType.
Proof. solve_decision. Defined.

Module Placeholder.
(** [Placeholder<Pk>] *)
Inductive Placeholder {B : Bitcoin} {Sp : Spending} {K : MiniscriptKey} : Type :=
| Pubkey (pk : Pk) (size : nat)
| PubkeyHash (h : hash160_Hash) (size : nat)
| EcdsaSigPk (pk : Pk)
| EcdsaSigPkHash (h : hash160_Hash)
| SchnorrSigPk (pk : Pk) (t : SchnorrSigType) (size : nat)
| SchnorrSigPkHash (h : hash160_Hash) (leaf_hash : TapLeafHash) (size : nat)
| Sha256Preimage (h : Sha256)
| Hash256Preimage (h : Hash256)
| Ripemd160Preimage (h : Ripemd160)
| Hash160Preimage (h : Hash160)
| HashDissatisfaction
| PushOne
| PushZero
| TapScript (s : bytes)
| TapControlBlock (cb : ControlBlock).
End Placeholder.
Abbreviation Placeholder := Placeholder.Placeholder.

#[export] Instance Placeholder_eq_dec {B : Bitcoin} {Sp : Spending} {K : MiniscriptKey} :
  EqDecision Placeholder.
Proof. solve_decision. Defined.

Module Witness.
(** [Witness<T>] *)
Inductive Witness (T : Type) : Type :=
| Stack (l : list T)
| Unavailable
| Impossible.
Arguments Stack {T} l.
Arguments Unavailable {T}.
Arguments Impossible {T}.
End Witness.
Abbreviation Witness := Witness.Witness.

#[export] Instance Witness_eq_dec {T} `{EqDecision T} : EqDecision (Witness T).
Proof. solve_decision. Defined.

(** [Satisfaction<T>] *)
Record Satisfaction {B : Bitcoin} (T : Type) : Type := mkSatisfaction {
  stack : Witness T;
  has_sig : bool;
  absolute_timelock : option AbsLockTime;
  relative_timelock : option RelLockTime;
}.
Arguments mkSatisfaction {B T} stack has_sig absolute_timelock relative_timelock.
Arguments stack {B T} _.
Arguments has_sig {B T} _.
Arguments absolute_timelock {B T} _.
Arguments relative_timelock {B T} _.

#[export] Instance Satisfaction_eq_dec {B : Bitcoin} {T} `{EqDecision T} :
  EqDecision (Satisfaction T).
Proof. solve_decision. Defined.

(** [cmp::max] on options of an ordered type: [None] is the least, and the second
    argument is returned when the two are equal. *)
Definition option_max {A} (cmp : A -> A -> comparison) (x y : option A) : option A :=
  match x, y with
  | None, _ => y
  | Some _, None => x
  | Some a, Some b => match cmp a b with Gt => x | _ => y end
  end.

(** [i64::MIN] and [i64::MAX] *)
Definition i64_MIN : Z := -9223372036854775808.
Definition i64_MAX : Z := 9223372036854775807.

Section Template.
Context {B : Bitcoin} {Sp : Spending} {K : MiniscriptKey}.

(** ** Sizes (src/src/util.rs) *)

Definition varint_len (n : nat) : nat := VarInt_size n.

(** [ItemSize for Placeholder] *)
Definition size (self : Placeholder) : nat :=
  match self with
  | Placeholder.Pubkey _ size => size
  | Placeholder.PubkeyHash _ size => size
  | Placeholder.EcdsaSigPk _ | Placeholder.EcdsaSigPkHash _ => 73
  | Placeholder.SchnorrSigPk _ _ size | Placeholder.SchnorrSigPkHash _ _ size => size + 1
  | Placeholder.HashDissatisfaction | Placeholder.Sha256Preimage _
  | Placeholder.Hash256Preimage _ | Placeholder.Ripemd160Preimage _
  | Placeholder.Hash160Preimage _ => 33
  | Placeholder.PushOne => 2
  | Placeholder.PushZero => 1
  | Placeholder.TapScript s => length s + varint_len (length s)
  | Placeholder.TapControlBlock cb =>
      let block_len := length (ControlBlock_serialize cb) in
      block_len + varint_len block_len
  end.

Definition witness_size (wit : list Placeholder) : nat :=
  sum_by size wit + varint_len (length wit).

(** ** Witnesses *)

(** [Ord for Witness<Placeholder<Pk>>] *)
Definition witness_cmp (self other : Witness Placeholder) : comparison :=
  match self, other with
  | Witness.Stack v1, Witness.Stack v2 => Nat.compare (witness_size v1) (witness_size v2)
  | Witness.Stack _, _ => Lt
  | _, Witness.Stack _ => Gt
  | Witness.Impossible, Witness.Unavailable => Lt
  | Witness.Unavailable, Witness.Impossible => Gt
  | Witness.Impossible, Witness.Impossible => Eq
  | Witness.Unavailable, Witness.Unavailable => Eq
  end.

Definition witness_lt (self other : Witness Placeholder) : bool :=
  match witness_cmp self other with Lt => true | _ => false end.

Definition hash_dissatisfaction : Witness Placeholder :=
  Witness.Stack [Placeholder.HashDissatisfaction].
Definition empty : Witness Placeholder := Witness.Stack [].
Definition push_1 : Witness Placeholder := Witness.Stack [Placeholder.PushOne].
Definition push_0 : Witness Placeholder := Witness.Stack [Placeholder.PushZero].

(** [Witness::combine] *)
Definition combine {T} (one two : Witness T) : Witness T :=
  match one, two with
  | Witness.Impossible, _ | _, Witness.Impossible => Witness.Impossible
  | Witness.Unavailable, _ | _, Witness.Unavailable => Witness.Unavailable
  | Witness.Stack a, Witness.Stack b => Witness.Stack (a ++ b)
  end.

(** The functions below take the context and the leaf hash of the script. *)
Section Lookups.
Context {P : AssetProvider} (ctx : ScriptContext) (leaf_hash : TapLeafHash).

Definition signature (pk : Pk) : Witness Placeholder :=
  match sig_type ctx with
  | Ecdsa =>
      if provider_lookup_ecdsa_sig pk then Witness.Stack [Placeholder.EcdsaSigPk pk]
      else Witness.Impossible
  | Schnorr =>
      match provider_lookup_tap_leaf_script_sig pk leaf_hash with
      | Some size => Witness.Stack [Placeholder.SchnorrSigPk pk (ScriptSpend leaf_hash) size]
      | None => Witness.Impossible
      end
  end.

Definition pkh_public_key (pkh : hash160_Hash) : option (Witness Placeholder) :=
  match sig_type ctx with
  | Ecdsa =>
      match provider_lookup_raw_pkh_pk pkh with
      | Some pk =>
          len ← pk_len (K := PublicKey_key) ctx pk;
          Some (Witness.Stack [Placeholder.PubkeyHash pkh len])
      | None => Some Witness.Unavailable
      end
  | Schnorr =>
      match provider_lookup_raw_pkh_x_only_pk pkh with
      | Some pk =>
          len ← pk_len (K := XOnlyPublicKey_key) ctx pk;
          Some (Witness.Stack [Placeholder.PubkeyHash pkh len])
      | None => Some Witness.Unavailable
      end
  end.

Definition pkh_signature (pkh : hash160_Hash) : option (Witness Placeholder) :=
  match sig_type ctx with
  | Ecdsa =>
      match provider_lookup_raw_pkh_ecdsa_sig pkh with
      | Some pk =>
          len ← pk_len (K := PublicKey_key) ctx pk;
          Some (Witness.Stack [Placeholder.EcdsaSigPkHash pkh; Placeholder.PubkeyHash pkh len])
      | None => Some Witness.Impossible
      end
  | Schnorr =>
      match provider_lookup_raw_pkh_tap_leaf_script_sig (pkh, leaf_hash) with
      | Some (pk, size) =>
          len ← pk_len (K := XOnlyPublicKey_key) ctx pk;
          Some (Witness.Stack [Placeholder.SchnorrSigPkHash pkh leaf_hash size;
                               Placeholder.PubkeyHash pkh len])
      | None => Some Witness.Impossible
      end
  end.

Definition ripemd160_preimage (h : Ripemd160) : Witness Placeholder :=
  if provider_lookup_ripemd160 h then Witness.Stack [Placeholder.Ripemd160Preimage h]
  else Witness.Unavailable.
Definition hash160_preimage (h : Hash160) : Witness Placeholder :=
  if provider_lookup_hash160 h then Witness.Stack [Placeholder.Hash160Preimage h]
  else Witness.Unavailable.
Definition sha256_preimage (h : Sha256) : Witness Placeholder :=
  if provider_lookup_sha256 h then Witness.Stack [Placeholder.Sha256Preimage h]
  else Witness.Unavailable.
Definition hash256_preimage (h : Hash256) : Witness Placeholder :=
  if provider_lookup_hash256 h then Witness.Stack [Placeholder.Hash256Preimage h]
  else Witness.Unavailable.
End Lookups.

(** ** Satisfactions *)

(** A satisfaction without signature and timelocks. *)
Definition plain (w : Witness Placeholder) : Satisfaction Placeholder :=
  mkSatisfaction w false None None.

Definition empty_satisfaction : Satisfaction Placeholder := plain (Witness.Stack []).

Definition concatenate_rev (self other : Satisfaction Placeholder) : Satisfaction Placeholder :=
  mkSatisfaction (combine (stack other) (stack self)) (has_sig self || has_sig other)
    (option_max abs_cmp (absolute_timelock self) (absolute_timelock other))
    (option_max rel_cmp (relative_timelock self) (relative_timelock other)).

Definition minimum (sat1 sat2 : Satisfaction Placeholder) : Satisfaction Placeholder :=
  match stack sat1, stack sat2 with
  | Witness.Impossible, _ => sat2
  | _, Witness.Impossible => sat1
  | _, _ =>
      match has_sig sat1, has_sig sat2 with
      | false, false => plain Witness.Unavailable
      | false, true =>
          mkSatisfaction (stack sat1) false (absolute_timelock sat1) (relative_timelock sat1)
      | true, false =>
          mkSatisfaction (stack sat2) false (absolute_timelock sat2) (relative_timelock sat2)
      | true, true =>
          if witness_lt (stack sat1) (stack sat2) then
            mkSatisfaction (stack sat1) true (absolute_timelock sat1) (relative_timelock sat1)
          else
            mkSatisfaction (stack sat2) true (absolute_timelock sat2) (relative_timelock sat2)
      end
  end.

Definition minimum_mall (sat1 sat2 : Satisfaction Placeholder) : Satisfaction Placeholder :=
  match stack sat1, stack sat2 with
  | Witness.Impossible, _ | Witness.Unavailable, _ => sat2
  | _, Witness.Impossible | _, Witness.Unavailable => sat1
  | _, _ =>
      let '(stack, absolute_timelock, relative_timelock) :=
        if witness_lt (stack sat1) (stack sat2)
        then (stack sat1, absolute_timelock sat1, relative_timelock sat1)
        else (stack sat2, absolute_timelock sat2, relative_timelock sat2) in
      mkSatisfaction stack (has_sig sat1 && has_sig sat2) absolute_timelock relative_timelock
  end.

(** *** Thresholds

    The two functions receive the satisfactions and the dissatisfactions that
    the code first computes for all children. *)

(** The weight by which the children are sorted. *)
Definition stack_weight (sat dissat : Witness Placeholder) : Z :=
  match sat, dissat with
  | Witness.Unavailable, _ | Witness.Impossible, _ => i64_MAX
  | _, Witness.Unavailable | _, Witness.Impossible => i64_MIN
  | Witness.Stack s, Witness.Stack d => Z.of_nat (witness_size s) - Z.of_nat (witness_size d)
  end.

Definition thresh_key (sats ret_stack : list (Satisfaction Placeholder)) (i : nat)
  : option (bool * bool * Z) :=
  sat ← sats !! i; dissat ← ret_stack !! i;
  Some (bool_decide (stack sat = Witness.Impossible), has_sig sat,
        stack_weight (stack sat) (stack dissat)).

Definition thresh_mall_key (sats ret_stack : list (Satisfaction Placeholder)) (i : nat)
  : option Z :=
  sat ← sats !! i; dissat ← ret_stack !! i;
  Some (stack_weight (stack sat) (stack dissat)).

(** The derived orders on [(bool, bool, i64)]; [None] stands for an index out of
    range, which the indices [0..n] never are. *)
Definition tuple_leb (x y : bool * bool * Z) : bool :=
  let '(a, b, c) := x in
  let '(a', b', c') := y in
  if eqb a a' then if eqb b b' then (c <=? c')%Z else negb b else negb a.

Definition thresh_key_leb (x y : option (bool * bool * Z)) : bool :=
  match x, y with
  | None, _ => true
  | Some _, None => false
  | Some a, Some b => tuple_leb a b
  end.

(** [mem::swap(&mut ret_stack\[i\], &mut sats\[i\])] *)
Definition swap_at (i : nat) (st : list (Satisfaction Placeholder) * list (Satisfaction Placeholder))
  : option (list (Satisfaction Placeholder) * list (Satisfaction Placeholder)) :=
  let '(ret_stack, sats) := st in
  r ← ret_stack !! i; s ← sats !! i; Some (<[i := s]> ret_stack, <[i := r]> sats).

(** The loop over the first [k] sorted indices. *)
Fixpoint swap_all (idxs : list nat)
    (st : list (Satisfaction Placeholder) * list (Satisfaction Placeholder))
  : option (list (Satisfaction Placeholder) * list (Satisfaction Placeholder)) :=
  match idxs with
  | [] => Some st
  | i :: idxs => st ← swap_at i st; swap_all idxs st
  end.

Definition flatten (l : list (Satisfaction Placeholder)) : Satisfaction Placeholder :=
  fold_left concatenate_rev l empty_satisfaction.

Definition thresh (k : nat) (sats ret_stack : list (Satisfaction Placeholder))
  : option (Satisfaction Placeholder) :=
  let sat_indices :=
    sort_by_key thresh_key_leb (thresh_key sats ret_stack) (seq 0 (length sats)) in
  '(ret_stack, sats) ← swap_all (take k sat_indices) (ret_stack, sats);
  last_idx ← sat_indices !! (k - 1);
  last ← sats !! last_idx;
  if bool_decide (stack last = Witness.Impossible) then Some (plain Witness.Impossible)
  else
    next_idx ← sat_indices !! k;
    next ← sats !! next_idx;
    if negb (has_sig next) && negb (bool_decide (stack next = Witness.Impossible)) then
      if existsb has_sig ret_stack then None
      else Some (plain Witness.Unavailable)
    else Some (flatten ret_stack).

Definition thresh_mall (k : nat) (sats ret_stack : list (Satisfaction Placeholder))
  : option (Satisfaction Placeholder) :=
  let sat_indices :=
    sort_by_key option_Z_leb (thresh_mall_key sats ret_stack) (seq 0 (length sats)) in
  '(ret_stack, _) ← swap_all (take k sat_indices) (ret_stack, sats);
  Some (flatten ret_stack).


(** ** Satisfactions and dissatisfactions of a fragment *)

(** The witness of [multi]: the available signatures in the order of the keys,
    from which the most expensive ones (by number of elements, the last of the
    largest) are thrown away. *)
Fixpoint max_idx (sigs : list (list Placeholder)) (i best best_len : nat) : nat :=
  match sigs with
  | [] => best
  | v :: sigs =>
      if best_len <=? length v then max_idx sigs (S i) i (length v)
      else max_idx sigs (S i) best best_len
  end.

Fixpoint throw_away (m : nat) (sigs : list (list Placeholder)) : option (list (list Placeholder)) :=
  match m with
  | 0 => Some sigs
  | S m =>
      match sigs with
      | [] => None
      | _ => throw_away m (<[max_idx sigs 0 0 0 := []]> sigs)
      end
  end.

Section Satisfy.
Context {P : AssetProvider} (ctx : ScriptContext) (root_has_sig : bool) (leaf_hash : TapLeafHash).

(** The loop that collects the signatures; [unreachable!] is [None]. *)
Fixpoint multi_sigs (pks : list Pk) : option (list (list Placeholder)) :=
  match pks with
  | [] => Some []
  | pk :: pks =>
      match signature ctx leaf_hash pk with
      | Witness.Stack sig => sigs ← multi_sigs pks; Some (sig :: sigs)
      | Witness.Impossible => multi_sigs pks
      | Witness.Unavailable => None
      end
  end.

Definition satisfy_multi (thresh : Threshold Pk) : option (Satisfaction Placeholder) :=
  sigs ← multi_sigs (Threshold.data thresh);
  if length sigs <? Threshold.k thresh then Some (plain Witness.Impossible)
  else
    sigs ← throw_away (length sigs - Threshold.k thresh) sigs;
    Some (mkSatisfaction
            (fold_left (fun acc sig => combine acc (Witness.Stack sig)) sigs push_0)
            true None None).

(** The loop of [multi_a] over the reversed keys, which stops at [k] signatures;
    [sigs] starts as [n] empty elements. *)
Fixpoint multi_a_sigs (k i sig_count : nat) (pks : list Pk) (sigs : list (list Placeholder))
  : option (nat * list (list Placeholder)) :=
  match pks with
  | [] => Some (sig_count, sigs)
  | pk :: pks =>
      match signature ctx leaf_hash pk with
      | Witness.Stack sig =>
          let sigs := <[i := sig]> sigs in
          let sig_count := sig_count + 1 in
          if sig_count =? k then Some (sig_count, sigs)
          else multi_a_sigs k (S i) sig_count pks sigs
      | Witness.Impossible => multi_a_sigs k (S i) sig_count pks sigs
      | Witness.Unavailable => None
      end
  end.

Definition satisfy_multi_a (thresh : Threshold Pk) : option (Satisfaction Placeholder) :=
  '(sig_count, sigs) ← multi_a_sigs (Threshold.k thresh) 0 0 (rev (Threshold.data thresh))
    (repeat [Placeholder.PushZero] (Threshold.n thresh));
  if sig_count <? Threshold.k thresh then Some (plain Witness.Impossible)
  else
    Some (mkSatisfaction
            (fold_left (fun acc sig => combine acc (Witness.Stack sig)) sigs empty)
            true None None).

(** [Satisfaction { stack: Witness::combine(sat.stack, w), ..sat }] *)
Definition append (sat : Satisfaction Placeholder) (w : Witness Placeholder)
  : Satisfaction Placeholder :=
  mkSatisfaction (combine (stack sat) w) (has_sig sat)
    (absolute_timelock sat) (relative_timelock sat).

(** The timelock of a lock that is not met. *)
Definition lock_not_met : Witness Placeholder :=
  if root_has_sig then Witness.Impossible else Witness.Unavailable.

(** [min_fn] and [thresh_fn] are the closures the code passes down. *)
Context (min_fn : Satisfaction Placeholder -> Satisfaction Placeholder -> Satisfaction Placeholder)
  (thresh_fn : nat -> list (Satisfaction Placeholder) -> list (Satisfaction Placeholder) ->
               option (Satisfaction Placeholder)).

(** [assert!(!sat.has_sig)] *)
Definition assert_no_sig (sat : Satisfaction Placeholder) : option () :=
  if has_sig sat then None else Some tt.

Fixpoint satisfy_helper (ms : Miniscript) : option (Satisfaction Placeholder) :=
  match ms with
  | mkMiniscript term _ _ =>
      match term with
      | Terminal.PkK pk => Some (mkSatisfaction (signature ctx leaf_hash pk) true None None)
      | Terminal.PkH pk =>
          let wit := signature ctx leaf_hash pk in
          len ← pk_len ctx pk;
          Some (mkSatisfaction (combine wit (Witness.Stack [Placeholder.Pubkey pk len]))
                  true None None)
      | Terminal.RawPkH pkh =>
          stack ← pkh_signature ctx leaf_hash pkh;
          Some (mkSatisfaction stack true None None)
      | Terminal.After t =>
          let '(stack, absolute_timelock) :=
            if provider_check_after (abs_inner t) then (empty, Some t) else (lock_not_met, None) in
          Some (mkSatisfaction stack false absolute_timelock None)
      | Terminal.Older t =>
          t' ← rel_to_relative t;
          let '(stack, relative_timelock) :=
            if provider_check_older t' then (empty, Some t) else (lock_not_met, None) in
          Some (mkSatisfaction stack false None relative_timelock)
      | Terminal.Ripemd160 h => Some (plain (ripemd160_preimage h))
      | Terminal.Hash160 h => Some (plain (hash160_preimage h))
      | Terminal.Sha256 h => Some (plain (sha256_preimage h))
      | Terminal.Hash256 h => Some (plain (hash256_preimage h))
      | Terminal.TxTemplate h =>
          Some (plain (if provider_check_tx_template h then empty else Witness.Impossible))
      | Terminal.True => Some (plain empty)
      | Terminal.False => Some (plain Witness.Impossible)
      | Terminal.InscribePre _ sub | Terminal.InscribePost _ sub | Terminal.Alt sub
      | Terminal.Swap sub | Terminal.Check sub | Terminal.Verify sub | Terminal.NonZero sub
      | Terminal.ZeroNotEqual sub => satisfy_helper sub
      | Terminal.DupIf sub => sat ← satisfy_helper sub; Some (append sat push_1)
      | Terminal.AndV l r | Terminal.AndB l r =>
          l_sat ← satisfy_helper l; r_sat ← satisfy_helper r;
          Some (concatenate_rev l_sat r_sat)
      | Terminal.AndOr a b c =>
          a_sat ← satisfy_helper a; a_nsat ← dissatisfy_helper a;
          b_sat ← satisfy_helper b; c_sat ← satisfy_helper c;
          Some (min_fn (concatenate_rev a_sat b_sat) (concatenate_rev a_nsat c_sat))
      | Terminal.OrB l r =>
          l_sat ← satisfy_helper l; r_sat ← satisfy_helper r;
          l_nsat ← dissatisfy_helper l; r_nsat ← dissatisfy_helper r;
          _ ← assert_no_sig l_nsat; _ ← assert_no_sig r_nsat;
          Some (min_fn (concatenate_rev l_nsat r_sat) (concatenate_rev l_sat r_nsat))
      | Terminal.OrD l r | Terminal.OrC l r =>
          l_sat ← satisfy_helper l; r_sat ← satisfy_helper r;
          l_nsat ← dissatisfy_helper l; _ ← assert_no_sig l_nsat;
          Some (min_fn l_sat (concatenate_rev l_nsat r_sat))
      | Terminal.OrI l r =>
          l_sat ← satisfy_helper l; r_sat ← satisfy_helper r;
          Some (min_fn (append l_sat push_1) (append r_sat push_0))
      | Terminal.Thresh (Threshold.mkThreshold k inner) =>
          if k =? length inner then
            sats ← mapM satisfy_helper inner; Some (flatten sats)
          else
            sats ← mapM satisfy_helper inner; ret_stack ← mapM dissatisfy_helper inner;
            thresh_fn k sats ret_stack
      | Terminal.Multi thresh => satisfy_multi thresh
      | Terminal.MultiA thresh => satisfy_multi_a thresh
      end
  end

with dissatisfy_helper (ms : Miniscript) : option (Satisfaction Placeholder) :=
  match ms with
  | mkMiniscript term _ _ =>
      match term with
      | Terminal.PkK _ => Some (plain push_0)
      | Terminal.PkH pk =>
          len ← pk_len ctx pk;
          Some (plain (combine push_0 (Witness.Stack [Placeholder.Pubkey pk len])))
      | Terminal.RawPkH pkh =>
          key ← pkh_public_key ctx pkh; Some (plain (combine push_0 key))
      | Terminal.False => Some (plain empty)
      | Terminal.True | Terminal.TxTemplate _ | Terminal.Older _ | Terminal.After _
      | Terminal.Verify _ | Terminal.OrC _ _ => Some (plain Witness.Impossible)
      | Terminal.Sha256 _ | Terminal.Hash256 _ | Terminal.Ripemd160 _ | Terminal.Hash160 _ =>
          Some (plain hash_dissatisfaction)
      | Terminal.InscribePre _ sub | Terminal.InscribePost _ sub | Terminal.Alt sub
      | Terminal.Swap sub | Terminal.Check sub | Terminal.ZeroNotEqual sub =>
          dissatisfy_helper sub
      | Terminal.DupIf _ | Terminal.NonZero _ => Some (plain push_0)
      | Terminal.AndV v other =>
          vsat ← satisfy_helper v; odissat ← dissatisfy_helper other;
          Some (concatenate_rev vsat odissat)
      | Terminal.AndB l r | Terminal.OrB l r | Terminal.OrD l r | Terminal.AndOr l _ r =>
          lnsat ← dissatisfy_helper l; rnsat ← dissatisfy_helper r;
          Some (concatenate_rev lnsat rnsat)
      | Terminal.OrI l r =>
          lnsat ← dissatisfy_helper l;
          let dissat_1 := mkSatisfaction (combine (stack lnsat) push_1) (has_sig lnsat) None None in
          rnsat ← dissatisfy_helper r;
          let dissat_2 := mkSatisfaction (combine (stack rnsat) push_0) (has_sig rnsat) None None in
          Some (minimum_mall dissat_1 dissat_2)
      | Terminal.Thresh (Threshold.mkThreshold _ inner) =>
          nsats ← mapM dissatisfy_helper inner; Some (flatten nsats)
      | Terminal.Multi thresh =>
          Some (plain (Witness.Stack (repeat Placeholder.PushZero (Threshold.k thresh + 1))))
      | Terminal.MultiA thresh =>
          Some (plain (Witness.Stack (repeat Placeholder.PushZero (Threshold.n thresh))))
      end
  end.
End Satisfy.

(** ** Entry points *)

(** [build_template] and [build_template_mall] *)
Definition build_template {P : AssetProvider} (ctx : ScriptContext) (ms : Miniscript)
    (root_has_sig : bool) (leaf_hash : TapLeafHash) : option (Satisfaction Placeholder) :=
  satisfy_helper ctx root_has_sig leaf_hash minimum thresh ms.

Definition build_template_mall {P : AssetProvider} (ctx : ScriptContext) (ms : Miniscript)
    (root_has_sig : bool) (leaf_hash : TapLeafHash) : option (Satisfaction Placeholder) :=
  satisfy_helper ctx root_has_sig leaf_hash minimum_mall thresh_mall ms.
End Template.

(** * Completing a template *)

Section Complete.
Context {B : Bitcoin} {Sp : Spending} {K : MiniscriptKey} {TP : ToPublicKey K} {S : Satisfier}.

(** [satisfy_self] *)
Definition satisfy_self (self : Placeholder) : option bytes :=
  match self with
  | Placeholder.Pubkey pk size =>
      if size =? 33 then Some (XOnlyPublicKey_serialize (to_x_only_pubkey pk))
      else Some (PublicKey_to_bytes (to_public_key pk))
  | Placeholder.PubkeyHash pkh _ =>
      PublicKey_to_bytes
        <$> or_else (lookup_raw_pkh_pk pkh) (fst <$> lookup_raw_pkh_ecdsa_sig pkh)
  | Placeholder.Hash256Preimage h => lookup_hash256 h
  | Placeholder.Sha256Preimage h => lookup_sha256 h
  | Placeholder.Hash160Preimage h => lookup_hash160 h
  | Placeholder.Ripemd160Preimage h => lookup_ripemd160 h
  | Placeholder.EcdsaSigPk pk => EcdsaSignature_to_vec <$> lookup_ecdsa_sig pk
  | Placeholder.EcdsaSigPkHash pkh =>
      (fun '(_, s) => EcdsaSignature_to_vec s) <$> lookup_raw_pkh_ecdsa_sig pkh
  | Placeholder.SchnorrSigPk pk (ScriptSpend leaf_hash) _ =>
      TaprootSignature_to_vec <$> lookup_tap_leaf_script_sig pk leaf_hash
  | Placeholder.SchnorrSigPk pk _ _ => TaprootSignature_to_vec <$> lookup_tap_key_spend_sig pk
  | Placeholder.SchnorrSigPkHash pkh tap_leaf_hash _ =>
      (fun '(_, s) => TaprootSignature_to_vec s)
        <$> lookup_raw_pkh_tap_leaf_script_sig (pkh, tap_leaf_hash)
  | Placeholder.HashDissatisfaction => Some (repeat Byte.x00 32)
  | Placeholder.PushZero => Some []
  | Placeholder.PushOne => Some [Byte.x01]
  | Placeholder.TapScript s => Some s
  | Placeholder.TapControlBlock cb => Some (ControlBlock_serialize cb)
  end.

Definition try_completing (self : Satisfaction Placeholder) : option (Satisfaction bytes) :=
  stack ←
    match stack self with
    | Witness.Stack stack => Witness.Stack <$> mapM satisfy_self stack
    | Witness.Unavailable => Some Witness.Unavailable
    | Witness.Impossible => Some Witness.Impossible
    end;
  Some (mkSatisfaction stack (has_sig self) (absolute_timelock self) (relative_timelock self)).

(** [Satisfaction::satisfy] and [satisfy_mall]; the [expect] of the code makes a
    template that cannot be completed a panic. *)
Definition satisfaction_satisfy (ctx : ScriptContext) (ms : Miniscript) (root_has_sig : bool)
    (leaf_hash : TapLeafHash) : option (Satisfaction bytes) :=
  template ← build_template ctx ms root_has_sig leaf_hash; try_completing template.

Definition satisfaction_satisfy_mall (ctx : ScriptContext) (ms : Miniscript) (root_has_sig : bool)
    (leaf_hash : TapLeafHash) : option (Satisfaction bytes) :=
  template ← build_template_mall ctx ms root_has_sig leaf_hash; try_completing template.
End Complete.

(** * The methods of [Miniscript] (src/src/miniscript/mod.rs)

    The outer option is a panic. *)

Section Miniscript.
Context {B : Bitcoin} {Sp : Spending} {K : MiniscriptKey} {TP : ToPublicKey K}.

Definition leaf_hash_internal (ctx : ScriptContext) (ms : Miniscript) : TapLeafHash :=
  TapLeafHash_from_script (encode ctx ms Builder_new).

(** [_satisfy] *)
Definition satisfy_result (satisfaction : Satisfaction bytes) : result Error (list bytes) :=
  match stack satisfaction with
  | Witness.Stack stack => Ok stack
  | Witness.Unavailable | Witness.Impossible => Err CouldNotSatisfy
  end.

Definition satisfy {S : Satisfier} (ctx : ScriptContext) (ms : Miniscript)
  : option (result Error (list bytes)) :=
  satisfy_result
    <$> satisfaction_satisfy ctx ms (m_safe (mall (ty ms))) (leaf_hash_internal ctx ms).

Definition satisfy_malleable {S : Satisfier} (ctx : ScriptContext) (ms : Miniscript)
  : option (result Error (list bytes)) :=
  satisfy_result
    <$> satisfaction_satisfy_mall ctx ms (m_safe (mall (ty ms))) (leaf_hash_internal ctx ms).

Definition ms_build_template {P : AssetProvider} (ctx : ScriptContext) (ms : Miniscript)
  : option (Satisfaction Placeholder) :=
  build_template ctx ms (m_safe (mall (ty ms))) (leaf_hash_internal ctx ms).

Definition ms_build_template_mall {P : AssetProvider} (ctx : ScriptContext) (ms : Miniscript)
  : option (Satisfaction Placeholder) :=
  build_template_mall ctx ms (m_safe (mall (ty ms))) (leaf_hash_internal ctx ms).
End Miniscript.

(** * Concrete satisfiers over the reference instance, for the witnesses of the
    theorems on satisfaction. *)
From S2P Require Import Reference Samples.

(** Signs for the given keys in the given leaf, knows the preimage of every hash
    (the reference hash functions keep the first bytes), and spends at the given
    lock time and sequence number. *)
Definition sample_satisfier (keys : list Pk) (seq : N) (lock : N) : Satisfier (Sp := reference_spending) :=
  let sig (k : Pk) : option bytes := if decide (k ∈ keys) then Some [k.2] else None in
  let preimage n (h : Reference.array n) : option bytes := Some (Reference.pad 32 (Reference.to_list h)) in
  mkSatisfier (Sp := reference_spending) (K := reference_key)
    sig sig (fun k _ => sig k) None (fun _ => None) (fun _ => None) (fun _ => None) (fun _ => None)
    (preimage 32) (preimage 32) (preimage 20) (preimage 20)
    (fun t => RelativeLockTime_is_implied_by (Bitcoin := reference) t seq)
    (fun t => LockTime_is_implied_by (Bitcoin := reference) t lock) (fun _ => false).

Lemma sample_vault_spend :
  satisfy (S := sample_satisfier [keyB] 144 0) Segwitv0 (sample_vault Segwitv0)
  = Some (Ok [[Byte.x30; Byte.x00; Byte.x0b]; []]).
Proof. vm_compute. reflexivity. Qed.

(** The signature check of the samples, for the signatures that
    [sample_satisfier] makes. *)
Definition sample_verify (k : bool * Byte.byte + Byte.byte) (s : bytes) : bool :=
  bool_decide (s = [match k with inl k => k.2 | inr k => k end]).
