(* ===== verification/WitSpec.v ===== *)
(** What the satisfier may produce: the declarative specification [Wit] of the
    satisfactions and dissatisfactions of every fragment, with a free choice
    between alternatives, and the refinement theorem that the witnesses built by
    [satisfy_helper] and [dissatisfy_helper] (src/src/miniscript/satisfy.rs), in
    both modes, are among them. Properties of witnesses are proved by induction on
    the specification. *)
From S2P Require Import Prelude Bitcoin Primitives Reference Ord Correctness Malleability Types ExtData Tree Ast Context Samples Encode Satisfy.

Section Spec.
Context {B : Bitcoin} {Sp : Spending} {K : MiniscriptKey}.
Context {P : AssetProvider} (ctx : ScriptContext) (leaf_hash : TapLeafHash).

(** The wrappers a witness passes through unchanged. *)
Definition sat_wrapper (term : Terminal Miniscript) : option Miniscript :=
  match term with
  | Terminal.InscribePre _ sub | Terminal.InscribePost _ sub | Terminal.Alt sub
  | Terminal.Swap sub | Terminal.Check sub | Terminal.Verify sub | Terminal.NonZero sub
  | Terminal.ZeroNotEqual sub => Some sub
  | _ => None
  end.

Definition dissat_wrapper (term : Terminal Miniscript) : option Miniscript :=
  match term with
  | Terminal.InscribePre _ sub | Terminal.InscribePost _ sub | Terminal.Alt sub
  | Terminal.Swap sub | Terminal.Check sub | Terminal.ZeroNotEqual sub => Some sub
  | _ => None
  end.

Definition preimage (term : Terminal Miniscript) : option (Witness Placeholder) :=
  match term with
  | Terminal.Sha256 h => Some (sha256_preimage h)
  | Terminal.Hash256 h => Some (hash256_preimage h)
  | Terminal.Ripemd160 h => Some (ripemd160_preimage h)
  | Terminal.Hash160 h => Some (hash160_preimage h)
  | _ => None
  end.

(** The fragments whose dissatisfaction dissatisfies two children in turn. *)
Definition dissat_pair (term : Terminal Miniscript) : option (Miniscript * Miniscript) :=
  match term with
  | Terminal.AndB l r | Terminal.OrB l r | Terminal.OrD l r | Terminal.AndOr l _ r => Some (l, r)
  | _ => None
  end.

(** A signature, or the empty element that skips a key of [multi_a]. *)
Definition multi_a_item (pk : Pk) (b : bool) (w : list Placeholder) : Prop :=
  if b then signature ctx leaf_hash pk = Witness.Stack w else w = [Placeholder.PushZero].

Abbreviation count_true := (sum_by Nat.b2n).

(** [Wit true ms w]: [w], bottom of the stack first, satisfies [ms]; [Wit false]:
    it dissatisfies it. *)
Inductive Wit : bool -> Miniscript -> list Placeholder -> Prop :=
| Wit_pk_k pk w t e :
    signature ctx leaf_hash pk = Witness.Stack w ->
    Wit true (mkMiniscript (Terminal.PkK pk) t e) w
| Wit_pk_h pk w len t e :
    signature ctx leaf_hash pk = Witness.Stack w -> pk_len ctx pk = Some len ->
    Wit true (mkMiniscript (Terminal.PkH pk) t e) (w ++ [Placeholder.Pubkey pk len])
| Wit_raw_pk_h h w t e :
    pkh_signature ctx leaf_hash h = Some (Witness.Stack w) ->
    Wit true (mkMiniscript (Terminal.RawPkH h) t e) w
| Wit_after n t e :
    provider_check_after (abs_inner n) = true ->
    Wit true (mkMiniscript (Terminal.After n) t e) []
| Wit_older n n' t e :
    rel_to_relative n = Some n' -> provider_check_older n' = true ->
    Wit true (mkMiniscript (Terminal.Older n) t e) []
| Wit_hash term w t e :
    preimage term = Some (Witness.Stack w) -> Wit true (mkMiniscript term t e) w
| Wit_tx_template h t e :
    provider_check_tx_template h = true ->
    Wit true (mkMiniscript (Terminal.TxTemplate h) t e) []
| Wit_true t e : Wit true (mkMiniscript Terminal.True t e) []
| Wit_wrapper term sub w t e :
    sat_wrapper term = Some sub -> Wit true sub w -> Wit true (mkMiniscript term t e) w
| Wit_dup_if sub w t e :
    Wit true sub w -> Wit true (mkMiniscript (Terminal.DupIf sub) t e) (w ++ [Placeholder.PushOne])
| Wit_and_v l r wl wr t e :
    Wit true l wl -> Wit true r wr -> Wit true (mkMiniscript (Terminal.AndV l r) t e) (wr ++ wl)
| Wit_and_b l r wl wr t e :
    Wit true l wl -> Wit true r wr -> Wit true (mkMiniscript (Terminal.AndB l r) t e) (wr ++ wl)
| Wit_and_or_then a b c wa wb t e :
    Wit true a wa -> Wit true b wb -> Wit true (mkMiniscript (Terminal.AndOr a b c) t e) (wb ++ wa)
| Wit_and_or_else a b c wa wc t e :
    Wit false a wa -> Wit true c wc -> Wit true (mkMiniscript (Terminal.AndOr a b c) t e) (wc ++ wa)
| Wit_or_b_l l r wl wr t e :
    Wit true l wl -> Wit false r wr -> Wit true (mkMiniscript (Terminal.OrB l r) t e) (wr ++ wl)
| Wit_or_b_r l r wl wr t e :
    Wit false l wl -> Wit true r wr -> Wit true (mkMiniscript (Terminal.OrB l r) t e) (wr ++ wl)
| Wit_or_d_l l r wl t e :
    Wit true l wl -> Wit true (mkMiniscript (Terminal.OrD l r) t e) wl
| Wit_or_d_r l r wl wr t e :
    Wit false l wl -> Wit true r wr -> Wit true (mkMiniscript (Terminal.OrD l r) t e) (wr ++ wl)
| Wit_or_c_l l r wl t e :
    Wit true l wl -> Wit true (mkMiniscript (Terminal.OrC l r) t e) wl
| Wit_or_c_r l r wl wr t e :
    Wit false l wl -> Wit true r wr -> Wit true (mkMiniscript (Terminal.OrC l r) t e) (wr ++ wl)
| Wit_or_i_l b l r w t e :
    Wit b l w -> Wit b (mkMiniscript (Terminal.OrI l r) t e) (w ++ [Placeholder.PushOne])
| Wit_or_i_r b l r w t e :
    Wit b r w -> Wit b (mkMiniscript (Terminal.OrI l r) t e) (w ++ [Placeholder.PushZero])
| Wit_thresh k inner chosen ws t e :
    WitList chosen inner ws -> count_true chosen = k ->
    Wit true (mkMiniscript (Terminal.Thresh (mkThreshold k inner)) t e) (concat (rev ws))
| Wit_multi thresh pks ws t e :
    sublist pks (Threshold.data thresh) -> length pks = Threshold.k thresh ->
    Forall2 (fun pk w => signature ctx leaf_hash pk = Witness.Stack w) pks ws ->
    Wit true (mkMiniscript (Terminal.Multi thresh) t e) (Placeholder.PushZero :: concat ws)
| Wit_multi_a thresh chosen ws t e :
    Forall3 multi_a_item (rev (Threshold.data thresh)) chosen ws ->
    count_true chosen = Threshold.k thresh ->
    Wit true (mkMiniscript (Terminal.MultiA thresh) t e) (concat ws)
| Dis_pk_k pk t e : Wit false (mkMiniscript (Terminal.PkK pk) t e) [Placeholder.PushZero]
| Dis_pk_h pk len t e :
    pk_len ctx pk = Some len ->
    Wit false (mkMiniscript (Terminal.PkH pk) t e) [Placeholder.PushZero; Placeholder.Pubkey pk len]
| Dis_raw_pk_h h w t e :
    pkh_public_key ctx h = Some (Witness.Stack w) ->
    Wit false (mkMiniscript (Terminal.RawPkH h) t e) (Placeholder.PushZero :: w)
| Dis_false t e : Wit false (mkMiniscript Terminal.False t e) []
| Dis_hash term w t e :
    preimage term = Some w -> Wit false (mkMiniscript term t e) [Placeholder.HashDissatisfaction]
| Dis_wrapper term sub w t e :
    dissat_wrapper term = Some sub -> Wit false sub w -> Wit false (mkMiniscript term t e) w
| Dis_dup_if sub t e : Wit false (mkMiniscript (Terminal.DupIf sub) t e) [Placeholder.PushZero]
| Dis_non_zero sub t e :
    Wit false (mkMiniscript (Terminal.NonZero sub) t e) [Placeholder.PushZero]
| Dis_and_v l r wl wr t e :
    Wit true l wl -> Wit false r wr -> Wit false (mkMiniscript (Terminal.AndV l r) t e) (wr ++ wl)
| Dis_pair term l r wl wr t e :
    dissat_pair term = Some (l, r) -> Wit false l wl -> Wit false r wr ->
    Wit false (mkMiniscript term t e) (wr ++ wl)
| Dis_thresh k inner chosen ws t e :
    WitList chosen inner ws -> count_true chosen = 0 ->
    Wit false (mkMiniscript (Terminal.Thresh (mkThreshold k inner)) t e) (concat (rev ws))
| Dis_multi thresh t e :
    Wit false (mkMiniscript (Terminal.Multi thresh) t e)
      (repeat Placeholder.PushZero (Threshold.k thresh + 1))
| Dis_multi_a thresh t e :
    Wit false (mkMiniscript (Terminal.MultiA thresh) t e)
      (repeat Placeholder.PushZero (Threshold.n thresh))

(** Witnesses of several children, each satisfied or dissatisfied as chosen. *)
with WitList : list bool -> list Miniscript -> list (list Placeholder) -> Prop :=
| WitList_nil : WitList [] [] []
| WitList_cons b ms w bs mss ws :
    Wit b ms w -> WitList bs mss ws -> WitList (b :: bs) (ms :: mss) (w :: ws).

Scheme Wit_mut := Induction for Wit Sort Prop
with WitList_mut := Induction for WitList Sort Prop.

Combined Scheme Wit_WitList_ind from Wit_mut, WitList_mut.
End Spec.

(** * Choosing between alternatives *)

Section Choice.
Context {B : Bitcoin} {Sp : Spending} {K : MiniscriptKey}.
Abbreviation Sat := (Satisfaction Placeholder).

Lemma combine_Stack {T} (a b : Witness T) w :
  combine a b = Witness.Stack w ->
  exists wa wb, a = Witness.Stack wa /\ b = Witness.Stack wb /\ w = wa ++ wb.
Proof. destruct a, b; simpl; try congruence. intros [= <-]. eauto. Qed.

Lemma fold_flatten l acc w :
  stack (fold_left concatenate_rev l acc) = Witness.Stack w ->
  exists ws w0, Forall2 (fun s w => stack s = Witness.Stack w) l ws
    /\ stack acc = Witness.Stack w0 /\ w = concat (rev ws) ++ w0.
Proof.
  revert acc. induction l as [|s l IH]; intros acc H; simpl in H.
  - by exists [], w.
  - apply IH in H as (ws & w0 & Hf & Hc%combine_Stack & ->).
    destruct Hc as (wa & wb & Ha & Hb & ->). exists (wa :: ws), wb.
    split_and!; [by constructor | done |]. simpl. rewrite concat_app. simpl.
    by rewrite app_nil_r, <- app_assoc.
Qed.

Lemma flatten_Stack (l : list Sat) w :
  stack (flatten l) = Witness.Stack w ->
  exists ws, Forall2 (fun s w => stack s = Witness.Stack w) l ws /\ w = concat (rev ws).
Proof.
  intros (ws & w0 & Hf & [= <-] & ->)%fold_flatten. exists ws. by rewrite app_nil_r.
Qed.

(** The satisfactions where [chosen], the dissatisfactions elsewhere. *)
Fixpoint select {A} (chosen : list bool) (sats dissats : list A) : list A :=
  match chosen, sats, dissats with
  | b :: chosen, s :: sats, d :: dissats => (if b then s else d) :: select chosen sats dissats
  | _, _, _ => []
  end.

Lemma select_lookup {A} (chosen : list bool) (sats dissats : list A) (i : nat) :
  length chosen = length sats -> length sats = length dissats ->
  (select chosen sats dissats !! i : option A)
  = match (chosen !! i : option bool) with
    | Some b => if b then sats !! i else dissats !! i
    | None => None
    end.
Proof.
  revert sats dissats i. induction chosen as [|b chosen IH]; intros [|s sats] [|d dissats] i;
    simpl; try done. intros [= H1] [= H2]. destruct i as [|i]; simpl; [by destruct b|]. by apply IH.
Qed.

Lemma swap_at_Some i (ret sats ret' sats' : list Sat) :
  swap_at i (ret, sats) = Some (ret', sats') ->
  exists r s, ret !! i = Some r /\ sats !! i = Some s
    /\ ret' = <[i := s]> ret /\ sats' = <[i := r]> sats.
Proof.
  unfold swap_at. destruct (ret !! i) as [r|] eqn:Hr; [|done]. simpl.
  destruct (sats !! i) as [s|] eqn:Hs; [|done]. simpl. intros [= <- <-]. by exists r, s.
Qed.

(** Swapping at distinct positions exchanges exactly those entries. *)
Lemma swap_all_lookup idxs (ret sats ret' sats' : list Sat) :
  NoDup idxs -> length ret = length sats ->
  swap_all idxs (ret, sats) = Some (ret', sats') ->
  length ret' = length ret /\ length sats' = length sats
  /\ Forall (fun i => i < length ret) idxs
  /\ forall i, ret' !! i = (if bool_decide (i ∈ idxs) then sats !! i else ret !! i)
            /\ sats' !! i = (if bool_decide (i ∈ idxs) then ret !! i else sats !! i).
Proof.
  intros Hnd. revert ret sats. induction Hnd as [|i idxs Hi _ IH]; intros ret sats Hlen H.
  - simpl in H. injection H as <- <-. split_and!; [done | done | constructor |].
    intros i. by rewrite bool_decide_eq_false_2 by (apply not_elem_of_nil).
  - cbn [swap_all] in H. destruct (swap_at i (ret, sats)) as [[ret1 sats1]|] eqn:E; [|done].
    cbn [mbind option_bind] in H.
    apply swap_at_Some in E as (r & s & Hr & Hs & -> & ->).
    apply IH in H as (H1 & H2 & H3 & H4); [|by rewrite !length_insert].
    rewrite length_insert in *. split_and!; [done | done | |].
    { constructor; [by eapply lookup_lt_Some | done]. }
    intros j. destruct (H4 j) as [Ha Hb]. rewrite Ha, Hb.
    destruct (decide (j = i)) as [->|Hne].
    + rewrite (bool_decide_eq_false_2 (i ∈ idxs)) by done.
      rewrite bool_decide_eq_true_2 by (apply elem_of_cons; by left).
      rewrite !list_lookup_insert_eq by (by eapply lookup_lt_Some). done.
    + rewrite !list_lookup_insert_ne by done.
      destruct (decide (j ∈ idxs)).
      * rewrite !bool_decide_eq_true_2 by (done || apply elem_of_cons; by right). done.
      * rewrite !bool_decide_eq_false_2 by (done || by apply not_elem_of_cons). done.
Qed.

Lemma count_decide (n : nat) (idxs : list nat) :
  NoDup idxs -> Forall (fun i => i < n) idxs ->
  sum_by Nat.b2n (map (fun i => bool_decide (i ∈ idxs)) (seq 0 n)) = length idxs.
Proof.
  intros Hnd Hlt. unfold sum_by. rewrite map_map.
  assert (forall l, list_sum (map (fun i => Nat.b2n (bool_decide (i ∈ idxs))) l)
          = length (List.filter (fun i => bool_decide (i ∈ idxs)) l)) as Hf.
  { induction l as [|a l IH]; [done|]. simpl. rewrite IH. by destruct (bool_decide (a ∈ idxs)). }
  rewrite Hf. apply Permutation_length, NoDup_Permutation.
  - apply NoDup_ListNoDup, List.NoDup_filter, seq_NoDup.
  - done.
  - intros i. rewrite list_elem_of_In, filter_In, <- list_elem_of_In, bool_decide_eq_true.
    rewrite elem_of_seq. rewrite List.Forall_forall in Hlt. setoid_rewrite <- list_elem_of_In in Hlt.
    split; [tauto|]. intros Hi. specialize (Hlt i Hi). split; [lia | done].
Qed.

(** A mode of the satisfier: what it picks is one of the alternatives. *)
Class Selection (min_fn : Sat -> Sat -> Sat)
    (thresh_fn : nat -> list Sat -> list Sat -> option Sat) : Prop := {
  selection_min : forall a b w,
    stack (min_fn a b) = Witness.Stack w -> stack a = Witness.Stack w \/ stack b = Witness.Stack w;
  selection_thresh : forall k sats dissats r w,
    k <= length sats -> length dissats = length sats ->
    thresh_fn k sats dissats = Some r -> stack r = Witness.Stack w ->
    exists chosen, length chosen = length sats /\ sum_by Nat.b2n chosen = k
      /\ stack (flatten (select chosen sats dissats)) = Witness.Stack w;
}.

(** Swapping the entries of the first [k] sorted indices selects [k] of them. *)
Lemma swap_all_select {Key} (leb : Key -> Key -> bool) (key : nat -> Key) k
    (sats dissats ret' sats' : list Sat) :
  k <= length sats -> length dissats = length sats ->
  swap_all (take k (sort_by_key leb key (seq 0 (length sats)))) (dissats, sats) = Some (ret', sats') ->
  exists chosen, length chosen = length sats /\ sum_by Nat.b2n chosen = k
    /\ ret' = select chosen sats dissats.
Proof.
  intros Hk Hlen H. set (idxs := take k _) in H.
  assert (Permutation (sort_by_key leb key (seq 0 (length sats))) (seq 0 (length sats))) as Hperm
    by apply sort_by_key_perm.
  assert (NoDup idxs) as Hnd.
  { eapply sublist_NoDup; [|apply sublist_take]. rewrite Hperm. apply NoDup_ListNoDup, seq_NoDup. }
  assert (length idxs = k) as Hl.
  { unfold idxs. rewrite length_take, Hperm, length_seq. lia. }
  destruct (swap_all_lookup _ _ _ _ _ Hnd Hlen H) as (H1 & H2 & H3 & H4).
  exists (map (fun i => bool_decide (i ∈ idxs)) (seq 0 (length sats))).
  split_and!.
  - by rewrite length_map, length_seq.
  - rewrite count_decide; [done | done |]. by rewrite <- Hlen.
  - apply list_eq. intros i. destruct (H4 i) as [-> _].
    rewrite select_lookup; [| by rewrite length_map, length_seq | done].
    change (map (fun i => bool_decide (i ∈ idxs)) (seq 0 (length sats)))
      with ((fun i => bool_decide (i ∈ idxs)) <$> seq 0 (length sats)).
    rewrite list_lookup_fmap. destruct (decide (i < length sats)) as [Hi|Hi].
    + rewrite lookup_seq_lt by done. done.
    + rewrite lookup_seq_ge by lia. simpl.
      rewrite !lookup_ge_None_2 by lia. by destruct (bool_decide _).
Qed.

#[export] Instance minimum_selection : Selection minimum thresh.
Proof.
  constructor.
  - intros a b w. unfold minimum.
    destruct (stack a) eqn:Ha, (stack b) eqn:Hb; try (intros H; rewrite ?Ha, ?Hb in H; tauto);
      destruct (has_sig a), (has_sig b); simpl; rewrite ?Ha, ?Hb; try tauto; try congruence;
      destruct (witness_lt _ _); simpl; rewrite ?Ha, ?Hb; tauto.
  - intros k sats dissats r w Hk Hlen. unfold thresh.
    destruct (swap_all _ _) as [[ret' sats']|] eqn:E; [|done]. cbn [mbind option_bind].
    destruct (_ !! (k - 1)) as [i|]; [|done]. cbn [mbind option_bind].
    destruct (sats' !! i) as [last|]; [|done]. cbn [mbind option_bind].
    destruct (bool_decide _); [by intros [= <-]|].
    destruct (_ !! k) as [j|]; [|done]. cbn [mbind option_bind].
    destruct (sats' !! j) as [next|]; [|done]. cbn [mbind option_bind].
    destruct (negb _ && negb _).
    { destruct (existsb has_sig ret'); [done|]. by intros [= <-]. }
    intros [= <-] Hw. destruct (swap_all_select _ _ _ _ _ _ _ Hk Hlen E) as (c & ? & ? & ->). eauto.
Qed.

#[export] Instance minimum_mall_selection : Selection minimum_mall thresh_mall.
Proof.
  constructor.
  - intros a b w. unfold minimum_mall.
    destruct (stack a) eqn:Ha, (stack b) eqn:Hb; try (intros H; rewrite ?Ha, ?Hb in H; tauto);
      destruct (witness_lt _ _); simpl; tauto.
  - intros k sats dissats r w Hk Hlen. unfold thresh_mall.
    destruct (swap_all _ _) as [[ret' sats']|] eqn:E; [|done]. cbn [mbind option_bind].
    intros [= <-] Hw. destruct (swap_all_select _ _ _ _ _ _ _ Hk Hlen E) as (c & ? & ? & ->). eauto.
Qed.
End Choice.

(** * Signatures of [multi] and [multi_a] *)

Section Multi.
Context {B : Bitcoin} {Sp : Spending} {K : MiniscriptKey} {P : AssetProvider}.
Context (ctx : ScriptContext) (leaf_hash : TapLeafHash).

(** The pushes of a fragment that are never empty. *)
Definition nonzero_push (p : Placeholder) : bool :=
  match p with
  | Placeholder.PushZero | Placeholder.TapScript _ | Placeholder.TapControlBlock _ => false
  | _ => true
  end.

Lemma signature_single pk w :
  signature ctx leaf_hash pk = Witness.Stack w -> exists p, w = [p] /\ nonzero_push p = true.
Proof.
  unfold signature. destruct (sig_type ctx).
  - destruct (provider_lookup_ecdsa_sig pk); [|done]. intros [= <-]. by eexists.
  - destruct (provider_lookup_tap_leaf_script_sig pk leaf_hash); [|done]. intros [= <-]. by eexists.
Qed.

Lemma signature_available pk : signature ctx leaf_hash pk <> Witness.Unavailable.
Proof.
  unfold signature. destruct (sig_type ctx); [by destruct (provider_lookup_ecdsa_sig pk)|].
  by destruct (provider_lookup_tap_leaf_script_sig pk leaf_hash).
Qed.

Lemma multi_sigs_spec pks sigs :
  multi_sigs ctx leaf_hash pks = Some sigs ->
  exists sel, sublist sel pks
    /\ Forall2 (fun pk w => signature ctx leaf_hash pk = Witness.Stack w) sel sigs.
Proof.
  revert sigs. induction pks as [|pk pks IH]; intros sigs H; simpl in H.
  { injection H as <-. by exists []. }
  destruct (signature ctx leaf_hash pk) as [w| |] eqn:E; [|done|].
  - destruct (multi_sigs ctx leaf_hash pks) as [l|]; [|done]. injection H as <-.
    destruct (IH _ eq_refl) as (sel & ? & ?). exists (pk :: sel).
    split; [by constructor | by constructor].
  - destruct (IH _ H) as (sel & ? & ?). exists sel. split; [by constructor | done].
Qed.

Lemma insert_middle {A} (l : list A) a b l' : <[length l := b]> (l ++ a :: l') = l ++ b :: l'.
Proof. induction l; simpl; [done | by f_equal]. Qed.

Lemma max_idx_empty j i best : max_idx (repeat [] j) i best 1 = best.
Proof. revert i. induction j as [|j IH]; intros i; [done | apply IH]. Qed.

Lemma max_idx_single (l : list (list Placeholder)) j i best bl :
  Forall (fun v => length v = 1) l -> l <> [] -> bl <= 1 ->
  max_idx (l ++ repeat [] j) i best bl = i + length l - 1.
Proof.
  intros Hl. revert i best bl. induction Hl as [|v l Hv Hl IH]; intros i best bl Hne Hbl; [done|].
  cbn [app max_idx]. rewrite Hv, (proj2 (Nat.leb_le bl 1) Hbl).
  destruct l as [|v' l].
  - simpl. rewrite max_idx_empty. lia.
  - rewrite IH; [simpl; lia | done | lia].
Qed.

(** Throwing away [m] of the signatures removes the last [m]. *)
Lemma throw_away_spec m (l : list (list Placeholder)) j :
  Forall (fun v => length v = 1) l -> m <= length l ->
  throw_away m (l ++ repeat [] j) = Some (take (length l - m) l ++ repeat [] (m + j)).
Proof.
  revert l j. induction m as [|m IH]; intros l j Hl Hm.
  { by rewrite Nat.sub_0_r, firstn_all. }
  destruct (@exists_last _ l) as (l' & v & ->); [by destruct l; simpl in Hm; [lia|]|].
  rewrite length_app in *. simpl in Hm. apply Forall_app in Hl as [Hl' Hv].
  assert (max_idx ((l' ++ [v]) ++ repeat [] j) 0 0 0 = length l') as Hi.
  { rewrite max_idx_single; [rewrite length_app; simpl; lia | by apply Forall_app | | lia].
    by destruct l'. }
  cbn [throw_away]. destruct ((l' ++ [v]) ++ repeat [] j) as [|x l] eqn:E.
  { by destruct l'. }
  rewrite Hi, <- E, <- app_assoc. cbn [app]. rewrite insert_middle.
  change ([] :: repeat [] j) with (repeat (A := list Placeholder) [] (S j)).
  rewrite IH by (done || lia). simpl length. replace (m + S j) with (S m + j) by lia.
  rewrite take_app_le by lia.
  by replace (length l' + 1 - S m) with (length l' - m) by lia.
Qed.

Lemma fold_combine sigs w :
  fold_left (fun acc (sig : list Placeholder) => combine acc (Witness.Stack sig)) sigs (Witness.Stack w)
  = Witness.Stack (w ++ concat sigs).
Proof.
  revert w. induction sigs as [|sig sigs IH]; intros w; simpl; [by rewrite app_nil_r|].
  by rewrite IH, app_assoc.
Qed.

Lemma satisfy_multi_spec thresh r w :
  satisfy_multi ctx leaf_hash thresh = Some r -> stack r = Witness.Stack w ->
  exists pks ws, sublist pks (Threshold.data thresh) /\ length pks = Threshold.k thresh
    /\ Forall2 (fun pk w => signature ctx leaf_hash pk = Witness.Stack w) pks ws
    /\ w = Placeholder.PushZero :: concat ws.
Proof.
  unfold satisfy_multi. destruct (multi_sigs _ _ _) as [sigs|] eqn:E; [|done].
  cbn [mbind option_bind]. destruct (Nat.ltb_spec (length sigs) (Threshold.k thresh)) as [|Hk].
  { by intros [= <-]. }
  destruct (multi_sigs_spec _ _ E) as (sel & Hsub & Hsel).
  assert (Forall (fun v => length v = 1) sigs) as H1.
  { clear -Hsel. induction Hsel as [|pk v sel sigs Hs _ IH]; constructor; [|done].
    by destruct (signature_single _ _ Hs) as (p & -> & _). }
  pose proof (throw_away_spec (length sigs - Threshold.k thresh) sigs 0 H1 ltac:(lia)) as Ht.
  simpl in Ht. rewrite app_nil_r, Nat.add_0_r in Ht. rewrite Ht. cbn [mbind option_bind].
  replace (length sigs - (length sigs - Threshold.k thresh)) with (Threshold.k thresh) by lia.
  intros [= <-] Hw. unfold push_0 in Hw. simpl in Hw. rewrite fold_combine in Hw.
  injection Hw as <-. exists (take (Threshold.k thresh) sel), (take (Threshold.k thresh) sigs).
  split_and!.
  - etransitivity; [apply sublist_take | done].
  - apply Forall2_length in Hsel. rewrite length_take. lia.
  - by apply Forall2_take.
  - simpl. f_equal. rewrite concat_app.
    assert (forall n, concat (repeat (A := list Placeholder) [] n) = []) as ->;
      [|by rewrite app_nil_r].
    induction n; [done | simpl; done].
Qed.

Lemma skip_rest pks :
  Forall3 (multi_a_item ctx leaf_hash) pks (repeat false (length pks))
    (repeat [Placeholder.PushZero] (length pks))
  /\ sum_by Nat.b2n (repeat false (length pks)) = 0.
Proof.
  induction pks as [|pk pks [IH1 IH2]]; [split; [constructor | done]|]. simpl. split.
  - by constructor.
  - by rewrite sum_by_cons, IH2.
Qed.

Lemma multi_a_sigs_spec k pks done cnt n sigs :
  cnt < k ->
  multi_a_sigs ctx leaf_hash k (length done) cnt pks
    (done ++ repeat [Placeholder.PushZero] (length pks)) = Some (n, sigs) ->
  exists chosen ws, sigs = done ++ ws /\ Forall3 (multi_a_item ctx leaf_hash) pks chosen ws
    /\ n = cnt + sum_by Nat.b2n chosen /\ n <= k.
Proof.
  revert done cnt. induction pks as [|pk pks IH]; intros done cnt Hc H; simpl in H.
  { injection H as <- <-. exists [], []. split_and!; [done | constructor | cbn; lia | lia]. }
  destruct (signature ctx leaf_hash pk) as [sig| |] eqn:E; [|done|].
  - rewrite insert_middle in H. destruct (Nat.eqb_spec (cnt + 1) k) as [|Hne].
    + injection H as <- <-. destruct (skip_rest pks) as [H1 H2].
      exists (true :: repeat false (length pks)), (sig :: repeat [Placeholder.PushZero] (length pks)).
      split_and!; [done | by constructor | rewrite sum_by_cons, H2; simpl; lia | lia].
    + change (sig :: ?l) with ([sig] ++ l) in H. rewrite app_assoc in H.
      replace (S (length done)) with (length (done ++ [sig])) in H by (rewrite length_app; simpl; lia).
      apply IH in H as (chosen & ws & -> & H1 & -> & H2); [|lia].
      exists (true :: chosen), (sig :: ws). rewrite <- app_assoc.
      split_and!; [done | by constructor | rewrite sum_by_cons; simpl; lia | lia].
  - change ([Placeholder.PushZero] :: ?l) with ([[Placeholder.PushZero]] ++ l) in H.
    rewrite app_assoc in H.
    replace (S (length done)) with (length (done ++ [[Placeholder.PushZero]])) in H
      by (rewrite length_app; simpl; lia).
    apply IH in H as (chosen & ws & -> & H1 & -> & H2); [|done].
    exists (false :: chosen), ([Placeholder.PushZero] :: ws). rewrite <- app_assoc.
    split_and!; [done | by constructor | rewrite sum_by_cons; simpl; lia | lia].
Qed.

Lemma satisfy_multi_a_spec thresh r w :
  1 <= Threshold.k thresh ->
  satisfy_multi_a ctx leaf_hash thresh = Some r -> stack r = Witness.Stack w ->
  exists chosen ws, Forall3 (multi_a_item ctx leaf_hash) (rev (Threshold.data thresh)) chosen ws
    /\ sum_by Nat.b2n chosen = Threshold.k thresh /\ w = concat ws.
Proof.
  intros Hk. unfold satisfy_multi_a.
  destruct (multi_a_sigs _ _ _ _ _ _ _) as [[n sigs]|] eqn:E; [|done]. cbn [mbind option_bind].
  unfold Threshold.n in E. fold (Threshold.data thresh) in E. rewrite <- length_rev in E.
  apply (multi_a_sigs_spec _ _ []) in E as (chosen & ws & -> & H1 & -> & H2); [|lia].
  destruct (Nat.ltb_spec (0 + sum_by Nat.b2n chosen) (Threshold.k thresh)) as [|Hn].
  { by intros [= <-]. }
  intros [= <-] Hw. simpl in Hw. unfold empty in Hw. rewrite fold_combine in Hw. injection Hw as <-.
  exists chosen, ws. split_and!; [done | lia | done].
Qed.
End Multi.

(** Peels the binds of the option monad off a hypothesis. *)
Ltac inv_bind H :=
  repeat lazymatch type of H with
  | (_ ≫= _) = Some _ =>
      let x := fresh "x" in let Hx := fresh "Hx" in
      apply bind_Some in H as (x & Hx & H)
  end.

(** * The refinement *)

Section Refinement.
Context {B : Bitcoin} {Sp : Spending} {K : MiniscriptKey} {P : AssetProvider}.
Context (ctx : ScriptContext) (root_has_sig : bool) (leaf_hash : TapLeafHash).
Context (min_fn : Satisfaction Placeholder -> Satisfaction Placeholder -> Satisfaction Placeholder)
  (thresh_fn : nat -> list (Satisfaction Placeholder) -> list (Satisfaction Placeholder) ->
               option (Satisfaction Placeholder)) {Sel : Selection min_fn thresh_fn}.

Abbreviation sat := (satisfy_helper ctx root_has_sig leaf_hash min_fn thresh_fn).
Abbreviation dissat := (dissatisfy_helper ctx root_has_sig leaf_hash min_fn thresh_fn).
Abbreviation Wit := (Wit ctx leaf_hash).
Abbreviation WitList := (WitList ctx leaf_hash).

Definition refines (ms : Miniscript) : Prop :=
  (forall r w, sat ms = Some r -> stack r = Witness.Stack w -> Wit true ms w)
  /\ (forall r w, dissat ms = Some r -> stack r = Witness.Stack w -> Wit false ms w).

Lemma select_witnesses inner chosen sats dissats ws :
  Forall refines inner ->
  Forall2 (fun ms r => sat ms = Some r) inner sats ->
  Forall2 (fun ms r => dissat ms = Some r) inner dissats ->
  length chosen = length sats ->
  Forall2 (fun s w => stack s = Witness.Stack w) (select chosen sats dissats) ws ->
  WitList chosen inner ws.
Proof.
  intros HR Hs. revert dissats chosen ws.
  induction Hs as [|ms s inner sats Hsat _ IH]; intros dissats chosen ws Hd Hl Hw.
  - destruct chosen; [|done]. inversion Hw. constructor.
  - destruct chosen as [|b chosen]; [done|]. inversion Hd as [|? d ? ds Hdis Hds]; subst.
    simpl in Hw. inversion Hw as [|? w ? ws' Hw1 Hws]; subst.
    apply Forall_cons_1 in HR as [[HRs HRd] HR].
    constructor; [destruct b; eauto|]. eapply IH; eauto.
Qed.

Lemma all_satisfied inner sats ws :
  Forall refines inner -> Forall2 (fun ms r => sat ms = Some r) inner sats ->
  Forall2 (fun s w => stack s = Witness.Stack w) sats ws ->
  WitList (repeat true (length inner)) inner ws.
Proof.
  intros HR Hs. revert ws. induction Hs as [|ms s inner sats Hsat _ IH]; intros ws Hw.
  - inversion Hw. constructor.
  - inversion Hw as [|? w ? ws' Hw1 Hws]; subst. apply Forall_cons_1 in HR as [[HRs _] HR].
    constructor; eauto.
Qed.

Lemma all_dissatisfied inner dissats ws :
  Forall refines inner -> Forall2 (fun ms r => dissat ms = Some r) inner dissats ->
  Forall2 (fun s w => stack s = Witness.Stack w) dissats ws ->
  WitList (repeat false (length inner)) inner ws.
Proof.
  intros HR Hs. revert ws. induction Hs as [|ms s inner sats Hsat _ IH]; intros ws Hw.
  - inversion Hw. constructor.
  - inversion Hw as [|? w ? ws' Hw1 Hws]; subst. apply Forall_cons_1 in HR as [[_ HRd] HR].
    constructor; eauto.
Qed.

Lemma count_repeat b n : sum_by Nat.b2n (repeat b n) = if b then n else 0.
Proof. induction n as [|n IH]; [by destruct b|]. simpl. rewrite sum_by_cons, IH. by destruct b. Qed.

Lemma thresh_satisfied k inner r w t e :
  Forall refines inner -> 1 <= k <= length inner ->
  sat (mkMiniscript (Terminal.Thresh (mkThreshold k inner)) t e) = Some r ->
  stack r = Witness.Stack w ->
  Wit true (mkMiniscript (Terminal.Thresh (mkThreshold k inner)) t e) w.
Proof.
  intros HR Hk H Hw. cbn [satisfy_helper] in H. destruct (Nat.eqb_spec k (length inner)) as [->|].
  - inv_bind H. injection H as <-. apply mapM_Some in Hx.
    apply flatten_Stack in Hw as (ws & Hws & ->). econstructor; [by eapply all_satisfied|].
    apply count_repeat.
  - inv_bind H. apply mapM_Some in Hx, Hx0.
    pose proof Hx as Hl1. pose proof Hx0 as Hl2. apply Forall2_length in Hl1, Hl2.
    apply (selection_thresh _ _ _ _ w) in H as (chosen & Hl & Hc & Hf); [|lia|lia|done].
    apply flatten_Stack in Hf as (ws & Hws & ->).
    econstructor; [by eapply select_witnesses|done].
Qed.

Lemma concatenate_Stack (a b : Satisfaction Placeholder) w :
  stack (concatenate_rev a b) = Witness.Stack w ->
  exists wa wb, stack a = Witness.Stack wa /\ stack b = Witness.Stack wb /\ w = wb ++ wa.
Proof. intros (wa & wb & Ha & Hb & ->)%combine_Stack. eauto. Qed.

Lemma append_Stack (a : Satisfaction Placeholder) p w :
  stack (append a (Witness.Stack [p])) = Witness.Stack w ->
  exists wa, stack a = Witness.Stack wa /\ w = wa ++ [p].
Proof. intros (wa & wb & Ha & [= <-] & ->)%combine_Stack. eauto. Qed.

(** Uses the induction hypotheses on the stacks of children. *)
Ltac child IH Hx Hs := first [exact (proj1 IH _ _ Hx Hs) | exact (proj2 IH _ _ Hx Hs)].

Lemma refines_sat ms :
  wf ctx ms -> Forall refines (children ms) ->
  forall r w, sat ms = Some r -> stack r = Witness.Stack w -> Wit true ms w.
Proof.
  intros Hwf HR r w H Hw. destruct (wf_inv _ _ Hwf) as (_ & Hv & _ & _).
  destruct ms as [nd t e]. rewrite children_node in HR. cbn [node] in *.
  destruct nd as [| | p | p | h | n | n | x | x | x | x | h | j c | j c | c | c | c | c | c | c | c
                   | l r0 | l r0 | a b c | l r0 | l r0 | l r0 | l r0 | th | th | th];
    forall_children HR; try (eapply Wit_wrapper; [reflexivity|]; cbn in H; eapply Hc; eassumption).
  - cbn in H. injection H as <-. injection Hw as <-. apply Wit_true.
  - cbn in H. by injection H as <-.
  - cbn in H. injection H as <-. by constructor.
  - cbn in H. inv_bind H. injection H as <-.
    apply combine_Stack in Hw as (wa & wb & Ha & [= <-] & ->). by constructor.
  - cbn in H. inv_bind H. injection H as <-. cbn in Hw. subst. by constructor.
  - cbn in H. destruct (provider_check_after _) eqn:E; injection H as <-; cbn in Hw.
    + injection Hw as <-. by constructor.
    + unfold lock_not_met in Hw. by destruct root_has_sig.
  - cbn in H. inv_bind H. destruct (provider_check_older _) eqn:E; injection H as <-; cbn in Hw.
    + injection Hw as <-. by econstructor.
    + unfold lock_not_met in Hw. by destruct root_has_sig.
  - cbn in H. injection H as <-. apply Wit_hash. exact (f_equal Some Hw).
  - cbn in H. injection H as <-. apply Wit_hash. exact (f_equal Some Hw).
  - cbn in H. injection H as <-. apply Wit_hash. exact (f_equal Some Hw).
  - cbn in H. injection H as <-. apply Wit_hash. exact (f_equal Some Hw).
  - cbn in H. injection H as <-. cbn in Hw. destruct (provider_check_tx_template h) eqn:E; [|done].
    injection Hw as <-. by constructor.
  - cbn in H. inv_bind H. injection H as <-. apply append_Stack in Hw as (wa & Ha & ->).
    apply Wit_dup_if. by eapply Hc.
  - cbn in H. inv_bind H. injection H as <-. apply concatenate_Stack in Hw as (wa & wb & Ha & Hb & ->).
    apply Wit_and_v; [by eapply Hc | by eapply Hc0].
  - cbn in H. inv_bind H. injection H as <-. apply concatenate_Stack in Hw as (wa & wb & Ha & Hb & ->).
    apply Wit_and_b; [by eapply Hc | by eapply Hc0].
  - cbn in H. inv_bind H. injection H as <-.
    apply selection_min in Hw as [Hw|Hw]; apply concatenate_Stack in Hw as (wa & wb & Ha & Hb & ->).
    + apply Wit_and_or_then; [by eapply Hc | by eapply Hc0].
    + apply Wit_and_or_else; [by eapply Hc | by eapply Hc1].
  - cbn in H. inv_bind H. injection H as <-.
    apply selection_min in Hw as [Hw|Hw]; apply concatenate_Stack in Hw as (wa & wb & Ha & Hb & ->).
    + apply Wit_or_b_r; [by eapply Hc | by eapply Hc0].
    + apply Wit_or_b_l; [by eapply Hc | by eapply Hc0].
  - cbn in H. inv_bind H. injection H as <-. apply selection_min in Hw as [Hw|Hw].
    + apply Wit_or_d_l. by eapply Hc.
    + apply concatenate_Stack in Hw as (wa & wb & Ha & Hb & ->).
      apply Wit_or_d_r; [by eapply Hc | by eapply Hc0].
  - cbn in H. inv_bind H. injection H as <-. apply selection_min in Hw as [Hw|Hw].
    + apply Wit_or_c_l. by eapply Hc.
    + apply concatenate_Stack in Hw as (wa & wb & Ha & Hb & ->).
      apply Wit_or_c_r; [by eapply Hc | by eapply Hc0].
  - cbn in H. inv_bind H. injection H as <-.
    apply selection_min in Hw as [Hw|Hw]; apply append_Stack in Hw as (wa & Ha & ->).
    + apply Wit_or_i_l. by eapply Hc.
    + apply Wit_or_i_r. by eapply Hc0.
  - destruct th as [k inner]. eapply thresh_satisfied; [exact HR | apply Hv | exact H | exact Hw].
  - cbn [satisfy_helper] in H.
    destruct (satisfy_multi_spec _ _ _ _ _ H Hw) as (pks & ws & ? & ? & ? & ->).
    by eapply Wit_multi.
  - cbn [satisfy_helper] in H. destruct Hv as [[Hk _] _].
    destruct (satisfy_multi_a_spec _ _ _ _ _ Hk H Hw) as (chosen & ws & ? & ? & ->).
    by eapply Wit_multi_a.
Qed.

Lemma refines_dissat ms :
  Forall refines (children ms) ->
  forall r w, dissat ms = Some r -> stack r = Witness.Stack w -> Wit false ms w.
Proof.
  intros HR r w H Hw. destruct ms as [nd t e]. rewrite children_node in HR. cbn [node] in *.
  destruct nd as [| | p | p | h | n | n | x | x | x | x | h | j c | j c | c | c | c | c | c | c | c
                   | l r0 | l r0 | a b c | l r0 | l r0 | l r0 | l r0 | th | th | th];
    forall_children HR;
    try (eapply Dis_wrapper; [reflexivity|]; cbn in H; eapply Hc; eassumption);
    try (cbn in H; injection H as <-; discriminate Hw);
    try (cbn in H; injection H as <-; injection Hw as <-;
         first [by constructor | by eapply Dis_hash]);
    try (cbn in H; inv_bind H; injection H as <-;
         apply concatenate_Stack in Hw as (wa & wb & Ha & Hb & ->);
         eapply Dis_pair; [reflexivity | by eapply Hc | by first [eapply Hc1 | eapply Hc0]]).
  - cbn in H. inv_bind H. injection H as <-. injection Hw as <-. by constructor.
  - cbn [dissatisfy_helper] in H. inv_bind H. injection H as <-.
    destruct x; [|done|done]. injection Hw as <-. by apply Dis_raw_pk_h.
  - cbn in H. inv_bind H. injection H as <-. apply concatenate_Stack in Hw as (wa & wb & Ha & Hb & ->).
    apply Dis_and_v; [by eapply Hc | by eapply Hc0].
  - cbn in H. inv_bind H. injection H as <-.
    apply (selection_min (Selection := minimum_mall_selection)) in Hw as [Hw|Hw];
      apply combine_Stack in Hw as (wa & wb & Ha & [= <-] & ->).
    + apply Wit_or_i_l. by eapply Hc.
    + apply Wit_or_i_r. by eapply Hc0.
  - destruct th as [k inner]. cbn [dissatisfy_helper] in H. inv_bind H. injection H as <-.
    apply mapM_Some in Hx. apply flatten_Stack in Hw as (ws & Hws & ->).
    eapply Dis_thresh; [by eapply all_dissatisfied | apply count_repeat].
Qed.

Lemma refines_all ms : wf ctx ms -> refines ms.
Proof.
  revert ms. refine (wf_tree_ind ctx _ _). intros ms Hwf _ IH. split.
  - by apply refines_sat.
  - by apply refines_dissat.
Qed.
End Refinement.

(** Both entry points refine the specification. *)
Lemma refined {B : Bitcoin} {Sp : Spending} {K : MiniscriptKey} {P : AssetProvider}
    ctx leaf_hash root_has_sig ms r w :
  wf ctx ms ->
  build_template ctx ms root_has_sig leaf_hash = Some r
  \/ build_template_mall ctx ms root_has_sig leaf_hash = Some r ->
  stack r = Witness.Stack w ->
  Wit ctx leaf_hash true ms w.
Proof.
  intros Hwf [H|H] Hw.
  - exact (proj1 (refines_all ctx root_has_sig leaf_hash minimum thresh ms Hwf) r w H Hw).
  - exact (proj1 (refines_all ctx root_has_sig leaf_hash minimum_mall thresh_mall ms Hwf) r w H Hw).
Qed.

(** C20: Every template that the satisfier builds, in its non-malleable and in its
    malleable mode, is a satisfaction of the fragment as the specification of
    Miniscript tabulates them: each condition it relies on is one that the asset
    provider offers, and the elements come in the order the script pops them. *)
Theorem build_template_refines {B : Bitcoin} {Sp : Spending} {K : MiniscriptKey}
    {P : AssetProvider} ctx leaf_hash root_has_sig ms r w :
  wf ctx ms ->
  build_template ctx ms root_has_sig leaf_hash = Some r
  \/ build_template_mall ctx ms root_has_sig leaf_hash = Some r ->
  stack r = Witness.Stack w ->
  Wit ctx leaf_hash true ms w.
Proof. apply refined. Qed.

Definition vault_spend : list (Placeholder (Sp := reference_spending)) :=
  [Placeholder.EcdsaSigPk (Sp := reference_spending) (K := reference_key) keyB;
   Placeholder.PushZero].

Lemma build_template_refines_witness :
  Wit (P := satisfier_provider (S := sample_satisfier [keyB] 144 0)) Segwitv0 0 true
    (sample_vault Segwitv0) vault_spend.
Proof.
  apply (build_template_refines (P := satisfier_provider (S := sample_satisfier [keyB] 144 0))
    Segwitv0 0 true (sample_vault Segwitv0)
    (mkSatisfaction (Witness.Stack vault_spend) true None (Some older_144))).
  - exact sample_vault_wf.
  - left. apply (bool_decide_eq_true_1 _). vm_compute. reflexivity.
  - reflexivity.
Defined.
