(* ===== verification/Shape.v ===== *)
(** What the types promise about witnesses: the soundness of the type system
    for the witnesses of [WitSpec]: their number of elements, their top element,
    which fragments can be dissatisfied, and which witnesses carry a signature. *)
From S2P Require Import Prelude Bitcoin Primitives Reference Ord Correctness Malleability Types ExtData Tree Ast Context Samples Views Encode Satisfy WitSpec.

(** * Counting witness elements *)

(** The number of elements that an input property promises. *)
Definition input_count (i : Input) (n : nat) : Prop :=
  match i with
  | InputZero => n = 0
  | InputOne | InputOneNonZero => n = 1
  | InputAny | InputAnyNonZero => True
  end.

Lemma and_input_count l r n m :
  input_count l n -> input_count r m -> input_count (and_input l r) (m + n).
Proof. destruct l, r; simpl; intros; lia || done. Qed.
Lemma or_b_input_count l r n m :
  input_count l n -> input_count r m -> input_count (or_b_input l r) (m + n).
Proof. destruct l, r; simpl; intros; lia || done. Qed.
Lemma or_d_input_count l r n m :
  input_count l n -> input_count r m -> input_count (or_d_input l r) (m + n).
Proof. destruct l, r; simpl; intros; lia || done. Qed.
Lemma or_d_input_left l r n : input_count l n -> input_count (or_d_input l r) n.
Proof. destruct l, r; simpl; intros; lia || done. Qed.
Lemma or_i_input_left l r n : input_count l n -> input_count (or_i_input l r) (n + 1).
Proof. destruct l, r; simpl; intros; lia || done. Qed.
Lemma or_i_input_right l r n : input_count r n -> input_count (or_i_input l r) (n + 1).
Proof. destruct l, r; simpl; intros; lia || done. Qed.
Lemma and_or_input_then a b c n m :
  input_count a n -> input_count b m -> input_count (and_or_input a b c) (m + n).
Proof. destruct a, b, c; simpl; intros; lia || done. Qed.
Lemma and_or_input_else a b c n m :
  input_count a n -> input_count c m -> input_count (and_or_input a b c) (m + n).
Proof. destruct a, b, c; simpl; intros; lia || done. Qed.

Section Shape.
Context {B : Bitcoin} {Sp : Spending} {K : MiniscriptKey} {P : AssetProvider}.
Context (ctx : ScriptContext) (leaf_hash : TapLeafHash).
Abbreviation Wit := (Wit ctx leaf_hash).
Abbreviation WitList := (WitList ctx leaf_hash).

(** The top element of a satisfaction with the non-zero property. *)
Definition nonzero (i : Input) : bool :=
  match i with InputOneNonZero | InputAnyNonZero => true | _ => false end.

Definition top_nonzero (w : list Placeholder) : Prop :=
  exists w' p, w = w' ++ [p] /\ nonzero_push p = true.

Lemma and_top_nonzero l r wl wr :
  nonzero (and_input l r) = true -> input_count l (length wl) ->
  (nonzero l = true -> top_nonzero wl) -> (nonzero r = true -> top_nonzero wr) ->
  top_nonzero (wr ++ wl).
Proof.
  intros Hn Hc Hl Hr. destruct (nonzero l) eqn:El.
  - destruct Hl as (w' & p & -> & ?); [done|]. exists (wr ++ w'), p. by rewrite app_assoc.
  - assert (l = InputZero /\ nonzero r = true) as [-> Er].
    { destruct l, r; try done; discriminate El. }
    simpl in Hc. apply nil_length_inv in Hc as ->. rewrite app_nil_r. auto.
Qed.

Lemma top_nonzero_snoc w p : nonzero_push p = true -> top_nonzero (w ++ [p]).
Proof. intros. by exists w, p. Qed.

Lemma signature_shape pk w :
  signature ctx leaf_hash pk = Witness.Stack w -> length w = 1 /\ top_nonzero w.
Proof. intros (p & -> & Hp)%signature_single. split; [done|]. by exists [], p. Qed.

Lemma pkh_signature_top h w :
  pkh_signature ctx leaf_hash h = Some (Witness.Stack w) -> top_nonzero w.
Proof.
  unfold pkh_signature. destruct (sig_type ctx).
  - destruct (provider_lookup_raw_pkh_ecdsa_sig h) as [pk|]; [|done]. intros (len & _ & H)%bind_Some.
    injection H as <-. by apply (top_nonzero_snoc [_]).
  - destruct (provider_lookup_raw_pkh_tap_leaf_script_sig _) as [[pk sz]|]; [|done].
    intros (len & _ & H)%bind_Some. injection H as <-. by apply (top_nonzero_snoc [_]).
Qed.

Lemma preimage_shape term w :
  preimage term = Some (Witness.Stack w) -> length w = 1 /\ top_nonzero w.
Proof.
  unfold preimage, sha256_preimage, hash256_preimage, ripemd160_preimage, hash160_preimage.
  destruct term; try done; intros [= H]; revert H;
    match goal with |- context [if ?c then _ else _] => destruct c end; try done;
    intros [= <-]; (split; [done | by apply (top_nonzero_snoc [])]).
Qed.

Lemma preimage_view term w c :
  preimage term = Some w -> corr_view term c -> c = Correctness.hash.
Proof. by destruct term. Qed.

Lemma concat_rev_length {A} (ws : list (list A)) : length (concat (rev ws)) = sum_by length ws.
Proof.
  induction ws as [|w ws IH]; [done|]. simpl. rewrite concat_app, length_app, IH, sum_by_cons.
  simpl. rewrite app_nil_r. lia.
Qed.

Lemma thresh_count (mss : list Miniscript) (ws : list (list Placeholder)) :
  Forall2 (fun ms w => input_count (input_of ms) (length w)) mss ws ->
  input_count
    (match sum_by (fun ms => threshold_num_args (input_of ms)) mss with
     | 0 => InputZero | 1 => InputOne | _ => InputAny end) (sum_by length ws).
Proof.
  intros H.
  assert (sum_by (fun ms => threshold_num_args (input_of ms)) mss <= 1 ->
          sum_by length ws = sum_by (fun ms => threshold_num_args (input_of ms)) mss) as Hs.
  { induction H as [|ms w mss ws Hc _ IH]; [done|]. rewrite !sum_by_cons. intros Hle.
    rewrite IH by lia. destruct (input_of ms); simpl in *; lia. }
  destruct (sum_by _ mss) as [|[|n]]; simpl; [apply Hs; lia | apply Hs; lia | done].
Qed.

Lemma WitList_children (Q : bool -> Miniscript -> list Placeholder -> Prop) bs mss ws :
  Forall3 Q bs mss ws -> Forall2 (fun ms w => exists b, Q b ms w) mss ws.
Proof. induction 1; constructor; eauto. Qed.

Lemma wrapper_view term sub t e :
  sat_wrapper term = Some sub \/ dissat_wrapper term = Some sub ->
  wf ctx (mkMiniscript term t e) ->
  wf ctx sub /\ (c_input (corr t) = input_of sub \/ c_input (corr t) = InputAny).
Proof.
  intros H Hwf. destruct (wf_view ctx _ _ _ Hwf) as (Hw & _ & Hview).
  destruct term; destruct H as [[= <-]|[= <-]] || (destruct H; done);
    forall_children Hw; simpl in Hview; (split; [done|]); unfold input_of, corr_of in *;
    first [rewrite Hview; by left | tauto].
Qed.

(** Opens the typing of the node under consideration and applies the induction
    hypotheses to its children. *)
Ltac open_view :=
  lazymatch goal with
  | Hwf : wf ctx (mkMiniscript _ _ _) |- _ =>
      let Hw := fresh "Hw" in let Hv := fresh "Hv" in let Hview := fresh "Hview" in
      destruct (wf_view ctx _ _ _ Hwf) as (Hw & Hv & Hview); forall_children Hw;
      cbn [corr_view] in Hview; destruct_and? Hview
  end;
  repeat match goal with
  | IH : wf ctx ?ms -> _, H : wf ctx ?ms |- _ => specialize (IH H)
  | IH : Forall (wf ctx) ?l -> _, H : Forall (wf ctx) ?l |- _ => specialize (IH H)
  end;
  unfold input_of, base_of, corr_of in *; cbn [ty] in *.

(** Replaces the correctness of the node by what its rule computes. *)
Ltac rewrite_view :=
  repeat match goal with
  | H : corr ?t = _ |- context [corr ?t] => rewrite H
  | H : c_input (corr ?t) = _ |- context [c_input (corr ?t)] => rewrite H
  end.

(** ** The number of elements *)

Lemma counts :
  (forall b ms w, Wit b ms w -> wf ctx ms -> input_count (input_of ms) (length w))
  /\ (forall bs mss ws, WitList bs mss ws -> Forall (wf ctx) mss ->
        Forall2 (fun ms w => input_count (input_of ms) (length w)) mss ws).
Proof.
  apply Wit_WitList_ind; intros;
    try (open_view; rewrite_view; rewrite ?length_app;
         solve [done | eauto using and_input_count, or_b_input_count, or_d_input_count,
           or_d_input_left, or_i_input_left, or_i_input_right, and_or_input_then, and_or_input_else]).
  - open_view. rewrite_view. by destruct (signature_shape _ _ e0) as [-> _].
  - open_view. destruct (preimage_shape _ _ e0) as [-> _].
    by rewrite (preimage_view _ _ _ e0 Hview).
  - destruct (wrapper_view _ _ _ _ (or_introl e0) H0) as [Hs [He|He]];
      unfold input_of at 1, corr_of; cbn [ty]; rewrite He; [by apply H | done].
  - open_view. rewrite_view. rewrite length_app. rewrite H3 in H. simpl in *. lia.
  - open_view. rewrite_view. rewrite concat_rev_length. by apply thresh_count.
  - open_view. by rewrite (preimage_view _ _ _ e0 Hview).
  - destruct (wrapper_view _ _ _ _ (or_intror e0) H0) as [Hs [He|He]];
      unfold input_of at 1, corr_of; cbn [ty]; rewrite He; [by apply H | done].
  - open_view. rewrite_view. by destruct H3 as [->| ->].
  - destruct term; try done; injection e0 as <- <-; open_view; rewrite_view; rewrite length_app;
      eauto using and_input_count, or_b_input_count, or_d_input_count, and_or_input_else.
  - open_view. rewrite_view. rewrite concat_rev_length. by apply thresh_count.
  - constructor.
  - apply Forall_cons_1 in H1 as [? ?]. constructor; auto.
Qed.

Lemma count_of b ms w : Wit b ms w -> wf ctx ms -> input_count (input_of ms) (length w).
Proof. intros. by apply (proj1 counts b). Qed.

(** ** The top element *)

(** Only conjunctions propagate the non-zero property. *)
Lemma or_b_nonzero l r : nonzero (or_b_input l r) = false.
Proof. by destruct l, r. Qed.
Lemma or_d_nonzero l r : nonzero (or_d_input l r) = false.
Proof. by destruct l, r. Qed.
Lemma or_i_nonzero l r : nonzero (or_i_input l r) = false.
Proof. by destruct l, r. Qed.
Lemma and_or_nonzero a b c : nonzero (and_or_input a b c) = false.
Proof. by destruct a, b, c. Qed.

Lemma signatures_top pks ws x :
  Forall2 (fun pk w => signature ctx leaf_hash pk = Witness.Stack w) pks ws -> pks <> [] ->
  top_nonzero (x :: concat ws).
Proof.
  intros H Hne. destruct (@exists_last _ pks Hne) as (pks' & pk & ->).
  apply Forall2_app_inv_l in H as (ws' & ws1 & _ & H & ->).
  inversion H as [|? w ? ? Hs Hn]; subst. inversion Hn; subst.
  destruct (signature_single _ _ _ _ Hs) as (p & -> & Hp).
  rewrite concat_app. exists (x :: concat ws'), p. done.
Qed.

Lemma tops b ms w :
  Wit b ms w -> wf ctx ms -> b = true -> nonzero (input_of ms) = true -> top_nonzero w.
Proof.
  revert b ms w.
  assert ((forall b ms w, Wit b ms w -> wf ctx ms -> b = true -> nonzero (input_of ms) = true ->
             top_nonzero w)
          /\ (forall bs mss ws, WitList bs mss ws -> True)) as [H _]; [|exact H].
  apply Wit_WitList_ind; intros; try done; try (by apply top_nonzero_snoc);
    try (open_view; repeat match goal with
           | H : corr _ = _, H' : context [corr _] |- _ => rewrite H in H'
           | H : c_input (corr ?t) = _, H' : nonzero (c_input (corr ?t)) = true |- _ => rewrite H in H'
           end; rewrite ?or_b_nonzero, ?or_d_nonzero, ?or_i_nonzero, ?and_or_nonzero in *; done).
  - by destruct (signature_shape _ _ e0).
  - by apply pkh_signature_top in e0.
  - by destruct (preimage_shape _ _ e0).
  - destruct (wrapper_view _ _ _ _ (or_introl e0) H0) as [Hs [He|He]];
      unfold input_of at 1, corr_of in H2; cbn [ty] in H2; rewrite He in H2; [auto | done].
  - pose proof (wf_view ctx _ _ _ H1) as (Hw & _ & Hview). forall_children Hw.
    destruct Hview as (_ & _ & _ & He & _). unfold input_of at 1, corr_of in H3. cbn [ty] in H3.
    rewrite He in H3. eapply and_top_nonzero; [exact H3 | by eapply count_of | auto | auto].
  - pose proof (wf_view ctx _ _ _ H1) as (Hw & _ & Hview). forall_children Hw.
    destruct Hview as (_ & _ & _ & He & _). unfold input_of at 1, corr_of in H3. cbn [ty] in H3.
    rewrite He in H3. eapply and_top_nonzero; [exact H3 | by eapply count_of | auto | auto].
  - open_view. rewrite H6 in H2. revert H2.
    match goal with |- context [match ?x with _ => _ end] => by destruct x as [|[|]] end.
  - open_view. eapply signatures_top; [exact f|].
    destruct Hv as [[Hk _] _]. intros ->. simpl in e0. lia.
Qed.

(** ** Dissatisfactions of [V] fragments *)

Lemma dissat_bases b ms w : Wit b ms w -> wf ctx ms -> b = false -> base_of ms <> BaseV.
Proof.
  revert b ms w.
  assert ((forall b ms w, Wit b ms w -> wf ctx ms -> b = false -> base_of ms <> BaseV)
          /\ (forall bs mss ws, WitList bs mss ws -> True)) as [H _]; [|exact H].
  apply Wit_WitList_ind; intros; try done; open_view; subst;
    repeat match goal with IH : false = false -> _ |- _ => specialize (IH eq_refl) end;
    try congruence; try (rewrite Hview; done).
  - by rewrite (preimage_view _ _ _ e0 Hview).
  - destruct term; try done; injection e0 as <-; cbn [corr_view] in Hview; destruct_and? Hview;
      forall_children Hw; unfold base_of, corr_of in *; try rewrite Hview; intuition congruence.
  - destruct term; try done; injection e0 as <- <-; cbn [corr_view] in Hview; destruct_and? Hview;
      forall_children Hw; unfold base_of, corr_of in *; intuition congruence.
Qed.

(** ** Signatures *)

Definition safe_of (ms : Miniscript) : bool := m_safe (mall (ty ms)).

(** The [safe] property as the rules compute it. *)
Definition safe_view (node : Terminal Miniscript) : bool :=
  match node with
  | Terminal.True | Terminal.After _ | Terminal.Older _ | Terminal.Sha256 _ | Terminal.Hash256 _
  | Terminal.Ripemd160 _ | Terminal.Hash160 _ => false
  | Terminal.False | Terminal.PkK _ | Terminal.PkH _ | Terminal.RawPkH _ | Terminal.Multi _
  | Terminal.MultiA _ | Terminal.TxTemplate _ => true
  | Terminal.InscribePre _ sub | Terminal.InscribePost _ sub | Terminal.Alt sub
  | Terminal.Swap sub | Terminal.Check sub | Terminal.DupIf sub | Terminal.Verify sub
  | Terminal.NonZero sub | Terminal.ZeroNotEqual sub => safe_of sub
  | Terminal.AndV l r | Terminal.AndB l r => safe_of l || safe_of r
  | Terminal.OrB l r | Terminal.OrD l r | Terminal.OrC l r | Terminal.OrI l r =>
      safe_of l && safe_of r
  | Terminal.AndOr a b c => (safe_of a || safe_of b) && safe_of c
  | Terminal.Thresh thresh =>
      Threshold.n thresh - Threshold.k thresh
      <? sum_by (fun ms => Nat.b2n (safe_of ms)) (Threshold.data thresh)
  end.

Lemma mk_mall (r : result ErrorKind Correctness) m t :
  (c ← r; Ok (mkMsType c m)) = Ok t -> mall t = m.
Proof. destruct r; [|done]. by intros [= <-]. Qed.

Lemma type_check_safe node t : type_check node = Ok t -> m_safe (mall t) = safe_view node.
Proof.
  intros H. destruct node as [| | p | p | h | n | n | x | x | x | x | h | j s | j s | s | s | s | s | s | s | s
                   | l r | l r | a b c | l r | l r | l r | l r | th | th | th];
    cbn [type_check] in H; try (injection H as <-; reflexivity);
    try (destruct (_ || _); [done|]; by injection H as <-);
    apply mk_mall in H; rewrite H; cbn [safe_view]; unfold safe_of; try reflexivity.
  unfold Malleability.threshold. rewrite threshold_step_spec. cbn [fst snd m_safe].
  rewrite length_map, Nat.add_0_l, !map_map, length_map. unfold sum_by. by rewrite ?map_map.
Qed.

Definition is_signature (p : Placeholder) : bool :=
  match p with
  | Placeholder.EcdsaSigPk _ | Placeholder.EcdsaSigPkHash _ | Placeholder.SchnorrSigPk _ _ _
  | Placeholder.SchnorrSigPkHash _ _ _ => true
  | _ => false
  end.

Definition signed (w : list Placeholder) : bool := existsb is_signature w.

Definition has_tx_template (ms : Miniscript) : bool :=
  existsb (fun ms => match node ms with Terminal.TxTemplate _ => true | _ => false end)
    (pre_order ms).

(** A witness of [k] out of [n] children, of which more than [n - k] are safe. *)
Lemma thresh_signed bs mss ws :
  Forall3 (fun b ms w => b = true -> safe_of ms = true -> signed w = true) bs mss ws ->
  length mss < sum_by Nat.b2n bs + sum_by (fun ms => Nat.b2n (safe_of ms)) mss ->
  signed (concat (rev ws)) = true.
Proof.
  unfold signed. induction 1 as [|b ms w bs mss ws H _ IH]; [cbn; lia|].
  rewrite !sum_by_cons. intros Hlt. simpl. rewrite concat_app, existsb_app, orb_true_iff. simpl.
  rewrite app_nil_r.
  destruct b, (safe_of ms) eqn:E; simpl in Hlt; [right; auto | left; apply IH; lia..].
Qed.

Lemma signature_signed pk w :
  signature ctx leaf_hash pk = Witness.Stack w -> signed w = true.
Proof.
  unfold signature. destruct (sig_type ctx).
  - destruct (provider_lookup_ecdsa_sig pk); [|done]. by intros [= <-].
  - destruct (provider_lookup_tap_leaf_script_sig pk leaf_hash); [|done]. by intros [= <-].
Qed.

Lemma pkh_signature_signed h w :
  pkh_signature ctx leaf_hash h = Some (Witness.Stack w) -> signed w = true.
Proof.
  unfold pkh_signature. destruct (sig_type ctx).
  - destruct (provider_lookup_raw_pkh_ecdsa_sig h); [|done]. intros (len & _ & H)%bind_Some.
    by injection H as <-.
  - destruct (provider_lookup_raw_pkh_tap_leaf_script_sig _) as [[pk sz]|]; [|done].
    intros (len & _ & H)%bind_Some. by injection H as <-.
Qed.

Lemma multi_a_signed pks bs ws :
  Forall3 (multi_a_item ctx leaf_hash) pks bs ws -> 1 <= sum_by Nat.b2n bs ->
  signed (concat ws) = true.
Proof.
  unfold signed. induction 1 as [|pk b w pks bs ws H _ IH]; [cbn; lia|].
  rewrite sum_by_cons. intros Hlt. simpl. rewrite existsb_app, orb_true_iff.
  destruct b; simpl in *; [left; by eapply signature_signed | right; apply IH; lia].
Qed.

Lemma signed_app w w' : signed (w ++ w') = signed w || signed w'.
Proof. apply existsb_app. Qed.

Definition signed_if_safe (b : bool) (ms : Miniscript) (w : list Placeholder) : Prop :=
  wf ctx ms -> has_tx_template ms = false -> b = true -> safe_of ms = true -> signed w = true.

Lemma wf_safe nd t e : wf ctx (mkMiniscript nd t e) -> m_safe (mall t) = safe_view nd.
Proof. intros (_ & _ & Ht & _)%wf_inv. by apply type_check_safe. Qed.

Lemma safe_signed_all :
  (forall b ms w, Wit b ms w -> signed_if_safe b ms w)
  /\ (forall bs mss ws, WitList bs mss ws -> Forall3 signed_if_safe bs mss ws).
Proof.
  unfold signed_if_safe.
  apply Wit_WitList_ind; intros; try done; try (by constructor);
    try match goal with
    | Hwf : wf ctx (mkMiniscript _ _ _), Ht : has_tx_template _ = false, Hs : safe_of _ = true |- _ =>
        unfold safe_of in Hs; cbn [ty] in Hs; rewrite (wf_safe _ _ _ Hwf) in Hs; cbn [safe_view] in Hs;
        apply existsb_pre_order in Ht as [Ht0 Ht]; rewrite children_node in Ht;
        cbn [node] in Ht0, Ht; forall_children Ht;
        destruct (wf_view ctx _ _ _ Hwf) as (Hw & Hv & _); forall_children Hw
    end;
    rewrite ?signed_app, ?orb_true_iff in *; bool_hyps;
    try (by first [apply signature_signed in e0 | apply pkh_signature_signed in e0]); eauto;
    try tauto.
  - left. by eapply signature_signed.
  - destruct term; done.
  - destruct term; try done; injection e0 as <-; cbn [safe_view] in H3; forall_children H1;
      forall_children Hw; auto.
  - apply orb_true_iff in H4 as [?|?]; auto.
  - apply (thresh_signed chosen inner).
    + eapply (Forall3_middle (fun m => wf ctx m /\ has_tx_template m = false)) in H;
        [|by apply Forall_and].
      eapply Forall3_impl; [exact H|]. cbn beta. intuition.
    + destruct Hv as [[Hk Hn] _]. unfold Threshold.n in *. simpl in *. lia.
  - unfold signed. cbn [existsb is_signature orb]. apply Forall2_length in f as Hl.
    destruct f as [|pk w pks ws Hs]; [destruct Hv as [[Hk _] _]; simpl in e0; lia|].
    simpl. rewrite existsb_app. apply signature_signed in Hs. unfold signed in Hs. by rewrite Hs.
  - eapply multi_a_signed; [exact f|]. destruct Hv as [[Hk _] _]. lia.
Qed.
End Shape.

(** C23: The input types are sound for the witnesses that the satisfier builds: a
    fragment of type [z] gets no element, one of type [o] exactly one, and the top
    element for a fragment of type [n] is never an empty push. *)
Theorem template_shape {B : Bitcoin} {Sp : Spending} {K : MiniscriptKey} {P : AssetProvider}
    ctx leaf_hash root_has_sig ms r w :
  wf ctx ms ->
  build_template ctx ms root_has_sig leaf_hash = Some r
  \/ build_template_mall ctx ms root_has_sig leaf_hash = Some r ->
  stack r = Witness.Stack w ->
  input_count (input_of ms) (length w) /\ (nonzero (input_of ms) = true -> top_nonzero w).
Proof.
  intros Hwf H Hw. pose proof (refined ctx leaf_hash root_has_sig ms r w Hwf H Hw) as HW.
  split; [by eapply count_of | by eapply tops].
Qed.

(** C21: The [safe] type is sound: whenever it holds of a fragment without a
    transaction template, every witness the satisfier builds for it carries a
    signature, so nobody but a key holder can satisfy it. *)
Theorem safe_template_signed {B : Bitcoin} {Sp : Spending} {K : MiniscriptKey}
    {P : AssetProvider} ctx leaf_hash root_has_sig ms r w :
  wf ctx ms -> has_tx_template ms = false -> m_safe (mall (ty ms)) = true ->
  build_template ctx ms root_has_sig leaf_hash = Some r
  \/ build_template_mall ctx ms root_has_sig leaf_hash = Some r ->
  stack r = Witness.Stack w ->
  signed w = true.
Proof.
  intros Hwf Ht Hs H Hw. pose proof (refined ctx leaf_hash root_has_sig ms r w Hwf H Hw) as HW.
  exact (proj1 (safe_signed_all ctx leaf_hash) true ms w HW Hwf Ht eq_refl Hs).
Qed.

Lemma template_shape_witness :
  input_count (input_of (sample_vault Segwitv0)) 2
  /\ (nonzero (input_of (sample_vault Segwitv0)) = true -> top_nonzero vault_spend).
Proof.
  apply (template_shape (P := satisfier_provider (S := sample_satisfier [keyB] 144 0))
    Segwitv0 0 true (sample_vault Segwitv0)
    (mkSatisfaction (Witness.Stack vault_spend) true None (Some older_144)) vault_spend).
  - exact sample_vault_wf.
  - left. apply (bool_decide_eq_true_1 _). vm_compute. reflexivity.
  - reflexivity.
Defined.

Lemma safe_template_signed_witness : signed vault_spend = true.
Proof.
  apply (safe_template_signed (P := satisfier_provider (S := sample_satisfier [keyB] 144 0))
    Segwitv0 0 true (sample_vault Segwitv0)
    (mkSatisfaction (Witness.Stack vault_spend) true None (Some older_144)) vault_spend).
  - exact sample_vault_wf.
  - vm_compute. reflexivity.
  - vm_compute. reflexivity.
  - left. apply (bool_decide_eq_true_1 _). vm_compute. reflexivity.
  - reflexivity.
Defined.
