(* ===== verification/SatTotal.v ===== *)
(** The satisfier never panics on well-typed Miniscripts without raw key hashes:
    the assertions on signatures in dissatisfactions hold, no index is out of
    range and every template of a satisfier can be completed. Dissatisfiable
    fragments always have a dissatisfaction, and it needs no signature. *)
From stdpp Require Import sorting.
From S2P Require Import Prelude Bitcoin Primitives Reference Ord Correctness Malleability Types ExtData Tree Ast Context Samples Views Encode Satisfy WitSpec Shape.

(** * Thresholds *)

Section Thresholds.
Context {B : Bitcoin} {Sp : Spending} {K : MiniscriptKey}.
Abbreviation Sat := (Satisfaction Placeholder).

Definition unsigned (d : Sat) : Prop := (exists w, stack d = Witness.Stack w) /\ has_sig d = false.

(** A mode of the satisfier whose thresholds do not panic. *)
Class Total (thresh_fn : nat -> list Sat -> list Sat -> option Sat) : Prop := {
  total_thresh : forall k sats dissats,
    1 <= k < length sats -> length dissats = length sats -> Forall unsigned dissats ->
    is_Some (thresh_fn k sats dissats);
}.

Lemma swap_all_total idxs (ret sats : list Sat) :
  length ret = length sats -> Forall (fun i => i < length sats) idxs ->
  is_Some (swap_all idxs (ret, sats)).
Proof.
  intros Hl H. revert ret sats Hl H. induction idxs as [|i idxs IH]; intros ret sats Hl H; [done|].
  apply Forall_cons_1 in H as [Hi H]. cbn [swap_all]. unfold swap_at.
  destruct (lookup_lt_is_Some_2 ret i) as [r Hr]; [lia|].
  destruct (lookup_lt_is_Some_2 sats i Hi) as [s Hs]. rewrite Hr, Hs. cbn [mbind option_bind].
  apply IH; rewrite !length_insert; done.
Qed.

Lemma sorted_indices {Key} (leb : Key -> Key -> bool) (key : nat -> Key) n :
  let idxs := sort_by_key leb key (seq 0 n) in
  length idxs = n /\ NoDup idxs /\ Forall (fun i => i < n) idxs.
Proof.
  cbv zeta. pose proof (sort_by_key_perm leb key (seq 0 n)) as Hp. split_and!.
  - by rewrite Hp, length_seq.
  - rewrite Hp. apply NoDup_ListNoDup, seq_NoDup.
  - rewrite Hp. apply List.Forall_forall. intros i Hi%in_seq. lia.
Qed.

#[export] Instance thresh_mall_total : Total thresh_mall.
Proof.
  constructor. intros k sats dissats Hk Hl _. unfold thresh_mall.
  destruct (sorted_indices option_Z_leb (thresh_mall_key sats dissats) (length sats)) as (_ & _ & Hi).
  destruct (swap_all_total (take k (sort_by_key option_Z_leb (thresh_mall_key sats dissats)
              (seq 0 (length sats)))) dissats sats Hl) as [[r s] H].
  { by apply Forall_take. }
  rewrite H. by eexists.
Qed.

Lemma tuple_leb_refl x y : tuple_leb x y = true \/ tuple_leb y x = true.
Proof.
  destruct x as [[[] []] c], y as [[[] []] c']; simpl; try tauto; rewrite !Z.leb_le; lia.
Qed.

Lemma thresh_key_leb_total x y : thresh_key_leb x y = true \/ thresh_key_leb y x = true.
Proof. destruct x, y; simpl; try tauto. apply tuple_leb_refl. Qed.

Lemma thresh_key_leb_trans : Transitive (fun x y => thresh_key_leb x y = true).
Proof.
  intros [[[a b] c]|] [[[a' b'] c']|] [[[a2 b2] c2]|]; simpl; try done.
  destruct a, b, a', b', a2, b2; simpl; try done; rewrite !Z.leb_le; lia.
Qed.

(** What precedes a possible satisfaction without signature has none either. *)
Lemma sorted_unsigned (sats dissats : list Sat) k i j next :
  let idxs := sort_by_key thresh_key_leb (thresh_key sats dissats) (seq 0 (length sats)) in
  length dissats = length sats -> idxs !! k = Some j -> sats !! j = Some next ->
  has_sig next = false -> stack next <> Witness.Impossible ->
  i ∈ take k idxs -> exists s, sats !! i = Some s /\ has_sig s = false.
Proof.
  cbv zeta. intros Hl Hj Hnext Hsig Himp Hi.
  pose proof (sort_by_key_sorted thresh_key_leb (thresh_key sats dissats) thresh_key_leb_total
                (seq 0 (length sats))) as Hs.
  apply Sorted.Sorted_StronglySorted in Hs; [|intros x y z; apply thresh_key_leb_trans].
  destruct (sorted_indices thresh_key_leb (thresh_key sats dissats) (length sats)) as (_ & _ & Hlt).
  set (idxs := sort_by_key _ _ _) in *. rewrite Forall_forall in Hlt.
  assert (i < length sats) as Hil.
  { apply Hlt, list_elem_of_In. rewrite <- (take_drop k idxs). apply elem_of_app. by left. }
  rewrite <- (take_drop k idxs) in Hs.
  assert (j ∈ drop k idxs) as Hjd.
  { rewrite (drop_S _ _ _ Hj). apply elem_of_cons. by left. }
  pose proof (StronglySorted_app_1_elem_of _ _ _ _ _ Hs Hi Hjd) as Hle.
  destruct (lookup_lt_is_Some_2 sats i Hil) as [s Hsi]. exists s. split; [done|].
  destruct (lookup_lt_is_Some_2 dissats i) as [d Hd]; [lia|].
  destruct (lookup_lt_is_Some_2 dissats j) as [d' Hd']; [rewrite Hl; by eapply lookup_lt_Some|].
  unfold key_le, thresh_key in Hle. rewrite Hsi, Hd, Hnext, Hd' in Hle. cbn in Hle.
  rewrite Hsig, (bool_decide_eq_false_2 (stack next = _)) in Hle by done.
  destruct (bool_decide _), (has_sig s); simpl in Hle; congruence.
Qed.

Lemma thresh_unsigned (sats dissats ret' sats' : list Sat) k j next :
  let idxs := sort_by_key thresh_key_leb (thresh_key sats dissats) (seq 0 (length sats)) in
  k <= length sats -> length dissats = length sats -> Forall unsigned dissats ->
  swap_all (take k idxs) (dissats, sats) = Some (ret', sats') ->
  idxs !! k = Some j -> sats' !! j = Some next ->
  has_sig next = false -> stack next <> Witness.Impossible ->
  existsb has_sig ret' = false.
Proof.
  cbv zeta. intros Hk Hl Hd Hswap Hj Hnext Hsig Himp.
  destruct (sorted_indices thresh_key_leb (thresh_key sats dissats) (length sats)) as (_ & Hnd & _).
  set (idxs := sort_by_key _ _ _) in *.
  assert (NoDup (take k idxs)) as Hndk by (eapply sublist_NoDup; [exact Hnd | apply sublist_take]).
  destruct (swap_all_lookup _ _ _ _ _ Hndk Hl Hswap) as (Hl1 & Hl2 & _ & Hlook).
  assert (j ∉ take k idxs) as Hjk.
  { intros Hin. rewrite <- (take_drop k idxs) in Hnd. apply list.NoDup_app in Hnd as (_ & Hdisj & _).
    apply (Hdisj j Hin). rewrite (drop_S _ _ _ Hj). apply elem_of_cons. by left. }
  destruct (Hlook j) as [_ Hsj]. rewrite bool_decide_eq_false_2 in Hsj by done.
  rewrite Hnext in Hsj. symmetry in Hsj.
  apply not_true_iff_false. intros (r & Hin & Hr)%existsb_exists.
  apply list_elem_of_In, list_elem_of_lookup in Hin as [i Hi].
  destruct (Hlook i) as [Hri _]. rewrite Hi in Hri. symmetry in Hri. case_bool_decide as Hik.
  - destruct (sorted_unsigned sats dissats k i j next Hl Hj Hsj Hsig Himp Hik) as (s & Hs & Hss).
    congruence.
  - rewrite Forall_lookup in Hd. apply Hd in Hri as [_ Hri]. congruence.
Qed.

#[export] Instance thresh_total : Total thresh.
Proof.
  constructor. intros k sats dissats Hk Hl Hd. unfold thresh.
  destruct (sorted_indices thresh_key_leb (thresh_key sats dissats) (length sats)) as (Hlen & _ & Hlt).
  pose proof (thresh_unsigned sats dissats) as Hun.
  cbv zeta in Hun. set (idxs := sort_by_key _ _ _) in *.
  destruct (swap_all_total (take k idxs) dissats sats Hl) as [[ret' sats'] Hswap]; [by apply Forall_take|].
  rewrite Hswap. cbn [mbind option_bind].
  assert (length sats' = length sats) as Hls.
  { eapply swap_all_lookup; [ | exact Hl | exact Hswap].
    eapply sublist_NoDup; [|apply sublist_take].
    apply (sorted_indices thresh_key_leb (thresh_key sats dissats) (length sats)). }
  assert (forall n, n < length sats -> exists i s, idxs !! n = Some i /\ sats' !! i = Some s) as Hget.
  { intros n Hn. destruct (lookup_lt_is_Some_2 idxs n) as [i Hi]; [by rewrite Hlen|].
    rewrite Forall_lookup in Hlt. destruct (lookup_lt_is_Some_2 sats' i) as [s Hs]; [rewrite Hls; eauto|].
    eauto. }
  destruct (Hget (k - 1)) as (i & last & Hi & Hlast); [lia|]. rewrite Hi. cbn [mbind option_bind].
  rewrite Hlast. cbn [mbind option_bind]. destruct (bool_decide _); [by eexists|].
  destruct (Hget k) as (j & next & Hj & Hnext); [lia|]. rewrite Hj. cbn [mbind option_bind].
  rewrite Hnext. cbn [mbind option_bind].
  destruct (has_sig next) eqn:Hsig; [by eexists|]. case_bool_decide as Himp; [by eexists|].
  rewrite (Hun ret' sats' k j next); try done; lia.
Qed.
End Thresholds.

(** * Fragments *)

Section Total.
Context {B : Bitcoin} {Sp : Spending} {K : MiniscriptKey} {L : LockTimeLaws B} {P : AssetProvider}.
Context (ctx : ScriptContext) (root_has_sig : bool) (leaf_hash : TapLeafHash).
Context (min_fn : Satisfaction Placeholder -> Satisfaction Placeholder -> Satisfaction Placeholder)
  (thresh_fn : nat -> list (Satisfaction Placeholder) -> list (Satisfaction Placeholder) ->
               option (Satisfaction Placeholder)).
Context {T : Total thresh_fn} (Hctx : ctx <> NoChecks).

Abbreviation sat := (satisfy_helper ctx root_has_sig leaf_hash min_fn thresh_fn).
Abbreviation dissat := (dissatisfy_helper ctx root_has_sig leaf_hash min_fn thresh_fn).

Lemma pk_len_total {K' : MiniscriptKey} (pk : Pk) : is_Some (pk_len ctx pk).
Proof. unfold pk_len. destruct ctx; done. Qed.

Lemma multi_sigs_total pks : is_Some (multi_sigs ctx leaf_hash pks).
Proof.
  induction pks as [|pk pks [sigs IH]]; [done|]. cbn [multi_sigs].
  pose proof (signature_available ctx leaf_hash pk). rewrite IH.
  by destruct (signature ctx leaf_hash pk).
Qed.

Lemma throw_away_total m sigs : m <= length sigs -> is_Some (throw_away m sigs).
Proof.
  revert sigs. induction m as [|m IH]; intros sigs Hm; [done|]. cbn [throw_away].
  destruct sigs as [|s sigs]; [simpl in Hm; lia|]. apply IH. rewrite length_insert. simpl in *. lia.
Qed.

Lemma satisfy_multi_total thresh : is_Some (satisfy_multi ctx leaf_hash thresh).
Proof.
  unfold satisfy_multi. destruct (multi_sigs_total (Threshold.data thresh)) as [sigs ->].
  cbn [mbind option_bind]. destruct (_ <? _); [done|].
  destruct (throw_away_total (length sigs - Threshold.k thresh) sigs) as [s ->]; [lia | done].
Qed.

Lemma multi_a_sigs_total k i cnt pks sigs : is_Some (multi_a_sigs ctx leaf_hash k i cnt pks sigs).
Proof.
  revert i cnt sigs. induction pks as [|pk pks IH]; intros i cnt sigs; [done|]. cbn [multi_a_sigs].
  pose proof (signature_available ctx leaf_hash pk).
  destruct (signature ctx leaf_hash pk); [destruct (_ =? k); [done | apply IH] | done | apply IH].
Qed.

Lemma satisfy_multi_a_total thresh : is_Some (satisfy_multi_a ctx leaf_hash thresh).
Proof.
  unfold satisfy_multi_a.
  destruct (multi_a_sigs_total (Threshold.k thresh) 0 0 (rev (Threshold.data thresh))
              (repeat [Placeholder.PushZero] (Threshold.n thresh))) as [[n s] ->].
  cbn [mbind option_bind]. by destruct (_ <? _).
Qed.

(** What holds of every well-typed fragment without raw key hashes. *)
Definition total (ms : Miniscript) : Prop :=
  is_Some (sat ms)
  /\ exists d, dissat ms = Some d /\ (dissat_of ms = true -> unsigned d).

Lemma unsigned_concatenate a b : unsigned a -> unsigned b -> unsigned (concatenate_rev a b).
Proof.
  intros [[wa Ha] Hsa] [[wb Hb] Hsb]. unfold concatenate_rev. split; cbn.
  - rewrite Ha, Hb. by eexists.
  - by rewrite Hsa, Hsb.
Qed.

Lemma unsigned_flatten l : Forall unsigned l -> unsigned (flatten l).
Proof.
  unfold flatten. assert (unsigned empty_satisfaction) as H by (split; [by eexists | done]).
  revert H. generalize empty_satisfaction as acc. induction l as [|s l IH]; intros acc Ha Hf; [done|].
  apply Forall_cons_1 in Hf as [Hs Hf]. simpl. apply IH; [by apply unsigned_concatenate | done].
Qed.

(** A signature-free alternative makes the malleable minimum signature-free. *)
Lemma unsigned_minimum_mall a b : unsigned a \/ unsigned b -> unsigned (minimum_mall a b).
Proof.
  intros [[[w Hw] Hs]|[[w Hw] Hs]]; unfold minimum_mall; rewrite Hw.
  - destruct (stack b) eqn:Hb; [|split; eauto..].
    destruct (witness_lt _ _); split; cbn; rewrite ?Hs; eauto.
  - destruct (stack a) eqn:Ha; [|split; eauto..].
    destruct (witness_lt _ _); split; cbn; rewrite ?Hs, ?andb_false_r; eauto.
Qed.

Lemma unsigned_or_i a b :
  unsigned a \/ unsigned b ->
  unsigned (mkSatisfaction (combine (stack a) push_1) (has_sig a) None None)
  \/ unsigned (mkSatisfaction (combine (stack b) push_0) (has_sig b) None None).
Proof.
  intros [[[w Hw] Hs]|[[w Hw] Hs]]; [left | right]; (split; cbn; [|done]); rewrite Hw; by eexists.
Qed.

Lemma mapM_total {A C} (f : A -> option C) l :
  Forall (fun a => is_Some (f a)) l -> exists l', mapM f l = Some l'.
Proof.
  induction 1 as [|a l [c Hc] _ [l' IH]]; [by exists []|]. exists (c :: l').
  cbn [mapM]. by rewrite Hc, IH.
Qed.

Lemma mapM_dissat inner :
  Forall total inner -> Forall (fun ms => dissat_of ms = true) inner ->
  exists ds, mapM dissat inner = Some ds /\ Forall unsigned ds.
Proof.
  induction 1 as [|ms inner (_ & d & Hd & Hu) _ IH]; intros H; [by exists []|].
  apply Forall_cons_1 in H as [Hms H]. destruct (IH H) as (ds & Hds & Hun).
  exists (d :: ds). cbn [mapM]. rewrite Hd, Hds. split; [done|]. constructor; auto.
Qed.

Lemma total_thresh_node k inner t e :
  Forall total inner -> Forall (fun ms => dissat_of ms = true) inner -> 1 <= k <= length inner ->
  total (mkMiniscript (Terminal.Thresh (mkThreshold k inner)) t e).
Proof.
  intros H Hd Hk. destruct (mapM_dissat inner H Hd) as (ds & Hds & Hun).
  destruct (mapM_total sat inner) as [ss Hss].
  { eapply List.Forall_impl; [|exact H]. by intros m [Hm _]. }
  apply mapM_Some in Hss as Hl1. apply Forall2_length in Hl1.
  apply mapM_Some in Hds as Hl2. apply Forall2_length in Hl2. split.
  - change (is_Some (if k =? length inner then sats ← mapM sat inner; Some (flatten sats)
                     else sats ← mapM sat inner; ret_stack ← mapM dissat inner;
                          thresh_fn k sats ret_stack)).
    destruct (Nat.eqb_spec k (length inner)) as [->|Hne]; rewrite Hss.
    + by eexists.
    + cbn [mbind option_bind]. rewrite Hds. cbn [mbind option_bind].
      apply total_thresh; [lia | lia | done].
  - exists (flatten ds).
    change (dissat (mkMiniscript (Terminal.Thresh (mkThreshold k inner)) t e))
      with (nsats ← mapM dissat inner; Some (flatten nsats)).
    rewrite Hds. split; [done|]. intros _. by apply unsigned_flatten.
Qed.

(** Restores the calls between the two functions. *)
Ltac refold :=
  fold (satisfy_helper ctx root_has_sig leaf_hash min_fn thresh_fn);
  fold (dissatisfy_helper ctx root_has_sig leaf_hash min_fn thresh_fn).

(** The properties of children, and what typing says of the node. *)
Ltac open_total :=
  lazymatch goal with
  | Hwf : wf ctx (mkMiniscript _ _ _), Hr : contains_raw_pkh _ = false, HT : Forall total _ |- _ =>
      let Hw := fresh "Hw" in let Hv := fresh "Hv" in let Hview := fresh "Hview" in
      destruct (wf_view ctx _ _ _ Hwf) as (Hw & Hv & Hview); cbn [corr_view] in Hview;
      rewrite children_node in HT; cbn [node] in HT; forall_children HT; destruct_and? Hview
  end.

Ltac open_children :=
  repeat match goal with
  | H : total ?ms |- _ =>
      let r := fresh "r" in let d := fresh "d" in let Hr := fresh "Hr" in let Hd := fresh "Hd" in
      let Hu := fresh "Hu" in destruct H as ([r Hr] & d & Hd & Hu)
  end.

Lemma total_all ms : wf ctx ms -> contains_raw_pkh ms = false -> total ms.
Proof.
  revert ms. refine (wf_tree_ind ctx _ _). intros ms Hwf _ IH Hr.
  assert (Forall total (children ms)) as HT.
  { apply existsb_pre_order in Hr as [_ Hc]. induction IH as [|c cs Hx _ IHc]; [constructor|].
    apply Forall_cons_1 in Hc as [? ?]. constructor; auto. }
  clear IH. destruct ms as [nd t e].
  destruct nd as [| | p | p | h | n | n | x | x | x | x | h | j s | j s | s | s | s | s | s | s | s
                   | l r | l r | a b c | l r | l r | l r | l r | th | th | th];
    open_total.
  all: try match goal with |- total (mkMiniscript (Terminal.Thresh _) _ _) =>
    destruct th as [k inner]; apply total_thresh_node; [done | | apply Hv];
    match goal with H : Forall _ (Threshold.data _) |- _ => eapply List.Forall_impl; [|exact H] end;
    by intros ? [_ ?] end.
  all: open_children; unfold total, dissat_of, corr_of in *; cbn [ty] in *.
  all: cbn [satisfy_helper dissatisfy_helper]; refold;
    repeat match goal with
    | H : sat ?m = Some _ |- _ => rewrite H
    | H : dissat ?m = Some _ |- _ => rewrite H
    end; cbn [mbind option_bind];
    repeat match goal with
    | Hu : c_dissatisfiable ?c = true -> unsigned ?d, H : c_dissatisfiable ?c = true |- _ =>
        specialize (Hu H); unfold assert_no_sig; rewrite (proj2 Hu); cbn [mbind option_bind]
    end.
  all: try solve [split; [by eexists | eexists; split; [reflexivity|]; intros Hdis;
    try match goal with
        | H : corr _ = _ |- _ => rewrite H in Hdis
        | H : c_dissatisfiable (corr _) = ?x |- _ =>
            lazymatch x with true => fail | _ => rewrite H in Hdis end
        end; bool_hyps;
    first [done | split; [by eexists | done] | solve [auto]
          | solve [apply unsigned_concatenate; auto]
          | apply unsigned_minimum_mall, unsigned_or_i; apply orb_true_iff in Hdis as [?|?]; auto]]].
  - destruct (pk_len_total p) as [len ->]. split; [by eexists|]. eexists. split; [reflexivity|].
    intros _. split; [by eexists | done].
  - apply existsb_pre_order in Hr as [Hr _]. discriminate Hr.
  - split; [by destruct (provider_check_after _)|]. eexists. split; [done|]. by rewrite Hview.
  - split.
    + destruct Hv as [Hv _]. apply Sequence_to_relative in Hv as [n' Hn].
      unfold rel_to_relative. rewrite Hn. cbn. by destruct (provider_check_older _).
    + eexists. split; [done|]. by rewrite Hview.
  - split; [apply satisfy_multi_total|]. eexists. split; [done|]. intros _. split; [by eexists | done].
  - split; [apply satisfy_multi_a_total|]. eexists. split; [done|]. intros _. split; [by eexists | done].
Qed.
End Total.

(** * Completion *)

Section Complete.
Context {B : Bitcoin} {Sp : Spending} {K : MiniscriptKey} {TP : ToPublicKey K} {S : Satisfier}.
Context (ctx : ScriptContext) (leaf_hash : TapLeafHash).

Definition completable (w : list Placeholder) : Prop := Forall (fun p => is_Some (satisfy_self p)) w.

Lemma completable_app w w' : completable w -> completable w' -> completable (w ++ w').
Proof. intros. by apply Forall_app. Qed.

Lemma completable_concat (ws : list (list Placeholder)) :
  Forall completable ws -> completable (concat ws).
Proof. induction 1; [constructor | by apply completable_app]. Qed.

Lemma completable_one p : is_Some (satisfy_self p) -> completable [p].
Proof. by repeat constructor. Qed.

Lemma completable_pubkey pk len : completable [Placeholder.Pubkey pk len].
Proof. apply completable_one. cbn. by destruct (len =? 33). Qed.

Lemma completable_repeat p n : is_Some (satisfy_self p) -> completable (repeat p n).
Proof. intros H. induction n; by constructor. Qed.

Lemma completable_signature pk w : signature ctx leaf_hash pk = Witness.Stack w -> completable w.
Proof.
  unfold signature. destruct (sig_type ctx); cbn.
  - destruct (lookup_ecdsa_sig pk) as [s|] eqn:E; [|done]. intros [= <-].
    apply completable_one. cbn. by rewrite E.
  - destruct (lookup_tap_leaf_script_sig pk leaf_hash) as [s|] eqn:E; [|done]. intros [= <-].
    apply completable_one. cbn. by rewrite E.
Qed.

Lemma completable_preimage term w : preimage term = Some (Witness.Stack w) -> completable w.
Proof.
  unfold preimage, sha256_preimage, hash256_preimage, ripemd160_preimage, hash160_preimage.
  destruct term; try done; intros [= H]; revert H; cbn;
    match goal with |- context [is_some ?o] => destruct o as [p|] eqn:E end; try done;
    intros [= <-]; apply completable_one; cbn; by rewrite E.
Qed.

Lemma completable_items pks chosen ws :
  Forall3 (multi_a_item ctx leaf_hash) pks chosen ws -> completable (concat ws).
Proof.
  induction 1 as [|pk b w pks chosen ws H _ IH]; [constructor|]. apply completable_app; [|done].
  destruct b; simpl in H; [by eapply completable_signature | subst; by apply completable_one].
Qed.

Lemma completable_signatures pks ws :
  Forall2 (fun pk w => signature ctx leaf_hash pk = Witness.Stack w) pks ws ->
  completable (concat ws).
Proof.
  induction 1; [constructor|]. apply completable_app; [by eapply completable_signature | done].
Qed.

Lemma completable_all :
  (forall b ms w, Wit ctx leaf_hash b ms w -> contains_raw_pkh ms = false -> completable w)
  /\ (forall bs mss ws, WitList ctx leaf_hash bs mss ws ->
        Forall (fun ms => contains_raw_pkh ms = false) mss -> Forall completable ws).
Proof.
  apply Wit_WitList_ind; intros;
    try match goal with H : contains_raw_pkh (mkMiniscript _ _ _) = false |- _ =>
      let Hr := fresh "Hr" in
      apply existsb_pre_order in H as [Hr H]; rewrite children_node in H; cbn [node] in Hr, H;
      forall_children H end; try done;
    eauto 6 using completable_signature, completable_app, completable_pubkey, completable_preimage,
      completable_items, completable_one, completable_repeat.
  all: try (by constructor); try (apply completable_concat, List.Forall_rev; auto).
  - destruct term; try done; injection e0 as <-; forall_children H0; auto.
  - constructor; [done | by eapply completable_signatures].
  - by apply (completable_app [_]); [apply completable_one | apply completable_pubkey].
  - destruct term; try done; injection e0 as <-; forall_children H0; auto.
  - destruct term; try done; injection e0 as <- <-; forall_children H1; apply completable_app; auto.
  - apply Forall_cons_1 in H1 as [? ?]. constructor; auto.
Qed.

Lemma completes_template (template : Satisfaction Placeholder) :
  (forall w, stack template = Witness.Stack w -> completable w) ->
  is_Some (try_completing template).
Proof.
  intros H. unfold try_completing. destruct (stack template) as [w| |] eqn:E; [|done|done].
  destruct (mapM_total satisfy_self w (H w eq_refl)) as [v Hv]. rewrite Hv. by eexists.
Qed.
End Complete.

(** C5: The satisfier never panics: for every well-typed Miniscript without raw
    key hashes, in a context with keys, and every satisfier whatsoever, both
    [satisfy] and [satisfy_malleable] return, with a witness or with an error. The
    assertions that dissatisfactions are free of signatures, the index arithmetic
    of thresholds and the [expect] on completing the template all hold. *)
Theorem satisfy_never_panics {B : Bitcoin} {Sp : Spending} {K : MiniscriptKey} {TP : ToPublicKey K}
    {L : LockTimeLaws B} {S : Satisfier} ctx ms :
  wf ctx ms -> ctx <> NoChecks -> contains_raw_pkh ms = false ->
  is_Some (satisfy ctx ms) /\ is_Some (satisfy_malleable ctx ms).
Proof.
  intros Hwf Hctx Hr.
  assert (forall r, build_template ctx ms (m_safe (mall (ty ms))) (leaf_hash_internal ctx ms) = Some r
      \/ build_template_mall ctx ms (m_safe (mall (ty ms))) (leaf_hash_internal ctx ms) = Some r ->
    is_Some (try_completing r)) as Hc.
  { intros r Hb. apply completes_template. intros w Hw.
    by apply (proj1 (completable_all ctx _) true ms w (refined _ _ _ _ _ _ Hwf Hb Hw)). }
  split; apply fmap_is_Some; unfold satisfaction_satisfy, satisfaction_satisfy_mall.
  - destruct (total_all ctx (m_safe (mall (ty ms))) (leaf_hash_internal ctx ms) minimum thresh Hctx ms Hwf Hr)
      as ([r H] & _).
    unfold build_template. rewrite H. apply Hc. by left.
  - destruct (total_all ctx (m_safe (mall (ty ms))) (leaf_hash_internal ctx ms) minimum_mall thresh_mall
                Hctx ms Hwf Hr) as ([r H] & _).
    unfold build_template_mall. rewrite H. apply Hc. by right.
Qed.

Lemma satisfy_never_panics_witness :
  is_Some (satisfy (S := sample_satisfier [keyA] 0 0) Segwitv0 (sample_thresh Segwitv0))
  /\ is_Some (satisfy_malleable (S := sample_satisfier [keyA] 0 0) Segwitv0 (sample_thresh Segwitv0)).
Proof.
  apply (satisfy_never_panics (S := sample_satisfier [keyA] 0 0)).
  - exact sample_thresh_wf.
  - discriminate.
  - vm_compute. reflexivity.
Defined.

(** C22: The type property [d] is sound: whatever the assets, the satisfier finds a
    dissatisfaction for every dissatisfiable fragment without raw key hashes, marks
    it as free of signatures, and it is one that the specification tabulates. *)
Theorem dissatisfiable_sound {B : Bitcoin} {Sp : Spending} {K : MiniscriptKey}
    {L : LockTimeLaws B} {P : AssetProvider} ctx root_has_sig leaf_hash ms :
  wf ctx ms -> ctx <> NoChecks -> contains_raw_pkh ms = false -> dissat_of ms = true ->
  exists d w,
    dissatisfy_helper ctx root_has_sig leaf_hash minimum thresh ms = Some d
    /\ has_sig d = false /\ stack d = Witness.Stack w /\ Wit ctx leaf_hash false ms w.
Proof.
  intros Hwf Hctx Hr Hd.
  destruct (total_all ctx root_has_sig leaf_hash minimum thresh Hctx ms Hwf Hr) as (_ & d & Hdis & Hu).
  destruct (Hu Hd) as [[w Hw] Hs]. exists d, w. split_and!; [done | done | done |].
  exact (proj2 (refines_all ctx root_has_sig leaf_hash minimum thresh ms Hwf) d w Hdis Hw).
Qed.

Lemma dissatisfiable_sound_witness :
  exists d w,
    dissatisfy_helper (P := satisfier_provider (S := sample_satisfier [] 0 0)) Segwitv0 true 0
      minimum thresh (sample_thresh Segwitv0) = Some d
    /\ has_sig d = false /\ stack d = Witness.Stack w
    /\ Wit (P := satisfier_provider (S := sample_satisfier [] 0 0)) Segwitv0 0 false
         (sample_thresh Segwitv0) w.
Proof.
  apply (dissatisfiable_sound (P := satisfier_provider (S := sample_satisfier [] 0 0))).
  - exact sample_thresh_wf.
  - discriminate.
  - vm_compute. reflexivity.
  - vm_compute. reflexivity.
Defined.

(** [or_d(or_i(and_v(v:pk(A), pk(B)), c:expr_raw_pkh(h)), pk(C))] *)
Definition sample_raw_pkh : Miniscript :=
  build Segwitv0 (Terminal.OrD
    (build Segwitv0 (Terminal.OrI
      (build Segwitv0 (Terminal.AndV
        (build Segwitv0 (Terminal.Verify (sample_pk Segwitv0 keyA))) (sample_pk Segwitv0 keyB)))
      (build Segwitv0 (Terminal.Check (build Segwitv0 (Terminal.RawPkH (Reference.of_list 20 [])))))))
    (sample_pk Segwitv0 keyC)).

(** With a raw key hash the satisfier can panic: in
    [or_d(or_i(and_v(v:pk(A), pk(B)), c:expr_raw_pkh(h)), pk(C))], well-typed in
    P2WSH, the only dissatisfaction of the left branch that a signer of [A] who
    does not know the key behind [h] finds contains a signature, and the assertion
    that dissatisfactions have none fails. *)
Theorem satisfy_panics_with_raw_pkh :
  wf Segwitv0 sample_raw_pkh
  /\ satisfy (S := sample_satisfier [keyA] 0 0) Segwitv0 sample_raw_pkh = None
  /\ satisfy_malleable (S := sample_satisfier [keyA] 0 0) Segwitv0 sample_raw_pkh = None.
Proof.
  split_and!.
  - unfold sample_raw_pkh, sample_pk. prove_wf.
  - vm_compute. reflexivity.
  - vm_compute. reflexivity.
Qed.

(** [c:expr_raw_pkh(h)] in a tapscript, and its signature by key hash and leaf. *)
Definition sample_tap_raw_pkh : Miniscript :=
  build Tap (Terminal.Check (build Tap (Terminal.RawPkH (Reference.of_list 20 [])))).

Definition sample_tap_raw_pkh_satisfier : Satisfier (Sp := reference_spending) :=
  taproot_hash_map_satisfier (Sp := reference_spending) (K := reference_key)
    (TP := reference_to_public_key) (fun _ => Some (keyA, [Byte.x0a])).

(** In tapscript a raw key hash makes the satisfier panic even when everything
    is at hand: with the map from key hashes and leaves to keys and signatures as
    the satisfier, the template for [c:expr_raw_pkh(h)] is found, but its key is
    looked up among the ECDSA keys only, and the [expect] on completing it fails. *)
Theorem tapscript_raw_pkh_panics :
  wf Tap sample_tap_raw_pkh
  /\ (exists r w,
        ms_build_template (P := satisfier_provider (S := sample_tap_raw_pkh_satisfier)) Tap sample_tap_raw_pkh
        = Some r /\ stack r = Witness.Stack w)
  /\ satisfy (S := sample_tap_raw_pkh_satisfier) Tap sample_tap_raw_pkh = None.
Proof.
  split_and!.
  - unfold sample_tap_raw_pkh. prove_wf.
  - eexists _, _. split; reflexivity.
  - reflexivity.
Qed.
