(* ===== verification/Interp.v ===== *)
(** The interpreter (src/src/interpreter/mod.rs, stack.rs, error.rs and the
    [ToNoChecks] translations of inner.rs): the evaluation of a Miniscript on a
    stack as a machine on node evaluation states, one loop turn of [iter_next] per
    step. The stack is a list with its top at the head; a Rust panic is an outcome
    of its own. The signature check [verify_sig], a boxed closure of the code, is a
    function. *)
From S2P Require Import Prelude Bitcoin Primitives Ord Correctness Malleability Types ExtData Tree StackLoop Ast Context Translate.

(** * Data *)

Section Data.
Context {B : Bitcoin} {Sp : Spending} {Pa : Parsing}.

Inductive KeySigPair : Type :=
| KeySigEcdsa (pk : PublicKey) (sig : EcdsaSignature)
| KeySigSchnorr (pk : XOnlyPublicKey) (sig : TaprootSignature).

Definition as_ecdsa (self : KeySigPair) : option (PublicKey * EcdsaSignature) :=
  match self with
  | KeySigEcdsa pk sig => Some (pk, sig)
  | KeySigSchnorr _ _ => None
  end.

Definition as_schnorr (self : KeySigPair) : option (XOnlyPublicKey * TaprootSignature) :=
  match self with
  | KeySigEcdsa _ _ => None
  | KeySigSchnorr pk sig => Some (pk, sig)
  end.

Inductive BitcoinKey : Type :=
| Fullkey (pk : PublicKey)
| XOnly (pk : XOnlyPublicKey).

#[export] Instance BitcoinKey_eq_dec : EqDecision BitcoinKey.
Proof. solve_decision. Defined.

(** [BitcoinKey::to_pubkeyhash], through the [ToPublicKey] implementations of the
    two key types; the [expect] of the x-only one makes a panic. *)
Definition bitcoin_key_to_pubkeyhash (self : BitcoinKey) (sig_type : SigType)
  : option hash160_Hash :=
  match self, sig_type with
  | Fullkey pk, Ecdsa => Some (hash160_hash (PublicKey_to_bytes pk))
  | Fullkey pk, Schnorr =>
      Some (hash160_hash (XOnlyPublicKey_serialize (XOnlyPublicKey_from pk)))
  | XOnly pk, Ecdsa =>
      pk ← PublicKey_from_slice (Byte.x02 :: XOnlyPublicKey_serialize pk);
      Some (hash160_hash (PublicKey_to_bytes pk))
  | XOnly pk, Schnorr => Some (hash160_hash (XOnlyPublicKey_serialize pk))
  end.

(** [MiniscriptKey for BitcoinKey] *)
Definition BitcoinKey_key : MiniscriptKey := {|
  Pk := BitcoinKey;
  is_uncompressed k :=
    match k with Fullkey pk => negb (PublicKey_compressed pk) | XOnly _ => false end;
  is_x_only_key _ := false;
  num_der_paths _ := 0;
  Sha256 := sha256_Hash;
  Hash256 := hash256_Hash;
  Ripemd160 := ripemd160_Hash;
  Hash160 := hash160_Hash;
|}.

Inductive HashLockType : Type :=
| HashLockSha256 (h : sha256_Hash)
| HashLockHash256 (h : hash256_Hash)
| HashLockHash160 (h : hash160_Hash)
| HashLockRipemd160 (h : ripemd160_Hash).

End Data.

Module SatisfiedConstraint.
Inductive SatisfiedConstraint {B : Bitcoin} {Sp : Spending} : Type :=
| TxTemplate (hash : sha256_Hash)
| PublicKey (key_sig : KeySigPair)
| PublicKeyHash (keyhash : hash160_Hash) (key_sig : KeySigPair)
| HashLock (hash : HashLockType) (preimage : bytes)
| RelativeTimelock (n : RelativeLockTime)
| AbsoluteTimelock (n : LockTime).
End SatisfiedConstraint.

Abbreviation SatisfiedConstraint := SatisfiedConstraint.SatisfiedConstraint.

(** The variants of [interpreter::Error] that evaluation returns. *)
Module InterpError.
Inductive InterpError {B : Bitcoin} {Sp : Spending} {Pa : Parsing} : Type :=
| AbsoluteLockTimeNotMet (n : LockTime)
| AbsoluteLockTimeComparisonInvalid (n lock_time : LockTime)
| CouldNotEvaluate
| EcdsaSig (e : EcdsaError)
| HashPreimageLengthMismatch
| InsufficientSignaturesMultiSig
| InvalidEcdsaSignature (pk : Bitcoin.PublicKey)
| InvalidSchnorrSignature (pk : XOnlyPublicKey)
| MissingExtraZeroMultiSig
| MultiSigEvaluationError
| PkEvaluationError (pk : BitcoinKey)
| PkHashVerifyFail (h : hash160_Hash)
| PubkeyParseError
| RelativeLockTimeNotMet (n : RelativeLockTime)
| RelativeLockTimeDisabled (n : RelativeLockTime)
| ScriptSatisfactionError
| SchnorrSig (e : SigFromSliceError)
| TxTemplateHashWrong
| UnexpectedStackBoolean
| UnexpectedStackEnd
| UnexpectedStackElementPush
| VerifyFailed.
End InterpError.
Abbreviation InterpError := InterpError.InterpError.

Section Elements.
Context {B : Bitcoin} {Sp : Spending} {Pa : Parsing}.

(** ** Stack elements (src/src/interpreter/stack.rs) *)

Inductive Element : Type :=
| Satisfied
| Dissatisfied
| Push (v : bytes).

#[export] Instance Element_eq_dec : EqDecision Element.
Proof. solve_decision. Defined.

(** [From<&\[u8\]> for Element] *)
Definition element_from (v : bytes) : Element :=
  if bool_decide (v = [Byte.x01]) then Satisfied
  else match v with [] => Dissatisfied | _ => Push v end.

(** ** Keys of a script (src/src/interpreter/inner.rs) *)

(** [ToNoChecks]: the translators into [BitcoinKey] and the translation of a
    Miniscript into the context without checks. *)
Definition TranslateFullPk : Translator PublicKey_key BitcoinKey_key Empty_set :=
  mkTranslator (P := PublicKey_key) (Q := BitcoinKey_key)
    (fun pk => Ok (Fullkey pk)) (fun h => Ok h) (fun h => Ok h) (fun h => Ok h) (fun h => Ok h).

Definition TranslateXOnlyPk : Translator XOnlyPublicKey_key BitcoinKey_key Empty_set :=
  mkTranslator (P := XOnlyPublicKey_key) (Q := BitcoinKey_key)
    (fun pk => Ok (XOnly pk)) (fun h => Ok h) (fun h => Ok h) (fun h => Ok h) (fun h => Ok h).

(** [.expect("Translation should succeed")] *)
Definition expect_translation {A} (r : option (result (TranslateErr Empty_set) A)) : option A :=
  match r with Some (Ok ms) => Some ms | _ => None end.

Definition to_no_checks_ms_full (ms : Miniscript (K := PublicKey_key))
  : option (Miniscript (K := BitcoinKey_key)) :=
  expect_translation (translate_pk_ctx NoChecks TranslateFullPk ms).

Definition to_no_checks_ms_x_only (ms : Miniscript (K := XOnlyPublicKey_key))
  : option (Miniscript (K := BitcoinKey_key)) :=
  expect_translation (translate_pk_ctx NoChecks TranslateXOnlyPk ms).

End Elements.

(** * Stack operations (src/src/interpreter/stack.rs) *)

(** The stack, its top at the head. *)
Definition Stack {B : Bitcoin} {Sp : Spending} {Pa : Parsing} : Type := list Element.

Section Evaluate.
Context {B : Bitcoin} {Sp : Spending} {Pa : Parsing}.
Context (verify_sig : KeySigPair -> bool).

(** What an [evaluate] method returns ([None]: nothing to report), and the stack. *)
Definition Evaluation : Type := option (result InterpError SatisfiedConstraint) * Stack.

(** [verify_sersig] (src/src/interpreter/mod.rs) *)
Definition verify_sersig (pk : BitcoinKey) (sigser : bytes) : result InterpError KeySigPair :=
  match pk with
  | Fullkey pk =>
      ecdsa_sig ← map_err InterpError.EcdsaSig (EcdsaSignature_from_slice sigser);
      let key_sig_pair := KeySigEcdsa pk ecdsa_sig in
      if verify_sig key_sig_pair then Ok key_sig_pair
      else Err (InterpError.InvalidEcdsaSignature pk)
  | XOnly x_only_pk =>
      schnorr_sig ← map_err InterpError.SchnorrSig (TaprootSignature_from_slice sigser);
      let key_sig_pair := KeySigSchnorr x_only_pk schnorr_sig in
      if verify_sig key_sig_pair then Ok key_sig_pair
      else Err (InterpError.InvalidSchnorrSignature x_only_pk)
  end.

(** The common tail of [evaluate_pk] and [evaluate_pkh]: check a signature. *)
Definition evaluate_sig (pk : BitcoinKey) (constraint : KeySigPair -> SatisfiedConstraint)
    (self : Stack) : Evaluation :=
  match self with
  | Dissatisfied :: self => (None, Dissatisfied :: self)
  | Push sigser :: self =>
      match verify_sersig pk sigser with
      | Ok key_sig => (Some (Ok (constraint key_sig)), Satisfied :: self)
      | Err e => (Some (Err e), self)
      end
  | Satisfied :: self => (Some (Err (InterpError.PkEvaluationError pk)), self)
  | [] => (Some (Err InterpError.UnexpectedStackEnd), [])
  end.

Definition evaluate_pk (pk : BitcoinKey) (self : Stack) : Evaluation :=
  evaluate_sig pk SatisfiedConstraint.PublicKey self.

Definition bitcoin_key_from_slice (sl : bytes) (sig_type : SigType) : option BitcoinKey :=
  match sig_type with
  | Schnorr => XOnly <$> XOnlyPublicKey_from_slice sl
  | Ecdsa => Fullkey <$> PublicKey_from_slice sl
  end.

Definition evaluate_pkh (pkh : hash160_Hash) (sig_type : SigType) (self : Stack) : Evaluation :=
  match self with
  | Push pk :: self =>
      if negb (bool_decide (hash160_hash pk = pkh)) then
        (Some (Err (InterpError.PkHashVerifyFail pkh)), self)
      else
        match bitcoin_key_from_slice pk sig_type with
        | Some pk => evaluate_sig pk (SatisfiedConstraint.PublicKeyHash pkh) self
        | None => (Some (Err InterpError.PubkeyParseError), self)
        end
  | _ => (Some (Err InterpError.UnexpectedStackEnd), tail self)
  end.

(** The comparison of the variants [Blocks] and [Seconds] of [absolute::LockTime]. *)
Definition evaluate_after (n lock_time : LockTime) (self : Stack) : Evaluation :=
  match LockTime_is_block_height n, LockTime_is_block_height lock_time with
  | true, true | false, false =>
      if (LockTime_to_consensus_u32 n <=? LockTime_to_consensus_u32 lock_time)%N then
        (Some (Ok (SatisfiedConstraint.AbsoluteTimelock n)), Satisfied :: self)
      else (Some (Err (InterpError.AbsoluteLockTimeNotMet n)), self)
  | _, _ => (Some (Err (InterpError.AbsoluteLockTimeComparisonInvalid n lock_time)), self)
  end.

Definition evaluate_older (n : RelativeLockTime) (sequence : Sequence) (self : Stack) : Evaluation :=
  match Sequence_to_relative_lock_time sequence with
  | Some tx_locktime =>
      if RelativeLockTime_is_implied_by n tx_locktime then
        (Some (Ok (SatisfiedConstraint.RelativeTimelock n)), Satisfied :: self)
      else (Some (Err (InterpError.RelativeLockTimeNotMet n)), self)
  | None => (Some (Err (InterpError.RelativeLockTimeDisabled n)), self)
  end.

(** The body of the four [evaluate_<hash>] functions, which differ in the hash
    function and in the reported lock. *)
Definition evaluate_preimage {H : Type} `{EqDecision H} (hash_fn : bytes -> H)
    (lock : H -> HashLockType) (hash : H) (self : Stack) : Evaluation :=
  match self with
  | Push preimage :: self =>
      if negb (length preimage =? 32) then
        (Some (Err InterpError.HashPreimageLengthMismatch), self)
      else if bool_decide (hash_fn preimage = hash) then
        (Some (Ok (SatisfiedConstraint.HashLock (lock hash) preimage)), Satisfied :: self)
      else (None, Dissatisfied :: self)
  | _ => (Some (Err InterpError.UnexpectedStackEnd), tail self)
  end.

Definition evaluate_sha256 : sha256_Hash -> Stack -> Evaluation :=
  evaluate_preimage sha256_hash HashLockSha256.
Definition evaluate_hash256 : hash256_Hash -> Stack -> Evaluation :=
  evaluate_preimage hash256_hash HashLockHash256.
Definition evaluate_hash160 : hash160_Hash -> Stack -> Evaluation :=
  evaluate_preimage hash160_hash HashLockHash160.
Definition evaluate_ripemd160 : ripemd160_Hash -> Stack -> Evaluation :=
  evaluate_preimage ripemd160_hash HashLockRipemd160.

Definition evaluate_multi (pk : BitcoinKey) (self : Stack) : Evaluation :=
  match self with
  | Push sigser :: self' =>
      match verify_sersig pk sigser with
      | Ok key_sig => (Some (Ok (SatisfiedConstraint.PublicKey key_sig)), self')
      | Err _ => (None, self)
      end
  | _ :: self => (Some (Err InterpError.UnexpectedStackBoolean), self)
  | [] => (Some (Err InterpError.UnexpectedStackEnd), [])
  end.

End Evaluate.

(** * The iterator (src/src/interpreter/mod.rs) *)

Section Machine.
Context {B : Bitcoin} {Sp : Spending} {Pa : Parsing}.

(** The Miniscripts under evaluation. *)
Abbreviation Script := (Miniscript (K := BitcoinKey_key)).

Record NodeEvaluationState : Type := mkNode {
  ns_node : Script;
  n_evaluated : nat;
  n_satisfied : nat;
}.

(** The fields of [Iter] that change; [state] has its top at the head. *)
Record Iterator : Type := mkIterator {
  public_key : option BitcoinKey;
  state : list NodeEvaluationState;
  it_stack : Stack;
  has_errored : bool;
}.

(** What a turn of the loop does. *)
Inductive Turn : Type :=
| Continue (state : list NodeEvaluationState) (stack : Stack)
| Return (res : result InterpError SatisfiedConstraint)
    (state : list NodeEvaluationState) (stack : Stack)
| Panic.

Section Step.
Context (verify_sig : KeySigPair -> bool) (sequence : Sequence) (lock_time : LockTime)
  (tx_template : option sha256_Hash) (sig_type : SigType).

(** [let res = self.stack.evaluate_...; if res.is_some() { return res; }] *)
Definition report (ev : Evaluation) (state : list NodeEvaluationState) : Turn :=
  match ev with
  | (None, stack) => Continue state stack
  | (Some res, stack) => Return res state stack
  end.

Definition fail (e : InterpError) (state : list NodeEvaluationState) (stack : Stack) : Turn :=
  Return (Err e) state stack.

(** The arms that pop a boolean and otherwise report an error. *)
Definition pop_boolean (stack : Stack) (state : list NodeEvaluationState)
    (on_satisfied on_dissatisfied : Stack -> Turn) : Turn :=
  match stack with
  | Satisfied :: stack => on_satisfied stack
  | Dissatisfied :: stack => on_dissatisfied stack
  | Push _ :: stack => fail InterpError.UnexpectedStackElementPush state stack
  | [] => fail InterpError.UnexpectedStackEnd state []
  end.

(** The arms for [thresh]. *)
Definition thresh_turn (ns : NodeEvaluationState) (thresh : Threshold Script)
    (state : list NodeEvaluationState) (stack : Stack) : Turn :=
  let n_eval := n_evaluated ns in
  let n_sat := n_satisfied ns in
  let next (n_sat : nat) (stack : Stack) : Turn :=
    match Threshold.data thresh !! n_eval with
    | Some sub => Continue (mkNode sub 0 0 :: mkNode (ns_node ns) (n_eval + 1) n_sat :: state) stack
    | None => Panic
    end in
  if n_eval =? 0 then next 0 stack
  else if n_eval =? Threshold.n thresh then
    match stack with
    | Dissatisfied :: stack =>
        if n_sat =? Threshold.k thresh then Continue state (Satisfied :: stack)
        else Continue state (Dissatisfied :: stack)
    | Satisfied :: stack =>
        if n_sat =? Threshold.k thresh - 1 then Continue state (Satisfied :: stack)
        else Continue state (Dissatisfied :: stack)
    | Push _ :: stack => fail InterpError.UnexpectedStackElementPush state stack
    | [] => fail InterpError.UnexpectedStackEnd state []
    end
  else pop_boolean stack state (next (n_sat + 1)) (next n_sat).

(** The arm for [multi_a]. *)
Definition multi_a_turn (ns : NodeEvaluationState) (thresh : Threshold BitcoinKey)
    (state : list NodeEvaluationState) (stack : Stack) : Turn :=
  if n_evaluated ns =? Threshold.n thresh then
    Continue state
      ((if n_satisfied ns =? Threshold.k thresh then Satisfied else Dissatisfied) :: stack)
  else
    match Threshold.data thresh !! n_evaluated ns with
    | None => Panic
    | Some pk =>
        let next (n_sat : nat) := mkNode (ns_node ns) (n_evaluated ns + 1) n_sat :: state in
        match evaluate_pk verify_sig pk stack with
        | (Some (Ok x), stack) =>
            match stack with
            | _ :: stack => Return (Ok x) (next (n_satisfied ns + 1)) stack
            | [] => fail InterpError.UnexpectedStackEnd (next (n_satisfied ns + 1)) []
            end
        | (None, stack) =>
            match stack with
            | _ :: stack => Continue (next (n_satisfied ns)) stack
            | [] => fail InterpError.UnexpectedStackEnd (next (n_satisfied ns)) []
            end
        | (Some (Err e), stack) => fail e state stack
        end
    end.

(** One signature of [multi] against the key at [idx]. *)
Definition multi_key_turn (ns : NodeEvaluationState) (pk : option BitcoinKey)
    (state : list NodeEvaluationState) (stack : Stack) : Turn :=
  match pk with
  | None => Panic
  | Some pk =>
      let next (n_sat : nat) := mkNode (ns_node ns) (n_evaluated ns + 1) n_sat :: state in
      match evaluate_multi verify_sig pk stack with
      | (Some (Ok x), stack) => Return (Ok x) (next (n_satisfied ns + 1)) stack
      | (None, stack) => Continue (next (n_satisfied ns)) stack
      | (Some (Err e), stack) => fail e state stack
      end
  end.

(** [usize] subtraction followed by indexing: an underflow panics like an index
    out of range. *)
Definition key_from_end (thresh : Threshold BitcoinKey) (i : nat) : option BitcoinKey :=
  if i <? Threshold.n thresh then Threshold.data thresh !! (Threshold.n thresh - i - 1) else None.

(** The arms for [multi]. *)
Definition multi_turn (ns : NodeEvaluationState) (thresh : Threshold BitcoinKey)
    (state : list NodeEvaluationState) (stack : Stack) : Turn :=
  let k := Threshold.k thresh in
  if n_evaluated ns =? 0 then
    if length stack <? k + 1 then fail InterpError.InsufficientSignaturesMultiSig state stack
    else
      match stack with
      | Dissatisfied :: _ =>
          let sigs := take (k + 1) stack in
          let stack := drop (k + 1) stack in
          let nonsat := length (List.filter (fun sig => bool_decide (sig = Dissatisfied)) sigs) in
          if nonsat =? k + 1 then Continue state (Dissatisfied :: stack)
          else fail InterpError.MissingExtraZeroMultiSig state stack
      | [] => fail InterpError.UnexpectedStackEnd state []
      | _ => multi_key_turn ns (key_from_end thresh 0) state stack
      end
  else if n_satisfied ns =? k then
    match stack with
    | Dissatisfied :: stack => Continue state (Satisfied :: stack)
    | _ => fail InterpError.MissingExtraZeroMultiSig state (tail stack)
    end
  else if n_evaluated ns =? Threshold.n thresh then
    fail InterpError.MultiSigEvaluationError state stack
  else multi_key_turn ns (key_from_end thresh (n_evaluated ns)) state stack.

(** The arms of [match node_state.node.node], for the state and the stack after
    the node was popped. *)
Definition node_turn (ns : NodeEvaluationState) (state : list NodeEvaluationState)
    (stack : Stack) : Turn :=
  let fresh (sub : Script) := mkNode sub 0 0 in
  let again (n_eval n_sat : nat) := mkNode (ns_node ns) n_eval n_sat in
  match node (ns_node ns), n_evaluated ns with
  | Terminal.True, _ => Continue state (Satisfied :: stack)
  | Terminal.False, _ => Continue state (Dissatisfied :: stack)
  | Terminal.PkK pk, _ => report (evaluate_pk verify_sig pk stack) state
  | Terminal.PkH pk, _ =>
      match bitcoin_key_to_pubkeyhash pk sig_type with
      | Some pkh => report (evaluate_pkh verify_sig pkh sig_type stack) state
      | None => Panic
      end
  | Terminal.RawPkH pkh, _ => report (evaluate_pkh verify_sig pkh sig_type stack) state
  | Terminal.TxTemplate hash, _ =>
      Return (if bool_decide (tx_template = Some hash)
              then Ok (SatisfiedConstraint.TxTemplate hash)
              else Err InterpError.TxTemplateHashWrong) state stack
  | Terminal.After n, _ => report (evaluate_after (abs_inner n) lock_time stack) state
  | Terminal.Older n, _ =>
      match rel_to_relative n with
      | Some n => report (evaluate_older n sequence stack) state
      | None => Panic
      end
  | Terminal.Sha256 hash, _ => report (evaluate_sha256 hash stack) state
  | Terminal.Hash256 hash, _ => report (evaluate_hash256 hash stack) state
  | Terminal.Hash160 hash, _ => report (evaluate_hash160 hash stack) state
  | Terminal.Ripemd160 hash, _ => report (evaluate_ripemd160 hash stack) state
  | Terminal.Alt sub, _ | Terminal.Swap sub, _ | Terminal.Check sub, _
  | Terminal.InscribePre _ sub, _ | Terminal.InscribePost _ sub, _ =>
      Continue (fresh sub :: state) stack
  | Terminal.DupIf sub, 0 =>
      pop_boolean stack state
        (fun stack => Continue (fresh sub :: again 1 1 :: state) stack)
        (fun stack => Continue state (Dissatisfied :: stack))
  | Terminal.DupIf _, 1 => Continue state (Satisfied :: stack)
  | Terminal.ZeroNotEqual sub, 0 | Terminal.Verify sub, 0 =>
      Continue (fresh sub :: again 1 0 :: state) stack
  | Terminal.Verify _, 1 =>
      match stack with
      | Satisfied :: stack => Continue state stack
      | _ :: stack => fail InterpError.VerifyFailed state stack
      | [] => fail InterpError.UnexpectedStackEnd state []
      end
  | Terminal.ZeroNotEqual _, 1 =>
      match stack with
      | Dissatisfied :: stack => Continue state (Dissatisfied :: stack)
      | _ :: stack => Continue state (Satisfied :: stack)
      | [] => fail InterpError.UnexpectedStackEnd state []
      end
  | Terminal.NonZero sub, _ =>
      match stack with
      | Dissatisfied :: _ => Continue state stack
      | _ :: _ => Continue (fresh sub :: state) stack
      | [] => fail InterpError.UnexpectedStackEnd state []
      end
  | Terminal.AndV l r, _ => Continue (fresh l :: fresh r :: state) stack
  | Terminal.OrB l _, 0 | Terminal.AndB l _, 0 =>
      Continue (fresh l :: again 1 0 :: state) stack
  | Terminal.OrB _ r, 1 | Terminal.AndB _ r, 1 =>
      pop_boolean stack state
        (fun stack => Continue (fresh r :: again 2 1 :: state) stack)
        (fun stack => Continue (fresh r :: again 2 0 :: state) stack)
  | Terminal.AndB _ _, 2 =>
      match stack with
      | Satisfied :: stack =>
          if n_satisfied ns =? 1 then Continue state (Satisfied :: stack)
          else Continue state (Dissatisfied :: stack)
      | _ :: stack => Continue state (Dissatisfied :: stack)
      | [] => fail InterpError.UnexpectedStackEnd state []
      end
  | Terminal.AndOr l _ _, 0 | Terminal.OrC l _, 0 | Terminal.OrD l _, 0 =>
      Continue (fresh l :: again 1 0 :: state) stack
  | Terminal.OrB _ _, 2 =>
      match stack with
      | Dissatisfied :: stack =>
          if n_satisfied ns =? 0 then Continue state (Dissatisfied :: stack)
          else Continue state (Satisfied :: stack)
      | _ :: stack => Continue state (Satisfied :: stack)
      | [] => fail InterpError.UnexpectedStackEnd state []
      end
  | Terminal.OrC _ r, 1 =>
      pop_boolean stack state
        (fun stack => Continue state stack)
        (fun stack => Continue (fresh r :: state) stack)
  | Terminal.OrD _ r, 1 =>
      pop_boolean stack state
        (fun stack => Continue state (Satisfied :: stack))
        (fun stack => Continue (fresh r :: state) stack)
  | Terminal.AndOr _ l r, _ | Terminal.OrI l r, _ =>
      pop_boolean stack state
        (fun stack => Continue (fresh l :: state) stack)
        (fun stack => Continue (fresh r :: state) stack)
  | Terminal.Thresh thresh, _ => thresh_turn ns thresh state stack
  | Terminal.MultiA thresh, _ => multi_a_turn ns thresh state stack
  | Terminal.Multi thresh, _ => multi_turn ns thresh state stack
  | _, _ => fail InterpError.CouldNotEvaluate state stack
  end.

(** The code after the loop, for an empty state; [None] ends the iteration. *)
Definition final_turn (it : Iterator)
  : option (result InterpError SatisfiedConstraint) * Iterator :=
  match public_key it with
  | Some pk =>
      match it_stack it with
      | Push sig :: stack =>
          match verify_sersig verify_sig pk sig with
          | Ok key_sig =>
              (Some (Ok (SatisfiedConstraint.PublicKey key_sig)),
               mkIterator None (state it) (Satisfied :: stack) (has_errored it))
          | Err _ =>
              (Some (Err (InterpError.PkEvaluationError pk)),
               mkIterator (Some pk) (state it) stack (has_errored it))
          end
      | stack =>
          (Some (Err InterpError.UnexpectedStackEnd),
           mkIterator (Some pk) (state it) (tail stack) (has_errored it))
      end
  | None =>
      match it_stack it with
      | [Satisfied] => (None, mkIterator None (state it) [] (has_errored it))
      | stack =>
          (Some (Err InterpError.ScriptSatisfactionError),
           mkIterator None (state it) (tail stack) (has_errored it))
      end
  end.

(** [Iter::next] around [iter_next], one loop turn at a time. *)
Inductive Step : Type :=
| Working (it : Iterator)
| Yield (res : result InterpError SatisfiedConstraint) (it : Iterator)
| Finished
| Panicked.

(** The item [iter_next] returns; [next] records an error. *)
Definition yield (res : result InterpError SatisfiedConstraint) (it : Iterator) : Step :=
  Yield res (mkIterator (public_key it) (state it) (it_stack it)
               (match res with Err _ => true | Ok _ => has_errored it end)).

Definition step (it : Iterator) : Step :=
  if has_errored it then Finished
  else
    match state it with
    | ns :: rest =>
        match node_turn ns rest (it_stack it) with
        | Continue rest stack => Working (mkIterator (public_key it) rest stack (has_errored it))
        | Return res rest stack => yield res (mkIterator (public_key it) rest stack (has_errored it))
        | Panic => Panicked
        end
    | [] =>
        match final_turn it with
        | (Some res, it) => yield res it
        | (None, _) => Finished
        end
    end.

(** The items of the iterator up to its end. *)
Inductive Ending : Type := EndNormal | EndPanic.

Fixpoint run (fuel : nat) (it : Iterator)
  : option (list (result InterpError SatisfiedConstraint) * Ending) :=
  match fuel with
  | 0 => None
  | S fuel =>
      match step it with
      | Working it => run fuel it
      | Yield res it => '(l, e) ← run fuel it; Some (res :: l, e)
      | Finished => Some ([], EndNormal)
      | Panicked => Some ([], EndPanic)
      end
  end.
End Step.

(** [iter_custom] for a script. *)
Definition iter_script (script : Script) (stack : Stack) : Iterator :=
  mkIterator None [mkNode script 0 0] stack false.

(** [iter_custom] for a public key. *)
Definition iter_public_key (pk : BitcoinKey) (stack : Stack) : Iterator :=
  mkIterator (Some pk) [] stack false.
End Machine.
