(* ===== verification/InterpProps.v ===== *)
(** Properties of the interpreter: on the scripts it is given, every evaluation
    terminates, none of its loop turns panics and the arm for impossible states is
    never reached. *)
From S2P Require Import Prelude Bitcoin Primitives Reference Ord Correctness Malleability Types ExtData Tree StackLoop Ast Context Samples Translate Interp.

Section Machine.
Context {B : Bitcoin} {Sp : Spending} {Pa : Parsing}.
Abbreviation Script := (Miniscript (K := BitcoinKey_key)).

(** * Scripts as the interpreter gets them *)

(** The key of a [pkh] has the form its hash is computed from. *)
Definition key_matches (sig_type : SigType) (pk : BitcoinKey) : bool :=
  match pk, sig_type with
  | Fullkey _, Ecdsa | XOnly _, Schnorr => true
  | _, _ => false
  end.

Definition script_node_ok (sig_type : SigType) (ms : Script) : Prop :=
  node_valid (node ms)
  /\ match node ms with Terminal.PkH pk => key_matches sig_type pk = true | _ => True end.

Definition script_ok (sig_type : SigType) (ms : Script) : Prop :=
  Forall (script_node_ok sig_type) (pre_order ms).

Lemma script_ok_inv sig_type ms :
  script_ok sig_type ms ->
  script_node_ok sig_type ms /\ Forall (script_ok sig_type) (children ms).
Proof.
  unfold script_ok. rewrite pre_order_eq. intros [H Hc]%Forall_cons_1. split; [done|].
  clear H. induction (children ms) as [|c cs IH]; [constructor|].
  simpl in Hc. apply Forall_app in Hc as [? ?]. constructor; auto.
Qed.

Lemma script_ok_child sig_type ms c i :
  script_ok sig_type ms -> children ms !! i = Some c -> script_ok sig_type c.
Proof.
  intros [_ H]%script_ok_inv Hi. rewrite List.Forall_forall in H. apply H.
  apply list_elem_of_In. by eapply list_elem_of_lookup_2.
Qed.

(** * Turns *)

(** The number of children, keys included, that a node can have evaluated when it
    comes to the top of the state again. *)
Definition max_evaluated (ms : Script) : nat :=
  match node ms with
  | Terminal.DupIf _ | Terminal.Verify _ | Terminal.ZeroNotEqual _ => 1
  | Terminal.AndB _ _ | Terminal.OrB _ _ => 2
  | Terminal.AndOr _ _ _ | Terminal.OrC _ _ | Terminal.OrD _ _ => 1
  | Terminal.Thresh thresh => Threshold.n thresh
  | Terminal.Multi thresh | Terminal.MultiA thresh => Threshold.n thresh
  | _ => 0
  end.

Definition ns_ok (sig_type : SigType) (ns : NodeEvaluationState) : Prop :=
  n_evaluated ns <= max_evaluated (ns_node ns) /\ script_ok sig_type (ns_node ns).

(** The turns a node takes, and the turns left for a state. *)
Definition node_turns (ms : Script) : nat := S (n_children ms + length (node_keys ms)).
Definition turns (ms : Script) : nat := sum_by node_turns (pre_order ms).
Definition weight (ns : NodeEvaluationState) : nat :=
  (node_turns (ns_node ns) - n_evaluated ns)
  + sum_by turns (drop (n_evaluated ns) (children (ns_node ns))).

Lemma turns_eq ms : turns ms = node_turns ms + sum_by turns (children ms).
Proof. apply sum_pre_order. Qed.

Lemma weight_fresh ms : weight (mkNode ms 0 0) = turns ms.
Proof.
  unfold weight. cbn [ns_node n_evaluated]. by rewrite drop_0, turns_eq, Nat.sub_0_r.
Qed.

Lemma max_evaluated_turns ms : max_evaluated ms < node_turns ms.
Proof.
  unfold max_evaluated, node_turns, n_children, as_node, Miniscript_TreeLike, node_keys.
  destruct (node ms); simpl; unfold Threshold.n, Threshold.data; lia.
Qed.

Lemma sum_by_lookup {A} (f : A -> nat) l i a : l !! i = Some a -> f a <= sum_by f l.
Proof.
  revert i. induction l as [|b l IH]; intros [|i] H; [done | done | |]; rewrite sum_by_cons.
  - injection H as ->. lia.
  - specialize (IH _ H). lia.
Qed.

(** What a turn may do: push states that are fine and have fewer turns left. *)
Definition pushed_ok (sig_type : SigType) (ns : NodeEvaluationState)
    (rest state : list NodeEvaluationState) : Prop :=
  exists pushed, state = pushed ++ rest /\ Forall (ns_ok sig_type) pushed
    /\ sum_by weight pushed < weight ns.

Definition turn_ok (sig_type : SigType) (ns : NodeEvaluationState)
    (rest : list NodeEvaluationState) (t : Turn) : Prop :=
  match t with
  | Continue state _ => pushed_ok sig_type ns rest state
  | Return res state _ =>
      pushed_ok sig_type ns rest state /\ res <> Err InterpError.CouldNotEvaluate
  | Panic => False
  end.

Section Pushed.
Context (sig_type : SigType) (ns : NodeEvaluationState) (rest : list NodeEvaluationState).
Hypothesis Hns : ns_ok sig_type ns.

Lemma pushed_nil : pushed_ok sig_type ns rest rest.
Proof.
  exists []. split_and!; [done | constructor |]. change (sum_by weight []) with 0. unfold weight.
  pose proof (max_evaluated_turns (ns_node ns)). destruct Hns. lia.
Qed.

Lemma fresh_ok c i : children (ns_node ns) !! i = Some c -> ns_ok sig_type (mkNode c 0 0).
Proof. intros H. split; [simpl; lia|]. eapply script_ok_child; [apply Hns | exact H]. Qed.

Lemma pushed_child c i :
  children (ns_node ns) !! i = Some c -> n_evaluated ns <= i ->
  pushed_ok sig_type ns rest (mkNode c 0 0 :: rest).
Proof.
  intros H Hi. exists [mkNode c 0 0]. split_and!; [done | |].
  - constructor; [by eapply fresh_ok | constructor].
  - rewrite sum_by_cons, weight_fresh. change (sum_by weight []) with 0. unfold weight.
    assert (drop (n_evaluated ns) (children (ns_node ns)) !! (i - n_evaluated ns) = Some c) as Hd
      by (rewrite lookup_drop; rewrite <- H; f_equal; lia).
    apply (sum_by_lookup turns) in Hd.
    pose proof (max_evaluated_turns (ns_node ns)). destruct Hns. lia.
Qed.

Lemma pushed_again c m s :
  children (ns_node ns) !! n_evaluated ns = Some c -> m = S (n_evaluated ns) ->
  m <= max_evaluated (ns_node ns) ->
  pushed_ok sig_type ns rest (mkNode c 0 0 :: mkNode (ns_node ns) m s :: rest).
Proof.
  intros H -> Hi. exists [mkNode c 0 0; mkNode (ns_node ns) (S (n_evaluated ns)) s].
  split_and!; [done | |].
  - constructor; [by eapply fresh_ok|]. constructor; [|constructor]. split; [done | apply Hns].
  - rewrite !sum_by_cons, weight_fresh. change (sum_by weight []) with 0.
    unfold weight. cbn [ns_node n_evaluated]. rewrite (drop_S _ _ _ H), sum_by_cons.
    pose proof (max_evaluated_turns (ns_node ns)). lia.
Qed.

Lemma pushed_key m s :
  children (ns_node ns) = [] -> m = S (n_evaluated ns) -> m <= max_evaluated (ns_node ns) ->
  pushed_ok sig_type ns rest (mkNode (ns_node ns) m s :: rest).
Proof.
  intros H -> Hi. exists [mkNode (ns_node ns) (S (n_evaluated ns)) s].
  split_and!; [done | |].
  - constructor; [|constructor]. split; [done | apply Hns].
  - rewrite !sum_by_cons. change (sum_by weight []) with 0. unfold weight.
    cbn [ns_node n_evaluated]. rewrite H, !drop_nil. change (sum_by turns []) with 0.
    pose proof (max_evaluated_turns (ns_node ns)). lia.
Qed.

Lemma pushed_both l r :
  children (ns_node ns) = [l; r] -> n_evaluated ns = 0 ->
  pushed_ok sig_type ns rest (mkNode l 0 0 :: mkNode r 0 0 :: rest).
Proof.
  intros H Hi. exists [mkNode l 0 0; mkNode r 0 0]. split_and!; [done | |].
  - constructor; [by apply (fresh_ok l 0); rewrite H|].
    constructor; [by apply (fresh_ok r 1); rewrite H | constructor].
  - rewrite !sum_by_cons, !weight_fresh. change (sum_by weight []) with 0. unfold weight.
    rewrite Hi, H, drop_0, !sum_by_cons. change (sum_by turns []) with 0.
    unfold node_turns. lia.
Qed.

Lemma ok_fail e stack :
  e <> InterpError.CouldNotEvaluate -> turn_ok sig_type ns rest (fail e rest stack).
Proof. intros H. split; [apply pushed_nil | congruence]. Qed.

Lemma ok_continue stack : turn_ok sig_type ns rest (Continue rest stack).
Proof. apply pushed_nil. Qed.

Lemma ok_pop_boolean stack f g :
  (forall s, turn_ok sig_type ns rest (f s)) -> (forall s, turn_ok sig_type ns rest (g s)) ->
  turn_ok sig_type ns rest (pop_boolean stack rest f g).
Proof. intros Hf Hg. destruct stack as [|[] stack]; cbn [pop_boolean]; auto; apply ok_fail; congruence. Qed.

Lemma ok_report ev :
  fst ev <> Some (Err InterpError.CouldNotEvaluate) -> turn_ok sig_type ns rest (report ev rest).
Proof.
  destruct ev as [[res|] stack]; simpl; intros H; [|apply pushed_nil].
  split; [apply pushed_nil | congruence].
Qed.
End Pushed.

(** ** Errors of the evaluation functions *)

Lemma verify_sersig_error verify_sig pk s e :
  verify_sersig verify_sig pk s = Err e -> e <> InterpError.CouldNotEvaluate.
Proof.
  unfold verify_sersig. destruct pk.
  - destruct (EcdsaSignature_from_slice s); simpl; [destruct (verify_sig _)|]; congruence.
  - destruct (TaprootSignature_from_slice s); simpl; [destruct (verify_sig _)|]; congruence.
Qed.

Lemma evaluate_sig_error verify_sig pk c s :
  fst (evaluate_sig verify_sig pk c s) <> Some (Err InterpError.CouldNotEvaluate).
Proof.
  destruct s as [|[] s]; simpl; try congruence.
  destruct (verify_sersig verify_sig pk v) eqn:E; simpl; [congruence|].
  apply verify_sersig_error in E. congruence.
Qed.

Lemma evaluate_pkh_error verify_sig pkh st s :
  fst (evaluate_pkh verify_sig pkh st s) <> Some (Err InterpError.CouldNotEvaluate).
Proof.
  destruct s as [|[] s]; simpl; try congruence.
  destruct (negb _); simpl; [congruence|].
  destruct (bitcoin_key_from_slice v st); simpl; [|congruence]. apply evaluate_sig_error.
Qed.

Lemma evaluate_after_error n lt s :
  fst (evaluate_after n lt s) <> Some (Err InterpError.CouldNotEvaluate).
Proof.
  unfold evaluate_after.
  destruct (LockTime_is_block_height n), (LockTime_is_block_height lt); simpl; try congruence;
    destruct (_ <=? _)%N; simpl; congruence.
Qed.

Lemma evaluate_older_error n sq s :
  fst (evaluate_older n sq s) <> Some (Err InterpError.CouldNotEvaluate).
Proof.
  unfold evaluate_older. destruct (Sequence_to_relative_lock_time sq); simpl; [|congruence].
  destruct (RelativeLockTime_is_implied_by _ _); simpl; congruence.
Qed.

Lemma evaluate_preimage_error {H} `{EqDecision H} f lock (h : H) s :
  fst (evaluate_preimage f lock h s) <> Some (Err InterpError.CouldNotEvaluate).
Proof.
  destruct s as [|[] s]; simpl; try congruence.
  destruct (negb _); simpl; [congruence|]. destruct (bool_decide _); simpl; congruence.
Qed.
End Machine.

(** Keys of a script are [BitcoinKey]s. *)
Ltac plain_keys := change (@Pk BitcoinKey_key) with BitcoinKey in *.

Ltac fails := apply ok_fail; [assumption | congruence].

Section Turns.
Context {B : Bitcoin} {Sp : Spending} {Pa : Parsing} {L : LockTimeLaws B}.
Context (verify_sig : KeySigPair -> bool) (sequence : Sequence) (lock_time : LockTime)
  (tx_template : option sha256_Hash) (sig_type : SigType).

(** ** Nodes with a counter *)

Section Counters.
Context (ns : NodeEvaluationState) (rest : list NodeEvaluationState).
Hypothesis Hns : ns_ok sig_type ns.

Lemma thresh_turn_ok thresh stack :
  node (ns_node ns) = Terminal.Thresh thresh ->
  turn_ok sig_type ns rest (thresh_turn ns thresh rest stack).
Proof.
  intros Hn. pose proof Hns as [Hi Hs].
  assert (children (ns_node ns) = Threshold.data thresh) as Hc by by rewrite children_node, Hn.
  apply script_ok_inv in Hs as [[Hv _] _]. rewrite Hn in Hv. destruct Hv as [Hk _].
  unfold max_evaluated in Hi. rewrite Hn in Hi. unfold Threshold.n in *.
  assert (n_evaluated ns < length (Threshold.inner thresh) -> forall s st,
    turn_ok sig_type ns rest
      match Threshold.data thresh !! n_evaluated ns with
      | Some sub =>
          Continue (mkNode sub 0 0 :: mkNode (ns_node ns) (n_evaluated ns + 1) s :: rest) st
      | None => Panic
      end) as Hnext.
  { intros Hlt s st. fold (Threshold.data thresh) in Hlt.
    destruct (lookup_lt_is_Some_2 _ _ Hlt) as [sub Hsub]. rewrite Hsub.
    apply (pushed_again sig_type ns rest Hns); [by rewrite Hc | lia |].
    unfold max_evaluated. rewrite Hn. unfold Threshold.n, Threshold.data in *. lia. }
  unfold thresh_turn, Threshold.n. fold (Threshold.data thresh) in *.
  destruct (Nat.eqb_spec (n_evaluated ns) 0); [apply Hnext; lia|].
  destruct (Nat.eqb_spec (n_evaluated ns) (length (Threshold.data thresh))).
  - destruct stack as [|[] stack]; try fails;
      destruct (_ =? _); by apply ok_continue.
  - apply ok_pop_boolean; [done | |]; intros s; apply Hnext; lia.
Qed.

Lemma multi_a_turn_ok (thresh : Threshold (Pk (MiniscriptKey := BitcoinKey_key))) stack :
  node (ns_node ns) = Terminal.MultiA thresh ->
  turn_ok sig_type ns rest (multi_a_turn verify_sig ns thresh rest stack).
Proof.
  intros Hn. pose proof Hns as [Hi _]. unfold max_evaluated in Hi. rewrite Hn in Hi. plain_keys.
  unfold multi_a_turn. destruct (Nat.eqb_spec (n_evaluated ns) (Threshold.n thresh)) as [|Hne].
  { by apply ok_continue. }
  assert (n_evaluated ns < length (Threshold.data thresh)) as Hlt
    by (unfold Threshold.n, Threshold.data in *; lia).
  destruct (lookup_lt_is_Some_2 _ _ Hlt) as [pk Hpk]. rewrite Hpk.
  assert (forall s, pushed_ok sig_type ns rest (mkNode (ns_node ns) (n_evaluated ns + 1) s :: rest))
    as Hp.
  { intros s. apply pushed_key; [done | by rewrite children_node, Hn | lia |].
    unfold max_evaluated. rewrite Hn. plain_keys. unfold Threshold.n, Threshold.data in *. lia. }
  pose proof (evaluate_sig_error verify_sig pk SatisfiedConstraint.PublicKey stack) as He.
  unfold evaluate_pk. destruct (evaluate_sig _ _ _ stack) as [[[x|e]|] st]; simpl in He.
  - destruct st; (split; [apply Hp | congruence]).
  - fails.
  - destruct st; [split; [apply Hp | congruence] | apply Hp].
Qed.

Lemma multi_key_turn_ok (thresh : Threshold (Pk (MiniscriptKey := BitcoinKey_key))) pk stack :
  node (ns_node ns) = Terminal.Multi thresh -> n_evaluated ns < Threshold.n thresh ->
  turn_ok sig_type ns rest (multi_key_turn verify_sig ns (Some pk) rest stack).
Proof.
  intros Hn Hlt. plain_keys. unfold multi_key_turn.
  assert (forall s, pushed_ok sig_type ns rest (mkNode (ns_node ns) (n_evaluated ns + 1) s :: rest))
    as Hp.
  { intros s. apply pushed_key; [done | by rewrite children_node, Hn | lia |].
    unfold max_evaluated. rewrite Hn. plain_keys. lia. }
  destruct stack as [|[| |v] stack]; cbn [evaluate_multi]; try (fails).
  destruct (verify_sersig verify_sig pk v); [split; [apply Hp | congruence] | apply Hp].
Qed.

Lemma multi_turn_ok (thresh : Threshold (Pk (MiniscriptKey := BitcoinKey_key))) stack :
  node (ns_node ns) = Terminal.Multi thresh ->
  turn_ok sig_type ns rest (multi_turn verify_sig ns thresh rest stack).
Proof.
  intros Hn. pose proof Hns as [Hi Hs]. unfold max_evaluated in Hi. rewrite Hn in Hi.
  apply script_ok_inv in Hs as [[Hv _] _]. rewrite Hn in Hv. destruct Hv as [Hk _]. plain_keys.
  assert (n_evaluated ns < Threshold.n thresh -> forall st,
    turn_ok sig_type ns rest
      (multi_key_turn verify_sig ns (key_from_end thresh (n_evaluated ns)) rest st)) as Hkey.
  { intros Hlt st. unfold key_from_end. rewrite (proj2 (Nat.ltb_lt _ _) Hlt).
    destruct (lookup_lt_is_Some_2 (Threshold.data thresh)
                (Threshold.n thresh - n_evaluated ns - 1)) as [pk Hpk].
    { unfold Threshold.n, Threshold.data in *. lia. }
    rewrite Hpk. by eapply multi_key_turn_ok. }
  unfold multi_turn. destruct (Nat.eqb_spec (n_evaluated ns) 0) as [H0|].
  - destruct (_ <? _); [fails|]. rewrite H0 in Hkey.
    destruct stack as [|[| |v] stack]; try (fails).
    + apply Hkey. lia.
    + destruct (_ =? _); [by apply ok_continue | fails].
    + apply Hkey. lia.
  - destruct (_ =? _).
    { destruct stack as [|[| |v] stack];
        first [by apply ok_continue | split; [by apply pushed_nil | congruence]]. }
    destruct (Nat.eqb_spec (n_evaluated ns) (Threshold.n thresh));
      [fails | apply Hkey; lia].
Qed.
End Counters.

(** Closes the turns whose pushes the lemmas above describe. *)
Ltac turn :=
  cbv beta iota zeta;
  match goal with
  | |- turn_ok _ _ _ (fail _ _ _) => fails
  | |- turn_ok _ _ _ (pop_boolean _ _ _ _) => apply ok_pop_boolean; [assumption | |]; intros ?; turn
  | |- turn_ok _ ?ns ?rest (Continue (mkNode _ 0 0 :: mkNode _ _ _ :: ?rest) _) =>
      first [ apply (pushed_again _ ns rest); [assumption | reflexivity | reflexivity | cbn; lia]
            | apply (pushed_both _ ns rest); [assumption | reflexivity | simpl; lia] ]
  | |- turn_ok _ ?ns ?rest (Continue (mkNode ?c 0 0 :: ?rest) _) =>
      first [ apply (pushed_child _ ns rest) with (i := 0); [assumption | reflexivity | simpl; lia]
            | apply (pushed_child _ ns rest) with (i := 1); [assumption | reflexivity | simpl; lia]
            | apply (pushed_child _ ns rest) with (i := 2); [assumption | reflexivity | simpl; lia] ]
  | |- turn_ok _ ?ns ?rest (Continue ?rest _) => by apply ok_continue
  | |- turn_ok _ _ _ (report _ _) => apply ok_report;
      [assumption
      |first [apply evaluate_sig_error | apply evaluate_pkh_error | apply evaluate_after_error
             |apply evaluate_older_error | apply evaluate_preimage_error]]
  end.

(** A turn never panics, never reaches the arm for impossible states, and leaves
    fewer turns to do. *)
Lemma node_turn_ok ns rest stack :
  ns_ok sig_type ns ->
  turn_ok sig_type ns rest (node_turn verify_sig sequence lock_time tx_template sig_type ns rest stack).
Proof.
  intros Hns. pose proof Hns as [Hi [[Hv Hk] _]%script_ok_inv].
  destruct ns as [[nd ty ex] i s]. unfold node_turn, max_evaluated in *. cbn [ns_node node] in *.
  destruct nd as [| | p | p | h | t | t | x | x | x | x | h | j c | j c | c | c | c | c | c | c | c
                   | l r | l r | a b c | l r | l r | l r | l r | th | th | th];
    cbn [n_evaluated] in *; try turn.
  - destruct p, sig_type; try done; cbn [bitcoin_key_to_pubkeyhash]; turn.
  - destruct Hv as [Hv _]. apply Sequence_to_relative in Hv as [n Hn].
    unfold rel_to_relative. rewrite Hn. turn.
  - split; [by apply pushed_nil | by destruct (bool_decide _)].
  - destruct i as [|[|]]; [turn | turn | lia].
  - destruct i as [|[|]]; [turn | | lia]. destruct stack as [|[] stack]; turn.
  - assert (i = 0) by lia. destruct stack as [|[] stack]; turn.
  - destruct i as [|[|]]; [turn | | lia]. destruct stack as [|[] stack]; turn.
  - destruct i as [|[|[|]]]; [turn | turn | | lia].
    destruct stack as [|[] stack]; try destruct (_ =? _); turn.
  - destruct i as [|[|]]; [turn | turn | lia].
  - destruct i as [|[|[|]]]; [turn | turn | | lia].
    destruct stack as [|[] stack]; try destruct (_ =? _); turn.
  - destruct i as [|[|]]; [turn | turn | lia].
  - destruct i as [|[|]]; [turn | turn | lia].
  - by apply thresh_turn_ok.
  - by apply multi_turn_ok.
  - by apply multi_a_turn_ok.
Qed.
End Turns.

(** * Whole runs *)

Section Runs.
Context {B : Bitcoin} {Sp : Spending} {Pa : Parsing} {L : LockTimeLaws B}.
Context (verify_sig : KeySigPair -> bool) (sequence : Sequence) (lock_time : LockTime)
  (tx_template : option sha256_Hash) (sig_type : SigType).

Abbreviation step := (step verify_sig sequence lock_time tx_template sig_type).
Abbreviation run := (run verify_sig sequence lock_time tx_template sig_type).

(** The turns left until the iterator is exhausted. *)
Definition measure (it : Iterator) : nat :=
  if has_errored it then 1
  else 2 + Nat.b2n (bool_decide (is_Some (public_key it))) + sum_by weight (state it).

(** The items of a finished run: constraints, then possibly one error. *)
Inductive items_ok : list (result InterpError SatisfiedConstraint) -> Prop :=
| items_nil : items_ok []
| items_err e : e <> InterpError.CouldNotEvaluate -> items_ok [Err e]
| items_cons c l : items_ok l -> items_ok (Ok c :: l).

Lemma step_finished it : has_errored it = true -> step it = Finished.
Proof. unfold Interp.step. by intros ->. Qed.

Lemma final_turn_error it :
  fst (final_turn verify_sig it) <> Some (Err InterpError.CouldNotEvaluate).
Proof.
  unfold final_turn. destruct (public_key it) as [pk|].
  - destruct (it_stack it) as [|[| |v] st]; simpl; try congruence.
    destruct (verify_sersig verify_sig pk v); simpl; congruence.
  - destruct (it_stack it) as [|[| |v] [|? ?]]; simpl; congruence.
Qed.

Lemma final_turn_measure it res it' :
  has_errored it = false -> state it = [] -> final_turn verify_sig it = (Some res, it') ->
  state it' = [] /\ has_errored it' = false /\ 2 <= measure it
  /\ match res with Ok _ => measure it' < measure it | Err _ => True end.
Proof.
  intros He Hs. unfold final_turn, measure. rewrite He, Hs.
  destruct (public_key it) as [pk|] eqn:Hp.
  - destruct (it_stack it) as [|[| |v] st].
    4: destruct (verify_sersig verify_sig pk v).
    all: intros [= <- <-]; simpl; rewrite ?He, ?Hs; split_and!; done || lia.
  - destruct (it_stack it) as [|[| |v] [|? ?]];
      intros [= <- <-]; simpl; rewrite ?He, ?Hs; split_and!; done || lia.
Qed.

(** From a state whose nodes are fine, every run ends normally. *)
Lemma run_total fuel it :
  Forall (ns_ok sig_type) (state it) -> measure it <= fuel ->
  exists l, run fuel it = Some (l, EndNormal) /\ items_ok l.
Proof.
  revert it. induction fuel as [|fuel IH]; intros it Hok Hm.
  { unfold measure in Hm. destruct (has_errored it); lia. }
  cbn [Interp.run]. destruct (has_errored it) eqn:He.
  { rewrite step_finished by done. exists []. split; [done | constructor]. }
  assert (forall e it', e <> InterpError.CouldNotEvaluate -> has_errored it' = true ->
    1 <= fuel ->
    exists l, ('(l, en) ← run fuel it'; Some (Err e :: l, en)) = Some (l, EndNormal) /\ items_ok l)
    as Herr.
  { intros e it' Hne He' Hf. destruct fuel as [|f]; [lia|]. cbn [Interp.run].
    rewrite step_finished by done. exists [Err e]. split; [done | by constructor]. }
  unfold Interp.step. rewrite He. destruct (state it) as [|ns rest] eqn:Hs.
  - pose proof (final_turn_error it) as Hfe.
    pose proof (fun res it' => final_turn_measure it res it' He Hs) as Hfm.
    destruct (final_turn verify_sig it) as [[res|] it']; simpl in Hfe.
    2: { exists []. split; [done | constructor]. }
    destruct (Hfm _ _ eq_refl) as (Hs' & He' & H2 & Hm'). unfold yield.
    destruct res as [c|e]; [|apply Herr; [congruence | done | lia]].
    destruct (IH (mkIterator (public_key it') (state it') (it_stack it') (has_errored it')))
      as (l & Hl & Hi); [by rewrite Hs' | destruct it'; simpl in *; lia |].
    rewrite Hl. exists (Ok c :: l). split; [done | by constructor].
  - apply Forall_cons_1 in Hok as [Hns Hrest].
    pose proof (node_turn_ok verify_sig sequence lock_time tx_template sig_type ns rest (it_stack it) Hns)
      as Ht.
    assert (measure it = 2 + Nat.b2n (bool_decide (is_Some (public_key it)))
                         + (weight ns + sum_by weight rest)) as Hme
      by (unfold measure; by rewrite He, Hs, sum_by_cons).
    destruct (node_turn _ _ _ _ _ ns rest (it_stack it)) as [st' stack'|res st' stack'|]; [| |done].
    + destruct Ht as (pushed & -> & Hp & Hw). apply IH; [by apply Forall_app|].
      unfold measure. simpl. rewrite sum_by_app. lia.
    + destruct Ht as ((pushed & -> & Hp & Hw) & Hne). unfold yield. simpl.
      destruct res as [c|e]; [|apply Herr; [congruence | done | lia]].
      destruct (IH (mkIterator (public_key it) (pushed ++ rest) stack' false)) as (l & Hl & Hi).
      * by apply Forall_app.
      * unfold measure. simpl. rewrite sum_by_app. lia.
      * rewrite Hl. exists (Ok c :: l). split; [done | by constructor].
Qed.

(** Every run on a script ends normally. *)
Lemma interpreter_runs ms stack :
  script_ok sig_type ms ->
  exists l, run (2 + turns ms) (iter_script ms stack) = Some (l, EndNormal) /\ items_ok l.
Proof.
  intros H. apply run_total.
  - constructor; [|constructor]. split; [simpl; lia | done].
  - unfold measure, iter_script. simpl. rewrite sum_by_cons, weight_fresh.
    change (sum_by weight []) with 0. lia.
Qed.

(** C24: evaluating a script always terminates, whatever the stack, the transaction
    and the signature check: after a number of loop turns linear in the script
    the iterator is exhausted. No turn panics (no index out of range, no failed
    [unwrap]), only the last item can be an error, and it is never the
    [CouldNotEvaluate] of the arm for impossible states. *)
Theorem interpreter_terminates ms stack :
  script_ok sig_type ms ->
  exists l, run (2 + turns ms) (iter_script ms stack) = Some (l, EndNormal) /\ items_ok l.
Proof. apply interpreter_runs. Qed.
End Runs.

(** * Translating scripts for the interpreter *)

#[export] Instance TranslateFullPk_infallible {B : Bitcoin} {Sp : Spending} {Pa : Parsing} :
  Infallible TranslateFullPk.
Proof. constructor; intros; eexists; reflexivity. Qed.

#[export] Instance TranslateXOnlyPk_infallible {B : Bitcoin} {Sp : Spending} {Pa : Parsing} :
  Infallible TranslateXOnlyPk.
Proof. constructor; intros; eexists; reflexivity. Qed.

(** The [expect] of the translation into the interpreter's own keys never
    fires: every Miniscript within the recursion limit translates, from full and
    from x-only keys, into a well-typed one without checks, of the same type. *)
Theorem to_no_checks_total {B : Bitcoin} {Sp : Spending} {Pa : Parsing} ctx
    (full : Miniscript (K := PublicKey_key)) (x_only : Miniscript (K := XOnlyPublicKey_key)) :
  wf ctx full -> wf ctx x_only ->
  height full <= MAX_RECURSION_DEPTH -> height x_only <= MAX_RECURSION_DEPTH ->
  exists s s',
    to_no_checks_ms_full full = Some s /\ wf NoChecks s /\ ty s = ty full
    /\ to_no_checks_ms_x_only x_only = Some s' /\ wf NoChecks s' /\ ty s' = ty x_only.
Proof.
  intros Hw Hw' Hh Hh'.
  destruct (translate_total ctx TranslateFullPk full Hw Hh) as (s & Hs & Hws & Ht & _).
  destruct (translate_total ctx TranslateXOnlyPk x_only Hw' Hh') as (s' & Hs' & Hws' & Ht' & _).
  exists s, s'. unfold to_no_checks_ms_full, to_no_checks_ms_x_only.
  by rewrite !translate_pk_ctx_eq, Hs, Hs'.
Qed.

Lemma to_no_checks_total_witness :
  exists s s',
    to_no_checks_ms_full (B := reference)
      (mkMiniscript Terminal.True Types.TRUE (ext_type_check Ecdsa Terminal.True)) = Some s
    /\ wf NoChecks s /\ ty s = Types.TRUE
    /\ to_no_checks_ms_x_only (B := reference)
         (mkMiniscript Terminal.False Types.FALSE (ext_type_check Ecdsa Terminal.False)) = Some s'
    /\ wf NoChecks s' /\ ty s' = Types.FALSE.
Proof.
  apply (to_no_checks_total Segwitv0).
  - constructor; [constructor | exact I | reflexivity | reflexivity].
  - constructor; [constructor | exact I | reflexivity | reflexivity].
  - apply Nat.leb_le. vm_compute. reflexivity.
  - apply Nat.leb_le. vm_compute. reflexivity.
Defined.

(** [and_v(v:pkh(C), multi(1, A, B))], as the interpreter gets it. *)
Section Sample.
#[local] Existing Instance BitcoinKey_key | 0.

Definition sample_script : Miniscript :=
  let node t := mkMiniscript t Types.TRUE Ext.TRUE in
  let pkh := node (Terminal.PkH (Fullkey (B := reference) keyC)) in
  let keys : list Pk := [Fullkey (B := reference) keyA; Fullkey (B := reference) keyB] in
  node (Terminal.AndV (node (Terminal.Verify (node (Terminal.Check pkh))))
    (node (Terminal.Multi (mkThreshold 1 keys)))).
End Sample.

Lemma interpreter_terminates_witness :
  exists l, run (fun _ => true) 0%N 0%N None Ecdsa (2 + turns sample_script)
              (iter_script sample_script [Push [Byte.x0a]; Dissatisfied]) = Some (l, EndNormal)
            /\ items_ok l.
Proof.
  apply interpreter_terminates. unfold script_ok.
  repeat (apply List.Forall_cons; [split; [first [exact I | vm_compute; lia] | first [exact I | reflexivity]]|]).
  apply List.Forall_nil.
Defined.
