(* ===== verification/InterpRuns.v ===== *)
(** Error-free evaluations of the interpreter: the big-step view [reaches] of its
    loop, one lemma per fragment that composes evaluations of its children, and
    the end of a run whose evaluation reaches the final stack. *)
From S2P Require Import Prelude Bitcoin Primitives Ord Correctness Malleability Types ExtData Tree StackLoop Ast Context Translate Interp InterpProps.

Section Runs.
Context {B : Bitcoin} {Sp : Spending} {Pa : Parsing}.
Context (verify_sig : KeySigPair -> bool) (sequence : Sequence) (lock_time : LockTime)
  (tx_template : option sha256_Hash) (sig_type : SigType).

Abbreviation Script := (Miniscript (K := BitcoinKey_key)).
Abbreviation node_turn := (node_turn verify_sig sequence lock_time tx_template sig_type).
Abbreviation run := (run verify_sig sequence lock_time tx_template sig_type).

(** * Evaluation without errors *)

(** From a state and a stack, turns that report no error lead to others. *)
Inductive reaches : list NodeEvaluationState -> Stack -> list NodeEvaluationState -> Stack -> Prop :=
| reaches_refl state stack : reaches state stack state stack
| reaches_continue ns rest stack state1 stack1 state2 stack2 :
    node_turn ns rest stack = Continue state1 stack1 ->
    reaches state1 stack1 state2 stack2 -> reaches (ns :: rest) stack state2 stack2
| reaches_return ns rest stack c state1 stack1 state2 stack2 :
    node_turn ns rest stack = Return (Ok c) state1 stack1 ->
    reaches state1 stack1 state2 stack2 -> reaches (ns :: rest) stack state2 stack2.

Lemma reaches_trans st1 sk1 st2 sk2 st3 sk3 :
  reaches st1 sk1 st2 sk2 -> reaches st2 sk2 st3 sk3 -> reaches st1 sk1 st3 sk3.
Proof. induction 1; intros; [done | econstructor 2; eauto | econstructor 3; eauto]. Qed.

Lemma reaches_turn ns rest stack state1 stack1 :
  node_turn ns rest stack = Continue state1 stack1 ->
  reaches (ns :: rest) stack state1 stack1.
Proof. intros. econstructor 2; [done | constructor]. Qed.

Lemma reaches_report ns rest stack c state1 stack1 :
  node_turn ns rest stack = Return (Ok c) state1 stack1 ->
  reaches (ns :: rest) stack state1 stack1.
Proof. intros. econstructor 3; [done | constructor]. Qed.

Lemma run_reaches fuel state stack state' stack' l e :
  reaches state stack state' stack' -> run fuel (mkIterator None state stack false) = Some (l, e) ->
  exists l1 l2 fuel', l = l1 ++ l2 /\ Forall (fun r => is_ok r = true) l1
    /\ run fuel' (mkIterator None state' stack' false) = Some (l2, e).
Proof.
  intros H. revert fuel l e. induction H as [state stack | ns rest stack state1 stack1 state2 stack2 Ht _ IH
                                     | ns rest stack c state1 stack1 state2 stack2 Ht _ IH]; intros fuel l e Hr.
  - exists [], l, fuel. split_and!; [done | constructor | done].
  - destruct fuel as [|fuel]; [done|]. cbn in Hr. rewrite Ht in Hr. by apply (IH fuel).
  - destruct fuel as [|fuel]; [done|]. cbn in Hr. rewrite Ht in Hr. cbn in Hr.
    destruct (run fuel _) as [[l' e']|] eqn:Hr'; [|done]. injection Hr as <- <-.
    destruct (IH _ _ _ Hr') as (l1 & l2 & fuel' & -> & H1 & H2).
    exists (Ok c :: l1), l2, fuel'. split_and!; [done | by constructor | done].
Qed.

(** A script whose evaluation ends with the stack [\[Satisfied\]] is accepted. *)
Lemma run_accepts fuel ms stack l e :
  reaches [mkNode ms 0 0] stack [] [Satisfied] -> run fuel (iter_script ms stack) = Some (l, e) ->
  Forall (fun r => is_ok r = true) l /\ e = EndNormal.
Proof.
  intros H Hr. destruct (run_reaches _ _ _ _ _ _ _ H Hr) as (l1 & l2 & [|fuel'] & -> & H1 & H2); [done|].
  cbn in H2. injection H2 as <- <-. by rewrite app_nil_r.
Qed.

(** * Evaluating one fragment *)

(** The stack that a witness, bottom first, becomes. *)
Definition stack_of (w : list bytes) : Stack := rev (map element_from w).

Lemma stack_of_app w w' : stack_of (w ++ w') = stack_of w' ++ stack_of w.
Proof. unfold stack_of. by rewrite map_app, rev_app_distr. Qed.

(** Evaluating [ms] replaces the witness [w] on the stack by [res]. *)
Definition evals (ms : Script) (w : list bytes) (res : Stack) : Prop :=
  forall state rest,
    reaches (mkNode ms 0 0 :: state) (stack_of w ++ rest) state (res ++ rest).

Definition boolean (b : bool) : Element := if b then Satisfied else Dissatisfied.

(** Runs the evaluation of a child. *)
Ltac child H :=
  eapply reaches_trans; [apply H | cbn [app]].

(** Takes one turn of a concrete node. *)
Ltac turn :=
  eapply reaches_continue; [cbn; reflexivity | cbn].

Ltac start nd :=
  intros state rest; destruct nd as [nd_ ty_ ext_]; cbn [node] in *; subst nd_;
  rewrite ?stack_of_app, <- ?app_assoc; cbn [app].

Lemma evals_true s : node s = Terminal.True -> evals s [] [Satisfied].
Proof. intros Hn. start s. turn. apply reaches_refl. Qed.

Lemma evals_false s : node s = Terminal.False -> evals s [] [Dissatisfied].
Proof. intros Hn. start s. turn. apply reaches_refl. Qed.

(** The wrappers that evaluation passes through. *)
Lemma evals_transparent s sub w res :
  node s = Terminal.Alt sub \/ node s = Terminal.Swap sub \/ node s = Terminal.Check sub
  \/ (exists i, node s = Terminal.InscribePre i sub \/ node s = Terminal.InscribePost i sub) ->
  evals sub w res -> evals s w res.
Proof.
  intros Hn H state rest. destruct s as [nd t e]. cbn [node] in Hn.
  assert (node_turn (mkNode (mkMiniscript nd t e) 0 0) state (stack_of w ++ rest)
          = Continue (mkNode sub 0 0 :: state) (stack_of w ++ rest)) as Ht.
  { destruct Hn as [-> |[-> |[-> |[i [-> | ->]]]]]; reflexivity. }
  eapply reaches_continue; [exact Ht | apply H].
Qed.

Lemma evals_dup_if s sub w :
  node s = Terminal.DupIf sub -> evals sub w [] -> evals s (w ++ [[Byte.x01]]) [Satisfied].
Proof. intros Hn H. start s. turn. child H. turn. apply reaches_refl. Qed.

Lemma evals_dup_if_dissat s sub :
  node s = Terminal.DupIf sub -> evals s [[]] [Dissatisfied].
Proof. intros Hn. start s. turn. apply reaches_refl. Qed.

Lemma evals_verify s sub w :
  node s = Terminal.Verify sub -> evals sub w [Satisfied] -> evals s w [].
Proof. intros Hn H. start s. turn. child H. turn. apply reaches_refl. Qed.

Lemma evals_zero_not_equal s sub w b :
  node s = Terminal.ZeroNotEqual sub -> evals sub w [boolean b] -> evals s w [boolean b].
Proof. intros Hn H. start s. turn. child H. destruct b; turn; apply reaches_refl. Qed.

Lemma evals_non_zero s sub w e w' res :
  node s = Terminal.NonZero sub -> stack_of w = e :: w' -> e <> Dissatisfied ->
  evals sub w res -> evals s w res.
Proof.
  intros Hn Hw He H. start s.
  eapply reaches_continue; [|apply H]. rewrite Hw. cbn. by destruct e.
Qed.

Lemma evals_non_zero_dissat s sub :
  node s = Terminal.NonZero sub -> evals s [[]] [Dissatisfied].
Proof. intros Hn. start s. turn. apply reaches_refl. Qed.

Lemma evals_and_v s l r wl wr res :
  node s = Terminal.AndV l r -> evals l wl [] -> evals r wr res -> evals s (wr ++ wl) res.
Proof. intros Hn Hl Hr. start s. turn. child Hl. apply Hr. Qed.

Lemma evals_and_b s l r wl wr bl br :
  node s = Terminal.AndB l r -> evals l wl [boolean bl] -> evals r wr [boolean br] ->
  evals s (wr ++ wl) [boolean (bl && br)].
Proof.
  intros Hn Hl Hr. start s. turn. child Hl.
  destruct bl; turn; child Hr; destruct br; turn; apply reaches_refl.
Qed.

Lemma evals_or_b s l r wl wr bl br :
  node s = Terminal.OrB l r -> evals l wl [boolean bl] -> evals r wr [boolean br] ->
  evals s (wr ++ wl) [boolean (bl || br)].
Proof.
  intros Hn Hl Hr. start s. turn. child Hl.
  destruct bl; turn; child Hr; destruct br; turn; apply reaches_refl.
Qed.

Lemma evals_or_d_left s l r wl :
  node s = Terminal.OrD l r -> evals l wl [Satisfied] -> evals s wl [Satisfied].
Proof. intros Hn Hl. start s. turn. child Hl. turn. apply reaches_refl. Qed.

Lemma evals_or_d_right s l r wl wr b :
  node s = Terminal.OrD l r -> evals l wl [Dissatisfied] -> evals r wr [boolean b] ->
  evals s (wr ++ wl) [boolean b].
Proof. intros Hn Hl Hr. start s. turn. child Hl. turn. apply Hr. Qed.

Lemma evals_or_c_left s l r wl :
  node s = Terminal.OrC l r -> evals l wl [Satisfied] -> evals s wl [].
Proof. intros Hn Hl. start s. turn. child Hl. turn. apply reaches_refl. Qed.

Lemma evals_or_c_right s l r wl wr :
  node s = Terminal.OrC l r -> evals l wl [Dissatisfied] -> evals r wr [] ->
  evals s (wr ++ wl) [].
Proof. intros Hn Hl Hr. start s. turn. child Hl. turn. apply Hr. Qed.

Lemma evals_or_i_left s l r w res :
  node s = Terminal.OrI l r -> evals l w res -> evals s (w ++ [[Byte.x01]]) res.
Proof. intros Hn H. start s. turn. apply H. Qed.

Lemma evals_or_i_right s l r w res :
  node s = Terminal.OrI l r -> evals r w res -> evals s (w ++ [[]]) res.
Proof. intros Hn H. start s. turn. apply H. Qed.

Lemma evals_and_or_then s a b c wa wb res :
  node s = Terminal.AndOr a b c -> evals a wa [Satisfied] -> evals b wb res ->
  evals s (wb ++ wa) res.
Proof. intros Hn Ha Hb. start s. turn. child Ha. turn. apply Hb. Qed.

Lemma evals_and_or_else s a b c wa wc res :
  node s = Terminal.AndOr a b c -> evals a wa [Dissatisfied] -> evals c wc res ->
  evals s (wc ++ wa) res.
Proof. intros Hn Ha Hc. start s. turn. child Ha. turn. apply Hc. Qed.

(** * Leaves *)

(** Elements of two bytes or more are not booleans. *)
Lemma element_from_long v : 2 <= length v -> element_from v = Push v.
Proof.
  unfold element_from. intros Hl. destruct v as [|x [|y v]]; simpl in Hl; [lia | lia|].
  by rewrite bool_decide_eq_false_2.
Qed.

(** A signature that the interpreter accepts for a key. *)
Definition good_sig (pk : BitcoinKey) (v : bytes) : Prop :=
  element_from v = Push v /\ exists key_sig, verify_sersig verify_sig pk v = Ok key_sig.

Lemma evals_pk_k s (pk : Pk (MiniscriptKey := BitcoinKey_key)) v : node s = Terminal.PkK pk -> good_sig pk v -> evals s [v] [Satisfied].
Proof.
  intros Hn [He [ks Hv]]. start s. eapply reaches_return; [|apply reaches_refl].
  unfold stack_of. cbn. rewrite He. cbn. by rewrite Hv.
Qed.

Lemma evals_pk_k_dissat s (pk : Pk (MiniscriptKey := BitcoinKey_key)) : node s = Terminal.PkK pk -> evals s [[]] [Dissatisfied].
Proof. intros Hn. start s. turn. apply reaches_refl. Qed.

(** The fragments that check a key hash. *)
Lemma pk_h_turn (s : Script) (pk : Pk (MiniscriptKey := BitcoinKey_key)) pkh state stack :
  node s = Terminal.PkH pk -> bitcoin_key_to_pubkeyhash pk sig_type = Some pkh ->
  node_turn (mkNode s 0 0) state stack = report (evaluate_pkh verify_sig pkh sig_type stack) state.
Proof. destruct s as [nd t x]. cbn [node]. intros -> Hh. cbn. by rewrite Hh. Qed.

Lemma raw_pk_h_turn (s : Script) pkh state stack :
  node s = Terminal.RawPkH pkh ->
  node_turn (mkNode s 0 0) state stack = report (evaluate_pkh verify_sig pkh sig_type stack) state.
Proof. destruct s as [nd t x]. cbn [node]. by intros ->. Qed.

Section KeyHash.
Context (s : Script) (pk : Pk (MiniscriptKey := BitcoinKey_key)) (kb : bytes).
Hypotheses (Ht : forall state stack,
    node_turn (mkNode s 0 0) state stack = report (evaluate_pkh verify_sig (hash160_hash kb) sig_type stack) state)
  (He : element_from kb = Push kb) (Hk : bitcoin_key_from_slice kb sig_type = Some pk).

Lemma key_hash_turn state e rest :
  node_turn (mkNode s 0 0) state (Push kb :: e :: rest)
  = report (evaluate_sig verify_sig pk (SatisfiedConstraint.PublicKeyHash (hash160_hash kb)) (e :: rest)) state.
Proof. rewrite Ht. cbn. by rewrite bool_decide_eq_true_2, Hk. Qed.

Lemma evals_pk_h v : good_sig pk v -> evals s [v; kb] [Satisfied].
Proof.
  intros [Hv [ks Hs]] state rest. unfold stack_of. cbn [map rev app]. rewrite He, Hv.
  eapply reaches_return; [|apply reaches_refl]. rewrite key_hash_turn. cbn. by rewrite Hs.
Qed.

Lemma evals_pk_h_dissat : evals s [[]; kb] [Dissatisfied].
Proof.
  intros state rest. unfold stack_of. cbn [map rev app]. rewrite He.
  eapply reaches_continue; [|apply reaches_refl]. by rewrite key_hash_turn.
Qed.
End KeyHash.

Section Preimage.
Context {H : Type} `{EqDecision H} (hash_fn : bytes -> H) (lock : H -> HashLockType) (h : H).
Context (s : Script) (p : bytes).
Hypotheses (Ht : forall state stack,
    node_turn (mkNode s 0 0) state stack = report (evaluate_preimage hash_fn lock h stack) state)
  (Hl : length p = 32).

Lemma preimage_element : element_from p = Push p.
Proof. apply element_from_long. lia. Qed.

Lemma evals_preimage : hash_fn p = h -> evals s [p] [Satisfied].
Proof.
  intros Hp state rest. unfold stack_of. cbn [map rev app]. rewrite preimage_element.
  eapply reaches_return; [|apply reaches_refl]. rewrite Ht. cbn. rewrite Hl. cbn.
  by rewrite bool_decide_eq_true_2.
Qed.

Lemma evals_preimage_dissat : hash_fn p <> h -> evals s [p] [Dissatisfied].
Proof.
  intros Hp state rest. unfold stack_of. cbn [map rev app]. rewrite preimage_element.
  eapply reaches_continue; [|apply reaches_refl]. rewrite Ht. cbn. rewrite Hl. cbn.
  by rewrite bool_decide_eq_false_2.
Qed.
End Preimage.

Lemma evals_after {L : LockTimeLaws B} s n :
  node s = Terminal.After n -> LockTime_is_implied_by (abs_inner n) lock_time = true ->
  evals s [] [Satisfied].
Proof.
  intros Hn Hi. start s. eapply reaches_return; [|apply reaches_refl]. cbn. unfold evaluate_after.
  rewrite LockTime_implied in Hi. apply andb_true_iff in Hi as [Hb%eqb_prop ->]. rewrite Hb.
  by destruct (LockTime_is_block_height lock_time).
Qed.

Lemma evals_older s n n' lt :
  node s = Terminal.Older n -> rel_to_relative n = Some n' ->
  Sequence_to_relative_lock_time sequence = Some lt ->
  RelativeLockTime_is_implied_by n' lt = true -> evals s [] [Satisfied].
Proof.
  intros Hn Hr Hs Hi. start s. eapply reaches_return; [|apply reaches_refl]. cbn. rewrite Hr.
  unfold evaluate_older. by rewrite Hs, Hi.
Qed.

Lemma evals_tx_template s h :
  node s = Terminal.TxTemplate h -> tx_template = Some h -> evals s [] [].
Proof.
  intros Hn Ht. start s. eapply reaches_return; [|apply reaches_refl]. cbn.
  by rewrite bool_decide_eq_true_2.
Qed.

(** * Thresholds *)

Lemma stack_of_children w ws : stack_of (concat (rev (w :: ws))) = stack_of w ++ stack_of (concat (rev ws)).
Proof. cbn [rev]. by rewrite concat_app, stack_of_app, concat_cons, app_nil_r. Qed.

Lemma drop_cons_inv {A} i (l : list A) a l' :
  drop i l = a :: l' -> l !! i = Some a /\ drop (i + 1) l = l' /\ i < length l.
Proof.
  intros H. assert (l !! i = Some a) as Hi.
  { rewrite <- (Nat.add_0_r i), <- lookup_drop, H. done. }
  split_and!; [done | | by eapply lookup_lt_Some].
  rewrite (drop_S _ _ _ Hi) in H. injection H as H. by rewrite Nat.add_1_r.
Qed.

Lemma drop_nil_inv {A} i (l : list A) : drop i l = [] -> i <= length l -> i = length l.
Proof. intros H%(f_equal length) Hi. rewrite length_drop in H. simpl in H. lia. Qed.

Definition child_evals (b : bool) (ms : Script) (w : list bytes) : Prop := evals ms w [boolean b].

Section Thresh.
Context (nd : Script) (thresh : Threshold Script) (Hn : node nd = Terminal.Thresh thresh).

Lemma thresh_node i cnt state stack :
  node_turn (mkNode nd i cnt) state stack = thresh_turn (mkNode nd i cnt) thresh state stack.
Proof. destruct nd as [n t e]. cbn [node] in Hn. by subst n. Qed.

Lemma thresh_loop todo bs ws i cnt b state rest :
  1 <= Threshold.k thresh -> 1 <= i <= Threshold.n thresh -> drop i (Threshold.data thresh) = todo ->
  Forall3 child_evals bs todo ws ->
  reaches (mkNode nd i cnt :: state) (boolean b :: stack_of (concat (rev ws)) ++ rest)
    state (boolean (cnt + Nat.b2n b + sum_by Nat.b2n bs =? Threshold.k thresh) :: rest).
Proof.
  intros Hk Hi Hd H. revert i cnt b Hi Hd.
  induction H as [|b' sub w bs todo ws He H IH]; intros i cnt b Hi Hd.
  - apply drop_nil_inv in Hd; [|unfold Threshold.n, Threshold.data in *; lia].
    eapply reaches_continue; [|apply reaches_refl]. rewrite thresh_node. unfold thresh_turn.
    cbn [n_evaluated n_satisfied]. rewrite (proj2 (Nat.eqb_neq i 0)) by lia.
    rewrite (proj2 (Nat.eqb_eq i (Threshold.n thresh))) by done.
    change (sum_by Nat.b2n []) with 0. rewrite Nat.add_0_r.
    destruct b; cbn [boolean Nat.b2n].
    + destruct (Nat.eqb_spec cnt (Threshold.k thresh - 1)), (Nat.eqb_spec (cnt + 1) (Threshold.k thresh));
        lia || done.
    + rewrite Nat.add_0_r. by destruct (cnt =? Threshold.k thresh).
  - apply drop_cons_inv in Hd as (Hsub & Hd & Hlt). rewrite stack_of_children, <- app_assoc.
    eapply reaches_continue.
    { rewrite thresh_node. unfold thresh_turn. cbn [n_evaluated n_satisfied ns_node].
      rewrite (proj2 (Nat.eqb_neq i 0)) by lia.
      rewrite (proj2 (Nat.eqb_neq i (Threshold.n thresh)))
        by (unfold Threshold.n, Threshold.data in *; lia).
      rewrite Hsub. instantiate (1 := stack_of w ++ stack_of (concat (rev ws)) ++ rest).
      instantiate (1 := mkNode sub 0 0 :: mkNode nd (i + 1) (cnt + Nat.b2n b) :: state).
      destruct b; cbn; [done | by rewrite Nat.add_0_r]. }
    eapply reaches_trans; [apply He|]. cbn [app].
    rewrite sum_by_cons, Nat.add_assoc. apply IH; [|done].
    unfold Threshold.n, Threshold.data in *. lia.
Qed.

Lemma evals_thresh bs ws :
  Threshold.valid 0 thresh -> Forall3 child_evals bs (Threshold.data thresh) ws ->
  evals nd (concat (rev ws)) [boolean (sum_by Nat.b2n bs =? Threshold.k thresh)].
Proof.
  intros [[Hk Hkn] _] H state rest. unfold Threshold.n in Hkn.
  destruct (Threshold.data thresh) as [|sub todo] eqn:Hd; unfold Threshold.data in Hd;
    [rewrite Hd in Hkn; simpl in Hkn; lia|].
  inversion H as [|b ? w bs' ? ws' He Hf]; subst. rewrite stack_of_children, <- app_assoc.
  eapply reaches_continue.
  { rewrite thresh_node. unfold thresh_turn. cbn [n_evaluated n_satisfied ns_node Nat.eqb].
    unfold Threshold.data. rewrite Hd. cbn. reflexivity. }
  eapply reaches_trans; [apply He|]. cbn [app]. rewrite sum_by_cons.
  change (Nat.b2n b + sum_by Nat.b2n bs') with (0 + Nat.b2n b + sum_by Nat.b2n bs').
  apply (thresh_loop todo); [done | | unfold Threshold.data; by rewrite Hd | done].
  unfold Threshold.n. rewrite Hd. simpl. lia.
Qed.
End Thresh.

Lemma filter_repeat {A} (f : A -> bool) a n :
  f a = true -> List.filter f (repeat a n) = repeat a n.
Proof. intros H. induction n as [|n IH]; [done|]. simpl. by rewrite H, IH. Qed.

(** A signature for the key, or the empty element that skips it. *)
Definition good_item (pk : BitcoinKey) (b : bool) (v : bytes) : Prop :=
  if b then good_sig pk v else v = [].

Section MultiA.
Context (nd : Script) (thresh : Threshold (Pk (MiniscriptKey := BitcoinKey_key)))
  (Hn : node nd = Terminal.MultiA thresh).

Lemma multi_a_node i cnt state stack :
  node_turn (mkNode nd i cnt) state stack
  = multi_a_turn verify_sig (mkNode nd i cnt) thresh state stack.
Proof. destruct nd as [n t e]. cbn [node] in Hn. by subst n. Qed.

Lemma multi_a_loop todo bs vs i cnt state rest :
  i <= Threshold.n thresh -> drop i (Threshold.data thresh) = todo ->
  Forall3 good_item todo bs vs ->
  reaches (mkNode nd i cnt :: state) (map element_from vs ++ rest)
    state (boolean (cnt + sum_by Nat.b2n bs =? Threshold.k thresh) :: rest).
Proof.
  plain_keys. intros Hi Hd H. revert i cnt Hi Hd.
  induction H as [|pk b v todo bs vs Hg H IH]; intros i cnt Hi Hd.
  - apply drop_nil_inv in Hd; [|unfold Threshold.n, Threshold.data in *; lia].
    eapply reaches_continue; [|apply reaches_refl]. rewrite multi_a_node. unfold multi_a_turn.
    cbn [n_evaluated n_satisfied]. rewrite (proj2 (Nat.eqb_eq i (Threshold.n thresh))) by done.
    by rewrite Nat.add_0_r.
  - apply drop_cons_inv in Hd as (Hpk & Hd & Hlt).
    assert ((i =? Threshold.n thresh) = false) as Hne
      by (apply Nat.eqb_neq; unfold Threshold.n, Threshold.data in *; lia).
    rewrite sum_by_cons, Nat.add_assoc. cbn [map app].
    assert (i + 1 <= Threshold.n thresh) by (unfold Threshold.n, Threshold.data in *; lia).
    destruct b; cbn [good_item Nat.b2n] in *.
    + destruct Hg as [He [ks Hv]]. eapply reaches_return; [|by apply IH].
      rewrite multi_a_node. unfold multi_a_turn. cbn [n_evaluated n_satisfied ns_node].
      rewrite Hne, Hpk, He. cbn. by rewrite Hv.
    + subst v. rewrite Nat.add_0_r. eapply reaches_continue; [|by apply IH].
      rewrite multi_a_node. unfold multi_a_turn. cbn [n_evaluated n_satisfied ns_node].
      by rewrite Hne, Hpk.
Qed.

Lemma evals_multi_a bs vs :
  Forall3 good_item (Threshold.data thresh) bs vs ->
  evals nd (rev vs) [boolean (sum_by Nat.b2n bs =? Threshold.k thresh)].
Proof.
  intros H state rest. unfold stack_of. rewrite map_rev, rev_involutive. cbn [app].
  apply (multi_a_loop (Threshold.data thresh) bs vs 0 0); [lia | apply drop_0 | done].
Qed.
End MultiA.

Section Multi.
Context (nd : Script) (thresh : Threshold (Pk (MiniscriptKey := BitcoinKey_key)))
  (Hn : node nd = Terminal.Multi thresh).

Lemma multi_node i cnt state stack :
  node_turn (mkNode nd i cnt) state stack
  = multi_turn verify_sig (mkNode nd i cnt) thresh state stack.
Proof. destruct nd as [n t e]. cbn [node] in Hn. by subst n. Qed.

(** The key that the turn compares with the next signature. *)
Lemma key_from_end_rev i (pk : BitcoinKey) todo :
  drop i (rev (Threshold.data thresh)) = pk :: todo ->
  key_from_end thresh i = Some pk /\ drop (i + 1) (rev (Threshold.data thresh)) = todo
  /\ i < Threshold.n thresh.
Proof.
  plain_keys. intros H. apply drop_cons_inv in H as (Hpk & Hd & Hlt). rewrite length_rev in Hlt.
  split_and!; [|done | done]. unfold key_from_end, Threshold.n. fold (Threshold.data thresh).
  rewrite (proj2 (Nat.ltb_lt _ _)) by done.
  rewrite rev_alt in Hpk. fold (reverse (Threshold.data thresh)) in Hpk.
  rewrite reverse_lookup in Hpk by done. rewrite <- Hpk. f_equal. lia.
Qed.

(** The turn that compares a signature with a key. *)
Lemma multi_compare i cnt (pk : BitcoinKey) todo v stack state :
  drop i (rev (Threshold.data thresh)) = pk :: todo -> cnt <> Threshold.k thresh ->
  (i = 0 -> Threshold.k thresh <= length stack) ->
  node_turn (mkNode nd i cnt) state (Push v :: stack)
  = multi_key_turn verify_sig (mkNode nd i cnt) (Some pk) state (Push v :: stack).
Proof.
  intros (Hpk & _ & Hlt)%key_from_end_rev Hc Hl. plain_keys. rewrite multi_node. unfold multi_turn.
  cbn [n_evaluated n_satisfied]. destruct (Nat.eqb_spec i 0) as [->|].
  - cbn [length]. destruct (Nat.ltb_spec (S (length stack)) (Threshold.k thresh + 1)); [lia|].
    by rewrite Hpk.
  - rewrite (proj2 (Nat.eqb_neq cnt (Threshold.k thresh))) by lia.
    rewrite (proj2 (Nat.eqb_neq i (Threshold.n thresh))) by lia. by rewrite Hpk.
Qed.

(** The signatures left match keys left, in order; the interpreter gives each
    signature to the first key that accepts it. *)
Lemma multi_loop todo sel vs i cnt state rest :
  1 <= Threshold.k thresh -> drop i (rev (Threshold.data thresh)) = todo ->
  sublist sel todo -> Forall2 good_sig sel vs -> cnt + length vs = Threshold.k thresh ->
  (i = 0 -> cnt = 0) ->
  reaches (mkNode nd i cnt :: state) (map element_from vs ++ Dissatisfied :: rest)
    state (Satisfied :: rest).
Proof.
  plain_keys. intros Hk. revert sel vs i cnt.
  induction todo as [|pk todo IH]; intros sel vs i cnt Hd Hsub Hf Hc H0; destruct vs as [|v vs].
  2: { apply sublist_nil_r in Hsub as ->. inversion Hf. }
  1, 2: simpl in Hc; eapply reaches_continue; [|apply reaches_refl]; rewrite multi_node;
    unfold multi_turn; cbn [n_evaluated n_satisfied]; rewrite (proj2 (Nat.eqb_neq i 0)) by lia;
    by rewrite (proj2 (Nat.eqb_eq cnt (Threshold.k thresh))) by lia.
  inversion Hf as [|pk' ? sel' ? [He Hg] Hf']; subst. simpl in Hc. cbn [map app]. rewrite He.
  pose proof (fun v stack => multi_compare i cnt pk todo v stack state Hd ltac:(plain_keys; lia)) as Ht. plain_keys.
  assert (i = 0 -> Threshold.k thresh <= length (map element_from vs ++ Dissatisfied :: rest)) as Hl
    by (rewrite length_app, length_map; simpl; lia).
  apply key_from_end_rev in Hd as (_ & Hd & Hlt). plain_keys.
  destruct (verify_sersig verify_sig pk v) as [ks|e] eqn:Ev.
  - eapply reaches_return; [rewrite Ht by done; cbn; rewrite Ev; reflexivity|].
    apply (IH sel'); [done | | done | lia | lia].
    apply sublist_cons_r in Hsub as [Hsub|(? & [= -> ->] & Hsub)]; [|done].
    etransitivity; [|exact Hsub]. by apply sublist_cons.
  - eapply reaches_continue; [rewrite Ht by done; cbn; rewrite Ev; reflexivity|].
    rewrite <- He. change (element_from v :: map element_from vs ++ Dissatisfied :: rest)
      with (map element_from (v :: vs) ++ Dissatisfied :: rest).
    apply (IH (pk' :: sel')); [done | | by constructor | simpl; lia | lia].
    apply sublist_cons_r in Hsub as [Hsub|(? & [= -> ->] & Hsub)]; [done|].
    destruct Hg as [ks Hg]. congruence.
Qed.

Lemma evals_multi sel vs :
  1 <= Threshold.k thresh -> sublist sel (rev (Threshold.data thresh)) -> Forall2 good_sig sel vs ->
  length vs = Threshold.k thresh -> evals nd ([] :: rev vs) [Satisfied].
Proof.
  intros Hk Hsub Hf Hl state rest. unfold stack_of. cbn [map rev].
  rewrite map_rev, rev_involutive, <- app_assoc. cbn [app].
  by apply (multi_loop (rev (Threshold.data thresh)) sel).
Qed.

Lemma evals_multi_dissat :
  1 <= Threshold.k thresh -> evals nd (repeat [] (Threshold.k thresh + 1)) [Dissatisfied].
Proof.
  intros Hk state rest. unfold stack_of.
  rewrite map_repeat, rev_repeat. change (element_from []) with Dissatisfied.
  eapply reaches_continue; [|apply reaches_refl].
  rewrite multi_node. unfold multi_turn. cbn [n_evaluated Nat.eqb].
  plain_keys. set (n := Threshold.k thresh + 1). rewrite length_app, repeat_length.
  destruct (Nat.ltb_spec (n + length rest) n); [lia|].
  assert (take n (repeat Dissatisfied n ++ rest) = repeat Dissatisfied n) as ->
    by (rewrite take_app_length'; by rewrite ?repeat_length).
  assert (drop n (repeat Dissatisfied n ++ rest) = rest) as ->
    by (rewrite drop_app_length'; by rewrite ?repeat_length).
  rewrite filter_repeat, repeat_length, Nat.eqb_refl by done. unfold n. rewrite Nat.add_1_r. done.
Qed.
End Multi.
End Runs.
