(* ===== verification/Accept.v ===== *)
(** The satisfier against the interpreter: every witness that the satisfier
    completes for a well-typed Miniscript makes the interpreter accept the script
    of that Miniscript, in a transaction for which the satisfier answers
    truthfully. *)
From S2P Require Import Prelude Bitcoin Primitives Reference Ord Correctness Malleability Types ExtData Tree StackLoop Ast Context Samples Views Encode Satisfy WitSpec Shape Translate Interp InterpProps InterpRuns.

(** * Lists, reversed *)

Lemma sublist_rev {A} (l k : list A) : sublist l k -> sublist (rev l) (rev k).
Proof.
  induction 1 as [|x l k _ IH|x l k _ IH]; simpl; [constructor | by apply sublist_app|].
  rewrite <- (app_nil_r (rev l)). apply sublist_app; [done | apply sublist_nil_l].
Qed.

Lemma Forall2_rev {A C} (R : A -> C -> Prop) l k : Forall2 R l k -> Forall2 R (rev l) (rev k).
Proof. induction 1; simpl; [constructor | apply Forall2_app; [done | by constructor]]. Qed.

Lemma Forall3_rev {A C D} (R : A -> C -> D -> Prop) l k m :
  Forall3 R l k m -> Forall3 R (rev l) (rev k) (rev m).
Proof. induction 1; simpl; [constructor | apply Forall3_app; [done | by repeat constructor]]. Qed.

Lemma sum_by_rev {A} (f : A -> nat) l : sum_by f (rev l) = sum_by f l.
Proof. induction l as [|a l IH]; [done|]. simpl. rewrite sum_by_app, !sum_by_cons, IH. change (sum_by f []) with 0. lia. Qed.

(** * The script of a Miniscript *)

Section Script.
Context {B : Bitcoin} {Sp : Spending} {Pa : Parsing} {K : MiniscriptKey} {TP : ToPublicKey K}.
Context (ctx : ScriptContext).

(** The key that the script contains for a key of the Miniscript. *)
Definition script_key (pk : Pk) : Pk (MiniscriptKey := BitcoinKey_key) :=
  match sig_type ctx with
  | Ecdsa => Fullkey (to_public_key pk)
  | Schnorr => XOnly (to_x_only_pubkey pk)
  end.

Definition script_translator : Translator K BitcoinKey_key Empty_set :=
  mkTranslator (Q := BitcoinKey_key) (fun pk => Ok (script_key pk)) (fun h => Ok (to_sha256 h))
    (fun h => Ok (to_hash256 h)) (fun h => Ok (to_ripemd160 h)) (fun h => Ok (to_hash160 h)).

#[export] Instance script_translator_infallible : Infallible script_translator.
Proof. constructor; intros; eexists; reflexivity. Qed.

(** A script of a Miniscript that the interpreter may be given: its translation, except that
    the decoder reads [pk_h(K)] as a key hash. *)
#[warnings="-register-all"]
Inductive script_of : Miniscript -> Miniscript (K := BitcoinKey_key) -> Prop :=
| script_translated ms s subs :
    Forall2 script_of (children ms) subs ->
    translate_term script_translator (node ms) subs = Some (Ok (node s), []) ->
    script_of ms s
| script_hashed ms s pk :
    node ms = Terminal.PkH pk -> node s = Terminal.RawPkH (to_pubkeyhash pk (sig_type ctx)) ->
    script_of ms s.

Lemma collect_pure {E T U} (f : T -> U) l :
  Threshold.collect (E := E) (fun a => Ok (f a)) l = Ok (map f l).
Proof. induction l as [|a l IH]; [done|]. simpl. by rewrite IH. Qed.

Lemma translated_script ms s : translate NoChecks script_translator ms = Ok s -> script_of ms s.
Proof.
  revert s. induction ms as [ms IH] using tree_ind. intros s (subs & Hs & Hn & _)%translate_inv.
  apply (script_translated ms s subs); [|done].
  clear Hn. revert subs Hs. induction IH as [|c cs Hc _ IHc]; intros [|sub subs] Hs; try done.
  injection Hs as Hcs Hs. constructor; auto.
Qed.

(** The node of a script, from the scripts of the children. *)
Lemma script_view ms s :
  script_of ms s -> (forall pk, node ms <> Terminal.PkH pk) ->
  exists subs, Forall2 script_of (children ms) subs
    /\ translate_term script_translator (node ms) subs = Some (Ok (node s), []).
Proof. intros [ms' s' subs Hs Hn|ms' s' pk Hn _] Hk; [by exists subs | by destruct (Hk pk)]. Qed.

Lemma script_pk_h_view pk t e s :
  script_of (mkMiniscript (Terminal.PkH pk) t e) s ->
  node s = Terminal.PkH (script_key pk) \/ node s = Terminal.RawPkH (to_pubkeyhash pk (sig_type ctx)).
Proof.
  intros H. inversion H as [ms' s' subs Hs Hn|ms' s' pk' Hn Hh]; subst.
  - rewrite children_node in Hs. inversion Hs; subst. cbn in Hn. left. by injection Hn.
  - injection Hn as <-. by right.
Qed.

Lemma script_thresh_view thresh t e s :
  script_of (mkMiniscript (Terminal.Thresh thresh) t e) s ->
  exists subs, Forall2 script_of (Threshold.data thresh) subs
    /\ node s = Terminal.Thresh (mkThreshold (Threshold.k thresh) subs).
Proof.
  intros (subs & Hs & Hn)%script_view; [|done]. exists subs. rewrite children_node in Hs. cbn in Hs.
  split; [exact Hs|]. cbn [translate_term node] in Hn. apply Forall2_length in Hs as Hl.
  unfold Threshold.n, Threshold.data in *. rewrite Hl in Hn.
  pose proof (pop_n_app subs []) as Hp. rewrite app_nil_r in Hp. rewrite Hp in Hn. by injection Hn.
Qed.

Lemma script_multi_view thresh t e s :
  script_of (mkMiniscript (Terminal.Multi thresh) t e) s ->
  node s = Terminal.Multi (mkThreshold (Threshold.k thresh) (map script_key (Threshold.data thresh))).
Proof.
  intros (subs & Hs & Hn)%script_view; [|done]. rewrite children_node in Hs. inversion Hs; subst.
  cbn [translate_term node] in Hn. unfold Threshold.translate in Hn. cbn [tr_pk script_translator] in Hn.
  rewrite collect_pure in Hn. by injection Hn.
Qed.

Lemma script_multi_a_view thresh t e s :
  script_of (mkMiniscript (Terminal.MultiA thresh) t e) s ->
  node s = Terminal.MultiA (mkThreshold (Threshold.k thresh) (map script_key (Threshold.data thresh))).
Proof.
  intros (subs & Hs & Hn)%script_view; [|done]. rewrite children_node in Hs. inversion Hs; subst.
  cbn [translate_term node] in Hn. unfold Threshold.translate in Hn. cbn [tr_pk script_translator] in Hn.
  rewrite collect_pure in Hn. by injection Hn.
Qed.
End Script.

(** Opens a script whose node has a fixed number of children. *)
Ltac open_script H :=
  let subs := fresh "subs" in let Hs := fresh "Hs" in let Hn := fresh "Hn" in
  destruct (script_view _ _ _ H ltac:(discriminate)) as (subs & Hs & Hn); rewrite children_node in Hs;
  cbn [node terminal_children terminal_as_node] in Hs, Hn;
  repeat match goal with
  | Hf : Forall2 (script_of _) (_ :: _) _ |- _ =>
      let s := fresh "s" in let Hsub := fresh "Hsub" in
      apply Forall2_cons_inv_l in Hf as (s & ? & Hsub & Hf & ->)
  | Hf : Forall2 (script_of _) [] _ |- _ => apply Forall2_nil_inv_l in Hf as ->
  end;
  cbn in Hn; injection Hn as Hn; symmetry in Hn.

(** * Satisfiers and transactions *)

Section Accept.
Context {B : Bitcoin} {Sp : Spending} {Pa : Parsing} {K : MiniscriptKey} {TP : ToPublicKey K}.
Context {PL : ParsingLaws Pa} {L : LockTimeLaws B} {SL : SizeLaws B} {S : Satisfier}.
Context (ctx : ScriptContext) (leaf_hash : TapLeafHash).
Context (verify_sig : KeySigPair -> bool) (sequence : Sequence) (lock_time : LockTime)
  (tx_template : option sha256_Hash).

Abbreviation evals := (evals verify_sig sequence lock_time tx_template (sig_type ctx)).
Abbreviation script_key := (script_key ctx).
Abbreviation script_of := (script_of ctx).

(** What the satisfier offers is valid in the transaction that is spent in:
    signatures verify, the keys for raw key hashes have them, one for each hash, preimages have
    32 bytes and the right hash, timelocks are implied by the fields of the transaction. *)
Class Truthful : Prop := {
  truthful_ecdsa : forall pk s, lookup_ecdsa_sig pk = Some s ->
    verify_sig (KeySigEcdsa (to_public_key pk) s) = true;
  truthful_schnorr : forall pk s, lookup_tap_leaf_script_sig pk leaf_hash = Some s ->
    verify_sig (KeySigSchnorr (to_x_only_pubkey pk) s) = true;
  truthful_raw_pkh_sig : forall h pk s, lookup_raw_pkh_ecdsa_sig h = Some (pk, s) ->
    hash160_hash (PublicKey_to_bytes pk) = h /\ verify_sig (KeySigEcdsa pk s) = true
    /\ forall pk', lookup_raw_pkh_pk h = Some pk' -> pk' = pk;
  truthful_raw_pkh_pk : forall h pk, lookup_raw_pkh_pk h = Some pk -> hash160_hash (PublicKey_to_bytes pk) = h;
  truthful_sha256 : forall h p, lookup_sha256 h = Some p ->
    length p = 32 /\ sha256_hash p = to_sha256 h;
  truthful_hash256 : forall h p, lookup_hash256 h = Some p ->
    length p = 32 /\ hash256_hash p = to_hash256 h;
  truthful_ripemd160 : forall h p, lookup_ripemd160 h = Some p ->
    length p = 32 /\ ripemd160_hash p = to_ripemd160 h;
  truthful_hash160 : forall h p, lookup_hash160 h = Some p ->
    length p = 32 /\ hash160_hash p = to_hash160 h;
  truthful_older : forall n, check_older n = true ->
    exists lt, Sequence_to_relative_lock_time sequence = Some lt
      /\ RelativeLockTime_is_implied_by n lt = true;
  truthful_after : forall n, check_after n = true -> LockTime_is_implied_by n lock_time = true;
  truthful_tx_template : forall h, check_tx_template h = true -> tx_template = Some h;
}.

(** The preimage that hash fragments are dissatisfied with. *)
Definition zeros : bytes := repeat Byte.x00 32.

(** No raw key hash in a tapscript, where the code completes it with a key of the wrong kind,
    and no hash whose preimage is the dissatisfaction. *)
Definition supported_node (ms : Miniscript) : Prop :=
  match node ms with
  | Terminal.RawPkH _ => sig_type ctx = Ecdsa
  | Terminal.Sha256 h => sha256_hash zeros <> to_sha256 h
  | Terminal.Hash256 h => hash256_hash zeros <> to_hash256 h
  | Terminal.Ripemd160 h => ripemd160_hash zeros <> to_ripemd160 h
  | Terminal.Hash160 h => hash160_hash zeros <> to_hash160 h
  | _ => True
  end.

Definition supported (ms : Miniscript) : Prop := Forall supported_node (pre_order ms).

Lemma supported_inv ms : supported ms -> supported_node ms /\ Forall supported (children ms).
Proof.
  unfold supported. rewrite pre_order_eq. intros [H Hc]%Forall_cons_1. split; [done|].
  clear H. induction (children ms) as [|c cs IH]; [constructor|].
  simpl in Hc. apply Forall_app in Hc as [? ?]. constructor; auto.
Qed.

(** The completion of a template, element by element. *)
Definition completes : list Placeholder -> list bytes -> Prop :=
  Forall2 (fun p v => satisfy_self p = Some v).

Context {T : Truthful}.

(** * Leaves *)

Lemma completes_one p w : completes [p] w -> exists v, w = [v] /\ satisfy_self p = Some v.
Proof. intros (v & l & Hv & ->%Forall2_nil_inv_l & ->)%Forall2_cons_inv_l. eauto. Qed.

Lemma completes_app w1 w2 bs :
  completes (w1 ++ w2) bs ->
  exists b1 b2, completes w1 b1 /\ completes w2 b2 /\ bs = b1 ++ b2.
Proof. apply Forall2_app_inv_l. Qed.

Lemma completes_zero w : completes [Placeholder.PushZero] w -> w = [[]].
Proof. intros (v & -> & [= <-])%completes_one. done. Qed.

Lemma signature_good pk w bs :
  signature ctx leaf_hash pk = Witness.Stack w -> completes w bs ->
  exists v, bs = [v] /\ good_sig verify_sig (script_key pk) v.
Proof.
  unfold signature, good_sig, Accept.script_key. destruct (sig_type ctx); cbn.
  - destruct (lookup_ecdsa_sig pk) as [s|] eqn:E; [|done].
    intros [= <-] (v & -> & Hv)%completes_one. cbn in Hv. rewrite E in Hv. injection Hv as <-.
    eexists. split; [done|]. split; [apply element_from_long, EcdsaSignature_len|].
    cbn. rewrite EcdsaSignature_roundtrip. cbn. rewrite (truthful_ecdsa pk s E). eauto.
  - destruct (lookup_tap_leaf_script_sig pk leaf_hash) as [s|] eqn:E; [|done].
    intros [= <-] (v & -> & Hv)%completes_one. cbn in Hv. rewrite E in Hv. injection Hv as <-.
    eexists. split; [done|]. split; [apply element_from_long, TaprootSignature_len|].
    cbn. rewrite TaprootSignature_roundtrip. cbn. rewrite (truthful_schnorr pk s E). eauto.
Qed.

(** The bytes that a [pkh] template completes to are those its hash commits to. *)
Lemma pubkey_good pk len v :
  pk_len ctx pk = Some len -> satisfy_self (Placeholder.Pubkey pk len) = Some v ->
  bitcoin_key_to_pubkeyhash (script_key pk) (sig_type ctx) = Some (hash160_hash v)
  /\ element_from v = Push v /\ bitcoin_key_from_slice v (sig_type ctx) = Some (script_key pk).
Proof.
  assert (forall k, element_from (PublicKey_to_bytes k) = Push (PublicKey_to_bytes k)) as He.
  { intros k. apply element_from_long. rewrite PublicKey_size. destruct (PublicKey_compressed k); lia. }
  unfold Accept.script_key. destruct ctx; cbn; intros [= <-]; try destruct (is_uncompressed pk);
    cbn; intros [= <-]; rewrite ?PublicKey_roundtrip, ?XOnlyPublicKey_roundtrip; split_and!; auto.
  all: apply element_from_long; rewrite XOnlyPublicKey_size; lia.
Qed.

Lemma long_nonempty {A} (v : list A) : 2 <= length v -> v <> [].
Proof. destruct v; simpl; [lia | done]. Qed.

Lemma nonzero_push_element p v :
  nonzero_push p = true -> satisfy_self p = Some v -> element_from v <> Dissatisfied.
Proof.
  intros Hp Hv. assert (v <> []) as Hne.
  { destruct p as [pk n|h n|pk|h|pk [m|lh] n|h lh n|h|h|h|h| | | |s|cb]; try done; cbn in Hv.
    - destruct (n =? 33); injection Hv as <-; intros H%(f_equal length).
      + by rewrite XOnlyPublicKey_size in H.
      + rewrite PublicKey_size in H. by destruct (PublicKey_compressed _).
    - destruct (or_else _ _) as [k|]; [|done]. injection Hv as <-. intros H%(f_equal length).
      rewrite PublicKey_size in H. by destruct (PublicKey_compressed _).
    - destruct (lookup_ecdsa_sig pk) as [s|]; [|done]. injection Hv as <-.
      apply long_nonempty, EcdsaSignature_len.
    - destruct (lookup_raw_pkh_ecdsa_sig h) as [[k s]|]; [|done]. injection Hv as <-.
      apply long_nonempty, EcdsaSignature_len.
    - destruct (lookup_tap_key_spend_sig pk) as [s|]; [|done]. injection Hv as <-.
      apply long_nonempty, TaprootSignature_len.
    - destruct (lookup_tap_leaf_script_sig pk lh) as [s|]; [|done]. injection Hv as <-.
      apply long_nonempty, TaprootSignature_len.
    - destruct (lookup_raw_pkh_tap_leaf_script_sig _) as [[k s]|]; [|done]. injection Hv as <-.
      apply long_nonempty, TaprootSignature_len.
    - apply truthful_sha256 in Hv as [Hv _]. by destruct v.
    - apply truthful_hash256 in Hv as [Hv _]. by destruct v.
    - apply truthful_ripemd160 in Hv as [Hv _]. by destruct v.
    - apply truthful_hash160 in Hv as [Hv _]. by destruct v.
    - by injection Hv as <-.
    - by injection Hv as <-. }
  unfold element_from. destruct (bool_decide _); [done|]. by destruct v.
Qed.

(** * Whole trees *)

(** What evaluating a fragment leaves on the stack. *)
Definition result_of (b : bool) (ms : Miniscript) : Stack :=
  match base_of ms with BaseV => [] | _ => [boolean b] end.

(** Of threshold children. *)
Definition accepted_children (bs : list bool) (mss : list Miniscript) (ws : list (list Placeholder))
  : Prop :=
  forall subs vs, Forall (wf ctx) mss -> Forall supported mss -> Forall2 script_of mss subs ->
    Forall2 completes ws vs -> Forall (fun ms => base_of ms = BaseB \/ base_of ms = BaseW) mss ->
    Forall3 (child_evals verify_sig sequence lock_time tx_template (sig_type ctx)) bs subs vs.

Definition accepted (b : bool) (ms : Miniscript) (w : list Placeholder) : Prop :=
  forall s bs, wf ctx ms -> supported ms -> script_of ms s -> completes w bs ->
    evals s bs (result_of b ms).

Lemma completes_concat (ws : list (list Placeholder)) bs :
  completes (concat (rev ws)) bs ->
  exists vs, Forall2 completes ws vs /\ bs = concat (rev vs).
Proof.
  unfold completes. revert bs. induction ws as [|w ws IH]; intros bs H; simpl in H.
  - apply Forall2_nil_inv_l in H as ->. by exists [].
  - rewrite concat_app in H. cbn [concat] in H. rewrite app_nil_r in H.
    apply Forall2_app_inv_l in H as (b1 & b2 & (vs & Hv & ->)%IH & H2 & ->).
    exists (b2 :: vs). split; [by constructor|]. simpl. rewrite concat_app. simpl.
    by rewrite app_nil_r.
Qed.

Lemma signatures_good pks ws bs :
  Forall2 (fun pk w => signature ctx leaf_hash pk = Witness.Stack w) pks ws ->
  completes (concat ws) bs -> Forall2 (good_sig verify_sig) (map script_key pks) bs.
Proof.
  intros H. revert bs. induction H as [|pk w pks ws Hs H IH]; intros bs Hb; simpl in *.
  - apply Forall2_nil_inv_l in Hb as ->. constructor.
  - apply Forall2_app_inv_l in Hb as (b1 & b2 & Hb1 & Hb2%IH & ->).
    destruct (signature_good _ _ _ Hs Hb1) as (v & -> & Hg). by constructor.
Qed.

Lemma items_good pks chosen ws bs :
  Forall3 (multi_a_item ctx leaf_hash) pks chosen ws -> completes (concat ws) bs ->
  Forall3 (good_item verify_sig) (map script_key pks) chosen bs.
Proof.
  intros H. revert bs. induction H as [|pk b w pks chosen ws Hi H IH]; intros bs Hb; simpl in *.
  - apply Forall2_nil_inv_l in Hb as ->. constructor.
  - apply Forall2_app_inv_l in Hb as (b1 & b2 & Hb1 & Hb2%IH & ->). destruct b; simpl in Hi.
    + destruct (signature_good _ _ _ Hi Hb1) as (v & -> & Hg). by constructor.
    + subst w. apply completes_zero in Hb1 as ->. by constructor.
Qed.

(** Opens the typing and the support of the node at hand, and its script. *)
Ltac open_typing :=
  lazymatch goal with
  | Hwf : wf ctx (mkMiniscript _ _ _), Hsup : supported (mkMiniscript _ _ _) |- _ =>
      let Hw := fresh "Hw" in let Hview := fresh "Hview" in let Hp := fresh "Hp" in
      let Hq := fresh "Hq" in let Hv := fresh "Hv" in
      destruct (wf_view ctx _ _ _ Hwf) as (Hw & Hv & Hview); forall_children Hw;
      cbn [corr_view] in Hview; destruct_and? Hview;
      destruct (supported_inv _ Hsup) as [Hp Hq]; rewrite children_node in Hq;
      unfold supported_node in Hp; cbn [node] in Hp, Hq; forall_children Hq
  end.

Ltac open_node Hs := open_typing; open_script Hs.

(** Replaces the bases of the children and of the node by what the rules say. *)
Ltac bases :=
  unfold result_of, base_of, corr_of in *; cbn [ty] in *;
  repeat match goal with
  | H : corr ?t = _ |- context [corr ?t] => rewrite H
  | H : c_base ?x = ?y, H' : context [c_base ?x] |- _ =>
      lazymatch type of H' with c_base x = y => fail | _ => rewrite H in H' end
  | H : c_base ?x = _ |- context [c_base ?x] => rewrite H
  end.

(** Splits the completion of a concatenation. *)
Ltac split_bytes Hb :=
  let b1 := fresh "b1" in let b2 := fresh "b2" in let Hb1 := fresh "Hb1" in let Hb2 := fresh "Hb2" in
  apply completes_app in Hb as (b1 & b2 & Hb1 & Hb2 & ->).

(** Applies the induction hypotheses. *)
Ltac use_children :=
  repeat match goal with
  | IH : accepted _ ?ms _, Hw : wf ctx ?ms, Hp : supported ?ms, Hs : script_of ?ms ?s,
      Hb : completes ?w ?bs |- _ =>
      lazymatch type of IH with accepted _ ms w => specialize (IH s bs Hw Hp Hs Hb) end
  end.

(** ** One lemma per composed fragment *)

Ltac accept Hs Hb := intros s bs Hwf Hsup Hs Hb; open_node Hs; try split_bytes Hb; use_children; bases.

(** The wrappers whose evaluation is that of the fragment they wrap. *)
Definition transparent (term : Terminal Miniscript) : option Miniscript :=
  match term with
  | Terminal.InscribePre _ sub | Terminal.InscribePost _ sub | Terminal.Alt sub
  | Terminal.Swap sub | Terminal.Check sub => Some sub
  | _ => None
  end.

Lemma accepted_transparent b term sub w t e :
  transparent term = Some sub -> accepted b sub w -> accepted b (mkMiniscript term t e) w.
Proof.
  intros Hsub IH s bs Hwf Hsup Hs Hb. destruct term; try done; injection Hsub as Hsub; subst;
    open_node Hs; use_children; bases; (eapply evals_transparent; [|done]); eauto 10.
Qed.

Lemma accepted_verify sub w t e :
  accepted true sub w -> accepted true (mkMiniscript (Terminal.Verify sub) t e) w.
Proof. intros IH s bs Hwf Hsup Hs Hb. open_node Hs. use_children. bases. by eapply evals_verify. Qed.

Lemma accepted_zero_not_equal b sub w t e :
  accepted b sub w -> accepted b (mkMiniscript (Terminal.ZeroNotEqual sub) t e) w.
Proof.
  intros IH s bs Hwf Hsup Hs Hb. open_node Hs. use_children. bases. by eapply evals_zero_not_equal.
Qed.

Lemma accepted_non_zero sub w t e :
  accepted true sub w -> (wf ctx sub -> nonzero (input_of sub) = true -> top_nonzero w) ->
  accepted true (mkMiniscript (Terminal.NonZero sub) t e) w.
Proof.
  intros IH Htop s bs Hwf Hsup Hs Hb. open_node Hs. use_children.
  assert (nonzero (input_of sub) = true) as Hnz.
  { match goal with H : _ \/ _ |- _ => by destruct H as [->| ->] end. }
  destruct (Htop ltac:(done) Hnz) as (w' & p & -> & Hpush). split_bytes Hb.
  apply completes_one in Hb2 as (v & -> & Hval). bases.
  eapply evals_non_zero; [done | by rewrite stack_of_app | | done].
  by eapply nonzero_push_element.
Qed.

Lemma accepted_wrapper (b : bool) term sub w t e :
  (if b then sat_wrapper term else dissat_wrapper term) = Some sub -> accepted b sub w ->
  (b = true -> wf ctx sub -> nonzero (input_of sub) = true -> top_nonzero w) ->
  accepted b (mkMiniscript term t e) w.
Proof.
  intros Hsub IH Htop.
  destruct b, term; try done; injection Hsub as Hsub; subst;
    first [by eapply accepted_transparent | by apply accepted_verify
          | by apply accepted_zero_not_equal | apply accepted_non_zero; auto].
Qed.

Lemma accepted_and_v b l r wl wr t e :
  accepted true l wl -> accepted b r wr ->
  accepted b (mkMiniscript (Terminal.AndV l r) t e) (wr ++ wl).
Proof. intros IHl IHr. accept Hs Hb. by eapply evals_and_v. Qed.

Lemma accepted_and_b bl br l r wl wr t e :
  accepted bl l wl -> accepted br r wr -> bl = br ->
  accepted bl (mkMiniscript (Terminal.AndB l r) t e) (wr ++ wl).
Proof.
  intros IHl IHr <-. accept Hs Hb.
  replace (boolean bl) with (boolean (bl && bl)) by (by destruct bl). by eapply evals_and_b.
Qed.

Lemma accepted_or_b bl br l r wl wr t e :
  accepted bl l wl -> accepted br r wr ->
  accepted (bl || br) (mkMiniscript (Terminal.OrB l r) t e) (wr ++ wl).
Proof. intros IHl IHr. accept Hs Hb. by eapply evals_or_b. Qed.

Lemma accepted_or_d_left l r wl t e :
  accepted true l wl -> accepted true (mkMiniscript (Terminal.OrD l r) t e) wl.
Proof. intros IHl s bs Hwf Hsup Hs Hb. open_node Hs. use_children. bases. by eapply evals_or_d_left. Qed.

Lemma accepted_or_d_right b l r wl wr t e :
  accepted false l wl -> accepted b r wr ->
  accepted b (mkMiniscript (Terminal.OrD l r) t e) (wr ++ wl).
Proof. intros IHl IHr. accept Hs Hb. by eapply evals_or_d_right. Qed.

Lemma accepted_or_c_left l r wl t e :
  accepted true l wl -> accepted true (mkMiniscript (Terminal.OrC l r) t e) wl.
Proof. intros IHl s bs Hwf Hsup Hs Hb. open_node Hs. use_children. bases. by eapply evals_or_c_left. Qed.

Lemma accepted_or_c_right b l r wl wr t e :
  accepted false l wl -> accepted b r wr ->
  accepted b (mkMiniscript (Terminal.OrC l r) t e) (wr ++ wl).
Proof. intros IHl IHr. accept Hs Hb. by eapply evals_or_c_right. Qed.

Lemma accepted_or_i_left b l r w t e :
  accepted b l w -> accepted b (mkMiniscript (Terminal.OrI l r) t e) (w ++ [Placeholder.PushOne]).
Proof.
  intros IHl. accept Hs Hb. apply completes_one in Hb2 as (v & -> & [= <-]). by eapply evals_or_i_left.
Qed.

Lemma accepted_or_i_right b l r w t e :
  accepted b r w -> accepted b (mkMiniscript (Terminal.OrI l r) t e) (w ++ [Placeholder.PushZero]).
Proof. intros IHl. accept Hs Hb. apply completes_zero in Hb2 as ->. by eapply evals_or_i_right. Qed.

Lemma accepted_and_or_then x a b c wa wb t e :
  accepted true a wa -> accepted x b wb ->
  accepted x (mkMiniscript (Terminal.AndOr a b c) t e) (wb ++ wa).
Proof. intros IHl IHr. accept Hs Hb. by eapply evals_and_or_then. Qed.

Lemma accepted_and_or_else x a b c wa wc t e :
  accepted false a wa -> accepted x c wc ->
  accepted x (mkMiniscript (Terminal.AndOr a b c) t e) (wc ++ wa).
Proof. intros IHl IHr. accept Hs Hb. by eapply evals_and_or_else. Qed.

Lemma accepted_dup_if sub w t e :
  accepted true sub w ->
  accepted true (mkMiniscript (Terminal.DupIf sub) t e) (w ++ [Placeholder.PushOne]).
Proof.
  intros IHl. accept Hs Hb. apply completes_one in Hb2 as (v & -> & [= <-]). by eapply evals_dup_if.
Qed.

(** ** Leaves *)

Ltac leaf Hs Hb := intros s bs Hwf Hsup Hs Hb; open_node Hs; bases.

(** The node of a script of [pk_h]. *)
Lemma script_key_hash pk : bitcoin_key_to_pubkeyhash (script_key pk) (sig_type ctx) = Some (to_pubkeyhash pk (sig_type ctx)).
Proof. unfold Accept.script_key. by destruct ctx. Qed.

Lemma pk_h_evaluates pk t e s h :
  script_of (mkMiniscript (Terminal.PkH pk) t e) s ->
  bitcoin_key_to_pubkeyhash (script_key pk) (sig_type ctx) = Some h ->
  forall state stack,
    node_turn verify_sig sequence lock_time tx_template (sig_type ctx) (mkNode s 0 0) state stack
    = report (evaluate_pkh verify_sig h (sig_type ctx) stack) state.
Proof.
  intros [Hn|Hn]%script_pk_h_view Hh state stack.
  - by apply (pk_h_turn _ _ _ _ _ _ (script_key pk)).
  - apply raw_pk_h_turn. rewrite script_key_hash in Hh. by injection Hh as <-.
Qed.

Lemma accepted_pk_h pk w len t e :
  signature ctx leaf_hash pk = Witness.Stack w -> pk_len ctx pk = Some len ->
  accepted true (mkMiniscript (Terminal.PkH pk) t e) (w ++ [Placeholder.Pubkey pk len]).
Proof.
  intros Hsig Hlen s bs Hwf Hsup Hs Hb. open_typing. bases. split_bytes Hb.
  destruct (signature_good _ _ _ Hsig Hb1) as (v & -> & Hg).
  apply completes_one in Hb2 as (k & -> & Hk). destruct (pubkey_good _ _ _ Hlen Hk) as (H1 & H2 & H3).
  apply (evals_pk_h _ _ _ _ _ _ (script_key pk)); [|done..]. by apply (pk_h_evaluates pk t e).
Qed.

Lemma accepted_pk_h_dissat pk len t e :
  pk_len ctx pk = Some len ->
  accepted false (mkMiniscript (Terminal.PkH pk) t e) [Placeholder.PushZero; Placeholder.Pubkey pk len].
Proof.
  intros Hlen s bs Hwf Hsup Hs Hb. open_typing. bases.
  apply (completes_app [_] [_]) in Hb as (b1 & b2 & Hb1 & Hb2 & ->).
  apply completes_zero in Hb1 as ->. apply completes_one in Hb2 as (k & -> & Hk).
  destruct (pubkey_good _ _ _ Hlen Hk) as (H1 & H2 & H3).
  apply (evals_pk_h_dissat _ _ _ _ _ _ (script_key pk)); [|done..]. by apply (pk_h_evaluates pk t e).
Qed.

(** A raw key hash, with a key that the satisfier knows for it. *)
Lemma raw_key_good h len v :
  satisfy_self (Placeholder.PubkeyHash h len) = Some v ->
  exists k, hash160_hash v = h /\ element_from v = Push v /\ bitcoin_key_from_slice v Ecdsa = Some (Fullkey k)
    /\ forall k' s, lookup_raw_pkh_ecdsa_sig h = Some (k', s) -> k' = k.
Proof.
  cbn [satisfy_self]. intros (k & Hk & ->)%fmap_Some. exists k.
  assert (hash160_hash (PublicKey_to_bytes k) = h
    /\ forall k' s, lookup_raw_pkh_ecdsa_sig h = Some (k', s) -> k' = k) as [Hh Hu].
  { unfold or_else in Hk. destruct (lookup_raw_pkh_pk h) as [k0|] eqn:E.
    - injection Hk as ->. split; [by apply truthful_raw_pkh_pk|].
      intros k' s Hs. symmetry. by eapply truthful_raw_pkh_sig.
    - apply fmap_Some in Hk as ([k0 s0] & Hs & ->). split; [by eapply truthful_raw_pkh_sig|].
      intros k' s Hs'. rewrite Hs in Hs'. by injection Hs' as <-. }
  split_and!; [done | | cbn; by rewrite PublicKey_roundtrip | done].
  apply element_from_long. rewrite PublicKey_size. destruct (PublicKey_compressed k); lia.
Qed.

Lemma accepted_raw_pk_h h w t e :
  pkh_signature ctx leaf_hash h = Some (Witness.Stack w) ->
  accepted true (mkMiniscript (Terminal.RawPkH h) t e) w.
Proof.
  intros Hsig. leaf Hs Hb. unfold pkh_signature in Hsig. rewrite Hp in *.
  destruct (provider_lookup_raw_pkh_ecdsa_sig h) as [pk|]; [|done]. cbn in Hsig.
  destruct (pk_len (K := PublicKey_key) ctx pk) as [len|]; [|done]. injection Hsig as <-.
  apply (completes_app [_] [_]) in Hb as (b1 & b2 & Hb1 & Hb2 & ->).
  apply completes_one in Hb1 as (v & -> & Hval). apply completes_one in Hb2 as (kb & -> & Hk).
  destruct (raw_key_good _ _ _ Hk) as (k & Hh & He & Hf & Hu).
  cbn in Hval. destruct (lookup_raw_pkh_ecdsa_sig h) as [[k' sig]|] eqn:E; [|done]. injection Hval as <-.
  destruct (truthful_raw_pkh_sig _ _ _ E) as (_ & Hsig & _). rewrite (Hu _ _ eq_refl) in Hsig.
  apply (evals_pk_h _ _ _ _ _ _ (Fullkey k)); [|done|done|].
  - intros state stack. rewrite Hh. by apply raw_pk_h_turn.
  - split; [apply element_from_long, EcdsaSignature_len|]. cbn. rewrite EcdsaSignature_roundtrip. cbn. rewrite Hsig. eauto.
Qed.

Lemma accepted_raw_pk_h_dissat h w t e :
  pkh_public_key ctx h = Some (Witness.Stack w) ->
  accepted false (mkMiniscript (Terminal.RawPkH h) t e) (Placeholder.PushZero :: w).
Proof.
  intros Hpk. leaf Hs Hb. unfold pkh_public_key in Hpk. rewrite Hp in *.
  destruct (provider_lookup_raw_pkh_pk h) as [pk|]; [|done]. cbn in Hpk.
  destruct (pk_len (K := PublicKey_key) ctx pk) as [len|]; [|done]. injection Hpk as <-.
  apply (completes_app [_] [_]) in Hb as (b1 & b2 & Hb1 & Hb2 & ->).
  apply completes_zero in Hb1 as ->. apply completes_one in Hb2 as (kb & -> & Hk).
  destruct (raw_key_good _ _ _ Hk) as (k & Hh & He & Hf & _).
  apply (evals_pk_h_dissat _ _ _ _ _ _ (Fullkey k)); [|done|done].
  intros state stack. rewrite Hh. by apply raw_pk_h_turn.
Qed.

Lemma accepted_older n n' t e :
  rel_to_relative n = Some n' -> provider_check_older n' = true ->
  accepted true (mkMiniscript (Terminal.Older n) t e) [].
Proof.
  intros Hn' Hc. leaf Hs Hb. apply Forall2_nil_inv_l in Hb as ->.
  destruct (truthful_older n' Hc) as (lt & Hlt & Hi). by eapply evals_older.
Qed.

Lemma accepted_after n t e :
  provider_check_after (abs_inner n) = true ->
  accepted true (mkMiniscript (Terminal.After n) t e) [].
Proof.
  intros Hc. leaf Hs Hb. apply Forall2_nil_inv_l in Hb as ->.
  by eapply evals_after, truthful_after.
Qed.

Lemma accepted_tx_template h t e :
  provider_check_tx_template h = true ->
  accepted true (mkMiniscript (Terminal.TxTemplate h) t e) [].
Proof.
  intros Hc. leaf Hs Hb. apply Forall2_nil_inv_l in Hb as ->.
  by eapply evals_tx_template, truthful_tx_template.
Qed.

(** The turn of a hash fragment, for the lemmas on preimages. *)
Ltac hash_turn :=
  match goal with Hn : node ?s = _ |- _ =>
    intros; destruct s as [nd_ ? ?]; cbn [node] in Hn; subst nd_; reflexivity end.

Ltac hash_leaf Hb hash lock truth :=
  cbn; match goal with |- (if is_some ?o then _ else _) = _ -> _ =>
    let p := fresh "p" in let E := fresh "E" in
    destruct o as [p|] eqn:E; [|done]; intros [= <-];
    apply completes_one in Hb as (? & -> & Hval); cbn in Hval; rewrite E in Hval; injection Hval as <-;
    apply truth in E as [Hlen E];
    eapply (evals_preimage _ _ _ _ _ hash lock); [hash_turn | exact Hlen | exact E]
  end.

Lemma accepted_hash term w t e :
  preimage term = Some (Witness.Stack w) -> accepted true (mkMiniscript term t e) w.
Proof.
  intros Hpre s bs Hwf Hsup Hs Hb. destruct term; try done; injection Hpre as Hpre; open_node Hs;
    bases; revert Hpre;
    unfold sha256_preimage, hash256_preimage, ripemd160_preimage, hash160_preimage.
  - hash_leaf Hb sha256_hash HashLockSha256 truthful_sha256.
  - hash_leaf Hb hash256_hash HashLockHash256 truthful_hash256.
  - hash_leaf Hb ripemd160_hash HashLockRipemd160 truthful_ripemd160.
  - hash_leaf Hb hash160_hash HashLockHash160 truthful_hash160.
Qed.

Lemma accepted_hash_dissat term w t e :
  preimage term = Some w ->
  accepted false (mkMiniscript term t e) [Placeholder.HashDissatisfaction].
Proof.
  intros Hpre s bs Hwf Hsup Hs Hb. apply completes_one in Hb as (v & -> & [= <-]).
  assert (length zeros = 32) as Hlen by done.
  destruct term; try done; clear Hpre; open_node Hs; bases.
  - eapply (evals_preimage_dissat _ _ _ _ _ sha256_hash HashLockSha256);
      [hash_turn | exact Hlen | exact Hp].
  - eapply (evals_preimage_dissat _ _ _ _ _ hash256_hash HashLockHash256);
      [hash_turn | exact Hlen | exact Hp].
  - eapply (evals_preimage_dissat _ _ _ _ _ ripemd160_hash HashLockRipemd160);
      [hash_turn | exact Hlen | exact Hp].
  - eapply (evals_preimage_dissat _ _ _ _ _ hash160_hash HashLockHash160);
      [hash_turn | exact Hlen | exact Hp].
Qed.

(** ** Thresholds *)

Lemma accepted_thresh (b : bool) k inner chosen ws t e :
  accepted_children chosen inner ws -> sum_by Nat.b2n chosen = (if b then k else 0) ->
  accepted b (mkMiniscript (Terminal.Thresh (mkThreshold k inner)) t e) (concat (rev ws)).
Proof.
  intros IH Hk s bs Hwf Hsup Hs Hb. destruct (wf_view ctx _ _ _ Hwf) as (Hw & Hv & Hbases & Hbase & _).
  destruct (supported_inv _ Hsup) as [_ Hp]. rewrite children_node in Hp.
  destruct (script_thresh_view _ _ _ _ _ Hs) as (subs & Hsubs & Hn).
  destruct (completes_concat _ _ Hb) as (vs & Hvs & ->).
  unfold result_of, base_of, corr_of. cbn [ty]. rewrite Hbase.
  assert (Threshold.valid 0 (mkThreshold k subs)) as Hv'.
  { apply Forall2_length in Hsubs. unfold Threshold.valid, Threshold.n, Threshold.data in *. simpl in *.
    rewrite <- Hsubs. exact Hv. }
  assert (b = (sum_by Nat.b2n chosen =? Threshold.k (mkThreshold k subs))) as ->.
  { rewrite Hk. simpl. destruct Hv as [[H1 _] _]. simpl in H1. destruct b.
    - by rewrite Nat.eqb_refl.
    - symmetry. apply Nat.eqb_neq. lia. }
  apply evals_thresh; [done | done |]. apply IH; try done.
  eapply List.Forall_impl; [|exact Hbases]. by intros m [H _].
Qed.

Lemma accepted_multi thresh pks ws t e :
  sublist pks (Threshold.data thresh) -> length pks = Threshold.k thresh ->
  Forall2 (fun pk w => signature ctx leaf_hash pk = Witness.Stack w) pks ws ->
  accepted true (mkMiniscript (Terminal.Multi thresh) t e) (Placeholder.PushZero :: concat ws).
Proof.
  intros Hsub Hlen Hsigs s bs Hwf Hsup Hs Hb. destruct (wf_view ctx _ _ _ Hwf) as (_ & [[Hk _] _] & Hview).
  apply (completes_app [_]) in Hb as (b1 & b2 & ->%completes_zero & Hb2 & ->).
  pose proof (signatures_good _ _ _ Hsigs Hb2) as Hg. apply script_multi_view in Hs. cbn [corr_view] in Hview. bases.
  cbn [app c_base Correctness.multi].
  rewrite <- (rev_involutive b2). apply Forall2_length in Hg as Hl. rewrite length_map in Hl.
  eapply (evals_multi _ _ _ _ _ _ _ Hs (rev (map script_key pks))).
  - done.
  - apply sublist_rev, (fmap_sublist script_key). exact Hsub.
  - by apply Forall2_rev.
  - rewrite length_rev. simpl. congruence.
Qed.

Lemma accepted_multi_a thresh chosen ws t e :
  Forall3 (multi_a_item ctx leaf_hash) (rev (Threshold.data thresh)) chosen ws ->
  sum_by Nat.b2n chosen = Threshold.k thresh ->
  accepted true (mkMiniscript (Terminal.MultiA thresh) t e) (concat ws).
Proof.
  intros Hitems Hcount s bs Hwf Hsup Hs Hb.
  destruct (wf_view ctx _ _ _ Hwf) as (_ & [[Hk _] _] & Hview).
  pose proof (items_good _ _ _ _ Hitems Hb) as Hg%Forall3_rev. apply script_multi_a_view in Hs.
  cbn [corr_view] in Hview. bases. cbn [c_base Correctness.multi_a].
  rewrite map_rev, rev_involutive in Hg. rewrite <- (rev_involutive bs).
  pose proof (evals_multi_a _ sequence lock_time tx_template (sig_type ctx) _ _ Hs _ _ Hg) as H.
  rewrite sum_by_rev, Hcount in H. simpl in H. by rewrite Nat.eqb_refl in H.
Qed.

Lemma completes_zeros n bs : completes (repeat Placeholder.PushZero n) bs -> bs = repeat [] n.
Proof.
  revert bs. induction n as [|n IH]; intros bs H; simpl in H; [by apply Forall2_nil_inv_l in H|].
  by apply Forall2_cons_inv_l in H as (v & l & [= <-] & ->%IH & ->).
Qed.

Lemma accepted_multi_dissat thresh t e :
  accepted false (mkMiniscript (Terminal.Multi thresh) t e)
    (repeat Placeholder.PushZero (Threshold.k thresh + 1)).
Proof.
  intros s bs Hwf Hsup Hs ->%completes_zeros.
  destruct (wf_view ctx _ _ _ Hwf) as (_ & [[Hk _] _] & Hview).
  apply script_multi_view in Hs. cbn [corr_view] in Hview. bases.
  exact (evals_multi_dissat _ _ _ _ _ _ _ Hs Hk).
Qed.

Lemma skipped_items (pks : list BitcoinKey) :
  Forall3 (good_item verify_sig) pks (repeat false (length pks)) (repeat [] (length pks)).
Proof. by induction pks; constructor. Qed.

Lemma accepted_multi_a_dissat thresh t e :
  accepted false (mkMiniscript (Terminal.MultiA thresh) t e)
    (repeat Placeholder.PushZero (Threshold.n thresh)).
Proof.
  intros s bs Hwf Hsup Hs ->%completes_zeros.
  destruct (wf_view ctx _ _ _ Hwf) as (_ & [[Hk _] _] & Hview).
  apply script_multi_a_view in Hs. cbn [corr_view] in Hview. bases.
  rewrite <- (rev_repeat (Threshold.n thresh) []).
  pose proof (evals_multi_a verify_sig sequence lock_time tx_template (sig_type ctx) _ _ Hs _ _
                (skipped_items _)) as H.
  rewrite count_repeat in H. cbn [Threshold.data Threshold.inner Threshold.k] in H.
  rewrite length_map in H. destruct (Threshold.k thresh); [lia | exact H].
Qed.

(** ** Induction over witnesses *)

Lemma accepted_all :
  (forall b ms w, Wit ctx leaf_hash b ms w -> accepted b ms w)
  /\ (forall bs mss ws, WitList ctx leaf_hash bs mss ws -> accepted_children bs mss ws).
Proof.
  apply Wit_WitList_ind; intros;
    eauto using accepted_pk_h, accepted_pk_h_dissat, accepted_raw_pk_h, accepted_raw_pk_h_dissat, accepted_older, accepted_after,
      accepted_tx_template, accepted_hash, accepted_hash_dissat, accepted_and_v, accepted_and_b,
      accepted_or_d_left, accepted_or_d_right, accepted_or_c_left, accepted_or_c_right,
      accepted_or_i_left, accepted_or_i_right, accepted_and_or_then, accepted_and_or_else,
      accepted_dup_if, accepted_multi, accepted_multi_a, accepted_multi_dissat,
      accepted_multi_a_dissat.
  - leaf Hs Hb. destruct (signature_good _ _ _ e0 Hb) as (v & -> & Hg). by eapply evals_pk_k.
  - leaf Hs Hb. apply Forall2_nil_inv_l in Hb as ->. by apply evals_true.
  - eapply accepted_wrapper; [exact e0 | done |]. intros _ Hwf. by eapply tops.
  - by apply (accepted_or_b true false).
  - by apply (accepted_or_b false true).
  - by eapply accepted_thresh.
  - leaf Hs Hb. apply completes_zero in Hb as ->. by eapply evals_pk_k_dissat.
  - leaf Hs Hb. apply Forall2_nil_inv_l in Hb as ->. by apply evals_false.
  - by eapply accepted_wrapper.
  - leaf Hs Hb. apply completes_zero in Hb as ->. by eapply evals_dup_if_dissat.
  - leaf Hs Hb. apply completes_zero in Hb as ->. by eapply evals_non_zero_dissat.
  - destruct term; try done; injection e0 as <- <-.
    + by eapply accepted_and_b.
    + by eapply accepted_and_or_else.
    + by apply (accepted_or_b false false).
    + by eapply accepted_or_d_right.
  - by eapply accepted_thresh.
  - intros subs vs _ _ ->%Forall2_nil_inv_l ->%Forall2_nil_inv_l _. constructor.
  - intros subs vs [Hw Hws]%Forall_cons_1 [Hp Hps]%Forall_cons_1
      (s & ss & Hs & Hss & ->)%Forall2_cons_inv_l (v & vs' & Hv & Hvs & ->)%Forall2_cons_inv_l
      [Hb Hbs]%Forall_cons_1.
    constructor; [|by apply H0]. unfold child_evals. specialize (H s v Hw Hp Hs Hv).
    unfold result_of in H. by destruct Hb as [Hb|Hb]; rewrite Hb in H.
Qed.
End Accept.

(** * Whole runs *)

Section Runs.
Context {B : Bitcoin} {Sp : Spending} {Pa : Parsing} {K : MiniscriptKey} {TP : ToPublicKey K}.
Context (ctx : ScriptContext).

Lemma wf_pre_order {K' : MiniscriptKey} c ms : wf c (K := K') ms -> Forall (wf c) (pre_order ms).
Proof.
  revert ms. refine (wf_tree_ind c _ _). intros ms Hwf _ IH. rewrite pre_order_eq.
  constructor; [done|]. induction IH; simpl; [constructor | by apply Forall_app].
Qed.

Definition key_hash_ok (s : Miniscript (K := BitcoinKey_key)) : Prop :=
  match node s with Terminal.PkH pk => key_matches (sig_type ctx) pk = true | _ => True end.

(** The keys of a script fit the signature type of the context. *)
Lemma script_keys ms s : script_of ctx ms s -> Forall key_hash_ok (pre_order s).
Proof.
  revert s. induction ms as [ms IH] using tree_ind. intros s Hs.
  assert (exists cs subs, children s = subs /\ Forall2 (script_of ctx) cs subs
    /\ Forall (fun c => forall s, script_of ctx c s -> Forall key_hash_ok (pre_order s)) cs /\ key_hash_ok s)
    as (cs & subs & Hsubs & Hf & Hc & Hk).
  { destruct ms as [nd t e]. unfold key_hash_ok. rewrite (children_node s). rewrite children_node in *.
    destruct nd;
      lazymatch type of Hs with
      | script_of _ (mkMiniscript (Terminal.PkH _) _ _) _ => idtac
      | script_of _ (mkMiniscript (Terminal.Thresh _) _ _) _ =>
          apply script_thresh_view in Hs as (subs & Hf & ->); by eexists _, subs
      | script_of _ (mkMiniscript (Terminal.Multi _) _ _) _ => apply script_multi_view in Hs as ->; by exists [], []
      | script_of _ (mkMiniscript (Terminal.MultiA _) _ _) _ => apply script_multi_a_view in Hs as ->; by exists [], []
      | _ => open_script Hs; cbn [node]; rewrite Hn; eexists _, _; (split; [reflexivity|]);
             (split; [by repeat constructor|]); split; [exact IH | exact I]
      end.
    exists [], []. apply script_pk_h_view in Hs as [-> | ->]; split_and!; try done.
    cbn. unfold script_key. by destruct (sig_type ctx). }
  rewrite pre_order_eq, Hsubs. constructor; [done|]. clear -Hf Hc.
  induction Hf as [|c sub cs subs Hs Hf IHf]; simpl; [constructor|].
  apply Forall_cons_1 in Hc as [Hi Hc]. apply Forall_app. split; [by apply Hi | by apply IHf].
Qed.

Lemma script_of_ok ms s :
  script_of ctx ms s -> wf NoChecks s -> script_ok (sig_type ctx) s.
Proof.
  intros Hk%script_keys Hw%wf_pre_order. unfold script_ok. rewrite Forall_forall in *.
  intros m Hm. split; [|by apply (Hk m Hm)].
  by destruct (wf_inv _ _ (Hw m Hm)) as (_ & Hv & _).
Qed.
End Runs.

(** A witness is the completion of a template. *)
Lemma completed_template {B : Bitcoin} {Sp : Spending} {K : MiniscriptKey} {TP : ToPublicKey K}
    {S : Satisfier} (template : option (Satisfaction Placeholder)) w :
  satisfy_result <$> (template ← template; try_completing template) = Some (Ok w) ->
  exists r tw, template = Some r /\ stack r = Witness.Stack tw /\ completes tw w.
Proof.
  destruct template as [r|]; [|done]. cbn [mbind option_bind]. unfold try_completing, satisfy_result.
  destruct (stack r) as [tw| |] eqn:E; [|done|done].
  destruct (mapM satisfy_self tw) as [v|] eqn:Hm; [|done]. intros [= ->].
  exists r, tw. split_and!; [done | done |]. by apply mapM_Some.
Qed.

Lemma script_accepts {B : Bitcoin} {Sp : Spending} {Pa : Parsing}
    {K : MiniscriptKey} {TP : ToPublicKey K} {PL : ParsingLaws Pa} {L : LockTimeLaws B}
    {SL : SizeLaws B} {S : Satisfier} ctx verify_sig sequence lock_time tx_template ms w script
    {T : Truthful (leaf_hash_internal ctx ms) verify_sig sequence lock_time tx_template} :
  wf ctx ms -> base_of ms = BaseB -> supported ctx ms ->
  script_of ctx ms script -> script_ok (sig_type ctx) script ->
  satisfy ctx ms = Some (Ok w) \/ satisfy_malleable ctx ms = Some (Ok w) ->
  exists constraints,
    run verify_sig sequence lock_time tx_template (sig_type ctx) (2 + turns script)
      (iter_script script (stack_of w)) = Some (constraints, EndNormal)
    /\ Forall (fun r => is_ok r = true) constraints.
Proof.
  intros Hwf Hbase Hsup Hs Hok Hsat.
  destruct (interpreter_runs verify_sig sequence lock_time tx_template (sig_type ctx) script (stack_of w) Hok) as (l & Hl & _).
  exists l. split; [exact Hl |].
  assert (exists r tw, (build_template ctx ms (m_safe (mall (ty ms))) (leaf_hash_internal ctx ms) = Some r
      \/ build_template_mall ctx ms (m_safe (mall (ty ms))) (leaf_hash_internal ctx ms) = Some r)
    /\ stack r = Witness.Stack tw /\ completes tw w) as (r & tw & Hr & Htw & Hc).
  { destruct Hsat as [H|H]; apply completed_template in H as (r & tw & ? & ? & ?); eauto 10. }
  pose proof (refined ctx _ _ ms r tw Hwf Hr Htw) as HW.
  pose proof (proj1 (accepted_all ctx _ verify_sig sequence lock_time tx_template) true ms tw HW
                script w Hwf Hsup Hs Hc [] []) as He.
  unfold result_of in He. rewrite Hbase in He. rewrite app_nil_r in He.
  by apply (run_accepts _ _ _ _ _ _ _ _ _ _ He Hl).
Qed.


Definition sample_verify_sig (k : KeySigPair (Sp := reference_spending)) : bool :=
  match k with
  | KeySigEcdsa pk s => sample_verify (inl pk) s
  | KeySigSchnorr pk s => sample_verify (inr pk) s
  end.

Lemma sample_preimage n (h : Reference.array n) p :
  n <= 32 -> Some (Reference.pad 32 (Reference.to_list h)) = Some p ->
  length p = 32 /\ Reference.of_list n p = h.
Proof.
  intros Hn H. assert (p = Reference.pad 32 (Reference.to_list h)) as -> by congruence.
  split; [apply pad_length | by apply Reference.of_pad_list].
Qed.

(** The sample satisfier tells the truth about a transaction with its locks. *)
Lemma sample_truthful keys seq lock leaf_hash :
  bip68_enabled seq = true ->
  Truthful (S := sample_satisfier keys seq lock) leaf_hash sample_verify_sig
    seq lock None.
Proof.
  intros Hseq. constructor.
  1, 2: intros pk s; cbn; case_decide; [|done]; intros [= <-]; by apply bool_decide_eq_true_2.
  1, 2: done.
  - intros h p. by apply (sample_preimage 32).
  - intros h p. by apply (sample_preimage 32).
  - intros h p. apply (sample_preimage 20). lia.
  - intros h p. apply (sample_preimage 20). lia.
  - intros n Hn. exists seq. cbn. by rewrite Hseq.
  - done.
  - done.
Qed.


(** [andor(sha256(h),pk(A),pk(B))], where [h] is the hash of 32 zero bytes *)
Definition sample_zero : Miniscript :=
  build Segwitv0 (Terminal.AndOr (build Segwitv0 (Terminal.Sha256 (Reference.of_list 32 zeros)))
    (sample_pk Segwitv0 keyA) (sample_pk Segwitv0 keyB)).

(** The satisfier returns a witness, and evaluating the script on it reports an error. *)
Definition rejected_satisfaction (verify_sig : KeySigPair -> bool) (S : Satisfier (Sp := reference_spending))
    (ms : Miniscript) : bool :=
  match satisfy Segwitv0 ms, translate_pk_ctx NoChecks (script_translator Segwitv0) ms with
  | Some (Ok w), Some (Ok script) =>
      match run verify_sig 0%N 0%N None Ecdsa (2 + turns script) (iter_script script (stack_of w)) with
      | Some (items, EndNormal) => existsb (fun r => negb (is_ok r)) items
      | _ => false
      end
  | _, _ => false
  end.

(** A hash lock whose preimage is the dissatisfaction that the satisfier gives: the witness for
    the other branch takes the first one, and is rejected there. *)
Theorem zero_preimage_rejected :
  wf Segwitv0 sample_zero /\ rejected_satisfaction sample_verify_sig (sample_satisfier [keyB] 0 0) sample_zero = true.
Proof. split; [unfold sample_zero, sample_pk; prove_wf | vm_compute; reflexivity]. Qed.
