(* ===== verification/KeyHash.v ===== *)
(** Key hashes in scripts: the decoder reads [pk_h(K)] as the hash of its key, and what the
    interpreter evaluates for a Miniscript is the Miniscript with its key hashes instead of
    their keys. *)
From S2P Require Import Prelude Bitcoin Primitives Ord Correctness Malleability Types ExtData Tree StackLoop Ast Context Encode Translate Interp Satisfy Accept.

Section HashKeys.
Context {B : Bitcoin} {Sp : Spending} {Pa : Parsing} {K : MiniscriptKey} {TP : ToPublicKey K}.
Context (ctx : ScriptContext).

(** A fragment with the hash of its key for [pk_h]; [f] is applied to its children. *)
Definition hash_node (f : Miniscript -> Miniscript) (nd : Terminal Miniscript) : Terminal Miniscript :=
  match nd with
  | Terminal.PkH pk => Terminal.RawPkH (to_pubkeyhash pk (sig_type ctx))
  | Terminal.InscribePre i sub => Terminal.InscribePre i (f sub)
  | Terminal.InscribePost i sub => Terminal.InscribePost i (f sub)
  | Terminal.Alt sub => Terminal.Alt (f sub)
  | Terminal.Swap sub => Terminal.Swap (f sub)
  | Terminal.Check sub => Terminal.Check (f sub)
  | Terminal.DupIf sub => Terminal.DupIf (f sub)
  | Terminal.Verify sub => Terminal.Verify (f sub)
  | Terminal.NonZero sub => Terminal.NonZero (f sub)
  | Terminal.ZeroNotEqual sub => Terminal.ZeroNotEqual (f sub)
  | Terminal.AndV l r => Terminal.AndV (f l) (f r)
  | Terminal.AndB l r => Terminal.AndB (f l) (f r)
  | Terminal.AndOr a b c => Terminal.AndOr (f a) (f b) (f c)
  | Terminal.OrB l r => Terminal.OrB (f l) (f r)
  | Terminal.OrD l r => Terminal.OrD (f l) (f r)
  | Terminal.OrC l r => Terminal.OrC (f l) (f r)
  | Terminal.OrI l r => Terminal.OrI (f l) (f r)
  | Terminal.Thresh thresh => Terminal.Thresh (mkThreshold (Threshold.k thresh) (map f (Threshold.inner thresh)))
  | leaf => leaf
  end.

(** The Miniscript with key hashes, typed and sized again. *)
Fixpoint hash_keys (ms : Miniscript) : Miniscript :=
  match ms with
  | mkMiniscript nd t _ =>
      let nd := hash_node hash_keys nd in mkMiniscript nd t (ext_type_check (sig_type ctx) nd)
  end.

Lemma hash_keys_eq ms :
  hash_keys ms = mkMiniscript (hash_node hash_keys (node ms)) (ty ms)
    (ext_type_check (sig_type ctx) (hash_node hash_keys (node ms))).
Proof. by destruct ms. Qed.

Lemma hash_keys_children ms : children (hash_keys ms) = map hash_keys (children ms).
Proof. rewrite hash_keys_eq, !children_node. cbn [node]. by destruct (node ms). Qed.

Lemma hash_keys_ty ms : ty (hash_keys ms) = ty ms.
Proof. by rewrite hash_keys_eq. Qed.

Lemma map_ty_hash_keys l : map ty (map hash_keys l) = map ty l.
Proof. rewrite map_map. apply map_ext. exact hash_keys_ty. Qed.

Lemma hash_keys_height ms : height (hash_keys ms) = height ms.
Proof.
  induction ms as [ms IH] using tree_ind. rewrite (height_eq (hash_keys ms)), (height_eq ms), hash_keys_children.
  assert (map height (map hash_keys (children ms)) = map height (children ms)) as Hm.
  { induction IH as [|c cs Hc _ IHc]; [done|]. cbn [map]. by rewrite Hc, IHc. }
  destruct (children ms); [done|]. cbn [map] in *. by rewrite Hm.
Qed.

Lemma hash_node_check nd : type_check (hash_node hash_keys nd) = type_check nd.
Proof.
  destruct nd; cbn [hash_node type_check]; rewrite ?hash_keys_ty; try reflexivity.
  unfold Threshold.data. cbn [Threshold.inner Threshold.k]. by rewrite map_ty_hash_keys.
Qed.

Lemma hash_node_valid nd : node_valid nd -> node_valid (hash_node hash_keys nd).
Proof.
  destruct nd; try exact id. cbn [hash_node node_valid]. unfold Threshold.valid, Threshold.n.
  cbn [Threshold.k Threshold.inner]. by rewrite length_map.
Qed.

Lemma hash_keys_wf ms : wf ctx ms -> wf ctx (hash_keys ms).
Proof.
  revert ms. refine (wf_tree_ind ctx _ _). intros ms Hwf _ IH. destruct (wf_inv _ _ Hwf) as (_ & Hv & Ht & _).
  assert (Forall (wf ctx) (children (hash_keys ms))) as Hc by (rewrite hash_keys_children; by apply Forall_map).
  rewrite hash_keys_eq in *. rewrite children_node in Hc. constructor; [exact Hc | by apply hash_node_valid | | done].
  by rewrite hash_node_check.
Qed.

(** ** Sizes *)

(** Extra properties of scripts with the same bytes. *)
Definition same_cost (e e' : ExtData) : Prop := pk_cost e = pk_cost e' /\ has_free_verify e = has_free_verify e'.

Lemma ext_same_cost nd :
  Forall (fun m => same_cost (ext (hash_keys m)) (ext m)) (terminal_children nd) ->
  same_cost (ext_type_check (sig_type ctx) (hash_node hash_keys nd)) (ext_type_check (sig_type ctx) nd).
Proof.
  unfold same_cost. intros H. destruct nd; cbn [terminal_children terminal_as_node hash_node ext_type_check] in *;
    try (split; reflexivity);
    forall_children H; destruct_and?;
    try (split; cbn -[Nat.add]; repeat match goal with
         | H : pk_cost (ext (hash_keys _)) = _ |- _ => rewrite H; clear H
         | H : has_free_verify (ext (hash_keys _)) = _ |- _ => rewrite H; clear H
         end; reflexivity).
  - unfold Ext.pk_h. destruct (sig_type ctx); [|done]. by destruct (is_uncompressed pk).
  - destruct thresh as [k l]. unfold Threshold.data in *. cbn [Threshold.inner Threshold.k] in *.
    assert (sum_by pk_cost (map ext (map hash_keys l)) = sum_by pk_cost (map ext l)) as Hs.
    { induction H as [|m l [Hm _] _ IH]; [done|]. cbn [map]. by rewrite !sum_by_cons, IH, Hm. }
    split; [|reflexivity]. unfold Ext.threshold. cbn [pk_cost]. by rewrite Hs, !length_map.
Qed.

Lemma hash_keys_cost ms : wf ctx ms -> same_cost (ext (hash_keys ms)) (ext ms).
Proof.
  revert ms. refine (wf_tree_ind ctx _ _). intros ms Hwf _ IH. destruct (wf_inv _ _ Hwf) as (_ & _ & _ & He).
  rewrite He, hash_keys_eq. cbn [ext]. apply ext_same_cost. by rewrite <- children_node.
Qed.

Lemma hash_keys_context_valid ms : wf ctx ms -> context_valid ctx ms -> context_valid ctx (hash_keys ms).
Proof.
  revert ms. refine (wf_tree_ind ctx _ _). intros ms Hwf _ IH Hcv.
  apply context_valid_inv in Hcv as [Hg Hc]. unfold context_valid. rewrite pre_order_eq, hash_keys_children.
  constructor.
  - destruct (hash_keys_cost ms Hwf) as [Hcost _]. rewrite <- Hg.
    unfold check_global_validity, check_global_consensus_validity, check_global_policy_validity. rewrite Hcost.
    assert (node_checked ctx (node (hash_keys ms)) = node_checked ctx (node ms)) as ->; [|reflexivity].
    rewrite hash_keys_eq. cbn [node]. destruct ctx, (node ms); reflexivity.
  - clear Hwf Hg. induction IH as [|c cs Hi _ IHc]; [constructor|]. apply Forall_cons_1 in Hc as [Hc Hcs].
    cbn [map flat_map]. apply Forall_app. split; [by apply Hi | by apply IHc].
Qed.

(** ** Scripts *)

Lemma hash_keys_encode {HL : KeyHashLaws B} ms b : encode ctx (hash_keys ms) b = encode ctx ms b.
Proof.
  revert b. induction ms as [[nd t e] IH] using tree_ind. intros b. rewrite children_node in IH. cbn [node] in IH.
  rewrite hash_keys_eq. destruct nd; cbn [hash_node node ty encode]; try reflexivity; forall_children IH;
    repeat match goal with H : forall b, encode ctx (hash_keys _) b = _ |- _ => rewrite !H; clear H end; try reflexivity.
  - unfold push_ms_key_hash, to_pubkeyhash. destruct (sig_type ctx); by rewrite ?pubkey_hash_bytes, ?PubkeyHash_bytes.
  - destruct thresh as [k l]. cbn [Threshold.k Threshold.inner] in *. unfold Threshold.data in IH. cbn [Threshold.inner] in IH.
    destruct IH as [|first rest Hf Hr]; [done|]. cbn [map]. rewrite Hf. do 2 f_equal.
    generalize (encode ctx first b). induction Hr as [|m ms' Hm _ IHr]; intros b'; [done|].
    cbn [map fold_left]. by rewrite Hm, IHr.
Qed.

(** The script of the Miniscript with key hashes is one of the Miniscript. *)
Lemma hash_keys_script ms s :
  translate NoChecks (script_translator ctx) (hash_keys ms) = Ok s -> script_of ctx ms s.
Proof.
  revert s. induction ms as [ms IH] using tree_ind. intros s (subs & Hs & Hn & _)%translate_inv.
  rewrite hash_keys_children in Hs. rewrite hash_keys_eq in Hn. cbn [node] in Hn.
  assert (Forall2 (script_of ctx) (children ms) subs) as Hf.
  { clear Hn. revert subs Hs. induction IH as [|c cs Hc _ IHc]; intros [|sub subs] Hs; try done.
    injection Hs as Hcs Hs. constructor; auto. }
  clear IH Hs. destruct ms as [nd t e]. destruct nd;
    try (apply (script_translated ctx _ _ subs); [exact Hf | exact Hn]).
  - rewrite children_node in Hf. inversion Hf; subst. cbn in Hn. injection Hn as Hn. by eapply script_hashed.
  - apply (script_translated ctx _ _ subs); [exact Hf|]. cbn [hash_node node translate_term] in *.
    unfold Threshold.n in *. cbn [Threshold.inner Threshold.k] in *. by rewrite length_map in Hn.
Qed.
End HashKeys.
