(* ===== verification/Lift.v ===== *)
(** Lifting Miniscripts to abstract policies ([lift] of src/src/policy/mod.rs): the loop
    over the nodes with its stack, and the theorem that the lifted policy says exactly
    which assets can produce a witness. *)
From S2P Require Import Prelude Bitcoin Primitives Reference Ord Correctness Types ExtData Tree StackLoop Ast Context Samples Views Encode Satisfy WitSpec Shape SatTotal Semantic PolicyNormal.

(** [policy::LiftError], and the variants of the crate's [Error] that lifting a
    Miniscript yields. *)
Module LiftError.
Inductive LiftError : Type :=
| HeightTimelockCombination
| BranchExceedResourceLimits
| RawDescriptorLift.
End LiftError.
Abbreviation LiftError := LiftError.LiftError.

Section Lift.
Context {B : Bitcoin} {K : MiniscriptKey}.
Abbreviation Policy := Semantic.Policy.

Definition lift_check (ctx : ScriptContext) (ms : Miniscript) : result LiftError () :=
  if negb (within_resource_limits ctx ms) then Err LiftError.BranchExceedResourceLimits
  else if has_mixed_timelocks ms then Err LiftError.HeightTimelockCombination
  else Ok tt.

(** The wrapping of a child into inscriptions, the first one outermost. *)
Definition lift_inscribe (inscriptions : list Inscription) (child : Policy) : Policy :=
  fold_left (fun child inscription => Semantic.Inscribe inscription child) (rev inscriptions) child.

Definition policy_and (l r : Policy) : Policy := Semantic.Thresh (Threshold.and l r).
Definition policy_or (l r : Policy) : Policy := Semantic.Thresh (Threshold.or l r).

(** One turn of the loop: the policies of the children come off the stack. *)
Definition lift_term (ms : Miniscript) (stack : list Policy)
  : option (result LiftError Policy * list Policy) :=
  let push (p : Policy) : option (result LiftError Policy * list Policy) := Some (Ok p, stack) in
  match node ms with
  | Terminal.PkK pk | Terminal.PkH pk => push (Semantic.Key pk)
  | Terminal.RawPkH _ => Some (Err LiftError.RawDescriptorLift, stack)
  | Terminal.After t => push (Semantic.After t)
  | Terminal.Older t => push (Semantic.Older t)
  | Terminal.Sha256 h => push (Semantic.Sha256 h)
  | Terminal.Hash256 h => push (Semantic.Hash256 h)
  | Terminal.Ripemd160 h => push (Semantic.Ripemd160 h)
  | Terminal.Hash160 h => push (Semantic.Hash160 h)
  | Terminal.TxTemplate h => push (Semantic.TxTemplate h)
  | Terminal.InscribePre inscriptions _ | Terminal.InscribePost inscriptions _ =>
      '(child, stack) ← pop stack; Some (Ok (lift_inscribe inscriptions child), stack)
  | Terminal.False => push Semantic.Unsatisfiable
  | Terminal.True => push Semantic.Trivial
  | Terminal.Alt _ | Terminal.Swap _ | Terminal.Check _ | Terminal.DupIf _ | Terminal.Verify _
  | Terminal.NonZero _ | Terminal.ZeroNotEqual _ =>
      '(child, stack) ← pop stack; Some (Ok child, stack)
  | Terminal.AndV _ _ | Terminal.AndB _ _ =>
      '(l, stack) ← pop stack; '(r, stack) ← pop stack; Some (Ok (policy_and l r), stack)
  | Terminal.AndOr _ _ _ =>
      '(a, stack) ← pop stack; '(b, stack) ← pop stack; '(c, stack) ← pop stack;
      Some (Ok (policy_or (policy_and a b) c), stack)
  | Terminal.OrB _ _ | Terminal.OrD _ _ | Terminal.OrC _ _ | Terminal.OrI _ _ =>
      '(l, stack) ← pop stack; '(r, stack) ← pop stack; Some (Ok (policy_or l r), stack)
  | Terminal.Thresh thresh =>
      '(subs, stack) ← pop_n (Threshold.n thresh) stack;
      Some (Ok (Semantic.Thresh (mkThreshold (Threshold.k thresh) subs)), stack)
  | Terminal.Multi thresh | Terminal.MultiA thresh =>
      push (Semantic.Thresh (Threshold.forget_maximum (Threshold.map Semantic.Key thresh)))
  end.

(** [Liftable::lift] for [Miniscript]; [None] is a panic. *)
Definition lift (ctx : ScriptContext) (ms : Miniscript) : option (result LiftError Policy) :=
  match lift_check ctx ms with
  | Err e => Some (Err e)
  | Ok _ =>
      r ← try_root lift_term ms;
      match r with
      | Err e => Some (Err e)
      | Ok p => p ← Semantic.normalized p; Some (Ok p)
      end
  end.

(** * The recursive lifting *)

Definition lift_node (ms : Miniscript) (subs : list Policy) : result LiftError Policy :=
  match lift_term ms subs with
  | Some (r, _) => r
  | None => Err LiftError.RawDescriptorLift
  end.

Lemma lift_term_stack ms subs rest :
  length subs = length (children ms) -> lift_term ms (subs ++ rest) = Some (lift_node ms subs, rest).
Proof.
  rewrite children_node. unfold lift_node, lift_term. intros H.
  destruct (node ms) as [| | | | | | | | | | | |j s|j s|s|s|s|s|s|s|s|l r|l r|a b c|l r|l r|l r|l r|th| |];
    cbn [terminal_children terminal_as_node length] in H;
    try (destruct subs as [|s1 [|s2 [|s3 [|? ?]]]]; simpl in H; try lia; reflexivity).
  unfold Threshold.data, Threshold.n in *. rewrite <- H, pop_n_app.
  pose proof (pop_n_app subs []) as Hn. rewrite app_nil_r in Hn. by rewrite Hn.
Qed.

Definition lifted : Miniscript -> result LiftError Policy := try_fold lift_node.

Lemma lift_eq ctx ms :
  lift ctx ms = match lift_check ctx ms with
                | Err e => Some (Err e)
                | Ok _ => Some (p ← lifted ms; Ok (norm p))
                end.
Proof.
  unfold lift. destruct (lift_check ctx ms); [|done].
  rewrite (try_root_eq lift_term lift_node lift_term_stack). fold (lifted ms).
  cbn [mbind option_bind]. destruct (lifted ms) as [p|]; [|done]. cbn [mbind result_bind].
  by rewrite normalized_norm.
Qed.

Lemma contains_raw_pkh_eq ms :
  contains_raw_pkh ms
  = (match node ms with Terminal.RawPkH _ => true | _ => false end)
    || existsb contains_raw_pkh (children ms).
Proof.
  unfold contains_raw_pkh at 1. rewrite pre_order_eq. cbn [existsb]. f_equal.
  induction (children ms) as [|c l IH]; [done|]. cbn [flat_map existsb].
  by rewrite existsb_app, IH.
Qed.

Definition lifts_unless_raw (ms : Miniscript) : Prop :=
  if contains_raw_pkh ms then lifted ms = Err LiftError.RawDescriptorLift
  else exists p, lifted ms = Ok p.

Lemma collect_lifted l :
  Forall lifts_unless_raw l -> existsb contains_raw_pkh l = false ->
  exists ps, collect_rtl (map lifted l) = Ok ps.
Proof.
  induction 1 as [|c l Hc _ IH]; [by exists []|]. cbn [existsb map collect_rtl].
  intros [Hr Hl]%orb_false_iff. destruct (IH Hl) as [ps ->]. unfold lifts_unless_raw in Hc.
  rewrite Hr in Hc. destruct Hc as [p ->]. by eexists.
Qed.

Lemma collect_raw l :
  Forall lifts_unless_raw l -> existsb contains_raw_pkh l = true ->
  collect_rtl (map lifted l) = Err LiftError.RawDescriptorLift.
Proof.
  induction 1 as [|c l Hc Hl IH]; [done|]. cbn [existsb map collect_rtl]. intros E.
  destruct (existsb contains_raw_pkh l) eqn:El; [by rewrite IH|].
  rewrite orb_false_r in E. destruct (collect_lifted l Hl El) as [ps ->].
  unfold lifts_unless_raw in Hc. rewrite E in Hc. by rewrite Hc.
Qed.

(** Only a raw key hash stops the loop. *)
Lemma lifted_error ms : lifts_unless_raw ms.
Proof.
  induction ms as [ms IH] using tree_ind. unfold lifts_unless_raw. rewrite contains_raw_pkh_eq.
  unfold lifted. rewrite try_fold_eq. fold lifted.
  destruct (existsb contains_raw_pkh (children ms)) eqn:E.
  - rewrite orb_true_r. by rewrite (collect_raw _ IH E).
  - rewrite orb_false_r. destruct (collect_lifted _ IH E) as [subs Hs]. rewrite Hs.
    cbn [mbind result_bind]. apply collect_rtl_Ok, (f_equal length) in Hs. rewrite !length_map in Hs.
    rewrite children_node in Hs. unfold lift_node, lift_term. clear E IH.
    destruct (node ms) as [| | | | | | | | | | | |j s|j s|s|s|s|s|s|s|s|l r|l r|a b c|l r|l r|l r|l r|th| |];
      cbn [terminal_children terminal_as_node length] in Hs; try (by eexists); try done;
      try (destruct subs as [|s1 [|s2 [|s3 [|? ?]]]]; simpl in Hs; try lia; by eexists).
    unfold Threshold.data, Threshold.n in *. rewrite Hs.
    pose proof (pop_n_app subs []) as Hn. rewrite app_nil_r in Hn. rewrite Hn. by eexists.
Qed.
End Lift.

(** The policies of the children of a node, one by one. *)
Ltac lift_children Hs :=
  cbn [terminal_children terminal_as_node Threshold.data Threshold.inner] in Hs;
  repeat match goal with
  | Hf : Forall2 _ (_ :: _) _ |- _ => apply Forall2_cons_inv_l in Hf as (? & ? & ? & Hf & ->)
  | Hf : Forall2 _ [] _ |- _ => apply Forall2_nil_inv_l in Hf as ->
  end.

(** * Assets and policies *)

Section Meaning.
Context {B : Bitcoin} {Sp : Spending} {K : MiniscriptKey} {L : LockTimeLaws B} {P : AssetProvider}.
Context (ctx : ScriptContext) (leaf_hash : TapLeafHash).
Abbreviation Policy := Semantic.Policy.

Definition available {T} (w : Witness T) : bool :=
  match w with Witness.Stack _ => true | _ => false end.

(** The constraints that the assets meet. *)
Definition assets_meet : valuation := fun q =>
  match q with
  | Semantic.Key pk => available (signature ctx leaf_hash pk)
  | Semantic.After t => provider_check_after (abs_inner t)
  | Semantic.Older t =>
      match rel_to_relative t with Some t' => provider_check_older t' | None => false end
  | Semantic.Sha256 h => available (sha256_preimage h)
  | Semantic.Hash256 h => available (hash256_preimage h)
  | Semantic.Ripemd160 h => available (ripemd160_preimage h)
  | Semantic.Hash160 h => available (hash160_preimage h)
  | Semantic.TxTemplate h => provider_check_tx_template h
  | _ => false
  end.

Lemma available_spec {T} (w : Witness T) : available w = true <-> exists s, w = Witness.Stack s.
Proof. split; [destruct w; [by eexists | done..] | by intros [s ->]]. Qed.

Lemma holds_inscribe v js p : holds v (lift_inscribe js p) = holds v p.
Proof.
  unfold lift_inscribe. generalize (rev js). intros l. revert p.
  induction l as [|j l IH]; intros p; [done|]. cbn [fold_left]. by rewrite IH.
Qed.

Lemma holds_and v (l r : Policy) : holds v (policy_and l r) = holds v l && holds v r.
Proof.
  unfold policy_and, Threshold.and. cbn [holds]. unfold count_if, sum_by. simpl.
  by destruct (holds v l), (holds v r).
Qed.

Lemma holds_or v (l r : Policy) : holds v (policy_or l r) = holds v l || holds v r.
Proof.
  unfold policy_or, Threshold.or. cbn [holds]. unfold count_if, sum_by. simpl.
  by destruct (holds v l), (holds v r).
Qed.

(** ** From witnesses to policies *)

Abbreviation count_true := (sum_by Nat.b2n).
Abbreviation Wit := (Wit ctx leaf_hash).
Abbreviation WitList := (WitList ctx leaf_hash).

Lemma lifted_inv nd t e p :
  lifted (mkMiniscript nd t e) = Ok p ->
  exists subs, Forall2 (fun c q => lifted c = Ok q) (terminal_children nd) subs
    /\ lift_node (mkMiniscript nd t e) subs = Ok p.
Proof.
  intros (subs & Hs & Hn)%try_fold_inv. exists subs. split; [|done].
  rewrite children_node in Hs. cbn [node] in Hs. fold lifted in Hs.
  revert subs Hs Hn. generalize (terminal_children nd). intros l subs Hs _. revert subs Hs.
  induction l as [|c l IH]; intros [|q subs] Hs; try done.
  simpl in Hs. injection Hs as H1 H2. constructor; auto.
Qed.

(** Opens the lifting of a node: the policies of its children and its own. *)
Ltac open_lift H :=
  let subs := fresh "subs" in let Hs := fresh "Hs" in let Hn := fresh "Hn" in
  apply lifted_inv in H as (subs & Hs & Hn); lift_children Hs; cbn in Hn.

Ltac use_children :=
  repeat match goal with
  | IH : _ = _ -> forall p, lifted ?c = Ok p -> _, H : lifted ?c = Ok ?p |- _ =>
      specialize (IH eq_refl p H)
  end.

Lemma multi_count pks ws :
  Forall2 (fun pk w => signature ctx leaf_hash pk = Witness.Stack w) pks ws ->
  count_if (holds assets_meet) (map Semantic.Key pks) = length pks.
Proof.
  induction 1 as [|pk w pks ws H _ IH]; [done|]. cbn [map]. rewrite count_if_cons, IH.
  cbn [holds assets_meet]. by rewrite H.
Qed.

Lemma multi_a_count pks chosen ws :
  Forall3 (multi_a_item ctx leaf_hash) pks chosen ws ->
  count_true chosen <= count_if (holds assets_meet) (map Semantic.Key pks).
Proof.
  induction 1 as [|pk b w pks chosen ws H _ IH]; [done|]. cbn [map]. rewrite count_if_cons, sum_by_cons.
  destruct b; simpl in *; [rewrite H; simpl|]; lia.
Qed.

Lemma lift_node_thresh k inner t e (subs : list Policy) :
  length subs = length inner ->
  lift_node (mkMiniscript (Terminal.Thresh (mkThreshold k inner)) t e) subs
  = Ok (Semantic.Thresh (mkThreshold k subs)).
Proof.
  intros H. unfold lift_node, lift_term. cbn [node]. unfold Threshold.n. cbn [Threshold.inner].
  rewrite <- H. pose proof (pop_n_app subs []) as Hn. rewrite app_nil_r in Hn. by rewrite Hn.
Qed.

Lemma lift_sound_all :
  (forall b ms w, Wit b ms w -> b = true -> forall p, lifted ms = Ok p -> holds assets_meet p = true)
  /\ (forall bs mss ws, WitList bs mss ws -> forall ps, Forall2 (fun c q => lifted c = Ok q) mss ps ->
        count_true bs <= count_if (holds assets_meet) ps).
Proof.
  apply Wit_WitList_ind; intros; try done; subst;
    try match goal with H : lifted _ = Ok _ |- _ => open_lift H end;
    use_children; try (injection Hn as <-);
    rewrite ?holds_or, ?holds_and;
    repeat match goal with H : holds _ _ = true |- _ => rewrite H end;
    rewrite ?orb_true_r; try done; cbn [holds assets_meet];
    repeat match goal with
    | H : ?x = Witness.Stack _ |- context [?x] => rewrite H
    | H : rel_to_relative _ = Some _ |- _ => rewrite H
    end; try done.
  - destruct term; try done; cbn [preimage] in *; simplify_eq;
      lift_children Hs; cbn in Hn; injection Hn as <-;
      cbn [holds assets_meet];
      by match goal with H : ?x = Witness.Stack _ |- context [?x] => rewrite H end.
  - destruct term; try done; cbn [sat_wrapper] in *; simplify_eq;
      lift_children Hs; cbn in Hn; use_children;
      injection Hn as <-; by rewrite ?holds_inscribe.
  - rewrite lift_node_thresh in Hn by (symmetry; by eapply Forall2_length).
    injection Hn as <-. cbn [holds]. apply Nat.leb_le. by apply H.
  - apply Nat.leb_le. cbn [Threshold.forget_maximum Threshold.map Threshold.inner Threshold.k].
    match goal with H : _ = Threshold.k thresh |- _ => rewrite <- H end.
    rewrite <- (multi_count pks ws) by done. unfold Threshold.data in *.
    match goal with H : _ `sublist_of` _ |- _ => clear -H; induction H end;
      cbn [List.map]; rewrite ?count_if_cons; lia.
  - apply Nat.leb_le. cbn [Threshold.forget_maximum Threshold.map Threshold.inner Threshold.k].
    apply multi_a_count in f. unfold Threshold.data in f.
    rewrite <- (count_if_perm _ _ (map Semantic.Key (Threshold.inner thresh))) by
      (apply Permutation_map; symmetry; apply Permutation_rev).
    lia.
  - apply Forall2_nil_inv_l in H as ->. done.
  - apply Forall2_cons_inv_l in H1 as (q & qs & Hq & Hqs & ->).
    rewrite sum_by_cons, count_if_cons. specialize (H0 _ Hqs).
    destruct b; simpl; [|lia]. rewrite (H eq_refl q Hq). simpl. lia.
Qed.
(** ** From policies to witnesses *)

Lemma choose_children mss (ps : list Policy) k :
  Forall2 (fun c q => (holds assets_meet q = true -> exists w, Wit true c w)
                      /\ exists w, Wit false c w) mss ps ->
  k <= count_if (holds assets_meet) ps ->
  exists bs ws, WitList bs mss ws /\ count_true bs = k.
Proof.
  intros H. revert k. induction H as [|c q mss ps [Hs [wf Hd]] _ IH]; intros k Hk.
  { exists [], []. split; [constructor|]. unfold count_if, sum_by in *. simpl in *. lia. }
  rewrite count_if_cons in Hk. destruct (holds assets_meet q), k as [|k]; simpl in Hk.
  - destruct (IH 0) as (bs & ws & H1 & H2); [lia|]. exists (false :: bs), (wf :: ws).
    split; [by constructor | done].
  - destruct (Hs eq_refl) as [w Hw]. destruct (IH k) as (bs & ws & H1 & H2); [lia|].
    exists (true :: bs), (w :: ws). split; [by constructor|]. rewrite sum_by_cons. simpl. lia.
  - destruct (IH 0) as (bs & ws & H1 & H2); [lia|]. exists (false :: bs), (wf :: ws).
    split; [by constructor | done].
  - destruct (IH (S k)) as (bs & ws & H1 & H2); [lia|]. exists (false :: bs), (wf :: ws).
    split; [by constructor | done].
Qed.

Lemma key_signature pk :
  holds assets_meet (Semantic.Key pk) = true -> exists w, signature ctx leaf_hash pk = Witness.Stack w.
Proof. apply available_spec. Qed.

Lemma choose_keys pks k :
  k <= count_if (holds assets_meet) (map Semantic.Key pks) ->
  exists sub ws, sublist sub pks /\ length sub = k
    /\ Forall2 (fun pk w => signature ctx leaf_hash pk = Witness.Stack w) sub ws.
Proof.
  revert k. induction pks as [|pk pks IH]; intros k Hk; cbn [map] in Hk.
  { exists [], []. unfold count_if, sum_by in *. simpl in *. repeat constructor. lia. }
  rewrite count_if_cons in Hk.
  destruct (holds assets_meet (Semantic.Key pk)) eqn:E, k as [|k]; simpl in Hk.
  2: { destruct (key_signature pk E) as [w Hw], (IH k) as (sub & ws & H1 & H2 & H3); [lia|].
       exists (pk :: sub), (w :: ws). split; [by constructor|]. split; [simpl; lia | by constructor]. }
  all: edestruct IH as (sub & ws & H1 & H2 & H3); [shelve|]; exists sub, ws; split; [by constructor | by split].
  Unshelve. all: lia.
Qed.

Lemma choose_items pks k :
  k <= count_if (holds assets_meet) (map Semantic.Key pks) ->
  exists chosen ws, Forall3 (multi_a_item ctx leaf_hash) pks chosen ws /\ count_true chosen = k.
Proof.
  revert k. induction pks as [|pk pks IH]; intros k Hk; cbn [map] in Hk.
  { exists [], []. unfold count_if, sum_by in *. simpl in *. split; [constructor | lia]. }
  rewrite count_if_cons in Hk.
  destruct (holds assets_meet (Semantic.Key pk)) eqn:E, k as [|k]; simpl in Hk.
  2: { destruct (key_signature pk E) as [w Hw], (IH k) as (chosen & ws & H1 & H2); [lia|].
       exists (true :: chosen), (w :: ws). split; [by constructor|]. rewrite sum_by_cons. simpl. lia. }
  all: edestruct IH as (chosen & ws & H1 & H2); [shelve|];
    exists (false :: chosen), ([Placeholder.PushZero] :: ws); (split; [by constructor|]);
    rewrite sum_by_cons; exact H2.
  Unshelve. all: lia.
Qed.

Hypothesis Hctx : ctx <> NoChecks.

Lemma dissat_exists ms :
  wf ctx ms -> contains_raw_pkh ms = false -> dissat_of ms = true -> exists w, Wit false ms w.
Proof.
  intros Hwf Hr Hd.
  destruct (total_all ctx true leaf_hash minimum Satisfy.thresh Hctx ms Hwf Hr) as (_ & d & Hdis & Hu).
  destruct (Hu Hd) as [[w Hw] _]. exists w.
  exact (proj2 (refines_all ctx true leaf_hash minimum Satisfy.thresh ms Hwf) d w Hdis Hw).
Qed.

Lemma lifted_raw ms p : lifted ms = Ok p -> contains_raw_pkh ms = false.
Proof.
  intros H. pose proof (lifted_error ms) as Hl. unfold lifts_unless_raw in Hl.
  destruct (contains_raw_pkh ms); [congruence | done].
Qed.

Lemma key_lengths pk : exists len, pk_len ctx pk = Some len.
Proof. destruct ctx; try done; by eexists. Qed.

Definition lift_complete (ms : Miniscript) : Prop :=
  forall p, lifted ms = Ok p -> holds assets_meet p = true -> exists w, Wit true ms w.

(** A witness for a child whose policy holds, or whose type is dissatisfiable. *)
Ltac satisfied_child c w :=
  match goal with
  | IH : lift_complete c, H : lifted c = Ok ?q |- _ =>
      let Hw := fresh "Hw" in destruct (IH q H) as [w Hw]; [assumption|]
  end.
Ltac dissatisfied_child c w :=
  match goal with
  | Hwf : wf ctx c, H : lifted c = Ok ?q |- _ =>
      let Hw := fresh "Hw" in
      destruct (dissat_exists c Hwf (lifted_raw c q H)) as [w Hw]; [assumption|]
  end.

Lemma lift_complete_all ms : wf ctx ms -> lift_complete ms.
Proof.
  revert ms. refine (wf_tree_ind ctx _ _). intros ms Hwf Hwc IH p Hp Hh.
  destruct ms as [nd t e]. destruct (wf_view ctx _ _ _ Hwf) as (_ & Hv & Hview).
  rewrite children_node in Hwc, IH. cbn [node] in Hwc, IH.
  apply lifted_inv in Hp as (subs & Hs & Hn).
  destruct nd as [| | p' | p' | h | n | n | x | x | x | x | h | j s | j s | s | s | s | s | s | s | s
                   | l r | l r | a b c | l r | l r | l r | l r | th | th | th];
    try (lift_children Hs; cbn in Hn; try injection Hn as <-); forall_children Hwc; forall_children IH;
    cbn [corr_view] in Hview; destruct_and? Hview; cbn [holds assets_meet] in Hh.
  all: try (match goal with |- exists w, Wit true (mkMiniscript ?term _ _) w =>
      lazymatch eval cbn in (sat_wrapper term) with
      | Some ?sub =>
          match goal with H : lifted sub = Ok _, IHs : lift_complete sub |- _ =>
            destruct (IHs _ H) as [w Hw]; [by rewrite ?holds_inscribe in Hh|];
            exists w; by eapply Wit_wrapper
          end
      end
    end).
  all: try solve [destruct (proj1 (available_spec _) Hh) as [w Hw]; eexists;
    first [by apply Wit_pk_k | eapply Wit_hash; cbn; by rewrite Hw]].
  all: rewrite ?holds_or, ?holds_and in Hh.
  - eexists. apply Wit_true.
  - done.
  - destruct (proj1 (available_spec _) Hh) as [w Hw], (key_lengths p') as [len Hlen].
    eexists. by eapply Wit_pk_h.
  - done.
  - eexists. by apply Wit_after.
  - destruct (rel_to_relative n) as [n'|] eqn:E; [|done]. eexists. by eapply Wit_older.
  - eexists. by apply Wit_tx_template.
  - satisfied_child s w. eexists. by apply Wit_dup_if.
  - apply andb_true_iff in Hh as [Hl Hr]. satisfied_child l wl. satisfied_child r wr.
    eexists. by apply Wit_and_v.
  - apply andb_true_iff in Hh as [Hl Hr]. satisfied_child l wl. satisfied_child r wr.
    eexists. by apply Wit_and_b.
  - apply orb_true_iff in Hh as [[Ha Hb]%andb_true_iff|Hx].
    + satisfied_child a wa. satisfied_child b wb. eexists. by apply Wit_and_or_then.
    + dissatisfied_child a wa. satisfied_child c wc. eexists. by apply Wit_and_or_else.
  - apply orb_true_iff in Hh as [Hl|Hr].
    + satisfied_child l wl. dissatisfied_child r wr. eexists. by apply Wit_or_b_l.
    + dissatisfied_child l wl. satisfied_child r wr. eexists. by apply Wit_or_b_r.
  - apply orb_true_iff in Hh as [Hl|Hr].
    + satisfied_child l wl. eexists. by apply Wit_or_d_l.
    + dissatisfied_child l wl. satisfied_child r wr. eexists. by apply Wit_or_d_r.
  - apply orb_true_iff in Hh as [Hl|Hr].
    + satisfied_child l wl. eexists. by apply Wit_or_c_l.
    + dissatisfied_child l wl. satisfied_child r wr. eexists. by apply Wit_or_c_r.
  - apply orb_true_iff in Hh as [Hl|Hr].
    + satisfied_child l wl. eexists. by apply Wit_or_i_l.
    + satisfied_child r wr. eexists. by apply Wit_or_i_r.
  - destruct th as [k inner]. cbn [terminal_children terminal_as_node Threshold.data Threshold.inner] in *.
    rewrite lift_node_thresh in Hn by (symmetry; by eapply Forall2_length).
    injection Hn as <-. apply Nat.leb_le in Hh.
    destruct (choose_children inner subs k) as (bs & ws & Hw & Hk); [|done|].
    + match goal with H : Forall (fun ms => _ /\ dissat_of ms = true) inner |- _ => rename H into Hd end.
      clear -Hs IH Hwc Hd Hctx L. induction Hs as [|c q inner subs Hc _ IHs]; [constructor|].
      apply Forall_cons_1 in IH as [? ?], Hwc as [? ?], Hd as [[_ ?] ?].
      constructor; [split; [eauto|]|auto]. apply dissat_exists; [done | by eapply lifted_raw | done].
    + eexists. by eapply Wit_thresh.
  - apply Nat.leb_le in Hh. destruct th as [k pks]. apply choose_keys in Hh as (sub & ws & H1 & H2 & H3).
    eexists. by eapply Wit_multi.
  - apply Nat.leb_le in Hh. destruct th as [k pks].
    unfold Threshold.forget_maximum, Threshold.map in Hh. cbn [Threshold.k Threshold.inner] in Hh.
    rewrite (count_if_perm _ _ (map Semantic.Key (rev pks))) in Hh
      by apply Permutation_map, Permutation_rev.
    apply choose_items in Hh as (chosen & ws & H1 & H2). eexists. by eapply Wit_multi_a.
Qed.
End Meaning.

(** C17: Lifting never panics. It refuses a Miniscript that exceeds the resource limits, then
    one whose spending can need a height and a time lock together, then one with a raw key
    hash; in every other case it returns a policy in normal form, and that policy is exact:
    the given assets satisfy it if and only if the Miniscript has a satisfaction made of
    these assets. *)
Theorem lift_spec {B : Bitcoin} {Sp : Spending} {K : MiniscriptKey} {L : LockTimeLaws B}
    ctx ms :
  wf ctx ms -> ctx <> NoChecks ->
  if negb (within_resource_limits ctx ms) then
    lift ctx ms = Some (Err LiftError.BranchExceedResourceLimits)
  else if has_mixed_timelocks ms then
    lift ctx ms = Some (Err LiftError.HeightTimelockCombination)
  else if contains_raw_pkh ms then
    lift ctx ms = Some (Err LiftError.RawDescriptorLift)
  else exists p, lift ctx ms = Some (Ok p) /\ normal p
    /\ forall (P : AssetProvider) leaf_hash,
         holds (assets_meet ctx leaf_hash) p = true <-> exists w, Wit ctx leaf_hash true ms w.
Proof.
  intros Hwf Hctx. rewrite lift_eq. unfold lift_check.
  destruct (negb (within_resource_limits ctx ms)); [done|].
  destruct (has_mixed_timelocks ms); [done|].
  pose proof (lifted_error ms) as Hl. unfold lifts_unless_raw in Hl.
  destruct (contains_raw_pkh ms); [by rewrite Hl|]. destruct Hl as [p Hp].
  exists (norm p). rewrite Hp. split; [done|]. split; [apply norm_normal|].
  intros P leaf_hash. rewrite (norm_equivalent p). split.
  - by apply lift_complete_all.
  - intros [w Hw]. by apply (proj1 (lift_sound_all ctx leaf_hash) true ms w Hw eq_refl).
Qed.

Lemma lift_spec_witness :
  exists p, lift Segwitv0 (sample_vault Segwitv0) = Some (Ok p) /\ normal p
    /\ forall (P : AssetProvider) leaf_hash,
         holds (assets_meet (Sp := reference_spending) Segwitv0 leaf_hash) p = true
         <-> exists w, Wit Segwitv0 leaf_hash true (sample_vault Segwitv0) w.
Proof.
  assert (within_resource_limits Segwitv0 (sample_vault Segwitv0) = true) as H1
    by (vm_compute; reflexivity).
  assert (has_mixed_timelocks (sample_vault Segwitv0) = false) as H2 by (vm_compute; reflexivity).
  assert (contains_raw_pkh (sample_vault Segwitv0) = false) as H3 by (vm_compute; reflexivity).
  pose proof (lift_spec (Sp := reference_spending) Segwitv0 (sample_vault Segwitv0)
    sample_vault_wf ltac:(discriminate)) as H.
  rewrite H1, H2, H3 in H. exact H.
Defined.
