(* ===== verification/SatComplete.v ===== *)
(** The malleable satisfier is complete: it finds a witness whenever the assets satisfy the
    lifted policy ([satisfy_malleable] of src/src/miniscript/mod.rs against [lift]). *)
From stdpp Require Import sorting.
From S2P Require Import Prelude Bitcoin Primitives Reference Ord Correctness Malleability Types ExtData Tree StackLoop Ast Context Samples Views Encode Satisfy WitSpec Shape SatTotal Semantic PolicyNormal Lift.

Lemma option_Z_leb_trans x y z :
  option_Z_leb x y = true -> option_Z_leb y z = true -> option_Z_leb x z = true.
Proof. destruct x, y, z; simpl; try done. rewrite !Z.leb_le. lia. Qed.

(** * Choosing the satisfactions of a threshold *)

Section Choose.
Context {B : Bitcoin} {Sp : Spending} {K : MiniscriptKey}.
Abbreviation Sat := (Satisfaction Placeholder).

Definition has_stack (s : Sat) : bool := available (stack s).

(** Weights of available satisfactions are below the weight of unavailable ones. *)
Definition weight_fits (s : Sat) : Prop :=
  forall w, stack s = Witness.Stack w -> (Z.of_nat (witness_size w) < i64_MAX)%Z.

Lemma stack_weight_spec s d :
  weight_fits s -> has_stack d = true ->
  (if has_stack s then stack_weight (stack s) (stack d) < i64_MAX
   else stack_weight (stack s) (stack d) = i64_MAX)%Z.
Proof.
  unfold has_stack, weight_fits. intros Hs Hd.
  destruct (stack s) as [w| |]; simpl; [|done..]. specialize (Hs w eq_refl).
  destruct (stack d); try done. simpl. lia.
Qed.

Lemma available_combine {T} (a b : Witness T) : available (combine a b) = available a && available b.
Proof. by destruct a, b. Qed.

Lemma has_stack_concatenate a b : has_stack (concatenate_rev a b) = has_stack a && has_stack b.
Proof. unfold has_stack, concatenate_rev. cbn [stack]. by rewrite available_combine, andb_comm. Qed.

Lemma has_stack_flatten l : has_stack (flatten l) = forallb has_stack l.
Proof.
  unfold flatten. transitivity (has_stack empty_satisfaction && forallb has_stack l); [|done].
  generalize empty_satisfaction as acc. induction l as [|s l IH]; intros acc; simpl.
  { by rewrite andb_true_r. }
  by rewrite IH, has_stack_concatenate, <- andb_assoc.
Qed.

Lemma has_stack_minimum_mall a b : has_stack (minimum_mall a b) = has_stack a || has_stack b.
Proof.
  unfold minimum_mall, has_stack. destruct (stack a) eqn:Ha, (stack b) eqn:Hb;
    rewrite ?Ha, ?Hb; try done; by destruct (witness_lt _ _).
Qed.

Lemma has_stack_append s w : has_stack (append s w) = has_stack s && available w.
Proof. unfold append, has_stack. cbn [stack]. apply available_combine. Qed.

(** Counting over the indices of a list. *)
Definition at_index (f : Sat -> bool) (l : list Sat) (i : nat) : bool :=
  match l !! i with Some s => f s | None => false end.

Lemma count_indices f (l : list Sat) :
  count_if f l = count_if (at_index f l) (seq 0 (length l)).
Proof.
  induction l as [|s l IH]; [done|]. cbn [length seq]. rewrite !count_if_cons. f_equal.
  rewrite <- seq_shift, count_if_map. exact IH.
Qed.

Lemma count_none {A} (f : A -> bool) l : (forall a, a ∈ l -> f a = false) -> count_if f l = 0.
Proof.
  induction l as [|a l IH]; intros H; [done|]. rewrite count_if_cons, H by by left.
  simpl. apply IH. intros b Hb. apply H. by right.
Qed.

Lemma count_all {A} (f : A -> bool) l : (forall a, a ∈ l -> f a = true) -> count_if f l = length l.
Proof.
  induction l as [|a l IH]; intros H; [done|]. rewrite count_if_cons, H by by left.
  simpl. f_equal. apply IH. intros b Hb. apply H. by right.
Qed.

Lemma count_below {A} (f : A -> bool) l a : a ∈ l -> f a = false -> count_if f l < length l.
Proof.
  intros Ha Hf. apply list_elem_of_split in Ha as (l1 & l2 & ->).
  rewrite count_if_app, count_if_cons, length_app, Hf. simpl.
  pose proof (count_if_length f l1). pose proof (count_if_length f l2). lia.
Qed.

(** The [k] cheapest satisfactions are available exactly when [k] of them are. *)
Lemma thresh_mall_available k (sats dissats : list Sat) r :
  k <= length sats -> length dissats = length sats ->
  Forall weight_fits sats -> Forall (fun d => has_stack d = true) dissats ->
  thresh_mall k sats dissats = Some r -> has_stack r = (k <=? count_if has_stack sats).
Proof.
  intros Hk Hl Hfit Hd. unfold thresh_mall.
  destruct (sorted_indices option_Z_leb (thresh_mall_key sats dissats) (length sats)) as (Hlen & Hnd & Hlt).
  pose proof (sort_by_key_sorted option_Z_leb (thresh_mall_key sats dissats) option_Z_leb_total
                (seq 0 (length sats))) as Hs.
  pose proof (sort_by_key_perm option_Z_leb (thresh_mall_key sats dissats) (seq 0 (length sats))) as Hp.
  set (idxs := sort_by_key _ _ _) in *.
  destruct (swap_all (take k idxs) (dissats, sats)) as [[ret sats']|] eqn:Hsw; [|done].
  cbn [mbind option_bind]. intros [= <-]. rewrite has_stack_flatten.
  assert (NoDup (take k idxs)) as Hndk by (eapply sublist_NoDup; [exact Hnd | apply sublist_take]).
  destruct (swap_all_lookup _ _ _ _ _ Hndk Hl Hsw) as (Hl1 & _ & _ & Hlook).
  rewrite count_indices, <- (count_if_perm _ _ _ Hp).
  rewrite <- (take_drop k idxs), count_if_app.
  assert (length (take k idxs) = k) as Hlk by (rewrite length_take; lia).
  assert (forallb has_stack ret = true
          <-> forall i, i ∈ take k idxs -> at_index has_stack sats i = true) as Hret.
  { rewrite forallb_forall. split.
    - intros H i Hi. unfold at_index. destruct (Hlook i) as [Hri _].
      rewrite bool_decide_eq_true_2 in Hri by done.
      destruct (sats !! i) as [s|] eqn:Es.
      + apply H. apply list_elem_of_In. by eapply list_elem_of_lookup_2.
      + exfalso. apply lookup_ge_None in Es. rewrite List.Forall_forall in Hlt.
        assert (i ∈ idxs) as Hin by (rewrite <- (take_drop k idxs); apply elem_of_app; by left).
        apply list_elem_of_In, Hlt in Hin. lia.
    - intros H s Hin. apply list_elem_of_In, list_elem_of_lookup in Hin as [i Hi].
      destruct (Hlook i) as [Hri _]. rewrite Hi in Hri. symmetry in Hri.
      case_bool_decide as Hik.
      + specialize (H i Hik). unfold at_index in H. by rewrite Hri in H.
      + rewrite List.Forall_forall in Hd. apply Hd, list_elem_of_In. by eapply list_elem_of_lookup_2. }
  apply eq_iff_eq_true. rewrite Hret, Nat.leb_le. split.
  - intros H. rewrite (count_all _ _ H). lia.
  - intros H i Hi. apply not_false_iff_true. intros Hf.
    pose proof (count_below _ _ _ Hi Hf) as Hb. rewrite Hlk in Hb.
    enough (count_if (at_index has_stack sats) (drop k idxs) = 0) by lia.
    apply count_none. intros j Hj. apply not_true_iff_false. intros Hjt.
    apply Sorted.Sorted_StronglySorted in Hs.
    2: { intros x y z. apply option_Z_leb_trans. }
    rewrite <- (take_drop k idxs) in Hs.
    pose proof (StronglySorted_app_1_elem_of _ _ _ _ _ Hs Hi Hj) as Hle.
    assert (forall j, j ∈ idxs -> exists s d, sats !! j = Some s /\ dissats !! j = Some d
              /\ weight_fits s /\ has_stack d = true) as Hget.
    { intros x Hx. apply list_elem_of_In in Hx. rewrite List.Forall_forall in Hlt.
      apply Hlt in Hx. destruct (lookup_lt_is_Some_2 sats x Hx) as [s Es].
      destruct (lookup_lt_is_Some_2 dissats x) as [d Ed]; [lia|].
      exists s, d. split_and!; [done | done | by eapply Forall_lookup_1 |].
      exact (Forall_lookup_1 _ _ _ _ Hd Ed). }
    destruct (Hget i) as (s & d & Es & Ed & Hs1 & Hd1).
    { rewrite <- (take_drop k idxs). apply elem_of_app. by left. }
    destruct (Hget j) as (s' & d' & Es' & Ed' & Hs2 & Hd2).
    { rewrite <- (take_drop k idxs). apply elem_of_app. by right. }
    unfold at_index in Hf, Hjt. rewrite Es in Hf. rewrite Es' in Hjt.
    unfold key_le, thresh_mall_key in Hle. rewrite Es, Ed, Es', Ed' in Hle. simpl in Hle.
    apply Z.leb_le in Hle.
    pose proof (stack_weight_spec s d Hs1 Hd1) as W1. rewrite Hf in W1.
    pose proof (stack_weight_spec s' d' Hs2 Hd2) as W2. rewrite Hjt in W2. lia.
Qed.
End Choose.

(** * Every fragment *)

Section Complete.
Context {B : Bitcoin} {Sp : Spending} {K : MiniscriptKey} {L : LockTimeLaws B} {P : AssetProvider}.
Context (ctx : ScriptContext) (root_has_sig : bool) (leaf_hash : TapLeafHash) (Hctx : ctx <> NoChecks).
Abbreviation Policy := Semantic.Policy.
Abbreviation sat := (satisfy_helper ctx root_has_sig leaf_hash minimum_mall thresh_mall).
Abbreviation dissat := (dissatisfy_helper ctx root_has_sig leaf_hash minimum_mall thresh_mall).
Abbreviation holds := (holds (assets_meet ctx leaf_hash)).

(** Every satisfaction of the node is lighter than the weight of a missing one. *)
Definition fits (ms : Miniscript) : Prop :=
  forall w, Wit ctx leaf_hash true ms w -> (Z.of_nat (witness_size w) < i64_MAX)%Z.

Lemma multi_sigs_count pks :
  exists sigs, multi_sigs ctx leaf_hash pks = Some sigs
    /\ length sigs = count_if holds (map Semantic.Key pks).
Proof.
  induction pks as [|pk pks (sigs & H1 & H2)]; [by exists []|].
  cbn [multi_sigs map]. rewrite count_if_cons. cbn [PolicyNormal.holds assets_meet].
  destruct (signature ctx leaf_hash pk) as [w| |] eqn:E; simpl.
  - rewrite H1. exists (w :: sigs). simpl. by rewrite H2.
  - by apply signature_available in E.
  - by exists sigs.
Qed.

Lemma satisfy_multi_available thresh r :
  Threshold.k thresh <= count_if holds (map Semantic.Key (Threshold.inner thresh)) ->
  satisfy_multi ctx leaf_hash thresh = Some r -> has_stack r = true.
Proof.
  intros Hk. unfold satisfy_multi, Threshold.data.
  destruct (multi_sigs_count (Threshold.inner thresh)) as (sigs & -> & Hl). cbn [mbind option_bind].
  destruct (Nat.ltb_spec (length sigs) (Threshold.k thresh)); [lia|].
  destruct (throw_away _ sigs) as [sigs'|]; [|done]. cbn [mbind option_bind]. intros [= <-].
  unfold has_stack, push_0. cbn [stack]. by rewrite fold_combine.
Qed.

Lemma multi_a_sigs_count k i cnt pks sigs n sigs' :
  cnt < k <= cnt + count_if holds (map Semantic.Key pks) ->
  multi_a_sigs ctx leaf_hash k i cnt pks sigs = Some (n, sigs') -> k <= n.
Proof.
  revert i cnt sigs. induction pks as [|pk pks IH]; intros i cnt sigs Hk H; cbn [map] in Hk.
  { unfold count_if, sum_by in Hk. simpl in Hk. lia. }
  rewrite count_if_cons in Hk. cbn [PolicyNormal.holds assets_meet] in Hk. cbn [multi_a_sigs] in H.
  destruct (signature ctx leaf_hash pk) as [w| |] eqn:E; [|done|]; simpl in Hk.
  - destruct (Nat.eqb_spec (cnt + 1) k); [injection H as <- _; lia|]. apply IH in H; [done | lia].
  - apply IH in H; [done | lia].
Qed.

Lemma satisfy_multi_a_available thresh r :
  1 <= Threshold.k thresh <= count_if holds (map Semantic.Key (Threshold.inner thresh)) ->
  satisfy_multi_a ctx leaf_hash thresh = Some r -> has_stack r = true.
Proof.
  intros Hk. unfold satisfy_multi_a.
  destruct (multi_a_sigs _ _ _ _ _ _ _) as [[n sigs]|] eqn:E; [|done]. cbn [mbind option_bind].
  apply multi_a_sigs_count in E.
  - destruct (Nat.ltb_spec n (Threshold.k thresh)); [lia|]. intros [= <-].
    unfold has_stack, empty. cbn [stack]. by rewrite fold_combine.
  - unfold Threshold.data. rewrite (count_if_perm _ _ (map Semantic.Key (Threshold.inner thresh))); [lia|].
    apply Permutation_map, Permutation_sym, Permutation_rev.
Qed.

Definition complete (ms : Miniscript) : Prop :=
  forall p s, lifted ms = Ok p -> sat ms = Some s -> holds p = true -> has_stack s = true.

Lemma has_dissat ms d :
  wf ctx ms -> contains_raw_pkh ms = false -> dissat_of ms = true -> dissat ms = Some d ->
  has_stack d = true.
Proof.
  intros Hwf Hr Hd Hs.
  destruct (total_all ctx root_has_sig leaf_hash minimum_mall thresh_mall Hctx ms Hwf Hr)
    as (_ & d' & Hd' & Hu).
  assert (d' = d) as -> by congruence. destruct (Hu Hd) as [[w Hw] _]. unfold has_stack. by rewrite Hw.
Qed.

Lemma complete_thresh k inner t e :
  Forall (wf ctx) inner -> Forall complete inner -> Forall fits inner ->
  Forall (fun ms => dissat_of ms = true) inner -> 1 <= k <= length inner ->
  complete (mkMiniscript (Terminal.Thresh (mkThreshold k inner)) t e).
Proof.
  intros Hwf Hc Hf Hd Hk p s Hp Hs Hh.
  apply lifted_inv in Hp as (ps & Hps & Hn).
  cbn [terminal_children terminal_as_node Threshold.data Threshold.inner] in Hps.
  rewrite lift_node_thresh in Hn by (symmetry; by eapply Forall2_length). injection Hn as <-.
  change ((k <=? count_if holds ps) = true) in Hh. apply Nat.leb_le in Hh.
  change (sat (mkMiniscript (Terminal.Thresh (mkThreshold k inner)) t e))
    with (if k =? length inner then sats ← mapM sat inner; Some (flatten sats)
          else sats ← mapM sat inner; ret_stack ← mapM dissat inner; thresh_mall k sats ret_stack) in Hs.
  destruct (mapM sat inner) as [sats|] eqn:Hsats; [|by destruct (k =? length inner)].
  apply mapM_Some in Hsats.
  assert (count_if holds ps <= count_if has_stack sats) as Hcount.
  { clear -Hsats Hps Hc. revert ps Hps. induction Hsats as [|c s inner sats Hs _ IH]; intros ps Hps.
    - by apply Forall2_nil_inv_l in Hps as ->.
    - apply Forall2_cons_inv_l in Hps as (q & qs & Hq & Hqs & ->).
      apply Forall_cons_1 in Hc as [Hcc Hc]. rewrite !count_if_cons. specialize (IH Hc qs Hqs).
      specialize (Hcc q s Hq Hs). destruct (holds q); simpl; [rewrite Hcc by done; simpl|]; lia. }
  pose proof (Forall2_length Hsats) as Hl1. pose proof (Forall2_length Hps) as Hl2.
  destruct (Nat.eqb_spec k (length inner)) as [->|Hne]; cbn [mbind option_bind] in Hs.
  - injection Hs as <-. rewrite has_stack_flatten. apply count_if_all. lia.
  - destruct (mapM dissat inner) as [ds|] eqn:Hds; [|done]. cbn [mbind option_bind] in Hs.
    apply mapM_Some in Hds. pose proof (Forall2_length Hds) as Hl3.
    rewrite (thresh_mall_available k sats ds s); [apply Nat.leb_le; lia | lia | lia | | | done].
    + clear -Hsats Hf Hwf. induction Hsats as [|c s inner sats Hs _ IH]; [constructor|].
      apply Forall_cons_1 in Hf as [Hfc Hf], Hwf as [Hwc Hwf]. constructor; [|by apply IH].
      intros w Hw. apply Hfc.
      exact (proj1 (refines_all ctx root_has_sig leaf_hash minimum_mall thresh_mall c Hwc) s w Hs Hw).
    + assert (Forall (fun c => contains_raw_pkh c = false) inner) as Hr.
      { clear -Hps. induction Hps as [|c q l qs Hq _ IH]; constructor; [by eapply lifted_raw | done]. }
      clear -Hds Hd Hwf Hr Hctx L. induction Hds as [|c d inner ds Hs _ IH]; [constructor|].
      apply Forall_cons_1 in Hd as [? ?], Hwf as [? ?], Hr as [? ?].
      constructor; [by eapply has_dissat | by apply IH].
Qed.

(** The policies of the children, and the results of the helpers for them. *)
Ltac open_complete :=
  lazymatch goal with
  | Hwf : wf ctx (mkMiniscript _ _ _), Hwc : Forall (wf ctx) _, HC : Forall complete _,
    Hp : lifted _ = Ok _ |- _ =>
      let Hv := fresh "Hv" in let Hview := fresh "Hview" in let ps := fresh "ps" in
      let Hps := fresh "Hps" in let Hn := fresh "Hn" in
      destruct (wf_view ctx _ _ _ Hwf) as (_ & Hv & Hview); cbn [corr_view] in Hview;
      destruct_and? Hview; apply lifted_inv in Hp as (ps & Hps & Hn);
      lift_children Hps; cbn in Hn; forall_children Hwc; forall_children HC
  end.

(** Restores the recursive calls. *)
Ltac unfold_calls Hs :=
  fold (satisfy_helper ctx root_has_sig leaf_hash minimum_mall thresh_mall) in Hs;
  fold (dissatisfy_helper ctx root_has_sig leaf_hash minimum_mall thresh_mall) in Hs.

(** What is known of the satisfactions and dissatisfactions of the children. *)
Ltac use_parts :=
  repeat match goal with
  | HC : complete ?c, Hl : lifted ?c = Ok ?q, Hs : sat ?c = Some ?x |- _ =>
      pose proof (HC q x Hl Hs); clear HC
  end;
  repeat match goal with
  | Hw : wf ctx ?c, Hl : lifted ?c = Ok ?q, Hd : dissat ?c = Some ?d, Hdd : dissat_of ?c = true |- _ =>
      pose proof (has_dissat c d Hw (lifted_raw c q Hl) Hdd Hd); clear Hd
  end.

Lemma complete_all ms : wf ctx ms -> Forall fits (pre_order ms) -> complete ms.
Proof.
  revert ms. refine (wf_tree_ind ctx _ _). intros ms Hwf Hwc IH Hfit.
  rewrite pre_order_eq in Hfit. apply Forall_cons_1 in Hfit as [_ Hfit].
  assert (Forall complete (children ms) /\ Forall fits (children ms)) as [HC HF].
  { clear -IH Hfit. induction IH as [|c l Hc _ IHl]; [by split; constructor|].
    cbn [flat_map] in Hfit. apply Forall_app in Hfit as [H1 H2]. destruct (IHl H2) as [? ?].
    split; constructor; auto. rewrite pre_order_eq in H1. by apply Forall_cons_1 in H1 as [? _]. }
  clear IH Hfit. destruct ms as [nd t e]. rewrite children_node in Hwc, HC, HF. cbn [node] in *.
  destruct nd as [| | p' | p' | h | n | n | x | x | x | x | h | j s | j s | s | s | s | s | s | s | s
                   | l r | l r | a b c | l r | l r | l r | l r | th | th | th];
    try (destruct th as [k inner]; apply complete_thresh; try done;
         destruct (wf_view ctx _ _ _ Hwf) as (_ & Hv & Hview); [|apply Hv];
         destruct Hview as (Hview & _); eapply List.Forall_impl; [|exact Hview]; by intros ? [_ ?]);
    intros p s0 Hp Hs Hh; open_complete; try (injection Hn as <-);
    cbn [satisfy_helper dissatisfy_helper] in Hs; unfold_calls Hs; inv_bind Hs;
    try (injection Hs as <-); use_parts;
    rewrite ?holds_or, ?holds_and, ?holds_inscribe in Hh;
    rewrite ?has_stack_minimum_mall, ?has_stack_append, ?has_stack_concatenate;
    repeat match goal with
    | H : ?b = true -> has_stack ?x = true |- _ =>
        destruct b; [rewrite (H eq_refl) | destruct (has_stack x)]; clear H
    | H : has_stack ?x = true |- _ => rewrite H; clear H
    end; try done.
  - unfold has_stack. cbn [stack]. rewrite available_combine. cbn [available]. rewrite andb_true_r. exact Hh.
  - cbn [PolicyNormal.holds assets_meet] in Hh. rewrite Hh in Hs. injection Hs as <-. done.
  - cbn [PolicyNormal.holds assets_meet] in Hh. rewrite Hx in Hh. rewrite Hh in Hs.
    injection Hs as <-. done.
  - cbn [PolicyNormal.holds assets_meet] in Hh. by rewrite Hh.
  - change ((Threshold.k th <=? count_if holds (map Semantic.Key (Threshold.inner th))) = true) in Hh.
    apply Nat.leb_le in Hh. by eapply satisfy_multi_available.
  - change ((Threshold.k th <=? count_if holds (map Semantic.Key (Threshold.inner th))) = true) in Hh.
    apply Nat.leb_le in Hh. eapply satisfy_multi_a_available; [|done].
    destruct Hv as [[Hv _] _]. split; [exact Hv | exact Hh].
Qed.

(** ** How large a witness can get *)

(** The sizes that the provider and the serialisation of lengths promise. *)
Definition sizes_bounded : Prop :=
  (forall pk n, provider_lookup_tap_leaf_script_sig pk leaf_hash = Some n -> n <= 65)
  /\ (forall n, VarInt_size n <= 9).

(** The bytes that a fragment can add to the witnesses of its children. *)
Definition own_bytes (term : Terminal Miniscript) : nat :=
  match term with
  | Terminal.PkK _ | Terminal.PkH _ | Terminal.RawPkH _ => 140
  | Terminal.Sha256 _ | Terminal.Hash256 _ | Terminal.Ripemd160 _ | Terminal.Hash160 _ => 33
  | Terminal.DupIf _ | Terminal.OrI _ _ => 2
  | Terminal.NonZero _ => 1
  | Terminal.Multi thresh | Terminal.MultiA thresh =>
      1 + 73 * (Threshold.n thresh + Threshold.k thresh)
  | _ => 0
  end.

Definition witness_bytes : Miniscript -> nat :=
  tree_fold (fun ms l => own_bytes (node ms) + list_sum l).

Lemma witness_bytes_eq ms :
  witness_bytes ms = own_bytes (node ms) + sum_by witness_bytes (terminal_children (node ms)).
Proof. unfold witness_bytes at 1. by rewrite tree_fold_eq, children_node. Qed.

Hypothesis Hsizes : sizes_bounded.

Lemma signature_size pk w : signature ctx leaf_hash pk = Witness.Stack w -> sum_by size w <= 73.
Proof.
  unfold signature. destruct (sig_type ctx).
  - destruct (provider_lookup_ecdsa_sig pk); [|done]. intros [= <-]. unfold sum_by. simpl. lia.
  - destruct (provider_lookup_tap_leaf_script_sig pk leaf_hash) as [n|] eqn:E; [|done].
    intros [= <-]. apply (proj1 Hsizes) in E. unfold sum_by. simpl. lia.
Qed.

Lemma sum_concat_rev (ws : list (list Placeholder)) :
  sum_by size (concat (rev ws)) = sum_by (sum_by size) ws.
Proof.
  induction ws as [|w ws IH]; [done|]. cbn [rev]. rewrite concat_app, sum_by_app, IH, sum_by_cons.
  cbn [concat]. rewrite app_nil_r. lia.
Qed.

Lemma sum_concat (ws : list (list Placeholder)) : sum_by size (concat ws) = sum_by (sum_by size) ws.
Proof.
  induction ws as [|w ws IH]; [done|]. cbn [concat]. by rewrite sum_by_app, IH, sum_by_cons.
Qed.

Lemma sum_repeat_zero n : sum_by size (repeat Placeholder.PushZero n) = n.
Proof. induction n as [|n IH]; [done|]. cbn [repeat]. rewrite sum_by_cons, IH. done. Qed.

Lemma signatures_size pks ws :
  Forall2 (fun pk w => signature ctx leaf_hash pk = Witness.Stack w) pks ws ->
  sum_by (sum_by size) ws <= 73 * length pks.
Proof.
  induction 1 as [|pk w pks ws H _ IH]; [done|]. apply signature_size in H.
  rewrite sum_by_cons. simpl. lia.
Qed.

Lemma items_size pks chosen ws :
  Forall3 (multi_a_item ctx leaf_hash) pks chosen ws -> sum_by (sum_by size) ws <= 73 * length pks.
Proof.
  induction 1 as [|pk b w pks chosen ws H _ IH]; [done|]. rewrite sum_by_cons. simpl.
  destruct b; simpl in H; [apply signature_size in H | subst; unfold sum_by at 1; simpl]; lia.
Qed.

Lemma raw_free_child ms c :
  contains_raw_pkh ms = false -> c ∈ children ms -> contains_raw_pkh c = false.
Proof.
  intros H Hc. apply existsb_pre_order in H as [_ H]. rewrite List.Forall_forall in H.
  by apply H, list_elem_of_In.
Qed.

Lemma witness_size_bound :
  (forall b ms w, Wit ctx leaf_hash b ms w -> contains_raw_pkh ms = false ->
     sum_by size w <= witness_bytes ms)
  /\ (forall bs mss ws, WitList ctx leaf_hash bs mss ws ->
     Forall (fun c => contains_raw_pkh c = false) mss ->
     sum_by (sum_by size) ws <= sum_by witness_bytes mss).
Proof.
  apply Wit_WitList_ind; intros;
    try match goal with H : contains_raw_pkh (mkMiniscript _ _ _) = false |- _ =>
      apply existsb_pre_order in H as [Hr Hrc]; rewrite children_node in Hrc; cbn [node] in Hrc, Hr;
      forall_children Hrc
    end;
    repeat match goal with
    | IH : contains_raw_pkh ?c = false -> _, H : existsb _ (pre_order ?c) = false |- _ =>
        specialize (IH H)
    | H : signature _ _ _ = Witness.Stack _ |- _ => apply signature_size in H
    | H : pk_len _ _ = Some ?len |- _ =>
        assert (len <= 66) by
          (clear -H; unfold pk_len in H; repeat case_match; simplify_eq; lia); clear H
    end;
    rewrite ?witness_bytes_eq; cbn [node own_bytes terminal_children terminal_as_node Threshold.data];
    rewrite ?sum_by_app, ?sum_by_cons, ?sum_concat_rev, ?sum_concat, ?sum_repeat_zero;
    try solve [done | unfold sum_by in *; simpl in *; lia].
  - destruct term; try done; cbn [preimage] in e0; injection e0 as e0;
      unfold sha256_preimage, hash256_preimage, ripemd160_preimage, hash160_preimage in e0;
      case_match; try done; injection e0 as <-; unfold sum_by; simpl; lia.
  - destruct term; try done; cbn [sat_wrapper] in e0; injection e0 as <-;
      apply Forall_cons_1 in Hrc as [Hrc _]; specialize (H Hrc);
      cbn [terminal_children terminal_as_node]; rewrite sum_by_cons; lia.
  - specialize (H Hrc). unfold Threshold.data. cbn [Threshold.inner]. lia.
  - match goal with H : Forall2 _ pks ws |- _ => apply signatures_size in H end.
    match goal with H : sublist _ _ |- _ => apply sublist_length in H end.
    unfold Threshold.n, Threshold.data in *. change (size Placeholder.PushZero) with 1. lia.
  - match goal with H : Forall3 _ _ _ _ |- _ => apply items_size in H; rewrite length_rev in H end.
    unfold Threshold.n, Threshold.data in *. lia.
  - destruct term; try done; unfold sum_by; simpl; lia.
  - destruct term; try done; cbn [dissat_wrapper] in e0; injection e0 as <-;
      apply Forall_cons_1 in Hrc as [Hrc _]; specialize (H Hrc);
      cbn [terminal_children terminal_as_node]; rewrite sum_by_cons; lia.
  - destruct term; try done; cbn [dissat_pair] in e0; injection e0 as <- <-;
      forall_children Hrc;
      repeat match goal with
      | IH : contains_raw_pkh ?c = false -> _, H : existsb _ (pre_order ?c) = false |- _ =>
          specialize (IH H)
      end;
      cbn [terminal_children terminal_as_node]; rewrite !sum_by_cons; lia.
  - specialize (H Hrc). unfold Threshold.data. cbn [Threshold.inner]. lia.
  - match goal with H : Forall _ (_ :: _) |- _ => apply Forall_cons_1 in H as [H1' H2'] end.
    specialize (H H1'). specialize (H0 H2'). lia.
Qed.

Lemma fits_all ms :
  contains_raw_pkh ms = false -> (Z.of_nat (witness_bytes ms) + 9 < i64_MAX)%Z ->
  Forall fits (pre_order ms).
Proof.
  induction ms as [ms IH] using tree_ind. intros Hr Hb. rewrite pre_order_eq. constructor.
  - intros w Hw. pose proof (proj1 witness_size_bound _ _ _ Hw Hr).
    unfold witness_size, varint_len. pose proof (proj2 Hsizes (length w)). lia.
  - rewrite witness_bytes_eq, <- children_node in Hb. apply existsb_pre_order in Hr as [_ Hr].
    assert (forall c, c ∈ children ms -> witness_bytes c <= sum_by witness_bytes (children ms)) as Hle.
    { intros c Hc. apply list_elem_of_split in Hc as (l1 & l2 & ->).
      rewrite sum_by_app, sum_by_cons. lia. }
    apply Forall_flat_map.
    apply list.Forall_forall. intros c Hc. pose proof (Hle c Hc) as Hc'.
    pose proof (proj1 (list.Forall_forall _ _) IH c Hc) as IHc.
    pose proof (proj1 (list.Forall_forall _ _) Hr c Hc) as Hrc. apply IHc; [exact Hrc | lia].
Qed.
End Complete.

(** C18: Under the assets of a satisfier, lifting and satisfying agree: on a Miniscript that
    can be lifted, whose witnesses are shorter than 2^63 bytes, [satisfy_malleable] returns,
    and it returns a witness exactly when the assets satisfy the lifted policy. *)
Theorem satisfy_malleable_complete {B : Bitcoin} {Sp : Spending} {K : MiniscriptKey}
    {TP : ToPublicKey K} {L : LockTimeLaws B} {S : Satisfier} ctx ms p :
  wf ctx ms -> ctx <> NoChecks -> lift ctx ms = Some (Ok p) ->
  (forall pk lh s, lookup_tap_leaf_script_sig pk lh = Some s ->
     length (TaprootSignature_to_vec s) <= 65) ->
  (forall n, VarInt_size n <= 9) -> (Z.of_nat (witness_bytes ms) + 9 < i64_MAX)%Z ->
  exists r, satisfy_malleable ctx ms = Some r
    /\ ((exists w, r = Ok w) <-> holds (assets_meet ctx (leaf_hash_internal ctx ms)) p = true).
Proof.
  intros Hwf Hctx Hlift Hsig Hvar Hb.
  set (lh := leaf_hash_internal ctx ms). set (root := m_safe (mall (ty ms))).
  assert (exists q, lifted ms = Ok q /\ p = norm q) as (q & Hq & ->).
  { rewrite lift_eq in Hlift. destruct (lift_check ctx ms); [|done].
    destruct (lifted ms) as [q|]; [|done]. exists q. split; [done|]. cbn in Hlift. congruence. }
  pose proof (lifted_raw _ _ Hq) as Hr. rewrite (norm_equivalent q).
  assert (sizes_bounded lh) as Hs.
  { split; [|done]. intros pk n. cbn. destruct (lookup_tap_leaf_script_sig pk lh) as [s|] eqn:E; [|done].
    intros [= <-]. by eapply Hsig. }
  destruct (total_all ctx root lh minimum_mall thresh_mall Hctx ms Hwf Hr) as ([s Hsat] & _).
  assert (exists r, satisfaction_satisfy_mall ctx ms root lh = Some r
            /\ available (stack r) = has_stack s) as (r & Hcomp & Hav).
  { unfold satisfaction_satisfy_mall, build_template_mall. rewrite Hsat. cbn [mbind option_bind].
    unfold try_completing, has_stack. destruct (stack s) as [w| |] eqn:Ew; [|by eexists..].
    assert (completable w) as Hw.
    { apply (proj1 (completable_all ctx lh) true ms w); [|done].
      eapply (refined ctx lh root ms s w Hwf); [right; exact Hsat | exact Ew]. }
    destruct (mapM_total satisfy_self w Hw) as [v Hv]. rewrite Hv. by eexists. }
  exists (satisfy_result r). unfold satisfy_malleable. fold lh root. rewrite Hcomp. split; [done|].
  transitivity (has_stack s = true).
  - rewrite <- Hav. unfold satisfy_result. destruct (stack r); simpl; split; try done; eauto; by intros [? ?].
  - split.
    + intros H. apply available_spec in H as [w Hw].
      eapply (proj1 (lift_sound_all ctx lh) true ms w); [|done | done].
      by eapply (refined ctx lh root); [| right | ].
    + intros H. eapply (complete_all ctx root lh Hctx ms Hwf); [|done | done | done].
      by apply fits_all.
Qed.

(** The policy of the vault of the samples. *)
Definition sample_vault_policy : Semantic.Policy (B := reference) (K := reference_key) :=
  Semantic.Thresh (mkThreshold 1
    [Semantic.Key keyA;
     Semantic.Thresh (mkThreshold 2 [Semantic.Key keyB; Semantic.Older older_144])]).

Lemma sample_vault_lifts : lift Segwitv0 (sample_vault Segwitv0) = Some (Ok sample_vault_policy).
Proof. vm_cast_no_check (eq_refl (Some (Ok (E := LiftError) sample_vault_policy))). Qed.

(** The vault of the samples, spent by B alone after its delay. *)
Lemma satisfy_malleable_complete_witness :
  exists r, satisfy_malleable (S := sample_satisfier [keyB] 144 0) Segwitv0 (sample_vault Segwitv0)
            = Some r
    /\ ((exists w, r = Ok w)
        <-> holds (assets_meet (P := satisfier_provider (S := sample_satisfier [keyB] 144 0)) Segwitv0
                     (leaf_hash_internal Segwitv0 (sample_vault Segwitv0))) sample_vault_policy = true).
Proof.
  apply (satisfy_malleable_complete (S := sample_satisfier [keyB] 144 0)).
  - exact sample_vault_wf.
  - discriminate.
  - exact sample_vault_lifts.
  - intros pk lh s H. cbn in H. unfold sample_satisfier in H. cbn in H.
    destruct (decide _); [|done]. injection H as <-. cbn. lia.
  - intros n. unfold VarInt_size. cbn -[Nat.ltb]. destruct (Nat.ltb n 253); repeat constructor.
  - vm_compute. reflexivity.
Defined.
