(* ===== verification/TapTree.v ===== *)
(** Taproot trees (src/src/descriptor/tr/taptree.rs): the list of leaves with their depths,
    the builder with its bitmap of complete heights, and the rendering; and the binary trees
    that these lists stand for. *)
From S2P Require Import Prelude Bitcoin Primitives Ord Correctness Malleability Types ExtData Tree Ast Text.

(** A constant of the crate [bitcoin]. *)
Definition TAPROOT_CONTROL_MAX_NODE_COUNT : nat := 128.

(** [TapTreeDepthError], a unit structure. *)
Inductive TapTreeDepthError : Type := DepthError.

(** * Machine integers *)

(** [1 << h] on [u128]; [None] is the panic of a shift by the width or more. *)
Definition bit_u128 (h : nat) : option N := if h <? 128 then Some (N.shiftl 1 (N.of_nat h)) else None.

(** [!mask] on [u128] *)
Definition not_u128 (mask : N) : N := N.lnot mask 128.

(** [h + 1] on [u8]; [None] is the panic on overflow. *)
Definition succ_u8 (h : nat) : option nat := if h <? 255 then Some (h + 1) else None.

(** * Trees as the code has them *)

Section TapTree.
Context {B : Bitcoin} {K : MiniscriptKey}.

Record TapTree : Type := mkTapTree {
  depths_leaves : list (nat * Miniscript);
}.

Definition taptree_leaf (ms : Miniscript) : TapTree := mkTapTree [(0, ms)].

(** The loop of [combine]: every leaf one level deeper. *)
Fixpoint deepen (leaves : list (nat * Miniscript)) : option (result TapTreeDepthError (list (nat * Miniscript))) :=
  match leaves with
  | [] => Some (Ok [])
  | (depth, leaf) :: leaves =>
      if TAPROOT_CONTROL_MAX_NODE_COUNT - 1 <? depth then Some (Err DepthError)
      else
        depth ← succ_u8 depth;
        rest ← deepen leaves;
        Some (rest ← rest; Ok ((depth, leaf) :: rest))
  end.

Definition taptree_combine (left right : TapTree) : option (result TapTreeDepthError TapTree) :=
  rest ← deepen (depths_leaves left ++ depths_leaves right);
  Some (rest ← rest; Ok (mkTapTree rest)).

(** [leaves]: the items that [TapTreeIter] yields are the pairs of the list. *)
Definition taptree_leaves (self : TapTree) : list (nat * Miniscript) := depths_leaves self.

(** ** Rendering *)

(** [while last_depth < depth], and [while last_depth > depth]; the state is what was
    written and [last_depth]. *)
Definition open_braces (last_depth depth : nat) : str := repeat "{"%byte (depth - last_depth).
Definition close_braces (last_depth depth : nat) : str := repeat "}"%byte (last_depth - depth).

Fixpoint fmt_leaves (fmt_ms : Miniscript -> str) (items : list (nat * Miniscript)) (last_depth : nat) : str * nat :=
  match items with
  | [] => ([], last_depth)
  | (depth, ms) :: items =>
      let comma := if 0 <? last_depth then lit "," else [] in
      let opened := Nat.max last_depth depth in
      let '(rest, final) := fmt_leaves fmt_ms items (Nat.min opened depth) in
      (comma ++ open_braces last_depth depth ++ fmt_ms ms ++ close_braces opened depth ++ rest, final)
  end.

Definition fmt_helper (fmt_ms : Miniscript -> str) (view : TapTree) : str :=
  let '(text, last_depth) := fmt_leaves fmt_ms (taptree_leaves view) 0 in
  text ++ close_braces last_depth 0.

(** ** The builder *)

Record TapTreeBuilder : Type := mkBuilder {
  b_leaves : list (nat * Miniscript);
  complete_heights : N;
  complete_128 : bool;
  current_height : nat;
}.

Definition builder_new : TapTreeBuilder := mkBuilder [] 0 false 0.

Definition push_inner_node (self : TapTreeBuilder) : option (result TapTreeDepthError TapTreeBuilder) :=
  height ← succ_u8 (current_height self);
  Some (if TAPROOT_CONTROL_MAX_NODE_COUNT <? height then Err DepthError
        else Ok (mkBuilder (b_leaves self) (complete_heights self) (complete_128 self) height)).

(** The loop [while self.current_height > 0]. *)
Fixpoint complete_loop (complete_heights : N) (current_height : nat) : option (N * nat) :=
  match current_height with
  | 0 => Some (complete_heights, 0)
  | S lower =>
      bit ← bit_u128 current_height;
      if (N.land complete_heights bit =? 0)%N then Some (N.lor complete_heights bit, current_height)
      else complete_loop (N.land complete_heights (not_u128 bit)) lower
  end.

Definition push_leaf (self : TapTreeBuilder) (ms : Miniscript) : option TapTreeBuilder :=
  let leaves := b_leaves self ++ [(current_height self, ms)] in
  let finish complete_128 height :=
    '(bits, height) ← complete_loop (complete_heights self) height;
    Some (mkBuilder leaves bits complete_128 height) in
  if current_height self =? TAPROOT_CONTROL_MAX_NODE_COUNT then
    if complete_128 self then finish false (current_height self - 1)
    else Some (mkBuilder leaves (complete_heights self) true (current_height self))
  else finish (complete_128 self) (current_height self).

Definition finalize (self : TapTreeBuilder) : TapTree := mkTapTree (b_leaves self).

(** * Binary trees *)

Inductive bintree : Type :=
| Tip (ms : Miniscript)
| Fork (l r : bintree).

(** The list that stands for a tree whose root is at depth [d]. *)
Fixpoint leaves_at (d : nat) (t : bintree) : list (nat * Miniscript) :=
  match t with
  | Tip ms => [(d, ms)]
  | Fork l r => leaves_at (S d) l ++ leaves_at (S d) r
  end.

Definition from_bintree (t : bintree) : TapTree := mkTapTree (leaves_at 0 t).

Fixpoint bin_levels (t : bintree) : nat :=
  match t with Tip _ => 0 | Fork l r => S (Nat.max (bin_levels l) (bin_levels r)) end.

(** The builder fed with a tree in pre-order, as [Tr::from_tree] does. *)
Fixpoint build_tree (t : bintree) (b : TapTreeBuilder) : option (result TapTreeDepthError TapTreeBuilder) :=
  match t with
  | Tip ms => Ok <$> push_leaf b ms
  | Fork l r =>
      b ← push_inner_node b;
      match b with
      | Err e => Some (Err e)
      | Ok b =>
          b ← build_tree l b;
          match b with Err e => Some (Err e) | Ok b => build_tree r b end
      end
  end.

(** ** Combining *)

Lemma leaves_at_succ t d : leaves_at (S d) t = map (fun '(depth, ms) => (S depth, ms)) (leaves_at d t).
Proof. revert d. induction t as [ms|l IHl r IHr]; intros d; cbn; [done|]. by rewrite map_app, IHl, IHr. Qed.

Lemma deepen_ok l : (forall depth ms, In (depth, ms) l -> depth < 128) ->
  deepen l = Some (Ok (map (fun '(depth, ms) => (S depth, ms)) l)).
Proof.
  induction l as [|[depth ms] l IH]; intros H; [done|]. cbn [deepen map]. pose proof (H depth ms (or_introl eq_refl)) as Hd.
  rewrite (proj2 (Nat.ltb_ge _ _)) by (unfold TAPROOT_CONTROL_MAX_NODE_COUNT; lia). unfold succ_u8.
  rewrite (proj2 (Nat.ltb_lt _ _)), Nat.add_1_r by lia. cbn [mbind option_bind].
  rewrite IH by (intros depth' ms' Hin; apply (H depth' ms'); by right). done.
Qed.

Lemma deepen_err l : (forall depth ms, In (depth, ms) l -> depth <= 128) -> (exists ms, In (128, ms) l) ->
  deepen l = Some (Err DepthError).
Proof.
  induction l as [|[depth ms] l IH]; intros Hb [ms' Hin]; [done|]. cbn [deepen].
  destruct (Nat.ltb_spec (TAPROOT_CONTROL_MAX_NODE_COUNT - 1) depth) as [|Hlt]; [done|].
  unfold TAPROOT_CONTROL_MAX_NODE_COUNT in Hlt. unfold succ_u8. rewrite (proj2 (Nat.ltb_lt _ _)) by lia. cbn [mbind option_bind].
  rewrite IH; [done|intros ? ? H; eapply Hb; by right|]. destruct Hin as [[= -> ->]|Hin]; [lia|by exists ms'].
Qed.

Lemma leaves_at_bound t d depth ms : In (depth, ms) (leaves_at d t) -> d <= depth <= d + bin_levels t.
Proof.
  revert d. induction t as [ms'|l IHl r IHr]; intros d; cbn.
  - intros [[= -> _]|[]]. lia.
  - intros [H|H]%in_app_iff; [apply IHl in H|apply IHr in H]; lia.
Qed.

Lemma leaves_at_deepest t d : exists ms, In (d + bin_levels t, ms) (leaves_at d t).
Proof.
  revert d. induction t as [ms'|l IHl r IHr]; intros d; cbn.
  - exists ms'. left. by rewrite Nat.add_0_r.
  - destruct (IHl (S d)) as [m1 H1], (IHr (S d)) as [m2 H2].
    destruct (Nat.max_spec (bin_levels l) (bin_levels r)) as [[_ ->]|[_ ->]]; [exists m2|exists m1]; apply in_app_iff; [right|left];
      by rewrite <- Nat.add_succ_comm.
Qed.

Lemma taptree_combine_spec l r : bin_levels l <= 128 -> bin_levels r <= 128 ->
  taptree_combine (from_bintree l) (from_bintree r)
  = Some (if bin_levels (Fork l r) <=? 128 then Ok (from_bintree (Fork l r)) else Err DepthError).
Proof.
  intros Hl Hr. unfold taptree_combine, from_bintree. cbn [depths_leaves leaves_at bin_levels].
  destruct (Nat.leb_spec (S (Nat.max (bin_levels l) (bin_levels r))) 128) as [H|H].
  - rewrite deepen_ok; [cbn; by rewrite map_app, <- !leaves_at_succ|].
    intros depth ms [Hin|Hin]%in_app_iff; apply leaves_at_bound in Hin; lia.
  - rewrite deepen_err; [done| |].
    + intros depth ms [Hin|Hin]%in_app_iff; apply leaves_at_bound in Hin; lia.
    + destruct (Nat.max_spec (bin_levels l) (bin_levels r)) as [[_ Hm]|[_ Hm]]; rewrite Hm in H.
      * destruct (leaves_at_deepest r 0) as [ms Hin]. replace (0 + bin_levels r) with 128 in Hin by lia. exists ms. apply in_app_iff. by right.
      * destruct (leaves_at_deepest l 0) as [ms Hin]. replace (0 + bin_levels l) with 128 in Hin by lia. exists ms. apply in_app_iff. by left.
Qed.

(** ** The builder *)

(** No height above the current one is complete. *)
Definition above_clear (bits : N) (c128 : bool) (h : nat) : Prop :=
  (forall i, h < i -> N.testbit bits (N.of_nat i) = false) /\ (h < 128 -> c128 = false).

(** What happens when a subtree at height [h] is complete. *)
Definition completes (bits : N) (c128 : bool) (h : nat) : option (N * bool * nat) :=
  if h =? 128 then
    if c128 then '(bits, h) ← complete_loop bits 127; Some (bits, false, h)
    else Some (bits, true, h)
  else '(bits, h) ← complete_loop bits h; Some (bits, c128, h).

Lemma land_bit bits h : (N.land bits (N.shiftl 1 (N.of_nat h)) =? 0)%N = negb (N.testbit bits (N.of_nat h)).
Proof.
  apply eq_true_iff_eq. rewrite N.eqb_eq, negb_true_iff, N.shiftl_1_l. split; intros H.
  - pose proof (f_equal (fun n => N.testbit n (N.of_nat h)) H) as Ht. cbn beta in Ht.
    by rewrite N.land_spec, N.pow2_bits_true, andb_true_r, N.bits_0 in Ht.
  - apply N.bits_inj. intros i. rewrite N.land_spec, N.bits_0, N.pow2_bits_eqb.
    destruct (N.eqb_spec (N.of_nat h) i) as [<-|]; [by rewrite H|]. apply andb_false_r.
Qed.

Lemma lor_bit bits h i : N.testbit (N.lor bits (N.shiftl 1 h)) i = N.testbit bits i || (h =? i)%N.
Proof. by rewrite N.lor_spec, N.shiftl_1_l, N.pow2_bits_eqb. Qed.

(** Bits of a [u128]. *)
Definition is_u128 (n : N) : Prop := forall i, (128 <= i)%N -> N.testbit n i = false.

Lemma clear_bit bits h i : is_u128 bits ->
  N.testbit (N.land bits (not_u128 (N.shiftl 1 h))) i = N.testbit bits i && negb (h =? i)%N.
Proof.
  intros Hb. rewrite N.land_spec, N.shiftl_1_l. unfold not_u128. destruct (N.ltb_spec i 128).
  - rewrite N.lnot_spec_low by done. by rewrite N.pow2_bits_eqb.
  - by rewrite Hb.
Qed.

Definition height_ok (bits : N) (c128 : bool) (h : nat) : Prop :=
  is_u128 bits /\ above_clear bits c128 h.

Lemma complete_loop_unset bits h : 0 < h < 128 -> N.testbit bits (N.of_nat h) = false ->
  complete_loop bits h = Some (N.lor bits (N.shiftl 1 (N.of_nat h)), h).
Proof.
  intros Hh Hb. destruct h as [|h]; [lia|]. cbn [complete_loop]. unfold bit_u128.
  rewrite (proj2 (Nat.ltb_lt _ _)) by lia. cbn [mbind option_bind]. by rewrite land_bit, Hb.
Qed.

Lemma complete_loop_set bits h : S h < 128 -> N.testbit bits (N.of_nat (S h)) = true ->
  complete_loop bits (S h) = complete_loop (N.land bits (not_u128 (N.shiftl 1 (N.of_nat (S h))))) h.
Proof.
  intros Hh Hb. cbn [complete_loop]. unfold bit_u128.
  rewrite (proj2 (Nat.ltb_lt _ _)) by lia. cbn [mbind option_bind]. by rewrite land_bit, Hb.
Qed.

Lemma complete_loop_total h : forall bits, h < 128 -> is_Some (complete_loop bits h).
Proof.
  induction h as [|h IH]; intros bits Hh; [by eexists|]. destruct (N.testbit bits (N.of_nat (S h))) eqn:E.
  - rewrite complete_loop_set by done. apply IH. lia.
  - rewrite complete_loop_unset; [by eexists|lia|done].
Qed.

Lemma completes_total bits c128 h : h <= 128 -> exists bits' c' h', completes bits c128 h = Some (bits', c', h').
Proof.
  intros Hh. unfold completes.
  assert (forall b h, h < 128 -> exists bits' c' h', ('(bits, h) ← complete_loop bits h; Some (bits, b : bool, h)) = Some (bits', c', h')) as Hc.
  { intros b h' Hh'. destruct (complete_loop_total h' bits Hh') as [[? ?] ->]. by eexists _, _, _. }
  destruct (Nat.eqb_spec h 128); [|apply Hc; lia]. destruct c128; [apply Hc; lia|by eexists _, _, _].
Qed.

(** The left child of a node at height [h] leaves its height to the right one, which
    completes the node. *)
Lemma completes_left bits c128 h : h < 128 -> height_ok bits c128 h ->
  exists bits' c', completes bits c128 (S h) = Some (bits', c', S h) /\ height_ok bits' c' (S h)
    /\ completes bits' c' (S h) = completes bits c128 h.
Proof.
  intros Hh (Hu & Habove & Hc). specialize (Hc Hh) as ->. unfold completes.
  destruct (Nat.eqb_spec (S h) 128) as [Heq|Hne].
  - exists bits, true. replace h with 127 by lia. split; [done|]. split; [|done]. split; [done|]. split; [|lia].
    intros i Hi. apply Habove. lia.
  - rewrite complete_loop_unset by (try lia; apply Habove; lia). cbn [mbind option_bind].
    exists (N.lor bits (N.shiftl 1 (N.of_nat (S h)))), false. split; [done|]. split.
    + split.
      * intros i Hi. rewrite lor_bit, Hu by done. destruct (N.eqb_spec (N.of_nat (S h)) i); [lia|done].
      * split; [|done]. intros i Hi. rewrite lor_bit, Habove by lia. destruct (N.eqb_spec (N.of_nat (S h)) (N.of_nat i)); [lia|done].
    + assert (is_u128 (N.lor bits (N.shiftl 1 (N.of_nat (S h))))) as Hu'.
      { intros i Hi. rewrite lor_bit, Hu by done. destruct (N.eqb_spec (N.of_nat (S h)) i); [lia|done]. }
      rewrite complete_loop_set by (try lia; by rewrite lor_bit, N.eqb_refl, orb_true_r).
      replace (N.land _ _) with bits.
      * destruct (Nat.eqb_spec h 128); [lia|done].
      * apply N.bits_inj. intros i. rewrite clear_bit, lor_bit by done.
        destruct (N.eqb_spec (N.of_nat (S h)) i) as [<-|]; [|by rewrite orb_false_r, andb_true_r].
        rewrite andb_false_r. apply Habove. lia.
Qed.

Lemma push_leaf_completes b ms : 
  push_leaf b ms
  = '(bits, c128, h) ← completes (complete_heights b) (complete_128 b) (current_height b);
    Some (mkBuilder (b_leaves b ++ [(current_height b, ms)]) bits c128 h).
Proof.
  unfold push_leaf, completes, TAPROOT_CONTROL_MAX_NODE_COUNT.
  destruct (Nat.eqb_spec (current_height b) 128) as [->|]; [destruct (complete_128 b); [|done]|];
    (destruct (complete_loop _ _) as [[? ?]|]; done).
Qed.

Lemma push_inner_height b : current_height b <= 128 ->
  push_inner_node b
  = Some (if current_height b <? 128 then Ok (mkBuilder (b_leaves b) (complete_heights b) (complete_128 b) (S (current_height b)))
          else Err DepthError).
Proof.
  intros H. unfold push_inner_node, succ_u8, TAPROOT_CONTROL_MAX_NODE_COUNT.
  rewrite (proj2 (Nat.ltb_lt (current_height b) 255)) by lia. cbn [mbind option_bind]. rewrite Nat.add_1_r.
  by destruct (Nat.ltb_spec 128 (S (current_height b))), (Nat.ltb_spec (current_height b) 128); try lia.
Qed.

Lemma build_tree_ok t : forall b bits c128 h,
  current_height b + bin_levels t <= 128 -> height_ok (complete_heights b) (complete_128 b) (current_height b) ->
  completes (complete_heights b) (complete_128 b) (current_height b) = Some (bits, c128, h) ->
  build_tree t b = Some (Ok (mkBuilder (b_leaves b ++ leaves_at (current_height b) t) bits c128 h)).
Proof.
  induction t as [ms|l IHl r IHr]; intros b bits c128 h Hl Hok Hc; cbn [build_tree leaves_at bin_levels] in *.
  - by rewrite push_leaf_completes, Hc.
  - destruct b as [lv bs c k]. cbn [current_height complete_heights complete_128 b_leaves] in *.
    rewrite push_inner_height by (cbn; lia). cbn [current_height complete_heights complete_128 b_leaves].
    rewrite (proj2 (Nat.ltb_lt _ _)) by lia. cbn [mbind option_bind].
    destruct (completes_left bs c k ltac:(lia) Hok) as (bs1 & c1 & H1 & Hok1 & H2).
    assert (height_ok bs c (S k)) as Hok0.
    { destruct Hok as (Hu & Ha & Hcc). split; [done|]. split; [intros; apply Ha; lia|]. intros. apply Hcc. lia. }
    erewrite IHl; cbn [current_height complete_heights complete_128 b_leaves]; [|lia|exact Hok0|exact H1]. cbn [mbind option_bind].
    erewrite IHr; cbn [current_height complete_heights complete_128 b_leaves]; [|lia|exact Hok1|rewrite H2; exact Hc].
    by rewrite <- app_assoc.
Qed.

Lemma build_tree_deep t : forall b,
  current_height b <= 128 -> 128 < current_height b + bin_levels t ->
  height_ok (complete_heights b) (complete_128 b) (current_height b) ->
  build_tree t b = Some (Err DepthError).
Proof.
  induction t as [ms|l IHl r IHr]; intros b Hb Hl Hok; cbn [build_tree bin_levels] in *; [lia|].
  rewrite push_inner_height by done. destruct (Nat.ltb_spec (current_height b) 128) as [Hk|]; cbn [mbind option_bind]; [|done].
  destruct b as [lv bs c k]. cbn [current_height complete_heights complete_128 b_leaves] in *.
  destruct (completes_left bs c k Hk Hok) as (bs1 & c1 & H1 & Hok1 & H2).
  assert (height_ok bs c (S k)) as Hok0.
  { destruct Hok as (Hu & Ha & Hcc). split; [done|]. split; [intros; apply Ha; lia|]. intros. apply Hcc. lia. }
  destruct (Nat.leb_spec (S k + bin_levels l) 128) as [Hll|Hll].
  - erewrite build_tree_ok; cbn [current_height complete_heights complete_128 b_leaves]; [|exact Hll|exact Hok0|exact H1].
    cbn [mbind option_bind]. apply IHr; cbn [current_height complete_heights complete_128 b_leaves]; [lia|lia|done].
  - rewrite IHl; cbn [current_height complete_heights complete_128 b_leaves]; [done|lia|lia|done].
Qed.

(** The builder accepts exactly the trees of at most 128 levels, and returns their lists. *)
Lemma build_tree_spec t :
  (r ← build_tree t builder_new; Some (b ← r; Ok (finalize b)))
  = Some (if bin_levels t <=? 128 then Ok (from_bintree t) else Err DepthError).
Proof.
  assert (height_ok 0 false 0) as Hok by (split; [intros i _|split; [intros i _|done]]; apply N.bits_0).
  destruct (Nat.leb_spec (bin_levels t) 128) as [H|H].
  - destruct (completes_total 0 false 0 ltac:(lia)) as (bits & c & h & Hc).
    by erewrite build_tree_ok by (first [exact Hc | exact Hok | done]).
  - by rewrite (build_tree_deep t builder_new) by (first [exact Hok | cbn; lia]).
Qed.

(** ** The list determines the tree *)

Lemma leaves_at_app_inj t : forall t' d rest rest',
  leaves_at d t ++ rest = leaves_at d t' ++ rest' -> t = t' /\ rest = rest'.
Proof.
  assert (forall t d d' rest ms rest', d' < d -> leaves_at d t ++ rest = (d', ms) :: rest' -> False) as Hhead.
  { clear t. induction t as [ms|l IHl r _]; intros d d' rest ms' rest' Hd H; cbn in H; [injection H as -> _ _; by apply Nat.lt_irrefl in Hd|].
    rewrite <- app_assoc in H. eapply IHl; [|exact H]. lia. }
  induction t as [ms|l IHl r IHr]; intros [ms'|l' r'] d rest rest' H; cbn [leaves_at] in H.
  - by injection H as -> ->.
  - rewrite <- app_assoc in H. symmetry in H. eapply Hhead in H; [done|lia].
  - rewrite <- app_assoc in H. eapply Hhead in H; [done|lia].
  - rewrite <- !app_assoc in H. apply IHl in H as [-> H]. by apply IHr in H as [-> ->].
Qed.

Lemma from_bintree_inj t t' : from_bintree t = from_bintree t' -> t = t'.
Proof.
  intros [= H]. assert (leaves_at 0 t ++ [] = leaves_at 0 t' ++ []) as H' by (by rewrite H). by apply leaves_at_app_inj in H' as [-> _].
Qed.

(** ** Rendering *)

(** The notation of BIP 386. *)
Fixpoint tree_text (fmt_ms : Miniscript -> str) (t : bintree) : str :=
  match t with
  | Tip ms => fmt_ms ms
  | Fork l r => lit "{" ++ tree_text fmt_ms l ++ lit "," ++ tree_text fmt_ms r ++ lit "}"
  end.

(** Trees in which only right children branch. *)
Fixpoint right_comb (t : bintree) : Prop :=
  match t with
  | Tip _ => True
  | Fork (Tip _) r => right_comb r
  | Fork _ _ => False
  end.

(** What is written for the rest of a comb, and the depth at which it ends. *)
Lemma fmt_comb fmt_ms t : forall d, right_comb t -> exists text,
  (forall last, last <= d ->
     fmt_leaves fmt_ms (leaves_at d t) last
     = ((if 0 <? last then lit "," else []) ++ open_braces last d ++ text, d + bin_levels t))
  /\ text ++ repeat "}"%byte (bin_levels t) = tree_text fmt_ms t.
Proof.
  induction t as [ms|l _ r IHr]; intros d Hc.
  - exists (fmt_ms ms). cbn [leaves_at bin_levels repeat tree_text fmt_leaves]. split; [|by rewrite app_nil_r].
    intros last Hl. rewrite Nat.max_r, Nat.min_id, Nat.add_0_r by done. unfold close_braces. rewrite Nat.sub_diag. cbn [repeat].
    by rewrite !app_nil_r.
  - destruct l as [ms|]; [|done]. destruct (IHr (S d) Hc) as (text & Ht & Htext).
    exists (lit "{" ++ fmt_ms ms ++ lit "," ++ text). cbn [leaves_at app bin_levels tree_text fmt_leaves]. split.
    + intros last Hl. rewrite Nat.max_r, Nat.min_id, (Ht (S d)) by lia. f_equal; [|lia].
      unfold close_braces, open_braces. rewrite !Nat.sub_diag. cbn [repeat app]. rewrite Nat.sub_succ_l by done. cbn [repeat].
      by rewrite repeat_cons, <- !app_assoc.
    + rewrite <- Htext, Nat.max_0_l. cbn [bin_levels repeat]. rewrite repeat_cons, <- !app_assoc. done.
Qed.

(** Combs are written in the notation of BIP 386. *)
Lemma fmt_helper_comb fmt_ms t : right_comb t -> fmt_helper fmt_ms (from_bintree t) = tree_text fmt_ms t.
Proof.
  intros H. destruct (fmt_comb fmt_ms t 0 H) as (text & Ht & <-). unfold fmt_helper, taptree_leaves, from_bintree. cbn [depths_leaves].
  rewrite (Ht 0) by done. unfold close_braces, open_braces. cbn. by rewrite Nat.sub_0_r.
Qed.

(** The braces of a left child are closed too late: both trees of three leaves that branch
    on the left, and the balanced tree of four, are written as one node. *)
Lemma fmt_helper_left fmt_ms a b c :
  fmt_helper fmt_ms (from_bintree (Fork (Fork (Tip a) (Tip b)) (Tip c)))
  = lit "{{" ++ fmt_ms a ++ lit "," ++ fmt_ms b ++ lit "," ++ fmt_ms c ++ lit "}}".
Proof. unfold fmt_helper. cbn. repeat (rewrite <- app_assoc; cbn [app]). reflexivity. Qed.

Lemma fmt_helper_balanced fmt_ms a b c d :
  fmt_helper fmt_ms (from_bintree (Fork (Fork (Tip a) (Tip b)) (Fork (Tip c) (Tip d))))
  = lit "{{" ++ fmt_ms a ++ lit "," ++ fmt_ms b ++ lit "," ++ fmt_ms c ++ lit "," ++ fmt_ms d ++ lit "}}".
Proof. unfold fmt_helper. cbn. repeat (rewrite <- app_assoc; cbn [app]). reflexivity. Qed.
End TapTree.
