(* ===== verification/SpendInfo.v ===== *)
(** Spending information of taproot descriptors (src/src/descriptor/tr/spend_info.rs): the
    table of the nodes of a tree with the hashes of their siblings, and the iterator that
    reads control blocks off it. *)
From S2P Require Import Prelude Bitcoin Primitives Reference Script Ord Correctness Malleability Types.
From S2P Require Import ExtData Tree Ast Context Samples Encode TapTree.

(** What the crate [bitcoin] has for taproot outputs. *)
Class Taproot {B : Bitcoin} {Sp : Spending} : Type := {
  (** [TapNodeHash::from] and [TapNodeHash::from_node_hashes] *)
  TapNodeHash_from : TapLeafHash -> TapNodeHash;
  from_node_hashes : TapNodeHash -> TapNodeHash -> TapNodeHash;
  TweakedPublicKey : Type;
  Parity : Type;
  (** [tap_tweak] *)
  tap_tweak : XOnlyPublicKey -> option TapNodeHash -> TweakedPublicKey * Parity;
  TweakedPublicKey_serialize : TweakedPublicKey -> bytes;
  (** the structure [ControlBlock], of the version [LeafVersion::TapScript] *)
  ControlBlock_new : Parity -> XOnlyPublicKey -> list TapNodeHash -> ControlBlock;
}.

(** The hash of a node does not depend on the order of its children, which are sorted before
    they are hashed; a control block is a byte, the internal key and the branch. *)
Class TaprootLaws {B : Bitcoin} {Sp : Spending} (Ta : Taproot) : Prop := {
  from_node_hashes_comm : forall a b, from_node_hashes a b = from_node_hashes b a;
  ControlBlock_size : forall parity key branch,
    length (ControlBlock_serialize (ControlBlock_new parity key branch)) = 33 + 32 * length branch;
  TweakedPublicKey_size : forall k, length (TweakedPublicKey_serialize k) = 32;
}.

(** * A stack of bits *)

Record BitStack128 : Type := mkBitStack {
  bit_inner : N;
  bit_height : nat;
}.

Definition bits_default : BitStack128 := mkBitStack 0 0.

Definition bits_push (self : BitStack128) (bit : bool) : option BitStack128 :=
  mask ← bit_u128 (bit_height self);
  let inner := if bit then N.lor (bit_inner self) mask else N.land (bit_inner self) (not_u128 mask) in
  height ← succ_u8 (bit_height self);
  Some (mkBitStack inner height).

Definition bits_pop (self : BitStack128) : option (option bool * BitStack128) :=
  match bit_height self with
  | 0 => Some (None, self)
  | S height =>
      mask ← bit_u128 height;
      Some (Some (negb (N.land (bit_inner self) mask =? 0)%N), mkBitStack (bit_inner self) height)
  end.

Section SpendInfo.
Context {B : Bitcoin} {Sp : Spending} {Ta : Taproot} {Sc : Scripts} {K : MiniscriptKey} {TP : ToPublicKey K}.

(** * The table *)

Record LeafData : Type := mkLeafData {
  leaf_script : bytes;
  leaf_miniscript : Miniscript;
  leaf_hash : TapLeafHash;
}.

Record TrSpendInfoNode : Type := mkNode {
  sibling_hash : TapNodeHash;
  leaf_data : option LeafData;
}.

Definition leaf_data_of (ms : Miniscript) : LeafData :=
  let script := encode Tap ms Builder_new in
  mkLeafData (into_script script) ms (TapLeafHash_from_script script).

(** [nodes[i].sibling_hash = hash]; [None] is a panic here and below. *)
Definition set_sibling (i : nat) (hash : TapNodeHash) (nodes : list TrSpendInfoNode) : option (list TrSpendInfoNode) :=
  node ← nodes !! i; Some (<[i := mkNode hash (leaf_data node)]> nodes).

(** Step 1: [n] parents are added; the last one pushed is the head of the stack. *)
Fixpoint add_parents (n : nat) (current_hash : TapNodeHash) (nodes : list TrSpendInfoNode)
    (parent_stack : list (bool * nat)) : list TrSpendInfoNode * list (bool * nat) :=
  match n with
  | 0 => (nodes, parent_stack)
  | S n => add_parents n current_hash (nodes ++ [mkNode current_hash None]) ((false, length nodes) :: parent_stack)
  end.

(** Step 3: nodes are completed as long as they are right children. *)
Fixpoint complete_nodes (parent_stack : list (bool * nat)) (nodes : list TrSpendInfoNode) (cur_index : nat)
    (current_hash : TapNodeHash) : option (list TrSpendInfoNode * list (bool * nat)) :=
  match parent_stack with
  | [] => Some (nodes, [])
  | (true, parent_idx) :: parent_stack =>
      lchild ← nodes !! (parent_idx + 1);
      let lchild_hash := sibling_hash lchild in
      let new_merkle_root := from_node_hashes lchild_hash current_hash in
      nodes ← set_sibling parent_idx new_merkle_root nodes;
      nodes ← set_sibling (parent_idx + 1) current_hash nodes;
      nodes ← set_sibling cur_index lchild_hash nodes;
      complete_nodes parent_stack nodes parent_idx new_merkle_root
  | (false, parent_idx) :: parent_stack => Some (nodes, (true, parent_idx) :: parent_stack)
  end.

(** One turn of the loop over the leaves. *)
Definition add_leaf (depth : nat) (ms : Miniscript) (nodes : list TrSpendInfoNode) (parent_stack : list (bool * nat))
  : option (list TrSpendInfoNode * list (bool * nat)) :=
  let leaf := leaf_data_of ms in
  let current_hash := TapNodeHash_from (leaf_hash leaf) in
  let '(nodes, parent_stack) := add_parents (depth - length parent_stack) current_hash nodes parent_stack in
  if length parent_stack =? depth then
    let nodes := nodes ++ [mkNode current_hash (Some leaf)] in
    complete_nodes parent_stack nodes (length nodes - 1) current_hash
  else None.

Fixpoint add_leaves (leaves : list (nat * Miniscript)) (nodes : list TrSpendInfoNode) (parent_stack : list (bool * nat))
  : option (list TrSpendInfoNode * list (bool * nat)) :=
  match leaves with
  | [] => Some (nodes, parent_stack)
  | (depth, ms) :: leaves =>
      '(nodes, parent_stack) ← add_leaf depth ms nodes parent_stack;
      add_leaves leaves nodes parent_stack
  end.

(** With the debug assertions at the end. *)
Definition nodes_from_tap_tree (tree : TapTree) : option (list TrSpendInfoNode) :=
  '(nodes, parent_stack) ← add_leaves (taptree_leaves tree) [] [];
  if (length parent_stack =? 0) && negb (length nodes =? 0) then Some nodes else None.

(** * Spending information *)

(** The fields of [Tr] without the cache: what [spend_info] stores there and returns is
    always [from_tr] of the other two, which do not change. *)
Record Tr : Type := mkTr {
  internal_key : Pk;
  tree : option TapTree;
}.

Record TrSpendInfo : Type := mkTrSpendInfo {
  spend_internal_key : XOnlyPublicKey;
  output_key : TweakedPublicKey;
  output_key_parity : Parity;
  nodes : list TrSpendInfoNode;
}.

Definition from_tr (tr : Tr) : option TrSpendInfo :=
  let internal_key := to_x_only_pubkey (internal_key tr) in
  nodes ← match tree tr with Some tree => nodes_from_tap_tree tree | None => Some [] end;
  let '(output_key, output_key_parity) := tap_tweak internal_key (sibling_hash <$> nodes !! 0) in
  Some (mkTrSpendInfo internal_key output_key output_key_parity nodes).

Definition merkle_root (self : TrSpendInfo) : option TapNodeHash := sibling_hash <$> nodes self !! 0.

(** ** The iterator *)

Record TrSpendInfoIter : Type := mkIter {
  spend_info : TrSpendInfo;
  iter_index : nat;
  (** the last element is the head of the list *)
  merkle_stack : list TapNodeHash;
  done_left_stack : BitStack128;
}.

Record TrSpendInfoIterItem : Type := mkIterItem {
  item_script : bytes;
  item_miniscript : Miniscript;
  item_leaf_hash : TapLeafHash;
  merkle_branch : list TapNodeHash;
  control_block : ControlBlock;
}.

Definition spend_leaves (self : TrSpendInfo) : TrSpendInfoIter := mkIter self 0 [] bits_default.

(** [TaprootMerkleBranch::try_from] *)
Definition TaprootMerkleBranch_try_from (branch : list TapNodeHash) : option (list TapNodeHash) :=
  if length branch <=? TAPROOT_CONTROL_MAX_NODE_COUNT then Some branch else None.

(** The loop over the stack of bits, which gets shorter by one at each turn but the last. *)
Fixpoint ascend_loop (fuel : nat) (bits : BitStack128) (merkle_stack : list TapNodeHash)
  : option (BitStack128 * list TapNodeHash) :=
  match fuel with
  | 0 => None
  | S fuel =>
      '(bit, bits) ← bits_pop bits;
      match bit with
      | None => Some (bits, merkle_stack)
      | Some false => bits ← bits_push bits true; Some (bits, merkle_stack)
      | Some true => ascend_loop fuel bits (tail merkle_stack)
      end
  end.

(** The loop of [next]; [n] nodes are left. *)
Fixpoint next_loop (n : nat) (self : TrSpendInfoIter) : option (option TrSpendInfoIterItem * TrSpendInfoIter) :=
  match n with
  | 0 => Some (None, self)
  | S n =>
      current_node ← nodes (spend_info self) !! iter_index self;
      let stack := if 0 <? iter_index self then sibling_hash current_node :: merkle_stack self else merkle_stack self in
      match leaf_data current_node with
      | Some leaf =>
          '(bits, rest) ← ascend_loop (S (bit_height (done_left_stack self))) (done_left_stack self) (tail stack);
          branch ← TaprootMerkleBranch_try_from stack;
          Some (Some (mkIterItem (leaf_script leaf) (leaf_miniscript leaf) (leaf_hash leaf) branch
                        (ControlBlock_new (output_key_parity (spend_info self)) (spend_internal_key (spend_info self)) branch)),
                mkIter (spend_info self) (iter_index self + 1) rest bits)
      | None =>
          bits ← bits_push (done_left_stack self) false;
          next_loop n (mkIter (spend_info self) (iter_index self + 1) stack bits)
      end
  end.

Definition leaf_next (self : TrSpendInfoIter) : option (option TrSpendInfoIterItem * TrSpendInfoIter) :=
  next_loop (length (nodes (spend_info self)) - iter_index self) self.

(** All items, one call of [next] each; every item has a node of its own. *)
Fixpoint collect_items (fuel : nat) (self : TrSpendInfoIter) : option (list TrSpendInfoIterItem) :=
  match fuel with
  | 0 => None
  | S fuel =>
      '(item, self) ← leaf_next self;
      match item with
      | None => Some []
      | Some item => rest ← collect_items fuel self; Some (item :: rest)
      end
  end.

Definition spend_items (self : TrSpendInfo) : option (list TrSpendInfoIterItem) :=
  collect_items (S (length (nodes self))) (spend_leaves self).

(** [depth] and the reference to the data of the leaf are read from the item. *)
Definition item_depth (item : TrSpendInfoIterItem) : nat := length (merkle_branch item).

(** * The table of a tree *)

Definition tip_hash (ms : Miniscript) : TapNodeHash := TapNodeHash_from (leaf_hash (leaf_data_of ms)).

(** The Merkle root of BIP 341. *)
Fixpoint merkle (t : bintree) : TapNodeHash :=
  match t with
  | Tip ms => tip_hash ms
  | Fork l r => from_node_hashes (merkle l) (merkle r)
  end.

(** The nodes in pre-order, when the sibling of the root has hash [s]. *)
Fixpoint table (s : TapNodeHash) (t : bintree) : list TrSpendInfoNode :=
  match t with
  | Tip ms => [mkNode s (Some (leaf_data_of ms))]
  | Fork l r => mkNode s None :: table (merkle r) l ++ table (merkle l) r
  end.

Definition with_sibling (s : TapNodeHash) (node : TrSpendInfoNode) : TrSpendInfoNode := mkNode s (leaf_data node).

Lemma table_head t : exists node rest, forall s, table s t = with_sibling s node :: rest.
Proof. destruct t as [ms|l r]; by eexists (mkNode (tip_hash ms) _), _ || by eexists (mkNode (merkle l) None), _. Qed.

Lemma set_sibling_at i pre s node post : length pre = i ->
  set_sibling i s (pre ++ node :: post) = Some (pre ++ with_sibling s node :: post).
Proof.
  intros <-. unfold set_sibling. rewrite list_lookup_middle by done. cbn. by rewrite insert_app_r_alt, Nat.sub_diag by done.
Qed.

Lemma with_sibling_idem s s' node : with_sibling s (with_sibling s' node) = with_sibling s node.
Proof. done. Qed.

(** A right child completes its parent. *)
Lemma complete_right stack pre h l r : let p := length pre in
  complete_nodes ((true, p) :: stack) (pre ++ mkNode h None :: table (merkle l) l ++ table (merkle r) r)
    (p + 1 + length (table (merkle l) l)) (merkle r)
  = complete_nodes stack (pre ++ table (merkle (Fork l r)) (Fork l r)) p (merkle (Fork l r)).
Proof.
  intros p. destruct (table_head l) as (nl & restl & Hl), (table_head r) as (nr & restr & Hr).
  cbn [complete_nodes table merkle]. rewrite !Hl, !Hr.
  rewrite (lookup_app_r pre) by lia. replace (p + 1 - length pre) with 1 by lia. cbn [lookup list_lookup app mbind option_bind sibling_hash with_sibling].
  rewrite (set_sibling_at p) by done. cbn [mbind option_bind].
  rewrite cons_middle, app_assoc, (set_sibling_at (p + 1)) by (rewrite length_app; done). cbn [mbind option_bind].
  rewrite app_comm_cons, app_assoc, set_sibling_at by (rewrite !length_app; cbn; lia). cbn [mbind option_bind].
  by rewrite <- !app_assoc.
Qed.

(** The first leaf. *)
Fixpoint first_tip (t : bintree) : Miniscript := match t with Tip ms => ms | Fork l _ => first_tip l end.

Lemma first_leaf t d : exists depth rest, leaves_at d t = (depth, first_tip t) :: rest /\ d <= depth.
Proof.
  revert d. induction t as [ms|l IHl r _]; intros d; cbn; [by eexists _, _|].
  destruct (IHl (S d)) as (depth & rest & -> & Hd). eexists _, _. split; [done|lia].
Qed.

Lemma add_parents_length n h nodes stack : length (add_parents n h nodes stack).2 = n + length stack.
Proof. revert nodes stack. induction n as [|n IH]; intros; cbn [add_parents]; [done|]. rewrite IH. cbn. lia. Qed.

(** A node may be put on the stack before its first leaf is seen. *)
Lemma add_leaf_parent depth ms nodes stack : length stack < depth ->
  add_leaf depth ms nodes stack
  = add_leaf depth ms (nodes ++ [mkNode (tip_hash ms) None]) ((false, length nodes) :: stack).
Proof.
  intros H. unfold add_leaf. replace (depth - length stack) with (S (depth - S (length stack))) by lia. done.
Qed.

Lemma add_leaves_tree t : forall d pre stack rest, length stack = d ->
  add_leaves (leaves_at d t ++ rest) pre stack
  = '(nodes, stack) ← complete_nodes stack (pre ++ table (merkle t) t) (length pre) (merkle t);
    add_leaves rest nodes stack.
Proof.
  induction t as [ms|l IHl r IHr]; intros d pre stack rest Hd; cbn [leaves_at].
  - cbn [app add_leaves]. unfold add_leaf. rewrite Hd, Nat.sub_diag. cbn [add_parents]. rewrite Hd, Nat.eqb_refl.
    rewrite length_app, Nat.add_sub. done.
  - rewrite <- app_assoc.
    destruct (first_leaf l (S d)) as (depth & more & Hl & Hdepth).
    assert (add_leaves (leaves_at (S d) l ++ leaves_at (S d) r ++ rest) pre stack
            = add_leaves (leaves_at (S d) l ++ leaves_at (S d) r ++ rest)
                (pre ++ [mkNode (tip_hash (first_tip l)) None]) ((false, length pre) :: stack)) as ->.
    { rewrite Hl. cbn [app add_leaves]. by rewrite add_leaf_parent by lia. }
    rewrite IHl by (cbn; lia). cbn [complete_nodes mbind option_bind]. rewrite IHr by (cbn; lia).
    rewrite !length_app. cbn [length]. by rewrite <- complete_right with (h := tip_hash (first_tip l)), <- !app_assoc.
Qed.

(** The table of the code is that of the tree; no assertion fails. *)
Lemma nodes_from_tap_tree_eq t : nodes_from_tap_tree (from_bintree t) = Some (table (merkle t) t).
Proof.
  unfold nodes_from_tap_tree, taptree_leaves, from_bintree. cbn [depths_leaves].
  rewrite <- (app_nil_r (leaves_at 0 t)), add_leaves_tree by done. cbn [app complete_nodes mbind option_bind length add_leaves].
  destruct (table_head t) as (node & rest & ->). done.
Qed.

(** * The iterator *)

(** The stack of bits as a list, the last one first. *)
Definition bits_are (b : BitStack128) (l : list bool) : Prop :=
  bit_height b = length l /\ is_u128 (bit_inner b)
  /\ forall i x, rev l !! i = Some x -> N.testbit (bit_inner b) (N.of_nat i) = x.

Lemma bits_default_are : bits_are bits_default [].
Proof. split; [done|]. split; [intros i _; apply N.bits_0|done]. Qed.

Lemma bits_push_are b l x : bits_are b l -> length l < 128 -> exists b', bits_push b x = Some b' /\ bits_are b' (x :: l).
Proof.
  intros (Hh & Hu & Hb) Hl. unfold bits_push, bit_u128, succ_u8. rewrite Hh.
  rewrite (proj2 (Nat.ltb_lt (length l) 128)), (proj2 (Nat.ltb_lt (length l) 255)) by lia. cbn [mbind option_bind].
  eexists. split; [done|].
  assert (forall i, N.testbit (if x then N.lor (bit_inner b) (N.shiftl 1 (N.of_nat (length l)))
                               else N.land (bit_inner b) (not_u128 (N.shiftl 1 (N.of_nat (length l))))) i
                    = if (N.of_nat (length l) =? i)%N then x else N.testbit (bit_inner b) i) as Hbit.
  { intros i. destruct x; [rewrite lor_bit|rewrite clear_bit by done];
      destruct (N.eqb_spec (N.of_nat (length l)) i); by rewrite ?orb_true_r, ?orb_false_r, ?andb_false_r, ?andb_true_r. }
  split; [cbn; lia|]. cbn [bit_inner]. split.
  - intros i Hi. rewrite Hbit. destruct (N.eqb_spec (N.of_nat (length l)) i); [lia|by apply Hu].
  - intros i y. cbn [rev]. rewrite Hbit. intros H. destruct (N.eqb_spec (N.of_nat (length l)) (N.of_nat i)) as [Hi|Hi].
    + assert (i = length (rev l)) as -> by (rewrite length_rev; lia). rewrite list_lookup_middle in H by done. congruence.
    + apply Hb. pose proof (lookup_lt_Some _ _ _ H) as Hlt. rewrite length_app, length_rev in Hlt. cbn in Hlt.
      rewrite lookup_app_l in H by (rewrite length_rev; lia). done.
Qed.

Lemma bits_pop_are b x l : bits_are b (x :: l) -> length l < 128 -> exists b', bits_pop b = Some (Some x, b') /\ bits_are b' l.
Proof.
  intros (Hh & Hu & Hb) Hl. unfold bits_pop, bit_u128. rewrite Hh. cbn [length].
  rewrite (proj2 (Nat.ltb_lt (length l) 128)) by lia. cbn [mbind option_bind].
  rewrite land_bit, negb_involutive. rewrite (Hb (length l) x) by (cbn [rev]; by apply list_lookup_middle; rewrite length_rev).
  eexists. split; [done|]. split; [done|]. split; [done|]. intros i y Hi. apply Hb. cbn [rev]. by apply lookup_app_l_Some.
Qed.

(** What is left after a subtree: the bits and the siblings. *)
Fixpoint ascend (l : list bool) (m : list TapNodeHash) : list bool * list TapNodeHash :=
  match l with
  | [] => ([], m)
  | false :: l => (true :: l, m)
  | true :: l => ascend l (tail m)
  end.

Lemma ascend_loop_ok l : forall fuel b m, bits_are b l -> length l <= 128 -> length l < fuel ->
  exists b', ascend_loop fuel b m = Some (b', (ascend l m).2) /\ bits_are b' (ascend l m).1.
Proof.
  induction l as [|x l IH]; intros [|fuel] b m Hb Hl Hf; try (cbn in Hf; lia); cbn [ascend_loop].
  - unfold bits_pop. pose proof Hb as [-> _]. by eexists.
  - cbn [length] in *. destruct (bits_pop_are b x l Hb ltac:(lia)) as (b1 & -> & Hb1). cbn [mbind option_bind].
    destruct x; cbn [ascend].
    + apply IH; [done|lia|lia].
    + destruct (bits_push_are b1 l true Hb1 ltac:(lia)) as (b2 & -> & Hb2). by eexists.
Qed.

(** ** Items *)

Section Items.
Context (info : TrSpendInfo).

Definition item_of (ms : Miniscript) (branch : list TapNodeHash) : TrSpendInfoIterItem :=
  let leaf := leaf_data_of ms in
  mkIterItem (leaf_script leaf) ms (leaf_hash leaf) branch
    (ControlBlock_new (output_key_parity info) (spend_internal_key info) branch).

(** The items of a tree under the siblings [m]. *)
Fixpoint items_of (m : list TapNodeHash) (t : bintree) : list TrSpendInfoIterItem :=
  match t with
  | Tip ms => [item_of ms m]
  | Fork l r => items_of (merkle r :: m) l ++ items_of (merkle l :: m) r
  end.

(** Calls of [next] that return these items. *)
Fixpoint yields (self : TrSpendInfoIter) (items : list TrSpendInfoIterItem) (final : TrSpendInfoIter) : Prop :=
  match items with
  | [] => self = final
  | item :: items => exists self', leaf_next self = Some (Some item, self') /\ yields self' items final
  end.

Lemma yields_app self l1 l2 mid final : yields self l1 mid -> yields mid l2 final -> yields self (l1 ++ l2) final.
Proof.
  revert self. induction l1 as [|x l1 IH]; intros self H1 H2; [by cbn in H1; subst|].
  destruct H1 as (self' & Hn & H1). exists self'. split; [done|]. by apply IH.
Qed.

Definition state_at (self : TrSpendInfoIter) (i : nat) (l : list bool) (m : list TapNodeHash) : Prop :=
  spend_info self = info /\ iter_index self = i /\ bits_are (done_left_stack self) l /\ merkle_stack self = m.

Definition under (i : nat) (s : TapNodeHash) (m : list TapNodeHash) : list TapNodeHash :=
  if 0 <? i then s :: m else m.

Lemma items_of_cons m t : exists x items, items_of m t = x :: items.
Proof.
  revert m. induction t as [ms|l IHl r _]; intros m; cbn; [by eexists _, _|].
  destruct (IHl (merkle r :: m)) as (x & items & ->). by eexists _, _.
Qed.

Lemma yields_tree t : forall s pre post self l m,
  nodes info = pre ++ table s t ++ post -> state_at self (length pre) l m ->
  length l + bin_levels t <= 128 -> length (under (length pre) s m) + bin_levels t <= 128 ->
  exists self', yields self (items_of (under (length pre) s m) t) self'
    /\ state_at self' (length pre + length (table s t)) (ascend l (tail (under (length pre) s m))).1
         (ascend l (tail (under (length pre) s m))).2.
Proof.
  induction t as [ms|tl IHl tr IHr]; intros s pre post self l m Hn (Hi & Hx & Hb & Hm) Hl Hu; cbn [bin_levels table items_of] in *.
  - assert (length (nodes (spend_info self)) - iter_index self = S (length post)) as Hlen.
    { rewrite Hi, Hx, Hn, !length_app. cbn. lia. }
    destruct (ascend_loop_ok l (S (bit_height (done_left_stack self))) (done_left_stack self) (tail (under (length pre) s m)) Hb ltac:(lia))
      as (b' & Ha & Hb'); [destruct Hb as [-> _]; lia|].
    eexists. split.
    + eexists. split; [|reflexivity]. unfold leaf_next. rewrite Hlen. cbn [next_loop].
      rewrite Hi, Hx, Hm, Hn, lookup_app_r, Nat.sub_diag by done. cbn [lookup list_lookup app mbind option_bind leaf_data sibling_hash].
      fold (under (length pre) s m). rewrite Ha. cbn [mbind option_bind]. unfold TaprootMerkleBranch_try_from, TAPROOT_CONTROL_MAX_NODE_COUNT.
      rewrite (proj2 (Nat.leb_le _ _)) by lia. cbn [mbind option_bind]. reflexivity.
    + by split.
  - destruct (bits_push_are _ l false Hb ltac:(lia)) as (b1 & Hp1 & Hb1).
    set (m1 := under (length pre) s m) in *.
    set (self1 := mkIter info (length pre + 1) m1 b1).
    assert (leaf_next self = leaf_next self1) as Hnext.
    { unfold leaf_next. replace (length (nodes (spend_info self)) - iter_index self)
        with (S (length (nodes (spend_info self1)) - iter_index self1))
        by (cbn; rewrite Hi, Hx, Hn, length_app; cbn; lia).
      cbn [next_loop]. rewrite Hi, Hx, Hm, Hn, lookup_app_r, Nat.sub_diag by done.
      cbn [lookup list_lookup app mbind option_bind leaf_data sibling_hash]. rewrite Hp1. done. }
    destruct (IHl (merkle tr) (pre ++ [mkNode s None]) (table (merkle tl) tr ++ post) self1 (false :: l) m1) as (self2 & Hy1 & Hs2).
    { rewrite Hn. by simplify_list_eq. }
    { rewrite length_app. split; [done|]. split; [done|]. by split. }
    { cbn. lia. }
    { rewrite length_app, Nat.add_1_r. cbn. lia. }
    destruct (IHr (merkle tl) (pre ++ mkNode s None :: table (merkle tr) tl) post self2 (true :: l) m1) as (self3 & Hy2 & Hs3).
    { rewrite Hn. by simplify_list_eq. }
    { replace (length (pre ++ mkNode s None :: table (merkle tr) tl)) with (length (pre ++ [mkNode s None]) + length (table (merkle tr) tl))
        by (rewrite !length_app; cbn; lia).
      rewrite length_app, Nat.add_1_r in Hs2 |- *. exact Hs2. }
    { cbn. lia. }
    { rewrite length_app. cbn [length]. rewrite Nat.add_succ_r. cbn. lia. }
    exists self3. split.
    + rewrite length_app, Nat.add_1_r in Hy1. rewrite length_app in Hy2. cbn [length] in Hy2. rewrite Nat.add_succ_r in Hy2.
      pose proof (yields_app _ _ _ _ _ Hy1 Hy2) as Hy. cbn [under Nat.ltb Nat.leb] in Hy.
      destruct (items_of_cons (merkle tr :: m1) tl) as (x & items & E). rewrite E in *. cbn [app yields] in *. by rewrite Hnext.
    + rewrite length_app in Hs3. cbn [length] in *. rewrite Nat.add_succ_r in Hs3. cbn [under Nat.ltb Nat.leb tail ascend] in Hs3.
      rewrite length_app, Nat.add_succ_r, <- Nat.add_succ_l, Nat.add_assoc. exact Hs3.
Qed.

(** The iterator yields the leaves of the tree and nothing more. *)
Lemma collect_yields items : forall self final fuel, yields self items final -> leaf_next final = Some (None, final) ->
  length items < fuel -> collect_items fuel self = Some items.
Proof.
  induction items as [|x items IH]; intros self final [|fuel] Hy Hf Hl; try (cbn in Hl; lia); cbn [collect_items].
  - cbn in Hy. subst. by rewrite Hf.
  - destruct Hy as (self' & -> & Hy). cbn [mbind option_bind]. erewrite IH; [done|done|done|cbn in Hl; lia].
Qed.

Lemma items_length m t s : length (items_of m t) <= length (table s t).
Proof.
  revert m s. induction t as [ms|l IHl r IHr]; intros m s; cbn; [done|]. rewrite !length_app.
  specialize (IHl (merkle r :: m) (merkle r)). specialize (IHr (merkle l :: m) (merkle l)). lia.
Qed.

Lemma spend_items_eq t : nodes info = table (merkle t) t -> bin_levels t <= 128 -> spend_items info = Some (items_of [] t).
Proof.
  intros Hn Hl. unfold spend_items.
  destruct (yields_tree t (merkle t) [] [] (spend_leaves info) [] []) as (final & Hy & Hi & Hx & _ & _); [|by repeat split; apply bits_default_are|cbn; lia|cbn; lia|].
  { by rewrite Hn, app_nil_r. }
  eapply collect_yields; [exact Hy| |].
  - unfold leaf_next. rewrite Hi, Hx, Hn. cbn [length Nat.add]. by rewrite Nat.sub_diag.
  - rewrite Hn. pose proof (items_length [] t (merkle t)). cbn [under Nat.ltb Nat.leb length]. lia.
Qed.
End Items.

(** ** Control blocks commit to the root *)

(** [ControlBlock::verify_taproot_commitment]: the hashes of a branch, applied to that of the
    leaf. *)
Definition branch_root (leaf : TapNodeHash) (branch : list TapNodeHash) : TapNodeHash :=
  fold_left from_node_hashes branch leaf.

Context {TL : TaprootLaws Ta}.

Lemma items_commit info t : forall m x, In x (items_of info m t) -> exists own,
  merkle_branch x = own ++ m /\ branch_root (TapNodeHash_from (item_leaf_hash x)) own = merkle t.
Proof.
  induction t as [ms|l IHl r IHr]; intros m x H; cbn in H; [destruct H as [<-|[]]; by exists []|].
  unfold branch_root in *. apply in_app_iff in H as [H|H].
  - destruct (IHl _ _ H) as (own & Hb & Hr). exists (own ++ [merkle r]). rewrite Hb, <- app_assoc, fold_left_app, Hr. by split.
  - destruct (IHr _ _ H) as (own & Hb & Hr). exists (own ++ [merkle l]). rewrite Hb, <- app_assoc, fold_left_app, Hr. split; [done|].
    apply from_node_hashes_comm.
Qed.

Lemma items_leaves info t : forall m,
  map (fun x => (item_depth x, item_miniscript x)) (items_of info m t) = leaves_at (length m) t.
Proof.
  induction t as [ms|l IHl r IHr]; intros m; cbn [items_of leaves_at map]; [done|]. by rewrite map_app, IHl, IHr.
Qed.

(** What an item says of its leaf. *)
Definition item_ok (info : TrSpendInfo) (x : TrSpendInfoIterItem) : Prop :=
  item_script x = into_script (encode Tap (item_miniscript x) Builder_new)
  /\ item_leaf_hash x = TapLeafHash_from_script (encode Tap (item_miniscript x) Builder_new)
  /\ control_block x = ControlBlock_new (output_key_parity info) (spend_internal_key info) (merkle_branch x).

Lemma items_ok info t : forall m, Forall (item_ok info) (items_of info m t).
Proof.
  induction t as [ms|l IHl r IHr]; intros m; cbn [items_of]; [by repeat constructor|]. apply list.Forall_app. by split.
Qed.

Lemma spend_info_right (tr : Tr) (t : bintree) :
  tree tr = Some (from_bintree t) -> bin_levels t <= TAPROOT_CONTROL_MAX_NODE_COUNT ->
  exists info items, from_tr tr = Some info
    /\ merkle_root info = Some (merkle t)
    /\ (output_key info, output_key_parity info) = tap_tweak (to_x_only_pubkey (internal_key tr)) (Some (merkle t))
    /\ spend_items info = Some items
    /\ map (fun x => (item_depth x, item_miniscript x)) items = taptree_leaves (from_bintree t)
    /\ Forall (item_ok info) items
    /\ Forall (fun x => branch_root (TapNodeHash_from (item_leaf_hash x)) (merkle_branch x) = merkle t) items.
Proof.
  intros Ht Hl. unfold from_tr. rewrite Ht, nodes_from_tap_tree_eq. cbn [mbind option_bind].
  destruct (table_head t) as (node & rest & Hhead).
  assert (sibling_hash <$> table (merkle t) t !! 0 = Some (merkle t)) as Hroot by (by rewrite Hhead).
  rewrite Hroot. destruct (tap_tweak _ _) as [key parity] eqn:Ek. eexists _, _. split; [done|]. split; [exact Hroot|].
  split; [done|]. split; [by apply spend_items_eq|]. split; [apply items_leaves|]. split; [apply items_ok|].
  apply List.Forall_forall. intros x Hx. destruct (items_commit _ _ _ _ Hx) as (own & -> & Hr). by rewrite app_nil_r.
Qed.

(** C11: The spending information of a taproot descriptor is right for every tree of at most
    128 levels: computing it never panics; its Merkle root, which tweaks the output key, is
    that of BIP 341; its iterator yields the leaves of the tree in their order, with their
    depths, scripts and leaf hashes; and the Merkle branch of every control block leads from
    the hash of its leaf to that root. *)
Theorem spend_info_spec (tr : Tr) (t : bintree) :
  tree tr = Some (from_bintree t) -> bin_levels t <= TAPROOT_CONTROL_MAX_NODE_COUNT ->
  exists info items, from_tr tr = Some info
    /\ merkle_root info = Some (merkle t)
    /\ (output_key info, output_key_parity info) = tap_tweak (to_x_only_pubkey (internal_key tr)) (Some (merkle t))
    /\ spend_items info = Some items
    /\ map (fun x => (item_depth x, item_miniscript x)) items = taptree_leaves (from_bintree t)
    /\ Forall (item_ok info) items
    /\ Forall (fun x => branch_root (TapNodeHash_from (item_leaf_hash x)) (merkle_branch x) = merkle t) items.
Proof. apply spend_info_right. Qed.
End SpendInfo.

(** * Witness *)

(** Node hashes are a sum, which does not depend on the order. *)
#[export] Instance reference_taproot : Taproot (Sp := reference_spending) := {|
  TapNodeHash_from h := [byte_of (N.of_nat h mod 256)%N];
  from_node_hashes a b :=
    [byte_of ((fold_left N.add (map Byte.to_N a) 0 + fold_left N.add (map Byte.to_N b) 0) mod 256)%N];
  TweakedPublicKey := Byte.byte * list bytes;
  Parity := bool;
  tap_tweak k root := ((k, match root with Some r => [r] | None => [] end), true);
  TweakedPublicKey_serialize k := resize 32 Byte.x00 [k.1];
  ControlBlock_new parity k branch := resize (33 + 32 * length branch) Byte.x00 ((if parity : bool then Byte.xc1 else Byte.xc0) :: k :: concat branch);
|}.

#[export] Instance reference_taproot_laws : TaprootLaws reference_taproot.
Proof.
  constructor.
  - intros a b. cbn. by rewrite N.add_comm.
  - intros. apply length_resize.
  - intros. apply length_resize.
Qed.

(** The tree [{{pk(A),pk(B)},pk(C)}]. *)
Definition sample_bintree : bintree :=
  Fork (Fork (Tip (sample_pk Tap keyA)) (Tip (sample_pk Tap keyB))) (Tip (sample_pk Tap keyC)).

Definition sample_tr : Tr := mkTr (K := reference_key) keyA (Some (from_bintree sample_bintree)).

Lemma spend_info_spec_witness :
  exists info items, from_tr sample_tr = Some info
    /\ merkle_root info = Some (merkle sample_bintree)
    /\ (output_key info, output_key_parity info) = tap_tweak (to_x_only_pubkey (internal_key sample_tr)) (Some (merkle sample_bintree))
    /\ spend_items info = Some items
    /\ map (fun x => (item_depth x, item_miniscript x)) items = taptree_leaves (from_bintree sample_bintree)
    /\ Forall (item_ok info) items
    /\ Forall (fun x => branch_root (TapNodeHash_from (item_leaf_hash x)) (merkle_branch x) = merkle sample_bintree) items.
Proof. apply (spend_info_spec sample_tr sample_bintree); [reflexivity|]. apply (proj1 (Nat.leb_le _ _)). reflexivity. Defined.
