(* ===== verification/Descriptor.v ===== *)
(** Output descriptors (src/src/descriptor/): the data of mod.rs, bare.rs, segwitv0.rs, sh.rs,
    sortedmulti.rs and tr/mod.rs with their checked constructors, sanity checks, key
    iterators, translation, lifting, and the bounds on the weight of a satisfaction. *)
From S2P Require Import Prelude Bitcoin Primitives Script Ord Correctness Malleability Types ExtData Tree Ast Context Decode Translate.
From S2P Require Import Encode Satisfy Semantic Lift TapTree SpendInfo.

(** The variants of [crate::Error] that the operations on descriptors return. *)
Inductive DescriptorError {B : Bitcoin} : Type :=
| Invalid (e : Error)
| Analysis (e : AnalysisError)
| LiftFailed (e : LiftError)
| MissingSig (pk : PublicKey)
| BareDescriptorAddr
| TrNoScriptCode.

Section Data.
Context {B : Bitcoin} {K : MiniscriptKey}.

(** [SortedMultiVec]; the context is an argument of its operations. *)
Record SortedMultiVec : Type := mkSortedMultiVec { smv_inner : Threshold Pk }.

(** [Wsh] and [WshInner]; [Bare], [Pkh] and [Wpkh] are their only field. *)
Inductive Wsh : Type :=
| WshSortedMulti (smv : SortedMultiVec)
| WshMs (ms : Miniscript).

(** [Sh] and [ShInner] *)
Inductive Sh : Type :=
| ShWsh (wsh : Wsh)
| ShWpkh (pk : Pk)
| ShSortedMulti (smv : SortedMultiVec)
| ShMs (ms : Miniscript).

Inductive Descriptor : Type :=
| Desc_Bare (ms : Miniscript)
| Desc_Pkh (pk : Pk)
| Desc_Wpkh (pk : Pk)
| Desc_Sh (sh : Sh)
| Desc_Wsh (wsh : Wsh)
| Desc_Tr (tr : Tr).

Inductive DescriptorType : Type :=
| Ty_Bare | Ty_Sh | Ty_Pkh | Ty_Wpkh | Ty_Wsh | Ty_ShWsh | Ty_ShWpkh
| Ty_ShSortedMulti | Ty_WshSortedMulti | Ty_ShWshSortedMulti | Ty_Tr.

Inductive WitnessVersion : Type := V0 | V1.

Definition segwit_version (self : DescriptorType) : option WitnessVersion :=
  match self with
  | Ty_Tr => Some V1
  | Ty_Wpkh | Ty_ShWpkh | Ty_Wsh | Ty_ShWsh | Ty_ShWshSortedMulti | Ty_WshSortedMulti => Some V0
  | Ty_Bare | Ty_Sh | Ty_Pkh | Ty_ShSortedMulti => None
  end.

Definition desc_type (self : Descriptor) : DescriptorType :=
  match self with
  | Desc_Bare _ => Ty_Bare
  | Desc_Pkh _ => Ty_Pkh
  | Desc_Wpkh _ => Ty_Wpkh
  | Desc_Sh sh =>
      match sh with
      | ShWsh wsh => match wsh with WshSortedMulti _ => Ty_ShWshSortedMulti | WshMs _ => Ty_ShWsh end
      | ShWpkh _ => Ty_ShWpkh
      | ShSortedMulti _ => Ty_ShSortedMulti
      | ShMs _ => Ty_Sh
      end
  | Desc_Wsh wsh => match wsh with WshSortedMulti _ => Ty_WshSortedMulti | WshMs _ => Ty_Wsh end
  | Desc_Tr _ => Ty_Tr
  end.

(** * Constructors *)

Definition smv_constructor_check (ctx : ScriptContext) (self : SortedMultiVec) : result Error SortedMultiVec :=
  let ms := ms_multi (smv_inner self) in
  _ ← map_err ContextError (check_local_validity ctx ms);
  Ok self.

Definition smv_new (ctx : ScriptContext) (thresh : Threshold Pk) : result Error SortedMultiVec :=
  smv_constructor_check ctx (mkSortedMultiVec thresh).

Definition bare_new (ms : Miniscript) : result Error Miniscript := _ ← top_level_checks BareCtx ms; Ok ms.
Definition pkh_new (pk : Pk) : result ScriptContextError Pk := _ ← check_pk BareCtx pk; Ok pk.
Definition wpkh_new (pk : Pk) : result ScriptContextError Pk := _ ← check_pk Segwitv0 pk; Ok pk.

Definition wsh_new (ms : Miniscript) : result Error Wsh := _ ← top_level_checks Segwitv0 ms; Ok (WshMs ms).
Definition wsh_new_sortedmulti (thresh : Threshold Pk) : result Error Wsh :=
  smv ← smv_new Segwitv0 thresh; Ok (WshSortedMulti smv).

Definition sh_new (ms : Miniscript) : result Error Sh := _ ← top_level_checks Legacy ms; Ok (ShMs ms).
Definition sh_new_sortedmulti (thresh : Threshold Pk) : result Error Sh :=
  smv ← smv_new Legacy thresh; Ok (ShSortedMulti smv).
Definition sh_new_wsh (ms : Miniscript) : result Error Sh := wsh ← wsh_new ms; Ok (ShWsh wsh).
Definition sh_new_wsh_sortedmulti (thresh : Threshold Pk) : result Error Sh :=
  wsh ← wsh_new_sortedmulti thresh; Ok (ShWsh wsh).
Definition sh_new_wpkh (pk : Pk) : result Error Sh :=
  pk ← map_err ContextError (wpkh_new pk); Ok (ShWpkh pk).

Definition tr_new (internal_key : Pk) (tree : option TapTree) : result Error Tr :=
  _ ← map_err ContextError (check_pk Tap internal_key); Ok (mkTr internal_key tree).

(** [new_pk]; [None] is the panic of an [expect]. *)
Definition new_pk (pk : Pk) : option Descriptor :=
  match from_ast BareCtx (Terminal.PkK pk) with
  | Ok inner =>
      match from_ast BareCtx (Terminal.Check inner) with
      | Ok ms => match bare_new ms with Ok ms => Some (Desc_Bare ms) | Err _ => None end
      | Err _ => None
      end
  | Err _ => None
  end.

Definition new_pkh (pk : Pk) : result Error Descriptor := Desc_Pkh <$> map_err ContextError (pkh_new pk).
Definition new_wpkh (pk : Pk) : result Error Descriptor := Desc_Wpkh <$> map_err ContextError (wpkh_new pk).
Definition new_sh_wpkh (pk : Pk) : result Error Descriptor := Desc_Sh <$> sh_new_wpkh pk.
Definition new_sh (ms : Miniscript) : result Error Descriptor := Desc_Sh <$> sh_new ms.
Definition new_wsh (ms : Miniscript) : result Error Descriptor := Desc_Wsh <$> wsh_new ms.
Definition new_sh_wsh (ms : Miniscript) : result Error Descriptor := Desc_Sh <$> sh_new_wsh ms.
Definition new_bare (ms : Miniscript) : result Error Descriptor := Desc_Bare <$> bare_new ms.
Definition new_sh_sortedmulti (thresh : Threshold Pk) : result Error Descriptor := Desc_Sh <$> sh_new_sortedmulti thresh.
Definition new_sh_wsh_sortedmulti (thresh : Threshold Pk) : result Error Descriptor :=
  Desc_Sh <$> sh_new_wsh_sortedmulti thresh.
Definition new_wsh_sortedmulti (thresh : Threshold Pk) : result Error Descriptor := Desc_Wsh <$> wsh_new_sortedmulti thresh.
Definition new_tr (key : Pk) (script : option TapTree) : result Error Descriptor := Desc_Tr <$> tr_new key script.

(** * Sanity checks *)

(** [Miniscript::from_ast(..).expect("Must typecheck")] *)
Definition smv_miniscript (ctx : ScriptContext) (thresh : Threshold Pk) : option Miniscript :=
  match from_ast ctx (Terminal.Multi thresh) with Ok ms => Some ms | Err _ => None end.

Definition sane_ms (ctx : ScriptContext) (ms : Miniscript) : result DescriptorError () :=
  map_err Analysis (sanity_check ctx ms).

Definition smv_sanity_check (ctx : ScriptContext) (self : SortedMultiVec) : option (result DescriptorError ()) :=
  ms ← smv_miniscript ctx (smv_inner self); Some (sane_ms ctx ms).

Definition wpkh_sanity_check (pk : Pk) : result DescriptorError () :=
  if is_uncompressed pk then Err (Invalid (ContextError CompressedOnly)) else Ok tt.

Definition wsh_sanity_check (self : Wsh) : option (result DescriptorError ()) :=
  match self with
  | WshSortedMulti smv => smv_sanity_check Segwitv0 smv
  | WshMs ms => Some (sane_ms Segwitv0 ms)
  end.

Definition sh_sanity_check (self : Sh) : option (result DescriptorError ()) :=
  match self with
  | ShWsh wsh => wsh_sanity_check wsh
  | ShWpkh pk => Some (wpkh_sanity_check pk)
  | ShSortedMulti smv => smv_sanity_check Legacy smv
  | ShMs ms => Some (sane_ms Legacy ms)
  end.

Definition tr_leaves (self : Tr) : list (nat * Miniscript) :=
  match tree self with Some t => taptree_leaves t | None => [] end.

Fixpoint leaves_sanity_check (leaves : list (nat * Miniscript)) : result DescriptorError () :=
  match leaves with
  | [] => Ok tt
  | (_, ms) :: leaves => _ ← sane_ms Tap ms; leaves_sanity_check leaves
  end.

Definition tr_sanity_check (self : Tr) : result DescriptorError () := leaves_sanity_check (tr_leaves self).

Definition desc_sanity_check (self : Descriptor) : option (result DescriptorError ()) :=
  match self with
  | Desc_Bare ms => Some (sane_ms BareCtx ms)
  | Desc_Pkh _ => Some (Ok tt)
  | Desc_Wpkh pk => Some (wpkh_sanity_check pk)
  | Desc_Wsh wsh => wsh_sanity_check wsh
  | Desc_Sh sh => sh_sanity_check sh
  | Desc_Tr tr => Some (tr_sanity_check tr)
  end.

(** * Keys *)

Definition smv_for_each_key (pred : Pk -> bool) (self : SortedMultiVec) : bool :=
  forallb pred (Threshold.data (smv_inner self)).

Definition wsh_for_each_key (pred : Pk -> bool) (self : Wsh) : bool :=
  match self with
  | WshSortedMulti smv => smv_for_each_key pred smv
  | WshMs ms => for_each_key pred ms
  end.

Definition sh_for_each_key (pred : Pk -> bool) (self : Sh) : bool :=
  match self with
  | ShWsh wsh => wsh_for_each_key pred wsh
  | ShSortedMulti smv => smv_for_each_key pred smv
  | ShWpkh pk => pred pk
  | ShMs ms => for_each_key pred ms
  end.

Definition tr_for_each_key (pred : Pk -> bool) (self : Tr) : bool :=
  let script_keys_res := forallb (fun '(_, ms) => for_each_key pred ms) (tr_leaves self) in
  script_keys_res && pred (internal_key self).

Definition desc_for_each_key (pred : Pk -> bool) (self : Descriptor) : bool :=
  match self with
  | Desc_Bare ms => for_each_key pred ms
  | Desc_Pkh pk | Desc_Wpkh pk => pred pk
  | Desc_Wsh wsh => wsh_for_each_key pred wsh
  | Desc_Sh sh => sh_for_each_key pred sh
  | Desc_Tr tr => tr_for_each_key pred tr
  end.

(** ** [PkIter] of iter.rs *)

Record DescPkIter : Type := mkDescPkIter {
  single_key : option Pk;
  taptree_iter : option (list (nat * Miniscript));
  ms_iter_bare : option PkIter;
  ms_iter_legacy : option PkIter;
  ms_iter_segwit : option PkIter;
  ms_iter_taproot : option PkIter;
  sorted_multi : option (list Pk);
}.

Definition from_key (pk : Pk) : DescPkIter := mkDescPkIter (Some pk) None None None None None None.
Definition from_miniscript_bare (ms : Miniscript) : DescPkIter :=
  mkDescPkIter None None (Some (iter_pk ms)) None None None None.
Definition from_miniscript_legacy (ms : Miniscript) : DescPkIter :=
  mkDescPkIter None None None (Some (iter_pk ms)) None None None.
Definition from_miniscript_segwit (ms : Miniscript) : DescPkIter :=
  mkDescPkIter None None None None (Some (iter_pk ms)) None None.
Definition from_sortedmulti (sm : list Pk) : DescPkIter := mkDescPkIter None None None None None None (Some sm).
Definition from_tr_keys (tr : Tr) : DescPkIter :=
  mkDescPkIter (Some (internal_key tr)) (Some (tr_leaves tr)) None None None None None.

Definition smv_keys (self : SortedMultiVec) : list Pk := Threshold.data (smv_inner self).

Definition desc_iter_pk (self : Descriptor) : DescPkIter :=
  match self with
  | Desc_Bare ms => from_miniscript_bare ms
  | Desc_Pkh pk => from_key pk
  | Desc_Wpkh pk => from_key pk
  | Desc_Sh sh =>
      match sh with
      | ShWsh wsh =>
          match wsh with
          | WshSortedMulti sorted => from_sortedmulti (smv_keys sorted)
          | WshMs ms => from_miniscript_segwit ms
          end
      | ShWpkh pk => from_key pk
      | ShSortedMulti sorted => from_sortedmulti (smv_keys sorted)
      | ShMs ms => from_miniscript_legacy ms
      end
  | Desc_Wsh wsh =>
      match wsh with
      | WshSortedMulti sorted => from_sortedmulti (smv_keys sorted)
      | WshMs ms => from_miniscript_segwit ms
      end
  | Desc_Tr tr => from_tr_keys tr
  end.

(** [as_mut().and_then(Iterator::next)], one turn of the loop of the inner iterator. *)
Definition opt_turn (it : option PkIter) : option (option Pk * PkIter) :=
  match it with Some it => pk_iter_turn it | None => None end.

(** One turn of [next], or of a loop in it (its own, or that of the iterator over the keys of
    a Miniscript); the first component is [None] when the loop goes on. *)
Definition desc_pk_turn (self : DescPkIter) : option (option Pk * DescPkIter) :=
  let '(mkDescPkIter single leaves bare legacy segwit tap sorted) := self in
  match single with
  | Some k => Some (Some k, mkDescPkIter None leaves bare legacy segwit tap sorted)
  | None =>
  match opt_turn tap with
  | Some (item, it) => Some (item, mkDescPkIter None leaves bare legacy segwit (Some it) sorted)
  | None =>
  match leaves with
  | Some ((_, leaf) :: leaves) =>
      Some (None, mkDescPkIter None (Some leaves) bare legacy segwit (Some (iter_pk leaf)) sorted)
  | _ =>
  match opt_turn bare with
  | Some (item, it) => Some (item, mkDescPkIter None leaves (Some it) legacy segwit tap sorted)
  | None =>
  match opt_turn legacy with
  | Some (item, it) => Some (item, mkDescPkIter None leaves bare (Some it) segwit tap sorted)
  | None =>
  match opt_turn segwit with
  | Some (item, it) => Some (item, mkDescPkIter None leaves bare legacy (Some it) tap sorted)
  | None =>
  match sorted with
  | Some (k :: ks) => Some (Some k, mkDescPkIter None leaves bare legacy segwit tap (Some ks))
  | _ => None
  end end end end end end end.

(** The keys of a descriptor. *)
Definition wsh_keys (self : Wsh) : list Pk :=
  match self with WshSortedMulti smv => smv_keys smv | WshMs ms => keys ms end.
Definition sh_keys (self : Sh) : list Pk :=
  match self with
  | ShWsh wsh => wsh_keys wsh
  | ShWpkh pk => [pk]
  | ShSortedMulti smv => smv_keys smv
  | ShMs ms => keys ms
  end.
Definition desc_keys (self : Descriptor) : list Pk :=
  match self with
  | Desc_Bare ms => keys ms
  | Desc_Pkh pk | Desc_Wpkh pk => [pk]
  | Desc_Sh sh => sh_keys sh
  | Desc_Wsh wsh => wsh_keys wsh
  | Desc_Tr tr => internal_key tr :: flat_map (fun '(_, ms) => keys ms) (tr_leaves tr)
  end.

(** * Lifting *)

Definition lift_ms (ctx : ScriptContext) (ms : Miniscript) : option (result DescriptorError Semantic.Policy) :=
  map_err LiftFailed <$> lift ctx ms.

Definition smv_lift (self : SortedMultiVec) : Semantic.Policy :=
  Semantic.Thresh (Threshold.forget_maximum (Threshold.map Semantic.Key (smv_inner self))).

Definition wsh_lift (self : Wsh) : option (result DescriptorError Semantic.Policy) :=
  match self with
  | WshSortedMulti smv => Some (Ok (smv_lift smv))
  | WshMs ms => lift_ms Segwitv0 ms
  end.

Definition sh_lift (self : Sh) : option (result DescriptorError Semantic.Policy) :=
  match self with
  | ShWsh wsh => wsh_lift wsh
  | ShWpkh pk => Some (Ok (Semantic.Key pk))
  | ShSortedMulti smv => Some (Ok (smv_lift smv))
  | ShMs ms => lift_ms Legacy ms
  end.

(** The leaves, up to the first one that is not lifted. *)
Fixpoint lift_leaves (leaves : list (nat * Miniscript)) : option (result DescriptorError (list Semantic.Policy)) :=
  match leaves with
  | [] => Some (Ok [])
  | (_, ms) :: leaves =>
      p ← lift_ms Tap ms;
      match p with
      | Err e => Some (Err e)
      | Ok p => ps ← lift_leaves leaves; Some (ps ← ps; Ok (p :: ps))
      end
  end.

(** [Liftable for TapTree]; an empty threshold is the panic of [expect]. *)
Definition taptree_lift (self : TapTree) : option (result DescriptorError Semantic.Policy) :=
  ps ← lift_leaves (taptree_leaves self);
  match ps with
  | Err e => Some (Err e)
  | Ok ps =>
      match Threshold.new 0 1 ps with
      | Err _ => None
      | Ok thresh => p ← Semantic.normalized (Semantic.Thresh thresh); Some (Ok p)
      end
  end.

Definition tr_lift (self : Tr) : option (result DescriptorError Semantic.Policy) :=
  match tree self with
  | Some root =>
      p ← taptree_lift root;
      Some (p ← p; Ok (Semantic.Thresh (Threshold.or (Semantic.Key (internal_key self)) p)))
  | None => Some (Ok (Semantic.Key (internal_key self)))
  end.

Definition desc_lift (self : Descriptor) : option (result DescriptorError Semantic.Policy) :=
  match self with
  | Desc_Bare ms => lift_ms BareCtx ms
  | Desc_Pkh pk | Desc_Wpkh pk => Some (Ok (Semantic.Key pk))
  | Desc_Sh sh => sh_lift sh
  | Desc_Wsh wsh => wsh_lift wsh
  | Desc_Tr tr => tr_lift tr
  end.
End Data.

(** * Translation *)

Section TranslateDescriptor.
Context {B : Bitcoin} {P Q : MiniscriptKey} {E : Type} (t : Translator P Q E).

Abbreviation Translated A := (option (result (TranslateErr E) A)).

Definition translate_key (pk : Pk (MiniscriptKey := P)) : result (TranslateErr E) (Pk (MiniscriptKey := Q)) :=
  map_err TranslatorErr (tr_pk t pk).

(** [?] on the result of a translation that may also panic. *)
Definition with_translated {A C} (m : Translated A) (f : A -> result (TranslateErr E) C) : Translated C :=
  r ← m; Some (a ← r; f a).

Definition smv_translate_pk (ctx : ScriptContext) (self : SortedMultiVec (K := P))
  : result (TranslateErr E) (SortedMultiVec (K := Q)) :=
  inner ← Threshold.translate translate_key (smv_inner self);
  map_err OuterError (smv_constructor_check ctx (mkSortedMultiVec inner)).

Definition bare_translate_pk (self : Miniscript (K := P)) : Translated (Miniscript (K := Q)) :=
  with_translated (translate_pk_ctx BareCtx t self) (fun ms => map_err OuterError (bare_new ms)).

Definition pkh_translate_pk (self : Pk (MiniscriptKey := P)) : result (TranslateErr E) (Pk (MiniscriptKey := Q)) :=
  pk ← translate_key self; map_err (fun e => OuterError (ContextError e)) (pkh_new pk).

Definition wpkh_translate_pk (self : Pk (MiniscriptKey := P)) : result (TranslateErr E) (Pk (MiniscriptKey := Q)) :=
  pk ← translate_key self; map_err (fun e => OuterError (ContextError e)) (wpkh_new pk).

Definition wsh_translate_pk (self : Wsh (K := P)) : Translated (Wsh (K := Q)) :=
  match self with
  | WshSortedMulti smv => Some (WshSortedMulti <$> smv_translate_pk Segwitv0 smv)
  | WshMs ms => with_translated (translate_pk_ctx Segwitv0 t ms) (fun ms => Ok (WshMs ms))
  end.

Definition sh_translate_pk (self : Sh (K := P)) : Translated (Sh (K := Q)) :=
  match self with
  | ShWsh wsh => with_translated (wsh_translate_pk wsh) (fun wsh => Ok (ShWsh wsh))
  | ShWpkh pk => Some (ShWpkh <$> wpkh_translate_pk pk)
  | ShSortedMulti smv => Some (ShSortedMulti <$> smv_translate_pk Legacy smv)
  | ShMs ms => with_translated (translate_pk_ctx Legacy t ms) (fun ms => Ok (ShMs ms))
  end.

Fixpoint leaves_translate_pk (leaves : list (nat * Miniscript (K := P))) : Translated (list (nat * Miniscript (K := Q))) :=
  match leaves with
  | [] => Some (Ok [])
  | (depth, leaf) :: leaves =>
      r ← translate_pk_ctx Tap t leaf;
      match r with
      | Err e => Some (Err e)
      | Ok leaf => with_translated (leaves_translate_pk leaves) (fun leaves => Ok ((depth, leaf) :: leaves))
      end
  end.

Definition taptree_translate_pk (self : TapTree (K := P)) : Translated (TapTree (K := Q)) :=
  with_translated (leaves_translate_pk (taptree_leaves self)) (fun leaves => Ok (mkTapTree leaves)).

(** The tree first, then the internal key. *)
Definition tr_translate_pk (self : Tr (K := P)) : Translated (Tr (K := Q)) :=
  with_translated
    (match tree self with
     | Some tree => with_translated (taptree_translate_pk tree) (fun tree => Ok (Some tree))
     | None => Some (Ok None)
     end)
    (fun tree => pk ← translate_key (internal_key self); map_err OuterError (tr_new pk tree)).

Definition desc_translate_pk (self : Descriptor (K := P)) : Translated (Descriptor (K := Q)) :=
  match self with
  | Desc_Bare ms => with_translated (bare_translate_pk ms) (fun ms => Ok (Desc_Bare ms))
  | Desc_Pkh pk => Some (Desc_Pkh <$> pkh_translate_pk pk)
  | Desc_Wpkh pk => Some (Desc_Wpkh <$> wpkh_translate_pk pk)
  | Desc_Sh sh => with_translated (sh_translate_pk sh) (fun sh => Ok (Desc_Sh sh))
  | Desc_Wsh wsh => with_translated (wsh_translate_pk wsh) (fun wsh => Ok (Desc_Wsh wsh))
  | Desc_Tr tr => with_translated (tr_translate_pk tr) (fun tr => Ok (Desc_Tr tr))
  end.
End TranslateDescriptor.

(** * Weights *)

(** [Weight::from_vb]: four weight units for a byte, if they fit in 64 bits. *)
Definition Weight_from_vb (vb : nat) : option N :=
  let wu := (4 * N.of_nat vb)%N in if (wu <? 2 ^ 64)%N then Some wu else None.

Definition Weight_from_wu (wu : nat) : N := N.of_nat wu.

Section Weights.
Context {B : Bitcoin} {Sp : Spending} {K : MiniscriptKey}.

(** [varint_len(n) - varint_len(0)] on [usize]; [None] is a panic here and below. *)
Definition varint_diff (n : nat) : option nat :=
  if varint_len 0 <=? varint_len n then Some (varint_len n - varint_len 0) else None.

(** Values that are an error or that panic. *)
Abbreviation Sized A := (option (result Error A)).

Definition sat_size (ctx : ScriptContext) (ms : Miniscript) : Sized nat :=
  size ← max_satisfaction_size ctx ms; Some (ok_or size ImpossibleSatisfaction).

(** [?] on a [Result]. *)
Definition and_then {A C} (m : Sized A) (f : A -> Sized C) : Sized C :=
  r ← m; match r with Ok a => f a | Err e => Some (Err e) end.

(** ** Sorted multisignatures *)

Definition smv_script_size (ctx : ScriptContext) (self : SortedMultiVec) : option nat :=
  len ← pks_len ctx (Threshold.data (smv_inner self));
  Some (script_num_size (N.of_nat (Threshold.k (smv_inner self))) + 1
        + script_num_size (N.of_nat (Threshold.n (smv_inner self))) + len).

Definition smv_max_satisfaction_witness_elements (self : SortedMultiVec) : nat := 2 + Threshold.k (smv_inner self).
Definition smv_max_satisfaction_size (self : SortedMultiVec) : nat := 1 + 73 * Threshold.k (smv_inner self).

(** ** [max_weight_to_satisfy] *)

Definition bare_max_weight_to_satisfy (ms : Miniscript) : Sized N :=
  and_then (sat_size BareCtx ms) (fun scriptsig_size =>
    scriptsig_varint_diff ← varint_diff scriptsig_size;
    Some (ok_or (Weight_from_vb (scriptsig_varint_diff + scriptsig_size)) CouldNotSatisfy)).

Definition pkh_max_weight_to_satisfy (pk : Pk) : option N :=
  len ← pk_len BareCtx pk;
  let scriptsig_size := 73 + len in
  scriptsig_varint_diff ← varint_diff scriptsig_size;
  Weight_from_vb (scriptsig_varint_diff + scriptsig_size).

Definition wpkh_max_weight_to_satisfy (pk : Pk) : option N :=
  len ← pk_len Segwitv0 pk;
  let stack_items_size := 73 + len in
  stack_varint_diff ← varint_diff 2;
  Some (Weight_from_wu (stack_varint_diff + stack_items_size)).

(** The sizes of the script and of its satisfaction. *)
Definition wsh_sizes (self : Wsh) : Sized (nat * nat * nat) :=
  match self with
  | WshSortedMulti smv =>
      script_size ← smv_script_size Segwitv0 smv;
      Some (Ok (script_size, smv_max_satisfaction_witness_elements smv, smv_max_satisfaction_size smv))
  | WshMs ms =>
      script_size ← script_size Segwitv0 ms;
      match max_satisfaction_witness_elements ms with
      | Err e => Some (Err e)
      | Ok elems => and_then (sat_size Segwitv0 ms) (fun size => Some (Ok (script_size, elems, size)))
      end
  end.

Definition wsh_max_weight_to_satisfy (self : Wsh) : Sized N :=
  and_then (wsh_sizes self) (fun '(redeem_script_size, max_sat_elems, max_sat_size) =>
    stack_varint_diff ← varint_diff max_sat_elems;
    Some (Ok (Weight_from_wu (stack_varint_diff + varint_len redeem_script_size + redeem_script_size + max_sat_size)))).

(** The scriptSig of an unwrapped P2SH output: the satisfaction and the push of the script. *)
Definition redeem_size (script_size sat_size : nat) : nat := push_opcode_size script_size + script_size + sat_size.

Definition sh_max_weight_to_satisfy (self : Sh) : Sized N :=
  and_then
    (match self with
     | ShWsh wsh => and_then (wsh_max_weight_to_satisfy wsh) (fun weight => Some (Ok (1 + 1 + 1 + 32, weight)))
     | ShSortedMulti smv =>
         ss ← smv_script_size Legacy smv; Some (Ok (redeem_size ss (smv_max_satisfaction_size smv), 0%N))
     | ShWpkh pk => weight ← wpkh_max_weight_to_satisfy pk; Some (Ok (1 + 1 + 1 + 20, weight))
     | ShMs ms =>
         ss ← script_size Legacy ms;
         and_then (sat_size Legacy ms) (fun size => Some (Ok (redeem_size ss size, 0%N)))
     end)
    (fun '(scriptsig_size, witness_size) =>
       scriptsig_varint_diff ← varint_diff scriptsig_size;
       match Weight_from_vb (scriptsig_varint_diff + scriptsig_size) with
       | Some w => Some (Ok (w + witness_size)%N)
       | None => Some (Err CouldNotSatisfy)
       end).

Definition TAPROOT_CONTROL_BASE_SIZE : nat := 33.
Definition TAPROOT_CONTROL_NODE_SIZE : nat := 32.

Definition control_block_len (depth : nat) : nat := TAPROOT_CONTROL_BASE_SIZE + depth * TAPROOT_CONTROL_NODE_SIZE.

(** The weight of spending one leaf; [None] inside for leaves that cannot be satisfied. *)
Definition leaf_weight (count : nat -> option nat) (leaf : nat * Miniscript) : option (option nat) :=
  let '(depth, ms) := leaf in
  script_size ← script_size Tap ms;
  match max_satisfaction_witness_elements ms with
  | Err _ => Some None
  | Ok max_sat_elems =>
      size ← max_satisfaction_size Tap ms;
      match size with
      | None => Some None
      | Some max_sat_size =>
          let control_block_size := control_block_len depth in
          stack ← count max_sat_elems;
          Some (Some (stack + max_sat_size + varint_len script_size + script_size
                      + varint_len control_block_size + control_block_size))
      end
  end.

(** [filter_map(..).max()] *)
Definition max_of (l : list nat) : option nat := match l with [] => None | _ => Some (list_max l) end.

Definition leaves_weight (count : nat -> option nat) (tree : TapTree) : Sized nat :=
  weights ← mapM (leaf_weight count) (taptree_leaves tree);
  Some (ok_or (max_of (omap id weights)) ImpossibleSatisfaction).

Definition tr_max_weight_to_satisfy (self : Tr) : Sized N :=
  match tree self with
  | None =>
      let item_sig_size := 1 + 65 in
      stack_varint_diff ← varint_diff 1;
      Some (Ok (Weight_from_wu (stack_varint_diff + item_sig_size)))
  | Some tree =>
      and_then (leaves_weight (fun max_sat_elems => varint_diff (max_sat_elems + 1)) tree)
        (fun wu => Some (Ok (Weight_from_wu wu)))
  end.

Definition max_weight_to_satisfy (self : Descriptor) : Sized N :=
  match self with
  | Desc_Bare ms => bare_max_weight_to_satisfy ms
  | Desc_Pkh pk => Ok <$> pkh_max_weight_to_satisfy pk
  | Desc_Wpkh pk => Ok <$> wpkh_max_weight_to_satisfy pk
  | Desc_Wsh wsh => wsh_max_weight_to_satisfy wsh
  | Desc_Sh sh => sh_max_weight_to_satisfy sh
  | Desc_Tr tr => tr_max_weight_to_satisfy tr
  end.

(** ** [max_satisfaction_weight] *)

Definition legacy_weight (scriptsig_len : nat) : nat := 4 * (varint_len scriptsig_len + scriptsig_len).

Definition bare_max_satisfaction_weight (ms : Miniscript) : Sized nat :=
  and_then (sat_size BareCtx ms) (fun scriptsig_len => Some (Ok (legacy_weight scriptsig_len))).
Definition pkh_max_satisfaction_weight (pk : Pk) : option nat := len ← pk_len BareCtx pk; Some (4 * (1 + 73 + len)).
Definition wpkh_max_satisfaction_weight (pk : Pk) : option nat := len ← pk_len Segwitv0 pk; Some (4 + 1 + 73 + len).

Definition wsh_max_satisfaction_weight (self : Wsh) : Sized nat :=
  and_then (wsh_sizes self) (fun '(script_size, max_sat_elems, max_sat_size) =>
    Some (Ok (4 + varint_len script_size + script_size + varint_len max_sat_elems + max_sat_size))).

Definition sh_max_satisfaction_weight (self : Sh) : Sized nat :=
  match self with
  | ShWsh wsh => and_then (wsh_max_satisfaction_weight wsh) (fun w => Some (Ok (4 * 35 + w)))
  | ShSortedMulti smv =>
      ss ← smv_script_size Legacy smv; Some (Ok (legacy_weight (redeem_size ss (smv_max_satisfaction_size smv))))
  | ShWpkh pk => w ← wpkh_max_satisfaction_weight pk; Some (Ok (4 * 23 + w))
  | ShMs ms =>
      ss ← script_size Legacy ms;
      and_then (sat_size Legacy ms) (fun size => Some (Ok (legacy_weight (redeem_size ss size))))
  end.

Definition tr_max_satisfaction_weight (self : Tr) : Sized nat :=
  match tree self with
  | None => Some (Ok (4 + 1 + 1 + 65))
  | Some tree => leaves_weight (fun max_sat_elems => Some (4 + varint_len (max_sat_elems + 2))) tree
  end.

Definition max_satisfaction_weight (self : Descriptor) : Sized nat :=
  match self with
  | Desc_Bare ms => bare_max_satisfaction_weight ms
  | Desc_Pkh pk => Ok <$> pkh_max_satisfaction_weight pk
  | Desc_Wpkh pk => Ok <$> wpkh_max_satisfaction_weight pk
  | Desc_Wsh wsh => wsh_max_satisfaction_weight wsh
  | Desc_Sh sh => sh_max_satisfaction_weight sh
  | Desc_Tr tr => tr_max_satisfaction_weight tr
  end.
End Weights.
