(* ===== verification/DescriptorProps.v ===== *)
(** Properties of descriptors (src/src/descriptor/): the iterator over the keys, and what
    descriptors are lifted to. *)
From S2P Require Import Prelude Bitcoin Primitives Reference Script Ord Correctness Malleability Types ExtData Tree Ast Context Samples Encode Satisfy.
From S2P Require Import Semantic PolicyNormal Lift TapTree SpendInfo Descriptor.

(** * Keys *)

(** An iterator that passes the turns of another one on drains it, and goes on from where it
    has ended. *)
Lemma drain_inner {X T A} (inner : X -> option (option A * X)) (outer : T -> option (option A * T)) (embed : X -> T) :
  (forall s, match inner s with Some (item, s') => outer (embed s) = Some (item, embed s') | None => True end) ->
  forall fuel s l, drain_some inner fuel s = Some l ->
  exists s', inner s' = None /\ forall fuel' l', drain_some outer fuel' (embed s') = Some l' ->
    exists fuel'', drain_some outer fuel'' (embed s) = Some (l ++ l').
Proof.
  intros Hstep. induction fuel as [|fuel IH]; intros s l H; [done|]. cbn [drain_some] in H. specialize (Hstep s).
  destruct (inner s) as [[item s1]|] eqn:E.
  - destruct item as [a|].
    + destruct (drain_some inner fuel s1) as [l1|] eqn:E1; [|done]. injection H as <-.
      destruct (IH _ _ E1) as (s' & Hs' & Hl). exists s'. split; [done|]. intros fuel' l' Hd. destruct (Hl fuel' l' Hd) as [f Hf].
      exists (S f). cbn [drain_some]. by rewrite Hstep, Hf.
    + destruct (IH _ _ H) as (s' & Hs' & Hl). exists s'. split; [done|]. intros fuel' l' Hd. destruct (Hl fuel' l' Hd) as [f Hf].
      exists (S f). cbn [drain_some]. by rewrite Hstep.
  - injection H as <-. exists s. split; [done|]. intros fuel' l' Hd. by exists fuel'.
Qed.

Section Keys.
Context {B : Bitcoin} {K : MiniscriptKey}.

Abbreviation drains it l := (exists fuel, drain_some desc_pk_turn fuel it = Some l).

(** The iterators over one Miniscript. *)
Lemma drain_ms (embed : PkIter -> DescPkIter) ms :
  (forall s, desc_pk_turn (embed s) = match pk_iter_turn s with Some (item, s') => Some (item, embed s') | None => None end) ->
  drains (embed (iter_pk ms)) (keys ms).
Proof.
  intros Hturn. destruct (iter_pk_drain ms) as [fuel Hf].
  destruct (drain_inner pk_iter_turn desc_pk_turn embed) with (fuel := fuel) (s := iter_pk ms) (l := keys ms) as (s' & Hs' & Hl); [|exact Hf|].
  - intros s. rewrite Hturn. by destruct (pk_iter_turn s) as [[]|].
  - rewrite <- (app_nil_r (keys ms)). apply (Hl 1 []). cbn [drain_some]. by rewrite Hturn, Hs'.
Qed.

Lemma drain_sortedmulti l : drains (from_sortedmulti l) l.
Proof. induction l as [|k l [fuel IH]]; [by exists 1|]. exists (S fuel). cbn [drain_some desc_pk_turn from_sortedmulti opt_turn]. unfold from_sortedmulti in IH. by rewrite IH. Qed.

Lemma drain_leaves leaves : forall tap fuel l,
  match tap with Some it => drain_some pk_iter_turn fuel it = Some l | None => l = [] end ->
  drains (mkDescPkIter None (Some leaves) None None None tap None) (l ++ flat_map (fun '(_, ms) => keys ms) leaves).
Proof.
  induction leaves as [|[d ms] leaves IH]; intros tap fuel l Hl.
  - assert (drains (mkDescPkIter None (Some []) None None None None None) []) as [f0 H0] by (by exists 1).
    destruct tap as [it|]; [|subst l; by exists f0].
    destruct (drain_inner pk_iter_turn desc_pk_turn (fun it => mkDescPkIter None (Some []) None None None (Some it) None))
      with (fuel := fuel) (s := it) (l := l) as (s' & Hs' & Hd); [|exact Hl|].
    + intros s. cbn [desc_pk_turn opt_turn]. by destruct (pk_iter_turn s) as [[]|].
    + apply (Hd 1 []). cbn [drain_some desc_pk_turn opt_turn]. by rewrite Hs'.
  - destruct (iter_pk_drain ms) as [f1 H1]. specialize (IH (Some (iter_pk ms)) f1 _ H1) as [f2 H2].
    change (flat_map _ ((d, ms) :: leaves)) with (keys ms ++ flat_map (fun '(_, ms) => keys ms) leaves).
    destruct tap as [it|].
    2: { subst l. exists (S f2). exact H2. }
    destruct (drain_inner pk_iter_turn desc_pk_turn (fun it => mkDescPkIter None (Some ((d, ms) :: leaves)) None None None (Some it) None))
      with (fuel := fuel) (s := it) (l := l) as (s' & Hs' & Hd); [|exact Hl|].
    + intros s. cbn [desc_pk_turn opt_turn]. by destruct (pk_iter_turn s) as [[]|].
    + apply (Hd (S f2)). cbn [drain_some desc_pk_turn opt_turn]. by rewrite Hs'.
Qed.

Lemma for_each_key_keys pred ms : for_each_key pred ms = forallb pred (keys ms).
Proof. apply for_each_key_spec. Qed.

Lemma leaves_for_each_key pred (leaves : list (nat * Miniscript)) :
  forallb (fun '(_, ms) => for_each_key pred ms) leaves = forallb pred (flat_map (fun '(_, ms) => keys ms) leaves).
Proof.
  induction leaves as [|[d ms] leaves IH]; [done|]. cbn [forallb flat_map]. by rewrite forallb_app, IH, for_each_key_keys.
Qed.

(** The iterator over the keys of a descriptor ends, and yields the keys in the order of
    its text, the internal key of a taproot output before those of its leaves; and
    [for_each_key] returns whether the predicate holds for all of them. *)
Theorem desc_keys_spec (d : Descriptor) :
  (exists fuel, drain_some desc_pk_turn fuel (desc_iter_pk d) = Some (desc_keys d))
  /\ forall pred, desc_for_each_key pred d = forallb pred (desc_keys d).
Proof.
  assert (forall pk, drains (from_key pk) [pk]) as Hkey by (by exists 2).
  assert (forall ms, drains (from_miniscript_segwit ms) (keys ms)) as Hseg
    by (intros ms; by apply (drain_ms (fun it => mkDescPkIter None None None None (Some it) None None))).
  split.
  - destruct d as [ms|pk|pk|[[smv|ms]|pk|smv|ms]|[smv|ms]|tr]; try apply Hkey; try apply Hseg; try apply drain_sortedmulti.
    + by apply (drain_ms (fun it => mkDescPkIter None None (Some it) None None None None)).
    + by apply (drain_ms (fun it => mkDescPkIter None None None (Some it) None None None)).
    + destruct (drain_leaves (tr_leaves tr) None 0 [] eq_refl) as [fuel Hf]. exists (S fuel).
      cbn [drain_some desc_pk_turn desc_iter_pk from_tr_keys]. by rewrite Hf.
  - intros pred. destruct d as [ms|pk|pk|[[smv|ms]|pk|smv|ms]|[smv|ms]|tr]; cbn [desc_for_each_key sh_for_each_key wsh_for_each_key desc_keys sh_keys wsh_keys forallb];
      rewrite ?for_each_key_keys, ?andb_true_r; try done.
    unfold tr_for_each_key. by rewrite leaves_for_each_key, andb_comm.
Qed.
End Keys.

(** * Lifting *)

Section Lifting.
Context {B : Bitcoin} {K : MiniscriptKey}.

(** The scripts of a descriptor that are Miniscripts, with their contexts. *)
Definition wsh_scripts (wsh : Wsh) : list (ScriptContext * Miniscript) :=
  match wsh with WshMs ms => [(Segwitv0, ms)] | WshSortedMulti _ => [] end.
Definition desc_scripts (d : Descriptor) : list (ScriptContext * Miniscript) :=
  match d with
  | Desc_Bare ms => [(BareCtx, ms)]
  | Desc_Pkh _ | Desc_Wpkh _ => []
  | Desc_Sh sh => match sh with ShWsh wsh => wsh_scripts wsh | ShMs ms => [(Legacy, ms)] | _ => [] end
  | Desc_Wsh wsh => wsh_scripts wsh
  | Desc_Tr tr => map (fun '(_, ms) => (Tap, ms)) (tr_leaves tr)
  end.

Definition lifts (s : ScriptContext * Miniscript) : bool := match lift s.1 s.2 with Some (Ok _) => true | _ => false end.

(** What is enough to spend an output: a signature for the only key, enough of them for a
    sorted multisignature, the policy of the only script; and for a taproot output a
    signature for the internal key or the policy of one of the leaves. *)
Section Spendable.
Context (v : valuation).

Definition script_spendable (s : ScriptContext * Miniscript) : bool :=
  match lift s.1 s.2 with Some (Ok p) => holds v p | _ => false end.
Definition smv_spendable (smv : SortedMultiVec) : bool :=
  Threshold.k (smv_inner smv) <=? count_if (fun pk => v (Semantic.Key pk)) (smv_keys smv).
Definition wsh_spendable (wsh : Wsh) : bool :=
  match wsh with WshSortedMulti smv => smv_spendable smv | WshMs ms => script_spendable (Segwitv0, ms) end.
Definition spendable (d : Descriptor) : bool :=
  match d with
  | Desc_Bare ms => script_spendable (BareCtx, ms)
  | Desc_Pkh pk | Desc_Wpkh pk => v (Semantic.Key pk)
  | Desc_Sh sh =>
      match sh with
      | ShWsh wsh => wsh_spendable wsh
      | ShWpkh pk => v (Semantic.Key pk)
      | ShSortedMulti smv => smv_spendable smv
      | ShMs ms => script_spendable (Legacy, ms)
      end
  | Desc_Wsh wsh => wsh_spendable wsh
  | Desc_Tr tr => v (Semantic.Key (internal_key tr)) || existsb (fun '(_, ms) => script_spendable (Tap, ms)) (tr_leaves tr)
  end.
End Spendable.

(** What is known of the result of lifting a part. *)
Definition lifted_as (scripts : list (ScriptContext * Miniscript)) (test : valuation -> bool)
    (r : option (result DescriptorError Semantic.Policy)) : Prop :=
  exists r', r = Some r' /\ is_ok r' = forallb lifts scripts /\ forall p, r' = Ok p -> forall v, holds v p = test v.

Lemma lift_total ctx ms : exists r, lift ctx ms = Some r.
Proof. rewrite lift_eq. destruct (lift_check ctx ms); by eexists. Qed.

Lemma lift_ms_lifted ctx ms : lifted_as [(ctx, ms)] (fun v => script_spendable v (ctx, ms)) (lift_ms ctx ms).
Proof.
  unfold lifted_as, lift_ms, script_spendable, lifts. cbn [forallb fst snd]. destruct (lift_total ctx ms) as [[p|e] ->]; eexists; (split; [done|]).
  - split; [done|]. by intros q [= <-].
  - by split.
Qed.

Lemma smv_lifted smv : lifted_as [] (fun v => smv_spendable v smv) (Some (Ok (smv_lift smv))).
Proof.
  eexists. split; [done|]. split; [done|]. intros p [= <-] v. destruct smv as [[k l]]. unfold smv_spendable, smv_keys, Threshold.data. cbn.
  f_equal. unfold count_if, sum_by. by rewrite List.map_map.
Qed.

Lemma key_lifted pk : lifted_as [] (fun v => v (Semantic.Key pk)) (Some (Ok (Semantic.Key pk))).
Proof. eexists. split; [done|]. split; [done|]. by intros p [= <-] v. Qed.

Lemma wsh_lifted wsh : lifted_as (wsh_scripts wsh) (fun v => wsh_spendable v wsh) (wsh_lift wsh).
Proof. destruct wsh; [apply smv_lifted|apply lift_ms_lifted]. Qed.

Lemma lift_leaves_lifted leaves : exists r, lift_leaves leaves = Some r
  /\ is_ok r = forallb lifts (map (fun '(_, ms) => (Tap, ms)) leaves)
  /\ forall ps, r = Ok ps -> length ps = length leaves
       /\ forall v, existsb (holds v) ps = existsb (fun '(_, ms) => script_spendable v (Tap, ms)) leaves.
Proof.
  induction leaves as [|[d ms] leaves (r & Hr & Hok & Hps)]; [eexists; split; [done|]; split; [done|]; by intros ps [= <-]|].
  cbn [lift_leaves map forallb existsb]. destruct (lift_ms_lifted Tap ms) as (r1 & -> & Hok1 & Hp). cbn [mbind option_bind forallb] in *.
  rewrite andb_true_r in Hok1. rewrite <- Hok1. destruct r1 as [p|e]; cbn [is_ok andb]; [|eexists; split; [done|]; by split].
  rewrite Hr, <- Hok. cbn [mbind option_bind]. destruct r as [ps|e]; cbn [mbind result_bind is_ok]; (eexists; split; [done|]; split; [done|]); [|done].
  intros ps' [= <-]. destruct (Hps ps eq_refl) as [Hl Hv]. cbn [length existsb]. split; [by rewrite Hl|]. intros v. by rewrite Hv, (Hp p eq_refl v).
Qed.

Lemma count_some {A} (f : A -> bool) l : (1 <=? count_if f l) = existsb f l.
Proof. apply eq_iff_eq_true. by rewrite Nat.leb_le, count_if_some. Qed.

Lemma tr_lifted tr : option_Forall (fun s => taptree_leaves s <> []) (tree tr) ->
  lifted_as (desc_scripts (Desc_Tr tr)) (fun v => spendable v (Desc_Tr tr)) (tr_lift tr).
Proof.
  destruct tr as [pk [s|]]; intros Hs; unfold lifted_as, tr_lift; cbn [desc_scripts spendable tree internal_key tr_leaves].
  2: { eexists. split; [done|]. split; [done|]. intros p [= <-] v. cbn. by rewrite orb_false_r. }
  assert (taptree_leaves s <> []) as Hne by (by inversion Hs). unfold taptree_lift.
  destruct (lift_leaves_lifted (taptree_leaves s)) as (r & -> & Hok & Hps). cbn [mbind option_bind]. rewrite <- Hok.
  destruct r as [ps|e]; [|by eexists]. destruct (Hps ps eq_refl) as [Hl Hv].
  assert (Threshold.new 0 1 ps = Ok (Threshold.mkThreshold 1 ps)) as ->.
  { apply Threshold.new_valid. split; [done|]. split; [|by left]. cbn [Threshold.k]. unfold Threshold.n. cbn [Threshold.inner].
    destruct ps; [by destruct (taptree_leaves s)|cbn; lia]. }
  rewrite normalized_norm. cbn [mbind option_bind result_bind]. eexists. split; [done|]. split; [done|]. intros q [= <-] v.
  unfold Threshold.or. cbn [holds Threshold.k]. rewrite count_some. cbn [existsb]. rewrite (norm_equivalent _ v), orb_false_r. f_equal.
  change (holds v (Semantic.Thresh _)) with (1 <=? count_if (holds v) ps). by rewrite count_some, Hv.
Qed.

(** C12: Lifting a descriptor whose taproot tree has a leaf never panics. It succeeds exactly
    when all its Miniscripts are lifted, and then the policy is met exactly when the output
    can be spent: by a signature for the only key, by enough of them for a sorted
    multisignature, by the lifted policy of the only script, and for a taproot output by a
    signature for the internal key or by the lifted policy of one of the leaves. *)
Theorem desc_lift_spec (d : Descriptor) :
  match d with Desc_Tr tr => option_Forall (fun s => taptree_leaves s <> []) (tree tr) | _ => True end ->
  exists r, desc_lift d = Some r
    /\ is_ok r = forallb lifts (desc_scripts d)
    /\ forall p, r = Ok p -> forall v, holds v p = spendable v d.
Proof.
  destruct d as [ms|pk|pk|[wsh|pk|smv|ms]|wsh|tr]; intros Hd; [apply lift_ms_lifted|apply key_lifted|apply key_lifted|
    apply wsh_lifted|apply key_lifted|apply smv_lifted|apply lift_ms_lifted|apply wsh_lifted|by apply tr_lifted].
Qed.
End Lifting.

(** * Witness *)

Lemma desc_lift_spec_witness :
  exists r, desc_lift (Desc_Tr sample_tr) = Some r
    /\ is_ok r = forallb lifts (desc_scripts (Desc_Tr sample_tr))
    /\ forall p, r = Ok p -> forall v, holds v p = spendable v (Desc_Tr sample_tr).
Proof. apply (desc_lift_spec (Desc_Tr sample_tr)). by constructor. Defined.
