(* ===== verification/DescriptorTree.v ===== *)
(** Descriptors and strings: the [FromTree] and [FromStr] implementations of
    src/src/descriptor/, and [Display], which writes through the checksumming formatter. *)
From S2P Require Import Prelude Bitcoin Primitives Ord Script Correctness Malleability Types ExtData Tree Ast Context.
From S2P Require Import Text Checksum Expression ExprGrammar StrKey Display Walk FromTree PolicyShow TapTree SpendInfo Descriptor.
#[export] Existing Instance Expr.Parens_eq_dec.

Section FromTree.
Context {B : Bitcoin} {Sc : Scripts} {K : MiniscriptKey} {St : Strings} {FK : FromStrKey}.

Inductive ParseDescriptorError : Type :=
| FromTreeFailed (e : FromTreeError)
| TreeTooDeep (e : TapTreeDepthError).

Abbreviation Parsed A := (option (result ParseDescriptorError A)).

(** [?] with the conversions of errors. *)
Definition tree_checked {A} (r : option (result ParseTreeError A)) : Parsed A :=
  map_err (fun e => FromTreeFailed (FromTree.Parse (ParseTree e))) <$> r.
Definition parsed {A} (r : option (result (ParseError BoxedError) A)) : Parsed A :=
  map_err (fun e => FromTreeFailed (FromTree.Parse e)) <$> r.
Definition from_tree_checked {A} (r : option (result FromTreeError A)) : Parsed A := map_err FromTreeFailed <$> r.
Definition checked {A} (r : result Error A) : result ParseDescriptorError A :=
  map_err (fun e => FromTreeFailed (FromTree.Invalid e)) r.
Definition depth_checked {A} (r : option (result TapTreeDepthError A)) : Parsed A := map_err TreeTooDeep <$> r.

Definition smv_from_tree (ctx : ScriptContext) (tree : Expr.TreeIterItem) : Parsed SortedMultiVec :=
  bind_r (tree_checked (Expr.verify_toplevel tree (lit "sortedmulti") 1 None)) (fun _ =>
    '(inner, _) ← Expr.verify_threshold MAX_PUBKEYS_PER_MULTISIG ParseThreshold tree read_key [];
    Some (inner ← map_err FromTreeFailed inner; checked (smv_constructor_check ctx (mkSortedMultiVec inner)))).

Definition bare_from_tree (root : Expr.TreeIterItem) : Parsed Miniscript :=
  bind_r (from_tree_checked (from_tree BareCtx root)) (fun sub =>
    Some (_ ← checked (top_level_checks BareCtx sub); checked (bare_new sub))).

Definition pkh_from_tree (root : Expr.TreeIterItem) : Parsed Pk :=
  bind_r (parsed (Expr.verify_terminal_parent Pk_from_str root (lit "pkh") (lit "public key"))) (fun pk =>
    Some (checked (map_err ContextError (pkh_new pk)))).

Definition wpkh_from_tree (top : Expr.TreeIterItem) : Parsed Pk :=
  bind_r (parsed (Expr.verify_terminal_parent Pk_from_str top (lit "wpkh") (lit "public key"))) (fun pk =>
    Some (checked (map_err ContextError (wpkh_new pk)))).

Definition wsh_from_tree (top : Expr.TreeIterItem) : Parsed Wsh :=
  bind_r (tree_checked (Expr.verify_toplevel top (lit "wsh") 1 (Some 1))) (fun top =>
    name ← Expr.name top;
    if bool_decide (name = lit "sortedmulti")
    then bind_r (smv_from_tree Segwitv0 top) (fun smv => Some (Ok (WshSortedMulti smv)))
    else bind_r (from_tree_checked (from_tree Segwitv0 top)) (fun sub =>
           Some (_ ← checked (top_level_checks Segwitv0 sub); Ok (WshMs sub)))).

Definition sh_from_tree (top : Expr.TreeIterItem) : Parsed Sh :=
  bind_r (tree_checked (Expr.verify_toplevel top (lit "sh") 1 (Some 1))) (fun top =>
    name ← Expr.name top;
    if bool_decide (name = lit "wsh") then bind_r (wsh_from_tree top) (fun wsh => Some (Ok (ShWsh wsh)))
    else if bool_decide (name = lit "wpkh") then bind_r (wpkh_from_tree top) (fun pk => Some (Ok (ShWpkh pk)))
    else if bool_decide (name = lit "sortedmulti")
    then bind_r (smv_from_tree Legacy top) (fun smv => Some (Ok (ShSortedMulti smv)))
    else bind_r (from_tree_checked (from_tree Legacy top)) (fun sub =>
           Some (_ ← checked (top_level_checks Legacy sub); Ok (ShMs sub)))).

(** A leaf of a taproot tree: [Miniscript::from_tree] and the check of its base type. *)
Definition tap_leaf (node : Expr.TreeIterItem) : Parsed Miniscript :=
  bind_r (from_tree_checked (from_tree Tap node)) (fun script =>
    Some (if negb (bool_decide (c_base (corr (ty script)) = BaseB)) then checked (Err NonTopLevel) else Ok script)).

(** The loop over the nodes of the tree; every turn takes a node from the iterator. *)
Fixpoint tap_tree_loop (fuel : nat) (it : Expr.PreOrderIter) (builder : TapTreeBuilder) : Parsed TapTreeBuilder :=
  match fuel with
  | 0 => None
  | S fuel =>
      match Expr.next it with
      | None => Some (Ok builder)
      | Some (node, it) =>
          parens ← Expr.parens node;
          if bool_decide (parens = Expr.Curly) then
            name ← Expr.name node;
            if negb (bool_decide (name = [])) then
              Some (Err (FromTreeFailed (FromTree.Parse (ParseTree (IncorrectName name [])))))
            else
              bind_r (tree_checked (Expr.verify_n_children node (lit "taptree branch") 2 (Some 2))) (fun _ =>
                bind_r (depth_checked (push_inner_node builder)) (tap_tree_loop fuel it))
          else
            bind_r (tap_leaf node) (fun script =>
              builder ← push_leaf builder script;
              it ← Expr.skip_descendants it;
              tap_tree_loop fuel it builder)
      end
  end.

Definition tr_from_tree (root : Expr.TreeIterItem) : Parsed Tr :=
  bind_r (tree_checked (Expr.verify_toplevel root (lit "tr") 1 (Some 2))) (fun _ =>
    root_children ← Expr.children root;
    '(key, root_children) ← Expr.child_next root_children;
    key ← key;
    bind_r (parsed (Expr.verify_terminal Pk_from_str key (lit "internal key"))) (fun internal_key =>
      '(tap_tree, _) ← Expr.child_next root_children;
      match tap_tree with
      | None => Some (checked (tr_new internal_key None))
      | Some tap_tree =>
          it ← Expr.pre_order_iter tap_tree;
          bind_r (tap_tree_loop (S (range_len it)) it builder_new) (fun tree_builder =>
            Some (checked (tr_new internal_key (Some (finalize tree_builder)))))
      end)).

Definition desc_from_tree (top : Expr.TreeIterItem) : Parsed Descriptor :=
  name ← Expr.name top;
  n_children ← Expr.n_children top;
  let one := n_children =? 1 in
  if bool_decide (name = lit "pkh") && one then bind_r (pkh_from_tree top) (fun pk => Some (Ok (Desc_Pkh pk)))
  else if bool_decide (name = lit "wpkh") && one then bind_r (wpkh_from_tree top) (fun pk => Some (Ok (Desc_Wpkh pk)))
  else if bool_decide (name = lit "sh") && one then bind_r (sh_from_tree top) (fun sh => Some (Ok (Desc_Sh sh)))
  else if bool_decide (name = lit "wsh") && one then bind_r (wsh_from_tree top) (fun wsh => Some (Ok (Desc_Wsh wsh)))
  else if bool_decide (name = lit "tr") then bind_r (tr_from_tree top) (fun tr => Some (Ok (Desc_Tr tr)))
  else bind_r (bare_from_tree top) (fun ms => Some (Ok (Desc_Bare ms))).

(** The errors of [sanity_check] and [ext_check]. *)
Definition analysed {A} (r : result AnalysisError A) : result ParseDescriptorError A :=
  map_err (fun e => FromTreeFailed (AnalysisFailed e)) r.

Fixpoint leaves_checked (check : Miniscript -> result AnalysisError ()) (leaves : list (nat * Miniscript))
  : result ParseDescriptorError () :=
  match leaves with
  | [] => Ok tt
  | (_, ms) :: leaves => _ ← analysed (check ms); leaves_checked check leaves
  end.

(** The checks of taproot descriptors in [from_str]; [sanity_check] of a taproot descriptor
    is that of its leaves. *)
Definition tr_checked (tr : Tr) : result ParseDescriptorError () :=
  _ ← leaves_checked (sanity_check Tap) (tr_leaves tr);
  leaves_checked (fun ms => ext_check Tap ms sane) (tr_leaves tr).

Definition desc_from_root (root : Expr.TreeIterItem) : Parsed Descriptor :=
  bind_r (desc_from_tree root) (fun ret =>
    Some (match ret with Desc_Tr tr => _ ← tr_checked tr; Ok ret | _ => Ok ret end)).

Context {F : Bech32}.

Definition desc_from_str (s : str) : Parsed Descriptor :=
  bind_r (parsed (Expr.from_str s)) (fun top => root ← Expr.root top; desc_from_root root).

(** [from_str] of the parts. *)
Definition part_from_str {A} (part_from_tree : Expr.TreeIterItem -> Parsed A) (s : str) : Parsed A :=
  bind_r (parsed (Expr.from_str s)) (fun top => root ← Expr.root top; part_from_tree root).
Definition bare_from_str : str -> Parsed Miniscript := part_from_str bare_from_tree.
Definition pkh_from_str : str -> Parsed Pk := part_from_str pkh_from_tree.
Definition wpkh_from_str : str -> Parsed Pk := part_from_str wpkh_from_tree.
Definition wsh_from_str : str -> Parsed Wsh := part_from_str wsh_from_tree.
Definition sh_from_str : str -> Parsed Sh := part_from_str sh_from_tree.
Definition tr_from_str : str -> Parsed Tr := part_from_str tr_from_tree.
End FromTree.

(** * [Display] and [Debug] *)

Section Display.
Context {B : Bitcoin} {Sc : Scripts} {K : MiniscriptKey} {Sh : Shows}.

(** The text of a descriptor without its checksum, from the texts of keys and of
    Miniscripts; [None] is a panic of the latter. *)
Section Text.
Context (key : Pk -> str) (ms_text : Miniscript -> option str).

(** [Debug] of a [SortedMultiVec] is its [Display]. *)
Definition sortedmulti_text (self : SortedMultiVec) : option str :=
  let thresh := smv_inner self in
  thresh_display (lit "sortedmulti") true (Threshold.k thresh) (map Pk_display (Threshold.data thresh)).

Definition wsh_text (self : Wsh) : option str :=
  text ← match self with
         | WshSortedMulti smv => sortedmulti_text smv
         | WshMs ms => ms_text ms
         end;
  Some (call (lit "wsh") text).

Definition wpkh_text (pk : Pk) : str := call (lit "wpkh") (key pk).

Definition sh_text (self : Descriptor.Sh) : option str :=
  text ← match self with
         | ShWsh wsh => wsh_text wsh
         | ShWpkh pk => Some (wpkh_text pk)
         | ShSortedMulti smv => sortedmulti_text smv
         | ShMs ms => ms_text ms
         end;
  Some (call (lit "sh") text).

(** A panic while a leaf is rendered is one here; otherwise [fmt_helper] has its text. *)
Definition tr_text (self : Tr) : option str :=
  match tree self with
  | Some s =>
      _ ← mapM (fun '(_, ms) => ms_text ms) (taptree_leaves s);
      Some (call (lit "tr") (key (internal_key self) ++ lit "," ++ fmt_helper (fun ms => default [] (ms_text ms)) s))
  | None => Some (call (lit "tr") (key (internal_key self)))
  end.

Definition desc_text (self : Descriptor) : option str :=
  match self with
  | Desc_Bare ms => ms_text ms
  | Desc_Pkh pk => Some (call (lit "pkh") (key pk))
  | Desc_Wpkh pk => Some (wpkh_text pk)
  | Desc_Sh sh => sh_text sh
  | Desc_Wsh wsh => wsh_text wsh
  | Desc_Tr tr => tr_text tr
  end.
End Text.

Context {F : Bech32}.

(** The macro [write_descriptor]: the text is written through a checksumming formatter, which
    appends the checksum unless the alternate form was asked for. Writing in several pieces
    has the same effect. *)
Definition write_descriptor (alternate : bool) (text : str) : option (result () str) :=
  f ← write_str (Formatter_new [] alternate) text;
  match f with
  | Err e => Some (Err e)
  | Ok f => f ← write_checksum_if_not_alt f; Some (Ok (Checksum.written f))
  end.

Definition desc_display (alternate : bool) (self : Descriptor) : option (result () str) :=
  text ← desc_text Pk_display to_string self; write_descriptor alternate text.

(** [Debug] has no checksum. *)
Definition desc_debug (self : Descriptor) : option str := desc_text Pk_debug debug_string self.
End Display.
