(* ===== verification/DescriptorRead.v ===== *)
(** What strings of descriptors mean: the reading of an expression as a descriptor, by
    recursion, and the theorems that the functions of [DescriptorTree] compute it on the
    nodes of an expression tree. *)
From S2P Require Import Prelude Bitcoin Primitives Ord Script Correctness Malleability Types ExtData Tree Ast Context.
From S2P Require Import Text Checksum Expression ExprGrammar StrKey Display Walk FromTree ReadTree ParseTotal PolicyShow.
From S2P Require Import TapTree SpendInfo Descriptor DescriptorTree.
Import Expr.

(** * Readings *)

Section Reading.
Context {B : Bitcoin} {Sc : Scripts} {K : MiniscriptKey} {St : Strings} {FK : FromStrKey}.

Definition read_pk : expr -> option Pk := leaf (fun a => ok (Pk_from_str a)).

Definition name_of (e : expr) : str := match e with Node nm _ _ => nm end.
Definition is_curly (p : Parens) : bool := bool_decide (p = Curly).

Definition read_sortedmulti (ctx : ScriptContext) (e : expr) : option SortedMultiVec :=
  match e with
  | Node nm p cs =>
      if bool_decide (nm = lit "sortedmulti") && negb (is_curly p) && (1 <=? length cs) then
        k ← threshold_value cs;
        pks ← mapM read_pk (tail cs);
        thresh ← ok (Threshold.new MAX_PUBKEYS_PER_MULTISIG k pks);
        ok (smv_constructor_check ctx (mkSortedMultiVec thresh))
      else None
  end.

Definition read_ms (ctx : ScriptContext) (e : expr) : option Miniscript :=
  ms ← denoted ctx e; if is_ok (top_level_checks ctx ms) then Some ms else None.

(** The parentheses around the key of [pkh] and [wpkh] may be curly braces: the code does
    not look at them. *)
Definition read_key_hash (ctx : ScriptContext) (e : expr) : option Pk :=
  match e with
  | Node _ _ cs => pk ← argument (fun a => ok (Pk_from_str a)) cs; _ ← ok (check_pk ctx pk); Some pk
  end.

(** The child of a fragment with one child, in round parentheses. *)
Definition only_child (name : str) (e : expr) : option expr :=
  match e with
  | Node nm p [c] => if bool_decide (nm = name) && negb (is_curly p) then Some c else None
  | _ => None
  end.

Definition read_wsh (e : expr) : option Wsh :=
  c ← only_child (lit "wsh") e;
  if bool_decide (name_of c = lit "sortedmulti") then WshSortedMulti <$> read_sortedmulti Segwitv0 c
  else WshMs <$> read_ms Segwitv0 c.

Definition read_sh (e : expr) : option Descriptor.Sh :=
  c ← only_child (lit "sh") e;
  if bool_decide (name_of c = lit "wsh") then ShWsh <$> read_wsh c
  else if bool_decide (name_of c = lit "wpkh") then ShWpkh <$> read_key_hash Segwitv0 c
  else if bool_decide (name_of c = lit "sortedmulti") then ShSortedMulti <$> read_sortedmulti Legacy c
  else ShMs <$> read_ms Legacy c.

Definition read_tip (e : expr) : option Miniscript :=
  ms ← denoted Tap e; if bool_decide (c_base (corr (ty ms)) = BaseB) then Some ms else None.

Fixpoint read_taptree (e : expr) : option bintree :=
  match e with
  | Node nm Curly [l; r] =>
      if bool_decide (nm = []) then l ← read_taptree l; r ← read_taptree r; Some (Fork l r) else None
  | Node _ Curly _ => None
  | e => Tip <$> read_tip e
  end.

Definition read_taproot (e : expr) : option TapTree :=
  t ← read_taptree e;
  if bin_levels t <=? TAPROOT_CONTROL_MAX_NODE_COUNT then Some (from_bintree t) else None.

Definition read_tr (e : expr) : option Tr :=
  match e with
  | Node nm p (key :: rest) =>
      if bool_decide (nm = lit "tr") && negb (is_curly p) then
        pk ← read_pk key;
        match rest with
        | [] => ok (tr_new pk None)
        | [t] => tree ← read_taproot t; ok (tr_new pk (Some tree))
        | _ => None
        end
      else None
  | _ => None
  end.

(** Names other than those of descriptors, and [pkh], [wpkh], [sh] and [wsh] with another
    number of children, are read as Miniscripts. *)
Definition read_descriptor (e : expr) : option Descriptor :=
  match e with
  | Node nm _ cs =>
      let one := length cs =? 1 in
      if bool_decide (nm = lit "pkh") && one then Desc_Pkh <$> read_key_hash BareCtx e
      else if bool_decide (nm = lit "wpkh") && one then Desc_Wpkh <$> read_key_hash Segwitv0 e
      else if bool_decide (nm = lit "sh") && one then Desc_Sh <$> read_sh e
      else if bool_decide (nm = lit "wsh") && one then Desc_Wsh <$> read_wsh e
      else if bool_decide (nm = lit "tr") then Desc_Tr <$> read_tr e
      else Desc_Bare <$> read_ms BareCtx e
  end.

Definition desc_denoted (e : expr) : option Descriptor :=
  d ← read_descriptor e;
  match d with
  | Desc_Tr tr => if is_ok (tr_checked tr) then Some d else None
  | _ => Some d
  end.
End Reading.

(** * The code computes them *)

Section Refinement.
Context {B : Bitcoin} {Sc : Scripts} {K : MiniscriptKey} {St : Strings} {FK : FromStrKey}.
Context (nodes : list TreeNode).

Lemma at_verify_toplevel i parent sib nm p cs expected lo hi :
  located nodes i parent sib (Node nm p cs) -> in_range lo hi 0 = false ->
  outcome (verify_toplevel (mkItem nodes i) expected lo hi)
    (if bool_decide (nm = expected) && negb (is_curly p) && in_range lo hi (length cs) then Some (mkItem nodes (i + 1)) else None).
Proof.
  intros Hloc H0. unfold verify_toplevel. rewrite H0. pose proof (located_get _ _ _ _ _ _ _ Hloc) as [pos ->].
  cbn [mbind option_bind node_name node_parens]. destruct (bool_decide (nm = expected)); cbn [negb andb]; [|apply outcome_err].
  unfold is_curly. destruct (bool_decide (p = Curly)); cbn [negb andb].
  { destruct (at_children_pos _ _ _ _ _ _ _ Hloc) as [q ->]. apply outcome_err. }
  eapply outcome_seq; [eapply at_verify, Hloc|by destruct (in_range lo hi (length cs))|].
  intros [] Hr. destruct (in_range lo hi (length cs)) eqn:Er; [|done]. rewrite (at_first_child _ _ _ _ _ _ _ Hloc).
  destruct cs as [|c cs]; [cbn [length] in Er; congruence|]. by eexists.
Qed.

Lemma outcome_map {E A C} (m : option (result E A)) (f : A -> C) v : outcome m v -> outcome (bind_r m (fun a => Some (Ok (f a)))) (f <$> v).
Proof. intros (r & -> & <-). destruct r; by eexists. Qed.

Lemma checked_ok {A} (r : result Error A) : outcome (Some (checked r)) (ok r).
Proof. destruct r; by eexists. Qed.

Lemma read_keys_at i parent sib nm p cs MAX :
  located nodes i parent sib (Node nm p cs) ->
  exists r s', verify_threshold MAX ParseThreshold (mkItem nodes i) read_key [] = Some (r, s')
    /\ ok r = (k ← threshold_value cs; pks ← mapM read_pk (tail cs); ok (Threshold.new MAX k pks)).
Proof.
  intros Hloc.
  destruct (at_threshold nodes _ _ _ _ _ _ Hloc MAX ParseThreshold (fun _ _ => True) read_pk read_key []) as (r & s' & Hr & Hv & _);
    [|done|by exists r, s'].
  intros j [a q ks] l sib' s Hc _. unfold read_key.
  destruct (at_terminal nodes _ _ _ _ _ _ Hc Pk_from_str (lit "public_key")) as (r & -> & Hv). cbn [mbind option_bind].
  exists (map_err FromTree.Parse r), s. split; [done|]. by rewrite ok_map_err.
Qed.

Lemma smv_from_tree_ok ctx i parent sib e : located nodes i parent sib e ->
  outcome (smv_from_tree ctx (mkItem nodes i)) (read_sortedmulti ctx e).
Proof.
  destruct e as [nm p cs]. intros Hloc. unfold smv_from_tree, read_sortedmulti.
  eapply outcome_seq; [eapply outcome_map_err, at_verify_toplevel; [exact Hloc|done]| |].
  - unfold in_range. rewrite andb_true_r. by destruct (_ && (1 <=? length cs)).
  - intros it. unfold in_range. rewrite andb_true_r. destruct (_ && (1 <=? length cs)); [|done]. intros _.
    destruct (read_keys_at i parent sib nm p cs MAX_PUBKEYS_PER_MULTISIG Hloc) as (r & s' & -> & Hr). cbn [mbind option_bind].
    eexists. split; [done|]. rewrite ok_bind, ok_map_err, Hr.
    destruct (threshold_value cs); [|done]. cbn [mbind option_bind]. destruct (mapM read_pk (tail cs)); [|done]. cbn [mbind option_bind].
    destruct (ok (Threshold.new _ _ _)); [|done]. cbn [mbind option_bind]. apply ok_map_err.
Qed.

Lemma ms_from_tree_ok {A} ctx i parent sib e (f : Miniscript -> A) : located nodes i parent sib e ->
  outcome (bind_r (from_tree_checked (from_tree ctx (mkItem nodes i))) (fun sub =>
             Some (_ ← checked (top_level_checks ctx sub); Ok (f sub))))
    (f <$> read_ms ctx e).
Proof.
  intros Hloc. unfold read_ms.
  replace (f <$> _) with (denoted ctx e ≫= fun ms => if is_ok (top_level_checks ctx ms) then Some (f ms) else None)
    by (destruct (denoted ctx e); [cbn|done]; by destruct (is_ok _)).
  apply outcome_bind; [eapply outcome_map_err, from_tree_ok, Hloc|]. intros ms _. eexists. split; [done|].
  destruct (top_level_checks ctx ms) as [[]|]; done.
Qed.

Lemma bare_from_tree_ok i parent sib e : located nodes i parent sib e ->
  outcome (bare_from_tree (mkItem nodes i)) (read_ms BareCtx e).
Proof.
  intros Hloc. destruct (ms_from_tree_ok BareCtx i parent sib e (fun ms => ms) Hloc) as (r & Hr & Hok).
  exists r. rewrite <- Hr. split; [|by rewrite Hok; destruct (read_ms BareCtx e)]. unfold bare_from_tree.
  destruct (from_tree_checked _) as [[ms|]|]; [|done|done]. cbn [bind_r mbind option_bind]. f_equal. unfold bare_new.
  destruct (top_level_checks BareCtx ms) as [[]|]; done.
Qed.

Lemma key_hash_ok ctx (new : Pk -> result ScriptContextError Pk) d i parent sib e :
  (forall pk, new pk = (_ ← check_pk ctx pk; Ok pk)) -> located nodes i parent sib e ->
  outcome (bind_r (parsed (verify_terminal_parent Pk_from_str (mkItem nodes i) d (lit "public key"))) (fun pk =>
             Some (checked (map_err ContextError (new pk)))))
    (read_key_hash ctx e).
Proof.
  destruct e as [nm p cs]. intros Hnew Hloc. unfold read_key_hash.
  apply outcome_bind; [eapply outcome_map_err, at_terminal_parent, Hloc|]. intros pk _. rewrite Hnew.
  eexists. split; [done|]. by destruct (check_pk ctx pk).
Qed.

Lemma only_child_seq {A} name i parent sib e (f : TreeIterItem -> option (result ParseDescriptorError A)) (v : expr -> option A) :
  located nodes i parent sib e ->
  (forall j c sib', located nodes j (Some i) sib' c -> outcome (f (mkItem nodes j)) (v c)) ->
  outcome (bind_r (tree_checked (verify_toplevel (mkItem nodes i) name 1 (Some 1))) f) (only_child name e ≫= v).
Proof.
  destruct e as [nm p cs]. intros Hloc Hf.
  pose proof (at_verify_toplevel _ _ _ _ _ _ name 1 (Some 1) Hloc eq_refl) as H.
  assert (in_range 1 (Some 1) (length cs) = (length cs =? 1)) as Hr by (by destruct cs as [|? [|? ?]]).
  rewrite Hr in H. eapply outcome_seq; [eapply outcome_map_err, H| |].
  - unfold only_child. destruct cs as [|c [|? ?]]; try done. cbn [length Nat.eqb]. rewrite andb_true_r. by destruct (bool_decide (nm = name) && negb (is_curly p)).
  - intros it Hit. destruct cs as [|c [|? ?]]; cbn [length Nat.eqb] in Hit; rewrite ?andb_false_r in Hit; try done.
    rewrite andb_true_r in Hit. unfold only_child. destruct (bool_decide (nm = name) && negb (is_curly p)); [|done]. injection Hit as <-.
    destruct (row_cons _ _ _ _ _ (located_children _ _ _ _ _ _ _ Hloc)) as [Hc _]. by eapply Hf.
Qed.

Lemma at_name_of i parent sib e : located nodes i parent sib e -> name (mkItem nodes i) = Some (name_of e).
Proof. destruct e as [nm p cs]. apply at_name. Qed.

Lemma wsh_from_tree_ok i parent sib e : located nodes i parent sib e -> outcome (wsh_from_tree (mkItem nodes i)) (read_wsh e).
Proof.
  intros Hloc. unfold wsh_from_tree, read_wsh. eapply only_child_seq; [exact Hloc|]. intros j c sib' Hc.
  rewrite (at_name_of _ _ _ _ Hc). cbn [mbind option_bind]. destruct (bool_decide _).
  - eapply outcome_map, smv_from_tree_ok, Hc.
  - eapply ms_from_tree_ok, Hc.
Qed.

Lemma wpkh_from_tree_ok i parent sib e : located nodes i parent sib e ->
  outcome (wpkh_from_tree (mkItem nodes i)) (read_key_hash Segwitv0 e).
Proof. intros Hloc. eapply key_hash_ok; [done|exact Hloc]. Qed.

Lemma sh_from_tree_ok i parent sib e : located nodes i parent sib e -> outcome (sh_from_tree (mkItem nodes i)) (read_sh e).
Proof.
  intros Hloc. unfold sh_from_tree, read_sh. eapply only_child_seq; [exact Hloc|]. intros j c sib' Hc.
  rewrite (at_name_of _ _ _ _ Hc). cbn [mbind option_bind].
  destruct (bool_decide (name_of c = lit "wsh")); [|destruct (bool_decide (name_of c = lit "wpkh")); [|destruct (bool_decide (name_of c = lit "sortedmulti"))]].
  - eapply outcome_map, wsh_from_tree_ok, Hc.
  - eapply outcome_map, wpkh_from_tree_ok, Hc.
  - eapply outcome_map, smv_from_tree_ok, Hc.
  - eapply ms_from_tree_ok, Hc.
Qed.
End Refinement.

(** ** The loop over the nodes of a taproot tree *)

Section TapTreeLoop.
Context {B : Bitcoin} {Sc : Scripts} {K : MiniscriptKey} {St : Strings} {FK : FromStrKey}.
Context (nodes : list TreeNode) (last : nat).

(** The iterator is about to return node [j], or at its end. *)
Definition at_pos (it : PreOrderIter) (j : nat) : Prop :=
  iter_nodes it = nodes /\ range_end it = last
  /\ if j <=? last then range_start it = j /\ exhausted it = false else range_is_empty it = true.

Lemma next_at it j : at_pos it j -> j <= last -> exists it', next it = Some (mkItem nodes j, it') /\ at_pos it' (S j).
Proof.
  intros (Hn & He & Hp) Hj. rewrite (proj2 (Nat.leb_le j last) Hj) in Hp. destruct Hp as [Hs Hx].
  unfold next, range_is_empty. rewrite Hx, Hs, He, Hn, (proj2 (Nat.ltb_ge _ _)) by done. cbn [orb]. eexists. split; [done|].
  unfold at_pos. destruct (Nat.ltb_spec j last), (Nat.leb_spec (S j) last); try lia; cbn; repeat split; lia.
Qed.

Lemma next_end it j : at_pos it j -> last < j -> next it = None.
Proof.
  intros (_ & _ & Hp) Hj. rewrite (proj2 (Nat.leb_gt j last) Hj) in Hp. unfold next. by rewrite Hp.
Qed.

Lemma skip_at it j parent sib e : at_pos it (S j) -> located nodes j parent sib e -> j + size e <= S last ->
  exists it', skip_descendants it = Some it' /\ at_pos it' (j + size e).
Proof.
  intros (Hn & He & Hp) Hloc Hsz. pose proof (size_pos e) as Hpos. unfold skip_descendants.
  destruct (Nat.leb_spec (S j) last) as [Hj|Hj].
  - destruct Hp as [Hs Hx]. unfold range_is_empty. rewrite Hx, Hs, He, (proj2 (Nat.ltb_ge _ _)) by done. cbn [orb].
    destruct (located_segment _ _ _ _ _ Hloc) as [Hlen _].
    unfold rightmost_descendant_idx. cbn [Expr.nodes index]. replace (S j - 1) with j by lia.
    rewrite Hn, (rightmost_located nodes e j parent sib) by (try done; lia). cbn [mbind option_bind].
    rewrite (proj2 (Nat.leb_le _ _)), (proj2 (Nat.leb_le _ _)) by lia. cbn [andb]. eexists. split; [done|].
    split; [done|]. split; [done|]. replace (j + size e - 1 + 1) with (j + size e) by lia.
    destruct (Nat.leb_spec (j + size e) last); [done|]. unfold range_is_empty. cbn. by apply Nat.ltb_lt.
  - rewrite Hp. exists it. split; [done|]. split; [done|]. split; [done|]. by rewrite (proj2 (Nat.leb_gt _ _)) by lia.
Qed.

(** The turns of the loop: the branches and the leaves. *)
Fixpoint turns (e : expr) : nat :=
  match e with Node _ Curly [l; r] => S (turns l + turns r) | _ => 1 end.

Definition ready (b : TapTreeBuilder) : Prop :=
  current_height b <= 128 /\ height_ok (complete_heights b) (complete_128 b) (current_height b).

(** What is known of the loop over the nodes of [e]. *)
Definition loop_builds (e : expr) : Prop := forall i parent sib it b,
  located nodes i parent sib e -> i + size e <= S last -> at_pos it i -> ready b ->
  match read_taptree e with
  | Some t =>
      if current_height b + bin_levels t <=? 128 then
        forall bits c128 h, completes (complete_heights b) (complete_128 b) (current_height b) = Some (bits, c128, h) ->
        exists it', at_pos it' (i + size e)
          /\ forall fuel, tap_tree_loop (turns e + fuel) it b
               = tap_tree_loop fuel it' (mkBuilder (b_leaves b ++ leaves_at (current_height b) t) bits c128 h)
      else forall fuel, outcome (tap_tree_loop (turns e + fuel) it b) None
  | None => forall fuel, outcome (tap_tree_loop (turns e + fuel) it b) None
  end.

Lemma read_taptree_tip e nm p cs : e = Node nm p cs -> p <> Curly -> read_taptree e = Tip <$> read_tip e /\ turns e = 1.
Proof. intros -> Hp. by destruct p. Qed.

(** A node that is not a branch is a Miniscript. *)
Lemma loop_tip nm p cs : p <> Curly -> loop_builds (Node nm p cs).
Proof.
  intros Hp i parent sib it b Hloc Hsz Hit [Hb Hok]. set (e := Node nm p cs) in *.
  destruct (read_taptree_tip e nm p cs eq_refl Hp) as [-> ->]. pose proof (size_pos e).
  destruct (next_at it i Hit ltac:(lia)) as (it1 & Hnext & Hit1).
  assert (forall fuel, tap_tree_loop (1 + fuel) it b
            = bind_r (tap_leaf (mkItem nodes i)) (fun script =>
                builder ← push_leaf b script; it ← skip_descendants it1; tap_tree_loop fuel it builder)) as Hturn.
  { intros fuel. cbn [Nat.add tap_tree_loop]. rewrite Hnext, (at_parens nodes _ _ _ _ _ _ Hloc). cbn [mbind option_bind].
    by rewrite bool_decide_eq_false_2 by done. }
  assert (outcome (tap_leaf (mkItem nodes i)) (read_tip e)) as (r & Hr & Hv).
  { unfold tap_leaf, read_tip. apply outcome_bind; [eapply outcome_map_err, from_tree_ok, Hloc|]. intros ms _.
    eexists. split; [done|]. by destruct (bool_decide _). }
  rewrite <- Hv. destruct r as [ms|err]; cbn [ok fmap option_fmap option_map].
  - cbn [bin_levels]. rewrite Nat.add_0_r, (proj2 (Nat.leb_le _ _)) by done. intros bits c128 h Hc.
    destruct (skip_at it1 i parent sib e Hit1 Hloc Hsz) as (it2 & Hskip & Hit2). exists it2. split; [done|].
    intros fuel. rewrite Hturn, Hr. cbn [bind_r mbind option_bind]. rewrite push_leaf_completes, Hc. cbn [mbind option_bind].
    by rewrite Hskip.
  - intros fuel. rewrite Hturn, Hr. apply outcome_err.
Qed.

(** A branch of a wrong shape. *)
Lemma loop_bad_branch nm cs : (length cs =? 2) && bool_decide (nm = []) = false -> loop_builds (Node nm Curly cs).
Proof.
  intros Hbad i parent sib it b Hloc Hsz Hit [Hb Hok]. set (e := Node nm Curly cs) in *. pose proof (size_pos e).
  destruct (next_at it i Hit ltac:(lia)) as (it1 & Hnext & Hit1).
  assert (forall n fuel, outcome (tap_tree_loop (S n + fuel) it b) None) as Hfail.
  { intros n fuel. cbn [Nat.add tap_tree_loop]. rewrite Hnext, (at_parens nodes _ _ _ _ _ _ Hloc), (at_name nodes _ _ _ _ _ _ Hloc).
    cbn [mbind option_bind]. rewrite bool_decide_eq_true_2 by done.
    destruct (bool_decide_reflect (nm = [])) as [Hnm|Hnm]; cbn [negb]; [|apply outcome_err].
    rewrite andb_true_r in Hbad. eapply outcome_fails, outcome_map_err.
    pose proof (at_verify_exact nodes _ _ _ _ _ _ Hloc (lit "taptree branch") 2) as Hv. by rewrite Hbad in Hv. }
  destruct cs as [|l [|r [|? ?]]]; try (cbn [read_taptree turns e]; intros fuel; apply (Hfail 0)).
  cbn [length Nat.eqb andb] in Hbad. unfold e. cbn [read_taptree turns]. rewrite Hbad. intros fuel. apply Hfail.
Qed.

Lemma ready_child b b' : ready b -> current_height b < 128 ->
  b' = mkBuilder (b_leaves b) (complete_heights b) (complete_128 b) (S (current_height b)) -> ready b'.
Proof.
  intros (Hb & Hu & Ha & Hc) Hh ->. split; [cbn; lia|]. split; [done|]. split; [intros i Hi; apply Ha; cbn in *; lia|].
  cbn. intros. apply Hc. lia.
Qed.

Lemma loop_branch l r : loop_builds l -> loop_builds r -> loop_builds (Node [] Curly [l; r]).
Proof.
  intros IHl IHr i parent sib it b Hloc Hsz Hit Hready. set (e := Node [] Curly [l; r]) in *.
  assert (size e = S (size l + size r)) as Hsize by (cbn; lia).
  destruct (next_at it i Hit ltac:(lia)) as (it1 & Hnext & Hit1). rewrite <- Nat.add_1_r in Hit1.
  destruct (row_cons _ _ _ _ _ (located_children _ _ _ _ _ _ _ Hloc)) as [Hl Hrow].
  destruct (row_cons _ _ _ _ _ Hrow) as [Hr _]. cbn [e read_taptree turns]. rewrite bool_decide_eq_true_2 by done.
  assert (forall fuel, tap_tree_loop (S (turns l + turns r) + fuel) it b
            = bind_r (depth_checked (push_inner_node b)) (tap_tree_loop (turns l + (turns r + fuel)) it1)) as Hturn.
  { intros fuel. cbn [Nat.add tap_tree_loop]. rewrite Hnext, (at_parens nodes _ _ _ _ _ _ Hloc), (at_name nodes _ _ _ _ _ _ Hloc).
    cbn [mbind option_bind]. rewrite bool_decide_eq_true_2 by done. cbn [negb]. rewrite bool_decide_eq_true_2 by done. cbn [negb].
    destruct (at_verify_exact nodes _ _ _ _ _ _ Hloc (lit "taptree branch") 2) as (v & Hv & Hok). rewrite Hv.
    destruct v as [[]|]; [|done]. cbn. by rewrite Nat.add_assoc. }
  destruct Hready as [Hb Hok] eqn:Eready. clear Eready.
  pose proof (push_inner_height b Hb) as Hpush. destruct (Nat.ltb_spec (current_height b) 128) as [Hh|Hh].
  2: { assert (forall fuel, outcome (tap_tree_loop (S (turns l + turns r) + fuel) it b) None) as Hfail.
       { intros fuel. rewrite Hturn, Hpush. apply outcome_err. }
       destruct (read_taptree l) as [tl|]; cbn [mbind option_bind]; [|done]. destruct (read_taptree r) as [tr|]; cbn [mbind option_bind]; [|done].
       rewrite (proj2 (Nat.leb_gt _ _)) by (cbn; lia). done. }
  set (b1 := mkBuilder (b_leaves b) (complete_heights b) (complete_128 b) (S (current_height b))) in *.
  pose proof (ready_child b b1 (conj Hb Hok) Hh eq_refl) as Hready1.
  specialize (IHl (i + 1) (Some i) _ it1 b1 Hl ltac:(lia) Hit1 Hready1).
  destruct (completes_left _ _ _ Hh Hok) as (bs & c & Hc1 & Hok2 & Hc2).
  assert (forall fuel, tap_tree_loop (S (turns l + turns r) + fuel) it b = tap_tree_loop (turns l + (turns r + fuel)) it1 b1) as Hturn'.
  { intros fuel. by rewrite Hturn, Hpush. }
  clear Hturn. destruct (read_taptree l) as [tl|]; cbn [mbind option_bind]; [|intros fuel; rewrite Hturn'; apply IHl].
  change (current_height b1) with (S (current_height b)) in IHl.
  destruct (Nat.leb_spec (S (current_height b) + bin_levels tl) 128) as [Hll|Hll].
  2: { assert (forall fuel, outcome (tap_tree_loop (S (turns l + turns r) + fuel) it b) None) as Hfail by (intros fuel; rewrite Hturn'; apply IHl).
       destruct (read_taptree r) as [tr|]; cbn [mbind option_bind]; [|done]. rewrite (proj2 (Nat.leb_gt _ _)) by (cbn; lia). done. }
  destruct (IHl _ _ _ Hc1) as (it2 & Hit2 & Hloop2).
  set (b2 := mkBuilder (b_leaves b1 ++ leaves_at (S (current_height b)) tl) bs c (S (current_height b))) in *.
  specialize (IHr (i + 1 + size l) (Some i) None it2 b2 Hr ltac:(lia) Hit2 ltac:(split; [cbn; lia|done])).
  change (current_height b2) with (S (current_height b)) in IHr.
  destruct (read_taptree r) as [tr|]; cbn [mbind option_bind]; [|intros fuel; rewrite Hturn', Hloop2; apply IHr].
  destruct (Nat.leb_spec (S (current_height b) + bin_levels tr) 128) as [Hlr|Hlr].
  2: { rewrite (proj2 (Nat.leb_gt _ _)) by (cbn; lia). intros fuel. rewrite Hturn', Hloop2. apply IHr. }
  rewrite (proj2 (Nat.leb_le _ _)) by (cbn; lia). intros bits c128 h Hc. rewrite <- Hc2 in Hc.
  destruct (IHr _ _ _ Hc) as (it3 & Hit3 & Hloop3). exists it3. split; [by replace (i + size e) with (i + 1 + size l + size r) by lia|].
  intros fuel. rewrite Hturn', Hloop2, Hloop3. cbn [b_leaves b2 b1 leaves_at]. by rewrite <- app_assoc.
Qed.

Lemma loop_builds_all e : loop_builds e.
Proof.
  induction e as [nm p cs IH] using expr_ind'. destruct (decide (p = Curly)) as [->|Hp]; [|by apply loop_tip].
  destruct ((length cs =? 2) && bool_decide (nm = [])) eqn:E; [|by apply loop_bad_branch].
  apply andb_true_iff in E as [E1 ->%bool_decide_eq_true_1]. destruct cs as [|l [|r [|? ?]]]; try done.
  apply Forall_cons_1 in IH as [Hl [Hr _]%Forall_cons_1]. by apply loop_branch.
Qed.
End TapTreeLoop.

Lemma turns_size e : turns e <= size e.
Proof.
  induction e as [nm p cs IH] using expr_ind'. destruct p; try (cbn; lia). destruct cs as [|l [|r [|? ?]]]; try (cbn; lia).
  apply Forall_cons_1 in IH as [Hl [Hr _]%Forall_cons_1]. cbn in *. lia.
Qed.

(** ** Descriptors *)

Section Descriptors.
Context {B : Bitcoin} {Sc : Scripts} {K : MiniscriptKey} {St : Strings} {FK : FromStrKey}.
Context (nodes : list TreeNode).

Lemma tap_tree_ok i parent sib e : located nodes i parent sib e ->
  outcome (it ← pre_order_iter (mkItem nodes i);
           bind_r (tap_tree_loop (S (range_len it)) it builder_new) (fun b => Some (Ok (finalize b))))
    (read_taproot e).
Proof.
  intros Hloc. pose proof (size_pos e). destruct (located_segment _ _ _ _ _ Hloc) as [Hlen _].
  unfold pre_order_iter, rightmost_descendant_idx. cbn [Expr.nodes index].
  rewrite (rightmost_located nodes e i parent sib) by (try done; lia). cbn [mbind option_bind].
  set (it := mkPreOrderIter nodes i (i + size e - 1) false).
  assert (at_pos nodes (i + size e - 1) it i) as Hit.
  { split; [done|]. split; [done|]. by rewrite (proj2 (Nat.leb_le _ _)) by lia. }
  assert (range_len it = size e) as ->.
  { unfold range_len, range_is_empty, it. cbn [exhausted range_end range_start orb]. rewrite (proj2 (Nat.ltb_ge (i + size e - 1) i)) by lia. lia. }
  assert (ready builder_new) as Hready.
  { split; [cbn; lia|]. split; [intros j _|split; [intros j _|done]]; apply N.bits_0. }
  pose proof (loop_builds_all nodes (i + size e - 1) e i parent sib it builder_new Hloc ltac:(lia) Hit Hready) as H1.
  pose proof (turns_size e). replace (S (size e)) with (turns e + S (size e - turns e)) by lia. unfold read_taproot, TAPROOT_CONTROL_MAX_NODE_COUNT.
  destruct (read_taptree e) as [t|]; cbn [mbind option_bind]; [|apply outcome_fails, H1].
  cbn [current_height builder_new Nat.add] in H1. destruct (bin_levels t <=? 128); [|apply outcome_fails, H1].
  destruct (completes_total 0 false 0 ltac:(lia)) as (bits & c & h & Hc).
  destruct (H1 _ _ _ Hc) as (it' & Hit' & ->). cbn [tap_tree_loop]. rewrite (next_end nodes (i + size e - 1) it' (i + size e) Hit') by lia.
  by eexists.
Qed.

Lemma tr_from_tree_ok i parent sib e : located nodes i parent sib e -> outcome (tr_from_tree (mkItem nodes i)) (read_tr e).
Proof.
  destruct e as [nm p cs]. intros Hloc. unfold tr_from_tree.
  eapply outcome_seq; [eapply outcome_map_err, (at_verify_toplevel nodes _ _ _ _ _ _ _ 1 (Some 2)); [exact Hloc|done]| |].
  { unfold in_range, read_tr. destruct cs as [|k [|t [|? ?]]]; cbn [length Nat.leb andb]; rewrite ?andb_true_r, ?andb_false_r; try done.
    1-2: by destruct (bool_decide (nm = lit "tr") && negb (is_curly p)).
    intros _. destruct (_ && _); [|done]. by destruct (read_pk k). }
  intros it Hin. unfold in_range in Hin. destruct cs as [|k rest]; [by rewrite andb_false_r in Hin|].
  pose proof (located_children _ _ _ _ _ _ _ Hloc) as Hrow. destruct (row_cons _ _ _ _ _ Hrow) as [Hk Hrest].
  rewrite (located_children_iter _ _ _ _ _ _ _ Hloc). cbn [mbind option_bind]. rewrite (row_next _ _ _ _ _ Hrow). cbn [mbind option_bind].
  assert (bool_decide (nm = lit "tr") && negb (is_curly p) = true /\ length rest <= 1) as [Hname Hlen].
  { destruct (bool_decide _ && negb _); [|done]. split; [done|]. destruct rest as [|? [|? ?]]; cbn in *; try lia; done. }
  unfold read_tr. rewrite Hname. destruct k as [a q ks]. apply outcome_bind.
  { eapply outcome_map_err, (at_terminal nodes _ _ _ _ _ _ Hk). }
  intros pk _. destruct rest as [|t [|? ?]]; [| |cbn in Hlen; lia].
  - cbn [child_iter child_next mbind option_bind]. apply checked_ok.
  - rewrite (row_next _ _ _ _ _ Hrest). cbn [mbind option_bind].
    destruct (row_cons _ _ _ _ _ Hrest) as [Ht _]. destruct (tap_tree_ok _ _ _ _ Ht) as (r & Hr & Hv).
    rewrite <- Hv. destruct (pre_order_iter _) as [it'|]; [|done]. cbn [mbind option_bind] in *.
    destruct (tap_tree_loop _ _ _) as [[b|err]|]; [| |done]; cbn [bind_r mbind option_bind] in *.
    + injection Hr as <-. cbn [ok mbind option_bind]. apply checked_ok.
    + injection Hr as <-. apply outcome_err.
Qed.

Lemma desc_from_tree_ok i parent sib e : located nodes i parent sib e ->
  outcome (desc_from_tree (mkItem nodes i)) (read_descriptor e).
Proof.
  destruct e as [nm p cs]. intros Hloc. unfold desc_from_tree, read_descriptor.
  rewrite (at_name nodes _ _ _ _ _ _ Hloc), (at_n_children nodes _ _ _ _ _ _ Hloc). cbn [mbind option_bind].
  destruct (bool_decide (nm = lit "pkh") && _); [eapply outcome_map, key_hash_ok; [done|exact Hloc]|].
  destruct (bool_decide (nm = lit "wpkh") && _); [eapply outcome_map, wpkh_from_tree_ok, Hloc|].
  destruct (bool_decide (nm = lit "sh") && _); [eapply outcome_map, sh_from_tree_ok, Hloc|].
  destruct (bool_decide (nm = lit "wsh") && _); [eapply outcome_map, wsh_from_tree_ok, Hloc|].
  destruct (bool_decide (nm = lit "tr")); [eapply outcome_map, tr_from_tree_ok, Hloc|].
  eapply outcome_map, bare_from_tree_ok, Hloc.
Qed.

Lemma desc_from_root_ok i parent sib e : located nodes i parent sib e ->
  outcome (desc_from_root (mkItem nodes i)) (desc_denoted e).
Proof.
  intros Hloc. unfold desc_from_root, desc_denoted. apply outcome_bind; [eapply desc_from_tree_ok, Hloc|].
  intros d _. destruct d; eexists; (split; [done|]); try done. by destruct (tr_checked tr) as [[]|].
Qed.
End Descriptors.
