(* ===== verification/DescriptorParse.v ===== *)
(** Parsing descriptors from strings: the parser returns for every string, what it accepts is
    given by the readings of [DescriptorRead], the descriptors it returns are well formed,
    and those whose taproot trees branch on the right are read back from their strings. *)
From S2P Require Import Prelude Bitcoin Primitives Reference Ord Script Envelope Correctness Malleability Types.
From S2P Require Import ExtData Tree Ast Context Samples Lex Decode DecodeEncode Text Checksum Expression ExprGrammar StrKey Walk.
From S2P Require Import Display DisplayText FromTree ReadTree ParseTotal DisplayParse PolicyShow PolicyParse.
From S2P Require Import TapTree SpendInfo Descriptor DescriptorTree DescriptorRead.
Import Expr(Parens(..)).

(** * The descriptors that are read *)

Section Valid.
Context {B : Bitcoin} {Sc : Scripts} {K : MiniscriptKey} {St : Strings}.

(** A Miniscript at the top of an output: well typed, and within the limits of its context. *)
Definition top_ok (ctx : ScriptContext) (ms : Miniscript) : Prop :=
  wf ctx ms /\ context_valid ctx ms /\ top_level_checks ctx ms = Ok tt.

Definition sortedmulti_ok (ctx : ScriptContext) (smv : SortedMultiVec) : Prop :=
  Threshold.valid MAX_PUBKEYS_PER_MULTISIG (smv_inner smv) /\ smv_constructor_check ctx smv = Ok smv.

Definition wsh_ok (wsh : Wsh) : Prop :=
  match wsh with WshSortedMulti smv => sortedmulti_ok Segwitv0 smv | WshMs ms => top_ok Segwitv0 ms end.

Definition sh_ok (sh : Descriptor.Sh) : Prop :=
  match sh with
  | ShWsh wsh => wsh_ok wsh
  | ShWpkh pk => check_pk Segwitv0 pk = Ok tt
  | ShSortedMulti smv => sortedmulti_ok Legacy smv
  | ShMs ms => top_ok Legacy ms
  end.

Definition tap_leaf_ok (ms : Miniscript) : Prop :=
  wf Tap ms /\ context_valid Tap ms /\ c_base (corr (ty ms)) = BaseB.

Definition taptree_ok (s : TapTree) : Prop :=
  (exists t, s = from_bintree t /\ bin_levels t <= TAPROOT_CONTROL_MAX_NODE_COUNT)
  /\ Forall (fun '(_, ms) => tap_leaf_ok ms) (taptree_leaves s).

(** The leaves of a taproot output pass the sanity checks. *)
Definition tr_ok (tr : Tr) : Prop :=
  check_pk Tap (internal_key tr) = Ok tt /\ option_Forall taptree_ok (tree tr) /\ tr_checked tr = Ok tt.

Definition desc_ok (d : Descriptor) : Prop :=
  match d with
  | Desc_Bare ms => top_ok BareCtx ms
  | Desc_Pkh pk => check_pk BareCtx pk = Ok tt
  | Desc_Wpkh pk => check_pk Segwitv0 pk = Ok tt
  | Desc_Sh sh => sh_ok sh
  | Desc_Wsh wsh => wsh_ok wsh
  | Desc_Tr tr => tr_ok tr
  end.
End Valid.

Section Range.
Context {B : Bitcoin} {Sc : Scripts} {BL : BuilderLaws B} {ScL : ScriptLaws Sc} {LL : LockTimeLaws B}.
Context {K : MiniscriptKey} {St : Strings} {FK : FromStrKey}.

Lemma read_ms_ok ctx e ms : read_ms ctx e = Some ms -> top_ok ctx ms.
Proof.
  unfold read_ms. intros (m & (_ & Hr & Hc)%denoted_spec & H)%bind_Some.
  destruct (top_level_checks ctx m) as [[]|] eqn:E; [|done]. injection H as <-. repeat split; try done. by eapply reading_wf.
Qed.

Lemma read_key_hash_ok ctx e pk : read_key_hash ctx e = Some pk -> check_pk ctx pk = Ok tt.
Proof.
  destruct e as [nm p cs]. cbn [read_key_hash]. intros (k & _ & (u & H%ok_Some & [= <-])%bind_Some)%bind_Some. by destruct u.
Qed.

Lemma read_sortedmulti_ok ctx e smv : read_sortedmulti ctx e = Some smv -> sortedmulti_ok ctx smv.
Proof.
  destruct e as [nm p cs]. cbn [read_sortedmulti]. destruct (_ && _); [|done].
  intros (k & _ & (pks & _ & (t & Ht%ok_Some & H%ok_Some)%bind_Some)%bind_Some)%bind_Some.
  apply Threshold.new_valid in Ht as [Ht Hv]. unfold sortedmulti_ok, smv_constructor_check in *. cbn [smv_inner] in H.
  destruct (check_local_validity ctx _) eqn:E; [|done]. injection H as <-. cbn [smv_inner]. rewrite E. by subst t.
Qed.

Lemma read_wsh_ok e wsh : read_wsh e = Some wsh -> wsh_ok wsh.
Proof.
  unfold read_wsh. intros (c & _ & H)%bind_Some. destruct (bool_decide _); apply fmap_Some in H as (x & Hx & ->).
  - by eapply read_sortedmulti_ok.
  - by eapply read_ms_ok.
Qed.

Lemma read_sh_ok e sh : read_sh e = Some sh -> sh_ok sh.
Proof.
  unfold read_sh. intros (c & _ & H)%bind_Some.
  destruct (bool_decide (name_of c = lit "wsh")); [|destruct (bool_decide (name_of c = lit "wpkh")); [|destruct (bool_decide _)]];
    apply fmap_Some in H as (x & Hx & ->).
  - by eapply read_wsh_ok.
  - by eapply read_key_hash_ok.
  - by eapply read_sortedmulti_ok.
  - by eapply read_ms_ok.
Qed.

Lemma read_tip_ok e ms : read_tip e = Some ms -> tap_leaf_ok ms.
Proof.
  unfold read_tip. intros (m & (_ & Hr & Hc)%denoted_spec & H)%bind_Some.
  destruct (bool_decide_reflect (c_base (corr (ty m)) = BaseB)); [|done]. injection H as <-. repeat split; try done. by eapply reading_wf.
Qed.

Lemma read_taptree_ok e : forall t d, read_taptree e = Some t -> Forall (fun '(_, ms) => tap_leaf_ok ms) (leaves_at d t).
Proof.
  induction e as [nm p cs IH] using expr_ind'. intros t d H. destruct (decide (p = Curly)) as [->|Hp].
  - cbn [read_taptree] in H. destruct cs as [|l [|r [|? ?]]]; try done. destruct (bool_decide _); [|done].
    apply bind_Some in H as (tl & Hl & (tr & Hr & [= <-])%bind_Some). apply Forall_cons_1 in IH as [IHl [IHr _]%Forall_cons_1].
    cbn [leaves_at]. apply list.Forall_app. auto.
  - rewrite (proj1 (read_taptree_tip _ nm p cs eq_refl Hp)) in H. apply fmap_Some in H as (ms & Hms%read_tip_ok & ->).
    by apply list.Forall_singleton.
Qed.

Lemma read_taproot_ok e s : read_taproot e = Some s -> taptree_ok s.
Proof.
  unfold read_taproot. intros (t & Ht & H)%bind_Some. destruct (Nat.leb_spec (bin_levels t) TAPROOT_CONTROL_MAX_NODE_COUNT); [|done].
  injection H as <-. split; [by exists t|]. by eapply read_taptree_ok.
Qed.

Lemma tr_new_ok pk s tr : ok (tr_new pk s) = Some tr -> check_pk Tap pk = Ok tt /\ tr = mkTr pk s.
Proof. unfold tr_new. destruct (check_pk Tap pk) as [[]|]; [|done]. by intros [= <-]. Qed.

Lemma read_tr_ok e tr : read_tr e = Some tr ->
  check_pk Tap (internal_key tr) = Ok tt /\ option_Forall taptree_ok (tree tr).
Proof.
  destruct e as [nm p [|key rest]]; [done|]. cbn [read_tr]. destruct (_ && _); [|done]. intros (pk & _ & H)%bind_Some.
  destruct rest as [|t [|? ?]]; [..|done].
  - apply tr_new_ok in H as [H ->]. split; [done|constructor].
  - apply bind_Some in H as (s & Hs%read_taproot_ok & H). apply tr_new_ok in H as [H ->]. split; [done|by constructor].
Qed.

Lemma desc_denoted_ok e d : desc_denoted e = Some d -> desc_ok d.
Proof.
  destruct e as [nm p cs]. unfold desc_denoted. intros (d' & H & Hd)%bind_Some.
  unfold read_descriptor in H. revert H.
  destruct (bool_decide (nm = lit "pkh") && _).
  { intros (pk & Hpk%read_key_hash_ok & ->)%fmap_Some. by injection Hd as <-. }
  destruct (bool_decide (nm = lit "wpkh") && _).
  { intros (pk & Hpk%read_key_hash_ok & ->)%fmap_Some. by injection Hd as <-. }
  destruct (bool_decide (nm = lit "sh") && _).
  { intros (sh & Hsh%read_sh_ok & ->)%fmap_Some. by injection Hd as <-. }
  destruct (bool_decide (nm = lit "wsh") && _).
  { intros (wsh & Hwsh%read_wsh_ok & ->)%fmap_Some. by injection Hd as <-. }
  destruct (bool_decide (nm = lit "tr")).
  { intros (tr & [Hk Ht]%read_tr_ok & ->)%fmap_Some. destruct (tr_checked tr) as [[]|] eqn:E; [|done]. injection Hd as <-. by split. }
  intros (ms & Hms%read_ms_ok & ->)%fmap_Some. by injection Hd as <-.
Qed.

Context {F : Bech32} {FL : Bech32Laws F}.

Lemma desc_at_ok e : outcome (desc_from_root (Expr.mkItem (flat e 0 0 None None) 0)) (desc_denoted e).
Proof. eapply desc_from_root_ok, located_root. Qed.

(** C9: Parsing a descriptor from a string returns for every string, without panic. It
    succeeds exactly on the texts of expressions, nested at most 402 deep and followed by a
    valid checksum or none, that read as a descriptor; and this descriptor is the result. In
    it every Miniscript is well typed and within the limits of its context, keys and sorted
    multisignatures pass the checks of theirs, taproot trees have at most 128 levels, and
    their leaves pass the sanity checks. *)
Theorem desc_from_str_spec s : is_str s = true ->
  exists r, desc_from_str s = Some r
    /\ (forall d, r = Ok d -> desc_ok d)
    /\ forall d, r = Ok d <->
         exists e, wf_expr e /\ verify_checksum s = Some (Ok (print e)) /\ depth e <= MAX_RECURSION_DEPTH
           /\ desc_denoted e = Some d.
Proof.
  intros Hs. destruct (from_str_total (fun e => FromTreeFailed (FromTree.Parse e)) desc_from_root desc_denoted desc_at_ok s Hs) as (r & Hr & Hok).
  exists r. split; [exact Hr|].
  assert (forall d, r = Ok d <->
         exists e, wf_expr e /\ verify_checksum s = Some (Ok (print e)) /\ depth e <= MAX_RECURSION_DEPTH
           /\ desc_denoted e = Some d) as Hiff by (intros d; by rewrite <- ok_Some).
  split; [|exact Hiff]. intros d (e & _ & _ & _ & H)%Hiff. by eapply desc_denoted_ok.
Qed.
End Range.

(** * The expressions of descriptors *)

Section Exprs.
Context {B : Bitcoin} {Sc : Scripts} {K : MiniscriptKey} {Sh : Shows}.

Definition ms_expr (ms : Miniscript) : expr := expr_of (display_child ms).
Definition key_expr (pk : Pk) : expr := word (Pk_display pk).

Definition sortedmulti_expr (smv : SortedMultiVec) : expr :=
  let thresh := smv_inner smv in
  apply_to (lit "sortedmulti") (word (show_N (N.of_nat (Threshold.k thresh))) :: map key_expr (Threshold.data thresh)).

Definition wsh_inner_expr (wsh : Wsh) : expr :=
  match wsh with WshSortedMulti smv => sortedmulti_expr smv | WshMs ms => ms_expr ms end.
Definition wsh_expr (wsh : Wsh) : expr := apply_to (lit "wsh") [wsh_inner_expr wsh].
Definition wpkh_expr (pk : Pk) : expr := apply_to (lit "wpkh") [key_expr pk].

Definition sh_inner_expr (sh : Descriptor.Sh) : expr :=
  match sh with
  | ShWsh wsh => wsh_expr wsh
  | ShWpkh pk => wpkh_expr pk
  | ShSortedMulti smv => sortedmulti_expr smv
  | ShMs ms => ms_expr ms
  end.

Fixpoint tree_expr (t : bintree) : expr :=
  match t with Tip ms => ms_expr ms | Fork l r => Node [] Curly [tree_expr l; tree_expr r] end.

(** The leaves of a tree in which only right children branch. *)
Fixpoint comb_expr (leaves : list Miniscript) : expr :=
  match leaves with
  | [] => word []
  | [ms] => ms_expr ms
  | ms :: leaves => Node [] Curly [ms_expr ms; comb_expr leaves]
  end.

Definition tr_expr (tr : Tr) : expr :=
  apply_to (lit "tr")
    (key_expr (internal_key tr)
     :: match tree tr with Some s => [comb_expr (map snd (taptree_leaves s))] | None => [] end).

Definition desc_expr (d : Descriptor) : expr :=
  match d with
  | Desc_Bare ms => ms_expr ms
  | Desc_Pkh pk => apply_to (lit "pkh") [key_expr pk]
  | Desc_Wpkh pk => wpkh_expr pk
  | Desc_Sh sh => apply_to (lit "sh") [sh_inner_expr sh]
  | Desc_Wsh wsh => wsh_expr wsh
  | Desc_Tr tr => tr_expr tr
  end.

Definition taptree_comb (s : TapTree) : Prop := exists t, s = from_bintree t /\ right_comb t.

Lemma comb_expr_tree t d : right_comb t -> comb_expr (map snd (leaves_at d t)) = tree_expr t.
Proof.
  revert d. induction t as [ms|l _ r IHr]; intros d Hc; [done|]. destruct l as [ms|]; [|done]. cbn [leaves_at app map snd tree_expr].
  rewrite <- (IHr (S d) Hc). cbn [comb_expr]. destruct (map snd (leaves_at (S d) r)) eqn:E; [|done].
  apply map_eq_nil in E. destruct (leaves_at_deepest r (S d)) as [x Hx]. by rewrite E in Hx.
Qed.

(** ** Their texts *)

Lemma thresh_text smv : sortedmulti_text smv = Some (print (sortedmulti_expr smv)).
Proof.
  unfold sortedmulti_text, sortedmulti_expr. by rewrite <- (thresh_print_k key_expr).
Qed.

Lemma print_one name e : print (apply_to name [e]) = call name (print e).
Proof. rewrite print_apply. cbn [map concat]. done. Qed.

Lemma wsh_text_print wsh : wsh_text to_string wsh = Some (print (wsh_expr wsh)).
Proof.
  unfold wsh_text, wsh_expr. rewrite print_one. destruct wsh as [smv|ms]; [by rewrite thresh_text|by rewrite to_string_print].
Qed.

Lemma wpkh_text_print pk : wpkh_text Pk_display pk = print (wpkh_expr pk).
Proof. done. Qed.

Lemma sh_text_print sh : sh_text Pk_display to_string sh = Some (print (apply_to (lit "sh") [sh_inner_expr sh])).
Proof.
  unfold sh_text. rewrite print_one. destruct sh as [wsh|pk|smv|ms]; cbn [sh_inner_expr].
  - by rewrite wsh_text_print.
  - by rewrite wpkh_text_print.
  - by rewrite thresh_text.
  - by rewrite to_string_print.
Qed.

Lemma tree_text_print t : tree_text (fun ms => default [] (to_string ms)) t = print (tree_expr t).
Proof.
  induction t as [ms|l IHl r IHr]; cbn [tree_text tree_expr]; [by rewrite to_string_print|].
  rewrite IHl, IHr, print_node by done. cbn [map open_char close_char]. rewrite join_later. cbn [map concat app].
  by rewrite app_nil_r, <- app_assoc.
Qed.

Lemma option_Forall_Some {A} (P : A -> Prop) x : option_Forall P (Some x) -> P x.
Proof. by inversion 1. Qed.

Lemma tr_text_print tr : option_Forall taptree_comb (tree tr) -> tr_text Pk_display to_string tr = Some (print (tr_expr tr)).
Proof.
  destruct tr as [pk [s|]]; intros H; cbn [tree] in H; unfold tr_text, tr_expr; cbn [tree internal_key]; [|done].
  apply option_Forall_Some in H as (t & -> & Hc).
  assert (forall l : list (nat * Miniscript), is_Some (mapM (fun '(_, ms) => to_string ms) l)) as Hm.
  { intros l. apply mapM_is_Some, List.Forall_forall. intros [n ms] _. change (is_Some (to_string ms)). by rewrite to_string_print. }
  destruct (Hm (taptree_leaves (from_bintree t))) as [ts ->]. cbn [mbind option_bind].
  rewrite fmt_helper_comb, tree_text_print by done. change (taptree_leaves (from_bintree t)) with (leaves_at 0 t).
  rewrite comb_expr_tree by done. rewrite print_apply. cbn [map concat]. rewrite <- app_comm_cons, app_nil_r. unfold call. by rewrite <- !app_assoc.
Qed.

Definition desc_combs (d : Descriptor) : Prop := match d with Desc_Tr tr => option_Forall taptree_comb (tree tr) | _ => True end.

Lemma desc_text_print d : desc_combs d -> desc_text Pk_display to_string d = Some (print (desc_expr d)).
Proof.
  destruct d; intros Hc; cbn [desc_text desc_expr].
  - apply to_string_print.
  - done.
  - done.
  - apply sh_text_print.
  - apply wsh_text_print.
  - by apply tr_text_print.
Qed.
End Exprs.

(** * What is written is read back *)

Section ReadBack.
Context {B : Bitcoin} {Sc : Scripts} {BL : BuilderLaws B} {ScL : ScriptLaws Sc} {LL : LockTimeLaws B}.
Context {K : MiniscriptKey} {St : Strings} {FK : FromStrKey} {Sh : Shows} {SL : ShowLaws FK Sh}.

Definition ms_readable (ms : Miniscript) : Prop := height ms <= MAX_RECURSION_DEPTH /\ writable ms.

Lemma top_child_ok ctx ms : wf ctx ms -> context_valid ctx ms -> ms_readable ms -> child_ok ctx ms.
Proof. intros Hwf Hc [Hh Hw]. by apply read_back_all. Qed.

Lemma denoted_expr ctx ms : child_ok ctx ms -> context_valid ctx ms -> denoted ctx (ms_expr ms) = Some ms.
Proof. intros (Hwf & _ & Hr) Hc. apply denoted_spec. split; [apply display_curly_free|]. by split. Qed.

Lemma read_ms_expr ctx ms : top_ok ctx ms -> ms_readable ms -> read_ms ctx (ms_expr ms) = Some ms.
Proof.
  intros (Hwf & Hc & Ht) Hr. unfold read_ms. rewrite denoted_expr by (try done; by apply top_child_ok). cbn [mbind option_bind]. by rewrite Ht.
Qed.

(** ** Names *)

(** The name of a Miniscript is that of a fragment, or has wrappers. *)
Lemma ms_name ctx ms : child_ok ctx ms ->
  exists w n k f, parts (display_child ms) = (w, n, k) /\ name_of (ms_expr ms) = full_name w n /\ arm n fragments = Some f.
Proof.
  intros (_ & H & _). unfold reads_back in H. unfold ms_expr, expr_of. destruct (parts (display_child ms)) as [[w n] k].
  destruct H as (f & _ & Hf & _). by exists w, n, k, f.
Qed.

Lemma ms_name_not ctx ms x : child_ok ctx ms -> existsb (fun b => bool_decide (b = ":"%byte)) x = false -> arm x fragments = None ->
  bool_decide (name_of (ms_expr ms) = x) = false.
Proof.
  intros Hok Hx Harm. apply bool_decide_eq_false. intros <-. destruct (ms_name ctx ms Hok) as (w & n & k & f & _ & Hn & Hf).
  rewrite Hn in Hx, Harm. destruct w as [|b w]; cbn [full_name] in *; [congruence|].
  rewrite <- not_true_iff_false, existsb_exists in Hx. apply Hx. exists ":"%byte. split; [|by apply bool_decide_eq_true].
  apply in_app_iff. right. by left.
Qed.

(** [c:pk_h(K)] is written as [pkh(K)]. *)
Definition is_pkh (ms : Miniscript) : bool :=
  match node ms with
  | Terminal.Check sub => match node sub with Terminal.PkH _ => true | _ => false end
  | _ => false
  end.

Lemma not_pkh_name ctx ms : child_ok ctx ms -> is_pkh ms = false -> bool_decide (name_of (ms_expr ms) = lit "pkh") = false.
Proof.
  intros Hok Hp. apply bool_decide_eq_false. intros Hname. destruct (ms_name ctx ms Hok) as (w & n & k & f & Hparts & Hn & _).
  rewrite Hname in Hn. destruct w as [|b w]; cbn [full_name] in Hn.
  - subst n. rewrite parts_eq in Hparts. unfold display_child at 1 in Hparts. cbn [parts_step] in Hparts.
    destruct (is_wrapper (node ms)) eqn:Ew.
    + destruct (map parts _) as [|[[w' n'] k'] [|? ?]]; try done. injection Hparts as Hw _ _. apply app_eq_nil in Hw as [Hw _].
      unfold is_wrapper in Ew. rewrite Hw in Ew. by rewrite andb_false_r in Ew.
    + injection Hparts as Hw _. clear Ew. unfold is_pkh in Hp. destruct (node ms); try done; cbn [fragment_name] in Hw.
      * by destruct (node sub).
      * by destruct (is_true r).
      * by destruct (is_false c).
      * by destruct (is_false r), (is_false l).
  - assert (In ":"%byte (lit "pkh")) as Hin by (rewrite Hn; apply in_app_iff; right; by left).
    by destruct Hin as [|[|[|[]]]].
Qed.

(** ** The parts of descriptors *)

Lemma read_key_expr pk : read_pk (key_expr pk) = Some pk.
Proof. unfold read_pk, key_expr, word. cbn [leaf]. by rewrite (proj1 (Pk_written pk)). Qed.

Lemma read_key_list l : mapM read_pk (map key_expr l) = Some l.
Proof. induction l as [|pk l IH]; [done|]. cbn [map mapM]. rewrite read_key_expr. cbn [mbind option_bind]. by rewrite IH. Qed.

Lemma read_sortedmulti_expr ctx smv : sortedmulti_ok ctx smv -> read_sortedmulti ctx (sortedmulti_expr smv) = Some smv.
Proof.
  intros [Hv Hc]. unfold read_sortedmulti, sortedmulti_expr, apply_to. cbn [length Nat.leb tail]. rewrite bool_decide_eq_true_2 by done.
  cbn [is_curly negb andb]. unfold is_curly. rewrite bool_decide_eq_false_2 by done. cbn [negb andb].
  rewrite read_k_shown by (eapply valid_k_u32; [exact Hv|done|unfold MAX_PUBKEYS_PER_MULTISIG; lia]).
  cbn [mbind option_bind]. rewrite read_key_list. cbn [mbind option_bind]. unfold Threshold.data. rewrite new_threshold by done.
  cbn [ok mbind option_bind]. destruct smv as [t]. cbn [smv_inner] in *. by rewrite Hc.
Qed.

Lemma only_child_apply name e : only_child name (apply_to name [e]) = Some e.
Proof. unfold only_child, apply_to, is_curly. by rewrite bool_decide_eq_true_2, bool_decide_eq_false_2. Qed.

Lemma read_key_hash_expr ctx name pk : check_pk ctx pk = Ok tt -> read_key_hash ctx (apply_to name [key_expr pk]) = Some pk.
Proof.
  intros H. cbn [read_key_hash apply_to]. unfold key_expr. rewrite (read_word Pk_from_str Pk_display) by apply Pk_written.
  cbn [mbind option_bind]. by rewrite H.
Qed.

Definition wsh_mss (wsh : Wsh) : list Miniscript := match wsh with WshMs ms => [ms] | WshSortedMulti _ => [] end.
Definition sh_mss (sh : Descriptor.Sh) : list Miniscript :=
  match sh with ShWsh wsh => wsh_mss wsh | ShMs ms => [ms] | _ => [] end.

(** The Miniscripts of a descriptor. *)
Definition desc_mss (d : Descriptor) : list Miniscript :=
  match d with
  | Desc_Bare ms => [ms]
  | Desc_Pkh _ | Desc_Wpkh _ => []
  | Desc_Sh sh => sh_mss sh
  | Desc_Wsh wsh => wsh_mss wsh
  | Desc_Tr tr => map snd (tr_leaves tr)
  end.

Lemma read_wsh_expr wsh : wsh_ok wsh -> Forall ms_readable (wsh_mss wsh) -> read_wsh (wsh_expr wsh) = Some wsh.
Proof.
  intros Hok Hr. unfold read_wsh, wsh_expr. rewrite only_child_apply. cbn [mbind option_bind].
  destruct wsh as [smv|ms]; cbn [wsh_inner_expr wsh_ok wsh_mss] in *.
  - change (name_of (sortedmulti_expr smv)) with (lit "sortedmulti"). rewrite bool_decide_eq_true_2 by done. by rewrite read_sortedmulti_expr.
  - apply Forall_cons_1 in Hr as [Hr _]. rewrite (ms_name_not Segwitv0); [by rewrite read_ms_expr|by destruct Hok as (? & ? & _); apply top_child_ok|done|done].
Qed.

Lemma read_sh_expr sh : sh_ok sh -> Forall ms_readable (sh_mss sh) -> read_sh (apply_to (lit "sh") [sh_inner_expr sh]) = Some sh.
Proof.
  intros Hok Hr. unfold read_sh. rewrite only_child_apply. cbn [mbind option_bind].
  destruct sh as [wsh|pk|smv|ms]; cbn [sh_inner_expr sh_ok sh_mss] in *.
  - change (name_of (wsh_expr wsh)) with (lit "wsh"). rewrite bool_decide_eq_true_2 by done. by rewrite read_wsh_expr.
  - change (name_of (wpkh_expr pk)) with (lit "wpkh"). rewrite bool_decide_eq_false_2, bool_decide_eq_true_2 by done.
    unfold wpkh_expr. by rewrite read_key_hash_expr.
  - change (name_of (sortedmulti_expr smv)) with (lit "sortedmulti"). rewrite !bool_decide_eq_false_2, bool_decide_eq_true_2 by done.
    by rewrite read_sortedmulti_expr.
  - apply Forall_cons_1 in Hr as [Hr _]. rewrite !(ms_name_not Legacy); try done; [by rewrite read_ms_expr|..];
      by destruct Hok as (? & ? & _); apply top_child_ok.
Qed.

Lemma read_tree_expr t : forall d, Forall (fun '(_, ms) => tap_leaf_ok ms) (leaves_at d t) ->
  Forall ms_readable (map snd (leaves_at d t)) -> read_taptree (tree_expr t) = Some t.
Proof.
  induction t as [ms|l IHl r IHr]; intros d Hok Hr; cbn [leaves_at tree_expr map snd] in *.
  - apply Forall_cons_1 in Hok as [(Hwf & Hc & Hb) _], Hr as [Hr _].
    assert (exists nm p cs, ms_expr ms = Node nm p cs /\ p <> Curly) as (nm & p & cs & He & Hp).
    { unfold ms_expr, expr_of. destruct (parts _) as [[w n] k]. cbn [expr_of_parts]. eexists _, _, _. split; [done|]. by destruct k. }
    rewrite (proj1 (read_taptree_tip _ nm p cs He Hp)). unfold read_tip.
    rewrite denoted_expr by (try done; by apply top_child_ok). cbn [mbind option_bind]. by rewrite bool_decide_eq_true_2.
  - rewrite map_app in Hr. apply list.Forall_app in Hok as [? ?], Hr as [? ?]. cbn [read_taptree].
    rewrite bool_decide_eq_true_2, (IHl (S d)), (IHr (S d)) by done. done.
Qed.

Lemma read_tr_expr tr : tr_ok tr -> option_Forall taptree_comb (tree tr) -> Forall ms_readable (map snd (tr_leaves tr)) ->
  read_tr (tr_expr tr) = Some tr.
Proof.
  intros (Hk & Ht & _) Hc Hr. unfold read_tr, tr_expr, apply_to. destruct tr as [pk s]. cbn [tree internal_key] in *.
  rewrite bool_decide_eq_true_2 by done. unfold is_curly. rewrite bool_decide_eq_false_2 by done. cbn [negb andb].
  rewrite read_key_expr. cbn [mbind option_bind].
  unfold tr_new. rewrite Hk. cbn [map_err mbind result_bind]. destruct s as [s|]; [|done].
  apply option_Forall_Some in Ht as [(t & -> & Hl) Hleaves], Hc as (t' & Ht'%from_bintree_inj & Hc). subst t'.
  unfold tr_leaves in Hr. cbn [tree] in Hr. change (taptree_leaves (from_bintree t)) with (leaves_at 0 t) in *.
  rewrite comb_expr_tree by done. unfold read_taproot. erewrite read_tree_expr by done. cbn [mbind option_bind].
  by rewrite (proj2 (Nat.leb_le _ _)).
Qed.

(** What else is needed: Miniscripts with a string, no [c:pk_h(K)] as an output of its own,
    and a taproot tree in which only right children branch. *)
Definition desc_readable (d : Descriptor) : Prop :=
  Forall ms_readable (desc_mss d)
  /\ match d with
     | Desc_Bare ms => is_pkh ms = false
     | Desc_Tr tr => option_Forall taptree_comb (tree tr)
     | _ => True
     end.

Lemma desc_denoted_expr d : desc_ok d -> desc_readable d -> desc_denoted (desc_expr d) = Some d.
Proof.
  intros Hok [Hr Hs]. unfold desc_denoted. assert (read_descriptor (desc_expr d) = Some d) as ->.
  2: { destruct d; cbn [mbind option_bind]; try done. by destruct Hok as (_ & _ & ->). }
  destruct d as [ms|pk|pk|sh|wsh|tr]; cbn [desc_ok desc_mss desc_expr] in *.
  - apply Forall_cons_1 in Hr as [Hr _]. assert (child_ok BareCtx ms) as Hc by (destruct Hok as (? & ? & _); by apply top_child_ok).
    pose proof (ms_name_not BareCtx ms) as Hn. pose proof (not_pkh_name BareCtx ms Hc Hs) as Hpkh.
    pose proof (read_ms_expr BareCtx ms Hok Hr) as Hread. unfold read_descriptor.
    destruct (ms_expr ms) as [nm p cs]. cbn [name_of] in *. rewrite Hpkh, !Hn by done. cbn [andb]. by rewrite Hread.
  - pose proof (read_key_hash_expr BareCtx (lit "pkh") pk Hok) as Hread. unfold read_descriptor, apply_to in *.
    cbn [length Nat.eqb]. rewrite bool_decide_eq_true_2 by done. cbn [andb]. by rewrite Hread.
  - pose proof (read_key_hash_expr Segwitv0 (lit "wpkh") pk Hok) as Hread. unfold read_descriptor, wpkh_expr, apply_to in *.
    cbn [length Nat.eqb]. rewrite bool_decide_eq_false_2, bool_decide_eq_true_2 by done. cbn [andb]. by rewrite Hread.
  - pose proof (read_sh_expr sh Hok Hr) as Hread. unfold read_descriptor, apply_to in *. cbn [length Nat.eqb].
    rewrite !bool_decide_eq_false_2, bool_decide_eq_true_2 by done. cbn [andb]. by rewrite Hread.
  - pose proof (read_wsh_expr wsh Hok Hr) as Hread. unfold read_descriptor, wsh_expr, apply_to in *. cbn [length Nat.eqb].
    rewrite !bool_decide_eq_false_2, bool_decide_eq_true_2 by done. cbn [andb]. by rewrite Hread.
  - pose proof (read_tr_expr tr Hok Hs Hr) as Hread. unfold read_descriptor, tr_expr, apply_to in *.
    rewrite !bool_decide_eq_false_2, bool_decide_eq_true_2 by done. cbn [andb]. by rewrite Hread.
Qed.

(** ** Texts *)

Lemma key_expr_text pk : text_expr (key_expr pk).
Proof. apply word_text, Pk_written. Qed.

Lemma one_text name e : forallb text_char_dec name = true -> text_expr e -> text_expr (apply_to name [e]).
Proof. intros Hn He. apply apply_text; [done|done|]. by repeat constructor. Qed.

Lemma sortedmulti_expr_text smv : text_expr (sortedmulti_expr smv).
Proof.
  apply apply_text; [reflexivity|done|]. constructor; [apply word_text, show_text|].
  apply List.Forall_map, List.Forall_forall. intros pk _. apply key_expr_text.
Qed.

Lemma wsh_expr_text wsh : text_expr (wsh_expr wsh).
Proof. apply one_text; [reflexivity|]. destruct wsh; [apply sortedmulti_expr_text|apply display_text_expr]. Qed.

Lemma tree_expr_text t : text_expr (tree_expr t).
Proof.
  induction t as [ms|l IHl r IHr]; [apply display_text_expr|]. cbn [tree_expr]. constructor; [constructor|done|by repeat constructor].
Qed.

Lemma desc_expr_text d : desc_combs d -> text_expr (desc_expr d).
Proof.
  destruct d as [ms|pk|pk|sh|wsh|tr]; intros Hc; cbn [desc_expr].
  - apply display_text_expr.
  - apply one_text; [reflexivity|apply key_expr_text].
  - apply one_text; [reflexivity|apply key_expr_text].
  - apply one_text; [reflexivity|]. destruct sh as [wsh|pk|smv|ms]; cbn [sh_inner_expr].
    + apply wsh_expr_text.
    + apply one_text; [reflexivity|apply key_expr_text].
    + apply sortedmulti_expr_text.
    + apply display_text_expr.
  - apply wsh_expr_text.
  - apply apply_text; [reflexivity|done|]. constructor; [apply key_expr_text|]. destruct tr as [pk [s|]]; [|constructor].
    cbn [desc_combs tree] in *. apply option_Forall_Some in Hc as (t & -> & Hc). repeat constructor.
    change (taptree_leaves (from_bintree t)) with (leaves_at 0 t). rewrite comb_expr_tree by done. apply tree_expr_text.
Qed.

Context {F : Bech32} {FL : Bech32Laws F}.

Lemma write_descriptor_verified alternate e : text_expr e ->
  exists s, write_descriptor alternate (print e) = Some (Ok s) /\ verify_checksum s = Some (Ok (print e)).
Proof.
  intros He. pose proof (text_expr_print e He) as Hp.
  assert (Forall printable (concat [print e])) as Hpr.
  { cbn [concat]. rewrite app_nil_r. eapply List.Forall_impl; [|exact Hp]. by intros ? [? _]. }
  unfold write_descriptor. destruct alternate.
  - destruct (write_all_spec [print e] [] true Engine_new Engine_new_ok Hpr) as (e' & E & _). cbn [write_all concat] in E.
    unfold Formatter_new in *. destruct (write_str _ _) as [[f|]|]; [|done..]. cbn [mbind option_bind] in *. injection E as ->.
    eexists. split; [done|]. cbn [Checksum.written app]. rewrite app_nil_r. by apply text_expr_checksum.
  - destruct (verify_written [print e] Hpr) as (f & f' & E & Hf & Hv). cbn [write_all concat] in E, Hv. rewrite app_nil_r in Hv.
    unfold Formatter_new in *. destruct (write_str _ _) as [[f0|]|]; [|done..]. cbn [mbind option_bind] in *. injection E as ->.
    rewrite Hf. cbn [mbind option_bind]. by eexists.
Qed.

(** C10: Writing a descriptor as a string, with its checksum or (in the alternate form)
    without, and parsing the string gives the descriptor back, for every descriptor that is
    within the checks of the parser, if its Miniscripts have strings, which excludes raw key
    hashes (the parser returns some of these, [raw_pkh_not_read_back]) and asks for threshold
    values below 2^32 and inscriptions as reading them gives, and are at most 402 levels high, it is not the Miniscript
    [c:pk_h(K)] as a bare output, its taproot tree branches on the right only, and its
    expression is nested at most 402 deep. *)
Theorem desc_round_trip d alternate :
  desc_ok d -> desc_readable d -> depth (desc_expr d) <= MAX_RECURSION_DEPTH ->
  exists s, desc_display alternate d = Some (Ok s) /\ desc_from_str s = Some (Ok d).
Proof.
  intros Hok Hr Hd. assert (desc_combs d) as Hc by (destruct Hr as [_ Hs]; by destruct d).
  pose proof (desc_expr_text d Hc) as Ht. destruct (write_descriptor_verified alternate _ Ht) as (s & Hw & Hv).
  exists s. unfold desc_display. rewrite desc_text_print by done. split; [exact Hw|].
  destruct (from_str_printed (fun e => FromTreeFailed (FromTree.Parse e)) desc_from_root desc_denoted desc_at_ok s (desc_expr d)
              (text_expr_wf _ Ht) Hv Hd) as (r & Hres & Hread).
  unfold desc_from_str. etransitivity; [exact Hres|]. f_equal. apply ok_Some. rewrite Hread. by apply desc_denoted_expr.
Qed.
End ReadBack.

(** * Trees that branch on the left *)

Section LeftTree.
Context {B : Bitcoin} {Sc : Scripts} {BL : BuilderLaws B} {ScL : ScriptLaws Sc} {LL : LockTimeLaws B}.
Context {K : MiniscriptKey} {St : Strings} {FK : FromStrKey} {Sh : Shows} {SL : ShowLaws FK Sh} {F : Bech32} {FL : Bech32Laws F}.

(** What is written for the tree [{{a,b},c}]. *)
Definition left_expr (key : Pk) (a b c : Miniscript) : expr :=
  apply_to (lit "tr") [key_expr key; Node [] Curly [Node [] Curly [ms_expr a; ms_expr b; ms_expr c]]].

Lemma left_text key a b c :
  desc_text Pk_display to_string (Desc_Tr (mkTr key (Some (from_bintree (Fork (Fork (Tip a) (Tip b)) (Tip c))))))
  = Some (print (left_expr key a b c)).
Proof.
  cbn [desc_text]. unfold tr_text, left_expr. cbn [tree internal_key taptree_leaves from_bintree depths_leaves leaves_at app mapM].
  rewrite !to_string_print. cbn [mbind option_bind]. rewrite fmt_helper_left, !to_string_print. cbn [default id]. rewrite print_apply.
  cbn [map concat]. rewrite print_node by done. cbn [map open_char close_char]. rewrite join_later. cbn [map concat].
  rewrite print_node by done. cbn [map open_char close_char]. rewrite join_later. cbn [map concat]. unfold call.
  repeat (rewrite <- ?app_assoc, ?app_nil_r; cbn [app]). done.
Qed.

(** C39: The shape of a taproot tree is not written: whatever its keys and leaves, the string
    of [tr(K,{{A,B},C})], with or without its checksum, is not accepted as a descriptor. *)
Theorem left_tree_not_read_back key a b c alternate :
  exists s e, desc_display alternate (Desc_Tr (mkTr key (Some (from_bintree (Fork (Fork (Tip a) (Tip b)) (Tip c)))))) = Some (Ok s)
    /\ desc_from_str s = Some (Err e).
Proof.
  assert (text_expr (left_expr key a b c)) as Ht.
  { apply apply_text; [reflexivity|done|]. repeat constructor; try apply display_text_expr; try apply Pk_written; done. }
  destruct (write_descriptor_verified alternate _ Ht) as (s & Hw & Hv). unfold desc_display. rewrite left_text. exists s.
  destruct (Nat.leb_spec (depth (left_expr key a b c)) MAX_RECURSION_DEPTH) as [Hd|Hd].
  - destruct (from_str_printed (fun e => FromTreeFailed (FromTree.Parse e)) desc_from_root desc_denoted desc_at_ok s _
                (text_expr_wf _ Ht) Hv Hd) as ([d|e] & Hres & Hread); [|by exists e].
    exfalso. revert Hread. unfold desc_denoted, read_descriptor, left_expr, apply_to. rewrite !bool_decide_eq_false_2, bool_decide_eq_true_2 by done.
    cbn [andb]. unfold read_tr. rewrite bool_decide_eq_true_2 by done. unfold is_curly. rewrite bool_decide_eq_false_2 by done. cbn [negb andb].
    unfold read_taproot. cbn [read_taptree].
    by destruct (read_pk (key_expr key)).
  - unfold desc_from_str, Expr.from_str. rewrite (from_str_print _ _ (text_expr_wf _ Ht) Hv), (proj2 (Nat.ltb_lt _ _)) by done. by eexists.
Qed.

(** The braces of [pkh{K}] are not looked at. *)
Lemma pkh_braces_read pk : check_pk BareCtx pk = Ok tt ->
  desc_from_str (print (Node (lit "pkh") Curly [key_expr pk])) = Some (Ok (Desc_Pkh pk)).
Proof.
  intros Hpk. assert (text_expr (Node (lit "pkh") Curly [key_expr pk])) as Ht.
  { constructor; [by apply text_char_all|done|]. constructor; [apply key_expr_text|constructor]. }
  destruct (from_str_printed (fun e => FromTreeFailed (FromTree.Parse e)) desc_from_root desc_denoted desc_at_ok _ _
              (text_expr_wf _ Ht) (text_expr_checksum _ Ht)) as (r & Hres & Hread).
  { unfold key_expr. rewrite depth_node by done. cbn. unfold MAX_RECURSION_DEPTH. lia. }
  unfold desc_from_str. etransitivity; [exact Hres|]. f_equal. apply ok_Some. rewrite Hread. unfold desc_denoted, read_descriptor.
  cbn [length Nat.eqb]. rewrite bool_decide_eq_true_2 by done. cbn [andb read_key_hash]. unfold key_expr.
  rewrite (read_word Pk_from_str Pk_display) by apply Pk_written. cbn [mbind option_bind]. by rewrite Hpk.
Qed.
End LeftTree.

(** * Witnesses *)

(** [tr(A,{pk(A),{pk(B),pk(C)}})] *)
Definition sample_comb : bintree := Fork (Tip (sample_pk Tap keyA)) (Fork (Tip (sample_pk Tap keyB)) (Tip (sample_pk Tap keyC))).
Definition sample_desc : Descriptor (K := reference_key) := Desc_Tr (mkTr keyA (Some (from_bintree sample_comb))).

Lemma desc_from_str_spec_witness :
  let s := lit "sh(wsh(sortedmulti(2,020a,020b,020c)))" in
  exists r, desc_from_str s = Some r
    /\ (forall d, r = Ok d -> desc_ok d)
    /\ forall d, r = Ok d <->
         exists e, wf_expr e /\ verify_checksum s = Some (Ok (print e)) /\ depth e <= MAX_RECURSION_DEPTH
           /\ desc_denoted e = Some d.
Proof. apply (desc_from_str_spec (FK := reference_from_str_key)). by vm_compute. Defined.

Lemma sample_desc_ok : desc_ok (St := reference_strings) sample_desc.
Proof.
  split; [reflexivity|]. split; [|reflexivity]. constructor. split.
  - exists sample_comb. split; [reflexivity|]. apply (proj1 (Nat.leb_le _ _)). reflexivity.
  - repeat constructor; (split; [prove_wf|split; [apply context_valid_dec; reflexivity|reflexivity]]).
Qed.

Lemma desc_round_trip_witness :
  exists s, desc_display false sample_desc = Some (Ok s) /\ desc_from_str s = Some (Ok sample_desc).
Proof.
  apply (desc_round_trip (SL := reference_show_laws) sample_desc false).
  - exact sample_desc_ok.
  - split.
    + apply List.Forall_forall. intros ms [<-|[<-|[<-|[]]]]; (split; [apply (proj1 (Nat.leb_le _ _)); reflexivity|apply writable_dec; reflexivity]).
    + repeat constructor. by exists sample_comb.
  - apply (proj1 (Nat.leb_le _ _)). by vm_compute.
Defined.

Lemma left_tree_not_read_back_witness :
  exists s e, desc_display true (Desc_Tr sample_tr) = Some (Ok s) /\ desc_from_str s = Some (Err e).
Proof. exact (left_tree_not_read_back (SL := reference_show_laws) keyA _ _ _ true). Defined.
