(* ===== verification/SatBounds.v ===== *)
(** The size bounds of [ExtData] hold of what the satisfier produces: the number and the
    bytes of the elements of every satisfaction are at most [max_witness_stack_count] and
    [max_witness_stack_size], one byte more for each [d:] wrapper
    (src/src/miniscript/types/extra_props.rs against satisfy.rs). *)
From stdpp Require Import sorting.
From S2P Require Import Prelude Bitcoin Primitives Reference Ord Correctness Malleability Types ExtData Tree StackLoop Ast Context Samples Views Encode Satisfy WitSpec Shape SatTotal Semantic PolicyNormal Lift SatComplete.

(** * The costliest choice of a threshold *)

Section Costliest.
Context (proj : SatData -> nat).

Definition cost (o : option SatData) : nat := from_option proj 0 o.

(** The cost of a child that is satisfied when [b]. *)
Definition choice_cost (c : (option SatData * option SatData) * bool) : nat :=
  if c.2 then cost c.1.1 else cost c.1.2.

(** A choice satisfies only children that can be satisfied. *)
Definition sound_choice (c : (option SatData * option SatData) * bool) : Prop :=
  is_Some c.1.2 /\ (c.2 = true -> is_Some c.1.1).

Abbreviation chosen := (count_if snd).

(** Giving up one of the chosen children lowers the cost by at most its key. *)
Lemma no_bound l head :
  Forall sound_choice l -> 0 < chosen l -> is_Some head.2 ->
  Forall (fun c => option_Z_leb (Ext.sort_key proj c.1) (Ext.sort_key proj head) = true) l ->
  exists l' s, head.1 = Some s /\ map fst l' = map fst l /\ Forall sound_choice l'
    /\ S (chosen l') = chosen l
    /\ sum_by choice_cost l + cost head.2 <= sum_by choice_cost l' + proj s.
Proof.
  intros Hl Hc [d Hd] Hk. induction l as [|[[sat dissat] b] l IH]; [unfold count_if, sum_by in Hc; simpl in Hc; lia|].
  apply Forall_cons_1 in Hl as [[Hdis Hsat] Hl]. apply Forall_cons_1 in Hk as [Hkey Hk].
  rewrite count_if_cons in Hc. cbn [fst snd] in *. destruct b.
  - exists (((sat, dissat), false) :: l). destruct (Hsat eq_refl) as [s ->], Hdis as [d' ->].
    destruct head as [sat0 dissat0]. cbn [fst snd] in *. subst dissat0.
    unfold Ext.sort_key in Hkey. cbn in Hkey. destruct sat0 as [s0|]; [|done]. cbn in Hkey.
    exists s0. rewrite !sum_by_cons, !count_if_cons. unfold choice_cost, cost. cbn.
    split_and!; try done; [by constructor |]. apply Z.leb_le in Hkey. lia.
  - simpl in Hc. destruct (IH Hl Hc Hk) as (l' & s & H1 & H2 & H3 & H4 & H5).
    exists (((sat, dissat), false) :: l'), s. rewrite !sum_by_cons, !count_if_cons. cbn [map fst snd].
    split_and!; [done | by rewrite H2 | by constructor | simpl; lia | lia].
Qed.

Ltac open_fold := cbn [fmap option_fmap option_map mbind option_bind].

(** The fold over the children in descending order satisfies [k + 1] of them and is at least
    as costly as any choice of as many. *)
Lemma accumulate_bound k l i acc c :
  map fst c = l -> Forall sound_choice c -> chosen c = Nat.min (k + 1 - i) (length l) ->
  StronglySorted (fun a b => option_Z_leb (Ext.sort_key proj b) (Ext.sort_key proj a) = true) l ->
  exists v, Ext.accumulate proj Nat.add k i acc l = Some v /\ acc + sum_by choice_cost c <= v.
Proof.
  revert i acc c. induction l as [|[sat dissat] l IH]; intros i acc c Hm Hc Hn Hs.
  { destruct c; [|done]. exists acc. unfold sum_by. simpl. split; [done | lia]. }
  destruct c as [|[[sat' dissat'] b] c]; [done|]. cbn [map fst] in Hm.
  injection Hm as -> -> <-.
  apply Forall_cons_1 in Hc as [[[d Hd] Hsat] Hc]. cbn [fst snd] in *. subst dissat.
  apply StronglySorted_inv in Hs as [Hs Hhd]. rewrite List.Forall_map in Hhd.
  rewrite count_if_cons in Hn. cbn [snd] in Hn. cbn [Ext.accumulate length] in *.
  pose proof (count_if_length snd c). rewrite ?length_map in *.
  destruct (Nat.leb_spec i k) as [Hik|Hik].
  - destruct b.
    + destruct (Hsat eq_refl) as [s ->]. open_fold.
      destruct (IH (S i) (acc + proj s) c) as (v & -> & Hv); [done | done | rewrite ?length_map in *; simpl in Hn; lia | done |].
      exists v. split; [done|]. rewrite sum_by_cons. unfold choice_cost at 1. cbn. lia.
    + destruct (no_bound c (sat, Some d)) as (c' & s & H1 & H2 & H3 & H4 & H5);
        [done | simpl in Hn; lia | by eexists | done |]. cbn [fst snd] in H1, H5. subst sat. open_fold.
      destruct (IH (S i) (acc + proj s) c') as (v & -> & Hv);
        [done | done | rewrite ?length_map in *; simpl in Hn; lia | done |].
      exists v. split; [done|]. rewrite sum_by_cons. unfold choice_cost at 1. cbn in *. lia.
  - destruct b; [simpl in Hn; lia|]. open_fold.
    destruct (IH (S i) (acc + proj d) c) as (v & -> & Hv);
      [done | done | rewrite ?length_map in *; simpl in Hn; lia | done |].
    exists v. split; [done|]. rewrite sum_by_cons. unfold choice_cost at 1. cbn. lia.
Qed.

Lemma StronglySorted_rev {A} (R : A -> A -> Prop) l :
  StronglySorted R l -> StronglySorted (fun a b => R b a) (rev l).
Proof.
  induction 1 as [|a l _ IH Ha]; [constructor|]. cbn [rev].
  apply StronglySorted_app_2; [| done | by repeat constructor].
  intros x y Hx Hy%list_elem_of_singleton. subst y. rewrite list.Forall_forall in Ha. apply Ha.
  by apply list_elem_of_In, in_rev, list_elem_of_In.
Qed.

(** A choice follows a permutation of the children. *)
Lemma choice_perm l l' (c : list ((option SatData * option SatData) * bool)) :
  Permutation l l' -> map fst c = l -> exists c', map fst c' = l' /\ Permutation c c'.
Proof.
  intros Hp <-. symmetry in Hp. destruct (Permutation_map_inv _ _ Hp) as (c' & -> & H). by exists c'.
Qed.

(** Whether the fold succeeds does not depend on how it accumulates. *)
Lemma accumulate_some cmp cmp' k l i acc acc' :
  is_Some (Ext.accumulate proj cmp k i acc l) -> is_Some (Ext.accumulate proj cmp' k i acc' l).
Proof.
  revert i acc acc'. induction l as [|[sat dissat] l IH]; intros i acc acc'; [by eexists|].
  cbn [Ext.accumulate]. destruct (i <=? k).
  - destruct sat; [|by intros [? ?]]. open_fold. apply IH.
  - destruct dissat; [|by intros [? ?]]. open_fold. apply IH.
Qed.

Lemma field_some cmp k vec c :
  map fst c = vec -> Forall sound_choice c -> chosen c = Nat.min (k + 1) (length vec) ->
  exists c' v, Ext.field k proj cmp vec = (map fst c', Some v) /\ Permutation c c'
    /\ (cmp = Nat.add -> sum_by choice_cost c <= v).
Proof.
  intros Hm Hc Hn. unfold Ext.field.
  pose proof (sort_by_key_perm option_Z_leb (Ext.sort_key proj) vec) as Hp.
  pose proof (sort_by_key_sorted option_Z_leb (Ext.sort_key proj) option_Z_leb_total vec) as Hs.
  set (sorted := sort_by_key _ _ _) in *.
  apply Sorted.Sorted_StronglySorted in Hs; [|intros x y z; apply option_Z_leb_trans].
  symmetry in Hp. destruct (choice_perm _ _ c Hp Hm) as (c' & Hm' & Hcc).
  destruct (accumulate_bound k (rev sorted) 0 0 (rev c')) as (v & Hv & Hle).
  - rewrite <- Hm'. apply map_rev.
  - rewrite <- Permutation_rev. by rewrite <- Hcc.
  - rewrite <- (count_if_perm _ _ _ (Permutation_rev c')), <- (count_if_perm _ _ _ Hcc), Hn,
      Nat.sub_0_r, length_rev. f_equal. by apply Permutation_length.
  - by apply StronglySorted_rev.
  - rewrite <- (sum_by_perm _ _ _ (Permutation_rev c')), <- (sum_by_perm _ _ _ Hcc) in Hle.
    destruct (accumulate_some Nat.add cmp k (rev sorted) 0 0 0) as [v' Hv']; [by eexists|].
    exists c', v'. rewrite Hm', Hv'. split_and!; [done | done |]. intros ->. simplify_eq. lia.
Qed.
End Costliest.

(** * Bounds of a node *)

Section Bounds.
Context {B : Bitcoin} {Sp : Spending} {K : MiniscriptKey} {P : AssetProvider}.
Context (ctx : ScriptContext) (leaf_hash : TapLeafHash).

(** A hash under wrappers, dissatisfied by one element although [dissat_data] says two. *)
Fixpoint hash_like (ms : Miniscript) : bool :=
  match node ms with
  | Terminal.Sha256 _ | Terminal.Hash256 _ | Terminal.Ripemd160 _ | Terminal.Hash160 _ => true
  | Terminal.InscribePre _ sub | Terminal.InscribePost _ sub | Terminal.Alt sub
  | Terminal.Swap sub | Terminal.Check sub | Terminal.ZeroNotEqual sub => hash_like sub
  | _ => false
  end.

Definition dissat_count (ms : Miniscript) (data : SatData) : nat :=
  if hash_like ms then 1 else max_witness_stack_count data.

(** Dissatisfying the child takes no more than satisfying it. *)
Definition cheap_dissat (ms : Miniscript) : bool :=
  match sat_data (ext ms), dissat_data (ext ms) with
  | Some sat, Some dissat =>
      (dissat_count ms dissat <=? max_witness_stack_count sat)
      && (max_witness_stack_size dissat <=? max_witness_stack_size sat)
  | _, _ => false
  end.

(** The fragments that no witness dissatisfies. *)
Fixpoint undissatisfiable (ms : Miniscript) : bool :=
  match node ms with
  | Terminal.True | Terminal.After _ | Terminal.Older _ | Terminal.TxTemplate _
  | Terminal.Verify _ | Terminal.OrC _ _ => true
  | Terminal.InscribePre _ sub | Terminal.InscribePost _ sub | Terminal.Alt sub
  | Terminal.Swap sub | Terminal.Check sub | Terminal.ZeroNotEqual sub => undissatisfiable sub
  | Terminal.AndV _ r => undissatisfiable r
  | Terminal.AndB l r | Terminal.OrB l r | Terminal.OrD l r | Terminal.AndOr l _ r =>
      undissatisfiable l || undissatisfiable r
  | Terminal.OrI l r => undissatisfiable l && undissatisfiable r
  | Terminal.Thresh thresh => existsb undissatisfiable (Threshold.inner thresh)
  | _ => false
  end.

Definition dissat_known (ms : Miniscript) : bool :=
  undissatisfiable ms || bool_decide (is_Some (dissat_data (ext ms))).

(** Where the recorded data covers every choice: a threshold needs all of its children, or more
    than [k] of them are no costlier to dissatisfy than to satisfy; a branch of [or_i] without
    [dissat_data] has no dissatisfaction. *)
Definition regular_node (ms : Miniscript) : bool :=
  match node ms with
  | Terminal.Thresh thresh =>
      (Threshold.k thresh =? Threshold.n thresh)
      || (Threshold.k thresh <? count_if cheap_dissat (Threshold.data thresh))
  | Terminal.OrI l r => dissat_known l && dissat_known r
  | _ => true
  end.

Definition is_dup_if (ms : Miniscript) : bool :=
  match node ms with Terminal.DupIf _ => true | _ => false end.

Definition regular (ms : Miniscript) : bool := forallb regular_node (pre_order ms).
Definition dup_ifs (ms : Miniscript) : nat := count_if is_dup_if (pre_order ms).

Definition good (ms : Miniscript) : Prop :=
  wf ctx ms /\ contains_raw_pkh ms = false /\ context_valid ctx ms /\ regular ms = true.

Lemma good_children ms :
  good ms -> Forall good (children ms).
Proof.
  intros (Hwf & Hr & Hv & Hreg). apply wf_inv in Hwf as (Hwf & _).
  apply existsb_pre_order in Hr as [_ Hr]. apply context_valid_inv in Hv as [_ Hv].
  unfold regular in Hreg. rewrite forallb_forall, <- List.Forall_forall, Forall_pre_order in Hreg.
  destruct Hreg as [_ Hreg]. rewrite list.Forall_forall in *. intros c Hc. split_and!; [auto | exact (Hr c Hc) | auto |].
  apply forallb_forall, List.Forall_forall. by apply Hreg.
Qed.

Lemma dup_ifs_eq ms : dup_ifs ms = Nat.b2n (is_dup_if ms) + sum_by dup_ifs (children ms).
Proof.
  exact (sum_pre_order (fun c => Nat.b2n (is_dup_if c)) ms).
Qed.

Lemma undissatisfiable_sound :
  (forall b ms w, Wit ctx leaf_hash b ms w -> b = false -> undissatisfiable ms = false)
  /\ (forall bs mss ws, WitList ctx leaf_hash bs mss ws -> count_if id bs = 0 ->
        existsb undissatisfiable mss = false).
Proof.
  apply Wit_WitList_ind; intros; try done; cbn.
  all: try (destruct term; try done; cbn in *; simplify_eq; by auto).
  - rewrite H by done. done.
  - rewrite H by done. by rewrite andb_false_r.
  - by apply H0.
  - destruct term; try done; cbn in e0; injection e0 as <- <-; by rewrite H, H0.
  - apply H. done.
  - rewrite count_if_cons in H1. destruct b; [done|]. rewrite H by done. by apply H0.
Qed.

Lemma dup_ifs_node nd t e :
  dup_ifs (mkMiniscript nd t e)
  = Nat.b2n (is_dup_if (mkMiniscript nd t e)) + sum_by dup_ifs (terminal_children nd).
Proof. rewrite dup_ifs_eq. by rewrite children_node. Qed.

(** ** The recorded data *)

(** The data of a node covers [n] elements of [m] bytes, but for [x] bytes. *)
Definition covers (data : option SatData) (n m x : nat) : Prop :=
  exists d, data = Some d /\ n <= max_witness_stack_count d /\ m <= max_witness_stack_size d + x.

Lemma covers_concat extra a b n m x n' m' x' :
  covers a n m x -> covers b n' m' x' -> covers (Ext.sat_concat extra a b) (n' + n) (m' + m) (x + x').
Proof.
  intros (d & -> & H1 & H2) (d' & -> & H1' & H2'). eexists. split; [reflexivity|]. cbn. lia.
Qed.

Lemma covers_max_l a b n m x : covers a n m x -> covers (fieldwise_max_opt a b) n m x.
Proof.
  intros (d & -> & H1 & H2). destruct b; eexists; (split; [reflexivity|]); cbn; lia.
Qed.

Lemma covers_max_r a b n m x : covers b n m x -> covers (fieldwise_max_opt a b) n m x.
Proof.
  intros (d & -> & H1 & H2). destruct a; eexists; (split; [reflexivity|]); cbn; lia.
Qed.

Lemma covers_weaken data n m x x' : covers data n m x -> x <= x' -> covers data n m x'.
Proof. intros (d & -> & H1 & H2) Hx. exists d. split_and!; [done | lia..]. Qed.

Lemma threshold_dissat_some subs :
  Forall (fun sub => is_Some (dissat_data sub)) subs -> is_Some (Ext.threshold_dissat subs).
Proof.
  unfold Ext.threshold_dissat. generalize Ext.zero_data as acc.
  intros acc H. revert acc. induction H as [|sub subs [d Hd] _ IH]; intros acc; [by eexists|].
  cbn [fold_left]. rewrite Hd. apply IH.
Qed.

(** A fragment whose type is dissatisfiable has the data of its dissatisfactions. *)
Lemma dissat_recorded ms : wf ctx ms -> dissat_of ms = true -> is_Some (dissat_data (ext ms)).
Proof.
  revert ms. refine (wf_tree_ind ctx _ _). intros [nd t e] Hwf Hwc IH Hd.
  pose proof (wf_inv _ _ Hwf) as (_ & _ & _ & He). cbn [ext node] in He. subst e.
  destruct (wf_view ctx _ _ _ Hwf) as (_ & _ & Hview).
  change (c_dissatisfiable (corr t) = true) in Hd.
  rewrite children_node in IH, Hwc. cbn [node] in *.
  destruct nd as [| | p' | p' | h | n | n | x | x | x | x | h | j s | j s | s | s | s | s | s | s | s
                   | l r | l r | a b c | l r | l r | l r | l r | th | th | th];
    forall_children IH; cbn [corr_view] in Hview; destruct_and? Hview.
  all: try (rewrite Hview in Hd); try done; try congruence; cbn [ext ext_type_check].
  all: try match goal with Hx : c_dissatisfiable ?c = true, H : c_dissatisfiable ?c = _ |- _ => rewrite H in Hx end;
    try apply andb_true_iff in Hd as [Hd1 Hd2];
    repeat match goal with
    | IH : dissat_of ?x = true -> is_Some (dissat_data (ext ?x)), H : dissat_of ?x = true |- _ =>
        destruct (IH H) as [? ->] || (destruct (IH H) as [? E]; cbn; rewrite E); clear IH
    end; try by eexists.
  - unfold Ext.pk_k. destruct (sig_type ctx), (is_uncompressed p'); by eexists.
  - unfold Ext.pk_h. destruct (sig_type ctx), (is_uncompressed p'); by eexists.
  - unfold Ext.pk_h. destruct (sig_type ctx); by eexists.
  - destruct (Hc Hd) as [d E]. cbn. rewrite E. by eexists.
  - destruct (Hc Hd) as [d E]. cbn. rewrite E. by eexists.
  - cbn. destruct (dissat_of l); [destruct (Hc eq_refl) as [? ->] | destruct (Hc0 Hd) as [? ->]];
      destruct (_ <$> dissat_data _); by eexists.
  - apply threshold_dissat_some, List.Forall_map.
    rewrite list.Forall_forall in *. intros c Hin. apply IH; [done|]. by apply H.
Qed.

(** ** Thresholds *)

Definition choice_of (ms : Miniscript) (b : bool) : (option SatData * option SatData) * bool :=
  ((sat_data (ext ms), dissat_data (ext ms)), b).

(** The cost recorded for the child, satisfied when [b], covers the witness. *)
Definition met (b : bool) (ms : Miniscript) (w : list Placeholder) : Prop :=
  sound_choice (choice_of ms b)
  /\ length w <= choice_cost max_witness_stack_count (choice_of ms b)
  /\ sum_by size w <= choice_cost max_witness_stack_size (choice_of ms b) + dup_ifs ms.

Lemma met_sums chosen mss ws :
  Forall3 met chosen mss ws ->
  let c := zip_with choice_of mss chosen in
  map fst c = map (fun sub => (sat_data sub, dissat_data sub)) (map ext mss)
  /\ Forall sound_choice c /\ count_if snd c = count_if id chosen /\ length c = length mss
  /\ length (concat ws) <= sum_by (choice_cost max_witness_stack_count) c
  /\ sum_by (sum_by size) ws <= sum_by (choice_cost max_witness_stack_size) c + sum_by dup_ifs mss.
Proof.
  induction 1 as [|b ms w bs mss ws (Hs & Hn & Hm) _ IH]; [by cbn|]. cbv zeta in *.
  destruct IH as (H1 & H2 & H3 & H4 & H5 & H6). cbn [zip_with map concat length].
  rewrite !sum_by_cons, !count_if_cons, length_app, H1, H3, H4.
  split_and!; [done | by constructor | done | done | lia | lia].
Qed.

Lemma threshold_covers k chosen mss ws :
  Forall3 met chosen mss ws -> count_if id chosen = Nat.min (k + 1) (length mss) ->
  covers (Ext.threshold_sat k (map ext mss)) (length (concat ws)) (sum_by (sum_by size) ws)
    (sum_by dup_ifs mss).
Proof.
  intros H Hk. destruct (met_sums _ _ _ H) as (H1 & H2 & H3 & H4 & H5 & H6).
  set (c := zip_with choice_of mss chosen) in *. unfold Ext.threshold_sat.
  assert (forall c' proj cmp, Permutation c c' -> exists c'' v,
    Ext.field k proj cmp (map fst c') = (map fst c'', Some v) /\ Permutation c c''
    /\ (cmp = Nat.add -> sum_by (choice_cost proj) c <= v)) as Hf.
  { intros c' proj cmp Hp.
    destruct (field_some proj cmp k (map fst c') c') as (c'' & v & E & Hp' & Hv).
    - done.
    - by rewrite <- Hp.
    - rewrite <- (count_if_perm _ _ _ Hp), length_map, <- (Permutation_length Hp). congruence.
    - exists c'', v. split_and!; [done | by rewrite Hp |].
      intros E'. rewrite (sum_by_perm _ _ _ Hp). auto. }
  rewrite <- H1.
  destruct (Hf c max_witness_stack_count Nat.add) as (c1 & v1 & -> & P1 & V1); [done|].
  destruct (Hf c1 max_witness_stack_size Nat.add P1) as (c2 & v2 & -> & P2 & V2).
  destruct (Hf c2 max_script_sig_size Nat.add P2) as (c3 & v3 & -> & P3 & V3).
  destruct (Hf c3 max_exec_stack_count Ext.exec_cmp P3) as (c4 & v4 & -> & P4 & _).
  destruct (Hf c4 max_exec_op_count Nat.add P4) as (c5 & v5 & -> & _ & _).
  eexists. split; [reflexivity|]. cbn. specialize (V1 eq_refl). specialize (V2 eq_refl). lia.
Qed.

(** ** What is proved of each fragment *)

Definition bounded (b : bool) (ms : Miniscript) (w : list Placeholder) : Prop :=
  if b then covers (sat_data (ext ms)) (length w) (sum_by size w) (dup_ifs ms)
  else forall d, dissat_data (ext ms) = Some d ->
    length w <= dissat_count ms d /\ sum_by size w <= max_witness_stack_size d + dup_ifs ms.

Lemma dissat_count_le ms d : wf ctx ms -> dissat_data (ext ms) = Some d ->
  dissat_count ms d <= max_witness_stack_count d.
Proof.
  unfold dissat_count. intros Hwf. revert ms Hwf d. refine (wf_tree_ind ctx _ _).
  intros [nd t e] Hwf _ IH d. pose proof (wf_inv _ _ Hwf) as (_ & _ & _ & He). cbn [ext node] in He. subst e.
  rewrite children_node in IH. cbn [node] in IH. cbn [hash_like node ext].
  destruct nd; try (intros _; exact (Nat.le_refl _)); forall_children IH; cbn [ext_type_check];
    try solve [intros [= <-]; cbn; lia | by apply Hc];
    cbn [Ext.inscribing dissat_data]; destruct (dissat_data (ext _)) as [d'|]; try done;
    intros [= <-]; cbn [max_witness_stack_count]; by apply Hc.
Qed.

Lemma bounded_met b ms w :
  wf ctx ms -> is_Some (dissat_data (ext ms)) -> bounded b ms w -> met b ms w.
Proof.
  intros Hwf [d Hd] H. unfold met, choice_of, sound_choice, choice_cost, cost. cbn [fst snd].
  rewrite Hd. destruct b; cbn [bounded] in H.
  - destruct H as (s & -> & Hn & Hm). by split_and!; [eexists | eexists | |].
  - destruct (H d Hd) as [Hn Hm]. pose proof (dissat_count_le _ _ Hwf Hd).
    split_and!; [by eexists | done | cbn [from_option]; lia | done].
Qed.

Lemma cheap_met ms w : cheap_dissat ms = true -> bounded false ms w -> met true ms w.
Proof.
  unfold cheap_dissat, bounded, met, choice_of, sound_choice, choice_cost, cost. cbn [fst snd].
  destruct (sat_data (ext ms)) as [s|]; [|done]. destruct (dissat_data (ext ms)) as [d|]; [|done].
  intros [Hn%Nat.leb_le Hm%Nat.leb_le]%andb_true_iff H. destruct (H d eq_refl) as [H1 H2].
  split_and!; [by eexists | by eexists | cbn [from_option]; lia | cbn [from_option]; lia].
Qed.

Lemma all_met chosen mss ws :
  Forall3 bounded chosen mss ws -> Forall (wf ctx) mss ->
  Forall (fun ms => is_Some (dissat_data (ext ms))) mss -> Forall3 met chosen mss ws.
Proof.
  induction 1 as [|b ms w bs mss ws Hb _ IH]; [constructor|].
  intros [Hwf Hwfs]%Forall_cons_1 [Hd Hds]%Forall_cons_1. constructor; [by apply bounded_met | auto].
Qed.

(** A cheap child that is not chosen can be counted as satisfied. *)
Lemma spare_child chosen mss ws :
  Forall3 bounded chosen mss ws -> Forall (wf ctx) mss ->
  Forall (fun ms => is_Some (dissat_data (ext ms))) mss ->
  count_if id chosen < count_if cheap_dissat mss ->
  exists chosen', Forall3 met chosen' mss ws /\ count_if id chosen' = S (count_if id chosen).
Proof.
  induction 1 as [|b ms w bs mss ws Hb Hr IH]; intros Hwf Hd Hlt; [cbn in Hlt; lia|].
  apply Forall_cons_1 in Hwf as [Hwf Hwfs]. apply Forall_cons_1 in Hd as [Hd Hds].
  rewrite !count_if_cons in Hlt.
  destruct (Bool.bool_dec (cheap_dissat ms && negb b) true) as [[Hc Hnb]%andb_true_iff|Hno].
  - destruct b; [done|]. exists (true :: bs). rewrite !count_if_cons. split; [|simpl; lia].
    constructor; [by apply cheap_met | by apply all_met].
  - destruct (IH Hwfs Hds) as (bs' & H1 & H2).
    { destruct b, (cheap_dissat ms); simpl in *; (done || lia). }
    exists (b :: bs'). rewrite !count_if_cons, H2. split; [|simpl; lia].
    constructor; [by apply bounded_met | done].
Qed.

Lemma threshold_dissat_covers mss ws acc n m x :
  Forall2 (fun ms w => covers (dissat_data (ext ms)) (length w) (sum_by size w) (dup_ifs ms)) mss ws ->
  covers acc n m x ->
  covers (fold_left (fun data sub => Ext.sat_concat 0 data (dissat_data sub)) (map ext mss) acc)
    (n + length (concat ws)) (m + sum_by (sum_by size) ws) (x + sum_by dup_ifs mss).
Proof.
  intros H. revert acc n m x. induction H as [|ms w mss ws Hw _ IH]; intros acc n m x Ha.
  - unfold sum_by. simpl. by rewrite !Nat.add_0_r.
  - cbn [map fold_left concat]. rewrite length_app, !sum_by_cons.
    pose proof (IH _ _ _ _ (covers_concat 0 _ _ _ _ _ _ _ _ Ha Hw)) as (d & Hd & H1 & H2).
    exists d. split_and!; [exact Hd | lia | lia].
Qed.

Hypothesis Hctx : ctx = Segwitv0 \/ ctx = Tap.
Hypothesis Hsizes : forall pk n, provider_lookup_tap_leaf_script_sig pk leaf_hash = Some n -> n <= 65.

Lemma key_size pk len : pk_len ctx pk = Some len -> len <= if sig_type ctx is Ecdsa then 34 else 33.
Proof. destruct Hctx as [-> | ->]; intros [= <-]; done. Qed.

Lemma signature_bytes pk w : signature ctx leaf_hash pk = Witness.Stack w ->
  length w = 1 /\ sum_by size w <= if sig_type ctx is Ecdsa then 73 else 66.
Proof.
  unfold signature. destruct (sig_type ctx).
  - destruct (provider_lookup_ecdsa_sig pk); [|done]. by intros [= <-].
  - destruct (provider_lookup_tap_leaf_script_sig pk leaf_hash) as [n|] eqn:E; [|done].
    intros [= <-]. apply Hsizes in E. unfold sum_by. simpl. split; [done | lia].
Qed.

Lemma dissat_covers ms w :
  wf ctx ms -> is_Some (dissat_data (ext ms)) -> bounded false ms w ->
  covers (dissat_data (ext ms)) (length w) (sum_by size w) (dup_ifs ms).
Proof.
  intros Hwf [d Hd] H. destruct (H d Hd) as [Hn Hm]. pose proof (dissat_count_le _ _ Hwf Hd).
  exists d. split_and!; [done | lia | done].
Qed.

Lemma dissat_covers_typed ms w :
  good ms -> dissat_of ms = true -> bounded false ms w ->
  covers (dissat_data (ext ms)) (length w) (sum_by size w) (dup_ifs ms).
Proof. intros [Hwf _] Hd. by apply dissat_covers, dissat_recorded. Qed.

(** Both of two children dissatisfied. *)
Lemma dissat_pair_covers l r wl wr extra d :
  good l -> good r -> bounded false l wl -> bounded false r wr ->
  Ext.sat_concat extra (dissat_data (ext l)) (dissat_data (ext r)) = Some d ->
  length (wr ++ wl) <= max_witness_stack_count d
  /\ sum_by size (wr ++ wl) <= max_witness_stack_size d + (dup_ifs l + dup_ifs r).
Proof.
  intros [Hwl _] [Hwr _] Hl Hr Hd.
  destruct (dissat_data (ext l)) as [dl|] eqn:El; [|done].
  destruct (dissat_data (ext r)) as [dr|] eqn:Er; [|done]. injection Hd as <-.
  destruct (Hl dl El), (Hr dr Er).
  pose proof (dissat_count_le _ _ Hwl El). pose proof (dissat_count_le _ _ Hwr Er).
  rewrite length_app, sum_by_app. cbn [max_witness_stack_count max_witness_stack_size]. lia.
Qed.

Lemma multi_a_tap thresh t e :
  context_valid ctx (mkMiniscript (Terminal.MultiA thresh) t e) -> sig_type ctx = Schnorr.
Proof. intros [H _]%context_valid_inv. by destruct Hctx as [-> | ->]. Qed.

Lemma signatures_bytes pks ws :
  Forall2 (fun pk w => signature ctx leaf_hash pk = Witness.Stack w) pks ws ->
  length (concat ws) = length pks /\ sum_by (sum_by size) ws <= 73 * length pks.
Proof.
  induction 1 as [|pk w pks ws [H1 H2]%signature_bytes _ [IH1 IH2]]; [done|].
  cbn [concat length]. rewrite length_app, sum_by_cons. destruct (sig_type ctx); lia.
Qed.

Lemma items_bytes pks chosen ws :
  Forall3 (multi_a_item ctx leaf_hash) pks chosen ws -> sig_type ctx = Schnorr ->
  length (concat ws) = length pks
  /\ sum_by (sum_by size) ws + count_if id chosen <= length pks + 66 * count_if id chosen.
Proof.
  intros H Hs. induction H as [|pk b w pks chosen ws H _ [IH1 IH2]]; [done|].
  cbn [concat length]. rewrite length_app, sum_by_cons, count_if_cons.
  destruct b; cbn [multi_a_item] in H.
  - apply signature_bytes in H as [H1 H2]. rewrite Hs in H2. cbn [id Nat.b2n]. lia.
  - subst w. unfold sum_by at 1. simpl. lia.
Qed.

Lemma length_concat_rev {A} (ws : list (list A)) : length (concat (rev ws)) = length (concat ws).
Proof.
  induction ws as [|w ws IH]; [done|]. cbn [rev concat]. rewrite concat_app, !length_app, IH.
  cbn [concat]. rewrite app_nil_r. lia.
Qed.

Lemma count_chosen {Y Z} (R : bool -> Y -> Z -> Prop) chosen mss ws :
  Forall3 R chosen mss ws -> count_if id chosen <= length mss.
Proof. induction 1 as [|[] ms w bs mss ws _ _ IH]; [done|..]; rewrite count_if_cons; simpl; lia. Qed.

Lemma bounded_thresh k inner chosen ws t e :
  good (mkMiniscript (Terminal.Thresh (mkThreshold k inner)) t e) ->
  Forall3 bounded chosen inner ws -> count_if id chosen = k ->
  covers (Ext.threshold_sat k (map ext inner)) (length (concat (rev ws)))
    (sum_by size (concat (rev ws))) (sum_by dup_ifs inner).
Proof.
  intros (Hwf & _ & _ & Hreg) Hb Hk. apply wf_view in Hwf as (Hwfs & Hv & Hview & _).
  cbn [terminal_children terminal_as_node Threshold.data Threshold.inner] in *.
  assert (Forall (fun ms => is_Some (dissat_data (ext ms))) inner) as Hd.
  { rewrite list.Forall_forall in *. intros c Hc. apply dissat_recorded; [auto|].
    by apply Hview. }
  rewrite sum_concat_rev, length_concat_rev.
  unfold regular in Hreg. rewrite forallb_forall, <- List.Forall_forall, Forall_pre_order in Hreg.
  destruct Hreg as [Hreg _]. cbn [regular_node node] in Hreg.
  apply orb_true_iff in Hreg as [Hkn%Nat.eqb_eq | Hkn%Nat.ltb_lt].
  - eapply threshold_covers; [by apply all_met|]. cbn in Hkn. lia.
  - rewrite <- Hk in Hkn. destruct (spare_child _ _ _ Hb Hwfs Hd Hkn) as (chosen' & Hm & Hc).
    eapply threshold_covers; [exact Hm|]. apply count_chosen in Hm. lia.
Qed.

(** Wrappers keep the sizes of their child. *)
Lemma sat_wrapper_covers st term sub n m x :
  sat_wrapper term = Some sub -> covers (sat_data (ext sub)) n m x ->
  covers (sat_data (ext_type_check st term)) n m x.
Proof.
  intros H (d & Hd & Hn & Hm). destruct term; try done; injection H as ->; cbn;
    rewrite ?Hd; by eexists.
Qed.

Lemma dissat_wrapper_data st term sub t e d :
  dissat_wrapper term = Some sub -> dissat_data (ext_type_check st term) = Some d ->
  exists d', dissat_data (ext sub) = Some d'
    /\ dissat_count (mkMiniscript term t e) d = dissat_count sub d'
    /\ max_witness_stack_size d = max_witness_stack_size d'.
Proof.
  unfold dissat_count. intros H. destruct term; try done; injection H as ->; cbn.
  all: try (intros ->; by eexists).
  all: destruct (dissat_data (ext sub)) as [d'|]; [|done]; intros [= <-]; by exists d'.
Qed.

Lemma wrapper_children term sub :
  sat_wrapper term = Some sub \/ dissat_wrapper term = Some sub ->
  terminal_children term = [sub]
  /\ forall t e, is_dup_if (mkMiniscript term t e) = false.
Proof. intros [H | H]; destruct term; try done; by injection H as ->. Qed.

Definition data_of (b : bool) (e : ExtData) : option SatData :=
  if b then sat_data e else dissat_data e.

Lemma covers_fmap (f : SatData -> SatData) data n m x i j :
  (forall d, max_witness_stack_count d + i <= max_witness_stack_count (f d)
          /\ max_witness_stack_size d + j <= max_witness_stack_size (f d)) ->
  covers data n m x -> covers (f <$> data) (n + i) (m + j) x.
Proof.
  intros Hf (d & -> & Hn & Hm). exists (f d). destruct (Hf d). split_and!; [done | lia | lia].
Qed.

Lemma or_i_covers b l r n m x :
  (covers (data_of b l) n m x -> covers (data_of b (Ext.or_i l r)) (n + 1) (m + 2) x)
  /\ (covers (data_of b r) n m x -> covers (data_of b (Ext.or_i l r)) (n + 1) (m + 1) x).
Proof.
  split; intros H; destruct b; cbn [data_of Ext.or_i sat_data dissat_data] in *;
    first [apply covers_max_l, covers_fmap; [intros d; cbn; lia | exact H]
          |apply covers_max_r, covers_fmap; [intros d; cbn; lia | exact H]].
Qed.

(** The branch of [or_i] that the witness takes has its data. *)
Lemma branch_covers b br w :
  good br -> dissat_known br = true -> (b = false -> undissatisfiable br = false) ->
  bounded b br w -> covers (data_of b (ext br)) (length w) (sum_by size w) (dup_ifs br).
Proof.
  intros [Hwf _] Hk Hu Hb. destruct b; [exact Hb|]. apply dissat_covers; [done | | done].
  unfold dissat_known in Hk. rewrite Hu in Hk by done. by apply bool_decide_eq_true in Hk.
Qed.

Lemma covers_bounded b ms w :
  hash_like ms = false ->
  covers (data_of b (ext ms)) (length w) (sum_by size w) (dup_ifs ms) -> bounded b ms w.
Proof.
  intros Hh Hc. destruct b; [exact Hc|]. intros d Hd. unfold dissat_count. rewrite Hh.
  destruct Hc as (d' & Hd' & Hn & Hm). cbn [data_of] in Hd'. simplify_eq. lia.
Qed.

Lemma regular_or_i l r t e :
  regular (mkMiniscript (Terminal.OrI l r) t e) = true ->
  dissat_known l = true /\ dissat_known r = true.
Proof.
  unfold regular. rewrite forallb_forall, <- List.Forall_forall, Forall_pre_order.
  intros [H _]. by apply andb_true_iff in H.
Qed.

Lemma dissat_pair_data st term l r :
  dissat_pair term = Some (l, r) ->
  exists extra, dissat_data (ext_type_check st term)
    = Ext.sat_concat extra (dissat_data (ext l)) (dissat_data (ext r)).
Proof. intros H. destruct term; try done; injection H as -> ->; by eexists. Qed.

Lemma dissat_pair_children term l r :
  dissat_pair term = Some (l, r) ->
  l ∈ terminal_children term /\ r ∈ terminal_children term
  /\ dup_ifs l + dup_ifs r <= sum_by dup_ifs (terminal_children term)
  /\ forall t e, hash_like (mkMiniscript term t e) = false.
Proof.
  intros H. destruct term; try done; injection H as -> ->; cbn [terminal_children terminal_as_node];
    rewrite !sum_by_cons, !elem_of_cons; (split_and!; [tauto | tauto | lia | done]).
Qed.

Lemma bounded_thresh_dissat k inner chosen ws t e d :
  good (mkMiniscript (Terminal.Thresh (mkThreshold k inner)) t e) ->
  Forall3 bounded chosen inner ws -> count_if id chosen = 0 ->
  Ext.threshold_dissat (map ext inner) = Some d ->
  length (concat ws) <= max_witness_stack_count d
  /\ sum_by (sum_by size) ws <= max_witness_stack_size d + sum_by dup_ifs inner.
Proof.
  intros (Hwf & _) Hb Hk Hd. apply wf_view in Hwf as (Hwfs & _ & Hview & _).
  cbn [terminal_children terminal_as_node Threshold.data Threshold.inner] in *.
  assert (Forall2 (fun ms w => covers (dissat_data (ext ms)) (length w) (sum_by size w) (dup_ifs ms))
            inner ws) as Hc.
  { clear Hd. induction Hb as [|b ms w bs mss ws Hb _ IH]; [constructor|].
    rewrite count_if_cons in Hk. destruct b; [done|].
    apply Forall_cons_1 in Hwfs as [Hwf Hwfs]. apply Forall_cons_1 in Hview as [[_ Ht] Hview].
    constructor; [|by apply IH]. apply dissat_covers; [done | by apply dissat_recorded | done]. }
  destruct (threshold_dissat_covers _ _ (Some Ext.zero_data) 0 0 0 Hc) as (d' & Hd' & Hn & Hm).
  { by eexists. }
  unfold Ext.threshold_dissat in Hd. simplify_eq. lia.
Qed.

Lemma bounded_all :
  (forall b ms w, Wit ctx leaf_hash b ms w -> good ms -> bounded b ms w)
  /\ (forall bs mss ws, WitList ctx leaf_hash bs mss ws -> Forall good mss ->
        Forall3 bounded bs mss ws).
Proof.
  apply Wit_WitList_ind; intros;
    try match goal with Hg : good _ |- _ =>
      pose proof (good_children _ Hg) as Hgc; pose proof Hg as (Hwf & Hr & Hv & Hreg);
      pose proof (wf_inv _ _ Hwf) as (_ & _ & _ & He); cbn [ext node] in He; subst e;
      rewrite children_node in Hgc; cbn [node] in Hgc; forall_children Hgc;
      pose proof (wf_view _ _ _ _ Hwf) as (_ & Hnv & Hview); cbn [corr_view] in Hview; destruct_and? Hview
    end;
    repeat match goal with
    | IH : good ?c -> _, H : good ?c |- _ => specialize (IH H)
    | H : signature _ _ _ = Witness.Stack _ |- _ => apply signature_bytes in H as [? ?]
    | H : pk_len _ _ = Some _ |- _ => apply key_size in H
    end;
    cbn [bounded]; rewrite ?dup_ifs_node;
    cbn [terminal_children terminal_as_node Threshold.data is_dup_if node Nat.b2n];
    rewrite ?sum_by_cons, ?sum_by_app, ?length_app;
    cbn [ext ext_type_check] in *;
    repeat match goal with
    | IH : bounded true ?c _ |- _ => cbn [bounded] in IH
    | IH : bounded false ?c _, H : good ?c, H' : dissat_of ?c = true |- _ =>
        apply (dissat_covers_typed _ _ H H') in IH
    end.
  all: try solve [eapply covers_weaken;
    [first [apply covers_concat; eassumption
           | apply covers_max_l, covers_concat; eassumption
           | apply covers_max_r, covers_concat; eassumption
           | apply covers_max_l; eassumption] | cbn [plus]; unfold sum_by at 1; simpl; lia]].
  all: cbn [plus]; try solve [unfold dissat_count, sum_by; cbn; intros d [= <-]; cbn; lia].
  all: try solve [eexists; split; [reflexivity|]; unfold sum_by; cbn; lia].
  all: try done; try (match goal with H : contains_raw_pkh _ = false |- _ => by vm_compute in H end).
  - unfold Ext.pk_k. destruct (sig_type ctx), (is_uncompressed pk); eexists;
      (split; [reflexivity|]); cbn; lia.
  - unfold Ext.pk_h. cbn. destruct (sig_type ctx), (is_uncompressed pk); eexists;
      (split; [reflexivity|]); unfold sum_by in *; cbn in *; lia.
  - destruct term; try done; cbn in e0; injection e0 as e0;
      unfold sha256_preimage, hash256_preimage, ripemd160_preimage, hash160_preimage in e0;
      case_match; try done; injection e0 as <-; eexists; (split; [reflexivity|]); cbn; lia.
  - destruct (wrapper_children term sub (or_introl e0)) as [Ec Ed]. rewrite Ec in *.
    rewrite Ed, sum_by_cons. forall_children Hgc. eapply sat_wrapper_covers; [done|].
    eapply covers_weaken; [by apply H | lia].
  - destruct H as (d & Hd & Hn & Hm). unfold Ext.cast_dupif. cbn [sat_data]. rewrite Hd.
    change (sum_by size [Placeholder.PushOne]) with 2. change (sum_by dup_ifs []) with 0.
    eexists. split; [reflexivity|]. cbn [length max_witness_stack_count max_witness_stack_size]. lia.
  - apply regular_or_i in Hreg as [Hl Hr']. apply covers_bounded; [done|].
    rewrite dup_ifs_node, length_app, sum_by_app. cbn [terminal_children terminal_as_node].
    rewrite !sum_by_cons. eapply covers_weaken; [apply or_i_covers, branch_covers; try done|].
    + by apply (proj1 undissatisfiable_sound _ _ _ w0).
    + cbn. lia.
  - apply regular_or_i in Hreg as [Hl Hr']. apply covers_bounded; [done|].
    rewrite dup_ifs_node, length_app, sum_by_app. cbn [terminal_children terminal_as_node].
    rewrite !sum_by_cons. eapply covers_weaken; [apply or_i_covers, branch_covers; try done|].
    + by apply (proj1 undissatisfiable_sound _ _ _ w0).
    + cbn. lia.
  - eapply bounded_thresh; [done | by apply H | done].
  - match goal with Hf : Forall2 _ _ _ |- _ => apply signatures_bytes in Hf as [Hn Hm] end.
    rewrite sum_concat. eexists. split; [reflexivity|]. cbn. lia.
  - pose proof (multi_a_tap _ _ _ Hv) as Hs.
    match goal with Hf : Forall3 _ _ _ _ |- _ => apply items_bytes in Hf as [Hn Hm]; [|done] end.
    rewrite length_rev in *. rewrite sum_concat. eexists. split; [reflexivity|].
    change (count_if id chosen) with (sum_by Nat.b2n chosen) in Hm.
    unfold Threshold.data, Threshold.n in *. cbn. lia.
  - unfold Ext.pk_k. destruct (sig_type ctx), (is_uncompressed pk); intros d [= <-]; cbn; lia.
  - unfold Ext.pk_h. cbn. destruct (sig_type ctx), (is_uncompressed pk); intros d [= <-];
      unfold dissat_count, sum_by; cbn; lia.
  - destruct term; try done; intros d [= <-]; unfold dissat_count, sum_by; cbn; lia.
  - intros d Hd. destruct (wrapper_children term sub (or_intror e0)) as [Ec Ed]. rewrite Ec in *.
    rewrite Ed, sum_by_cons. forall_children Hgc.
    destruct (dissat_wrapper_data _ _ _ t (ext_type_check (sig_type ctx) term) _ e0 Hd)
      as (d' & Hd' & -> & ->).
    destruct (H Hc d' Hd'). lia.
  - intros d Hd. rewrite <- length_app, <- sum_by_app.
    destruct (dissat_pair_children _ _ _ e0) as (Hl & Hr' & Hsum & Hh). unfold dissat_count. rewrite Hh.
    rewrite list.Forall_forall in Hgc. pose proof (Hgc l Hl) as Gl. pose proof (Hgc r Hr') as Gr.
    destruct (dissat_pair_data (sig_type ctx) _ _ _ e0) as [extra E]. rewrite E in Hd.
    pose proof (dissat_pair_covers _ _ _ _ _ _ Gl Gr (H Gl) (H0 Gr) Hd). lia.
  - intros d Hd. cbn [Threshold.data Threshold.inner] in *. rewrite sum_concat_rev, length_concat_rev.
    eapply bounded_thresh_dissat; eauto.
  - intros d [= <-]. unfold dissat_count. cbn. rewrite sum_repeat_zero, repeat_length. lia.
  - intros d [= <-]. unfold dissat_count. cbn. rewrite sum_repeat_zero, repeat_length. lia.
  - constructor.
  - apply Forall_cons_1 in H1 as [? ?]. constructor; auto.
Qed.
End Bounds.

(** * The bounds of [Miniscript] *)

(** C19: The templates the satisfier builds, in both modes, stay within the sizes that [ExtData]
    promises: on a valid Miniscript of segwit or taproot whose recorded data covers every choice
    ([regular]), a satisfaction has fewer elements than [max_satisfaction_witness_elements], and
    its size is at most [max_satisfaction_size], up to the byte that each [d:] wrapper misses. *)
Theorem satisfaction_bounds {B : Bitcoin} {Sp : Spending} {K : MiniscriptKey} {TP : ToPublicKey K}
    {P : AssetProvider} ctx ms r w :
  good ctx ms -> ctx = Segwitv0 \/ ctx = Tap ->
  (forall pk n, provider_lookup_tap_leaf_script_sig pk (leaf_hash_internal ctx ms) = Some n ->
     n <= 65) ->
  ms_build_template ctx ms = Some r \/ ms_build_template_mall ctx ms = Some r ->
  stack r = Witness.Stack w ->
  exists elements bytes,
    max_satisfaction_witness_elements ms = Ok elements
    /\ max_satisfaction_size ctx ms = Some (Some bytes)
    /\ length w < elements /\ sum_by size w <= bytes + dup_ifs ms.
Proof.
  intros Hg Hctx Hs Hb Hw.
  assert (Wit ctx (leaf_hash_internal ctx ms) true ms w) as Hwit.
  { eapply refined; [apply Hg | exact Hb | exact Hw]. }
  destruct (proj1 (bounded_all ctx _ Hctx Hs) true ms w Hwit Hg) as (d & Hd & Hn & Hm).
  exists (max_witness_stack_count d + 1), (max_witness_stack_size d).
  unfold max_satisfaction_witness_elements, max_satisfaction_size. rewrite Hd.
  split_and!; [done | by destruct Hctx as [-> | ->] | lia | done].
Qed.

(** The signatures of A and C, bottom of the stack first. *)
Definition sample_thresh_stack : list (Placeholder (K := reference_key)) :=
  [Placeholder.EcdsaSigPk keyC; Placeholder.PushZero; Placeholder.EcdsaSigPk keyA].

(** [thresh(2,pk(A),s:pk(B),s:pk(C))] with the signatures of A and C. *)
Lemma satisfaction_bounds_witness :
  ms_build_template (P := satisfier_provider (S := sample_satisfier [keyA; keyC] 144 0)) Segwitv0
    (sample_thresh Segwitv0)
  = Some (mkSatisfaction (Witness.Stack sample_thresh_stack) true None None)
  /\ exists elements bytes,
    max_satisfaction_witness_elements (sample_thresh Segwitv0) = Ok elements
    /\ max_satisfaction_size Segwitv0 (sample_thresh Segwitv0) = Some (Some bytes)
    /\ length sample_thresh_stack < elements
    /\ sum_by size sample_thresh_stack <= bytes + dup_ifs (sample_thresh Segwitv0).
Proof.
  assert (ms_build_template (P := satisfier_provider (S := sample_satisfier [keyA; keyC] 144 0))
            Segwitv0 (sample_thresh Segwitv0)
          = Some (mkSatisfaction (Witness.Stack sample_thresh_stack) true None None)) as E
    by (vm_cast_no_check (eq_refl (Some (mkSatisfaction (Witness.Stack sample_thresh_stack) true None None)))).
  split; [exact E|].
  apply (satisfaction_bounds (P := satisfier_provider (S := sample_satisfier [keyA; keyC] 144 0))
           Segwitv0 _ (mkSatisfaction (Witness.Stack sample_thresh_stack) true None None)).
  - split_and!; [exact sample_thresh_wf | by vm_compute | exact sample_thresh_valid | by vm_compute].
  - by left.
  - intros pk n H. cbn in H. unfold sample_satisfier in H. cbn in H.
    destruct (decide _); [|done]. injection H as <-. cbn. lia.
  - by left.
  - done.
Defined.

(** [and_b(pk(A),a:d:v:older(144))] *)
Definition dup_if_ms : Miniscript :=
  build Segwitv0 (Terminal.AndB (sample_pk Segwitv0 keyA)
    (build Segwitv0 (Terminal.Alt (build Segwitv0 (Terminal.DupIf
      (build Segwitv0 (Terminal.Verify (build Segwitv0 (Terminal.Older older_144))))))))).

(** [thresh(1,pk(A),a:0)] *)
Definition spare_false_ms : Miniscript :=
  build Segwitv0 (Terminal.Thresh (mkThreshold 1
    [sample_pk Segwitv0 keyA; build Segwitv0 (Terminal.Alt (build Segwitv0 Terminal.False))])).

(** [a:or_i(n:after(500),and_b(0,a:pkh(K)))], whose dissatisfaction shows a key. *)
Definition costly_dissat_ms (k : Pk) : Miniscript :=
  build Segwitv0 (Terminal.Alt (build Segwitv0 (Terminal.OrI
    (build Segwitv0 (Terminal.ZeroNotEqual (build Segwitv0 (Terminal.After after_500))))
    (build Segwitv0 (Terminal.AndB (build Segwitv0 Terminal.False)
      (build Segwitv0 (Terminal.Alt (build Segwitv0 (Terminal.Check
        (build Segwitv0 (Terminal.PkH k))))))))))).

Definition costly_thresh_ms : Miniscript :=
  build Segwitv0 (Terminal.Thresh (mkThreshold 1
    [sample_pk Segwitv0 keyA; costly_dissat_ms keyB; costly_dissat_ms keyC])).

(** The size of the malleable template and the size promised. *)
Definition sizes_of (keys : list Pk) (seq : N) (ms : Miniscript)
  : option (Witness nat) * option (option nat) :=
  let P := satisfier_provider (S := sample_satisfier keys seq 0) in
  ((fun r => match stack r with
             | Witness.Stack w => Witness.Stack [sum_by size w]
             | Witness.Unavailable => Witness.Unavailable
             | Witness.Impossible => Witness.Impossible
             end) <$> ms_build_template_mall Segwitv0 ms,
   max_satisfaction_size Segwitv0 ms).

(** Where the size bounds of [ExtData] fail: the template of a [d:] wrapper is one byte longer
    than promised ([cast_dupif] adds one to the size and two to the count); a threshold with a
    child that is never satisfied has no bound although it is satisfied without that child, and
    one whose other children are costlier to dissatisfy is longer than promised ([threshold]
    counts [k + 1] satisfactions). *)
Theorem size_bounds_exceptions :
  forallb (fun ms => is_ok (check_global_validity Segwitv0 ms)) (pre_order dup_if_ms) = true
  /\ sizes_of [keyA] 144 dup_if_ms = (Some (Witness.Stack [75]), Some (Some 74))
  /\ sizes_of [keyA] 0 spare_false_ms = (Some (Witness.Stack [73]), Some None)
  /\ sizes_of [keyA] 0 costly_thresh_ms = (Some (Witness.Stack [145]), Some (Some 111)).
Proof. vm_compute. split_and!; reflexivity. Qed.
