(* ===== verification/Outputs.v ===== *)
(** What the crate bitcoin has for the outputs of transactions: the forms of scriptPubkeys,
    addresses and the check of a taproot commitment, as an interface with its documented
    behaviour, and an instance of it over the reference instance. *)
From S2P Require Import Prelude Bitcoin Primitives Reference Script TapTree SpendInfo Ord Correctness Malleability Types ExtData Tree Ast Context Samples Encode.

Class Outputs {B : Bitcoin} {Sp : Spending} {Ta : Taproot} {Sc : Scripts} : Type := {
  (** [Script::is_p2pk] and the other predicates *)
  is_p2pk : bytes -> bool;
  is_p2pkh : bytes -> bool;
  is_p2wpkh : bytes -> bool;
  is_p2wsh : bytes -> bool;
  is_p2tr : bytes -> bool;
  is_p2sh : bytes -> bool;
  (** [ScriptBuf::new_p2pkh] and the other constructors *)
  new_p2pkh : hash160_Hash -> bytes;
  new_p2wpkh : hash160_Hash -> bytes;
  new_p2wsh : sha256_Hash -> bytes;
  new_p2sh : hash160_Hash -> bytes;
  (** [Script::to_p2wsh] and [to_p2sh] *)
  to_p2wsh : bytes -> bytes;
  to_p2sh : bytes -> bytes;
  (** the scriptPubkeys of [Address::p2pkh] and [Address::p2wpkh], which do not depend on
      the network *)
  p2pkh_script_pubkey : PublicKey -> bytes;
  p2wpkh_script_pubkey : PublicKey -> bytes;
  (** the items of [Script::instructions_minimal] *)
  instructions_minimal : bytes -> list (result ScriptError Instruction);
  (** [PublicKey::inner] of secp256k1, serialised *)
  PublicKey_inner_serialize : PublicKey -> bytes;
  (** [ControlBlock::decode] and [verify_taproot_commitment] *)
  TaprootError : Type;
  ControlBlock_decode : bytes -> result TaprootError ControlBlock;
  verify_taproot_commitment : ControlBlock -> XOnlyPublicKey -> bytes -> bool;
  (** [XOnlyPublicKey::from(TweakedPublicKey)] *)
  TweakedPublicKey_to_inner : TweakedPublicKey -> XOnlyPublicKey;
  (** the key that [PublicKey::from_slice] reads from the byte 02 and an x-only key *)
  PublicKey_from_x_only : XOnlyPublicKey -> PublicKey;
}.

(** The [i]-th byte is [b]. *)
Definition byte_at (i : nat) (b : Byte.byte) (s : bytes) : bool := bool_decide (s !! i = Some b).

(** A push of bytes that no shorter instruction makes. *)
Definition minimal_push (b : bytes) : bool :=
  match b with
  | [x] => negb ((1 <=? Byte.to_N x)%N && (Byte.to_N x <=? 16)%N || bool_decide (x = Byte.x81))
  | _ => true
  end.

(** The root to which a Merkle branch leads from a node. *)
Definition commitment_root {B : Bitcoin} {Sp : Spending} {Ta : Taproot} (leaf : TapNodeHash)
    (branch : list TapNodeHash) : TapNodeHash :=
  fold_left from_node_hashes branch leaf.

Class OutputLaws {B : Bitcoin} {Sp : Spending} {Ta : Taproot} {Sc : Scripts} {Pa : Parsing}
    (Ou : Outputs) : Prop := {
  (** the forms of scripts, byte by byte *)
  is_p2pk_spec : forall s, is_p2pk s =
    ((length s =? 35) && byte_at 0 Byte.x21 s && byte_at 34 Byte.xac s)
    || ((length s =? 67) && byte_at 0 Byte.x41 s && byte_at 66 Byte.xac s);
  is_p2pkh_spec : forall s, is_p2pkh s =
    (length s =? 25) && byte_at 0 Byte.x76 s && byte_at 1 Byte.xa9 s && byte_at 2 Byte.x14 s
    && byte_at 23 Byte.x88 s && byte_at 24 Byte.xac s;
  is_p2wpkh_spec : forall s, is_p2wpkh s = (length s =? 22) && byte_at 0 Byte.x00 s && byte_at 1 Byte.x14 s;
  is_p2wsh_spec : forall s, is_p2wsh s = (length s =? 34) && byte_at 0 Byte.x00 s && byte_at 1 Byte.x20 s;
  is_p2tr_spec : forall s, is_p2tr s = (length s =? 34) && byte_at 0 Byte.x51 s && byte_at 1 Byte.x20 s;
  is_p2sh_spec : forall s, is_p2sh s =
    (length s =? 23) && byte_at 0 Byte.xa9 s && byte_at 1 Byte.x14 s && byte_at 22 Byte.x87 s;
  new_p2pkh_spec : forall h,
    new_p2pkh h = [Byte.x76; Byte.xa9; Byte.x14] ++ hash160_to_byte_array h ++ [Byte.x88; Byte.xac];
  new_p2wpkh_spec : forall h, new_p2wpkh h = [Byte.x00; Byte.x14] ++ hash160_to_byte_array h;
  new_p2wsh_spec : forall h, new_p2wsh h = [Byte.x00; Byte.x20] ++ sha256_to_byte_array h;
  new_p2sh_spec : forall h, new_p2sh h = [Byte.xa9; Byte.x14] ++ hash160_to_byte_array h ++ [Byte.x87];
  to_p2wsh_spec : forall s, to_p2wsh s = new_p2wsh (sha256_hash s);
  to_p2sh_spec : forall s, to_p2sh s = new_p2sh (hash160_hash s);
  p2pkh_spec : forall k, p2pkh_script_pubkey k = new_p2pkh (hash160_hash (PublicKey_to_bytes k));
  p2wpkh_spec : forall k, p2wpkh_script_pubkey k = new_p2wpkh (hash160_hash (PublicKey_to_bytes k));
  instructions_minimal_nil : instructions_minimal [] = [];
  instructions_minimal_push : forall s rest, minimal_push s = true -> (N.of_nat (length s) < 2 ^ 32)%N ->
    instructions_minimal (push_header (length s) ++ s ++ rest) = Ok (PushBytes s) :: instructions_minimal rest;
  opcode_one : opcode_byte (Named OP_TRUE) = Byte.x51;
  (** a control block is read back, and it proves that the output key is the tweak of its
      internal key by the root that its branch leads to *)
  ControlBlock_roundtrip : forall parity key branch, length branch <= TAPROOT_CONTROL_MAX_NODE_COUNT ->
    ControlBlock_decode (ControlBlock_serialize (ControlBlock_new parity key branch))
    = Ok (ControlBlock_new parity key branch);
  (** its first byte is the version of the leaf, which is not the prefix of an annex *)
  ControlBlock_version : forall parity key branch,
    exists b rest, ControlBlock_serialize (ControlBlock_new parity key branch) = b :: rest /\ b <> Byte.x50;
  verify_commitment : forall parity key branch output builder,
    tap_tweak key (Some (commitment_root (TapNodeHash_from (TapLeafHash_from_script builder)) branch))
      = (output, parity) ->
    verify_taproot_commitment (ControlBlock_new parity key branch) (TweakedPublicKey_to_inner output)
      (into_script builder) = true;
  TweakedPublicKey_parsed : forall k,
    XOnlyPublicKey_from_slice (TweakedPublicKey_serialize k) = Some (TweakedPublicKey_to_inner k);
  PublicKey_from_x_only_spec : forall k,
    PublicKey_from_slice (Byte.x02 :: XOnlyPublicKey_serialize k) = Some (PublicKey_from_x_only k);
  (** a push of one byte that is missing *)
  instructions_early_end : exists e l, instructions [Byte.x01] = Err e :: l;
}.

(** * An instance *)

Module OutputsReference.
Definition p2pkh (h : bytes) : bytes := [Byte.x76; Byte.xa9; Byte.x14] ++ h ++ [Byte.x88; Byte.xac].
Definition p2wpkh (h : bytes) : bytes := [Byte.x00; Byte.x14] ++ h.
Definition p2wsh (h : bytes) : bytes := [Byte.x00; Byte.x20] ++ h.
Definition p2sh (h : bytes) : bytes := [Byte.xa9; Byte.x14] ++ h ++ [Byte.x87].

(** The instructions, up to a push that is not minimal. *)
Fixpoint minimal (l : list (result ScriptReference.Error Instruction)) : list (result ScriptReference.Error Instruction) :=
  match l with
  | Ok (PushBytes b) :: l => if minimal_push b then Ok (PushBytes b) :: minimal l else [Err ScriptReference.NonMinimal]
  | i :: l => i :: minimal l
  | [] => []
  end.
End OutputsReference.

(** A control block commits to its internal key, which the reference tweak keeps. *)
#[export] Instance reference_outputs : Outputs (Ta := reference_taproot) (Sc := reference_scripts) := {|
  is_p2pk s :=
    ((length s =? 35) && byte_at 0 Byte.x21 s && byte_at 34 Byte.xac s)
    || ((length s =? 67) && byte_at 0 Byte.x41 s && byte_at 66 Byte.xac s);
  is_p2pkh s := (length s =? 25) && byte_at 0 Byte.x76 s && byte_at 1 Byte.xa9 s && byte_at 2 Byte.x14 s
    && byte_at 23 Byte.x88 s && byte_at 24 Byte.xac s;
  is_p2wpkh s := (length s =? 22) && byte_at 0 Byte.x00 s && byte_at 1 Byte.x14 s;
  is_p2wsh s := (length s =? 34) && byte_at 0 Byte.x00 s && byte_at 1 Byte.x20 s;
  is_p2tr s := (length s =? 34) && byte_at 0 Byte.x51 s && byte_at 1 Byte.x20 s;
  is_p2sh s := (length s =? 23) && byte_at 0 Byte.xa9 s && byte_at 1 Byte.x14 s && byte_at 22 Byte.x87 s;
  new_p2pkh h := OutputsReference.p2pkh (hash160_to_byte_array h);
  new_p2wpkh h := OutputsReference.p2wpkh (hash160_to_byte_array h);
  new_p2wsh h := OutputsReference.p2wsh (sha256_to_byte_array h);
  new_p2sh h := OutputsReference.p2sh (hash160_to_byte_array h);
  to_p2wsh s := OutputsReference.p2wsh (sha256_to_byte_array (sha256_hash s));
  to_p2sh s := OutputsReference.p2sh (hash160_to_byte_array (hash160_hash s));
  p2pkh_script_pubkey k := OutputsReference.p2pkh (hash160_to_byte_array (hash160_hash (PublicKey_to_bytes k)));
  p2wpkh_script_pubkey k := OutputsReference.p2wpkh (hash160_to_byte_array (hash160_hash (PublicKey_to_bytes k)));
  instructions_minimal s := OutputsReference.minimal (instructions s);
  PublicKey_inner_serialize k := [k.2];
  TaprootError := ();
  ControlBlock_decode b := if length b mod 32 =? 1 then Ok b else Err ();
  verify_taproot_commitment cb key _ := byte_at 1 key cb;
  TweakedPublicKey_to_inner k := k.1;
  PublicKey_from_x_only k := (true, k);
|}.

#[export] Instance reference_output_laws : OutputLaws (Pa := reference_parsing) reference_outputs.
Proof.
  constructor; try done.
  - intros s rest Hm Hl. cbn [instructions_minimal reference_outputs].
    rewrite instructions_push by done. cbn [OutputsReference.minimal]. by rewrite Hm.
  - intros parity key branch Hl. cbn [ControlBlock_decode reference_outputs ControlBlock_serialize reference_spending].
    pose proof (ControlBlock_size (Ta := reference_taproot) parity key branch) as Hs.
    change (ControlBlock_serialize (ControlBlock_new parity key branch)) with (ControlBlock_new parity key branch) in Hs.
    rewrite Hs, Nat.mul_comm, Nat.Div0.mod_add. done.
  - intros parity key branch. eexists _, _. split; [reflexivity|]. by destruct parity.
  - intros parity key branch [k root] builder [= <- _ _]. apply bool_decide_eq_true_2. reflexivity.
  - intros [k root]. by apply Reference.x_only_from_spec.
  - intros k. by apply Reference.key_from_spec.
  - by eexists _, _.
Qed.
