(* ===== verification/DescriptorSpend.v ===== *)
(** Scripts and satisfactions of descriptors (src/src/descriptor: mod.rs, bare.rs, segwitv0.rs,
    sh.rs, sortedmulti.rs and tr/mod.rs, [witness_to_scriptsig] of src/src/util.rs), and the
    plans that are made from them (src/src/plan.rs). *)
From S2P Require Import Prelude Bitcoin Primitives Reference Script Ord Correctness Malleability Types ExtData Tree Ast Context Samples Encode Satisfy.
From S2P Require Import Decode.
From S2P Require Import Compare.
From S2P Require Import TapTree.
From S2P Require Import SpendInfo.
From S2P Require Import Outputs.
From S2P Require Import Descriptor.

Section Scripts.
Context {B : Bitcoin} {Sp : Spending} {Ta : Taproot} {Sc : Scripts} {Ou : Outputs}.
Context {K : MiniscriptKey} {TP : ToPublicKey K}.

(** * Scripts *)

(** [Miniscript::encode] *)
Definition ms_script (ctx : ScriptContext) (ms : Miniscript) : bytes := into_script (encode ctx ms Builder_new).

(** ** [SortedMultiVec] *)

(** The keys sorted as in BIP 67; the order of the crate is that of arrays of bytes. *)
Definition key_leb (a b : Pk) : bool :=
  match bytes_cmp (PublicKey_inner_serialize (to_public_key a)) (PublicKey_inner_serialize (to_public_key b)) with
  | Gt => false
  | _ => true
  end.

(** [sorted_node], a [Terminal::Multi] *)
Definition sorted_keys (self : SortedMultiVec) : Threshold Pk :=
  mkThreshold (Threshold.k (smv_inner self)) (sort_by_key key_leb (fun pk => pk) (Threshold.data (smv_inner self))).

Definition smv_encode (ctx : ScriptContext) (self : SortedMultiVec) : bytes :=
  ms_script ctx (ms_multi (sorted_keys self)).

(** ** The scripts of descriptors; [None] is a panic. *)

(** [CompressedPublicKey::try_from] fails on uncompressed keys. *)
Definition wpkh_script_pubkey (pk : Pk) : option bytes :=
  let pk := to_public_key pk in
  if PublicKey_compressed pk then Some (p2wpkh_script_pubkey pk) else None.

Definition wsh_inner_script (self : Wsh) : bytes :=
  match self with
  | WshSortedMulti smv => smv_encode Segwitv0 smv
  | WshMs ms => ms_script Segwitv0 ms
  end.

Definition wsh_script_pubkey (self : Wsh) : bytes := to_p2wsh (wsh_inner_script self).

Definition sh_inner_script (self : Descriptor.Sh) : option bytes :=
  match self with
  | ShWsh wsh => Some (wsh_inner_script wsh)
  | ShWpkh pk => wpkh_script_pubkey pk
  | ShSortedMulti smv => Some (smv_encode Legacy smv)
  | ShMs ms => Some (ms_script Legacy ms)
  end.

Definition sh_script_pubkey (self : Descriptor.Sh) : option bytes :=
  match self with
  | ShWsh wsh => Some (to_p2sh (wsh_script_pubkey wsh))
  | ShWpkh pk => to_p2sh <$> wpkh_script_pubkey pk
  | ShSortedMulti smv => Some (to_p2sh (smv_encode Legacy smv))
  | ShMs ms => Some (to_p2sh (ms_script Legacy ms))
  end.

(** A script that is one push. *)
Definition push_script (b : bytes) : bytes := into_script (push_slice Builder_new b).

Definition sh_unsigned_script_sig (self : Descriptor.Sh) : option bytes :=
  match self with
  | ShWsh wsh => Some (push_script (to_p2wsh (wsh_inner_script wsh)))
  | ShWpkh pk => push_script <$> wpkh_script_pubkey pk
  | ShSortedMulti _ | ShMs _ => Some []
  end.

Definition sh_ecdsa_sighash_script_code (self : Descriptor.Sh) : bytes :=
  match self with
  | ShWsh wsh => wsh_inner_script wsh
  | ShSortedMulti smv => smv_encode Legacy smv
  | ShWpkh pk => p2pkh_script_pubkey (to_public_key pk)
  | ShMs ms => ms_script Legacy ms
  end.

Definition tr_script_pubkey (self : Tr) : option bytes :=
  info ← from_tr self;
  Some (into_script (push_slice (push_opcode Builder_new OP_TRUE) (TweakedPublicKey_serialize (output_key info)))).

Definition desc_script_pubkey (self : Descriptor) : option bytes :=
  match self with
  | Desc_Bare ms => Some (ms_script BareCtx ms)
  | Desc_Pkh pk => Some (p2pkh_script_pubkey (to_public_key pk))
  | Desc_Wpkh pk => wpkh_script_pubkey pk
  | Desc_Wsh wsh => Some (wsh_script_pubkey wsh)
  | Desc_Sh sh => sh_script_pubkey sh
  | Desc_Tr tr => tr_script_pubkey tr
  end.

Definition desc_unsigned_script_sig (self : Descriptor) : option bytes :=
  match self with
  | Desc_Sh sh => sh_unsigned_script_sig sh
  | _ => Some []
  end.

Definition desc_explicit_script (self : Descriptor) : option (result DescriptorError bytes) :=
  match self with
  | Desc_Bare ms => Some (Ok (ms_script BareCtx ms))
  | Desc_Pkh pk => Some (Ok (p2pkh_script_pubkey (to_public_key pk)))
  | Desc_Wpkh pk => Ok <$> wpkh_script_pubkey pk
  | Desc_Wsh wsh => Some (Ok (wsh_inner_script wsh))
  | Desc_Sh sh => Ok <$> sh_inner_script sh
  | Desc_Tr _ => Some (Err TrNoScriptCode)
  end.

Definition desc_script_code (self : Descriptor) : result DescriptorError bytes :=
  match self with
  | Desc_Bare ms => Ok (ms_script BareCtx ms)
  | Desc_Pkh pk | Desc_Wpkh pk => Ok (p2pkh_script_pubkey (to_public_key pk))
  | Desc_Wsh wsh => Ok (wsh_inner_script wsh)
  | Desc_Sh sh => Ok (sh_ecdsa_sighash_script_code sh)
  | Desc_Tr _ => Err TrNoScriptCode
  end.
End Scripts.

(** * Templates *)

Section Templates.
Context {B : Bitcoin} {Sp : Spending} {Ta : Taproot} {Sc : Scripts} {Ou : Outputs}.
Context {K : MiniscriptKey} {TP : ToPublicKey K} {P : AssetProvider}.

(** [SortedMultiVec::build_template] *)
Definition smv_build_template (ctx : ScriptContext) (self : SortedMultiVec) : option (Satisfaction Placeholder) :=
  ms ← smv_miniscript ctx (sorted_keys self); ms_build_template ctx ms.

(** [plan_satisfaction] of [Pkh] and [Wpkh] *)
Definition key_plan_satisfaction (ctx : ScriptContext) (pk : Pk) : option (Satisfaction Placeholder) :=
  len ← pk_len ctx pk;
  Some (mkSatisfaction
          (if provider_lookup_ecdsa_sig pk then Witness.Stack [Placeholder.EcdsaSigPk pk; Placeholder.Pubkey pk len]
           else Witness.Unavailable)
          true None None).

(** The template of a Miniscript, malleable when [mall]. *)
Definition template (mall : bool) (ctx : ScriptContext) (ms : Miniscript) : option (Satisfaction Placeholder) :=
  if mall then ms_build_template_mall ctx ms else ms_build_template ctx ms.

Definition wsh_plan_satisfaction (mall : bool) (self : Wsh) : option (Satisfaction Placeholder) :=
  match self with
  | WshSortedMulti smv => smv_build_template Segwitv0 smv
  | WshMs ms => template mall Segwitv0 ms
  end.

Definition sh_plan_satisfaction (mall : bool) (self : Descriptor.Sh) : option (Satisfaction Placeholder) :=
  match self with
  | ShWsh wsh => wsh_plan_satisfaction mall wsh
  | ShWpkh pk => key_plan_satisfaction Segwitv0 pk
  | ShSortedMulti smv => smv_build_template Legacy smv
  | ShMs ms => template mall Legacy ms
  end.

(** One turn of the loop of [best_tap_spend] over the leaves: the best satisfaction so far
    and its size; a later leaf of the same size replaces it. *)
Definition tap_leaf_turn (allow_mall : bool) (min : Satisfaction Placeholder * option nat) (leaf : TrSpendInfoIterItem)
  : option (Satisfaction Placeholder * option nat) :=
  satisfaction ← template allow_mall Tap (item_miniscript leaf);
  match stack satisfaction with
  | Witness.Stack wit =>
      let wit := wit ++ [Placeholder.TapScript (item_script leaf); Placeholder.TapControlBlock (control_block leaf)] in
      let wit_size := witness_size wit in
      match min.2 with
      | Some min_wit_len =>
          if min_wit_len <? wit_size then Some min
          else Some (mkSatisfaction (Witness.Stack wit) (has_sig satisfaction) (absolute_timelock satisfaction)
                       (relative_timelock satisfaction), Some wit_size)
      | None =>
          Some (mkSatisfaction (Witness.Stack wit) (has_sig satisfaction) (absolute_timelock satisfaction)
                  (relative_timelock satisfaction), Some wit_size)
      end
  | Witness.Unavailable | Witness.Impossible => Some min
  end.

Fixpoint tap_leaves_loop (allow_mall : bool) (min : Satisfaction Placeholder * option nat)
    (leaves : list TrSpendInfoIterItem) : option (Satisfaction Placeholder) :=
  match leaves with
  | [] => Some min.1
  | leaf :: leaves => min ← tap_leaf_turn allow_mall min leaf; tap_leaves_loop allow_mall min leaves
  end.

Definition best_tap_spend (desc : Tr) (allow_mall : bool) : option (Satisfaction Placeholder) :=
  info ← from_tr desc;
  match provider_lookup_tap_key_spend_sig (internal_key desc) with
  | Some size =>
      Some (mkSatisfaction
              (Witness.Stack [Placeholder.SchnorrSigPk (internal_key desc) (KeySpend (merkle_root info)) size])
              true None None)
  | None =>
      leaves ← spend_items info;
      tap_leaves_loop allow_mall (mkSatisfaction Witness.Unavailable false None None, None) leaves
  end.

(** [plan_satisfaction] and [plan_satisfaction_mall] of every descriptor *)
Definition desc_plan_satisfaction (mall : bool) (self : Descriptor) : option (Satisfaction Placeholder) :=
  match self with
  | Desc_Bare ms => template mall BareCtx ms
  | Desc_Pkh pk => key_plan_satisfaction BareCtx pk
  | Desc_Wpkh pk => key_plan_satisfaction Segwitv0 pk
  | Desc_Wsh wsh => wsh_plan_satisfaction mall wsh
  | Desc_Sh sh => sh_plan_satisfaction mall sh
  | Desc_Tr tr => best_tap_spend tr mall
  end.

(** ** Plans *)

Record Plan : Type := mkPlan {
  plan_template : list Placeholder;
  plan_absolute_timelock : option LockTime;
  plan_relative_timelock : option Bitcoin.RelativeLockTime;
  plan_descriptor : Descriptor;
}.

(** The conversion of a relative lock time, which unwraps. *)
Definition plan_relative (t : option RelLockTime) : option (option Bitcoin.RelativeLockTime) :=
  match t with
  | None => Some None
  | Some t => t ← rel_to_relative t; Some (Some t)
  end.

(** [Descriptor::plan] and [plan_mall]; the error is the descriptor. *)
Definition plan_with (mall : bool) (self : Descriptor) : option (result Descriptor Plan) :=
  satisfaction ← desc_plan_satisfaction mall self;
  match stack satisfaction with
  | Witness.Stack stack =>
      relative ← plan_relative (relative_timelock satisfaction);
      Some (Ok (mkPlan stack (abs_inner <$> absolute_timelock satisfaction) relative self))
  | Witness.Unavailable | Witness.Impossible => Some (Err self)
  end.

Definition plan (self : Descriptor) : option (result Descriptor Plan) := plan_with false self.
Definition plan_mall (self : Descriptor) : option (result Descriptor Plan) := plan_with true self.

Definition witness_template (self : Plan) : list Placeholder := plan_template self.

Definition witness_version (self : Plan) : option WitnessVersion := segwit_version (desc_type (plan_descriptor self)).

Definition scriptsig_size (self : Plan) : nat :=
  match segwit_version (desc_type (plan_descriptor self)), desc_type (plan_descriptor self) with
  | None, _ => witness_size (plan_template self)
  | Some V1, _ => 1
  | _, Ty_ShWpkh => 1 + 1 + 1 + 20
  | _, Ty_ShWsh | _, Ty_ShWshSortedMulti => 1 + 1 + 1 + 32
  | _, _ => 1
  end.

Definition plan_witness_size (self : Plan) : nat :=
  match segwit_version (desc_type (plan_descriptor self)) with
  | Some _ => witness_size (plan_template self)
  | None => 0
  end.

Definition satisfaction_weight (self : Plan) : nat := plan_witness_size self + scriptsig_size self * 4.
End Templates.

(** * Satisfactions *)

Section Satisfactions.
Context {B : Bitcoin} {Sp : Spending} {Ta : Taproot} {Sc : Scripts} {Ou : Outputs}.
Context {K : MiniscriptKey} {TP : ToPublicKey K} {S : Satisfier}.

(** A witness and a scriptSig; the outer option is a panic. *)
Definition Spent : Type := option (result DescriptorError (list bytes * bytes)).

Definition ms_satisfy (mall : bool) (ctx : ScriptContext) (ms : Miniscript)
  : option (result DescriptorError (list bytes)) :=
  r ← if mall then satisfy_malleable ctx ms else satisfy ctx ms; Some (map_err Invalid r).

(** [SortedMultiVec::satisfy] *)
Definition smv_satisfy (ctx : ScriptContext) (self : SortedMultiVec) : option (result DescriptorError (list bytes)) :=
  ms ← smv_miniscript ctx (sorted_keys self); ms_satisfy false ctx ms.

(** ** [witness_to_scriptsig] (src/src/util.rs) *)

(** The loop from the element [i]; [None] is a failed assertion. *)
Fixpoint scriptsig_loop (len i : nat) (b : Builder) (witness : list bytes) : option Builder :=
  match witness with
  | [] => Some b
  | wit :: witness =>
      match read_scriptint wit with
      | Ok n => scriptsig_loop len (i + 1) (push_int b n) witness
      | Err _ =>
          if if negb (i =? len - 1) then length wit <? 73 else length wit <=? MAX_SCRIPT_ELEMENT_SIZE then
            scriptsig_loop len (i + 1) (push_slice b wit) witness
          else None
      end
  end.

Definition witness_to_scriptsig (witness : list bytes) : option bytes :=
  into_script <$> scriptsig_loop (length witness) 0 Builder_new witness.

(** ** Every descriptor *)

Definition bare_get_satisfaction (mall : bool) (ms : Miniscript) : Spent :=
  r ← ms_satisfy mall BareCtx ms;
  match r with
  | Err e => Some (Err e)
  | Ok witness => script_sig ← witness_to_scriptsig witness; Some (Ok ([], script_sig))
  end.

Definition pkh_get_satisfaction (pk : Pk) : Spent :=
  Some match lookup_ecdsa_sig pk with
       | Some sig =>
           Ok ([], into_script (push_key (push_slice Builder_new (EcdsaSignature_to_vec sig)) (to_public_key pk)))
       | None => Err (MissingSig (to_public_key pk))
       end.

Definition wpkh_get_satisfaction (pk : Pk) : Spent :=
  Some match lookup_ecdsa_sig pk with
       | Some sig => Ok ([EcdsaSignature_to_vec sig; PublicKey_to_bytes (to_public_key pk)], [])
       | None => Err (MissingSig (to_public_key pk))
       end.

Definition wsh_get_satisfaction (mall : bool) (self : Wsh) : Spent :=
  r ← match self with
      | WshSortedMulti smv => smv_satisfy Segwitv0 smv
      | WshMs ms => ms_satisfy mall Segwitv0 ms
      end;
  Some (witness ← r; Ok (witness ++ [wsh_inner_script self], [])).

(** A redeem script after its satisfaction, in the scriptSig. *)
Definition redeem_satisfaction (r : option (result DescriptorError (list bytes))) (script : bytes) : Spent :=
  r ← r;
  match r with
  | Err e => Some (Err e)
  | Ok witness => script_sig ← witness_to_scriptsig (witness ++ [script]); Some (Ok ([], script_sig))
  end.

Definition sh_get_satisfaction (mall : bool) (self : Descriptor.Sh) : Spent :=
  script_sig ← sh_unsigned_script_sig self;
  match self with
  | ShWsh wsh => r ← wsh_get_satisfaction mall wsh; Some ('(witness, _) ← r; Ok (witness, script_sig))
  | ShWpkh pk => r ← wpkh_get_satisfaction pk; Some ('(witness, _) ← r; Ok (witness, script_sig))
  | ShSortedMulti smv => redeem_satisfaction (smv_satisfy Legacy smv) (smv_encode Legacy smv)
  | ShMs ms => redeem_satisfaction (ms_satisfy mall Legacy ms) (ms_script Legacy ms)
  end.

Definition tr_get_satisfaction (mall : bool) (self : Tr) : Spent :=
  template ← best_tap_spend self mall;
  satisfaction ← try_completing template;
  Some match stack satisfaction with
       | Witness.Stack stack => Ok (stack, [])
       | Witness.Unavailable | Witness.Impossible => Err (Invalid CouldNotSatisfy)
       end.

Definition spend_with (mall : bool) (self : Descriptor) : Spent :=
  match self with
  | Desc_Bare ms => bare_get_satisfaction mall ms
  | Desc_Pkh pk => pkh_get_satisfaction pk
  | Desc_Wpkh pk => wpkh_get_satisfaction pk
  | Desc_Wsh wsh => wsh_get_satisfaction mall wsh
  | Desc_Sh sh => sh_get_satisfaction mall sh
  | Desc_Tr tr => tr_get_satisfaction mall tr
  end.

Definition get_satisfaction (self : Descriptor) : Spent := spend_with false self.
Definition get_satisfaction_mall (self : Descriptor) : Spent := spend_with true self.

(** The fields of a [TxIn] that [satisfy] writes; on an error it writes none. *)
Record TxIn : Type := mkTxIn {
  txin_witness : list bytes;
  txin_script_sig : bytes;
}.

Definition desc_satisfy (self : Descriptor) (txin : TxIn) : option (result DescriptorError () * TxIn) :=
  r ← get_satisfaction self;
  Some match r with
       | Ok (witness, script_sig) => (Ok tt, mkTxIn witness script_sig)
       | Err e => (Err e, txin)
       end.

(** [Plan::satisfy] *)
Definition plan_satisfy (self : Plan) : Spent :=
  match mapM satisfy_self (plan_template self) with
  | None => Some (Err (Invalid CouldNotSatisfy))
  | Some stack =>
      match desc_type (plan_descriptor self) with
      | Ty_Bare | Ty_Sh | Ty_Pkh | Ty_ShSortedMulti =>
          Some (Ok ([], into_script (fold_left push_slice stack Builder_new)))
      | Ty_Wpkh | Ty_Wsh | Ty_WshSortedMulti | Ty_Tr => Some (Ok (stack, []))
      | Ty_ShWsh | Ty_ShWshSortedMulti | Ty_ShWpkh =>
          script_sig ← desc_unsigned_script_sig (plan_descriptor self); Some (Ok (stack, script_sig))
      end
  end.
End Satisfactions.
