(* ===== verification/PlanTotal.v ===== *)
(** Planning and satisfying return: the templates of well-typed Miniscripts without raw key
    hashes exist, can be completed, and name relative lock times that a plan can hold, so
    neither [plan] nor [get_satisfaction] panics on the outputs of the descriptors built from
    them. *)
From S2P Require Import Prelude Bitcoin Primitives Script Ord Correctness Malleability Types ExtData Tree Ast Context AstProps Encode Satisfy WitSpec Shape SatTotal.
From S2P Require Import Decode.
From S2P Require Import TapTree.
From S2P Require Import SpendInfo.
From S2P Require Import Outputs.
From S2P Require Import Descriptor.
From S2P Require Import DescriptorSpend.

(** * The relative lock times of templates *)

Section Locks.
Context {B : Bitcoin} {Sp : Spending} {K : MiniscriptKey}.
Abbreviation Sat := (Satisfaction Placeholder).

(** The conversion of the lock time in a plan succeeds. *)
Definition convertible (sat : Sat) : Prop :=
  forall t, relative_timelock sat = Some t -> is_Some (rel_to_relative t).

Lemma convertible_none w s a : convertible (mkSatisfaction w s a None).
Proof. by intros t [=]. Qed.

Lemma convertible_same (x : Sat) w s a : convertible x -> convertible (mkSatisfaction w s a (relative_timelock x)).
Proof. exact id. Qed.

Lemma convertible_concatenate a b : convertible a -> convertible b -> convertible (concatenate_rev a b).
Proof.
  unfold convertible, concatenate_rev, option_max. cbn.
  destruct (relative_timelock a), (relative_timelock b); try case_match; eauto.
Qed.

Lemma convertible_flatten l : Forall convertible l -> convertible (flatten l).
Proof.
  unfold flatten. assert (convertible empty_satisfaction) as H by apply convertible_none.
  revert H. generalize empty_satisfaction as acc. induction l as [|s l IH]; intros acc Ha Hf; [done|].
  apply Forall_cons_1 in Hf as [Hs Hf]. simpl. apply IH; [by apply convertible_concatenate | done].
Qed.

Lemma swap_all_Forall (P : Sat -> Prop) idxs ret sats ret' sats' :
  swap_all idxs (ret, sats) = Some (ret', sats') -> Forall P ret -> Forall P sats -> Forall P ret'.
Proof.
  revert ret sats. induction idxs as [|i idxs IH]; intros ret sats; cbn [swap_all]; [by intros [= -> ->]|].
  intros H Hr Hs. destruct (swap_at i (ret, sats)) as [[r s]|] eqn:E; [|done].
  apply swap_at_Some in E as (x & y & Hx & Hy & -> & ->). apply (IH _ _ H).
  - apply list.Forall_insert; [done|]. rewrite Forall_lookup in Hs. by eapply Hs.
  - apply list.Forall_insert; [done|]. rewrite Forall_lookup in Hr. by eapply Hr.
Qed.

(** A mode of the satisfier: the lock times of what it picks are those of the alternatives. *)
Class Converts (min_fn : Sat -> Sat -> Sat) (thresh_fn : nat -> list Sat -> list Sat -> option Sat) : Prop := {
  converts_min : forall a b, convertible a -> convertible b -> convertible (min_fn a b);
  converts_thresh : forall k sats dissats r, Forall convertible sats -> Forall convertible dissats ->
    thresh_fn k sats dissats = Some r -> convertible r;
}.

Lemma minimum_mall_convertible a b : convertible a -> convertible b -> convertible (minimum_mall a b).
Proof.
  unfold convertible, minimum_mall. intros Ha Hb t.
  destruct (stack a), (stack b); try destruct (witness_lt _ _); cbn; eauto.
Qed.

#[export] Instance minimum_converts : Converts minimum thresh.
Proof.
  constructor.
  - unfold convertible, minimum. intros a b Ha Hb t.
    destruct (stack a), (stack b); try destruct (has_sig a), (has_sig b); try destruct (witness_lt _ _); cbn; eauto; done.
  - intros k sats dissats r Hs Hd. unfold thresh.
    destruct (swap_all _ _) as [[ret' sats']|] eqn:E; [|done]. cbn [mbind option_bind].
    destruct (_ !! (k - 1)) as [i|]; [|done]. cbn [mbind option_bind].
    destruct (sats' !! i) as [last|]; [|done]. cbn [mbind option_bind].
    destruct (bool_decide _); [intros [= <-]; apply convertible_none|].
    destruct (_ !! k) as [j|]; [|done]. cbn [mbind option_bind].
    destruct (sats' !! j) as [next|]; [|done]. cbn [mbind option_bind].
    destruct (negb _ && negb _).
    { destruct (existsb has_sig ret'); [done|]. intros [= <-]. apply convertible_none. }
    intros [= <-]. apply convertible_flatten. by eapply swap_all_Forall.
Qed.

#[export] Instance minimum_mall_converts : Converts minimum_mall thresh_mall.
Proof.
  constructor; [exact minimum_mall_convertible|].
  intros k sats dissats r Hs Hd. unfold thresh_mall.
  destruct (swap_all _ _) as [[ret' sats']|] eqn:E; [|done]. cbn [mbind option_bind].
  intros [= <-]. apply convertible_flatten. by eapply swap_all_Forall.
Qed.

Section Helpers.
Context {P : AssetProvider} (ctx : ScriptContext) (root_has_sig : bool) (leaf_hash : TapLeafHash).
Context min_fn thresh_fn {Conv : Converts min_fn thresh_fn}.

Abbreviation sat := (satisfy_helper ctx root_has_sig leaf_hash min_fn thresh_fn).
Abbreviation dissat := (dissatisfy_helper ctx root_has_sig leaf_hash min_fn thresh_fn).

Definition converts (ms : Miniscript) : Prop :=
  (forall s, sat ms = Some s -> convertible s) /\ (forall s, dissat ms = Some s -> convertible s).

Lemma mapM_Forall {A C} (f : A -> option C) (Q : C -> Prop) l l' :
  mapM f l = Some l' -> Forall (fun a => forall c, f a = Some c -> Q c) l -> Forall Q l'.
Proof.
  intros H%mapM_Some. induction H as [|a c l l' Hc _ IH]; intros Hf; [constructor|].
  apply Forall_cons_1 in Hf as [Ha Hf]. constructor; auto.
Qed.

Lemma thresh_converts k inner t e :
  Forall converts inner -> converts (mkMiniscript (Terminal.Thresh (mkThreshold k inner)) t e).
Proof.
  intros H.
  assert (forall l, mapM sat inner = Some l -> Forall convertible l) as Hs.
  { intros l Hl. eapply mapM_Forall; [exact Hl|]. eapply List.Forall_impl; [|exact H]. by intros m [? _]. }
  assert (forall l, mapM dissat inner = Some l -> Forall convertible l) as Hd.
  { intros l Hl. eapply mapM_Forall; [exact Hl|]. eapply List.Forall_impl; [|exact H]. by intros m [_ ?]. }
  split.
  - intros s. change (sat _) with (if k =? length inner then sats ← mapM sat inner; Some (flatten sats)
                     else sats ← mapM sat inner; ret_stack ← mapM dissat inner; thresh_fn k sats ret_stack).
    destruct (mapM sat inner) as [ss|]; [|by destruct (_ =? _)].
    destruct (_ =? _); cbn [mbind option_bind].
    + intros [= <-]. apply convertible_flatten. by apply Hs.
    + destruct (mapM dissat inner) as [ds|]; [|done]. cbn [mbind option_bind].
      apply converts_thresh; [by apply Hs | by apply Hd].
  - intros s. change (dissat _) with (nsats ← mapM dissat inner; Some (flatten nsats)).
    destruct (mapM dissat inner) as [ds|]; [|done]. cbn [mbind option_bind]. intros [= <-].
    apply convertible_flatten. by apply Hd.
Qed.

Lemma multi_converts thresh s : satisfy_multi ctx leaf_hash thresh = Some s -> convertible s.
Proof.
  unfold satisfy_multi. destruct (multi_sigs _ _ _) as [l|]; [|done]. cbn [mbind option_bind].
  destruct (_ <? _); [intros [= <-]; apply convertible_none|].
  destruct (throw_away _ _); [|done]. intros [= <-]. apply convertible_none.
Qed.

Lemma multi_a_converts thresh s : satisfy_multi_a ctx leaf_hash thresh = Some s -> convertible s.
Proof.
  unfold satisfy_multi_a. destruct (multi_a_sigs _ _ _ _ _ _ _) as [[n l]|]; [|done]. cbn [mbind option_bind].
  destruct (_ <? _); intros [= <-]; apply convertible_none.
Qed.

Ltac refold :=
  fold (satisfy_helper ctx root_has_sig leaf_hash min_fn thresh_fn);
  fold (dissatisfy_helper ctx root_has_sig leaf_hash min_fn thresh_fn).

(** Opens the results of the calls on the children. *)
Ltac open_calls :=
  repeat match goal with
  | |- context [sat ?m ≫= _] => destruct (sat m) as [?|] eqn:?; cbn [mbind option_bind]
  | |- context [dissat ?m ≫= _] => destruct (dissat m) as [?|] eqn:?; cbn [mbind option_bind]
  | |- context [assert_no_sig ?s ≫= _] => destruct (assert_no_sig s); cbn [mbind option_bind]
  | |- context [pk_len ctx ?p ≫= _] => destruct (pk_len ctx p); cbn [mbind option_bind]
  | |- context [pkh_signature ?c ?l ?h ≫= _] => destruct (pkh_signature c l h); cbn [mbind option_bind]
  | |- context [pkh_public_key ?c ?h ≫= _] => destruct (pkh_public_key c h); cbn [mbind option_bind]
  end.

Lemma all_convert ms : converts ms.
Proof.
  induction ms as [ms IH] using tree_ind. destruct ms as [nd t e]. rewrite children_node in IH. cbn [node] in IH.
  destruct nd; cbn in IH; try (apply thresh_converts; by destruct thresh).
  all: try (by destruct thresh; apply thresh_converts).
  all: forall_children IH; unfold converts in *; destruct_and?.
  all: split; intros s; cbn [satisfy_helper dissatisfy_helper]; refold; open_calls; try done.
  all: try (intros H; by eauto using multi_converts, multi_a_converts).
  all: try (intros [= <-]).
  all: try solve [apply convertible_none | repeat first [apply converts_min | apply convertible_concatenate
                | apply minimum_mall_convertible | apply convertible_none | apply convertible_same]; eauto].
  - destruct (provider_check_after _); intros [= <-]; apply convertible_none.
  - destruct (rel_to_relative t0) as [t'|] eqn:E; [|done]. cbn [mbind option_bind].
    destruct (provider_check_older t'); intros [= <-]; [intros ? [= <-]; by eexists | apply convertible_none].
Qed.
End Helpers.
End Locks.

(** * Templates of descriptors *)

Section Templates.
Context {B : Bitcoin} {Sp : Spending} {Ta : Taproot} {Sc : Scripts} {Ou : Outputs}.
Context {L : LockTimeLaws B} {TL : TaprootLaws Ta}.
Context {K : MiniscriptKey} {TP : ToPublicKey K} {S : Satisfier}.

(** What is asked of the parts of a descriptor. *)
Definition ms_ready (ctx : ScriptContext) (ms : Miniscript) : Prop := wf ctx ms /\ contains_raw_pkh ms = false.

Definition wsh_ready (wsh : Wsh) : Prop :=
  match wsh with
  | WshSortedMulti smv =>
      Threshold.valid MAX_PUBKEYS_PER_MULTISIG (smv_inner smv) /\ smv_constructor_check Segwitv0 smv = Ok smv
  | WshMs ms => ms_ready Segwitv0 ms
  end.

Definition tree_ready (t : TapTree) : Prop :=
  (exists b, t = from_bintree b /\ bin_levels b <= TAPROOT_CONTROL_MAX_NODE_COUNT)
  /\ Forall (fun '(_, ms) => ms_ready Tap ms) (taptree_leaves t).

(** Segwit and taproot descriptors as their constructors give them, without raw key hashes. *)
Definition desc_ready (d : Descriptor) : Prop :=
  match d with
  | Desc_Wpkh pk | Desc_Sh (ShWpkh pk) => PublicKey_compressed (to_public_key pk) = true
  | Desc_Wsh wsh | Desc_Sh (ShWsh wsh) => wsh_ready wsh
  | Desc_Tr tr => option_Forall tree_ready (tree tr)
  | _ => False
  end.

(** A template that can be completed and put into a plan. *)
Definition good (sat : Satisfaction Placeholder) : Prop := is_Some (try_completing sat) /\ convertible sat.

Lemma template_good mall ctx ms :
  ms_ready ctx ms -> ctx <> NoChecks -> exists sat, template mall ctx ms = Some sat /\ good sat.
Proof.
  intros [Hwf Hr] Hctx. unfold template, ms_build_template_mall, ms_build_template.
  set (root := m_safe (Types.mall (ty ms))). set (lh := leaf_hash_internal ctx ms).
  assert (forall sat, build_template ctx ms root lh = Some sat \/ build_template_mall ctx ms root lh = Some sat ->
    is_Some (try_completing sat)) as Hc.
  { intros sat Hb. apply completes_template. intros w Hw.
    by apply (proj1 (completable_all ctx _) true ms w (refined _ _ _ _ _ _ Hwf Hb Hw)). }
  destruct mall.
  - destruct (total_all ctx root lh minimum_mall thresh_mall Hctx ms Hwf Hr) as ([sat H] & _).
    exists sat. split; [exact H|]. split; [apply Hc; by right|]. by apply (proj1 (all_convert ctx root lh minimum_mall thresh_mall ms)).
  - destruct (total_all ctx root lh minimum thresh Hctx ms Hwf Hr) as ([sat H] & _).
    exists sat. split; [exact H|]. split; [apply Hc; by left|]. by apply (proj1 (all_convert ctx root lh minimum thresh ms)).
Qed.

Lemma key_good pk : exists sat, key_plan_satisfaction Segwitv0 pk = Some sat /\ good sat.
Proof.
  eexists. split; [done|]. split; [|apply convertible_none]. unfold try_completing. cbn [stack].
  cbn. destruct (lookup_ecdsa_sig pk) as [s|] eqn:E; [|by eexists]. cbn. rewrite E. by eexists.
Qed.

(** ** Sorted multisignatures typecheck. *)

Lemma check_pks_iff ctx pks : check_pks ctx pks = Ok tt <-> Forall (fun pk => check_pk ctx pk = Ok tt) pks.
Proof.
  split; [apply check_pks_Forall|]. induction 1 as [|pk pks H _ IH]; [done|]. cbn [check_pks]. by rewrite H.
Qed.

Lemma threshold_valid_perm {A} max k (l l' : list A) :
  Permutation l l' -> Threshold.valid max (mkThreshold k l') -> Threshold.valid max (mkThreshold k l).
Proof. intros H%Permutation_length. unfold Threshold.valid, Threshold.n. cbn [Threshold.k Threshold.inner]. by rewrite H. Qed.

Lemma sorted_keys_ready smv :
  Threshold.valid MAX_PUBKEYS_PER_MULTISIG (smv_inner smv) -> smv_constructor_check Segwitv0 smv = Ok smv ->
  exists ms, smv_miniscript Segwitv0 (sorted_keys smv) = Some ms /\ ms_ready Segwitv0 ms.
Proof.
  intros Hv Hc. destruct smv as [[k pks]]. unfold sorted_keys. cbn [smv_inner Threshold.k Threshold.data Threshold.inner] in *.
  pose proof (sort_by_key_perm key_leb (fun pk => pk) pks) as Hp. set (sorted := sort_by_key _ _ pks) in *.
  unfold smv_constructor_check in Hc. cbn [smv_inner] in Hc. apply bind_Ok_inv in Hc as ([] & Hc%map_err_Ok_inv & _).
  unfold check_local_validity in Hc. apply bind_Ok_inv in Hc as ([] & Hg & Hc). apply bind_Ok_inv in Hc as ([] & Hpol & _).
  assert (Ext.multi (mkThreshold k sorted) = Ext.multi (mkThreshold k pks)) as He.
  { unfold Ext.multi. cbn [Threshold.k Threshold.data Threshold.inner]. rewrite (sum_by_perm _ _ _ Hp).
    assert (Threshold.n (mkThreshold k sorted) = Threshold.n (mkThreshold k pks)) as -> by (by apply Permutation_length). done. }
  assert (check_global_validity Segwitv0 (ms_multi (mkThreshold k sorted)) = Ok tt) as Hglob.
  { unfold check_global_validity, check_global_consensus_validity, check_global_policy_validity, ms_multi in *.
    rewrite He. cbn [node ext node_checked Threshold.data Threshold.inner] in *. apply bind_Ok_inv in Hg as ([] & Hk & Hg).
    assert (check_pks Segwitv0 sorted = Ok tt) as -> by (apply check_pks_iff; rewrite Hp; by apply check_pks_iff).
    cbn [mbind result_bind]. rewrite Hg. exact Hpol. }
  assert (wf Segwitv0 (ms_multi (mkThreshold k sorted))) as Hwf.
  { constructor; [constructor | | done | done]. exact (threshold_valid_perm _ k sorted pks Hp Hv). }
  exists (ms_multi (mkThreshold k sorted)). split; [|by split].
  assert (from_ast Segwitv0 (Terminal.Multi (mkThreshold k sorted)) = Ok (ms_multi (mkThreshold k sorted))) as H.
  { apply (from_ast_node Segwitv0 (ms_multi (mkThreshold k sorted)) Hwf); [cbn; lia | exact Hglob]. }
  unfold smv_miniscript. by rewrite H.
Qed.

Lemma wsh_good mall wsh : wsh_ready wsh -> exists sat, wsh_plan_satisfaction mall wsh = Some sat /\ good sat.
Proof.
  destruct wsh as [smv|ms]; cbn [wsh_ready wsh_plan_satisfaction]; [|intros H; by apply template_good].
  intros [Hv Hc]. destruct (sorted_keys_ready smv Hv Hc) as (ms & Hms & Hr).
  unfold smv_build_template. rewrite Hms. by apply (template_good false).
Qed.

(** ** Taproot *)

(** A template with the script and the control block of its leaf. *)
Lemma leaf_good sat w script block :
  good sat -> stack sat = Witness.Stack w ->
  good (mkSatisfaction (Witness.Stack (w ++ [Placeholder.TapScript script; Placeholder.TapControlBlock block]))
          (has_sig sat) (absolute_timelock sat) (relative_timelock sat)).
Proof.
  intros [Hc Hr] Hw. split; [|exact Hr]. apply completes_template. cbn [stack]. intros w' [= <-].
  apply completable_app; [|by repeat constructor]. unfold try_completing in Hc. rewrite Hw in Hc.
  destruct (mapM satisfy_self w) as [v|] eqn:E; [|by destruct Hc]. apply mapM_Some in E. clear Hc Hw Hr. unfold completable.
  induction E as [|p v' w v Hp _ IH]; [constructor|]. constructor; [by eexists | exact IH].
Qed.

Lemma tap_leaf_turn_good mall min leaf :
  good min.1 -> ms_ready Tap (item_miniscript leaf) ->
  exists min', tap_leaf_turn mall min leaf = Some min' /\ good min'.1.
Proof.
  intros Hmin Hr. unfold tap_leaf_turn. destruct (template_good mall Tap _ Hr) as (sat & -> & Hs); [done|].
  cbn [mbind option_bind]. destruct (stack sat) as [w| |] eqn:E; [|by exists min..].
  pose proof (leaf_good sat w (item_script leaf) (control_block leaf) Hs E) as Hg.
  destruct min.2 as [size|]; [|by eexists]. destruct (_ <? _); by eexists.
Qed.

Lemma tap_leaves_loop_good mall leaves : forall min,
  good min.1 -> Forall (fun leaf => ms_ready Tap (item_miniscript leaf)) leaves ->
  exists sat, tap_leaves_loop mall min leaves = Some sat /\ good sat.
Proof.
  induction leaves as [|leaf leaves IH]; intros min Hmin H; [by exists min.1|]. apply Forall_cons_1 in H as [Hl H].
  destruct (tap_leaf_turn_good mall min leaf Hmin Hl) as (min' & E & Hg). cbn [tap_leaves_loop]. rewrite E. by apply IH.
Qed.

Lemma leaves_ready tr :
  option_Forall tree_ready (tree tr) ->
  exists info leaves, from_tr tr = Some info /\ spend_items info = Some leaves
    /\ Forall (fun leaf => ms_ready Tap (item_miniscript leaf)) leaves.
Proof.
  destruct (tree tr) as [t|] eqn:Et; intros Hr.
  - inversion Hr as [|? [(b & -> & Hb) Hl]]; subst.
    destruct (spend_info_right tr b Et Hb) as (info & items & Hinfo & _ & _ & Hitems & Hm & _).
    exists info, items. split_and!; [done | done |]. rewrite <- Hm in Hl. apply List.Forall_map in Hl. exact Hl.
  - unfold from_tr. rewrite Et. cbn [mbind option_bind]. destruct (tap_tweak _ _) as [key parity].
    eexists _, []. split_and!; [done | reflexivity | constructor].
Qed.

Lemma tr_good mall tr : option_Forall tree_ready (tree tr) -> exists sat, best_tap_spend tr mall = Some sat /\ good sat.
Proof.
  intros (info & leaves & Hi & Hl & Hr)%leaves_ready. unfold best_tap_spend. rewrite Hi. cbn [mbind option_bind].
  destruct (provider_lookup_tap_key_spend_sig (internal_key tr)) as [size|] eqn:E.
  - eexists. split; [done|]. split; [|apply convertible_none]. apply completes_template. intros w [= <-].
    apply completable_one. cbn in *. by destruct (lookup_tap_key_spend_sig (internal_key tr)).
  - rewrite Hl. cbn [mbind option_bind]. apply tap_leaves_loop_good; [|exact Hr]. split; [by eexists | apply convertible_none].
Qed.

Lemma desc_plan_good mall d :
  desc_ready d -> exists sat, desc_plan_satisfaction mall d = Some sat /\ good sat.
Proof.
  destruct d as [ms|pk|pk|[wsh|pk|smv|ms]|wsh|tr]; intros H; try done; cbn [desc_ready desc_plan_satisfaction sh_plan_satisfaction] in *.
  - apply key_good.
  - by apply wsh_good.
  - apply key_good.
  - by apply wsh_good.
  - by apply tr_good.
Qed.
End Templates.
