(* ===== verification/SpendProps.v ===== *)
(** Properties of the satisfactions of descriptors: the keys of a sorted multisignature, the
    cheapest spend of a taproot output, and plans against direct satisfactions. *)
From stdpp Require Import sorting.
From S2P Require Import Prelude Bitcoin Primitives Reference Script Ord Correctness Malleability Types ExtData Tree Ast Context Samples Encode Satisfy.
From S2P Require Import Decode.
From S2P Require Import Compare.
From S2P Require Import PolicyRewrite.
From S2P Require Import TapTree.
From S2P Require Import SpendInfo.
From S2P Require Import Outputs.
From S2P Require Import Descriptor.
From S2P Require Import DescriptorSpend.
From S2P Require Import PlanTotal.

(** * Sorted keys *)

Section Sorted.
Context {B : Bitcoin} {Sp : Spending} {Ta : Taproot} {Sc : Scripts} {Ou : Outputs}.
Context {K : MiniscriptKey} {TP : ToPublicKey K}.

Definition serialized (pk : Pk) : bytes := PublicKey_inner_serialize (to_public_key pk).

Definition key_order (a b : Pk) : Prop := key_leb a b = true.

Lemma key_order_spec a b : key_order a b <-> serialized a = serialized b \/ bytes_cmp (serialized a) (serialized b) = Lt.
Proof.
  unfold key_order, key_leb. fold (serialized a) (serialized b). rewrite <- (cmp_eq (cmp := bytes_cmp)).
  destruct (bytes_cmp (serialized a) (serialized b)); intuition congruence.
Qed.

Lemma key_order_total a b : key_order a b \/ key_order b a.
Proof.
  rewrite !key_order_spec, (cmp_opp (cmp := bytes_cmp) (serialized a) (serialized b)).
  destruct (bytes_cmp (serialized a) (serialized b)) eqn:E; simpl; auto.
  apply (cmp_eq (cmp := bytes_cmp)) in E. auto.
Qed.

Lemma key_order_trans a b c : key_order a b -> key_order b c -> key_order a c.
Proof.
  rewrite !key_order_spec. intros [-> | H1] [H2 | H2]; auto; [rewrite <- H2; auto |].
  right. by eapply (cmp_trans (cmp := bytes_cmp)).
Qed.

Lemma key_order_antisym a b : key_order a b -> key_order b a -> serialized a = serialized b.
Proof.
  rewrite !key_order_spec, (cmp_opp (cmp := bytes_cmp) (serialized a) (serialized b)).
  intros [H|H] [H'|H']; try done. by rewrite H in H'.
Qed.

Definition in_order (l : list Pk) : list Pk := sort_by_key key_leb (fun pk => pk) l.

Lemma in_order_sorted l : StronglySorted key_order (in_order l).
Proof.
  apply Sorted.Sorted_StronglySorted; [intros x y z; apply key_order_trans|].
  apply (sort_by_key_sorted key_leb (fun pk => pk)). intros x y. apply key_order_total.
Qed.

(** ** The sort is stable: keys with the same point stay in the order in which they were. *)

(** The keys with the serialisation [p], in their order. *)
Definition at_point (p : bytes) (l : list Pk) : list Pk := filter (fun pk => serialized pk = p) l.

Lemma at_point_cons p a l : at_point p (a :: l) = if decide (serialized a = p) then a :: at_point p l else at_point p l.
Proof. unfold at_point. by rewrite filter_cons. Qed.

Lemma at_point_insert p a l : at_point p (insert_by_key key_leb (fun pk => pk) a l) = at_point p (a :: l).
Proof.
  induction l as [|b l IH]; [done|]. cbn [insert_by_key]. destruct (key_leb a b) eqn:E; [done|].
  rewrite at_point_cons, IH, !at_point_cons. repeat case_decide; try done.
  assert (key_order a b) as Ho by (apply key_order_spec; left; congruence). unfold key_order in Ho. congruence.
Qed.

Lemma in_order_stable p l : at_point p (in_order l) = at_point p l.
Proof.
  induction l as [|a l IH]; [done|]. unfold in_order in *. cbn [sort_by_key]. rewrite at_point_insert, !at_point_cons.
  by rewrite IH.
Qed.

(** The first point of a sorted list is the least, so the keys with it come first. *)
Lemma sorted_points_unique l l' :
  StronglySorted key_order l -> StronglySorted key_order l' ->
  (forall p, at_point p l = at_point p l') -> l = l'.
Proof.
  revert l'. induction l as [|a l IH]; intros [|b l'] Hl Hl' H; [done | | |].
  - specialize (H (serialized b)). rewrite (at_point_cons _ b), decide_True in H by done. done.
  - specialize (H (serialized a)). rewrite (at_point_cons _ a), decide_True in H by done. done.
  - apply StronglySorted_cons in Hl as [Ha Hl]. apply StronglySorted_cons in Hl' as [Hb Hl'].
    assert (forall x m, Forall (key_order x) m -> forall y, at_point (serialized y) m <> [] -> key_order x y) as Hleast.
    { intros x m Hm y Hy. destruct (at_point (serialized y) m) as [|z zs] eqn:E; [done|].
      assert (z ∈ at_point (serialized y) m) as Hz by (rewrite E; by left).
      apply list_elem_of_filter in Hz as [Hz Hin]. rewrite Forall_forall in Hm. apply list_elem_of_In, Hm in Hin.
      apply key_order_spec. apply key_order_spec in Hin. by rewrite <- Hz. }
    assert (serialized a = serialized b) as Hab.
    { destruct (decide (serialized a = serialized b)) as [|Hn]; [done|].
      pose proof (H (serialized a)) as H1. pose proof (H (serialized b)) as H2.
      rewrite !at_point_cons in H1, H2. rewrite decide_True, decide_False in H1 by congruence.
      rewrite decide_False, decide_True in H2 by congruence.
      apply key_order_antisym; [eapply Hleast; [exact Ha | by rewrite H2] | eapply Hleast; [exact Hb | by rewrite <- H1]]. }
    assert (a = b) as <-.
    { specialize (H (serialized a)). rewrite !at_point_cons, !decide_True in H by congruence. by injection H. }
    f_equal. apply IH; [done | done |]. intros p. specialize (H p). rewrite !at_point_cons in H.
    destruct (decide _); [by injection H | done].
Qed.

Lemma in_order_eq l l' : in_order l = in_order l' <-> forall p, at_point p l = at_point p l'.
Proof.
  split; intros H.
  - intros p. by rewrite <- (in_order_stable p l), H, in_order_stable.
  - apply sorted_points_unique; [apply in_order_sorted .. |]. intros p. by rewrite !in_order_stable.
Qed.

(** With one key for every point, only the set of keys counts. *)
Lemma at_points_permuted l l' :
  Permutation l l' -> (forall a b, a ∈ l -> b ∈ l -> serialized a = serialized b -> a = b) -> NoDup l ->
  forall p, at_point p l = at_point p l'.
Proof.
  intros Hp Hinj Hnd p. assert (Permutation (at_point p l) (at_point p l')) as H by (unfold at_point; by rewrite Hp).
  assert (length (at_point p l) <= 1) as Hlen.
  { assert (NoDup (at_point p l)) as Hf by (by apply list.NoDup_filter).
    destruct (at_point p l) as [|a [|b m]] eqn:E; [simpl; lia..|]. exfalso.
    assert (forall x, x ∈ a :: b :: m -> serialized x = p /\ x ∈ l) as Hin
      by (intros x Hx; rewrite <- E in Hx; by apply list_elem_of_filter in Hx).
    destruct (Hin a) as [Ha Hal]; [by left|]. destruct (Hin b) as [Hb Hbl]; [right; by left|].
    assert (a = b) as -> by (apply Hinj; congruence). inversion Hf; subst. match goal with H : _ ∉ _ |- _ => apply H end. by left. }
  destruct (at_point p l) as [|a [|b m]]; [| | simpl in Hlen; lia].
  - by apply Permutation_nil in H.
  - by apply Permutation_length_1_inv in H.
Qed.

(** C16: A sorted multisignature lists the keys that it is given in the order of their
    serialisations, and those with the same point, which are one key in its compressed and its
    uncompressed form or a key that is repeated, in the order in which they were given. So two
    lists of keys give the same Miniscript if and only if they have the same keys in the same
    order at every point, and then the same script; in particular the order of the keys does
    not matter when no two of them have the same point. *)
Theorem sorted_keys_spec (thresh : Threshold Pk) :
  let smv := mkSortedMultiVec thresh in
  Permutation (Threshold.data (sorted_keys smv)) (Threshold.data thresh)
  /\ StronglySorted key_order (Threshold.data (sorted_keys smv))
  /\ (forall p, at_point p (Threshold.data (sorted_keys smv)) = at_point p (Threshold.data thresh))
  /\ forall thresh', Threshold.k thresh = Threshold.k thresh' ->
       let smv' := mkSortedMultiVec thresh' in
       (sorted_keys smv = sorted_keys smv'
        <-> forall p, at_point p (Threshold.data thresh) = at_point p (Threshold.data thresh'))
       /\ ((forall p, at_point p (Threshold.data thresh) = at_point p (Threshold.data thresh')) ->
           forall ctx, smv_encode ctx smv = smv_encode ctx smv')
       /\ (NoDup (map serialized (Threshold.data thresh)) ->
           Permutation (Threshold.data thresh) (Threshold.data thresh') -> sorted_keys smv = sorted_keys smv').
Proof.
  intros smv. assert (forall thresh', Threshold.k thresh = Threshold.k thresh' ->
    (forall p, at_point p (Threshold.data thresh) = at_point p (Threshold.data thresh')) ->
    sorted_keys smv = sorted_keys (mkSortedMultiVec thresh')) as Heq.
  { intros thresh' Hk H. unfold sorted_keys. cbn. f_equal; [done|]. by apply in_order_eq. }
  split_and!; [apply sort_by_key_perm | apply in_order_sorted | intros p; apply in_order_stable |].
  intros thresh' Hk smv'. split_and!.
  - split; [|by apply Heq]. unfold sorted_keys. cbn. intros [= _ H]. by apply in_order_eq.
  - intros H ctx. unfold smv_encode. by rewrite (Heq thresh' Hk H).
  - intros Hnd Hp. apply (Heq thresh' Hk), at_points_permuted; [done | | by eapply list.NoDup_fmap_1].
    intros a b Ha Hb Hab. apply list_elem_of_lookup in Ha as [i Hi]. apply list_elem_of_lookup in Hb as [j Hj].
    assert (i = j) as ->; [|congruence]. apply (NoDup_lookup _ _ _ (serialized a) Hnd).
    + by rewrite list_lookup_fmap, Hi.
    + by rewrite list_lookup_fmap, Hj, Hab.
Qed.
End Sorted.

(** * The cheapest taproot spend *)

Section Cheapest.
Context {B : Bitcoin} {Sp : Spending} {Ta : Taproot} {Sc : Scripts} {Ou : Outputs}.
Context {K : MiniscriptKey} {TP : ToPublicKey K} {P : AssetProvider}.
Context (mall : bool).

(** The witness of a leaf: its template, its script and its control block. *)
Definition leaf_spend (leaf : TrSpendInfoIterItem) (wit : list Placeholder) : Prop :=
  exists sat w, template mall Tap (item_miniscript leaf) = Some sat /\ stack sat = Witness.Stack w
    /\ wit = w ++ [Placeholder.TapScript (item_script leaf); Placeholder.TapControlBlock (control_block leaf)].

(** The state of the loop after the leaves [seen]. *)
Definition cheapest (seen : list TrSpendInfoIterItem) (min : Satisfaction Placeholder * option nat) : Prop :=
  match min.2 with
  | None => stack min.1 = Witness.Unavailable /\ forall leaf wit, leaf ∈ seen -> ~ leaf_spend leaf wit
  | Some size =>
      exists wit, stack min.1 = Witness.Stack wit /\ size = witness_size wit
        /\ (exists leaf, leaf ∈ seen /\ leaf_spend leaf wit)
        /\ forall leaf wit', leaf ∈ seen -> leaf_spend leaf wit' -> size <= witness_size wit'
  end.

Lemma leaf_spend_unique leaf wit wit' : leaf_spend leaf wit -> leaf_spend leaf wit' -> wit = wit'.
Proof.
  intros (s & w & H1 & H2 & ->) (s' & w' & H1' & H2' & ->). assert (s' = s) as -> by congruence.
  assert (w' = w) as -> by congruence. done.
Qed.

Lemma cheapest_skip seen min leaf :
  cheapest seen min -> (forall wit, ~ leaf_spend leaf wit) -> cheapest (seen ++ [leaf]) min.
Proof.
  intros H Hno. unfold cheapest in *. destruct min.2 as [size|].
  - destruct H as (wit & H1 & H2 & (l & Hl & Hs) & H3). exists wit. split; [done|]. split; [done|]. split.
    + exists l. rewrite elem_of_app. auto.
    + intros l' wit' [Hin|Hin%list_elem_of_singleton]%elem_of_app Hw; [by apply (H3 l')|].
      subst. by apply Hno in Hw.
  - destruct H as [H1 H2]. split; [done|].
    intros l' wit' [Hin|Hin%list_elem_of_singleton]%elem_of_app; [by apply H2|]. subst. apply Hno.
Qed.

Lemma cheapest_keep seen sat size leaf wit :
  cheapest seen (sat, Some size) -> leaf_spend leaf wit -> size <= witness_size wit ->
  cheapest (seen ++ [leaf]) (sat, Some size).
Proof.
  intros (w & H1 & H2 & (l & Hl & Hs) & H3) Hw Hle. exists w. split; [done|]. split; [done|]. split.
  - exists l. rewrite elem_of_app. auto.
  - intros l' wit' [Hin|Hin%list_elem_of_singleton]%elem_of_app Hw'; [by apply (H3 l')|]. subst l'.
    by rewrite (leaf_spend_unique _ _ _ Hw' Hw).
Qed.

Lemma cheapest_replace seen min sat leaf wit :
  cheapest seen min -> leaf_spend leaf wit -> stack sat = Witness.Stack wit ->
  (forall size, min.2 = Some size -> witness_size wit <= size) ->
  cheapest (seen ++ [leaf]) (sat, Some (witness_size wit)).
Proof.
  intros H Hw Hs Hle. exists wit. split; [done|]. split; [done|]. split.
  - exists leaf. rewrite elem_of_app. split; [right; by left | done].
  - intros l' wit' [Hin|Hin%list_elem_of_singleton]%elem_of_app Hw'.
    + unfold cheapest in H. destruct min.2 as [size|]; [|by apply H in Hw'].
      destruct H as (w & _ & _ & _ & H3). specialize (H3 _ _ Hin Hw'). specialize (Hle size eq_refl). lia.
    + subst l'. by rewrite (leaf_spend_unique _ _ _ Hw' Hw).
Qed.

Lemma tap_leaf_turn_cheapest seen min leaf min' :
  cheapest seen min -> tap_leaf_turn mall min leaf = Some min' -> cheapest (seen ++ [leaf]) min'.
Proof.
  intros H. unfold tap_leaf_turn.
  destruct (template mall Tap (item_miniscript leaf)) as [sat|] eqn:Et; [|done]. cbn [mbind option_bind].
  destruct (stack sat) as [w| |] eqn:Es.
  - set (wit := w ++ _). assert (leaf_spend leaf wit) as Hw by (by exists sat, w).
    destruct min as [m [size|]]; cbn [snd] in *.
    + destruct (Nat.ltb_spec size (witness_size wit)); intros [= <-].
      * eapply cheapest_keep; [done | done | lia].
      * eapply cheapest_replace; [done | done | done |]. cbn. intros ? [= <-]. lia.
    + intros [= <-]. by eapply cheapest_replace.
  - intros [= <-]. apply cheapest_skip; [done|]. intros wit (s & w & H1 & H2 & _). congruence.
  - intros [= <-]. apply cheapest_skip; [done|]. intros wit (s & w & H1 & H2 & _). congruence.
Qed.

Lemma tap_leaves_loop_cheapest leaves seen min r :
  cheapest seen min -> tap_leaves_loop mall min leaves = Some r ->
  exists size, cheapest (seen ++ leaves) (r, size).
Proof.
  revert seen min. induction leaves as [|leaf leaves IH]; intros seen min H; cbn [tap_leaves_loop].
  - intros [= <-]. exists min.2. rewrite app_nil_r. by destruct min.
  - destruct (tap_leaf_turn mall min leaf) as [min'|] eqn:E; [|done]. cbn [mbind option_bind].
    intros Hr. destruct (IH (seen ++ [leaf]) min') as [size Hs]; [by eapply tap_leaf_turn_cheapest | done |].
    exists size. by rewrite <- app_assoc in Hs.
Qed.

Lemma best_tap_spend_cases (tr : Tr) r :
  best_tap_spend tr mall = Some r ->
  exists info, from_tr tr = Some info
    /\ match provider_lookup_tap_key_spend_sig (internal_key tr) with
       | Some size =>
           stack r = Witness.Stack [Placeholder.SchnorrSigPk (internal_key tr) (KeySpend (merkle_root info)) size]
       | None =>
           exists leaves, spend_items info = Some leaves
             /\ (stack r = Witness.Unavailable /\ (forall leaf wit, leaf ∈ leaves -> ~ leaf_spend leaf wit)
                 \/ exists wit, stack r = Witness.Stack wit
                      /\ (exists leaf, leaf ∈ leaves /\ leaf_spend leaf wit)
                      /\ forall leaf wit', leaf ∈ leaves -> leaf_spend leaf wit' -> witness_size wit <= witness_size wit')
       end.
Proof.
  unfold best_tap_spend. destruct (from_tr tr) as [info|]; [|done]. cbn [mbind option_bind].
  intros H. exists info. split; [done|].
  destruct (provider_lookup_tap_key_spend_sig _) as [size|]; [by injection H as <-|].
  destruct (spend_items info) as [leaves|]; [|done]. cbn [mbind option_bind] in H.
  exists leaves. split; [done|].
  assert (cheapest [] (mkSatisfaction Witness.Unavailable false None None, None)) as H0.
  { split; [done|]. intros leaf wit Hin. by apply not_elem_of_nil in Hin. }
  destruct (tap_leaves_loop_cheapest _ _ _ _ H0 H) as [[size|] Hc]; cbn in Hc.
  - right. destruct Hc as (wit & H1 & -> & H3 & H4). by exists wit.
  - by left.
Qed.

(** C15: The spend that [best_tap_spend] plans for a taproot output is the cheapest: the key path
    when the internal key signs; otherwise the witness of a leaf, its script and control block
    included, no larger than that of any other leaf that can be spent, and none only when no
    leaf can be spent. *)
Theorem best_tap_spend_spec (tr : Tr) r :
  best_tap_spend tr mall = Some r ->
  exists info, from_tr tr = Some info
    /\ match provider_lookup_tap_key_spend_sig (internal_key tr) with
       | Some size =>
           stack r = Witness.Stack [Placeholder.SchnorrSigPk (internal_key tr) (KeySpend (merkle_root info)) size]
       | None =>
           exists leaves, spend_items info = Some leaves
             /\ (stack r = Witness.Unavailable /\ (forall leaf wit, leaf ∈ leaves -> ~ leaf_spend leaf wit)
                 \/ exists wit, stack r = Witness.Stack wit
                      /\ (exists leaf, leaf ∈ leaves /\ leaf_spend leaf wit)
                      /\ forall leaf wit', leaf ∈ leaves -> leaf_spend leaf wit' -> witness_size wit <= witness_size wit')
       end.
Proof. apply best_tap_spend_cases. Qed.
End Cheapest.

(** * Plans *)

Section Plans.
Context {B : Bitcoin} {Sp : Spending} {Ta : Taproot} {Sc : Scripts} {Ou : Outputs}.
Context {K : MiniscriptKey} {TP : ToPublicKey K} {S : Satisfier}.

(** What [Plan::satisfy] leaves out: the witness script. *)
Definition missing_script (d : Descriptor) : list bytes :=
  match d with
  | Desc_Wsh wsh | Desc_Sh (ShWsh wsh) => [wsh_inner_script wsh]
  | _ => []
  end.

(** The witness that a template is completed to, and the error otherwise. *)
Definition completed (t : option (Satisfaction Placeholder)) : option (result DescriptorError (list bytes)) :=
  sat ← t; sat ← try_completing sat;
  Some match stack sat with
       | Witness.Stack w => Ok w
       | Witness.Unavailable | Witness.Impossible => Err (Invalid CouldNotSatisfy)
       end.

Lemma ms_satisfy_completed mall ctx ms : ms_satisfy mall ctx ms = completed (template mall ctx ms).
Proof.
  unfold ms_satisfy, completed, template, satisfy, satisfy_malleable, satisfaction_satisfy,
    satisfaction_satisfy_mall, ms_build_template, ms_build_template_mall.
  destruct mall.
  - destruct (build_template_mall ctx ms _ _) as [sat|]; [|done]. cbn [mbind option_bind].
    destruct (try_completing sat) as [c|]; [|done]. cbn. unfold satisfy_result. by destruct (stack c).
  - destruct (build_template ctx ms _ _) as [sat|]; [|done]. cbn [mbind option_bind].
    destruct (try_completing sat) as [c|]; [|done]. cbn. unfold satisfy_result. by destruct (stack c).
Qed.

Lemma smv_satisfy_completed ctx smv : smv_satisfy ctx smv = completed (smv_build_template ctx smv).
Proof.
  unfold smv_satisfy, smv_build_template. destruct (smv_miniscript ctx (sorted_keys smv)) as [ms|]; [|done].
  apply (ms_satisfy_completed false).
Qed.

(** The signature and the key of [wpkh] are what its template is completed to. *)
Lemma key_completed pk :
  wpkh_get_satisfaction pk = (r ← completed (key_plan_satisfaction Segwitv0 pk);
                              Some match r with
                                   | Ok w => Ok (w, [])
                                   | Err _ => Err (MissingSig (to_public_key pk))
                                   end).
Proof.
  unfold wpkh_get_satisfaction, completed, key_plan_satisfaction. cbn. 
  destruct (lookup_ecdsa_sig pk) as [sig|] eqn:E; cbn; [|done]. by rewrite E.
Qed.

Lemma completed_Ok t sat r :
  t = Some sat -> completed t = Some r ->
  match stack sat with
  | Witness.Stack tw => exists w, mapM satisfy_self tw = Some w /\ r = Ok w
  | Witness.Unavailable | Witness.Impossible => r = Err (Invalid CouldNotSatisfy)
  end.
Proof.
  intros ->. unfold completed, try_completing. cbn [mbind option_bind].
  destruct (stack sat) as [tw| |]; [|by intros [= <-]..].
  destruct (mapM satisfy_self tw) as [w|]; [|done]. cbn. intros [= <-]. by exists w.
Qed.

(** A spend of a segwit output is a completed template. *)
Definition from_template (mall : bool) (d : Descriptor) (s : result DescriptorError (list bytes * bytes)) : Prop :=
  exists c script_sig, completed (desc_plan_satisfaction mall d) = Some c
    /\ desc_unsigned_script_sig d = Some script_sig
    /\ match c with
       | Ok w => s = Ok (w ++ missing_script d, script_sig)
       | Err _ => exists e, s = Err e
       end.

Lemma wsh_from_template mall wsh s :
  wsh_get_satisfaction mall wsh = Some s ->
  exists c, completed (wsh_plan_satisfaction mall wsh) = Some c
    /\ s = (witness ← c; Ok (witness ++ [wsh_inner_script wsh], [])).
Proof.
  unfold wsh_get_satisfaction, wsh_plan_satisfaction. destruct wsh as [smv|ms].
  - rewrite smv_satisfy_completed. destruct (completed _) as [c|]; [|done]. intros [= <-]. by exists c.
  - rewrite ms_satisfy_completed. destruct (completed _) as [c|]; [|done]. intros [= <-]. by exists c.
Qed.

Lemma wpkh_from_template pk s :
  wpkh_get_satisfaction pk = Some s ->
  exists c, completed (key_plan_satisfaction Segwitv0 pk) = Some c
    /\ match c with Ok w => s = Ok (w, []) | Err _ => exists e, s = Err e end.
Proof.
  rewrite key_completed. destruct (completed _) as [c|]; [|done]. intros [= <-]. exists c.
  split; [done|]. destruct c; [done | by eexists].
Qed.

Lemma spend_from_template mall d s :
  is_Some (segwit_version (desc_type d)) -> spend_with mall d = Some s -> from_template mall d s.
Proof.
  intros Hv H. unfold from_template. destruct d as [ms|pk|pk|sh|wsh|tr]; cbn in Hv; try by destruct Hv.
  all: cbn [spend_with desc_plan_satisfaction desc_unsigned_script_sig] in *.
  - apply wpkh_from_template in H as (c & Hc & Hs). exists c, []. split_and!; [done | done |].
    destruct c; [|done]. by rewrite app_nil_r.
  - unfold sh_get_satisfaction in H. destruct (sh_unsigned_script_sig sh) as [sig|]; [|done].
    cbn [mbind option_bind] in H. destruct sh as [wsh|pk|smv|ms]; cbn in Hv; try by destruct Hv.
    + destruct (wsh_get_satisfaction mall wsh) as [r|] eqn:E; [|done]. injection H as <-.
      apply wsh_from_template in E as (c & Hc & ->). exists c, sig. split_and!; [done | done |].
      destruct c; [done | by eexists].
    + destruct (wpkh_get_satisfaction pk) as [r|] eqn:E; [|done]. injection H as <-.
      apply wpkh_from_template in E as (c & Hc & Hr). exists c, sig. split_and!; [done | done |].
      destruct c as [w|e]; [subst r; cbn; by rewrite app_nil_r | destruct Hr as [e' ->]; by eexists].
  - apply wsh_from_template in H as (c & Hc & ->). exists c, []. split_and!; [done | done |].
    destruct c; [done | by eexists].
  - unfold tr_get_satisfaction in H. unfold completed.
    destruct (best_tap_spend tr mall) as [t|]; [|done]. cbn [mbind option_bind] in *.
    destruct (try_completing t) as [sat|]; [|done]. cbn [mbind option_bind] in *. injection H as <-.
    eexists _, []. split_and!; [done | done |].
    destruct (stack sat); [by rewrite app_nil_r | by eexists..].
Qed.

Lemma plan_spend_agree mall (d : Descriptor) r s :
  is_Some (segwit_version (desc_type d)) ->
  plan_with mall d = Some r -> spend_with mall d = Some s ->
  match r with
  | Ok p =>
      plan_descriptor p = d
      /\ exists w script_sig, plan_satisfy p = Some (Ok (w, script_sig))
           /\ s = Ok (w ++ missing_script d, script_sig)
  | Err d' => d' = d /\ exists e, s = Err e
  end.
Proof.
  intros Hv Hp Hs. destruct (spend_from_template mall d s Hv Hs) as (c & sig & Hc & Hsig & Hm).
  unfold plan_with in Hp.
  destruct (desc_plan_satisfaction mall d) as [sat|] eqn:Et; [|done]. cbn [mbind option_bind] in Hp.
  pose proof (completed_Ok _ sat c eq_refl Hc) as Hw.
  destruct (stack sat) as [tw| |].
  - destruct (plan_relative _) as [rel|]; [|done]. injection Hp as <-. split; [done|].
    destruct Hw as (w & Hw & ->). exists w, sig. split; [|done]. unfold plan_satisfy.
    cbn [plan_template plan_descriptor]. rewrite Hw.
    destruct d as [ms|pk|pk|[]|wsh|tr]; cbn in *; try (by destruct Hv);
      try (by destruct wsh); try (injection Hsig as <-); try done; try by destruct wsh.
    by rewrite Hsig.
  - injection Hp as <-. split; [done|]. by subst c.
  - injection Hp as <-. split; [done|]. by subst c.
Qed.

(** ** Both return for the descriptors that are ready. *)

Context {L : LockTimeLaws B} {TL : TaprootLaws Ta}.

Lemma good_completed t sat : t = Some sat -> good sat -> is_Some (completed t).
Proof. intros -> [[c Hc] _]. unfold completed. cbn [mbind option_bind]. rewrite Hc. by eexists. Qed.

Lemma plan_returns mall d : desc_ready d -> is_Some (plan_with mall d).
Proof.
  intros (sat & Ht & _ & Hr)%(desc_plan_good mall). unfold plan_with. rewrite Ht. cbn [mbind option_bind].
  destruct (stack sat); [|by eexists..]. unfold plan_relative.
  destruct (relative_timelock sat) as [t|] eqn:E; [|by eexists]. destruct (Hr t E) as [t' ->]. by eexists.
Qed.

Lemma wsh_returns mall wsh : wsh_ready wsh -> is_Some (wsh_get_satisfaction mall wsh).
Proof.
  intros H. destruct (wsh_good mall wsh H) as (sat & Ht & Hg). destruct (good_completed _ sat Ht Hg) as [c Hc].
  unfold wsh_get_satisfaction. unfold wsh_plan_satisfaction in *. destruct wsh.
  - rewrite smv_satisfy_completed, Hc. by eexists.
  - rewrite ms_satisfy_completed, Hc. by eexists.
Qed.

Lemma spend_returns mall d : desc_ready d -> is_Some (spend_with mall d).
Proof.
  intros H. destruct d as [ms|pk|pk|[wsh|pk|smv|ms]|wsh|tr]; try done; cbn [spend_with desc_ready] in *.
  - destruct (wsh_returns mall wsh H) as [r E]. unfold sh_get_satisfaction. cbn. rewrite E. by eexists.
  - unfold sh_get_satisfaction, sh_unsigned_script_sig, wpkh_script_pubkey. cbv zeta. rewrite H. by eexists.
  - by apply wsh_returns.
  - destruct (tr_good mall tr H) as (sat & Ht & [c Hc] & _). unfold tr_get_satisfaction. rewrite Ht. cbn [mbind option_bind].
    rewrite Hc. by eexists.
Qed.

(** C14: Planning and satisfying agree on segwit and taproot outputs. For keys, and for the
    Miniscripts, sorted multisignatures and taproot trees of at most 128 levels that the
    constructors accept, without raw key hashes, neither panics, whatever the satisfier; and
    whenever both return, for any descriptor, [plan] and [plan_mall] give a plan exactly when
    [get_satisfaction] and [get_satisfaction_mall] give a spend, and completing the plan yields
    the same scriptSig and the same witness, except that the witness script of [wsh] is missing
    in it. (With a raw key hash in a tapscript there may be a plan where [get_satisfaction]
    panics.) *)
Theorem plan_satisfy_spec mall (d : Descriptor) :
  is_Some (segwit_version (desc_type d)) ->
  (desc_ready d -> exists r s, plan_with mall d = Some r /\ spend_with mall d = Some s)
  /\ forall r s, plan_with mall d = Some r -> spend_with mall d = Some s ->
       match r with
       | Ok p =>
           plan_descriptor p = d
           /\ exists w script_sig, plan_satisfy p = Some (Ok (w, script_sig))
                /\ s = Ok (w ++ missing_script d, script_sig)
       | Err d' => d' = d /\ exists e, s = Err e
       end.
Proof.
  intros Hv. split; [|intros r s; by apply plan_spend_agree]. intros Hr.
  destruct (plan_returns mall d Hr) as [r Hp], (spend_returns mall d Hr) as [s Hs]. by exists r, s.
Qed.
End Plans.

(** * Witnesses *)

Definition sample_keys : Threshold (Pk (MiniscriptKey := reference_key)) := mkThreshold 2 [keyC; keyA; keyB].
Definition sample_keys' : Threshold (Pk (MiniscriptKey := reference_key)) := mkThreshold 2 [keyB; keyC; keyA].

(** The order does not matter for these keys, but it does for two forms of one key, which only
    differ in the number of their bytes. *)
Lemma sorted_keys_spec_witness :
  sorted_keys (Ou := reference_outputs) (mkSortedMultiVec sample_keys)
  = sorted_keys (mkSortedMultiVec sample_keys')
  /\ sorted_keys (K := PublicKey_key) (TP := PublicKey_to_public_key) (Ou := reference_outputs)
       (mkSortedMultiVec (mkThreshold 1 [(true, Byte.x0a); (false, Byte.x0a)]))
     <> sorted_keys (K := PublicKey_key) (TP := PublicKey_to_public_key)
          (mkSortedMultiVec (mkThreshold 1 [(false, Byte.x0a); (true, Byte.x0a)])).
Proof.
  split.
  - destruct (sorted_keys_spec (Ou := reference_outputs) sample_keys) as (_ & _ & _ & H).
    destruct (H sample_keys' eq_refl) as (_ & _ & Hp). apply Hp.
    + apply (bool_decide_unpack _). reflexivity.
    + symmetry. apply (Permutation_cons_append [keyC; keyA] keyB).
  - destruct (sorted_keys_spec (K := PublicKey_key) (TP := PublicKey_to_public_key) (Ou := reference_outputs)
                (mkThreshold 1 [(true, Byte.x0a); (false, Byte.x0a)])) as (_ & _ & _ & H).
    destruct (H (mkThreshold 1 [(false, Byte.x0a); (true, Byte.x0a)]) eq_refl) as [Hiff _].
    intros E. specialize (proj1 Hiff E). intros Hpt.
    specialize (Hpt (serialized (K := PublicKey_key) (TP := PublicKey_to_public_key) (true, Byte.x0a))). discriminate Hpt.
Defined.

(** B signs for the second leaf of [tr(A,{{pk(A),pk(B)},pk(C)})]. *)
Definition sample_tap_provider : AssetProvider (B := reference) (K := reference_key) :=
  satisfier_provider (S := sample_satisfier [keyB] 0 0).

Lemma best_tap_spend_spec_witness :
  exists r, best_tap_spend (P := sample_tap_provider) sample_tr false = Some r
    /\ exists info leaves, from_tr sample_tr = Some info /\ spend_items info = Some leaves
    /\ (stack r = Witness.Unavailable
           /\ (forall leaf wit, leaf ∈ leaves -> ~ leaf_spend (P := sample_tap_provider) false leaf wit)
         \/ exists wit, stack r = Witness.Stack wit
              /\ (exists leaf, leaf ∈ leaves /\ leaf_spend (P := sample_tap_provider) false leaf wit)
              /\ forall leaf wit', leaf ∈ leaves -> leaf_spend (P := sample_tap_provider) false leaf wit' ->
                   witness_size wit <= witness_size wit').
Proof.
  assert (is_some (best_tap_spend (P := sample_tap_provider) sample_tr false) = true) as E by (vm_cast_no_check (eq_refl true)).
  destruct (best_tap_spend (P := sample_tap_provider) sample_tr false) as [r|] eqn:Er; [|done].
  exists r. split; [done|].
  destruct (best_tap_spend_spec (P := sample_tap_provider) false sample_tr r Er) as (info & Hi & H).
  change (provider_lookup_tap_key_spend_sig (internal_key sample_tr)) with (@None nat) in H.
  destruct H as (leaves & Hl & H). exists info, leaves. exact (conj Hi (conj Hl H)).
Defined.

(** B spends [wsh] of the vault of the samples after its delay. *)
Definition sample_wsh : Descriptor (K := reference_key) := Desc_Wsh (WshMs (sample_vault Segwitv0)).

Lemma plan_satisfy_spec_witness :
  exists p w script_sig,
    plan_with (P := satisfier_provider (S := sample_satisfier [keyB] 144 0)) (Ta := reference_taproot) false sample_wsh
    = Some (Ok p)
    /\ plan_satisfy (S := sample_satisfier [keyB] 144 0) (Ou := reference_outputs) p = Some (Ok (w, script_sig))
    /\ spend_with (S := sample_satisfier [keyB] 144 0) (Ou := reference_outputs) false sample_wsh
       = Some (Ok (w ++ [wsh_inner_script (WshMs (sample_vault Segwitv0))], script_sig)).
Proof.
  set (S := sample_satisfier [keyB] 144 0).
  destruct (plan_satisfy_spec (S := S) (Ou := reference_outputs) false sample_wsh (ex_intro _ V0 eq_refl)) as [Hret Hagree].
  destruct Hret as (r & s & Hp & Hs); [split; [exact sample_vault_wf | vm_compute; reflexivity]|].
  assert (match plan_with (P := satisfier_provider (S := S)) (Ta := reference_taproot) false sample_wsh with
          | Some (Ok _) => true
          | _ => false
          end = true) as E
    by (vm_cast_no_check (eq_refl true)).
  specialize (Hagree r s Hp Hs). rewrite Hp in E. destruct r as [p|d]; [|discriminate E].
  destruct Hagree as (_ & w & sig & Hplan & ->).
  exists p, w, sig. exact (conj Hp (conj Hplan Hs)).
Defined.
