(* ===== verification/FromTx.v ===== *)
(** The transaction data of the interpreter (src/src/interpreter/inner.rs, [from_instruction] and
    [as_push] of stack.rs, the constructor, the kinds of spends and the check of signatures of
    mod.rs): which key or script an input spends, on which stack, and what is signed. *)
From S2P Require Import Prelude Bitcoin Primitives Script Ord Correctness Malleability Types ExtData Tree Ast Context Encode Lex Decode Translate Interp.
From S2P Require Import TapTree SpendInfo Outputs.
From S2P Require Import DescriptorSpend.

(** [ToPublicKey for XOnlyPublicKey] *)
Definition XOnlyPublicKey_to_public_key {B : Bitcoin} {Sp : Spending} {Ta : Taproot} {Sc : Scripts} {Ou : Outputs}
  : ToPublicKey XOnlyPublicKey_key :=
  Build_ToPublicKey B XOnlyPublicKey_key
    PublicKey_from_x_only (fun pk => pk) (fun h => h) (fun h => h) (fun h => h) (fun h => h).

Section FromTx.
Context {B : Bitcoin} {Sp : Spending} {Ta : Taproot} {Sc : Scripts} {Pa : Parsing} {Ou : Outputs}.

(** The variants of [interpreter::Error] for transaction data; the errors of the decoder depend on
    the type of keys. *)
Inductive TxError : Type :=
| ControlBlockParse (e : TaprootError)
| ControlBlockVerificationError
| ExpectedPush
| IncorrectPubkeyHash
| IncorrectScriptHash
| IncorrectWPubkeyHash
| IncorrectWScriptHash
| MiniscriptFull (e : DecodeError (PK := PublicKey_parseable))
| MiniscriptXOnly (e : DecodeError (PK := XOnlyPublicKey_parseable))
| NonEmptyWitness
| NonEmptyScriptSig
| PubkeyParseError
| XOnlyPublicKeyParseError
| TapAnnexUnsupported
| UncompressedPubkey
| UnexpectedStackBoolean
| UnexpectedStackEnd.

(** * Stack elements (src/src/interpreter/stack.rs) *)

Definition from_instruction (ins : result ScriptError Instruction) : result TxError Element :=
  match ins with
  | Ok (PushBytes v) => Ok (element_from v)
  | Ok (Op (Named OP_TRUE)) => Ok Satisfied
  | _ => Err ExpectedPush
  end.

Definition as_push (self : Element) : result TxError bytes :=
  match self with
  | Push sl => Ok sl
  | Satisfied | Dissatisfied => Err UnexpectedStackBoolean
  end.

(** * Keys and scripts of an input (src/src/interpreter/inner.rs) *)

Definition pk_from_slice (slice : bytes) (require_compressed : bool) : result TxError PublicKey :=
  match PublicKey_from_slice slice with
  | Some pk =>
      if require_compressed && negb (PublicKey_compressed pk) then Err UncompressedPubkey else Ok pk
  | None => Err PubkeyParseError
  end.

Definition pk_from_stack_elem (elem : Element) (require_compressed : bool) : result TxError PublicKey :=
  match elem with
  | Push slice => pk_from_slice slice require_compressed
  | Satisfied | Dissatisfied => Err PubkeyParseError
  end.

(** [script_from_stack_elem], for both types of keys. *)
Definition script_from_stack_elem {K : MiniscriptKey} {PK : ParseableKey} (wrap : DecodeError -> TxError)
    (ctx : ScriptContext) (elem : Element) : option (result TxError Miniscript) :=
  match elem with
  | Push sl => map_err wrap <$> decode_consensus ctx sl
  | Satisfied => Some (Ok ms_TRUE)
  | Dissatisfied => Some (Ok ms_FALSE)
  end.

Definition full_script_from_stack_elem : ScriptContext -> Element -> option (result TxError (Miniscript (K := PublicKey_key))) :=
  script_from_stack_elem (PK := PublicKey_parseable) MiniscriptFull.

Definition x_only_script_from_stack_elem : ScriptContext -> Element -> option (result TxError (Miniscript (K := XOnlyPublicKey_key))) :=
  script_from_stack_elem (PK := XOnlyPublicKey_parseable) MiniscriptXOnly.

Inductive PubkeyType : Type := Type_Pk | Type_Pkh | Type_Wpkh | Type_ShWpkh | Type_TrKey.

Inductive ScriptType : Type := Type_Bare | Type_Sh | Type_Wsh | Type_ShWsh | Type_TrScript.

Inductive Inner : Type :=
| InnerPublicKey (pk : BitcoinKey) (type : PubkeyType)
| InnerScript (script : Miniscript (K := BitcoinKey_key)) (type : ScriptType).

(** What [from_txdata] returns: what is evaluated, the stack and the script code. *)
Definition TxData : Type := option (result TxError (Inner * Stack * option bytes)).

(** The script of a Miniscript over the keys of the crate, in a context of ECDSA signatures. *)
Definition full_script (ctx : ScriptContext) (ms : Miniscript (K := PublicKey_key)) : bytes :=
  ms_script (TP := PublicKey_to_public_key) ctx ms.

Definition tap_script (ms : Miniscript (K := XOnlyPublicKey_key)) : bytes :=
  ms_script (TP := XOnlyPublicKey_to_public_key) Tap ms.

(** [pk.to_pubkeyhash(SigType::Ecdsa)] *)
Definition ecdsa_pubkeyhash (pk : PublicKey) : hash160_Hash :=
  to_pubkeyhash (TP := PublicKey_to_public_key) pk Ecdsa.

(** ** One definition per form of the scriptPubkey *)

Definition p2pk_data (spk : bytes) (ssig_stack wit_stack : Stack) : TxData :=
  if negb (bool_decide (wit_stack = [])) then Some (Err NonEmptyWitness)
  else
    key ← slice spk 1 (length spk - 1);
    Some (pk ← pk_from_slice key false; Ok (InnerPublicKey (Fullkey pk) Type_Pk, ssig_stack, Some spk)).

Definition p2pkh_data (spk : bytes) (ssig_stack wit_stack : Stack) : TxData :=
  Some
    (if negb (bool_decide (wit_stack = [])) then Err NonEmptyWitness
     else
       match ssig_stack with
       | elem :: ssig_stack =>
           pk ← pk_from_stack_elem elem false;
           if bool_decide (spk = new_p2pkh (ecdsa_pubkeyhash pk)) then
             Ok (InnerPublicKey (Fullkey pk) Type_Pkh, ssig_stack, Some spk)
           else Err IncorrectPubkeyHash
       | [] => Err UnexpectedStackEnd
       end).

(** A witness key hash, of an output or of a redeem script [program]. *)
Definition wpkh_data (program : bytes) (type : PubkeyType) (mismatch : TxError) (elem : Element) (wit_stack : Stack)
  : result TxError (Inner * Stack * option bytes) :=
  pk ← pk_from_stack_elem elem true;
  let hash160 := ecdsa_pubkeyhash pk in
  if bool_decide (program = new_p2wpkh hash160) then
    Ok (InnerPublicKey (Fullkey pk) type, wit_stack, Some (new_p2pkh hash160))
  else Err mismatch.

Definition p2wpkh_data (spk : bytes) (ssig_stack wit_stack : Stack) : TxData :=
  Some
    (if negb (bool_decide (ssig_stack = [])) then Err NonEmptyScriptSig
     else
       match wit_stack with
       | elem :: wit_stack => wpkh_data spk Type_Wpkh IncorrectWPubkeyHash elem wit_stack
       | [] => Err UnexpectedStackEnd
       end).

(** A witness script, of an output or of a redeem script [program]. *)
Definition wsh_data (program : bytes) (type : ScriptType) (elem : Element) (wit_stack : Stack) : TxData :=
  bind_r (full_script_from_stack_elem Segwitv0 elem) (fun miniscript =>
    let script := full_script Segwitv0 miniscript in
    miniscript ← to_no_checks_ms_full miniscript;
    Some
      (if bool_decide (program = new_p2wsh (sha256_hash script)) then
         Ok (InnerScript miniscript type, wit_stack, Some script)
       else Err IncorrectWScriptHash)).

Definition p2wsh_data (spk : bytes) (ssig_stack wit_stack : Stack) : TxData :=
  if negb (bool_decide (ssig_stack = [])) then Some (Err NonEmptyScriptSig)
  else
    match wit_stack with
    | elem :: wit_stack => wsh_data spk Type_Wsh elem wit_stack
    | [] => Some (Err UnexpectedStackEnd)
    end.

(** [TAPROOT_ANNEX_PREFIX] *)
Definition has_annex (wit_stack : Stack) : bool :=
  match wit_stack with
  | Push (x :: _) :: _ :: _ => bool_decide (x = Byte.x50)
  | _ => false
  end.

Definition tap_script_data (output_key : XOnlyPublicKey) (wit_stack : Stack) : TxData :=
  match wit_stack with
  | ctrl_blk :: wit_stack =>
      bind_r (Some (as_push ctrl_blk)) (fun ctrl_blk =>
        match wit_stack with
        | tap_elem :: wit_stack =>
            bind_r (Some (map_err ControlBlockParse (ControlBlock_decode ctrl_blk))) (fun ctrl_blk =>
              bind_r (x_only_script_from_stack_elem Tap tap_elem) (fun miniscript =>
                ms ← to_no_checks_ms_x_only miniscript;
                let script := tap_script miniscript in
                Some
                  (if verify_taproot_commitment ctrl_blk output_key script then
                     Ok (InnerScript ms Type_TrScript, wit_stack, Some script)
                   else Err ControlBlockVerificationError)))
        | [] => Some (Err UnexpectedStackEnd)
        end)
  | [] => Some (Err UnexpectedStackEnd)
  end.

Definition p2tr_data (spk : bytes) (ssig_stack wit_stack : Stack) : TxData :=
  if negb (bool_decide (ssig_stack = [])) then Some (Err NonEmptyScriptSig)
  else
    key ← slice spk 2 (length spk);
    match XOnlyPublicKey_from_slice key with
    | None => Some (Err XOnlyPublicKeyParseError)
    | Some output_key =>
        if has_annex wit_stack then Some (Err TapAnnexUnsupported)
        else
          match wit_stack with
          | [] => Some (Err UnexpectedStackEnd)
          | [_] => Some (Ok (InnerPublicKey (XOnly output_key) Type_TrKey, wit_stack, None))
          | _ => tap_script_data output_key wit_stack
          end
    end.

Definition starts_with (a b : Byte.byte) (slice : bytes) : bool :=
  match slice with
  | x :: y :: _ => bool_decide (x = a) && bool_decide (y = b)
  | _ => false
  end.

(** The redeem script is a Miniscript. *)
Definition redeem_data (spk : bytes) (elem : Element) (ssig_stack wit_stack : Stack) : TxData :=
  bind_r (full_script_from_stack_elem Legacy elem) (fun miniscript =>
    let script := full_script Legacy miniscript in
    miniscript ← to_no_checks_ms_full miniscript;
    Some
      (if bool_decide (wit_stack = []) then
         if bool_decide (spk = new_p2sh (hash160_hash script)) then
           Ok (InnerScript miniscript Type_Sh, ssig_stack, Some script)
         else Err IncorrectScriptHash
       else Err NonEmptyWitness)).

Definition p2sh_data (spk : bytes) (ssig_stack wit_stack : Stack) : TxData :=
  match ssig_stack with
  | [] => Some (Err UnexpectedStackEnd)
  | elem :: ssig_stack =>
      match elem with
      | Push slice =>
          if negb (bool_decide (spk = new_p2sh (hash160_hash slice))) then Some (Err IncorrectScriptHash)
          else if (length slice =? 22) && starts_with Byte.x00 Byte.x14 slice then
            Some
              match wit_stack with
              | elem :: wit_stack =>
                  if negb (bool_decide (ssig_stack = [])) then Err NonEmptyScriptSig
                  else wpkh_data slice Type_ShWpkh IncorrectWScriptHash elem wit_stack
              | [] => Err UnexpectedStackEnd
              end
          else if (length slice =? 34) && starts_with Byte.x00 Byte.x20 slice then
            match wit_stack with
            | elem :: wit_stack =>
                if negb (bool_decide (ssig_stack = [])) then Some (Err NonEmptyScriptSig)
                else wsh_data slice Type_ShWsh elem wit_stack
            | [] => Some (Err UnexpectedStackEnd)
            end
          else redeem_data spk elem ssig_stack wit_stack
      | Satisfied | Dissatisfied => redeem_data spk elem ssig_stack wit_stack
      end
  end.

Definition bare_data (spk : bytes) (ssig_stack wit_stack : Stack) : TxData :=
  if bool_decide (wit_stack = []) then
    bind_r (map_err MiniscriptFull <$> decode_consensus (PK := PublicKey_parseable) BareCtx spk) (fun miniscript =>
      miniscript ← to_no_checks_ms_full miniscript;
      Some (Ok (InnerScript miniscript Type_Bare, ssig_stack, Some spk)))
  else Some (Err NonEmptyWitness).

(** [inner::from_txdata]; stacks have their top at the head. *)
Definition inner_from_txdata (spk script_sig : bytes) (witness : list bytes) : TxData :=
  bind_r (Some (mapM from_instruction (instructions_minimal script_sig))) (fun elems =>
    let ssig_stack := rev elems in
    let wit_stack := rev (map element_from witness) in
    if is_p2pk spk then p2pk_data spk ssig_stack wit_stack
    else if is_p2pkh spk then p2pkh_data spk ssig_stack wit_stack
    else if is_p2wpkh spk then p2wpkh_data spk ssig_stack wit_stack
    else if is_p2wsh spk then p2wsh_data spk ssig_stack wit_stack
    else if is_p2tr spk then p2tr_data spk ssig_stack wit_stack
    else if is_p2sh spk then p2sh_data spk ssig_stack wit_stack
    else bare_data spk ssig_stack wit_stack).

(** * The interpreter (src/src/interpreter/mod.rs) *)

Record Interpreter : Type := mkInterpreter {
  in_inner : Inner;
  in_stack : Stack;
  in_script_code : option bytes;
  in_sequence : Sequence;
  in_lock_time : LockTime;
  in_tx_template : option sha256_Hash;
}.

(** [Interpreter::from_txdata] *)
Definition from_txdata (spk script_sig : bytes) (witness : list bytes) (sequence : Sequence) (lock_time : LockTime)
  : option (result TxError Interpreter) :=
  bind_r (inner_from_txdata spk script_sig witness) (fun '(inner, stack, script_code) =>
    Some (Ok (mkInterpreter inner stack script_code sequence lock_time None))).

Definition with_tx_template (self : Interpreter) (hash : sha256_Hash) : Interpreter :=
  mkInterpreter (in_inner self) (in_stack self) (in_script_code self) (in_sequence self) (in_lock_time self) (Some hash).

Definition is_legacy (self : Interpreter) : bool :=
  match in_inner self with
  | InnerPublicKey _ (Type_Pk | Type_Pkh) | InnerScript _ (Type_Bare | Type_Sh) => true
  | _ => false
  end.

Definition is_segwit_v0 (self : Interpreter) : bool :=
  match in_inner self with
  | InnerPublicKey _ (Type_Wpkh | Type_ShWpkh) | InnerScript _ (Type_Wsh | Type_ShWsh) => true
  | _ => false
  end.

Definition is_taproot_v1_key_spend (self : Interpreter) : bool :=
  match in_inner self with
  | InnerPublicKey _ Type_TrKey => true
  | _ => false
  end.

Definition is_taproot_v1_script_spend (self : Interpreter) : bool :=
  match in_inner self with
  | InnerScript _ Type_TrScript => true
  | _ => false
  end.

Definition in_sig_type (self : Interpreter) : SigType :=
  match in_inner self with
  | InnerPublicKey _ Type_TrKey | InnerScript _ Type_TrScript => Schnorr
  | _ => Ecdsa
  end.

(** [iter_custom], the iterator from its start. *)
Definition in_iter (self : Interpreter) : Iterator :=
  match in_inner self with
  | InnerPublicKey pk _ => iter_public_key pk (in_stack self)
  | InnerScript script _ => iter_script script (in_stack self)
  end.

(** All items of [iter_custom], for a bound on the turns of its loops. *)
Definition iter_custom (self : Interpreter) (verify_sig : KeySigPair -> bool) (fuel : nat) :=
  run verify_sig (in_sequence self) (in_lock_time self) (in_tx_template self) (in_sig_type self) fuel (in_iter self).

Definition iter_assume_sigs (self : Interpreter) (fuel : nat) := iter_custom self (fun _ => true) fuel.
End FromTx.

(** * Signatures *)

(** Signature hashes and curve arithmetic, of the crates bitcoin and secp256k1; a signature hash
    may fail. *)
Class Sighashes {B : Bitcoin} {Sp : Spending} : Type := {
  Transaction : Type;
  TxOut : Type;
  Message : Type;
  legacy_signature_hash : Transaction -> nat -> bytes -> EcdsaSignature -> option Message;
  p2wsh_signature_hash : Transaction -> nat -> bytes -> TxOut -> EcdsaSignature -> option Message;
  (** for the prevouts that are given, with the index of a single one *)
  taproot_key_spend_signature_hash :
    Transaction -> nat -> list TxOut + nat * TxOut -> TaprootSignature -> option Message;
  taproot_script_spend_signature_hash :
    Transaction -> nat -> list TxOut + nat * TxOut -> TapLeafHash -> TaprootSignature -> option Message;
  TapLeafHash_from_bytes : bytes -> TapLeafHash;
  verify_ecdsa : Message -> EcdsaSignature -> PublicKey -> bool;
  verify_schnorr : TaprootSignature -> Message -> XOnlyPublicKey -> bool;
}.

Section VerifySig.
Context {B : Bitcoin} {Sp : Spending} {Ta : Taproot} {Sc : Scripts} {Pa : Parsing} {Ou : Outputs} {Si : Sighashes}.

(** [sighash::Prevouts] *)
Definition Prevouts : Type := (list TxOut + nat * TxOut)%type.

Definition get_prevout (prevouts : Prevouts) (input_index : nat) : option TxOut :=
  match prevouts with
  | inr (index, prevout) => if input_index =? index then Some prevout else None
  | inl prevouts => prevouts !! input_index
  end.

(** [verify_sig]; [None] is the [expect] on the script code. *)
Definition verify_sig (self : Interpreter) (tx : Transaction) (input_idx : nat) (prevouts : Prevouts) (sig : KeySigPair)
  : option bool :=
  match sig with
  | KeySigEcdsa key ecdsa_sig =>
      script_pubkey ← in_script_code self;
      let checked (msg : option Message) :=
        match msg with Some msg => verify_ecdsa msg ecdsa_sig key | None => false end in
      Some
        (if is_legacy self then checked (legacy_signature_hash tx input_idx script_pubkey ecdsa_sig)
         else if is_segwit_v0 self then
           match get_prevout prevouts input_idx with
           | Some txout => checked (p2wsh_signature_hash tx input_idx script_pubkey txout ecdsa_sig)
           | None => false
           end
         else false)
  | KeySigSchnorr xpk schnorr_sig =>
      let checked (msg : option Message) :=
        match msg with Some msg => verify_schnorr schnorr_sig msg xpk | None => false end in
      if is_taproot_v1_key_spend self then
        Some (checked (taproot_key_spend_signature_hash tx input_idx prevouts schnorr_sig))
      else if is_taproot_v1_script_spend self then
        tap_script ← in_script_code self;
        Some (checked (taproot_script_spend_signature_hash tx input_idx prevouts (TapLeafHash_from_bytes tap_script)
                         schnorr_sig))
      else Some false
  end.
End VerifySig.
