(* ===== verification/FromTxProps.v ===== *)
(** Properties of the transaction data of the interpreter: it is taken without a panic, and what is
    evaluated is what the output commits to. *)
From S2P Require Import Prelude Bitcoin Primitives Reference Script Ord Correctness Malleability Types ExtData Tree StackLoop Ast Context Samples Encode Tokens Lex Decode DecodeSound DecodeTotal Translate Interp InterpProps InterpRuns Satisfy Accept.
From S2P Require Import TapTree SpendInfo Outputs.
From S2P Require Import DescriptorSpend.
From S2P Require Import FromTx.

Section Keys.
Context {B : Bitcoin} {Sp : Spending} {Ta : Taproot} {Sc : Scripts} {Pa : Parsing} {Ou : Outputs}.
Context {SZ : SizeLaws B} {PL : ParsingLaws Pa} {CL : CanonicalLaws Pa} {OL : OutputLaws Ou}.

#[export] Instance PublicKey_key_laws : KeyLaws PublicKey_to_public_key.
Proof. constructor. intros k. cbn. by rewrite negb_involutive. Qed.

#[export] Instance XOnlyPublicKey_key_laws : KeyLaws XOnlyPublicKey_to_public_key.
Proof.
  constructor. intros k. cbn. pose proof (PublicKey_from_x_only_spec k) as H.
  apply PublicKey_canonical in H. pose proof (PublicKey_size (PublicKey_from_x_only k)) as Hs.
  rewrite H in Hs. cbn [length] in Hs. rewrite XOnlyPublicKey_size in Hs.
  by destruct (PublicKey_compressed _).
Qed.

Lemma XOnlyPublicKey_parseable_laws : ParseableLaws (PK := XOnlyPublicKey_parseable) XOnlyPublicKey_to_public_key Tap.
Proof.
  constructor; try done. intros b pk. cbn [from_slice XOnlyPublicKey_parseable]. unfold key_bytes.
  cbn [to_x_only_pubkey XOnlyPublicKey_to_public_key sig_type]. split.
  - destruct (XOnlyPublicKey_from_slice b) eqn:E; [|done]. intros [= <-]. by apply XOnlyPublicKey_canonical.
  - intros <-. by rewrite XOnlyPublicKey_roundtrip.
Qed.
End Keys.

Section Data.
Context {B : Bitcoin} {Sp : Spending} {Ta : Taproot} {Sc : Scripts} {Pa : Parsing} {Ou : Outputs}.
Context {LT : LockTimeLaws B} {BL : BuilderLaws B} {SZ : SizeLaws B} {SL : ScriptLaws Sc} {HL : HashLaws Sc}.
Context {PL : ParsingLaws Pa} {CL : CanonicalLaws Pa} {OL : OutputLaws Ou}.

(** The script [script] is that of a Miniscript, which is evaluated as [s]. *)
Definition full_scripted (ctx : ScriptContext) (script : bytes) (s : Miniscript (K := BitcoinKey_key)) : Prop :=
  exists ms, wf ctx ms /\ to_no_checks_ms_full ms = Some s /\ full_script ctx ms = script.

Definition x_only_scripted (script : bytes) (s : Miniscript (K := BitcoinKey_key)) : Prop :=
  exists ms, wf Tap ms /\ to_no_checks_ms_x_only ms = Some s /\ tap_script ms = script.

(** The output commits to the key or to the script that is evaluated, and the script code is the
    one of its kind. *)
Definition committed (spk : bytes) (inner : Inner) (code : option bytes) : Prop :=
  match inner with
  | InnerPublicKey (Fullkey pk) type =>
      let hash := ecdsa_pubkeyhash pk in
      match type with
      | Type_Pk => slice spk 1 (length spk - 1) = Some (PublicKey_to_bytes pk) /\ code = Some spk
      | Type_Pkh => spk = new_p2pkh hash /\ code = Some spk
      | Type_Wpkh => PublicKey_compressed pk = true /\ spk = new_p2wpkh hash /\ code = Some (new_p2pkh hash)
      | Type_ShWpkh =>
          PublicKey_compressed pk = true /\ spk = new_p2sh (hash160_hash (new_p2wpkh hash))
          /\ code = Some (new_p2pkh hash)
      | Type_TrKey => False
      end
  | InnerPublicKey (XOnly pk) type =>
      type = Type_TrKey /\ slice spk 2 (length spk) = Some (XOnlyPublicKey_serialize pk) /\ code = None
  | InnerScript s type =>
      exists script, code = Some script
        /\ match type with
           | Type_Bare =>
               spk = script /\ exists ms, decode_consensus (PK := PublicKey_parseable) BareCtx spk = Some (Ok ms)
                 /\ to_no_checks_ms_full ms = Some s
           | Type_Sh => full_scripted Legacy script s /\ spk = new_p2sh (hash160_hash script)
           | Type_Wsh => full_scripted Segwitv0 script s /\ spk = new_p2wsh (sha256_hash script)
           | Type_ShWsh =>
               full_scripted Segwitv0 script s /\ spk = new_p2sh (hash160_hash (new_p2wsh (sha256_hash script)))
           | Type_TrScript =>
               x_only_scripted script s /\ exists key ctrl_blk,
                 slice spk 2 (length spk) = Some (XOnlyPublicKey_serialize key)
                 /\ verify_taproot_commitment ctrl_blk key script = true
           end
  end.

(** What is evaluated fits its kind of signatures. *)
Definition inner_ok (inner : Inner) : Prop :=
  match inner with
  | InnerPublicKey _ _ => True
  | InnerScript s Type_TrScript => script_ok Schnorr s
  | InnerScript s _ => script_ok Ecdsa s
  end.

(** What is promised of transaction data. *)
Definition data_ok (spk : bytes) (d : TxData) : Prop :=
  exists r, d = Some r
    /\ forall inner stack code, r = Ok (inner, stack, code) -> committed spk inner code /\ inner_ok inner.

Lemma data_error spk e : data_ok spk (Some (Err e)).
Proof. by exists (Err e). Qed.

Lemma data_ok_bind {A} spk (m : option (result TxError A)) f :
  (exists r, m = Some r) -> (forall a, m = Some (Ok a) -> data_ok spk (f a)) -> data_ok spk (bind_r m f).
Proof.
  intros [[a|e] ->] H; cbn; [by apply H | apply data_error].
Qed.

Lemma data_Ok spk inner stack code :
  committed spk inner code -> inner_ok inner -> data_ok spk (Some (Ok (inner, stack, code))).
Proof. intros Hc Hi. eexists. split; [done|]. by intros ? ? ? [= <- <- <-]. Qed.

(** ** Keys *)

Lemma pk_from_slice_Ok b c pk :
  pk_from_slice b c = Ok pk -> PublicKey_to_bytes pk = b /\ (c = true -> PublicKey_compressed pk = true).
Proof.
  unfold pk_from_slice. destruct (PublicKey_from_slice b) as [k|] eqn:E; [|done].
  destruct (c && negb (PublicKey_compressed k)) eqn:Hc; [done|]. intros [= <-].
  split; [by apply PublicKey_canonical|]. intros ->. by destruct (PublicKey_compressed k).
Qed.

Lemma pk_from_stack_elem_Ok e c pk :
  pk_from_stack_elem e c = Ok pk -> e = Push (PublicKey_to_bytes pk) /\ (c = true -> PublicKey_compressed pk = true).
Proof. destruct e as [| |b]; [done..|]. by intros [-> ?]%pk_from_slice_Ok. Qed.

(** ** Scripts *)

Lemma full_script_ok ctx ms s :
  sig_type ctx = Ecdsa -> wf ctx ms -> to_no_checks_ms_full ms = Some s -> wf NoChecks s -> script_ok Ecdsa s.
Proof.
  intros Hs Hwf Ht Hw. rewrite <- Hs. apply (script_of_ok (TP := PublicKey_to_public_key) ctx ms); [|done].
  apply translated_script.
  unfold to_no_checks_ms_full in Ht. rewrite translate_pk_ctx_eq in Ht. unfold script_translator, script_key.
  rewrite Hs. change (translate NoChecks TranslateFullPk ms = Ok s). 
  by destruct (translate NoChecks TranslateFullPk ms); [injection Ht as -> | done].
Qed.

Lemma x_only_script_ok ms s :
  wf Tap ms -> to_no_checks_ms_x_only ms = Some s -> wf NoChecks s -> script_ok Schnorr s.
Proof.
  intros Hwf Ht Hw. apply (script_of_ok (TP := XOnlyPublicKey_to_public_key) Tap ms); [|done].
  apply translated_script.
  unfold to_no_checks_ms_x_only in Ht. rewrite translate_pk_ctx_eq in Ht.
  change (translate NoChecks TranslateXOnlyPk ms = Ok s).
  by destruct (translate NoChecks TranslateXOnlyPk ms); [injection Ht as -> | done].
Qed.

Lemma full_translates ctx ms :
  sig_type ctx = Ecdsa -> built ctx ms ->
  exists s, to_no_checks_ms_full ms = Some s /\ script_ok Ecdsa s.
Proof.
  intros Hs [Hwf Hh]. destruct (translate_total ctx TranslateFullPk ms Hwf Hh) as (s & Ht & Hw & _).
  assert (to_no_checks_ms_full ms = Some s) as H.
  { unfold to_no_checks_ms_full. by rewrite translate_pk_ctx_eq, Ht. }
  exists s. split; [done|]. by eapply full_script_ok.
Qed.

Lemma x_only_translates ms :
  built Tap ms -> exists s, to_no_checks_ms_x_only ms = Some s /\ script_ok Schnorr s.
Proof.
  intros [Hwf Hh]. destruct (translate_total Tap TranslateXOnlyPk ms Hwf Hh) as (s & Ht & Hw & _).
  assert (to_no_checks_ms_x_only ms = Some s) as H.
  { unfold to_no_checks_ms_x_only. by rewrite translate_pk_ctx_eq, Ht. }
  exists s. split; [done|]. by eapply x_only_script_ok.
Qed.

Lemma built_leaf {K : MiniscriptKey} ctx : built ctx ms_TRUE /\ built ctx ms_FALSE.
Proof.
  split; (split; [constructor; [constructor | done | reflexivity | reflexivity]
                 | rewrite height_eq, children_node; apply Nat.le_0_l]).
Qed.

Lemma full_script_elem ctx elem :
  sig_type ctx = Ecdsa ->
  exists r, full_script_from_stack_elem ctx elem = Some r /\ forall ms, r = Ok ms -> built ctx ms.
Proof.
  intros Hs. unfold full_script_from_stack_elem, script_from_stack_elem.
  destruct elem as [| |b].
  1, 2: eexists; split; [done|]; intros ms [= <-]; apply built_leaf.
  pose proof (PublicKey_parseable_laws ctx Hs) as HP.
  destruct (decode_with_ext_total (B := B) (TP := PublicKey_to_public_key) (PK := PublicKey_parseable) ctx b allow_all) as (r & Hr & H).
  unfold decode_consensus. rewrite Hr. eexists. split; [done|].
  intros ms Hms%map_err_Ok_inv. by apply H.
Qed.

Lemma x_only_script_elem elem :
  exists r, x_only_script_from_stack_elem Tap elem = Some r /\ forall ms, r = Ok ms -> built Tap ms.
Proof.
  unfold x_only_script_from_stack_elem, script_from_stack_elem.
  destruct elem as [| |b].
  1, 2: eexists; split; [done|]; intros ms [= <-]; apply built_leaf.
  pose proof XOnlyPublicKey_parseable_laws as HP.
  destruct (decode_with_ext_total (B := B) (TP := XOnlyPublicKey_to_public_key) (PK := XOnlyPublicKey_parseable) Tap b allow_all) as (r & Hr & H).
  unfold decode_consensus. rewrite Hr. eexists. split; [done|].
  intros ms Hms%map_err_Ok_inv. by apply H.
Qed.

(** ** The forms of outputs *)

Lemma wpkh_data_ok spk program type mismatch elem wit_stack :
  (forall pk, PublicKey_compressed pk = true -> program = new_p2wpkh (ecdsa_pubkeyhash pk) ->
     committed spk (InnerPublicKey (Fullkey pk) type) (Some (new_p2pkh (ecdsa_pubkeyhash pk)))) ->
  data_ok spk (Some (wpkh_data program type mismatch elem wit_stack)).
Proof.
  intros H. unfold wpkh_data. destruct (pk_from_stack_elem elem true) as [pk|e] eqn:E; cbn; [|apply data_error].
  apply pk_from_stack_elem_Ok in E as [_ Hc]. case_bool_decide as Hp; [|apply data_error].
  apply data_Ok; [by apply H; [apply Hc|] | exact I].
Qed.

Lemma wsh_data_ok spk program type elem wit_stack :
  (forall s script, full_scripted Segwitv0 script s -> program = new_p2wsh (sha256_hash script) ->
     committed spk (InnerScript s type) (Some script)) ->
  type <> Type_TrScript -> data_ok spk (wsh_data program type elem wit_stack).
Proof.
  intros H Htype. destruct (full_script_elem Segwitv0 elem eq_refl) as (r & Hr & Hb).
  unfold wsh_data. rewrite Hr. apply data_ok_bind; [by eexists|]. intros ms [= ->].
  pose proof (Hb _ eq_refl) as Hbuilt. destruct (full_translates Segwitv0 ms eq_refl Hbuilt) as (s & Hs & Hok). rewrite Hs. cbn.
  case_bool_decide as Hp; [|apply data_error]. apply data_Ok; [|by destruct type].
  apply H; [|done]. exists ms. split_and!; [apply Hbuilt | done..].
Qed.

Lemma redeem_data_ok spk elem ssig_stack wit_stack : data_ok spk (redeem_data spk elem ssig_stack wit_stack).
Proof.
  destruct (full_script_elem Legacy elem eq_refl) as (r & Hr & Hb).
  unfold redeem_data. rewrite Hr. apply data_ok_bind; [by eexists|]. intros ms [= ->].
  pose proof (Hb _ eq_refl) as Hbuilt. destruct (full_translates Legacy ms eq_refl Hbuilt) as (s & Hs & Hok). rewrite Hs. cbn.
  case_bool_decide; [|apply data_error]. case_bool_decide as Hp; [|apply data_error].
  apply data_Ok; [|done]. exists (full_script Legacy ms). split_and!; [done | | done].
  exists ms. split_and!; [apply Hbuilt | done..].
Qed.

Lemma p2pk_data_ok spk ssig_stack wit_stack : is_p2pk spk = true -> data_ok spk (p2pk_data spk ssig_stack wit_stack).
Proof.
  intros Hspk. unfold p2pk_data. destruct (negb _); [apply data_error|].
  assert (2 <= length spk) as Hl.
  { rewrite is_p2pk_spec in Hspk. apply orb_true_iff in Hspk as [H|H];
      apply andb_true_iff in H as [[Hn%Nat.eqb_eq _]%andb_true_iff _]; lia. }
  unfold slice. destruct (Nat.leb_spec 1 (length spk - 1)); [|lia].
  destruct (Nat.leb_spec (length spk - 1) (length spk)); [|lia]. cbn [andb mbind option_bind].
  destruct (pk_from_slice _ false) as [pk|e] eqn:E; [|apply data_error]. apply pk_from_slice_Ok in E as [E _].
  apply data_Ok; [|exact I]. cbn. unfold slice.
  destruct (Nat.leb_spec 1 (length spk - 1)); [|lia].
  destruct (Nat.leb_spec (length spk - 1) (length spk)); [|lia]. by rewrite E.
Qed.

Lemma p2pkh_data_ok spk ssig_stack wit_stack : data_ok spk (p2pkh_data spk ssig_stack wit_stack).
Proof.
  unfold p2pkh_data. destruct (negb _); [apply data_error|]. destruct ssig_stack as [|elem ssig_stack]; [apply data_error|].
  destruct (pk_from_stack_elem elem false) as [pk|e] eqn:E; cbn; [|apply data_error].
  case_bool_decide; [|apply data_error]. by apply data_Ok.
Qed.

Lemma p2wpkh_data_ok spk ssig_stack wit_stack : data_ok spk (p2wpkh_data spk ssig_stack wit_stack).
Proof.
  unfold p2wpkh_data. destruct (negb _); [apply data_error|]. destruct wit_stack as [|elem wit_stack]; [apply data_error|].
  by apply wpkh_data_ok.
Qed.

Lemma p2wsh_data_ok spk ssig_stack wit_stack : data_ok spk (p2wsh_data spk ssig_stack wit_stack).
Proof.
  unfold p2wsh_data. destruct (negb _); [apply data_error|]. destruct wit_stack as [|elem wit_stack]; [apply data_error|].
  apply wsh_data_ok; [|done]. intros s script Hs Hp. by exists script.
Qed.

Lemma p2tr_data_ok spk ssig_stack wit_stack : is_p2tr spk = true -> data_ok spk (p2tr_data spk ssig_stack wit_stack).
Proof.
  intros Hspk. unfold p2tr_data. destruct (negb _); [apply data_error|].
  assert (length spk = 34) as Hl.
  { rewrite is_p2tr_spec in Hspk. by apply andb_true_iff in Hspk as [[Hn%Nat.eqb_eq _]%andb_true_iff _]. }
  destruct (slice spk 2 (length spk)) as [key|] eqn:Hk.
  2: { unfold slice in Hk. rewrite Hl in Hk. done. }
  cbn [mbind option_bind]. destruct (XOnlyPublicKey_from_slice key) as [output_key|] eqn:E; [|apply data_error].
  apply XOnlyPublicKey_canonical in E. subst key.
  destruct (has_annex wit_stack); [apply data_error|].
  destruct wit_stack as [|ctrl_blk [|tap_elem wit_stack]]; [apply data_error | by apply data_Ok |].
  unfold tap_script_data. apply data_ok_bind; [by eexists|]. intros cb _.
  apply data_ok_bind; [by eexists|]. intros block _.
  destruct (x_only_script_elem tap_elem) as (r & Hr & Hb). rewrite Hr.
  apply data_ok_bind; [by eexists|]. intros ms [= ->].
  pose proof (Hb _ eq_refl) as Hbuilt. destruct (x_only_translates ms Hbuilt) as (s & Hs & Hok). rewrite Hs. cbn.
  destruct (verify_taproot_commitment _ _ _) eqn:Hv; [|apply data_error]. apply data_Ok; [|done].
  exists (tap_script ms). split; [done|]. split; [exists ms; split_and!; [apply Hbuilt | done..] | by eauto].
Qed.

Lemma p2sh_data_ok spk ssig_stack wit_stack : data_ok spk (p2sh_data spk ssig_stack wit_stack).
Proof.
  unfold p2sh_data. destruct ssig_stack as [|elem ssig_stack]; [apply data_error|].
  destruct elem as [| |redeem]; [apply redeem_data_ok..|].
  destruct (bool_decide (spk = _)) eqn:Hspk; [|apply data_error]. apply bool_decide_eq_true_1 in Hspk. cbn [negb].
  destruct (_ && _).
  - destruct wit_stack as [|elem wit_stack]; [apply data_error|]. destruct (negb _); [apply data_error|].
    apply wpkh_data_ok. intros pk Hc ->. done.
  - destruct (_ && _); [|apply redeem_data_ok]. destruct wit_stack as [|elem wit_stack]; [apply data_error|].
    destruct (negb _); [apply data_error|]. apply wsh_data_ok; [|done]. intros s script Hs ->. by exists script.
Qed.

Lemma bare_data_ok spk ssig_stack wit_stack : data_ok spk (bare_data spk ssig_stack wit_stack).
Proof.
  unfold bare_data. case_bool_decide; [|apply data_error].
  pose proof (PublicKey_parseable_laws BareCtx eq_refl) as HP.
  destruct (decode_with_ext_total (B := B) (TP := PublicKey_to_public_key) (PK := PublicKey_parseable) BareCtx spk allow_all) as (r & Hr & Hb).
  unfold decode_consensus. rewrite Hr. cbn [fmap option_fmap option_map].
  apply data_ok_bind; [by eexists|]. intros ms [= Hms%map_err_Ok_inv]. subst r.
  destruct (Hb _ eq_refl) as [Hbuilt _]. destruct (full_translates BareCtx ms eq_refl Hbuilt) as (s & Hs & Hok). rewrite Hs. cbn.
  apply data_Ok; [|done]. exists spk. split; [done|]. split; [done|]. exists ms. split; [|done].
  unfold decode_consensus. by rewrite Hr.
Qed.

Lemma inner_from_txdata_ok spk script_sig witness : data_ok spk (inner_from_txdata spk script_sig witness).
Proof.
  unfold inner_from_txdata. apply data_ok_bind; [by eexists|]. intros elems _. cbv zeta.
  destruct (is_p2pk spk) eqn:E1; [by apply p2pk_data_ok|].
  destruct (is_p2pkh spk); [apply p2pkh_data_ok|].
  destruct (is_p2wpkh spk); [apply p2wpkh_data_ok|].
  destruct (is_p2wsh spk); [apply p2wsh_data_ok|].
  destruct (is_p2tr spk) eqn:E2; [by apply p2tr_data_ok|].
  destruct (is_p2sh spk); [apply p2sh_data_ok | apply bare_data_ok].
Qed.

(** ** Running the interpreter *)

(** A bound on the turns of the loops. *)
Definition inner_turns (inner : Inner) : nat :=
  match inner with
  | InnerPublicKey _ _ => 3
  | InnerScript s _ => 2 + turns s
  end.

Lemma public_key_runs verify_sig sequence lock_time tx_template sig_type pk stack :
  exists l, run verify_sig sequence lock_time tx_template sig_type 3 (iter_public_key pk stack) = Some (l, EndNormal)
    /\ InterpProps.items_ok l.
Proof.
  apply run_total; [apply List.Forall_nil|]. unfold InterpProps.measure. cbn [iter_public_key has_errored public_key state].
  change (sum_by InterpProps.weight []) with 0. destruct (bool_decide _); simpl; lia.
Qed.

(** C4: The interpreter takes every scriptPubkey, scriptSig and witness: nothing in them makes
    it panic. What it evaluates is what the output commits to: the key whose hash or point the
    scriptPubkey has, or a Miniscript whose script hashes to it or is the leaf that the control
    block leads to, and that script, or the script of BIP 143 for a key, is the script code of
    the signatures. The evaluation of it ends without a panic. *)
Theorem from_txdata_spec spk script_sig witness sequence lock_time :
  exists r, from_txdata spk script_sig witness sequence lock_time = Some r
    /\ forall self, r = Ok self ->
         committed spk (in_inner self) (in_script_code self)
         /\ forall verify_sig, exists l,
              iter_custom self verify_sig (inner_turns (in_inner self)) = Some (l, EndNormal) /\ InterpProps.items_ok l.
Proof.
  destruct (inner_from_txdata_ok spk script_sig witness) as (r & Hr & H). unfold from_txdata. rewrite Hr.
  destruct r as [[[inner stack] code]|e]; cbn; (eexists; split; [done|]); [|done].
  intros self [= <-]. destruct (H _ _ _ eq_refl) as [Hc Hi]. split; [exact Hc|]. intros verify_sig.
  unfold iter_custom, in_iter. cbn [in_inner in_stack in_sequence in_lock_time in_tx_template].
  destruct inner as [pk type|s type]; [apply public_key_runs|]. apply interpreter_runs.
  by destruct type.
Qed.
End Data.

(** * Witnesses *)

(** An output of [wpkh(A)] and its spend. *)
Definition sample_wpkh_script : bytes := new_p2wpkh (Outputs := reference_outputs) (ecdsa_pubkeyhash (Pa := reference_parsing) keyA).
Definition sample_wpkh_witness : list bytes := [[Byte.x30; Byte.x00; Byte.x0a]; Reference.key_bytes keyA].

Lemma from_txdata_spec_witness :
  exists self, from_txdata (Pa := reference_parsing) (Ou := reference_outputs) sample_wpkh_script [] sample_wpkh_witness 0%N 0%N
    = Some (Ok self)
    /\ committed sample_wpkh_script (in_inner self) (in_script_code self)
    /\ exists l, iter_custom self (fun _ => true) (inner_turns (in_inner self)) = Some (l, EndNormal) /\ InterpProps.items_ok l.
Proof.
  assert (match from_txdata (Pa := reference_parsing) (Ou := reference_outputs) sample_wpkh_script [] sample_wpkh_witness 0%N 0%N with
          | Some (Ok _) => true
          | _ => false
          end = true) as E by (vm_cast_no_check (eq_refl true)).
  destruct (from_txdata_spec (Pa := reference_parsing) (Ou := reference_outputs) sample_wpkh_script [] sample_wpkh_witness 0%N 0%N)
    as (r & Hr & H).
  rewrite Hr in E. destruct r as [self|e]; [|discriminate E]. exists self. split; [exact Hr|].
  destruct (H self eq_refl) as [Hc Hl]. exact (conj Hc (Hl (fun _ => true))).
Defined.
