(* ===== verification/SpendAccept.v ===== *)
(** The spends of descriptors against the interpreter: what [get_satisfaction] returns is taken by
    [from_txdata] and accepted, with the script code that the descriptor signs for. *)
From S2P Require Import Prelude Bitcoin Primitives Reference Script Ord Correctness Malleability Types ExtData Tree Ast Context Samples Views Encode Tokens Lex Decode DecodeSound DecodeTotal DecodeEncode Translate Interp InterpProps InterpRuns Satisfy WitSpec Accept KeyHash.
From S2P Require Import TapTree SpendInfo Descriptor Outputs.
From S2P Require Import DescriptorSpend.
From S2P Require Import FromTx FromTxProps.

Section Forms.
Context {B : Bitcoin} {Sp : Spending} {Ta : Taproot} {Sc : Scripts} {Pa : Parsing} {Ou : Outputs}.
Context {SZ : SizeLaws B} {OL : OutputLaws Ou}.

(** ** The forms of scriptPubkeys exclude each other *)

Ltac forms_of Hl :=
  rewrite ?is_p2pk_spec, ?is_p2pkh_spec, ?is_p2wpkh_spec, ?is_p2wsh_spec, ?is_p2tr_spec, ?is_p2sh_spec;
  unfold byte_at; cbn [app]; rewrite ?length_cons, ?length_app, Hl; cbn [length Nat.add];
  rewrite ?andb_false_l, ?andb_false_r; try reflexivity.

Lemma p2pkh_form h : is_p2pk (new_p2pkh h) = false /\ is_p2pkh (new_p2pkh h) = true.
Proof.
  rewrite new_p2pkh_spec. pose proof (hash160_size h) as Hl. split; forms_of Hl.
  change (Byte.x76 :: Byte.xa9 :: Byte.x14 :: hash160_to_byte_array h ++ [Byte.x88; Byte.xac])
    with ([Byte.x76; Byte.xa9; Byte.x14] ++ hash160_to_byte_array h ++ [Byte.x88; Byte.xac]).
  rewrite !(lookup_app_r [Byte.x76; Byte.xa9; Byte.x14] _ 23), !(lookup_app_r [Byte.x76; Byte.xa9; Byte.x14] _ 24) by (cbn; lia).
  cbn [length Nat.sub].
  rewrite (lookup_app_r _ _ 20), (lookup_app_r _ _ 21) by (rewrite Hl; lia). rewrite Hl. reflexivity.
Qed.

Lemma p2wpkh_form h :
  is_p2pk (new_p2wpkh h) = false /\ is_p2pkh (new_p2wpkh h) = false /\ is_p2wpkh (new_p2wpkh h) = true.
Proof. rewrite new_p2wpkh_spec. pose proof (hash160_size h) as Hl. split_and!; forms_of Hl. Qed.

Lemma p2wsh_form h :
  is_p2pk (new_p2wsh h) = false /\ is_p2pkh (new_p2wsh h) = false /\ is_p2wpkh (new_p2wsh h) = false
  /\ is_p2wsh (new_p2wsh h) = true.
Proof. rewrite new_p2wsh_spec. pose proof (sha256_size h) as Hl. split_and!; forms_of Hl. Qed.

Lemma p2sh_form h :
  is_p2pk (new_p2sh h) = false /\ is_p2pkh (new_p2sh h) = false /\ is_p2wpkh (new_p2sh h) = false
  /\ is_p2wsh (new_p2sh h) = false /\ is_p2tr (new_p2sh h) = false /\ is_p2sh (new_p2sh h) = true.
Proof.
  rewrite new_p2sh_spec. pose proof (hash160_size h) as Hl. split_and!; forms_of Hl.
  change (Byte.xa9 :: Byte.x14 :: hash160_to_byte_array h ++ [Byte.x87])
    with ([Byte.xa9; Byte.x14] ++ hash160_to_byte_array h ++ [Byte.x87]).
  rewrite !(lookup_app_r [Byte.xa9; Byte.x14] _ 22) by (cbn; lia).
  cbn [length Nat.sub].
  rewrite (lookup_app_r _ _ 20) by (rewrite Hl; lia). rewrite Hl. reflexivity.
Qed.
End Forms.

Section Accepted.
Context {B : Bitcoin} {Sp : Spending} {Ta : Taproot} {Sc : Scripts} {Pa : Parsing} {Ou : Outputs}.
Context {LT : LockTimeLaws B} {BL : BuilderLaws B} {SZ : SizeLaws B} {SL : ScriptLaws Sc} {HL : HashLaws Sc}.
Context {KH : KeyHashLaws B} {PL : ParsingLaws Pa} {CL : CanonicalLaws Pa} {OL : OutputLaws Ou}.

(** ** Elements *)

Lemma element_push b : 2 <= length b -> element_from b = Push b.
Proof.
  intros H. unfold element_from. destruct b as [|x [|y b]]; [simpl in H; lia..|].
  by rewrite bool_decide_eq_false_2.
Qed.

Lemma minimal_long b : 2 <= length b -> minimal_push b = true.
Proof. destruct b as [|x [|y b]]; simpl; [lia..|done]. Qed.

(** The instructions of pushes of long elements are read back one by one. *)
Lemma instructions_pushes l :
  Forall (fun s => 2 <= length s /\ (N.of_nat (length s) < 2 ^ 32)%N) l ->
  instructions_minimal (into_script (fold_left push_slice l Builder_new)) = map (fun s => Ok (PushBytes s)) l.
Proof.
  intros H. assert (forall b, into_script (fold_left push_slice l b)
    = into_script b ++ concat (map (fun s => push_header (length s) ++ s) l)) as ->.
  { clear H. induction l as [|s l IH]; intros b; simpl; [by rewrite app_nil_r|].
    by rewrite IH, script_push_slice, <- !app_assoc. }
  rewrite script_new. cbn [app]. induction H as [|s l [H2 H32] _ IH]; simpl; [apply instructions_minimal_nil|].
  rewrite <- app_assoc, instructions_minimal_push by (done || by apply minimal_long). by rewrite IH.
Qed.

Lemma elements_pushes l :
  Forall (fun s => 2 <= length s /\ (N.of_nat (length s) < 2 ^ 32)%N) l ->
  mapM (M := result TxError) from_instruction (instructions_minimal (into_script (fold_left push_slice l Builder_new)))
  = Ok (map Push l).
Proof.
  intros H. rewrite instructions_pushes by done. induction H as [|s l [H2 _] _ IH]; [done|].
  cbn [map]. cbn [mapM]. cbn [from_instruction]. rewrite element_push by done. cbn [mbind result_bind].
  rewrite IH. done.
Qed.

Lemma pk_from_key pk compressed :
  (compressed = true -> PublicKey_compressed pk = true) ->
  pk_from_stack_elem (element_from (PublicKey_to_bytes pk)) compressed = Ok pk.
Proof.
  intros H. rewrite element_push by (rewrite PublicKey_size; destruct (PublicKey_compressed pk); lia).
  cbn. unfold pk_from_slice. rewrite PublicKey_roundtrip.
  destruct compressed; [by rewrite H | done].
Qed.

(** ** Scripts that are read back *)

Context (verify : KeySigPair -> bool) (sequence : Sequence) (lock_time : LockTime) (tx_template : option sha256_Hash).

(** A Miniscript that is read back from its script, up to its key hashes, with a satisfier that
    tells the truth about the transaction. *)
Record readable {K : MiniscriptKey} {TP : ToPublicKey K} {S : Satisfier} (ctx : ScriptContext) (ms : Miniscript) : Prop := {
  readable_wf : wf ctx ms;
  readable_context : context_valid ctx ms;
  readable_height : height ms <= MAX_RECURSION_DEPTH;
  readable_base : base_of ms = BaseB;
  readable_supported : supported ctx ms;
  readable_decoded : decoded ctx Seq (hash_keys ctx ms) = true;
  readable_truthful : Truthful (leaf_hash_internal ctx ms) verify sequence lock_time tx_template;
}.

Lemma hash_keys_ms_script {K : MiniscriptKey} {TP : ToPublicKey K} ctx ms :
  ms_script ctx (hash_keys ctx ms) = ms_script ctx ms.
Proof. unfold ms_script. by rewrite hash_keys_encode. Qed.

Lemma readable_decodes {K : MiniscriptKey} {TP : ToPublicKey K} {PK : ParseableKey} {KL : KeyLaws TP}
    {S : Satisfier} ctx {PW : ParseableLaws TP ctx} ms :
  ctx <> NoChecks -> readable ctx ms -> decode_consensus ctx (ms_script ctx ms) = Some (Ok (hash_keys ctx ms)).
Proof.
  intros Hctx []. rewrite <- hash_keys_ms_script.
  apply (decode_encoded ctx (hash_keys ctx ms) allow_all); try done.
  - by apply hash_keys_wf.
  - by apply hash_keys_context_valid.
  - by rewrite hash_keys_height.
  - by rewrite hash_keys_ty.
Qed.

(** The script that the interpreter evaluates for it, and its acceptance. *)
Lemma readable_accepted {K : MiniscriptKey} {TP : ToPublicKey K} {S : Satisfier} ctx ms w :
  readable ctx ms -> satisfy ctx ms = Some (Ok w) \/ satisfy_malleable ctx ms = Some (Ok w) ->
  exists script constraints,
    translate_pk_ctx NoChecks (script_translator ctx) (hash_keys ctx ms) = Some (Ok script)
    /\ run verify sequence lock_time tx_template (sig_type ctx) (2 + turns script)
         (iter_script script (stack_of w)) = Some (constraints, EndNormal)
    /\ Forall (fun r => is_ok r = true) constraints.
Proof.
  intros [] Hsat.
  destruct (translate_total ctx (script_translator ctx) (hash_keys ctx ms)) as (s & Hs & Hws & _).
  { by apply hash_keys_wf. } { by rewrite hash_keys_height. }
  pose proof (hash_keys_script ctx ms s Hs) as Hof.
  destruct (script_accepts ctx verify sequence lock_time tx_template ms w s) as (l & Hl & Hok); [done..| |done|].
  - by apply (script_of_ok ctx ms).
  - exists s, l. split_and!; [by rewrite translate_pk_ctx_eq, Hs | exact Hl | exact Hok].
Qed.

(** A script that is decoded is neither empty nor the byte 01. *)
Lemma decoded_push {K : MiniscriptKey} {PK : ParseableKey} ctx script ms :
  decode_consensus ctx script = Some (Ok ms) -> element_from script = Push script.
Proof.
  intros H. unfold element_from. case_bool_decide as H1.
  - subst script. destruct instructions_early_end as (e & l & He).
    unfold decode_consensus, decode_with_ext, lex in H. rewrite He in H. done.
  - destruct script; [|done]. unfold decode_consensus, decode_with_ext, lex in H. rewrite instructions_nil in H. done.
Qed.

Lemma ms_satisfy_either {K : MiniscriptKey} {TP : ToPublicKey K} {S : Satisfier} mall ctx ms w :
  ms_satisfy mall ctx ms = Some (Ok w) -> satisfy ctx ms = Some (Ok w) \/ satisfy_malleable ctx ms = Some (Ok w).
Proof.
  unfold ms_satisfy. destruct mall; intros H; [right | left].
  - destruct (satisfy_malleable ctx ms) as [r|]; [|done]. by injection H as ->%map_err_Ok_inv.
  - destruct (satisfy ctx ms) as [r|]; [|done]. by injection H as ->%map_err_Ok_inv.
Qed.

(** The interpreter with the template hash of the transaction. *)
Definition with_template (self : Interpreter) : Interpreter :=
  match tx_template with Some h => with_tx_template self h | None => self end.

(** All items are constraints, and the last one is followed by the end. *)
Definition evaluates (inner : Inner) (stack : Stack) (code : option bytes) : Prop :=
  exists constraints,
    iter_custom (with_template (mkInterpreter inner stack code sequence lock_time None)) verify (inner_turns inner)
    = Some (constraints, EndNormal)
    /\ Forall (fun r => is_ok r = true) constraints.

Lemma script_evaluates inner stack code s type sig_type constraints :
  inner = InnerScript s type -> in_sig_type (mkInterpreter inner stack code sequence lock_time None) = sig_type ->
  run verify sequence lock_time tx_template sig_type (2 + turns s) (iter_script s stack) = Some (constraints, EndNormal) ->
  Forall (fun r => is_ok r = true) constraints ->
  evaluates inner stack code.
Proof.
  intros -> <- H Hok. exists constraints. split; [|done]. unfold iter_custom, in_iter, with_template.
  destruct tx_template; exact H.
Qed.

Lemma stack_of_snoc w b : rev (map element_from (w ++ [b])) = element_from b :: stack_of w.
Proof. by rewrite map_app, rev_app_distr. Qed.

Lemma no_elements : mapM (M := result TxError) from_instruction (instructions_minimal []) = Ok [].
Proof. by rewrite instructions_minimal_nil. Qed.
End Accepted.

(** * Outputs of keys and of witness scripts *)

Section Ecdsa.
Context {B : Bitcoin} {Sp : Spending} {Ta : Taproot} {Sc : Scripts} {Pa : Parsing} {Ou : Outputs}.
Context {LT : LockTimeLaws B} {BL : BuilderLaws B} {SZ : SizeLaws B} {SL : ScriptLaws Sc} {HL : HashLaws Sc}.
Context {KH : KeyHashLaws B} {PL : ParsingLaws Pa} {CL : CanonicalLaws Pa} {OL : OutputLaws Ou}.

#[local] Existing Instance PublicKey_key | 0.
#[local] Existing Instance PublicKey_to_public_key | 0.
#[local] Existing Instance PublicKey_parseable | 0.

Context {S : Satisfier (K := PublicKey_key)}.
Context (verify : KeySigPair -> bool) (sequence : Sequence) (lock_time : LockTime) (tx_template : option sha256_Hash).

Abbreviation readable := (readable verify sequence lock_time tx_template Segwitv0).
Abbreviation with_template := (with_template tx_template).
Abbreviation evaluates := (evaluates verify sequence lock_time tx_template).

(** The Miniscript of a witness script. *)
Definition wsh_ms (wsh : Wsh) : option Miniscript :=
  match wsh with
  | WshSortedMulti smv => smv_miniscript Segwitv0 (sorted_keys smv)
  | WshMs ms => Some ms
  end.

(** The signature for a key is one of the transaction, and short. *)
Definition signs (pk : PublicKey) : Prop :=
  forall sig, lookup_ecdsa_sig pk = Some sig ->
    verify (KeySigEcdsa pk sig) = true /\ (N.of_nat (length (EcdsaSignature_to_vec sig)) < 2 ^ 32)%N.

(** The outputs that are considered: keys, and witness scripts. *)
Definition spendable (d : Descriptor) : Prop :=
  match d with
  | Desc_Pkh pk | Desc_Wpkh pk | Desc_Sh (ShWpkh pk) => signs pk
  | Desc_Wsh wsh | Desc_Sh (ShWsh wsh) => exists ms, wsh_ms wsh = Some ms /\ readable ms
  | _ => False
  end.

(** What the interpreter is to make of the spend of [d]. *)
Definition accepted (d : Descriptor) (inner : Inner) (stack : Stack) (code : option bytes) : Prop :=
  (exists script, desc_script_code d = Ok script /\ code = Some script)
  /\ evaluates inner stack code.

(** ** Keys *)

Lemma key_accepted pk type sig code :
  type <> Type_TrKey -> verify (KeySigEcdsa pk sig) = true ->
  evaluates (InnerPublicKey (Fullkey pk) type) [element_from (EcdsaSignature_to_vec sig)] code.
Proof.
  intros Ht Hv. rewrite element_push by apply EcdsaSignature_len.
  exists [Ok (SatisfiedConstraint.PublicKey (KeySigEcdsa pk sig))]. split; [|by repeat constructor].
  assert (forall tmpl sig_type, run verify sequence lock_time tmpl sig_type 3
            (iter_public_key (Fullkey pk) [Push (EcdsaSignature_to_vec sig)])
          = Some ([Ok (SatisfiedConstraint.PublicKey (KeySigEcdsa pk sig))], EndNormal)) as H.
  { intros. cbn. by rewrite EcdsaSignature_roundtrip; cbn; rewrite Hv. }
  unfold iter_custom, in_iter, with_template. destruct tx_template; apply H.
Qed.

Lemma wpkh_data_accepted d pk program type mismatch sig :
  type <> Type_TrKey -> PublicKey_compressed pk = true -> verify (KeySigEcdsa pk sig) = true ->
  program = new_p2wpkh (ecdsa_pubkeyhash pk) ->
  desc_script_code d = Ok (p2pkh_script_pubkey pk) ->
  exists inner stack code,
    wpkh_data program type mismatch (element_from (PublicKey_to_bytes pk)) [element_from (EcdsaSignature_to_vec sig)]
    = Ok (inner, stack, code) /\ accepted d inner stack code.
Proof.
  intros Ht Hc Hv -> Hcode. unfold wpkh_data. rewrite pk_from_key by done. cbn [mbind result_bind].
  rewrite bool_decide_eq_true_2 by done. eexists _, _, _. split; [done|]. split.
  - exists (p2pkh_script_pubkey pk). split; [done|]. by rewrite p2pkh_spec.
  - by apply key_accepted.
Qed.

(** ** Witness scripts *)

Lemma smv_script ctx thresh ms : smv_miniscript ctx thresh = Some ms -> ms = ms_multi thresh.
Proof.
  unfold smv_miniscript. destruct (from_ast ctx _) as [m|] eqn:E; [|done]. intros [= ->].
  by apply from_ast_inv in E as (ty & [= <-] & -> & _).
Qed.

Lemma wsh_ms_script wsh ms : wsh_ms wsh = Some ms -> wsh_inner_script wsh = full_script Segwitv0 ms.
Proof. destruct wsh as [smv|m]; cbn; [by intros ->%smv_script | by intros [= ->]]. Qed.

Lemma wsh_data_accepted d ms w mall program type :
  readable ms -> ms_satisfy mall Segwitv0 ms = Some (Ok w) -> type = Type_Wsh \/ type = Type_ShWsh ->
  program = new_p2wsh (sha256_hash (full_script Segwitv0 ms)) ->
  desc_script_code d = Ok (full_script Segwitv0 ms) ->
  exists inner stack code,
    wsh_data program type (element_from (full_script Segwitv0 ms)) (stack_of w) = Some (Ok (inner, stack, code))
    /\ accepted d inner stack code.
Proof.
  intros Hr Hsat Htype -> Hcode. pose proof (PublicKey_parseable_laws Segwitv0 eq_refl).
  assert (decode_consensus Segwitv0 (full_script Segwitv0 ms) = Some (Ok (hash_keys Segwitv0 ms))) as Hd
    by (by apply (readable_decodes verify sequence lock_time tx_template)).
  rewrite (decoded_push Segwitv0 _ _ Hd). unfold wsh_data, full_script_from_stack_elem, script_from_stack_elem. rewrite Hd.
  cbn [fmap option_fmap option_map map_err]. unfold bind_r. cbn [mbind option_bind].
  apply ms_satisfy_either in Hsat.
  destruct (readable_accepted verify sequence lock_time tx_template (K := PublicKey_key) Segwitv0 ms w) as (s & l & Ht & Hl & Hok);
    [done..|].
  assert (to_no_checks_ms_full (hash_keys Segwitv0 ms) = Some s) as ->.
  { unfold to_no_checks_ms_full. change TranslateFullPk with (script_translator Segwitv0). by rewrite Ht. }
  unfold full_script. rewrite hash_keys_ms_script.
  cbn [mbind option_bind]. rewrite bool_decide_eq_true_2 by done. eexists _, _, _. split; [done|]. split; [by eexists|].
  apply (script_evaluates _ _ _ _ _ _ _ s type Ecdsa l); [done | by destruct Htype as [-> | ->] | exact Hl | exact Hok].
Qed.

(** ** Outputs *)

(** The scriptSig that pushes a redeem script, which is no shorter than two bytes. *)
Lemma redeem_elements redeem :
  2 <= length redeem <= 34 ->
  mapM (M := result TxError) from_instruction (instructions_minimal (push_script redeem)) = Ok [Push redeem].
Proof.
  intros H. apply (elements_pushes [redeem]). constructor; [|constructor]. split; [lia|].
  apply (N.le_lt_trans _ 34); [lia | reflexivity].
Qed.

Lemma p2wpkh_redeem h :
  length (new_p2wpkh h) = 22 /\ starts_with Byte.x00 Byte.x14 (new_p2wpkh h) = true.
Proof. rewrite new_p2wpkh_spec. split; [|done]. rewrite length_app, hash160_size. done. Qed.

Lemma p2wsh_redeem h :
  length (new_p2wsh h) = 34 /\ starts_with Byte.x00 Byte.x20 (new_p2wsh h) = true.
Proof. rewrite new_p2wsh_spec. split; [|done]. rewrite length_app, sha256_size. done. Qed.

Abbreviation spent d spk script_sig witness :=
  (exists inner stack code, inner_from_txdata spk script_sig witness = Some (Ok (inner, stack, code))
     /\ accepted d inner stack code).

Lemma pkh_spent pk sig script_sig witness :
  signs pk -> lookup_ecdsa_sig pk = Some sig -> pkh_get_satisfaction pk = Some (Ok (witness, script_sig)) ->
  spent (Desc_Pkh pk) (p2pkh_script_pubkey pk) script_sig witness.
Proof.
  intros Hs Hl H. destruct (Hs _ Hl) as [Hv H32]. unfold pkh_get_satisfaction in H. rewrite Hl in H. injection H as <- <-.
  rewrite push_key_slice. cbn [to_public_key PublicKey_to_public_key].
  unfold inner_from_txdata.
  change (push_slice (push_slice Builder_new (EcdsaSignature_to_vec sig)) (PublicKey_to_bytes pk))
    with (fold_left push_slice [EcdsaSignature_to_vec sig; PublicKey_to_bytes pk] Builder_new).
  rewrite elements_pushes.
  2: { constructor; [split; [apply EcdsaSignature_len | done]|]. constructor; [|constructor].
       rewrite PublicKey_size. destruct (PublicKey_compressed pk); split; lia. }
  rewrite p2pkh_spec. destruct (p2pkh_form (hash160_hash (PublicKey_to_bytes pk))) as [-> ->].
  unfold bind_r. cbn [mbind option_bind map rev app].
  unfold p2pkh_data. cbn [bool_decide decide negb rev map].
  rewrite <- (element_push (PublicKey_to_bytes pk)) by (rewrite PublicKey_size; destruct (PublicKey_compressed pk); lia).
  rewrite pk_from_key by (intros ?; discriminate). cbn [mbind result_bind].
  rewrite !bool_decide_eq_true_2 by done. cbn [negb].
  eexists _, _, _. split; [done|]. split.
  - eexists. split; [done|]. cbn. by rewrite p2pkh_spec.
  - rewrite <- (element_push (EcdsaSignature_to_vec sig)) by apply EcdsaSignature_len. by apply key_accepted.
Qed.

Lemma wpkh_spent pk sig spk script_sig witness :
  signs pk -> lookup_ecdsa_sig pk = Some sig -> wpkh_script_pubkey pk = Some spk ->
  wpkh_get_satisfaction pk = Some (Ok (witness, script_sig)) ->
  spent (Desc_Wpkh pk) spk script_sig witness.
Proof.
  intros Hs Hl Hspk H. destruct (Hs _ Hl) as [Hv _]. unfold wpkh_get_satisfaction in H. rewrite Hl in H. injection H as <- <-.
  unfold wpkh_script_pubkey in Hspk. cbn [to_public_key PublicKey_to_public_key] in Hspk.
  destruct (PublicKey_compressed pk) eqn:Hc; [|done]. injection Hspk as <-.
  unfold inner_from_txdata. rewrite no_elements, p2wpkh_spec.
  destruct (p2wpkh_form (hash160_hash (PublicKey_to_bytes pk))) as (-> & -> & ->).
  unfold bind_r. cbn [mbind option_bind map rev app].
  unfold p2wpkh_data. cbn [bool_decide decide negb rev map].
  destruct (wpkh_data_accepted (Desc_Wpkh (K := PublicKey_key) pk) pk (new_p2wpkh (ecdsa_pubkeyhash pk)) Type_Wpkh
              IncorrectWPubkeyHash sig) as (inner & stack & code & Hw & Ha); [done..|].
  exists inner, stack, code. split; [|exact Ha]. by rewrite <- Hw.
Qed.

Lemma wsh_spent wsh ms mall script_sig witness :
  wsh_ms wsh = Some ms -> readable ms -> wsh_get_satisfaction mall wsh = Some (Ok (witness, script_sig)) ->
  script_sig = [] /\ exists w mall', witness = w ++ [full_script Segwitv0 ms] /\ ms_satisfy mall' Segwitv0 ms = Some (Ok w).
Proof.
  intros Hm Hr H. unfold wsh_get_satisfaction in H. rewrite (wsh_ms_script _ _ Hm) in H.
  destruct wsh as [smv|m]; cbn in Hm.
  - unfold smv_satisfy in H. rewrite Hm in H. cbn [mbind option_bind] in H.
    destruct (ms_satisfy false Segwitv0 ms) as [[w|e]|] eqn:E; [|done..]. injection H as <- <-. eauto.
  - injection Hm as ->. destruct (ms_satisfy mall Segwitv0 ms) as [[w|e]|] eqn:E; [|done..]. injection H as <- <-. eauto.
Qed.

Lemma wsh_output_spent mall wsh ms script_sig witness :
  wsh_ms wsh = Some ms -> readable ms -> wsh_get_satisfaction mall wsh = Some (Ok (witness, script_sig)) ->
  spent (Desc_Wsh (K := PublicKey_key) wsh) (wsh_script_pubkey wsh) script_sig witness.
Proof.
  intros Hm Hr H. destruct (wsh_spent _ _ _ _ _ Hm Hr H) as (-> & w & mall' & -> & Hw).
  unfold inner_from_txdata, wsh_script_pubkey. rewrite no_elements, (wsh_ms_script _ _ Hm), to_p2wsh_spec.
  destruct (p2wsh_form (sha256_hash (full_script Segwitv0 ms))) as (-> & -> & -> & ->).
  unfold bind_r. cbn [mbind option_bind]. rewrite stack_of_snoc. unfold p2wsh_data. cbn [rev].
  rewrite bool_decide_eq_true_2 by done. cbn [negb].
  eapply wsh_data_accepted; [done | done | by left | done |]. cbn. by rewrite (wsh_ms_script _ _ Hm).
Qed.

Lemma sh_wsh_spent mall wsh ms spk script_sig witness :
  wsh_ms wsh = Some ms -> readable ms -> sh_script_pubkey (ShWsh (K := PublicKey_key) wsh) = Some spk ->
  sh_get_satisfaction mall (ShWsh wsh) = Some (Ok (witness, script_sig)) ->
  spent (Desc_Sh (K := PublicKey_key) (ShWsh wsh)) spk script_sig witness.
Proof.
  intros Hm Hr [= <-] H. unfold sh_get_satisfaction in H. cbn [sh_unsigned_script_sig mbind option_bind] in H.
  destruct (wsh_get_satisfaction mall wsh) as [[[wit sig]|e]|] eqn:E; [|done..]. injection H as <- <-.
  destruct (wsh_spent _ _ _ _ _ Hm Hr E) as (-> & w & mall' & -> & Hw).
  unfold inner_from_txdata, wsh_script_pubkey. rewrite (wsh_ms_script _ _ Hm), to_p2wsh_spec.
  destruct (p2wsh_redeem (sha256_hash (full_script Segwitv0 ms))) as [Hl Hst].
  rewrite redeem_elements by lia. rewrite to_p2sh_spec.
  destruct (p2sh_form (hash160_hash (new_p2wsh (sha256_hash (full_script Segwitv0 ms))))) as (-> & -> & -> & -> & -> & ->).
  unfold bind_r. cbn [mbind option_bind rev app]. rewrite stack_of_snoc. unfold p2sh_data.
  rewrite bool_decide_eq_true_2 by done. cbn [negb]. rewrite Hl, Hst. cbn [Nat.eqb andb].
  rewrite bool_decide_eq_true_2 by done. cbn [negb].
  eapply wsh_data_accepted; [done | done | by right | done |]. cbn. by rewrite (wsh_ms_script _ _ Hm).
Qed.

Lemma sh_wpkh_spent mall pk sig spk script_sig witness :
  signs pk -> lookup_ecdsa_sig pk = Some sig -> sh_script_pubkey (ShWpkh (K := PublicKey_key) pk) = Some spk ->
  sh_get_satisfaction mall (ShWpkh (K := PublicKey_key) pk) = Some (Ok (witness, script_sig)) ->
  spent (Desc_Sh (K := PublicKey_key) (ShWpkh (K := PublicKey_key) pk)) spk script_sig witness.
Proof.
  intros Hs Hl Hspk H. destruct (Hs _ Hl) as [Hv _]. unfold sh_get_satisfaction in H.
  cbn [sh_unsigned_script_sig sh_script_pubkey] in H, Hspk. unfold wpkh_script_pubkey in H, Hspk.
  cbn [to_public_key PublicKey_to_public_key] in H, Hspk.
  destruct (PublicKey_compressed pk) eqn:Hc; [|done]. injection Hspk as <-.
  cbn [fmap option_fmap option_map mbind option_bind] in H. unfold wpkh_get_satisfaction in H. rewrite Hl in H.
  injection H as <- <-. unfold inner_from_txdata. cbn [to_public_key PublicKey_to_public_key]. rewrite p2wpkh_spec.
  destruct (p2wpkh_redeem (hash160_hash (PublicKey_to_bytes pk))) as [Hlen Hst].
  rewrite redeem_elements by lia. rewrite to_p2sh_spec.
  destruct (p2sh_form (hash160_hash (new_p2wpkh (hash160_hash (PublicKey_to_bytes pk))))) as (-> & -> & -> & -> & -> & ->).
  unfold bind_r. cbn [mbind option_bind rev app map]. unfold p2sh_data.
  rewrite bool_decide_eq_true_2 by done. cbn [negb]. rewrite Hlen, Hst. cbn [Nat.eqb andb].
  rewrite bool_decide_eq_true_2 by done. cbn [negb].
  destruct (wpkh_data_accepted (Desc_Sh (K := PublicKey_key) (ShWpkh (K := PublicKey_key) pk)) pk
              (new_p2wpkh (ecdsa_pubkeyhash pk)) Type_ShWpkh IncorrectWScriptHash sig)
    as (inner & stack & code & Hw & Ha); [done..|].
  exists inner, stack, code. split; [|exact Ha]. by rewrite <- Hw.
Qed.

(** C2: Descriptors, signers and the interpreter agree. Let [d] be [pkh], [wpkh] or [sh(wpkh)]
    of a key, or [wsh] or [sh(wsh)] of a Miniscript or of a sorted multisignature ([spendable]).
    Let the answers of the satisfier be true of the transaction, and its signatures for [pkh] be
    shorter than 2^32 bytes. Let the Miniscript be well typed, of base type [B], at most 402
    levels high and within the checks of its context, without a hash lock on 32 zero bytes, and
    in the form that the decoder reads back from its script up to key hashes, which the decoder
    gives for the keys of [pk_h] ([readable]). Then what [get_satisfaction] and
    [get_satisfaction_mall] return is taken by the interpreter as a spend of the scriptPubkey of
    the descriptor, with the script code that the descriptor gives to the signers, and evaluated
    without an error. Bare outputs and redeem scripts other than these are not covered. *)
Theorem interpreter_accepts_spend mall (d : Descriptor (K := PublicKey_key)) spk witness script_sig :
  spendable d -> desc_script_pubkey d = Some spk -> spend_with mall d = Some (Ok (witness, script_sig)) ->
  exists self script constraints,
    from_txdata spk script_sig witness sequence lock_time = Some (Ok self)
    /\ desc_script_code d = Ok script /\ in_script_code self = Some script
    /\ iter_custom (with_template self) verify (inner_turns (in_inner self)) = Some (constraints, EndNormal)
    /\ Forall (fun r => is_ok r = true) constraints.
Proof.
  intros Hd Hspk Hs.
  assert (spent d spk script_sig witness) as (inner & stack & code & H & (script & Hc & ->) & l & Hl & Hok).
  2: { exists (mkInterpreter inner stack (Some script) sequence lock_time None), script, l.
       unfold from_txdata. rewrite H. split_and!; done. }
  destruct d as [ms|pk|pk|sh|wsh|tr]; cbn in Hd, Hspk, Hs; try done.
  - injection Hspk as <-. destruct (lookup_ecdsa_sig pk) as [sig|] eqn:E; [by eapply pkh_spent|].
    unfold pkh_get_satisfaction in Hs. by rewrite E in Hs.
  - destruct (lookup_ecdsa_sig pk) as [sig|] eqn:E; [by eapply wpkh_spent|].
    unfold wpkh_get_satisfaction in Hs. by rewrite E in Hs.
  - destruct sh as [wsh|pk|smv|ms]; try done.
    + destruct Hd as (ms & Hm & Hr). by eapply sh_wsh_spent.
    + destruct (lookup_ecdsa_sig pk) as [sig|] eqn:E; [by eapply sh_wpkh_spent|].
      unfold sh_get_satisfaction, wpkh_get_satisfaction in Hs. rewrite E in Hs.
      by destruct (sh_unsigned_script_sig _).
  - destruct Hd as (ms & Hm & Hr). injection Hspk as <-. by eapply wsh_output_spent.
Qed.
End Ecdsa.

(** * Witnesses *)

(** [and_v(v:pkh(B),older(144))] *)
Definition sample_delay : Miniscript :=
  build Segwitv0 (Terminal.AndV
    (build Segwitv0 (Terminal.Verify (build Segwitv0 (Terminal.Check (build Segwitv0 (Terminal.PkH (K := reference_key) keyB))))))
    (build Segwitv0 (Terminal.Older (mkRelLockTime (B := reference) 144%N)))).

(** B spends [sh(wsh(...))] of it after the delay. *)
Definition sample_sh_wsh : Descriptor (K := reference_key) := Desc_Sh (ShWsh (WshMs sample_delay)).

Lemma sample_spendable :
  spendable (Pa := reference_parsing) (S := sample_satisfier [keyB] 144 0) sample_verify_sig 144%N 0%N None sample_sh_wsh.
Proof.
  exists sample_delay. split; [reflexivity|]. constructor.
  - unfold sample_delay. prove_wf.
  - apply context_valid_dec. vm_compute. reflexivity.
  - apply Nat.leb_le. vm_compute. reflexivity.
  - vm_compute. reflexivity.
  - repeat (apply List.Forall_cons; [exact I|]). apply List.Forall_nil.
  - vm_compute. reflexivity.
  - exact (sample_truthful [keyB] 144 0 _ eq_refl).
Qed.

Lemma interpreter_accepts_spend_witness :
  exists spk witness script_sig self script constraints,
    desc_script_pubkey (Ou := reference_outputs) sample_sh_wsh = Some spk
    /\ spend_with (S := sample_satisfier [keyB] 144 0) (Ou := reference_outputs) false sample_sh_wsh = Some (Ok (witness, script_sig))
    /\ from_txdata (Pa := reference_parsing) (Ou := reference_outputs) spk script_sig witness 144%N 0%N = Some (Ok self)
    /\ in_script_code self = Some script
    /\ iter_custom self sample_verify_sig (inner_turns (in_inner self)) = Some (constraints, EndNormal)
    /\ Forall (fun r => is_ok r = true) constraints.
Proof.
  set (S := sample_satisfier [keyB] 144 0).
  assert (match spend_with (S := S) (Ou := reference_outputs) false sample_sh_wsh with Some (Ok _) => true | _ => false end
          = true) as E by (vm_cast_no_check (eq_refl true)).
  destruct (spend_with (S := S) (Ou := reference_outputs) false sample_sh_wsh) as [[[w sig]|e]|] eqn:Hs; [|discriminate E..].
  destruct (interpreter_accepts_spend (Pa := reference_parsing) (Ou := reference_outputs) (S := S)
              sample_verify_sig 144%N 0%N None false sample_sh_wsh _ w sig sample_spendable eq_refl Hs)
    as (self & script & constraints & Hf & _ & Hc & Hr & Hok).
  exact (ex_intro _ _ (ex_intro _ _ (ex_intro _ _ (ex_intro _ self (ex_intro _ script (ex_intro _ constraints
           (conj eq_refl (conj eq_refl (conj Hf (conj Hc (conj Hr Hok))))))))))).
Defined.
