(* ===== verification/TapAccept.v ===== *)
(** The spends of taproot outputs against the interpreter: what [get_satisfaction] returns for
    [tr] is taken by [from_txdata], with the output key or with a leaf of the tree that the
    control block proves, and accepted. *)
From S2P Require Import Prelude Bitcoin Primitives Reference Script Ord Correctness Malleability Types ExtData Tree Ast Context Samples Views Encode Tokens Lex Decode DecodeSound DecodeTotal DecodeEncode Translate Interp InterpProps InterpRuns Satisfy WitSpec Accept KeyHash.
From S2P Require Import TapTree SpendInfo Descriptor Outputs.
From S2P Require Import DescriptorSpend SpendProps.
From S2P Require Import FromTx FromTxProps SpendAccept.

Section Taproot.
Context {B : Bitcoin} {Sp : Spending} {Ta : Taproot} {Sc : Scripts} {Pa : Parsing} {Ou : Outputs}.
Context {LT : LockTimeLaws B} {BL : BuilderLaws B} {SZ : SizeLaws B} {SL : ScriptLaws Sc} {HL : HashLaws Sc}.
Context {KH : KeyHashLaws B} {PL : ParsingLaws Pa} {CL : CanonicalLaws Pa} {OL : OutputLaws Ou} {TL : TaprootLaws Ta}.

#[local] Existing Instance XOnlyPublicKey_key | 0.
#[local] Existing Instance XOnlyPublicKey_to_public_key | 0.
#[local] Existing Instance XOnlyPublicKey_parseable | 0.

Context {S : Satisfier (K := XOnlyPublicKey_key)}.
Context (verify : KeySigPair -> bool) (sequence : Sequence) (lock_time : LockTime) (tx_template : option sha256_Hash).

Abbreviation readable := (readable verify sequence lock_time tx_template Tap).
Abbreviation with_template := (with_template tx_template).
Abbreviation evaluates := (evaluates verify sequence lock_time tx_template).

(** The signature of the key path is one for the output key, and the leaves are read back. *)
Record tr_spendable (tr : Tr) : Prop := {
  tr_signs : forall info sig, from_tr tr = Some info -> lookup_tap_key_spend_sig (internal_key tr) = Some sig ->
    verify (KeySigSchnorr (TweakedPublicKey_to_inner (output_key info)) sig) = true;
  tr_leaves_readable : forall t, tree tr = Some t ->
    exists b, t = from_bintree b /\ bin_levels b <= TAPROOT_CONTROL_MAX_NODE_COUNT
      /\ forall depth ms, In (depth, ms) (taptree_leaves t) -> readable ms;
}.

(** ** The output *)

Lemma p2tr_form key :
  let spk := into_script (push_slice (push_opcode Builder_new OP_TRUE) (TweakedPublicKey_serialize key)) in
  is_p2pk spk = false /\ is_p2pkh spk = false /\ is_p2wpkh spk = false /\ is_p2wsh spk = false /\ is_p2tr spk = true
  /\ slice spk 2 (length spk) = Some (TweakedPublicKey_serialize key).
Proof.
  cbv zeta. pose proof (TweakedPublicKey_size key) as Hl.
  rewrite script_push_slice, script_push_opcode, script_new, opcode_one, Hl. cbn [app].
  rewrite is_p2pk_spec, is_p2pkh_spec, is_p2wpkh_spec, is_p2wsh_spec, is_p2tr_spec. unfold byte_at, slice.
  change (push_header 32) with [Byte.x20]. cbn [app length]. rewrite Hl. cbn. split_and!; try done.
  rewrite drop_0. f_equal. apply take_ge. lia.
Qed.

(** ** The key path *)

Lemma key_path_evaluates key sig :
  verify (KeySigSchnorr key sig) = true ->
  evaluates (InnerPublicKey (XOnly key) Type_TrKey) [element_from (TaprootSignature_to_vec sig)] None.
Proof.
  intros Hv. rewrite element_push by apply TaprootSignature_len.
  exists [Ok (SatisfiedConstraint.PublicKey (KeySigSchnorr key sig))]. split; [|by repeat constructor].
  assert (forall tmpl sig_type, run verify sequence lock_time tmpl sig_type 3
            (iter_public_key (XOnly key) [Push (TaprootSignature_to_vec sig)])
          = Some ([Ok (SatisfiedConstraint.PublicKey (KeySigSchnorr key sig))], EndNormal)) as H.
  { intros. cbn. by rewrite TaprootSignature_roundtrip; cbn; rewrite Hv. }
  unfold iter_custom, in_iter, SpendAccept.with_template. destruct tx_template; apply H.
Qed.

(** ** The leaves *)

Lemma from_tr_internal tr info : from_tr tr = Some info -> spend_internal_key info = to_x_only_pubkey (internal_key tr).
Proof.
  unfold from_tr. destruct (match tree tr with Some t => nodes_from_tap_tree t | None => Some [] end) as [l|]; [|done].
  cbn [mbind option_bind]. destruct (tap_tweak _ _). by intros [= <-].
Qed.

(** The items of the spending information are proved by their control blocks. *)
Lemma leaf_commits tr info leaves leaf :
  tr_spendable tr -> from_tr tr = Some info -> spend_items info = Some leaves -> leaf ∈ leaves ->
  readable (item_miniscript leaf)
  /\ item_script leaf = tap_script (item_miniscript leaf)
  /\ length (ControlBlock_serialize (control_block leaf)) >= 33
  /\ (exists x rest, ControlBlock_serialize (control_block leaf) = x :: rest /\ x <> Byte.x50)
  /\ ControlBlock_decode (ControlBlock_serialize (control_block leaf)) = Ok (control_block leaf)
  /\ verify_taproot_commitment (control_block leaf) (TweakedPublicKey_to_inner (output_key info)) (item_script leaf) = true.
Proof.
  intros [_ Hr] Hinfo Hitems Hin. destruct (tree tr) as [t|] eqn:Ht.
  - destruct (Hr t eq_refl) as (b & -> & Hlev & Hread).
    destruct (spend_info_right tr b Ht Hlev) as (info' & items & Hi & Hroot & Hkey & Hits & Hleaves & Hok & Hbranch).
    rewrite Hinfo in Hi. injection Hi as <-. rewrite Hitems in Hits. injection Hits as <-.
    assert (In (item_depth leaf, item_miniscript leaf) (taptree_leaves (from_bintree b))) as Hleaf.
    { rewrite <- Hleaves. apply in_map_iff. exists leaf. split; [done|]. by apply list_elem_of_In. }
    assert (length (merkle_branch leaf) <= TAPROOT_CONTROL_MAX_NODE_COUNT) as Hbr.
    { apply leaves_at_bound in Hleaf. unfold item_depth in Hleaf. lia. }
    rewrite Forall_forall in Hok, Hbranch. apply list_elem_of_In in Hin.
    destruct (Hok leaf Hin) as (Hs & Hh & Hcb). specialize (Hbranch leaf Hin).
    split; [by eapply Hread|]. split; [exact Hs|]. rewrite Hcb.
    split; [rewrite ControlBlock_size; lia|]. split; [apply ControlBlock_version|].
    split; [by apply ControlBlock_roundtrip|].
    rewrite Hs. apply verify_commitment. unfold commitment_root.
    rewrite Hh in Hbranch. unfold branch_root in Hbranch. rewrite Hbranch.
    rewrite (from_tr_internal tr info Hinfo). by rewrite <- Hkey.
  - exfalso. unfold from_tr in Hinfo. rewrite Ht in Hinfo. cbn in Hinfo. destruct (tap_tweak _ _) as [k p].
    injection Hinfo as <-. cbn in Hitems. injection Hitems as <-. by apply not_elem_of_nil in Hin.
Qed.

(** A leaf whose script is completed with [w]. *)
Lemma leaf_spend_evaluates mall key leaf w :
  readable (item_miniscript leaf) ->
  item_script leaf = tap_script (item_miniscript leaf) ->
  length (ControlBlock_serialize (control_block leaf)) >= 33 ->
  (exists x rest, ControlBlock_serialize (control_block leaf) = x :: rest /\ x <> Byte.x50) ->
  ControlBlock_decode (ControlBlock_serialize (control_block leaf)) = Ok (control_block leaf) ->
  verify_taproot_commitment (control_block leaf) key (item_script leaf) = true ->
  ms_satisfy mall Tap (item_miniscript leaf) = Some (Ok w) ->
  let stack := rev (map element_from ((w ++ [item_script leaf]) ++ [ControlBlock_serialize (control_block leaf)])) in
  has_annex stack = false /\ 2 <= length stack
  /\ exists s rest, tap_script_data key stack = Some (Ok (InnerScript s Type_TrScript, rest, Some (item_script leaf)))
       /\ evaluates (InnerScript s Type_TrScript) rest (Some (item_script leaf)).
Proof.
  intros Hr Hs Hlen (x & tail & Hx & Hannex) Hdec Hcommit Hsat. cbv zeta. rewrite stack_of_snoc. unfold stack_of at 1 2 3. rewrite stack_of_snoc.
  pose proof XOnlyPublicKey_parseable_laws as HP.
  assert (decode_consensus Tap (item_script leaf) = Some (Ok (hash_keys Tap (item_miniscript leaf)))) as Hd.
  { rewrite Hs. by apply (readable_decodes verify sequence lock_time tx_template). }
  rewrite (decoded_push Tap _ _ Hd), element_push by lia. rewrite Hx.
  split; [cbn; by apply bool_decide_eq_false_2|]. split; [cbn; lia|]. rewrite <- Hx.
  unfold tap_script_data, bind_r. cbn [as_push mbind option_bind]. rewrite Hdec. cbn [map_err mbind option_bind].
  unfold x_only_script_from_stack_elem, script_from_stack_elem. rewrite Hd. cbn [fmap option_fmap option_map map_err mbind option_bind].
  apply ms_satisfy_either in Hsat.
  destruct (readable_accepted verify sequence lock_time tx_template (K := XOnlyPublicKey_key) Tap (item_miniscript leaf) w)
    as (s & l & Ht & Hl & Hok); [done..|].
  assert (to_no_checks_ms_x_only (hash_keys Tap (item_miniscript leaf)) = Some s) as ->.
  { unfold to_no_checks_ms_x_only. change TranslateXOnlyPk with (script_translator Tap). by rewrite Ht. }
  unfold tap_script. rewrite hash_keys_ms_script. change (ms_script Tap (item_miniscript leaf)) with (tap_script (item_miniscript leaf)).
  cbn [mbind option_bind]. rewrite <- Hs, Hcommit. eexists _, _. split; [done|].
  apply (script_evaluates _ _ _ _ _ _ _ s Type_TrScript Schnorr l); [done | done | exact Hl | exact Hok].
Qed.

(** Completing a template with a script and a control block at its end. *)
Lemma complete_leaf tw script cb w :
  mapM satisfy_self (tw ++ [Placeholder.TapScript script; Placeholder.TapControlBlock cb]) = Some w ->
  exists w', mapM satisfy_self tw = Some w' /\ w = (w' ++ [script]) ++ [ControlBlock_serialize cb].
Proof.
  intros (wit & tail & Ht & Hc & ->)%mapM_Some_1%Forall2_app_inv_l.
  exists wit. split; [by apply mapM_Some_2|].
  inversion Hc as [|? y1 ? l1 Hy1 H1]; subst. inversion H1 as [|? y2 ? l2 Hy2 H2]; subst. inversion H2; subst.
  injection Hy1 as <-. injection Hy2 as <-. by rewrite <- app_assoc.
Qed.

(** C3: Descriptors, signers and the interpreter agree on taproot outputs. Let the answers of
    the satisfier be true of the transaction, and the tree have at most 128 levels; let the
    Miniscript of every leaf be well typed, of base type [B], at most 402 levels high and within
    the checks of tapscripts, without raw key hashes and without a hash lock on 32 zero bytes,
    and in the form that the decoder reads back from its script up to key hashes, which the
    decoder gives for the keys of [pk_h] ([tr_spendable]). Then what [get_satisfaction] and
    [get_satisfaction_mall] return for [tr] is taken by the interpreter as a spend of the
    scriptPubkey of the descriptor, by its output key or by the script of one of its leaves, and
    evaluated without an error. *)
Theorem interpreter_accepts_tr mall (tr : Tr (K := XOnlyPublicKey_key)) spk witness script_sig :
  tr_spendable tr -> tr_script_pubkey tr = Some spk -> tr_get_satisfaction mall tr = Some (Ok (witness, script_sig)) ->
  exists info self constraints,
    from_tr tr = Some info
    /\ from_txdata spk script_sig witness sequence lock_time = Some (Ok self)
    /\ match in_inner self with
       | InnerPublicKey pk _ => pk = XOnly (TweakedPublicKey_to_inner (output_key info)) /\ in_script_code self = None
       | InnerScript _ _ => exists leaves leaf, spend_items info = Some leaves /\ leaf ∈ leaves
                              /\ in_script_code self = Some (item_script leaf)
       end
    /\ iter_custom (with_template self) verify (inner_turns (in_inner self)) = Some (constraints, EndNormal)
    /\ Forall (fun r => is_ok r = true) constraints.
Proof.
  intros Hsp Hspk Hs. unfold tr_get_satisfaction in Hs.
  destruct (best_tap_spend tr mall) as [t|] eqn:Hbest; [|done]. cbn [mbind option_bind] in Hs.
  destruct (best_tap_spend_cases mall tr t Hbest) as (info & Hinfo & Hcases).
  unfold tr_script_pubkey in Hspk. rewrite Hinfo in Hspk. injection Hspk as <-.
  destruct (p2tr_form (output_key info)) as (Hf1 & Hf2 & Hf3 & Hf4 & Hf5 & Hkey).
  set (spk := into_script _) in *.
  assert (script_sig = [] /\ exists inner stack code,
    p2tr_data spk [] (rev (map element_from witness)) = Some (Ok (inner, stack, code)) /\ evaluates inner stack code
    /\ match inner with
       | InnerPublicKey pk _ => pk = XOnly (TweakedPublicKey_to_inner (output_key info)) /\ code = None
       | InnerScript _ _ => exists leaves leaf, spend_items info = Some leaves /\ leaf ∈ leaves /\ code = Some (item_script leaf)
       end) as (-> & inner & stack & code & Hd & (l & Hl & Hok) & Hin).
  2: { exists info, (mkInterpreter inner stack code sequence lock_time None), l. split; [done|]. split; [|done].
       unfold from_txdata, inner_from_txdata. rewrite no_elements. unfold bind_r at 2. cbn [mbind option_bind rev].
       rewrite Hf1, Hf2, Hf3, Hf4, Hf5, Hd. done. }
  unfold try_completing in Hs.
  unfold p2tr_data. rewrite bool_decide_eq_true_2 by done. cbn [negb]. rewrite Hkey. cbn [mbind option_bind].
  rewrite TweakedPublicKey_parsed.
  destruct (provider_lookup_tap_key_spend_sig (internal_key tr)) as [size|] eqn:Hsig.
  - rewrite Hcases in Hs. cbn in Hsig. destruct (lookup_tap_key_spend_sig (internal_key tr)) as [sig|] eqn:Esig; [|done].
    cbn in Hs. rewrite Esig in Hs. cbn in Hs. injection Hs as <- <-. split; [done|].
    cbn [map rev app]. rewrite (element_push (TaprootSignature_to_vec sig)) by apply TaprootSignature_len.
    assert (forall e, has_annex [e] = false) as -> by (by intros [| |[|]]).
    eexists _, _, _. split; [done|]. split; [|done].
    rewrite <- element_push by apply TaprootSignature_len. apply key_path_evaluates. by eapply tr_signs.
  - destruct Hcases as (leaves & Hitems & [[Hno _]|(wit & Hwit & (leaf & Hin & sat & tw & Htw & Hstack & ->) & _)]).
    { rewrite Hno in Hs. done. }
    rewrite Hwit in Hs. cbn [mbind option_bind] in Hs.
    destruct (mapM satisfy_self _) as [w|] eqn:Hw in Hs; [|done]. cbn in Hs. injection Hs as <- <-. split; [done|].
    apply complete_leaf in Hw as (w' & Hw' & ->).
    destruct (leaf_commits tr info leaves leaf Hsp Hinfo Hitems Hin) as (Hr & Hscript & Hlen & Hann & Hdec & Hcommit).
    destruct (leaf_spend_evaluates mall (TweakedPublicKey_to_inner (output_key info)) leaf w' Hr Hscript Hlen Hann Hdec Hcommit)
      as (Ha & H2 & s & rest & Hdata & He).
    { rewrite ms_satisfy_completed, Htw. unfold completed, try_completing. cbn [mbind option_bind]. rewrite Hstack. by rewrite Hw'. }
    rewrite Ha. exists (InnerScript s Type_TrScript), rest, (Some (item_script leaf)).
    destruct (rev _) as [|e1 [|e2 rest']] eqn:Erev; [cbn in H2; lia..|].
    split; [exact Hdata|]. split; [exact He|]. by exists leaves, leaf.
Qed.
End Taproot.

(** * Witness *)

Section Sample.
#[local] Existing Instance XOnlyPublicKey_key | 0.
#[local] Existing Instance XOnlyPublicKey_to_public_key | 0.

(** [pk(K)] over x-only keys. *)
Definition x_check (k : Byte.byte) : Terminal Miniscript :=
  Terminal.Check (ms_pk_k Tap k).

Definition x_pk (k : Byte.byte) : Miniscript :=
  match from_ast Tap (x_check k) with Ok ms => ms | Err _ => ms_FALSE end.

(** Signs for the key 0b in a leaf. *)
Definition x_satisfier : Satisfier (Sp := reference_spending) :=
  mkSatisfier (Sp := reference_spending)
    (fun _ => None) (fun _ => None) (fun k _ => if bool_decide (k = Byte.x0b) then Some [k] else None)
    None (fun _ => None) (fun _ => None) (fun _ => None) (fun _ => None) (fun _ => None) (fun _ => None)
    (fun _ => None) (fun _ => None) (fun _ => false) (fun _ => false) (fun _ => false).

(** [tr(0a,{pk(0c),pk(0b)})] *)
Definition x_bintree : bintree := Fork (Tip (x_pk Byte.x0c)) (Tip (x_pk Byte.x0b)).
Definition x_tr : Tr :=
  mkTr Byte.x0a (Some (from_bintree x_bintree)).

Lemma x_readable k : k = Byte.x0b \/ k = Byte.x0c ->
  readable (TP := XOnlyPublicKey_to_public_key (Ou := reference_outputs)) (S := x_satisfier)
    sample_verify_sig 0%N 0%N None Tap (x_pk k).
Proof.
  intros H. constructor.
  - assert (wf Tap (ms_pk_k Tap k)) as Hk
      by (constructor; [apply List.Forall_nil | exact I | reflexivity | reflexivity]).
    assert (is_ok (from_ast Tap (x_check k)) = true) as Hok by (destruct H as [-> | ->]; vm_cast_no_check (eq_refl true)).
    unfold x_pk. destruct (from_ast Tap (x_check k)) as [ms|] eqn:E; [|discriminate Hok].
    refine (from_ast_wf _ _ _ _ _ E); [|exact I]. apply List.Forall_cons; [exact Hk | apply List.Forall_nil].
  - apply context_valid_dec. destruct H as [-> | ->]; vm_cast_no_check (eq_refl true).
  - apply Nat.leb_le. destruct H as [-> | ->]; vm_cast_no_check (eq_refl true).
  - destruct H as [-> | ->]; vm_cast_no_check (eq_refl BaseB).
  - destruct H as [-> | ->]; (repeat (apply List.Forall_cons; [exact I|]); apply List.Forall_nil).
  - destruct H as [-> | ->]; vm_cast_no_check (eq_refl true).
  - constructor; try (intros; discriminate). cbn. intros pk s. case_bool_decide; [|discriminate]. intros [= <-].
    by apply bool_decide_eq_true_2.
Qed.

Lemma x_tr_spendable :
  tr_spendable (Ou := reference_outputs) (S := x_satisfier) sample_verify_sig 0%N 0%N None x_tr.
Proof.
  constructor; [discriminate|]. intros t [= <-]. exists x_bintree. split; [reflexivity|].
  split; [apply Nat.leb_le; vm_compute; reflexivity|]. intros depth ms Hin.
  cbn in Hin. destruct Hin as [[= _ <-]|[[= _ <-]|[]]]; apply x_readable; [by right | by left].
Qed.

Lemma interpreter_accepts_tr_witness :
  exists spk witness self constraints,
    tr_script_pubkey (TP := XOnlyPublicKey_to_public_key (Ou := reference_outputs)) x_tr = Some spk
    /\ tr_get_satisfaction (S := x_satisfier) (TP := XOnlyPublicKey_to_public_key (Ou := reference_outputs)) false x_tr
       = Some (Ok (witness, []))
    /\ from_txdata (Pa := reference_parsing) (Ou := reference_outputs) spk [] witness 0%N 0%N = Some (Ok self)
    /\ iter_custom self sample_verify_sig (inner_turns (in_inner self)) = Some (constraints, EndNormal)
    /\ Forall (fun r => is_ok r = true) constraints.
Proof.
  set (TP := XOnlyPublicKey_to_public_key (Ou := reference_outputs)).
  assert (match tr_get_satisfaction (S := x_satisfier) (TP := TP) false x_tr with Some (Ok (_, [])) => true | _ => false end
          = true) as E by (vm_cast_no_check (eq_refl true)).
  destruct (tr_get_satisfaction (S := x_satisfier) (TP := TP) false x_tr) as [[[w [|]]|e]|] eqn:Hs; [|discriminate E..].
  assert (is_some (tr_script_pubkey (TP := TP) x_tr) = true) as E'
    by (vm_cast_no_check (eq_refl true)).
  destruct (tr_script_pubkey (TP := TP) x_tr) as [spk|] eqn:Hspk; [|discriminate E'].
  destruct (interpreter_accepts_tr (Pa := reference_parsing) (Ou := reference_outputs) (S := x_satisfier)
              sample_verify_sig 0%N 0%N None false x_tr spk w [] x_tr_spendable Hspk Hs)
    as (info & self & constraints & _ & Hf & _ & Hr & Hok).
  exact (ex_intro _ spk (ex_intro _ w (ex_intro _ self (ex_intro _ constraints
           (conj eq_refl (conj eq_refl (conj Hf (conj Hr Hok)))))))).
Defined.
End Sample.
